(* ===== verification/_CoqProject ===== *)
-Q . S2P
Prelude.v
Machine.v
Logic.v
Lock.v
Shares.v
RwLock.v
CkRwlock.v
TfLock.v
SwLock.v
SpinTas.v
SpinDec.v
Ticket.v
PfLock.v
SpinMcs.v
SpinClh.v
SpinAnderson.v
Internal.v
Pr.v
PrRefine.v
Ghost.v
Bitmap.v
BitmapWords.v
BitmapSpec.v
BitmapScan.v
BitmapTheorems.v
CkArray.v
CkArraySpec.v
CkArrayTheorems.v
Linear.v
Ring.v
RingProof.v
RingOps.v
RingLin.v
RingTheorems.v
Stack.v
StackProof.v
StackOps.v
StackTheorems.v
FifoMpmc.v
FifoMpmcProof.v
FifoMpmcSteps.v
FifoMpmcLin.v
FifoSpsc.v
FifoSpscProof.v
FifoTheorems.v
Probe.v
Hs.v
HsInv.v
HsProofs.v
HsSpec.v
HsGc.v
HsTheorems.v
Ht.v
HtInv.v
HtProofs.v
HtSpec.v
HtGc.v
HtTheorems.v
Rhs.v
RhsWalk.v
RhsLayout.v
RhsProbe.v
RhsDelete.v
RhsGrow.v
RhsWf.v
RhsChain.v
RhsDisplace.v
RhsSet.v
RhsRefine.v
RhsTheorems.v
RhsFacts.v
