(* ===== verification/Prelude.v ===== *)
(** * Concurrency Kit: a verification development

    Concurrency Kit (ck) is a C library of locks, lock-free data structures and
    concurrently readable hash tables over a small set of atomic operations.  This
    library translates its core into executable definitions and proves what makes
    each part correct.  This file is the root; it also holds the wrap-around of
    machine integers, the tactics and the generic lemmas that all files share.

    ** Two kinds of models

    The code that several threads run at once (atomic operations, locks, the ring,
    the stack, and the bitmap, which is built on the atomic operations) is a program
    over shared memory.  [Machine] gives the memory (a finite map from addresses to
    words), one constructor of [op] per primitive of src/include/ck_pr.h, programs
    ([prog]) with their loops, a small-step semantics, threads that interleave at
    every memory access ([sys_step]) and an executable interpreter ([run],
    [run_sched]).  An access to an address outside the memory is stuck; [safe]
    says that no thread ever is.  [Logic] makes [prog] an Iris language with weakest
    preconditions, partial and total, and states adequacy in terms of [sys_step];
    no theorem about the code mentions separation logic in its statement.
    [Arrays] is the logic of arrays and of counting loops.

    The hash tables and ck_array have one writer; they are modelled as functions on
    records of their fields ([ck_hs], [ck_ht], [ck_rhs], [ck_array]), one function
    per C function, that return [None] when the code would fault (a null or freed
    map, an index out of its array) or when the fuel of a loop runs out.  The
    theorems show that this does not happen.  The allocator of ck_malloc.h is a
    parameter that may refuse; every call to it is logged.

    ** Files and code

    - [Internal]: src/src/ck_internal.h, the fallbacks of src/include/ck_cc.h, and
      the allocator.
    - [Pr], [PrRefine]: the compare-and-swap emulations of src/include/ck_pr.h, per
      macro and per integer width, and their refinement of the atomic operations.
    - [Lock]: the interface [LockSpec] of a mutual exclusion lock and the client
      theorem; [SpinTas] (spinlock/cas.h, fas.h, ck_backoff.h), [SpinDec] (dec.h),
      [Ticket] (ticket.h, both layouts), [SpinMcs] (mcs.h), [SpinClh] (clh.h) and
      [SpinAnderson] (anderson.h) are its instances.
    - [Linear]: the interface [LinSpec] of a linearizable object and the client
      theorem; its instances are the ring (src/include/ck_ring.h: code in [Ring],
      abstract object in [RingObj], proofs in [RingProof], [RingOps], [RingLin],
      [WaitFree], [RingTheorems]) and the stack (src/include/ck_stack.h: [Stack],
      [StackProof], [StackOps], [StackLin], [StackTheorems]).
    - [Bitmap] (src/include/ck_bitmap.h), with [BitmapWords] (32-bit words as sets of
      bit numbers), [BitmapSpec], [BitmapOps], [BitmapScan], [BitmapIter] and
      [BitmapTheorems].
    - [CkArray] (src/src/ck_array.c), [CkArraySpec], [CkArrayTheorems].
    - [Probe]: open addressing for any walk through the slots.  On it, the hash set
      (src/src/ck_hs.c: [Hs], then [HsInv] to [HsTheorems]) and the hash table
      (src/src/ck_ht.c: [Ht], then [HtInv] to [HtTheorems]).
    - The Robin Hood hash set (src/src/ck_rhs.c: [Rhs]); [RhsWalk] its geometry,
      [RhsLayout] and [RhsWanted] its layouts and counters, [RhsProbe] lookups,
      [RhsMove], [RhsChain], [RhsDisplace] displacement, [RhsDelete] deletion,
      [RhsGrow], [RhsWf] growth and the invariant, [RhsOps], [RhsSet], [RhsAdmin] the
      other operations against the relations of [RhsSpec] (proved in [RhsRefine]),
      [RhsTheorems] and [RhsFacts] the theorems.

    Functions keep their C names; the macros of a family are instantiated at the
    widths the source instantiates them at.  Fields of shared structures are
    addresses at an offset from the structure, one word each.

    ** What the theorems show

    - Linearizability: C1 (the ring, four interfaces), C2 (the stack, including
      entries that are reused at once).  C16 and C18 draw consequences for the ring
      (first in first out, counters modulo 2^32); C17 is wait-freedom of the
      single-producer single-consumer ring.
    - Refinement of abstract data types by whole histories of operations, refused
      allocations included: C3 (hash set), C4 (hash table), C5 (Robin Hood set), C13
      (bitmap), C14 (array; C20: what a concurrent reader sees).  C21 to C23:
      iteration yields every member once.  C28, C29: unique insertion.  C31:
      validation of options.
    - Mutual exclusion without lost updates in every interleaving: C6 to C12.
    - Atomic operations: C15 (an emulation may replace the operation in any threads),
      C19 (lock-freedom of the emulations), C30.
    - The Robin Hood table: C24 (invariant of the table in its fields), C25 (growth
      terminates for every hash function), C26, C27 (the walk and its inverse).
    - Behaviour at the limits of the code, each of which is a finding: C32 to C40.

    ** Bounds and fuel

    Loops that the source bounds only by progress carry fuel; each theorem that
    names a loop shows that it returns.  Restarts of the writers' operations after a
    growth: at most 64 ([restarts]), since a map can double at most 64 times before
    the allocator refuses; the tables' theorems suppose that requests of 2^34 bytes
    or more are refused ([malloc_limited]).  Growth itself: 66 attempts, since the
    capacity doubles between two and becomes 0 after 64.  Probes: one more than the
    slots of the map.  Placement in a new Robin Hood map: [grow_fuel], twice the
    largest sum of probe counts.  The Robin Hood set
    holds at most 65532 entries in C5, because its wanted counters have 16 bits (C40
    shows the wrap-around).  The ring serves fewer than 2^32 entries per multi-thread
    interface (no bound for one producer and one consumer), the stack fewer than 2^64
    removals (the width of its generation), the ticket locks fewer than 2^32 and 2^16
    threads, the decrement lock 2^32 - 2, the array lock at most as many threads as
    slots.  A theorem about an execution under every scheduler needs no fuel.

    ** Not modelled

    Weak memory: accesses are sequentially consistent and fences are steps without
    effect.  The assembly ports under src/include/gcc, whose operations are the
    primitives of [Machine].  Pointer packing (CK_HS_PP, CK_HT_PP, CK_RHS_PP), a
    build option.  Readers that run concurrently with the writer of a hash table:
    their retry on the generation is translated, but runs alone.  The default hash
    functions (ck_ht_hash.h), a parameter.  The stack functions for callers without
    concurrency (mpnc, spnc, npsc) are translated without a theorem.  The hierarchical
    CLH lock, the reader-writer and composed locks, ck_fifo, ck_queue, the barriers,
    the event counts, and safe memory reclamation (epochs, hazard pointers) are not
    yet modelled. *)

From stdpp Require Export base numbers list gmap.
From stdpp Require Import tactics.

#[global] Open Scope Z_scope.

(** * Machine-width unsigned integers

    A C unsigned integer of width [w] is a [Z] in [0, 2^w); every operation
    that can leave the range is followed by the corresponding wrap. *)

Definition u8 (z : Z) : Z := z mod 256.
Definition u16 (z : Z) : Z := z mod 65536.
Definition u32 (z : Z) : Z := z mod 4294967296.
Definition u64 (z : Z) : Z := z mod 18446744073709551616.

Definition UINT_MAX : Z := 4294967295.

(** [false]/[true] stored into an integer field. *)
Definition b2z (b : bool) : Z := if b then 1 else 0.

(** An integer used as a C condition. *)
Definition truthy (z : Z) : bool := negb (z =? 0).

Create HintDb ck.

Ltac unfold_uint := unfold u8, u16, u32, u64, UINT_MAX in *.

(** Arithmetic on wrapped integers: unfold the wraps and let [lia] treat the
    remaining [mod] by a literal. *)
Ltac ulia := unfold_uint; Z.to_euclidean_division_equations; lia.

Lemma u8_range z : 0 <= u8 z < 256.
Proof. ulia. Qed.

Lemma u16_range z : 0 <= u16 z < 65536.
Proof. ulia. Qed.

Lemma u32_range z : 0 <= u32 z < 4294967296.
Proof. ulia. Qed.

Lemma u64_range z : 0 <= u64 z < 18446744073709551616.
Proof. ulia. Qed.

Lemma u32_small z : 0 <= z < 4294967296 -> u32 z = z.
Proof. intros. apply Z.mod_small. lia. Qed.

Lemma u32_idem z : u32 (u32 z) = u32 z.
Proof. apply u32_small, u32_range. Qed.

Lemma u32_add_l x y : u32 (u32 x + y) = u32 (x + y).
Proof. apply Zplus_mod_idemp_l. Qed.

Lemma u32_sub_l x y : u32 (u32 x - y) = u32 (x - y).
Proof. apply Zminus_mod_idemp_l. Qed.

(** A counter that is advanced modulo the width. *)
Lemma u32_succ (n : nat) : u32 (u32 (Z.of_nat n) + 1) = u32 (Z.of_nat (S n)).
Proof. rewrite u32_add_l. f_equal. lia. Qed.

Lemma u32_sub_r x y : u32 (x - u32 y) = u32 (x - y).
Proof. apply Zminus_mod_idemp_r. Qed.

(** Two counters that differ by less than the modulus are equal as soon as
    their wrapped values are: what every ticket comparison relies on. *)
Lemma u32_inj_near a b : u32 a = u32 b -> Z.abs (a - b) < 4294967296 -> a = b.
Proof. ulia. Qed.

Lemma u16_inj_near a b : u16 a = u16 b -> Z.abs (a - b) < 65536 -> a = b.
Proof. ulia. Qed.

(** Numbers less than [N] apart with the same remainder are equal. *)
Lemma mod_near N c i j :
  (c <= i < c + N)%nat -> (c <= j < c + N)%nat -> (i mod N)%nat = (j mod N)%nat -> i = j.
Proof.
  intros Hi Hj Hm. pose proof (Nat.div_mod_eq i N). pose proof (Nat.div_mod_eq j N). rewrite Hm in H.
  assert (N <> 0)%nat by lia.
  destruct (decide (i / N = j / N)%nat) as [E|E]; [rewrite E in H; lia|]. exfalso.
  destruct (Nat.lt_trichotomy (i / N) (j / N)) as [L|[L|L]]; [|done|]; nia.
Qed.

(** Bits that a mask selects or clears, as arithmetic. *)
Lemma land_shifted x m k : 0 <= k -> Z.land x (Z.shiftl m k) = Z.shiftl (Z.land (Z.shiftr x k) m) k.
Proof.
  intros Hk. apply Z.bits_inj'. intros j Hj. rewrite Z.land_spec, !Z.shiftl_spec by done.
  destruct (Z.ltb_spec j k).
  - rewrite !(Z.testbit_neg_r _ (j - k)) by lia. now rewrite andb_false_r.
  - rewrite Z.land_spec, Z.shiftr_spec by lia. now replace (j - k + k) with j by lia.
Qed.

Lemma ldiff_sub x y : Z.ldiff x y = x - Z.land x y.
Proof.
  rewrite Z.sub_nocarry_ldiff.
  - apply Z.bits_inj'. intros j Hj. rewrite !Z.ldiff_spec, Z.land_spec. now do 2 destruct (Z.testbit _ j).
  - apply Z.bits_inj'. intros j Hj. rewrite Z.ldiff_spec, Z.land_spec, Z.bits_0. now do 2 destruct (Z.testbit _ j).
Qed.

Lemma land_bit x k : 0 <= k -> Z.land x (2 ^ k) = 2 ^ k * (x / 2 ^ k mod 2).
Proof.
  intros Hk. replace (2 ^ k) with (Z.shiftl 1 k) at 1 by (rewrite Z.shiftl_mul_pow2 by done; lia).
  rewrite land_shifted by done. change 1 with (Z.ones 1). rewrite Z.land_ones by done.
  rewrite Z.shiftl_mul_pow2, Z.shiftr_div_pow2 by done. change (2 ^ 1) with 2. lia.
Qed.

(** Clearing bit [k] of a 32-bit word. *)
Lemma land_clear x k :
  0 <= x < 4294967296 -> 0 <= k < 32 -> Z.land x (UINT_MAX - 2 ^ k) = x - 2 ^ k * (x / 2 ^ k mod 2).
Proof.
  intros Hx Hk. rewrite <- land_bit, <- ldiff_sub by lia.
  replace (UINT_MAX - 2 ^ k) with (Z.ldiff (Z.ones 32) (2 ^ k)).
  - rewrite !Z.ldiff_land, Z.land_assoc, Z.land_ones by done.
    f_equal. apply Z.mod_small. done.
  - rewrite ldiff_sub. f_equal. rewrite Z.land_comm, Z.land_ones by done. apply Z.mod_small.
    split; [lia|]. apply Z.pow_lt_mono_r; lia.
Qed.

Lemma b2z_range b : 0 <= b2z b <= 1.
Proof. destruct b; simpl; lia. Qed.

Lemma truthy_b2z b : truthy (b2z b) = b.
Proof. by destruct b. Qed.

#[export] Hint Resolve u8_range u16_range u32_range u64_range b2z_range : ck.
Create Rewrite HintDb ck.
#[export] Hint Rewrite u32_idem u32_add_l u32_sub_l u32_sub_r truthy_b2z : ck.

(** Case analysis on the boolean comparisons of the source. *)
Ltac zcase :=
  match goal with
  | |- context [?a =? ?b] => destruct (Z.eqb_spec a b)
  | |- context [?a <? ?b] => destruct (Z.ltb_spec a b)
  | |- context [?a <=? ?b] => destruct (Z.leb_spec a b)
  end; simpl; try lia.
