(* ===== verification/Machine.v ===== *)
(** The machine: shared memory, the primitive operations of [ck_pr], programs
    over them, their small-step and multi-threaded semantics and an executable
    interpreter. *)

From S2P Require Import Prelude.

(** * Memory

    Memory is word-granular: one cell per scalar field or array element.  A
    pointer is a [Z]; [NULL] is [0] and is never mapped. *)

Abbreviation mem := (gmap Z Z).
Definition NULL : Z := 0.

(** * Primitive operations *)

(** The fences of [ck_pr.h]; the machine is sequentially consistent, so a
    fence is a step that changes nothing, but programs keep every fence of the
    source. *)
Inductive fence_kind :=
| F_atomic | F_atomic_load | F_atomic_store | F_store_atomic | F_load_atomic
| F_load | F_load_store | F_store | F_store_load | F_memory
| F_acquire | F_release | F_acqrel | F_lock | F_unlock
| F_strict_store | F_load_depends | F_barrier.

Inductive op :=
| OLoad (a : Z)
| OStore (a v : Z)
| OCas (a compare set : Z)
| ORmw (a : Z) (f : Z -> Z)
| OCas2 (a compare0 compare1 set0 set1 : Z)
| OFence (k : fence_kind)
| OStall.

(** Executing one operation: [None] is a fault (access to an unmapped cell);
    the result is the pair of words read (the second one only for the
    double-word compare-and-swap). *)
Definition exec (o : op) (σ : mem) : option ((Z * Z) * mem) :=
  match o with
  | OLoad a => v ← σ !! a; Some ((v, 0), σ)
  | OStore a v => _ ← σ !! a; Some ((0, 0), <[a := v]> σ)
  | OCas a c s => v ← σ !! a; Some ((v, 0), if v =? c then <[a := s]> σ else σ)
  | ORmw a f => v ← σ !! a; Some ((v, 0), <[a := f v]> σ)
  | OCas2 a c0 c1 s0 s1 =>
      v0 ← σ !! a; v1 ← σ !! (a + 1);
      Some ((v0, v1),
            if (v0 =? c0) && (v1 =? c1) then <[a := s0]> (<[a + 1 := s1]> σ) else σ)
  | OFence _ | OStall => Some ((0, 0), σ)
  end.

(** * Programs

    A function of the source is a [prog]: primitive operations, sequencing and
    loops.  [Act o g] performs [o] and returns [g] of what it read.  [Iter body s]
    runs [body] from loop state [s] until it answers [inr b]; it is the only
    source of non-termination. *)

Inductive prog (A : Type) : Type :=
| Ret (a : A)
| Act (o : op) (g : Z * Z -> A)
| Bind {B : Type} (p : prog B) (f : B -> prog A)
| Iter {S : Type} (body : S -> prog (S + A)) (s : S).

Arguments Ret {A} a.
Arguments Act {A} o g.
Arguments Bind {A B} p f.
Arguments Iter {A S} body s.

Declare Scope prog_scope.
Delimit Scope prog_scope with prog.
Bind Scope prog_scope with prog.
#[global] Open Scope prog_scope.

Notation "x <- p ;; q" := (Bind p (fun x => q))
  (at level 100, p at next level, q at level 200, right associativity) : prog_scope.
Notation "'letp' pat := p ;; q" := (Bind p (fun x => match x with pat => q end))
  (at level 100, pat strict pattern, p at level 99, q at level 200, right associativity) : prog_scope.
Notation "p ;; q" := (Bind p (fun _ => q))
  (at level 100, q at level 200, right associativity) : prog_scope.

(** ** The C control structures *)

Definition continue {S B} (s : S) : prog (S + B) := Ret (inl s).
Definition break {S B} (b : B) : prog (S + B) := Ret (inr b).

(** [while (c) body] *)
Definition while (c : prog bool) (body : prog unit) : prog unit :=
  Iter (fun _ : unit => b <- c ;; if b : bool then body ;; continue tt else break tt) tt.

(** [do body while (c)] *)
Definition do_while (body : prog unit) (c : prog bool) : prog unit :=
  Iter (fun _ : unit => body ;; b <- c ;; if b : bool then continue tt else break tt) tt.

Definition when (b : bool) (p : prog unit) : prog unit := if b then p else Ret tt.

(** [for (i = lo; i < hi; i++) body i], with no early exit. *)
Definition for_ (lo hi : Z) (body : Z -> prog unit) : prog unit :=
  Iter (fun i => if i <? hi then body i ;; continue (i + 1) else break tt) lo.

(** ** [ck_pr] *)

(** Plain (non-atomic) accesses of the source. *)
Definition ld (a : Z) : prog Z := Act (OLoad a) fst.
Definition st (a v : Z) : prog unit := Act (OStore a v) (fun _ => tt).

Definition ck_pr_load (a : Z) : prog Z := Act (OLoad a) fst.
Definition ck_pr_store (a v : Z) : prog unit := Act (OStore a v) (fun _ => tt).

Definition ck_pr_cas (a compare set : Z) : prog bool :=
  Act (OCas a compare set) (fun r => fst r =? compare).

(** The [_value] variant also returns the value it found. *)
Definition ck_pr_cas_value (a compare set : Z) : prog (bool * Z) :=
  Act (OCas a compare set) (fun r => (fst r =? compare, fst r)).

(** Double-word compare-and-swap on the cells [a] and [a + 1]. *)
Definition ck_pr_cas_2 (a c0 c1 s0 s1 : Z) : prog bool :=
  Act (OCas2 a c0 c1 s0 s1) (fun r => (fst r =? c0) && (snd r =? c1)).

Definition ck_pr_cas_2_value (a c0 c1 s0 s1 : Z) : prog (bool * (Z * Z)) :=
  Act (OCas2 a c0 c1 s0 s1) (fun r => ((fst r =? c0) && (snd r =? c1), r)).

Definition ck_pr_fas (a v : Z) : prog Z := Act (ORmw a (fun _ => v)) fst.

(** Read-modify-write at a width given by its wrap [w]. *)
Definition ck_pr_faa (w : Z -> Z) (a d : Z) : prog Z := Act (ORmw a (fun v => w (v + d))) fst.
Definition ck_pr_add (w : Z -> Z) (a d : Z) : prog unit :=
  Act (ORmw a (fun v => w (v + d))) (fun _ => tt).
Definition ck_pr_sub (w : Z -> Z) (a d : Z) : prog unit :=
  Act (ORmw a (fun v => w (v - d))) (fun _ => tt).
Definition ck_pr_and (a d : Z) : prog unit := Act (ORmw a (fun v => Z.land v d)) (fun _ => tt).
Definition ck_pr_or (a d : Z) : prog unit := Act (ORmw a (fun v => Z.lor v d)) (fun _ => tt).
Definition ck_pr_xor (a d : Z) : prog unit := Act (ORmw a (fun v => Z.lxor v d)) (fun _ => tt).
Definition ck_pr_inc (w : Z -> Z) (a : Z) : prog unit := ck_pr_add w a 1.
Definition ck_pr_dec (w : Z -> Z) (a : Z) : prog unit := ck_pr_sub w a 1.

(** [ck_pr_dec_*_zero]: decrement, and report whether the new value is zero. *)
Definition ck_pr_dec_zero (w : Z -> Z) (a : Z) : prog bool :=
  Act (ORmw a (fun v => w (v - 1))) (fun r => w (fst r - 1) =? 0).

Definition ck_pr_fence (k : fence_kind) : prog unit := Act (OFence k) (fun _ => tt).
Definition ck_pr_barrier : prog unit := ck_pr_fence F_barrier.
Definition ck_pr_stall : prog unit := Act OStall (fun _ => tt).

(** * Semantics *)

(** One step of one thread; unfolding a loop and passing a result on are steps
    of their own. *)
Fixpoint pstep {A} (p : prog A) (σ : mem) : option (prog A * mem) :=
  match p with
  | Ret _ => None
  | Act o g => '(r, σ') ← exec o σ; Some (Ret (g r), σ')
  | Bind (Ret b) f => Some (f b, σ)
  | Bind q f => '(q', σ') ← pstep q σ; Some (Bind q' f, σ')
  | Iter body s =>
      Some (Bind (body s) (fun x => match x with
                                    | inl s' => Iter body s'
                                    | inr b => Ret b
                                    end), σ)
  end.

(** A configuration: the programs of the threads and the shared memory.  Any
    thread that can step may step next. *)
Definition config (A : Type) : Type := list (prog A) * mem.

Inductive sys_step {A} : config A -> config A -> Prop :=
| SysStep (ts : list (prog A)) (σ : mem) i p p' σ' :
    ts !! i = Some p ->
    pstep p σ = Some (p', σ') ->
    sys_step (ts, σ) (<[i := p']> ts, σ').

Definition is_ret {A} (p : prog A) : bool := match p with Ret _ => true | _ => false end.

(** A thread is safe when it has returned or can step: no fault. *)
Definition safe {A} (p : prog A) (σ : mem) : Prop :=
  (exists a, p = Ret a) \/ is_Some (pstep p σ).

(** ** Executable semantics *)

Inductive outcome (A : Type) :=
| Done (a : A) (σ : mem)
| Fault
| OutOfFuel.

Arguments Done {A} a σ.
Arguments Fault {A}.
Arguments OutOfFuel {A}.

(** Run one thread alone for at most [n] steps. *)
Fixpoint run {A} (n : nat) (p : prog A) (σ : mem) : outcome A :=
  match p with
  | Ret a => Done a σ
  | _ =>
      match n with
      | O => OutOfFuel
      | S n' => match pstep p σ with
                | Some (p', σ') => run n' p' σ'
                | None => Fault
                end
      end
  end.

(** Run a configuration under an explicit schedule of thread numbers. *)
Fixpoint run_sched {A} (sched : list nat) (c : config A) : option (config A) :=
  match sched with
  | [] => Some c
  | i :: sched' =>
      p ← c.1 !! i;
      '(p', σ') ← pstep p c.2;
      run_sched sched' (<[i := p']> c.1, σ')
  end.

(** One turn of thread [i]: a step if it can take one. *)
Definition turn {A} (c : config A) (i : nat) : config A :=
  match c.1 !! i with
  | Some p => match pstep p c.2 with
              | Some (p', σ') => (<[i := p']> c.1, σ')
              | None => c
              end
  | None => c
  end.

(** [n] rounds of the round-robin scheduler. *)
Fixpoint round_robin {A} (n : nat) (c : config A) : config A :=
  match n with
  | O => c
  | S n' => round_robin n' (foldl turn c (seq 0 (length c.1)))
  end.

(** * Metatheory *)

Lemma turn_sound {A} (c : config A) i : rtc sys_step c (turn c i).
Proof.
  destruct c as [ts σ]. unfold turn. simpl.
  destruct (ts !! i) as [p|] eqn:Hp; [|done].
  destruct (pstep p σ) as [[p' σ']|] eqn:Hs; [|done].
  apply rtc_once. by econstructor.
Qed.

Lemma turns_sound {A} sched (c : config A) : rtc sys_step c (foldl turn c sched).
Proof.
  revert c. induction sched as [|i sched IH]; intros c; [done|]. simpl. etrans; [apply turn_sound|apply IH].
Qed.

Lemma round_robin_sound {A} n (c : config A) : rtc sys_step c (round_robin n c).
Proof.
  revert c. induction n as [|n IH]; intros c; [done|]. simpl.
  etransitivity; [apply turns_sound|apply IH].
Qed.

Lemma round_robin_pair {A} n (c : config A) :
  rtc sys_step c ((round_robin n c).1, (round_robin n c).2).
Proof. rewrite <- surjective_pairing. apply round_robin_sound. Qed.

Lemma run_sched_sound {A} sched (c c' : config A) :
  run_sched sched c = Some c' -> rtc sys_step c c'.
Proof.
  revert c. induction sched as [|i sched IH]; intros [ts σ] Hr; simpl in *.
  { by simplify_eq. }
  destruct (ts !! i) as [p|] eqn:Hp; simplify_eq/=.
  destruct (pstep p σ) as [[p' σ']|] eqn:Hs; simplify_eq/=.
  eapply rtc_l; [by econstructor|]. by apply IH.
Qed.

Lemma run_S {A} n (p p' : prog A) σ σ' :
  pstep p σ = Some (p', σ') -> run (S n) p σ = run n p' σ'.
Proof. intros H. destruct p; [done|..]; cbn [run]; by rewrite H. Qed.

(** More fuel never changes a result. *)
Lemma run_mono {A} n m (p : prog A) σ a σ' :
  (n <= m)%nat -> run n p σ = Done a σ' -> run m p σ = Done a σ'.
Proof.
  revert m p σ. induction n as [|n IH]; intros m p σ Hle Hr.
  { destruct p; [by destruct m|done..]. }
  destruct m as [|m]; [lia|].
  destruct (pstep p σ) as [[p1 σ1]|] eqn:Hs.
  - rewrite (run_S n p p1 σ σ1 Hs) in Hr. rewrite (run_S m p p1 σ σ1 Hs).
    apply IH; [lia|done].
  - destruct p; [done|..]; cbn [run] in Hr; by rewrite Hs in Hr.
Qed.

(** A terminating run of one thread is an execution of the one-thread system. *)
Lemma run_steps {A} n (p : prog A) σ a σ' :
  run n p σ = Done a σ' -> rtc sys_step ([p], σ) ([Ret a], σ').
Proof.
  revert p σ. induction n as [|n IH]; intros p σ Hr.
  { destruct p; cbn [run] in Hr; by simplify_eq. }
  destruct (pstep p σ) as [[p1 σ1]|] eqn:Hs.
  - rewrite (run_S n p p1 σ σ1 Hs) in Hr.
    eapply rtc_l; [exact (SysStep [p] σ 0 p p1 σ1 eq_refl Hs)|]. by apply IH.
  - destruct p; cbn [run] in Hr; [by simplify_eq|..]; by rewrite Hs in Hr.
Qed.

(** * Sequential executions

    [returns p σ a σ']: run alone from [σ], [p] returns [a] in memory [σ']. *)

Definition returns {A} (p : prog A) (σ : mem) (a : A) (σ' : mem) : Prop :=
  exists n, run n p σ = Done a σ'.

Lemma returns_det {A} (p : prog A) σ a σ1 b σ2 :
  returns p σ a σ1 -> returns p σ b σ2 -> a = b /\ σ1 = σ2.
Proof.
  intros [n Hn] [m Hm]. apply (run_mono _ (n + m)) in Hn; [|lia].
  apply (run_mono _ (n + m)) in Hm; [|lia]. rewrite Hn in Hm. by simplify_eq.
Qed.

Lemma returns_ret {A} (a : A) σ : returns (Ret a) σ a σ.
Proof. by exists 0%nat. Qed.

Lemma returns_act {A} o (g : Z * Z -> A) σ r σ' :
  exec o σ = Some (r, σ') -> returns (Act o g) σ (g r) σ'.
Proof. intros H. exists 1%nat. cbn [run pstep]. by rewrite H. Qed.

Lemma pstep_bind {A B} (p p' : prog B) (f : B -> prog A) σ σ' :
  pstep p σ = Some (p', σ') -> pstep (Bind p f) σ = Some (Bind p' f, σ').
Proof. intros H. destruct p; [done|..]; cbn [pstep] in *; by rewrite H. Qed.

Lemma returns_bind {A B} (p : prog B) (f : B -> prog A) σ b σ1 a σ' :
  returns p σ b σ1 -> returns (f b) σ1 a σ' -> returns (Bind p f) σ a σ'.
Proof.
  intros [n Hn] [m Hm]. revert p σ Hn. induction n as [|n IH]; intros p σ Hn.
  - destruct p; cbn [run] in Hn; simplify_eq. by exists (S m).
  - destruct (pstep p σ) as [[p1 σ2]|] eqn:Hs.
    + rewrite (run_S n p p1 σ σ2 Hs) in Hn. destruct (IH p1 σ2 Hn) as [k Hk].
      exists (S k). by rewrite (run_S k _ (Bind p1 f) σ σ2 (pstep_bind _ _ _ _ _ Hs)).
    + destruct p; cbn [run] in Hn; [|rewrite Hs in Hn; done..].
      simplify_eq. by exists (S m).
Qed.

Lemma returns_iter {A S} (body : S -> prog (S + A)) s r σ σ1 a σ' :
  returns (body s) σ r σ1 ->
  (match r with
   | inl s' => returns (Iter body s') σ1 a σ'
   | inr b => a = b /\ σ' = σ1
   end) ->
  returns (Iter body s) σ a σ'.
Proof.
  intros Hb Hr.
  cut (returns (Bind (body s) (fun x => match x with inl s' => Iter body s' | inr b => Ret b end)) σ a σ').
  { intros [n Hn]. exists (Datatypes.S n). exact Hn. }
  eapply returns_bind; [exact Hb|]. destruct r as [s'|b]; [done|].
  destruct Hr as [-> ->]. apply returns_ret.
Qed.

Lemma returns_load a σ v : σ !! a = Some v -> returns (ck_pr_load a) σ v σ.
Proof. intros H. apply (returns_act (OLoad a) fst σ (v, 0)). simpl. by rewrite H. Qed.

Lemma returns_store a v w σ : σ !! a = Some v -> returns (ck_pr_store a w) σ tt (<[a := w]> σ).
Proof. intros H. apply (returns_act (OStore a w) (fun _ => tt) σ (0, 0)). simpl. by rewrite H. Qed.

Lemma returns_rmw {A} a f (g : Z * Z -> A) v σ :
  σ !! a = Some v -> returns (Act (ORmw a f) g) σ (g (v, 0)) (<[a := f v]> σ).
Proof. intros H. apply returns_act. simpl. by rewrite H. Qed.

Lemma returns_cas {A} a c s (g : Z * Z -> A) v σ :
  σ !! a = Some v ->
  returns (Act (OCas a c s) g) σ (g (v, 0)) (if v =? c then <[a := s]> σ else σ).
Proof. intros H. apply returns_act. simpl. by rewrite H. Qed.

Lemma returns_fence k σ : returns (ck_pr_fence k) σ tt σ.
Proof. by apply (returns_act (OFence k) (fun _ => tt) σ (0, 0)). Qed.

Lemma returns_stall σ : returns ck_pr_stall σ tt σ.
Proof. by apply (returns_act OStall (fun _ => tt) σ (0, 0)). Qed.

(** Symbolic execution: apply the rule of the first operation; lookups are
    resolved through the insertions. *)
Ltac sym_lookup :=
  cbn [fst snd];
  repeat (rewrite lookup_insert_ne; [|first [congruence | lia]]);
  first [eassumption | apply lookup_insert_eq | apply lookup_singleton_eq].

Ltac sym_op :=
  first
    [ eapply returns_load; sym_lookup
    | eapply returns_store; sym_lookup
    | eapply returns_rmw; sym_lookup
    | eapply returns_cas; sym_lookup
    | apply returns_fence
    | apply returns_stall
    | apply returns_ret ].

Ltac sym_step :=
  lazymatch goal with
  | |- returns (Bind _ _) _ _ _ => eapply returns_bind; [sym_step|]; cbn [fst snd when]
  | |- returns (Iter _ _) _ _ _ => eapply returns_iter; [sym_step|]; cbn beta iota
  | |- returns _ _ _ _ => sym_op
  end.
