(* ===== verification/Logic.v ===== *)
(** The program logic: [prog] as an Iris language, primitive laws for weakest
    preconditions (total and partial), proof-mode tactics, and adequacy for the
    semantics of [Machine]. *)

From iris.proofmode Require Export proofmode.
From iris.proofmode Require Import environments.
From iris.program_logic Require Export weakestpre total_weakestpre lifting total_lifting.
From iris.program_logic Require Import adequacy total_adequacy.
From iris.base_logic.lib Require Export gen_heap invariants.
From S2P Require Export Prelude Machine.

#[global] Open Scope Z_scope.
#[global] Set Warnings "-rewrite-rw".

(** * The language *)

Definition prog_to_val {A} (p : prog A) : option A :=
  match p with Ret a => Some a | _ => None end.

Inductive prog_step {A} : prog A -> mem -> list Empty_set -> prog A -> mem -> list (prog A) -> Prop :=
| ProgStep p σ p' σ' : pstep p σ = Some (p', σ') -> prog_step p σ [] p' σ' [].

Lemma prog_lang_mixin A : LanguageMixin (@Ret A) prog_to_val prog_step.
Proof.
  split.
  - done.
  - intros [] ?; simpl; congruence.
  - intros ?????? [p σ p' σ' Hs]. by destruct p.
Qed.

Canonical Structure ck_lang (A : Type) : language := Language (prog_lang_mixin A).

#[global] Instance mem_inhabited A : Inhabited (language.state (ck_lang A)) :=
  populate (∅ : gmap Z Z).

(** * Ghost state: the heap *)

Class ckGS_gen (hlc : has_lc) (Σ : gFunctors) := CkGS {
  ck_invGS :: invGS_gen hlc Σ;
  ck_heapGS :: gen_heapGS Z Z Σ;
}.
Abbreviation ckGS := (ckGS_gen HasLc).

#[global] Instance ck_irisGS `{!ckGS_gen hlc Σ} A : irisGS_gen hlc (ck_lang A) Σ := {
  iris_invGS := ck_invGS;
  state_interp (σ : mem) _ _ _ := gen_heap_interp σ;
  fork_post _ := True%I;
  num_laters_per_step _ := 0%nat;
  state_interp_mono _ _ _ _ := fupd_intro _ _
}.

Notation "l ↦ dq v" := (pointsto (L:=Z) (V:=Z) l dq v%Z)
  (at level 20, dq custom dfrac at level 1, format "l  ↦ dq  v") : bi_scope.

(** * A primitive operation is one atomic step *)

#[global] Instance act_atomic {A} s o (g : Z * Z -> A) : Atomic (Λ:=ck_lang A) s (Act o g).
Proof.
  intros σ e' κ σ' efs Hs. inversion Hs as [p τ p' τ' Hp]; subst. simpl in Hp.
  destruct (exec o σ) as [[r σ2]|]; simplify_eq/=.
  destruct s; [by eexists|]. intros κ' ??? Hs'. by inversion Hs'.
Qed.

Ltac solve_act_atomic := intros; apply act_atomic.

#[global] Instance ld_atomic s a : Atomic (Λ:=ck_lang Z) s (ld a).
Proof. solve_act_atomic. Qed.
#[global] Instance st_atomic s a v : Atomic (Λ:=ck_lang unit) s (st a v).
Proof. solve_act_atomic. Qed.
#[global] Instance load_atomic s a : Atomic (Λ:=ck_lang Z) s (ck_pr_load a).
Proof. solve_act_atomic. Qed.
#[global] Instance store_atomic s a v : Atomic (Λ:=ck_lang unit) s (ck_pr_store a v).
Proof. solve_act_atomic. Qed.
#[global] Instance cas_atomic s a c v : Atomic (Λ:=ck_lang bool) s (ck_pr_cas a c v).
Proof. solve_act_atomic. Qed.
#[global] Instance cas_value_atomic s a c v :
  Atomic (Λ:=ck_lang (bool * Z)) s (ck_pr_cas_value a c v).
Proof. solve_act_atomic. Qed.
#[global] Instance cas_2_atomic s a c0 c1 s0 s1 :
  Atomic (Λ:=ck_lang bool) s (ck_pr_cas_2 a c0 c1 s0 s1).
Proof. solve_act_atomic. Qed.
#[global] Instance cas_2_value_atomic s a c0 c1 s0 s1 :
  Atomic (Λ:=ck_lang (bool * (Z * Z))) s (ck_pr_cas_2_value a c0 c1 s0 s1).
Proof. solve_act_atomic. Qed.
#[global] Instance fas_atomic s a v : Atomic (Λ:=ck_lang Z) s (ck_pr_fas a v).
Proof. solve_act_atomic. Qed.
#[global] Instance faa_atomic s w a v : Atomic (Λ:=ck_lang Z) s (ck_pr_faa w a v).
Proof. solve_act_atomic. Qed.
#[global] Instance add_atomic s w a v : Atomic (Λ:=ck_lang unit) s (ck_pr_add w a v).
Proof. solve_act_atomic. Qed.
#[global] Instance sub_atomic s w a v : Atomic (Λ:=ck_lang unit) s (ck_pr_sub w a v).
Proof. solve_act_atomic. Qed.
#[global] Instance and_atomic s a v : Atomic (Λ:=ck_lang unit) s (ck_pr_and a v).
Proof. solve_act_atomic. Qed.
#[global] Instance or_atomic s a v : Atomic (Λ:=ck_lang unit) s (ck_pr_or a v).
Proof. solve_act_atomic. Qed.
#[global] Instance xor_atomic s a v : Atomic (Λ:=ck_lang unit) s (ck_pr_xor a v).
Proof. solve_act_atomic. Qed.
#[global] Instance inc_atomic s w a : Atomic (Λ:=ck_lang unit) s (ck_pr_inc w a).
Proof. solve_act_atomic. Qed.
#[global] Instance dec_atomic s w a : Atomic (Λ:=ck_lang unit) s (ck_pr_dec w a).
Proof. solve_act_atomic. Qed.
#[global] Instance dec_zero_atomic s w a : Atomic (Λ:=ck_lang bool) s (ck_pr_dec_zero w a).
Proof. solve_act_atomic. Qed.

(** * Structural rules *)

Section structural.
Context `{!ckGS_gen hlc Σ}.
Implicit Types s : stuckness.

Lemma wp_ret {A} s E (a : A) (Φ : A -> iProp Σ) : Φ a ⊢ WP Ret a @ s; E {{ Φ }}.
Proof. iIntros "H". by iApply (wp_value' (Λ:=ck_lang A)). Qed.

Lemma twp_ret {A} s E (a : A) (Φ : A -> iProp Σ) : Φ a ⊢ WP Ret a @ s; E [{ Φ }].
Proof. iIntros "H". by iApply (twp_value' (Λ:=ck_lang A)). Qed.

Lemma bind_ret_step {A B} (b : B) (f : B -> prog A) σ κ p' σ' efs :
  prog_step (b <- Ret b ;; f b) σ κ p' σ' efs -> κ = [] /\ p' = f b /\ σ' = σ /\ efs = [].
Proof. intros Hs. inversion Hs; simplify_eq/=. done. Qed.

Lemma bind_step_inv {A B} (p : prog B) (f : B -> prog A) σ κ q σ' efs :
  prog_to_val p = None ->
  prog_step (Bind p f) σ κ q σ' efs ->
  exists p', q = Bind p' f /\ κ = [] /\ efs = [] /\ prog_step p σ [] p' σ' [].
Proof.
  intros Hv Hs. inversion Hs as [? ? ? ? Hp]; subst.
  assert (pstep (Bind p f) σ = ('(q', τ) ← pstep p σ; Some (Bind q' f, τ))) as Heq
    by by destruct p.
  rewrite Heq in Hp. destruct (pstep p σ) as [[p' τ]|] eqn:Hps; simplify_eq/=.
  exists p'. split_and!; [done..|by constructor].
Qed.

Lemma bind_step {A B} (p p' : prog B) (f : B -> prog A) σ σ' :
  prog_step p σ [] p' σ' [] -> prog_step (Bind p f) σ [] (Bind p' f) σ' [].
Proof.
  intros Hs. inversion Hs as [? ? ? ? Hp]; subst. constructor.
  destruct p; [done|..]; cbn [pstep] in *; rewrite Hp; done.
Qed.

Lemma bind_reducible {A B} (p : prog B) (f : B -> prog A) σ :
  reducible_no_obs (Λ:=ck_lang B) p σ -> reducible_no_obs (Λ:=ck_lang A) (Bind p f) σ.
Proof.
  intros (p' & σ' & efs & Hs). inversion Hs; subst. do 3 eexists. by eapply bind_step.
Qed.

Lemma bind_reducible' {A B} (p : prog B) (f : B -> prog A) σ :
  reducible (Λ:=ck_lang B) p σ -> reducible (Λ:=ck_lang A) (Bind p f) σ.
Proof.
  intros (κ & p' & σ' & efs & Hs). inversion Hs; subst.
  do 4 eexists. by eapply bind_step.
Qed.

Lemma wp_pure_step {A} s E (p p' : prog A) (Φ : A -> iProp Σ) :
  (∀ σ, pstep p σ = Some (p', σ)) ->
  ▷ WP p' @ s; E {{ Φ }} ⊢ WP p @ s; E {{ Φ }}.
Proof.
  iIntros (Hp) "H".
  iApply (wp_lift_pure_det_step_no_fork (Λ:=ck_lang A) (E':=E) p p').
  - intros σ. assert (reducible (Λ:=ck_lang A) p σ) as Hr.
    { do 4 eexists. by constructor. }
    destruct s; [done|]. destruct p; [|done..]. specialize (Hp σ). done.
  - intros σ κ p2 σ' efs Hs. inversion Hs; simplify_eq/=. rewrite Hp in H. by simplify_eq.
  - iApply step_fupd_intro; [done|]. iIntros "!> _". iExact "H".
Qed.

Lemma twp_pure_step {A} s E (p p' : prog A) (Φ : A -> iProp Σ) :
  (∀ σ, pstep p σ = Some (p', σ)) ->
  WP p' @ s; E [{ Φ }] ⊢ WP p @ s; E [{ Φ }].
Proof.
  iIntros (Hp) "H".
  iApply (twp_lift_pure_det_step_no_fork (Λ:=ck_lang A) p p'); [..|done].
  - intros σ. do 3 eexists. by constructor.
  - intros σ κ p2 σ' efs Hs. inversion Hs; simplify_eq/=. rewrite Hp in H. by simplify_eq.
Qed.

Lemma wp_bind {A B} s E (p : prog B) (f : B -> prog A) (Φ : A -> iProp Σ) :
  WP p @ s; E {{ b, WP f b @ s; E {{ Φ }} }} ⊢ WP Bind p f @ s; E {{ Φ }}.
Proof.
  iIntros "H". iLöb as "IH" forall (E p Φ).
  destruct (prog_to_val p) as [b|] eqn:Hv.
  { destruct p; simplify_eq/=. rewrite (wp_value_fupd' (Λ:=ck_lang B) _ _ _ b).
    iApply fupd_wp. iMod "H". iModIntro.
    iApply (wp_pure_step _ _ _ (f b)); [done|]. done. }
  rewrite (wp_unfold (Λ:=ck_lang B)) (wp_unfold (Λ:=ck_lang A)) /wp_pre /=. rewrite Hv.
  iIntros (σ1 ns κ κs nt) "Hσ". iMod ("H" $! σ1 ns κ κs nt with "Hσ") as "[%Hr H]".
  iModIntro. iSplit.
  { iPureIntro. destruct s; [by apply bind_reducible'|done]. }
  iIntros (e2 σ2 efs Hs) "Hcred".
  destruct (bind_step_inv p f σ1 κ e2 σ2 efs Hv Hs) as (p' & -> & -> & -> & Hs').
  iMod ("H" $! p' σ2 [] with "[//] Hcred") as "H". iIntros "!> !>".
  iMod "H". iModIntro. iMod "H" as "($ & H & _)". iModIntro. iSplit; [|done].
  by iApply "IH".
Qed.

Lemma twp_bind {A B} s E (p : prog B) (f : B -> prog A) (Φ : A -> iProp Σ) :
  WP p @ s; E [{ b, WP f b @ s; E [{ Φ }] }] ⊢ WP Bind p f @ s; E [{ Φ }].
Proof.
  revert Φ. cut (∀ Φ', WP p @ s; E [{ Φ' }] -∗ ∀ Φ,
    (∀ v, Φ' v -∗ WP f v @ s; E [{ Φ }]) -∗ WP Bind p f @ s; E [{ Φ }]).
  { iIntros (help Φ) "H". iApply (help with "H"); auto. }
  iIntros (Φ') "H". iRevert (p E Φ') "H".
  iApply (twp_ind (Λ:=ck_lang B)); first solve_proper.
  iIntros "!>" (p E1 Φ') "IH". iIntros (Φ) "HΦ".
  rewrite /twp_pre. destruct (language.to_val p) as [v|] eqn:Hv.
  { destruct p; simplify_eq/=. iApply (fupd_twp (Λ:=ck_lang A)). iMod "IH". iModIntro.
    iApply (twp_pure_step _ _ _ (f v)); [done|]. by iApply "HΦ". }
  rewrite (twp_unfold (Λ:=ck_lang A)) /twp_pre /=.
  iIntros (σ1 ns κs nt) "Hσ". iMod ("IH" $! σ1 ns κs nt with "Hσ") as "[%Hr IH]". iModIntro. iSplit.
  { iPureIntro. destruct s; [by apply bind_reducible|done]. }
  iIntros (κ e2 σ2 efs Hs).
  destruct (bind_step_inv p f σ1 κ e2 σ2 efs Hv Hs) as (p' & -> & -> & -> & Hs').
  iMod ("IH" $! [] p' σ2 [] with "[//]") as (_) "($ & IH & _)". iModIntro.
  iSplit; [done|]. iSplit; [|done]. iDestruct "IH" as "[IH _]". by iApply "IH".
Qed.

Lemma wp_iter {A S} s E (body : S -> prog (S + A)) (x : S) (Φ : A -> iProp Σ) :
  ▷ WP body x @ s; E {{ r, match r with
                           | inl x' => WP Iter body x' @ s; E {{ Φ }}
                           | inr a => Φ a
                           end }}
  ⊢ WP Iter body x @ s; E {{ Φ }}.
Proof.
  iIntros "H". iApply wp_pure_step; [done|]. iNext. iApply wp_bind.
  iApply (wp_wand (Λ:=ck_lang (S + A)) with "H").
  iIntros ([x'|a]) "H"; [done|]. by iApply wp_ret.
Qed.

Lemma twp_iter {A S} s E (body : S -> prog (S + A)) (x : S) (Φ : A -> iProp Σ) :
  WP body x @ s; E [{ r, match r with
                         | inl x' => WP Iter body x' @ s; E [{ Φ }]
                         | inr a => Φ a
                         end }]
  ⊢ WP Iter body x @ s; E [{ Φ }].
Proof.
  iIntros "H". iApply twp_pure_step; [done|]. iApply twp_bind.
  iApply (twp_wand (Λ:=ck_lang (S + A)) with "H").
  iIntros ([x'|a]) "H"; [done|]. by iApply twp_ret.
Qed.

(** Loop rule of partial correctness: an invariant of the loop state. *)
Lemma wp_loop_inv {A S} (I : S -> iProp Σ) s E (body : S -> prog (S + A)) (x : S)
    (Φ : A -> iProp Σ) :
  I x -∗
  □ (∀ x, I x -∗ WP body x @ s; E {{ r, match r with inl x' => I x' | inr a => Φ a end }}) -∗
  WP Iter body x @ s; E {{ Φ }}.
Proof.
  iIntros "HI #Hbody". iLöb as "IH" forall (x). iApply wp_iter. iNext.
  iApply (wp_wand (Λ:=ck_lang (S + A)) with "(Hbody HI)").
  iIntros ([x'|a]) "H"; [by iApply "IH"|done].
Qed.

(** Loop rule of total correctness: a measure of the loop state decreases. *)
Lemma twp_loop_inv {A S} (μ : S -> nat) (I : S -> iProp Σ) s E
    (body : S -> prog (S + A)) (x : S) (Φ : A -> iProp Σ) :
  I x -∗
  □ (∀ x, I x -∗ WP body x @ s; E [{ r, match r with
                                        | inl x' => ⌜(μ x' < μ x)%nat⌝ ∗ I x'
                                        | inr a => Φ a
                                        end }]) -∗
  WP Iter body x @ s; E [{ Φ }].
Proof.
  iIntros "HI #Hbody".
  iInduction (well_founded_ltof S μ x) as [x _ IH].
  iApply twp_iter. iApply (twp_wand (Λ:=ck_lang (S + A)) with "(Hbody HI)").
  iIntros ([x'|a]) "H"; [|done]. iDestruct "H" as "[%HR HI]". by iApply "IH".
Qed.

(** [while] with an invariant. *)
Lemma wp_while_inv (I : iProp Σ) s E (c : prog bool) (body : prog unit) (Φ : unit -> iProp Σ) :
  I -∗
  □ (I -∗ WP c @ s; E {{ b, match b with
                                true => WP body @ s; E {{ _, I }}
                              | false => Φ tt
                              end }}) -∗
  WP while c body @ s; E {{ Φ }}.
Proof.
  iIntros "HI #Hc". rewrite /while.
  iApply (wp_loop_inv (λ _ : unit, I) with "HI").
  iIntros "!>" ([]) "HI". iApply wp_bind.
  iApply (wp_wand (Λ:=ck_lang bool) with "(Hc HI)"). iIntros ([]) "H".
  - iApply wp_bind. iApply (wp_wand (Λ:=ck_lang unit) with "H"). iIntros (_) "H".
    by iApply wp_ret.
  - by iApply wp_ret.
Qed.

End structural.

(** * Proof-mode instances

    The proof-mode instances of the weakest preconditions, restated at the type
    [prog A] so that instance search finds them. *)

Section proofmode_instances.
Context `{!ckGS_gen hlc Σ} {A : Type}.
Implicit Types (e : prog A) (Φ Ψ : A -> iProp Σ) (P R : iProp Σ).

#[global] Instance ck_frame_wp p s E e R Φ Ψ :
  (FrameInstantiateExistDisabled -> ∀ v, Frame p R (Φ v) (Ψ v)) ->
  Frame p R (WP e @ s; E {{ Φ }}) (WP e @ s; E {{ Ψ }}) | 2 := frame_wp p s E e R Φ Ψ.
#[global] Instance ck_frame_twp p s E e R Φ Ψ :
  (FrameInstantiateExistDisabled -> ∀ v, Frame p R (Φ v) (Ψ v)) ->
  Frame p R (WP e @ s; E [{ Φ }]) (WP e @ s; E [{ Ψ }]) | 2 := frame_twp p s E e R Φ Ψ.

#[global] Instance ck_is_except_0_wp s E e Φ : IsExcept0 (WP e @ s; E {{ Φ }}) :=
  weakestpre.is_except_0_wp s E e Φ.
#[global] Instance ck_is_except_0_twp s E e Φ : IsExcept0 (WP e @ s; E [{ Φ }]) :=
  total_weakestpre.is_except_0_wp s E e Φ.

#[global] Instance ck_elim_modal_bupd_wp p s E e P Φ :
  ElimModal True p false (|==> P) P (WP e @ s; E {{ Φ }}) (WP e @ s; E {{ Φ }}) :=
  elim_modal_bupd_wp p s E e P Φ.
#[global] Instance ck_elim_modal_bupd_twp p s E e P Φ :
  ElimModal True p false (|==> P) P (WP e @ s; E [{ Φ }]) (WP e @ s; E [{ Φ }]) :=
  elim_modal_bupd_twp p s E e P Φ.

#[global] Instance ck_elim_modal_fupd_wp p s E e P Φ :
  ElimModal True p false (|={E}=> P) P (WP e @ s; E {{ Φ }}) (WP e @ s; E {{ Φ }}) :=
  elim_modal_fupd_wp p s E e P Φ.
#[global] Instance ck_elim_modal_fupd_twp p s E e P Φ :
  ElimModal True p false (|={E}=> P) P (WP e @ s; E [{ Φ }]) (WP e @ s; E [{ Φ }]) :=
  elim_modal_fupd_twp p s E e P Φ.

#[global] Instance ck_elim_modal_fupd_wp_atomic p s E1 E2 e P Φ :
  ElimModal (Atomic (Λ:=ck_lang A) (stuckness_to_atomicity s) e) p false (|={E1,E2}=> P) P
    (WP e @ s; E1 {{ Φ }}) (WP e @ s; E2 {{ v, |={E2,E1}=> Φ v }})%I | 100 :=
  elim_modal_fupd_wp_atomic p s E1 E2 e P Φ.

#[global] Instance ck_add_modal_fupd_wp s E e P Φ :
  AddModal (|={E}=> P) P (WP e @ s; E {{ Φ }}) := add_modal_fupd_wp s E e P Φ.
#[global] Instance ck_add_modal_fupd_twp s E e P Φ :
  AddModal (|={E}=> P) P (WP e @ s; E [{ Φ }]) := add_modal_fupd_twp s E e P Φ.

#[global] Instance ck_elim_acc_wp_atomic {X} E1 E2 α β γ e s Φ :
  ElimAcc (X:=X) (Atomic (Λ:=ck_lang A) (stuckness_to_atomicity s) e)
    (fupd E1 E2) (fupd E2 E1) α β γ (WP e @ s; E1 {{ Φ }})
    (λ x, WP e @ s; E2 {{ v, |={E2}=> β x ∗ (γ x -∗? Φ v) }})%I | 100 :=
  elim_acc_wp_atomic E1 E2 α β γ e s Φ.
#[global] Instance ck_elim_acc_twp_atomic {X} E1 E2 α β γ e s Φ :
  ElimAcc (X:=X) (Atomic (Λ:=ck_lang A) (stuckness_to_atomicity s) e)
    (fupd E1 E2) (fupd E2 E1) α β γ (WP e @ s; E1 [{ Φ }])
    (λ x, WP e @ s; E2 [{ v, |={E2}=> β x ∗ (γ x -∗? Φ v) }])%I | 100 :=
  elim_acc_twp_atomic E1 E2 α β γ e s Φ.
End proofmode_instances.

(** * Primitive laws *)

Section laws.
Context `{!ckGS_gen hlc Σ}.
Implicit Types s : stuckness.

Lemma twp_act {A} s E o (g : Z * Z -> A) (Φ : A -> iProp Σ) :
  (∀ σ, gen_heap_interp σ ==∗
        ∃ r σ', ⌜exec o σ = Some (r, σ')⌝ ∗ gen_heap_interp σ' ∗ Φ (g r))
  ⊢ WP Act o g @ s; E [{ Φ }].
Proof.
  iIntros "H". iApply (twp_lift_atomic_step (Λ:=ck_lang A)); [done|].
  iIntros (σ ns κs nt) "Hσ". iMod ("H" with "Hσ") as (r σ') "(%Hex & Hσ & HΦ)".
  assert (pstep (Act o g) σ = Some (Ret (g r), σ')) as Hp.
  { simpl. by rewrite Hex. }
  iModIntro. iSplit.
  { iPureIntro. destruct s; [|done]. do 3 eexists. constructor. exact Hp. }
  iIntros (κ e2 σ2 efs Hs). inversion Hs as [? ? ? ? Hp2]; subst.
  rewrite Hp in Hp2. simplify_eq. iModIntro. iSplit; [done|]. simpl. iFrame.
Qed.

(** The partial law of an operation follows from its total law. *)
Local Lemma wp_of_twp {A} s E o (g : Z * Z -> A) (P : iProp Σ) (Q : A -> iProp Σ) (Φ : A -> iProp Σ) :
  (∀ Ψ : A -> iProp Σ, P -∗ (∀ a, Q a -∗ Ψ a) -∗ WP Act o g @ s; E [{ Ψ }]) ->
  P -∗ ▷ (∀ a, Q a -∗ Φ a) -∗ WP Act o g @ s; E {{ Φ }}.
Proof.
  iIntros (Htwp) "HP HΦ". iApply (twp_wp_step (Λ:=ck_lang A) with "HΦ").
  iApply (Htwp with "HP"). iIntros (a) "HQ HΦ". by iApply "HΦ".
Qed.

Lemma twp_load s E l dq v :
  [[{ l ↦{dq} v }]] ck_pr_load l @ s; E [[{ RET v; l ↦{dq} v }]].
Proof.
  iIntros (Φ) "Hl HΦ". iApply twp_act. iIntros (σ) "Hσ".
  iDestruct (gen_heap_valid with "Hσ Hl") as %Hv. iModIntro.
  iExists (v, 0), σ. rewrite /= Hv /=. iFrame. iSplit; [done|]. by iApply "HΦ".
Qed.

Lemma wp_load s E l dq v :
  {{{ ▷ l ↦{dq} v }}} ck_pr_load l @ s; E {{{ RET v; l ↦{dq} v }}}.
Proof.
  iIntros (Φ) ">Hl HΦ". iApply (twp_wp_step (Λ:=ck_lang Z) with "HΦ").
  iApply (twp_load with "Hl"). iIntros "Hl HΦ". by iApply "HΦ".
Qed.

Lemma twp_store s E l v w :
  [[{ l ↦ v }]] ck_pr_store l w @ s; E [[{ RET tt; l ↦ w }]].
Proof.
  iIntros (Φ) "Hl HΦ". iApply twp_act. iIntros (σ) "Hσ".
  iDestruct (gen_heap_valid with "Hσ Hl") as %Hv.
  iMod (gen_heap_update _ _ _ w with "Hσ Hl") as "[Hσ Hl]". iModIntro.
  iExists (0, 0), (<[l:=w]> σ). rewrite /= Hv /=. iFrame. iSplit; [done|]. by iApply "HΦ".
Qed.

Lemma wp_store s E l v w :
  {{{ ▷ l ↦ v }}} ck_pr_store l w @ s; E {{{ RET tt; l ↦ w }}}.
Proof.
  iIntros (Φ) ">Hl HΦ". iApply (twp_wp_step (Λ:=ck_lang unit) with "HΦ").
  iApply (twp_store with "Hl"). iIntros "Hl HΦ". by iApply "HΦ".
Qed.

(** Read-modify-write, whatever part of the old value is returned. *)
Lemma twp_rmw {A} s E l f (g : Z * Z -> A) v :
  [[{ l ↦ v }]] Act (ORmw l f) g @ s; E [[{ RET g (v, 0); l ↦ f v }]].
Proof.
  iIntros (Φ) "Hl HΦ". iApply twp_act. iIntros (σ) "Hσ".
  iDestruct (gen_heap_valid with "Hσ Hl") as %Hv.
  iMod (gen_heap_update _ _ _ (f v) with "Hσ Hl") as "[Hσ Hl]". iModIntro.
  iExists (v, 0), (<[l:=f v]> σ). rewrite /= Hv /=. iFrame. iSplit; [done|]. by iApply "HΦ".
Qed.

Lemma wp_rmw {A} s E l f (g : Z * Z -> A) v :
  {{{ ▷ l ↦ v }}} Act (ORmw l f) g @ s; E {{{ RET g (v, 0); l ↦ f v }}}.
Proof.
  iIntros (Φ) ">Hl HΦ". iApply (twp_wp_step (Λ:=ck_lang A) with "HΦ").
  iApply (twp_rmw with "Hl"). iIntros "Hl HΦ". by iApply "HΦ".
Qed.

Lemma twp_cas_gen {A} s E l c w (g : Z * Z -> A) v :
  [[{ l ↦ v }]] Act (OCas l c w) g @ s; E
  [[{ RET g (v, 0); l ↦ (if v =? c then w else v) }]].
Proof.
  iIntros (Φ) "Hl HΦ". iApply twp_act. iIntros (σ) "Hσ".
  iDestruct (gen_heap_valid with "Hσ Hl") as %Hv. rewrite /= Hv /=.
  destruct (v =? c).
  - iMod (gen_heap_update _ _ _ w with "Hσ Hl") as "[Hσ Hl]". iModIntro.
    iExists (v, 0), (<[l:=w]> σ). iFrame. iSplit; [done|]. by iApply "HΦ".
  - iModIntro. iExists (v, 0), σ. iFrame. iSplit; [done|]. by iApply "HΦ".
Qed.

Lemma wp_cas_gen {A} s E l c w (g : Z * Z -> A) v :
  {{{ ▷ l ↦ v }}} Act (OCas l c w) g @ s; E
  {{{ RET g (v, 0); l ↦ (if v =? c then w else v) }}}.
Proof.
  iIntros (Φ) ">Hl HΦ". iApply (twp_wp_step (Λ:=ck_lang A) with "HΦ").
  iApply (twp_cas_gen with "Hl"). iIntros "Hl HΦ". by iApply "HΦ".
Qed.

Lemma twp_cas2_gen {A} s E l c0 c1 w0 w1 (g : Z * Z -> A) v0 v1 :
  [[{ l ↦ v0 ∗ (l + 1) ↦ v1 }]] Act (OCas2 l c0 c1 w0 w1) g @ s; E
  [[{ RET g (v0, v1);
      l ↦ (if (v0 =? c0) && (v1 =? c1) then w0 else v0) ∗
      (l + 1) ↦ (if (v0 =? c0) && (v1 =? c1) then w1 else v1) }]].
Proof.
  iIntros (Φ) "[Hl Hl'] HΦ". iApply twp_act. iIntros (σ) "Hσ".
  iDestruct (gen_heap_valid with "Hσ Hl") as %Hv.
  iDestruct (gen_heap_valid with "Hσ Hl'") as %Hv'. rewrite /= Hv /= Hv' /=.
  destruct ((v0 =? c0) && (v1 =? c1)).
  - iMod (gen_heap_update _ _ _ w1 with "Hσ Hl'") as "[Hσ Hl']".
    iMod (gen_heap_update _ _ _ w0 with "Hσ Hl") as "[Hσ Hl]". iModIntro.
    iExists (v0, v1), _. iFrame. iSplit; [done|]. iApply "HΦ". iFrame.
  - iModIntro. iExists (v0, v1), σ. iFrame. iSplit; [done|]. iApply "HΦ". iFrame.
Qed.

Lemma wp_cas2_gen {A} s E l c0 c1 w0 w1 (g : Z * Z -> A) v0 v1 :
  {{{ ▷ l ↦ v0 ∗ ▷ (l + 1) ↦ v1 }}} Act (OCas2 l c0 c1 w0 w1) g @ s; E
  {{{ RET g (v0, v1);
      l ↦ (if (v0 =? c0) && (v1 =? c1) then w0 else v0) ∗
      (l + 1) ↦ (if (v0 =? c0) && (v1 =? c1) then w1 else v1) }}}.
Proof.
  iIntros (Φ) "[>Hl >Hl'] HΦ". iApply (twp_wp_step (Λ:=ck_lang A) with "HΦ").
  iApply (twp_cas2_gen with "[$Hl $Hl']"). iIntros "H HΦ". by iApply "HΦ".
Qed.

(** Fences and stalls are no-ops of the sequentially consistent machine. *)
Lemma twp_fence s E k (Φ : unit -> iProp Σ) : Φ tt ⊢ WP ck_pr_fence k @ s; E [{ Φ }].
Proof. iIntros "H". iApply twp_act. iIntros (σ) "$ !>". iExists (0, 0). by iFrame. Qed.

Lemma twp_stall s E (Φ : unit -> iProp Σ) : Φ tt ⊢ WP ck_pr_stall @ s; E [{ Φ }].
Proof. iIntros "H". iApply twp_act. iIntros (σ) "$ !>". iExists (0, 0). by iFrame. Qed.

Lemma wp_fence s E k (Φ : unit -> iProp Σ) : ▷ Φ tt ⊢ WP ck_pr_fence k @ s; E {{ Φ }}.
Proof.
  iIntros "H". iApply (twp_wp_step (Λ:=ck_lang unit) with "H"). iApply twp_fence. by iIntros "$".
Qed.

Lemma wp_stall s E (Φ : unit -> iProp Σ) : ▷ Φ tt ⊢ WP ck_pr_stall @ s; E {{ Φ }}.
Proof.
  iIntros "H". iApply (twp_wp_step (Λ:=ck_lang unit) with "H"). iApply twp_stall. by iIntros "$".
Qed.

End laws.

(** * Tactics *)

(** Reduce the results of operations that were just substituted. *)
Ltac wp_norm := cbn [fst snd when negb].

(** Descend to the first operation of a sequence. *)
Ltac wp_focus :=
  iStartProof;
  lazymatch goal with
  | |- envs_entails _ (wp _ _ (Bind _ _) _) => iApply wp_bind; wp_focus
  | |- envs_entails _ (twp _ _ (Bind _ _) _) => iApply twp_bind; wp_focus
  | _ => idtac
  end.

(** One step that needs no resource. *)
Ltac wp_pure1 :=
  wp_focus;
  lazymatch goal with
  | |- envs_entails _ (wp _ _ (Ret _) _) => iApply wp_ret
  | |- envs_entails _ (twp _ _ (Ret _) _) => iApply twp_ret
  | |- envs_entails _ (wp _ _ (continue _) _) => iApply wp_ret
  | |- envs_entails _ (twp _ _ (continue _) _) => iApply twp_ret
  | |- envs_entails _ (wp _ _ (break _) _) => iApply wp_ret
  | |- envs_entails _ (twp _ _ (break _) _) => iApply twp_ret
  | |- envs_entails _ (wp _ _ (ck_pr_fence _) _) => iApply wp_fence; iNext
  | |- envs_entails _ (twp _ _ (ck_pr_fence _) _) => iApply twp_fence
  | |- envs_entails _ (wp _ _ ck_pr_barrier _) => iApply wp_fence; iNext
  | |- envs_entails _ (twp _ _ ck_pr_barrier _) => iApply twp_fence
  | |- envs_entails _ (wp _ _ ck_pr_stall _) => iApply wp_stall; iNext
  | |- envs_entails _ (twp _ _ ck_pr_stall _) => iApply twp_stall
  end; wp_norm.

Ltac wp_pures := wp_norm; repeat wp_pure1; wp_focus.

(** Apply the law of an operation to the points-to [H] and keep its name. *)
Ltac wp_law H wlaw tlaw :=
  wp_pures;
  lazymatch goal with
  | |- envs_entails _ (wp _ _ _ _) => wlaw H; iNext; iIntros H
  | |- envs_entails _ (twp _ _ _ _) => tlaw H; iIntros H
  end; wp_norm.

Tactic Notation "wp_load" constr(H) :=
  wp_law H ltac:(fun H => iApply (wp_load with H)) ltac:(fun H => iApply (twp_load with H)).
Tactic Notation "wp_store" constr(H) :=
  wp_law H ltac:(fun H => iApply (wp_store with H)) ltac:(fun H => iApply (twp_store with H)).
Tactic Notation "wp_rmw" constr(H) :=
  wp_law H ltac:(fun H => iApply (wp_rmw with H)) ltac:(fun H => iApply (twp_rmw with H)).
Tactic Notation "wp_cas" constr(H) :=
  wp_law H ltac:(fun H => iApply (wp_cas_gen with H)) ltac:(fun H => iApply (twp_cas_gen with H)).

(** * Adequacy *)

Class ckGpreS (Σ : gFunctors) := CkGpreS {
  ck_pre_inv :: invGpreS Σ;
  ck_pre_heap :: gen_heapGpreS Z Z Σ;
}.

Definition ckΣ : gFunctors := #[invΣ; gen_heapΣ Z Z].

#[global] Instance subG_ckGpreS {Σ} : subG ckΣ Σ -> ckGpreS Σ.
Proof. solve_inG. Qed.

Lemma sys_step_erased {A} (c c' : config A) :
  sys_step c c' -> erased_step (Λ:=ck_lang A) c c' /\ length c'.1 = length c.1.
Proof.
  intros [ts σ i p p' σ' Hi Hp]. split; [|by rewrite length_insert].
  exists []. destruct (list_elem_of_split_length ts i p Hi) as (t1 & t2 & -> & ->).
  eapply (step_atomic (Λ:=ck_lang A)) with (efs:=[]); [done| |by constructor].
  rewrite right_id_L. rewrite insert_app_r_alt //. by rewrite Nat.sub_diag.
Qed.

Lemma sys_steps_erased {A} (c c' : config A) :
  rtc sys_step c c' -> rtc (erased_step (Λ:=ck_lang A)) c c' /\ length c'.1 = length c.1.
Proof.
  induction 1 as [|c1 c2 c3 H12 H23 [IH1 IH2]]; [done|].
  destruct (sys_step_erased _ _ H12) as [H1 H2]. split; [by eapply rtc_l|congruence].
Qed.

Lemma not_stuck_safe {A} (p : prog A) σ : not_stuck (Λ:=ck_lang A) p σ -> safe p σ.
Proof.
  intros [[a Ha]|(κ & p' & σ' & efs & Hs)].
  - left. exists a. destruct p; by simplify_eq/=.
  - right. inversion Hs. by eexists.
Qed.

(** Any set of threads: no thread faults in any reachable state, and whatever
    follows from the invariants and the postconditions of the finished threads
    holds there. *)
Lemma ck_pool_adequacy Σ `{!ckGpreS Σ} {A} (ps ps' : list (prog A)) (σ σ' : mem) (φ : Prop) :
  (∀ `{!ckGS Σ},
    ⊢ ([∗ map] l ↦ v ∈ σ, l ↦ v) ={⊤}=∗
      ∃ Φs : list (A -> iProp Σ),
        ([∗ list] p;Φ ∈ ps;Φs, WP p @ ⊤ {{ Φ }}) ∗
        (gen_heap_interp σ' -∗
         ([∗ list] p;Φ ∈ ps';Φs, from_option Φ True (prog_to_val p)) ={⊤,∅}=∗ ⌜φ⌝)) ->
  rtc sys_step (ps, σ) (ps', σ') ->
  φ /\ (∀ p, p ∈ ps' -> safe p σ').
Proof.
  intros Hwp Hsteps. destruct (sys_steps_erased _ _ Hsteps) as [Hes Hlen].
  apply erased_steps_nsteps in Hes as (n & κs & Hn). simpl in Hlen.
  eapply (wp_strong_adequacy Σ (ck_lang A) NotStuck ps σ n κs ps' σ'
            (φ /\ (∀ p, p ∈ ps' -> safe p σ')) (λ _, 0%nat)); [|exact Hn].
  iIntros (Hinv). iMod (gen_heap_init σ) as (Hheap) "(Hσ & Hpts & _)".
  iMod (Hwp (CkGS _ _ Hinv Hheap) with "Hpts") as (Φs) "[Hps Hφ]". iModIntro.
  iExists (λ σ _ _ _, gen_heap_interp σ), Φs, (λ _, True)%I, _. iFrame "Hσ Hps".
  iIntros (es' t2' Ht2 Hlen' Hns) "Hσ Hvals _".
  assert (t2' = []) as ->.
  { assert (@length (prog A) ps' = @length (prog A) (es' ++ t2'))%nat as Hl by by rewrite Ht2.
    rewrite (@length_app (prog A)) in Hl. apply (@nil_length_inv (prog A)).
    change (@length (prog A) es' = @length (prog A) ps) in Hlen'. lia. }
  rewrite right_id_L in Ht2. subst es'.
  iMod ("Hφ" with "Hσ Hvals") as %Hφ. iPureIntro. split; [done|].
  intros p Hp. apply not_stuck_safe. by apply Hns.
Qed.

(** Total correctness of one thread run alone: it returns, and its
    postcondition holds of the result and of a part of the final memory. *)
Lemma sn_run {A} (p : prog A) σ :
  sn (erased_step (Λ:=ck_lang A)) ([p], σ) ->
  (∀ p' σ', rtc sys_step ([p], σ) ([p'], σ') -> safe p' σ') ->
  ∃ n a σ', run n p σ = Done a σ'.
Proof.
  intros Hsn. remember ([p], σ) as c eqn:Hc. revert p σ Hc.
  induction Hsn as [c _ IH]; intros p σ -> Hsafe.
  destruct (Hsafe p σ) as [[a ->]|[[p' σ'] Hp]]; [done|by exists 0%nat, a, σ|].
  assert (sys_step ([p], σ) ([p'], σ')) as Hstep.
  { exact (SysStep [p] σ 0 p p' σ' eq_refl Hp). }
  destruct (IH ([p'], σ')) with (p := p') (σ := σ') as (n & a & σ'' & Hrun).
  - by apply sys_step_erased in Hstep as [? _].
  - done.
  - intros p'' σ'' Hr. apply Hsafe. by eapply rtc_l.
  - exists (S n), a, σ''. by rewrite (run_S _ _ p' _ σ').
Qed.

Lemma ck_heap_included `{!gen_heapGS Z Z Σ} (σ m : mem) :
  gen_heap_interp σ -∗ ([∗ map] l ↦ v ∈ m, l ↦ v) -∗ ⌜m ⊆ σ⌝.
Proof.
  iIntros "Hσ Hm". rewrite map_subseteq_spec. iIntros (l v Hl).
  iDestruct (big_sepM_lookup with "Hm") as "Hl"; [done|].
  by iDestruct (gen_heap_valid with "Hσ Hl") as %?.
Qed.

Lemma ck_total_adequacy Σ `{!ckGpreS Σ} {A} (p : prog A) (σ : mem) (φ : A -> mem -> Prop) :
  (∀ hlc `{!ckGS_gen hlc Σ},
    ⊢ ([∗ map] l ↦ v ∈ σ, l ↦ v) -∗
      WP p @ ⊤ [{ a, ∃ m : mem, ([∗ map] l ↦ v ∈ m, l ↦ v) ∗ ⌜φ a m⌝ }]) ->
  ∃ n a σ' m, run n p σ = Done a σ' /\ m ⊆ σ' /\ φ a m.
Proof.
  intros Hwp.
  assert (sn (erased_step (Λ:=ck_lang A)) ([p], σ)) as Hsn.
  { eapply (twp_total Σ (ck_lang A) NotStuck p σ (λ _, True)%I 0).
    iIntros (Hinv). iMod (gen_heap_init σ) as (Hheap) "(Hσ & Hpts & _)". iModIntro.
    iExists (λ σ _ _ _, gen_heap_interp σ), (λ _, 0%nat), (λ _, True)%I, _. iFrame "Hσ".
    iApply (twp_wand (Λ:=ck_lang A) with "[Hpts]").
    { iApply (Hwp HasNoLc (CkGS _ _ Hinv Hheap) with "Hpts"). }
    by iIntros (a) "_". }
  assert (∀ p' σ', rtc sys_step ([p], σ) ([p'], σ') ->
            (∀ a, prog_to_val p' = Some a -> ∃ m, m ⊆ σ' /\ φ a m) /\ safe p' σ') as Hpost.
  { intros p' σ' Hr.
    destruct (ck_pool_adequacy Σ [p] [p'] σ σ'
      (∀ a, prog_to_val p' = Some a -> ∃ m, m ⊆ σ' /\ φ a m)) as [Hφ Hs]; [|done|].
    - iIntros (?) "Hpts". iModIntro.
      iExists [λ a, ∃ m : mem, ([∗ map] l ↦ v ∈ m, l ↦ v) ∗ ⌜φ a m⌝]%I.
      iSplitL.
      { simpl. iSplit; [|done]. iApply (twp_wp (Λ:=ck_lang A)). by iApply Hwp. }
      iIntros "Hσ [Hv _]". iApply fupd_mask_intro; [set_solver|]. iIntros "_".
      destruct (prog_to_val p') as [a|]; [|iPureIntro; congruence].
      iDestruct "Hv" as (m) "[Hm %Hφ]".
      iDestruct (ck_heap_included with "Hσ Hm") as %Hsub.
      iPureIntro. intros a' [= <-]. eauto.
    - split; [done|]. apply Hs. set_solver. }
  destruct (sn_run p σ Hsn) as (n & a & σ' & Hrun).
  { intros p' σ' Hr. by apply Hpost. }
  destruct (Hpost (Ret a) σ') as [Hφ _]; [by eapply run_steps|].
  destruct (Hφ a eq_refl) as (m & ? & ?). eauto 10.
Qed.
