(* ===== verification/Lock.v ===== *)
(** The interface between the locks and their clients: what a mutual exclusion
    lock promises ([LockSpec]), a client with an unprotected shared counter, and
    the mutual exclusion theorem for every lock that meets the interface. *)

From iris.base_logic.lib Require Export ghost_var token.
From S2P Require Export Logic.
Set Warnings "-rewrite-rw".

(** * The code of a lock

    Every queue lock of the source takes the lock and a per-thread context (a
    queue node, the cell holding the thread's node pointer, ...); locks without
    a context ignore it. *)

Record lock_code := LockCode {
  lk_lock : Z -> Z -> prog unit;
  lk_unlock : Z -> Z -> prog unit;
}.

(** * What a lock promises

    [lk_init lk ctxs m]: the memory [m] holds an initialised lock at [lk] and the
    contexts of the threads that will use it.  From there the lock can be made
    to protect any resource [R]: acquiring gives [R], releasing returns it. *)

Class LockSpec (L : lock_code) (lk_init : Z -> list Z -> mem -> Prop) {Σ} `{!ckGS Σ} := {
  lk_name : Type;
  is_lock : lk_name -> Z -> iProp Σ -> iProp Σ;
  lock_ctx : lk_name -> Z -> iProp Σ;
  locked : lk_name -> Z -> iProp Σ;
  is_lock_persistent γ lk R :: Persistent (is_lock γ lk R);
  lock_alloc lk ctxs m R E :
    lk_init lk ctxs m ->
    ([∗ map] l ↦ v ∈ m, l ↦ v) -∗ R ={E}=∗
    ∃ γ, is_lock γ lk R ∗ [∗ list] c ∈ ctxs, lock_ctx γ c;
  acquire_spec γ lk R c :
    {{{ is_lock γ lk R ∗ lock_ctx γ c }}} lk_lock L lk c {{{ RET tt; locked γ c ∗ R }}};
  release_spec γ lk R c :
    {{{ is_lock γ lk R ∗ locked γ c ∗ R }}} lk_unlock L lk c {{{ RET tt; lock_ctx γ c }}};
}.

(** * Memory owned by a lock and its contexts *)

(** A memory whose cells are [ls], with any values. *)
Definition has_cells (ls : list Z) (m : mem) : Prop := NoDup ls /\ dom m = list_to_set ls.

Lemma has_cells_own `{!ckGS Σ} ls m :
  has_cells ls m ->
  ([∗ map] l ↦ v ∈ m, l ↦ v) -∗ [∗ list] l ∈ ls, ∃ v, ⌜m !! l = Some v⌝ ∗ l ↦ v.
Proof.
  iIntros ([Hnd Hdom]) "H". rewrite -big_sepS_list_to_set // -Hdom -big_sepM_dom.
  iApply (big_sepM_impl with "H"). iIntros "!>" (l v Hl) "H". iExists v. by iFrame.
Qed.

Lemma has_cells_cons `{!ckGS Σ} l ls m v :
  has_cells (l :: ls) m -> m !! l = Some v ->
  ([∗ map] l ↦ v ∈ m, l ↦ v) -∗ l ↦ v ∗ [∗ list] l ∈ ls, ∃ v, l ↦ v.
Proof.
  iIntros (Hcells Hl) "H". iDestruct (has_cells_own (l :: ls) with "H") as "[(%w & %Hw & Hl) H]"; [done|].
  simplify_eq. iFrame "Hl". iApply (big_sepL_impl with "H").
  iIntros "!>" (i k _) "(%x & _ & H)". by iExists x.
Qed.

(** Giving a cell of its own another value. *)
Lemma has_cells_insert ls m l v : has_cells ls m -> l ∈ ls -> has_cells ls (<[l := v]> m).
Proof. intros [Hnd Hdom] Hl. split; [done|]. rewrite dom_insert_L Hdom. set_solver. Qed.

Lemma has_cells_fresh ls m l k : has_cells ls m -> l ∈ ls -> m !! k = None -> l <> k.
Proof.
  intros [_ Hdom] Hl Hk ->. apply not_elem_of_dom in Hk. rewrite Hdom in Hk. set_solver.
Qed.

(** The memory of a structure whose cells [ls] are all 0, what its initialisation
    leaves of any memory with those cells, and its ownership. *)
Definition zeros (ls : list Z) : mem := list_to_map (map (fun l => (l, 0)) ls).

Lemma zeros_lookup ls l : zeros ls !! l = if decide (l ∈ ls) then Some 0 else None.
Proof.
  induction ls as [|x ls IH]; [done|]. unfold zeros in *. simpl.
  destruct (decide (x = l)) as [->|Hne].
  - rewrite lookup_insert_eq decide_True //. apply list_elem_of_here.
  - rewrite lookup_insert_ne // IH. apply decide_ext. rewrite elem_of_cons. naive_solver.
Qed.

Lemma has_cells_zeroed ls m :
  has_cells ls m -> foldl (fun m l => <[l := 0]> m) m ls = zeros ls.
Proof.
  intros [_ Hdom]. apply map_eq. intros l. rewrite zeros_lookup.
  assert (∀ ks (m' : mem), foldl (fun (m : mem) l => <[l := 0]> m) m' ks !! l =
                   if decide (l ∈ ks) then Some 0 else m' !! l) as Hfold.
  { induction ks as [|k ks IH]; intros m'; [done|]. simpl. rewrite IH.
    destruct (decide (l ∈ ks)) as [Hk|Hk].
    - rewrite decide_True //. by apply list_elem_of_further.
    - destruct (decide (k = l)) as [->|Hne].
      + rewrite lookup_insert_eq decide_True //. apply list_elem_of_here.
      + rewrite lookup_insert_ne // decide_False //. rewrite elem_of_cons. naive_solver. }
  rewrite Hfold. case_decide as Hl; [done|]. apply not_elem_of_dom. rewrite Hdom. set_solver.
Qed.

(** Initialisers that store 0 into every cell. *)
Definition store_zeros (ls : list Z) : prog unit := foldr (fun l p => st l 0 ;; p) ck_pr_barrier ls.

Lemma store_zeros_returns ls m : has_cells ls m -> returns (store_zeros ls) m tt (zeros ls).
Proof.
  intros Hm. rewrite -(has_cells_zeroed ls m Hm).
  assert (∀ l, l ∈ ls -> is_Some (m !! l)) as Hls.
  { destruct Hm as [_ Hdom]. intros l Hl. apply elem_of_dom. rewrite Hdom. set_solver. }
  clear Hm. revert m Hls. induction ls as [|l ls IH]; intros m Hls; simpl; [apply returns_fence|].
  destruct (Hls l) as [v Hv]; [apply list_elem_of_here|].
  eapply returns_bind; [by eapply returns_store|]. apply IH. intros k Hk.
  destruct (decide (l = k)) as [->|Hne]; [by rewrite lookup_insert_eq|]. rewrite lookup_insert_ne //.
  apply Hls. by apply list_elem_of_further.
Qed.

Lemma zeros_own `{!ckGS Σ} ls :
  NoDup ls -> ([∗ map] l ↦ v ∈ zeros ls, l ↦ v) -∗ [∗ list] l ∈ ls, l ↦ 0.
Proof.
  iIntros (Hnd) "H". rewrite /zeros big_sepM_list_to_map.
  - by rewrite big_sepL_fmap.
  - rewrite -list_fmap_compose. by rewrite (list_fmap_ext _ id) ?list_fmap_id.
Qed.

(** * A ghost variable per thread, one half of it with the thread *)

Section halves.
Context {A : Type} `{!ckGS Σ, !ghost_varG Σ A}.
Implicit Types (γs : list gname) (ks js : list A).

Lemma ghost_halves_alloc (a : A) (n : nat) E :
  ⊢ |={E}=> ∃ γs : list gname, ⌜length γs = n⌝ ∗
      ([∗ list] γ;k ∈ γs;replicate n a, ghost_var γ (1/2) k) ∗
      ([∗ list] γ ∈ γs, ghost_var γ (1/2) a).
Proof.
  induction n as [|n IH].
  { iModIntro. iExists []. simpl. auto. }
  iMod IH as (γs) "(%Hlen & H1 & H2)".
  iMod (ghost_var_alloc a) as (γ) "[Ha Hb]". iModIntro.
  iExists (γ :: γs). simpl. iFrame. by rewrite Hlen.
Qed.

Lemma ghost_halves_agree γs ks js :
  ([∗ list] γ;k ∈ γs;ks, ghost_var γ (1/2) k) -∗
  ([∗ list] γ;k ∈ γs;js, ghost_var γ (1/2) k) -∗ ⌜ks = js⌝.
Proof.
  iIntros "H1 H2". iInduction γs as [|γ γs] "IH" forall (ks js).
  - iDestruct (big_sepL2_nil_inv_l with "H1") as %->.
    by iDestruct (big_sepL2_nil_inv_l with "H2") as %->.
  - iDestruct (big_sepL2_cons_inv_l with "H1") as (k ks') "(-> & Hk & H1)".
    iDestruct (big_sepL2_cons_inv_l with "H2") as (j js') "(-> & Hj & H2)".
    iDestruct (ghost_var_agree with "Hk Hj") as %->.
    by iDestruct ("IH" with "H1 H2") as %->.
Qed.
End halves.

(** * The client

    [iters] times: acquire, announce the critical section in [occ], increment
    [cnt] with a plain load and a plain store, leave, release. *)

Definition critical_section (occ cnt : Z) : prog unit :=
  ck_pr_inc u32 occ ;;
  c <- ld cnt ;;
  st cnt (u32 (c + 1)) ;;
  ck_pr_dec u32 occ.

Definition mutex_client (L : lock_code) (lk occ cnt : Z) (iters : nat) (ctx : Z) : prog unit :=
  for_ 0 (Z.of_nat iters) (fun _ =>
    lk_lock L lk ctx ;; critical_section occ cnt ;; lk_unlock L lk ctx).

Definition mutex_client_config (L : lock_code) (lk occ cnt : Z) (iters : nat)
    (ctxs : list Z) (m : mem) : config unit :=
  (map (mutex_client L lk occ cnt iters) ctxs, <[occ := 0]> (<[cnt := 0]> m)).

(** What the client observes at any time: at most one thread is between its two
    announcements, and a finished run has counted every iteration. *)
Definition mutex_ok (occ cnt : Z) (iters : nat) (ctxs : list Z) (ps : list (prog unit)) (σ : mem) : Prop :=
  (σ !! occ = Some 0 \/ σ !! occ = Some 1) /\
  (Forall (fun p => p = Ret tt) ps -> σ !! cnt = Some (u32 (Z.of_nat (length ctxs * iters)))).

(** * Every lock that meets the interface gives mutual exclusion *)

Definition mutexN : namespace := nroot .@ "mutex_client".

Section client.
Context `{!ckGS Σ, !ghost_varG Σ nat, !ghost_varG Σ bool}.
Context (L : lock_code) (lk_init : Z -> list Z -> mem -> Prop) `{!LockSpec L lk_init}.
Context (lk occ cnt : Z).

Definition client_inv (γo γc : gname) (γs : list gname) : iProp Σ :=
  ∃ (ks : list nat) (busy : bool),
    occ ↦ b2z busy ∗ ghost_var γo (1/2) busy ∗
    cnt ↦ u32 (Z.of_nat (sum_list ks)) ∗ ghost_var γc (1/2) (sum_list ks) ∗
    [∗ list] γ;k ∈ γs;ks, ghost_var γ (1/2) k.

Definition client_res (γo γc : gname) : iProp Σ :=
  ghost_var γo (1/2) false ∗ ∃ k : nat, ghost_var γc (1/2) k.

Lemma sum_list_bump (ks : list nat) i k :
  ks !! i = Some k -> sum_list (<[i := S k]> ks) = S (sum_list ks).
Proof.
  revert i. induction ks as [|x ks IH]; intros [|i] Hi; simplify_eq/=; [done|].
  rewrite IH; [lia|done].
Qed.

Lemma critical_section_spec γo γc γs i γi n :
  γs !! i = Some γi ->
  {{{ inv mutexN (client_inv γo γc γs) ∗ client_res γo γc ∗ ghost_var γi (1/2) n }}}
    critical_section occ cnt
  {{{ RET tt; client_res γo γc ∗ ghost_var γi (1/2) (S n) }}}.
Proof.
  iIntros (Hi Φ) "(#Hinv & (Ho & %k & Hc) & Hn) HΦ". rewrite /critical_section. wp_focus.
  iInv mutexN as (ks busy) "(>Hocc & >Ho' & >Hcnt & >Hc' & >Hks)".
  iDestruct (ghost_var_agree with "Ho Ho'") as %<-.
  iMod (ghost_var_update_halves true with "Ho Ho'") as "[Ho Ho']".
  wp_rmw "Hocc". iModIntro. iSplitL "Hocc Ho' Hcnt Hc' Hks".
  { iExists ks, true. iFrame. }
  clear ks. wp_pures.
  iInv mutexN as (ks busy) "(>Hocc & >Ho' & >Hcnt & >Hc' & >Hks)".
  iDestruct (ghost_var_agree with "Hc Hc'") as %->.
  wp_load "Hcnt". iModIntro. iSplitL "Hocc Ho' Hcnt Hc' Hks".
  { iExists ks, busy. iFrame. }
  clear busy. wp_pures.
  iInv mutexN as (ks' busy) "(>Hocc & >Ho' & >Hcnt & >Hc' & >Hks)".
  iDestruct (ghost_var_agree with "Hc Hc'") as %Heq.
  iDestruct (big_sepL2_length with "Hks") as %Hlen.
  destruct (lookup_lt_is_Some_2 ks' i) as [k Hk].
  { rewrite -Hlen. by eapply lookup_lt_Some. }
  iDestruct (big_sepL2_insert_acc with "Hks") as "[Hk Hks]"; [done..|].
  iDestruct (ghost_var_agree with "Hn Hk") as %<-.
  iMod (ghost_var_update_halves (S n) with "Hn Hk") as "[Hn Hk]".
  iMod (ghost_var_update_halves (S (sum_list ks)) with "Hc Hc'") as "[Hc Hc']".
  iDestruct ("Hks" with "Hk") as "Hks". rewrite list_insert_id //.
  wp_store "Hcnt". iModIntro. iSplitL "Hocc Ho' Hcnt Hc' Hks".
  { iExists (<[i:=S n]> ks'), busy. rewrite sum_list_bump // -Heq. iFrame.
    iNext. rewrite u32_add_l. by replace (Z.of_nat (S (sum_list ks)))
      with (Z.of_nat (sum_list ks) + 1) by lia. }
  clear busy ks' Heq Hlen Hk. wp_pures.
  iInv mutexN as (ks' busy) "(>Hocc & >Ho' & >Hcnt & >Hc' & >Hks)".
  iDestruct (ghost_var_agree with "Ho Ho'") as %<-.
  iMod (ghost_var_update_halves false with "Ho Ho'") as "[Ho Ho']".
  wp_rmw "Hocc". iModIntro. iSplitL "Hocc Ho' Hcnt Hc' Hks".
  { iExists ks', false. iFrame. }
  iApply "HΦ". iFrame.
Qed.

Lemma mutex_client_spec γ γo γc γs i γi iters ctx :
  γs !! i = Some γi ->
  inv mutexN (client_inv γo γc γs) -∗ is_lock γ lk (client_res γo γc) -∗
  lock_ctx γ ctx -∗ ghost_var γi (1/2) 0%nat -∗
  WP mutex_client L lk occ cnt iters ctx {{ _, ghost_var γi (1/2) iters }}.
Proof.
  iIntros (Hi) "#Hinv #Hlk Hctx Hn". rewrite /mutex_client /for_.
  iApply (wp_loop_inv (λ j, ∃ n : nat, ⌜j = Z.of_nat n⌝ ∗ ⌜(n <= iters)%nat⌝ ∗
                        lock_ctx γ ctx ∗ ghost_var γi (1/2) n)%I with "[Hctx Hn]").
  { iExists 0%nat. iFrame. iPureIntro. split; [done|lia]. }
  iIntros "!>" (j) "(%n & -> & %Hle & Hctx & Hn)". zcase.
  - wp_focus. iApply (acquire_spec with "[$Hlk $Hctx]"). iIntros "!> [Hl HR]". wp_focus.
    iApply (critical_section_spec with "[$Hinv $HR $Hn]"); [done|]. iIntros "!> [HR Hn]".
    iApply (release_spec with "[$Hlk $Hl $HR]"). iIntros "!> Hctx". wp_pures.
    iExists (S n). iFrame. iPureIntro. lia.
  - wp_pures. by replace n with iters by lia.
Qed.
End client.

Section mutual_exclusion.
Context (Σ : gFunctors) `{!ckGpreS Σ, !ghost_varG Σ nat, !ghost_varG Σ bool}.
Context (L : lock_code) (lk_init : Z -> list Z -> mem -> Prop).
Context (spec : ∀ `{!ckGS Σ}, LockSpec L lk_init).

Lemma finished_posts `{!ckGS Σ} (γs : list gname) (ps : list (prog unit)) (n : nat) :
  Forall (λ p, p = Ret tt) ps ->
  ([∗ list] p;Φ ∈ ps;((λ (γ : gname) (_ : unit), ghost_var γ (1/2) n) <$> γs),
     from_option Φ True (prog_to_val p)) -∗
  [∗ list] γ;k ∈ γs;replicate (length γs) n, ghost_var γ (1/2) k.
Proof.
  iIntros (Hall) "H". rewrite big_sepL2_fmap_r big_sepL2_replicate_r //.
  iDestruct (big_sepL2_impl _ (λ _ _ γ, ghost_var γ (1/2) n) with "H []") as "H".
  { iIntros "!>" (i p γ Hp Hγ) "H". rewrite Forall_forall in Hall.
    rewrite (Hall p) //. by eapply list_elem_of_lookup_2. }
  by iDestruct (big_sepL2_const_sepL_r with "H") as "[_ $]".
Qed.

(** Mutual exclusion, for any lock that meets the interface, any number of
    threads and every interleaving. *)
Lemma lock_mutual_exclusion lk occ cnt iters ctxs m ps σ :
  lk_init lk ctxs m -> m !! occ = None -> m !! cnt = None -> occ <> cnt ->
  rtc sys_step (mutex_client_config L lk occ cnt iters ctxs m) (ps, σ) ->
  mutex_ok occ cnt iters ctxs ps σ /\ (∀ p, p ∈ ps -> safe p σ).
Proof.
  intros Hinit Hocc Hcnt Hne Hsteps.
  assert (length ps = length ctxs) as Hlen.
  { apply sys_steps_erased in Hsteps as [_ Hl]. simpl in Hl. by rewrite Hl length_map. }
  eapply (ck_pool_adequacy Σ _ _ _ _ _); [|exact Hsteps].
  iIntros (?) "Hm".
  rewrite big_sepM_insert; [|by rewrite lookup_insert_ne].
  rewrite big_sepM_insert //. iDestruct "Hm" as "(Hocc & Hcnt & Hm)".
  iMod (ghost_var_alloc false) as (γo) "[Ho Ho']".
  iMod (ghost_var_alloc 0%nat) as (γc) "[Hc Hc']".
  iMod (ghost_halves_alloc 0%nat (length ctxs)) as (γs) "(%Hγs & Hks & Hns)".
  iMod (lock_alloc lk ctxs m (client_res γo γc) ⊤ with "Hm [Ho Hc]") as (γ) "[#Hlk Hctxs]";
    [done|by iFrame|].
  iMod (inv_alloc mutexN _ (client_inv occ cnt γo γc γs) with "[Hocc Hcnt Ho' Hc' Hks]") as "#Hinv".
  { iExists (replicate (length ctxs) 0%nat), false.
    assert (sum_list (replicate (length ctxs) 0%nat) = 0%nat) as ->.
    { clear. by induction (length ctxs). }
    iFrame. }
  iModIntro. iExists ((λ γi _, ghost_var γi (1/2) iters) <$> γs). iSplitL "Hctxs Hns".
  { rewrite big_sepL2_fmap_l big_sepL2_fmap_r.
    iDestruct (big_sepL2_sepL_2 with "Hctxs Hns") as "H"; [done|].
    iApply (big_sepL2_impl with "H"). iIntros "!>" (i c γi Hc Hγi) "[Hctx Hn]".
    by iApply (mutex_client_spec with "Hinv Hlk Hctx Hn"). }
  iIntros "Hσ Hposts".
  iInv mutexN as (ks busy) "(>Hocc & >Ho' & >Hcnt & >Hc' & >Hks)" "_".
  iDestruct (gen_heap_valid with "Hσ Hocc") as %Ho.
  iDestruct (gen_heap_valid with "Hσ Hcnt") as %Hc.
  iApply fupd_mask_intro; [set_solver|]. iIntros "_".
  iAssert ⌜Forall (λ p, p = Ret tt) ps -> ks = replicate (length ctxs) iters⌝%I
    with "[Hks Hposts]" as %Hks.
  { iIntros (Hall). rewrite -Hγs.
    iApply (ghost_halves_agree with "Hks"). by iApply finished_posts. }
  iPureIntro. split.
  - destruct busy; auto.
  - intros Hall. rewrite Hc (Hks Hall). do 2 f_equal.
    clear. induction (length ctxs) as [|n IH]; simpl; [done|]. lia.
Qed.
End mutual_exclusion.
