(* ===== verification/Shares.v ===== *)
(** Ghost state of the locks that count their users: leases, which bound how many
    threads are inside at a time; equal shares of a resource; and the table of the
    readers of a lock. *)

From iris.algebra Require Import auth numbers.
From iris.base_logic.lib Require Export ghost_map.
From S2P Require Export Lock.
Set Warnings "-rewrite-rw".

Class leaseG Σ := LeaseG { lease_inG :: inG Σ (authR natUR) }.
Definition leaseΣ : gFunctors := #[GFunctor (authR natUR)].
#[global] Instance subG_leaseΣ {Σ} : subG leaseΣ Σ -> leaseG Σ.
Proof. solve_inG. Qed.

(** * Leases *)

Section leases.
Context `{!leaseG Σ}.
Implicit Types (γ : gname) (k n : nat).

Definition leases γ k : iProp Σ := own γ (◯ k).
Definition lease_auth γ n : iProp Σ := own γ (● n).

#[global] Instance leases_timeless γ k : Timeless (leases γ k).
Proof. apply _. Qed.
#[global] Instance lease_auth_timeless γ n : Timeless (lease_auth γ n).
Proof. apply _. Qed.

Lemma leases_split γ a b : leases γ (a + b) ⊣⊢ leases γ a ∗ leases γ b.
Proof. rewrite /leases -own_op -auth_frag_op. done. Qed.

Lemma leases_join γ a b : leases γ a -∗ leases γ b -∗ leases γ (a + b).
Proof. iIntros "H1 H2". rewrite leases_split. iFrame. Qed.

Lemma leases_bound γ k n : lease_auth γ n -∗ leases γ k -∗ ⌜(k <= n)%nat⌝.
Proof.
  iIntros "H1 H2". iDestruct (own_valid_2 with "H1 H2") as %[H _]%auth_both_valid_discrete.
  iPureIntro. by apply nat_included.
Qed.

Lemma leases_list {A} γ (l : list A) : leases γ (length l) -∗ [∗ list] _ ∈ l, leases γ 1.
Proof.
  induction l as [|x l IH]; [by iIntros|]. iIntros "H".
  rewrite /= (leases_split γ 1 (length l)). iDestruct "H" as "[$ H]". by iApply IH.
Qed.

(** A count that follows the leases issued. *)
Lemma lease_issue γ n : lease_auth γ n ==∗ lease_auth γ (S n) ∗ leases γ 1.
Proof.
  iIntros "H". rewrite /lease_auth /leases -own_op. iApply (own_update with "H").
  apply auth_update_alloc, nat_local_update. change (ε : nat) with 0%nat. lia.
Qed.

Lemma lease_return γ n : lease_auth γ (S n) -∗ leases γ 1 ==∗ lease_auth γ n.
Proof.
  iIntros "H1 H2". iCombine "H1 H2" as "H". rewrite /lease_auth. iApply (own_update with "H").
  apply auth_update_dealloc, nat_local_update. change (ε : nat) with 0%nat. lia.
Qed.

Lemma lease_some γ n : lease_auth γ n -∗ leases γ 1 -∗ ⌜∃ k, n = S k⌝.
Proof.
  iIntros "H1 H2". iDestruct (leases_bound with "H1 H2") as %H. iPureIntro. exists (pred n). lia.
Qed.

Lemma lease_alloc n : ⊢ |==> ∃ γ, lease_auth γ n ∗ leases γ n ∗ leases γ 0.
Proof.
  iMod (own_alloc (● n ⋅ ◯ (n + 0)%nat)) as (γ) "[Ha Hf]".
  { rewrite Nat.add_0_r. by apply auth_both_valid_discrete. }
  iExists γ. rewrite auth_frag_op own_op. iDestruct "Hf" as "[$ $]". by iFrame.
Qed.
End leases.

(** * Copies of a resource *)

Section copies.
Context {Σ : gFunctors}.
Implicit Types (P Q : iProp Σ).

Definition copies (n : nat) P : iProp Σ := [∗ list] _ ∈ replicate n tt, P.

Lemma copies_S n P : copies (S n) P ⊣⊢ P ∗ copies n P.
Proof. done. Qed.

Lemma copies_0 P : copies 0 P ⊣⊢ emp.
Proof. done. Qed.

Lemma copies_impl n P Q : □ (P -∗ Q) -∗ copies n P -∗ copies n Q.
Proof. iIntros "#H HP". iApply (big_sepL_impl with "HP"). iIntros "!>" (? ? _). iApply "H". Qed.

#[global] Instance copies_timeless n P `{!Timeless P} : Timeless (copies n P).
Proof. apply _. Qed.
End copies.

(** * Equal fractions of a ghost variable *)

Section fractions.
Context {A : Type} `{!ghost_varG Σ A}.
Implicit Types (γ : gname) (x : Qp) (n : nat) (a : A).

(** The [n]-th part of one half. *)
Definition part n : Qp := (1/2 / pos_to_Qp (Pos.of_nat n))%Qp.

Lemma parts_gather γ x (P : A -> Prop) n :
  copies (S n) (∃ a, ⌜P a⌝ ∗ ghost_var γ x a) -∗
  ∃ a, ⌜P a⌝ ∗ ghost_var γ (pos_to_Qp (Pos.of_nat (S n)) * x) a.
Proof.
  iIntros "H". iInduction n as [|n] "IH".
  - rewrite copies_S. iDestruct "H" as "[(%a & %Ha & H) _]". iExists a. iSplit; [done|].
    by rewrite Qp.mul_1_l.
  - rewrite copies_S. iDestruct "H" as "[(%a & %Ha & H) Hs]".
    iDestruct ("IH" with "Hs") as (b) "[_ Hs]".
    iDestruct (ghost_var_agree with "H Hs") as %<-. iExists a. iSplit; [done|].
    iCombine "H Hs" as "H".
    replace (x + pos_to_Qp (Pos.of_nat (S n)) * x)%Qp
      with (pos_to_Qp (Pos.of_nat (S (S n))) * x)%Qp; [done|].
    rewrite -{2}(Qp.mul_1_l x) -Qp.mul_add_distr_r. f_equal.
    by rewrite pos_to_Qp_add Pos.add_1_l.
Qed.

Lemma parts_scatter γ x a n :
  ghost_var γ (pos_to_Qp (Pos.of_nat (S n)) * x) a -∗ copies (S n) (ghost_var γ x a).
Proof.
  iIntros "H". iInduction n as [|n] "IH".
  - rewrite copies_S copies_0 Qp.mul_1_l. by iFrame.
  - replace (pos_to_Qp (Pos.of_nat (S (S n))) * x)%Qp
      with (x + pos_to_Qp (Pos.of_nat (S n)) * x)%Qp.
    + rewrite copies_S. iDestruct "H" as "[$ H]". by iApply "IH".
    + rewrite -{1}(Qp.mul_1_l x) -Qp.mul_add_distr_r. f_equal.
      by rewrite pos_to_Qp_add Pos.add_1_l.
Qed.

Lemma part_all n : (pos_to_Qp (Pos.of_nat n) * part n = 1/2)%Qp.
Proof. apply Qp.mul_div_r. Qed.
End fractions.

(** * Counting the entries of a map *)

Section census.
Context {V : Type}.
Implicit Types (p q : V -> bool) (M : gmap nat V) (j : nat) (v w : V).

Definition census p M : nat := size (filter (λ kv, p kv.2 = true) M).

Lemma census_empty p : census p ∅ = 0%nat.
Proof. by rewrite /census map_filter_empty map_size_empty. Qed.

Lemma census_insert p M j v :
  M !! j = None -> census p (<[j := v]> M) = (census p M + if p v then 1 else 0)%nat.
Proof.
  intros Hj. rewrite /census. destruct (p v) eqn:Hp.
  - rewrite map_filter_insert_True // map_size_insert_None; [lia|].
    apply map_lookup_filter_None_2. by left.
  - rewrite map_filter_insert_False; [|by rewrite /= Hp]. rewrite delete_id //; lia.
Qed.

Lemma census_delete p M j v :
  M !! j = Some v -> census p M = (census p (delete j M) + if p v then 1 else 0)%nat.
Proof.
  intros Hj. rewrite -{1}(insert_delete_id M j v) //. apply census_insert, lookup_delete_eq.
Qed.

Lemma census_update p M j v w :
  M !! j = Some v ->
  (census p (<[j := w]> M) + (if p v then 1 else 0) = census p M + if p w then 1 else 0)%nat.
Proof.
  intros Hj. rewrite -insert_delete_eq census_insert; [|apply lookup_delete_eq].
  rewrite (census_delete p M j v) //. lia.
Qed.

Lemma census_le_size p M : (census p M <= size M)%nat.
Proof.
  induction M as [|j v M Hj IH] using map_ind; [by rewrite census_empty|].
  rewrite census_insert // map_size_insert_None //. destruct (p v); lia.
Qed.

Lemma census_zero p M : census p M = 0%nat <-> ∀ j v, M !! j = Some v -> p v = false.
Proof.
  split.
  - intros H j v Hj. rewrite (census_delete p M j v) // in H. destruct (p v); [lia|done].
  - intros H. rewrite /census. apply map_size_empty_iff, map_empty_filter.
    intros j v Hj. rewrite /= (H j v) //.
Qed.

Lemma census_pos p M j v : M !! j = Some v -> p v = true -> (0 < census p M)%nat.
Proof. intros Hj Hv. rewrite (census_delete p M j v) // Hv. lia. Qed.

Lemma census_ext p q M : (∀ j v, M !! j = Some v -> p v = q v) -> census p M = census q M.
Proof.
  intros H. rewrite /census. f_equal. apply map_filter_ext. intros j v Hj. by rewrite /= (H j v).
Qed.

Lemma census_all p M : (∀ j v, M !! j = Some v -> p v = true) -> census p M = size M.
Proof.
  intros H. rewrite /census. f_equal. apply map_filter_id. intros j v Hj. by rewrite /= (H j v).
Qed.

Lemma census_split p M : size M = (census p M + census (λ v, negb (p v)) M)%nat.
Proof.
  induction M as [|j v M Hj IH] using map_ind; [by rewrite !census_empty|].
  rewrite !census_insert // map_size_insert_None //. destruct (p v); simpl; lia.
Qed.
End census.

(** * The table of the readers of a lock

    A reader leaves its lease while it is in the table; [inside] tells which of its
    states hold a share of the protected resource. *)

Section table.
Context {V : Type} `{!leaseG Σ, !ghost_mapG Σ nat V}.
Context (inside : V -> bool).
Implicit Types (γm γp : gname) (M : gmap nat V) (j n : nat) (v w : V) (P : iProp Σ).

Definition table γm γp n M : iProp Σ :=
  ghost_map_auth γm 1 M ∗ lease_auth γp n ∗ leases γp (size M).

(** The shares that no reader holds. *)
Definition pool n M P : iProp Σ := copies (n - census inside M) P.

Lemma table_bound γm γp n M : table γm γp n M -∗ ⌜(size M <= n)%nat⌝.
Proof. iIntros "(_ & Ha & Hf)". iApply (leases_bound with "Ha Hf"). Qed.

Lemma table_lookup γm γp n M j v : table γm γp n M -∗ j ↪[γm] v -∗ ⌜M !! j = Some v⌝.
Proof. iIntros "(H & _) Hj". iApply (ghost_map_lookup with "H Hj"). Qed.

(** Every thread with a lease of its own: one more than in the table. *)
Lemma table_room γm γp n M : table γm γp n M -∗ leases γp 1 -∗ ⌜(size M < n)%nat⌝.
Proof.
  iIntros "(_ & Ha & Hf) Hl". iDestruct (leases_join with "Hf Hl") as "Hf".
  iDestruct (leases_bound with "Ha Hf") as %H. iPureIntro. lia.
Qed.

Lemma table_join γm γp n M v :
  table γm γp n M -∗ leases γp 1 ==∗
  ∃ j, ⌜M !! j = None⌝ ∗ table γm γp n (<[j := v]> M) ∗ j ↪[γm] v.
Proof.
  iIntros "(H & Ha & Hf) Hl". pose proof (is_fresh (dom M)) as Hj. set (j := fresh (dom M)) in *.
  apply not_elem_of_dom in Hj. iMod (ghost_map_insert j v with "H") as "[H Hv]"; [done|].
  iExists j. iDestruct (leases_join with "Hf Hl") as "Hf". iFrame. iSplitR; [done|].
  rewrite map_size_insert_None // Nat.add_1_r. by iFrame.
Qed.

Lemma table_set γm γp n M j v w :
  table γm γp n M -∗ j ↪[γm] v ==∗ table γm γp n (<[j := w]> M) ∗ j ↪[γm] w.
Proof.
  iIntros "(H & Ha & Hf) Hv". iDestruct (ghost_map_lookup with "H Hv") as %Hj.
  iMod (ghost_map_update w with "H Hv") as "[$ $]". iFrame "Ha".
  rewrite map_size_insert_Some //.
Qed.

Lemma table_leave γm γp n M j v :
  table γm γp n M -∗ j ↪[γm] v ==∗ table γm γp n (delete j M) ∗ leases γp 1.
Proof.
  iIntros "(H & Ha & Hf) Hv". iDestruct (ghost_map_lookup with "H Hv") as %Hj.
  iMod (ghost_map_delete with "H Hv") as "$". iFrame "Ha".
  rewrite -{1}(insert_delete_id M j v) // map_size_insert_None; [|apply lookup_delete_eq].
  rewrite -Nat.add_1_r leases_split. by iDestruct "Hf" as "[$ $]".
Qed.

Lemma table_alloc n :
  ⊢ |==> ∃ γm γp, table γm γp n ∅ ∗ leases γp n.
Proof.
  iMod (ghost_map_alloc_empty (K:=nat) (V:=V)) as (γm) "Hm".
  iMod (lease_alloc n) as (γp) "(Ha & Hf & H0)". iExists γm, γp. by iFrame.
Qed.

Lemma pool_take n M j v w P :
  M !! j = Some v -> inside v = false -> inside w = true -> (size M <= n)%nat ->
  pool n M P -∗ P ∗ pool n (<[j := w]> M) P.
Proof.
  iIntros (Hj Hv Hw Hle) "HP". rewrite /pool.
  pose proof (census_update inside M j v w Hj) as Hc. rewrite Hv Hw in Hc.
  pose proof (census_le_size inside (<[j := w]> M)) as Hs. rewrite map_size_insert_Some // in Hs.
  replace (n - census inside M)%nat with (S (n - census inside (<[j := w]> M))) by lia.
  by rewrite copies_S.
Qed.

Lemma pool_join n M j w P :
  M !! j = None -> inside w = true -> (size (<[j := w]> M) <= n)%nat ->
  pool n M P -∗ P ∗ pool n (<[j := w]> M) P.
Proof.
  iIntros (Hj Hw Hle) "HP". rewrite /pool. rewrite map_size_insert_None // in Hle.
  pose proof (census_insert inside M j w Hj) as Hc. rewrite Hw in Hc.
  pose proof (census_le_size inside M) as Hs.
  replace (n - census inside M)%nat with (S (n - census inside (<[j := w]> M))) by lia.
  by rewrite copies_S.
Qed.

Lemma pool_put n M j v P :
  M !! j = Some v -> inside v = true -> (size M <= n)%nat ->
  P -∗ pool n M P -∗ pool n (delete j M) P.
Proof.
  iIntros (Hj Hv Hle) "HP HM". rewrite /pool.
  pose proof (census_delete inside M j v Hj) as Hc. rewrite Hv in Hc.
  pose proof (census_le_size inside M) as Hs.
  replace (n - census inside (delete j M))%nat with (S (n - census inside M)) by lia.
  rewrite copies_S. iFrame.
Qed.

(** Whatever does not change who is inside. *)
Lemma pool_same n M M' P : census inside M = census inside M' -> pool n M P ⊣⊢ pool n M' P.
Proof. by rewrite /pool => ->. Qed.

Lemma pool_all n M P : census inside M = 0%nat -> pool n M P ⊣⊢ copies n P.
Proof. rewrite /pool => ->. by rewrite Nat.sub_0_r. Qed.

Lemma census_join M j v : M !! j = None -> inside v = false -> census inside (<[j := v]> M) = census inside M.
Proof. intros Hj Hv. rewrite census_insert // Hv. lia. Qed.

Lemma census_leave M j v :
  M !! j = Some v -> inside v = false -> census inside (delete j M) = census inside M.
Proof. intros Hj Hv. rewrite (census_delete inside M j v) // Hv. lia. Qed.

Lemma census_keep M j v w :
  M !! j = Some v -> inside v = inside w -> census inside (<[j := w]> M) = census inside M.
Proof. intros Hj Hv. pose proof (census_update inside M j v w Hj) as H. rewrite Hv in H. lia. Qed.
End table.
