(* ===== verification/RwLock.v ===== *)
(** The interface between the reader-writer locks and their clients: what such a
    lock promises ([RwSpec]), a client whose writers update two words that its
    readers compare, and the exclusion theorem for every lock that meets the
    interface. *)

From iris.algebra Require Import auth numbers.
From S2P Require Export Shares.
Set Warnings "-rewrite-rw".

(** * The code of a reader-writer lock

    Every function takes the lock and a context of the calling thread.  Attempts and
    downgrading are optional; threads register and unregister where a lock asks for
    it. *)

Record rw_code := RwCode {
  rw_register : Z -> Z -> prog unit;
  rw_unregister : Z -> Z -> prog unit;
  rw_read_lock : Z -> Z -> prog unit;
  rw_read_unlock : Z -> Z -> prog unit;
  rw_write_lock : Z -> Z -> prog unit;
  rw_write_unlock : Z -> Z -> prog unit;
  rw_read_trylock : option (Z -> Z -> prog bool);
  rw_write_trylock : option (Z -> Z -> prog bool);
  rw_write_downgrade : option (Z -> Z -> prog unit);
}.

(** A lock whose threads need not register. *)
Definition no_registration (_ _ : Z) : prog unit := Ret tt.

(** * What a reader-writer lock promises

    [rw_init lk ctxs m]: the memory [m] holds an initialised lock at [lk], for
    threads with the contexts [ctxs]; the boolean of a context tells whether its
    thread may write.  The protected resource comes in as many equal shares as there
    are threads: a reader gets one, a writer gets all. *)

Class RwSpec (L : rw_code) (rw_init : Z -> list (Z * bool) -> mem -> Prop) {Σ} `{!ckGS Σ} := {
  rw_name : Type;
  rw_shares : rw_name -> nat;
  is_rw : rw_name -> Z -> iProp Σ -> iProp Σ;
  rw_outside : rw_name -> Z -> bool -> iProp Σ;
  rw_idle : rw_name -> Z -> bool -> iProp Σ;
  rw_reading : rw_name -> Z -> bool -> iProp Σ;
  rw_writing : rw_name -> Z -> iProp Σ;
  is_rw_persistent γ lk P :: Persistent (is_rw γ lk P);
  rw_alloc lk ctxs m P E :
    rw_init lk ctxs m ->
    ([∗ map] l ↦ v ∈ m, l ↦ v) -∗ copies (length ctxs) P ={E}=∗
    ∃ γ, ⌜rw_shares γ = length ctxs⌝ ∗ is_rw γ lk P ∗ [∗ list] c ∈ ctxs, rw_outside γ c.1 c.2;
  register_spec γ lk P c w (Φ : unit -> iProp Σ) :
    is_rw γ lk P ∗ rw_outside γ c w -∗ (rw_idle γ c w -∗ Φ tt) -∗ WP rw_register L lk c {{ Φ }};
  unregister_spec γ lk P c w (Φ : unit -> iProp Σ) :
    is_rw γ lk P ∗ rw_idle γ c w -∗ Φ tt -∗ WP rw_unregister L lk c {{ Φ }};
  read_lock_spec γ lk P c w :
    {{{ is_rw γ lk P ∗ rw_idle γ c w }}} rw_read_lock L lk c {{{ RET tt; rw_reading γ c w ∗ P }}};
  read_unlock_spec γ lk P c w :
    {{{ is_rw γ lk P ∗ rw_reading γ c w ∗ P }}} rw_read_unlock L lk c {{{ RET tt; rw_idle γ c w }}};
  write_lock_spec γ lk P c :
    {{{ is_rw γ lk P ∗ rw_idle γ c true }}}
      rw_write_lock L lk c
    {{{ RET tt; rw_writing γ c ∗ copies (rw_shares γ) P }}};
  write_unlock_spec γ lk P c :
    {{{ is_rw γ lk P ∗ rw_writing γ c ∗ copies (rw_shares γ) P }}}
      rw_write_unlock L lk c
    {{{ RET tt; rw_idle γ c true }}};
  read_trylock_spec try γ lk P c w :
    rw_read_trylock L = Some try ->
    {{{ is_rw γ lk P ∗ rw_idle γ c w }}} try lk c
    {{{ (b : bool), RET b; if b then rw_reading γ c w ∗ P else rw_idle γ c w }}};
  write_trylock_spec try γ lk P c :
    rw_write_trylock L = Some try ->
    {{{ is_rw γ lk P ∗ rw_idle γ c true }}} try lk c
    {{{ (b : bool), RET b;
        if b then rw_writing γ c ∗ copies (rw_shares γ) P else rw_idle γ c true }}};
  write_downgrade_spec down γ lk P c :
    rw_write_downgrade L = Some down ->
    {{{ is_rw γ lk P ∗ rw_writing γ c ∗ copies (rw_shares γ) P }}}
      down lk c
    {{{ RET tt; rw_reading γ c true ∗ P }}};
}.

(** * The client

    Writers keep the words [a] and [b] equal and count; readers compare them.  Both
    announce their critical sections, in [writers] and [readers].  A thread returns
    how often it wrote, and whether all its comparisons succeeded. *)

Record rw_words := RwWords { wd_writers : Z; wd_readers : Z; wd_a : Z; wd_b : Z }.

Definition read_section (d : rw_words) : prog bool :=
  ck_pr_inc u32 (wd_readers d) ;;
  x <- ld (wd_a d) ;;
  y <- ld (wd_b d) ;;
  ck_pr_dec u32 (wd_readers d) ;;
  Ret (x =? y).

Definition write_section (d : rw_words) : prog unit :=
  ck_pr_inc u32 (wd_writers d) ;;
  x <- ld (wd_a d) ;;
  st (wd_a d) (u32 (x + 1)) ;;
  y <- ld (wd_b d) ;;
  st (wd_b d) (u32 (y + 1)) ;;
  ck_pr_dec u32 (wd_writers d).

Inductive rw_op := RwRead | RwWrite | RwTryRead | RwTryWrite | RwDowngrade.

Definition writes (op : rw_op) : bool :=
  match op with RwRead | RwTryRead => false | _ => true end.

(** A critical section, and the lock that surrounds it; a lock without the function
    that an operation needs does nothing. *)
Definition read_and_leave (L : rw_code) (lk : Z) (d : rw_words) (c : Z) : prog (nat * bool) :=
  b <- read_section d ;; rw_read_unlock L lk c ;; Ret (0%nat, b).

Definition write_and_leave (L : rw_code) (lk : Z) (d : rw_words) (c : Z) : prog (nat * bool) :=
  write_section d ;; rw_write_unlock L lk c ;; Ret (1%nat, true).

Definition rw_call (L : rw_code) (lk : Z) (d : rw_words) (c : Z) (op : rw_op) : prog (nat * bool) :=
  match op with
  | RwRead => rw_read_lock L lk c ;; read_and_leave L lk d c
  | RwWrite => rw_write_lock L lk c ;; write_and_leave L lk d c
  | RwTryRead =>
      match rw_read_trylock L with
      | None => Ret (0%nat, true)
      | Some try => b <- try lk c ;; if b : bool then read_and_leave L lk d c else Ret (0%nat, true)
      end
  | RwTryWrite =>
      match rw_write_trylock L with
      | None => Ret (0%nat, true)
      | Some try => b <- try lk c ;; if b : bool then write_and_leave L lk d c else Ret (0%nat, true)
      end
  | RwDowngrade =>
      match rw_write_downgrade L with
      | None => Ret (0%nat, true)
      | Some down =>
          rw_write_lock L lk c ;; write_section d ;; down lk c ;;
          r <- read_and_leave L lk d c ;; Ret (1%nat, snd r)
      end
  end.

Fixpoint rw_script (L : rw_code) (lk : Z) (d : rw_words) (c : Z) (ops : list rw_op) (k : nat) (ok : bool)
    : prog (nat * bool) :=
  match ops with
  | [] => Ret (k, ok)
  | op :: ops =>
      r <- rw_call L lk d c op ;; rw_script L lk d c ops (k + fst r) (ok && snd r)
  end.

Definition rw_client (L : rw_code) (lk : Z) (d : rw_words) (c : Z) (ops : list rw_op) : prog (nat * bool) :=
  rw_register L lk c ;;
  r <- rw_script L lk d c ops 0 true ;;
  rw_unregister L lk c ;;
  Ret r.

(** A thread: its context, whether it may write, and its script. *)
Record rw_thread := RwThread { th_ctx : Z; th_may_write : bool; th_script : list rw_op }.

Definition rw_ctxs (ts : list rw_thread) : list (Z * bool) :=
  map (fun t => (th_ctx t, th_may_write t)) ts.

(** Threads that may not write do not. *)
Definition rw_thread_ok (t : rw_thread) : Prop :=
  ∀ op, op ∈ th_script t -> writes op = true -> th_may_write t = true.

Definition rw_memory (d : rw_words) (m : mem) : mem :=
  <[wd_writers d := 0]> (<[wd_readers d := 0]> (<[wd_a d := 0]> (<[wd_b d := 0]> m))).

Definition rw_config (L : rw_code) (lk : Z) (d : rw_words) (ts : list rw_thread) (m : mem)
    : config (nat * bool) :=
  (map (fun t => rw_client L lk d (th_ctx t) (th_script t)) ts, rw_memory d m).

(** Words of the client: different from each other, and not in the memory of the lock. *)
Definition rw_words_ok (d : rw_words) (m : mem) : Prop :=
  NoDup [wd_writers d; wd_readers d; wd_a d; wd_b d] /\
  ∀ l, l ∈ [wd_writers d; wd_readers d; wd_a d; wd_b d] -> m !! l = None.

(** How often a script writes, whatever its attempts do. *)
Definition sure_write (L : rw_code) (op : rw_op) : bool :=
  match op with
  | RwWrite => true
  | RwDowngrade => match rw_write_downgrade L with Some _ => true | None => false end
  | _ => false
  end.

Definition sure_writes (L : rw_code) (ops : list rw_op) : nat :=
  sum_list (map (fun op => Nat.b2n (sure_write L op)) ops).

Definition rw_result_ok (L : rw_code) (t : rw_thread) (r : nat * bool) : Prop :=
  snd r = true /\ (sure_writes L (th_script t) <= fst r <= length (th_script t))%nat.

(** What the client observes at any time: at most one writer is in its critical
    section, and then no reader is; a thread that has returned saw the two words
    equal in each of its critical sections and has written as often as its script
    says; when all have returned, both words count the writes. *)
Definition rw_ok (L : rw_code) (d : rw_words) (ts : list rw_thread) (ps : list (prog (nat * bool))) (σ : mem)
    : Prop :=
  (σ !! wd_writers d = Some 0 \/ (σ !! wd_writers d = Some 1 /\ σ !! wd_readers d = Some 0)) /\
  (∀ i t r, ts !! i = Some t -> ps !! i = Some (Ret r) -> rw_result_ok L t r) /\
  (∀ rs, ps = map Ret rs ->
    let n := u32 (Z.of_nat (sum_list rs.*1)) in
    σ !! wd_a d = Some n /\ σ !! wd_b d = Some n).

(** * Every lock that meets the interface excludes readers and writers *)

Definition rwN : namespace := nroot .@ "rw_client".

Section client.
Context `{!ckGS Σ, !leaseG Σ, !ghost_varG Σ (nat * nat), !ghost_varG Σ (nat * nat * bool)}.
Context (d : rw_words) (N : nat).
Implicit Types (γd γr γi : gname) (γs : list gname) (va vb r n : nat) (ks : list (nat * nat)).

(** What both words hold, and whether a writer is inside. *)
Definition settled (s : nat * nat * bool) : Prop := s.1.1 = s.1.2 /\ s.2 = false.

Definition rw_share γd : iProp Σ := ∃ s, ⌜settled s⌝ ∗ ghost_var γd (part N) s.
Definition rw_deposit γd : iProp Σ := ∃ s, ⌜settled s⌝ ∗ ghost_var γd (part N / 2) s.

Definition rw_inv γd γr γs : iProp Σ :=
  ∃ ks (busy : bool) r,
    let va := sum_list (ks.*1) in
    let vb := sum_list (ks.*2) in
    wd_writers d ↦ b2z busy ∗ wd_readers d ↦ u32 (Z.of_nat r) ∗
    wd_a d ↦ u32 (Z.of_nat va) ∗ wd_b d ↦ u32 (Z.of_nat vb) ∗
    ghost_var γd (1/2) (va, vb, busy) ∗ lease_auth γr r ∗ copies r (rw_deposit γd) ∗
    ⌜busy = true -> r = 0%nat⌝ ∗ [∗ list] γ;k ∈ γs;ks, ghost_var γ (1/2) k.

Lemma deposit_share γd s : settled s -> ghost_var γd (part N / 2) s -∗ rw_deposit γd -∗ rw_share γd.
Proof.
  iIntros (Hs) "H (%s' & %Hs' & H')". iDestruct (ghost_var_agree with "H H'") as %<-.
  iCombine "H H'" as "H". iExists s. by iFrame.
Qed.

Lemma read_section_spec γd γr γs :
  {{{ inv rwN (rw_inv γd γr γs) ∗ rw_share γd }}} read_section d {{{ RET true; rw_share γd }}}.
Proof.
  iIntros (Φ) "[#Hinv (%s & %Hs & Hs)] HΦ". destruct s as [[x y] bz]. destruct Hs as [Heq Hbz].
  simpl in Heq, Hbz. subst y bz. rewrite /read_section. iDestruct "Hs" as "[Hs Hd]". wp_focus.
  iInv rwN as (ks bz r) "(>Hw & >Hr & >Ha & >Hb & >Hg & >Hc & >Hdep & >%Hbz & >Hks)".
  iDestruct (ghost_var_agree with "Hs Hg") as %[=H1 H2 <-].
  iMod (lease_issue with "Hc") as "[Hc Hl]".
  wp_rmw "Hr". rewrite u32_succ. iModIntro. iSplitR "Hs Hl HΦ".
  { iExists ks, false, (S r). iFrame. iNext. iSplit; [by iSplit|done]. }
  clear dependent ks r. wp_pures.
  iInv rwN as (ks bz r) "(>Hw & >Hr & >Ha & >Hb & >Hg & >Hc & >Hdep & >%Hbz & >Hks)".
  iDestruct (ghost_var_agree with "Hs Hg") as %[=H1 H2 <-].
  wp_load "Ha". iModIntro. iSplitR "Hs Hl HΦ".
  { iExists ks, false, r. by iFrame. }
  rewrite -{1}H1. clear dependent ks r. wp_pures.
  iInv rwN as (ks bz r) "(>Hw & >Hr & >Ha & >Hb & >Hg & >Hc & >Hdep & >%Hbz & >Hks)".
  iDestruct (ghost_var_agree with "Hs Hg") as %[=H1 H2 <-].
  wp_load "Hb". iModIntro. iSplitR "Hs Hl HΦ".
  { iExists ks, false, r. by iFrame. }
  rewrite -{1}H2. clear dependent ks r. wp_pures.
  iInv rwN as (ks bz r) "(>Hw & >Hr & >Ha & >Hb & >Hg & >Hc & >Hdep & >%Hbz & >Hks)".
  iDestruct (lease_some with "Hc Hl") as %[r' ->]. iMod (lease_return with "Hc Hl") as "Hc".
  iDestruct "Hdep" as "[Hd Hdep]".
  wp_rmw "Hr". iModIntro. iSplitR "Hs Hd HΦ".
  { iExists ks, bz, r'. iFrame. rewrite u32_sub_l. replace (Z.of_nat (S r') - 1) with (Z.of_nat r') by lia.
    iFrame. iPureIntro. intros H. by apply Hbz in H. }
  wp_pures. rewrite Z.eqb_refl. iApply "HΦ". by iApply (deposit_share with "Hs Hd").
Qed.

(** All shares together are one half of the ghost state; the other is in the
    invariant. *)
Lemma shares_gather γd :
  (0 < N)%nat -> copies N (rw_share γd) -∗ ∃ x, ghost_var γd (1/2) (x, x, false).
Proof.
  iIntros (HN) "H". rewrite /rw_share -(part_all N). destruct N as [|n]; [lia|].
  iDestruct (parts_gather with "H") as ([[x y] bz]) "[[%H1 %H2] H]". simpl in *. subst. by iExists y.
Qed.

Lemma shares_scatter γd x :
  (0 < N)%nat -> ghost_var γd (1/2) (x, x, false) -∗ copies N (rw_share γd).
Proof.
  iIntros (HN) "H". rewrite /rw_share -(part_all N). destruct N as [|n]; [lia|].
  iDestruct (parts_scatter with "H") as "H". iApply (copies_impl with "[] H").
  iIntros "!> H". iExists _. by iFrame.
Qed.

Lemma half_no_deposit γd (s t : nat * nat * bool) r :
  ghost_var γd (1/2) s -∗ ghost_var γd (1/2) t -∗ copies r (rw_deposit γd) -∗ ⌜r = 0%nat⌝.
Proof.
  iIntros "H1 H2 H". destruct r as [|r]; [done|]. iDestruct "H" as "[(%u & _ & H) _]".
  iDestruct (ghost_var_agree with "H1 H2") as %->. iCombine "H1 H2" as "H1".
  iDestruct (ghost_var_valid_2 with "H1 H") as %[Hv _]. by apply Qp.not_add_le_l in Hv.
Qed.

Lemma sum_bump_fst ks i j k :
  ks !! i = Some (j, k) -> sum_list ((<[i := (S j, k)]> ks).*1) = S (sum_list (ks.*1)).
Proof.
  intros H. rewrite (list_fmap_insert fst). apply sum_list_bump. by rewrite list_lookup_fmap H.
Qed.

Lemma sum_keep_fst ks i j k k' :
  ks !! i = Some (j, k) -> sum_list ((<[i := (j, k')]> ks).*1) = sum_list (ks.*1).
Proof.
  intros H. rewrite (list_fmap_insert fst). f_equal. apply list_insert_id. by rewrite list_lookup_fmap H.
Qed.

Lemma sum_bump_snd ks i j k :
  ks !! i = Some (j, k) -> sum_list ((<[i := (j, S k)]> ks).*2) = S (sum_list (ks.*2)).
Proof.
  intros H. rewrite (list_fmap_insert snd). apply sum_list_bump. by rewrite list_lookup_fmap H.
Qed.

Lemma sum_keep_snd ks i j k j' :
  ks !! i = Some (j, k) -> sum_list ((<[i := (j', k)]> ks).*2) = sum_list (ks.*2).
Proof.
  intros H. rewrite (list_fmap_insert snd). f_equal. apply list_insert_id. by rewrite list_lookup_fmap H.
Qed.

(** A thread changes its own counts. *)
Lemma own_count γs ks i γi (k k' : nat * nat) :
  γs !! i = Some γi ->
  ghost_var γi (1/2) k -∗ ([∗ list] γ;k ∈ γs;ks, ghost_var γ (1/2) k) ==∗
  ⌜ks !! i = Some k⌝ ∗ ghost_var γi (1/2) k' ∗ [∗ list] γ;k ∈ γs;<[i := k']> ks, ghost_var γ (1/2) k.
Proof.
  iIntros (Hi) "Hk Hks". iDestruct (big_sepL2_length with "Hks") as %Hlen.
  destruct (lookup_lt_is_Some_2 ks i) as [k1 Hk1]; [rewrite -Hlen; by eapply lookup_lt_Some|].
  iDestruct (big_sepL2_insert_acc with "Hks") as "[Hk1 Hks]"; [done..|].
  iDestruct (ghost_var_agree with "Hk Hk1") as %<-.
  iMod (ghost_var_update_halves k' with "Hk Hk1") as "[$ Hk1]".
  iSpecialize ("Hks" with "Hk1"). rewrite (list_insert_id γs) //. by iFrame.
Qed.

Ltac open_client ks bz r Hbz :=
  iInv rwN as (ks bz r) "(>Hw & >Hr & >Ha & >Hb & >Hg & >Hc & >Hdep & >%Hbz & >Hks)".

Lemma write_section_spec γd γr γs i γi n :
  γs !! i = Some γi -> (0 < N)%nat ->
  {{{ inv rwN (rw_inv γd γr γs) ∗ copies N (rw_share γd) ∗ ghost_var γi (1/2) (n, n) }}}
    write_section d
  {{{ RET tt; copies N (rw_share γd) ∗ ghost_var γi (1/2) (S n, S n) }}}.
Proof.
  iIntros (Hi HN Φ) "(#Hinv & Hs & Hn) HΦ".
  iDestruct (shares_gather with "Hs") as (x) "Hs"; [done|]. rewrite /write_section. wp_focus.
  open_client ks bz r Hbz. iDestruct (ghost_var_agree with "Hs Hg") as %[=H1 H2 <-].
  iDestruct (half_no_deposit with "Hs Hg Hdep") as %->.
  iMod (ghost_var_update_halves (x, x, true) with "Hs Hg") as "[Hs Hg]".
  wp_rmw "Hw". iModIntro. iSplitR "Hs Hn HΦ".
  { iExists ks, true, 0%nat. rewrite -H1 -H2. by iFrame. }
  clear Hbz. clear dependent ks. wp_pures.
  open_client ks bz r Hbz. iDestruct (ghost_var_agree with "Hs Hg") as %[=H1 H2 <-].
  wp_load "Ha". iModIntro. iSplitR "Hs Hn HΦ".
  { iExists ks, true, r. by iFrame. }
  rewrite -{1}H1. clear dependent ks r. wp_pures.
  open_client ks bz r Hbz. iDestruct (ghost_var_agree with "Hs Hg") as %[=H1 H2 <-].
  iMod (ghost_var_update_halves (S x, x, true) with "Hs Hg") as "[Hs Hg]".
  iMod (own_count _ _ _ _ _ (S n, n) with "Hn Hks") as "(%Hks & Hn & Hks)"; [done|].
  wp_store "Ha". rewrite u32_succ. iModIntro. iSplitR "Hs Hn HΦ".
  { iExists (<[i:=(S n, n)]> ks), true, r. rewrite (sum_bump_fst ks i n n) // (sum_keep_snd ks i n n) //.
    rewrite -H1 -H2. by iFrame. }
  clear dependent ks r. wp_pures.
  open_client ks bz r Hbz. iDestruct (ghost_var_agree with "Hs Hg") as %[=H1 H2 <-].
  wp_load "Hb". iModIntro. iSplitR "Hs Hn HΦ".
  { iExists ks, true, r. by iFrame. }
  rewrite -{1}H2. clear dependent ks r. wp_pures.
  open_client ks bz r Hbz. iDestruct (ghost_var_agree with "Hs Hg") as %[=H1 H2 <-].
  iMod (ghost_var_update_halves (S x, S x, true) with "Hs Hg") as "[Hs Hg]".
  iMod (own_count _ _ _ _ _ (S n, S n) with "Hn Hks") as "(%Hks & Hn & Hks)"; [done|].
  wp_store "Hb". rewrite u32_succ. iModIntro. iSplitR "Hs Hn HΦ".
  { iExists (<[i:=(S n, S n)]> ks), true, r.
    rewrite (sum_keep_fst ks i (S n) n) // (sum_bump_snd ks i (S n) n) //.
    rewrite -H1 -H2. by iFrame. }
  clear dependent ks r. wp_pures.
  open_client ks bz r Hbz. iDestruct (ghost_var_agree with "Hs Hg") as %[=H1 H2 <-].
  iMod (ghost_var_update_halves (S x, S x, false) with "Hs Hg") as "[Hs Hg]".
  wp_rmw "Hw". iModIntro. iSplitR "Hs Hn HΦ".
  { iExists ks, false, r. rewrite -H1 -H2. by iFrame. }
  iApply "HΦ". iFrame. by iApply (shares_scatter with "Hs").
Qed.
End client.

(** ** Threads *)

Section threads.
Context `{!ckGS Σ, !leaseG Σ, !ghost_varG Σ (nat * nat), !ghost_varG Σ (nat * nat * bool)}.
Context (L : rw_code) (rw_init : Z -> list (Z * bool) -> mem -> Prop) `{!RwSpec L rw_init}.
Context (d : rw_words) (lk : Z) (γ : rw_name) (γd γr : gname) (γs : list gname).
Context (i : nat) (γi : gname) (Hi : γs !! i = Some γi) (Hshares : (0 < rw_shares γ)%nat).

Abbreviation share := (rw_share (rw_shares γ) γd).
Abbreviation client_inv := (inv rwN (rw_inv d (rw_shares γ) γd γr γs)).

(** The counts of this thread. *)
Definition written (n : nat) : iProp Σ := ghost_var γi (1/2) (n, n).

Lemma read_and_leave_spec c w :
  {{{ client_inv ∗ is_rw γ lk share ∗ rw_reading γ c w ∗ share }}}
    read_and_leave L lk d c
  {{{ RET (0%nat, true); rw_idle γ c w }}}.
Proof.
  iIntros (Φ) "(#Hinv & #Hlk & Hr & Hs) HΦ". rewrite /read_and_leave. wp_focus.
  iApply (read_section_spec with "[$Hinv $Hs]"). iIntros "!> Hs". wp_focus.
  iApply (read_unlock_spec with "[$Hlk $Hr $Hs]"). iIntros "!> Hc". wp_pures. by iApply "HΦ".
Qed.

Lemma write_and_leave_spec c n :
  {{{ client_inv ∗ is_rw γ lk share ∗ rw_writing γ c ∗ copies (rw_shares γ) share ∗ written n }}}
    write_and_leave L lk d c
  {{{ RET (1%nat, true); rw_idle γ c true ∗ written (S n) }}}.
Proof.
  iIntros (Φ) "(#Hinv & #Hlk & Hr & Hs & Hn) HΦ". rewrite /write_and_leave. wp_focus.
  iApply (write_section_spec with "[$Hinv $Hs $Hn]"); [done..|]. iIntros "!> [Hs Hn]". wp_focus.
  iApply (write_unlock_spec with "[$Hlk $Hr $Hs]"). iIntros "!> Hc". wp_pures.
  iApply "HΦ". iFrame.
Qed.

(** Answer with the counts there are. *)
Ltac answer := iApply "HΦ"; rewrite ?Nat.add_0_r ?Nat.add_1_r; iFrame; iPureIntro; simpl; lia.

Lemma rw_call_spec c w n op Φ :
  (writes op = true -> w = true) ->
  client_inv ∗ is_rw γ lk share ∗ rw_idle γ c w ∗ written n -∗
  (∀ k, ⌜(Nat.b2n (sure_write L op) <= k <= 1)%nat⌝ ∗ rw_idle γ c w ∗ written (n + k) -∗ Φ (k, true)) -∗
  WP rw_call L lk d c op {{ Φ }}.
Proof.
  iIntros (Hw) "(#Hinv & #Hlk & Hc & Hn) HΦ". rewrite /rw_call.
  destruct op; simpl in *; [|rewrite Hw //| |rewrite Hw //|rewrite Hw //].
  - wp_focus. iApply (read_lock_spec with "[$Hlk $Hc]"). iIntros "!> [Hr Hs]".
    iApply (read_and_leave_spec with "[$Hinv $Hlk $Hr $Hs]"). iIntros "!> Hc".
    answer.
  - wp_focus. iApply (write_lock_spec with "[$Hlk $Hc]"). iIntros "!> [Hr Hs]".
    iApply (write_and_leave_spec with "[$Hinv $Hlk $Hr $Hs $Hn]"). iIntros "!> [Hc Hn]".
    answer.
  - destruct (rw_read_trylock L) as [try|] eqn:Htry; [|wp_pures; answer].
    wp_focus. iApply (read_trylock_spec with "[$Hlk $Hc]"); [done|]. iIntros "!>" ([]) "H".
    + iDestruct "H" as "[Hr Hs]". iApply (read_and_leave_spec with "[$Hinv $Hlk $Hr $Hs]").
      iIntros "!> Hc". answer.
    + wp_pures. answer.
  - destruct (rw_write_trylock L) as [try|] eqn:Htry; [|wp_pures; answer].
    wp_focus. iApply (write_trylock_spec with "[$Hlk $Hc]"); [done|]. iIntros "!>" ([]) "H".
    + iDestruct "H" as "[Hr Hs]". iApply (write_and_leave_spec with "[$Hinv $Hlk $Hr $Hs $Hn]").
      iIntros "!> [Hc Hn]". answer.
    + wp_pures. answer.
  - destruct (rw_write_downgrade L) as [down|] eqn:Hdown; [|wp_pures; answer].
    wp_focus. iApply (write_lock_spec with "[$Hlk $Hc]"). iIntros "!> [Hr Hs]". wp_focus.
    iApply (write_section_spec with "[$Hinv $Hs $Hn]"); [done..|]. iIntros "!> [Hs Hn]". wp_focus.
    iApply (write_downgrade_spec with "[$Hlk $Hr $Hs]"); [done|]. iIntros "!> [Hr Hs]". wp_focus.
    iApply (read_and_leave_spec with "[$Hinv $Hlk $Hr $Hs]"). iIntros "!> Hc". wp_pures.
    answer.
Qed.

Lemma rw_script_spec c w ops Φ : ∀ n k,
  (∀ op, op ∈ ops -> writes op = true -> w = true) ->
  client_inv ∗ is_rw γ lk share ∗ rw_idle γ c w ∗ written n -∗
  (∀ j, ⌜(sure_writes L ops <= j <= length ops)%nat⌝ ∗ rw_idle γ c w ∗ written (n + j) -∗
        Φ ((k + j)%nat, true)) -∗
  WP rw_script L lk d c ops k true {{ Φ }}.
Proof.
  induction ops as [|op ops IH]; iIntros (n k Hw) "(#Hinv & #Hlk & Hc & Hn) HΦ"; simpl.
  { wp_pures. iSpecialize ("HΦ" $! 0%nat). rewrite !Nat.add_0_r. iApply "HΦ". by iFrame. }
  wp_focus. iApply (rw_call_spec with "[$Hinv $Hlk $Hc $Hn]"); [apply Hw, list_elem_of_here|].
  iIntros (j) "(%Hj & Hc & Hn)". simpl.
  iApply (IH with "[$Hinv $Hlk $Hc $Hn]"); [intros; eapply Hw; [by apply list_elem_of_further|done]|].
  iIntros (j') "(%Hj' & Hc & Hn)". iSpecialize ("HΦ" $! (j + j')%nat).
  rewrite !Nat.add_assoc. iApply "HΦ". iFrame. iPureIntro.
  unfold sure_writes in *. simpl. lia.
Qed.

Lemma rw_client_spec t :
  rw_thread_ok t ->
  client_inv -∗ is_rw γ lk share -∗ rw_outside γ (th_ctx t) (th_may_write t) -∗ written 0 -∗
  WP rw_client L lk d (th_ctx t) (th_script t) {{ r, ⌜rw_result_ok L t r⌝ ∗ written (fst r) }}.
Proof.
  iIntros (Hok) "#Hinv #Hlk Hc Hn". rewrite /rw_client. wp_focus.
  iApply (register_spec with "[$Hlk $Hc]"). iIntros "Hc". wp_focus.
  iApply (rw_script_spec with "[$Hinv $Hlk $Hc $Hn]"); [done|].
  iIntros (j) "(%Hj & Hc & Hn)". wp_focus.
  iApply (unregister_spec with "[$Hlk $Hc]"). wp_pures. by iFrame.
Qed.
End threads.

(** ** Exclusion *)

Lemma rw_words_alloc `{!ckGS Σ} d m :
  rw_words_ok d m ->
  ([∗ map] l ↦ v ∈ rw_memory d m, l ↦ v) -∗
  wd_writers d ↦ 0 ∗ wd_readers d ↦ 0 ∗ wd_a d ↦ 0 ∗ wd_b d ↦ 0 ∗ [∗ map] l ↦ v ∈ m, l ↦ v.
Proof.
  intros [Hnd Hm]. rewrite !NoDup_cons in Hnd. destruct Hnd as (H1 & H2 & H3 & _).
  pose proof (Hm (wd_writers d)) as M1. pose proof (Hm (wd_readers d)) as M2.
  pose proof (Hm (wd_a d)) as M3. pose proof (Hm (wd_b d)) as M4. clear Hm.
  rewrite !elem_of_cons elem_of_nil in H1, H2, H3, M1, M2, M3, M4. unfold rw_memory.
  rewrite !big_sepM_insert; [|rewrite ?lookup_insert_ne //; naive_solver..]. by iIntros "($ & $ & $ & $ & $)".
Qed.

Section exclusion.
Context (Σ : gFunctors) `{!ckGpreS Σ, !leaseG Σ, !ghost_varG Σ (nat * nat), !ghost_varG Σ (nat * nat * bool)}.
Context (L : rw_code) (rw_init : Z -> list (Z * bool) -> mem -> Prop).
Context (spec : ∀ `{!ckGS Σ}, RwSpec L rw_init).

Definition rw_posts `{!ckGS Σ} (ts : list rw_thread) (γs : list gname) : list (nat * bool -> iProp Σ) :=
  zip_with (λ t γi (r : nat * bool), (⌜rw_result_ok L t r⌝ ∗ ghost_var γi (1/2) (fst r, fst r))%I) ts γs.

Lemma rw_posts_intro `{!ckGS Σ} (f : rw_thread -> prog (nat * bool)) ts γs :
  ([∗ list] t;γi ∈ ts;γs, WP f t {{ r, ⌜rw_result_ok L t r⌝ ∗ ghost_var γi (1/2) (fst r, fst r) }}) -∗
  [∗ list] p;Φ ∈ map f ts;rw_posts ts γs, WP p {{ Φ }}.
Proof.
  iIntros "H". iInduction ts as [|t ts] "IH" forall (γs); destruct γs as [|γ γs]; try done.
  iDestruct "H" as "[$ H]". by iApply "IH".
Qed.

Lemma rw_posts_returned `{!ckGS Σ} ts γs ps :
  length ts = length γs ->
  ([∗ list] p;Φ ∈ ps;rw_posts ts γs, from_option Φ True (prog_to_val p)) -∗
  ⌜∀ i t r, ts !! i = Some t -> ps !! i = Some (Ret r) -> rw_result_ok L t r⌝.
Proof.
  iIntros (Hlen) "H". iIntros (i t r Ht Hp).
  destruct (lookup_lt_is_Some_2 γs i) as [γi Hi]; [rewrite -Hlen; by eapply lookup_lt_Some|].
  assert (rw_posts ts γs !! i = Some (λ r, ⌜rw_result_ok L t r⌝ ∗ ghost_var γi (1/2) (fst r, fst r))%I) as HΦ.
  { by rewrite /rw_posts lookup_zip_with Ht /= Hi. }
  iDestruct (big_sepL2_lookup _ _ _ i with "H") as "H"; [exact Hp|exact HΦ|]. by iDestruct "H" as "[$ _]".
Qed.

Lemma rw_posts_finished `{!ckGS Σ} ts γs (rs : list (nat * bool)) :
  length ts = length γs ->
  ([∗ list] p;Φ ∈ map Ret rs;rw_posts ts γs, from_option Φ True (prog_to_val p)) -∗
  [∗ list] γ;k ∈ γs;((λ r, (fst r, fst r)) <$> rs), ghost_var γ (1/2) k.
Proof.
  iIntros (Hlen) "H". iInduction γs as [|γ γs] "IH" forall (ts rs Hlen); destruct ts as [|t ts]; try done.
  - by destruct rs.
  - destruct rs as [|r rs]; [done|]. iDestruct "H" as "[[_ $] H]". iApply ("IH" with "[] H"). simpl in Hlen.
    by simplify_eq.
Qed.

(** Readers and writers exclude each other, for any lock that meets the interface,
    any number of threads and every interleaving. *)
Lemma rw_lock_exclusion lk d ts m ps σ :
  rw_init lk (rw_ctxs ts) m -> rw_words_ok d m -> Forall rw_thread_ok ts ->
  rtc sys_step (rw_config L lk d ts m) (ps, σ) ->
  rw_ok L d ts ps σ /\ (∀ p, p ∈ ps -> safe p σ).
Proof.
  intros Hinit Hwords Hts Hsteps.
  eapply (ck_pool_adequacy Σ _ _ _ _ _); [|exact Hsteps].
  iIntros (?) "Hm". iDestruct (rw_words_alloc with "Hm") as "(Hw & Hr & Ha & Hb & Hm)"; [done|].
  set (N := length (rw_ctxs ts)).
  iMod (ghost_var_alloc (0%nat, 0%nat, false)) as (γd) "[Hg Hg']".
  iMod (lease_alloc 0) as (γr) "[Hc _]".
  iMod (ghost_halves_alloc (0%nat, 0%nat) (length ts)) as (γs) "(%Hγs & Hks & Hns)".
  iAssert (copies N (rw_share N γd)) with "[Hg']" as "Hshares".
  { destruct (decide (N = 0)%nat) as [->|HN]; [by rewrite copies_0|]. iApply (shares_scatter with "Hg'"). lia. }
  iMod (rw_alloc lk _ m (rw_share N γd) ⊤ with "Hm Hshares") as (γ) "(%HN & #Hlk & Hctxs)"; [done|].
  iMod (inv_alloc rwN _ (rw_inv d N γd γr γs) with "[Hw Hr Ha Hb Hg Hc Hks]") as "#Hinv".
  { iExists (replicate (length ts) (0%nat, 0%nat)), false, 0%nat.
    rewrite !fmap_replicate. simpl.
    assert (sum_list (replicate (length ts) 0%nat) = 0%nat) as ->.
    { clear. by induction (length ts). }
    iFrame. by rewrite copies_0. }
  iModIntro. iExists (rw_posts ts γs). iSplitL "Hctxs Hns".
  { iApply rw_posts_intro. rewrite /rw_ctxs big_sepL_fmap.
    iDestruct (big_sepL2_sepL_2 with "Hctxs Hns") as "H"; [done|].
    iApply (big_sepL2_impl with "H"). iIntros "!>" (i t γi Ht Hγi) "[Hctx Hn]".
    fold N in HN. rewrite -HN. iApply (rw_client_spec with "Hinv Hlk Hctx Hn"); [done| |].
    - rewrite HN /N length_map. by apply lookup_lt_Some in Ht; lia.
    - rewrite Forall_lookup in Hts. by eapply Hts. }
  iIntros "Hσ Hposts".
  iInv rwN as (ks busy r) "(>Hw & >Hr & >Ha & >Hb & _ & _ & _ & >%Hbz & >Hks)" "_".
  iDestruct (gen_heap_valid with "Hσ Hw") as %Hw. iDestruct (gen_heap_valid with "Hσ Hr") as %Hr.
  iDestruct (gen_heap_valid with "Hσ Ha") as %Ha. iDestruct (gen_heap_valid with "Hσ Hb") as %Hb.
  iApply fupd_mask_intro; [set_solver|]. iIntros "_".
  iDestruct (rw_posts_returned with "Hposts") as %Hret; [done|].
  iAssert ⌜∀ rs, ps = map Ret rs -> ks = (λ r, (fst r, fst r)) <$> rs⌝%I with "[Hks Hposts]" as %Hfin.
  { iIntros (rs ->). iDestruct (rw_posts_finished with "Hposts") as "Hposts"; [done|].
    iApply (ghost_halves_agree with "Hks Hposts"). }
  iPureIntro. split_and!; [|done|].
  - destruct busy; [right|by left]. split; [done|]. by rewrite Hr Hbz.
  - intros rs Hrs. rewrite Ha Hb (Hfin rs Hrs) -!list_fmap_compose. done.
Qed.
End exclusion.

(** ** For instances *)

Definition rwClientΣ : gFunctors :=
  #[ckΣ; leaseΣ; ghost_varΣ (nat * nat); ghost_varΣ (nat * nat * bool)].

(** Three threads, two of which write. *)
Definition rw_demo_words : rw_words := RwWords 10 11 12 13.
Definition rw_demo_threads : list rw_thread :=
  [RwThread 1 true [RwWrite; RwRead]; RwThread 2 true [RwTryWrite; RwDowngrade];
   RwThread 3 false [RwRead; RwTryRead]].

Lemma rw_demo_words_ok m :
  m !! 10 = None -> m !! 11 = None -> m !! 12 = None -> m !! 13 = None -> rw_words_ok rw_demo_words m.
Proof.
  intros. split.
  - apply (bool_decide_unpack _). vm_compute. exact I.
  - intros l. rewrite !elem_of_cons elem_of_nil. intros [->|[->|[->|[->|[]]]]]; done.
Qed.

Lemma rw_threads_ok_compute ts :
  forallb (fun t => forallb (fun op => implb (writes op) (th_may_write t)) (th_script t)) ts = true ->
  Forall rw_thread_ok ts.
Proof.
  intros H. apply Forall_forall. intros t Ht op Hop Hw.
  rewrite forallb_forall in H. apply list_elem_of_In in Ht, Hop. specialize (H t Ht).
  rewrite forallb_forall in H. specialize (H op Hop). by rewrite Hw in H.
Qed.

Lemma rw_demo_threads_ok : Forall rw_thread_ok rw_demo_threads.
Proof. by apply rw_threads_ok_compute. Qed.
