(* ===== verification/CkRwlock.v ===== *)
(** [ck_rwlock.h]: the reader-writer lock with a writer flag and a reader count, and
    its recursive variant. *)

From S2P Require Export RwLock.
Set Warnings "-rewrite-rw".

(** * The code: [writer] at offset 0, [n_readers] at offset 1; [wc] of the recursive
    variant at offset 2 *)

Definition writer (rw : Z) : Z := rw.
Definition n_readers (rw : Z) : Z := rw + 1.
Definition wc (rw : Z) : Z := rw + 2.

Definition ck_rwlock_init (rw : Z) : prog unit :=
  st (writer rw) 0 ;; st (n_readers rw) 0 ;; ck_pr_barrier.

Definition ck_rwlock_write_unlock (rw : Z) : prog unit :=
  ck_pr_fence F_unlock ;; ck_pr_store (writer rw) 0.

Definition ck_rwlock_locked_writer (rw : Z) : prog bool :=
  r <- ck_pr_load (writer rw) ;; ck_pr_fence F_acquire ;; Ret (truthy r).

Definition ck_rwlock_write_downgrade (rw : Z) : prog unit :=
  ck_pr_inc u32 (n_readers rw) ;; ck_rwlock_write_unlock rw.

Definition ck_rwlock_locked (rw : Z) : prog bool :=
  r <- ck_pr_load (n_readers rw) ;;
  w <- ck_pr_load (writer rw) ;;
  ck_pr_fence F_acquire ;; Ret (truthy (Z.lor r w)).

Definition ck_rwlock_write_trylock (rw : Z) : prog bool :=
  w <- ck_pr_fas (writer rw) 1 ;;
  if negb (w =? 0) then Ret false
  else
    ck_pr_fence F_atomic_load ;;
    r <- ck_pr_load (n_readers rw) ;;
    if negb (r =? 0) then ck_rwlock_write_unlock rw ;; Ret false
    else ck_pr_fence F_lock ;; Ret true.

(** The writers' wait for the readers to leave. *)
Definition drain (rw : Z) : prog unit :=
  while (r <- ck_pr_load (n_readers rw) ;; Ret (negb (r =? 0))) ck_pr_stall.

Definition ck_rwlock_write_lock (rw : Z) : prog unit :=
  while (w <- ck_pr_fas (writer rw) 1 ;; Ret (negb (w =? 0))) ck_pr_stall ;;
  ck_pr_fence F_atomic_load ;;
  drain rw ;;
  ck_pr_fence F_lock.

Definition ck_rwlock_read_trylock (rw : Z) : prog bool :=
  w <- ck_pr_load (writer rw) ;;
  if negb (w =? 0) then Ret false
  else
    ck_pr_inc u32 (n_readers rw) ;;
    ck_pr_fence F_atomic_load ;;
    w <- ck_pr_load (writer rw) ;;
    if w =? 0 then ck_pr_fence F_lock ;; Ret true
    else ck_pr_dec u32 (n_readers rw) ;; Ret false.

Definition ck_rwlock_read_lock (rw : Z) : prog unit :=
  Iter (fun _ : unit =>
    while (w <- ck_pr_load (writer rw) ;; Ret (negb (w =? 0))) ck_pr_stall ;;
    ck_pr_inc u32 (n_readers rw) ;;
    ck_pr_fence F_atomic_load ;;
    w <- ck_pr_load (writer rw) ;;
    if w =? 0 then break tt
    else ck_pr_dec u32 (n_readers rw) ;; continue tt) tt ;;
  ck_pr_fence F_load.

Definition ck_rwlock_locked_reader (rw : Z) : prog bool :=
  ck_pr_fence F_load ;; r <- ck_pr_load (n_readers rw) ;; Ret (truthy r).

Definition ck_rwlock_read_unlock (rw : Z) : prog unit :=
  ck_pr_fence F_load_atomic ;; ck_pr_dec u32 (n_readers rw).

(** ** The recursive variant *)

Definition ck_rwlock_recursive_write_lock (rw tid : Z) : prog unit :=
  o <- ck_pr_load (writer rw) ;;
  when (negb (o =? tid))
    (while (b <- ck_pr_cas (writer rw) 0 tid ;; Ret (negb b)) ck_pr_stall ;;
     ck_pr_fence F_atomic_load ;;
     drain rw ;;
     ck_pr_fence F_lock) ;;
  w <- ld (wc rw) ;; st (wc rw) (u32 (w + 1)).

Definition ck_rwlock_recursive_write_trylock (rw tid : Z) : prog bool :=
  let leave := w <- ld (wc rw) ;; st (wc rw) (u32 (w + 1)) ;; Ret true in
  o <- ck_pr_load (writer rw) ;;
  if o =? tid then leave
  else
    b <- ck_pr_cas (writer rw) 0 tid ;;
    if negb b then Ret false
    else
      ck_pr_fence F_atomic_load ;;
      r <- ck_pr_load (n_readers rw) ;;
      if negb (r =? 0) then ck_pr_store (writer rw) 0 ;; Ret false
      else ck_pr_fence F_lock ;; leave.

Definition ck_rwlock_recursive_write_unlock (rw : Z) : prog unit :=
  w <- ld (wc rw) ;;
  st (wc rw) (u32 (w - 1)) ;;
  when (u32 (w - 1) =? 0) (ck_pr_fence F_unlock ;; ck_pr_store (writer rw) 0).

Definition ck_rwlock_recursive_read_lock (rw : Z) : prog unit := ck_rwlock_read_lock rw.
Definition ck_rwlock_recursive_read_trylock (rw : Z) : prog bool := ck_rwlock_read_trylock rw.
Definition ck_rwlock_recursive_read_unlock (rw : Z) : prog unit := ck_rwlock_read_unlock rw.

(** ** As reader-writer locks

    The recursive lock is taken [depth + 1] times by a thread whose identifier is its
    context, and released as often. *)

Definition rwlock : rw_code :=
  RwCode no_registration no_registration
    (fun rw _ => ck_rwlock_read_lock rw) (fun rw _ => ck_rwlock_read_unlock rw)
    (fun rw _ => ck_rwlock_write_lock rw) (fun rw _ => ck_rwlock_write_unlock rw)
    (Some (fun rw _ => ck_rwlock_read_trylock rw)) (Some (fun rw _ => ck_rwlock_write_trylock rw))
    (Some (fun rw _ => ck_rwlock_write_downgrade rw)).

Fixpoint times (n : nat) (p : prog unit) : prog unit :=
  match n with O => Ret tt | S n => p ;; times n p end.

Definition rwlock_recursive (depth : nat) : rw_code :=
  RwCode no_registration no_registration
    (fun rw _ => ck_rwlock_recursive_read_lock rw) (fun rw _ => ck_rwlock_recursive_read_unlock rw)
    (fun rw tid => times (S depth) (ck_rwlock_recursive_write_lock rw tid))
    (fun rw _ => times (S depth) (ck_rwlock_recursive_write_unlock rw))
    (Some (fun rw _ => ck_rwlock_recursive_read_trylock rw))
    (Some (fun rw tid =>
       b <- ck_rwlock_recursive_write_trylock rw tid ;;
       if b : bool then times depth (ck_rwlock_recursive_write_lock rw tid) ;; Ret true
       else Ret false))
    None.

(** The counter of readers has 32 bits. *)
Definition rwlock_init (rw : Z) (ctxs : list (Z * bool)) (m : mem) : Prop :=
  m = <[writer rw := 0]> {[n_readers rw := 0]} /\ Z.of_nat (length ctxs) < 4294967296.

(** Identifiers of threads are different and not 0. *)
Definition recursive_init (rw : Z) (ctxs : list (Z * bool)) (m : mem) : Prop :=
  m = <[writer rw := 0]> (<[n_readers rw := 0]> {[wc rw := 0]}) /\
  Z.of_nat (length ctxs) < 4294967296 /\ NoDup ctxs.*1 /\ Forall (fun c => c.1 <> 0) ctxs.

(** * Ghost state *)

(** What the writer flag stands for: no writer, one that waits for the readers to
    leave, one that is in. *)
Inductive rwl_state := RwlFree | RwlDrain (tid : Z) | RwlIn (tid : Z).

#[global] Instance rwl_state_inhabited : Inhabited rwl_state := populate RwlFree.

Definition flag (s : rwl_state) : Z :=
  match s with RwlFree => 0 | RwlDrain tid | RwlIn tid => tid end.

Class rwlG Σ := RwlG {
  rwl_leaseG :: leaseG Σ;
  rwl_mapG :: ghost_mapG Σ nat bool;
  rwl_stateG :: ghost_varG Σ rwl_state;
  rwl_tidG :: ghost_mapG Σ Z unit;
}.
Definition rwlΣ : gFunctors :=
  #[leaseΣ; ghost_mapΣ nat bool; ghost_varΣ rwl_state; ghost_mapΣ Z unit].
#[global] Instance subG_rwlΣ {Σ} : subG rwlΣ Σ -> rwlG Σ.
Proof. solve_inG. Qed.

Record rwl_name := RwlName { rl_map : gname; rl_lease : gname; rl_state : gname; rl_tid : gname; rl_n : nat }.

Definition rwlN : namespace := nroot .@ "rwlock".

Section rwlock.
Context `{!ckGS Σ, !rwlG Σ}.

(** The two variants differ in the values of the flag, in what a writer leaves behind
    while the flag shows its identifier, and in what it gets besides the shares. *)
Context (ids : Z -> Prop) (Hids : ∀ tid, ids tid -> tid <> 0).
Context (mine : rwl_name -> Z -> iProp Σ) (extra : Z -> iProp Σ).
Context `{!∀ γ tid, Timeless (mine γ tid)}.
Implicit Types (γ : rwl_name) (M : gmap nat bool) (s : rwl_state) (j : nat).

Definition rwl_states γ s : iProp Σ := ghost_var (rl_state γ) (1/2) s.
Definition rwl_reader γ j (inside : bool) : iProp Σ := j ↪[rl_map γ] inside.
Definition rwl_table γ M : iProp Σ := table (rl_map γ) (rl_lease γ) (rl_n γ) M.
Abbreviation rwl_lease γ := (leases (rl_lease γ) 1).

(** The shares, and the rest of what a writer gets. *)
Definition rwl_all γ rw P : iProp Σ := copies (rl_n γ) P ∗ extra rw.

Definition rwl_content γ rw P M s : iProp Σ :=
  match s with
  | RwlFree => rwl_states γ RwlFree ∗ pool id (rl_n γ) M P ∗ extra rw
  | RwlDrain tid => mine γ tid ∗ ⌜ids tid⌝ ∗ pool id (rl_n γ) M P ∗ extra rw
  | RwlIn tid => mine γ tid ∗ ⌜ids tid /\ census id M = 0%nat⌝
  end.

Definition rwl_inv γ rw P : iProp Σ :=
  ∃ M s, writer rw ↦ flag s ∗ n_readers rw ↦ u32 (Z.of_nat (size M)) ∗
    rwl_table γ M ∗ rwl_states γ s ∗ rwl_content γ rw P M s.

Definition is_rwl γ rw P : iProp Σ := inv rwlN (rwl_inv γ rw P) ∗ ⌜Z.of_nat (rl_n γ) < 4294967296⌝.

Ltac open_rwl M s := iInv rwlN as (M s) "(>Hw & >Hr & >Ht & >Hs & Hc)".

Lemma rwl_content_same γ rw P M M' s :
  census id M = census id M' -> rwl_content γ rw P M s -∗ rwl_content γ rw P M' s.
Proof.
  intros HM. unfold rwl_content. destruct s; rewrite ?(pool_same id _ M M') ?HM //; by iIntros.
Qed.

(** ** Readers *)

Lemma rwl_poll γ rw P : {{{ is_rwl γ rw P }}} ck_pr_load (writer rw) {{{ v, RET v; True }}}.
Proof.
  iIntros (Φ) "[#Hinv _] HΦ". open_rwl M s. wp_load "Hw". iModIntro.
  iSplitR "HΦ"; [|by iApply "HΦ"]. iExists M, s. iFrame.
Qed.

(** A reader counts itself in. *)
Lemma rwl_announce γ rw P :
  {{{ is_rwl γ rw P ∗ rwl_lease γ }}} ck_pr_inc u32 (n_readers rw)
  {{{ j, RET tt; rwl_reader γ j false }}}.
Proof.
  iIntros (Φ) "[[#Hinv _] Hl] HΦ". open_rwl M s.
  iMod (table_join _ _ _ _ false with "Ht Hl") as (j) "(%Hj & Ht & Hj)".
  wp_rmw "Hr". rewrite u32_succ -(map_size_insert_None j false M) //. iModIntro.
  iSplitR "HΦ Hj"; [|by iApply "HΦ"]. iExists (<[j:=false]> M), s. iFrame.
  iApply (rwl_content_same with "Hc"). symmetry. by apply census_join.
Qed.

(** It is in if no writer has shown up. *)
Lemma rwl_enter γ rw P j :
  {{{ is_rwl γ rw P ∗ rwl_reader γ j false }}} ck_pr_load (writer rw)
  {{{ v, RET v; if v =? 0 then rwl_reader γ j true ∗ P else rwl_reader γ j false }}}.
Proof.
  iIntros (Φ) "[[#Hinv _] Hj] HΦ". open_rwl M s. iDestruct (table_bound with "Ht") as %Hb.
  destruct s as [|tid|tid]; simpl.
  - iDestruct (table_lookup with "Ht Hj") as %Hj.
    iMod (table_set _ _ _ _ _ _ true with "Ht Hj") as "[Ht Hj]".
    wp_load "Hw". iDestruct "Hc" as "(Hs' & Hp & Hx)".
    iDestruct (pool_take id _ M j false true with "Hp") as "[HP Hp]"; [done..|]. iModIntro.
    iSplitR "HΦ Hj HP"; [|iApply "HΦ"; iFrame]. iExists (<[j:=true]> M), RwlFree.
    rewrite map_size_insert_Some //. iFrame.
  - wp_load "Hw". iDestruct "Hc" as "(Hm & %Hid & Hc)". iModIntro.
    iSplitR "HΦ Hj"; [iExists M, (RwlDrain tid); by iFrame|]. iApply "HΦ".
    rewrite (proj2 (Z.eqb_neq _ _) (Hids _ Hid)). done.
  - wp_load "Hw". iDestruct "Hc" as "(Hm & %Hid)". iModIntro.
    iSplitR "HΦ Hj"; [iExists M, (RwlIn tid); by iFrame|]. iApply "HΦ".
    destruct Hid as [Hid _]. rewrite (proj2 (Z.eqb_neq _ _) (Hids _ Hid)). done.
Qed.

(** The reader count goes down with the table. *)
Lemma size_delete M j v :
  M !! j = Some v -> u32 (u32 (Z.of_nat (size M)) - 1) = u32 (Z.of_nat (size (delete j M))).
Proof.
  intros Hj. rewrite u32_sub_l. f_equal. rewrite -{1}(insert_delete_id M j v) //.
  rewrite map_size_insert_None; [lia|]. apply lookup_delete_eq.
Qed.

Lemma rwl_retreat γ rw P j :
  {{{ is_rwl γ rw P ∗ rwl_reader γ j false }}} ck_pr_dec u32 (n_readers rw) {{{ RET tt; rwl_lease γ }}}.
Proof.
  iIntros (Φ) "[[#Hinv _] Hj] HΦ". open_rwl M s. iDestruct (table_lookup with "Ht Hj") as %Hj.
  iMod (table_leave with "Ht Hj") as "[Ht Hl]". wp_rmw "Hr". rewrite (size_delete M j false) //.
  iModIntro. iSplitR "HΦ Hl"; [|by iApply "HΦ"]. iExists (delete j M), s. iFrame.
  iApply (rwl_content_same with "Hc"). symmetry. by eapply census_leave.
Qed.

Lemma rwl_leave γ rw P j :
  {{{ is_rwl γ rw P ∗ rwl_reader γ j true ∗ P }}} ck_pr_dec u32 (n_readers rw) {{{ RET tt; rwl_lease γ }}}.
Proof.
  iIntros (Φ) "([#Hinv _] & Hj & HP) HΦ". open_rwl M s. iDestruct (table_lookup with "Ht Hj") as %Hj.
  iDestruct (table_bound with "Ht") as %Hb.
  iMod (table_leave with "Ht Hj") as "[Ht Hl]". wp_rmw "Hr". rewrite (size_delete M j true) //.
  destruct s as [|tid|tid]; simpl.
  - iDestruct "Hc" as "(Hs' & Hp & Hx)".
    iDestruct (pool_put id _ M j true with "HP Hp") as "Hp"; [done..|].
    iModIntro. iSplitR "HΦ Hl"; [|by iApply "HΦ"]. iExists (delete j M), RwlFree. iFrame.
  - iDestruct "Hc" as "(Hm & Hid & Hp & Hx)".
    iDestruct (pool_put id _ M j true with "HP Hp") as "Hp"; [done..|].
    iModIntro. iSplitR "HΦ Hl"; [|by iApply "HΦ"]. iExists (delete j M), (RwlDrain tid). iFrame.
  - iDestruct "Hc" as "(Hm & _ & %Hz)". pose proof (census_pos id M j true Hj eq_refl). lia.
Qed.

Lemma wp_rwlock_read_lock γ rw P :
  {{{ is_rwl γ rw P ∗ rwl_lease γ }}} ck_rwlock_read_lock rw {{{ RET tt; (∃ j, rwl_reader γ j true) ∗ P }}}.
Proof.
  iIntros (Φ) "[#Hlk Hl] HΦ". rewrite /ck_rwlock_read_lock. wp_focus.
  iApply (wp_loop_inv (λ _ : unit, rwl_lease γ ∗ ▷ ((∃ j, rwl_reader γ j true) ∗ P -∗ Φ tt))%I with "[$Hl $HΦ]").
  iIntros "!>" (_) "[Hl HΦ]". wp_focus.
  iApply (wp_while_inv (rwl_lease γ ∗ ▷ ((∃ j, rwl_reader γ j true) ∗ P -∗ Φ tt)) with "[$Hl $HΦ]").
  iIntros "!> [Hl HΦ]". wp_focus. iApply (rwl_poll with "Hlk"). iIntros "!>" (v) "_". wp_pures.
  destruct (v =? 0); simpl; [|wp_pures; by iFrame].
  wp_pures. iApply (rwl_announce with "[$Hlk $Hl]"). iIntros "!>" (j) "Hj". wp_pures.
  iApply (rwl_enter with "[$Hlk $Hj]"). iIntros "!>" (v') "H". destruct (v' =? 0).
  - iDestruct "H" as "[Hj HP]". wp_pures. iApply "HΦ". iFrame.
  - wp_focus. iApply (rwl_retreat with "[$Hlk $H]"). iIntros "!> Hl". wp_pures. by iFrame.
Qed.

Lemma wp_rwlock_read_trylock γ rw P :
  {{{ is_rwl γ rw P ∗ rwl_lease γ }}} ck_rwlock_read_trylock rw
  {{{ (b : bool), RET b; if b then (∃ j, rwl_reader γ j true) ∗ P else rwl_lease γ }}}.
Proof.
  iIntros (Φ) "[#Hlk Hl] HΦ". rewrite /ck_rwlock_read_trylock. wp_focus.
  iApply (rwl_poll with "Hlk"). iIntros "!>" (v) "_". destruct (v =? 0); simpl.
  - wp_focus. iApply (rwl_announce with "[$Hlk $Hl]"). iIntros "!>" (j) "Hj". wp_pures.
    iApply (rwl_enter with "[$Hlk $Hj]"). iIntros "!>" (v') "H". destruct (v' =? 0).
    + iDestruct "H" as "[Hj HP]". wp_pures. iApply ("HΦ" $! true). iFrame.
    + wp_focus. iApply (rwl_retreat with "[$Hlk $H]"). iIntros "!> Hl". wp_pures. by iApply ("HΦ" $! false).
  - wp_pures. by iApply ("HΦ" $! false).
Qed.

Lemma wp_rwlock_read_unlock γ rw P :
  {{{ is_rwl γ rw P ∗ (∃ j, rwl_reader γ j true) ∗ P }}} ck_rwlock_read_unlock rw {{{ RET tt; rwl_lease γ }}}.
Proof.
  iIntros (Φ) "(#Hlk & [%j Hj] & HP) HΦ". rewrite /ck_rwlock_read_unlock. wp_pures.
  by iApply (rwl_leave with "[$Hlk $Hj $HP]").
Qed.

(** ** Writers *)

(** The readers have left when their counter is 0. *)
Lemma rwl_drained γ rw P tid :
  {{{ is_rwl γ rw P ∗ rwl_states γ (RwlDrain tid) }}} ck_pr_load (n_readers rw)
  {{{ r, RET r; if r =? 0 then rwl_states γ (RwlIn tid) ∗ rwl_all γ rw P else rwl_states γ (RwlDrain tid) }}}.
Proof.
  iIntros (Φ) "[[#Hinv %Hn] Hd] HΦ". open_rwl M s.
  iDestruct (ghost_var_agree with "Hd Hs") as %<-. iDestruct (table_bound with "Ht") as %Hb.
  destruct (Z.eqb_spec (u32 (Z.of_nat (size M))) 0) as [Hz|Hz].
  - assert (size M = 0%nat) as Hsize by (rewrite u32_small in Hz; lia).
    pose proof (census_le_size id M) as Hc. assert (census id M = 0)%nat as Hz' by lia.
    iMod (ghost_var_update_halves (RwlIn tid) with "Hd Hs") as "[Hd Hs]".
    wp_load "Hr". iDestruct "Hc" as "(Hm & %Hid & Hp & Hx)". rewrite pool_all //. iModIntro.
    iSplitR "HΦ Hd Hp Hx"; [iExists M, (RwlIn tid); by iFrame|]. iApply "HΦ". rewrite Hz. iFrame.
  - wp_load "Hr". iModIntro. iSplitR "HΦ Hd"; [iExists M, (RwlDrain tid); by iFrame|].
    iApply "HΦ". by rewrite (proj2 (Z.eqb_neq _ _) Hz).
Qed.

Lemma wp_drain γ rw P tid :
  {{{ is_rwl γ rw P ∗ rwl_states γ (RwlDrain tid) }}} drain rw
  {{{ RET tt; rwl_states γ (RwlIn tid) ∗ rwl_all γ rw P }}}.
Proof.
  iIntros (Φ) "[#Hlk Hd] HΦ". rewrite /drain.
  iApply (wp_while_inv (rwl_states γ (RwlDrain tid) ∗ ▷ (rwl_states γ (RwlIn tid) ∗ rwl_all γ rw P -∗ Φ tt))
    with "[$Hd $HΦ]").
  iIntros "!> [Hd HΦ]". wp_focus. iApply (rwl_drained with "[$Hlk $Hd]"). iIntros "!>" (r) "H".
  wp_pures. destruct (r =? 0); simpl; wp_pures; [by iApply "HΦ"|iFrame].
Qed.

(** A writer that gives up, or leaves. *)
Lemma rwl_give_up γ rw P tid :
  {{{ is_rwl γ rw P ∗ rwl_states γ (RwlDrain tid) }}} ck_pr_store (writer rw) 0 {{{ RET tt; mine γ tid }}}.
Proof.
  iIntros (Φ) "[[#Hinv _] Hd] HΦ". open_rwl M s. iDestruct (ghost_var_agree with "Hd Hs") as %<-.
  iMod (ghost_var_update_halves RwlFree with "Hd Hs") as "[Hd Hs]". wp_store "Hw".
  iDestruct "Hc" as "(Hm & %Hid & Hp & Hx)". iModIntro. iSplitR "HΦ Hm"; [|by iApply "HΦ"].
  iExists M, RwlFree. iFrame.
Qed.

Lemma rwl_exit γ rw P tid :
  {{{ is_rwl γ rw P ∗ rwl_states γ (RwlIn tid) ∗ rwl_all γ rw P }}} ck_pr_store (writer rw) 0
  {{{ RET tt; mine γ tid }}}.
Proof.
  iIntros (Φ) "([#Hinv _] & Hd & [Hp Hx]) HΦ". open_rwl M s. iDestruct (ghost_var_agree with "Hd Hs") as %<-.
  iMod (ghost_var_update_halves RwlFree with "Hd Hs") as "[Hd Hs]". wp_store "Hw".
  iDestruct "Hc" as "(Hm & %Hid & %Hz)". iModIntro. iSplitR "HΦ Hm"; [|by iApply "HΦ"].
  iExists M, RwlFree. iFrame. rewrite pool_all //.
Qed.

(** A writer that counts itself in as a reader before it leaves keeps a share. *)
Lemma rwl_exit_reading γ rw P tid j :
  {{{ is_rwl γ rw P ∗ rwl_states γ (RwlIn tid) ∗ rwl_all γ rw P ∗ rwl_reader γ j false }}}
    ck_pr_store (writer rw) 0
  {{{ RET tt; mine γ tid ∗ rwl_reader γ j true ∗ P }}}.
Proof.
  iIntros (Φ) "([#Hinv _] & Hd & [Hp Hx] & Hj) HΦ". open_rwl M s.
  iDestruct (ghost_var_agree with "Hd Hs") as %<-. iDestruct (table_lookup with "Ht Hj") as %Hj.
  iDestruct (table_bound with "Ht") as %Hb. iMod (table_set _ _ _ _ _ _ true with "Ht Hj") as "[Ht Hj]".
  iMod (ghost_var_update_halves RwlFree with "Hd Hs") as "[Hd Hs]". wp_store "Hw".
  iDestruct "Hc" as "(Hm & %Hid & %Hz)". iEval (rewrite -(pool_all id _ M) //) in "Hp".
  iDestruct (pool_take id _ M j false true with "Hp") as "[HP Hp]"; [done..|].
  iModIntro. iSplitR "HΦ Hm Hj HP"; [|iApply "HΦ"; iFrame].
  iExists (<[j:=true]> M), RwlFree. rewrite map_size_insert_Some //. iFrame.
Qed.
End rwlock.

Lemma rwl_memory `{!ckGS Σ} rw :
  ([∗ map] l ↦ v ∈ <[writer rw := 0]> {[n_readers rw := 0]}, l ↦ v) -∗ writer rw ↦ 0 ∗ n_readers rw ↦ 0.
Proof.
  rewrite big_sepM_insert; [|rewrite lookup_singleton_ne // /writer /n_readers; lia].
  rewrite big_sepM_singleton. by iIntros.
Qed.

(** Setting up the lock, for either variant. *)
Lemma rwl_alloc `{!ckGS Σ, !rwlG Σ} ids mine extra rw γt n P E :
  Z.of_nat n < 4294967296 ->
  writer rw ↦ 0 -∗ n_readers rw ↦ 0 -∗ extra rw -∗ copies n P ={E}=∗
  ∃ γ, ⌜rl_n γ = n /\ rl_tid γ = γt⌝ ∗ is_rwl ids mine extra γ rw P ∗ leases (rl_lease γ) n.
Proof.
  iIntros (Hn) "Hw Hr Hx HP". iMod (table_alloc (V:=bool) n) as (γm γp) "[Ht Hl]".
  iMod (ghost_var_alloc RwlFree) as (γs) "[Hs Hs']".
  set (γ := RwlName γm γp γs γt n). iExists γ. iFrame "Hl".
  iMod (inv_alloc rwlN _ (rwl_inv ids mine extra γ rw P) with "[-]") as "#$"; [|by iModIntro].
  iExists ∅, RwlFree. iFrame. by rewrite pool_all.
Qed.

(** * The plain lock *)

Section plain.
Context `{!ckGS Σ, !rwlG Σ}.

Definition plain_ids (tid : Z) : Prop := tid = 1.
Definition plain_mine (γ : rwl_name) (tid : Z) : iProp Σ := True.
Definition plain_extra (rw : Z) : iProp Σ := True.

#[local] Instance plain_mine_timeless γ tid : Timeless (plain_mine γ tid).
Proof. apply _. Qed.

Lemma plain_ids_ne tid : plain_ids tid -> tid <> 0.
Proof. by intros ->. Qed.

Abbreviation is_plain := (is_rwl plain_ids plain_mine plain_extra).
Abbreviation draining γ := (rwl_states γ (RwlDrain 1)).
Abbreviation in_ γ := (rwl_states γ (RwlIn 1)).
Abbreviation all γ rw P := (rwl_all plain_extra γ rw P).

Lemma rwl_fas γ rw P :
  {{{ is_plain γ rw P }}} ck_pr_fas (writer rw) 1
  {{{ v, RET v; if v =? 0 then draining γ else True }}}.
Proof.
  iIntros (Φ) "[#Hinv _] HΦ". iInv rwlN as (M s) "(>Hw & >Hr & >Ht & >Hs & Hc)".
  destruct s as [|tid|tid]; simpl.
  - iDestruct "Hc" as "(>Hd & Hp & Hx)".
    iMod (ghost_var_update_halves (RwlDrain 1) with "Hd Hs") as "[Hd Hs]". wp_rmw "Hw".
    iModIntro. iSplitR "HΦ Hd"; [|by iApply "HΦ"]. iExists M, (RwlDrain 1). by iFrame.
  - iDestruct "Hc" as "(Hm & >-> & Hc)". wp_rmw "Hw".
    iModIntro. iSplitR "HΦ"; [iExists M, (RwlDrain 1); by iFrame|]. by iApply "HΦ".
  - iDestruct "Hc" as "(Hm & >[-> %Hz])". wp_rmw "Hw".
    iModIntro. iSplitR "HΦ"; [iExists M, (RwlIn 1); by iFrame|]. by iApply "HΦ".
Qed.

Lemma wp_rwlock_write_lock γ rw P :
  {{{ is_plain γ rw P }}} ck_rwlock_write_lock rw {{{ RET tt; in_ γ ∗ copies (rl_n γ) P }}}.
Proof.
  iIntros (Φ) "#Hlk HΦ". rewrite /ck_rwlock_write_lock. wp_focus.
  iApply (wp_while_inv (▷ (in_ γ ∗ copies (rl_n γ) P -∗ Φ tt)) with "[$HΦ]").
  iIntros "!> HΦ". wp_focus. iApply (rwl_fas with "Hlk"). iIntros "!>" (v) "H". wp_pures.
  destruct (v =? 0); simpl; [|wp_pures; by iFrame]. wp_pures.
  iApply (wp_drain with "[$Hlk $H]"). iIntros "!> [Hd [HP _]]". wp_pures. iApply "HΦ". iFrame.
Qed.

Lemma wp_rwlock_write_unlock γ rw P :
  {{{ is_plain γ rw P ∗ in_ γ ∗ copies (rl_n γ) P }}} ck_rwlock_write_unlock rw {{{ RET tt; True }}}.
Proof.
  iIntros (Φ) "(#Hlk & Hd & HP) HΦ". rewrite /ck_rwlock_write_unlock. wp_pures.
  iApply (rwl_exit with "[$Hlk $Hd $HP]"). iIntros "!> _". by iApply "HΦ".
Qed.

Lemma wp_rwlock_write_trylock γ rw P :
  {{{ is_plain γ rw P }}} ck_rwlock_write_trylock rw
  {{{ (b : bool), RET b; if b then in_ γ ∗ copies (rl_n γ) P else True }}}.
Proof.
  iIntros (Φ) "#Hlk HΦ". rewrite /ck_rwlock_write_trylock. wp_focus.
  iApply (rwl_fas with "Hlk"). iIntros "!>" (v) "H". destruct (v =? 0); simpl.
  - wp_pures. iApply (rwl_drained with "[$Hlk $H]"). iIntros "!>" (r) "H".
    destruct (r =? 0); simpl.
    + iDestruct "H" as "[Hd [HP _]]". wp_pures. iApply ("HΦ" $! true). iFrame.
    + rewrite /ck_rwlock_write_unlock. wp_pures. iApply (rwl_give_up with "[$Hlk $H]").
      iIntros "!> _". wp_pures. by iApply ("HΦ" $! false).
  - wp_pures. by iApply ("HΦ" $! false).
Qed.

Lemma wp_rwlock_write_downgrade γ rw P :
  {{{ is_plain γ rw P ∗ in_ γ ∗ leases (rl_lease γ) 1 ∗ copies (rl_n γ) P }}}
    ck_rwlock_write_downgrade rw
  {{{ RET tt; (∃ j, rwl_reader γ j true) ∗ P }}}.
Proof.
  iIntros (Φ) "(#Hlk & Hd & Hl & HP) HΦ". rewrite /ck_rwlock_write_downgrade /ck_rwlock_write_unlock.
  wp_focus. iApply (rwl_announce with "[$Hlk $Hl]"). iIntros "!>" (j) "Hj". wp_pures.
  iApply (rwl_exit_reading with "[$Hlk $Hd $HP $Hj]"). iIntros "!> (_ & Hj & HP)". iApply "HΦ". iFrame.
Qed.

#[global] Instance rwlock_spec : RwSpec rwlock rwlock_init.
Proof.
  refine (Build_RwSpec _ _ _ _ rwl_name rl_n is_plain
            (λ γ _ _, leases (rl_lease γ) 1) (λ γ _ _, leases (rl_lease γ) 1)
            (λ γ _ _, ∃ j, rwl_reader γ j true)%I (λ γ _, in_ γ ∗ leases (rl_lease γ) 1)%I
            _ _ _ _ _ _ _ _ _ _ _).
  - iIntros (rw ctxs m P E [-> Hn]) "Hm HP". iDestruct (rwl_memory with "Hm") as "[Hw Hr]".
    iMod (rwl_alloc plain_ids plain_mine plain_extra rw inhabitant with "Hw Hr [] HP") as (γ) "([%Hγ _] & Hlk & Hl)";
      [done..|]. iExists γ. iFrame. iModIntro. iSplit; [done|]. by iApply leases_list.
  - iIntros (γ rw P c w Φ) "[_ Hc] HΦ". rewrite /= /no_registration. wp_pures. by iApply "HΦ".
  - iIntros (γ rw P c w Φ) "_ HΦ". rewrite /= /no_registration. by wp_pures.
  - iIntros (γ rw P c w Φ) "[#Hlk Hc]". iApply (wp_rwlock_read_lock with "[$Hlk $Hc]"). apply plain_ids_ne.
  - iIntros (γ rw P c w Φ) "(#Hlk & Hc & HP)". by iApply (wp_rwlock_read_unlock with "[$Hlk $Hc $HP]").
  - iIntros (γ rw P c Φ) "[#Hlk Hc] HΦ". iApply (wp_rwlock_write_lock with "Hlk").
    iIntros "!> [Hd HP]". iApply "HΦ". iFrame.
  - iIntros (γ rw P c Φ) "(#Hlk & [Hd Hc] & HP) HΦ". iApply (wp_rwlock_write_unlock with "[$Hlk $Hd $HP]").
    iIntros "!> _". by iApply "HΦ".
  - iIntros (try γ rw P c w [= <-] Φ) "[#Hlk Hc]".
    iApply (wp_rwlock_read_trylock with "[$Hlk $Hc]"). apply plain_ids_ne.
  - iIntros (try γ rw P c [= <-] Φ) "[#Hlk Hc] HΦ". iApply (wp_rwlock_write_trylock with "Hlk").
    iIntros "!>" (b) "H". iApply "HΦ". destruct b; [|done]. iDestruct "H" as "[$ $]". done.
  - iIntros (down γ rw P c [= <-] Φ) "(#Hlk & [Hd Hc] & HP)".
    iApply (wp_rwlock_write_downgrade with "[$Hlk $Hd $Hc $HP]").
Defined.
End plain.

(** * The recursive lock *)

Section recursive.
Context `{!ckGS Σ, !rwlG Σ}.

Definition rec_ids (tid : Z) : Prop := tid <> 0.
Definition rec_mine (γ : rwl_name) (tid : Z) : iProp Σ := tid ↪[rl_tid γ] tt.
Definition rec_extra (rw : Z) : iProp Σ := wc rw ↦ 0.

#[global] Instance rec_mine_timeless γ tid : Timeless (rec_mine γ tid).
Proof. apply _. Qed.

Abbreviation is_rec := (is_rwl rec_ids rec_mine rec_extra).

(** The thread [tid] has taken the lock [d] times. *)
Definition rec_held γ rw tid (d : Z) P : iProp Σ :=
  rwl_states γ (RwlIn tid) ∗ copies (rl_n γ) P ∗ wc rw ↦ u32 d.

(** A thread that does not have the lock: its identifier, and a lease. *)
Definition rec_idle (γ : rwl_name * Z) (tid : Z) : iProp Σ :=
  ⌜tid <> 0⌝ ∗ rec_mine γ.1 tid ∗ leases (rl_lease γ.1) 1.

Lemma rec_mine_excl γ tid : rec_mine γ tid -∗ rec_mine γ tid -∗ False.
Proof.
  iIntros "H1 H2". iDestruct (ghost_map_elem_valid_2 with "H1 H2") as %[H _].
  by apply dfrac_valid_own_r in H.
Qed.

(** Only the owner reads its own identifier. *)
Lemma rec_not_owner γ rw P tid :
  tid <> 0 ->
  {{{ is_rec γ rw P ∗ rec_mine γ tid }}} ck_pr_load (writer rw)
  {{{ o, RET o; ⌜o <> tid⌝ ∗ rec_mine γ tid }}}.
Proof.
  iIntros (Htid Φ) "[[#Hinv _] Hm] HΦ". iInv rwlN as (M s) "(>Hw & >Hr & >Ht & >Hs & Hc)".
  iAssert (▷ ⌜flag s <> tid⌝)%I as "#>%Hne".
  { destruct s as [|t|t]; simpl; [by iPureIntro|..].
    - iDestruct "Hc" as "(Hm' & _)". iIntros "!>" (->). iApply (rec_mine_excl with "Hm Hm'").
    - iDestruct "Hc" as "(Hm' & _)". iIntros "!>" (->). iApply (rec_mine_excl with "Hm Hm'"). }
  wp_load "Hw". iModIntro. iSplitR "HΦ Hm"; [iExists M, s; by iFrame|]. iApply "HΦ". by iFrame.
Qed.

Lemma rec_owner γ rw P tid :
  {{{ is_rec γ rw P ∗ rwl_states γ (RwlIn tid) }}} ck_pr_load (writer rw)
  {{{ RET tid; rwl_states γ (RwlIn tid) }}}.
Proof.
  iIntros (Φ) "[[#Hinv _] Hd] HΦ". iInv rwlN as (M s) "(>Hw & >Hr & >Ht & >Hs & Hc)".
  iDestruct (ghost_var_agree with "Hd Hs") as %<-. wp_load "Hw". iModIntro.
  iSplitR "HΦ Hd"; [iExists M, (RwlIn tid); by iFrame|]. by iApply "HΦ".
Qed.

Lemma rec_cas γ rw P tid :
  tid <> 0 ->
  {{{ is_rec γ rw P ∗ rec_mine γ tid }}} ck_pr_cas (writer rw) 0 tid
  {{{ (b : bool), RET b; if b then rwl_states γ (RwlDrain tid) else rec_mine γ tid }}}.
Proof.
  iIntros (Htid Φ) "[[#Hinv _] Hm] HΦ". iInv rwlN as (M s) "(>Hw & >Hr & >Ht & >Hs & Hc)".
  destruct s as [|t|t]; simpl.
  - iDestruct "Hc" as "(>Hd & Hp & Hx)".
    iMod (ghost_var_update_halves (RwlDrain tid) with "Hd Hs") as "[Hd Hs]". wp_cas "Hw".
    iModIntro. iSplitR "HΦ Hd"; [|by iApply ("HΦ" $! true)]. iExists M, (RwlDrain tid). by iFrame.
  - iDestruct "Hc" as "(Hm' & >%Ht & Hc)". wp_cas "Hw". rewrite (proj2 (Z.eqb_neq _ _) Ht).
    iModIntro. iSplitR "HΦ Hm"; [iExists M, (RwlDrain t); by iFrame|]. by iApply ("HΦ" $! false).
  - iDestruct "Hc" as "(Hm' & >[%Ht %Hz])". wp_cas "Hw". rewrite (proj2 (Z.eqb_neq _ _) Ht).
    iModIntro. iSplitR "HΦ Hm"; [iExists M, (RwlIn t); by iFrame|]. by iApply ("HΦ" $! false).
Qed.

Lemma rec_first γ rw P tid :
  tid <> 0 ->
  {{{ is_rec γ rw P ∗ rec_mine γ tid }}} ck_rwlock_recursive_write_lock rw tid
  {{{ RET tt; rec_held γ rw tid 1 P }}}.
Proof.
  iIntros (Htid Φ) "[#Hlk Hm] HΦ". rewrite /ck_rwlock_recursive_write_lock. wp_focus.
  iApply (rec_not_owner with "[$Hlk $Hm]"); [done|]. iIntros "!>" (o) "[%Ho Hm]".
  rewrite (proj2 (Z.eqb_neq _ _) Ho). wp_pures.
  iApply (wp_while_inv (rec_mine γ tid ∗ ▷ (rec_held γ rw tid 1 P -∗ Φ tt)) with "[$Hm $HΦ]").
  iIntros "!> [Hm HΦ]". wp_focus. iApply (rec_cas with "[$Hlk $Hm]"); [done|].
  iIntros "!>" ([]) "H"; wp_pures; [|iFrame].
  iApply (wp_drain with "[$Hlk $H]"). iIntros "!> [Hd [HP Hx]]". rewrite /rec_extra. wp_pures.
  wp_load "Hx". wp_store "Hx". iApply "HΦ". iFrame.
Qed.

Lemma rec_again γ rw P tid d :
  {{{ is_rec γ rw P ∗ rec_held γ rw tid d P }}} ck_rwlock_recursive_write_lock rw tid
  {{{ RET tt; rec_held γ rw tid (d + 1) P }}}.
Proof.
  iIntros (Φ) "(#Hlk & Hd & HP & Hx) HΦ". rewrite /ck_rwlock_recursive_write_lock. wp_focus.
  iApply (rec_owner with "[$Hlk $Hd]"). iIntros "!> Hd". rewrite Z.eqb_refl. wp_pures.
  wp_load "Hx". wp_store "Hx". rewrite u32_add_l. iApply "HΦ". iFrame.
Qed.

Lemma rec_more γ rw P tid k : ∀ d Φ,
  is_rec γ rw P -∗ rec_held γ rw tid d P -∗ (rec_held γ rw tid (d + Z.of_nat k) P -∗ Φ tt) -∗
  WP times k (ck_rwlock_recursive_write_lock rw tid) {{ Φ }}.
Proof.
  induction k as [|k IH]; iIntros (d Φ) "#Hlk Hh HΦ"; simpl.
  - wp_pures. iApply "HΦ". by rewrite Z.add_0_r.
  - wp_focus. iApply (rec_again with "[$Hlk $Hh]"). iIntros "!> Hh". iApply (IH with "Hlk Hh").
    iIntros "Hh". iApply "HΦ". by replace (d + Z.of_nat (S k)) with (d + 1 + Z.of_nat k) by lia.
Qed.

Lemma rec_unlock γ rw P tid d :
  0 < d < 4294967296 ->
  {{{ is_rec γ rw P ∗ rec_held γ rw tid d P }}} ck_rwlock_recursive_write_unlock rw
  {{{ RET tt; if d =? 1 then rec_mine γ tid else rec_held γ rw tid (d - 1) P }}}.
Proof.
  iIntros (Hd Φ) "(#Hlk & Hd & HP & Hx) HΦ". rewrite /ck_rwlock_recursive_write_unlock.
  wp_load "Hx". wp_store "Hx". wp_pures. rewrite u32_sub_l (u32_small (d - 1)); [|lia].
  destruct (Z.eqb_spec d 1) as [->|Hne]; simpl.
  - wp_pures. iApply (rwl_exit with "[$Hlk $Hd $HP $Hx]"). iIntros "!> Hm". by iApply "HΦ".
  - rewrite (proj2 (Z.eqb_neq (d - 1) 0)); [|lia]. wp_pures. iApply "HΦ". iFrame.
    rewrite u32_small; [done|lia].
Qed.

Lemma rec_release γ rw P tid k : ∀ Φ,
  Z.of_nat (S k) < 4294967296 ->
  is_rec γ rw P -∗ rec_held γ rw tid (Z.of_nat (S k)) P -∗ ▷ (rec_mine γ tid -∗ Φ tt) -∗
  WP times (S k) (ck_rwlock_recursive_write_unlock rw) {{ Φ }}.
Proof.
  induction k as [|k IH]; iIntros (Φ Hk) "#Hlk Hh HΦ".
  - simpl. wp_focus. iApply (rec_unlock with "[$Hlk $Hh]"); [lia|]. iIntros "!> Hm". wp_pures. by iApply "HΦ".
  - change (times (S (S k)) ?p) with (p ;; times (S k) p). wp_focus.
    iApply (rec_unlock with "[$Hlk $Hh]"); [lia|]. rewrite (proj2 (Z.eqb_neq _ 1)); [|lia].
    iIntros "!> Hh". replace (Z.of_nat (S (S k)) - 1) with (Z.of_nat (S k)) by lia.
    iApply (IH with "Hlk Hh HΦ"). lia.
Qed.

Lemma rec_trylock γ rw P tid :
  tid <> 0 ->
  {{{ is_rec γ rw P ∗ rec_mine γ tid }}} ck_rwlock_recursive_write_trylock rw tid
  {{{ (b : bool), RET b; if b then rec_held γ rw tid 1 P else rec_mine γ tid }}}.
Proof.
  iIntros (Htid Φ) "[#Hlk Hm] HΦ". rewrite /ck_rwlock_recursive_write_trylock. wp_focus.
  iApply (rec_not_owner with "[$Hlk $Hm]"); [done|]. iIntros "!>" (o) "[%Ho Hm]".
  rewrite (proj2 (Z.eqb_neq _ _) Ho). wp_focus. iApply (rec_cas with "[$Hlk $Hm]"); [done|].
  iIntros "!>" ([]) "H"; simpl; [|wp_pures; by iApply ("HΦ" $! false)].
  wp_pures. iApply (rwl_drained with "[$Hlk $H]"). iIntros "!>" (r) "H". destruct (r =? 0); simpl.
  - iDestruct "H" as "[Hd [HP Hx]]". rewrite /rec_extra. wp_pures. wp_load "Hx". wp_store "Hx". wp_pures.
    iApply ("HΦ" $! true). iFrame.
  - wp_focus. iApply (rwl_give_up with "[$Hlk $H]"). iIntros "!> Hm". wp_pures. by iApply ("HΦ" $! false).
Qed.

Lemma rec_tids_alloc (ctxs : list (Z * bool)) :
  NoDup ctxs.*1 -> ⊢ |==> ∃ γt, [∗ list] c ∈ ctxs, c.1 ↪[γt] tt.
Proof.
  iIntros (Hnd). iMod (ghost_map_alloc (gset_to_gmap tt (list_to_set ctxs.*1))) as (γt) "[_ H]".
  iExists γt. iModIntro. rewrite big_sepM_gset_to_gmap big_sepS_list_to_set // big_sepL_fmap. done.
Qed.

Lemma rec_memory rw :
  ([∗ map] l ↦ v ∈ <[writer rw := 0]> (<[n_readers rw := 0]> {[wc rw := 0]}), l ↦ v) -∗
  writer rw ↦ 0 ∗ n_readers rw ↦ 0 ∗ wc rw ↦ 0.
Proof.
  unfold writer, n_readers, wc.
  rewrite big_sepM_insert; [|rewrite lookup_insert_ne ?lookup_singleton_ne //; lia].
  rewrite big_sepM_insert; [|rewrite lookup_singleton_ne //; lia].
  rewrite big_sepM_singleton. by iIntros.
Qed.

Lemma rwlock_recursive_spec depth :
  Z.of_nat (S depth) < 4294967296 -> RwSpec (rwlock_recursive depth) recursive_init.
Proof.
  intros Hdepth.
  refine (Build_RwSpec _ _ _ _ (rwl_name * Z) (λ γ, rl_n γ.1) (λ γ rw P, is_rec γ.1 rw P ∗ ⌜rw = γ.2⌝)%I
            (λ γ tid _, rec_idle γ tid) (λ γ tid _, rec_idle γ tid)
            (λ γ tid _, ⌜tid <> 0⌝ ∗ rec_mine γ.1 tid ∗ ∃ j, rwl_reader γ.1 j true)%I
            (λ γ tid, ⌜tid <> 0⌝ ∗ leases (rl_lease γ.1) 1 ∗ rwl_states γ.1 (RwlIn tid) ∗
                      wc γ.2 ↦ u32 (Z.of_nat (S depth)))%I
            _ _ _ _ _ _ _ _ _ _ _).
  - iIntros (rw ctxs m P E (-> & Hn & Hnd & Hne)) "Hm HP". iDestruct (rec_memory with "Hm") as "(Hw & Hr & Hx)".
    iMod (rec_tids_alloc ctxs Hnd) as (γt) "Ht".
    iMod (rwl_alloc rec_ids rec_mine rec_extra rw γt with "Hw Hr Hx HP") as (γ) "([%Hγ %Hγt] & Hlk & Hl)"; [done|].
    iExists (γ, rw). iFrame "Hlk". iModIntro. do 2 (iSplit; [done|]). iDestruct (leases_list with "Hl") as "Hl".
    iCombine "Ht Hl" as "H". rewrite -big_sepL_sep /rec_idle /rec_mine /= Hγt.
    iApply (big_sepL_impl with "H"). iIntros "!>" (i c Hc) "[$ $]". iPureIntro.
    rewrite Forall_lookup in Hne. by eapply Hne.
  - iIntros (γ rw P c w Φ) "[_ Hc] HΦ". rewrite /= /no_registration. wp_pures. by iApply "HΦ".
  - iIntros (γ rw P c w Φ) "_ HΦ". rewrite /= /no_registration. by wp_pures.
  - iIntros (γ rw P c w Φ) "[[#Hlk ->] (Hne & Hm & Hc)] HΦ".
    iApply (wp_rwlock_read_lock with "[$Hlk $Hc]"); [done|]. iIntros "!> [Hj HP]". iApply "HΦ". iFrame.
  - iIntros (γ rw P c w Φ) "([#Hlk ->] & (Hne & Hm & Hj) & HP) HΦ".
    iApply (wp_rwlock_read_unlock with "[$Hlk $Hj $HP]"). iIntros "!> Hc". iApply "HΦ". iFrame.
  - iIntros (γ rw P c Φ) "[[#Hlk ->] (%Hne & Hm & Hc)] HΦ". cbn [rwlock_recursive rw_write_lock times].
    wp_focus. iApply (rec_first with "[$Hlk $Hm]"); [done|]. iIntros "!> Hh".
    iApply (rec_more with "Hlk Hh"). replace (1 + Z.of_nat depth) with (Z.of_nat (S depth)) by lia.
    iIntros "(Hd & HP & Hx)". iApply "HΦ". by iFrame.
  - iIntros (γ rw P c Φ) "([#Hlk ->] & (%Hne & Hc & Hd & Hx) & HP) HΦ".
    cbn [rwlock_recursive rw_write_unlock].
    iApply (rec_release with "Hlk [$Hd $HP $Hx]"); [done|]. iIntros "!> Hm". iApply "HΦ". by iFrame.
  - iIntros (try γ rw P c w [= <-] Φ) "[[#Hlk ->] (Hne & Hm & Hc)] HΦ".
    iApply (wp_rwlock_read_trylock with "[$Hlk $Hc]"); [done|]. iIntros "!>" (b) "H". iApply "HΦ".
    destruct b; [iDestruct "H" as "[$ $]"|]; by iFrame.
  - iIntros (try γ rw P c [= <-] Φ) "[[#Hlk ->] (%Hne & Hm & Hc)] HΦ". wp_focus.
    iApply (rec_trylock with "[$Hlk $Hm]"); [done|]. iIntros "!>" ([]) "H".
    + wp_focus. iApply (rec_more with "Hlk H"). replace (1 + Z.of_nat depth) with (Z.of_nat (S depth)) by lia.
      iIntros "(Hd & HP & Hx)". wp_pures. iApply ("HΦ" $! true). by iFrame.
    + wp_pures. iApply ("HΦ" $! false). by iFrame.
  - done.
Defined.
End recursive.

(** * Theorems *)

Definition rwlockΣ : gFunctors :=
  #[rwClientΣ; rwlΣ].

Lemma rwlock_init_returns rw v r :
  returns (ck_rwlock_init rw) (<[writer rw := v]> {[n_readers rw := r]}) tt
    (<[writer rw := 0]> {[n_readers rw := 0]}).
Proof.
  replace (<[writer rw := 0]> {[n_readers rw := 0]})
    with (<[n_readers rw := 0]> (<[writer rw := 0]> (<[writer rw := v]> {[n_readers rw := r]})) : mem).
  - unfold ck_rwlock_init. eapply returns_bind; [eapply returns_store; apply lookup_insert_eq|].
    eapply returns_bind; [eapply returns_store|apply returns_fence].
    do 2 (rewrite lookup_insert_ne; [|unfold writer, n_readers; lia]). apply lookup_singleton_eq.
  - rewrite insert_insert_eq insert_insert_ne; [|unfold writer, n_readers; lia].
    f_equal. apply insert_singleton_eq.
Qed.

(** C10. A reader-writer lock [ck_rwlock], from a lock initialised over any memory, for
    fewer than 2^32 threads that run any scripts of reads, writes, attempts of both
    and writes that are downgraded to reads, under every scheduler: no step faults;
    while a writer is in its critical section no other writer and no reader is in
    one; every reader sees what complete writes left; and no write is lost. *)
Theorem rwlock_exclusion rw d v r ts m ps σ :
  returns (ck_rwlock_init rw) (<[writer rw := v]> {[n_readers rw := r]}) tt m ->
  Z.of_nat (length ts) < 4294967296 -> rw_words_ok d m -> Forall rw_thread_ok ts ->
  rtc sys_step (rw_config rwlock rw d ts m) (ps, σ) ->
  rw_ok rwlock d ts ps σ /\ (∀ p, p ∈ ps -> safe p σ).
Proof.
  intros Hinit Hn Hd Hts Hsteps.
  destruct (returns_det _ _ _ _ _ _ Hinit (rwlock_init_returns rw v r)) as [_ ->].
  eapply (rw_lock_exclusion rwlockΣ _ rwlock_init); [apply _|split; [done|]|done..|exact Hsteps].
  by rewrite length_map.
Qed.

Definition rwlock_demo : config (nat * bool) :=
  round_robin 250 (rw_config rwlock 1 rw_demo_words rw_demo_threads (<[1 := 0]> {[2 := 0]})).

Lemma rwlock_exclusion_witness :
  rw_ok rwlock rw_demo_words rw_demo_threads rwlock_demo.1 rwlock_demo.2 /\
  rwlock_demo.1 = [Ret (1%nat, true); Ret (2%nat, true); Ret (0%nat, true)] /\
  rwlock_demo.2 !! 12 = Some 3.
Proof.
  destruct (rwlock_exclusion 1 rw_demo_words 7 8 rw_demo_threads (<[1 := 0]> {[2 := 0]})
    rwlock_demo.1 rwlock_demo.2) as [H _].
  - apply rwlock_init_returns.
  - simpl. lia.
  - apply rw_demo_words_ok; vm_compute; reflexivity.
  - apply rw_demo_threads_ok.
  - apply round_robin_pair.
  - split; [exact H|]. split; vm_compute; reflexivity.
Defined.

(** C16. The recursive lock, taken to any depth below 2^32 by threads with different
    identifiers other than 0: the same. *)
Theorem rwlock_recursive_exclusion rw d depth ts m ps σ :
  recursive_init rw (rw_ctxs ts) m -> Z.of_nat (S depth) < 4294967296 ->
  rw_words_ok d m -> Forall rw_thread_ok ts ->
  rtc sys_step (rw_config (rwlock_recursive depth) rw d ts m) (ps, σ) ->
  rw_ok (rwlock_recursive depth) d ts ps σ /\ (∀ p, p ∈ ps -> safe p σ).
Proof.
  intros Hinit Hdepth Hd Hts Hsteps.
  eapply (rw_lock_exclusion rwlockΣ _ recursive_init); [|exact Hinit|done..|exact Hsteps].
  intros. by apply rwlock_recursive_spec.
Qed.

Definition rwlock_recursive_demo : config (nat * bool) :=
  round_robin 400 (rw_config (rwlock_recursive 2) 1 rw_demo_words rw_demo_threads
                     (<[1 := 0]> (<[2 := 0]> {[3 := 0]}))).

Lemma rwlock_recursive_exclusion_witness :
  rw_ok (rwlock_recursive 2) rw_demo_words rw_demo_threads rwlock_recursive_demo.1 rwlock_recursive_demo.2 /\
  forallb is_ret rwlock_recursive_demo.1 = true /\
  rwlock_recursive_demo.2 !! 3 = Some 0.
Proof.
  destruct (rwlock_recursive_exclusion 1 rw_demo_words 2 rw_demo_threads (<[1 := 0]> (<[2 := 0]> {[3 := 0]}))
    rwlock_recursive_demo.1 rwlock_recursive_demo.2) as [H _].
  - split; [done|]. split; [simpl; lia|]. split.
    + apply (bool_decide_unpack _). vm_compute. exact I.
    + by repeat constructor.
  - lia.
  - apply rw_demo_words_ok; vm_compute; reflexivity.
  - apply rw_demo_threads_ok.
  - apply round_robin_pair.
  - split; [exact H|]. split; vm_compute; reflexivity.
Defined.
