(* ===== verification/TfLock.v ===== *)
(** [ck_tflock.h]: the task-fair reader-writer lock.  Readers and writers are served in
    the order of their requests, counted in the two halves of a word. *)

From S2P Require Export RwLock.
Set Warnings "-rewrite-rw".

(** * The code: [request] at offset 0, [completion] at offset 1 *)

Module TfLock.

Definition request (lock : Z) : Z := lock.
Definition completion (lock : Z) : Z := lock + 1.

Definition CK_TFLOCK_TICKET_RC_INCR : Z := 65536.
Definition CK_TFLOCK_TICKET_WC_INCR : Z := 1.
Definition CK_TFLOCK_TICKET_W_MASK : Z := 65535.
Definition CK_TFLOCK_TICKET_WC_TOPMSK : Z := 32768.
Definition CK_TFLOCK_TICKET_RC_TOPMSK : Z := 2147483648.

(** The value that replaces [snapshot]: [~mask] of a 32-bit word. *)
Definition goal (mask delta snapshot : Z) : Z := u32 (Z.land snapshot (UINT_MAX - mask) + delta).

Definition ck_tflock_ticket_fca_32 (target mask delta : Z) : prog Z :=
  snapshot <- ck_pr_load target ;;
  Iter (fun snapshot =>
    r <- ck_pr_cas_value target snapshot (goal mask delta snapshot) ;;
    if fst r : bool then break snapshot
    else ck_pr_stall ;; continue (snd r)) snapshot.

Definition ck_tflock_ticket_init (pf : Z) : prog unit :=
  st (completion pf) 0 ;; st (request pf) 0 ;; ck_pr_barrier.

Definition ck_tflock_ticket_write_lock (lock : Z) : prog unit :=
  previous <- ck_tflock_ticket_fca_32 (request lock) CK_TFLOCK_TICKET_WC_TOPMSK CK_TFLOCK_TICKET_WC_INCR ;;
  ck_pr_fence F_atomic_load ;;
  while (c <- ck_pr_load (completion lock) ;; Ret (negb (c =? previous))) ck_pr_stall ;;
  ck_pr_fence F_lock.

Definition ck_tflock_ticket_write_unlock (lock : Z) : prog unit :=
  ck_pr_fence F_unlock ;;
  ck_tflock_ticket_fca_32 (completion lock) CK_TFLOCK_TICKET_WC_TOPMSK CK_TFLOCK_TICKET_WC_INCR ;;
  Ret tt.

Definition ck_tflock_ticket_read_lock (lock : Z) : prog unit :=
  p <- ck_tflock_ticket_fca_32 (request lock) CK_TFLOCK_TICKET_RC_TOPMSK CK_TFLOCK_TICKET_RC_INCR ;;
  let previous := Z.land p CK_TFLOCK_TICKET_W_MASK in
  ck_pr_fence F_atomic_load ;;
  while (c <- ck_pr_load (completion lock) ;;
         Ret (negb (Z.land c CK_TFLOCK_TICKET_W_MASK =? previous))) ck_pr_stall ;;
  ck_pr_fence F_lock.

Definition ck_tflock_ticket_read_unlock (lock : Z) : prog unit :=
  ck_pr_fence F_unlock ;;
  ck_tflock_ticket_fca_32 (completion lock) CK_TFLOCK_TICKET_RC_TOPMSK CK_TFLOCK_TICKET_RC_INCR ;;
  Ret tt.

Definition lock : rw_code :=
  RwCode no_registration no_registration
    (fun lk _ => ck_tflock_ticket_read_lock lk) (fun lk _ => ck_tflock_ticket_read_unlock lk)
    (fun lk _ => ck_tflock_ticket_write_lock lk) (fun lk _ => ck_tflock_ticket_write_unlock lk)
    None None None.

Definition cells (lock : Z) : list Z := [completion lock; request lock].

(** A half counts modulo 2^15, its top bit aside. *)
Definition init (lk : Z) (ctxs : list (Z * bool)) (m : mem) : Prop :=
  m = zeros (cells lk) /\ Z.of_nat (length ctxs) < 32768.

End TfLock.

(** * The halves of a word

    Clearing the top bit of a half before each increment makes it run through 0, 1,
    ..., 2^15, and then again from 1. *)

Definition half (n : nat) : Z := if decide (n = 0%nat) then 0 else (Z.of_nat n - 1) mod 32768 + 1.

Definition halves (r w : nat) : Z := 65536 * half r + half w.

Lemma half_range n : 0 <= half n <= 32768.
Proof. unfold half. case_decide; ulia. Qed.

Lemma half_mod n : half n mod 32768 = Z.of_nat n mod 32768.
Proof. unfold half. case_decide; subst; [done|ulia]. Qed.

Lemma half_succ n : half n mod 32768 + 1 = half (S n).
Proof.
  rewrite half_mod. unfold half. destruct (decide (S n = 0)%nat); [lia|]. do 2 f_equal. lia.
Qed.

Lemma half_near m n : half m = half n -> Z.abs (Z.of_nat m - Z.of_nat n) < 32768 -> m = n.
Proof. unfold half. repeat case_decide; subst; ulia. Qed.

Lemma halves_writers r w : Z.land (halves r w) TfLock.CK_TFLOCK_TICKET_W_MASK = half w.
Proof.
  change TfLock.CK_TFLOCK_TICKET_W_MASK with (Z.ones 16). rewrite Z.land_ones //. unfold halves.
  pose proof (half_range w). change (2 ^ 16) with 65536. ulia.
Qed.

Lemma halves_inj r w r' w' : halves r w = halves r' w' -> half r = half r' /\ half w = half w'.
Proof. unfold halves. pose proof (half_range w). pose proof (half_range w'). lia. Qed.

Lemma halves_range r w : 0 <= halves r w < 4294967296.
Proof. unfold halves. pose proof (half_range r). pose proof (half_range w). lia. Qed.

Lemma goal_write r w :
  TfLock.goal TfLock.CK_TFLOCK_TICKET_WC_TOPMSK TfLock.CK_TFLOCK_TICKET_WC_INCR (halves r w) = halves r (S w).
Proof.
  unfold TfLock.goal, TfLock.CK_TFLOCK_TICKET_WC_INCR. change TfLock.CK_TFLOCK_TICKET_WC_TOPMSK with (2 ^ 15).
  rewrite land_clear; [|apply halves_range|lia]. change (2 ^ 15) with 32768.
  pose proof (half_succ w) as Hs. pose proof (half_range r). pose proof (half_range w). unfold halves. ulia.
Qed.

Lemma goal_read r w :
  TfLock.goal TfLock.CK_TFLOCK_TICKET_RC_TOPMSK TfLock.CK_TFLOCK_TICKET_RC_INCR (halves r w) = halves (S r) w.
Proof.
  unfold TfLock.goal, TfLock.CK_TFLOCK_TICKET_RC_INCR. change TfLock.CK_TFLOCK_TICKET_RC_TOPMSK with (2 ^ 31).
  rewrite land_clear; [|apply halves_range|lia]. change (2 ^ 31) with 2147483648.
  pose proof (half_succ r) as Hs. pose proof (half_range r). pose proof (half_range w). unfold halves. ulia.
Qed.

(** * The loop of [ck_tflock_ticket_fca_32]

    It changes its target once, atomically; [Pre] is what the caller gives up then,
    and [Q v] what it gets when [v] was there. *)

Section fca.
Context `{!ckGS Σ}.

Lemma wp_fca (Pre : iProp Σ) (Q : Z -> iProp Σ) E target mask delta (Φ : Z -> iProp Σ) :
  □ (Pre ={⊤,E}=∗ ∃ v, target ↦ v ∗
       ((target ↦ v ={E,⊤}=∗ Pre) ∧ (target ↦ TfLock.goal mask delta v ={E,⊤}=∗ Q v))) -∗
  Pre -∗ ▷ (∀ v, Q v -∗ Φ v) -∗
  WP TfLock.ck_tflock_ticket_fca_32 target mask delta {{ Φ }}.
Proof.
  iIntros "#Hacc HP HΦ". rewrite /TfLock.ck_tflock_ticket_fca_32. wp_focus.
  iMod ("Hacc" with "HP") as (v) "[Hv [Hclose _]]". wp_load "Hv". iMod ("Hclose" with "Hv") as "HP". iModIntro.
  iApply (wp_loop_inv (λ _, Pre ∗ ▷ (∀ v, Q v -∗ Φ v))%I with "[$HP $HΦ]").
  iIntros "!>" (snapshot) "[HP HΦ]". wp_focus.
  iMod ("Hacc" with "HP") as (v') "[Hv Hclose]". wp_cas "Hv". cbn [fst snd].
  destruct (Z.eqb_spec v' snapshot) as [->|Hne].
  - iDestruct "Hclose" as "[_ Hclose]". iMod ("Hclose" with "Hv") as "HQ". iModIntro. wp_pures. by iApply "HΦ".
  - iDestruct "Hclose" as "[Hclose _]". iMod ("Hclose" with "Hv") as "HP". iModIntro. wp_pures. iFrame.
Qed.
End fca.

(** * Ghost state

    A reader in the table carries the number of writers that requested before it, and
    whether it is in; a writer that has not completed, the number of readers that did. *)

Class tfG Σ := TfG {
  tf_leaseG :: leaseG Σ;
  tf_readerG :: ghost_mapG Σ nat (nat * bool);
  tf_writerG :: ghost_mapG Σ nat nat;
  tf_insideG :: ghost_varG Σ (option nat);
}.
Definition tfΣ : gFunctors :=
  #[leaseΣ; ghost_mapΣ nat (nat * bool); ghost_mapΣ nat nat; ghost_varΣ (option nat)].
#[global] Instance subG_tfΣ {Σ} : subG tfΣ Σ -> tfG Σ.
Proof. solve_inG. Qed.

Record tf_name := TfName { tf_map : gname; tf_lease : gname; tf_wr : gname; tf_in : gname; tf_n : nat }.

Definition before (t : nat) (v : nat * bool) : bool := bool_decide (v.1 <= t)%nat.

(** The readers [M] and writers [W] that have not completed, after [cr] and [cw] that
    have, of [rw] writers that requested; the writer [b] is in. *)
Record tf_ok (M : gmap nat (nat * bool)) (W : gmap nat nat) (b : option nat) (cr cw rw : nat) : Prop := {
  tf_order : (cw <= rw)%nat;
  tf_pending t : is_Some (W !! t) <-> (cw <= t < rw)%nat;
  tf_waits t r : W !! t = Some r -> r = (cr + census (before t) M)%nat;
  tf_readers j v : M !! j = Some v -> (cw <= v.1 <= rw)%nat /\ (v.2 = true -> v.1 = cw);
  tf_inside t : b = Some t -> t = cw /\ (cw < rw)%nat /\ ∀ j v, M !! j = Some v -> (cw < v.1)%nat;
}.

Lemma tf_ok_init : tf_ok ∅ ∅ None 0 0 0.
Proof.
  split; try done.
  - intros t. rewrite lookup_empty. split; [by intros []|lia].
Qed.

(** A reader requests. *)
Lemma tf_ok_read M W b cr cw rw j :
  M !! j = None -> tf_ok M W b cr cw rw -> tf_ok (<[j := (rw, false)]> M) W b cr cw rw.
Proof.
  intros Hj [Ho Hp Hw Hr Hi]. split; [done|done|..].
  - intros t r Ht. rewrite census_insert // (Hw t r Ht).
    rewrite (_ : before t (rw, false) = false); [lia|]. apply bool_decide_eq_false. simpl.
    assert (is_Some (W !! t)) as HW by done. apply Hp in HW. lia.
  - intros i v [[<- <-]|[_ Hv]]%lookup_insert_Some; [split; [simpl; lia|done]|by eapply Hr].
  - intros t Hb. destruct (Hi t Hb) as (? & ? & H). split_and!; [done..|].
    intros i v [[<- <-]|[_ Hv]]%lookup_insert_Some; [done|by eapply H].
Qed.

(** A writer requests. *)
Lemma tf_ok_write M W b cr cw rw :
  tf_ok M W b cr cw rw -> W !! rw = None /\ tf_ok M (<[rw := (cr + size M)%nat]> W) b cr cw (S rw).
Proof.
  intros [Ho Hp Hw Hr Hi].
  assert (W !! rw = None) as HW.
  { apply eq_None_not_Some. rewrite Hp. lia. }
  split; [done|]. split; [lia|..].
  - intros t. rewrite lookup_insert_is_Some Hp. lia.
  - intros t r [[<- <-]|[_ Ht]]%lookup_insert_Some; [|by eapply Hw].
    rewrite census_all //. intros j v Hj. apply bool_decide_eq_true. by apply Hr in Hj as [? _]; lia.
  - intros j v Hj. destruct (Hr j v Hj). split; [lia|done].
  - intros t Hb. destruct (Hi t Hb) as (? & ? & H). split_and!; [done|lia|done].
Qed.

(** A reader that waits for the writers before it is in when they have completed. *)
Lemma tf_ok_enter M W b cr cw rw j :
  M !! j = Some (cw, false) -> tf_ok M W b cr cw rw ->
  b = None /\ tf_ok (<[j := (cw, true)]> M) W b cr cw rw.
Proof.
  intros Hj [Ho Hp Hw Hr Hi].
  assert (b = None) as ->.
  { destruct b as [t|]; [|done]. destruct (Hi t eq_refl) as (_ & _ & H). specialize (H j _ Hj). simpl in H. lia. }
  split; [done|]. split; [done|done|..|done].
  - intros t r Ht. rewrite (census_keep (before t) M j (cw, false) (cw, true)) //. by apply Hw.
  - intros i v [[<- <-]|[_ Hv]]%lookup_insert_Some; [|by eapply Hr]. split; [simpl; lia|done].
Qed.

(** A reader completes. *)
Lemma tf_ok_read_done M W b cr cw rw j w :
  M !! j = Some (w, true) -> tf_ok M W b cr cw rw -> b = None /\ tf_ok (delete j M) W b (S cr) cw rw.
Proof.
  intros Hj [Ho Hp Hw Hr Hi]. destruct (Hr j _ Hj) as [_ Hcw]. specialize (Hcw eq_refl). simpl in Hcw. subst w.
  assert (b = None) as ->.
  { destruct b as [t|]; [|done]. destruct (Hi t eq_refl) as (_ & _ & H). specialize (H j _ Hj). simpl in H. lia. }
  split; [done|]. split; [done|done|..|done].
  - intros t r Ht. rewrite (Hw t r Ht) (census_delete (before t) M j (cw, true)) //.
    rewrite (_ : before t (cw, true) = true); [lia|]. apply bool_decide_eq_true. simpl.
    assert (is_Some (W !! t)) as HW by done. apply Hp in HW. lia.
  - intros i v [_ Hv]%lookup_delete_Some. by eapply Hr.
Qed.

(** A writer is in when all requests before its own have completed. *)
Lemma tf_ok_write_in M W b cr cw rw r :
  W !! cw = Some r -> r = cr -> tf_ok M W b cr cw rw ->
  census snd M = 0%nat /\ tf_ok M W (Some cw) cr cw rw.
Proof.
  intros HW -> [Ho Hp Hw Hr Hi].
  assert (∀ j v, M !! j = Some v -> (cw < v.1)%nat) as HM.
  { specialize (Hw cw cr HW). assert (census (before cw) M = 0)%nat as Hz by lia. rewrite census_zero in Hz.
    intros j v Hj. apply Hz in Hj. apply bool_decide_eq_false in Hj. lia. }
  assert (is_Some (W !! cw)) as Hlt by done. apply Hp in Hlt. split.
  - apply census_zero. intros j v Hj. destruct (Hr j v Hj) as [_ H]. apply HM in Hj.
    destruct v.2; [|done]. specialize (H eq_refl). lia.
  - split; try done. intros t [= <-]. split_and!; [done|lia|done].
Qed.

(** A writer completes. *)
Lemma tf_ok_write_done M W cr cw rw t :
  tf_ok M W (Some t) cr cw rw ->
  t = cw /\ census snd M = 0%nat /\ tf_ok M (delete cw W) None cr (S cw) rw.
Proof.
  intros [Ho Hp Hw Hr Hi]. destruct (Hi t eq_refl) as (-> & Hlt & HM). split; [done|].
  assert (∀ j v, M !! j = Some v -> v.2 = false) as Hout.
  { intros j v Hj. destruct (Hr j v Hj) as [_ H]. apply HM in Hj. destruct v.2; [|done]. specialize (H eq_refl). lia. }
  split; [by apply census_zero|]. split; [lia|..|done].
  - intros t. rewrite lookup_delete_is_Some Hp. lia.
  - intros t r [_ Ht]%lookup_delete_Some. by apply Hw.
  - intros j v Hj. split; [apply Hr in Hj as Hj'; apply HM in Hj; lia|]. by rewrite (Hout j v Hj).
Qed.

Definition tfN : namespace := nroot .@ "tflock".

Section tflock.
Context `{!ckGS Σ, !tfG Σ}.
Implicit Types (γ : tf_name) (M : gmap nat (nat * bool)) (W : gmap nat nat).

Definition tf_reader γ j (v : nat * bool) : iProp Σ := j ↪[tf_map γ] v.
Definition tf_writer γ t (r : nat) : iProp Σ := t ↪[tf_wr γ] r.
Definition tf_busy γ (b : option nat) : iProp Σ := ghost_var (tf_in γ) (1/2) b.
Definition tf_table γ M : iProp Σ := table (tf_map γ) (tf_lease γ) (tf_n γ) M.
Abbreviation tf_lease1 γ := (leases (tf_lease γ) 1).

Definition tf_shares γ M (b : option nat) P : iProp Σ :=
  match b with
  | None => tf_busy γ None ∗ pool snd (tf_n γ) M P
  | Some t => ∃ r, tf_writer γ t r
  end.

Definition tf_inv γ lk P : iProp Σ :=
  ∃ M W b cr cw rw, TfLock.request lk ↦ halves (cr + size M) rw ∗ TfLock.completion lk ↦ halves cr cw ∗
    tf_table γ M ∗ leases (tf_lease γ) (rw - cw) ∗ ghost_map_auth (tf_wr γ) 1 W ∗ tf_busy γ b ∗
    tf_shares γ M b P ∗ ⌜tf_ok M W b cr cw rw⌝.

Definition is_tf γ lk P : iProp Σ := inv tfN (tf_inv γ lk P) ∗ ⌜Z.of_nat (tf_n γ) < 32768⌝.

Lemma tf_bound γ M k :
  tf_table γ M -∗ leases (tf_lease γ) k -∗ ⌜(size M + k <= tf_n γ)%nat⌝.
Proof.
  iIntros "(_ & Ha & Hf) Hk". iDestruct (leases_join with "Hf Hk") as "H". iApply (leases_bound with "Ha H").
Qed.

(** ** Requests

    What a thread knows when its request found the word [p]. *)

Definition tf_waiting_read γ (p : Z) : iProp Σ := ∃ r w j, ⌜p = halves r w⌝ ∗ tf_reader γ j (w, false).
Definition tf_waiting_write γ (p : Z) : iProp Σ := ∃ r t, ⌜p = halves r t⌝ ∗ tf_writer γ t r.

Lemma tf_request_read γ lk P Φ :
  is_tf γ lk P -∗ tf_lease1 γ -∗
  ▷ (∀ p, tf_waiting_read γ p -∗ Φ p) -∗
  WP TfLock.ck_tflock_ticket_fca_32 (TfLock.request lk) TfLock.CK_TFLOCK_TICKET_RC_TOPMSK
       TfLock.CK_TFLOCK_TICKET_RC_INCR {{ Φ }}.
Proof.
  iIntros "[#Hinv _] Hl HΦ". iApply (wp_fca (tf_lease1 γ) (tf_waiting_read γ) (⊤ ∖ ↑tfN) with "[] Hl HΦ"). iIntros "!> Hl".
  iInv tfN as (M W b cr cw rw) "(>Hq & >Hc & >Ht & >Hw & >HW & >Hb & Hs & >%Hok)" "Hclose".
  iModIntro. iExists _. iFrame "Hq". iSplit; iIntros "Hq".
  - iMod ("Hclose" with "[-Hl]") as "_"; [|by iModIntro]. iExists M, W, b, cr, cw, rw. by iFrame.
  - iMod (table_join _ _ _ _ (rw, false) with "Ht Hl") as (j) "(%Hj & Ht & Hj)". rewrite goal_read.
    iMod ("Hclose" with "[-Hj]") as "_"; [|iModIntro; iExists _, _, _; by iFrame].
    iExists (<[j := (rw, false)]> M), W, b, cr, cw, rw. rewrite map_size_insert_None // Nat.add_succ_r.
    iFrame. iSplitL; [|iPureIntro; by apply tf_ok_read]. destruct b; simpl; [done|].
    rewrite (pool_same snd _ M (<[j := (rw, false)]> M)) //. by rewrite (census_join snd).
Qed.

Lemma tf_request_write γ lk P Φ :
  is_tf γ lk P -∗ tf_lease1 γ -∗
  ▷ (∀ p, tf_waiting_write γ p -∗ Φ p) -∗
  WP TfLock.ck_tflock_ticket_fca_32 (TfLock.request lk) TfLock.CK_TFLOCK_TICKET_WC_TOPMSK
       TfLock.CK_TFLOCK_TICKET_WC_INCR {{ Φ }}.
Proof.
  iIntros "[#Hinv _] Hl HΦ". iApply (wp_fca (tf_lease1 γ) (tf_waiting_write γ) (⊤ ∖ ↑tfN) with "[] Hl HΦ"). iIntros "!> Hl".
  iInv tfN as (M W b cr cw rw) "(>Hq & >Hc & >Ht & >Hw & >HW & >Hb & Hs & >%Hok)" "Hclose".
  iModIntro. iExists _. iFrame "Hq". iSplit; iIntros "Hq".
  - iMod ("Hclose" with "[-Hl]") as "_"; [|by iModIntro]. iExists M, W, b, cr, cw, rw. by iFrame.
  - destruct (tf_ok_write M W b cr cw rw Hok) as [HW Hok'].
    iMod (ghost_map_insert rw (cr + size M)%nat with "HW") as "[HW Hr]"; [done|]. rewrite goal_write.
    iMod ("Hclose" with "[-Hr]") as "_"; [|iModIntro; iExists _, _; by iFrame].
    iExists M, (<[rw := (cr + size M)%nat]> W), b, cr, cw, (S rw). iFrame.
    iDestruct (leases_join with "Hw Hl") as "Hw". pose proof (tf_order _ _ _ _ _ _ Hok).
    replace (S rw - cw)%nat with (rw - cw + 1)%nat by lia. by iFrame.
Qed.

(** ** Waiting *)

Lemma tf_poll_read γ lk P j w :
  {{{ is_tf γ lk P ∗ tf_reader γ j (w, false) }}} ck_pr_load (TfLock.completion lk)
  {{{ c, RET c; if Z.land c TfLock.CK_TFLOCK_TICKET_W_MASK =? half w then tf_reader γ j (w, true) ∗ P
                else tf_reader γ j (w, false) }}}.
Proof.
  iIntros (Φ) "[[#Hinv %Hn] Hj] HΦ".
  iInv tfN as (M W b cr cw rw) "(>Hq & >Hc & >Ht & >Hw & >HW & >Hb & Hs & >%Hok)".
  iDestruct (table_lookup with "Ht Hj") as %Hj. iDestruct (tf_bound with "Ht Hw") as %Hle.
  iSpecialize ("HΦ" $! (halves cr cw)). rewrite halves_writers. destruct (Z.eqb_spec (half cw) (half w)) as [He|Hne].
  - destruct (tf_readers _ _ _ _ _ _ Hok j _ Hj) as [Hr _]. simpl in Hr.
    assert (w = cw) as -> by (symmetry; apply half_near; [done|lia]).
    destruct (tf_ok_enter M W b cr cw rw j Hj Hok) as [-> Hok'].
    iMod (table_set _ _ _ _ _ _ (cw, true) with "Ht Hj") as "[Ht Hj]". wp_load "Hc". iDestruct "Hs" as "[Hb' Hs]".
    iDestruct (pool_take snd _ M j (cw, false) (cw, true) with "Hs") as "[HP Hs]"; [done..|lia|].
    iModIntro. iSplitR "HΦ Hj HP"; [|iApply "HΦ"; iFrame].
    iExists (<[j := (cw, true)]> M), W, None, cr, cw, rw. rewrite map_size_insert_Some //. by iFrame.
  - wp_load "Hc". iModIntro. iSplitR "HΦ Hj"; [|by iApply "HΦ"]. iExists M, W, b, cr, cw, rw. by iFrame.
Qed.

Definition tf_writing γ : iProp Σ := ∃ t, tf_busy γ (Some t).

Lemma tf_poll_write γ lk P t r :
  {{{ is_tf γ lk P ∗ tf_writer γ t r }}} ck_pr_load (TfLock.completion lk)
  {{{ c, RET c; if c =? halves r t then tf_writing γ ∗ copies (tf_n γ) P else tf_writer γ t r }}}.
Proof.
  iIntros (Φ) "[[#Hinv %Hn] Hr] HΦ".
  iInv tfN as (M W b cr cw rw) "(>Hq & >Hc & >Ht & >Hw & >HW & >Hb & Hs & >%Hok)".
  iDestruct (ghost_map_lookup with "HW Hr") as %Hr. iDestruct (tf_bound with "Ht Hw") as %Hle.
  destruct (Z.eqb_spec (halves cr cw) (halves r t)) as [He|Hne].
  - apply halves_inj in He as [He1 He2]. pose proof (tf_waits _ _ _ _ _ _ Hok t r Hr) as Hwait.
    pose proof (census_le_size (before t) M).
    assert (cw <= t < rw)%nat as Ht by (apply (tf_pending _ _ _ _ _ _ Hok); done).
    assert (cw = t) as <- by (apply half_near; [done|lia]).
    assert (cr = r) as <- by (apply half_near; [done|lia]).
    destruct b as [t'|].
    { destruct (tf_inside _ _ _ _ _ _ Hok t' eq_refl) as (-> & _ & _). iDestruct "Hs" as (r') ">Hr'".
      iDestruct (ghost_map_elem_valid_2 with "Hr Hr'") as %[Hv _]. by apply dfrac_valid_own_r in Hv. }
    destruct (tf_ok_write_in M W None cr cw rw cr Hr eq_refl Hok) as [HM Hok'].
    iDestruct "Hs" as "[>Hb' Hs]". iMod (ghost_var_update_halves (Some cw) with "Hb Hb'") as "[Hb Hb']".
    wp_load "Hc". iModIntro. iSplitR "HΦ Hb' Hs".
    { iExists M, W, (Some cw), cr, cw, rw. by iFrame. }
    iApply "HΦ". rewrite Z.eqb_refl pool_all //. iFrame.
  - wp_load "Hc". iModIntro. iSplitR "HΦ Hr".
    { iExists M, W, b, cr, cw, rw. by iFrame. }
    iApply "HΦ". by rewrite (proj2 (Z.eqb_neq _ _) Hne).
Qed.

(** ** Completions *)

Lemma tf_complete_read γ lk P Φ :
  is_tf γ lk P -∗ (∃ j w, tf_reader γ j (w, true)) ∗ P -∗ ▷ (∀ p, tf_lease1 γ -∗ Φ p) -∗
  WP TfLock.ck_tflock_ticket_fca_32 (TfLock.completion lk) TfLock.CK_TFLOCK_TICKET_RC_TOPMSK
       TfLock.CK_TFLOCK_TICKET_RC_INCR {{ Φ }}.
Proof.
  iIntros "[#Hinv _] HP HΦ".
  iApply (wp_fca ((∃ j w, tf_reader γ j (w, true)) ∗ P) (λ _, tf_lease1 γ) (⊤ ∖ ↑tfN) with "[] HP HΦ").
  iIntros "!> [(%j & %w & Hj) HP]".
  iInv tfN as (M W b cr cw rw) "(>Hq & >Hc & >Ht & >Hw & >HW & >Hb & Hs & >%Hok)" "Hclose".
  iModIntro. iExists _. iFrame "Hc". iSplit; iIntros "Hc".
  - iMod ("Hclose" with "[-Hj HP]") as "_"; [|iModIntro; by iFrame]. iExists M, W, b, cr, cw, rw. by iFrame.
  - iDestruct (table_lookup with "Ht Hj") as %Hj. iDestruct (table_bound with "Ht") as %Hle.
    destruct (tf_ok_read_done M W b cr cw rw j w Hj Hok) as [-> Hok'].
    iMod (table_leave with "Ht Hj") as "[Ht Hl]". rewrite goal_read. iDestruct "Hs" as "[Hb' Hs]".
    iMod ("Hclose" with "[-Hl]") as "_"; [|iModIntro; by iFrame].
    iDestruct (pool_put snd _ M j (w, true) with "HP Hs") as "Hs"; [done..|].
    iExists (delete j M), W, None, (S cr), cw, rw.
    assert (size M = S (size (delete j M))) as Hsize.
    { rewrite -{1}(insert_delete_id M j (w, true)) // map_size_insert_None //. apply lookup_delete_eq. }
    rewrite Hsize Nat.add_succ_r. by iFrame.
Qed.

Lemma tf_complete_write γ lk P Φ :
  is_tf γ lk P -∗ tf_writing γ ∗ copies (tf_n γ) P -∗ ▷ (∀ p, tf_lease1 γ -∗ Φ p) -∗
  WP TfLock.ck_tflock_ticket_fca_32 (TfLock.completion lk) TfLock.CK_TFLOCK_TICKET_WC_TOPMSK
       TfLock.CK_TFLOCK_TICKET_WC_INCR {{ Φ }}.
Proof.
  iIntros "[#Hinv _] HP HΦ".
  iApply (wp_fca (tf_writing γ ∗ copies (tf_n γ) P) (λ _, tf_lease1 γ) (⊤ ∖ ↑tfN) with "[] HP HΦ").
  iIntros "!> [(%t & Hb') HP]".
  iInv tfN as (M W b cr cw rw) "(>Hq & >Hc & >Ht & >Hw & >HW & >Hb & Hs & >%Hok)" "Hclose".
  iModIntro. iExists _. iFrame "Hc". iSplit; iIntros "Hc".
  - iMod ("Hclose" with "[-Hb' HP]") as "_"; [|iModIntro; iFrame]. iExists M, W, b, cr, cw, rw. by iFrame.
  - iDestruct (ghost_var_agree with "Hb' Hb") as %<-. iDestruct "Hs" as (r) ">Hr".
    pose proof (tf_inside _ _ _ _ _ _ Hok t eq_refl) as (_ & Hlt & _).
    destruct (tf_ok_write_done M W cr cw rw t Hok) as (-> & HM & Hok').
    iMod (ghost_map_delete with "HW Hr") as "HW".
    iMod (ghost_var_update_halves None with "Hb Hb'") as "[Hb Hb']". rewrite goal_write.
    replace (rw - cw)%nat with (1 + (rw - S cw))%nat by lia. rewrite leases_split. iDestruct "Hw" as "[Hl Hw]".
    iMod ("Hclose" with "[-Hl]") as "_"; [|iModIntro; by iFrame].
    iExists M, (delete cw W), None, cr, (S cw), rw. iFrame. iSplitL; [|done]. by rewrite pool_all.
Qed.

(** ** The lock *)

Lemma wp_tflock_read_lock γ lk P :
  {{{ is_tf γ lk P ∗ tf_lease1 γ }}} TfLock.ck_tflock_ticket_read_lock lk
  {{{ RET tt; (∃ j w, tf_reader γ j (w, true)) ∗ P }}}.
Proof.
  iIntros (Φ) "[#Hlk Hl] HΦ". rewrite /TfLock.ck_tflock_ticket_read_lock. wp_focus.
  iApply (tf_request_read with "Hlk Hl"). iIntros "!>" (p) "(%r & %w & %j & -> & Hj)". rewrite halves_writers.
  wp_pures.
  iApply (wp_while_inv (tf_reader γ j (w, false) ∗ ▷ ((∃ j w, tf_reader γ j (w, true)) ∗ P -∗ Φ tt))
    with "[$Hj $HΦ]").
  iIntros "!> [Hj HΦ]". wp_focus. iApply (tf_poll_read with "[$Hlk $Hj]"). iIntros "!>" (c) "H". wp_pures.
  destruct (_ =? _); cbn [negb]; wp_pures; [|iFrame]. iDestruct "H" as "[Hj HP]". iApply "HΦ". iFrame.
Qed.

Lemma wp_tflock_write_lock γ lk P :
  {{{ is_tf γ lk P ∗ tf_lease1 γ }}} TfLock.ck_tflock_ticket_write_lock lk
  {{{ RET tt; tf_writing γ ∗ copies (tf_n γ) P }}}.
Proof.
  iIntros (Φ) "[#Hlk Hl] HΦ". rewrite /TfLock.ck_tflock_ticket_write_lock. wp_focus.
  iApply (tf_request_write with "Hlk Hl"). iIntros "!>" (p) "(%r & %t & -> & Hr)". wp_pures.
  iApply (wp_while_inv (tf_writer γ t r ∗ ▷ (tf_writing γ ∗ copies (tf_n γ) P -∗ Φ tt)) with "[$Hr $HΦ]").
  iIntros "!> [Hr HΦ]". wp_focus. iApply (tf_poll_write with "[$Hlk $Hr]"). iIntros "!>" (c) "H". wp_pures.
  destruct (_ =? _); cbn [negb]; wp_pures; [|iFrame]. by iApply "HΦ".
Qed.

Lemma tf_cells_nodup lk : NoDup (TfLock.cells lk).
Proof.
  unfold TfLock.cells, TfLock.request, TfLock.completion. rewrite !NoDup_cons !elem_of_cons !elem_of_nil.
  repeat split; try lia. apply NoDup_nil_2.
Qed.

Lemma tf_alloc lk (ctxs : list (Z * bool)) m P E :
  TfLock.init lk ctxs m ->
  ([∗ map] l ↦ v ∈ m, l ↦ v) -∗ copies (length ctxs) P ={E}=∗
  ∃ γ, ⌜tf_n γ = length ctxs⌝ ∗ is_tf γ lk P ∗ [∗ list] _ ∈ ctxs, tf_lease1 γ.
Proof.
  iIntros ([-> Hn]) "Hm HP". iDestruct (zeros_own with "Hm") as "(Hc & Hq & _)"; [apply tf_cells_nodup|].
  iMod (table_alloc (V:=nat * bool) (length ctxs)) as (γm γp) "[(Hm & Ha & H0) Hl]".
  iMod (ghost_map_alloc_empty (K:=nat) (V:=nat)) as (γw) "HW". iMod (ghost_var_alloc None) as (γb) "[Hb Hb']".
  set (γ := TfName γm γp γw γb (length ctxs)). iExists γ.
  iMod (inv_alloc tfN _ (tf_inv γ lk P) with "[-Hl]") as "#Hinv".
  { iExists ∅, ∅, None, 0%nat, 0%nat, 0%nat.
    iEval (rewrite (leases_split _ 0 0)) in "H0". iDestruct "H0" as "[H0 H1]".
    iFrame. iSplitL; [by rewrite pool_all|]. iPureIntro. apply tf_ok_init. }
  iModIntro. iSplit; [done|]. iFrame "Hinv". iSplit; [done|]. by iApply leases_list.
Qed.

#[global] Instance tflock_spec : RwSpec TfLock.lock TfLock.init.
Proof.
  refine (Build_RwSpec _ _ _ _ tf_name tf_n is_tf (λ γ _ _, tf_lease1 γ) (λ γ _ _, tf_lease1 γ)
            (λ γ _ _, ∃ j w, tf_reader γ j (w, true))%I (λ γ _, tf_writing γ) _ tf_alloc _ _ _ _ _ _ _ _ _).
  - iIntros (γ lk P c w Φ) "[_ Hc] HΦ". rewrite /= /no_registration. wp_pures. by iApply "HΦ".
  - iIntros (γ lk P c w Φ) "_ HΦ". rewrite /= /no_registration. by wp_pures.
  - iIntros (γ lk P c w Φ) "[#Hlk Hc]". by iApply (wp_tflock_read_lock with "[$Hlk $Hc]").
  - iIntros (γ lk P c w Φ) "(#Hlk & Hj & HP) HΦ". rewrite /= /TfLock.ck_tflock_ticket_read_unlock. wp_pures.
    iApply (tf_complete_read with "Hlk [$Hj $HP]"). iIntros "!>" (p) "Hl". wp_pures. by iApply "HΦ".
  - iIntros (γ lk P c Φ) "[#Hlk Hc]". by iApply (wp_tflock_write_lock with "[$Hlk $Hc]").
  - iIntros (γ lk P c Φ) "(#Hlk & Hw & HP) HΦ". rewrite /= /TfLock.ck_tflock_ticket_write_unlock. wp_pures.
    iApply (tf_complete_write with "Hlk [$Hw $HP]"). iIntros "!>" (p) "Hl". wp_pures. by iApply "HΦ".
  - done.
  - done.
  - done.
Defined.
End tflock.

(** * Theorem *)

Definition tflockΣ : gFunctors := #[rwClientΣ; tfΣ].

Lemma tflock_init_returns lk m :
  has_cells (TfLock.cells lk) m -> returns (TfLock.ck_tflock_ticket_init lk) m tt (zeros (TfLock.cells lk)).
Proof. apply (store_zeros_returns (TfLock.cells lk)). Qed.

(** C12. The task-fair lock [ck_tflock_ticket], initialised over any memory, for fewer than
    2^15 threads under every scheduler and across wrap-around of the half-words, whose
    top bits the increments clear: no step faults; while a writer is in its critical
    section no other writer and no reader is in one; every reader sees what complete
    writes left; and no write is lost. *)
Theorem tflock_exclusion lk d ts m m' ps σ :
  has_cells (TfLock.cells lk) m -> returns (TfLock.ck_tflock_ticket_init lk) m tt m' ->
  Z.of_nat (length ts) < 32768 -> rw_words_ok d m' -> Forall rw_thread_ok ts ->
  rtc sys_step (rw_config TfLock.lock lk d ts m') (ps, σ) ->
  rw_ok TfLock.lock d ts ps σ /\ (∀ p, p ∈ ps -> safe p σ).
Proof.
  intros Hcells Hinit Hn Hd Hts Hsteps.
  destruct (returns_det _ _ _ _ _ _ Hinit (tflock_init_returns lk m Hcells)) as [_ ->].
  eapply (rw_lock_exclusion tflockΣ _ TfLock.init); [apply _|split; [done|]|done..|exact Hsteps].
  by rewrite length_map.
Qed.

Definition tflock_demo_mem : mem := list_to_map [(1, 5); (2, 6)].
Definition tflock_demo : config (nat * bool) :=
  round_robin 300 (rw_config TfLock.lock 1 rw_demo_words rw_demo_threads (zeros (TfLock.cells 1))).

Lemma tflock_exclusion_witness :
  rw_ok TfLock.lock rw_demo_words rw_demo_threads tflock_demo.1 tflock_demo.2 /\
  forallb is_ret tflock_demo.1 = true /\ tflock_demo.2 !! 12 = Some 1.
Proof.
  assert (has_cells (TfLock.cells 1) tflock_demo_mem) as Hcells.
  { split; [apply tf_cells_nodup|]. apply (bool_decide_unpack _). vm_compute. exact I. }
  destruct (tflock_exclusion 1 rw_demo_words rw_demo_threads tflock_demo_mem (zeros (TfLock.cells 1))
    tflock_demo.1 tflock_demo.2) as [H _].
  - exact Hcells.
  - by apply tflock_init_returns.
  - simpl. lia.
  - apply rw_demo_words_ok; vm_compute; reflexivity.
  - apply rw_demo_threads_ok.
  - apply round_robin_pair.
  - split; [exact H|]. split; vm_compute; reflexivity.
Defined.
