(* ===== verification/SwLock.v ===== *)
(** [ck_swlock.h]: the single-writer reader-writer lock with its latch.  Readers count
    in the low bits of the word that holds the writer's bits; those that come while
    the latch is set leave their count behind, and [ck_swlock_write_unlatch] wipes it
    out. *)

From S2P Require Export RwLock.
Set Warnings "-rewrite-rw".

(** * The code: one word *)

Module SwLock.

Definition value (rw : Z) : Z := rw.

Definition CK_SWLOCK_WRITER_BIT : Z := 2147483648.
Definition CK_SWLOCK_LATCH_BIT : Z := 1073741824.
Definition CK_SWLOCK_WRITER_MASK : Z := Z.lor CK_SWLOCK_LATCH_BIT CK_SWLOCK_WRITER_BIT.
Definition CK_SWLOCK_READER_MASK : Z := Z.lxor UINT_MAX CK_SWLOCK_WRITER_MASK.

Definition ck_swlock_init (rw : Z) : prog unit := st (value rw) 0 ;; ck_pr_barrier.

Definition ck_swlock_write_unlock (rw : Z) : prog unit :=
  ck_pr_fence F_unlock ;; ck_pr_and (value rw) CK_SWLOCK_READER_MASK.

Definition ck_swlock_locked_writer (rw : Z) : prog bool :=
  r <- ck_pr_load (value rw) ;;
  ck_pr_fence F_acquire ;; Ret (truthy (Z.land r CK_SWLOCK_WRITER_BIT)).

Definition ck_swlock_write_downgrade (rw : Z) : prog unit :=
  ck_pr_inc u32 (value rw) ;; ck_swlock_write_unlock rw.

Definition ck_swlock_locked (rw : Z) : prog bool :=
  r <- ck_pr_load (value rw) ;; ck_pr_fence F_acquire ;; Ret (truthy r).

Definition ck_swlock_write_trylock (rw : Z) : prog bool :=
  r <- ck_pr_cas (value rw) 0 CK_SWLOCK_WRITER_BIT ;; ck_pr_fence F_lock ;; Ret r.

Definition ck_swlock_write_lock (rw : Z) : prog unit :=
  ck_pr_or (value rw) CK_SWLOCK_WRITER_BIT ;;
  while (v <- ck_pr_load (value rw) ;; Ret (truthy (Z.land v CK_SWLOCK_READER_MASK))) ck_pr_stall ;;
  ck_pr_fence F_lock.

Definition ck_swlock_write_latch (rw : Z) : prog unit :=
  ck_pr_or (value rw) CK_SWLOCK_WRITER_BIT ;;
  while (b <- ck_pr_cas (value rw) CK_SWLOCK_WRITER_BIT CK_SWLOCK_WRITER_MASK ;; Ret (negb b))
    (do_while ck_pr_stall (v <- ck_pr_load (value rw) ;; Ret (negb (v =? CK_SWLOCK_WRITER_BIT)))) ;;
  ck_pr_fence F_lock.

Definition ck_swlock_write_unlatch (rw : Z) : prog unit :=
  ck_pr_fence F_unlock ;; ck_pr_store (value rw) 0.

Definition ck_swlock_read_trylock (rw : Z) : prog bool :=
  l <- ck_pr_load (value rw) ;;
  if truthy (Z.land l CK_SWLOCK_WRITER_BIT) then Ret false
  else
    l <- ck_pr_faa u32 (value rw) 1 ;;
    let l := Z.land l CK_SWLOCK_WRITER_MASK in
    when (l =? CK_SWLOCK_WRITER_BIT) (ck_pr_dec u32 (value rw)) ;;
    ck_pr_fence F_lock ;; Ret (l =? 0).

Definition ck_swlock_read_lock (rw : Z) : prog unit :=
  Iter (fun _ : unit =>
    while (v <- ck_pr_load (value rw) ;; Ret (truthy (Z.land v CK_SWLOCK_WRITER_BIT))) ck_pr_stall ;;
    l <- ck_pr_faa u32 (value rw) 1 ;;
    let l := Z.land l CK_SWLOCK_WRITER_MASK in
    if l =? 0 then break tt
    else when (l =? CK_SWLOCK_WRITER_BIT) (ck_pr_dec u32 (value rw)) ;; continue tt) tt ;;
  ck_pr_fence F_lock.

Definition ck_swlock_locked_reader (rw : Z) : prog bool :=
  ck_pr_fence F_load ;;
  v <- ck_pr_load (value rw) ;; Ret (truthy (Z.land v CK_SWLOCK_READER_MASK)).

Definition ck_swlock_read_unlock (rw : Z) : prog unit :=
  ck_pr_fence F_unlock ;; ck_pr_dec u32 (value rw).

(** As a reader-writer lock, with the lock or with the latch for writing. *)
Definition lock (latch : bool) : rw_code :=
  RwCode no_registration no_registration
    (fun rw _ => ck_swlock_read_lock rw) (fun rw _ => ck_swlock_read_unlock rw)
    (fun rw _ => if latch then ck_swlock_write_latch rw else ck_swlock_write_lock rw)
    (fun rw _ => if latch then ck_swlock_write_unlatch rw else ck_swlock_write_unlock rw)
    (Some (fun rw _ => ck_swlock_read_trylock rw))
    (if latch then None else Some (fun rw _ => ck_swlock_write_trylock rw))
    (if latch then None else Some (fun rw _ => ck_swlock_write_downgrade rw)).

Definition cells (rw : Z) : list Z := [value rw].

(** One thread may write, and the low 30 bits count the threads. *)
Definition init (rw : Z) (ctxs : list (Z * bool)) (m : mem) : Prop :=
  m = zeros (cells rw) /\ Z.of_nat (length ctxs) < 1073741824 /\
  (length (filter (fun c : Z * bool => c.2 = true) ctxs) <= 1)%nat.

End SwLock.

(** * The word *)

Definition swlock_word (bits : Z) (k : nat) : Z := 1073741824 * bits + Z.of_nat k.

Section word.
Context (bits : Z) (k : nat) (Hbits : 0 <= bits < 4) (Hk : Z.of_nat k < 1073741824).

Lemma swlock_reader : Z.land (swlock_word bits k) SwLock.CK_SWLOCK_READER_MASK = Z.of_nat k.
Proof using Hbits Hk.
  change SwLock.CK_SWLOCK_READER_MASK with (Z.ones 30). rewrite Z.land_ones //. unfold swlock_word.
  change (2 ^ 30) with 1073741824. ulia.
Qed.

Lemma swlock_writer : Z.land (swlock_word bits k) SwLock.CK_SWLOCK_WRITER_MASK = 1073741824 * bits.
Proof using Hbits Hk.
  change SwLock.CK_SWLOCK_WRITER_MASK with (Z.shiftl (Z.ones 2) 30). rewrite land_shifted // Z.land_ones //.
  rewrite Z.shiftl_mul_pow2 // Z.shiftr_div_pow2 //. unfold swlock_word.
  change (2 ^ 30) with 1073741824. change (2 ^ 2) with 4. ulia.
Qed.

Lemma swlock_writer_bit :
  truthy (Z.land (swlock_word bits k) SwLock.CK_SWLOCK_WRITER_BIT) = (2 <=? bits).
Proof using Hbits Hk.
  change SwLock.CK_SWLOCK_WRITER_BIT with (2 ^ 31). rewrite land_bit //. unfold swlock_word, truthy.
  change (2 ^ 31) with 2147483648. destruct (Z.leb_spec 2 bits); simpl;
  destruct (Z.eqb_spec (2147483648 * ((1073741824 * bits + Z.of_nat k) / 2147483648 `mod` 2)) 0); simpl; ulia.
Qed.

Lemma swlock_more : Z.of_nat (S k) < 1073741824 -> u32 (swlock_word bits k + 1) = swlock_word bits (S k).
Proof using Hbits Hk. unfold swlock_word. rewrite Nat2Z.inj_succ. ulia. Qed.
End word.

Lemma swlock_less bits k : 0 <= bits < 4 -> Z.of_nat (S k) < 1073741824 ->
  u32 (swlock_word bits (S k) - 1) = swlock_word bits k.
Proof. unfold swlock_word. rewrite Nat2Z.inj_succ. ulia. Qed.

Lemma swlock_set k : Z.of_nat k < 1073741824 ->
  Z.lor (swlock_word 0 k) SwLock.CK_SWLOCK_WRITER_BIT = swlock_word 2 k.
Proof.
  intros Hk. assert (Z.land (swlock_word 0 k) SwLock.CK_SWLOCK_WRITER_BIT = 0) as H0.
  { change SwLock.CK_SWLOCK_WRITER_BIT with (2 ^ 31). rewrite land_bit // /swlock_word.
    change (2 ^ 31) with 2147483648. ulia. }
  pose proof (Z.add_lor_land (swlock_word 0 k) SwLock.CK_SWLOCK_WRITER_BIT) as H. rewrite H0 in H.
  unfold swlock_word, SwLock.CK_SWLOCK_WRITER_BIT in *. lia.
Qed.

(** * Ghost state *)

(** A reader in the table has seen the writer's bit clear, is counted but not in, is
    in, or has left its count with a latched writer. *)
Inductive sw_reader := SrSeen | SrTrying | SrInside | SrLeaked.

Definition counted (v : sw_reader) : bool := match v with SrTrying | SrInside => true | _ => false end.
Definition in_lock (v : sw_reader) : bool := match v with SrInside => true | _ => false end.
Definition leaked (v : sw_reader) : bool := match v with SrLeaked => true | _ => false end.

Inductive sw_state := SwFree | SwDrain | SwIn | SwLatched.
#[global] Instance sw_state_inhabited : Inhabited sw_state := populate SwFree.

Definition sw_bits (s : sw_state) : Z :=
  match s with SwFree => 0 | SwDrain | SwIn => 2 | SwLatched => 3 end.

(** The count [k] in the word. *)
Definition sw_ok (s : sw_state) (M : gmap nat sw_reader) (k : nat) : Prop :=
  match s with
  | SwFree | SwDrain => k = census counted M
  | SwIn => k = census counted M /\ census in_lock M = 0%nat
  | SwLatched => census counted M = 0%nat /\ (k <= census leaked M)%nat
  end.

Lemma in_counted M : (census in_lock M <= census counted M)%nat.
Proof.
  induction M as [|j v M Hj IH] using map_ind; [by rewrite !census_empty|].
  rewrite !census_insert //. destruct v; simpl; lia.
Qed.

Lemma sw_ok_size s M k : sw_ok s M k -> (k <= size M)%nat.
Proof.
  pose proof (census_le_size counted M). pose proof (census_le_size leaked M).
  destruct s; simpl; lia.
Qed.

Class swG Σ := SwG {
  sw_leaseG :: leaseG Σ;
  sw_mapG :: ghost_mapG Σ nat sw_reader;
  sw_stateG :: ghost_varG Σ sw_state;
}.
Definition swΣ : gFunctors := #[leaseΣ; ghost_mapΣ nat sw_reader; ghost_varΣ sw_state].
#[global] Instance subG_swΣ {Σ} : subG swΣ Σ -> swG Σ.
Proof. solve_inG. Qed.

Record sw_name := SwName { sw_map : gname; sw_lease : gname; sw_st : gname; sw_n : nat }.

Definition swN : namespace := nroot .@ "swlock".

Section swlock.
Context `{!ckGS Σ, !swG Σ}.
Implicit Types (γ : sw_name) (M : gmap nat sw_reader) (s : sw_state) (j k : nat).

Definition sw_is γ s : iProp Σ := ghost_var (sw_st γ) (1/2) s.
Definition sw_entry γ j (v : sw_reader) : iProp Σ := j ↪[sw_map γ] v.
Definition sw_table γ M : iProp Σ := table (sw_map γ) (sw_lease γ) (sw_n γ) M.

Definition sw_shares γ M s P : iProp Σ :=
  match s with SwFree | SwDrain => pool in_lock (sw_n γ) M P | SwIn | SwLatched => True end.

Definition sw_inv γ rw P : iProp Σ :=
  ∃ M s k, SwLock.value rw ↦ swlock_word (sw_bits s) k ∗ sw_table γ M ∗ sw_is γ s ∗
    sw_shares γ M s P ∗ ⌜sw_ok s M k⌝.

Definition is_sw γ rw P : iProp Σ := inv swN (sw_inv γ rw P) ∗ ⌜Z.of_nat (sw_n γ) < 1073741824⌝.

(** A thread that is not in: with its lease, or owing a count to the latch. *)
Definition sw_out γ : iProp Σ := leases (sw_lease γ) 1 ∨ ∃ j, sw_entry γ j SrLeaked.

Ltac open_sw M s k Hok := iInv swN as (M s k) "(>Hv & >Ht & >Hs & Hc & >%Hok)".

Lemma sw_bits_range s : 0 <= sw_bits s < 4.
Proof. destruct s; simpl; lia. Qed.

(** ** Readers *)

(** A thread outside enters the table, or changes its entry. *)
Lemma sw_turn γ M v :
  counted v = false -> leaked v = false ->
  sw_table γ M -∗ sw_out γ ==∗
  ∃ j M', sw_table γ M' ∗ sw_entry γ j v ∗
    ⌜M' !! j = Some v /\ census in_lock M' = census in_lock M /\ census counted M' = census counted M⌝.
Proof.
  iIntros (Hc Hl) "Ht [Hl|[%j Hj]]".
  - iMod (table_join _ _ _ _ v with "Ht Hl") as (j) "(%Hj & Ht & Hj)". iModIntro. iExists j, _. iFrame.
    iPureIntro. split_and!; [apply lookup_insert_eq|..]; apply census_join; try done. by destruct v.
  - iDestruct (table_lookup with "Ht Hj") as %Hj.
    iMod (table_set _ _ _ _ _ _ v with "Ht Hj") as "[Ht Hj]". iModIntro. iExists j, _. iFrame.
    iPureIntro. split_and!; [apply lookup_insert_eq|..]; eapply census_keep; try done. by destruct v.
Qed.

Lemma sw_look γ rw P :
  {{{ is_sw γ rw P ∗ sw_out γ }}} ck_pr_load (SwLock.value rw)
  {{{ v, RET v; if truthy (Z.land v SwLock.CK_SWLOCK_WRITER_BIT) then sw_out γ
                else ∃ j, sw_entry γ j SrSeen }}}.
Proof.
  iIntros (Φ) "[[#Hinv %Hn] Ho] HΦ". open_sw M s k Hok. iDestruct (table_bound with "Ht") as %Hb.
  pose proof (sw_ok_size _ _ _ Hok) as Hk. pose proof (sw_bits_range s) as Hbits.
  iSpecialize ("HΦ" $! (swlock_word (sw_bits s) k)). rewrite swlock_writer_bit; [|lia..].
  destruct s; simpl in *.
  1: { iMod (sw_turn γ M SrSeen with "Ht Ho") as (j M') "(Ht & Hj & %Hj & %Hin & %Hco)"; [done..|].
    wp_load "Hv". iModIntro. iSplitR "HΦ Hj"; [|iApply "HΦ"; by iExists j].
    iExists M', SwFree, k. iFrame. rewrite /= (pool_same in_lock _ M M') //. iFrame. iPureIntro. congruence. }
  all: wp_load "Hv"; iModIntro; iSplitR "HΦ Ho"; [|by iApply "HΦ"].
  - iExists M, SwDrain, k. by iFrame.
  - iExists M, SwIn, k. by iFrame.
  - iExists M, SwLatched, k. by iFrame.
Qed.

(** What the fetch-and-add found decides. *)
Definition sw_counted γ P (l : Z) : iProp Σ :=
  ⌜l = 0⌝ ∗ (∃ j, sw_entry γ j SrInside) ∗ P ∨
  ⌜l = SwLock.CK_SWLOCK_WRITER_BIT⌝ ∗ (∃ j, sw_entry γ j SrTrying) ∨
  ⌜l = SwLock.CK_SWLOCK_WRITER_MASK⌝ ∗ sw_out γ.

Definition faa_entry (s : sw_state) : sw_reader :=
  match s with SwFree => SrInside | SwDrain | SwIn => SrTrying | SwLatched => SrLeaked end.

Lemma sw_ok_faa s M k j :
  M !! j = Some SrSeen -> sw_ok s M k -> sw_ok s (<[j := faa_entry s]> M) (S k).
Proof.
  intros Hj. pose proof (census_update counted M j SrSeen (faa_entry s) Hj) as H1.
  pose proof (census_update in_lock M j SrSeen (faa_entry s) Hj) as H2.
  pose proof (census_update leaked M j SrSeen (faa_entry s) Hj) as H3.
  destruct s; simpl in *; lia.
Qed.

Lemma sw_faa γ rw P j :
  {{{ is_sw γ rw P ∗ sw_entry γ j SrSeen }}} ck_pr_faa u32 (SwLock.value rw) 1
  {{{ l, RET l; sw_counted γ P (Z.land l SwLock.CK_SWLOCK_WRITER_MASK) }}}.
Proof.
  iIntros (Φ) "[[#Hinv %Hn] Hj] HΦ". open_sw M s k Hok. iDestruct (table_lookup with "Ht Hj") as %Hj.
  iMod (table_set _ _ _ _ _ _ (faa_entry s) with "Ht Hj") as "[Ht Hj]". iDestruct (table_bound with "Ht") as %Hb.
  pose proof (sw_ok_faa s M k j Hj Hok) as Hok'. pose proof (sw_ok_size _ _ _ Hok') as Hk.
  pose proof (sw_bits_range s) as Hbits.
  iSpecialize ("HΦ" $! (swlock_word (sw_bits s) k)). rewrite swlock_writer; [|lia..].
  wp_rmw "Hv". rewrite swlock_more; [|lia..].
  destruct s; simpl in *.
  - iDestruct (pool_take in_lock _ M j SrSeen SrInside with "Hc") as "[HP Hc]"; [done..| |].
    { by rewrite map_size_insert_Some in Hb. }
    iModIntro. iSplitR "HΦ Hj HP"; [iExists (<[j := SrInside]> M), SwFree, (S k); by iFrame|].
    iApply "HΦ". iLeft. iFrame. done.
  - iModIntro. iSplitR "HΦ Hj".
    { iExists (<[j := SrTrying]> M), SwDrain, (S k). iFrame. iSplitL; [|done].
      rewrite /= (pool_same in_lock _ M (<[j := SrTrying]> M)) //. symmetry. by eapply census_keep. }
    iApply "HΦ". iRight. iLeft. iFrame. done.
  - iModIntro. iSplitR "HΦ Hj"; [iExists (<[j := SrTrying]> M), SwIn, (S k); by iFrame|].
    iApply "HΦ". iRight. iLeft. iFrame. done.
  - iModIntro. iSplitR "HΦ Hj"; [iExists (<[j := SrLeaked]> M), SwLatched, (S k); by iFrame|].
    iApply "HΦ". iRight. iRight. iSplit; [done|]. iRight. by iExists j.
Qed.

Lemma sw_ok_leave s M k j v :
  M !! j = Some v -> counted v = true -> sw_ok s M k ->
  s <> SwLatched /\ (in_lock v = true -> s <> SwIn) /\ ∃ k', k = S k' /\ sw_ok s (delete j M) k'.
Proof.
  intros Hj Hv Hok. pose proof (census_delete counted M j v Hj) as H1. rewrite Hv in H1.
  pose proof (census_delete in_lock M j v Hj) as H2.
  destruct s; simpl in *; split_and!; try done; try (intros Hi; rewrite Hi in H2; lia);
    try (exists (pred k); split; [lia|]); try lia.
Qed.

Lemma sw_dec γ rw P j v :
  counted v = true ->
  {{{ is_sw γ rw P ∗ sw_entry γ j v ∗ if in_lock v then P else True }}} ck_pr_dec u32 (SwLock.value rw)
  {{{ RET tt; sw_out γ }}}.
Proof.
  iIntros (Hv Φ) "([#Hinv %Hn] & Hj & HP) HΦ". open_sw M s k Hok.
  iDestruct (table_lookup with "Ht Hj") as %Hj. iDestruct (table_bound with "Ht") as %Hb.
  destruct (sw_ok_leave s M k j v Hj Hv Hok) as (Hl & Hi & k' & -> & Hok').
  pose proof (sw_ok_size _ _ _ Hok) as Hk. pose proof (sw_bits_range s) as Hbits.
  iMod (table_leave with "Ht Hj") as "[Ht Hl]". wp_rmw "Hv". rewrite swlock_less; [|lia..]. iModIntro.
  iSplitR "HΦ Hl"; [|iApply "HΦ"; by iLeft]. iExists (delete j M), s, k'. iFrame. iSplitL; [|done].
  destruct (in_lock v) eqn:Hin.
  - destruct s; simpl; [..|done|done]; by iApply (pool_put in_lock _ M j v with "HP Hc").
  - destruct s; simpl; [..|done|done];
      rewrite (pool_same in_lock _ M (delete j M)) //; symmetry; by eapply census_leave.
Qed.

Lemma wp_swlock_read_lock γ rw P :
  {{{ is_sw γ rw P ∗ sw_out γ }}} SwLock.ck_swlock_read_lock rw
  {{{ RET tt; (∃ j, sw_entry γ j SrInside) ∗ P }}}.
Proof.
  iIntros (Φ) "[#Hlk Ho] HΦ". rewrite /SwLock.ck_swlock_read_lock. wp_focus.
  iApply (wp_loop_inv (λ _ : unit, sw_out γ ∗ ▷ ((∃ j, sw_entry γ j SrInside) ∗ P -∗ Φ tt))%I with "[$Ho $HΦ]").
  iIntros "!>" (_) "[Ho HΦ]". wp_focus.
  iApply (wp_while_inv (sw_out γ ∗ ▷ ((∃ j, sw_entry γ j SrInside) ∗ P -∗ Φ tt)) with "[$Ho $HΦ]").
  iIntros "!> [Ho HΦ]". wp_focus. iApply (sw_look with "[$Hlk $Ho]"). iIntros "!>" (v) "H". wp_pures.
  destruct (truthy _); [wp_pures; iFrame|]. iDestruct "H" as (j) "Hj". wp_pures.
  iApply (sw_faa with "[$Hlk $Hj]"). iIntros "!>" (l) "[(-> & Hj & HP)|[(-> & %j' & Hj)|(-> & Ho)]]".
  - change (0 =? 0) with true. wp_pures. iApply "HΦ". iFrame.
  - change (SwLock.CK_SWLOCK_WRITER_BIT =? 0) with false. rewrite Z.eqb_refl. wp_pures.
    iApply (sw_dec with "[$Hlk $Hj]"); [done|]. iIntros "!> Ho". wp_pures. iFrame.
  - change (SwLock.CK_SWLOCK_WRITER_MASK =? 0) with false.
    change (SwLock.CK_SWLOCK_WRITER_MASK =? SwLock.CK_SWLOCK_WRITER_BIT) with false. wp_pures. iFrame.
Qed.

Lemma wp_swlock_read_trylock γ rw P :
  {{{ is_sw γ rw P ∗ sw_out γ }}} SwLock.ck_swlock_read_trylock rw
  {{{ (b : bool), RET b; if b then (∃ j, sw_entry γ j SrInside) ∗ P else sw_out γ }}}.
Proof.
  iIntros (Φ) "[#Hlk Ho] HΦ". rewrite /SwLock.ck_swlock_read_trylock. wp_focus.
  iApply (sw_look with "[$Hlk $Ho]"). iIntros "!>" (v) "H".
  destruct (truthy _); [wp_pures; by iApply ("HΦ" $! false)|]. iDestruct "H" as (j) "Hj". wp_focus.
  iApply (sw_faa with "[$Hlk $Hj]"). iIntros "!>" (l) "[(-> & Hj & HP)|[(-> & %j' & Hj)|(-> & Ho)]]".
  - change (0 =? 0) with true. change (0 =? SwLock.CK_SWLOCK_WRITER_BIT) with false. wp_pures. iApply ("HΦ" $! true). iFrame.
  - change (SwLock.CK_SWLOCK_WRITER_BIT =? 0) with false. rewrite Z.eqb_refl. wp_pures. iApply (sw_dec with "[$Hlk $Hj]"); [done|]. iIntros "!> Ho". wp_pures. by iApply ("HΦ" $! false).
  - change (SwLock.CK_SWLOCK_WRITER_MASK =? 0) with false.
    change (SwLock.CK_SWLOCK_WRITER_MASK =? SwLock.CK_SWLOCK_WRITER_BIT) with false. wp_pures. by iApply ("HΦ" $! false).
Qed.

Lemma wp_swlock_read_unlock γ rw P :
  {{{ is_sw γ rw P ∗ (∃ j, sw_entry γ j SrInside) ∗ P }}} SwLock.ck_swlock_read_unlock rw
  {{{ RET tt; sw_out γ }}}.
Proof.
  iIntros (Φ) "(#Hlk & [%j Hj] & HP) HΦ". rewrite /SwLock.ck_swlock_read_unlock. wp_pures.
  by iApply (sw_dec _ _ P with "[$Hlk $Hj $HP]").
Qed.

(** ** The writer *)

Lemma sw_announce γ rw P :
  {{{ is_sw γ rw P ∗ sw_is γ SwFree }}} ck_pr_or (SwLock.value rw) SwLock.CK_SWLOCK_WRITER_BIT
  {{{ RET tt; sw_is γ SwDrain }}}.
Proof.
  iIntros (Φ) "[[#Hinv %Hn] Hi] HΦ". open_sw M s k Hok. iDestruct (ghost_var_agree with "Hi Hs") as %<-.
  iDestruct (table_bound with "Ht") as %Hb. pose proof (sw_ok_size _ _ _ Hok) as Hk.
  iMod (ghost_var_update_halves SwDrain with "Hi Hs") as "[Hi Hs]". wp_rmw "Hv".
  rewrite swlock_set; [|lia]. iModIntro. iSplitR "HΦ Hi"; [|by iApply "HΦ"]. iExists M, SwDrain, k. by iFrame.
Qed.

(** Without readers in the word, the writer may go in. *)
Lemma sw_drained γ rw P :
  {{{ is_sw γ rw P ∗ sw_is γ SwDrain }}} ck_pr_load (SwLock.value rw)
  {{{ v, RET v; if truthy (Z.land v SwLock.CK_SWLOCK_READER_MASK) then sw_is γ SwDrain
                else sw_is γ SwIn ∗ copies (sw_n γ) P }}}.
Proof.
  iIntros (Φ) "[[#Hinv %Hn] Hi] HΦ". open_sw M s k Hok. iDestruct (ghost_var_agree with "Hi Hs") as %<-.
  iDestruct (table_bound with "Ht") as %Hb. pose proof (sw_ok_size _ _ _ Hok) as Hk. pose proof (in_counted M).
  iSpecialize ("HΦ" $! (swlock_word 2 k)). rewrite swlock_reader; [|lia..]. destruct k as [|k].
  - assert (census in_lock M = 0)%nat as Hz by (simpl in Hok; lia).
    iMod (ghost_var_update_halves SwIn with "Hi Hs") as "[Hi Hs]". wp_load "Hv".
    iEval (rewrite /= pool_all //) in "Hc". iModIntro. iSplitR "HΦ Hi Hc"; [|iApply "HΦ"; iFrame].
    iExists M, SwIn, 0%nat. by iFrame.
  - wp_load "Hv". iModIntro. iSplitR "HΦ Hi"; [iExists M, SwDrain, (S k); by iFrame|]. by iApply "HΦ".
Qed.

Lemma sw_poll γ rw P : {{{ is_sw γ rw P }}} ck_pr_load (SwLock.value rw) {{{ v, RET v; True }}}.
Proof.
  iIntros (Φ) "[#Hinv _] HΦ". open_sw M s k Hok. wp_load "Hv". iModIntro.
  iSplitR "HΦ"; [|by iApply "HΦ"]. iExists M, s, k. by iFrame.
Qed.

Lemma sw_latch γ rw P :
  {{{ is_sw γ rw P ∗ sw_is γ SwDrain }}}
    ck_pr_cas (SwLock.value rw) SwLock.CK_SWLOCK_WRITER_BIT SwLock.CK_SWLOCK_WRITER_MASK
  {{{ (b : bool), RET b; if b then sw_is γ SwLatched ∗ copies (sw_n γ) P else sw_is γ SwDrain }}}.
Proof.
  iIntros (Φ) "[[#Hinv %Hn] Hi] HΦ". open_sw M s k Hok. iDestruct (ghost_var_agree with "Hi Hs") as %<-.
  pose proof (in_counted M). simpl in Hok. destruct k as [|k].
  - assert (census in_lock M = 0)%nat as Hz by lia.
    iMod (ghost_var_update_halves SwLatched with "Hi Hs") as "[Hi Hs]". wp_cas "Hv".
    iEval (rewrite /= pool_all //) in "Hc". iModIntro. iSplitR "HΦ Hi Hc"; [|iApply ("HΦ" $! true); iFrame].
    iExists M, SwLatched, 0%nat. iFrame. iPureIntro. split; [done|simpl; lia].
  - wp_cas "Hv". assert ((swlock_word 2 (S k) =? SwLock.CK_SWLOCK_WRITER_BIT) = false) as Hne.
    { apply Z.eqb_neq. unfold swlock_word, SwLock.CK_SWLOCK_WRITER_BIT. lia. }
    cbn [sw_bits]. rewrite Hne. iModIntro. iSplitR "HΦ Hi"; [iExists M, SwDrain, (S k); by iFrame|].
    by iApply ("HΦ" $! false).
Qed.

Lemma sw_try γ rw P :
  {{{ is_sw γ rw P ∗ sw_is γ SwFree }}} ck_pr_cas (SwLock.value rw) 0 SwLock.CK_SWLOCK_WRITER_BIT
  {{{ (b : bool), RET b; if b then sw_is γ SwIn ∗ copies (sw_n γ) P else sw_is γ SwFree }}}.
Proof.
  iIntros (Φ) "[[#Hinv %Hn] Hi] HΦ". open_sw M s k Hok. iDestruct (ghost_var_agree with "Hi Hs") as %<-.
  pose proof (in_counted M). simpl in Hok. destruct k as [|k].
  - assert (census in_lock M = 0)%nat as Hz by lia.
    iMod (ghost_var_update_halves SwIn with "Hi Hs") as "[Hi Hs]". wp_cas "Hv".
    iEval (rewrite /= pool_all //) in "Hc". iModIntro. iSplitR "HΦ Hi Hc"; [|iApply ("HΦ" $! true); iFrame].
    iExists M, SwIn, 0%nat. by iFrame.
  - wp_cas "Hv". iModIntro. iSplitR "HΦ Hi"; [iExists M, SwFree, (S k); by iFrame|].
    by iApply ("HΦ" $! false).
Qed.

Lemma sw_exit γ rw P :
  {{{ is_sw γ rw P ∗ sw_is γ SwIn ∗ copies (sw_n γ) P }}}
    ck_pr_and (SwLock.value rw) SwLock.CK_SWLOCK_READER_MASK
  {{{ RET tt; sw_is γ SwFree }}}.
Proof.
  iIntros (Φ) "([#Hinv %Hn] & Hi & HP) HΦ". open_sw M s k Hok. iDestruct (ghost_var_agree with "Hi Hs") as %<-.
  iDestruct (table_bound with "Ht") as %Hb. pose proof (sw_ok_size _ _ _ Hok) as Hk. destruct Hok as [Hok Hz].
  iMod (ghost_var_update_halves SwFree with "Hi Hs") as "[Hi Hs]". wp_rmw "Hv".
  rewrite swlock_reader; [|simpl; lia|lia]. iModIntro. iSplitR "HΦ Hi"; [|by iApply "HΦ"].
  iExists M, SwFree, k. iFrame. rewrite /= pool_all //. by iFrame.
Qed.

(** The count that readers left behind is wiped out with the latch. *)
Lemma sw_unlatch γ rw P :
  {{{ is_sw γ rw P ∗ sw_is γ SwLatched ∗ copies (sw_n γ) P }}} ck_pr_store (SwLock.value rw) 0
  {{{ RET tt; sw_is γ SwFree }}}.
Proof.
  iIntros (Φ) "([#Hinv %Hn] & Hi & HP) HΦ". open_sw M s k Hok. iDestruct (ghost_var_agree with "Hi Hs") as %<-.
  destruct Hok as [Hz _]. pose proof (in_counted M).
  iMod (ghost_var_update_halves SwFree with "Hi Hs") as "[Hi Hs]". wp_store "Hv".
  iModIntro. iSplitR "HΦ Hi"; [|by iApply "HΦ"]. iExists M, SwFree, 0%nat. iFrame.
  rewrite /= pool_all; [|lia]. by iFrame.
Qed.

(** Downgrading: the writer counts itself in before it clears its bit. *)
Lemma sw_count_self γ rw P :
  {{{ is_sw γ rw P ∗ sw_is γ SwIn ∗ sw_out γ }}} ck_pr_inc u32 (SwLock.value rw)
  {{{ j, RET tt; sw_is γ SwIn ∗ sw_entry γ j SrTrying }}}.
Proof.
  iIntros (Φ) "([#Hinv %Hn] & Hi & Ho) HΦ". open_sw M s k Hok. iDestruct (ghost_var_agree with "Hi Hs") as %<-.
  iMod (sw_turn γ M SrSeen with "Ht Ho") as (j M') "(Ht & Hj & %Hj & %Hin & %Hco)"; [done..|].
  assert (sw_ok SwIn M' k) as Hok1 by (simpl in *; lia).
  pose proof (sw_ok_faa SwIn M' k j Hj Hok1) as Hok'.
  iMod (table_set _ _ _ _ _ _ SrTrying with "Ht Hj") as "[Ht Hj]". iDestruct (table_bound with "Ht") as %Hb.
  pose proof (sw_ok_size _ _ _ Hok') as Hk. simpl in Hk.
  wp_rmw "Hv". rewrite swlock_more; [|simpl; lia..]. iModIntro. iSplitR "HΦ Hi Hj"; [|iApply "HΦ"; iFrame].
  iExists (<[j := SrTrying]> M'), SwIn, (S k). by iFrame.
Qed.

Lemma sw_exit_reading γ rw P j :
  {{{ is_sw γ rw P ∗ sw_is γ SwIn ∗ copies (sw_n γ) P ∗ sw_entry γ j SrTrying }}}
    ck_pr_and (SwLock.value rw) SwLock.CK_SWLOCK_READER_MASK
  {{{ RET tt; sw_is γ SwFree ∗ sw_entry γ j SrInside ∗ P }}}.
Proof.
  iIntros (Φ) "([#Hinv %Hn] & Hi & HP & Hj) HΦ". open_sw M s k Hok.
  iDestruct (ghost_var_agree with "Hi Hs") as %<-. iDestruct (table_lookup with "Ht Hj") as %Hj.
  iDestruct (table_bound with "Ht") as %Hb. pose proof (sw_ok_size _ _ _ Hok) as Hk. destruct Hok as [Hok Hz].
  iMod (table_set _ _ _ _ _ _ SrInside with "Ht Hj") as "[Ht Hj]".
  iMod (ghost_var_update_halves SwFree with "Hi Hs") as "[Hi Hs]". wp_rmw "Hv".
  rewrite swlock_reader; [|simpl; lia|lia].
  iEval (rewrite -(pool_all in_lock _ M) //) in "HP".
  iDestruct (pool_take in_lock _ M j SrTrying SrInside with "HP") as "[HP Hp]"; [done..|].
  iModIntro. iSplitR "HΦ Hi Hj HP"; [|iApply "HΦ"; iFrame].
  iExists (<[j := SrInside]> M), SwFree, k. iFrame. iPureIntro. simpl.
  pose proof (census_update counted M j SrTrying SrInside Hj) as H1. simpl in H1. lia.
Qed.

Lemma wp_swlock_write_lock γ rw P :
  {{{ is_sw γ rw P ∗ sw_is γ SwFree }}} SwLock.ck_swlock_write_lock rw
  {{{ RET tt; sw_is γ SwIn ∗ copies (sw_n γ) P }}}.
Proof.
  iIntros (Φ) "[#Hlk Hi] HΦ". rewrite /SwLock.ck_swlock_write_lock. wp_focus.
  iApply (sw_announce with "[$Hlk $Hi]"). iIntros "!> Hi". wp_focus.
  iApply (wp_while_inv (sw_is γ SwDrain ∗ ▷ (sw_is γ SwIn ∗ copies (sw_n γ) P -∗ Φ tt)) with "[$Hi $HΦ]").
  iIntros "!> [Hi HΦ]". wp_focus. iApply (sw_drained with "[$Hlk $Hi]"). iIntros "!>" (v) "H". wp_pures.
  destruct (truthy _); wp_pures; [iFrame|]. by iApply "HΦ".
Qed.

Lemma wp_swlock_write_latch γ rw P :
  {{{ is_sw γ rw P ∗ sw_is γ SwFree }}} SwLock.ck_swlock_write_latch rw
  {{{ RET tt; sw_is γ SwLatched ∗ copies (sw_n γ) P }}}.
Proof.
  iIntros (Φ) "[#Hlk Hi] HΦ". rewrite /SwLock.ck_swlock_write_latch. wp_focus.
  iApply (sw_announce with "[$Hlk $Hi]"). iIntros "!> Hi". wp_focus.
  iApply (wp_while_inv (sw_is γ SwDrain ∗ ▷ (sw_is γ SwLatched ∗ copies (sw_n γ) P -∗ Φ tt)) with "[$Hi $HΦ]").
  iIntros "!> [Hi HΦ]". wp_focus. iApply (sw_latch with "[$Hlk $Hi]"). iIntros "!>" ([]) "H"; wp_pures.
  - by iApply "HΦ".
  - rewrite /do_while. wp_focus.
    iApply (wp_loop_inv (λ _ : unit, sw_is γ SwDrain ∗ ▷ (sw_is γ SwLatched ∗ copies (sw_n γ) P -∗ Φ tt))%I
      with "[$H $HΦ]").
    iIntros "!>" (_) "[Hi HΦ]". wp_pures. iApply (sw_poll with "Hlk"). iIntros "!>" (v) "_". wp_pures.
    destruct (negb _); wp_pures; iFrame.
Qed.

(** The thread that may write. *)
Definition sw_right γ (w : bool) (s : sw_state) : iProp Σ := (if w then sw_is γ s else True)%I.

Lemma sw_rights γ (ctxs : list (Z * bool)) :
  (length (filter (fun c : Z * bool => c.2 = true) ctxs) <= 1)%nat ->
  sw_is γ SwFree -∗ [∗ list] c ∈ ctxs, sw_right γ c.2 SwFree.
Proof.
  iIntros (Hle) "Hi". iInduction ctxs as [|[c w] ctxs] "IH" forall (Hle); [done|].
  destruct w.
  - rewrite filter_cons_True // in Hle. simpl in Hle. iFrame "Hi".
    assert (filter (fun c : Z * bool => c.2 = true) ctxs = []) as Hnil by (apply nil_length_inv; lia).
    iApply big_sepL_intro. iIntros "!>" (i [x w] Hx). destruct w; [|done].
    exfalso. apply list_elem_of_lookup_2 in Hx.
    assert ((x, true) ∈ filter (fun c : Z * bool => c.2 = true) ctxs) as Hin by by apply list_elem_of_filter.
    rewrite Hnil in Hin. by apply elem_of_nil in Hin.
  - rewrite filter_cons_False // in Hle. iSplitR; [done|]. by iApply "IH".
Qed.

Lemma sw_alloc rw (ctxs : list (Z * bool)) m P E :
  SwLock.init rw ctxs m ->
  ([∗ map] l ↦ v ∈ m, l ↦ v) -∗ copies (length ctxs) P ={E}=∗
  ∃ γ, ⌜sw_n γ = length ctxs⌝ ∗ is_sw γ rw P ∗ [∗ list] c ∈ ctxs, sw_out γ ∗ sw_right γ c.2 SwFree.
Proof.
  iIntros ((-> & Hn & Hw)) "Hm HP". iDestruct (zeros_own with "Hm") as "(Hv & _)"; [apply NoDup_singleton|].
  iMod (table_alloc (V:=sw_reader) (length ctxs)) as (γm γp) "[Ht Hl]".
  iMod (ghost_var_alloc SwFree) as (γs) "[Hs Hs']". set (γ := SwName γm γp γs (length ctxs)). iExists γ.
  iMod (inv_alloc swN _ (sw_inv γ rw P) with "[Hv Ht Hs HP]") as "#Hinv".
  { iExists ∅, SwFree, 0%nat. iFrame. rewrite /= pool_all //. by iFrame. }
  iModIntro. iSplit; [done|]. iFrame "Hinv". iSplit; [done|].
  iDestruct (leases_list with "Hl") as "Hl". iDestruct (sw_rights γ ctxs Hw with "Hs'") as "Hr".
  iCombine "Hl Hr" as "H". rewrite -big_sepL_sep. iApply (big_sepL_impl with "H").
  iIntros "!>" (i c _) "[Hl $]". by iLeft.
Qed.

#[global] Instance swlock_spec latch : RwSpec (SwLock.lock latch) SwLock.init.
Proof.
  refine (Build_RwSpec _ _ _ _ sw_name sw_n is_sw
            (λ γ _ w, sw_out γ ∗ sw_right γ w SwFree)%I (λ γ _ w, sw_out γ ∗ sw_right γ w SwFree)%I
            (λ γ _ w, (∃ j, sw_entry γ j SrInside) ∗ sw_right γ w SwFree)%I
            (λ γ _, sw_out γ ∗ sw_is γ (if latch then SwLatched else SwIn))%I
            _ sw_alloc _ _ _ _ _ _ _ _ _).
  - iIntros (γ rw P c w Φ) "[_ Hc] HΦ". rewrite /= /no_registration. wp_pures. by iApply "HΦ".
  - iIntros (γ rw P c w Φ) "_ HΦ". rewrite /= /no_registration. by wp_pures.
  - iIntros (γ rw P c w Φ) "(#Hlk & Ho & Hr) HΦ".
    iApply (wp_swlock_read_lock with "[$Hlk $Ho]"). iIntros "!> [Hj HP]". iApply "HΦ". iFrame.
  - iIntros (γ rw P c w Φ) "(#Hlk & [Hj Hr] & HP) HΦ".
    iApply (wp_swlock_read_unlock with "[$Hlk $Hj $HP]"). iIntros "!> Ho". iApply "HΦ". iFrame.
  - iIntros (γ rw P c Φ) "(#Hlk & Ho & Hi) HΦ". destruct latch; simpl.
    + iApply (wp_swlock_write_latch with "[$Hlk $Hi]"). iIntros "!> [Hi HP]". iApply "HΦ". iFrame.
    + iApply (wp_swlock_write_lock with "[$Hlk $Hi]"). iIntros "!> [Hi HP]". iApply "HΦ". iFrame.
  - iIntros (γ rw P c Φ) "(#Hlk & [Ho Hi] & HP) HΦ". destruct latch; simpl.
    + rewrite /SwLock.ck_swlock_write_unlatch. wp_pures.
      iApply (sw_unlatch with "[$Hlk $Hi $HP]"). iIntros "!> Hi". iApply "HΦ". iFrame.
    + rewrite /SwLock.ck_swlock_write_unlock. wp_pures.
      iApply (sw_exit with "[$Hlk $Hi $HP]"). iIntros "!> Hi". iApply "HΦ". iFrame.
  - iIntros (try γ rw P c w [= <-] Φ) "(#Hlk & Ho & Hr) HΦ".
    iApply (wp_swlock_read_trylock with "[$Hlk $Ho]"). iIntros "!>" (b) "H". iApply "HΦ".
    destruct b; [iDestruct "H" as "[$ $]"|]; by iFrame.
  - intros try γ rw P c Htry. destruct latch; [done|]. injection Htry as <-.
    iIntros (Φ) "(#Hlk & Ho & Hi) HΦ". rewrite /SwLock.ck_swlock_write_trylock. wp_focus.
    iApply (sw_try with "[$Hlk $Hi]"). iIntros "!>" (b) "H". wp_pures. iApply "HΦ".
    destruct b; [iDestruct "H" as "[$ $]"|]; by iFrame.
  - intros down γ rw P c Hdown. destruct latch; [done|]. injection Hdown as <-.
    iIntros (Φ) "(#Hlk & [Ho Hi] & HP) HΦ".
    rewrite /SwLock.ck_swlock_write_downgrade /SwLock.ck_swlock_write_unlock. wp_focus.
    iApply (sw_count_self with "[$Hlk $Hi $Ho]"). iIntros "!>" (j) "[Hi Hj]". wp_pures.
    iApply (sw_exit_reading with "[$Hlk $Hi $HP $Hj]"). iIntros "!> (Hi & Hj & HP)". iApply "HΦ". iFrame.
Defined.
End swlock.

(** * Theorem *)

Definition swlockΣ : gFunctors := #[rwClientΣ; swΣ].

Lemma swlock_init_returns rw m :
  has_cells (SwLock.cells rw) m -> returns (SwLock.ck_swlock_init rw) m tt (zeros (SwLock.cells rw)).
Proof. apply (store_zeros_returns (SwLock.cells rw)). Qed.

Lemma rw_ctxs_writers ts :
  length (filter (fun c : Z * bool => c.2 = true) (rw_ctxs ts)) = length (filter (fun t => th_may_write t = true) ts).
Proof.
  induction ts as [|[c w ops] ts IH]; [done|]. unfold rw_ctxs in *. cbn [map th_ctx th_may_write]. destruct w.
  - rewrite !filter_cons_True //. simpl. by rewrite IH.
  - by rewrite !filter_cons_False.
Qed.

(** C13. The single-writer lock [ck_swlock], initialised over any memory, written under the
    lock (with attempts and downgrading) or under the latch, for fewer than 2^30
    threads, one of which writes, under every scheduler: no step faults; while the
    writer is in its critical section no reader is in one; every reader sees what
    complete writes left; and no write is lost.  Readers that come while the latch is
    set leave counts in the word that nobody takes back, and still no reader is
    counted wrongly after the latch. *)
Theorem swlock_exclusion latch rw d ts m m' ps σ :
  has_cells (SwLock.cells rw) m -> returns (SwLock.ck_swlock_init rw) m tt m' ->
  Z.of_nat (length ts) < 1073741824 -> (length (filter (fun t => th_may_write t = true) ts) <= 1)%nat ->
  rw_words_ok d m' -> Forall rw_thread_ok ts ->
  rtc sys_step (rw_config (SwLock.lock latch) rw d ts m') (ps, σ) ->
  rw_ok (SwLock.lock latch) d ts ps σ /\ (∀ p, p ∈ ps -> safe p σ).
Proof.
  intros Hcells Hinit Hn Hone Hd Hts Hsteps.
  destruct (returns_det _ _ _ _ _ _ Hinit (swlock_init_returns rw m Hcells)) as [_ ->].
  eapply (rw_lock_exclusion swlockΣ _ SwLock.init); [apply _| |done..|exact Hsteps].
  split; [done|]. rewrite length_map. split; [done|]. by rewrite rw_ctxs_writers.
Qed.

(** One writer, three readers. *)
Definition swlock_demo_threads : list rw_thread :=
  [RwThread 1 true [RwWrite; RwDowngrade; RwTryWrite]; RwThread 2 false [RwRead; RwTryRead];
   RwThread 3 false [RwTryRead; RwRead]; RwThread 4 false [RwRead]].
Definition swlock_demo (latch : bool) : config (nat * bool) :=
  round_robin 300 (rw_config (SwLock.lock latch) 1 rw_demo_words swlock_demo_threads (zeros (SwLock.cells 1))).

Lemma swlock_exclusion_witness :
  rw_ok (SwLock.lock true) rw_demo_words swlock_demo_threads (swlock_demo true).1 (swlock_demo true).2 /\
  rw_ok (SwLock.lock false) rw_demo_words swlock_demo_threads (swlock_demo false).1 (swlock_demo false).2 /\
  (∀ latch, forallb is_ret (swlock_demo latch).1 = true) /\
  (swlock_demo true).2 !! 12 = Some 1 /\ (swlock_demo false).2 !! 12 = Some 2.
Proof.
  assert (has_cells (SwLock.cells 1) {[1 := 5]}) as Hcells.
  { split; [apply NoDup_singleton|]. apply (bool_decide_unpack _). vm_compute. exact I. }
  assert (Forall rw_thread_ok swlock_demo_threads) as Hts.
  { by apply rw_threads_ok_compute. }
  assert (rw_words_ok rw_demo_words (zeros (SwLock.cells 1))) as Hd.
  { apply rw_demo_words_ok; vm_compute; reflexivity. }
  destruct (swlock_exclusion true 1 rw_demo_words swlock_demo_threads {[1 := 5]} (zeros (SwLock.cells 1))
    (swlock_demo true).1 (swlock_demo true).2) as [H1 _].
  1: exact Hcells. 1: by apply swlock_init_returns. 1: simpl; lia. 1: simpl; lia. 1: exact Hd. 1: exact Hts.
  1: unfold swlock_demo; apply round_robin_pair.
  destruct (swlock_exclusion false 1 rw_demo_words swlock_demo_threads {[1 := 5]} (zeros (SwLock.cells 1))
    (swlock_demo false).1 (swlock_demo false).2) as [H2 _].
  1: exact Hcells. 1: by apply swlock_init_returns. 1: simpl; lia. 1: simpl; lia. 1: exact Hd. 1: exact Hts.
  1: unfold swlock_demo; apply round_robin_pair.
  split; [exact H1|]. split; [exact H2|]. split; [intros []|split]; vm_compute; reflexivity.
Defined.
