(* ===== verification/SpinTas.v ===== *)
(** The test-and-set spinlocks [ck_spinlock_cas] and [ck_spinlock_fas] and the
    back-off they share. *)

From S2P Require Export Lock.
Set Warnings "-rewrite-rw".

(** * ck_backoff *)

Definition CK_BACKOFF_CEILING : Z := Z.shiftl 1 20 - 1.
Definition CK_BACKOFF_INITIALIZER : Z := Z.shiftl 1 9.

(** The counter is passed by address in the source; here it is an argument and
    the result. *)
Definition ck_backoff_eb (c : Z) : prog Z :=
  for_ 0 c (fun _ => ck_pr_barrier) ;;
  Ret (u32 (Z.shiftl c (b2z (c <? CK_BACKOFF_CEILING)))).

(** [while (c) ck_backoff_eb(&backoff)] *)
Definition while_eb (c : prog bool) (backoff : Z) : prog Z :=
  Iter (fun backoff => b <- c ;; if b : bool then b' <- ck_backoff_eb backoff ;; continue b'
                                 else break backoff) backoff.

(** * ck_spinlock_cas *)

Definition ck_spinlock_cas_init (lock : Z) : prog unit := st lock 0 ;; ck_pr_barrier.

Definition ck_spinlock_cas_trylock (lock : Z) : prog bool :=
  value <- ck_pr_fas lock 1 ;; ck_pr_fence F_lock ;; Ret (negb (truthy value)).

Definition ck_spinlock_cas_locked (lock : Z) : prog bool :=
  r <- ck_pr_load lock ;; ck_pr_fence F_acquire ;; Ret (truthy r).

Definition ck_spinlock_cas_lock (lock : Z) : prog unit :=
  while (r <- ck_pr_cas lock 0 1 ;; Ret (negb r))
        (while (v <- ck_pr_load lock ;; Ret (v =? 1)) ck_pr_stall) ;;
  ck_pr_fence F_lock.

Definition ck_spinlock_cas_lock_eb (lock : Z) : prog unit :=
  while_eb (r <- ck_pr_cas lock 0 1 ;; Ret (negb r)) CK_BACKOFF_INITIALIZER ;;
  ck_pr_fence F_lock.

Definition ck_spinlock_cas_unlock (lock : Z) : prog unit :=
  ck_pr_fence F_unlock ;; ck_pr_store lock 0.

(** * ck_spinlock_fas *)

Definition ck_spinlock_fas_init (lock : Z) : prog unit := st lock 0 ;; ck_pr_barrier.

Definition ck_spinlock_fas_trylock (lock : Z) : prog bool :=
  value <- ck_pr_fas lock 1 ;; ck_pr_fence F_lock ;; Ret (negb (truthy value)).

Definition ck_spinlock_fas_locked (lock : Z) : prog bool :=
  r <- ck_pr_load lock ;; ck_pr_fence F_acquire ;; Ret (truthy r).

Definition ck_spinlock_fas_lock (lock : Z) : prog unit :=
  while (v <- ck_pr_fas lock 1 ;; Ret (v =? 1))
        (do_while ck_pr_stall (v <- ck_pr_load lock ;; Ret (v =? 1))) ;;
  ck_pr_fence F_lock.

Definition ck_spinlock_fas_lock_eb (lock : Z) : prog unit :=
  while_eb (v <- ck_pr_fas lock 1 ;; Ret (v =? 1)) CK_BACKOFF_INITIALIZER ;;
  ck_pr_fence F_lock.

Definition ck_spinlock_fas_unlock (lock : Z) : prog unit :=
  ck_pr_fence F_unlock ;; ck_pr_store lock 0.

(** The locks as seen by clients: the context is unused. *)
Definition spinlock_cas : lock_code :=
  LockCode (fun lk _ => ck_spinlock_cas_lock lk) (fun lk _ => ck_spinlock_cas_unlock lk).
Definition spinlock_cas_eb : lock_code :=
  LockCode (fun lk _ => ck_spinlock_cas_lock_eb lk) (fun lk _ => ck_spinlock_cas_unlock lk).
Definition spinlock_fas : lock_code :=
  LockCode (fun lk _ => ck_spinlock_fas_lock lk) (fun lk _ => ck_spinlock_fas_unlock lk).
Definition spinlock_fas_eb : lock_code :=
  LockCode (fun lk _ => ck_spinlock_fas_lock_eb lk) (fun lk _ => ck_spinlock_fas_unlock lk).

(** The memory of an initialised lock. *)
Definition tas_init (lk : Z) (ctxs : list Z) (m : mem) : Prop := m = {[lk := 0]}.

(** * Proofs *)

Section backoff.
Context `{!ckGS_gen hlc Σ}.

(** The back-off terminates and returns the next delay. *)
Lemma twp_backoff_eb c :
  0 <= c ->
  ⊢ WP ck_backoff_eb c @ ⊤
    [{ c', ⌜c' = u32 (Z.shiftl c (b2z (c <? CK_BACKOFF_CEILING)))⌝ : iProp Σ }].
Proof.
  iIntros (Hc). rewrite /ck_backoff_eb /for_. wp_focus.
  iApply (twp_loop_inv (λ i : Z, Z.to_nat (c - i)) (λ i : Z, ⌜0 <= i <= c⌝ : iProp Σ)%I).
  { iPureIntro. lia. }
  iIntros "!>" (i) "%Hi". zcase; wp_pures; iPureIntro; [lia|done].
Qed.

Lemma wp_backoff_eb c (Φ : Z -> iProp Σ) :
  (∀ c', Φ c') -∗ WP ck_backoff_eb c {{ Φ }}.
Proof.
  iIntros "HΦ". rewrite /ck_backoff_eb /for_. wp_focus.
  iApply (wp_loop_inv (λ _ : Z, ∀ c', Φ c')%I with "HΦ").
  iIntros "!>" (i) "HΦ". destruct (i <? c); wp_pures; [done|]. iApply "HΦ".
Qed.

(** [while_eb] with an invariant. *)
Lemma wp_while_eb (I : iProp Σ) (c : prog bool) (backoff : Z) (Φ : Z -> iProp Σ) :
  I -∗
  □ (I -∗ WP c {{ b, match b with true => I | false => ∀ x, Φ x end }}) -∗
  WP while_eb c backoff {{ Φ }}.
Proof.
  iIntros "HI #Hc". rewrite /while_eb. iApply (wp_loop_inv (λ _ : Z, I) with "HI").
  iIntros "!>" (x) "HI". iApply wp_bind.
  iApply (wp_wand (Λ:=ck_lang bool) with "(Hc HI)"). iIntros ([]) "H".
  - wp_focus. iApply wp_backoff_eb. iIntros (c'). by wp_pures.
  - wp_pures. iApply "H".
Qed.
End backoff.

(** ** The invariant of a test-and-set lock *)

Definition tasN : namespace := nroot .@ "spinlock_tas".

Section tas.
Context `{!ckGS Σ, !tokenG Σ}.
Implicit Types (γ : gname) (R : iProp Σ).

Definition tas_inv γ (lk : Z) R : iProp Σ :=
  lk ↦ 1 ∨ (lk ↦ 0 ∗ token γ ∗ R).

Definition is_tas γ (lk : Z) R : iProp Σ := inv tasN (tas_inv γ lk R).

Lemma tas_alloc lk ctxs m R E :
  tas_init lk ctxs m ->
  ([∗ map] l ↦ v ∈ m, l ↦ v) -∗ R ={E}=∗ ∃ γ, is_tas γ lk R ∗ [∗ list] c ∈ ctxs, True.
Proof.
  iIntros (->) "Hm HR". rewrite big_sepM_singleton.
  iMod token_alloc as (γ) "Ht". iExists γ.
  iMod (inv_alloc tasN _ (tas_inv γ lk R) with "[Hm HR Ht]") as "$".
  { iRight. by iFrame. }
  iModIntro. by iApply big_sepL_forall; iIntros.
Qed.

(** An atomic exchange takes the lock exactly when it finds it free. *)
Lemma tas_fas γ lk R :
  {{{ is_tas γ lk R }}} ck_pr_fas lk 1
  {{{ v, RET v; ⌜v = 1⌝ ∨ ⌜v = 0⌝ ∗ token γ ∗ R }}}.
Proof.
  iIntros (Φ) "#Hinv HΦ". iInv tasN as "[>Hl|(>Hl & >Ht & HR)]".
  - wp_rmw "Hl". iModIntro. iSplitL "Hl"; [by iLeft|]. iApply "HΦ". by iLeft.
  - wp_rmw "Hl". iModIntro. iSplitL "Hl"; [by iLeft|]. iApply "HΦ". iRight. by iFrame.
Qed.

Lemma tas_cas γ lk R :
  {{{ is_tas γ lk R }}} ck_pr_cas lk 0 1
  {{{ b, RET b; match b with true => token γ ∗ R | false => True end }}}.
Proof.
  iIntros (Φ) "#Hinv HΦ". iInv tasN as "[>Hl|(>Hl & >Ht & HR)]".
  - wp_cas "Hl". iModIntro. iSplitL "Hl"; [by iLeft|]. by iApply ("HΦ" $! false).
  - wp_cas "Hl". iModIntro. iSplitL "Hl"; [by iLeft|]. iApply ("HΦ" $! true). by iFrame.
Qed.

Lemma tas_load γ lk R :
  {{{ is_tas γ lk R }}} ck_pr_load lk {{{ v, RET v; True }}}.
Proof.
  iIntros (Φ) "#Hinv HΦ". iInv tasN as "[>Hl|(>Hl & >Ht & HR)]"; wp_load "Hl"; iModIntro.
  - iSplitL "Hl"; [by iLeft|]. by iApply "HΦ".
  - iSplitR "HΦ"; [iRight; by iFrame|]. by iApply "HΦ".
Qed.

Lemma tas_release γ lk R :
  {{{ is_tas γ lk R ∗ token γ ∗ R }}} ck_pr_fence F_unlock ;; ck_pr_store lk 0 {{{ RET tt; True }}}.
Proof.
  iIntros (Φ) "(#Hinv & Ht & HR) HΦ". wp_pures.
  iInv tasN as "[>Hl|(>Hl & >Ht' & _)]".
  - wp_store "Hl". iModIntro. iSplitL "Hl Ht HR"; [iRight; by iFrame|]. by iApply "HΦ".
  - by iDestruct (token_exclusive with "Ht Ht'") as %[].
Qed.

(** Spinning on plain loads keeps whatever the thread has. *)
Lemma tas_spin γ lk R P :
  is_tas γ lk R -∗ P -∗
  WP while (v <- ck_pr_load lk ;; Ret (v =? 1)) ck_pr_stall {{ _, P }}.
Proof.
  iIntros "#Hinv HP". iApply (wp_while_inv P with "HP"). iIntros "!> HP".
  wp_focus. iApply (tas_load with "Hinv"). iIntros "!>" (v) "_". wp_pures.
  by destruct (v =? 1); wp_pures.
Qed.

Lemma tas_do_spin γ lk R P :
  is_tas γ lk R -∗ P -∗
  WP do_while ck_pr_stall (v <- ck_pr_load lk ;; Ret (v =? 1)) {{ _, P }}.
Proof.
  iIntros "#Hinv HP". rewrite /do_while.
  iApply (wp_loop_inv (λ _ : unit, P) with "HP"). iIntros "!>" (_) "HP". wp_pures.
  iApply (tas_load with "Hinv"). iIntros "!>" (v) "_". wp_pures.
  by destruct (v =? 1); wp_pures.
Qed.

Lemma spinlock_cas_acquire γ lk R :
  {{{ is_tas γ lk R }}} ck_spinlock_cas_lock lk {{{ RET tt; token γ ∗ R }}}.
Proof.
  iIntros (Φ) "#Hinv HΦ". rewrite /ck_spinlock_cas_lock. wp_focus.
  iApply (wp_while_inv (▷ (token γ ∗ R -∗ Φ tt)) with "HΦ"). iIntros "!> HΦ". wp_focus.
  iApply (tas_cas with "Hinv"). iIntros "!>" ([]) "H"; wp_pures.
  - by iApply "HΦ".
  - iApply (tas_spin with "Hinv"). by iNext.
Qed.

Lemma spinlock_cas_eb_acquire γ lk R :
  {{{ is_tas γ lk R }}} ck_spinlock_cas_lock_eb lk {{{ RET tt; token γ ∗ R }}}.
Proof.
  iIntros (Φ) "#Hinv HΦ". rewrite /ck_spinlock_cas_lock_eb. wp_focus.
  iApply (wp_while_eb (▷ (token γ ∗ R -∗ Φ tt)) with "HΦ"). iIntros "!> HΦ". wp_focus.
  iApply (tas_cas with "Hinv"). iIntros "!>" ([]) "H"; wp_pures.
  - iIntros (x). wp_pures. by iApply "HΦ".
  - by iNext.
Qed.

Lemma spinlock_fas_acquire γ lk R :
  {{{ is_tas γ lk R }}} ck_spinlock_fas_lock lk {{{ RET tt; token γ ∗ R }}}.
Proof.
  iIntros (Φ) "#Hinv HΦ". rewrite /ck_spinlock_fas_lock. wp_focus.
  iApply (wp_while_inv (▷ (token γ ∗ R -∗ Φ tt)) with "HΦ"). iIntros "!> HΦ". wp_focus.
  iApply (tas_fas with "Hinv"). iIntros "!>" (v) "[->|[-> H]]"; wp_pures.
  - iApply (tas_do_spin with "Hinv"). by iNext.
  - by iApply "HΦ".
Qed.

Lemma spinlock_fas_eb_acquire γ lk R :
  {{{ is_tas γ lk R }}} ck_spinlock_fas_lock_eb lk {{{ RET tt; token γ ∗ R }}}.
Proof.
  iIntros (Φ) "#Hinv HΦ". rewrite /ck_spinlock_fas_lock_eb. wp_focus.
  iApply (wp_while_eb (▷ (token γ ∗ R -∗ Φ tt)) with "HΦ"). iIntros "!> HΦ". wp_focus.
  iApply (tas_fas with "Hinv"). iIntros "!>" (v) "[->|[-> H]]"; wp_pures.
  - by iNext.
  - iIntros (x). wp_pures. by iApply "HΦ".
Qed.

(** A successful [trylock] is an acquisition. *)
Lemma spinlock_fas_trylock γ lk R :
  {{{ is_tas γ lk R }}} ck_spinlock_fas_trylock lk
  {{{ b, RET b; match b with true => token γ ∗ R | false => True end }}}.
Proof.
  iIntros (Φ) "#Hinv HΦ". rewrite /ck_spinlock_fas_trylock. wp_focus.
  iApply (tas_fas with "Hinv"). iIntros "!>" (v) "[->|[-> H]]"; wp_pures.
  - by iApply ("HΦ" $! false).
  - by iApply ("HΦ" $! true).
Qed.

(** The four locks meet the interface. *)
Local Ltac tas_spec acq :=
  refine (Build_LockSpec _ _ _ _ gname (λ γ lk R, is_tas γ lk R) (λ _ _, True)%I
            (λ γ _, token γ) _ tas_alloc _ _);
  [iIntros (γ lk R c Φ) "[#Hl _]"; by iApply acq
  |iIntros (γ lk R c Φ) "[#Hl H]"; by iApply (tas_release with "[$Hl $H]")].

#[global] Instance spinlock_cas_spec : LockSpec spinlock_cas tas_init.
Proof. tas_spec spinlock_cas_acquire. Defined.
#[global] Instance spinlock_cas_eb_spec : LockSpec spinlock_cas_eb tas_init.
Proof. tas_spec spinlock_cas_eb_acquire. Defined.
#[global] Instance spinlock_fas_spec : LockSpec spinlock_fas tas_init.
Proof. tas_spec spinlock_fas_acquire. Defined.
#[global] Instance spinlock_fas_eb_spec : LockSpec spinlock_fas_eb tas_init.
Proof. tas_spec spinlock_fas_eb_acquire. Defined.
End tas.

(** * Theorems *)

Definition tasΣ : gFunctors := #[ckΣ; ghost_varΣ nat; ghost_varΣ bool; tokenΣ].

Definition tas_locks : list lock_code :=
  [spinlock_cas; spinlock_cas_eb; spinlock_fas; spinlock_fas_eb].

Lemma tas_init_returns lk v : returns (ck_spinlock_cas_init lk) {[lk := v]} tt {[lk := 0]}.
Proof.
  replace {[lk := 0]} with (<[lk := 0]> ({[lk := v]} : mem)) by apply insert_singleton_eq.
  unfold ck_spinlock_cas_init. do 2 sym_step.
Qed.

(** C18. Mutual exclusion of the test-and-set locks, with and without back-off:
    after initialisation of the lock word, whatever it held, any number of
    threads and any interleaving, no thread faults, at most one thread is in
    its critical section, and no increment of the unprotected counter is lost. *)
Theorem tas_mutual_exclusion L lk occ cnt v iters n m ps σ :
  L ∈ tas_locks -> lk <> occ -> lk <> cnt -> occ <> cnt ->
  returns (ck_spinlock_cas_init lk) {[lk := v]} tt m ->
  rtc sys_step (mutex_client_config L lk occ cnt iters (replicate n NULL) m) (ps, σ) ->
  mutex_ok occ cnt iters (replicate n NULL) ps σ /\ (∀ p, p ∈ ps -> safe p σ).
Proof.
  intros HL ??? Hinit Hsteps.
  assert (m = {[lk := 0]}) as Hm.
  { by destruct (returns_det _ _ _ _ _ _ Hinit (tas_init_returns lk v)). }
  rewrite /tas_locks !elem_of_cons in HL.
  destruct HL as [->|[->|[->|[->|[]%elem_of_nil]]]].
  all: eapply (lock_mutual_exclusion tasΣ); [| | | | |exact Hsteps]; [apply _|..|done];
    try exact Hm; rewrite Hm; by rewrite lookup_singleton_ne.
Qed.

(** Two threads, one iteration each, run to completion. *)
Definition tas_demo : config unit :=
  round_robin 60 (mutex_client_config spinlock_fas 1 2 3 1 (replicate 2 NULL) {[1 := 0]}).

Lemma tas_mutual_exclusion_witness :
  mutex_ok 2 3 1 (replicate 2 NULL) tas_demo.1 tas_demo.2 /\
  (∀ p, p ∈ tas_demo.1 -> safe p tas_demo.2) /\
  tas_demo.2 !! 3 = Some 2 /\ Forall (fun p => p = Ret tt) tas_demo.1.
Proof.
  destruct (tas_mutual_exclusion spinlock_fas 1 2 3 77 1 2 {[1 := 0]} tas_demo.1 tas_demo.2)
    as [H1 H2].
  - unfold tas_locks. set_solver.
  - done.
  - done.
  - done.
  - apply tas_init_returns.
  - apply round_robin_pair.
  - split; [exact H1|]. split; [exact H2|]. split; [vm_compute; reflexivity|].
    assert (tas_demo.1 = [Ret tt; Ret tt]) as -> by (vm_compute; reflexivity).
    by repeat constructor.
Defined.
