(* ===== verification/SpinDec.v ===== *)
(** The decrement spinlock [ck_spinlock_dec]: the lock word is 1 when free, and
    every failed attempt decrements it once more; the comment of the source asks
    that this never wraps around to 1, which the proof makes precise. *)

From iris.base_logic.lib Require Export ghost_map mono_nat.
From S2P Require Export SpinTas.
Set Warnings "-rewrite-rw".

(** * ck_spinlock_dec *)

Definition ck_spinlock_dec_init (lock : Z) : prog unit := st lock 1 ;; ck_pr_barrier.

Definition ck_spinlock_dec_trylock (lock : Z) : prog bool :=
  value <- ck_pr_fas lock 0 ;; ck_pr_fence F_lock ;; Ret (value =? 1).

Definition ck_spinlock_dec_locked (lock : Z) : prog bool :=
  v <- ck_pr_load lock ;; ck_pr_fence F_acquire ;; Ret (negb (v =? 1)).

Definition ck_spinlock_dec_lock (lock : Z) : prog unit :=
  Iter (fun _ : unit =>
    r <- ck_pr_dec_zero u32 lock ;;
    if r : bool then break tt
    else while (v <- ck_pr_load lock ;; Ret (negb (v =? 1))) ck_pr_stall ;; continue tt) tt ;;
  ck_pr_fence F_lock.

Definition ck_spinlock_dec_lock_eb (lock : Z) : prog unit :=
  Iter (fun backoff =>
    r <- ck_pr_dec_zero u32 lock ;;
    if r : bool then break tt
    else backoff' <- while_eb (v <- ck_pr_load lock ;; Ret (negb (v =? 1))) backoff ;;
         continue backoff') CK_BACKOFF_INITIALIZER ;;
  ck_pr_fence F_lock.

Definition ck_spinlock_dec_unlock (lock : Z) : prog unit :=
  ck_pr_fence F_unlock ;; ck_pr_store lock 1.

Definition spinlock_dec : lock_code :=
  LockCode (fun lk _ => ck_spinlock_dec_lock lk) (fun lk _ => ck_spinlock_dec_unlock lk).
Definition spinlock_dec_eb : lock_code :=
  LockCode (fun lk _ => ck_spinlock_dec_lock_eb lk) (fun lk _ => ck_spinlock_dec_unlock lk).

(** At most 2^32 - 2 threads use the lock. *)
Definition dec_init (lk : Z) (ctxs : list Z) (m : mem) : Prop :=
  m = {[lk := 1]} /\ Z.of_nat (length ctxs) <= 4294967294.

(** * Ghost state

    Epoch [e] is the number of releases so far.  Thread [i] owns the ghost cell
    [i ↪ x]: [x] is the epoch of its last failed decrement.  In an epoch each
    thread decrements at most once in vain, because it then waits to see 1. *)

Class decG Σ := DecG {
  dec_mapG :: ghost_mapG Σ nat nat;
  dec_epochG :: mono_natG Σ;
  dec_tokenG :: tokenG Σ;
}.
Definition decΣ : gFunctors := #[ghost_mapΣ nat nat; mono_natΣ; tokenΣ].
#[global] Instance subG_decΣ {Σ} : subG decΣ Σ -> decG Σ.
Proof. solve_inG. Qed.

Record dec_name := DecName { dn_map : gname; dn_epoch : gname; dn_token : gname; dn_bound : nat }.

Definition decN : namespace := nroot .@ "spinlock_dec".

(** The threads that failed in epoch [e]. *)
Definition failed (e : nat) (M : gmap nat nat) : nat :=
  size (filter (λ kx, kx.2 = e) M).

Lemma failed_bound e M : (failed e M <= size M)%nat.
Proof. apply map_size_filter. Qed.

Lemma failed_bump e M i x :
  M !! i = Some x -> x <> e -> failed e (<[i := e]> M) = S (failed e M).
Proof.
  intros Hi Hx. unfold failed. rewrite map_filter_insert_True //.
  rewrite map_size_insert_None //. apply map_lookup_filter_None. right.
  intros y Hy. simplify_eq. done.
Qed.

Lemma size_map_seq {A} (l : list A) (k : nat) : size (map_seq k l : gmap nat A) = length l.
Proof.
  revert k. induction l as [|x l IH]; intros k; [done|].
  rewrite map_seq_cons map_size_insert_None; [by rewrite IH|].
  apply lookup_map_seq_None. lia.
Qed.

Section dec.
Context `{!ckGS Σ, !decG Σ}.
Implicit Types (γ : dec_name) (R : iProp Σ).

Definition dec_tok γ : iProp Σ := token (dn_token γ).

Definition dec_state γ (lk : Z) R (e : nat) (M : gmap nat nat) : iProp Σ :=
  lk ↦ 1 ∗ R ∗ dec_tok γ ∗ ⌜∀ i x, M !! i = Some x -> (x < e)%nat⌝ ∨
  (∃ j : nat, lk ↦ u32 (- Z.of_nat j) ∗ ⌜(j <= failed e M)%nat⌝ ∗
              ⌜∀ i x, M !! i = Some x -> (x <= e)%nat⌝).

Definition dec_inv γ lk R : iProp Σ :=
  ∃ (e : nat) (M : gmap nat nat),
    ghost_map_auth (dn_map γ) 1 M ∗ mono_nat_auth_own (dn_epoch γ) 1 e ∗
    ⌜size M = dn_bound γ⌝ ∗ dec_state γ lk R e M.

Definition is_dec γ lk R : iProp Σ :=
  inv decN (dec_inv γ lk R) ∗ ⌜Z.of_nat (dn_bound γ) <= 4294967294⌝.

(** A thread allowed to decrement: it did not fail in the current epoch. *)
Definition dec_ready γ : iProp Σ :=
  ∃ i x : nat, i ↪[dn_map γ] x ∗ mono_nat_lb_own (dn_epoch γ) (S x).

(** A thread that failed and waits to see 1. *)
Definition dec_waiting γ : iProp Σ := ∃ i x : nat, i ↪[dn_map γ] x.

Lemma dec_alloc lk ctxs m R E :
  dec_init lk ctxs m ->
  ([∗ map] l ↦ v ∈ m, l ↦ v) -∗ R ={E}=∗ ∃ γ, is_dec γ lk R ∗ [∗ list] c ∈ ctxs, dec_ready γ.
Proof.
  iIntros ([-> Hlen]) "Hm HR". rewrite big_sepM_singleton.
  set (M := map_seq 0 ((λ _, 0%nat) <$> ctxs) : gmap nat nat).
  iMod (ghost_map_alloc M) as (γm) "[Hauth Hels]".
  iMod (mono_nat_own_alloc 1) as (γe) "[He #Hlb]".
  iMod token_alloc as (γt) "Ht".
  set (γ := DecName γm γe γt (length ctxs)). iExists γ.
  assert (size M = length ctxs) as Hsize.
  { by rewrite /M size_map_seq length_fmap. }
  iMod (inv_alloc decN _ (dec_inv γ lk R) with "[Hm HR Hauth He Ht]") as "$".
  { iExists 1%nat, M. iFrame. iSplit; [done|]. iLeft. iFrame. iPureIntro.
    intros i x Hi. rewrite /M lookup_map_seq_0 list_lookup_fmap in Hi.
    destruct (ctxs !! i); simplify_eq/=. lia. }
  iModIntro. iSplit; [done|]. rewrite /M big_sepM_map_seq big_sepL_fmap.
  iApply (big_sepL_impl with "Hels"). iIntros "!>" (i c Hi) "H". iExists (0 + i)%nat, 0%nat.
  by iFrame.
Qed.

(** A decrement either takes the lock or leaves the thread waiting. *)
Lemma dec_attempt γ lk R :
  {{{ is_dec γ lk R ∗ dec_ready γ }}} ck_pr_dec_zero u32 lk
  {{{ b, RET b; match b with
                | true => dec_tok γ ∗ R ∗ dec_ready γ
                | false => dec_waiting γ
                end }}}.
Proof.
  iIntros (Φ) "([#Hinv %Hb] & (%i & %x & Hi & #Hlb)) HΦ".
  iInv decN as (e M) "(>HM & >He & >%Hsize & [(>Hl & HR & >Ht & >%Hlt)|Hheld])".
  - wp_rmw "Hl". iModIntro. iSplitL "HM He Hl".
    { iExists e, M. iFrame. iSplit; [done|]. iRight. iExists 0%nat. iFrame.
      iPureIntro. split; [lia|]. intros j y Hj. specialize (Hlt j y Hj). lia. }
    iApply ("HΦ" $! true). iFrame. iExact "Hlb".
  - iDestruct "Hheld" as (j) "(>Hl & >%Hj & >%Hle)".
    iDestruct (ghost_map_lookup with "HM Hi") as %Hx.
    iDestruct (mono_nat_lb_own_valid with "He Hlb") as %[_ Hxe].
    iMod (ghost_map_update e with "HM Hi") as "[HM Hi]".
    wp_rmw "Hl". pose proof (failed_bound e M) as Hbd.
    assert (u32 (u32 (- Z.of_nat j) - 1) = u32 (- Z.of_nat (S j))) as ->.
    { rewrite u32_sub_l. f_equal. lia. }
    rewrite (proj2 (Z.eqb_neq _ _)); [|ulia].
    iModIntro. iSplitR "Hi HΦ".
    { iExists e, (<[i:=e]> M). iFrame. iSplit.
      { rewrite map_size_insert_Some //. }
      iRight. iExists (S j). iFrame. rewrite (failed_bump e M i x) //; [|lia].
      iPureIntro. split; [lia|]. intros i' y. rewrite lookup_insert. case_decide; [|by apply Hle].
      intros [= <-]. done. }
    iApply ("HΦ" $! false). by iExists i, e.
Qed.

(** Seeing 1 means the lock was free: the thread may try again. *)
Lemma dec_poll γ lk R :
  {{{ is_dec γ lk R ∗ dec_waiting γ }}} ck_pr_load lk
  {{{ v, RET v; ⌜v = 1⌝ ∗ dec_ready γ ∨ ⌜v <> 1⌝ ∗ dec_waiting γ }}}.
Proof.
  iIntros (Φ) "([#Hinv %Hb] & (%i & %x & Hi)) HΦ".
  iInv decN as (e M) "(>HM & >He & >%Hsize & [(>Hl & HR & >Ht & >%Hlt)|Hheld])".
  - iDestruct (ghost_map_lookup with "HM Hi") as %Hx.
    iDestruct (mono_nat_lb_own_get with "He") as "#Hlb".
    wp_load "Hl". iModIntro. iSplitR "Hi HΦ".
    { iExists e, M. iFrame. iSplit; [done|]. iLeft. by iFrame. }
    iApply "HΦ". iLeft. iSplit; [done|]. iExists i, x. iFrame.
    iApply (mono_nat_lb_own_le with "Hlb"). specialize (Hlt i x Hx). lia.
  - iDestruct "Hheld" as (j) "(>Hl & >%Hj & >%Hle)". pose proof (failed_bound e M) as Hbd.
    wp_load "Hl". iModIntro. iSplitR "Hi HΦ".
    { iExists e, M. iFrame. iSplit; [done|]. iRight. iExists j. by iFrame. }
    iApply "HΦ". iRight. iSplit; [iPureIntro; ulia|]. by iExists i, x.
Qed.

Lemma dec_acquire γ lk R :
  {{{ is_dec γ lk R ∗ dec_ready γ }}} ck_spinlock_dec_lock lk
  {{{ RET tt; (dec_tok γ ∗ dec_ready γ) ∗ R }}}.
Proof.
  iIntros (Φ) "[#Hlk Hr] HΦ". rewrite /ck_spinlock_dec_lock. wp_focus.
  iApply (wp_loop_inv (λ _ : unit, dec_ready γ ∗ ▷ ((dec_tok γ ∗ dec_ready γ) ∗ R -∗ Φ tt))%I
    with "[$Hr $HΦ]").
  iIntros "!>" (_) "[Hr HΦ]". wp_focus. iApply (dec_attempt with "[$Hlk $Hr]").
  iIntros "!>" ([]) "H".
  - wp_pures. iApply "HΦ". iDestruct "H" as "($ & $ & $)".
  - wp_focus. iApply (wp_while_inv (dec_waiting γ ∗ ▷ ((dec_tok γ ∗ dec_ready γ) ∗ R -∗ Φ tt))
      with "[$H $HΦ]").
    iIntros "!> [Hw HΦ]". wp_focus. iApply (dec_poll with "[$Hlk $Hw]").
    iIntros "!>" (v) "[[-> H]|[%Hv H]]".
    + wp_pures. iFrame.
    + rewrite (proj2 (Z.eqb_neq _ _) Hv). wp_pures. iFrame.
Qed.

Lemma dec_acquire_eb γ lk R :
  {{{ is_dec γ lk R ∗ dec_ready γ }}} ck_spinlock_dec_lock_eb lk
  {{{ RET tt; (dec_tok γ ∗ dec_ready γ) ∗ R }}}.
Proof.
  iIntros (Φ) "[#Hlk Hr] HΦ". rewrite /ck_spinlock_dec_lock_eb. wp_focus.
  iApply (wp_loop_inv (λ _ : Z, dec_ready γ ∗ ▷ ((dec_tok γ ∗ dec_ready γ) ∗ R -∗ Φ tt))%I
    with "[$Hr $HΦ]").
  iIntros "!>" (b) "[Hr HΦ]". wp_focus. iApply (dec_attempt with "[$Hlk $Hr]").
  iIntros "!>" ([]) "H".
  - wp_pures. iApply "HΦ". iDestruct "H" as "($ & $ & $)".
  - wp_focus. iApply (wp_while_eb (dec_waiting γ ∗ ▷ ((dec_tok γ ∗ dec_ready γ) ∗ R -∗ Φ tt))
      with "[$H $HΦ]").
    iIntros "!> [Hw HΦ]". wp_focus. iApply (dec_poll with "[$Hlk $Hw]").
    iIntros "!>" (v) "[[-> H]|[%Hv H]]".
    + wp_pures. iIntros (x). wp_pures. iFrame.
    + rewrite (proj2 (Z.eqb_neq _ _) Hv). wp_pures. iFrame.
Qed.

Lemma dec_release γ lk R :
  {{{ is_dec γ lk R ∗ (dec_tok γ ∗ dec_ready γ) ∗ R }}} ck_spinlock_dec_unlock lk
  {{{ RET tt; dec_ready γ }}}.
Proof.
  iIntros (Φ) "([#Hinv %Hb] & [Ht Hr] & HR) HΦ". rewrite /ck_spinlock_dec_unlock. wp_pures.
  iInv decN as (e M) "(>HM & >He & >%Hsize & [(>Hl & _ & >Ht' & _)|Hheld])".
  { by iDestruct (token_exclusive with "Ht Ht'") as %[]. }
  iDestruct "Hheld" as (j) "(>Hl & >%Hj & >%Hle)".
  iMod (mono_nat_own_update (S e) with "He") as "[He _]"; [lia|].
  wp_store "Hl". iModIntro. iSplitR "Hr HΦ"; [|by iApply "HΦ"].
  iExists (S e), M. iFrame. iSplit; [done|]. iLeft. iFrame. iPureIntro.
  intros i x Hi. specialize (Hle i x Hi). lia.
Qed.

#[global] Instance spinlock_dec_spec : LockSpec spinlock_dec dec_init.
Proof.
  refine (Build_LockSpec _ _ _ _ dec_name (λ γ lk R, is_dec γ lk R) (λ γ _, dec_ready γ)
            (λ γ _, dec_tok γ ∗ dec_ready γ)%I _ dec_alloc _ _).
  - iIntros (γ lk R c Φ) "[#Hl Hr]". by iApply (dec_acquire with "[$Hl $Hr]").
  - iIntros (γ lk R c Φ) "(#Hl & H & HR)". by iApply (dec_release with "[$Hl $H $HR]").
Defined.

#[global] Instance spinlock_dec_eb_spec : LockSpec spinlock_dec_eb dec_init.
Proof.
  refine (Build_LockSpec _ _ _ _ dec_name (λ γ lk R, is_dec γ lk R) (λ γ _, dec_ready γ)
            (λ γ _, dec_tok γ ∗ dec_ready γ)%I _ dec_alloc _ _).
  - iIntros (γ lk R c Φ) "[#Hl Hr]". by iApply (dec_acquire_eb with "[$Hl $Hr]").
  - iIntros (γ lk R c Φ) "(#Hl & H & HR)". by iApply (dec_release with "[$Hl $H $HR]").
Defined.
End dec.

(** * Theorem *)

Definition decTΣ : gFunctors := #[ckΣ; ghost_varΣ nat; ghost_varΣ bool; decΣ].

Lemma dec_init_returns lk v : returns (ck_spinlock_dec_init lk) {[lk := v]} tt {[lk := 1]}.
Proof.
  replace {[lk := 1]} with (<[lk := 1]> ({[lk := v]} : mem)) by apply insert_singleton_eq.
  unfold ck_spinlock_dec_init. do 2 sym_step.
Qed.

(** C17. Mutual exclusion of the decrement lock, with and without back-off, for
    up to 2^32 - 2 threads: although every failed attempt decrements the lock
    word once more, it never wraps around to 1 while the lock is held, because a
    thread decrements at most once in vain between two releases. *)
Theorem dec_mutual_exclusion L lk occ cnt v iters n m ps σ :
  L ∈ [spinlock_dec; spinlock_dec_eb] -> lk <> occ -> lk <> cnt -> occ <> cnt ->
  Z.of_nat n <= 4294967294 ->
  returns (ck_spinlock_dec_init lk) {[lk := v]} tt m ->
  rtc sys_step (mutex_client_config L lk occ cnt iters (replicate n NULL) m) (ps, σ) ->
  mutex_ok occ cnt iters (replicate n NULL) ps σ /\ (∀ p, p ∈ ps -> safe p σ).
Proof.
  intros HL ??? Hn Hinit Hsteps.
  assert (m = {[lk := 1]}) as Hm.
  { by destruct (returns_det _ _ _ _ _ _ Hinit (dec_init_returns lk v)). }
  rewrite !elem_of_cons in HL. destruct HL as [->|[->|[]%elem_of_nil]].
  all: eapply (lock_mutual_exclusion decTΣ _ dec_init); [| | | | |exact Hsteps];
    [apply _| |by rewrite Hm lookup_singleton_ne..|done];
    split; [exact Hm|by rewrite length_replicate].
Qed.

Definition dec_demo : config unit :=
  round_robin 120 (mutex_client_config spinlock_dec 1 2 3 1 (replicate 2 NULL) {[1 := 1]}).

Lemma dec_mutual_exclusion_witness :
  mutex_ok 2 3 1 (replicate 2 NULL) dec_demo.1 dec_demo.2 /\
  (∀ p, p ∈ dec_demo.1 -> safe p dec_demo.2) /\
  dec_demo.2 !! 3 = Some 2 /\ Forall (fun p => p = Ret tt) dec_demo.1.
Proof.
  destruct (dec_mutual_exclusion spinlock_dec 1 2 3 77 1 2 {[1 := 1]} dec_demo.1 dec_demo.2)
    as [H1 H2].
  - set_solver.
  - done.
  - done.
  - done.
  - done.
  - apply dec_init_returns.
  - apply round_robin_pair.
  - split; [exact H1|]. split; [exact H2|]. split; [vm_compute; reflexivity|].
    assert (dec_demo.1 = [Ret tt; Ret tt]) as -> by (vm_compute; reflexivity).
    by repeat constructor.
Defined.
