(* ===== verification/Ticket.v ===== *)
(** The ticket spinlock [ck_spinlock_ticket]: the two-counter variant and the
    packed variant used on x86, with proportional back-off and [trylock]. *)

From iris.algebra Require Import auth numbers.
From iris.base_logic.lib Require Export ghost_map.
From S2P Require Export SpinTas Shares.
Set Warnings "-rewrite-rw".

(** * The two-counter variant: [next] at offset 0, [position] at offset 1 *)

Module Ticket.

Definition next (ticket : Z) : Z := ticket.
Definition position (ticket : Z) : Z := ticket + 1.

Definition ck_spinlock_ticket_init (ticket : Z) : prog unit :=
  st (next ticket) 0 ;; st (position ticket) 0 ;; ck_pr_barrier.

Definition ck_spinlock_ticket_locked (ticket : Z) : prog bool :=
  p <- ck_pr_load (position ticket) ;;
  n <- ck_pr_load (next ticket) ;;
  ck_pr_fence F_acquire ;; Ret (negb (p =? n)).

Definition ck_spinlock_ticket_lock (ticket : Z) : prog unit :=
  request <- ck_pr_faa u32 (next ticket) 1 ;;
  while (p <- ck_pr_load (position ticket) ;; Ret (negb (p =? request))) ck_pr_stall ;;
  ck_pr_fence F_lock.

Definition ck_spinlock_ticket_lock_pb (ticket c : Z) : prog unit :=
  request <- ck_pr_faa u32 (next ticket) 1 ;;
  Iter (fun _ : unit =>
    position <- ck_pr_load (position ticket) ;;
    if position =? request then break tt
    else ck_backoff_eb (u32 (Z.shiftl (u32 (request - position)) c)) ;; continue tt) tt ;;
  ck_pr_fence F_lock.

Definition ck_spinlock_ticket_unlock (ticket : Z) : prog unit :=
  ck_pr_fence F_unlock ;;
  update <- ck_pr_load (position ticket) ;;
  ck_pr_store (position ticket) (u32 (update + 1)).

Definition lock (c : option Z) : lock_code :=
  LockCode (fun lk _ => match c with
                        | None => ck_spinlock_ticket_lock lk
                        | Some c => ck_spinlock_ticket_lock_pb lk c
                        end)
           (fun lk _ => ck_spinlock_ticket_unlock lk).

(** At most 2^32 threads use the lock. *)
Definition init (lk : Z) (ctxs : list Z) (m : mem) : Prop :=
  m = <[next lk := 0]> {[position lk := 0]} /\ Z.of_nat (length ctxs) <= 4294967296.

End Ticket.

(** * The packed variant: request in the high half-word, position in the low *)

Module TicketX86.

Definition INCREMENT : Z := 65536.
Definition MASK : Z := 65535.
Definition SHIFT : Z := 16.

(** [ck_pr_inc_16] on the low half of the word. *)
Definition inc_16_low (v : Z) : Z := v - u16 v + u16 (u16 v + 1).

Definition ck_spinlock_ticket_init (ticket : Z) : prog unit := st ticket 0 ;; ck_pr_barrier.

Definition ck_spinlock_ticket_locked (ticket : Z) : prog bool :=
  request <- ck_pr_load ticket ;;
  let position := Z.land request MASK in
  let request := Z.shiftr request SHIFT in
  ck_pr_fence F_acquire ;; Ret (negb (request =? position)).

Definition ck_spinlock_ticket_lock (ticket : Z) : prog unit :=
  request <- ck_pr_faa u32 ticket INCREMENT ;;
  Iter (fun position =>
    if negb (Z.shiftr request SHIFT =? position) then
      ck_pr_stall ;; v <- ck_pr_load ticket ;; continue (Z.land v MASK)
    else break tt) (Z.land request MASK) ;;
  ck_pr_fence F_lock.

Definition ck_spinlock_ticket_lock_pb (ticket c : Z) : prog unit :=
  request <- ck_pr_faa u32 ticket INCREMENT ;;
  Iter (fun position =>
    if negb (Z.shiftr request SHIFT =? position) then
      ck_pr_stall ;;
      v <- ck_pr_load ticket ;;
      let position := Z.land v MASK in
      ck_backoff_eb (u32 (Z.shiftl (Z.land (u32 (Z.shiftr request SHIFT - position)) MASK) c)) ;;
      continue position
    else break tt) (Z.land request MASK) ;;
  ck_pr_fence F_lock.

Definition ck_spinlock_ticket_trylock (ticket : Z) : prog bool :=
  snapshot <- ck_pr_load ticket ;;
  let position := Z.land snapshot MASK in
  let request := Z.shiftr snapshot SHIFT in
  if negb (position =? request) then Ret false
  else
    b <- ck_pr_cas ticket snapshot (u32 (snapshot + INCREMENT)) ;;
    if negb b then Ret false else ck_pr_fence F_lock ;; Ret true.

Definition ck_spinlock_ticket_unlock (ticket : Z) : prog unit :=
  ck_pr_fence F_unlock ;; Act (ORmw ticket inc_16_low) (fun _ => tt).

Definition lock (c : option Z) : lock_code :=
  LockCode (fun lk _ => match c with
                        | None => ck_spinlock_ticket_lock lk
                        | Some c => ck_spinlock_ticket_lock_pb lk c
                        end)
           (fun lk _ => ck_spinlock_ticket_unlock lk).

(** At most 2^16 threads use the lock. *)
Definition init (lk : Z) (ctxs : list Z) (m : mem) : Prop :=
  m = {[lk := 0]} /\ Z.of_nat (length ctxs) <= 65536.

End TicketX86.

(** * Ghost state

    Tickets are unbounded naturals; the cells hold them modulo the width.  Each
    thread owns one permit and leaves it in the lock while its ticket is
    pending, so at most as many tickets are pending as there are permits. *)

Class ticketG Σ := TicketG {
  ticket_permitG :: leaseG Σ;
  ticket_mapG :: ghost_mapG Σ nat unit;
  ticket_varG :: ghost_varG Σ nat;
}.
Definition ticketΣ : gFunctors :=
  #[leaseΣ; ghost_mapΣ nat unit; ghost_varΣ nat].
#[global] Instance subG_ticketΣ {Σ} : subG ticketΣ Σ -> ticketG Σ.
Proof. solve_inG. Qed.

Record ticket_name := TicketName {
  tk_permit : gname; tk_map : gname; tk_serving : gname; tk_bound : nat }.

Abbreviation permits γ := (leases (tk_permit γ)).
Abbreviation permit_auth γ := (lease_auth (tk_permit γ) (tk_bound γ)).

Section ghost.
Context `{!ckGS Σ, !ticketG Σ}.
Implicit Types γ : ticket_name.

Definition pending (o n : nat) : gmap nat unit := gset_to_gmap tt (set_seq o (n - o)).
Definition ticket γ (t : nat) : iProp Σ := t ↪[tk_map γ] tt.
Definition serving γ (o : nat) : iProp Σ := ghost_var (tk_serving γ) (1/2) o.

Lemma pending_issue o n : (o <= n)%nat -> pending o (S n) = <[n := tt]> (pending o n).
Proof.
  intros H. rewrite /pending. replace (S n - o)%nat with (S (n - o)) by lia.
  rewrite set_seq_S_end_union_L. replace (o + (n - o))%nat with n by lia.
  by rewrite gset_to_gmap_union_singleton.
Qed.

Lemma pending_serve o n : (o < n)%nat -> delete o (pending o n) = pending (S o) n.
Proof.
  intros H. apply map_eq. intros i. rewrite /pending lookup_delete.
  rewrite !lookup_gset_to_gmap. case_decide as Hi; subst.
  - rewrite option_guard_False //. rewrite elem_of_set_seq. lia.
  - apply option_guard_iff. rewrite !elem_of_set_seq. lia.
Qed.

Lemma pending_lookup o n t : pending o n !! t = Some tt <-> (o <= t < n)%nat.
Proof. rewrite /pending lookup_gset_to_gmap_Some elem_of_set_seq. split; [lia|]. split; [lia|done]. Qed.

Lemma pending_none o : pending o o = ∅.
Proof.
  apply map_empty. intros i. destruct (pending o o !! i) as [[]|] eqn:Hi; [|done].
  apply pending_lookup in Hi. lia.
Qed.

(** ** The invariant, over the way the cells hold the two counters *)

Context (cells : Z -> nat -> nat -> iProp Σ).
Context (ticketN : namespace).

(** What the lock protects may depend on the ticket served. *)
Definition ticket_inv γ (lk : Z) (R : nat -> iProp Σ) : iProp Σ :=
  ∃ o n : nat, ⌜(o <= n)%nat⌝ ∗ cells lk o n ∗ permit_auth γ ∗ permits γ (n - o) ∗
    ghost_map_auth (tk_map γ) 1 (pending o n) ∗ serving γ o ∗
    ((serving γ o ∗ R o) ∨ ticket γ o).

Definition is_ticket γ lk R : iProp Σ := inv ticketN (ticket_inv γ lk R).

(** A thread that holds the lock. *)
Definition ticket_locked γ : iProp Σ := ∃ o, serving γ o.

Lemma ticket_ghost_alloc n :
  ⊢ |==> ∃ γ, ⌜tk_bound γ = n⌝ ∗ permits γ n ∗ permit_auth γ ∗ permits γ 0 ∗
      ghost_map_auth (tk_map γ) 1 (pending 0 0) ∗ serving γ 0 ∗ serving γ 0.
Proof.
  iMod (lease_alloc n) as (γp) "(Hp & Hps & Hp0)".
  iMod (ghost_map_alloc_empty (K:=nat) (V:=unit)) as (γm) "Hm".
  iMod (ghost_var_alloc 0%nat) as (γs) "[Hs Hs']".
  iEval (rewrite -(pending_none 0)) in "Hm".
  iExists (TicketName γp γm γs n). by iFrame.
Qed.

Lemma ticket_alloc lk (ctxs : list Z) R E :
  cells lk 0 0 -∗ R 0%nat ={E}=∗
  ∃ γ, ⌜tk_bound γ = length ctxs⌝ ∗ is_ticket γ lk R ∗ [∗ list] c ∈ ctxs, permits γ 1.
Proof.
  iIntros "Hcells HR".
  iMod (ticket_ghost_alloc (length ctxs)) as (γ) "(%Hγ & Hps & Hp & Hp0 & Hm & Hs & Hs')". iExists γ.
  iMod (inv_alloc ticketN _ (ticket_inv γ lk R) with "[Hcells HR Hp Hm Hs Hs' Hp0]") as "$".
  { iNext. iExists 0%nat, 0%nat. iFrame. iSplit; [done|]. iLeft. iFrame. }
  iModIntro. iSplit; [done|]. by iApply leases_list.
Qed.

(** Taking a ticket: the next number is issued, and the permit left behind
    bounds the number of pending tickets. *)
Lemma ticket_take γ o n :
  (o <= n)%nat ->
  permit_auth γ -∗ permits γ (n - o) -∗ permits γ 1 -∗
  ghost_map_auth (tk_map γ) 1 (pending o n) ==∗
  permit_auth γ ∗ permits γ (S n - o) ∗ ⌜(S n - o <= tk_bound γ)%nat⌝ ∗
  ghost_map_auth (tk_map γ) 1 (pending o (S n)) ∗ ticket γ n.
Proof.
  iIntros (Hle) "Hpa Hps Hp Hm". iDestruct (leases_join with "Hps Hp") as "Hps".
  replace (n - o + 1)%nat with (S n - o)%nat by lia.
  iDestruct (leases_bound with "Hpa Hps") as %Hb.
  iMod (ghost_map_insert n tt with "Hm") as "[Hm Ht]".
  { destruct (pending o n !! n) as [[]|] eqn:Hn; [|done].
    apply pending_lookup in Hn. lia. }
  rewrite -pending_issue //. by iFrame.
Qed.

(** Leaving: the served ticket is retired and its permit comes back. *)
Lemma ticket_retire γ o n :
  (o < n)%nat ->
  permits γ (n - o) -∗ ghost_map_auth (tk_map γ) 1 (pending o n) -∗ ticket γ o -∗
  serving γ o -∗ serving γ o ==∗
  permits γ 1 ∗ permits γ (n - S o) ∗ ghost_map_auth (tk_map γ) 1 (pending (S o) n) ∗
  serving γ (S o) ∗ serving γ (S o).
Proof.
  iIntros (Hlt) "Hps Hm Ht Hs Hs'".
  iMod (ghost_map_delete with "Hm Ht") as "Hm". rewrite pending_serve //.
  iMod (ghost_var_update_halves (S o) with "Hs Hs'") as "[$ $]".
  replace (n - o)%nat with (1 + (n - S o))%nat by lia. rewrite leases_split.
  by iDestruct "Hps" as "[$ $]".
Qed.

Lemma ticket_pending γ o n t :
  ghost_map_auth (tk_map γ) 1 (pending o n) -∗ ticket γ t -∗ ⌜(o <= t < n)%nat⌝.
Proof.
  iIntros "Hm Ht". iDestruct (ghost_map_lookup with "Hm Ht") as %H.
  iPureIntro. by apply pending_lookup.
Qed.

Lemma ticket_excl γ t : ticket γ t -∗ ticket γ t -∗ False.
Proof.
  iIntros "H1 H2". iDestruct (ghost_map_elem_valid_2 with "H1 H2") as %[H _].
  by apply dfrac_valid_own_r in H.
Qed.

Lemma serving_three γ a b c : serving γ a -∗ serving γ b -∗ serving γ c -∗ False.
Proof.
  iIntros "H1 H2 H3". iDestruct (ghost_var_agree with "H1 H2") as %->.
  iCombine "H1 H2" as "H". iDestruct (ghost_var_valid_2 with "H H3") as %[H _].
  done.
Qed.

(** What observing the position tells a waiting thread: if its own number is
    being served, it may take the lock. *)
Lemma ticket_observe γ lk R o n t :
  (o <= n)%nat -> cells lk o n -∗ permit_auth γ -∗ permits γ (n - o) -∗
  ghost_map_auth (tk_map γ) 1 (pending o n) -∗ serving γ o -∗
  ((serving γ o ∗ R o) ∨ ticket γ o) -∗ ticket γ t -∗
  ⌜(o <= t < n)%nat /\ (n - o <= tk_bound γ)%nat⌝ ∗
  (⌜t <> o⌝ ∗ ticket γ t ∗ ticket_inv γ lk R ∨
   ⌜t = o⌝ ∗ serving γ t ∗ R t ∗ ticket_inv γ lk R).
Proof.
  iIntros (Hle) "Hc Hpa Hps Hm Hs HR Ht".
  iDestruct (ticket_pending with "Hm Ht") as %Hp.
  iDestruct (leases_bound with "Hpa Hps") as %Hb. iSplit; [done|].
  destruct (decide (t = o)) as [->|Hne].
  - iRight. iDestruct "HR" as "[[Hs' HR]|Ht']".
    + iSplit; [done|]. iFrame "HR Hs'". iExists o, n. iFrame. done.
    + by iDestruct (ticket_excl with "Ht Ht'") as %[].
  - iLeft. iFrame "Ht". iSplit; [done|]. iExists o, n. iFrame. done.
Qed.
End ghost.

(** * The two-counter variant meets the lock interface *)

Definition ticketN : namespace := nroot .@ "spinlock_ticket".

Section portable.
Context `{!ckGS Σ, !ticketG Σ}.

Definition cells32 (lk : Z) (o n : nat) : iProp Σ :=
  Ticket.next lk ↦ u32 (Z.of_nat n) ∗ Ticket.position lk ↦ u32 (Z.of_nat o).

Definition is_ticket32 γ lk R : iProp Σ :=
  is_ticket cells32 ticketN γ lk R ∗ ⌜Z.of_nat (tk_bound γ) <= 4294967296⌝.

(** Reading the position, in any of the waiting loops. *)
Lemma ticket32_poll γ lk R t :
  {{{ is_ticket32 γ lk R ∗ ticket γ t }}} ck_pr_load (Ticket.position lk)
  {{{ p, RET p; ⌜p = u32 (Z.of_nat t)⌝ ∗ serving γ t ∗ R t ∨
                ⌜p <> u32 (Z.of_nat t)⌝ ∗ ticket γ t }}}.
Proof.
  iIntros (Φ) "([#Hinv %Hb] & Ht) HΦ".
  iInv ticketN as (o n) "(>%Hle & >[Hn Hpos] & >Hpa & >Hps & >Hm & >Hs & HR)".
  wp_load "Hpos".
  iDestruct (ticket_observe cells32 γ lk R o n t with "[$Hn $Hpos] Hpa Hps Hm Hs HR Ht")
    as "[[%Hot %Hno] [(%Hne & Ht & Hi)|(-> & Hl & HR & Hi)]]"; [done|..]; iModIntro.
  - iSplitL "Hi"; [done|]. iApply "HΦ". iRight. iFrame. iPureIntro. intros Heq.
    apply Hne. symmetry in Heq. apply u32_inj_near in Heq; lia.
  - iSplitL "Hi"; [done|]. iApply "HΦ". iLeft. by iFrame.
Qed.

Lemma ticket32_take γ lk R :
  {{{ is_ticket32 γ lk R ∗ permits γ 1 }}} ck_pr_faa u32 (Ticket.next lk) 1
  {{{ t, RET u32 (Z.of_nat t); ticket γ t }}}.
Proof.
  iIntros (Φ) "([#Hinv %Hb] & Hp) HΦ".
  iInv ticketN as (o n) "(>%Hle & >[Hn Hpos] & >Hpa & >Hps & >Hm & >Hs & HR)".
  iMod (ticket_take with "Hpa Hps Hp Hm") as "(Hpa & Hps & _ & Hm & Ht)"; [done|].
  wp_rmw "Hn". rewrite u32_succ. iModIntro. iSplitR "Ht HΦ"; [|by iApply "HΦ"].
  iExists o, (S n). iFrame. iPureIntro. lia.
Qed.

Lemma ticket32_acquire γ lk R :
  {{{ is_ticket32 γ lk (λ _, R) ∗ permits γ 1 }}} Ticket.ck_spinlock_ticket_lock lk
  {{{ RET tt; ticket_locked γ ∗ R }}}.
Proof.
  iIntros (Φ) "[#Hlk Hp] HΦ". rewrite /Ticket.ck_spinlock_ticket_lock. wp_focus.
  iApply (ticket32_take with "[$Hlk $Hp]"). iIntros "!>" (t) "Ht". wp_focus.
  iApply (wp_while_inv (ticket γ t ∗ ▷ (ticket_locked γ ∗ R -∗ Φ tt)) with "[$Ht $HΦ]").
  iIntros "!> [Ht HΦ]". wp_focus. iApply (ticket32_poll with "[$Hlk $Ht]").
  iIntros "!>" (p) "[(-> & Hs & HR)|(%Hne & Ht)]".
  - rewrite Z.eqb_refl. wp_pures. iApply "HΦ". by iFrame.
  - rewrite (proj2 (Z.eqb_neq _ _) Hne). wp_pures. iFrame.
Qed.

Lemma ticket32_pb_acquire γ lk c R :
  {{{ is_ticket32 γ lk (λ _, R) ∗ permits γ 1 }}} Ticket.ck_spinlock_ticket_lock_pb lk c
  {{{ RET tt; ticket_locked γ ∗ R }}}.
Proof.
  iIntros (Φ) "[#Hlk Hp] HΦ". rewrite /Ticket.ck_spinlock_ticket_lock_pb. wp_focus.
  iApply (ticket32_take with "[$Hlk $Hp]"). iIntros "!>" (t) "Ht". wp_focus.
  iApply (wp_loop_inv (λ _ : unit, ticket γ t ∗ ▷ (ticket_locked γ ∗ R -∗ Φ tt))%I
            with "[$Ht $HΦ]").
  iIntros "!>" (_) "[Ht HΦ]". wp_focus. iApply (ticket32_poll with "[$Hlk $Ht]").
  iIntros "!>" (p) "[(-> & Hs & HR)|(%Hne & Ht)]".
  - rewrite Z.eqb_refl. wp_pures. iApply "HΦ". by iFrame.
  - rewrite (proj2 (Z.eqb_neq _ _) Hne). wp_focus. iApply wp_backoff_eb.
    iIntros (c'). wp_pures. iFrame.
Qed.

Lemma ticket32_release γ lk R :
  {{{ is_ticket32 γ lk (λ _, R) ∗ ticket_locked γ ∗ R }}} Ticket.ck_spinlock_ticket_unlock lk
  {{{ RET tt; permits γ 1 }}}.
Proof.
  iIntros (Φ) "([#Hinv %Hb] & [%o0 Hl] & HR) HΦ". rewrite /Ticket.ck_spinlock_ticket_unlock.
  wp_pures.
  iInv ticketN as (o n) "(>%Hle & >[Hn Hpos] & >Hpa & >Hps & >Hm & >Hs & [[>Hs' _]|>Ht])".
  { by iDestruct (serving_three with "Hl Hs Hs'") as %[]. }
  iDestruct (ghost_var_agree with "Hl Hs") as %->. wp_load "Hpos". iModIntro.
  iSplitR "Hl HR HΦ".
  { iExists o, n. iFrame. done. }
  clear n Hle. wp_pures.
  iInv ticketN as (o' n) "(>%Hle & >[Hn Hpos] & >Hpa & >Hps & >Hm & >Hs & [[>Hs' _]|>Ht])".
  { by iDestruct (serving_three with "Hl Hs Hs'") as %[]. }
  iDestruct (ghost_var_agree with "Hl Hs") as %<-.
  iDestruct (ticket_pending with "Hm Ht") as %Hp.
  iMod (ticket_retire with "Hps Hm Ht Hl Hs") as "(Hp & Hps & Hm & Hl & Hs)"; [lia|].
  wp_store "Hpos". rewrite u32_succ. iModIntro. iSplitR "Hp HΦ"; [|by iApply "HΦ"].
  iExists (S o), n. iFrame. iSplit; [iPureIntro; lia|]. iLeft. iFrame.
Qed.

(** Locks built on the ticket lock advance the position atomically, and leave what it
    protects in a state for the next ticket. *)
Lemma ticket32_advance γ lk R t :
  {{{ is_ticket32 γ lk R ∗ serving γ t ∗ R (S t) }}} ck_pr_faa u32 (Ticket.position lk) 1
  {{{ p, RET p; permits γ 1 }}}.
Proof.
  iIntros (Φ) "([#Hinv %Hb] & Hl & HR) HΦ".
  iInv ticketN as (o n) "(>%Hle & >[Hn Hpos] & >Hpa & >Hps & >Hm & >Hs & [[>Hs' _]|>Ht])".
  { by iDestruct (serving_three with "Hl Hs Hs'") as %[]. }
  iDestruct (ghost_var_agree with "Hl Hs") as %<-. iDestruct (ticket_pending with "Hm Ht") as %Hp.
  iMod (ticket_retire with "Hps Hm Ht Hl Hs") as "(Hp & Hps & Hm & Hl & Hs)"; [lia|].
  wp_rmw "Hpos". rewrite u32_succ. iModIntro. iSplitR "Hp HΦ"; [|by iApply "HΦ"].
  iExists (S t), n. iFrame. iSplit; [iPureIntro; lia|]. iLeft. iFrame.
Qed.

#[global] Instance ticket32_spec c : LockSpec (Ticket.lock c) Ticket.init.
Proof.
  refine (Build_LockSpec _ _ _ _ ticket_name (λ γ lk R, is_ticket32 γ lk (λ _, R))
            (λ γ _, permits γ 1) (λ γ _, ticket_locked γ) _ _ _ _).
  - iIntros (lk ctxs m R E [-> Hlen]) "Hm HR".
    rewrite big_sepM_insert; [|rewrite lookup_singleton_ne //; rewrite /Ticket.next /Ticket.position; lia].
    rewrite big_sepM_singleton. iDestruct "Hm" as "[Hn Hp]".
    iMod (ticket_alloc cells32 ticketN lk ctxs (λ _, R) with "[$Hn $Hp] HR") as (γ) "(%Hγ & Hl & Hc)".
    iExists γ. iFrame. iPureIntro. by rewrite Hγ.
  - iIntros (γ lk R c' Φ) "[#Hl Hp]". destruct c as [c|]; simpl.
    + by iApply (ticket32_pb_acquire with "[$Hl $Hp]").
    + by iApply (ticket32_acquire with "[$Hl $Hp]").
  - iIntros (γ lk R c' Φ) "(#Hl & H & HR)". by iApply (ticket32_release with "[$Hl $H $HR]").
Defined.
End portable.

(** * The packed variant meets the lock interface *)

Definition packed (o n : nat) : Z := u16 (Z.of_nat n) * 65536 + u16 (Z.of_nat o).

Lemma land_mask16 v : Z.land v TicketX86.MASK = u16 v.
Proof. apply (Z.land_ones v 16). lia. Qed.

Lemma packed_position o n : Z.land (packed o n) TicketX86.MASK = u16 (Z.of_nat o).
Proof. rewrite land_mask16 /packed. ulia. Qed.

Lemma packed_request o n : Z.shiftr (packed o n) TicketX86.SHIFT = u16 (Z.of_nat n).
Proof.
  rewrite Z.shiftr_div_pow2 //. change (2 ^ TicketX86.SHIFT) with 65536. rewrite /packed. ulia.
Qed.

Lemma packed_take o n : u32 (packed o n + TicketX86.INCREMENT) = packed o (S n).
Proof. rewrite /packed /TicketX86.INCREMENT Nat2Z.inj_succ. ulia. Qed.

Lemma packed_leave o n : TicketX86.inc_16_low (packed o n) = packed (S o) n.
Proof. rewrite /packed /TicketX86.inc_16_low Nat2Z.inj_succ. ulia. Qed.

Section x86.
Context `{!ckGS Σ, !ticketG Σ}.

Definition cells16 (lk : Z) (o n : nat) : iProp Σ := lk ↦ packed o n.

Definition is_ticket16 γ lk R : iProp Σ :=
  is_ticket cells16 ticketN γ lk (λ _, R) ∗ ⌜Z.of_nat (tk_bound γ) <= 65536⌝.

(** The atomic add both hands out the ticket and shows the position. *)
Lemma ticket16_take γ lk R :
  {{{ is_ticket16 γ lk R ∗ permits γ 1 }}} ck_pr_faa u32 lk TicketX86.INCREMENT
  {{{ o t, RET packed o t;
      ⌜u16 (Z.of_nat o) = u16 (Z.of_nat t)⌝ ∗ ticket_locked γ ∗ R ∨
      ⌜u16 (Z.of_nat o) <> u16 (Z.of_nat t)⌝ ∗ ticket γ t }}}.
Proof.
  iIntros (Φ) "([#Hinv %Hb] & Hp) HΦ".
  iInv ticketN as (o n) "(>%Hle & >Hc & >Hpa & >Hps & >Hm & >Hs & HR)".
  iMod (ticket_take with "Hpa Hps Hp Hm") as "(Hpa & Hps & _ & Hm & Ht)"; [done|].
  rewrite /cells16. wp_rmw "Hc". rewrite packed_take. iModIntro.
  iDestruct (ticket_observe cells16 γ lk (λ _, R) o (S n) n with "Hc Hpa Hps Hm Hs HR Ht")
    as "[[%Hot %Hno] [(%Hne & Ht & Hi)|(-> & Hl & HR & Hi)]]"; [lia|..].
  - iSplitL "Hi"; [done|]. iApply "HΦ". iRight. iFrame. iPureIntro. intros Heq.
    apply Hne. symmetry in Heq. apply u16_inj_near in Heq; lia.
  - iSplitL "Hi"; [done|]. iApply "HΦ". iLeft. by iFrame.
Qed.

Lemma ticket16_poll γ lk R t :
  {{{ is_ticket16 γ lk R ∗ ticket γ t }}} ck_pr_load lk
  {{{ v, RET v; ⌜Z.land v TicketX86.MASK = u16 (Z.of_nat t)⌝ ∗ ticket_locked γ ∗ R ∨
                ⌜Z.land v TicketX86.MASK <> u16 (Z.of_nat t)⌝ ∗ ticket γ t }}}.
Proof.
  iIntros (Φ) "([#Hinv %Hb] & Ht) HΦ".
  iInv ticketN as (o n) "(>%Hle & >Hc & >Hpa & >Hps & >Hm & >Hs & HR)".
  rewrite /cells16. wp_load "Hc".
  iDestruct (ticket_observe cells16 γ lk (λ _, R) o n t with "Hc Hpa Hps Hm Hs HR Ht")
    as "[[%Hot %Hno] [(%Hne & Ht & Hi)|(-> & Hl & HR & Hi)]]"; [done|..]; iModIntro.
  - iSplitL "Hi"; [done|]. iApply "HΦ". iRight. iFrame. iPureIntro.
    rewrite packed_position. intros Heq.
    apply Hne. symmetry in Heq. apply u16_inj_near in Heq; lia.
  - iSplitL "Hi"; [done|]. iApply "HΦ". iLeft. iFrame. iPureIntro. apply packed_position.
Qed.

(** Where a waiting loop stands: [p] is the last position read. *)
Definition wait16 γ (R : iProp Σ) (t : nat) (p : Z) : iProp Σ :=
  ⌜p = u16 (Z.of_nat t)⌝ ∗ ticket_locked γ ∗ R ∨ ⌜p <> u16 (Z.of_nat t)⌝ ∗ ticket γ t.

Lemma ticket16_acquire γ lk R :
  {{{ is_ticket16 γ lk R ∗ permits γ 1 }}} TicketX86.ck_spinlock_ticket_lock lk
  {{{ RET tt; ticket_locked γ ∗ R }}}.
Proof.
  iIntros (Φ) "[#Hlk Hp] HΦ". rewrite /TicketX86.ck_spinlock_ticket_lock. wp_focus.
  iApply (ticket16_take with "[$Hlk $Hp]"). iIntros "!>" (o t) "Ht".
  rewrite packed_request packed_position. wp_focus.
  iApply (wp_loop_inv (λ p, wait16 γ R t p ∗ ▷ (ticket_locked γ ∗ R -∗ Φ tt))%I
            with "[$Ht $HΦ]").
  iIntros "!>" (p) "[[(-> & H)|(%Hne & Ht)] HΦ]".
  - rewrite Z.eqb_refl /=. wp_pures. by iApply "HΦ".
  - rewrite (proj2 (Z.eqb_neq _ _)); [|congruence]. cbn [negb]. wp_pures.
    iApply (ticket16_poll with "[$Hlk $Ht]"). iIntros "!>" (v) "H". wp_pures. iFrame.
Qed.

Lemma ticket16_pb_acquire γ lk c R :
  {{{ is_ticket16 γ lk R ∗ permits γ 1 }}} TicketX86.ck_spinlock_ticket_lock_pb lk c
  {{{ RET tt; ticket_locked γ ∗ R }}}.
Proof.
  iIntros (Φ) "[#Hlk Hp] HΦ". rewrite /TicketX86.ck_spinlock_ticket_lock_pb. wp_focus.
  iApply (ticket16_take with "[$Hlk $Hp]"). iIntros "!>" (o t) "Ht".
  rewrite packed_request packed_position. wp_focus.
  iApply (wp_loop_inv (λ p, wait16 γ R t p ∗ ▷ (ticket_locked γ ∗ R -∗ Φ tt))%I
            with "[$Ht $HΦ]").
  iIntros "!>" (p) "[[(-> & H)|(%Hne & Ht)] HΦ]".
  - rewrite Z.eqb_refl /=. wp_pures. by iApply "HΦ".
  - rewrite (proj2 (Z.eqb_neq _ _)); [|congruence]. cbn [negb]. wp_pures.
    iApply (ticket16_poll with "[$Hlk $Ht]"). iIntros "!>" (v) "H". wp_focus.
    iApply wp_backoff_eb. iIntros (c'). wp_pures. iFrame.
Qed.

Lemma ticket16_trylock γ lk R :
  {{{ is_ticket16 γ lk R ∗ permits γ 1 }}} TicketX86.ck_spinlock_ticket_trylock lk
  {{{ b, RET b; match b with true => ticket_locked γ ∗ R | false => permits γ 1 end }}}.
Proof.
  iIntros (Φ) "([#Hinv %Hb] & Hp) HΦ". rewrite /TicketX86.ck_spinlock_ticket_trylock. wp_focus.
  iInv ticketN as (o n) "(>%Hle & >Hc & >Hpa & >Hps & >Hm & >Hs & HR)".
  rewrite /cells16. wp_load "Hc". iModIntro. iSplitR "Hp HΦ".
  { iExists o, n. iFrame. done. }
  rewrite packed_position packed_request packed_take. clear Hle.
  destruct (Z.eqb_spec (u16 (Z.of_nat o)) (u16 (Z.of_nat n))) as [Heq|Hne]; cbn [negb];
    last first.
  { wp_pures. by iApply ("HΦ" $! false). }
  wp_focus.
  iInv ticketN as (o' n') "(>%Hle & >Hc & >Hpa & >Hps & >Hm & >Hs & HR)".
  rewrite /cells16. wp_cas "Hc".
  destruct (Z.eqb_spec (packed o' n') (packed o n)) as [Hpk|Hpk]; last first.
  { iModIntro. iSplitR "Hp HΦ"; [iExists o', n'; iFrame; done|]. wp_pures.
    by iApply ("HΦ" $! false). }
  iMod (ticket_take with "Hpa Hps Hp Hm") as "(Hpa & Hps & %Hbd & Hm & Ht)"; [done|].
  assert (o' = n') as <-.
  { assert (u16 (Z.of_nat o') = u16 (Z.of_nat n')) as Heq'.
    { rewrite -(packed_position o' n') -(packed_request o' n') Hpk.
      by rewrite packed_position packed_request. }
    apply u16_inj_near in Heq'; lia. }
  assert (packed o (S n) = packed o' (S o')) as ->.
  { by rewrite -!packed_take Hpk. }
  iDestruct (ticket_observe cells16 γ lk (λ _, R) o' (S o') o' with "Hc Hpa Hps Hm Hs HR Ht")
    as "[_ [(%Hne & _)|(_ & Hl & HR & Hi)]]"; [lia|done|].
  iModIntro. iSplitL "Hi"; [done|]. wp_pures. iApply ("HΦ" $! true). iFrame.
Qed.

Lemma ticket16_release γ lk R :
  {{{ is_ticket16 γ lk R ∗ ticket_locked γ ∗ R }}} TicketX86.ck_spinlock_ticket_unlock lk
  {{{ RET tt; permits γ 1 }}}.
Proof.
  iIntros (Φ) "([#Hinv %Hb] & [%o0 Hl] & HR) HΦ". rewrite /TicketX86.ck_spinlock_ticket_unlock.
  wp_pures.
  iInv ticketN as (o n) "(>%Hle & >Hc & >Hpa & >Hps & >Hm & >Hs & [[>Hs' _]|>Ht])".
  { by iDestruct (serving_three with "Hl Hs Hs'") as %[]. }
  iDestruct (ghost_var_agree with "Hl Hs") as %->.
  iDestruct (ticket_pending with "Hm Ht") as %Hp.
  iMod (ticket_retire with "Hps Hm Ht Hl Hs") as "(Hp & Hps & Hm & Hl & Hs)"; [lia|].
  rewrite /cells16. wp_rmw "Hc". rewrite packed_leave. iModIntro.
  iSplitR "Hp HΦ"; [|by iApply "HΦ"].
  iExists (S o), n. iFrame. iSplit; [iPureIntro; lia|]. iLeft. iFrame.
Qed.

#[global] Instance ticket16_spec c : LockSpec (TicketX86.lock c) TicketX86.init.
Proof.
  refine (Build_LockSpec _ _ _ _ ticket_name (λ γ lk R, is_ticket16 γ lk R)
            (λ γ _, permits γ 1) (λ γ _, ticket_locked γ) _ _ _ _).
  - iIntros (lk ctxs m R E [-> Hlen]) "Hm HR". rewrite big_sepM_singleton.
    iMod (ticket_alloc cells16 ticketN lk ctxs (λ _, R) with "Hm HR") as (γ) "(%Hγ & Hl & Hc)".
    iExists γ. iFrame. iPureIntro. by rewrite Hγ.
  - iIntros (γ lk R c' Φ) "[#Hl Hp]". destruct c as [c|]; simpl.
    + by iApply (ticket16_pb_acquire with "[$Hl $Hp]").
    + by iApply (ticket16_acquire with "[$Hl $Hp]").
  - iIntros (γ lk R c' Φ) "(#Hl & H & HR)". by iApply (ticket16_release with "[$Hl $H $HR]").
Defined.
End x86.

(** * Theorems *)

Definition ticketTΣ : gFunctors := #[ckΣ; ghost_varΣ nat; ghost_varΣ bool; ticketΣ].

Lemma ticket32_init_returns lk a b :
  returns (Ticket.ck_spinlock_ticket_init lk) (<[Ticket.next lk := a]> {[Ticket.position lk := b]}) tt
    (<[Ticket.next lk := 0]> {[Ticket.position lk := 0]}).
Proof.
  replace (<[Ticket.next lk := 0]> {[Ticket.position lk := 0]} : mem)
    with (<[Ticket.position lk := 0]> (<[Ticket.next lk := 0]>
            (<[Ticket.next lk := a]> ({[Ticket.position lk := b]} : mem)))).
  { unfold Ticket.ck_spinlock_ticket_init, Ticket.next, Ticket.position. do 3 sym_step. }
  rewrite insert_insert_eq insert_insert_ne; [|unfold Ticket.next, Ticket.position; lia].
  by rewrite insert_singleton_eq.
Qed.

(** C14. Mutual exclusion of the portable ticket lock, with proportional back-off
    ([Some c]) or without ([None]), for up to 2^32 threads: the two 32-bit
    counters may wrap around any number of times, but two pending tickets never
    have the same wrapped number. *)
Theorem ticket_mutual_exclusion c lk occ cnt a b iters n m ps σ :
  occ ∉ [lk; lk + 1] -> cnt ∉ [lk; lk + 1] -> occ <> cnt ->
  Z.of_nat n <= 4294967296 ->
  returns (Ticket.ck_spinlock_ticket_init lk)
    (<[Ticket.next lk := a]> {[Ticket.position lk := b]}) tt m ->
  rtc sys_step
    (mutex_client_config (Ticket.lock c) lk occ cnt iters (replicate n NULL) m) (ps, σ) ->
  mutex_ok occ cnt iters (replicate n NULL) ps σ /\ (∀ p, p ∈ ps -> safe p σ).
Proof.
  intros Ho Hc Hne Hn Hinit Hsteps. rewrite !not_elem_of_cons in Ho, Hc.
  assert (m = <[Ticket.next lk := 0]> {[Ticket.position lk := 0]}) as Hm.
  { by destruct (returns_det _ _ _ _ _ _ Hinit (ticket32_init_returns lk a b)). }
  eapply (lock_mutual_exclusion ticketTΣ _ Ticket.init); [apply _|..|exact Hsteps].
  - split; [exact Hm|by rewrite length_replicate].
  - rewrite Hm /Ticket.next /Ticket.position lookup_insert_ne; [|naive_solver].
    rewrite lookup_singleton_ne; naive_solver.
  - rewrite Hm /Ticket.next /Ticket.position lookup_insert_ne; [|naive_solver].
    rewrite lookup_singleton_ne; naive_solver.
  - done.
Qed.

Definition ticket_demo : config unit :=
  round_robin 80 (mutex_client_config (Ticket.lock None) 1 3 4 1 (replicate 2 NULL)
                    (<[1 := 0]> {[2 := 0]})).

Lemma ticket_mutual_exclusion_witness :
  mutex_ok 3 4 1 (replicate 2 NULL) ticket_demo.1 ticket_demo.2 /\
  (∀ p, p ∈ ticket_demo.1 -> safe p ticket_demo.2) /\
  ticket_demo.2 !! 4 = Some 2 /\ Forall (fun p => p = Ret tt) ticket_demo.1.
Proof.
  destruct (ticket_mutual_exclusion None 1 3 4 7 9 1 2 (<[1 := 0]> {[2 := 0]})
              ticket_demo.1 ticket_demo.2) as [H1 H2].
  - set_solver by lia.
  - set_solver by lia.
  - done.
  - done.
  - apply ticket32_init_returns.
  - apply round_robin_pair.
  - split; [exact H1|]. split; [exact H2|]. split; [vm_compute; reflexivity|].
    assert (ticket_demo.1 = [Ret tt; Ret tt]) as -> by (vm_compute; reflexivity).
    by repeat constructor.
Defined.

Lemma ticket16_init_returns lk v :
  returns (TicketX86.ck_spinlock_ticket_init lk) {[lk := v]} tt {[lk := 0]}.
Proof.
  replace {[lk := 0]} with (<[lk := 0]> ({[lk := v]} : mem)) by apply insert_singleton_eq.
  unfold TicketX86.ck_spinlock_ticket_init. do 2 sym_step.
Qed.

(** C15. Mutual exclusion of the packed ticket lock used on TSO targets, for up
    to 2^16 threads: one fetch-and-add takes the ticket and reads the position,
    the release increments only the low half-word. *)
Theorem ticket_x86_mutual_exclusion c lk occ cnt v iters n m ps σ :
  lk <> occ -> lk <> cnt -> occ <> cnt -> Z.of_nat n <= 65536 ->
  returns (TicketX86.ck_spinlock_ticket_init lk) {[lk := v]} tt m ->
  rtc sys_step
    (mutex_client_config (TicketX86.lock c) lk occ cnt iters (replicate n NULL) m) (ps, σ) ->
  mutex_ok occ cnt iters (replicate n NULL) ps σ /\ (∀ p, p ∈ ps -> safe p σ).
Proof.
  intros ??? Hn Hinit Hsteps.
  assert (m = {[lk := 0]}) as Hm.
  { by destruct (returns_det _ _ _ _ _ _ Hinit (ticket16_init_returns lk v)). }
  eapply (lock_mutual_exclusion ticketTΣ _ TicketX86.init); [apply _|..|exact Hsteps].
  - split; [exact Hm|by rewrite length_replicate].
  - by rewrite Hm lookup_singleton_ne.
  - by rewrite Hm lookup_singleton_ne.
  - done.
Qed.

Definition ticket_x86_demo : config unit :=
  round_robin 80 (mutex_client_config (TicketX86.lock None) 1 2 3 1 (replicate 2 NULL) {[1 := 0]}).

Lemma ticket_x86_mutual_exclusion_witness :
  mutex_ok 2 3 1 (replicate 2 NULL) ticket_x86_demo.1 ticket_x86_demo.2 /\
  (∀ p, p ∈ ticket_x86_demo.1 -> safe p ticket_x86_demo.2) /\
  ticket_x86_demo.2 !! 3 = Some 2 /\ Forall (fun p => p = Ret tt) ticket_x86_demo.1.
Proof.
  destruct (ticket_x86_mutual_exclusion None 1 2 3 7 1 2 {[1 := 0]}
              ticket_x86_demo.1 ticket_x86_demo.2) as [H1 H2].
  - done.
  - done.
  - done.
  - done.
  - apply ticket16_init_returns.
  - apply round_robin_pair.
  - split; [exact H1|]. split; [exact H2|]. split; [vm_compute; reflexivity|].
    assert (ticket_x86_demo.1 = [Ret tt; Ret tt]) as -> by (vm_compute; reflexivity).
    by repeat constructor.
Defined.
