(* ===== verification/PfLock.v ===== *)
(** [ck_pflock.h]: the phase-fair reader-writer lock.  Writers queue for tickets, and
    readers that find a writer wait for the end of its phase only. *)

From S2P Require Export RwLock Ticket.
Set Warnings "-rewrite-rw".

(** * The code: [rin], [rout], [win] and [wout] at offsets 0 to 3 *)

Module PfLock.

Definition rin (pf : Z) : Z := pf.
Definition rout (pf : Z) : Z := pf + 1.
Definition win (pf : Z) : Z := pf + 2.
Definition wout (pf : Z) : Z := pf + 3.

Definition CK_PFLOCK_LSB : Z := 4294967280.
Definition CK_PFLOCK_RINC : Z := 256.
Definition CK_PFLOCK_WBITS : Z := 3.
Definition CK_PFLOCK_PRES : Z := 2.
Definition CK_PFLOCK_PHID : Z := 1.

Definition ck_pflock_init (pf : Z) : prog unit :=
  st (rin pf) 0 ;; st (rout pf) 0 ;; st (win pf) 0 ;; st (wout pf) 0 ;; ck_pr_barrier.

Definition ck_pflock_write_unlock (pf : Z) : prog unit :=
  ck_pr_fence F_unlock ;;
  ck_pr_and (rin pf) CK_PFLOCK_LSB ;;
  ck_pr_faa u32 (wout pf) 1 ;;
  Ret tt.

Definition ck_pflock_write_lock (pf : Z) : prog unit :=
  ticket <- ck_pr_faa u32 (win pf) 1 ;;
  while (w <- ck_pr_load (wout pf) ;; Ret (negb (w =? ticket))) ck_pr_stall ;;
  ticket <- ck_pr_faa u32 (rin pf) (Z.lor (Z.land ticket CK_PFLOCK_PHID) CK_PFLOCK_PRES) ;;
  while (r <- ck_pr_load (rout pf) ;; Ret (negb (r =? ticket))) ck_pr_stall ;;
  ck_pr_fence F_lock.

Definition ck_pflock_read_unlock (pf : Z) : prog unit :=
  ck_pr_fence F_unlock ;;
  ck_pr_faa u32 (rout pf) CK_PFLOCK_RINC ;;
  Ret tt.

Definition ck_pflock_read_lock (pf : Z) : prog unit :=
  r <- ck_pr_faa u32 (rin pf) CK_PFLOCK_RINC ;;
  let w := Z.land r CK_PFLOCK_WBITS in
  when (negb (w =? 0))
    (while (r <- ck_pr_load (rin pf) ;; Ret (Z.land r CK_PFLOCK_WBITS =? w)) ck_pr_stall) ;;
  ck_pr_fence F_lock.

Definition lock : rw_code :=
  RwCode no_registration no_registration
    (fun pf _ => ck_pflock_read_lock pf) (fun pf _ => ck_pflock_read_unlock pf)
    (fun pf _ => ck_pflock_write_lock pf) (fun pf _ => ck_pflock_write_unlock pf)
    None None None.

(** A word counts readers in its upper 24 bits. *)
Definition cells (pf : Z) : list Z := [rin pf; rout pf; win pf; wout pf].

Definition init (pf : Z) (ctxs : list (Z * bool)) (m : mem) : Prop :=
  m = zeros (cells pf) /\
  Z.of_nat (length ctxs) < 16777216.

End PfLock.

(** * The words *)

(** The word [rin] with [r] arrivals and the writer bits [b]. *)
Definition arrivals (r : nat) (b : Z) : Z := u32 (256 * Z.of_nat r) + b.

(** The bits of the writer of phase [c]. *)
Definition phase_bits (c : nat) : Z := 2 + Z.of_nat c mod 2.

Lemma arrivals_bits r b : 0 <= b < 4 -> Z.land (arrivals r b) PfLock.CK_PFLOCK_WBITS = b.
Proof.
  intros Hb. change PfLock.CK_PFLOCK_WBITS with (Z.ones 2). rewrite Z.land_ones //. unfold arrivals. ulia.
Qed.

Lemma arrivals_more r b : 0 <= b < 4 -> u32 (arrivals r b + PfLock.CK_PFLOCK_RINC) = arrivals (S r) b.
Proof. intros Hb. unfold arrivals, PfLock.CK_PFLOCK_RINC. rewrite Nat2Z.inj_succ. ulia. Qed.

Lemma arrivals_writer r b : 0 <= b < 4 -> u32 (arrivals r 0 + b) = arrivals r b.
Proof. intros Hb. unfold arrivals. ulia. Qed.

Lemma arrivals_clear r b : 0 <= b < 4 -> Z.land (arrivals r b) PfLock.CK_PFLOCK_LSB = arrivals r 0.
Proof.
  intros Hb. change PfLock.CK_PFLOCK_LSB with (Z.shiftl (Z.ones 28) 4). rewrite land_shifted //.
  rewrite Z.land_ones // Z.shiftl_mul_pow2 // Z.shiftr_div_pow2 //. unfold arrivals.
  change (2 ^ 4) with 16. change (2 ^ 28) with 268435456. ulia.
Qed.

(** The parity of a wrapped ticket is that of the ticket. *)
Lemma ticket_bits t :
  Z.lor (Z.land (u32 (Z.of_nat t)) PfLock.CK_PFLOCK_PHID) PfLock.CK_PFLOCK_PRES = phase_bits t.
Proof.
  change PfLock.CK_PFLOCK_PHID with (Z.ones 1). rewrite Z.land_ones //. unfold phase_bits.
  replace (u32 (Z.of_nat t) mod 2 ^ 1) with (Z.of_nat t mod 2) by (change (2 ^ 1) with 2; ulia).
  assert (Z.of_nat t mod 2 = 0 \/ Z.of_nat t mod 2 = 1) as [->| ->] by ulia; reflexivity.
Qed.

Lemma phase_bits_range c : 2 <= phase_bits c < 4.
Proof. unfold phase_bits. ulia. Qed.

(** * Ghost state

    A reader in the table carries the number of phases that have to end before it is
    admitted, and whether it is in. *)

Inductive pf_state :=
| PfIdle (c : nat)
| PfPresent (c : nat) (departures : nat)
| PfIn (c : nat).

#[global] Instance pf_state_inhabited : Inhabited pf_state := populate (PfIdle 0).

(** Phases that have ended. *)
Definition ended (s : pf_state) : nat := match s with PfIdle c | PfPresent c _ | PfIn c => c end.

Definition pf_bits (s : pf_state) : Z :=
  match s with PfIdle _ => 0 | PfPresent c _ | PfIn c => phase_bits c end.

Definition admitted (c : nat) (v : nat * bool) : bool := bool_decide (v.1 <= c)%nat.

(** The table [M] of the readers, of which [D] have left before. *)
Definition pf_table_ok (s : pf_state) (M : gmap nat (nat * bool)) (D : nat) : Prop :=
  match s with
  | PfIdle c => ∀ j v, M !! j = Some v -> (v.1 <= c)%nat
  | PfPresent c T =>
      (∀ j v, M !! j = Some v -> (v.1 <= S c)%nat /\ (v.2 = true -> (v.1 <= c)%nat)) /\
      T = (D + census (admitted c) M)%nat
  | PfIn c => ∀ j v, M !! j = Some v -> v.1 = S c /\ v.2 = false
  end.

Class pfG Σ := PfG {
  pf_mapG :: ghost_mapG Σ nat (nat * bool);
  pf_stateG :: ghost_varG Σ pf_state;
  pf_ticketG :: ticketG Σ;
}.
Definition pfΣ : gFunctors := #[ghost_mapΣ nat (nat * bool); ghost_varΣ pf_state; ticketΣ].
#[global] Instance subG_pfΣ {Σ} : subG pfΣ Σ -> pfG Σ.
Proof. solve_inG. Qed.

Record pf_name := PfName { pf_map : gname; pf_lease : gname; pf_st : gname; pf_n : nat; pf_tk : ticket_name }.

Definition pfN : namespace := nroot .@ "pflock".

Section pflock.
Context `{!ckGS Σ, !pfG Σ}.
Implicit Types (γ : pf_name) (M : gmap nat (nat * bool)) (s : pf_state) (j c D : nat).

Definition pf_is γ s : iProp Σ := ghost_var (pf_st γ) (1/2) s.
Definition pf_reader γ j (v : nat * bool) : iProp Σ := j ↪[pf_map γ] v.
Definition pf_table γ M : iProp Σ := table (pf_map γ) (pf_lease γ) (pf_n γ) M.

Definition pf_shares γ M s P : iProp Σ :=
  match s with PfIn _ => True | _ => pool snd (pf_n γ) M P end.

Definition pf_inv γ pf P : iProp Σ :=
  ∃ M s D, PfLock.rin pf ↦ arrivals (D + size M) (pf_bits s) ∗
    PfLock.rout pf ↦ u32 (256 * Z.of_nat D) ∗
    pf_table γ M ∗ pf_is γ s ∗ pf_shares γ M s P ∗ ⌜pf_table_ok s M D⌝.

(** The writers' tickets are a portable ticket lock; it protects the state between
    two phases. *)
Definition is_pf γ pf P : iProp Σ :=
  inv pfN (pf_inv γ pf P) ∗
  is_ticket32 (pf_tk γ) (PfLock.win pf) (λ c, pf_is γ (PfIdle c)) ∗
  ⌜Z.of_nat (pf_n γ) < 16777216⌝.

Ltac open_pf M s D Hok := iInv pfN as (M s D) "(>Hin & >Hout & >Ht & >Hs & Hc & >%Hok)".

Lemma pf_bits_range s : 0 <= pf_bits s < 4.
Proof. destruct s as [c|c T|c]; simpl; [lia|..]; pose proof (phase_bits_range c); lia. Qed.

(** A reader that arrives while no writer is present is in; otherwise it waits for
    the end of the phase. *)
Definition pf_arrived γ P (w : Z) : iProp Σ :=
  ∃ j, (⌜w = 0⌝ ∗ P ∗ ∃ c, pf_reader γ j (c, true)) ∨
       (∃ c, ⌜w = phase_bits c⌝ ∗ pf_reader γ j (S c, false)).

Lemma table_ok_join_idle c M D j :
  M !! j = None -> pf_table_ok (PfIdle c) M D -> pf_table_ok (PfIdle c) (<[j := (c, true)]> M) D.
Proof. intros Hj H i v [[<- <-]|[_ Hi]]%lookup_insert_Some; [done|by eapply H]. Qed.

Lemma table_ok_join_present c T M D j :
  M !! j = None -> pf_table_ok (PfPresent c T) M D ->
  pf_table_ok (PfPresent c T) (<[j := (S c, false)]> M) D.
Proof.
  intros Hj [H HT]. split.
  - intros i v [[<- <-]|[_ Hi]]%lookup_insert_Some; [done|by eapply H].
  - rewrite census_insert // HT. rewrite (_ : admitted c (S c, false) = false); [lia|].
    apply bool_decide_eq_false. simpl. lia.
Qed.

Lemma table_ok_join_in c M D j :
  M !! j = None -> pf_table_ok (PfIn c) M D -> pf_table_ok (PfIn c) (<[j := (S c, false)]> M) D.
Proof. intros Hj H i v [[<- <-]|[_ Hi]]%lookup_insert_Some; [done|by eapply H]. Qed.

Lemma pf_arrive γ pf P :
  {{{ is_pf γ pf P ∗ leases (pf_lease γ) 1 }}} ck_pr_faa u32 (PfLock.rin pf) PfLock.CK_PFLOCK_RINC
  {{{ r, RET r; pf_arrived γ P (Z.land r PfLock.CK_PFLOCK_WBITS) }}}.
Proof.
  iIntros (Φ) "[(#Hinv & _ & %Hn) Hl] HΦ". open_pf M s D Hok.
  set (v := match s with PfIdle c => (c, true) | PfPresent c _ | PfIn c => (S c, false) end).
  iMod (table_join _ _ _ _ v with "Ht Hl") as (j) "(%Hj & Ht & Hj)".
  iDestruct (table_bound with "Ht") as %Hb.
  wp_rmw "Hin". pose proof (pf_bits_range s) as Hbits.
  rewrite arrivals_more //. replace (S (D + size M)) with (D + size (<[j := v]> M))%nat
    by (rewrite map_size_insert_None //; lia).
  iSpecialize ("HΦ" $! (arrivals (D + size M) (pf_bits s))). rewrite arrivals_bits //.
  destruct s as [c|c T|c]; simpl in *.
  - iDestruct (pool_join snd _ M j v with "Hc") as "[HP Hc]"; [done..|]. iModIntro.
    iSplitR "HΦ Hj HP".
    { iExists _, (PfIdle c), D. iFrame. iPureIntro. by apply table_ok_join_idle. }
    iApply "HΦ". iExists j. iLeft. iFrame. done.
  - iModIntro. iSplitR "HΦ Hj".
    { iExists _, (PfPresent c T), D. iFrame. iSplitL.
      - simpl. rewrite (pool_same snd _ M (<[j:=v]> M)) //. by rewrite (census_join snd).
      - iPureIntro. by apply table_ok_join_present. }
    iApply "HΦ". iExists j. iRight. iExists c. by iFrame.
  - iModIntro. iSplitR "HΦ Hj".
    { iExists _, (PfIn c), D. iFrame. iPureIntro. by apply table_ok_join_in. }
    iApply "HΦ". iExists j. iRight. iExists c. by iFrame.
Qed.

(** A waiting reader is admitted as soon as the writer bits differ from those of its
    phase: only the next writer can have set others. *)
Lemma table_ok_enter s M D j c :
  M !! j = Some (S c, false) -> pf_bits s <> phase_bits c -> pf_table_ok s M D ->
  (∀ c', s <> PfIn c') /\ pf_table_ok s (<[j := (S c, true)]> M) D.
Proof.
  intros Hj Hbits Hok. destruct s as [c'|c' T|c']; simpl in *.
  - split; [done|]. intros i v [[<- <-]|[_ Hi]]%lookup_insert_Some; [by apply (Hok j (S c, false))|by eapply Hok].
  - destruct Hok as [Hok HT]. destruct (Hok j _ Hj) as [Hle _]. simpl in Hle.
    assert (S c <= c')%nat as Hlt by (destruct (decide (c = c')) as [->|]; [done|lia]).
    split; [done|]. split.
    + intros i v [[<- <-]|[_ Hi]]%lookup_insert_Some; [simpl; lia|by eapply Hok].
    + rewrite (census_keep (admitted c') M j (S c, false) (S c, true)) //.
  - destruct (Hok j _ Hj) as [Hc _]. simpl in Hc. by simplify_eq.
Qed.

Lemma pf_poll γ pf P j c :
  {{{ is_pf γ pf P ∗ pf_reader γ j (S c, false) }}} ck_pr_load (PfLock.rin pf)
  {{{ r, RET r; if Z.land r PfLock.CK_PFLOCK_WBITS =? phase_bits c then pf_reader γ j (S c, false)
                else P ∗ pf_reader γ j (S c, true) }}}.
Proof.
  iIntros (Φ) "[(#Hinv & _ & %Hn) Hj] HΦ". open_pf M s D Hok. pose proof (pf_bits_range s) as Hbits.
  iDestruct (table_lookup with "Ht Hj") as %Hj. iDestruct (table_bound with "Ht") as %Hb.
  iSpecialize ("HΦ" $! (arrivals (D + size M) (pf_bits s))). rewrite arrivals_bits //.
  destruct (Z.eqb_spec (pf_bits s) (phase_bits c)) as [He|Hne].
  - wp_load "Hin". iModIntro. iSplitR "HΦ Hj"; [|by iApply "HΦ"]. iExists M, s, D. by iFrame.
  - destruct (table_ok_enter s M D j c Hj Hne Hok) as [Hs Hok'].
    iMod (table_set _ _ _ _ _ _ (S c, true) with "Ht Hj") as "[Ht Hj]". wp_load "Hin".
    iAssert (P ∗ pf_shares γ (<[j := (S c, true)]> M) s P)%I with "[Hc]" as "[HP Hc]".
    { destruct s as [c'|c' T|c']; simpl; [..|by destruct (Hs c')];
        iApply (pool_take snd _ M j (S c, false) (S c, true) with "Hc"); done. }
    iModIntro. iSplitR "HΦ Hj HP"; [|iApply "HΦ"; iFrame].
    iExists (<[j := (S c, true)]> M), s, D. rewrite map_size_insert_Some //. by iFrame.
Qed.

Lemma wp_pflock_read_lock γ pf P :
  {{{ is_pf γ pf P ∗ leases (pf_lease γ) 1 }}} PfLock.ck_pflock_read_lock pf
  {{{ RET tt; (∃ j c, pf_reader γ j (c, true)) ∗ P }}}.
Proof.
  iIntros (Φ) "[#Hlk Hl] HΦ". rewrite /PfLock.ck_pflock_read_lock. wp_focus.
  iApply (pf_arrive with "[$Hlk $Hl]"). iIntros "!>" (r) "(%j & [(%Hw & HP & %c & Hj)|(%c & %Hw & Hj)])".
  - rewrite Hw Z.eqb_refl. wp_pures. iApply "HΦ". iFrame.
  - rewrite Hw. pose proof (phase_bits_range c) as Hc. rewrite (proj2 (Z.eqb_neq _ 0)); [|lia]. wp_pures.
    iApply (wp_while_inv (pf_reader γ j (S c, false) ∗ ▷ ((∃ j c, pf_reader γ j (c, true)) ∗ P -∗ Φ tt))
      with "[$Hj $HΦ]").
    iIntros "!> [Hj HΦ]". wp_focus. iApply (pf_poll with "[$Hlk $Hj]"). iIntros "!>" (r') "H". wp_pures.
    destruct (_ =? _).
    + wp_pures. iFrame.
    + iDestruct "H" as "[HP Hj]". wp_pures. iApply "HΦ". iFrame.
Qed.

(** A reader leaves. *)
Lemma table_ok_leave s M D j c :
  M !! j = Some (c, true) -> pf_table_ok s M D ->
  (∀ c', s <> PfIn c') /\ pf_table_ok s (delete j M) (S D).
Proof.
  intros Hj Hok. destruct s as [c'|c' T|c']; simpl in *.
  - split; [done|]. intros i v [_ Hi]%lookup_delete_Some. by eapply Hok.
  - destruct Hok as [Hok HT]. split; [done|]. split.
    + intros i v [_ Hi]%lookup_delete_Some. by eapply Hok.
    + rewrite (census_delete (admitted c') M j (c, true)) // in HT. destruct (Hok j _ Hj) as [_ Hle].
      rewrite (_ : admitted c' (c, true) = true) in HT; [lia|]. apply bool_decide_eq_true. by apply Hle.
  - by destruct (Hok j _ Hj) as [_ ?].
Qed.

Lemma pf_leave γ pf P j c :
  {{{ is_pf γ pf P ∗ pf_reader γ j (c, true) ∗ P }}} ck_pr_faa u32 (PfLock.rout pf) PfLock.CK_PFLOCK_RINC
  {{{ r, RET r; leases (pf_lease γ) 1 }}}.
Proof.
  iIntros (Φ) "((#Hinv & _ & %Hn) & Hj & HP) HΦ". open_pf M s D Hok.
  iDestruct (table_lookup with "Ht Hj") as %Hj. iDestruct (table_bound with "Ht") as %Hb.
  destruct (table_ok_leave s M D j c Hj Hok) as [Hs Hok'].
  iMod (table_leave with "Ht Hj") as "[Ht Hl]". wp_rmw "Hout".
  iAssert (pf_shares γ (delete j M) s P) with "[Hc HP]" as "Hc".
  { destruct s as [c'|c' T|c']; simpl; [..|done]; by iApply (pool_put snd _ M j (c, true) with "HP Hc"). }
  iModIntro. iSplitR "HΦ Hl"; [|by iApply "HΦ"]. iExists (delete j M), s, (S D).
  assert (size M = S (size (delete j M))) as Hsize.
  { rewrite -{1}(insert_delete_id M j (c, true)) // map_size_insert_None //. apply lookup_delete_eq. }
  rewrite Hsize Nat.add_succ_r u32_add_l. iFrame.
  rewrite Nat2Z.inj_succ /PfLock.CK_PFLOCK_RINC. replace (256 * Z.succ (Z.of_nat D)) with (256 * Z.of_nat D + 256) by lia.
  by iFrame.
Qed.

Lemma wp_pflock_read_unlock γ pf P :
  {{{ is_pf γ pf P ∗ (∃ j c, pf_reader γ j (c, true)) ∗ P }}} PfLock.ck_pflock_read_unlock pf
  {{{ RET tt; leases (pf_lease γ) 1 }}}.
Proof.
  iIntros (Φ) "(#Hlk & (%j & %c & Hj) & HP) HΦ". rewrite /PfLock.ck_pflock_read_unlock. wp_pures.
  iApply (pf_leave with "[$Hlk $Hj $HP]"). iIntros "!>" (r) "Hl". wp_pures. by iApply "HΦ".
Qed.

(** ** Writers *)

Lemma census_admitted_all c M D : pf_table_ok (PfIdle c) M D -> census (admitted c) M = size M.
Proof. intros H. apply census_all. intros j v Hj. apply bool_decide_eq_true. by eapply H. Qed.

(** A writer announces itself; the readers that arrived before it are those to wait
    for. *)
Lemma pf_announce γ pf P c :
  {{{ is_pf γ pf P ∗ pf_is γ (PfIdle c) }}} ck_pr_faa u32 (PfLock.rin pf) (phase_bits c)
  {{{ T, RET u32 (256 * Z.of_nat T); pf_is γ (PfPresent c T) }}}.
Proof.
  iIntros (Φ) "[(#Hinv & _ & %Hn) Hi] HΦ". open_pf M s D Hok.
  iDestruct (ghost_var_agree with "Hi Hs") as %<-.
  iMod (ghost_var_update_halves (PfPresent c (D + size M)) with "Hi Hs") as "[Hi Hs]".
  wp_rmw "Hin". pose proof (phase_bits_range c) as Hc. rewrite arrivals_writer; [|lia].
  iModIntro. iSplitR "HΦ Hi".
  { iExists M, (PfPresent c (D + size M)), D. iFrame. iPureIntro. split.
    - intros j v Hj. apply Hok in Hj. lia.
    - by rewrite (census_admitted_all c M D). }
  unfold arrivals. rewrite Z.add_0_r. by iApply "HΦ".
Qed.

(** It is in once as many readers have left. *)
Lemma pf_departed γ pf P c T :
  {{{ is_pf γ pf P ∗ pf_is γ (PfPresent c T) }}} ck_pr_load (PfLock.rout pf)
  {{{ r, RET r; if r =? u32 (256 * Z.of_nat T) then pf_is γ (PfIn c) ∗ copies (pf_n γ) P
                else pf_is γ (PfPresent c T) }}}.
Proof.
  iIntros (Φ) "[(#Hinv & _ & %Hn) Hi] HΦ". open_pf M s D Hok.
  iDestruct (ghost_var_agree with "Hi Hs") as %<-. iDestruct (table_bound with "Ht") as %Hb.
  destruct (Z.eqb_spec (u32 (256 * Z.of_nat D)) (u32 (256 * Z.of_nat T))) as [He|Hne].
  - destruct Hok as [Hok HT]. pose proof (census_le_size (admitted c) M) as Hle.
    assert (256 * Z.of_nat D = 256 * Z.of_nat T) as Heq by (apply u32_inj_near; [done|lia]).
    assert (census (admitted c) M = 0)%nat as Hz by lia. rewrite census_zero in Hz.
    assert (pf_table_ok (PfIn c) M D) as Hok'.
    { intros j v Hj. destruct (Hok j v Hj) as [H1 H2]. apply Hz in Hj. apply bool_decide_eq_false in Hj.
      split; [lia|]. destruct (v.2); [|done]. by destruct Hj; apply H2. }
    iMod (ghost_var_update_halves (PfIn c) with "Hi Hs") as "[Hi Hs]". wp_load "Hout".
    iEval (rewrite /= pool_all; [|apply census_zero; intros j v Hj; by apply Hok' in Hj as [_ ?]]) in "Hc".
    iModIntro. iSplitR "HΦ Hi Hc".
    { iExists M, (PfIn c), D. by iFrame. }
    iApply "HΦ". rewrite He Z.eqb_refl. iFrame.
  - wp_load "Hout". iModIntro. iSplitR "HΦ Hi".
    { iExists M, (PfPresent c T), D. by iFrame. }
    iApply "HΦ". by rewrite (proj2 (Z.eqb_neq _ _) Hne).
Qed.

(** The end of a phase admits every reader that waits. *)
Lemma pf_end γ pf P c :
  {{{ is_pf γ pf P ∗ pf_is γ (PfIn c) ∗ copies (pf_n γ) P }}} ck_pr_and (PfLock.rin pf) PfLock.CK_PFLOCK_LSB
  {{{ RET tt; pf_is γ (PfIdle (S c)) }}}.
Proof.
  iIntros (Φ) "((#Hinv & _ & %Hn) & Hi & HP) HΦ". open_pf M s D Hok.
  iDestruct (ghost_var_agree with "Hi Hs") as %<-.
  iMod (ghost_var_update_halves (PfIdle (S c)) with "Hi Hs") as "[Hi Hs]".
  wp_rmw "Hin". pose proof (phase_bits_range c) as Hr. rewrite arrivals_clear; [|simpl; lia].
  iModIntro. iSplitR "HΦ Hi"; [|by iApply "HΦ"]. iExists M, (PfIdle (S c)), D. iFrame. iSplitL.
  - rewrite /= pool_all //. apply census_zero. intros j v Hj. by apply Hok in Hj as [_ ?].
  - iPureIntro. intros j v Hj. apply Hok in Hj as [-> _]. done.
Qed.

(** The tickets of the writers. *)
Lemma wout_position pf : PfLock.wout pf = Ticket.position (PfLock.win pf).
Proof. unfold PfLock.wout, PfLock.win, Ticket.position. lia. Qed.

Definition pf_permit γ : iProp Σ := permits (pf_tk γ) 1.
Definition pf_writing γ : iProp Σ := ∃ c, serving (pf_tk γ) c ∗ pf_is γ (PfIn c).

Lemma wp_pflock_write_lock γ pf P :
  {{{ is_pf γ pf P ∗ pf_permit γ }}} PfLock.ck_pflock_write_lock pf
  {{{ RET tt; pf_writing γ ∗ copies (pf_n γ) P }}}.
Proof.
  iIntros (Φ) "[#Hlk Hp] HΦ". iPoseProof "Hlk" as "(_ & #Htk & _)".
  rewrite /PfLock.ck_pflock_write_lock /pf_permit wout_position. wp_focus.
  iApply (ticket32_take with "[$Htk $Hp]"). iIntros "!>" (t) "Ht". wp_focus.
  iApply (wp_while_inv (ticket (pf_tk γ) t ∗ ▷ (pf_writing γ ∗ copies (pf_n γ) P -∗ Φ tt)) with "[$Ht $HΦ]").
  iIntros "!> [Ht HΦ]". wp_focus.
  iApply (ticket32_poll _ (PfLock.win pf) with "[$Htk $Ht]").
  iIntros "!>" (p) "[(-> & Hserve & Hi)|(%Hne & Ht)]".
  2:{ rewrite (proj2 (Z.eqb_neq _ _) Hne). wp_pures. iFrame. }
  rewrite Z.eqb_refl. wp_pures. rewrite ticket_bits.
  iApply (pf_announce with "[$Hlk $Hi]"). iIntros "!>" (T) "Hi". wp_focus.
  iApply (wp_while_inv (pf_is γ (PfPresent t T) ∗ serving (pf_tk γ) t ∗
                        ▷ (pf_writing γ ∗ copies (pf_n γ) P -∗ Φ tt)) with "[$Hi $HΦ $Hserve]").
  iIntros "!> (Hi & Hserve & HΦ)". wp_focus. iApply (pf_departed with "[$Hlk $Hi]").
  iIntros "!>" (r) "H". wp_pures. destruct (r =? _); cbn [negb]; wp_pures; [|iFrame].
  iDestruct "H" as "[Hi HP]". iApply "HΦ". iFrame.
Qed.

Lemma wp_pflock_write_unlock γ pf P :
  {{{ is_pf γ pf P ∗ pf_writing γ ∗ copies (pf_n γ) P }}} PfLock.ck_pflock_write_unlock pf
  {{{ RET tt; pf_permit γ }}}.
Proof.
  iIntros (Φ) "(#Hlk & (%c & Hserve & Hi) & HP) HΦ". iPoseProof "Hlk" as "(_ & #Htk & _)".
  rewrite /PfLock.ck_pflock_write_unlock. wp_pures.
  iApply (pf_end with "[$Hlk $Hi $HP]"). iIntros "!> Hi". wp_focus.
  rewrite wout_position.
  iApply (ticket32_advance with "[$Htk $Hserve $Hi]"). iIntros "!>" (p) "Hp". wp_pures. by iApply "HΦ".
Qed.

Lemma pf_cells_nodup pf : NoDup (PfLock.cells pf).
Proof.
  unfold PfLock.cells, PfLock.rin, PfLock.rout, PfLock.win, PfLock.wout.
  rewrite !NoDup_cons !elem_of_cons !elem_of_nil. repeat split; try lia. apply NoDup_nil_2.
Qed.

Lemma pf_alloc pf (ctxs : list (Z * bool)) m P E :
  PfLock.init pf ctxs m ->
  ([∗ map] l ↦ v ∈ m, l ↦ v) -∗ copies (length ctxs) P ={E}=∗
  ∃ γ, ⌜pf_n γ = length ctxs⌝ ∗ is_pf γ pf P ∗
    [∗ list] _ ∈ ctxs, leases (pf_lease γ) 1 ∗ pf_permit γ.
Proof.
  iIntros ([-> Hn]) "Hm HP". 
  iDestruct (zeros_own with "Hm") as "(Hin & Hout & Hwin & Hwout & _)"; [apply pf_cells_nodup|].
  iMod (table_alloc (V:=nat * bool) (length ctxs)) as (γm γp) "[Ht Hl]".
  iMod (ghost_var_alloc (PfIdle 0)) as (γs) "[Hs Hs']".
  iMod (ticket_alloc cells32 ticketN (PfLock.win pf) ctxs.*1 (λ c, ghost_var γs (1/2) (PfIdle c))
    with "[$Hwin Hwout] Hs'") as (γt) "(%Hγt & Htk & Hps)"; [by rewrite wout_position|].
  set (γ := PfName γm γp γs (length ctxs) γt). iExists γ. rewrite length_fmap in Hγt.
  iMod (inv_alloc pfN _ (pf_inv γ pf P) with "[Hin Hout Ht Hs HP]") as "#Hinv".
  { iExists ∅, (PfIdle 0), 0%nat. iFrame. rewrite /= pool_all //. iFrame. iPureIntro. by intros j v. }
  iModIntro. iSplit; [done|]. iFrame "Hinv Htk". iSplit; [iPureIntro; simpl; lia|].
  iDestruct (leases_list with "Hl") as "Hl". rewrite big_sepL_fmap. iCombine "Hl Hps" as "H".
  by rewrite -big_sepL_sep.
Qed.

#[global] Instance pflock_spec : RwSpec PfLock.lock PfLock.init.
Proof.
  refine (Build_RwSpec _ _ _ _ pf_name pf_n is_pf
            (λ γ _ _, leases (pf_lease γ) 1 ∗ pf_permit γ)%I (λ γ _ _, leases (pf_lease γ) 1 ∗ pf_permit γ)%I
            (λ γ _ _, (∃ j c, pf_reader γ j (c, true)) ∗ pf_permit γ)%I
            (λ γ _, leases (pf_lease γ) 1 ∗ pf_writing γ)%I
            _ pf_alloc _ _ _ _ _ _ _ _ _).
  - iIntros (γ pf P c w Φ) "[_ Hc] HΦ". rewrite /= /no_registration. wp_pures. by iApply "HΦ".
  - iIntros (γ pf P c w Φ) "_ HΦ". rewrite /= /no_registration. by wp_pures.
  - iIntros (γ pf P c w Φ) "(#Hlk & Hc & Hp) HΦ".
    iApply (wp_pflock_read_lock with "[$Hlk $Hc]"). iIntros "!> [Hj HP]". iApply "HΦ". iFrame.
  - iIntros (γ pf P c w Φ) "(#Hlk & [Hj Hp] & HP) HΦ".
    iApply (wp_pflock_read_unlock with "[$Hlk $Hj $HP]"). iIntros "!> Hc". iApply "HΦ". iFrame.
  - iIntros (γ pf P c Φ) "(#Hlk & Hc & Hp) HΦ".
    iApply (wp_pflock_write_lock with "[$Hlk $Hp]"). iIntros "!> [Hw HP]". iApply "HΦ". iFrame.
  - iIntros (γ pf P c Φ) "(#Hlk & [Hc Hw] & HP) HΦ".
    iApply (wp_pflock_write_unlock with "[$Hlk $Hw $HP]"). iIntros "!> Hp". iApply "HΦ". iFrame.
  - done.
  - done.
  - done.
Defined.
End pflock.

(** * Theorem *)

Definition pflockΣ : gFunctors := #[rwClientΣ; pfΣ].

Lemma pflock_init_returns pf m :
  has_cells (PfLock.cells pf) m -> returns (PfLock.ck_pflock_init pf) m tt (zeros (PfLock.cells pf)).
Proof. apply (store_zeros_returns (PfLock.cells pf)). Qed.

(** C11. The phase-fair lock [ck_pflock], initialised over any memory, for fewer than 2^24
    threads under every scheduler and across wrap-around of all four counters: no
    step faults; while a writer is in its critical section no other writer and no
    reader is in one, although waiting readers are let in by any change of the writer
    bits; every reader sees what complete writes left; and no write is lost. *)
Theorem pflock_exclusion pf d ts m m' ps σ :
  has_cells (PfLock.cells pf) m -> returns (PfLock.ck_pflock_init pf) m tt m' ->
  Z.of_nat (length ts) < 16777216 -> rw_words_ok d m' -> Forall rw_thread_ok ts ->
  rtc sys_step (rw_config PfLock.lock pf d ts m') (ps, σ) ->
  rw_ok PfLock.lock d ts ps σ /\ (∀ p, p ∈ ps -> safe p σ).
Proof.
  intros Hcells Hinit Hn Hd Hts Hsteps.
  destruct (returns_det _ _ _ _ _ _ Hinit (pflock_init_returns pf m Hcells)) as [_ ->].
  eapply (rw_lock_exclusion pflockΣ _ PfLock.init); [apply _|split; [done|]|done..|exact Hsteps].
  by rewrite length_map.
Qed.

Definition pflock_demo_mem : mem := list_to_map [(1, 5); (2, 6); (3, 7); (4, 8)].
Definition pflock_demo : config (nat * bool) :=
  round_robin 300 (rw_config PfLock.lock 1 rw_demo_words rw_demo_threads (zeros [1; 2; 3; 4])).

Lemma pflock_exclusion_witness :
  rw_ok PfLock.lock rw_demo_words rw_demo_threads pflock_demo.1 pflock_demo.2 /\
  forallb is_ret pflock_demo.1 = true /\ pflock_demo.2 !! 12 = Some 1.
Proof.
  assert (has_cells (PfLock.cells 1) pflock_demo_mem) as Hcells.
  { split; [apply pf_cells_nodup|]. apply (bool_decide_unpack _). vm_compute. exact I. }
  destruct (pflock_exclusion 1 rw_demo_words rw_demo_threads pflock_demo_mem (zeros [1; 2; 3; 4])
    pflock_demo.1 pflock_demo.2) as [H _].
  - exact Hcells.
  - by apply pflock_init_returns.
  - simpl. lia.
  - apply rw_demo_words_ok; vm_compute; reflexivity.
  - apply rw_demo_threads_ok.
  - apply round_robin_pair.
  - split; [exact H|]. split; vm_compute; reflexivity.
Defined.
