(* ===== verification/SpinMcs.v ===== *)
(** The MCS queue lock [ck_spinlock_mcs]: every waiting thread spins on a node of
    its own, and the holder wakes up the thread behind it. *)

From S2P Require Export Lock.
Set Warnings "-rewrite-rw".

(** * ck_spinlock_mcs

    A node has [locked] at offset 0 and [next] at offset 1; the lock is the cell
    that holds the address of the last node, or [NULL]. *)

Module Mcs.

Definition locked (node : Z) : Z := node.
Definition next (node : Z) : Z := node + 1.

Definition ck_spinlock_mcs_init (queue : Z) : prog unit := st queue NULL ;; ck_pr_barrier.

Definition ck_spinlock_mcs_trylock (queue node : Z) : prog bool :=
  st (locked node) 1 ;;
  st (next node) NULL ;;
  ck_pr_fence F_store_atomic ;;
  r <- ck_pr_cas queue NULL node ;;
  ck_pr_fence F_lock ;;
  Ret r.

Definition ck_spinlock_mcs_locked (queue : Z) : prog bool :=
  v <- ck_pr_load queue ;; ck_pr_fence F_acquire ;; Ret (negb (v =? NULL)).

Definition ck_spinlock_mcs_lock (queue node : Z) : prog unit :=
  st (locked node) 1 ;;
  st (next node) NULL ;;
  ck_pr_fence F_store_atomic ;;
  previous <- ck_pr_fas queue node ;;
  when (negb (previous =? NULL)) (
    ck_pr_store (next previous) node ;;
    while (v <- ck_pr_load (locked node) ;; Ret (v =? 1)) ck_pr_stall) ;;
  ck_pr_fence F_lock.

(** The loop that waits for the incoming request to link its node. *)
Definition wait_next (node : Z) : prog Z :=
  Iter (fun _ : unit =>
    next <- ck_pr_load (next node) ;;
    if negb (next =? NULL) then break next
    else ck_pr_stall ;; continue tt) tt.

(** [None]: the early return, after the queue became empty. *)
Definition ck_spinlock_mcs_unlock (queue node : Z) : prog unit :=
  ck_pr_fence F_unlock ;;
  next <- ck_pr_load (next node) ;;
  o <- (if next =? NULL then
          tail <- ck_pr_load queue ;;
          empty <- (if tail =? node then ck_pr_cas queue node NULL else Ret false) ;;
          if empty : bool then Ret None
          else next <- wait_next node ;; Ret (Some next)
        else Ret (Some next)) ;;
  match o with
  | Some next => ck_pr_store (locked next) 0
  | None => Ret tt
  end.

(** The context of a thread is its node; with [try] the thread repeats [trylock]
    until it succeeds. *)
Definition lock (try : bool) : lock_code :=
  LockCode (fun lk node =>
              if try then while (r <- ck_spinlock_mcs_trylock lk node ;; Ret (negb r)) ck_pr_stall
              else ck_spinlock_mcs_lock lk node)
           ck_spinlock_mcs_unlock.

Definition cells (nodes : list Z) : list Z := nodes ≫= (fun c => [locked c; next c]).

(** The lock, initialised, and the nodes of the threads, with any contents. *)
Definition init (lk : Z) (nodes : list Z) (m : mem) : Prop :=
  has_cells (lk :: cells nodes) m /\ m !! lk = Some NULL /\ NULL ∉ nodes.

End Mcs.

(** * Ghost state

    Four exclusive tokens for every node.  [fin c] is with the thread that has [c]
    in the queue, until it leaves; [succ c] is the right to link a successor to
    [c]: the queue holds it while [c] is the last node, then the next thread
    does; [wait c] is with the thread while it spins on [c]; [grant c] is the
    right to wake [c] up. *)

Class mcsG Σ := McsG { mcs_tokenG :: tokenG Σ }.
Definition mcsΣ : gFunctors := #[tokenΣ].
#[global] Instance subG_mcsΣ {Σ} : subG mcsΣ Σ -> mcsG Σ.
Proof. solve_inG. Qed.

Record mcs_toks := McsToks { mt_fin : gname; mt_succ : gname; mt_wait : gname; mt_grant : gname }.
Record mcs_name := McsName { mn_nodes : list Z; mn_toks : Z -> mcs_toks }.

Definition mcsN : namespace := nroot .@ "spinlock_mcs".

Section mcs.
Context `{!ckGS Σ, !mcsG Σ}.
Implicit Types (γ : mcs_name) (R : iProp Σ) (c : Z).

Definition fin γ c : iProp Σ := token (mt_fin (mn_toks γ c)).
Definition succ γ c : iProp Σ := token (mt_succ (mn_toks γ c)).
Definition wait γ c : iProp Σ := token (mt_wait (mn_toks γ c)).
Definition grant γ c : iProp Σ := token (mt_grant (mn_toks γ c)).

(** The [next] field of [c]: with its thread, no successor yet, or linked. *)
Definition next_state γ c : iProp Σ :=
  fin γ c ∗ succ γ c ∨ Mcs.next c ↦ NULL ∨
  ∃ s, ⌜s <> NULL /\ s ∈ mn_nodes γ⌝ ∗ Mcs.next c ↦ s ∗ succ γ c ∗ grant γ s.

(** The [locked] field of [c]: with its thread, waiting, or woken up with [R]. *)
Definition locked_state γ R c : iProp Σ :=
  wait γ c ∗ grant γ c ∨ Mcs.locked c ↦ 1 ∨ Mcs.locked c ↦ 0 ∗ R ∗ grant γ c.

Definition queue_state γ lk R : iProp Σ :=
  lk ↦ NULL ∗ R ∨ ∃ c, ⌜c <> NULL /\ c ∈ mn_nodes γ⌝ ∗ lk ↦ c ∗ succ γ c.

Definition mcs_nodes γ R : iProp Σ := [∗ list] c ∈ mn_nodes γ, next_state γ c ∗ locked_state γ R c.

Definition is_mcs γ lk R : iProp Σ := inv mcsN (queue_state γ lk R ∗ mcs_nodes γ R).

(** A node out of the queue, and the holder's. *)
Definition mcs_ctx γ c : iProp Σ :=
  ⌜c <> NULL /\ c ∈ mn_nodes γ⌝ ∗ (∃ v, Mcs.locked c ↦ v) ∗ ∃ v, Mcs.next c ↦ v.
Definition mcs_holds γ c : iProp Σ :=
  ⌜c <> NULL /\ c ∈ mn_nodes γ⌝ ∗ (∃ v, Mcs.locked c ↦ v) ∗ fin γ c.

(** The state of one node, out of the invariant and back. *)
Lemma mcs_node_acc γ R c :
  c ∈ mn_nodes γ -> ▷ mcs_nodes γ R -∗
  ▷ next_state γ c ∗ ▷ locked_state γ R c ∗
  (▷ next_state γ c -∗ ▷ locked_state γ R c -∗ ▷ mcs_nodes γ R).
Proof.
  iIntros ([i Hi]%list_elem_of_lookup) "H". rewrite /mcs_nodes big_sepL_later.
  iDestruct (big_sepL_lookup_acc with "H") as "[[$ $] H]"; [done|].
  iIntros "Hn Hl". iApply "H". iFrame.
Qed.

(** The two resources named in [H] exclude each other. *)
Ltac excl H := by iDestruct (token_exclusive with H) as %[].
Ltac excl_cell H := by iDestruct (pointsto_ne with H) as %[].

Lemma mcs_enqueue γ lk R c :
  {{{ is_mcs γ lk R ∗ ⌜c <> NULL /\ c ∈ mn_nodes γ⌝ ∗ Mcs.locked c ↦ 1 ∗ Mcs.next c ↦ NULL }}}
    ck_pr_fas lk c
  {{{ p, RET p; fin γ c ∗ (⌜p = NULL⌝ ∗ Mcs.locked c ↦ 1 ∗ R ∨
        ⌜p <> NULL /\ p ∈ mn_nodes γ⌝ ∗ succ γ p ∗ wait γ c ∗ grant γ c) }}}.
Proof.
  iIntros (Φ) "(#Hinv & [%Hc %Hin] & Hl & Hn) HΦ".
  iInv mcsN as "[Hq Hns]". iDestruct (mcs_node_acc _ _ c with "Hns") as "(Hcn & Hcl & Hns)"; [done|].
  iDestruct "Hcn" as "[>[Hf Hs]|[>Hn'|(%s & _ & >Hn' & _)]]"; [|excl_cell "Hn Hn'"..].
  iDestruct "Hq" as "[[>Hq HR]|(%p & >[%Hp %Hpin] & >Hq & >Hps)]"; wp_rmw "Hq"; iModIntro.
  - iSplitR "HΦ Hf Hl HR".
    { iSplitL "Hs Hq"; [iRight; iExists c; by iFrame|]. iApply ("Hns" with "[Hn] Hcl"). iNext. by iRight; iLeft. }
    iApply "HΦ". iFrame. iLeft. by iFrame.
  - iDestruct "Hcl" as "[[Hw Hg]|[Hl'|(Hl' & _)]]"; [|excl_cell "Hl Hl'"..].
    iSplitR "HΦ Hf Hps Hw Hg".
    { iSplitL "Hs Hq"; [iRight; iExists c; by iFrame|].
      iApply ("Hns" with "[Hn]"); iNext; [by iRight; iLeft|by iRight; iLeft]. }
    iApply "HΦ". iFrame. iRight. by iFrame.
Qed.

Lemma mcs_link γ lk R p c :
  {{{ is_mcs γ lk R ∗ ⌜p ∈ mn_nodes γ⌝ ∗ ⌜c <> NULL /\ c ∈ mn_nodes γ⌝ ∗ succ γ p ∗ grant γ c }}}
    ck_pr_store (Mcs.next p) c
  {{{ RET tt; True }}}.
Proof.
  iIntros (Φ) "(#Hinv & %Hp & [%Hc %Hin] & Hs & Hg) HΦ".
  iInv mcsN as "[Hq Hns]". iDestruct (mcs_node_acc _ _ p with "Hns") as "(Hpn & Hpl & Hns)"; [done|].
  iDestruct "Hpn" as "[>[_ Hs']|[>Hn|(%s & _ & _ & >Hs' & _)]]"; [excl "Hs Hs'"| |excl "Hs Hs'"].
  wp_store "Hn". iModIntro. iSplitR "HΦ"; [|by iApply "HΦ"].
  iFrame "Hq". iApply ("Hns" with "[-Hpl] Hpl"). iNext. iRight. iRight. iExists c. by iFrame.
Qed.

Lemma mcs_poll γ lk R c :
  {{{ is_mcs γ lk R ∗ ⌜c ∈ mn_nodes γ⌝ ∗ wait γ c }}} ck_pr_load (Mcs.locked c)
  {{{ v, RET v; ⌜v = 1⌝ ∗ wait γ c ∨ ⌜v = 0⌝ ∗ Mcs.locked c ↦ 0 ∗ R }}}.
Proof.
  iIntros (Φ) "(#Hinv & %Hin & Hw) HΦ".
  iInv mcsN as "[Hq Hns]". iDestruct (mcs_node_acc _ _ c with "Hns") as "(Hcn & Hcl & Hns)"; [done|].
  iDestruct "Hcl" as "[>[Hw' _]|[>Hl|(>Hl & HR & >Hg)]]"; [excl "Hw Hw'"|..]; wp_load "Hl"; iModIntro.
  - iSplitR "HΦ Hw".
    { iFrame "Hq". iApply ("Hns" with "Hcn"). iNext. by iRight; iLeft. }
    iApply "HΦ". iLeft. by iFrame.
  - iSplitR "HΦ Hl HR".
    { iFrame "Hq". iApply ("Hns" with "Hcn"). iNext. iLeft. iFrame. }
    iApply "HΦ". iRight. by iFrame.
Qed.

Lemma mcs_next γ lk R c :
  {{{ is_mcs γ lk R ∗ ⌜c ∈ mn_nodes γ⌝ ∗ fin γ c }}} ck_pr_load (Mcs.next c)
  {{{ v, RET v; ⌜v = NULL⌝ ∗ fin γ c ∨
        ⌜v <> NULL /\ v ∈ mn_nodes γ⌝ ∗ Mcs.next c ↦ v ∗ grant γ v }}}.
Proof.
  iIntros (Φ) "(#Hinv & %Hin & Hf) HΦ".
  iInv mcsN as "[Hq Hns]". iDestruct (mcs_node_acc _ _ c with "Hns") as "(Hcn & Hcl & Hns)"; [done|].
  iDestruct "Hcn" as "[>[Hf' _]|[>Hn|(%s & >%Hs & >Hn & >Hsc & >Hg)]]"; [excl "Hf Hf'"|..];
    wp_load "Hn"; iModIntro.
  - iSplitR "HΦ Hf".
    { iFrame "Hq". iApply ("Hns" with "[Hn] Hcl"). iNext. by iRight; iLeft. }
    iApply "HΦ". iLeft. by iFrame.
  - iSplitR "HΦ Hn Hg".
    { iFrame "Hq". iApply ("Hns" with "[Hf Hsc] Hcl"). iNext. iLeft. iFrame. }
    iApply "HΦ". iRight. by iFrame.
Qed.

Lemma mcs_wake γ lk R s :
  {{{ is_mcs γ lk R ∗ ⌜s ∈ mn_nodes γ⌝ ∗ grant γ s ∗ R }}} ck_pr_store (Mcs.locked s) 0
  {{{ RET tt; True }}}.
Proof.
  iIntros (Φ) "(#Hinv & %Hin & Hg & HR) HΦ".
  iInv mcsN as "[Hq Hns]". iDestruct (mcs_node_acc _ _ s with "Hns") as "(Hcn & Hcl & Hns)"; [done|].
  iDestruct "Hcl" as "[>[_ Hg']|[>Hl|(_ & _ & >Hg')]]"; [excl "Hg Hg'"| |excl "Hg Hg'"].
  wp_store "Hl". iModIntro. iSplitR "HΦ"; [|by iApply "HΦ"].
  iFrame "Hq". iApply ("Hns" with "Hcn"). iNext. iRight. iRight. iFrame.
Qed.
(** An attempt on an empty queue: [trylock] has not put its node in the queue yet. *)
Lemma mcs_try γ lk R c :
  {{{ is_mcs γ lk R ∗ ⌜c <> NULL /\ c ∈ mn_nodes γ⌝ ∗ Mcs.next c ↦ NULL }}}
    ck_pr_cas lk NULL c
  {{{ b, RET b; match b with true => fin γ c ∗ R | false => Mcs.next c ↦ NULL end }}}.
Proof.
  iIntros (Φ) "(#Hinv & [%Hc %Hin] & Hn) HΦ".
  iInv mcsN as "[[[>Hq HR]|(%p & >[%Hp %Hpin] & >Hq & >Hps)] Hns]"; wp_cas "Hq".
  - iDestruct (mcs_node_acc _ _ c with "Hns") as "(Hcn & Hcl & Hns)"; [done|].
    iDestruct "Hcn" as "[>[Hf Hs]|[>Hn'|(%s & _ & >Hn' & _)]]"; [|excl_cell "Hn Hn'"..].
    iModIntro. iSplitR "HΦ Hf HR".
    { iSplitL "Hs Hq"; [iRight; iExists c; by iFrame|]. iApply ("Hns" with "[Hn] Hcl"). iNext. by iRight; iLeft. }
    iApply ("HΦ" $! true). iFrame.
  - rewrite (proj2 (Z.eqb_neq _ _) Hp). iModIntro. iSplitR "HΦ Hn".
    { iFrame "Hns". iRight. iExists p. by iFrame. }
    by iApply ("HΦ" $! false).
Qed.

(** The holder leaves an empty queue, unless another thread has joined. *)
Lemma mcs_leave γ lk R c :
  {{{ is_mcs γ lk R ∗ ⌜c <> NULL /\ c ∈ mn_nodes γ⌝ ∗ fin γ c ∗ R }}} ck_pr_cas lk c NULL
  {{{ b, RET b; match b with true => Mcs.next c ↦ NULL | false => fin γ c ∗ R end }}}.
Proof.
  iIntros (Φ) "(#Hinv & [%Hc %Hin] & Hf & HR) HΦ".
  iInv mcsN as "[[[>Hq HR']|(%p & >[%Hp %Hpin] & >Hq & >Hps)] Hns]"; wp_cas "Hq".
  - rewrite (proj2 (Z.eqb_neq NULL c)); [|done]. iModIntro. iSplitR "HΦ Hf HR"; [iFrame; iLeft; iFrame|].
    iApply ("HΦ" $! false). iFrame.
  - destruct (Z.eqb_spec p c) as [->|Hne]; last first.
    { iModIntro. iSplitR "HΦ Hf HR"; [iFrame "Hns"; iRight; iExists p; by iFrame|]. iApply ("HΦ" $! false). iFrame. }
    iDestruct (mcs_node_acc _ _ c with "Hns") as "(Hcn & Hcl & Hns)"; [done|].
    iDestruct "Hcn" as "[>[Hf' _]|[>Hn|(%s & _ & _ & >Hps' & _)]]"; [excl "Hf Hf'"| |excl "Hps Hps'"].
    iModIntro. iSplitR "HΦ Hn"; [|by iApply ("HΦ" $! true)].
    iSplitL "Hq HR"; [iLeft; by iFrame|]. iApply ("Hns" with "[Hf Hps] Hcl"). iNext. iLeft. iFrame.
Qed.

Lemma mcs_tail γ lk R : {{{ is_mcs γ lk R }}} ck_pr_load lk {{{ v, RET v; True }}}.
Proof.
  iIntros (Φ) "#Hinv HΦ".
  iInv mcsN as "[[[>Hq HR']|(%p & >%Hp & >Hq & >Hps)] Hns]"; wp_load "Hq"; iModIntro.
  - iSplitR "HΦ"; [iFrame; iLeft; iFrame|]. by iApply "HΦ".
  - iSplitR "HΦ"; [iFrame "Hns"; iRight; iExists p; by iFrame|]. by iApply "HΦ".
Qed.

(** ** The operations *)

Lemma mcs_acquire γ lk R c :
  {{{ is_mcs γ lk R ∗ mcs_ctx γ c }}} Mcs.ck_spinlock_mcs_lock lk c {{{ RET tt; mcs_holds γ c ∗ R }}}.
Proof.
  iIntros (Φ) "(#Hlk & %Hc & [%v Hl] & [%w Hn]) HΦ". rewrite /Mcs.ck_spinlock_mcs_lock.
  wp_store "Hl". wp_store "Hn". wp_pures.
  iApply (mcs_enqueue with "[$Hlk $Hl $Hn]"); [done|].
  iIntros "!>" (p) "(Hf & [(-> & Hl & HR)|([%Hp %Hpin] & Hs & Hw & Hg)])".
  - rewrite Z.eqb_refl. wp_pures. iApply "HΦ". by iFrame.
  - rewrite (proj2 (Z.eqb_neq _ _) Hp). wp_pures.
    iApply (mcs_link with "[$Hlk $Hs $Hg]"); [done|]. iIntros "!> _". wp_focus.
    iApply (wp_while_inv (wait γ c ∗ ▷ (mcs_holds γ c ∗ R -∗ Φ tt) ∗ fin γ c) with "[$Hw $HΦ $Hf]").
    iIntros "!> (Hw & HΦ & Hf)". wp_focus. iApply (mcs_poll with "[$Hlk $Hw]"); [by destruct Hc|].
    iIntros "!>" (x) "[(-> & Hw)|(-> & Hl & HR)]"; wp_pures; [by iFrame|].
    iApply "HΦ". by iFrame.
Qed.

Lemma mcs_trylock γ lk R c :
  {{{ is_mcs γ lk R ∗ mcs_ctx γ c }}} Mcs.ck_spinlock_mcs_trylock lk c
  {{{ b, RET b; match b with true => mcs_holds γ c ∗ R | false => mcs_ctx γ c end }}}.
Proof.
  iIntros (Φ) "(#Hlk & %Hc & [%v Hl] & [%w Hn]) HΦ". rewrite /Mcs.ck_spinlock_mcs_trylock.
  wp_store "Hl". wp_store "Hn". wp_pures. iApply (mcs_try with "[$Hlk $Hn]"); [done|].
  iIntros "!>" ([]) "H"; wp_pures.
  - iApply ("HΦ" $! true). iDestruct "H" as "[Hf HR]". by iFrame.
  - iApply ("HΦ" $! false). by iFrame.
Qed.

Lemma mcs_wait_next γ lk R c :
  {{{ is_mcs γ lk R ∗ ⌜c ∈ mn_nodes γ⌝ ∗ fin γ c }}} Mcs.wait_next c
  {{{ v, RET v; ⌜v <> NULL /\ v ∈ mn_nodes γ⌝ ∗ Mcs.next c ↦ v ∗ grant γ v }}}.
Proof.
  iIntros (Φ) "(#Hlk & %Hc & Hf) HΦ". rewrite /Mcs.wait_next.
  iApply (wp_loop_inv (λ _ : unit, fin γ c ∗ ▷ (∀ v, ⌜v <> NULL /\ v ∈ mn_nodes γ⌝ ∗
    Mcs.next c ↦ v ∗ grant γ v -∗ Φ v))%I with "[$Hf $HΦ]").
  iIntros "!>" (_) "[Hf HΦ]". wp_focus. iApply (mcs_next with "[$Hlk $Hf]"); [done|].
  iIntros "!>" (v) "[(-> & Hf)|([%Hv %Hvin] & Hn & Hg)]".
  - rewrite Z.eqb_refl. wp_pures. iFrame.
  - rewrite (proj2 (Z.eqb_neq _ _) Hv). wp_pures. iApply "HΦ". by iFrame.
Qed.

Lemma mcs_release γ lk R c :
  {{{ is_mcs γ lk R ∗ mcs_holds γ c ∗ R }}} Mcs.ck_spinlock_mcs_unlock lk c {{{ RET tt; mcs_ctx γ c }}}.
Proof.
  iIntros (Φ) "(#Hlk & ([%Hc %Hin] & Hl & Hf) & HR) HΦ". rewrite /Mcs.ck_spinlock_mcs_unlock. wp_pures.
  iApply (mcs_next with "[$Hlk $Hf]"); [done|].
  iIntros "!>" (v) "[(-> & Hf)|([%Hv %Hvin] & Hn & Hg)]".
  - rewrite Z.eqb_refl. wp_focus. iApply (mcs_tail with "Hlk"). iIntros "!>" (t) "_". wp_focus.
    iApply (wp_wand (Λ:=ck_lang bool) _ _ _ (λ b, match b with true => Mcs.next c ↦ NULL | false => fin γ c ∗ R end)%I
      with "[Hf HR]").
    { destruct (t =? c); [|wp_pures; iFrame].
      iApply (mcs_leave with "[$Hlk $Hf $HR]"); [done|]. by iIntros "!>" (b) "H". }
    iIntros ([]) "H"; wp_pures.
    + iApply "HΦ". by iFrame.
    + iDestruct "H" as "[Hf HR]". iApply (mcs_wait_next with "[$Hlk $Hf]"); [done|].
      iIntros "!>" (s) "([%Hs %Hsin] & Hn & Hg)". wp_pures.
      iApply (mcs_wake with "[$Hlk $Hg $HR]"); [done|]. iIntros "!> _". iApply "HΦ". by iFrame.
  - rewrite (proj2 (Z.eqb_neq _ _) Hv). wp_pures.
    iApply (mcs_wake with "[$Hlk $Hg $HR]"); [done|]. iIntros "!> _". iApply "HΦ". by iFrame.
Qed.
(** ** The lock interface *)

Lemma mcs_toks_alloc (nodes : list Z) :
  NoDup nodes ->
  ⊢ |==> ∃ t : Z -> mcs_toks, [∗ list] c ∈ nodes,
      (token (mt_fin (t c)) ∗ token (mt_succ (t c))) ∗ token (mt_wait (t c)) ∗ token (mt_grant (t c)).
Proof.
  induction 1 as [|c nodes Hc Hnd IH].
  { iModIntro. iExists (λ _, McsToks xH xH xH xH). done. }
  iMod IH as (t) "H". iMod token_alloc as (g1) "H1". iMod token_alloc as (g2) "H2".
  iMod token_alloc as (g3) "H3". iMod token_alloc as (g4) "H4". iModIntro.
  iExists (λ z, if decide (z = c) then McsToks g1 g2 g3 g4 else t z). rewrite big_sepL_cons.
  rewrite decide_True //. iFrame. iApply (big_sepL_impl with "H"). iIntros "!>" (i d Hi) "H".
  rewrite decide_False //. intros ->. by apply list_elem_of_lookup_2 in Hi.
Qed.

Lemma cells_own (nodes : list Z) :
  ([∗ list] l ∈ Mcs.cells nodes, ∃ v, l ↦ v) ⊢
  [∗ list] c ∈ nodes, (∃ v, Mcs.locked c ↦ v) ∗ ∃ v, Mcs.next c ↦ v.
Proof.
  rewrite /Mcs.cells big_sepL_bind. apply big_sepL_mono. iIntros (i c _) "($ & $ & _)".
Qed.

Lemma cells_nodup (nodes : list Z) : NoDup (Mcs.cells nodes) -> NoDup nodes.
Proof.
  rewrite /Mcs.cells. induction nodes as [|c nodes IH]; [constructor|].
  rewrite bind_cons. intros (_ & Hdis & Hnd)%NoDup_app. constructor; [|by apply IH].
  intros Hin. apply (Hdis (Mcs.locked c)); [set_solver|].
  apply list_elem_of_bind. exists c. split; [set_solver|done].
Qed.

Lemma mcs_alloc lk nodes m R E :
  Mcs.init lk nodes m ->
  ([∗ map] l ↦ v ∈ m, l ↦ v) -∗ R ={E}=∗ ∃ γ, is_mcs γ lk R ∗ [∗ list] c ∈ nodes, mcs_ctx γ c.
Proof.
  iIntros ((Hcells & Hlk & Hnull)) "Hm HR".
  iDestruct (has_cells_cons with "Hm") as "[Hq Hns]"; [done..|]. rewrite cells_own.
  iMod (mcs_toks_alloc nodes) as (t) "Ht".
  { destruct Hcells as [Hnd _]. apply NoDup_cons in Hnd as [_ Hnd]. by apply cells_nodup. }
  set (γ := McsName nodes t). iExists γ.
  iMod (inv_alloc mcsN _ (queue_state γ lk R ∗ mcs_nodes γ R) with "[Hq HR Ht]") as "$".
  { iNext. iSplitR "Ht"; [iLeft; iFrame|]. iApply (big_sepL_impl with "Ht").
    iIntros "!>" (i c _) "[H1 H2]". iSplitL "H1"; iLeft; iFrame. }
  iModIntro. iApply (big_sepL_impl with "Hns"). iIntros "!>" (i c Hi) "[$ $]". iPureIntro.
  apply list_elem_of_lookup_2 in Hi. split; [|done]. by intros ->.
Qed.

#[global] Instance mcs_spec try : LockSpec (Mcs.lock try) Mcs.init.
Proof.
  refine (Build_LockSpec _ _ _ _ mcs_name (λ γ lk R, is_mcs γ lk R) (λ γ c, mcs_ctx γ c)
            (λ γ c, mcs_holds γ c) _ mcs_alloc _ _).
  - iIntros (γ lk R c Φ) "[#Hl Hc] HΦ". destruct try; simpl; [|by iApply (mcs_acquire with "[$Hl $Hc]")].
    iApply (wp_while_inv (mcs_ctx γ c ∗ ▷ (mcs_holds γ c ∗ R -∗ Φ tt)) with "[$Hc $HΦ]").
    iIntros "!> [Hc HΦ]". wp_focus. iApply (mcs_trylock with "[$Hl $Hc]").
    iIntros "!>" ([]) "H"; wp_pures; [by iApply "HΦ"|]. iFrame.
  - iIntros (γ lk R c Φ) "(#Hl & H & HR)". by iApply (mcs_release with "[$Hl $H $HR]").
Defined.
End mcs.

(** * Theorem *)

Definition mcsTΣ : gFunctors := #[ckΣ; ghost_varΣ nat; ghost_varΣ bool; mcsΣ].

Lemma mcs_init_returns lk m v : m !! lk = Some v -> returns (Mcs.ck_spinlock_mcs_init lk) m tt (<[lk := NULL]> m).
Proof. intros Hv. unfold Mcs.ck_spinlock_mcs_init. do 2 sym_step. Qed.

(** C7. Mutual exclusion of the MCS queue lock, acquired with [lock] or by
    repeating [trylock]: any number of threads, each with its own node, under
    every scheduler.  At most one thread is in the critical section, every
    update of the unprotected counter is kept, and no step faults. *)
Theorem mcs_mutual_exclusion try lk occ cnt nodes iters m v m' ps σ :
  has_cells (lk :: Mcs.cells nodes) m -> NULL ∉ nodes -> m !! lk = Some v ->
  m !! occ = None -> m !! cnt = None -> occ <> cnt ->
  returns (Mcs.ck_spinlock_mcs_init lk) m tt m' ->
  rtc sys_step (mutex_client_config (Mcs.lock try) lk occ cnt iters nodes m') (ps, σ) ->
  mutex_ok occ cnt iters nodes ps σ /\ (∀ p, p ∈ ps -> safe p σ).
Proof.
  intros Hcells Hnull Hlk Hocc Hcnt Hne Hinit Hsteps.
  destruct (returns_det _ _ _ _ _ _ Hinit (mcs_init_returns lk m v Hlk)) as [_ ->].
  eapply (lock_mutual_exclusion mcsTΣ _ Mcs.init); [apply _|..|done|exact Hsteps].
  - split; [apply has_cells_insert; [done|set_solver]|by rewrite lookup_insert_eq].
  - rewrite lookup_insert_ne; [done|]. eapply has_cells_fresh; [done|set_solver|done].
  - rewrite lookup_insert_ne; [done|]. eapply has_cells_fresh; [done|set_solver|done].
Qed.

(** Three threads; their nodes hold arbitrary values at first. *)
Definition mcs_demo_mem : mem := list_to_map [(1, 77); (10, 3); (11, 10); (20, 9); (21, 8); (30, 0); (31, 1)].
Definition mcs_demo : config unit :=
  round_robin 250 (mutex_client_config (Mcs.lock false) 1 2 3 2 [10; 20; 30] (<[1 := NULL]> mcs_demo_mem)).

Lemma mcs_mutual_exclusion_witness :
  mutex_ok 2 3 2 [10; 20; 30] mcs_demo.1 mcs_demo.2 /\
  (∀ p, p ∈ mcs_demo.1 -> safe p mcs_demo.2) /\
  mcs_demo.2 !! 3 = Some 6 /\ Forall (fun p => p = Ret tt) mcs_demo.1.
Proof.
  destruct (mcs_mutual_exclusion false 1 2 3 [10; 20; 30] 2 mcs_demo_mem 77 (<[1 := NULL]> mcs_demo_mem)
    mcs_demo.1 mcs_demo.2) as [H1 H2].
  - split; [|set_solver]. apply (bool_decide_unpack _). vm_compute. exact I.
  - set_solver.
  - reflexivity.
  - reflexivity.
  - reflexivity.
  - done.
  - by eapply mcs_init_returns.
  - apply round_robin_pair.
  - split; [exact H1|]. split; [exact H2|]. split; [vm_compute; reflexivity|].
    assert (mcs_demo.1 = [Ret tt; Ret tt; Ret tt]) as -> by (vm_compute; reflexivity).
    by repeat constructor.
Defined.
