(* ===== verification/SpinClh.v ===== *)
(** The CLH queue lock [ck_spinlock_clh]: a thread spins on the node of the thread
    before it, and takes that node over when it leaves. *)

From S2P Require Export Lock.
Set Warnings "-rewrite-rw".

(** * ck_spinlock_clh

    A node has [wait] at offset 0 and [previous] at offset 1; the lock is the cell
    that holds the address of the last node. *)

Module Clh.

Definition wait (node : Z) : Z := node.
Definition previous (node : Z) : Z := node + 1.

Definition ck_spinlock_clh_init (lock unowned : Z) : prog unit :=
  st (previous unowned) NULL ;;
  st (wait unowned) 0 ;;
  st lock unowned ;;
  ck_pr_barrier.

Definition ck_spinlock_clh_locked (queue : Z) : prog bool :=
  head <- ck_pr_load queue ;;
  r <- ck_pr_load (wait head) ;;
  ck_pr_fence F_acquire ;;
  Ret (truthy r).

Definition ck_spinlock_clh_lock (queue thread : Z) : prog unit :=
  st (wait thread) 1 ;;
  ck_pr_fence F_store_atomic ;;
  p <- ck_pr_fas queue thread ;;
  st (previous thread) p ;;
  ck_pr_fence F_load ;;
  while (v <- ck_pr_load (wait p) ;; Ret (v =? 1)) ck_pr_stall ;;
  ck_pr_fence F_lock.

Definition ck_spinlock_clh_unlock (thread : Z) : prog unit :=
  t <- ld thread ;;
  p <- ld (previous t) ;;
  ck_pr_fence F_unlock ;;
  t <- ld thread ;;
  ck_pr_store (wait t) 0 ;;
  st thread p.

(** The context of a thread is its variable that points to its node. *)
Definition lock : lock_code :=
  LockCode (fun lk c => t <- ld c ;; ck_spinlock_clh_lock lk t) (fun _ c => ck_spinlock_clh_unlock c).

Definition cells (nodes : list Z) : list Z := nodes ≫= (fun n => [wait n; previous n]).

(** The lock with its unowned node [u], and the variables and nodes of the threads. *)
Definition init (lk : Z) (ctxs : list Z) (m : mem) : Prop :=
  ∃ u nodes,
    has_cells (lk :: wait u :: previous u :: ctxs ++ cells nodes) m /\
    m !! lk = Some u /\ m !! wait u = Some 0 /\
    Forall2 (fun c n => m !! c = Some n) ctxs nodes.

End Clh.

(** * Ghost state

    A request has two tokens: [owner] is with the thread that made it, until it
    releases the lock; [next] is the right to wait for the request: it is in the
    queue while the request is the last one, then with the next thread. *)

Class clhG Σ := ClhG { clh_tokenG :: tokenG Σ }.
Definition clhΣ : gFunctors := #[tokenΣ].
#[global] Instance subG_clhΣ {Σ} : subG clhΣ Σ -> clhG Σ.
Proof. solve_inG. Qed.

Definition clhN : namespace := nroot .@ "spinlock_clh".
Definition requestN : namespace := nroot .@ "spinlock_clh_request".

Record request := Request { rq_owner : gname; rq_next : gname }.
#[global] Instance request_inhabited : Inhabited request := populate (Request xH xH).

Section clh.
Context `{!ckGS Σ, !clhG Σ}.
Implicit Types (R : iProp Σ) (c n lk : Z).

(** A node, with any contents. *)
Definition clh_node n : iProp Σ := (∃ v, Clh.wait n ↦ v) ∗ ∃ v, Clh.previous n ↦ v.

(** A request on the node [n]: pending; released, with the node and [R] for the
    next thread; or received by it. *)
Definition request_state (rq : request) n R : iProp Σ :=
  Clh.wait n ↦ 1 ∨
  Clh.wait n ↦ 0 ∗ (∃ v, Clh.previous n ↦ v) ∗ R ∗ token (rq_owner rq) ∨
  token (rq_next rq) ∗ token (rq_owner rq).

Definition is_request rq n R : iProp Σ := inv requestN (request_state rq n R).

Definition is_clh lk R : iProp Σ :=
  inv clhN (∃ n rq, lk ↦ n ∗ is_request rq n R ∗ token (rq_next rq)).

Definition clh_ctx c : iProp Σ := ∃ n, c ↦ n ∗ clh_node n.

(** The holder keeps the node of its predecessor. *)
Definition clh_holds R c : iProp Σ :=
  ∃ n rq p, c ↦ n ∗ Clh.previous n ↦ p ∗ is_request rq n R ∗ token (rq_owner rq) ∗ clh_node p.

(** The two resources named in [H] exclude each other. *)
Ltac excl H := by iDestruct (token_exclusive with H) as %[].

Lemma request_new n R E :
  Clh.wait n ↦ 1 ={E}=∗ ∃ rq, is_request rq n R ∗ token (rq_owner rq) ∗ token (rq_next rq).
Proof.
  iIntros "Hw". iMod token_alloc as (go) "Ho". iMod token_alloc as (gn) "Hn".
  iExists (Request go gn). iFrame. iApply inv_alloc. iNext. by iLeft.
Qed.

Lemma request_released n R E :
  Clh.wait n ↦ 0 -∗ (∃ v, Clh.previous n ↦ v) -∗ R ={E}=∗
  ∃ rq, is_request rq n R ∗ token (rq_next rq).
Proof.
  iIntros "Hw Hp HR". iMod token_alloc as (go) "Ho". iMod token_alloc as (gn) "Hn".
  iExists (Request go gn). iFrame. iApply inv_alloc. iNext. iRight. iLeft. iFrame.
Qed.

(** A request becomes the last one; the thread will wait for the one before. *)
Lemma clh_enqueue lk R rq n :
  {{{ is_clh lk R ∗ is_request rq n R ∗ token (rq_next rq) }}} ck_pr_fas lk n
  {{{ p rp, RET p; is_request rp p R ∗ token (rq_next rp) }}}.
Proof.
  iIntros (Φ) "(#Hinv & #Hrq & Hn) HΦ". iInv clhN as (p rp) "(>Hlk & #Hrp & >Hp)".
  wp_rmw "Hlk". iModIntro. iSplitR "HΦ Hp"; [iExists n, rq; by iFrame|]. iApply "HΦ". by iFrame.
Qed.

Lemma clh_poll R rp p :
  {{{ is_request rp p R ∗ token (rq_next rp) }}} ck_pr_load (Clh.wait p)
  {{{ v, RET v; ⌜v = 1⌝ ∗ token (rq_next rp) ∨ ⌜v = 0⌝ ∗ clh_node p ∗ R }}}.
Proof.
  iIntros (Φ) "[#Hrp Hn] HΦ".
  iInv requestN as "[>Hw|[(>Hw & >Hp & HR & >Ho)|>[Hn' _]]]"; [..|excl "Hn Hn'"]; wp_load "Hw"; iModIntro.
  - iSplitL "Hw"; [by iLeft|]. iApply "HΦ". iLeft. by iFrame.
  - iSplitL "Hn Ho"; [iRight; iRight; iFrame|]. iApply "HΦ". iRight. by iFrame.
Qed.

Lemma clh_pass R rq n :
  {{{ is_request rq n R ∗ token (rq_owner rq) ∗ (∃ v, Clh.previous n ↦ v) ∗ R }}}
    ck_pr_store (Clh.wait n) 0
  {{{ RET tt; True }}}.
Proof.
  iIntros (Φ) "(#Hrq & Ho & Hp & HR) HΦ".
  iInv requestN as "[>Hw|[(_ & _ & _ & >Ho')|>[_ Ho']]]"; [|excl "Ho Ho'"..].
  wp_store "Hw". iModIntro. iSplitR "HΦ"; [|by iApply "HΦ"]. iRight. iLeft. iFrame.
Qed.

(** ** The operations *)

Lemma clh_acquire lk R c :
  {{{ is_clh lk R ∗ clh_ctx c }}} lk_lock Clh.lock lk c {{{ RET tt; clh_holds R c ∗ R }}}.
Proof.
  iIntros (Φ) "(#Hlk & (%n & Hc & [%v Hw] & [%p0 Hp])) HΦ". rewrite /= /Clh.ck_spinlock_clh_lock.
  wp_load "Hc". wp_store "Hw". wp_pures.
  iMod (request_new n R with "Hw") as (rq) "(#Hrq & Ho & Hn)".
  iApply (clh_enqueue with "[$Hlk $Hrq $Hn]"). iIntros "!>" (p rp) "[#Hrp Hn]". wp_store "Hp". wp_pures.
  iApply (wp_while_inv (token (rq_next rp) ∗ ▷ (clh_holds R c ∗ R -∗ Φ tt) ∗ c ↦ n ∗
    Clh.previous n ↦ p ∗ token (rq_owner rq)) with "[$Hn $HΦ $Hc $Hp $Ho]").
  iIntros "!> (Hn & HΦ & Hc & Hp & Ho)". wp_focus. iApply (clh_poll with "[$Hrp $Hn]").
  iIntros "!>" (x) "[[-> Hn]|(-> & Hnode & HR)]"; wp_pures; [by iFrame|].
  iApply "HΦ". iFrame "HR". iExists n, rq, p. by iFrame.
Qed.

Lemma clh_release lk R c :
  {{{ is_clh lk R ∗ clh_holds R c ∗ R }}} lk_unlock Clh.lock lk c {{{ RET tt; clh_ctx c }}}.
Proof.
  iIntros (Φ) "(_ & (%n & %rq & %p & Hc & Hp & #Hrq & Ho & Hnode) & HR) HΦ".
  rewrite /= /Clh.ck_spinlock_clh_unlock. wp_load "Hc". wp_load "Hp". wp_load "Hc". wp_pures.
  iApply (clh_pass with "[$Hrq $Ho $HR Hp]"); [by iExists p|]. iIntros "!> _". wp_store "Hc".
  iApply "HΦ". iExists p. iFrame.
Qed.

(** ** The lock interface *)

Lemma clh_nodes_own nodes :
  ([∗ list] l ∈ Clh.cells nodes, ∃ v, l ↦ v) ⊢ [∗ list] n ∈ nodes, clh_node n.
Proof.
  rewrite /Clh.cells big_sepL_bind. apply big_sepL_mono. iIntros (i n _) "($ & $ & _)".
Qed.

Lemma clh_alloc lk ctxs m R E :
  Clh.init lk ctxs m ->
  ([∗ map] l ↦ v ∈ m, l ↦ v) -∗ R ={E}=∗ is_clh lk R ∗ [∗ list] c ∈ ctxs, clh_ctx c.
Proof.
  iIntros ((u & nodes & Hcells & Hlk & Hu & Hctxs)) "Hm HR".
  iDestruct (has_cells_own (lk :: Clh.wait u :: Clh.previous u :: ctxs ++ Clh.cells nodes) with "Hm") as "((%x & % & Hlk) & (%y & % & Hw) & (%z & % & Hp) & Hm)"; [done|].
  simplify_eq. iMod (request_released u R with "Hw [Hp] HR") as (rq) "[Hrq Hn]"; [by iExists z|].
  iMod (inv_alloc clhN _ (∃ n rq, lk ↦ n ∗ is_request rq n R ∗ token (rq_next rq)) with "[Hlk Hrq Hn]") as "$".
  { iExists u, rq. by iFrame. }
  iModIntro. rewrite big_sepL_app. iDestruct "Hm" as "[Hcs Hns]".
  iAssert ([∗ list] n ∈ nodes, clh_node n)%I with "[Hns]" as "Hns".
  { rewrite -clh_nodes_own. iApply (big_sepL_impl with "Hns"). iIntros "!>" (i l _) "(%v & _ & H)". by iExists v. }
  iDestruct (big_sepL2_sepL_2 with "Hcs Hns") as "H"; [by eapply Forall2_length|].
  iDestruct (big_sepL2_impl _ (λ _ c n, clh_ctx c) with "H []") as "H".
  { iIntros "!>" (i c n Hc Hn) "[(%v & %Hv & Hc) Hn]". pose proof (Forall2_lookup_lr _ _ _ _ _ _ Hctxs Hc Hn).
    simplify_eq/=. iExists _. iFrame. }
  by iDestruct (big_sepL2_const_sepL_l with "H") as "[_ $]".
Qed.

#[global] Instance clh_spec : LockSpec Clh.lock Clh.init.
Proof.
  refine (Build_LockSpec _ _ _ _ (iProp Σ) (λ R' lk R, ⌜R' = R⌝ ∗ is_clh lk R)%I (λ _ c, clh_ctx c)
            (λ R c, clh_holds R c) _ _ _ _).
  - iIntros (lk ctxs m R E Hinit) "Hm HR". iExists R.
    by iMod (clh_alloc with "Hm HR") as "[$ $]".
  - iIntros (R' lk R c Φ) "[[-> #Hl] Hc]". by iApply (clh_acquire with "[$Hl $Hc]").
  - iIntros (R' lk R c Φ) "([-> #Hl] & H & HR)". by iApply (clh_release with "[$Hl $H $HR]").
Defined.
End clh.

(** * Theorem *)

Definition clhTΣ : gFunctors := #[ckΣ; ghost_varΣ nat; ghost_varΣ bool; clhΣ].

(** The memory after initialisation with the unowned node [u]. *)
Definition clh_initialised (lk u : Z) (m : mem) : mem :=
  <[lk := u]> (<[Clh.wait u := 0]> (<[Clh.previous u := NULL]> m)).

Lemma clh_init_returns lk u m :
  lk <> Clh.wait u -> lk <> Clh.previous u ->
  is_Some (m !! lk) -> is_Some (m !! Clh.wait u) -> is_Some (m !! Clh.previous u) ->
  returns (Clh.ck_spinlock_clh_init lk u) m tt (clh_initialised lk u m).
Proof.
  unfold Clh.ck_spinlock_clh_init, clh_initialised, Clh.wait, Clh.previous.
  intros ?? [x Hx] [y Hy] [z Hz]. repeat sym_step.
Qed.

Lemma clh_initialised_ok lk u ctxs nodes m :
  has_cells (lk :: Clh.wait u :: Clh.previous u :: ctxs ++ Clh.cells nodes) m ->
  Forall2 (fun c n => m !! c = Some n) ctxs nodes ->
  Clh.init lk ctxs (clh_initialised lk u m).
Proof.
  intros Hcells Hctxs. pose proof (proj1 Hcells) as Hnd. rewrite !NoDup_cons in Hnd.
  destruct Hnd as (Hlk & Hw & Hp & _). exists u, nodes. unfold clh_initialised. split_and!.
  - repeat (apply has_cells_insert; [|set_solver]). done.
  - apply lookup_insert_eq.
  - rewrite lookup_insert_ne; [apply lookup_insert_eq|]. set_solver.
  - apply Forall2_same_length_lookup_2; [by eapply Forall2_length|]. intros i c n Hc Hn.
    pose proof (Forall2_lookup_lr _ _ _ _ _ _ Hctxs Hc Hn) as Hv. simpl in Hv.
    apply list_elem_of_lookup_2 in Hc. rewrite !lookup_insert_ne //; set_solver.
Qed.

Lemma initialised_fresh lk u ls m l :
  (∀ k, k ∈ lk :: Clh.wait u :: Clh.previous u :: ls -> is_Some (m !! k)) ->
  m !! l = None -> clh_initialised lk u m !! l = None.
Proof.
  intros Hall Hl. unfold clh_initialised.
  rewrite !lookup_insert_ne //; intros <-; rewrite -not_elem_of_dom in Hl; apply Hl, elem_of_dom, Hall; set_solver.
Qed.

(** C8. Mutual exclusion of the CLH queue lock: any number of threads, each with
    a variable that points to a node of its own at first; nodes pass from thread
    to thread.  Under every scheduler at most one thread is in the critical
    section, every update of the unprotected counter is kept, and no step faults. *)
Theorem clh_mutual_exclusion lk u occ cnt ctxs nodes iters m m' ps σ :
  has_cells (lk :: Clh.wait u :: Clh.previous u :: ctxs ++ Clh.cells nodes) m ->
  Forall2 (fun c n => m !! c = Some n) ctxs nodes ->
  m !! occ = None -> m !! cnt = None -> occ <> cnt ->
  returns (Clh.ck_spinlock_clh_init lk u) m tt m' ->
  rtc sys_step (mutex_client_config Clh.lock lk occ cnt iters ctxs m') (ps, σ) ->
  mutex_ok occ cnt iters ctxs ps σ /\ (∀ p, p ∈ ps -> safe p σ).
Proof.
  intros Hcells Hctxs Hocc Hcnt Hne Hinit Hsteps.
  assert (∀ l, l ∈ lk :: Clh.wait u :: Clh.previous u :: ctxs ++ Clh.cells nodes -> is_Some (m !! l)) as Hall.
  { intros l Hl. apply elem_of_dom. destruct Hcells as [_ ->]. set_solver. }
  pose proof (proj1 Hcells) as Hnd. rewrite !NoDup_cons in Hnd. destruct Hnd as (Hlk & _).
  destruct (returns_det _ _ _ _ _ _ Hinit (clh_init_returns lk u m ltac:(set_solver) ltac:(set_solver)
    (Hall lk ltac:(set_solver)) (Hall (Clh.wait u) ltac:(set_solver)) (Hall (Clh.previous u) ltac:(set_solver))))
    as [_ ->].
  eapply (lock_mutual_exclusion clhTΣ _ Clh.init); [apply _|..|done|exact Hsteps].
  - by apply (clh_initialised_ok _ _ _ nodes).
  - eapply initialised_fresh; [exact Hall|done].
  - eapply initialised_fresh; [exact Hall|done].
Qed.

(** Three threads; their nodes hold arbitrary values at first. *)
Definition clh_demo_mem : mem :=
  list_to_map [(1, 77); (8, 5); (9, 5); (4, 10); (5, 20); (6, 30);
               (10, 3); (11, 10); (20, 9); (21, 8); (30, 0); (31, 1)].
Definition clh_demo : config unit :=
  round_robin 250 (mutex_client_config Clh.lock 1 2 3 2 [4; 5; 6] (clh_initialised 1 8 clh_demo_mem)).

Lemma clh_mutual_exclusion_witness :
  mutex_ok 2 3 2 [4; 5; 6] clh_demo.1 clh_demo.2 /\
  (∀ p, p ∈ clh_demo.1 -> safe p clh_demo.2) /\
  clh_demo.2 !! 3 = Some 6 /\ Forall (fun p => p = Ret tt) clh_demo.1.
Proof.
  destruct (clh_mutual_exclusion 1 8 2 3 [4; 5; 6] [10; 20; 30] 2 clh_demo_mem (clh_initialised 1 8 clh_demo_mem)
    clh_demo.1 clh_demo.2) as [H1 H2].
  - split; [|set_solver]. apply (bool_decide_unpack _). vm_compute. exact I.
  - by repeat constructor.
  - reflexivity.
  - reflexivity.
  - done.
  - apply clh_init_returns; by [|eexists].
  - apply round_robin_pair.
  - split; [exact H1|]. split; [exact H2|]. split; [vm_compute; reflexivity|].
    assert (clh_demo.1 = [Ret tt; Ret tt; Ret tt]) as -> by (vm_compute; reflexivity).
    by repeat constructor.
Defined.
