(* ===== verification/SpinAnderson.v ===== *)
(** The array-based queue lock [ck_spinlock_anderson]: threads take the slots of an
    array in turn, and each spins on its own. *)

From S2P Require Export Ticket.
Set Warnings "-rewrite-rw".

(** * ck_spinlock_anderson

    The lock has [slots], [count], [wrap], [mask] and [next] at offsets 0 to 4, a
    slot has [locked] and [position] at offsets 0 and 1. *)

Module Anderson.

Definition slots (lock : Z) : Z := lock.
Definition count (lock : Z) : Z := lock + 1.
Definition wrap (lock : Z) : Z := lock + 2.
Definition mask (lock : Z) : Z := lock + 3.
Definition next (lock : Z) : Z := lock + 4.

Definition locked (slot : Z) : Z := slot.
Definition position (slot : Z) : Z := slot + 1.

(** [slots + i] *)
Definition at_ (slots i : Z) : Z := slots + 2 * i.

Definition ck_spinlock_anderson_init (lock slots_ count_ : Z) : prog unit :=
  st (locked (at_ slots_ 0)) 0 ;;
  st (position (at_ slots_ 0)) 0 ;;
  for_ 1 count_ (fun i =>
    st (locked (at_ slots_ i)) 1 ;;
    st (position (at_ slots_ i)) i) ;;
  st (slots lock) slots_ ;;
  st (count lock) count_ ;;
  st (mask lock) (u32 (count_ - 1)) ;;
  st (next lock) 0 ;;
  (if truthy (Z.land count_ (u32 (count_ - 1))) then st (wrap lock) (u32 (UINT_MAX mod count_ + 1))
   else st (wrap lock) 0) ;;
  ck_pr_barrier.

Definition ck_spinlock_anderson_locked (lock : Z) : prog bool :=
  p <- ck_pr_load (next lock) ;;
  m <- ld (mask lock) ;;
  s <- ld (slots lock) ;;
  r <- ck_pr_load (locked (at_ s (Z.land p m))) ;;
  ck_pr_fence F_acquire ;;
  Ret (truthy r).

(** The next position is taken: by compare-and-swap, wrapping at a multiple of
    [count], or by fetch-and-add. *)
Definition take_position (lock count : Z) : prog Z :=
  w <- ld (wrap lock) ;;
  if negb (w =? 0) then
    position <- ck_pr_load (next lock) ;;
    position <- Iter (fun position =>
      next_ <- (if position =? UINT_MAX then ld (wrap lock) else Ret (position + 1)) ;;
      letp (r, position) := ck_pr_cas_value (next lock) position next_ ;;
      if r : bool then break position else continue position) position ;;
    Ret (position mod count)
  else
    position <- ck_pr_faa u32 (next lock) 1 ;;
    m <- ld (mask lock) ;;
    Ret (Z.land position m).

Definition ck_spinlock_anderson_lock (lock slot : Z) : prog unit :=
  count <- ld (count lock) ;;
  position <- take_position lock count ;;
  ck_pr_fence F_load ;;
  while (s <- ld (slots lock) ;;
         v <- ck_pr_load (locked (at_ s position)) ;; Ret (v =? 1)) ck_pr_stall ;;
  s <- ld (slots lock) ;;
  ck_pr_store (locked (at_ s position)) 1 ;;
  ck_pr_fence F_lock ;;
  s <- ld (slots lock) ;;
  st slot (at_ s position).

Definition ck_spinlock_anderson_unlock (lock slot : Z) : prog unit :=
  ck_pr_fence F_unlock ;;
  w <- ld (wrap lock) ;;
  position <- (if w =? 0 then
      p <- ld (position slot) ;; m <- ld (mask lock) ;; Ret (Z.land (u32 (p + 1)) m)
    else
      p <- ld (position slot) ;; n <- ld (count lock) ;; Ret (u32 (p + 1) mod n)) ;;
  s <- ld (slots lock) ;;
  ck_pr_store (locked (at_ s position)) 0.

(** The context of a thread is its variable that points to its slot. *)
Definition lock : lock_code :=
  LockCode ck_spinlock_anderson_lock
           (fun lk c => slot <- ld c ;; ck_spinlock_anderson_unlock lk slot).

Definition lock_cells (lk : Z) : list Z := [slots lk; count lk; wrap lk; mask lk; next lk].
Definition slot_cells (s : Z) (n : nat) : list Z :=
  seq 0 n ≫= (fun i => [locked (at_ s (Z.of_nat i)); position (at_ s (Z.of_nat i))]).

(** An initialised lock with [n] slots, for at most [n] threads. *)
Definition init (lk : Z) (ctxs : list Z) (m : mem) : Prop :=
  ∃ s (n : nat),
    has_cells (next lk :: slots lk :: count lk :: wrap lk :: mask lk :: slot_cells s n ++ ctxs) m /\
    (0 < n)%nat /\ Z.of_nat n < 2 ^ 32 /\ (length ctxs <= n)%nat /\
    m !! next lk = Some 0 /\ m !! slots lk = Some s /\ m !! count lk = Some (Z.of_nat n) /\
    m !! mask lk = Some (Z.of_nat n - 1) /\
    m !! wrap lk = Some (if truthy (Z.land (Z.of_nat n) (Z.of_nat n - 1)) then UINT_MAX mod Z.of_nat n + 1 else 0) /\
    ∀ i, (i < n)%nat ->
      m !! locked (at_ s (Z.of_nat i)) = Some (b2z (negb (i =? 0)%nat)) /\
      m !! position (at_ s (Z.of_nat i)) = Some (Z.of_nat i).

End Anderson.

(** * Positions modulo the number of slots *)

Lemma land_pred_pow2 n : 0 < n -> Z.land n (n - 1) = 0 -> n = 2 ^ Z.log2 n.
Proof.
  intros Hn Hl. destruct (Z.log2_spec n Hn) as [Hlo Hhi].
  destruct (decide (n = 2 ^ Z.log2 n)) as [|Hne]; [done|]. exfalso.
  assert (Z.log2 (n - 1) = Z.log2 n) as Hlog by (apply Z.log2_unique; [apply Z.log2_nonneg|lia]).
  assert (Z.testbit (Z.land n (n - 1)) (Z.log2 n) = true) as Hbit.
  { rewrite Z.land_spec Z.bit_log2 // -Hlog Z.bit_log2 //. pose proof (Z.pow_pos_nonneg 2 (Z.log2 n)).
    pose proof (Z.log2_nonneg n). lia. }
  by rewrite Hl Z.bits_0 in Hbit.
Qed.

Section positions.
Context (n : Z) (Hn : 0 < n < 2 ^ 32).

(** With a power of two the mask takes the remainder and wrapping at 2^32 keeps it. *)
Lemma mask_position p : Z.land n (n - 1) = 0 -> Z.land p (n - 1) = p mod n.
Proof using Hn.
  intros H0. rewrite (land_pred_pow2 n) //; [|lia]. rewrite Z.sub_1_r -Z.ones_equiv.
  apply Z.land_ones, Z.log2_nonneg.
Qed.

Lemma wrap_position p : Z.land n (n - 1) = 0 -> u32 p mod n = p mod n.
Proof using Hn.
  intros H0. unfold u32. apply Z.mod_mod_divide. rewrite (land_pred_pow2 n) //; [|lia].
  change 4294967296 with (2 ^ 32). assert (Z.log2 n < 32) by (apply Z.log2_lt_pow2; lia).
  exists (2 ^ (32 - Z.log2 n)). rewrite -Z.pow_add_r; [f_equal; lia|lia|apply Z.log2_nonneg].
Qed.

(** Otherwise the counter goes from [UINT_MAX] to [wrap]. *)
Lemma next_position p q :
  p mod n = q mod n ->
  (if p =? UINT_MAX then UINT_MAX mod n + 1 else p + 1) mod n = (q + 1) mod n.
Proof using Hn.
  intros Hpq. rewrite (Z.add_mod q 1) -?Hpq; [|lia..]. rewrite -Z.add_mod; [|lia].
  zcase; subst p; rewrite ?Z.add_mod_idemp_l; lia.
Qed.
End positions.

(** * Ghost state

    Tickets, permits and the number being served are those of the ticket lock.
    The thread of the number being served shares its slot with the invariant, one
    half each, from the moment it sees it unlocked until it unlocks the next. *)

Record anderson_name := AndersonName { an_ticket : ticket_name; an_slots : Z; an_count : nat }.

Definition andersonN : namespace := nroot .@ "spinlock_anderson".

Section anderson.
Context `{!ckGS Σ, !ticketG Σ}.
Implicit Types (γ : anderson_name) (R : iProp Σ) (c lk : Z) (o n t : nat).

Definition slot_of γ t : Z := Anderson.at_ (an_slots γ) (Z.of_nat (t mod an_count γ)).

Definition wrap_value γ : Z :=
  if truthy (Z.land (Z.of_nat (an_count γ)) (Z.of_nat (an_count γ) - 1))
  then UINT_MAX mod Z.of_nat (an_count γ) + 1 else 0.

(** What never changes. *)
Definition anderson_static γ lk : iProp Σ :=
  ⌜0 < Z.of_nat (an_count γ) < 2 ^ 32 /\ (tk_bound (an_ticket γ) <= an_count γ)%nat⌝ ∗
  Anderson.slots lk ↦□ an_slots γ ∗ Anderson.count lk ↦□ Z.of_nat (an_count γ) ∗
  Anderson.wrap lk ↦□ wrap_value γ ∗ Anderson.mask lk ↦□ (Z.of_nat (an_count γ) - 1) ∗
  [∗ list] i ∈ seq 0 (an_count γ), Anderson.position (slot_of γ i) ↦□ Z.of_nat i.

(** The slots other than that of [o] are locked. *)
Definition locked_slot γ i : iProp Σ := Anderson.locked (Anderson.at_ (an_slots γ) (Z.of_nat i)) ↦ 1.
Definition others γ o : iProp Σ :=
  [∗ set] i ∈ set_seq 0 (an_count γ) ∖ {[(o mod an_count γ)%nat]}, locked_slot γ i.

Definition half γ o (v : Z) : iProp Σ := Anderson.locked (slot_of γ o) ↦{#1/2} v.

Definition anderson_inv γ lk R : iProp Σ :=
  ∃ o n p b,
    ⌜(o <= n)%nat /\ 0 <= p < 2 ^ 32 /\ p mod Z.of_nat (an_count γ) = Z.of_nat n mod Z.of_nat (an_count γ)⌝ ∗
    Anderson.next lk ↦ p ∗ permit_auth (an_ticket γ) ∗ permits (an_ticket γ) (n - o) ∗
    ghost_map_auth (tk_map (an_ticket γ)) 1 (pending o n) ∗ serving (an_ticket γ) o ∗
    others γ o ∗ half γ o b ∗
    (serving (an_ticket γ) o ∗ half γ o 0 ∗ R ∨ ticket (an_ticket γ) o).

Definition is_anderson γ lk R : iProp Σ := anderson_static γ lk ∗ inv andersonN (anderson_inv γ lk R).

Definition anderson_ctx γ c : iProp Σ := (∃ v, c ↦ v) ∗ permits (an_ticket γ) 1.
Definition anderson_holds γ c : iProp Σ :=
  ∃ o, c ↦ slot_of γ o ∗ serving (an_ticket γ) o ∗ half γ o 1.

(** ** Slots *)

Lemma mod_count γ t : (0 < an_count γ)%nat -> Z.of_nat (t mod an_count γ) = Z.of_nat t mod Z.of_nat (an_count γ).
Proof. intros H. by rewrite Nat2Z.inj_mod. Qed.

Lemma succ_position γ t :
  (0 < an_count γ)%nat ->
  (Z.of_nat (t mod an_count γ) + 1) mod Z.of_nat (an_count γ) = Z.of_nat (S t mod an_count γ).
Proof.
  intros H. rewrite !mod_count // Nat2Z.inj_succ -Z.add_1_r. apply Zplus_mod_idemp_l.
Qed.

Lemma slot_in γ t : (0 < an_count γ)%nat -> (t mod an_count γ)%nat ∈ (set_seq 0 (an_count γ) : gset nat).
Proof. intros H. rewrite elem_of_set_seq. pose proof (Nat.mod_upper_bound t (an_count γ)). lia. Qed.

(** All slots locked, seen from any one of them. *)
Lemma others_all γ o :
  (0 < an_count γ)%nat ->
  others γ o ∗ Anderson.locked (slot_of γ o) ↦ 1 ⊣⊢ [∗ set] i ∈ set_seq 0 (an_count γ), locked_slot γ i.
Proof. intros H. rewrite (big_sepS_delete _ (set_seq 0 (an_count γ)) (o mod an_count γ)%nat); [|by apply slot_in]. by rewrite comm. Qed.

Lemma half_both γ o v w : half γ o v -∗ half γ o w -∗ Anderson.locked (slot_of γ o) ↦ v ∗ ⌜v = w⌝.
Proof.
  iIntros "H1 H2". iDestruct (pointsto_combine with "H1 H2") as "[H ->]".
  by rewrite dfrac_op_own Qp.half_half; iFrame.
Qed.

Lemma halves γ o v : Anderson.locked (slot_of γ o) ↦ v ⊢ half γ o v ∗ half γ o v.
Proof. iIntros "[$ $]". Qed.

(** ** The atomic steps *)

Lemma anderson_observe γ lk R t :
  {{{ is_anderson γ lk R ∗ ticket (an_ticket γ) t }}} ck_pr_load (Anderson.locked (slot_of γ t))
  {{{ v, RET v; ⌜v = 1⌝ ∗ ticket (an_ticket γ) t ∨
        ⌜v = 0⌝ ∗ serving (an_ticket γ) t ∗ half γ t 0 ∗ R }}}.
Proof.
  iIntros (Φ) "[#[(%Hn & Hstat) Hinv] Ht] HΦ".
  iInv andersonN as (o n p b) "(>%Hp & >Hnext & >Hpa & >Hps & >Hm & >Hs & >Ho & >Hb & HR)".
  iDestruct (ticket_pending with "Hm Ht") as %Hpend. iDestruct (leases_bound with "Hpa Hps") as %Hbound.
  destruct (decide (t mod an_count γ = o mod an_count γ)%nat) as [Heq|Hne].
  - (* its number is being served *)
    apply (mod_near _ o) in Heq as ->; [|lia..].
    iDestruct "HR" as "[(>Hs' & >Hb' & HR)|>Ht']"; [|by iDestruct (ticket_excl with "Ht Ht'") as %[]].
    rewrite /half. iDestruct (pointsto_agree with "Hb Hb'") as %->.
    wp_load "Hb". iModIntro. iSplitR "HΦ Hs' Hb' HR".
    { iExists o, n, p, 0. by iFrame. }
    iApply "HΦ". iRight. by iFrame.
  - iDestruct (big_sepS_elem_of_acc _ _ (t mod an_count γ)%nat with "Ho") as "[Hl Ho]".
    { apply elem_of_difference. split; [apply slot_in; lia|]. by rewrite elem_of_singleton. }
    rewrite /locked_slot. wp_load "Hl". iModIntro. iSplitR "HΦ Ht".
    { iExists o, n, p, b. iDestruct ("Ho" with "Hl") as "Ho". by iFrame. }
    iApply "HΦ". iLeft. by iFrame.
Qed.

Lemma anderson_mark γ lk R t :
  {{{ is_anderson γ lk R ∗ serving (an_ticket γ) t ∗ half γ t 0 }}}
    ck_pr_store (Anderson.locked (slot_of γ t)) 1
  {{{ RET tt; serving (an_ticket γ) t ∗ half γ t 1 }}}.
Proof.
  iIntros (Φ) "(#[(%Hn & Hstat) Hinv] & Hs & Hh) HΦ".
  iInv andersonN as (o n p b) "(>%Hp & >Hnext & >Hpa & >Hps & >Hm & >Hs' & >Ho & >Hb & [(>Hs'' & _)|>Ht])".
  { by iDestruct (serving_three with "Hs Hs' Hs''") as %[]. }
  iDestruct (ghost_var_agree with "Hs Hs'") as %->.
  iDestruct (half_both with "Hb Hh") as "[Hl ->]". wp_store "Hl". rewrite halves. iDestruct "Hl" as "[Hb Hh]".
  iModIntro. iSplitR "HΦ Hs Hh"; [|iApply "HΦ"; iFrame].
  iExists o, n, p, 1. by iFrame.
Qed.

Lemma anderson_pass γ lk R o :
  {{{ is_anderson γ lk R ∗ serving (an_ticket γ) o ∗ half γ o 1 ∗ R }}}
    ck_pr_store (Anderson.locked (slot_of γ (S o))) 0
  {{{ RET tt; permits (an_ticket γ) 1 }}}.
Proof.
  iIntros (Φ) "(#[(%Hn & Hstat) Hinv] & Hs & Hh & HR) HΦ".
  iInv andersonN as (o' n p b) "(>%Hp & >Hnext & >Hpa & >Hps & >Hm & >Hs' & >Ho & >Hb & [(>Hs'' & _)|>Ht])".
  { by iDestruct (serving_three with "Hs Hs' Hs''") as %[]. }
  iDestruct (ghost_var_agree with "Hs Hs'") as %<-.
  iDestruct (half_both with "Hh Hb") as "[Hl <-]". iDestruct (ticket_pending with "Hm Ht") as %Hpend.
  iMod (ticket_retire with "Hps Hm Ht Hs Hs'") as "(Hp & Hps & Hm & Hs & Hs')"; [lia|].
  iAssert ([∗ set] i ∈ set_seq 0 (an_count γ), locked_slot γ i)%I with "[Ho Hl]" as "Hall".
  { rewrite -(others_all γ o); [|lia]. iFrame. }
  rewrite -(others_all γ (S o)); [|lia]. iDestruct "Hall" as "[Ho Hl]".
  wp_store "Hl". rewrite halves. iDestruct "Hl" as "[Hb Hh]". iModIntro.
  iSplitR "HΦ Hp"; [|by iApply "HΦ"]. iExists (S o), n, p, 0. iFrame. iSplit; [iPureIntro; split; [lia|by destruct Hp]|].
  iLeft. iFrame.
Qed.

(** ** The operations *)

(** Read a cell that never changes. *)
Ltac wp_read H := wp_focus; iApply (wp_load with H); iIntros "!> _"; wp_norm.

(** The counter moves on: a ticket is taken. *)
Lemma anderson_advance γ lk R o n p' b :
  (o <= n)%nat -> 0 <= p' < 2 ^ 32 ->
  p' mod Z.of_nat (an_count γ) = Z.of_nat (S n) mod Z.of_nat (an_count γ) ->
  Anderson.next lk ↦ p' -∗ permit_auth (an_ticket γ) -∗ permits (an_ticket γ) (n - o) -∗
  ghost_map_auth (tk_map (an_ticket γ)) 1 (pending o n) -∗ serving (an_ticket γ) o -∗ others γ o -∗
  half γ o b -∗ (serving (an_ticket γ) o ∗ half γ o 0 ∗ R ∨ ticket (an_ticket γ) o) -∗
  permits (an_ticket γ) 1 ==∗ anderson_inv γ lk R ∗ ticket (an_ticket γ) n.
Proof.
  iIntros (Hon Hr Hmod) "Hnext Hpa Hps Hm Hs Ho Hb HR Hp".
  iMod (ticket_take with "Hpa Hps Hp Hm") as "(Hpa & Hps & _ & Hm & Ht)"; [done|].
  iModIntro. iSplitR "Ht"; [|done]. iExists o, (S n), p', b. iFrame. iPureIntro. split_and!; (done || lia).
Qed.

Lemma wrap_value_zero γ :
  0 < Z.of_nat (an_count γ) < 2 ^ 32 ->
  wrap_value γ = 0 -> Z.land (Z.of_nat (an_count γ)) (Z.of_nat (an_count γ) - 1) = 0.
Proof.
  intros Hn. pose proof (Z.mod_pos_bound UINT_MAX (Z.of_nat (an_count γ))).
  rewrite /wrap_value /truthy. destruct (Z.eqb_spec (Z.land (Z.of_nat (an_count γ)) (Z.of_nat (an_count γ) - 1)) 0); [done|].
  simpl. lia.
Qed.

Lemma wrap_value_nonzero γ :
  wrap_value γ <> 0 -> wrap_value γ = UINT_MAX mod Z.of_nat (an_count γ) + 1.
Proof. rewrite /wrap_value. by destruct (truthy _). Qed.

Lemma anderson_faa γ lk R :
  wrap_value γ = 0 ->
  {{{ is_anderson γ lk R ∗ permits (an_ticket γ) 1 }}} ck_pr_faa u32 (Anderson.next lk) 1
  {{{ p t, RET p; ⌜p mod Z.of_nat (an_count γ) = Z.of_nat t mod Z.of_nat (an_count γ)⌝ ∗
      ticket (an_ticket γ) t }}}.
Proof.
  iIntros (Hw Φ) "[#[(%Hn & Hstat) Hinv] Hp] HΦ". destruct Hn as [Hn Hbd].
  iInv andersonN as (o n p b) "(>%Hp & >Hnext & >Hpa & >Hps & >Hm & >Hs & >Ho & >Hb & HR)".
  destruct Hp as (Hon & Hp & Hmod). wp_rmw "Hnext".
  iMod (anderson_advance γ lk R o n (u32 (p + 1)) b with "Hnext Hpa Hps Hm Hs Ho Hb HR Hp") as "[Hi Ht]".
  - done.
  - apply u32_range.
  - apply wrap_value_zero in Hw; [|done]. rewrite wrap_position //.
    rewrite Nat2Z.inj_succ -Z.add_1_r Z.add_mod; [|lia]. rewrite Hmod -Z.add_mod //. lia.
  - iModIntro. iSplitL "Hi"; [done|]. iApply "HΦ". by iFrame.
Qed.

(** One attempt of the compare-and-swap loop. *)
Lemma anderson_cas γ lk R position :
  wrap_value γ <> 0 ->
  {{{ is_anderson γ lk R ∗ permits (an_ticket γ) 1 }}}
    ck_pr_cas_value (Anderson.next lk) position (if position =? UINT_MAX then wrap_value γ else position + 1)
  {{{ r v, RET (r, v); match r with
        | true => ∃ t, ⌜v = position /\ v mod Z.of_nat (an_count γ) = Z.of_nat t mod Z.of_nat (an_count γ)⌝ ∗
                  ticket (an_ticket γ) t
        | false => permits (an_ticket γ) 1
        end }}}.
Proof.
  iIntros (Hw Φ) "[#[(%Hn & Hstat) Hinv] Hp] HΦ". destruct Hn as [Hn Hbd].
  iInv andersonN as (o n p b) "(>%Hp & >Hnext & >Hpa & >Hps & >Hm & >Hs & >Ho & >Hb & HR)".
  destruct Hp as (Hon & Hp & Hmod). wp_cas "Hnext".
  destruct (Z.eqb_spec p position) as [->|Hne]; last first.
  { iModIntro. iSplitR "HΦ Hp"; [iExists o, n, p, b; by iFrame|]. by iApply ("HΦ" $! false). }
  rewrite wrap_value_nonzero //.
  iMod (anderson_advance γ lk R o n
    (if position =? UINT_MAX then UINT_MAX mod Z.of_nat (an_count γ) + 1 else position + 1) b with "Hnext Hpa Hps Hm Hs Ho Hb HR Hp") as "[Hi Ht]".
  - done.
  - zcase; [|unfold UINT_MAX in *; lia]. pose proof (Z.mod_pos_bound UINT_MAX (Z.of_nat (an_count γ))). lia.
  - rewrite (next_position _ Hn _ (Z.of_nat n)) //. by rewrite Nat2Z.inj_succ.
  - iModIntro. iSplitL "Hi"; [done|]. iApply ("HΦ" $! true). iExists n. by iFrame.
Qed.

Lemma anderson_look γ lk R : is_anderson γ lk R -∗ WP ck_pr_load (Anderson.next lk) {{ _, True }}.
Proof.
  iIntros "#[_ Hinv]".
  iInv andersonN as (o n p b) "(>%Hp & >Hnext & >Hpa & >Hps & >Hm & >Hs & >Ho & >Hb & HR)".
  wp_load "Hnext". iModIntro. iSplitL; [|done]. iExists o, n, p, b. by iFrame.
Qed.

Lemma anderson_take γ lk R :
  {{{ is_anderson γ lk R ∗ permits (an_ticket γ) 1 }}} Anderson.take_position lk (Z.of_nat (an_count γ))
  {{{ t, RET Z.of_nat (t mod an_count γ); ticket (an_ticket γ) t }}}.
Proof.
  iIntros (Φ) "[#Hlk Hp] HΦ". iPoseProof "Hlk" as "[(%Hn & _ & _ & Hwrap & Hmask & _) _]".
  rewrite /Anderson.take_position. wp_read "Hwrap".
  destruct (Z.eqb_spec (wrap_value γ) 0) as [Hw|Hw]; cbn [negb]; wp_focus.
  - iApply (anderson_faa with "[$Hlk $Hp]"); [done|]. iIntros "!>" (p t) "[%Hp Ht]". wp_read "Hmask".
    apply wrap_value_zero in Hw; [|lia]. rewrite mask_position //; [|lia]. rewrite Hp -mod_count; [|lia].
    wp_pures. by iApply "HΦ".
  - iApply (wp_wand (Λ:=ck_lang Z) _ _ _ (λ _, True)%I); [by iApply (anderson_look with "Hlk")|].
    iIntros (p) "_". wp_focus.
    iApply (wp_loop_inv (λ _, permits (an_ticket γ) 1 ∗ ▷ (∀ t, ticket (an_ticket γ) t -∗
      Φ (Z.of_nat (t mod an_count γ))))%I with "[$Hp $HΦ]").
    clear p. iIntros "!>" (p) "[Hp HΦ]". wp_focus.
    iApply (wp_wand (Λ:=ck_lang Z) _ _ _ (λ w : Z, ⌜w = (if p =? UINT_MAX then wrap_value γ else p + 1)%Z⌝)%I).
    { destruct (p =? UINT_MAX); [|by wp_pures]. wp_read "Hwrap". done. }
    iIntros (w) "->". wp_focus. iApply (anderson_cas with "[$Hlk $Hp]"); [done|].
    iIntros "!>" ([] v) "H"; wp_pures; [|iFrame].
    iDestruct "H" as (t) "([-> %Ht] & H)". rewrite Ht -mod_count; [|lia]. by iApply "HΦ".
Qed.

Lemma anderson_acquire γ lk R c :
  {{{ is_anderson γ lk R ∗ anderson_ctx γ c }}} Anderson.ck_spinlock_anderson_lock lk c
  {{{ RET tt; anderson_holds γ c ∗ R }}}.
Proof.
  iIntros (Φ) "(#Hlk & [%v Hc] & Hp) HΦ". iPoseProof "Hlk" as "[(%Hn & Hslots & Hcount & _) _]".
  rewrite /Anderson.ck_spinlock_anderson_lock. wp_read "Hcount". wp_focus.
  iApply (anderson_take with "[$Hlk $Hp]"). iIntros "!>" (t) "Ht". wp_pures.
  iApply (wp_while_inv (ticket (an_ticket γ) t ∗ ▷ (anderson_holds γ c ∗ R -∗ Φ tt) ∗ c ↦ v)
    with "[$Ht $HΦ $Hc]").
  iIntros "!> (Ht & HΦ & Hc)". wp_read "Hslots". wp_focus.
  iApply (anderson_observe with "[$Hlk $Ht]"). iIntros "!>" (x) "[[-> Ht]|(-> & Hs & Hh & HR)]"; wp_pures; [by iFrame|].
  wp_read "Hslots". wp_focus. iApply (anderson_mark with "[$Hlk $Hs $Hh]"). iIntros "!> [Hs Hh]". wp_pures.
  wp_read "Hslots". wp_store "Hc". iApply "HΦ". iFrame "HR". iExists t. iFrame.
Qed.

Lemma anderson_release γ lk R c :
  {{{ is_anderson γ lk R ∗ anderson_holds γ c ∗ R }}} lk_unlock Anderson.lock lk c
  {{{ RET tt; anderson_ctx γ c }}}.
Proof.
  iIntros (Φ) "(#Hlk & (%o & Hc & Hs & Hh) & HR) HΦ".
  iPoseProof "Hlk" as "[(%Hn & Hslots & Hcount & Hwrap & Hmask & Hpos) _]".
  rewrite /= /Anderson.ck_spinlock_anderson_unlock. wp_load "Hc". wp_pures. wp_read "Hwrap". wp_focus.
  iDestruct (big_sepL_lookup _ _ (o mod an_count γ)%nat with "Hpos") as "Hp".
  { apply lookup_seq_lt, Nat.mod_upper_bound. lia. }
  iApply (wp_wand (Λ:=ck_lang Z) _ _ _ (λ p : Z, ⌜p = Z.of_nat (S o mod an_count γ)⌝)%I).
  { rewrite Nat.add_0_l /slot_of Nat.Div0.mod_mod.
    destruct (Z.eqb_spec (wrap_value γ) 0) as [Hw|Hw]; wp_read "Hp"; [wp_read "Hmask"|wp_read "Hcount"];
      wp_pures; iPureIntro; pose proof (Nat.mod_upper_bound o (an_count γ)).
    - apply wrap_value_zero in Hw; [|lia]. rewrite mask_position //; [|lia]. rewrite wrap_position //; [|lia].
      by rewrite succ_position; [|lia].
    - rewrite u32_small; [|change 4294967296 with (2 ^ 32); lia]. by rewrite succ_position; [|lia]. }
  iIntros (p) "->". wp_read "Hslots". wp_focus.
  iApply (anderson_pass with "[$Hlk $Hs $Hh $HR]"). iIntros "!> Hp'". iApply "HΦ". iFrame.
Qed.

(** ** The lock interface *)

(** The slots, once initialised: the first one unlocked, the positions fixed. *)
Lemma slots_own s (n : nat) (m : mem) :
  (0 < n)%nat ->
  (∀ i, (i < n)%nat ->
     m !! Anderson.locked (Anderson.at_ s (Z.of_nat i)) = Some (b2z (negb (i =? 0)%nat)) /\
     m !! Anderson.position (Anderson.at_ s (Z.of_nat i)) = Some (Z.of_nat i)) ->
  ([∗ list] l ∈ Anderson.slot_cells s n, ∃ v, ⌜m !! l = Some v⌝ ∗ l ↦ v) ==∗
  (Anderson.locked (Anderson.at_ s 0) ↦ 0 ∗
   [∗ set] i ∈ set_seq 0 n ∖ {[0%nat]}, Anderson.locked (Anderson.at_ s (Z.of_nat i)) ↦ 1) ∗
  [∗ list] i ∈ seq 0 n, Anderson.position (Anderson.at_ s (Z.of_nat i)) ↦□ Z.of_nat i.
Proof.
  iIntros (Hn Hval) "H". rewrite /Anderson.slot_cells big_sepL_bind.
  iDestruct (big_sepL_impl _ (λ _ i, Anderson.locked (Anderson.at_ s (Z.of_nat i)) ↦ b2z (negb (i =? 0)%nat) ∗
    Anderson.position (Anderson.at_ s (Z.of_nat i)) ↦ Z.of_nat i)%I with "H []") as "H".
  { iIntros "!>" (k i [-> Hi]%lookup_seq) "((%v & %Hv & Hl) & (%w & %Hw & Hp) & _)".
    destruct (Hval (0 + k)%nat ltac:(lia)). simplify_eq/=. iFrame. }
  rewrite big_sepL_sep. iDestruct "H" as "[Hl Hp]". iSplitL "Hl".
  - iModIntro. rewrite -(big_sepS_list_to_set _ (seq 0 n)) ?list_to_set_seq; [|apply NoDup_seq].
    rewrite (big_sepS_delete _ _ 0%nat); [|rewrite elem_of_set_seq; lia]. iDestruct "Hl" as "[$ Hl]".
    iApply (big_sepS_mono with "Hl"). iIntros (i Hi) "H". destruct i as [|i]; [set_solver|done].
  - iApply big_sepL_bupd. iApply (big_sepL_impl with "Hp"). iIntros "!>" (k i _) "H".
    by iMod (pointsto_persist with "H") as "$".
Qed.

Lemma anderson_alloc lk ctxs m R E :
  Anderson.init lk ctxs m ->
  ([∗ map] l ↦ v ∈ m, l ↦ v) -∗ R ={E}=∗ ∃ γ, is_anderson γ lk R ∗ [∗ list] c ∈ ctxs, anderson_ctx γ c.
Proof.
  iIntros ((s & n & Hcells & Hn & Hn32 & Hctxs & Hnext & Hslots & Hcount & Hmask & Hwrap & Hvals)) "Hm HR".
  iDestruct (has_cells_own with "Hm") as "H"; [done|]. rewrite !big_sepL_cons big_sepL_app.
  iDestruct "H" as "((%v1 & % & Hnext) & (%v2 & % & Hslots) & (%v3 & % & Hcount) & (%v4 & % & Hwrap) &
    (%v5 & % & Hmask) & Hsl & Hcs)". simplify_eq.
  iMod (slots_own with "Hsl") as "[[Hl Ho] #Hpos]"; [done..|].
  iMod (pointsto_persist with "Hslots") as "#Hslots". iMod (pointsto_persist with "Hcount") as "#Hcount".
  iMod (pointsto_persist with "Hwrap") as "#Hwrap". iMod (pointsto_persist with "Hmask") as "#Hmask".
  iMod (ticket_ghost_alloc (length ctxs)) as (γt) "(%Hγ & Hps & Hpa & Hp0 & Htm & Hs & Hs')".
  set (γ := AndersonName γt s n). iExists γ.
  assert (slot_of γ 0 = Anderson.at_ s 0) as Hslot0 by (rewrite /slot_of Nat.Div0.mod_0_l //).
  rewrite -Hslot0 (halves γ 0). iDestruct "Hl" as "[Hh Hh']".
  iMod (inv_alloc andersonN _ (anderson_inv γ lk R) with "[HR Hnext Ho Hh Hh' Hpa Hp0 Htm Hs Hs']") as "#Hinv".
  { iNext. iExists 0%nat, 0%nat, 0, 0. iFrame "Hnext Hpa Hp0 Htm Hs Hh". iSplit; [done|].
    rewrite /others Nat.Div0.mod_0_l. iFrame "Ho". iLeft. iFrame. }
  iModIntro. iSplitR.
  - iFrame "Hinv Hslots Hcount Hwrap Hmask". iSplit; [iPureIntro; simpl; lia|].
    iApply (big_sepL_impl with "Hpos"). iIntros "!>" (k i [-> Hi]%lookup_seq) "H".
    by rewrite /slot_of Nat.mod_small.
  - iDestruct (leases_list with "Hps") as "Hps". iDestruct (big_sepL_sep_2 with "Hcs Hps") as "H".
    iApply (big_sepL_impl with "H"). iIntros "!>" (k c _) "[(%v & _ & H) $]". by iExists v.
Qed.

#[global] Instance anderson_spec : LockSpec Anderson.lock Anderson.init.
Proof.
  refine (Build_LockSpec _ _ _ _ anderson_name (λ γ lk R, is_anderson γ lk R) (λ γ c, anderson_ctx γ c)
            (λ γ c, anderson_holds γ c) _ anderson_alloc _ _).
  - iIntros (γ lk R c Φ) "[#Hl Hc]". by iApply (anderson_acquire with "[$Hl $Hc]").
  - iIntros (γ lk R c Φ) "(#Hl & H & HR)". by iApply (anderson_release with "[$Hl $H $HR]").
Defined.
End anderson.

(** * Initialisation *)

Section init.
Context (lk s : Z) (n : nat) (ctxs : list Z).
Context (Hn : (0 < n)%nat) (Hn32 : Z.of_nat n < 2 ^ 32).

Abbreviation anderson_cells :=
  (Anderson.next lk :: Anderson.slots lk :: Anderson.count lk :: Anderson.wrap lk :: Anderson.mask lk ::
   Anderson.slot_cells s n ++ ctxs).

Definition slot_body (i : Z) : prog unit :=
  st (Anderson.locked (Anderson.at_ s i)) 1 ;; st (Anderson.position (Anderson.at_ s i)) i.

Lemma slot_cell i :
  (i < n)%nat ->
  Anderson.locked (Anderson.at_ s (Z.of_nat i)) ∈ Anderson.slot_cells s n /\
  Anderson.position (Anderson.at_ s (Z.of_nat i)) ∈ Anderson.slot_cells s n.
Proof.
  intros Hi. split; apply list_elem_of_bind; exists i; (split; [rewrite !elem_of_cons; auto|apply elem_of_seq; lia]).
Qed.

Lemma slots_loop k i m :
  (i + k = n)%nat -> (∀ l, l ∈ Anderson.slot_cells s n -> is_Some (m !! l)) ->
  ∃ m', returns (for_ (Z.of_nat i) (Z.of_nat n) slot_body) m tt m' /\ dom m' = dom m /\
    (∀ l, (l < s + 2 * Z.of_nat i \/ s + 2 * Z.of_nat n <= l) -> m' !! l = m !! l) /\
    (∀ j, (i <= j < n)%nat ->
       m' !! Anderson.locked (Anderson.at_ s (Z.of_nat j)) = Some 1 /\
       m' !! Anderson.position (Anderson.at_ s (Z.of_nat j)) = Some (Z.of_nat j)).
Proof.
  revert i m. induction k as [|k IH]; intros i m Hik Hmapped; unfold for_.
  - exists m. split_and!; [|done|done|lia].
    eapply returns_iter with (r := inr tt); [|done]. rewrite (proj2 (Z.ltb_ge _ _)); [apply returns_ret|lia].
  - destruct (slot_cell i) as [Hl Hp]; [lia|].
    destruct (Hmapped _ Hl) as [v Hv]. destruct (Hmapped _ Hp) as [w Hw].
    set (m1 := <[Anderson.position (Anderson.at_ s (Z.of_nat i)) := Z.of_nat i]>
               (<[Anderson.locked (Anderson.at_ s (Z.of_nat i)) := 1]> m)).
    assert (Hdom : dom m1 = dom m).
    { rewrite /m1 !dom_insert_L. apply elem_of_dom_2 in Hv, Hw. set_solver. }
    destruct (IH (S i) m1) as (m' & Hret & Hdom' & Hout & Hin); [lia| |].
    { intros l Hin. apply elem_of_dom. rewrite Hdom. by apply elem_of_dom, Hmapped. }
    exists m'. split_and!.
    + eapply returns_iter with (r := inl (Z.of_nat (S i))); [|exact Hret].
      rewrite (proj2 (Z.ltb_lt _ _)); [|lia]. rewrite /slot_body. rewrite Nat2Z.inj_succ -Z.add_1_r.
      eapply returns_bind; [|apply returns_ret]. eapply returns_bind; [by eapply returns_store|].
      eapply returns_store. rewrite lookup_insert_ne; [exact Hw|]. unfold Anderson.locked, Anderson.position. lia.
    + congruence.
    + intros l Hl'. rewrite Hout; [|lia]. rewrite /m1 /Anderson.locked /Anderson.position /Anderson.at_.
      rewrite !lookup_insert_ne //; lia.
    + intros j Hj. destruct (decide (j = i)) as [->|Hne]; [|apply Hin; lia].
      rewrite !Hout /Anderson.locked /Anderson.position /Anderson.at_; [|lia..].
      rewrite /m1 /Anderson.locked /Anderson.position /Anderson.at_. rewrite lookup_insert_ne; [|lia].
      by rewrite !lookup_insert_eq.
Qed.

Lemma slot_range l : l ∈ Anderson.slot_cells s n -> s <= l < s + 2 * Z.of_nat n.
Proof.
  intros (i & Hl & Hi%elem_of_seq)%list_elem_of_bind.
  rewrite !elem_of_cons /Anderson.locked /Anderson.position /Anderson.at_ in Hl.
  destruct Hl as [->|[->|[]%not_elem_of_nil]]; lia.
Qed.

(** The fields of the lock are not in the array. *)
Lemma lock_cell_outside m l :
  has_cells anderson_cells m ->
  l ∈ [Anderson.next lk; Anderson.slots lk; Anderson.count lk; Anderson.wrap lk; Anderson.mask lk] ->
  l < s \/ s + 2 * Z.of_nat n <= l.
Proof.
  intros [Hnd _] Hl.
  change anderson_cells with ([Anderson.next lk; Anderson.slots lk; Anderson.count lk; Anderson.wrap lk; Anderson.mask lk]
    ++ (Anderson.slot_cells s n ++ ctxs)) in Hnd.
  apply NoDup_app in Hnd as (_ & Hdis & _). specialize (Hdis l Hl). rewrite not_elem_of_app in Hdis.
  destruct Hdis as [Hout _]. destruct (Z.lt_ge_cases l s) as [|Hlo]; [by left|].
  destruct (Z.lt_ge_cases l (s + 2 * Z.of_nat n)) as [Hhi|]; [|by right]. exfalso. apply Hout.
  assert (l = s + 2 * Z.of_nat (Z.to_nat ((l - s) / 2)) \/ l = s + 2 * Z.of_nat (Z.to_nat ((l - s) / 2)) + 1)
    as Hcase by (pose proof (Z.div_mod (l - s) 2); pose proof (Z.mod_pos_bound (l - s) 2); lia).
  destruct (slot_cell (Z.to_nat ((l - s) / 2))) as [H1 H2].
  { apply Nat2Z.inj_lt. rewrite Z2Nat.id; [|apply Z.div_pos; lia]. apply Z.div_lt_upper_bound; lia. }
  unfold Anderson.locked, Anderson.position, Anderson.at_ in H1, H2.
  destruct Hcase as [E|E]; rewrite E; done.
Qed.

(** The five fields, stored over a memory [m] that has the slots. *)
Definition with_fields (m : mem) : mem :=
  <[Anderson.wrap lk := if truthy (Z.land (Z.of_nat n) (Z.of_nat n - 1)) then UINT_MAX mod Z.of_nat n + 1 else 0]>
  (<[Anderson.next lk := 0]> (<[Anderson.mask lk := Z.of_nat n - 1]>
  (<[Anderson.count lk := Z.of_nat n]> (<[Anderson.slots lk := s]> m)))).

Lemma fields_return m :
  has_cells anderson_cells m ->
  returns (st (Anderson.slots lk) s ;; st (Anderson.count lk) (Z.of_nat n) ;;
           st (Anderson.mask lk) (u32 (Z.of_nat n - 1)) ;; st (Anderson.next lk) 0 ;;
           (if truthy (Z.land (Z.of_nat n) (u32 (Z.of_nat n - 1)))
            then st (Anderson.wrap lk) (u32 (UINT_MAX mod Z.of_nat n + 1)) else st (Anderson.wrap lk) 0) ;;
           ck_pr_barrier) m tt (with_fields m).
Proof.
  intros [_ Hdom].
  assert (Hmapped : ∀ l, l ∈ anderson_cells -> is_Some (m !! l)).
  { intros l Hl. apply elem_of_dom. rewrite Hdom. by apply elem_of_list_to_set. }
  destruct (Hmapped (Anderson.next lk)) as [v1 H1]; [set_solver|]. destruct (Hmapped (Anderson.slots lk)) as [v2 H2]; [set_solver|].
  destruct (Hmapped (Anderson.count lk)) as [v3 H3]; [set_solver|]. destruct (Hmapped (Anderson.wrap lk)) as [v4 H4]; [set_solver|].
  destruct (Hmapped (Anderson.mask lk)) as [v5 H5]; [set_solver|].
  pose proof (Z.mod_pos_bound UINT_MAX (Z.of_nat n) ltac:(lia)). change (2 ^ 32) with 4294967296 in Hn32.
  rewrite !u32_small; [|lia..]. unfold with_fields, Anderson.next, Anderson.slots, Anderson.count, Anderson.wrap, Anderson.mask in *.
  destruct (truthy _); repeat sym_step.
Qed.

Lemma with_fields_slot m l :
  has_cells anderson_cells m -> l ∈ Anderson.slot_cells s n -> with_fields m !! l = m !! l.
Proof.
  intros Hcells Hl. pose proof (slot_range l Hl). pose proof (lock_cell_outside m) as Hout.
  rewrite /with_fields. rewrite !lookup_insert_ne //; intros <-.
  all: match goal with H : s <= ?l < _ |- _ => destruct (Hout l Hcells); [set_solver|lia|lia] end.
Qed.

Lemma anderson_init_ok m :
  has_cells anderson_cells m -> (length ctxs <= n)%nat ->
  ∃ m', returns (Anderson.ck_spinlock_anderson_init lk s (Z.of_nat n)) m tt m' /\
    dom m' = dom m /\ Anderson.init lk ctxs m'.
Proof.
  intros Hcells Hctxs. rewrite /Anderson.ck_spinlock_anderson_init.
  destruct (slot_cell 0) as [Hl0 Hp0]; [done|].
  set (m1 := <[Anderson.position (Anderson.at_ s 0) := 0]> (<[Anderson.locked (Anderson.at_ s 0) := 0]> m)).
  assert (Hc1 : has_cells anderson_cells m1).
  { apply has_cells_insert; [apply has_cells_insert; [done|]|]; rewrite !elem_of_cons elem_of_app; auto 10. }
  assert (Hmapped : ∀ l, l ∈ Anderson.slot_cells s n -> is_Some (m !! l)).
  { intros l Hl. apply elem_of_dom. rewrite (proj2 Hcells). apply elem_of_list_to_set.
    rewrite !elem_of_cons elem_of_app. auto 10. }
  assert (Hmapped1 : ∀ l, l ∈ Anderson.slot_cells s n -> is_Some (m1 !! l)).
  { intros l Hl. rewrite /m1. by do 2 (apply lookup_insert_is_Some'; right); apply Hmapped. }
  destruct (slots_loop (n - 1) 1 m1) as (m2 & Hloop & Hdom2 & Hout2 & Hin2); [lia|done|].
  assert (Hc2 : has_cells anderson_cells m2) by (split; [apply Hc1|rewrite Hdom2; apply Hc1]).
  assert (Hcf : has_cells anderson_cells (with_fields m2)).
  { rewrite /with_fields. repeat (apply has_cells_insert; [|set_solver]). done. }
  exists (with_fields m2). split_and!.
  - destruct (Hmapped _ Hl0) as [v Hv]. destruct (Hmapped _ Hp0) as [w Hw].
    eapply returns_bind; [by eapply returns_store|]. eapply returns_bind.
    { eapply returns_store. rewrite lookup_insert_ne; [exact Hw|]. unfold Anderson.locked, Anderson.position. lia. }
    eapply returns_bind; [exact Hloop|]. by apply fields_return.
  - by rewrite (proj2 Hcf) (proj2 Hcells).
  - exists s, n. split_and!; try done.
    1-5: rewrite /with_fields; unfold Anderson.next, Anderson.slots, Anderson.count, Anderson.wrap, Anderson.mask;
      repeat (rewrite lookup_insert_ne; [|lia]); apply lookup_insert_eq.
    intros j Hj. destruct (slot_cell j Hj) as [Hl Hp].
    rewrite !(with_fields_slot m2) //. destruct (decide (j = 0%nat)) as [->|Hj0].
    + rewrite !Hout2 /Anderson.locked /Anderson.position /Anderson.at_; [|lia..].
      rewrite /m1 /Anderson.locked /Anderson.position /Anderson.at_. rewrite lookup_insert_ne; [|lia].
      by rewrite !lookup_insert_eq.
    + destruct (Hin2 j) as [-> ->]; [lia|]. by destruct j.
Qed.
End init.

(** * Theorem *)

Definition andersonTΣ : gFunctors := #[ckΣ; ghost_varΣ nat; ghost_varΣ bool; ticketΣ].

Lemma fresh_dom (m m' : mem) l : dom m' = dom m -> m !! l = None -> m' !! l = None.
Proof. intros Hdom Hl. apply not_elem_of_dom. rewrite Hdom. by apply not_elem_of_dom. Qed.

(** C9. Mutual exclusion of the array lock, for any number of slots, a power of
    two or not, that is at least the number of threads: under every scheduler at
    most one thread is in the critical section, every update of the unprotected
    counter is kept, and no step faults; the 32-bit counter of positions may wrap
    any number of times. *)
Theorem anderson_mutual_exclusion lk s n occ cnt ctxs iters m m' ps σ :
  (0 < n)%nat -> Z.of_nat n < 2 ^ 32 -> (length ctxs <= n)%nat ->
  has_cells (Anderson.next lk :: Anderson.slots lk :: Anderson.count lk :: Anderson.wrap lk ::
             Anderson.mask lk :: Anderson.slot_cells s n ++ ctxs) m ->
  m !! occ = None -> m !! cnt = None -> occ <> cnt ->
  returns (Anderson.ck_spinlock_anderson_init lk s (Z.of_nat n)) m tt m' ->
  rtc sys_step (mutex_client_config Anderson.lock lk occ cnt iters ctxs m') (ps, σ) ->
  mutex_ok occ cnt iters ctxs ps σ /\ (∀ p, p ∈ ps -> safe p σ).
Proof.
  intros Hn Hn32 Hctxs Hcells Hocc Hcnt Hne Hinit Hsteps.
  destruct (anderson_init_ok lk s n ctxs Hn Hn32 m Hcells Hctxs) as (m2 & Hret & Hdom & Hok).
  destruct (returns_det _ _ _ _ _ _ Hinit Hret) as [_ ->].
  eapply (lock_mutual_exclusion andersonTΣ _ Anderson.init); [apply _|done|..|done|exact Hsteps];
    by eapply fresh_dom.
Qed.

(** Three threads and three slots. *)
Definition anderson_demo_mem : mem :=
  list_to_map [(10, 7); (11, 7); (12, 7); (13, 7); (14, 7); (4, 0); (5, 0); (6, 0);
               (20, 7); (21, 7); (22, 7); (23, 7); (24, 7); (25, 7)].

Definition anderson_demo_init : mem :=
  match run 100 (Anderson.ck_spinlock_anderson_init 10 20 3) anderson_demo_mem with
  | Done _ m => m | _ => ∅
  end.

Definition anderson_demo : config unit :=
  round_robin 300 (mutex_client_config Anderson.lock 10 2 3 2 [4; 5; 6] anderson_demo_init).

Lemma anderson_mutual_exclusion_witness :
  mutex_ok 2 3 2 [4; 5; 6] anderson_demo.1 anderson_demo.2 /\
  (∀ p, p ∈ anderson_demo.1 -> safe p anderson_demo.2) /\
  anderson_demo.2 !! 3 = Some 6 /\ Forall (fun p => p = Ret tt) anderson_demo.1.
Proof.
  destruct (anderson_mutual_exclusion 10 20 3 2 3 [4; 5; 6] 2 anderson_demo_mem anderson_demo_init
    anderson_demo.1 anderson_demo.2) as [H1 H2].
  - lia.
  - done.
  - done.
  - split; [|vm_compute; reflexivity]. apply (bool_decide_unpack _). vm_compute. exact I.
  - reflexivity.
  - reflexivity.
  - done.
  - exists 100%nat. vm_compute. reflexivity.
  - apply round_robin_pair.
  - split; [exact H1|]. split; [exact H2|]. split; [vm_compute; reflexivity|].
    assert (anderson_demo.1 = [Ret tt; Ret tt; Ret tt]) as -> by (vm_compute; reflexivity).
    by repeat constructor.
Defined.

(** With three slots [ck_spinlock_anderson_locked] looks at slot [next & 2] instead
    of [next % 3]: after one thread has taken and released the lock it still
    reports a locked lock. *)
Lemma anderson_locked_misreports :
  ∃ σ, returns (Anderson.ck_spinlock_anderson_init 10 20 3 ;;
                Anderson.ck_spinlock_anderson_lock 10 4 ;;
                slot <- ld 4 ;; Anderson.ck_spinlock_anderson_unlock 10 slot ;;
                Anderson.ck_spinlock_anderson_locked 10) anderson_demo_mem true σ.
Proof. eexists. exists 200%nat. vm_compute. reflexivity. Qed.
