(* ===== verification/Internal.v ===== *)
(** [ck_internal.h] and the bit-counting fallbacks of [ck_cc.h]: the integer
    helpers the tables are sized with, and the allocator interface of
    [ck_malloc.h]. *)

From Stdlib Require Export ssreflect.
From S2P Require Export Prelude.
Set Warnings "-rewrite-rw".

(** * ck_internal.h *)

Definition CK_INTERNAL_LOG_0 : Z := 2863311530. (* 0xAAAAAAAA *)
Definition CK_INTERNAL_LOG_1 : Z := 3435973836. (* 0xCCCCCCCC *)
Definition CK_INTERNAL_LOG_2 : Z := 4042322160. (* 0xF0F0F0F0 *)
Definition CK_INTERNAL_LOG_3 : Z := 4278255360. (* 0xFF00FF00 *)
Definition CK_INTERNAL_LOG_4 : Z := 4294901760. (* 0xFFFF0000 *)

Definition ck_internal_log (v : Z) : Z :=
  let r := b2z (truthy (Z.land v CK_INTERNAL_LOG_0)) in
  let r := Z.lor r (Z.shiftl (b2z (truthy (Z.land v CK_INTERNAL_LOG_4))) 4) in
  let r := Z.lor r (Z.shiftl (b2z (truthy (Z.land v CK_INTERNAL_LOG_3))) 3) in
  let r := Z.lor r (Z.shiftl (b2z (truthy (Z.land v CK_INTERNAL_LOG_2))) 2) in
  Z.lor r (Z.shiftl (b2z (truthy (Z.land v CK_INTERNAL_LOG_1))) 1).

(** The argument is a [uint32_t]: callers that pass an [unsigned long] are
    truncated. *)
Definition ck_internal_power_2 (v : Z) : Z :=
  let v := u32 (u32 v - 1) in
  let v := Z.lor v (Z.shiftr v 1) in
  let v := Z.lor v (Z.shiftr v 2) in
  let v := Z.lor v (Z.shiftr v 4) in
  let v := Z.lor v (Z.shiftr v 8) in
  let v := Z.lor v (Z.shiftr v 16) in
  u32 (v + 1).

(** [x ^ ((x ^ y) & -(x < y))] *)
Definition ck_internal_max (x y : Z) : Z :=
  Z.lxor x (Z.land (Z.lxor x y) (u64 (- b2z (x <? y)))).
Definition ck_internal_max_64 (x y : Z) : Z :=
  Z.lxor x (Z.land (Z.lxor x y) (u64 (- b2z (x <? y)))).
Definition ck_internal_max_32 (x y : Z) : Z :=
  Z.lxor x (Z.land (Z.lxor x y) (u32 (- b2z (x <? y)))).

(** * ck_cc.h *)

(** [for (i = 1; (v & 1) == 0; i++, v >>= 1)]: at most [width] turns. *)
Fixpoint ffs_loop (fuel : nat) (i v : Z) : Z :=
  match fuel with
  | O => i
  | S fuel => if Z.land v 1 =? 0 then ffs_loop fuel (i + 1) (Z.shiftr v 1) else i
  end.

Definition ck_cc_ffsl (v : Z) : Z := if v =? 0 then 0 else ffs_loop 64 1 v.
Definition ck_cc_ffsll (v : Z) : Z := if v =? 0 then 0 else ffs_loop 64 1 v.
Definition ck_cc_ffs (v : Z) : Z := if v =? 0 then 0 else ffs_loop 32 1 v.

(** [for (i = 0; (x & 1) == 0; i++, x >>= 1)] *)
Definition ck_cc_ctz (x : Z) : Z := if x =? 0 then 0 else ffs_loop 32 0 x.

(** [for (acc = 0; x != 0; x >>= 1) acc += x & 1] *)
Fixpoint popcount_loop (fuel : nat) (acc x : Z) : Z :=
  match fuel with
  | O => acc
  | S fuel => if x =? 0 then acc
              else popcount_loop fuel (u32 (acc + Z.land x 1)) (Z.shiftr x 1)
  end.

Definition ck_cc_popcount (x : Z) : Z := popcount_loop 32 0 x.

(** * ck_malloc.h

    The allocator is the caller's: whether a call succeeds is a parameter that
    may depend on everything allocated and freed before.  The heap is the log of
    those calls, the latest first. *)

Inductive alloc_event :=
| Malloc (size : Z) (ok : bool)
| Free (size : Z) (defer : bool).

Abbreviation heap := (list alloc_event).

Section malloc.
Context (malloc_ok : heap -> Z -> bool).

Definition malloc (h : heap) (size : Z) : bool * heap :=
  let ok := malloc_ok h size in (ok, Malloc size ok :: h).
End malloc.

Definition free (h : heap) (size : Z) (defer : bool) : heap := Free size defer :: h.

(** The bytes allocated and not yet released. *)
Fixpoint outstanding (h : heap) : Z :=
  match h with
  | [] => 0
  | Malloc size ok :: h => (if ok then size else 0) + outstanding h
  | Free size _ :: h => outstanding h - size
  end.

(** The latest allocation was refused. *)
Definition alloc_failed (h : heap) : Prop := ∃ sz rest, h = Malloc sz false :: rest.
Definition refused (h : heap) : bool :=
  match h with Malloc _ false :: _ => true | _ => false end.

(** No single allocation of 16 GiB or more succeeds. *)
Definition malloc_limited (malloc_ok : heap -> Z -> bool) : Prop :=
  ∀ h sz, 2 ^ 34 <= sz -> malloc_ok h sz = false.

(** * Proofs *)

(** ** Powers of two *)

(** [smear k n]: bit [i] is set when some bit of [n] in [i, i + k] is. *)
Definition smeared (k : Z) (n m : Z) : Prop :=
  0 <= m /\ ∀ i, 0 <= i -> Z.testbit m i = true <-> ∃ d, 0 <= d < k /\ Z.testbit n (i + d) = true.

Lemma smeared_id n : 0 <= n -> smeared 1 n n.
Proof.
  intros Hn. split; [done|]. intros i Hi. split.
  - intros H. exists 0. split; [lia|]. by rewrite Z.add_0_r.
  - intros (d & Hd & H). by replace (i + d) with i in H by lia.
Qed.

Lemma smeared_step k n m :
  0 < k -> smeared k n m -> smeared (2 * k) n (Z.lor m (Z.shiftr m k)).
Proof.
  intros Hk [Hm Hs]. split.
  { apply Z.lor_nonneg. split; [done|]. by apply Z.shiftr_nonneg. }
  intros i Hi. rewrite Z.lor_spec Z.shiftr_spec // orb_true_iff (Hs i Hi) (Hs (i + k) ltac:(lia)).
  split.
  - intros [(d & Hd & H)|(d & Hd & H)].
    + exists d. split; [lia|done].
    + exists (k + d). split; [lia|]. by replace (i + (k + d)) with (i + k + d) by lia.
  - intros (d & Hd & H). destruct (Z.lt_ge_cases d k) as [Hlt|Hge].
    + left. exists d. split; [lia|done].
    + right. exists (d - k). split; [lia|]. by replace (i + k + (d - k)) with (i + d) by lia.
Qed.

Lemma smeared_full n m :
  0 < n < 2 ^ 32 -> smeared 32 n m -> m = Z.ones (Z.log2 n + 1).
Proof.
  intros Hn [Hm Hs]. pose proof (Z.log2_nonneg n) as Hlog.
  assert (Z.log2 n < 32) as Hlt by (apply Z.log2_lt_pow2; lia).
  apply Z.bits_inj'. intros i Hi. destruct (Z.lt_ge_cases i (Z.log2 n + 1)) as [Hi'|Hi'].
  - rewrite (Z.ones_spec_low _ i) //. apply Hs; [done|].
    exists (Z.log2 n - i). split; [lia|].
    replace (i + (Z.log2 n - i)) with (Z.log2 n) by lia. apply Z.bit_log2. lia.
  - rewrite (Z.ones_spec_high _ i) //; [lia|]. apply not_true_iff_false. rewrite Hs //.
    intros (d & Hd & H). rewrite Z.bits_above_log2 in H; [lia|lia|done].
Qed.

Lemma power_2_spec v :
  0 < v <= 2 ^ 31 -> ck_internal_power_2 v = 2 ^ Z.log2_up v.
Proof.
  intros Hv. unfold ck_internal_power_2. rewrite (u32_small v); [lia|].
  rewrite (u32_small (v - 1)); [lia|].
  destruct (decide (v = 1)) as [->|Hne]; [done|].
  set (n := v - 1). assert (0 < n < 2 ^ 32) as Hn by lia.
  assert (smeared 1 n n) as H by (apply smeared_id; lia).
  do 5 (eapply smeared_step in H; [|lia]; simpl (2 * _) in H).
  rewrite (smeared_full n _ Hn H) Z.ones_equiv.
  assert (Z.log2_up v = Z.log2 n + 1) as ->.
  { rewrite Z.log2_up_eqn; [lia|]. rewrite -Z.sub_1_r. subst n. lia. }
  assert (Z.log2 n < 31) by (apply Z.log2_lt_pow2; lia).
  pose proof (Z.pow_le_mono_r 2 (Z.log2 n + 1) 31). pose proof (Z.log2_nonneg n).
  assert (0 < 2 ^ (Z.log2 n + 1)) by (apply Z.pow_pos_nonneg; lia).
  rewrite u32_small; lia.
Qed.

(** Out of range the 32-bit computation wraps to 0: both for 0 and for every
    request above 2^31 that is not truncated to a small one. *)
Lemma power_2_zero : ck_internal_power_2 0 = 0.
Proof. done. Qed.

Lemma power_2_truncates v : ck_internal_power_2 (u32 v) = ck_internal_power_2 v.
Proof. unfold ck_internal_power_2. by rewrite u32_idem. Qed.

Lemma power_2_wraps v : 2 ^ 31 < v < 2 ^ 32 -> ck_internal_power_2 v = 0.
Proof.
  intros Hv. unfold ck_internal_power_2. rewrite (u32_small v); [lia|].
  rewrite (u32_small (v - 1)); [lia|].
  set (n := v - 1). assert (0 < n < 2 ^ 32) as Hn by lia.
  assert (smeared 1 n n) as H by (apply smeared_id; lia).
  do 5 (eapply smeared_step in H; [|lia]; simpl (2 * _) in H).
  rewrite (smeared_full n _ Hn H). assert (Z.log2 n = 31) as ->; [|done].
  apply Z.log2_unique; lia.
Qed.

(** ** Selection without a branch *)

Lemma lxor_select x y m (b : bool) :
  Z.land (Z.lxor x y) m = Z.lxor x y ->
  Z.lxor x (Z.land (Z.lxor x y) (if b then m else 0)) = if b then y else x.
Proof.
  intros H. destruct b.
  - by rewrite H -Z.lxor_assoc Z.lxor_nilpotent Z.lxor_0_l.
  - by rewrite Z.land_0_r Z.lxor_0_r.
Qed.

Lemma land_ones_id a k : 0 <= k -> 0 <= a < 2 ^ k -> Z.land a (Z.ones k) = a.
Proof. intros Hk H. rewrite Z.land_ones //. by apply Z.mod_small. Qed.

Lemma lxor_range a b k : 0 <= k -> 0 <= a < 2 ^ k -> 0 <= b < 2 ^ k -> 0 <= Z.lxor a b < 2 ^ k.
Proof.
  intros Hk Ha Hb. assert (0 <= Z.lxor a b) by (apply Z.lxor_nonneg; lia).
  split; [done|]. destruct (Z.eq_dec (Z.lxor a b) 0) as [->|Hne]; [lia|].
  apply Z.log2_lt_pow2; [lia|].
  destruct (Z.eq_dec k 0) as [->|Hk0].
  { assert (a = 0) as -> by lia. assert (b = 0) as -> by lia. done. }
  pose proof (Z.log2_lxor a b ltac:(lia) ltac:(lia)) as Hlog.
  assert (∀ c, 0 <= c < 2 ^ k -> Z.log2 c < k) as Hc.
  { intros c Hc. destruct (Z.eq_dec c 0) as [->|]; [cbn; lia|]. apply Z.log2_lt_pow2; lia. }
  pose proof (Hc a Ha). pose proof (Hc b Hb). lia.
Qed.

Lemma ck_internal_max_spec x y :
  0 <= x < 2 ^ 64 -> 0 <= y < 2 ^ 64 -> ck_internal_max x y = Z.max x y.
Proof.
  intros Hx Hy. unfold ck_internal_max.
  replace (u64 (- b2z (x <? y))) with (if x <? y then Z.ones 64 else 0) by by destruct (x <? y).
  rewrite lxor_select. { apply land_ones_id; [lia|]. by apply lxor_range. }
  destruct (Z.ltb_spec x y); lia.
Qed.

Lemma ck_internal_max_64_spec x y :
  0 <= x < 2 ^ 64 -> 0 <= y < 2 ^ 64 -> ck_internal_max_64 x y = Z.max x y.
Proof. apply ck_internal_max_spec. Qed.

(** ** The position of the only set bit *)

Lemma ffs_loop_pow2 fuel (k : nat) i :
  (k < fuel)%nat -> ffs_loop fuel i (2 ^ Z.of_nat k) = i + Z.of_nat k.
Proof.
  revert k i. induction fuel as [|fuel IH]; intros k i Hk; [lia|]. cbn [ffs_loop].
  destruct k as [|k].
  { change (2 ^ Z.of_nat 0) with 1. change (Z.land 1 1 =? 0) with false. lia. }
  rewrite Nat2Z.inj_succ Z.pow_succ_r; [lia|].
  assert (Z.land (2 * 2 ^ Z.of_nat k) 1 = 0) as ->.
  { rewrite (Z.land_ones _ 1) // Z.mul_comm. by apply Z_mod_mult. }
  rewrite Z.eqb_refl Z.shiftr_div_pow2 // (Z.mul_comm 2) Z.div_mul //.
  rewrite IH; lia.
Qed.

Lemma ck_cc_ffsl_pow2 k : 0 <= k < 64 -> ck_cc_ffsl (2 ^ k) = k + 1.
Proof.
  intros Hk. unfold ck_cc_ffsl. assert (0 < 2 ^ k) by (apply Z.pow_pos_nonneg; lia).
  rewrite (proj2 (Z.eqb_neq _ _)); [lia|].
  rewrite -(Z2Nat.id k) // ?ffs_loop_pow2; lia.
Qed.

(** ** The heap *)

Lemma outstanding_malloc ok (h : heap) size :
  outstanding (malloc ok h size).2 = (if (malloc ok h size).1 then size else 0) + outstanding h.
Proof. done. Qed.

Lemma outstanding_free h size d : outstanding (free h size d) = outstanding h - size.
Proof. done. Qed.

Lemma refused_spec h : alloc_failed h -> refused h = true.
Proof. by intros (sz & rest & ->). Qed.

#[export] Hint Rewrite outstanding_free : ck.

(** ** Shared by the tables *)

Lemma land_mask_range a k : 0 <= k -> 0 <= Z.land a (2 ^ k - 1) < 2 ^ k.
Proof.
  intros Hk. replace (2 ^ k - 1) with (Z.ones k) by (rewrite Z.ones_equiv; lia).
  rewrite Z.land_ones //. apply Z.mod_pos_bound. apply Z.pow_pos_nonneg; lia.
Qed.

Lemma power_2_cases e :
  ck_internal_power_2 e = 0 \/ ∃ k, 0 <= k <= 31 /\ ck_internal_power_2 e = 2 ^ k.
Proof.
  rewrite -power_2_truncates. pose proof (u32_range e) as Hr. set (v := u32 e) in *.
  destruct (decide (v = 0)) as [->|H0]; [by left|].
  destruct (decide (v <= 2 ^ 31)) as [Hle|Hgt].
  - right. exists (Z.log2_up v). rewrite power_2_spec; [lia|].
    split; [|done]. pose proof (Z.log2_up_nonneg v).
    pose proof (Z.log2_up_le_mono v (2 ^ 31) Hle) as Hlog. rewrite Z.log2_up_pow2 // in Hlog.
  - left. apply power_2_wraps. lia.
Qed.

Lemma default_range (b : list Z) lim i :
  0 <= lim -> Forall (λ x, 0 <= x <= lim) b -> 0 <= default 0 (b !! i) <= lim.
Proof.
  intros Hl Hall. destruct (b !! i) as [x|] eqn:Hx; simpl; [|lia].
  rewrite Forall_lookup in Hall. by eapply Hall.
Qed.

(** Doubling a 64-bit capacity [64] times leaves 0. *)
Lemma double_divide cap j :
  0 <= j -> (2 ^ (64 - (j + 1)) | cap) -> j + 1 <= 64 -> (2 ^ (64 - j) | u64 (Z.shiftl cap 1)).
Proof.
  intros Hj Hd Hle. rewrite Z.shiftl_mul_pow2 //. unfold u64.
  rewrite Z.mod_eq //. apply Z.divide_sub_r.
  - replace (2 ^ (64 - j)) with (2 ^ (64 - (j + 1)) * 2 ^ 1).
    + by apply Z.mul_divide_mono_r.
    + rewrite -Z.pow_add_r; [lia|lia|]. f_equal. lia.
  - apply Z.divide_mul_l. exists (2 ^ j). rewrite -Z.pow_add_r; [lia|lia|].
    by replace (j + (64 - j)) with 64 by lia.
Qed.

(** Scanning from any starting point under a mask visits every slot. *)
Lemma mask_scan_complete k gc_seed s :
  0 <= k <= 31 -> (s < Z.to_nat (2 ^ k))%nat ->
  ∃ i, 0 <= i < 2 ^ k /\ Z.to_nat (Z.land (u64 (i + gc_seed)) (2 ^ k - 1)) = s.
Proof.
  intros Hk Hs. assert (0 < 2 ^ k) as Hp by (apply Z.pow_pos_nonneg; lia).
  exists ((Z.of_nat s - gc_seed) mod 2 ^ k). split; [by apply Z.mod_pos_bound|].
  replace (2 ^ k - 1) with (Z.ones k) by (rewrite Z.ones_equiv; lia).
  rewrite Z.land_ones; [lia|]. unfold u64.
  change 18446744073709551616 with (2 ^ 64).
  assert (2 ^ 64 = 2 ^ (64 - k) * 2 ^ k) as ->.
  { rewrite -Z.pow_add_r; [lia|lia|]. f_equal. lia. }
  rewrite Z.mod_mod_divide; [by exists (2 ^ (64 - k))|].
  rewrite Z.add_mod_idemp_l; [lia|]. rewrite Z.sub_add Z.mod_small; lia.
Qed.

(** The capacity a request is rounded to. *)
Definition rounded (e : Z) : Z := Z.max 8 (ck_internal_power_2 e).

Lemma rounded_pow2 e : ∃ k, 3 <= k <= 31 /\ rounded e = 2 ^ k.
Proof.
  unfold rounded. destruct (power_2_cases e) as [->|(k & Hk & ->)]; [by exists 3|].
  destruct (Z.le_gt_cases 3 k) as [H|H].
  - exists k. split; [lia|]. pose proof (Z.pow_le_mono_r 2 3 k). lia.
  - exists 3. split; [lia|]. pose proof (Z.pow_le_mono_r 2 k 3). lia.
Qed.

Lemma rounded_ge e : 0 < e <= 2 ^ 31 -> e <= rounded e.
Proof.
  intros He. unfold rounded. rewrite power_2_spec //.
  destruct (decide (e = 1)) as [->|]; [lia|]. pose proof (Z.log2_up_spec e ltac:(lia)). lia.
Qed.

Lemma rounded_id k : 3 <= k <= 31 -> rounded (2 ^ k) = 2 ^ k.
Proof.
  intros Hk. pose proof (Z.pow_le_mono_r 2 3 k). pose proof (Z.pow_le_mono_r 2 k 31).
  unfold rounded. rewrite power_2_spec; [lia|]. rewrite Z.log2_up_pow2; lia.
Qed.
