(* ===== verification/Pr.v ===== *)
(** The compare-and-swap emulations of [ck_pr.h]: every read-modify-write
    operation a port does not provide is a loop around [ck_pr_cas_*_value].
    The loops are translated once, as the macros are, instantiated per width as
    the source instantiates them, and shown to refine the atomic operations of
    [Machine] in every context. *)

From S2P Require Import Prelude Machine.

(** * The integer types the macros are instantiated at

    [double] has no integer model and is left out.  A cell of a signed type
    holds its value; arithmetic that leaves the type wraps around, as the
    builtins of the ports do. *)

Inductive ck_pr_type :=
| Tchar | Tint | Tuint | Tptr | T64 | T32 | T16 | T8.

Definition s8 (z : Z) : Z := (z + 128) mod 256 - 128.
Definition s32 (z : Z) : Z := (z + 2147483648) mod 4294967296 - 2147483648.

(** The conversion [(T)z]. *)
Definition cast (T : ck_pr_type) (z : Z) : Z :=
  match T with
  | Tchar => s8 z
  | Tint => s32 z
  | Tuint | T32 => u32 z
  | Tptr | T64 => u64 z
  | T16 => u16 z
  | T8 => u8 z
  end.

Inductive binop := Padd | Psub | Pand | Pxor | Por.

(** [previous P value] *)
Definition P (o : binop) (previous value : Z) : Z :=
  match o with
  | Padd => previous + value
  | Psub => previous - value
  | Pand => Z.land previous value
  | Pxor => Z.lxor previous value
  | Por => Z.lor previous value
  end.

Inductive bitop := BTC | BTR | BTS.

(** [previous P (R ((T)1 << offset))] *)
Definition BT (o : bitop) (T : ck_pr_type) (previous offset : Z) : Z :=
  let bit := cast T (Z.shiftl 1 offset) in
  match o with
  | BTC => Z.lxor previous bit
  | BTR => Z.land previous (Z.lnot bit)
  | BTS => Z.lor previous bit
  end.

Inductive unop := Pnot | Pneg.

(** [P previous] *)
Definition PN (o : unop) (previous : Z) : Z :=
  match o with Pnot => Z.lnot previous | Pneg => - previous end.

(** * The macros *)

(** What every macro expands to: load, then
    [while (ck_pr_cas_S_value(target, previous, f(previous), &previous) == false)
       ck_pr_stall();], leaving [previous]. *)
Definition cas_loop (target : Z) (f : Z -> Z) : prog Z :=
  punt <- ck_pr_load target ;;
  Iter (fun previous =>
    letp (z, previous) := ck_pr_cas_value target previous (f previous) ;;
    if z : bool then break previous else ck_pr_stall ;; continue previous) punt.

Definition CK_PR_BIN (K : binop) (T : ck_pr_type) (target value : Z) : prog unit :=
  previous <- cas_loop target (fun previous => cast T (P K previous value)) ;; Ret tt.

Definition CK_PR_BTX (K : bitop) (T : ck_pr_type) (target offset : Z) : prog bool :=
  previous <- cas_loop target (fun previous => cast T (BT K T previous offset)) ;;
  Ret (truthy (Z.land (Z.shiftr previous offset) 1)).

(** [ck_pr_X_S(target, (T)1)] *)
Definition CK_PR_UNARY (X : Z -> Z -> prog unit) (target : Z) : prog unit := X target 1.

(** [K] is addition for [inc], subtraction for [dec]; [z] is the value whose
    replacement is taken to be zero. *)
Definition CK_PR_UNARY_Z (K : binop) (T : ck_pr_type) (z target : Z) : prog bool :=
  previous <- cas_loop target (fun previous => cast T (P K previous 1)) ;;
  Ret (previous =? cast T z).

(** [*zero = ck_pr_K_S_is_zero(target)]: the flag is returned. *)
Definition CK_PR_UNARY_Z_STUB (is_zero : Z -> prog bool) (target : Z) : prog bool :=
  zero <- is_zero target ;; Ret zero.

Definition CK_PR_N (K : unop) (T : ck_pr_type) (target : Z) : prog unit :=
  previous <- cas_loop target (fun previous => cast T (PN K previous)) ;; Ret tt.

Definition CK_PR_N_Z (T : ck_pr_type) (target : Z) : prog bool :=
  previous <- cas_loop target (fun previous => cast T (- previous)) ;; Ret (previous =? 0).

Definition CK_PR_FAA (T : ck_pr_type) (target delta : Z) : prog Z :=
  previous <- cas_loop target (fun previous => cast T (previous + delta)) ;; Ret previous.

Definition CK_PR_FAS (target update : Z) : prog Z :=
  previous <- cas_loop target (fun _ => update) ;; Ret previous.

(** * The instances *)

Definition bin_char (K : binop) : Z -> Z -> prog unit := CK_PR_BIN K Tchar.
Definition bin_int (K : binop) : Z -> Z -> prog unit := CK_PR_BIN K Tint.
Definition bin_uint (K : binop) : Z -> Z -> prog unit := CK_PR_BIN K Tuint.
Definition bin_ptr (K : binop) : Z -> Z -> prog unit := CK_PR_BIN K Tptr.
Definition bin_64 (K : binop) : Z -> Z -> prog unit := CK_PR_BIN K T64.
Definition bin_32 (K : binop) : Z -> Z -> prog unit := CK_PR_BIN K T32.
Definition bin_16 (K : binop) : Z -> Z -> prog unit := CK_PR_BIN K T16.
Definition bin_8 (K : binop) : Z -> Z -> prog unit := CK_PR_BIN K T8.

Definition btx_int (K : bitop) : Z -> Z -> prog bool := CK_PR_BTX K Tint.
Definition btx_uint (K : bitop) : Z -> Z -> prog bool := CK_PR_BTX K Tuint.
Definition btx_ptr (K : bitop) : Z -> Z -> prog bool := CK_PR_BTX K Tptr.
Definition btx_64 (K : bitop) : Z -> Z -> prog bool := CK_PR_BTX K T64.
Definition btx_32 (K : bitop) : Z -> Z -> prog bool := CK_PR_BTX K T32.
Definition btx_16 (K : bitop) : Z -> Z -> prog bool := CK_PR_BTX K T16.

Inductive step := inc | dec.
Definition stepop (K : step) : binop := match K with inc => Padd | dec => Psub end.

Definition unary_char (K : step) : Z -> prog unit := CK_PR_UNARY (bin_char (stepop K)).
Definition unary_int (K : step) : Z -> prog unit := CK_PR_UNARY (bin_int (stepop K)).
Definition unary_uint (K : step) : Z -> prog unit := CK_PR_UNARY (bin_uint (stepop K)).
Definition unary_ptr (K : step) : Z -> prog unit := CK_PR_UNARY (bin_ptr (stepop K)).
Definition unary_64 (K : step) : Z -> prog unit := CK_PR_UNARY (bin_64 (stepop K)).
Definition unary_32 (K : step) : Z -> prog unit := CK_PR_UNARY (bin_32 (stepop K)).
Definition unary_16 (K : step) : Z -> prog unit := CK_PR_UNARY (bin_16 (stepop K)).
Definition unary_8 (K : step) : Z -> prog unit := CK_PR_UNARY (bin_8 (stepop K)).

Definition UINT64_MAX : Z := 18446744073709551615.

Definition is_zero_char (K : step) : Z -> prog bool :=
  CK_PR_UNARY_Z (stepop K) Tchar (match K with inc => -1 | dec => 1 end).
Definition is_zero_int (K : step) : Z -> prog bool :=
  CK_PR_UNARY_Z (stepop K) Tint (match K with inc => -1 | dec => 1 end).
Definition is_zero_uint (K : step) : Z -> prog bool :=
  CK_PR_UNARY_Z (stepop K) Tuint (match K with inc => UINT_MAX | dec => 1 end).
Definition is_zero_ptr (K : step) : Z -> prog bool :=
  CK_PR_UNARY_Z (stepop K) Tptr (match K with inc => UINT_MAX | dec => 1 end).
Definition is_zero_64 (K : step) : Z -> prog bool :=
  CK_PR_UNARY_Z (stepop K) T64 (match K with inc => UINT64_MAX | dec => 1 end).
Definition is_zero_32 (K : step) : Z -> prog bool :=
  CK_PR_UNARY_Z (stepop K) T32 (match K with inc => 4294967295 | dec => 1 end).
Definition is_zero_16 (K : step) : Z -> prog bool :=
  CK_PR_UNARY_Z (stepop K) T16 (match K with inc => 65535 | dec => 1 end).
Definition is_zero_8 (K : step) : Z -> prog bool :=
  CK_PR_UNARY_Z (stepop K) T8 (match K with inc => 255 | dec => 1 end).

Inductive nop := Nnot | Nneg | Nneg_zero.

(** [neg_zero] answers whether the old value was zero, the others nothing. *)
Definition n_op (T : ck_pr_type) (K : nop) (target : Z) : prog (option bool) :=
  match K with
  | Nnot => CK_PR_N Pnot T target ;; Ret None
  | Nneg => CK_PR_N Pneg T target ;; Ret None
  | Nneg_zero => zero <- CK_PR_N_Z T target ;; Ret (Some zero)
  end.

Definition n_char : nop -> Z -> prog (option bool) := n_op Tchar.
Definition n_int : nop -> Z -> prog (option bool) := n_op Tint.
Definition n_uint : nop -> Z -> prog (option bool) := n_op Tuint.
Definition n_ptr : nop -> Z -> prog (option bool) := n_op Tptr.
Definition n_64 : nop -> Z -> prog (option bool) := n_op T64.
Definition n_32 : nop -> Z -> prog (option bool) := n_op T32.
Definition n_16 : nop -> Z -> prog (option bool) := n_op T16.
Definition n_8 : nop -> Z -> prog (option bool) := n_op T8.

Inductive fetch := faa | fas.
Definition fetch_op (T : ck_pr_type) (K : fetch) : Z -> Z -> prog Z :=
  match K with faa => CK_PR_FAA T | fas => CK_PR_FAS end.

Definition fetch_char : fetch -> Z -> Z -> prog Z := fetch_op Tchar.
Definition fetch_int : fetch -> Z -> Z -> prog Z := fetch_op Tint.
Definition fetch_uint : fetch -> Z -> Z -> prog Z := fetch_op Tuint.
Definition fetch_ptr : fetch -> Z -> Z -> prog Z := fetch_op Tptr.
Definition fetch_64 : fetch -> Z -> Z -> prog Z := fetch_op T64.
Definition fetch_32 : fetch -> Z -> Z -> prog Z := fetch_op T32.
Definition fetch_16 : fetch -> Z -> Z -> prog Z := fetch_op T16.
Definition fetch_8 : fetch -> Z -> Z -> prog Z := fetch_op T8.
