(* ===== verification/PrRefine.v ===== *)
(** The emulations of [Pr] refine the atomic operations: in any program, run by
    any number of threads under any scheduler, replacing an atomic
    read-modify-write by its compare-and-swap loop adds no behaviour.  The
    loops are lock-free: under any scheduler every execution is finite. *)

From stdpp Require Import list relations.
From Stdlib Require Import ssreflect.
From S2P Require Import Prelude Machine Pr.
Set Warnings "-rewrite-rw".

(** * The stages of one emulated operation

    [next cur st] is the stage after one step of the thread when the cell holds
    [cur]; only the compare-and-swap of stage [SCas] can write. *)

Inductive stage :=
| SLoad
| SGot (v : Z) | SHead (v : Z) | SCas (v : Z) | STried (z : bool) (v : Z)
| SStall (v : Z) | SStalled (v : Z) | SNext (v : Z)
| SLeave (v : Z) | SBack (v : Z) | SDone (v : Z).

Definition next (cur : Z) (s : stage) : option stage :=
  match s with
  | SLoad => Some (SGot cur)
  | SGot v => Some (SHead v)
  | SHead v => Some (SCas v)
  | SCas v => Some (STried (cur =? v) cur)
  | STried true v => Some (SLeave v)
  | STried false v => Some (SStall v)
  | SStall v => Some (SStalled v)
  | SStalled v => Some (SNext v)
  | SNext v => Some (SHead v)
  | SLeave v => Some (SBack v)
  | SBack v => Some (SDone v)
  | SDone _ => None
  end.

(** The stage at which the operation has taken effect. *)
Definition committed (s : stage) : option Z :=
  match s with
  | STried true v | SLeave v | SBack v | SDone v => Some v
  | _ => None
  end.

Lemma committed_next s s' cur v :
  committed s = Some v -> next cur s = Some s' -> committed s' = Some v.
Proof. destruct s as [| | | |[] ?| | | | | |]; naive_solver. Qed.

Section stages.
Context {A : Type} (a : Z) (f : Z -> Z) (g : Z -> A).

Definition attempt (previous : Z) : prog (Z + Z) :=
  letp (z, previous) := ck_pr_cas_value a previous (f previous) ;;
  if z : bool then break previous else ck_pr_stall ;; continue previous.

Definition again (x : Z + Z) : prog Z :=
  match x with inl v => Iter attempt v | inr b => Ret b end.

Definition judge (r : bool * Z) : prog (Z + Z) :=
  match r with
  | (z, previous) => if z then break previous else ck_pr_stall ;; continue previous
  end.

Definition finish (v : Z) : prog A := Ret (g v).

(** The program a thread is left with at each stage. *)
Definition stage_prog (s : stage) : prog A :=
  match s with
  | SLoad => Bind (cas_loop a f) finish
  | SGot v => Bind (Bind (Ret v) (fun punt => Iter attempt punt)) finish
  | SHead v => Bind (Iter attempt v) finish
  | SCas v => Bind (Bind (attempt v) again) finish
  | STried z v => Bind (Bind (Bind (Ret (z, v)) judge) again) finish
  | SStall v => Bind (Bind (ck_pr_stall ;; continue v) again) finish
  | SStalled v => Bind (Bind (Bind (Ret tt) (fun _ => continue v)) again) finish
  | SNext v => Bind (Bind (continue v) again) finish
  | SLeave v => Bind (Bind (break v) again) finish
  | SBack v => Bind (Ret v) finish
  | SDone v => Ret (g v)
  end.

Definition effect (cur : Z) (s : stage) : Z :=
  match s with SCas v => if cur =? v then f v else cur | _ => cur end.

Lemma stage_step s cur σ :
  σ !! a = Some cur ->
  pstep (stage_prog s) σ =
    (s' ← next cur s; Some (stage_prog s', <[a := effect cur s]> σ)).
Proof.
  intros Hcur. destruct s as [|v|v|v|[] v|v|v|v|v|v|v]; simpl;
    rewrite ?Hcur /=; rewrite ?(insert_id σ a cur Hcur); try done.
  destruct (Z.eqb_spec cur v) as [->|]; [done|]. by rewrite (insert_id σ a cur Hcur).
Qed.

Lemma stage_step_unmapped s p' σ' σ :
  pstep (stage_prog s) σ = Some (p', σ') -> σ !! a = None ->
  ∃ s', p' = stage_prog s' /\ σ' = σ /\ committed s' = committed s.
Proof.
  intros Hs Ha. destruct s as [|v|v|v|[] v|v|v|v|v|v|v]; simpl in Hs; rewrite ?Ha in Hs;
    simplify_eq/=.
  - by exists (SHead v).
  - by exists (SCas v).
  - by exists (SLeave v).
  - by exists (SStall v).
  - by exists (SStalled v).
  - by exists (SNext v).
  - by exists (SHead v).
  - by exists (SBack v).
  - by exists (SDone v).
Qed.

Lemma next_committed s s' cur :
  next cur s = Some s' -> committed s = None ->
  (committed s' = None /\ effect cur s = cur) \/
  (s = SCas cur /\ committed s' = Some cur /\ effect cur s = f cur).
Proof.
  intros Hn Hc. destruct s as [| | |v|[] v| | | | | |]; simplify_eq/=; try by left.
  destruct (Z.eqb_spec cur v) as [->|]; [by right|by left].
Qed.

Lemma effect_committed s v cur : committed s = Some v -> effect cur s = cur.
Proof. by destruct s as [| | | |[] ?| | | | | |]. Qed.

Lemma stage_ret s b : stage_prog s = Ret b -> ∃ v, s = SDone v /\ b = g v.
Proof. destruct s; simpl; intros Hs; simplify_eq. by exists v. Qed.
End stages.

(** * Emulation in context *)

(** The atomic counterpart of an emulated operation. *)
Definition rmw {A} (a : Z) (f : Z -> Z) (g : Z -> A) : prog A := Act (ORmw a f) (fun r => g (fst r)).

(** [emulates p q]: [p] is [q] with some of its atomic operations replaced by the
    expansions of the macros. *)
Inductive emulates : ∀ {A : Type}, prog A -> prog A -> Prop :=
| em_ret {A} (x : A) : emulates (Ret x) (Ret x)
| em_act {A} o (g : Z * Z -> A) : emulates (Act o g) (Act o g)
| em_bind {A B} (p q : prog B) (h k : B -> prog A) :
    emulates p q -> (∀ x, emulates (h x) (k x)) -> emulates (Bind p h) (Bind q k)
| em_iter {A S} (b c : S -> prog (S + A)) s :
    (∀ x, emulates (b x) (c x)) -> emulates (Iter b s) (Iter c s)
| em_bin K T a value :
    emulates (CK_PR_BIN K T a value) (rmw a (fun v => cast T (P K v value)) (fun _ => tt))
| em_btx K T a offset :
    emulates (CK_PR_BTX K T a offset)
      (rmw a (fun v => cast T (BT K T v offset)) (fun v => truthy (Z.land (Z.shiftr v offset) 1)))
| em_unary_z K T z a :
    emulates (CK_PR_UNARY_Z K T z a) (rmw a (fun v => cast T (P K v 1)) (fun v => v =? cast T z))
| em_n K T a : emulates (CK_PR_N K T a) (rmw a (fun v => cast T (PN K v)) (fun _ => tt))
| em_n_z T a : emulates (CK_PR_N_Z T a) (rmw a (fun v => cast T (- v)) (fun v => v =? 0))
| em_faa T a delta : emulates (CK_PR_FAA T a delta) (rmw a (fun v => cast T (v + delta)) (fun v => v))
| em_fas a update : emulates (CK_PR_FAS a update) (rmw a (fun _ => update) (fun v => v)).

(** The simulation relation: emulated operations may be under way. *)
Inductive sim : ∀ {A : Type}, prog A -> prog A -> Prop :=
| sim_ret {A} (x : A) : sim (Ret x) (Ret x)
| sim_act {A} o (g : Z * Z -> A) : sim (Act o g) (Act o g)
| sim_bind {A B} (p q : prog B) (h k : B -> prog A) :
    sim p q -> (∀ x, sim (h x) (k x)) -> sim (Bind p h) (Bind q k)
| sim_iter {A S} (b c : S -> prog (S + A)) s :
    (∀ x, sim (b x) (c x)) -> sim (Iter b s) (Iter c s)
| sim_pending {A} a f (g : Z -> A) s :
    committed s = None -> sim (stage_prog a f g s) (rmw a f g)
| sim_committed {A} a f (g : Z -> A) s v :
    committed s = Some v -> sim (stage_prog a f g s) (Ret (g v)).

Lemma emulates_sim {A} (p q : prog A) : emulates p q -> sim p q.
Proof.
  induction 1; try by constructor.
  - by apply (sim_pending a _ (fun _ => tt) SLoad).
  - by apply (sim_pending a _ (fun v => truthy (Z.land (Z.shiftr v offset) 1)) SLoad).
  - by apply (sim_pending a _ (fun v => v =? cast T z) SLoad).
  - by apply (sim_pending a _ (fun _ => tt) SLoad).
  - by apply (sim_pending a _ (fun v => v =? 0) SLoad).
  - by apply (sim_pending a _ (fun v => v) SLoad).
  - by apply (sim_pending a (fun _ => update) (fun v => v) SLoad).
Qed.

Lemma sim_returned {A} (p q : prog A) : sim p q -> ∀ x, p = Ret x -> q = Ret x.
Proof.
  induction 1 as [| | | |A a f g s Hc|A a f g s v Hc]; intros y Hy; simplify_eq; [done|..].
  - apply stage_ret in Hy as (v & -> & ->). done.
  - apply stage_ret in Hy as (w & -> & ->). by simplify_eq/=.
Qed.

(** The atomic program answers a step with a step or stays where it is. *)
Definition answers {A} (p' : prog A) (σ' : mem) (q : prog A) (σ : mem) : Prop :=
  ∃ q', sim p' q' /\ ((q' = q /\ σ' = σ) \/ pstep q σ = Some (q', σ')).

Lemma stage_answers {A} a f (g : Z -> A) s q σ p' σ' :
  (committed s = None /\ q = rmw a f g \/ ∃ v, committed s = Some v /\ q = Ret (g v)) ->
  pstep (stage_prog a f g s) σ = Some (p', σ') -> answers p' σ' q σ.
Proof.
  intros Hq Hs. destruct (σ !! a) as [cur|] eqn:Hcur.
  - rewrite (stage_step a f g s cur σ Hcur) in Hs.
    destruct (next cur s) as [s'|] eqn:Hn; simplify_eq/=.
    destruct Hq as [[Hc ->]|(v & Hc & ->)].
    + destruct (next_committed f s s' cur Hn Hc) as [[Hc' ->]|(-> & Hc' & ->)].
      * exists (rmw a f g). split; [by apply sim_pending|]. left. by rewrite insert_id.
      * exists (Ret (g cur)). split; [by apply sim_committed|]. right. by rewrite /= Hcur.
    + exists (Ret (g v)). rewrite (effect_committed f s v cur Hc) insert_id //. split; [|by left].
      apply sim_committed. by eapply committed_next.
  - destruct (stage_step_unmapped a f g s p' σ' σ Hs Hcur) as (s' & -> & -> & Hc').
    exists q. split; [|by left]. destruct Hq as [[Hc ->]|(v & Hc & ->)].
    + apply sim_pending. congruence.
    + apply sim_committed. congruence.
Qed.

Lemma sim_step {A} (p q : prog A) :
  sim p q -> ∀ σ p' σ', pstep p σ = Some (p', σ') -> answers p' σ' q σ.
Proof.
  induction 1 as [A x|A o g|A B p q h k Hpq IH Hhk IHk|A S b c s Hbc IHbc|A a f g s Hc|A a f g s v Hc];
    intros σ p' σ' Hs.
  - done.
  - exists p'. split; [|by right]. simpl in Hs.
    destruct (exec o σ) as [[r τ]|]; simplify_eq/=. constructor.
  - destruct (pstep p σ) as [[p1 σ1]|] eqn:Hp.
    + rewrite (pstep_bind p p1 h σ σ1 Hp) in Hs. simplify_eq.
      destruct (IH σ p1 σ' Hp) as (q' & Hsim & Hq). exists (Bind q' k). split; [by constructor|].
      destruct Hq as [[-> ->]|Hq]; [by left|]. right. by apply pstep_bind.
    + destruct p as [x| | |]; [|exfalso; cbn [pstep] in Hs, Hp; by rewrite Hp in Hs..].
      simplify_eq/=. rewrite (sim_returned _ _ Hpq x eq_refl). exists (k x). split; [done|by right].
  - simplify_eq/=. eexists. split; [|by right]. constructor; [done|].
    intros [s'|y]; by constructor.
  - eapply stage_answers; [|done]. by left.
  - eapply stage_answers; [|done]. right. eauto.
Qed.

Lemma sim_sys_step {A} (ps qs ps' : list (prog A)) σ σ' :
  Forall2 sim ps qs -> sys_step (ps, σ) (ps', σ') ->
  ∃ qs', Forall2 sim ps' qs' /\ rtc sys_step (qs, σ) (qs', σ').
Proof.
  intros Hall Hs. inversion Hs as [ts τ i p p' τ' Hi Hp]; simplify_eq.
  destruct (Forall2_lookup_l _ _ _ _ _ Hall Hi) as (q & Hqi & Hsim).
  destruct (sim_step p q Hsim σ p' σ' Hp) as (q' & Hsim' & [[-> ->]|Hq]).
  - exists qs. split; [|done]. rewrite -(list_insert_id qs i q Hqi). by apply Forall2_insert.
  - exists (<[i := q']> qs). split; [by apply Forall2_insert|].
    apply rtc_once. by econstructor.
Qed.

Lemma sim_sys_steps {A} (ps qs ps' : list (prog A)) σ σ' :
  Forall2 sim ps qs -> rtc sys_step (ps, σ) (ps', σ') ->
  ∃ qs', Forall2 sim ps' qs' /\ rtc sys_step (qs, σ) (qs', σ').
Proof.
  intros Hall Hs. remember (ps, σ) as c eqn:Hc. remember (ps', σ') as c' eqn:Hc'.
  revert ps qs σ Hc Hall. induction Hs as [|c [ps1 σ1] c' H1 _ IH]; intros ps qs σ -> Hall.
  - simplify_eq. by exists qs.
  - destruct (sim_sys_step ps qs ps1 σ σ1 Hall H1) as (qs1 & Hall1 & Hq).
    destruct (IH Hc' ps1 qs1 σ1 eq_refl Hall1) as (qs' & Hall' & Hq').
    exists qs'. split; [done|]. by etrans.
Qed.

(** * Lock-freedom

    The steps a thread still needs if no other thread writes: at most six more
    when the value it holds is stale. *)

Definition stale (cur v : Z) : nat := if v =? cur then 0%nat else 6%nat.

Definition rank (cur : Z) (s : stage) : nat :=
  (match s with
  | SLoad => 7
  | SGot v | SNext v => 6 + stale cur v
  | SHead v => 5 + stale cur v
  | SCas v => 4 + stale cur v
  | STried false v => 9 + stale cur v
  | SStall v => 8 + stale cur v
  | SStalled v => 7 + stale cur v
  | STried true _ => 3
  | SLeave _ => 2
  | SBack _ => 1
  | SDone _ => 0
  end)%nat.

Definition pending (s : stage) : nat := (match committed s with None => 1 | Some _ => 0 end)%nat.

Lemma stale_refl cur : stale cur cur = 0%nat.
Proof. by rewrite /stale Z.eqb_refl. Qed.

Lemma stale_le cur v : (stale cur v <= 6)%nat.
Proof. rewrite /stale. case_match; lia. Qed.

Lemma rank_write cur cur' s : (rank cur' s <= rank cur s + 6)%nat.
Proof.
  destruct s as [|v|v|v|[] v|v|v|v|v|v|v]; simpl; try lia;
    pose proof (stale_le cur' v); lia.
Qed.

Lemma rank_step cur s s' :
  next cur s = Some s' -> committed s' = committed s -> (rank cur s' < rank cur s)%nat.
Proof.
  intros Hn Hc. destruct s as [|v|v|v|[] v|v|v|v|v|v|v]; simplify_eq/=;
    rewrite ?stale_refl; try lia.
  rewrite /stale. destruct (Z.eqb_spec cur v) as [|Hne]; [done|]. simpl.
  destruct (Z.eqb_spec v cur); [congruence|lia].
Qed.

(** One emulated operation, as a macro expands. *)
Definition emulated {A} (a : Z) (op : (Z -> Z) * (Z -> A)) : prog A :=
  previous <- cas_loop a (fst op) ;; Ret (snd op previous).

Section lock_freedom.
Context {A : Type} (a : Z) (ops : list ((Z -> Z) * (Z -> A))).
Let N := length ops.

Definition threads (ss : list stage) : list (prog A) :=
  zip_with (fun op s => stage_prog a (fst op) (snd op) s) ops ss.

Definition potential (cur : Z) (ss : list stage) : nat :=
  (sum_list (rank cur <$> ss) + 6 * N * sum_list (pending <$> ss))%nat.

Lemma sum_insert {B} (w : B -> nat) (ss : list B) i s s' :
  ss !! i = Some s -> (sum_list (w <$> <[i := s']> ss) + w s = sum_list (w <$> ss) + w s')%nat.
Proof.
  revert i. induction ss as [|x ss IH]; intros [|i] Hi; simplify_eq/=; [lia|].
  specialize (IH i Hi). lia.
Qed.

Lemma sum_rank_write cur cur' ss :
  (sum_list (rank cur' <$> ss) <= sum_list (rank cur <$> ss) + 6 * length ss)%nat.
Proof.
  induction ss as [|s ss IH]; [done|]. rewrite !fmap_cons /=. pose proof (rank_write cur cur' s). lia.
Qed.

(** Every step lowers the potential. *)
Lemma potential_step ss i s s' cur f :
  length ss = N -> ss !! i = Some s -> next cur s = Some s' ->
  (potential (effect f cur s) (<[i := s']> ss) < potential cur ss)%nat.
Proof.
  intros Hlen Hi Hn. rewrite /potential.
  pose proof (sum_insert pending ss i s s' Hi) as Hp.
  destruct (committed s) as [v|] eqn:Hc; [|destruct (next_committed f s s' cur Hn Hc) as
    [[Hc' ->]|(-> & Hc' & ->)]].
  - pose proof (committed_next s s' cur v Hc Hn) as Hc'. rewrite (effect_committed f s v cur Hc).
    pose proof (sum_insert (rank cur) ss i s s' Hi) as Hr.
    pose proof (rank_step cur s s' Hn ltac:(congruence)).
    assert (pending s = pending s') by by rewrite /pending Hc Hc'.
    assert (sum_list (pending <$> <[i:=s']> ss) = sum_list (pending <$> ss)) as -> by lia. lia.
  - pose proof (sum_insert (rank cur) ss i s s' Hi) as Hr.
    pose proof (rank_step cur s s' Hn ltac:(congruence)).
    assert (pending s = pending s') by by rewrite /pending Hc Hc'.
    assert (sum_list (pending <$> <[i:=s']> ss) = sum_list (pending <$> ss)) as -> by lia. lia.
  - pose proof (sum_insert (rank (f cur)) ss i (SCas cur) s' Hi) as Hr.
    assert (rank (f cur) s' = 3%nat) as Hs'.
    { simplify_eq/=. by rewrite Z.eqb_refl. }
    pose proof (sum_rank_write cur (f cur) ss) as Hw. rewrite Hlen in Hw.
    assert (4 <= rank (f cur) (SCas cur))%nat by (simpl; lia).
    assert (pending (SCas cur) = 1 /\ pending s' = 0)%nat as [Hp1 Hp2] by by rewrite /pending Hc'.
    assert (sum_list (pending <$> ss) = 1 + sum_list (pending <$> <[i:=s']> ss))%nat as -> by lia.
    rewrite Nat.mul_add_distr_l. lia.
Qed.

Lemma threads_lookup ss i p :
  threads ss !! i = Some p ->
  ∃ op s, ops !! i = Some op /\ ss !! i = Some s /\ p = stage_prog a (fst op) (snd op) s.
Proof.
  rewrite /threads lookup_zip_with_Some. intros (op & s & -> & Ho & Hs). eauto.
Qed.

Lemma threads_insert ss i op s' :
  ops !! i = Some op ->
  <[i := stage_prog a (fst op) (snd op) s']> (threads ss) = threads (<[i := s']> ss).
Proof.
  intros Ho. rewrite /threads.
  rewrite -{2}(list_insert_id ops i op Ho) -(insert_zip_with (fun op s => stage_prog a (fst op) (snd op) s)).
  done.
Qed.

Lemma threads_step ss σ cur ps' σ' :
  length ss = N -> σ !! a = Some cur -> sys_step (threads ss, σ) (ps', σ') ->
  ∃ ss' cur', ps' = threads ss' /\ length ss' = N /\ σ' !! a = Some cur' /\
    (potential cur' ss' < potential cur ss)%nat.
Proof.
  intros Hlen Hcur Hs. inversion Hs as [ts τ i p p' τ' Hi Hp]; simplify_eq.
  destruct (threads_lookup ss i p Hi) as (op & s & Ho & Hss & ->).
  rewrite (stage_step a (fst op) (snd op) s cur σ Hcur) in Hp.
  destruct (next cur s) as [s'|] eqn:Hn; simplify_eq/=.
  exists (<[i := s']> ss), (effect (fst op) cur s). split; [by apply threads_insert|].
  split; [by rewrite length_insert|]. split; [apply lookup_insert_eq|].
  by apply potential_step.
Qed.

Lemma threads_bounded n ss σ cur ps' σ' :
  length ss = N -> σ !! a = Some cur -> nsteps sys_step n (threads ss, σ) (ps', σ') ->
  (n <= potential cur ss)%nat /\
  ∃ ss' cur', ps' = threads ss' /\ length ss' = N /\ σ' !! a = Some cur'.
Proof.
  revert ss σ cur. induction n as [|n IH]; intros ss σ cur Hlen Hcur Hs.
  { inversion Hs; simplify_eq. split; [lia|]. by exists ss, cur. }
  inversion Hs as [|? ? [ps1 σ1] ? H1 Hrest]; simplify_eq.
  destruct (threads_step ss σ cur ps1 σ1 Hlen Hcur H1) as (ss1 & cur1 & -> & Hlen1 & Hcur1 & Hlt).
  destruct (IH ss1 σ1 cur1 Hlen1 Hcur1 Hrest) as [Hle Hex]. split; [lia|done].
Qed.

Lemma threads_safe ss σ cur p :
  σ !! a = Some cur -> p ∈ threads ss -> safe p σ.
Proof.
  intros Hcur [i Hi]%list_elem_of_lookup.
  destruct (threads_lookup ss i p Hi) as (op & s & Ho & Hss & ->).
  destruct (next cur s) as [s'|] eqn:Hn.
  - right. rewrite (stage_step a _ _ s cur σ Hcur) Hn. by eexists.
  - left. destruct s as [| | | |[] ?| | | | | |]; simplify_eq. by eexists.
Qed.
End lock_freedom.

(** C21. The compare-and-swap emulations of [ck_pr.h] refine the atomic
    operations they stand for: take any programs [qs] and replace any of their
    atomic read-modify-writes by the macro expansions, giving [ps].  Whatever
    memory and results [ps] can reach under some interleaving, [qs] reaches too. *)
Theorem emulation_refines_atomic {A} (ps qs ps' : list (prog A)) (σ σ' : mem) :
  Forall2 emulates ps qs -> rtc sys_step (ps, σ) (ps', σ') ->
  ∃ qs', rtc sys_step (qs, σ) (qs', σ') /\
    Forall2 (fun p q => ∀ x, p = Ret x -> q = Ret x) ps' qs'.
Proof.
  intros Hall Hs.
  destruct (sim_sys_steps ps qs ps' σ σ') as (qs' & Hsim & Hq); [|done|].
  - eapply Forall2_impl; [done|]. intros p q. apply emulates_sim.
  - exists qs'. split; [done|]. eapply Forall2_impl; [done|]. intros p q. apply sim_returned.
Qed.

(** Two threads increment an 8-bit cell holding 255 with the emulated operation. *)
Definition emulation_demo : config bool :=
  round_robin 20 ([is_zero_8 inc 1; is_zero_8 inc 1], {[1 := 255]}).

Lemma emulation_refines_atomic_witness :
  emulation_demo.1 = [Ret true; Ret false] /\ emulation_demo.2 !! 1 = Some 1 /\
  ∃ qs', rtc sys_step
      (replicate 2 (rmw 1 (fun v => cast T8 (P Padd v 1)) (fun v => v =? cast T8 255)), {[1 := 255]})
      (qs', emulation_demo.2) /\
    Forall2 (fun p q => ∀ x, p = Ret x -> q = Ret x) emulation_demo.1 qs'.
Proof.
  split; [vm_compute; reflexivity|]. split; [vm_compute; reflexivity|].
  apply (emulation_refines_atomic [is_zero_8 inc 1; is_zero_8 inc 1] _
           emulation_demo.1 {[1 := 255]} emulation_demo.2).
  - repeat constructor.
  - apply round_robin_pair.
Defined.

(** C27. The emulations are lock-free: when [N] threads each perform one emulated
    operation on a cell, every execution, under any scheduler, has at most
    [N * (7 + 6 * N)] steps, and a thread that has not returned can always step;
    so all of them return. *)
Theorem emulation_lock_free {A} (a : Z) (ops : list ((Z -> Z) * (Z -> A))) v σ n ps' σ' :
  σ !! a = Some v -> nsteps sys_step n (emulated a <$> ops, σ) (ps', σ') ->
  (n <= length ops * (7 + 6 * length ops))%nat /\ (∀ p, p ∈ ps' -> safe p σ').
Proof.
  intros Hv Hs.
  assert (emulated a <$> ops = threads a ops (replicate (length ops) SLoad)) as Heq.
  { clear. induction ops as [|op ops' IH]; [done|]. by rewrite fmap_cons IH. }
  rewrite Heq in Hs.
  destruct (threads_bounded a ops n _ σ v ps' σ' (length_replicate _ _) Hv Hs)
    as [Hle (ss' & cur' & -> & _ & Hcur')].
  split; [|by intros p; eapply threads_safe].
  assert (∀ (w : stage -> nat) k, sum_list (w <$> replicate k SLoad) = (k * w SLoad)%nat) as Hsum.
  { intros w. induction k as [|k IH]; [done|]. by rewrite /= -IH. }
  rewrite /potential !Hsum in Hle.
  change (rank v SLoad) with 7%nat in Hle. change (pending SLoad) with 1%nat in Hle. nia.
Qed.

(** The first thread exchanges, the second adds; the loop of the first is
    interrupted once. *)
Definition lock_free_demo : config Z :=
  round_robin 30 (emulated 1 <$> [(fun _ => 9, id); (fun v => v + 1, id)], {[1 := 5]}).

Lemma emulation_lock_free_witness :
  lock_free_demo.1 = [Ret 5; Ret 9] /\
  ∃ n, (n <= 38)%nat /\
    nsteps sys_step n (emulated 1 <$> [(fun _ => 9, id); (fun v => v + 1, id)], {[1 := 5]})
      (lock_free_demo.1, lock_free_demo.2).
Proof.
  split; [vm_compute; reflexivity|].
  destruct (proj1 (rtc_nsteps _ _) (round_robin_pair 30
    (emulated 1 <$> [(fun _ => 9, id); (fun v => v + 1, id)], {[1 := 5]}))) as [n Hn].
  exists n. split; [|exact Hn].
  exact (proj1 (emulation_lock_free 1 [(fun _ => 9, id); (fun v => v + 1, id)] 5 {[1 := 5]}
                  n _ _ eq_refl Hn)).
Defined.

(** * The zero tests *)

Definition in_type (T : ck_pr_type) (v : Z) : Prop := cast T v = v.

(** The value whose replacement by [inc] or [dec] is zero, as each instance
    writes it. *)
Definition zero_of (K : step) (T : ck_pr_type) : Z :=
  match K with
  | dec => 1
  | inc => match T with
           | Tchar | Tint => -1
           | Tuint | Tptr => UINT_MAX
           | T64 => UINT64_MAX
           | T32 => 4294967295
           | T16 => 65535
           | T8 => 255
           end
  end.

Definition is_zero (K : step) (T : ck_pr_type) : Z -> prog bool :=
  CK_PR_UNARY_Z (stepop K) T (zero_of K T).

Lemma is_zero_instances K :
  is_zero_char K = is_zero K Tchar /\ is_zero_int K = is_zero K Tint /\
  is_zero_uint K = is_zero K Tuint /\ is_zero_ptr K = is_zero K Tptr /\
  is_zero_64 K = is_zero K T64 /\ is_zero_32 K = is_zero K T32 /\
  is_zero_16 K = is_zero K T16 /\ is_zero_8 K = is_zero K T8.
Proof. by destruct K. Qed.

Lemma cast_range T v :
  in_type T v -> match T with
                 | Tchar => -128 <= v < 128
                 | Tint => -2147483648 <= v < 2147483648
                 | Tuint | T32 => 0 <= v < 4294967296
                 | Tptr | T64 => 0 <= v < 18446744073709551616
                 | T16 => 0 <= v < 65536
                 | T8 => 0 <= v < 256
                 end.
Proof. unfold in_type. destruct T; simpl; unfold s8, s32; unfold_uint; intros; Z.to_euclidean_division_equations; lia. Qed.

(** Run alone, an emulated operation is the atomic one. *)
Lemma returns_emulated {A} a op v σ :
  σ !! a = Some v -> returns (emulated (A:=A) a op) σ (snd op v) (<[a := fst op v]> σ).
Proof.
  intros Hv. unfold emulated, cas_loop. eapply returns_bind; [|apply returns_ret].
  eapply returns_bind; [by apply returns_load|]. eapply returns_iter.
  - eapply returns_bind; [by eapply returns_cas|]. simpl. rewrite Z.eqb_refl. apply returns_ret.
  - done.
Qed.

(** C38. The zero tests of the emulated increments and decrements
    ([ck_pr_inc_*_is_zero], [ck_pr_dec_*_is_zero]): the cell is stepped modulo the
    width and the answer says whether its new value is zero, for every type and
    both directions except the increment of a pointer. *)
Theorem is_zero_correct K T a v σ :
  (K, T) <> (inc, Tptr) -> σ !! a = Some v -> in_type T v ->
  returns (is_zero K T a) σ (cast T (P (stepop K) v 1) =? 0)
    (<[a := cast T (P (stepop K) v 1)]> σ).
Proof.
  intros Hne Hv Hin. pose proof (cast_range T v Hin) as Hr.
  replace (cast T (P (stepop K) v 1) =? 0) with (v =? cast T (zero_of K T)).
  - apply (returns_emulated a (fun v => cast T (P (stepop K) v 1), fun v => v =? cast T (zero_of K T))).
    done.
  - apply Bool.eq_iff_eq_true. rewrite !Z.eqb_eq.
    destruct K, T; try done; cbv [cast P stepop zero_of s8 s32 UINT64_MAX];
      unfold_uint; Z.to_euclidean_division_equations; lia.
Qed.

Lemma is_zero_correct_witness :
  returns (is_zero inc T16 1) {[1 := 65535]} true {[1 := 0]} /\
  returns (is_zero dec T16 1) {[1 := 65535]} false {[1 := 65534]}.
Proof.
  split.
  - exact (is_zero_correct inc T16 1 65535 {[1 := 65535]} ltac:(done) eq_refl eq_refl).
  - exact (is_zero_correct dec T16 1 65535 {[1 := 65535]} ltac:(done) eq_refl eq_refl).
Defined.

(** The emulated [ck_pr_inc_ptr_is_zero] compares with [UINT_MAX] where the
    largest pointer is meant: with 64-bit pointers it answers true when the cell
    goes from 2^32 - 1 to 2^32, and false when it wraps around to zero. *)
Theorem inc_ptr_is_zero_wrong a σ :
  returns (is_zero_ptr inc a) (<[a := 4294967295]> σ) true (<[a := 4294967296]> σ) /\
  returns (is_zero_ptr inc a) (<[a := UINT64_MAX]> σ) false (<[a := 0]> σ).
Proof.
  pose (op := (fun v => cast Tptr (P Padd v 1), fun v => v =? cast Tptr UINT_MAX)).
  split.
  - rewrite -(insert_insert_eq σ a 4294967296 4294967295).
    exact (returns_emulated a op 4294967295 _ (lookup_insert_eq σ a 4294967295)).
  - rewrite -(insert_insert_eq σ a 0 UINT64_MAX).
    exact (returns_emulated a op UINT64_MAX _ (lookup_insert_eq σ a UINT64_MAX)).
Qed.
