(* ===== verification/Ghost.v ===== *)
(** Arrays of cells in the program logic: the array assertion, its access lemma,
    the memory that holds given arrays, and the rule for counting loops. *)

From stdpp Require Import list.
From iris.base_logic.lib Require Export ghost_map mono_nat.
From S2P Require Export Logic.
Set Warnings "-rewrite-rw".

(** * Loops *)

Section loops.
Context `{!ckGS_gen hlc Σ}.

(** [for (i = lo; i < hi; i++) body i] *)
Lemma twp_for (I : Z -> iProp Σ) s E lo hi (body : Z -> prog unit) (Φ : unit -> iProp Σ) :
  I lo -∗
  □ (∀ i, ⌜lo <= i < hi⌝ -∗ I i -∗ WP body i @ s; E [{ _, I (i + 1) }]) -∗
  (I (Z.max lo hi) -∗ Φ tt) -∗
  WP for_ lo hi body @ s; E [{ Φ }].
Proof.
  iIntros "HI #Hbody HΦ". rewrite /for_.
  iApply (twp_loop_inv (λ i, Z.to_nat (hi - i))
            (λ i, ⌜lo <= i <= Z.max lo hi⌝ ∗ I i ∗ (I (Z.max lo hi) -∗ Φ tt))%I with "[$HI $HΦ]").
  { iPureIntro. lia. }
  iIntros "!>" (i) "(%Hi & HI & HΦ)". destruct (Z.ltb_spec i hi).
  - wp_focus. iApply (twp_wand (Λ:=ck_lang unit) with "[HI]").
    { iApply ("Hbody" with "[] HI"). iPureIntro. lia. }
    iIntros (_) "HI". wp_pures. iFrame. iPureIntro. lia.
  - wp_pures. replace (Z.max lo hi) with i by lia. by iApply "HΦ".
Qed.
End loops.

(** * Arrays *)

Section array.
Context `{!gen_heapGS Z Z Σ}.
Implicit Types (a : Z) (ws : list Z).

Definition array (a : Z) (dq : dfrac) (ws : list Z) : iProp Σ :=
  [∗ list] i ↦ w ∈ ws, (a + Z.of_nat i) ↦{dq} w.

Lemma array_acc a ws i w :
  ws !! i = Some w ->
  array a (DfracOwn 1) ws -∗
  (a + Z.of_nat i) ↦ w ∗ (∀ w', (a + Z.of_nat i) ↦ w' -∗ array a (DfracOwn 1) (<[i := w']> ws)).
Proof. iIntros (Hi) "H". by iApply (big_sepL_insert_acc with "H"). Qed.

Lemma array_read a dq ws i w :
  ws !! i = Some w ->
  array a dq ws -∗
  (a + Z.of_nat i) ↦{dq} w ∗ ((a + Z.of_nat i) ↦{dq} w -∗ array a dq ws).
Proof. iIntros (Hi) "H". by iApply (big_sepL_lookup_acc with "H"). Qed.

(** The memory that holds [ws] at [a]. *)
Fixpoint array_mem (a : Z) (ws : list Z) : mem :=
  match ws with
  | [] => ∅
  | w :: ws => <[a := w]> (array_mem (a + 1) ws)
  end.

Lemma array_mem_lookup a ws l :
  array_mem a ws !! l = if decide (a <= l) then ws !! Z.to_nat (l - a) else None.
Proof.
  revert a. induction ws as [|w ws IH]; intros a; simpl.
  - case_decide; [|done]. by rewrite lookup_nil.
  - destruct (decide (a = l)) as [->|Hne].
    + rewrite lookup_insert_eq. destruct (decide (l <= l)) as [|Hn]; [|lia].
      by replace (l - l) with 0 by lia.
    + rewrite lookup_insert_ne // IH.
      destruct (decide (a + 1 <= l)); destruct (decide (a <= l)); try lia; [|done].
      by replace (Z.to_nat (l - a)) with (S (Z.to_nat (l - (a + 1)))) by lia.
Qed.

Lemma array_of_mem a ws : ([∗ map] l ↦ v ∈ array_mem a ws, l ↦ v) ⊣⊢ array a (DfracOwn 1) ws.
Proof.
  revert a. induction ws as [|w ws IH]; intros a; simpl.
  - by rewrite big_sepM_empty.
  - rewrite big_sepM_insert.
    + rewrite IH /array big_sepL_cons Z.add_0_r. f_equiv.
      apply big_sepL_proper. intros i v _.
      by replace (a + 1 + Z.of_nat i) with (a + Z.of_nat (S i)) by lia.
    + rewrite array_mem_lookup. destruct (decide (a + 1 <= a)); [lia|done].
Qed.

Lemma array_mem_disjoint a ws b vs :
  a + Z.of_nat (length ws) <= b \/ b + Z.of_nat (length vs) <= a ->
  array_mem a ws ##ₘ array_mem b vs.
Proof.
  intros Hd. apply map_disjoint_spec. intros l x y Hx Hy.
  rewrite array_mem_lookup in Hx. rewrite array_mem_lookup in Hy.
  destruct (decide (a <= l)); [|done]. destruct (decide (b <= l)); [|done].
  apply lookup_lt_Some in Hx. apply lookup_lt_Some in Hy. lia.
Qed.
End array.

(** A list that only grows: its owner may append to it, and what anyone has seen of
    it stays true. *)

Class histG (A : Type) (Σ : gFunctors) := HistG { hist_inG :: ghost_mapG Σ nat A }.
Definition histΣ (A : Type) : gFunctors := #[ghost_mapΣ nat A].
#[global] Instance subG_histΣ {A Σ} : subG (histΣ A) Σ -> histG A Σ.
Proof. solve_inG. Qed.

Section history.
Context {A : Type} `{!histG A Σ}.
Implicit Types (γ : gname) (l : list A) (x y : A) (k : nat).

Definition hist_at γ k x : iProp Σ := k ↪[γ]□ x.
Definition hist_auth γ l : iProp Σ :=
  ∃ M : gmap nat A, ghost_map_auth γ 1 M ∗ ⌜∀ k, M !! k = l !! k⌝ ∗ [∗ list] k ↦ x ∈ l, hist_at γ k x.

#[global] Instance hist_at_persistent γ k x : Persistent (hist_at γ k x).
Proof. apply _. Qed.
#[global] Instance hist_at_timeless γ k x : Timeless (hist_at γ k x).
Proof. apply _. Qed.
#[global] Instance hist_auth_timeless γ l : Timeless (hist_auth γ l).
Proof. apply _. Qed.

Lemma hist_lookup γ l k x : hist_auth γ l -∗ hist_at γ k x -∗ ⌜l !! k = Some x⌝.
Proof.
  iIntros "(%M & HM & %H & _) Hx". iDestruct (ghost_map_lookup with "HM Hx") as %Hx.
  by rewrite -H.
Qed.

Lemma hist_get γ l k x : l !! k = Some x -> hist_auth γ l -∗ hist_at γ k x.
Proof. iIntros (Hx) "(%M & _ & _ & H)". by iApply (big_sepL_lookup with "H"). Qed.

Lemma hist_agree γ k x y : hist_at γ k x -∗ hist_at γ k y -∗ ⌜x = y⌝.
Proof. iIntros "H1 H2". by iDestruct (ghost_map_elem_agree with "H1 H2") as %->. Qed.

Lemma hist_snoc γ l x : hist_auth γ l ==∗ hist_auth γ (l ++ [x]) ∗ hist_at γ (length l) x.
Proof.
  iIntros "(%M & HM & %H & #Hl)".
  iMod (ghost_map_insert_persist (length l) x with "HM") as "[HM #Hx]".
  { rewrite H. by apply lookup_ge_None_2. }
  iModIntro. iFrame "Hx". iExists _. iFrame "HM". iSplit.
  - iPureIntro. intros k. destruct (decide (k = length l)) as [->|Hne].
    + by rewrite lookup_insert_eq lookup_app_r // Nat.sub_diag.
    + rewrite lookup_insert_ne // H. destruct (decide (k < length l)%nat); [by rewrite lookup_app_l|].
      rewrite !lookup_ge_None_2 //; [rewrite length_app /=; lia|lia].
  - rewrite big_sepL_app /= Nat.add_0_r. by iFrame "#".
Qed.

Lemma hist_alloc x : ⊢ |==> ∃ γ, hist_auth γ [x] ∗ hist_at γ 0 x.
Proof.
  iMod (ghost_map_alloc_empty (K:=nat) (V:=A)) as (γ) "HM".
  iAssert (hist_auth γ []) with "[HM]" as "H".
  { iExists ∅. iFrame. iSplit; [|done]. iPureIntro. intros k. by rewrite lookup_empty lookup_nil. }
  iMod (hist_snoc γ [] x with "H") as "[H Hx]". iModIntro. iExists γ.
  iSplitL "H"; [iExact "H"|iExact "Hx"].
Qed.
End history.
