(* ===== verification/Bitmap.v ===== *)
(** [ck_bitmap.h]: bitmaps of 32-bit words, as programs over shared memory. *)

From S2P Require Export Internal Pr Logic.
Set Warnings "-rewrite-rw".

(** * Layout *)

Definition CK_BITMAP_BLOCK : Z := 32.
Definition CK_BITMAP_OFFSET (i : Z) : Z := i mod CK_BITMAP_BLOCK.
Definition CK_BITMAP_BIT (i : Z) : Z := u32 (Z.shiftl 1 (CK_BITMAP_OFFSET i)).
Definition CK_BITMAP_PTR (x i : Z) : Z := x + i / CK_BITMAP_BLOCK.
Definition CK_BITMAP_BLOCKS (n : Z) : Z := (n + CK_BITMAP_BLOCK - 1) / CK_BITMAP_BLOCK.

(** [struct ck_bitmap]: the number of bits, then the words. *)
Definition n_bits (bitmap : Z) : Z := bitmap.
Definition map (bitmap : Z) : Z := bitmap + 1.

Record ck_bitmap_iterator := CkBitmapIterator { cache : Z; n_block : Z; n_limit : Z }.

Definition ck_bitmap_base (n_bits : Z) : Z := u32 (CK_BITMAP_BLOCKS n_bits * 4).
Definition ck_bitmap_size (n_bits : Z) : Z := u32 (ck_bitmap_base n_bits + 4).
Definition ck_bitmap_bits (bitmap : Z) : prog Z := ld (n_bits bitmap).
Definition ck_bitmap_buffer (bitmap : Z) : Z := map bitmap.

(** * Single bits

    [ck_pr_bts_uint] is one atomic operation; where a port has none it is the
    emulation [btx_uint BTS], which refines it. *)

Definition ck_pr_bts_uint (target offset : Z) : prog bool :=
  Act (ORmw target (fun v => cast Tuint (BT BTS Tuint v offset)))
      (fun r => truthy (Z.land (Z.shiftr (fst r) offset) 1)).

Definition ck_bitmap_set (bitmap n : Z) : prog unit :=
  ck_pr_or (CK_BITMAP_PTR (map bitmap) n) (CK_BITMAP_BIT n).

Definition ck_bitmap_bts (bitmap n : Z) : prog bool :=
  ck_pr_bts_uint (CK_BITMAP_PTR (map bitmap) n) (CK_BITMAP_OFFSET n).

Definition ck_bitmap_reset (bitmap n : Z) : prog unit :=
  ck_pr_and (CK_BITMAP_PTR (map bitmap) n) (u32 (Z.lnot (CK_BITMAP_BIT n))).

Definition ck_bitmap_test (bitmap n : Z) : prog bool :=
  block <- ck_pr_load (CK_BITMAP_PTR (map bitmap) n) ;;
  Ret (truthy (Z.land block (CK_BITMAP_BIT n))).

(** * Whole bitmaps

    Loop counters stay below a 32-bit bound, so they do not wrap. *)

Definition ck_bitmap_union (dst src : Z) : prog unit :=
  n_buckets <- ld (n_bits dst) ;;
  s <- ld (n_bits src) ;;
  d <- ld (n_bits dst) ;;
  n_buckets <- (if s <? d then ld (n_bits src) else Ret n_buckets) ;;
  for_ 0 (CK_BITMAP_BLOCKS n_buckets) (fun n =>
    v <- ck_pr_load (map src + n) ;; ck_pr_or (map dst + n) v).

Definition ck_bitmap_intersection (dst src : Z) : prog unit :=
  n_buckets <- ld (n_bits dst) ;;
  m <- ld (n_bits src) ;;
  n_intersect <- (if m <? n_buckets then ld (n_bits src) else Ret n_buckets) ;;
  let n_buckets := CK_BITMAP_BLOCKS n_buckets in
  let n_intersect := CK_BITMAP_BLOCKS n_intersect in
  for_ 0 n_intersect (fun n =>
    v <- ck_pr_load (map src + n) ;; ck_pr_and (map dst + n) v) ;;
  for_ n_intersect n_buckets (fun n => ck_pr_store (map dst + n) 0).

Definition ck_bitmap_intersection_negate (dst src : Z) : prog unit :=
  n_intersect <- ld (n_bits dst) ;;
  m <- ld (n_bits src) ;;
  n_intersect <- (if m <? n_intersect then ld (n_bits src) else Ret n_intersect) ;;
  for_ 0 (CK_BITMAP_BLOCKS n_intersect) (fun n =>
    v <- ck_pr_load (map src + n) ;; ck_pr_and (map dst + n) (u32 (Z.lnot v))).

Definition ck_bitmap_clear (bitmap : Z) : prog unit :=
  n <- ld (n_bits bitmap) ;;
  for_ 0 (ck_bitmap_base n / 4) (fun i => ck_pr_store (map bitmap + i) 0).

(** [if (limit > bitmap->n_bits) limit = bitmap->n_bits;] *)
Definition truncate (bitmap limit : Z) : prog Z :=
  n <- ld (n_bits bitmap) ;; if n <? limit then ld (n_bits bitmap) else Ret limit.

(** [for (i = 0; i < words; i++) if (bad(map[i])) return false;]: false when the
    loop returned. *)
Definition scan (bitmap words : Z) (bad : Z -> bool) : prog bool :=
  Iter (fun i => if i <? words then
                   v <- ck_pr_load (map bitmap + i) ;;
                   if bad v then break false else continue (i + 1)
                 else break true) 0.

Definition ck_bitmap_empty (bitmap limit : Z) : prog bool :=
  limit <- truncate bitmap limit ;;
  let words := limit / CK_BITMAP_BLOCK in
  let slop := limit mod CK_BITMAP_BLOCK in
  ok <- scan bitmap words (fun v => negb (v =? 0)) ;;
  if negb ok then Ret false
  else if 0 <? slop then
    word <- ck_pr_load (map bitmap + words) ;;
    if negb (Z.land word (Z.shiftl 1 slop - 1) =? 0) then Ret false else Ret true
  else Ret true.

Definition ck_bitmap_full (bitmap limit : Z) : prog bool :=
  limit <- truncate bitmap limit ;;
  let words := limit / CK_BITMAP_BLOCK in
  let slop := limit mod CK_BITMAP_BLOCK in
  ok <- scan bitmap words (fun v => negb (v =? UINT_MAX)) ;;
  if negb ok then Ret false
  else if 0 <? slop then
    v <- ck_pr_load (map bitmap + words) ;;
    let word := u32 (Z.lnot v) in
    if negb (Z.land word (Z.shiftl 1 slop - 1) =? 0) then Ret false else Ret true
  else Ret true.

(** [for (i = 0, count = 0; i < words; i++) count += ck_cc_popcount(word(i))] *)
Definition tally (words : Z) (word : Z -> prog Z) : prog Z :=
  Iter (fun '(i, count) => if i <? words then
                             v <- word i ;; continue (i + 1, u32 (count + ck_cc_popcount v))
                           else break count) (0, 0).

Definition ck_bitmap_count (bitmap limit : Z) : prog Z :=
  limit <- truncate bitmap limit ;;
  let words := limit / CK_BITMAP_BLOCK in
  let slop := limit mod CK_BITMAP_BLOCK in
  count <- tally words (fun i => ck_pr_load (map bitmap + i)) ;;
  if 0 <? slop then
    word <- ck_pr_load (map bitmap + words) ;;
    Ret (u32 (count + ck_cc_popcount (Z.land word (Z.shiftl 1 slop - 1))))
  else Ret count.

(** [xi & yi] *)
Definition both (x y i : Z) : prog Z :=
  xi <- ck_pr_load (map x + i) ;; yi <- ck_pr_load (map y + i) ;; Ret (Z.land xi yi).

Definition ck_bitmap_count_intersect (x y limit : Z) : prog Z :=
  limit <- truncate x limit ;;
  limit <- truncate y limit ;;
  let words := limit / CK_BITMAP_BLOCK in
  let slop := limit mod CK_BITMAP_BLOCK in
  count <- tally words (both x y) ;;
  if 0 <? slop then
    word <- both x y words ;;
    Ret (u32 (count + ck_cc_popcount (Z.land word (Z.shiftl 1 slop - 1))))
  else Ret count.

(** [memset(bitmap->map, -(int)set, base)] sets every byte of the words. *)
Definition ck_bitmap_init (bitmap n : Z) (set : bool) : prog unit :=
  let base := ck_bitmap_base n in
  st (n_bits bitmap) n ;;
  for_ 0 (base / 4) (fun i => st (map bitmap + i) (if set then UINT_MAX else 0)) ;;
  when set
    (let b := n mod CK_BITMAP_BLOCK in
     if b =? 0 then Ret tt
     else v <- ld (CK_BITMAP_PTR (map bitmap) (n - 1)) ;;
          st (CK_BITMAP_PTR (map bitmap) (n - 1)) (Z.land v (Z.shiftl 1 b - 1))).

(** * Iteration *)

Definition ck_bitmap_iterator_init (bitmap : Z) : prog ck_bitmap_iterator :=
  n <- ld (n_bits bitmap) ;;
  let limit := CK_BITMAP_BLOCKS n in
  if 0 <? limit then
    c <- ck_pr_load (map bitmap + 0) ;; Ret (CkBitmapIterator c 0 limit)
  else Ret (CkBitmapIterator 0 0 limit).

(** The label [non_zero]. *)
Definition non_zero (c b limit : Z) : option Z * ck_bitmap_iterator :=
  (Some (u32 (CK_BITMAP_BLOCK * b + ck_cc_ctz c)),
   CkBitmapIterator (Z.land c (u32 (c - 1))) b limit).

(** The result is the bit, [None] standing for the answer false. *)
Definition ck_bitmap_next (bitmap : Z) (i : ck_bitmap_iterator)
    : prog (option Z * ck_bitmap_iterator) :=
  let limit := n_limit i in
  if cache i =? 0 then
    if limit <=? n_block i then Ret (None, i)
    else
      Iter (fun b =>
        if b <? limit then
          c <- ck_pr_load (map bitmap + b) ;;
          if negb (c =? 0) then break (non_zero c b limit) else continue (b + 1)
        else break (None, CkBitmapIterator 0 b limit)) (n_block i + 1)
  else Ret (non_zero (cache i) (n_block i) limit).
