(* ===== verification/BitmapWords.v ===== *)
(** Facts about 32-bit words and lists of words seen as sets of bit numbers: what
    the bit tricks of [ck_bitmap.h] compute. *)

From stdpp Require Import list sorting gmap.
From S2P Require Export Bitmap.
Set Warnings "-rewrite-rw".

Definition word (w : Z) : Prop := 0 <= w < 4294967296.

(** * Bits of a word *)

Lemma word_bit_high w k : word w -> 32 <= k -> Z.testbit w k = false.
Proof.
  intros Hw Hk. destruct (Z.eq_dec w 0) as [->|Hne]; [apply Z.testbit_0_l|].
  apply Z.bits_above_log2; [unfold word in *; lia|].
  apply Z.log2_lt_pow2; [unfold word in *; lia|].
  assert (2 ^ 32 <= 2 ^ k) by (apply Z.pow_le_mono_r; lia). unfold word in *. lia.
Qed.

Lemma u32_bit z k : 0 <= k < 32 -> Z.testbit (u32 z) k = Z.testbit z k.
Proof. intros Hk. unfold u32. change 4294967296 with (2 ^ 32). apply Z.mod_pow2_bits_low. lia. Qed.

Lemma u32_word z : word (u32 z).
Proof. apply u32_range. Qed.

Lemma word_of_bits z : (forall k, 32 <= k -> Z.testbit z k = false) -> word z.
Proof.
  intros H. assert (u32 z = z) as <-; [|apply u32_word].
  unfold u32. change 4294967296 with (2 ^ 32). rewrite <- Z.land_ones by lia.
  apply Z.bits_inj'. intros k Hk. rewrite -> Z.land_spec.
  destruct (Z.lt_ge_cases k 32).
  - rewrite -> Z.ones_spec_low by lia. by rewrite -> andb_true_r.
  - by rewrite -> H by done.
Qed.

Lemma lor_word x y : word x -> word y -> word (Z.lor x y).
Proof.
  intros Hx Hy. apply word_of_bits. intros k Hk.
  by rewrite -> Z.lor_spec, (word_bit_high x), (word_bit_high y).
Qed.

Lemma land_word_l x y : word x -> word (Z.land x y).
Proof.
  intros Hx. apply word_of_bits. intros k Hk. by rewrite -> Z.land_spec, (word_bit_high x).
Qed.

Lemma shift_bit k j : 0 <= k -> 0 <= j -> Z.testbit (Z.shiftl 1 k) j = (j =? k).
Proof. intros. rewrite -> Z.shiftl_1_l. rewrite -> Z.pow2_bits_eqb by lia. apply Z.eqb_sym. Qed.

Lemma shiftr_bit v k : 0 <= k -> truthy (Z.land (Z.shiftr v k) 1) = Z.testbit v k.
Proof.
  intros Hk. change 1 with (Z.ones 1). rewrite -> Z.land_ones by lia.
  change (2 ^ 1) with 2. rewrite <- Z.bit0_mod, Z.shiftr_spec by lia.
  rewrite -> Z.add_0_l. by destruct (Z.testbit v k).
Qed.

Lemma test_bit v k : 0 <= k < 32 -> word v ->
  truthy (Z.land v (u32 (Z.shiftl 1 k))) = Z.testbit v k.
Proof.
  intros Hk Hv. unfold truthy.
  destruct (Z.eqb_spec (Z.land v (u32 (Z.shiftl 1 k))) 0) as [He|Hne]; simpl.
  - destruct (Z.testbit v k) eqn:Hb; [|done].
    assert (Z.testbit (Z.land v (u32 (Z.shiftl 1 k))) k = true) as Hc.
    { rewrite -> Z.land_spec, u32_bit, shift_bit, Hb, Z.eqb_refl by lia. done. }
    rewrite -> He, Z.testbit_0_l in Hc. done.
  - destruct (Z.testbit v k) eqn:Hb; [done|]. exfalso. apply Hne. apply Z.bits_inj'. intros j Hj.
    rewrite -> Z.land_spec, Z.testbit_0_l.
    destruct (Z.lt_ge_cases j 32); [|by rewrite -> (word_bit_high v)].
    rewrite -> u32_bit, shift_bit by lia. destruct (Z.eqb_spec j k) as [->|]; [by rewrite -> Hb|].
    apply andb_false_r.
Qed.

(** [(1U << slop) - 1] *)
Lemma mask_bit s j : 0 <= s -> 0 <= j -> Z.testbit (Z.shiftl 1 s - 1) j = (j <? s).
Proof.
  intros Hs Hj. rewrite -> Z.shiftl_1_l. replace (2 ^ s - 1) with (Z.ones s) by (rewrite -> Z.ones_equiv; lia).
  destruct (Z.ltb_spec j s); [apply Z.ones_spec_low|apply Z.ones_spec_high]; lia.
Qed.

Lemma mask_nonneg s : 0 <= s -> 0 <= Z.shiftl 1 s - 1.
Proof. intros. rewrite -> Z.shiftl_1_l. pose proof (Z.pow_pos_nonneg 2 s). lia. Qed.

Lemma word_zero_iff w : word w -> w = 0 <-> (forall k, 0 <= k < 32 -> Z.testbit w k = false).
Proof.
  intros Hw. split; [intros ->; intros; apply Z.testbit_0_l|].
  intros H. apply Z.bits_inj'. intros k Hk. rewrite -> Z.testbit_0_l.
  destruct (Z.lt_ge_cases k 32); [apply H; lia|by apply word_bit_high].
Qed.

Lemma word_full_iff w : word w -> w = UINT_MAX <-> (forall k, 0 <= k < 32 -> Z.testbit w k = true).
Proof.
  intros Hw. change UINT_MAX with (Z.ones 32). split.
  - intros -> k Hk. apply Z.ones_spec_low. lia.
  - intros H. apply Z.bits_inj'. intros k Hk. destruct (Z.lt_ge_cases k 32).
    + rewrite -> Z.ones_spec_low by lia. apply H. lia.
    + rewrite -> Z.ones_spec_high by lia. by apply word_bit_high.
Qed.

(** * Listing the bits *)

(** The numbers in [lo, lo + n) that satisfy [p], ascending. *)
Fixpoint select (p : Z -> bool) (lo : Z) (n : nat) : list Z :=
  match n with
  | O => []
  | S n => if p lo then lo :: select p (lo + 1) n else select p (lo + 1) n
  end.

Lemma select_elem p lo n k : k ∈ select p lo n <-> lo <= k < lo + Z.of_nat n /\ p k = true.
Proof.
  revert lo. induction n as [|n IH]; intros lo; simpl.
  - split; [by intros ?%elem_of_nil|lia].
  - destruct (p lo) eqn:Hp; rewrite -> ?elem_of_cons, IH; (split; [|]); intros;
      repeat match goal with H : _ \/ _ |- _ => destruct H end; subst; destruct_and?;
      try (split; [lia|done]).
    + destruct (Z.eq_dec k lo); [by left|right; split; [lia|done]].
    + split; [|done]. destruct (Z.eq_dec k lo); [congruence|lia].
Qed.

Lemma select_ext p q lo n :
  (forall k, lo <= k < lo + Z.of_nat n -> p k = q k) -> select p lo n = select q lo n.
Proof.
  revert lo. induction n as [|n IH]; intros lo H; [done|]. simpl.
  rewrite -> (H lo) by lia. rewrite -> (IH (lo + 1)); [done|]. intros. apply H. lia.
Qed.

Lemma select_app p lo n m :
  select p lo (n + m) = select p lo n ++ select p (lo + Z.of_nat n) m.
Proof.
  revert lo. induction n as [|n IH]; intros lo; simpl; [by rewrite -> Z.add_0_r|].
  rewrite -> IH. replace (lo + 1 + Z.of_nat n) with (lo + Z.of_nat (S n)) by lia.
  by destruct (p lo).
Qed.

Lemma select_none p lo n :
  (forall k, lo <= k < lo + Z.of_nat n -> p k = false) -> select p lo n = [].
Proof.
  revert lo. induction n as [|n IH]; intros lo H; [done|]. simpl.
  rewrite -> (H lo) by lia. apply IH. intros. apply H. lia.
Qed.

Lemma select_nil_iff p lo n :
  select p lo n = [] <-> (forall k, lo <= k < lo + Z.of_nat n -> p k = false).
Proof.
  split; [|apply select_none]. intros He k Hk. destruct (p k) eqn:Hp; [|done].
  assert (k ∈ select p lo n) as Hin by by apply select_elem.
  rewrite -> He in Hin. by apply elem_of_nil in Hin.
Qed.

Lemma select_shift p lo n d : select p (lo + d) n = (fun k => k + d) <$> select (fun k => p (k + d)) lo n.
Proof.
  revert lo. induction n as [|n IH]; intros lo; [done|]. simpl.
  replace (lo + d + 1) with (lo + 1 + d) by lia. rewrite -> IH. by destruct (p (lo + d)).
Qed.

Lemma select_length_le p lo n : (length (select p lo n) <= n)%nat.
Proof. revert lo. induction n as [|n IH]; intros lo; simpl; [lia|]. specialize (IH (lo + 1)). destruct (p lo); simpl; lia. Qed.

Lemma select_all_iff p lo n :
  length (select p lo n) = n <-> (forall k, lo <= k < lo + Z.of_nat n -> p k = true).
Proof.
  revert lo. induction n as [|n IH]; intros lo; simpl; [split; [lia|done]|].
  pose proof (select_length_le p (lo + 1) n) as Hle.
  destruct (p lo) eqn:Hp; simpl; (split; [intros H k Hk|intros H]).
  - destruct (Z.eq_dec k lo) as [->|]; [done|]. apply (proj1 (IH (lo + 1))); lia.
  - f_equal. apply IH. intros. apply H. lia.
  - lia.
  - rewrite -> H in Hp by lia. done.
Qed.

(** The bits of a word. *)
Definition word_bits (w : Z) : list Z := select (Z.testbit w) 0 32.

Lemma popcount_loop_spec fuel acc x :
  0 <= acc -> acc + Z.of_nat fuel < 4294967296 -> 0 <= x < 2 ^ Z.of_nat fuel ->
  popcount_loop fuel acc x = acc + Z.of_nat (length (select (Z.testbit x) 0 fuel)).
Proof.
  revert acc x. induction fuel as [|fuel IH]; intros acc x Hacc Hlt Hx.
  { simpl. lia. }
  cbn [popcount_loop]. destruct (Z.eqb_spec x 0) as [->|Hne].
  { rewrite -> (select_none _ 0 (S fuel)); [simpl; lia|]. intros. apply Z.testbit_0_l. }
  cbn [select].
  assert (select (Z.testbit x) (0 + 1) fuel =
          (fun k => k + 1) <$> select (Z.testbit (Z.shiftr x 1)) 0 fuel) as ->.
  { rewrite -> select_shift. f_equal. apply select_ext. intros k Hk. by rewrite -> Z.shiftr_spec by lia. }
  assert (Z.land x 1 = b2z (Z.testbit x 0)) as ->.
  { change 1 with (Z.ones 1). rewrite -> Z.land_ones by lia. change (2 ^ 1) with 2.
    rewrite <- Z.bit0_mod. by destruct (Z.testbit x 0). }
  assert (u32 (acc + b2z (Z.testbit x 0)) = acc + b2z (Z.testbit x 0)) as ->.
  { apply u32_small. destruct (Z.testbit x 0); simpl; lia. }
  rewrite -> IH.
  - destruct (Z.testbit x 0); cbn [b2z]; cbn [length]; rewrite -> length_fmap; lia.
  - destruct (Z.testbit x 0); simpl; lia.
  - destruct (Z.testbit x 0); cbn [b2z]; lia.
  - rewrite -> Z.shiftr_div_pow2 by lia. change (2 ^ 1) with 2.
    rewrite -> Nat2Z.inj_succ, Z.pow_succ_r in Hx by lia.
    split; [apply Z.div_pos; lia|apply Z.div_lt_upper_bound; lia].
Qed.

Lemma ck_cc_popcount_spec w : word w -> ck_cc_popcount w = Z.of_nat (length (word_bits w)).
Proof. 
  intros Hw. unfold ck_cc_popcount, word_bits.
  assert (0 <= w < 2 ^ Z.of_nat 32) as Hr by (change (2 ^ Z.of_nat 32) with 4294967296; exact Hw).
  pose proof (popcount_loop_spec 32 0 w ltac:(lia) ltac:(lia) Hr) as H.
  rewrite -> Z.add_0_l in H. exact H.
 Qed.

(** The lowest bit. *)
Lemma ffs_loop_spec fuel i x :
  x <> 0 -> 0 <= x < 2 ^ Z.of_nat fuel ->
  exists k, ffs_loop fuel i x = i + k /\ 0 <= k < Z.of_nat fuel /\ Z.testbit x k = true /\
    (forall j, 0 <= j < k -> Z.testbit x j = false).
Proof.
  revert i x. induction fuel as [|fuel IH]; intros i x Hne Hx; [simpl in *; lia|].
  cbn [ffs_loop].
  assert (Z.land x 1 = b2z (Z.testbit x 0)) as ->.
  { change 1 with (Z.ones 1). rewrite -> Z.land_ones by lia. change (2 ^ 1) with 2.
    rewrite <- Z.bit0_mod. by destruct (Z.testbit x 0). }
  destruct (Z.testbit x 0) eqn:Hb; simpl.
  - exists 0. repeat split; try done; lia.
  - rewrite -> Nat2Z.inj_succ, Z.pow_succ_r in Hx by lia.
    assert (Z.shiftr x 1 <> 0) as Hs.
    { intros Hz. apply Hne. apply Z.bits_inj'. intros k Hk. rewrite -> Z.testbit_0_l.
      destruct (Z.eq_dec k 0) as [->|]; [done|].
      assert (Z.testbit (Z.shiftr x 1) (k - 1) = false) as Hz' by by rewrite -> Hz, Z.testbit_0_l.
      rewrite -> Z.shiftr_spec in Hz' by lia. by replace (k - 1 + 1) with k in Hz' by lia. }
    destruct (IH (i + 1) (Z.shiftr x 1)) as (k & -> & Hk & Hbit & Hlow); [done| |].
    { rewrite -> Z.shiftr_div_pow2 by lia. change (2 ^ 1) with 2.
      split; [apply Z.div_pos; lia|apply Z.div_lt_upper_bound; lia]. }
    exists (k + 1). repeat split; try lia.
    + by rewrite -> Z.shiftr_spec in Hbit by lia.
    + intros j Hj. destruct (Z.eq_dec j 0) as [->|]; [done|].
      specialize (Hlow (j - 1) ltac:(lia)). rewrite -> Z.shiftr_spec in Hlow by lia.
      by replace (j - 1 + 1) with j in Hlow by lia.
Qed.

(** [c & (c - 1)] clears the lowest bit, [ck_cc_ctz] is its number. *)
Lemma clear_lowest x k :
  0 <= k -> Z.testbit x k = true -> (forall j, 0 <= j < k -> Z.testbit x j = false) ->
  forall j, 0 <= j -> Z.testbit (Z.land x (x - 1)) j = Z.testbit x j && negb (j =? k).
Proof.
  intros Hk Hb Hlow j Hj.
  assert (x = 2 ^ k + Z.shiftl (Z.shiftr x (k + 1)) (k + 1)) as Hx.
  { rewrite -> Z.add_nocarry_lxor.
    - apply Z.bits_inj'. intros i Hi. rewrite -> Z.lxor_spec, Z.pow2_bits_eqb by lia.
      rewrite -> Z.shiftl_spec by lia. destruct (Z.lt_trichotomy i k) as [Hlt|[->|Hgt]].
      + rewrite -> Hlow, (proj2 (Z.eqb_neq k i)), Z.testbit_neg_r by lia. done.
      + rewrite -> Hb, Z.eqb_refl, Z.testbit_neg_r by lia. done.
      + rewrite -> Z.shiftr_spec, (proj2 (Z.eqb_neq k i)) by lia. simpl. f_equal. lia.
    - apply Z.bits_inj'. intros i Hi. rewrite -> Z.land_spec, Z.testbit_0_l, Z.pow2_bits_eqb by lia.
      destruct (Z.eqb_spec k i) as [->|]; [|done]. by rewrite -> Z.shiftl_spec_low by lia. }
  set (h := Z.shiftl (Z.shiftr x (k + 1)) (k + 1)) in *.
  assert (x - 1 = Z.lor h (Z.ones k)) as Hpred.
  { rewrite -> Z.ones_equiv.
    assert (Z.land h (Z.ones k) = 0) as Hd.
    { apply Z.bits_inj'. intros i Hi. rewrite -> Z.land_spec, Z.testbit_0_l.
      destruct (Z.lt_ge_cases i k).
      - unfold h. rewrite -> Z.shiftl_spec_low by lia. done.
      - rewrite -> Z.ones_spec_high by lia. apply andb_false_r. }
    rewrite -> Z.ones_equiv in Hd. rewrite <- Z.lxor_lor by done.
    rewrite <- Z.add_nocarry_lxor by done.
    clear -Hx. revert Hx. generalize (2 ^ k) h. intros. lia. }
  rewrite -> Z.land_spec, Hpred, Z.lor_spec. unfold h. rewrite -> Z.shiftl_spec by lia.
  destruct (Z.lt_trichotomy j k) as [Hlt|[->|Hgt]].
  - rewrite -> Hlow by lia. done.
  - rewrite -> (Z.testbit_neg_r _ (k - (k + 1))), Z.ones_spec_high, Z.eqb_refl by lia. done.
  - rewrite -> Z.shiftr_spec, Z.ones_spec_high, (proj2 (Z.eqb_neq j k)) by lia.
    replace (j - (k + 1) + (k + 1)) with j by lia. by destruct (Z.testbit x j).
Qed.

Lemma select_first p lo n k :
  lo <= k < lo + Z.of_nat n -> p k = true -> (forall j, lo <= j < k -> p j = false) ->
  select p lo n = k :: select (fun j => p j && negb (j =? k)) lo n.
Proof.
  revert lo. induction n as [|n IH]; intros lo Hk Hp Hlow; [lia|]. simpl.
  destruct (Z.eqb_spec lo k) as [->|Hne].
  - rewrite -> Hp. simpl. f_equal. apply select_ext. intros j Hj.
    rewrite -> (proj2 (Z.eqb_neq j k)) by lia. by rewrite -> andb_true_r.
  - rewrite -> (Hlow lo) by lia. simpl. apply IH; [lia|done|]. intros. apply Hlow. lia.
Qed.

(** One turn of the iterator inside a word. *)
Lemma word_bits_next c :
  word c -> c <> 0 ->
  0 <= ck_cc_ctz c < 32 /\ word (Z.land c (u32 (c - 1))) /\
  word_bits c = ck_cc_ctz c :: word_bits (Z.land c (u32 (c - 1))).
Proof.
  intros Hw Hne. unfold ck_cc_ctz. rewrite -> (proj2 (Z.eqb_neq c 0) Hne).
  assert (0 <= c < 2 ^ Z.of_nat 32) as Hr by (change (2 ^ Z.of_nat 32) with 4294967296; exact Hw).
  destruct (ffs_loop_spec 32 0 c Hne Hr) as (k & -> & Hk & Hb & Hlow).
  rewrite -> Z.add_0_l. split; [lia|]. split; [by apply land_word_l|].
  assert (u32 (c - 1) = c - 1) as -> by (apply u32_small; unfold word in Hw; lia).
  unfold word_bits. rewrite -> (select_first (Z.testbit c) 0 32 k); [|lia|done|done].
  f_equal. apply select_ext. intros j Hj. symmetry. apply clear_lowest; [lia|done|done|lia].
Qed.

Lemma word_bits_nil w : word w -> word_bits w = [] <-> w = 0.
Proof.
  intros Hw. unfold word_bits. rewrite -> select_nil_iff, word_zero_iff by done.
  split; intros H k Hk; apply H; lia.
Qed.

(** * Lists of words as sets *)

Definition mem_bit (S : gset Z) (k : Z) : bool := bool_decide (k ∈ S).

(** The word [w] holds the members of [S] in block [i]. *)
Definition describes (S : gset Z) (i : nat) (w : Z) : Prop :=
  word w /\ forall j, 0 <= j < 32 -> Z.testbit w j = mem_bit S (32 * Z.of_nat i + j).

(** The words [ws] of a bitmap of [n] bits hold the set [S]. *)
Definition reps (n : Z) (ws : list Z) (S : gset Z) : Prop :=
  0 <= n < 4294967296 /\ Z.of_nat (length ws) = CK_BITMAP_BLOCKS n /\
  (forall i w, ws !! i = Some w -> describes S i w) /\
  (forall k, k ∈ S -> 0 <= k < n).

Lemma blocks_bounds n : 0 <= n -> n <= 32 * CK_BITMAP_BLOCKS n < n + 32.
Proof. intros. unfold CK_BITMAP_BLOCKS, CK_BITMAP_BLOCK. Z.to_euclidean_division_equations. lia. Qed.

Lemma blocks_mono n m : n <= m -> CK_BITMAP_BLOCKS n <= CK_BITMAP_BLOCKS m.
Proof. intros. unfold CK_BITMAP_BLOCKS, CK_BITMAP_BLOCK. apply Z.div_le_mono; lia. Qed.

Lemma base_blocks n : 0 <= n < 4294967296 -> ck_bitmap_base n / 4 = CK_BITMAP_BLOCKS n.
Proof.
  intros Hn. pose proof (blocks_bounds n ltac:(lia)). unfold ck_bitmap_base.
  rewrite -> u32_small by lia. apply Z.div_mul. lia.
Qed.

Lemma reps_describes n ws S i w : reps n ws S -> ws !! i = Some w -> describes S i w.
Proof. intros (_ & _ & H & _) Hi. by apply (H i). Qed.

Lemma reps_word n ws S i w : reps n ws S -> ws !! i = Some w -> word w.
Proof. intros HR Hi. apply (reps_describes n ws S i w HR Hi). Qed.

Lemma reps_bit n ws S i w j :
  reps n ws S -> ws !! i = Some w -> 0 <= j < 32 ->
  Z.testbit w j = mem_bit S (32 * Z.of_nat i + j).
Proof. intros HR Hi. apply (reps_describes n ws S i w HR Hi). Qed.

Lemma reps_lookup n ws S k :
  reps n ws S -> 0 <= k < 32 * CK_BITMAP_BLOCKS n -> exists w, ws !! Z.to_nat (k / 32) = Some w.
Proof.
  intros (_ & Hlen & _) Hk. apply lookup_lt_is_Some. apply Nat2Z.inj_lt. rewrite -> Hlen.
  rewrite -> Z2Nat.id by (apply Z.div_pos; lia). apply Z.div_lt_upper_bound; lia.
Qed.

(** The members in the first [s] positions of a block. *)
Lemma select_slop S i w s :
  describes S i w -> (s <= 32)%nat ->
  select (mem_bit S) (32 * Z.of_nat i) s =
    (fun k => k + 32 * Z.of_nat i) <$> word_bits (Z.land w (Z.shiftl 1 (Z.of_nat s) - 1)).
Proof.
  intros [_ Hb] Hs. unfold word_bits.
  rewrite <- (Z.add_0_l (32 * Z.of_nat i)) at 1. rewrite -> select_shift. f_equal.
  replace 32%nat with (s + (32 - s))%nat by lia. rewrite -> select_app.
  rewrite -> (select_none _ (0 + Z.of_nat s)), app_nil_r.
  - apply select_ext. intros k Hk. rewrite -> Z.land_spec, mask_bit by lia.
    rewrite -> (proj2 (Z.ltb_lt k (Z.of_nat s))), andb_true_r by lia.
    rewrite -> Hb by lia. f_equal. lia.
  - intros k Hk. rewrite -> Z.land_spec, mask_bit by lia.
    rewrite -> (proj2 (Z.ltb_ge k (Z.of_nat s))) by lia. apply andb_false_r.
Qed.

Lemma select_word S i w :
  describes S i w ->
  select (mem_bit S) (32 * Z.of_nat i) 32 = (fun k => k + 32 * Z.of_nat i) <$> word_bits w.
Proof.
  intros Hd. rewrite -> (select_slop S i w 32 Hd) by lia. f_equal. f_equal.
  apply Z.bits_inj'. intros k Hk. rewrite -> Z.land_spec, mask_bit by lia.
  change (Z.of_nat 32) with 32. destruct (Z.ltb_spec k 32); [apply andb_true_r|].
  rewrite -> (word_bit_high w) by (apply Hd || lia). done.
Qed.

(** The members below [limit]: a whole number of words and a slop. *)
Lemma select_split S limit :
  0 <= limit ->
  select (mem_bit S) 0 (Z.to_nat limit) =
    select (mem_bit S) 0 (32 * Z.to_nat (limit / 32)) ++
    select (mem_bit S) (32 * (limit / 32)) (Z.to_nat (limit mod 32)).
Proof.
  intros Hl. pose proof (Z.div_mod limit 32 ltac:(lia)). pose proof (Z.mod_pos_bound limit 32 ltac:(lia)).
  replace (Z.to_nat limit) with (32 * Z.to_nat (limit / 32) + Z.to_nat (limit mod 32))%nat.
  - rewrite -> select_app. f_equal. f_equal. lia.
  - apply Nat2Z.inj. rewrite -> Nat2Z.inj_add, Nat2Z.inj_mul, !Z2Nat.id; [lia|lia|lia|].
    all: try (apply Z.div_pos; lia); lia.
Qed.
