(* ===== verification/BitmapSpec.v ===== *)
(** Total correctness of the operations of [Bitmap] against finite sets of bit
    numbers, in the program logic. *)

From S2P Require Export Ghost BitmapWords.
Set Warnings "-rewrite-rw".

(** * Prefixes transformed by the loops *)

(** What a loop that combines [ws] with [us] word by word has made after [i]
    turns. *)
Definition combined (f : Z -> Z -> Z) (ws us : list Z) (i : nat) : list Z :=
  zip_with f (take i ws) (take i us) ++ drop i ws.

Definition filled (x : Z) (ws : list Z) (lo i : nat) : list Z :=
  take lo ws ++ replicate (i - lo) x ++ drop i ws.

Lemma combined_length f ws us i :
  (i <= length ws)%nat -> (i <= length us)%nat -> length (combined f ws us i) = length ws.
Proof. intros. rewrite /combined length_app length_zip_with !length_take length_drop. lia. Qed.

Lemma combined_lookup f ws us i j w u :
  (i <= length ws)%nat -> (i <= length us)%nat -> ws !! j = Some w -> us !! j = Some u ->
  combined f ws us i !! j = Some (if decide (j < i)%nat then f w u else w).
Proof.
  intros Hw Hu Hj Hj'. rewrite /combined.
  assert (length (zip_with f (take i ws) (take i us)) = i) as Hl.
  { rewrite length_zip_with !length_take. lia. }
  destruct (decide (j < i)%nat).
  - rewrite lookup_app_l; [|rewrite Hl; lia]. rewrite lookup_zip_with !lookup_take_lt //.
    by rewrite Hj Hj'.
  - rewrite lookup_app_r; [|rewrite Hl; lia]. rewrite Hl lookup_drop.
    by replace (i + (j - i))%nat with j by lia.
Qed.

Lemma combined_lookup_high f ws us i j :
  (i <= length ws)%nat -> (i <= length us)%nat -> (i <= j)%nat -> combined f ws us i !! j = ws !! j.
Proof.
  intros Hw Hu Hj. rewrite /combined.
  assert (length (zip_with f (take i ws) (take i us)) = i) as Hl.
  { rewrite length_zip_with !length_take. lia. }
  rewrite lookup_app_r; [|rewrite Hl; lia]. rewrite Hl lookup_drop. f_equal. lia.
Qed.

Lemma combined_step f ws us i w u :
  ws !! i = Some w -> us !! i = Some u ->
  combined f ws us i !! i = Some w /\
  <[i := f w u]> (combined f ws us i) = combined f ws us (S i).
Proof.
  intros Hw Hu. pose proof (lookup_lt_Some _ _ _ Hw). pose proof (lookup_lt_Some _ _ _ Hu).
  rewrite combined_lookup_high; [|lia|lia|lia]. split; [done|].
  assert (length (zip_with f (take i ws) (take i us)) = i) as Hl.
  { rewrite length_zip_with !length_take. lia. }
  rewrite /combined insert_app_r_alt; [|lia]. rewrite Hl Nat.sub_diag.
  rewrite (drop_S ws w i Hw) /= (take_S_r ws i w Hw) (take_S_r us i u Hu).
  rewrite zip_with_app; [|rewrite !length_take; lia]. by rewrite -app_assoc.
Qed.

Lemma filled_step x ws lo i w :
  (lo <= i)%nat -> ws !! i = Some w ->
  filled x ws lo i !! i = Some w /\ <[i := x]> (filled x ws lo i) = filled x ws lo (S i).
Proof.
  intros Hlo Hw. pose proof (lookup_lt_Some _ _ _ Hw).
  assert (length (take lo ws ++ replicate (i - lo) x) = i) as Hl.
  { rewrite length_app length_take length_replicate. lia. }
  rewrite /filled !app_assoc. split.
  - rewrite lookup_app_r; [|lia]. rewrite Hl lookup_drop. by replace (i + (i - i))%nat with i by lia.
  - rewrite insert_app_r_alt; [|lia]. rewrite Hl Nat.sub_diag (drop_S ws w i Hw) /=.
    replace (S i - lo)%nat with (i - lo + 1)%nat by lia.
    by rewrite replicate_add /= -!app_assoc.
Qed.

Lemma filled_lookup x ws lo hi j w :
  (lo <= hi)%nat -> (hi <= length ws)%nat -> ws !! j = Some w ->
  filled x ws lo hi !! j = Some (if decide (lo <= j < hi)%nat then x else w).
Proof.
  intros Hlo Hhi Hj. rewrite /filled. destruct (decide (lo <= j < hi)%nat).
  - rewrite lookup_app_r ?length_take; [|lia].
    rewrite lookup_app_l ?length_replicate; [|lia]. apply lookup_replicate_2. lia.
  - destruct (decide (j < lo)%nat).
    + rewrite lookup_app_l ?length_take; [|lia]. rewrite lookup_take_lt //.
    + rewrite lookup_app_r ?length_take; [|lia].
      rewrite lookup_app_r ?length_replicate; [|lia].
      rewrite lookup_drop -Hj. f_equal. lia.
Qed.

Lemma filled_length x ws lo hi :
  (lo <= hi)%nat -> (hi <= length ws)%nat -> length (filled x ws lo hi) = length ws.
Proof.
  intros. rewrite /filled !length_app length_take length_replicate length_drop. lia.
Qed.

Section loops.
Context `{!ckGS_gen hlc Σ}.

(** [for (n = 0; n < hi; n++) op(&dst[n], src[n])] *)
Lemma twp_combine (f : Z -> Z -> Z) (a a' hi : Z) ws us (Φ : unit -> iProp Σ) dq :
  0 <= hi -> hi <= Z.of_nat (length ws) -> hi <= Z.of_nat (length us) ->
  array a (DfracOwn 1) ws -∗ array a' dq us -∗
  (array a (DfracOwn 1) (combined f ws us (Z.to_nat hi)) -∗ array a' dq us -∗ Φ tt) -∗
  WP for_ 0 hi (fun n => v <- ck_pr_load (a' + n) ;;
                         Act (ORmw (a + n) (fun w => f w v)) (fun _ => tt)) [{ Φ }].
Proof.
  iIntros (H0 Hw Hu) "Ha Ha' HΦ".
  iApply (twp_for (λ i, array a (DfracOwn 1) (combined f ws us (Z.to_nat i)) ∗ array a' dq us)%I
            with "[Ha Ha'] [] [HΦ]").
  - iSplitL "Ha"; [iExact "Ha"|iExact "Ha'"].
  - iIntros "!>" (i Hi) "[Ha Ha']".
    destruct (lookup_lt_is_Some_2 ws (Z.to_nat i)) as [w Hwi]; [lia|].
    destruct (lookup_lt_is_Some_2 us (Z.to_nat i)) as [u Hui]; [lia|].
    destruct (combined_step f ws us _ w u Hwi Hui) as [Hc Hs].
    iDestruct (array_read with "Ha'") as "[Hu Ha']"; [exact Hui|].
    iDestruct (array_acc with "Ha") as "[Hw Ha]"; [exact Hc|].
    rewrite Z2Nat.id; [|lia]. wp_load "Hu". wp_rmw "Hw".
    iSplitL "Hw Ha".
    + iSpecialize ("Ha" with "Hw"). rewrite Hs.
      by replace (Z.to_nat (i + 1)) with (S (Z.to_nat i)) by lia.
    + by iApply "Ha'".
  - rewrite Z.max_r //. iIntros "[Ha Ha']". iApply ("HΦ" with "Ha Ha'").
Qed.

(** [for (i = lo; i < hi; i++) a[i] = x] *)
Lemma twp_fill (x a lo hi : Z) ws (Φ : unit -> iProp Σ) :
  0 <= lo <= hi -> hi <= Z.of_nat (length ws) ->
  array a (DfracOwn 1) ws -∗
  (array a (DfracOwn 1) (filled x ws (Z.to_nat lo) (Z.to_nat hi)) -∗ Φ tt) -∗
  WP for_ lo hi (fun n => ck_pr_store (a + n) x) [{ Φ }].
Proof.
  iIntros (H0 Hw) "Ha HΦ".
  iApply (twp_for (λ i, array a (DfracOwn 1) (filled x ws (Z.to_nat lo) (Z.to_nat i)))%I
            with "[Ha] [] [HΦ]").
  - rewrite /filled Nat.sub_diag /= take_drop. done.
  - iIntros "!>" (i Hi) "Ha".
    destruct (lookup_lt_is_Some_2 ws (Z.to_nat i)) as [w Hwi]; [lia|].
    destruct (filled_step x ws (Z.to_nat lo) (Z.to_nat i) w) as [Hc Hs]; [lia|done|].
    iDestruct (array_acc with "Ha") as "[Hw Ha]"; [exact Hc|].
    rewrite Z2Nat.id; [|lia]. wp_store "Hw".
    iSpecialize ("Ha" with "Hw"). rewrite Hs.
    by replace (Z.to_nat (i + 1)) with (S (Z.to_nat i)) by lia.
  - rewrite Z.max_r; [|lia]. iIntros "Ha". by iApply "HΦ".
Qed.
End loops.

(** * The bitmap assertion *)

(** The bits below a limit, ascending. *)
Definition below (S : gset Z) (limit : Z) : list Z := select (mem_bit S) 0 (Z.to_nat limit).

Section spec.
Context `{!ckGS_gen hlc Σ}.

Definition is_bitmap (b n : Z) (S : gset Z) : iProp Σ :=
  ∃ ws, ⌜reps n ws S⌝ ∗ n_bits b ↦ n ∗ array (map b) (DfracOwn 1) ws.

(** The word of bit [k], to be put back with any contents that describe the new
    set in that word. *)
Lemma bitmap_word b n S k :
  0 <= k < n ->
  is_bitmap b n S -∗
  ∃ w, ⌜word w /\ ∀ j, 0 <= j < 32 -> Z.testbit w j = mem_bit S (32 * (k / 32) + j)⌝ ∗
    CK_BITMAP_PTR (map b) k ↦ w ∗
    (∀ w' S', ⌜word w'⌝ -∗
       ⌜∀ j, 0 <= j < 32 -> Z.testbit w' j = mem_bit S' (32 * (k / 32) + j)⌝ -∗
       ⌜∀ x, x / 32 <> k / 32 -> mem_bit S' x = mem_bit S x⌝ -∗
       ⌜∀ x, x ∈ S' -> 0 <= x < n⌝ -∗
       CK_BITMAP_PTR (map b) k ↦ w' -∗ is_bitmap b n S').
Proof.
  iIntros (Hk) "(%ws & %HR & Hn & Ha)".
  pose proof (blocks_bounds n ltac:(lia)). pose proof (Z.div_pos k 32 ltac:(lia) ltac:(lia)) as Hq.
  destruct (reps_lookup n ws S k HR ltac:(lia)) as [w Hw].
  destruct HR as (Hn & Hlen & Hws & HS). destruct (Hws _ _ Hw) as [Hword Hbits].
  rewrite Z2Nat.id // in Hbits.
  iDestruct (array_acc with "Ha") as "[Hw Ha]"; [exact Hw|]. rewrite Z2Nat.id //.
  iExists w. iSplit; [done|]. iFrame "Hw". iIntros (w' S' Hw' Hb' Hout HS') "Hw".
  iSpecialize ("Ha" with "Hw"). iExists _. iFrame. iPureIntro.
  split; [done|]. split; [by rewrite length_insert|]. split; [|done].
  intros i v Hi. destruct (decide (i = Z.to_nat (k / 32))) as [->|Hne].
  - rewrite list_lookup_insert_eq in Hi; [|by eapply lookup_lt_Some]. simplify_eq.
    split; [done|]. intros j Hj. rewrite Z2Nat.id //. by apply Hb'.
  - rewrite list_lookup_insert_ne // in Hi. destruct (Hws i v Hi) as [Hv Hvb].
    split; [done|]. intros j Hj. rewrite (Hvb j Hj). symmetry. apply Hout.
    intros Heq. apply Hne. apply Nat2Z.inj. rewrite Z2Nat.id // -Heq.
    symmetry. rewrite Z.mul_comm Z.div_add_l; [|lia]. rewrite (Z.div_small j); lia.
Qed.

Lemma block_split k : 0 <= k -> 0 <= k mod 32 < 32 /\ 32 * (k / 32) + k mod 32 = k.
Proof.
  intros Hk. pose proof (Z.mod_pos_bound k 32). pose proof (Z.div_mod k 32). lia.
Qed.

Lemma block_eq k j : 0 <= k -> 0 <= j < 32 -> 32 * (k / 32) + j = k <-> j = k mod 32.
Proof. intros Hk Hj. destruct (block_split k Hk). lia. Qed.

Lemma mem_bit_spec (S : gset Z) k : mem_bit S k = true <-> k ∈ S.
Proof. apply bool_decide_eq_true. Qed.

Lemma mem_bit_ext (S S' : gset Z) k k' : (k ∈ S <-> k' ∈ S') -> mem_bit S k = mem_bit S' k'.
Proof. intros H. by apply bool_decide_ext. Qed.

(** Adding and removing one bit, whatever part of the old word is returned. *)
Lemma bitmap_rmw {A} b n S S' k f (g : Z * Z -> A) (Φ : A -> iProp Σ) :
  0 <= k < n -> (∀ x, x ∈ S' -> 0 <= x < n) ->
  (∀ x, x <> k -> mem_bit S' x = mem_bit S x) ->
  (∀ w, word w -> word (f w) /\
     ∀ j, 0 <= j < 32 -> Z.testbit (f w) j = if j =? k mod 32 then mem_bit S' k else Z.testbit w j) ->
  is_bitmap b n S -∗
  (∀ w, ⌜word w /\ Z.testbit w (k mod 32) = mem_bit S k⌝ -∗ is_bitmap b n S' -∗ Φ (g (w, 0))) -∗
  WP Act (ORmw (CK_BITMAP_PTR (map b) k) f) g [{ Φ }].
Proof.
  iIntros (Hk HS' Hout Hf) "Hb HΦ".
  iDestruct (bitmap_word with "Hb") as (w) "([%Hw %Hbits] & Hw & Hb)"; [done|].
  wp_rmw "Hw". destruct (Hf w Hw) as [Hfw Hfb]. destruct (block_split k) as [Hm Hkm]; [lia|].
  iApply ("HΦ" with "[%]").
  { split; [done|]. by rewrite Hbits // Hkm. }
  iApply ("Hb" with "[//] [%] [%] [//] Hw").
  - intros j Hj. rewrite Hfb // Hbits //. destruct (Z.eqb_spec j (k mod 32)) as [->|Hne].
    + by rewrite Hkm.
    + symmetry. apply Hout. intros Heq. apply Hne. apply block_eq; [lia|done|done].
  - intros x Hx. apply Hout. intros ->. done.
Qed.

Lemma twp_bitmap_set b n S k (Φ : unit -> iProp Σ) :
  0 <= k < n -> (∀ x, x ∈ S -> 0 <= x < n) ->
  is_bitmap b n S -∗ (is_bitmap b n ({[k]} ∪ S) -∗ Φ tt) -∗ WP ck_bitmap_set b k [{ Φ }].
Proof.
  iIntros (Hk HS) "Hb HΦ". iApply (bitmap_rmw _ _ _ ({[k]} ∪ S) with "Hb").
  - done.
  - set_solver.
  - intros x Hx. apply mem_bit_ext. set_solver.
  - intros w Hw. rewrite /CK_BITMAP_BIT /CK_BITMAP_OFFSET /CK_BITMAP_BLOCK.
    split; [by apply lor_word, u32_word|]. intros j Hj.
    rewrite Z.lor_spec u32_bit // shift_bit; [|apply Z.mod_pos_bound; lia|lia].
    destruct (Z.eqb_spec j (k mod 32)); [|by rewrite orb_false_r].
    rewrite orb_true_r. symmetry. apply mem_bit_spec. set_solver.
  - iIntros (w _). done.
Qed.

Lemma twp_bitmap_bts b n S k (Φ : bool -> iProp Σ) :
  0 <= k < n -> (∀ x, x ∈ S -> 0 <= x < n) ->
  is_bitmap b n S -∗ (is_bitmap b n ({[k]} ∪ S) -∗ Φ (mem_bit S k)) -∗ WP ck_bitmap_bts b k [{ Φ }].
Proof.
  iIntros (Hk HS) "Hb HΦ". iApply (bitmap_rmw _ _ _ ({[k]} ∪ S) with "Hb").
  - done.
  - set_solver.
  - intros x Hx. apply mem_bit_ext. set_solver.
  - intros w Hw. rewrite /CK_BITMAP_OFFSET /CK_BITMAP_BLOCK /=.
    split; [apply u32_word|]. intros j Hj.
    rewrite u32_bit // Z.lor_spec u32_bit // shift_bit; [|apply Z.mod_pos_bound; lia|lia].
    destruct (Z.eqb_spec j (k mod 32)); [|by rewrite orb_false_r].
    rewrite orb_true_r. symmetry. apply mem_bit_spec. set_solver.
  - iIntros (w) "[%Hw %Hb] H". rewrite /= shiftr_bit; [|by apply Z.mod_pos_bound].
    rewrite /CK_BITMAP_OFFSET Hb. by iApply "HΦ".
Qed.

Lemma twp_bitmap_reset b n S k (Φ : unit -> iProp Σ) :
  0 <= k < n -> (∀ x, x ∈ S -> 0 <= x < n) ->
  is_bitmap b n S -∗ (is_bitmap b n (S ∖ {[k]}) -∗ Φ tt) -∗ WP ck_bitmap_reset b k [{ Φ }].
Proof.
  iIntros (Hk HS) "Hb HΦ". iApply (bitmap_rmw _ _ _ (S ∖ {[k]}) with "Hb").
  - done.
  - set_solver.
  - intros x Hx. apply mem_bit_ext. set_solver.
  - intros w Hw. rewrite /CK_BITMAP_BIT /CK_BITMAP_OFFSET /CK_BITMAP_BLOCK.
    split; [by apply land_word_l|]. intros j Hj.
    rewrite Z.land_spec u32_bit // Z.lnot_spec; [|lia]. rewrite u32_bit // shift_bit;
      [|apply Z.mod_pos_bound; lia|lia].
    destruct (Z.eqb_spec j (k mod 32)); [|by rewrite andb_true_r].
    rewrite andb_false_r. symmetry. apply bool_decide_eq_false. set_solver.
  - iIntros (w _). done.
Qed.

Lemma twp_bitmap_test b n S k (Φ : bool -> iProp Σ) :
  0 <= k < n ->
  is_bitmap b n S -∗ (is_bitmap b n S -∗ Φ (mem_bit S k)) -∗ WP ck_bitmap_test b k [{ Φ }].
Proof.
  iIntros (Hk) "Hb HΦ". rewrite /ck_bitmap_test.
  iAssert ⌜∀ x, x ∈ S -> 0 <= x < n⌝%I as %HS.
  { iDestruct "Hb" as (ws HR) "_". by destruct HR as (_ & _ & _ & HS). }
  iDestruct (bitmap_word with "Hb") as (w) "([%Hw %Hbits] & Hw & Hb)"; [done|].
  destruct (block_split k) as [Hm Hkm]; [lia|]. wp_load "Hw". wp_pures.
  rewrite test_bit //. rewrite /CK_BITMAP_OFFSET Hbits // Hkm. iApply "HΦ".
  iApply ("Hb" with "[//] [//] [//] [//] Hw").
Qed.
End spec.

(** Total correctness of the whole-bitmap operations of [Bitmap]: the set
    operations, the tests and counts up to a limit, initialisation, iteration. *)

(** * Sets described word by word *)

Lemma reps_intro n ws (S : gset Z) :
  0 <= n < 4294967296 -> Z.of_nat (length ws) = CK_BITMAP_BLOCKS n ->
  (∀ i w, ws !! i = Some w -> describes S i w) ->
  (∀ k, k ∈ S -> 0 <= k < n) -> reps n ws S.
Proof. done. Qed.

Lemma reps_nonneg n ws S : reps n ws S -> 0 <= n.
Proof. by intros [[? _] _]. Qed.

Lemma reps_length n ws S : reps n ws S -> Z.of_nat (length ws) = CK_BITMAP_BLOCKS n.
Proof. by intros (_ & ? & _). Qed.

Lemma reps_members n ws S : reps n ws S -> ∀ k, k ∈ S -> 0 <= k < n.
Proof. by intros (_ & _ & _ & HS). Qed.

Lemma reps_beyond n ws S k : reps n ws S -> n <= k -> mem_bit S k = false.
Proof.
  intros HR Hk. apply bool_decide_eq_false. intros HS.
  pose proof (reps_members n ws S HR k HS). lia.
Qed.

Lemma mem_bit_union (S T : gset Z) k : mem_bit (S ∪ T) k = mem_bit S k || mem_bit T k.
Proof. rewrite /mem_bit -bool_decide_or. apply bool_decide_ext, elem_of_union. Qed.

Lemma mem_bit_intersection (S T : gset Z) k : mem_bit (S ∩ T) k = mem_bit S k && mem_bit T k.
Proof. rewrite /mem_bit -bool_decide_and. apply bool_decide_ext, elem_of_intersection. Qed.

Lemma mem_bit_difference (S T : gset Z) k : mem_bit (S ∖ T) k = mem_bit S k && negb (mem_bit T k).
Proof. rewrite /mem_bit -bool_decide_not -bool_decide_and. apply bool_decide_ext, elem_of_difference. Qed.

(** The words two bitmaps share. *)
Definition shared (n m : Z) : Z := CK_BITMAP_BLOCKS (if m <? n then m else n).

Lemma shared_bounds n m :
  0 <= n -> 0 <= m ->
  0 <= shared n m /\ shared n m <= CK_BITMAP_BLOCKS n /\ shared n m <= CK_BITMAP_BLOCKS m /\
  Z.min n m <= 32 * shared n m.
Proof.
  intros. rewrite /shared. pose proof (blocks_bounds n). pose proof (blocks_bounds m).
  destruct (Z.ltb_spec m n).
  - pose proof (blocks_mono m n). lia.
  - pose proof (blocks_mono n m). lia.
Qed.

(** A bit in no shared word is in none or beyond the shorter bitmap. *)
Lemma unshared n m S T ws us k :
  reps n ws S -> reps m us T -> 32 * shared n m <= k ->
  mem_bit S k = false \/ mem_bit T k = false.
Proof.
  intros HS HT Hk. pose proof (reps_nonneg _ _ _ HS). pose proof (reps_nonneg _ _ _ HT).
  destruct (shared_bounds n m) as (_ & _ & _ & H3); [done|done|].
  destruct (Z.le_gt_cases n k); [left; by eapply (reps_beyond n ws)|].
  right. eapply (reps_beyond m us); [done|lia].
Qed.

Section combine.
Context (n m : Z) (ws us : list Z) (S T : gset Z) (HS : reps n ws S) (HT : reps m us T).
Let i := Z.to_nat (shared n m).

Lemma shared_le : (i <= length ws)%nat /\ (i <= length us)%nat.
Proof using HS HT.
  destruct HS as (? & Hw & _). destruct HT as (? & Hu & _).
  destruct (shared_bounds n m) as (? & ? & ? & _); [lia|lia|]. lia.
Qed.

(** Combining the shared words bit by bit with [f] gives the set [R], when [R]
    does so on shared bits and is [S] elsewhere. *)
Lemma reps_combined (f : Z -> Z -> Z) (R : gset Z) :
  (∀ w u, word w -> word u -> word (f w u)) ->
  (∀ w u k j, word w -> word u -> 0 <= k < 32 * shared n m -> 0 <= j < 32 -> Z.testbit w j = mem_bit S k ->
     Z.testbit u j = mem_bit T k -> Z.testbit (f w u) j = mem_bit R k) ->
  (∀ k, 32 * shared n m <= k -> mem_bit R k = mem_bit S k) ->
  (∀ k, k ∈ R -> 0 <= k < n) ->
  reps n (combined f ws us i) R.
Proof using HS HT.
  intros Hword Hbit Hhigh Hin. destruct shared_le as [Hiw Hiu].
  apply reps_intro; [apply HS| |  |done].
  { rewrite combined_length //. apply HS. }
  intros j v Hv. destruct (decide (j < i)%nat) as [Hlt|Hge].
  - destruct (lookup_lt_is_Some_2 ws j) as [w Hw]; [lia|].
    destruct (lookup_lt_is_Some_2 us j) as [u Hu]; [lia|].
    rewrite (combined_lookup f ws us i j w u) // decide_True // in Hv. simplify_eq.
    pose proof (reps_word _ _ _ _ _ HS Hw). pose proof (reps_word _ _ _ _ _ HT Hu).
    split; [by apply Hword|]. intros x Hx. eapply Hbit; try done; [lia|..].
    + by apply (reps_bit n ws S j w x HS Hw).
    + by apply (reps_bit m us T j u x HT Hu).
  - rewrite combined_lookup_high // in Hv; [|lia].
    split; [exact (reps_word _ _ _ _ _ HS Hv)|]. intros x Hx.
    rewrite (reps_bit n ws S j v x HS Hv Hx).
    symmetry. apply Hhigh. lia.
Qed.
End combine.

Lemma reps_filled n ws S R lo hi :
  reps n ws S -> (lo <= hi)%nat -> hi = length ws ->
  (∀ k, 0 <= k < 32 * Z.of_nat lo -> mem_bit R k = mem_bit S k) ->
  (∀ k, 32 * Z.of_nat lo <= k -> mem_bit R k = false) ->
  (∀ k, k ∈ R -> 0 <= k < n) -> reps n (filled 0 ws lo hi) R.
Proof.
  intros HS Hlo -> Heq Hz Hin. apply reps_intro; [apply HS| | |done].
  { rewrite filled_length //. apply HS. }
  intros j v Hv.
  assert (j < length ws)%nat as Hj by (apply lookup_lt_Some in Hv; by rewrite filled_length in Hv).
  destruct (lookup_lt_is_Some_2 ws j Hj) as [w Hw].
  rewrite (filled_lookup 0 ws lo (length ws) j w) // in Hv. simplify_eq.
  destruct (decide (lo <= j < length ws)%nat).
  - split; [done|]. intros x Hx. rewrite Z.testbit_0_l. symmetry. apply Hz. lia.
  - split; [exact (reps_word _ _ _ _ _ HS Hw)|]. intros x Hx.
    rewrite (reps_bit n ws S j w x HS Hw Hx).
    symmetry. apply Heq. lia.
Qed.

(** * The operations *)

Section spec.
Context `{!ckGS_gen hlc Σ}.

(** A bitmap that is only read; what the operations take from [src]. *)
Ltac open_bitmap H ws HR Hn Ha :=
  iDestruct H as (ws) "(%HR & Hn & Ha)"; iRename "Hn" into Hn; iRename "Ha" into Ha.

Lemma wp_smaller n m (k : Z -> prog unit) src Ψ :
  n_bits src ↦ m -∗
  (n_bits src ↦ m -∗ WP k (if m <? n then m else n) [{ Ψ }]) -∗
  WP Bind (if m <? n then ld (n_bits src) else Ret n) k [{ Ψ }].
Proof.
  iIntros "Hm HΨ". destruct (m <? n).
  - wp_load "Hm". by iApply "HΨ".
  - wp_pures. by iApply "HΨ".
Qed.

Lemma twp_bitmap_union dst src n m S T (Φ : unit -> iProp Σ) :
  m <= n ->
  is_bitmap dst n S -∗ is_bitmap src m T -∗
  (is_bitmap dst n (S ∪ T) -∗ is_bitmap src m T -∗ Φ tt) -∗ WP ck_bitmap_union dst src [{ Φ }].
Proof.
  iIntros (Hmn) "(%ws & %HS & Hn & Ha) (%us & %HT & Hm & Ha') HΦ". rewrite /ck_bitmap_union.
  wp_load "Hn". wp_load "Hm". wp_load "Hn". iApply (wp_smaller with "Hm"). iIntros "Hm".
  change (CK_BITMAP_BLOCKS (if m <? n then m else n)) with (shared n m).
  destruct (shared_bounds n m) as (H0 & H1 & H2 & H3); [by eapply reps_nonneg|by eapply reps_nonneg|].
  pose proof (reps_length _ _ _ HS) as Hlw.
  pose proof (reps_length _ _ _ HT) as Hlu.
  iApply (twp_combine Z.lor with "Ha Ha'"); [lia|lia|lia|]. iIntros "Ha Ha'".
  iApply ("HΦ" with "[Hn Ha] [Hm Ha']"); [|iExists us; by iFrame].
  iExists _. iFrame. iPureIntro. apply (reps_combined n m ws us S T HS HT).
  - apply lor_word.
  - intros w u k j _ _ _ _ Hw Hu. by rewrite Z.lor_spec Hw Hu mem_bit_union.
  - intros k Hk. rewrite mem_bit_union. rewrite (reps_beyond m us T k HT); [|lia].
    apply orb_false_r.
  - intros k [Hk|Hk]%elem_of_union; [by eapply reps_members|].
    pose proof (reps_members _ _ _ HT k Hk). lia.
Qed.

Lemma twp_bitmap_negate dst src n m S T (Φ : unit -> iProp Σ) :
  is_bitmap dst n S -∗ is_bitmap src m T -∗
  (is_bitmap dst n (S ∖ T) -∗ is_bitmap src m T -∗ Φ tt) -∗
  WP ck_bitmap_intersection_negate dst src [{ Φ }].
Proof.
  iIntros "(%ws & %HS & Hn & Ha) (%us & %HT & Hm & Ha') HΦ".
  rewrite /ck_bitmap_intersection_negate.
  wp_load "Hn". wp_load "Hm". iApply (wp_smaller with "Hm"). iIntros "Hm".
  change (CK_BITMAP_BLOCKS (if m <? n then m else n)) with (shared n m).
  destruct (shared_bounds n m) as (H0 & H1 & H2 & H3); [by eapply reps_nonneg|by eapply reps_nonneg|].
  pose proof (reps_length _ _ _ HS) as Hlw.
  pose proof (reps_length _ _ _ HT) as Hlu.
  iApply (twp_combine (fun w u => Z.land w (u32 (Z.lnot u))) with "Ha Ha'"); [lia|lia|lia|].
  iIntros "Ha Ha'". iApply ("HΦ" with "[Hn Ha] [Hm Ha']"); [|iExists us; by iFrame].
  iExists _. iFrame. iPureIntro.
  apply (reps_combined n m ws us S T HS HT (fun w u => Z.land w (u32 (Z.lnot u)))).
  - intros w u Hw _. by apply land_word_l.
  - intros w u k j _ _ _ Hj Hw Hu. rewrite Z.land_spec u32_bit // Z.lnot_spec; [|lia].
    by rewrite Hw Hu mem_bit_difference.
  - intros k Hk. rewrite mem_bit_difference.
    destruct (unshared n m S T ws us k HS HT Hk) as [-> | ->]; [done|apply andb_true_r].
  - intros k [Hk _]%elem_of_difference. by eapply reps_members.
Qed.

Lemma twp_bitmap_intersection dst src n m S T (Φ : unit -> iProp Σ) :
  is_bitmap dst n S -∗ is_bitmap src m T -∗
  (is_bitmap dst n (S ∩ T) -∗ is_bitmap src m T -∗ Φ tt) -∗
  WP ck_bitmap_intersection dst src [{ Φ }].
Proof.
  iIntros "(%ws & %HS & Hn & Ha) (%us & %HT & Hm & Ha') HΦ". rewrite /ck_bitmap_intersection.
  wp_load "Hn". wp_load "Hm". iApply (wp_smaller with "Hm"). iIntros "Hm".
  change (CK_BITMAP_BLOCKS (if m <? n then m else n)) with (shared n m).
  destruct (shared_bounds n m) as (H0 & H1 & H2 & H3); [by eapply reps_nonneg|by eapply reps_nonneg|].
  pose proof (reps_length _ _ _ HS) as Hlw.
  pose proof (reps_length _ _ _ HT) as Hlu.
  wp_focus. iApply (twp_combine Z.land with "Ha Ha'"); [lia|lia|lia|]. iIntros "Ha Ha'".
  iApply (twp_fill with "Ha"); [lia|rewrite combined_length; lia|]. iIntros "Ha".
  iApply ("HΦ" with "[Hn Ha] [Hm Ha']"); [|iExists us; by iFrame].
  iExists _. iFrame. iPureIntro. set (i := Z.to_nat (shared n m)).
  (* the first loop gives [S] cut down on the shared words only *)
  set (S1 := filter (fun k => k < 32 * shared n m -> k ∈ T) S).
  assert (reps n (combined Z.land ws us i) S1) as HS1.
  { apply (reps_combined n m ws us S T HS HT).
    - intros w u Hw _. by apply land_word_l.
    - intros w u k j _ _ Hk _ Hw Hu. rewrite Z.land_spec Hw Hu -mem_bit_intersection.
      apply mem_bit_ext. rewrite elem_of_intersection elem_of_filter. naive_solver lia.
    - intros k Hk. apply mem_bit_ext. rewrite elem_of_filter. split; [naive_solver|].
      intros. split; [lia|done].
    - intros k [_ Hk]%elem_of_filter. by eapply reps_members. }
  apply (reps_filled n _ S1 _ _ _ HS1); [lia|rewrite combined_length; lia|..].
  - intros k Hk. apply mem_bit_ext. rewrite elem_of_intersection elem_of_filter.
    rewrite Z2Nat.id in Hk; [|done]. naive_solver lia.
  - intros k Hk. rewrite Z2Nat.id in Hk; [|done]. rewrite mem_bit_intersection.
    destruct (unshared n m S T ws us k HS HT Hk) as [-> | ->]; [done|apply andb_false_r].
  - intros k [Hk _]%elem_of_intersection. exact (reps_members _ _ _ HS k Hk).
Qed.
End spec.
