(* ===== verification/BitmapScan.v ===== *)
(** Total correctness of the reads of [Bitmap] that go over many words: emptiness,
    fullness and counts up to a limit, and iteration; initialisation and clearing. *)

From S2P Require Export BitmapSpec.
Set Warnings "-rewrite-rw".

(** * Words and the members below a limit *)

Lemma select_blocks S i :
  select (mem_bit S) 0 (32 * Datatypes.S i) =
    select (mem_bit S) 0 (32 * i) ++ select (mem_bit S) (32 * Z.of_nat i) 32.
Proof.
  replace (32 * Datatypes.S i)%nat with (32 * i + 32)%nat by lia. rewrite select_app.
  by replace (0 + Z.of_nat (32 * i)) with (32 * Z.of_nat i) by lia.
Qed.

Lemma block_empty S i w :
  describes S i w -> select (mem_bit S) (32 * Z.of_nat i) 32 = [] <-> w = 0.
Proof.
  intros Hd. rewrite (select_word S i w Hd). rewrite -(word_bits_nil w); [|apply Hd].
  split; [apply fmap_nil_inv|by intros ->].
Qed.

Lemma block_full S i w :
  describes S i w -> length (select (mem_bit S) (32 * Z.of_nat i) 32) = 32%nat <-> w = UINT_MAX.
Proof.
  intros [Hw Hb]. rewrite select_all_iff (word_full_iff w Hw). split; intros H k Hk.
  - rewrite Hb //. apply H. lia.
  - specialize (H (k - 32 * Z.of_nat i)). rewrite Hb in H; [|lia].
    replace (32 * Z.of_nat i + (k - 32 * Z.of_nat i)) with k in H by lia. apply H. lia.
Qed.

Lemma slop_empty S i w s :
  describes S i w -> 0 <= s <= 32 ->
  select (mem_bit S) (32 * Z.of_nat i) (Z.to_nat s) = [] <-> Z.land w (Z.shiftl 1 s - 1) = 0.
Proof.
  intros Hd Hs. rewrite (select_slop S i w (Z.to_nat s) Hd); [|lia].
  rewrite Z2Nat.id; [|lia]. rewrite -(word_bits_nil (Z.land w _)); [|by apply land_word_l, Hd].
  split; [apply fmap_nil_inv|by intros ->].
Qed.

Lemma slop_full S i w s :
  describes S i w -> 0 <= s <= 32 ->
  length (select (mem_bit S) (32 * Z.of_nat i) (Z.to_nat s)) = Z.to_nat s <->
  Z.land (u32 (Z.lnot w)) (Z.shiftl 1 s - 1) = 0.
Proof.
  intros [Hw Hb] Hs. rewrite select_all_iff.
  rewrite (word_zero_iff (Z.land _ _)); [|apply land_word_l, u32_word]. split; intros H k Hk.
  - rewrite Z.land_spec u32_bit // Z.lnot_spec; [|lia]. rewrite mask_bit; [|lia|lia].
    destruct (Z.ltb_spec k s); [|apply andb_false_r].
    rewrite Hb // H //. lia.
  - specialize (H (k - 32 * Z.of_nat i) ltac:(lia)).
    rewrite Z.land_spec u32_bit in H; [|lia]. rewrite Z.lnot_spec in H; [|lia].
    rewrite mask_bit in H; [|lia|lia]. rewrite (proj2 (Z.ltb_lt _ _)) in H; [|lia].
    rewrite Hb in H; [|lia].
    replace (32 * Z.of_nat i + (k - 32 * Z.of_nat i)) with k in H by lia.
    by destruct (mem_bit S k).
Qed.

Lemma below_split S limit :
  0 <= limit ->
  below S limit =
    select (mem_bit S) 0 (32 * Z.to_nat (limit / 32)) ++
    select (mem_bit S) (32 * Z.of_nat (Z.to_nat (limit / 32))) (Z.to_nat (limit mod 32)).
Proof.
  intros Hl. rewrite /below (select_split S limit Hl).
  rewrite Z2Nat.id; [done|apply Z.div_pos; lia].
Qed.

Lemma words_in_range n limit :
  0 <= limit <= n -> limit / 32 <= CK_BITMAP_BLOCKS n /\
  (0 < limit mod 32 -> limit / 32 < CK_BITMAP_BLOCKS n) /\ 0 <= limit / 32 /\ 0 <= limit mod 32 < 32.
Proof.
  intros. rewrite /CK_BITMAP_BLOCKS /CK_BITMAP_BLOCK. Z.to_euclidean_division_equations. lia.
Qed.

Section spec.
Context `{!ckGS_gen hlc Σ}.

Lemma twp_truncate b n limit (Φ : Z -> iProp Σ) :
  n_bits b ↦ n -∗ (n_bits b ↦ n -∗ Φ (Z.min limit n)) -∗ WP truncate b limit [{ Φ }].
Proof.
  iIntros "Hn HΦ". rewrite /truncate. wp_load "Hn". destruct (Z.ltb_spec n limit).
  - wp_load "Hn". rewrite Z.min_r; [|lia]. by iApply "HΦ".
  - wp_pures. rewrite Z.min_l //. by iApply "HΦ".
Qed.

(** [scan] answers true when every word up to [words] is good. *)
Lemma twp_scan b words bad ws (Φ : bool -> iProp Σ) :
  0 <= words <= Z.of_nat (length ws) ->
  array (map b) (DfracOwn 1) ws -∗
  (∀ ok : bool, ⌜ok = true <-> ∀ i w, (i < Z.to_nat words)%nat -> ws !! i = Some w -> bad w = false⌝ -∗
     array (map b) (DfracOwn 1) ws -∗ Φ ok) -∗
  WP scan b words bad [{ Φ }].
Proof.
  iIntros (Hw) "Ha HΦ". rewrite /scan.
  iApply (twp_loop_inv (λ i, Z.to_nat (words - i))
    (λ i, ⌜0 <= i <= words⌝ ∗
          ⌜∀ j w, (j < Z.to_nat i)%nat -> ws !! j = Some w -> bad w = false⌝ ∗
          array (map b) (DfracOwn 1) ws ∗
          (∀ ok : bool, ⌜ok = true <-> ∀ i w, (i < Z.to_nat words)%nat -> ws !! i = Some w -> bad w = false⌝ -∗
             array (map b) (DfracOwn 1) ws -∗ Φ ok))%I with "[$Ha $HΦ]").
  { iPureIntro. split; [lia|]. intros j w Hj. lia. }
  iIntros "!>" (i) "(%Hi & %Hgood & Ha & HΦ)". destruct (Z.ltb_spec i words).
  - destruct (lookup_lt_is_Some_2 ws (Z.to_nat i)) as [w Hwi]; [lia|].
    iDestruct (array_read with "Ha") as "[Hw Ha]"; [exact Hwi|]. rewrite Z2Nat.id; [|lia].
    wp_load "Hw". iDestruct ("Ha" with "Hw") as "Ha". destruct (bad w) eqn:Hbad; wp_pures.
    + iApply ("HΦ" with "[%] Ha"). split; [done|]. intros Hall.
      rewrite (Hall (Z.to_nat i) w) // in Hbad. lia.
    + iFrame. iPureIntro. split; [lia|]. split; [lia|]. intros j v Hj Hv.
      destruct (decide (j = Z.to_nat i)) as [->|]; [by simplify_eq|]. apply (Hgood j v); [lia|done].
  - wp_pures. iApply ("HΦ" with "[%] Ha"). split; [|done]. intros _ j v Hj. apply Hgood. lia.
Qed.

(** The words of a prefix, all zero or all full. *)
Lemma prefix_empty n ws S i :
  reps n ws S -> (i <= length ws)%nat ->
  (∀ j w, (j < i)%nat -> ws !! j = Some w -> negb (w =? 0) = false) <->
  select (mem_bit S) 0 (32 * i) = [].
Proof.
  intros HR. induction i as [|i IH]; intros Hi; [split; [done|lia]|].
  destruct (lookup_lt_is_Some_2 ws i) as [w Hw]; [lia|].
  pose proof (block_empty S i w (reps_describes _ _ _ _ _ HR Hw)) as Hb.
  rewrite select_blocks app_nil Hb -IH; [|lia]. split.
  - intros H. split; [intros; apply (H j); [lia|done]|].
    specialize (H i w ltac:(lia) Hw). by destruct (Z.eqb_spec w 0).
  - intros [H ->] j v Hj Hv. destruct (decide (j = i)) as [->|]; [by simplify_eq|].
    apply (H j v); [lia|done].
Qed.

Lemma prefix_full n ws S i :
  reps n ws S -> (i <= length ws)%nat ->
  (∀ j w, (j < i)%nat -> ws !! j = Some w -> negb (w =? UINT_MAX) = false) <->
  length (select (mem_bit S) 0 (32 * i)) = (32 * i)%nat.
Proof.
  intros HR. induction i as [|i IH]; intros Hi; [split; [done|lia]|].
  destruct (lookup_lt_is_Some_2 ws i) as [w Hw]; [lia|].
  pose proof (block_full S i w (reps_describes _ _ _ _ _ HR Hw)) as Hb.
  pose proof (select_length_le (mem_bit S) 0 (32 * i)).
  pose proof (select_length_le (mem_bit S) (32 * Z.of_nat i) 32).
  assert (length (select (mem_bit S) 0 (32 * i)) = 32 * i /\
          length (select (mem_bit S) (32 * Z.of_nat i) 32) = 32 <->
          length (select (mem_bit S) 0 (32 * Datatypes.S i)) = 32 * Datatypes.S i)%nat as <-.
  { rewrite select_blocks length_app. lia. }
  rewrite Hb -IH; [|lia]. split.
  - intros H'. split; [intros; apply (H' j); [lia|done]|].
    specialize (H' i w ltac:(lia) Hw). by destruct (Z.eqb_spec w UINT_MAX).
  - intros [H' ->] j v Hj Hv. destruct (decide (j = i)) as [->|]; [by simplify_eq|].
    apply (H' j v); [lia|done].
Qed.

Lemma twp_bitmap_empty b n S limit (Φ : bool -> iProp Σ) :
  0 <= limit ->
  is_bitmap b n S -∗
  (is_bitmap b n S -∗ Φ (bool_decide (below S (Z.min limit n) = []))) -∗
  WP ck_bitmap_empty b limit [{ Φ }].
Proof.
  iIntros (Hl) "(%ws & %HR & Hn & Ha) HΦ". rewrite /ck_bitmap_empty. wp_focus.
  iApply (twp_truncate with "Hn"). iIntros "Hn".
  pose proof (reps_nonneg _ _ _ HR). pose proof (reps_length _ _ _ HR) as Hlen.
  set (L := Z.min limit n). destruct (words_in_range n L) as (Hw & Hs & Hq & Hm); [lia|].
  rewrite /CK_BITMAP_BLOCK. wp_focus. iApply (twp_scan with "Ha"); [lia|]. iIntros (ok Hok) "Ha".
  rewrite (prefix_empty n ws S _ HR) in Hok; [|lia].
  assert (0 <= L) as HL by lia.
  rewrite (below_split S L HL) (bool_decide_ext _ _ (app_nil _ _)).
  destruct ok; cbn [negb].
  - rewrite (proj1 Hok) //. destruct (Z.ltb_spec 0 (L mod 32)).
    + destruct (lookup_lt_is_Some_2 ws (Z.to_nat (L / 32))) as [w Hwi]; [lia|].
      iDestruct (array_read with "Ha") as "[Hw Ha]"; [exact Hwi|]. rewrite Z2Nat.id //.
      wp_load "Hw". iDestruct ("Ha" with "Hw") as "Ha".
      pose proof (slop_empty S _ w (L mod 32) (reps_describes _ _ _ _ _ HR Hwi) ltac:(lia)) as Hse.
      rewrite Z2Nat.id // in Hse.
      iAssert (is_bitmap b n S) with "[Hn Ha]" as "Hb"; [iExists ws; by iFrame|].
      destruct (Z.eqb_spec (Z.land w (Z.shiftl 1 (L mod 32) - 1)) 0); wp_pures.
      * rewrite bool_decide_eq_true_2; [|split; [done|by apply Hse]]. by iApply "HΦ".
      * rewrite bool_decide_eq_false_2; [|intros [_ ?]; by apply Hse in H1]. by iApply "HΦ".
    + wp_pures. replace (L mod 32) with 0 by lia. rewrite bool_decide_eq_true_2 //.
      iApply "HΦ". iExists ws. by iFrame.
  - wp_pures. rewrite bool_decide_eq_false_2; [|intros [? _]; by apply Hok in H0].
    iApply "HΦ". iExists ws. by iFrame.
Qed.

Lemma twp_bitmap_full b n S limit (Φ : bool -> iProp Σ) :
  0 <= limit ->
  is_bitmap b n S -∗
  (is_bitmap b n S -∗ Φ (bool_decide (length (below S (Z.min limit n)) = Z.to_nat (Z.min limit n)))) -∗
  WP ck_bitmap_full b limit [{ Φ }].
Proof.
  iIntros (Hl) "(%ws & %HR & Hn & Ha) HΦ". rewrite /ck_bitmap_full. wp_focus.
  iApply (twp_truncate with "Hn"). iIntros "Hn".
  pose proof (reps_nonneg _ _ _ HR). pose proof (reps_length _ _ _ HR) as Hlen.
  set (L := Z.min limit n). destruct (words_in_range n L) as (Hw & Hs & Hq & Hm); [lia|].
  rewrite /CK_BITMAP_BLOCK. wp_focus. iApply (twp_scan with "Ha"); [lia|]. iIntros (ok Hok) "Ha".
  rewrite (prefix_full n ws S _ HR) in Hok; [|lia].
  assert (0 <= L) as HL by lia. rewrite (below_split S L HL) length_app.
  set (whole := select (mem_bit S) 0 (32 * Z.to_nat (L / 32))) in *.
  set (rest := select (mem_bit S) (32 * Z.of_nat (Z.to_nat (L / 32))) (Z.to_nat (L mod 32))).
  assert (length whole <= 32 * Z.to_nat (L / 32))%nat by apply select_length_le.
  assert (length rest <= Z.to_nat (L mod 32))%nat by apply select_length_le.
  assert (Z.to_nat L = 32 * Z.to_nat (L / 32) + Z.to_nat (L mod 32))%nat as HLs.
  { pose proof (Z.div_mod L 32 ltac:(lia)). lia. }
  destruct ok; cbn [negb].
  - pose proof (proj1 Hok eq_refl). destruct (Z.ltb_spec 0 (L mod 32)).
    + destruct (lookup_lt_is_Some_2 ws (Z.to_nat (L / 32))) as [w Hwi]; [lia|].
      iDestruct (array_read with "Ha") as "[Hw Ha]"; [exact Hwi|]. rewrite Z2Nat.id //.
      wp_load "Hw". iDestruct ("Ha" with "Hw") as "Ha".
      pose proof (slop_full S _ w (L mod 32) (reps_describes _ _ _ _ _ HR Hwi) ltac:(lia)) as Hse.
      change (length rest = Z.to_nat (L mod 32) <->
              Z.land (u32 (Z.lnot w)) (Z.shiftl 1 (L mod 32) - 1) = 0) in Hse.
      iAssert (is_bitmap b n S) with "[Hn Ha]" as "Hb"; [iExists ws; by iFrame|].
      destruct (Z.eqb_spec (Z.land (u32 (Z.lnot w)) (Z.shiftl 1 (L mod 32) - 1)) 0); wp_pures.
      * rewrite bool_decide_eq_true_2; [by iApply "HΦ"|]. apply Hse in e. lia.
      * rewrite bool_decide_eq_false_2; [by iApply "HΦ"|]. intros ?. apply n0, Hse. lia.
    + wp_pures. rewrite bool_decide_eq_true_2; [|lia]. iApply "HΦ". iExists ws. by iFrame.
  - wp_pures. rewrite bool_decide_eq_false_2; [iApply "HΦ"; iExists ws; by iFrame|].
    intros ?. assert (length whole = 32 * Z.to_nat (L / 32))%nat as He by lia.
    by apply Hok in He.
Qed.

(** ** Counts *)

(** A word that describes the members of [R] in its block adds their number. *)
Lemma twp_tally (R : gset Z) (P : iProp Σ) words (word : Z -> prog Z) (Φ : Z -> iProp Σ) :
  0 <= words -> 32 * words < 4294967296 ->
  P -∗
  □ (∀ i, ⌜0 <= i < words⌝ -∗ P -∗ WP word i [{ v, ⌜describes R (Z.to_nat i) v⌝ ∗ P }]) -∗
  (P -∗ Φ (Z.of_nat (length (select (mem_bit R) 0 (32 * Z.to_nat words))))) -∗
  WP tally words word [{ Φ }].
Proof.
  iIntros (H0 Hw) "HP #Hword HΦ". rewrite /tally.
  iApply (twp_loop_inv (λ s : Z * Z, Z.to_nat (words - s.1))
    (λ s : Z * Z, ⌜0 <= s.1 <= words⌝ ∗
       ⌜s.2 = Z.of_nat (length (select (mem_bit R) 0 (32 * Z.to_nat s.1)))⌝ ∗ P ∗
       (P -∗ Φ (Z.of_nat (length (select (mem_bit R) 0 (32 * Z.to_nat words))))))%I
    with "[$HP $HΦ]").
  { iPureIntro. simpl. split; [lia|done]. }
  iIntros "!>" ([i c]) "(%Hi & %Hc & HP & HΦ)". cbn [fst snd] in *. subst c. destruct (Z.ltb_spec i words).
  - wp_focus. iApply (twp_wand (Λ:=ck_lang Z) with "[HP]").
    { iApply ("Hword" with "[%] HP"). lia. }
    iIntros (v) "[%Hd HP]". wp_pures. iFrame. iPureIntro. cbn [fst snd].
    pose proof (select_length_le (mem_bit R) 0 (32 * Z.to_nat i)).
    pose proof (select_length_le (mem_bit R) (32 * Z.of_nat (Z.to_nat i)) 32) as Hle.
    split; [lia|]. split; [lia|].
    replace (Z.to_nat (i + 1)) with (Datatypes.S (Z.to_nat i)) by lia.
    rewrite select_blocks length_app. rewrite (select_word R _ v Hd) length_fmap in Hle |- *.
    rewrite ck_cc_popcount_spec; [|apply Hd]. rewrite u32_small; lia.
  - wp_pures. replace words with i by lia. by iApply "HΦ".
Qed.

Lemma count_slop R w i s :
  describes R i w -> 0 <= s <= 32 ->
  ck_cc_popcount (Z.land w (Z.shiftl 1 s - 1)) =
    Z.of_nat (length (select (mem_bit R) (32 * Z.of_nat i) (Z.to_nat s))).
Proof.
  intros Hd Hs. rewrite ck_cc_popcount_spec; [|by apply land_word_l, Hd].
  rewrite (select_slop R i w (Z.to_nat s) Hd); [|lia].
  rewrite length_fmap Z2Nat.id //. lia.
Qed.

Lemma below_length S L : 0 <= L -> (length (below S L) <= Z.to_nat L)%nat.
Proof. intros. apply select_length_le. Qed.

Lemma twp_bitmap_count b n S limit (Φ : Z -> iProp Σ) :
  0 <= limit ->
  is_bitmap b n S -∗
  (is_bitmap b n S -∗ Φ (Z.of_nat (length (below S (Z.min limit n))))) -∗
  WP ck_bitmap_count b limit [{ Φ }].
Proof.
  iIntros (Hl) "(%ws & %HR & Hn & Ha) HΦ". rewrite /ck_bitmap_count. wp_focus.
  iApply (twp_truncate with "Hn"). iIntros "Hn".
  pose proof (reps_nonneg _ _ _ HR). pose proof (reps_length _ _ _ HR) as Hlen.
  assert (n < 4294967296) by apply HR.
  set (L := Z.min limit n). destruct (words_in_range n L) as (Hw & Hs & Hq & Hm); [lia|].
  assert (0 <= L) as HL by lia.
  pose proof (Z.div_mod L 32 ltac:(lia)). pose proof (below_length S L HL) as Hbl.
  rewrite /CK_BITMAP_BLOCK. wp_focus.
  iApply (twp_tally S (array (map b) (DfracOwn 1) ws) with "Ha"); [lia|lia|..].
  { iIntros "!>" (i Hi) "Ha". destruct (lookup_lt_is_Some_2 ws (Z.to_nat i)) as [w Hwi]; [lia|].
    iDestruct (array_read with "Ha") as "[Hw Ha]"; [exact Hwi|]. rewrite Z2Nat.id; [|lia].
    wp_load "Hw". iSplit; [|by iApply "Ha"]. iPureIntro. by apply (reps_describes n ws). }
  iIntros "Ha". rewrite (below_split S L HL) length_app in Hbl |- *.
  destruct (Z.ltb_spec 0 (L mod 32)).
  - destruct (lookup_lt_is_Some_2 ws (Z.to_nat (L / 32))) as [w Hwi]; [lia|].
    iDestruct (array_read with "Ha") as "[Hw Ha]"; [exact Hwi|]. rewrite Z2Nat.id //.
    wp_load "Hw". iDestruct ("Ha" with "Hw") as "Ha". wp_pures.
    rewrite (count_slop S w (Z.to_nat (L / 32))); [|by apply (reps_describes n ws)|lia].
    rewrite Z2Nat.id // in Hbl |- *.
    rewrite u32_small; [|lia]. rewrite Nat2Z.inj_add. iApply "HΦ". iExists ws. by iFrame.
  - wp_pures. replace (L mod 32) with 0 by lia. rewrite Nat.add_0_r.
    iApply "HΦ". iExists ws. by iFrame.
Qed.

Lemma describes_land S T i w u :
  describes S i w -> describes T i u -> describes (S ∩ T) i (Z.land w u).
Proof.
  intros [Hw Hwb] [Hu Hub]. split; [by apply land_word_l|]. intros j Hj.
  by rewrite Z.land_spec Hwb // Hub // mem_bit_intersection.
Qed.

Lemma twp_bitmap_count_intersect x y n m S T limit (Φ : Z -> iProp Σ) :
  0 <= limit ->
  is_bitmap x n S -∗ is_bitmap y m T -∗
  (is_bitmap x n S -∗ is_bitmap y m T -∗
     Φ (Z.of_nat (length (below (S ∩ T) (Z.min (Z.min limit n) m))))) -∗
  WP ck_bitmap_count_intersect x y limit [{ Φ }].
Proof.
  iIntros (Hl) "(%ws & %HS & Hn & Ha) (%us & %HT & Hm & Ha') HΦ".
  rewrite /ck_bitmap_count_intersect. wp_focus.
  iApply (twp_truncate with "Hn"). iIntros "Hn". wp_focus.
  iApply (twp_truncate with "Hm"). iIntros "Hm".
  pose proof (reps_nonneg _ _ _ HS). pose proof (reps_length _ _ _ HS) as Hlen.
  pose proof (reps_nonneg _ _ _ HT). pose proof (reps_length _ _ _ HT) as Hlen'.
  assert (n < 4294967296) by apply HS.
  set (L := Z.min (Z.min limit n) m).
  destruct (words_in_range n L) as (Hw & Hs & Hq & Hmod); [lia|].
  destruct (words_in_range m L) as (Hw' & Hs' & _ & _); [lia|].
  assert (0 <= L) as HL by lia.
  pose proof (Z.div_mod L 32 ltac:(lia)). pose proof (below_length (S ∩ T) L HL) as Hbl.
  rewrite /CK_BITMAP_BLOCK.
  set (P := (array (map x) (DfracOwn 1) ws ∗ array (map y) (DfracOwn 1) us)%I).
  assert (∀ i, 0 <= i < CK_BITMAP_BLOCKS n -> i < CK_BITMAP_BLOCKS m ->
    P ⊢ WP both x y i [{ v, ⌜describes (S ∩ T) (Z.to_nat i) v⌝ ∗ P }]) as Hboth.
  { iIntros (i Hi Hi') "[Ha Ha']". rewrite /both.
    destruct (lookup_lt_is_Some_2 ws (Z.to_nat i)) as [w Hwi]; [lia|].
    destruct (lookup_lt_is_Some_2 us (Z.to_nat i)) as [u Hui]; [lia|].
    iDestruct (array_read with "Ha") as "[Hw Ha]"; [exact Hwi|].
    iDestruct (array_read with "Ha'") as "[Hu Ha']"; [exact Hui|]. rewrite Z2Nat.id; [|lia].
    wp_load "Hw". wp_load "Hu". wp_pures.
    iSplit; [|iSplitL "Hw Ha"; [by iApply "Ha"|by iApply "Ha'"]].
    iPureIntro. apply describes_land; by eapply reps_describes. }
  wp_focus. iApply (twp_tally (S ∩ T) P with "[$Ha $Ha']"); [lia|lia|..].
  { iIntros "!>" (i Hi) "HP". iApply (Hboth with "HP"); lia. }
  iIntros "HP". rewrite (below_split _ L HL) length_app in Hbl |- *.
  destruct (Z.ltb_spec 0 (L mod 32)).
  - wp_focus. iApply (twp_wand (Λ:=ck_lang Z) with "[HP]").
    { iApply (Hboth with "HP"); lia. }
    iIntros (v) "[%Hd [Ha Ha']]". wp_pures. rewrite (count_slop (S ∩ T) v _ _ Hd); [|lia].
    rewrite u32_small; [|lia]. rewrite Nat2Z.inj_add.
    iApply ("HΦ" with "[Hn Ha]"); [iExists ws|iExists us]; by iFrame.
  - iDestruct "HP" as "[Ha Ha']". wp_pures. replace (L mod 32) with 0 by lia. rewrite Nat.add_0_r.
    iApply ("HΦ" with "[Hn Ha]"); [iExists ws|iExists us]; by iFrame.
Qed.
End spec.

(** Total correctness of initialisation, clearing and iteration of [Bitmap]. *)

(** * The full bitmap *)

Definition all_bits (n : Z) : gset Z := list_to_set (seqZ 0 n).

Lemma all_bits_spec n k : mem_bit (all_bits n) k = (0 <=? k) && (k <? n).
Proof.
  rewrite /mem_bit /all_bits. apply Bool.eq_iff_eq_true.
  rewrite bool_decide_eq_true elem_of_list_to_set elem_of_seqZ andb_true_iff Z.leb_le Z.ltb_lt. lia.
Qed.

Lemma all_bits_in n k : k ∈ all_bits n -> 0 <= k < n.
Proof. rewrite /all_bits elem_of_list_to_set elem_of_seqZ. lia. Qed.

(** A word of ones, cut to the first [s] bits, in a bitmap of [n] bits. *)
Lemma describes_ones n i s :
  0 <= s <= 32 -> (s < 32 -> n = 32 * Z.of_nat i + s) -> (s = 32 -> 32 * Z.of_nat i + 32 <= n) ->
  describes (all_bits n) i (Z.land UINT_MAX (Z.shiftl 1 s - 1)).
Proof.
  intros Hs H1 H2. split; [by apply land_word_l|]. intros j Hj.
  change UINT_MAX with (Z.ones 32).
  rewrite all_bits_spec Z.land_spec mask_bit; [|lia|lia]. rewrite Z.ones_spec_low; [|lia].
  rewrite (proj2 (Z.leb_le 0 _)) /=; [|lia]. apply Bool.eq_iff_eq_true. rewrite !Z.ltb_lt. lia.
Qed.

Lemma ones_uncut : Z.land UINT_MAX (Z.shiftl 1 32 - 1) = UINT_MAX.
Proof. done. Qed.

Section spec.
Context `{!ckGS_gen hlc Σ}.

Lemma twp_bitmap_clear b n S (Φ : unit -> iProp Σ) :
  is_bitmap b n S -∗ (is_bitmap b n ∅ -∗ Φ tt) -∗ WP ck_bitmap_clear b [{ Φ }].
Proof.
  iIntros "(%ws & %HR & Hn & Ha) HΦ". rewrite /ck_bitmap_clear.
  pose proof (reps_nonneg _ _ _ HR). pose proof (reps_length _ _ _ HR) as Hlen.
  wp_load "Hn". rewrite base_blocks; [|apply HR].
  iApply (twp_fill with "Ha"); [lia|lia|]. iIntros "Ha". iApply "HΦ". iExists _. iFrame.
  iPureIntro. apply (reps_filled n ws S); [done|lia|lia|..].
  - simpl. lia.
  - intros k _. by apply bool_decide_eq_false_2.
  - set_solver.
Qed.

(** The memory handed to [ck_bitmap_init]: any contents. *)
Lemma twp_bitmap_init b n (ones : bool) x ws (Φ : unit -> iProp Σ) :
  0 <= n < 4294967296 -> Z.of_nat (length ws) = CK_BITMAP_BLOCKS n ->
  n_bits b ↦ x -∗ array (map b) (DfracOwn 1) ws -∗
  (is_bitmap b n (if ones then all_bits n else ∅) -∗ Φ tt) -∗ WP ck_bitmap_init b n ones [{ Φ }].
Proof.
  iIntros (Hn Hlen) "Hn Ha HΦ". rewrite /ck_bitmap_init. wp_store "Hn".
  rewrite base_blocks //. wp_focus. pose proof (blocks_bounds n ltac:(lia)).
  iApply (twp_fill with "Ha"); [lia|lia|]. iIntros "Ha".
  change (Z.to_nat 0) with 0%nat. set (hi := Z.to_nat (CK_BITMAP_BLOCKS n)).
  assert (∀ (c : Z) j v, filled c ws 0 hi !! j = Some v -> v = c /\ (j < hi)%nat) as Hfill.
  { intros c j v Hv. assert (j < length ws)%nat as Hj.
    { apply lookup_lt_Some in Hv. rewrite filled_length in Hv; lia. }
    destruct (lookup_lt_is_Some_2 ws j Hj) as [w Hw].
    rewrite (filled_lookup c ws 0 hi j w ltac:(lia) ltac:(lia) Hw) in Hv.
    destruct (decide (0 <= j < hi)%nat); [|lia]. simplify_eq. split; [done|lia]. }
  assert (∀ c : Z, length (filled c ws 0 hi) = length ws) as Hfl.
  { intros c. rewrite filled_length; lia. }
  destruct ones; cbn [when]; last first.
  { wp_pures. iApply "HΦ". iExists _. iFrame. iPureIntro. apply reps_intro; [done|by rewrite Hfl| |set_solver].
    intros j v [-> _]%Hfill. split; [done|]. intros k _. rewrite Z.testbit_0_l.
    symmetry. by apply bool_decide_eq_false_2. }
  rewrite /CK_BITMAP_BLOCK. pose proof (Z.div_mod n 32 ltac:(lia)) as Hdm.
  pose proof (Z.mod_pos_bound n 32 ltac:(lia)) as Hmod.
  destruct (Z.eqb_spec (n mod 32) 0) as [Hz|Hz].
  { wp_pures. iApply "HΦ". iExists _. iFrame. iPureIntro.
    apply reps_intro; [done|by rewrite Hfl| |apply all_bits_in].
    intros j v [-> Hj]%Hfill. rewrite -ones_uncut. apply describes_ones; lia. }
  assert (CK_BITMAP_BLOCKS n = n / 32 + 1) as Hblk by lia.
  assert ((n - 1) / 32 = n / 32) as Hlast.
  { symmetry. apply (Z.div_unique_pos (n - 1) 32 (n / 32) (n mod 32 - 1)); lia. }
  assert (0 <= n / 32) by (apply Z.div_pos; lia).
  rewrite /CK_BITMAP_PTR /CK_BITMAP_BLOCK Hlast.
  destruct (lookup_lt_is_Some_2 (filled UINT_MAX ws 0 hi) (Z.to_nat (n / 32))) as [v Hv].
  { rewrite Hfl. lia. }
  destruct (Hfill _ _ _ Hv) as [-> _].
  iDestruct (array_acc with "Ha") as "[Hw Ha]"; [exact Hv|]. rewrite Z2Nat.id //.
  wp_load "Hw". wp_store "Hw". iDestruct ("Ha" with "Hw") as "Ha".
  iApply "HΦ". iExists _. iFrame. iPureIntro.
  apply reps_intro; [done|by rewrite length_insert Hfl| |apply all_bits_in].
  intros j v Hj. destruct (decide (j = Z.to_nat (n / 32))) as [->|Hne].
  - rewrite list_lookup_insert_eq in Hj; [|by eapply lookup_lt_Some]. simplify_eq.
    apply describes_ones; lia.
  - rewrite list_lookup_insert_ne // in Hj. apply Hfill in Hj as [-> Hj].
    rewrite -ones_uncut. apply describes_ones; lia.
Qed.

(** ** Iteration *)

(** What an iterator has still to report. *)
Definition left (S : gset Z) (it : ck_bitmap_iterator) : list Z :=
  ((fun k => k + 32 * n_block it) <$> word_bits (cache it)) ++
  select (mem_bit S) (32 * (n_block it + 1)) (32 * Z.to_nat (n_limit it - n_block it - 1)).

Lemma left_zero S nb limit :
  left S (CkBitmapIterator 0 nb limit) = select (mem_bit S) (32 * (nb + 1)) (32 * Z.to_nat (limit - nb - 1)).
Proof. done. Qed.

Definition iterating (n : Z) (S : gset Z) (it : ck_bitmap_iterator) : Prop :=
  word (cache it) /\ 0 <= n_block it /\ n_limit it = CK_BITMAP_BLOCKS n /\
  ∀ k, k ∈ left S it -> k ∈ S.

Lemma select_members S lo m k : k ∈ select (mem_bit S) lo m -> k ∈ S.
Proof. rewrite select_elem. intros [_ Hk]. by apply bool_decide_eq_true in Hk. Qed.

Lemma left_block S w nb limit :
  describes S (Z.to_nat nb) w -> 0 <= nb < limit ->
  left S (CkBitmapIterator w nb limit) = select (mem_bit S) (32 * nb) (32 * Z.to_nat (limit - nb)).
Proof.
  intros Hd Hnb. rewrite /left; cbn [cache n_block n_limit].
  replace (32 * Z.to_nat (limit - nb))%nat with (32 + 32 * Z.to_nat (limit - nb - 1))%nat by lia.
  rewrite select_app. pose proof (select_word S _ w Hd) as Hsel. rewrite Z2Nat.id in Hsel; [|lia].
  rewrite -Hsel. by replace (32 * nb + Z.of_nat 32) with (32 * (nb + 1)) by lia.
Qed.

Lemma twp_iterator_init b n S (Φ : ck_bitmap_iterator -> iProp Σ) :
  is_bitmap b n S -∗
  (∀ it, ⌜iterating n S it /\ left S it = below S n⌝ -∗ is_bitmap b n S -∗ Φ it) -∗
  WP ck_bitmap_iterator_init b [{ Φ }].
Proof.
  iIntros "(%ws & %HR & Hn & Ha) HΦ". rewrite /ck_bitmap_iterator_init. wp_load "Hn".
  pose proof (reps_nonneg _ _ _ HR) as H0. pose proof (reps_length _ _ _ HR) as Hlen.
  pose proof (blocks_bounds n H0) as Hb.
  assert (below S n = select (mem_bit S) 0 (32 * Z.to_nat (CK_BITMAP_BLOCKS n))) as Hbelow.
  { rewrite /below.
    replace (32 * Z.to_nat (CK_BITMAP_BLOCKS n))%nat
      with (Z.to_nat n + Z.to_nat (32 * CK_BITMAP_BLOCKS n - n))%nat by lia.
    rewrite select_app (select_none _ (0 + _)) ?app_nil_r //.
    intros k Hk. apply (reps_beyond n ws S k HR). lia. }
  destruct (Z.ltb_spec 0 (CK_BITMAP_BLOCKS n)).
  - destruct (lookup_lt_is_Some_2 ws 0) as [w Hw]; [lia|].
    iDestruct (array_read with "Ha") as "[Hw Ha]"; [exact Hw|]. wp_load "Hw". wp_pures.
    iDestruct ("Ha" with "Hw") as "Ha".
    pose proof (reps_describes _ _ _ _ _ HR Hw) as Hd.
    iApply ("HΦ" with "[%] [Hn Ha]"); [|iExists ws; by iFrame].
    assert (left S (CkBitmapIterator w 0 (CK_BITMAP_BLOCKS n)) = below S n) as Hl.
    { rewrite (left_block S w 0 _ Hd); [|lia]. rewrite Hbelow Z.mul_0_r Z.sub_0_r //. }
    split; [|done]. split; [apply Hd|]. split; [done|]. split; [done|].
    intros k. rewrite Hl. apply select_members.
  - wp_pures. iApply ("HΦ" with "[%] [Hn Ha]"); [|iExists ws; by iFrame].
    assert (left S (CkBitmapIterator 0 0 (CK_BITMAP_BLOCKS n)) = []) as Hl.
    { rewrite /left; cbn [cache n_block n_limit]. replace (Z.to_nat (CK_BITMAP_BLOCKS n - 0 - 1)) with 0%nat by lia. done. }
    split; [|rewrite Hl Hbelow; by replace (Z.to_nat (CK_BITMAP_BLOCKS n)) with 0%nat by lia].
    split; [done|]. split; [done|]. split; [done|]. intros k. rewrite Hl. by intros ?%elem_of_nil.
Qed.

(** The step at the label [non_zero]. *)
Lemma non_zero_left n S c nb :
  n < 4294967296 -> (∀ k, k ∈ S -> 0 <= k < n) ->
  iterating n S (CkBitmapIterator c nb (CK_BITMAP_BLOCKS n)) -> c <> 0 ->
  ∃ k ks, left S (CkBitmapIterator c nb (CK_BITMAP_BLOCKS n)) = k :: ks /\
    (non_zero c nb (CK_BITMAP_BLOCKS n)).1 = Some k /\
    iterating n S (non_zero c nb (CK_BITMAP_BLOCKS n)).2 /\
    left S (non_zero c nb (CK_BITMAP_BLOCKS n)).2 = ks.
Proof.
  intros Hn HS (Hw & Hnb & _ & Hin) Hne. simpl in Hw, Hnb.
  destruct (word_bits_next c Hw Hne) as (Hctz & Hw' & Hbits).
  assert (left S (CkBitmapIterator c nb (CK_BITMAP_BLOCKS n)) =
          (ck_cc_ctz c + 32 * nb) :: left S (CkBitmapIterator (Z.land c (u32 (c - 1))) nb (CK_BITMAP_BLOCKS n)))
    as Hl.
  { rewrite /left; cbn [cache n_block n_limit]. rewrite Hbits fmap_cons -app_comm_cons. reflexivity. }
  rewrite Hl in Hin.
  assert (0 <= ck_cc_ctz c + 32 * nb < n) by (apply HS, Hin; left).
  eexists _, _. split; [exact Hl|]. split; [|split; [|done]].
  - rewrite /non_zero /CK_BITMAP_BLOCK /=. rewrite u32_small; [f_equal; lia|lia].
  - split; [done|]. split; [done|]. split; [done|]. intros k Hk. apply Hin. by right.
Qed.

Lemma twp_bitmap_next b n S it (Φ : option Z * ck_bitmap_iterator -> iProp Σ) :
  iterating n S it ->
  is_bitmap b n S -∗
  (∀ it', ⌜iterating n S it' /\ left S it' = tail (left S it)⌝ -∗ is_bitmap b n S -∗
     Φ (head (left S it), it')) -∗
  WP ck_bitmap_next b it [{ Φ }].
Proof.
  iIntros (Hit) "(%ws & %HR & Hn & Ha) HΦ".
  pose proof (reps_length _ _ _ HR) as Hlen. pose proof (reps_members _ _ _ HR) as HS.
  assert (n < 4294967296) as Hlt by apply HR.
  iAssert (∀ Ψ, (is_bitmap b n S -∗ Ψ) -∗ n_bits b ↦ n -∗ array (map b) (DfracOwn 1) ws -∗ Ψ)%I as "Hclose".
  { iIntros (Ψ) "H Hn Ha". iApply "H". iExists ws. by iFrame. }
  destruct it as [c nb limit]. pose proof Hit as (Hw & Hnb & Hlim & Hin). simpl in Hw, Hnb, Hlim.
  subst limit. rewrite /ck_bitmap_next. cbn [cache n_block n_limit].
  destruct (Z.eqb_spec c 0) as [->|Hne]; last first.
  { destruct (non_zero_left n S c nb Hlt HS Hit Hne) as (k & ks & Hl & Hk & Hit' & Hl').
    wp_pures. rewrite (surjective_pairing (non_zero _ _ _)) Hk Hl.
    iApply ("Hclose" with "[HΦ] Hn Ha"). iApply "HΦ". done. }
  assert (left S (CkBitmapIterator 0 nb (CK_BITMAP_BLOCKS n)) =
    select (mem_bit S) (32 * (nb + 1)) (32 * Z.to_nat (CK_BITMAP_BLOCKS n - nb - 1))) as Hl0 by done.
  destruct (Z.leb_spec (CK_BITMAP_BLOCKS n) nb).
  { wp_pures. replace (Z.to_nat (CK_BITMAP_BLOCKS n - nb - 1)) with 0%nat in Hl0 by lia.
    rewrite Hl0. iApply ("Hclose" with "[HΦ] Hn Ha"). iApply "HΦ". by rewrite Hl0. }
  iApply (twp_loop_inv (λ i : Z, Z.to_nat (CK_BITMAP_BLOCKS n - i))
    (λ i : Z, ⌜nb < i <= CK_BITMAP_BLOCKS n⌝ ∗
       ⌜left S (CkBitmapIterator 0 nb (CK_BITMAP_BLOCKS n)) =
          select (mem_bit S) (32 * i) (32 * Z.to_nat (CK_BITMAP_BLOCKS n - i))⌝ ∗
       n_bits b ↦ n ∗ array (map b) (DfracOwn 1) ws ∗
       (∀ it', ⌜iterating n S it' /\ left S it' =
                  tail (left S (CkBitmapIterator 0 nb (CK_BITMAP_BLOCKS n)))⌝ -∗ is_bitmap b n S -∗
          Φ (head (left S (CkBitmapIterator 0 nb (CK_BITMAP_BLOCKS n))), it')))%I
    with "[$Hn $Ha $HΦ]").
  { iPureIntro. split; [lia|]. rewrite Hl0. do 2 f_equal. lia. }
  iClear "Hclose".
  iIntros "!>" (i) "(%Hi & %Hl & Hn & Ha & HΦ)". destruct (Z.ltb_spec i (CK_BITMAP_BLOCKS n)).
  - destruct (lookup_lt_is_Some_2 ws (Z.to_nat i)) as [w Hwi]; [lia|].
    iDestruct (array_read with "Ha") as "[Hw Ha]"; [exact Hwi|]. rewrite Z2Nat.id; [|lia].
    wp_load "Hw". iDestruct ("Ha" with "Hw") as "Ha".
    pose proof (reps_describes _ _ _ _ _ HR Hwi) as Hd.
    pose proof (left_block S w i (CK_BITMAP_BLOCKS n) Hd ltac:(lia)) as Hlb.
    destruct (Z.eqb_spec w 0) as [->|Hne]; cbn [negb]; wp_pures.
    + iFrame. iPureIntro. split; [lia|]. split; [lia|].
      rewrite Hl -Hlb left_zero. by replace (CK_BITMAP_BLOCKS n - i - 1) with (CK_BITMAP_BLOCKS n - (i + 1)) by lia.
    + assert (iterating n S (CkBitmapIterator w i (CK_BITMAP_BLOCKS n))) as Hiti.
      { split; [apply Hd|]. split; [simpl; lia|]. split; [done|].
        intros k. rewrite Hlb. apply select_members. }
      destruct (non_zero_left n S w i Hlt HS Hiti Hne) as (k & ks & Hlk & Hk & Hit' & Hl').
      rewrite (surjective_pairing (non_zero _ _ _)) Hk Hl -Hlb Hlk.
      iApply ("HΦ" with "[//]"). iExists ws. by iFrame.
  - wp_pures. replace (Z.to_nat (CK_BITMAP_BLOCKS n - i)) with 0%nat in Hl by lia. rewrite Hl.
    iApply ("HΦ" with "[%]"); [|iExists ws; by iFrame].
    assert (left S (CkBitmapIterator 0 i (CK_BITMAP_BLOCKS n)) = []) as Hl'.
    { rewrite /left; cbn [cache n_block n_limit]. by replace (Z.to_nat (CK_BITMAP_BLOCKS n - i - 1)) with 0%nat by lia. }
    split; [|done]. split; [done|]. split; [simpl; lia|]. split; [done|].
    intros k. rewrite Hl'. by intros ?%elem_of_nil.
Qed.
End spec.
