(* ===== verification/BitmapTheorems.v ===== *)
(** [ck_bitmap] refines finite sets of bit numbers: histories of operations on a
    bitmap and a second one it is combined with. *)

From S2P Require Export BitmapScan.
Set Warnings "-rewrite-rw".

(** * Clients *)

(** [ck_bitmap_iterator_init(&it, b); while (ck_bitmap_next(b, &it, &bit)) ...],
    collecting the bits. *)
Definition elements_loop (b : Z) (s : ck_bitmap_iterator * list Z)
    : prog (ck_bitmap_iterator * list Z + list Z) :=
  letp (bit, it) := ck_bitmap_next b (fst s) ;;
  match bit with
  | Some k => continue (it, snd s ++ [k])
  | None => break (snd s)
  end.

Definition bitmap_elements (b : Z) : prog (list Z) :=
  it <- ck_bitmap_iterator_init b ;; Iter (elements_loop b) (it, []).

Fixpoint set_all (b : Z) (ks : list Z) : prog unit :=
  match ks with
  | [] => Ret tt
  | k :: ks => ck_bitmap_set b k ;; set_all b ks
  end.

(** The operations on [dst], with [src] as the second argument where there is one. *)
Inductive command :=
| CSet (k : Z) | CReset (k : Z) | CBts (k : Z) | CTest (k : Z)
| CClear | CEmpty (limit : Z) | CFull (limit : Z)
| CCount (limit : Z) | CCountIntersect (limit : Z)
| CUnion | CIntersection | CNegate | CElements | CBits.

Inductive answer := ADone | ABool (b : bool) | AInt (z : Z) | ABits (l : list Z).

Definition run_command (dst src : Z) (c : command) : prog answer :=
  match c with
  | CSet k => ck_bitmap_set dst k ;; Ret ADone
  | CReset k => ck_bitmap_reset dst k ;; Ret ADone
  | CBts k => b <- ck_bitmap_bts dst k ;; Ret (ABool b)
  | CTest k => b <- ck_bitmap_test dst k ;; Ret (ABool b)
  | CClear => ck_bitmap_clear dst ;; Ret ADone
  | CEmpty limit => b <- ck_bitmap_empty dst limit ;; Ret (ABool b)
  | CFull limit => b <- ck_bitmap_full dst limit ;; Ret (ABool b)
  | CCount limit => z <- ck_bitmap_count dst limit ;; Ret (AInt z)
  | CCountIntersect limit => z <- ck_bitmap_count_intersect dst src limit ;; Ret (AInt z)
  | CUnion => ck_bitmap_union dst src ;; Ret ADone
  | CIntersection => ck_bitmap_intersection dst src ;; Ret ADone
  | CNegate => ck_bitmap_intersection_negate dst src ;; Ret ADone
  | CElements => l <- bitmap_elements dst ;; Ret (ABits l)
  | CBits => z <- ck_bitmap_bits dst ;; Ret (AInt z)
  end.

Fixpoint run_commands (dst src : Z) (cs : list command) : prog (list answer) :=
  match cs with
  | [] => Ret []
  | c :: cs => a <- run_command dst src c ;; l <- run_commands dst src cs ;; Ret (a :: l)
  end.

(** * The specification: a set [S] of numbers below [n], combined with [T] *)

Definition spec_command (n m : Z) (T : gset Z) (c : command) (S : gset Z) : answer * gset Z :=
  match c with
  | CSet k => (ADone, {[k]} ∪ S)
  | CReset k => (ADone, S ∖ {[k]})
  | CBts k => (ABool (mem_bit S k), {[k]} ∪ S)
  | CTest k => (ABool (mem_bit S k), S)
  | CClear => (ADone, ∅)
  | CEmpty limit => (ABool (bool_decide (below S (Z.min limit n) = [])), S)
  | CFull limit =>
      (ABool (bool_decide (length (below S (Z.min limit n)) = Z.to_nat (Z.min limit n))), S)
  | CCount limit => (AInt (Z.of_nat (length (below S (Z.min limit n)))), S)
  | CCountIntersect limit =>
      (AInt (Z.of_nat (length (below (S ∩ T) (Z.min (Z.min limit n) m)))), S)
  | CUnion => (ADone, S ∪ T)
  | CIntersection => (ADone, S ∩ T)
  | CNegate => (ADone, S ∖ T)
  | CElements => (ABits (below S n), S)
  | CBits => (AInt n, S)
  end.

Fixpoint spec_commands (n m : Z) (T : gset Z) (cs : list command) (S : gset Z) : list answer :=
  match cs with
  | [] => []
  | c :: cs =>
      let r := spec_command n m T c S in r.1 :: spec_commands n m T cs r.2
  end.

(** Bit numbers are below [n]; a union does not take from a longer bitmap. *)
Definition valid (n m : Z) (c : command) : Prop :=
  match c with
  | CSet k | CReset k | CBts k | CTest k => 0 <= k < n
  | CEmpty limit | CFull limit | CCount limit | CCountIntersect limit => 0 <= limit
  | CUnion => m <= n
  | _ => True
  end.

(** Both bitmaps are initialised over any contents, [src] gets the bits [ks]. *)
Definition history (dst src n m : Z) (b c : bool) (ks : list Z) (cs : list command)
    : prog (list answer) :=
  ck_bitmap_init dst n b ;; ck_bitmap_init src m c ;; set_all src ks ;; run_commands dst src cs.

Definition initial (n : Z) (b : bool) : gset Z := if b then all_bits n else ∅.

Section proofs.
Context `{!ckGS_gen hlc Σ}.

Lemma is_bitmap_bounds b n S : is_bitmap b n S -∗ ⌜∀ k, k ∈ S -> 0 <= k < n⌝.
Proof. iIntros "(%ws & %HR & _)". iPureIntro. by eapply reps_members. Qed.

Lemma twp_elements b n S (Φ : list Z -> iProp Σ) :
  is_bitmap b n S -∗ (is_bitmap b n S -∗ Φ (below S n)) -∗ WP bitmap_elements b [{ Φ }].
Proof.
  iIntros "Hb HΦ". rewrite /bitmap_elements. wp_focus.
  iApply (twp_iterator_init with "Hb"). iIntros (it [Hit Hl]) "Hb".
  iApply (twp_loop_inv (λ s, length (left S s.1))
    (λ s, ⌜iterating n S s.1⌝ ∗ ⌜s.2 ++ left S s.1 = below S n⌝ ∗ is_bitmap b n S ∗
          (is_bitmap b n S -∗ Φ (below S n)))%I with "[$Hb $HΦ]").
  { by rewrite /= Hl. }
  iIntros "!>" ([it' acc]) "(%Hit' & %Hacc & Hb & HΦ)". cbn [fst snd] in *.
  rewrite /elements_loop. wp_focus. iApply (twp_bitmap_next with "Hb"); [done|].
  iIntros (it'' [Hit'' Hl'']) "Hb". cbn [fst snd]. destruct (left S it') as [|k ks] eqn:Hleft; simpl.
  - wp_pures. rewrite -Hacc app_nil_r. by iApply "HΦ".
  - wp_pures. iFrame. iPureIntro. cbn [fst snd]. rewrite Hl'' ?Hleft /=. split; [lia|]. split; [done|].
    by rewrite -Hacc -app_assoc.
Qed.

Lemma twp_command dst src n m S T c (Φ : answer -> iProp Σ) :
  valid n m c ->
  is_bitmap dst n S -∗ is_bitmap src m T -∗
  (is_bitmap dst n (spec_command n m T c S).2 -∗ is_bitmap src m T -∗
     Φ (spec_command n m T c S).1) -∗
  WP run_command dst src c [{ Φ }].
Proof.
  iIntros (Hv) "Hd Hs HΦ". iDestruct (is_bitmap_bounds with "Hd") as %HS.
  destruct c; simpl in Hv |- *; wp_focus.
  - iApply (twp_bitmap_set with "Hd"); [done|done|]. iIntros "Hd". wp_pures. iApply ("HΦ" with "Hd Hs").
  - iApply (twp_bitmap_reset with "Hd"); [done|done|]. iIntros "Hd". wp_pures. iApply ("HΦ" with "Hd Hs").
  - iApply (twp_bitmap_bts with "Hd"); [done|done|]. iIntros "Hd". wp_pures. iApply ("HΦ" with "Hd Hs").
  - iApply (twp_bitmap_test with "Hd"); [done|]. iIntros "Hd". wp_pures. iApply ("HΦ" with "Hd Hs").
  - iApply (twp_bitmap_clear with "Hd"). iIntros "Hd". wp_pures. iApply ("HΦ" with "Hd Hs").
  - iApply (twp_bitmap_empty with "Hd"); [done|]. iIntros "Hd". wp_pures. iApply ("HΦ" with "Hd Hs").
  - iApply (twp_bitmap_full with "Hd"); [done|]. iIntros "Hd". wp_pures. iApply ("HΦ" with "Hd Hs").
  - iApply (twp_bitmap_count with "Hd"); [done|]. iIntros "Hd". wp_pures. iApply ("HΦ" with "Hd Hs").
  - iApply (twp_bitmap_count_intersect with "Hd Hs"); [done|]. iIntros "Hd Hs". wp_pures.
    iApply ("HΦ" with "Hd Hs").
  - iApply (twp_bitmap_union with "Hd Hs"); [done|]. iIntros "Hd Hs". wp_pures. iApply ("HΦ" with "Hd Hs").
  - iApply (twp_bitmap_intersection with "Hd Hs"). iIntros "Hd Hs". wp_pures. iApply ("HΦ" with "Hd Hs").
  - iApply (twp_bitmap_negate with "Hd Hs"). iIntros "Hd Hs". wp_pures. iApply ("HΦ" with "Hd Hs").
  - iApply (twp_elements with "Hd"). iIntros "Hd". wp_pures. iApply ("HΦ" with "Hd Hs").
  - iDestruct "Hd" as (ws) "(%HR & Hn & Ha)". wp_load "Hn". wp_pures.
    iApply ("HΦ" with "[Hn Ha] Hs"). iExists ws. by iFrame.
Qed.

Lemma twp_commands dst src n m T cs S :
  Forall (valid n m) cs ->
  is_bitmap dst n S -∗ is_bitmap src m T -∗
  WP run_commands dst src cs [{ l, ⌜l = spec_commands n m T cs S⌝ }].
Proof.
  iIntros (Hv) "Hd Hs". iInduction cs as [|c cs] "IH" forall (S); simpl.
  { by wp_pures. }
  apply Forall_cons in Hv as [Hc Hv]. wp_focus.
  iApply (twp_command with "Hd Hs"); [done|]. iIntros "Hd Hs".
  wp_focus. iApply (twp_wand (Λ:=ck_lang (list answer)) with "[Hd Hs]").
  { by iApply ("IH" with "[//] Hd Hs"). }
  iIntros (l ->). by wp_pures.
Qed.

Lemma twp_set_all b n ks S (Φ : unit -> iProp Σ) :
  Forall (fun k => 0 <= k < n) ks ->
  is_bitmap b n S -∗ (is_bitmap b n (list_to_set ks ∪ S) -∗ Φ tt) -∗ WP set_all b ks [{ Φ }].
Proof.
  iIntros (Hks) "Hb HΦ". iInduction ks as [|k ks] "IH" forall (S); simpl.
  { wp_pures. iApply "HΦ". by rewrite left_id_L. }
  apply Forall_cons in Hks as [Hk Hks]. wp_focus. iDestruct (is_bitmap_bounds with "Hb") as %HS.
  iApply (twp_bitmap_set with "Hb"); [done|done|]. iIntros "Hb".
  iApply ("IH" with "[//] Hb"). iIntros "Hb". iApply "HΦ".
  by replace ({[k]} ∪ list_to_set ks ∪ S) with (list_to_set ks ∪ ({[k]} ∪ S)) by set_solver.
Qed.

Lemma twp_history dst src n m b c ks cs x y ws us :
  0 <= n < 4294967296 -> 0 <= m < 4294967296 ->
  Z.of_nat (length ws) = CK_BITMAP_BLOCKS n -> Z.of_nat (length us) = CK_BITMAP_BLOCKS m ->
  Forall (fun k => 0 <= k < m) ks -> Forall (valid n m) cs ->
  array dst (DfracOwn 1) (x :: ws) -∗ array src (DfracOwn 1) (y :: us) -∗
  WP history dst src n m b c ks cs
    [{ l, ⌜l = spec_commands n m (list_to_set ks ∪ initial m c) cs (initial n b)⌝ }].
Proof.
  iIntros (Hn Hm Hw Hu Hks Hcs) "Hd Hs". rewrite /history.
  iAssert (∀ b x ws, array b (DfracOwn 1) (x :: ws) -∗ n_bits b ↦ x ∗ array (map b) (DfracOwn 1) ws)%I
    as "Hsplit".
  { iIntros (a v vs) "H". rewrite /array big_sepL_cons Z.add_0_r. iDestruct "H" as "[$ H]".
    iApply (big_sepL_impl with "H"). iIntros "!>" (i w _) "H". rewrite /map.
    by replace (a + Z.of_nat (Datatypes.S i)) with (a + 1 + Z.of_nat i) by lia. }
  iDestruct ("Hsplit" with "Hd") as "[Hn Hd]". iDestruct ("Hsplit" with "Hs") as "[Hm Hs]".
  wp_focus. iApply (twp_bitmap_init with "Hn Hd"); [done|done|]. iIntros "Hd". wp_focus.
  iApply (twp_bitmap_init with "Hm Hs"); [done|done|]. iIntros "Hs". wp_focus.
  iApply (twp_set_all with "Hs"); [done|]. iIntros "Hs".
  by iApply (twp_commands with "Hd Hs").
Qed.
End proofs.

(** C19. A bitmap is a finite set of bit numbers: initialise two bitmaps over
    any memory, set some bits of the second one, and run any sequence of
    operations on the first.  The program terminates without a fault, and every
    answer (tests, old bits, emptiness, fullness and counts up to a limit, the
    bits the iterator reports, in order) is that of the same operations on
    finite sets.  A union must not take from a longer bitmap. *)
Theorem bitmap_refines_set dst src n m b c ks cs x y ws us :
  0 <= n < 4294967296 -> 0 <= m < 4294967296 ->
  Z.of_nat (length ws) = CK_BITMAP_BLOCKS n -> Z.of_nat (length us) = CK_BITMAP_BLOCKS m ->
  dst + Z.of_nat (length (x :: ws)) <= src \/ src + Z.of_nat (length (y :: us)) <= dst ->
  Forall (fun k => 0 <= k < m) ks -> Forall (valid n m) cs ->
  exists fuel σ',
    run fuel (history dst src n m b c ks cs) (array_mem dst (x :: ws) ∪ array_mem src (y :: us)) =
      Done (spec_commands n m (list_to_set ks ∪ initial m c) cs (initial n b)) σ'.
Proof.
  intros Hn Hm Hw Hu Hd Hks Hcs.
  destruct (ck_total_adequacy ckΣ (history dst src n m b c ks cs)
    (array_mem dst (x :: ws) ∪ array_mem src (y :: us))
    (fun l _ => l = spec_commands n m (list_to_set ks ∪ initial m c) cs (initial n b)))
    as (fuel & l & σ' & mm & Hrun & _ & ->).
  - iIntros (hlc ?) "H". rewrite big_sepM_union; [|by apply array_mem_disjoint].
    rewrite !array_of_mem. iDestruct "H" as "[Hd Hs]".
    iApply (twp_wand (Λ:=ck_lang (list answer)) with "[Hd Hs]").
    { by iApply (twp_history with "Hd Hs"). }
    iIntros (l) "%Hl". iExists ∅. rewrite big_sepM_empty. iSplit; done.
  - by exists fuel, σ'.
Qed.

Lemma bitmap_refines_set_witness :
  spec_commands 40 35 (list_to_set [3; 34] ∪ initial 35 false)
      [CSet 7; CSet 39; CBts 7; CUnion; CElements; CCount 38; CNegate; CFull 0; CElements]
      (initial 40 false) =
    [ADone; ADone; ABool true; ADone; ABits [3; 7; 34; 39]; AInt 3; ADone; ABool true; ABits [7; 39]] /\
  exists fuel σ',
    run fuel (history 1 10 40 35 false false [3; 34]
      [CSet 7; CSet 39; CBts 7; CUnion; CElements; CCount 38; CNegate; CFull 0; CElements])
      (array_mem 1 [0; 5; 5] ∪ array_mem 10 [0; 6; 6]) =
      Done [ADone; ADone; ABool true; ADone; ABits [3; 7; 34; 39]; AInt 3; ADone; ABool true; ABits [7; 39]] σ'.
Proof.
  assert (spec_commands 40 35 (list_to_set [3; 34] ∪ initial 35 false)
      [CSet 7; CSet 39; CBts 7; CUnion; CElements; CCount 38; CNegate; CFull 0; CElements]
      (initial 40 false) =
    [ADone; ADone; ABool true; ADone; ABits [3; 7; 34; 39]; AInt 3; ADone; ABool true; ABits [7; 39]])
    as H by (vm_compute; reflexivity).
  split; [exact H|]. rewrite <- H.
  apply (bitmap_refines_set 1 10 40 35 false false [3; 34]
    [CSet 7; CSet 39; CBts 7; CUnion; CElements; CCount 38; CNegate; CFull 0; CElements]
    0 0 [5; 5] [6; 6]); [lia|lia|reflexivity|reflexivity|left; simpl; lia| |].
  - repeat constructor; lia.
  - repeat constructor; simpl; lia.
Defined.

(** A union from a longer bitmap carries bits beyond the end of the shorter
    one into its last word, and the iterator reports them: a bitmap of 4 bits
    answers bit 6 when iterated, although a count of all its bits is 0. *)
Theorem bitmap_union_leaks :
  exists σ',
    run 300 (ck_bitmap_init 1 4 false ;; ck_bitmap_init 10 8 false ;; ck_bitmap_set 10 6 ;;
             ck_bitmap_union 1 10 ;;
             l <- bitmap_elements 1 ;; c <- ck_bitmap_count 1 (2 ^ 32 - 1) ;; Ret (l, c))
      (array_mem 1 [0; 0] ∪ array_mem 10 [0; 0]) = Done ([6], 0) σ'.
Proof. eexists. vm_compute. reflexivity. Qed.
