(* ===== verification/CkArray.v ===== *)
(** [ck_array.c] and [ck_array.h]: an array with one writer, whose changes reach
    readers when they are committed.  Vectors are kept in a store keyed by
    address, because a reader keeps iterating over the vector it started on. *)

From stdpp Require Import list gmap.
From S2P Require Export Internal.
Set Warnings "-rewrite-rw".

(** * Data *)

(** [struct _ck_array]; a value that was never stored is [None], reading it a
    fault. *)
Record vector := Vector { n_committed : Z; vlength : Z; values : list (option Z) }.

(** [struct ck_array], with the allocator's log, the vectors (also those handed
    to a deferred release) and the next address. *)
Record ck_array := CkArray {
  m : heap;
  vectors : gmap nat vector;
  next_vector : nat;
  active : option nat;
  n_entries : Z;
  transaction : option nat;
}.

Definition set_m (a : ck_array) (h : heap) : ck_array :=
  CkArray h (vectors a) (next_vector a) (active a) (n_entries a) (transaction a).
Definition set_active (a : ck_array) (id : option nat) : ck_array :=
  CkArray (m a) (vectors a) (next_vector a) id (n_entries a) (transaction a).
Definition set_n_entries (a : ck_array) (n : Z) : ck_array :=
  CkArray (m a) (vectors a) (next_vector a) (active a) n (transaction a).
Definition set_transaction (a : ck_array) (id : option nat) : ck_array :=
  CkArray (m a) (vectors a) (next_vector a) (active a) (n_entries a) id.
Definition store_vector (a : ck_array) (id : nat) (v : vector) : ck_array :=
  CkArray (m a) (<[id := v]> (vectors a)) (next_vector a) (active a) (n_entries a) (transaction a).

(** A new vector in the store. *)
Definition add_vector (a : ck_array) (v : vector) : nat * ck_array :=
  (next_vector a,
   CkArray (m a) (<[next_vector a := v]> (vectors a)) (S (next_vector a)) (active a) (n_entries a)
     (transaction a)).

Definition set_length (v : vector) (n : Z) : vector := Vector (n_committed v) n (values v).
Definition set_committed (v : vector) (n : Z) : vector := Vector n (vlength v) (values v).

Definition sizeof_ck_array : Z := 8.
(** [sizeof(struct _ck_array) + sizeof(void * ) * n] *)
Definition bytes (n : Z) : Z := sizeof_ck_array + 8 * n.

Definition load (v : vector) (i : Z) : option Z := mjoin (values v !! Z.to_nat i).
Definition store (v : vector) (i x : Z) : option vector :=
  _ ← values v !! Z.to_nat i;
  Some (Vector (n_committed v) (vlength v) (<[Z.to_nat i := Some x]> (values v))).

(** [target->values[array->n_entries++] = value] *)
Definition append (a : ck_array) (id : nat) (value : Z) : option ck_array :=
  v ← vectors a !! id;
  v ← store v (n_entries a) value;
  Some (set_n_entries (store_vector a id v) (u32 (n_entries a + 1))).

(** [for (i = 0; i < n; i++) if (v[i] == value) break;]: the index, if any; the
    outer option is a fault. *)
Fixpoint find_value (vs : list (option Z)) (n : nat) (i value : Z) {struct n} : option (option Z) :=
  match n with
  | O => Some None
  | S n =>
      match vs with
      | [] => None
      | v :: vs => x ← v; if x =? value then Some (Some i) else find_value vs n (i + 1) value
      end
  end.

(** [target->values[i] = target->values[--array->n_entries]] *)
Definition replace_by_last (a : ck_array) (id : nat) (i : Z) : option ck_array :=
  let a := set_n_entries a (u32 (n_entries a - 1)) in
  v ← vectors a !! id;
  x ← load v (n_entries a);
  v ← store v i x;
  Some (store_vector a id v).

Section ops.
Context (malloc_ok : heap -> Z -> bool).

Definition ck_array_create (a : ck_array) (length : Z) : option nat * ck_array :=
  let '(ok, h) := malloc malloc_ok (m a) (bytes length) in
  if negb ok then (None, set_m a h)
  else let '(id, a) := add_vector (set_m a h) (Vector 0 length (replicate (Z.to_nat length) None)) in
       (Some id, a).

(** [allocator->realloc(target, old, new, true)]: new memory with the old
    contents; the old memory is released after readers are done with it. *)
Definition realloc (a : ck_array) (id : nat) (old new : Z) : option (option nat * ck_array) :=
  v ← vectors a !! id;
  let '(ok, h) := malloc malloc_ok (m a) new in
  if negb ok then Some (None, set_m a h)
  else
    let v' := Vector (n_committed v) (vlength v)
                (resize (Z.to_nat ((new - sizeof_ck_array) / 8)) None (values v)) in
    let '(id', a) := add_vector (set_m a (free h old true)) v' in
    Some (Some id', a).

(** [allocator]: its address and whether [malloc], [realloc] and [free] are set. *)
Definition ck_array_init (h : heap) (allocator : bool * bool * bool) (length : Z)
    : option ck_array :=
  let '(has_malloc, has_realloc, has_free) := allocator in
  if negb has_realloc || negb has_malloc || negb has_free || (length =? 0) then None
  else
    let '(id, a) := ck_array_create (CkArray h ∅ 0 None 0 None) length in
    match id with
    | None => None
    | Some id => Some (set_transaction (set_active (set_n_entries a 0) (Some id)) None)
    end.

Definition ck_array_put (a : ck_array) (value : Z) : option (bool * ck_array) :=
  match transaction a with
  | None =>
      id ← active a;
      target ← vectors a !! id;
      if n_entries a =? vlength target then
        let size := u32 (Z.shiftl (vlength target) 1) in
        '(r, a) ← realloc a id (bytes (n_entries a)) (bytes size);
        match r with
        | None => Some (false, a)
        | Some id =>
            target ← vectors a !! id;
            let a := set_active (store_vector a id (set_length target size)) (Some id) in
            a ← append a id value; Some (true, a)
        end
      else a ← append a id value; Some (true, a)
  | Some id =>
      target ← vectors a !! id;
      if n_entries a =? vlength target then
        let size := u32 (Z.shiftl (vlength target) 1) in
        '(r, a) ← realloc a id (bytes (n_entries a)) (bytes size);
        match r with
        | None => Some (false, a)
        | Some id =>
            target ← vectors a !! id;
            let a := set_transaction (store_vector a id (set_length target size)) (Some id) in
            a ← append a id value; Some (true, a)
        end
      else a ← append a id value; Some (true, a)
  end.

Definition ck_array_put_unique (a : ck_array) (value : Z) : option (Z * ck_array) :=
  id ← match transaction a with Some id => Some id | None => active a end;
  v ← vectors a !! id;
  r ← find_value (values v) (Z.to_nat (n_entries a)) 0 value;
  match r with
  | Some _ => Some (1, a)
  | None => '(ok, a) ← ck_array_put a value; Some (- b2z (negb ok), a)
  end.

Definition ck_array_remove (a : ck_array) (value : Z) : option (bool * ck_array) :=
  match transaction a with
  | Some id =>
      target ← vectors a !! id;
      r ← find_value (values target) (Z.to_nat (n_entries a)) 0 value;
      match r with
      | Some i => a ← replace_by_last a id i; Some (true, a)
      | None => Some (false, a)
      end
  | None =>
      id ← active a;
      target ← vectors a !! id;
      r ← find_value (values target) (Z.to_nat (n_entries a)) 0 value;
      match r with
      | None => Some (false, a)
      | Some i =>
          if negb (n_committed target =? n_entries a) then
            a ← replace_by_last a id i; Some (true, a)
          else
            let '(r, a) := ck_array_create a (n_entries a) in
            match r with
            | None => Some (false, a)
            | Some id' =>
                old ← vectors a !! id;
                (* memcpy(target->values, array->active->values, ...) *)
                let v := Vector (n_entries a) (n_entries a)
                           (take (Z.to_nat (n_entries a)) (values old)) in
                a ← replace_by_last (store_vector a id' v) id' i;
                Some (true, set_transaction a (Some id'))
            end
      end
  end.

Definition ck_array_commit (a : ck_array) : option (bool * ck_array) :=
  match transaction a with
  | Some id =>
      v ← vectors a !! id;
      let a := store_vector a id (set_committed v (n_entries a)) in
      p ← active a;
      let a := set_active a (Some id) in
      old ← vectors a !! p;
      let a := set_m a (free (m a) (bytes (vlength old)) true) in
      Some (true, set_transaction a None)
  | None =>
      id ← active a;
      v ← vectors a !! id;
      Some (true, store_vector a id (set_committed v (n_entries a)))
  end.

Definition ck_array_deinit (a : ck_array) (defer : bool) : option ck_array :=
  id ← active a;
  v ← vectors a !! id;
  let a := set_m a (free (m a) (bytes (vlength v)) defer) in
  a ← match transaction a with
      | Some t => tv ← vectors a !! t; Some (set_m a (free (m a) (bytes (vlength tv)) defer))
      | None => Some a
      end;
  Some (set_active (set_transaction a None) None).
End ops.

(** * Readers *)

Definition ck_array_length (a : ck_array) : option Z :=
  id ← active a; v ← vectors a !! id; Some (n_committed v).

(** The vector and its length. *)
Definition ck_array_buffer (a : ck_array) : option (nat * Z) :=
  id ← active a; v ← vectors a !! id; Some (id, n_committed v).

Definition ck_array_initialized (a : ck_array) : bool := bool_decide (active a <> None).

(** The bound [_ck_array_length] reads from the snapshot. *)
Definition vector_length (a : ck_array) (snapshot : nat) : option Z :=
  v ← vectors a !! snapshot; Some (n_committed v).

(** The reads of an iteration over [snapshot] up to [limit], as they would go in
    state [a]. *)
Definition foreach_from (a : ck_array) (snapshot : nat) (limit : Z) : option (list Z) :=
  v ← vectors a !! snapshot;
  mapM (fun i => load v i) (seqZ 0 limit).

(** [CK_ARRAY_FOREACH], run without interruption. *)
Definition CK_ARRAY_FOREACH (a : ck_array) : option (list Z) :=
  snapshot ← active a;
  limit ← vector_length a snapshot;
  foreach_from a snapshot limit.
