(* ===== verification/CkArraySpec.v ===== *)
(** [ck_array] refines a pair of lists, the pending contents and the committed
    ones; the representation invariant and what every operation does to it. *)

From stdpp Require Import list gmap.
From S2P Require Export CkArray.
Set Warnings "-rewrite-rw".

(** * Lists *)

Fixpoint index_of (l : list Z) (x : Z) : option nat :=
  match l with
  | [] => None
  | y :: l => if y =? x then Some O else S <$> index_of l x
  end.

(** [l] with its last element overwritten at [i], still in full length. *)
Definition overwrite (i : nat) (l : list Z) : list Z :=
  match last l with Some x => <[i := x]> l | None => l end.

(** Removal of index [i]: the last element takes its place. *)
Definition swap_remove (i : nat) (l : list Z) : list Z := take (length l - 1) (overwrite i l).

Lemma index_of_lookup l x i : index_of l x = Some i -> l !! i = Some x.
Proof.
  revert i. induction l as [|y l IH]; intros i; [done|]. simpl.
  destruct (Z.eqb_spec y x) as [->|]; [intros [= <-]; done|].
  destruct (index_of l x) as [j|]; [|done]. intros [= <-]. by apply IH.
Qed.

Lemma index_of_lt l x i : index_of l x = Some i -> (i < length l)%nat.
Proof. intros H%index_of_lookup. by eapply lookup_lt_Some. Qed.

Lemma index_of_none l x : index_of l x = None <-> x ∉ l.
Proof.
  induction l as [|y l IH]; simpl; [by split; [intros _ ?%elem_of_nil|]|].
  destruct (Z.eqb_spec y x) as [->|Hne].
  - split; [done|]. intros H. destruct H. by left.
  - rewrite not_elem_of_cons fmap_None IH. naive_solver.
Qed.

Lemma last_Some_lookup (l : list Z) i y : l !! i = Some y -> ∃ x, last l = Some x.
Proof. intros H. apply last_is_Some. by intros ->. Qed.

Lemma overwrite_length i l : length (overwrite i l) = length l.
Proof. rewrite /overwrite. destruct (last l); [by rewrite length_insert|done]. Qed.

Lemma swap_remove_length i l : length (swap_remove i l) = (length l - 1)%nat.
Proof. rewrite /swap_remove length_take overwrite_length. lia. Qed.

(** The members after a removal, as a multiset. *)
Lemma swap_remove_perm l i x : l !! i = Some x -> x :: swap_remove i l ≡ₚ l.
Proof.
  intros Hi. destruct (last_Some_lookup l i x Hi) as [y Hy].
  rewrite /swap_remove /overwrite Hy.
  apply last_Some in Hy as [l' ->].
  rewrite length_app /=. replace (length l' + 1 - 1)%nat with (length l') by lia.
  destruct (decide (i = length l')) as [->|Hne].
  - rewrite lookup_app_r // Nat.sub_diag in Hi. simplify_eq/=.
    rewrite insert_app_r_alt // Nat.sub_diag /= take_app_length.
    by rewrite -Permutation_cons_append.
  - assert (i < length l')%nat as Hlt.
    { apply lookup_lt_Some in Hi. rewrite length_app /= in Hi. lia. }
    rewrite lookup_app_l // in Hi. rewrite insert_app_l // take_app_le ?length_insert //.
    rewrite take_ge ?length_insert //.
    rewrite -(Permutation_cons_append l' y).
    rewrite insert_take_drop // -{3}(take_drop_middle l' i x Hi).
    rewrite -!Permutation_middle. apply Permutation_swap.
Qed.

(** * Vectors *)

(** The first slots hold [l]. *)
Definition holds (v : vector) (l : list Z) : Prop := (Some <$> l) `prefix_of` values v.

Definition vec_ok (v : vector) : Prop :=
  length (values v) = Z.to_nat (vlength v) /\ 0 < vlength v < 2 ^ 31.

Lemma holds_length v l : holds v l -> (length l <= length (values v))%nat.
Proof. intros Hp%prefix_length. by rewrite length_fmap in Hp. Qed.

Lemma holds_load v l i x : holds v l -> l !! i = Some x -> load v (Z.of_nat i) = Some x.
Proof.
  intros Hp Hi. rewrite /load Nat2Z.id.
  by rewrite (prefix_lookup_Some _ _ i (Some x) _ Hp) // list_lookup_fmap Hi.
Qed.

Lemma holds_prefix v l l' : holds v l -> l' `prefix_of` l -> holds v l'.
Proof. rewrite /holds. intros H [k ->]. etrans; [|exact H]. rewrite fmap_app. by apply prefix_app_r. Qed.

Lemma holds_store v l x v' :
  holds v l -> store v (Z.of_nat (length l)) x = Some v' -> holds v' (l ++ [x]).
Proof.
  intros [r Hr]. rewrite /store Nat2Z.id. destruct (values v !! length l) as [o|] eqn:Ho; [|done].
  intros [= <-]. rewrite /holds /= Hr fmap_app.
  rewrite Hr lookup_app_r ?length_fmap // Nat.sub_diag in Ho. destruct r as [|o' r]; [done|].
  rewrite insert_app_r_alt ?length_fmap // Nat.sub_diag /=. exists r. by rewrite -app_assoc.
Qed.

(** Overwriting one of the slots. *)
Lemma holds_overwrite v l i x y v' :
  holds v l -> l !! i = Some y -> store v (Z.of_nat i) x = Some v' -> holds v' (<[i := x]> l).
Proof.
  intros [r Hr] Hi. rewrite /store Nat2Z.id.
  destruct (values v !! i) as [o|]; [|done]. intros [= <-]. exists r. simpl.
  rewrite Hr insert_app_l ?length_fmap; [by eapply lookup_lt_Some|]. by rewrite list_fmap_insert.
Qed.

Lemma store_ok v i x : (0 <= i < Z.of_nat (length (values v))) ->
  store v i x = Some (Vector (n_committed v) (vlength v) (<[Z.to_nat i := Some x]> (values v))).
Proof.
  intros Hi. rewrite /store. destruct (values v !! Z.to_nat i) eqn:H; [done|].
  apply lookup_ge_None in H. lia.
Qed.

Lemma store_shape v i x v' :
  store v i x = Some v' ->
  n_committed v' = n_committed v /\ vlength v' = vlength v /\ length (values v') = length (values v).
Proof.
  rewrite /store. destruct (values v !! Z.to_nat i); [|done]. intros [= <-]. by rewrite /= length_insert.
Qed.

Lemma store_keeps v i x v' l :
  store v i x = Some v' -> (Z.of_nat (length l) <= i) -> holds v l -> holds v' l.
Proof.
  rewrite /store. destruct (values v !! Z.to_nat i); [|done]. intros [= <-] Hi [r Hr].
  rewrite /holds /= Hr insert_app_r_alt ?length_fmap; [lia|]. by apply prefix_app_r.
Qed.

Lemma find_value_spec vs l i x :
  (Some <$> l) `prefix_of` vs ->
  find_value vs (length l) i x = Some ((fun j => i + Z.of_nat j) <$> index_of l x).
Proof.
  revert vs i. induction l as [|y l IH]; intros vs i [r Hr]; [done|]. simpl in Hr. subst vs. simpl.
  destruct (Z.eqb_spec y x); [by rewrite /= Z.add_0_r|].
  rewrite (IH _ (i + 1)); [by eexists|]. destruct (index_of l x); [|done].
  simpl. do 2 f_equal. lia.
Qed.

(** * The representation *)

Record abs := Abs { pend : list Z; com : list Z; tx : bool }.

(** The vector [id] is [v] and holds [l]. *)
Definition vec_at (a : ck_array) (id : nat) (v : vector) (l : list Z) : Prop :=
  vectors a !! id = Some v /\ vec_ok v /\ holds v l.

Definition wf (a : ck_array) (s : abs) : Prop :=
  (∀ id, is_Some (vectors a !! id) -> (id < next_vector a)%nat) /\
  n_entries a = Z.of_nat (length (pend s)) /\
  ∃ aid av, active a = Some aid /\ vec_at a aid av (com s) /\
    n_committed av = Z.of_nat (length (com s)) /\
    match transaction a with
    | None => tx s = false /\ holds av (pend s) /\ (length (com s) <= length (pend s))%nat /\
              outstanding (m a) = bytes (vlength av)
    | Some tid => tx s = true /\ tid <> aid /\ ∃ tv, vec_at a tid tv (pend s) /\
              outstanding (m a) = bytes (vlength av) + bytes (vlength tv)
    end.

Lemma wf_bound_entries v l : vec_ok v -> holds v l -> 0 <= Z.of_nat (length l) <= vlength v /\ vlength v < 2 ^ 31.
Proof. intros [Hl Hb] Hh%holds_length. lia. Qed.

Lemma u32_nat n : Z.of_nat n < 2 ^ 31 -> u32 (Z.of_nat n) = Z.of_nat n.
Proof. intros. apply u32_small. lia. Qed.

(** ** Appending *)

Lemma append_spec a id v l x :
  vec_at a id v l -> n_entries a = Z.of_nat (length l) -> Z.of_nat (length l) < vlength v ->
  ∃ v', append a id x = Some (set_n_entries (store_vector a id v') (Z.of_nat (length (l ++ [x])))) /\
    vec_ok v' /\ holds v' (l ++ [x]) /\ n_committed v' = n_committed v /\ vlength v' = vlength v /\
    (∀ l', (length l' <= length l)%nat -> holds v l' -> holds v' l').
Proof.
  intros (Hv & [Hlen Hb] & Hh) Hn Hlt. rewrite /append Hv /= Hn.
  pose proof (store_ok v (Z.of_nat (length l)) x ltac:(lia)) as Hs.
  destruct (store_shape _ _ _ _ Hs) as (H1 & H2 & H3).
  pose proof (holds_store v l x _ Hh Hs) as Hh'. rewrite Hs /=.
  eexists. split; [|split; [|split; [exact Hh'|split; [done|split; [done|]]]]].
  - do 2 f_equal. rewrite length_app /= u32_small; lia.
  - split; [by rewrite H3 Hlen H2|]. simpl. lia.
  - intros l' Hl'. apply (store_keeps _ _ _ _ _ Hs). lia.
Qed.

(** ** Removing *)

Lemma replace_by_last_spec a id v l i x :
  vec_at a id v l -> n_entries a = Z.of_nat (length l) -> l !! i = Some x ->
  ∃ v', replace_by_last a id (Z.of_nat i) =
      Some (store_vector (set_n_entries a (Z.of_nat (length (swap_remove i l)))) id v') /\
    vec_ok v' /\ holds v' (overwrite i l) /\ n_committed v' = n_committed v /\ vlength v' = vlength v.
Proof.
  intros (Hv & [Hlen Hb] & Hh) Hn Hi. pose proof (lookup_lt_Some _ _ _ Hi) as Hlt.
  pose proof (holds_length _ _ Hh) as Hhl.
  destruct (last_Some_lookup l i x Hi) as [y Hy].
  assert (l !! (length l - 1)%nat = Some y) as Hlast.
  { rewrite last_lookup in Hy. by replace (length l - 1)%nat with (Nat.pred (length l)) by lia. }
  rewrite /replace_by_last /= Hv /= Hn u32_small; [lia|].
  replace (Z.of_nat (length l) - 1) with (Z.of_nat (length l - 1)) by lia.
  rewrite (holds_load v l _ y Hh Hlast) /=.
  pose proof (store_ok v (Z.of_nat i) y ltac:(lia)) as Hs.
  destruct (store_shape _ _ _ _ Hs) as (H1 & H2 & H3).
  pose proof (holds_overwrite v l i y x _ Hh Hi Hs) as Hh'. rewrite Hs /=.
  eexists. split; [|split; [|split; [|split; done]]].
  - by rewrite swap_remove_length.
  - split; [by rewrite H3 Hlen H2|]. simpl. lia.
  - rewrite /overwrite Hy. exact Hh'.
Qed.

Lemma overwrite_swap_remove v l i : holds v (overwrite i l) -> holds v (swap_remove i l).
Proof. intros H. eapply holds_prefix; [exact H|]. rewrite /swap_remove. apply prefix_take. Qed.

(** * Allocation *)

Section alloc.
Context (malloc_ok : heap -> Z -> bool) (Hlim : malloc_limited malloc_ok).

Lemma malloc_cases h size :
  (malloc malloc_ok h size = (false, Malloc size false :: h)) \/
  (malloc malloc_ok h size = (true, Malloc size true :: h) /\ size < 2 ^ 34).
Proof using Hlim.
  rewrite /malloc. destruct (malloc_ok h size) eqn:Hok; [right|by left]. split; [done|].
  destruct (Z.lt_ge_cases size (2 ^ 34)); [done|]. by rewrite (Hlim h size) in Hok.
Qed.

Lemma create_spec a n :
  0 < n ->
  (ck_array_create malloc_ok a n = (None, set_m a (Malloc (bytes n) false :: m a))) \/
  (n < 2 ^ 31 /\ ck_array_create malloc_ok a n =
     (Some (next_vector a),
      CkArray (Malloc (bytes n) true :: m a)
        (<[next_vector a := Vector 0 n (replicate (Z.to_nat n) None)]> (vectors a))
        (S (next_vector a)) (active a) (n_entries a) (transaction a))).
Proof using Hlim.
  intros Hn. rewrite /ck_array_create.
  destruct (malloc_cases (m a) (bytes n)) as [-> | [-> Hb]]; [by left|right].
  rewrite /bytes /sizeof_ck_array in Hb. split; [lia|done].
Qed.

(** Doubling a full vector. *)
Lemma grow_spec a id v l :
  vec_at a id v l -> Z.of_nat (length l) = vlength v ->
  let size := u32 (Z.shiftl (vlength v) 1) in
  let r := realloc malloc_ok a id (bytes (vlength v)) (bytes size) in
  r = Some (None, set_m a (Malloc (bytes size) false :: m a)) \/
  ∃ v1,
    r = Some (Some (next_vector a),
      CkArray (Free (bytes (vlength v)) true :: Malloc (bytes size) true :: m a)
        (<[next_vector a := v1]> (vectors a)) (S (next_vector a)) (active a) (n_entries a)
        (transaction a)) /\
    vec_ok (set_length v1 size) /\ vlength v < size /\ n_committed v1 = n_committed v /\
    (∀ l', holds v l' -> holds v1 l').
Proof using Hlim.
  intros (Hv & [Hlen Hb] & Hh) Hl. cbv zeta.
  assert (u32 (Z.shiftl (vlength v) 1) = 2 * vlength v) as ->.
  { rewrite Z.shiftl_mul_pow2; [lia|]. rewrite u32_small; lia. }
  rewrite /realloc Hv. cbn [mbind option_bind].
  destruct (malloc_cases (m a) (bytes (2 * vlength v))) as [-> | [-> Hb']]; [by left|right].
  rewrite /bytes /sizeof_ck_array in Hb'. cbn [negb].
  replace ((bytes (2 * vlength v) - sizeof_ck_array) `div` 8) with (2 * vlength v)
    by (rewrite /bytes /sizeof_ck_array; Z.to_euclidean_division_equations; lia).
  assert (resize (Z.to_nat (2 * vlength v)) None (values v) =
          values v ++ replicate (Z.to_nat (vlength v)) None) as Hres.
  { rewrite resize_spec take_ge; [lia|]. do 2 f_equal. lia. }
  eexists. split; [done|]. rewrite Hres.
  split; [split; cbn [values vlength set_length]; [rewrite length_app length_replicate; lia|lia]|].
  split; [lia|]. split; [done|]. intros l' Hl'. rewrite /holds. by apply prefix_app_r.
Qed.

(** * The operations *)

(** A reader's view: the vector it is on, and what it reads there. *)
Definition snap (a : ck_array) (s : abs) (id : nat) (l : list Z) : Prop :=
  (∃ v, vectors a !! id = Some v /\ holds v l) /\ (id < next_vector a)%nat /\
  transaction a <> Some id /\ (active a = Some id -> (length l <= length (com s))%nat).

Definition keeps (a : ck_array) (s : abs) (a' : ck_array) (s' : abs) : Prop :=
  ∀ id l, snap a s id l -> snap a' s' id l.

Lemma snap_failed a s h : keeps a s (set_m a h) s.
Proof. by intros id l. Qed.

Lemma wf_failed a s size : wf a s -> wf (set_m a (Malloc size false :: m a)) s.
Proof.
  intros (Hids & Hn & aid & av & Ha & Hat & Hc & Ht).
  split; [done|]. split; [done|]. exists aid, av. split; [done|]. split; [done|]. split; [done|].
  simpl. by destruct (transaction a).
Qed.

Lemma failed_refused a size : alloc_failed (m (set_m a (Malloc size false :: m a))).
Proof. by eexists _, _. Qed.

Definition put_result (a : ck_array) (s : abs) (x : Z) (ok : bool) (a' : ck_array) : Prop :=
  if ok then wf a' (Abs (pend s ++ [x]) (com s) (tx s)) /\
             keeps a s a' (Abs (pend s ++ [x]) (com s) (tx s))
  else wf a' s /\ keeps a s a' s /\ alloc_failed (m a').

Lemma put_active a s x :
  wf a s -> transaction a = None ->
  ∃ ok a', ck_array_put malloc_ok a x = Some (ok, a') /\ put_result a s x ok a'.
Proof using Hlim.
  intros Hwf Ht. pose proof Hwf as (Hids & Hn & aid & av & Ha & Hat & Hc & Htr).
  rewrite Ht in Htr. destruct Htr as (Htx & Hpend & Hle & Hout).
  assert (vec_at a aid av (pend s)) as Hatp by (destruct Hat as (? & ? & _); done).
  destruct (wf_bound_entries av (pend s)) as [Hle' Hmax]; [apply Hat|done|].
  rewrite /ck_array_put Ht Ha /= (proj1 Hat) /=. rewrite Hn.
  destruct (Z.eqb_spec (Z.of_nat (length (pend s))) (vlength av)) as [Hfull|Hroom].
  - rewrite Hfull.
    destruct (grow_spec a aid av (pend s) Hatp Hfull) as [-> | (v1 & -> & Hok & Hsz & Hc1 & Hkeep)].
    { simpl. eexists false, _. split; [done|]. split; [by apply wf_failed|]. split; [apply snap_failed|].
      apply failed_refused. }
    simpl. rewrite lookup_insert_eq /= /set_active /store_vector /=. rewrite insert_insert_eq.
    set (size := u32 _) in *. set (a1 := CkArray _ _ _ _ _ _).
    destruct (append_spec a1 (next_vector a) (set_length v1 size) (pend s) x) as
      (v2 & -> & Hok2 & Hh2 & Hc2 & Hl2 & Hkeep2).
    { split; [apply lookup_insert_eq|]. split; [done|]. by apply Hkeep. }
    { done. } { simpl. lia. }
    subst a1. simpl. eexists true, _. split; [done|]. split.
    + split; [|split; [done|]].
      { intros id. simpl. rewrite insert_insert_eq lookup_insert_is_Some. intros [->|[_ H]]; [lia|].
        apply Hids in H. lia. }
      exists (next_vector a), v2. split; [done|]. simpl. rewrite Ht.
      split; [|split; [by rewrite Hc2 /= Hc1|]].
      { split; [apply lookup_insert_eq|]. split; [done|]. apply Hkeep2; [done|]. apply Hkeep, Hat. }
      split; [done|]. split; [done|]. split; [rewrite length_app; lia|]. rewrite Hout Hl2 /=. lia.
    + intros id l ((v & Hv & Hh) & Hlt & Htn & Hact). split; [|split; [simpl; lia|split; [by rewrite /= Ht|]]].
      * exists v. simpl. rewrite !lookup_insert_ne; [lia|lia|]. done.
      * simpl. intros [= <-]. lia.
  - destruct (append_spec a aid av (pend s) x Hatp Hn ltac:(lia)) as
      (v2 & -> & Hok2 & Hh2 & Hc2 & Hl2 & Hkeep2).
    simpl. eexists true, _. split; [done|]. split.
    + split; [|split; [done|]].
      { intros id. simpl. rewrite lookup_insert_is_Some. intros [<-|[_ H]]; [|by apply Hids].
        apply Hids. by rewrite (proj1 Hat). }
      exists aid, v2. split; [done|]. simpl. rewrite Ht. split; [|split; [by rewrite Hc2|]].
      { split; [apply lookup_insert_eq|]. split; [done|]. apply Hkeep2; [done|apply Hat]. }
      split; [done|]. split; [done|]. split; [rewrite length_app; lia|]. by rewrite Hout Hl2.
    + intros id l ((v & Hv & Hh) & Hlt & Htn & Hact). split; [|done]. simpl.
      destruct (decide (id = aid)) as [->|Hne].
      * exists v2. split; [apply lookup_insert_eq|]. rewrite (proj1 Hat) in Hv. simplify_eq.
        apply Hkeep2; [|done]. specialize (Hact Ha). lia.
      * exists v. by rewrite lookup_insert_ne.
Qed.

Lemma put_transaction a s x tid :
  wf a s -> transaction a = Some tid ->
  ∃ ok a', ck_array_put malloc_ok a x = Some (ok, a') /\ put_result a s x ok a'.
Proof using Hlim.
  intros Hwf Ht. pose proof Hwf as (Hids & Hn & aid & av & Ha & Hat & Hc & Htr).
  rewrite Ht in Htr. destruct Htr as (Htx & Hne & tv & Htv & Hout).
  destruct (wf_bound_entries tv (pend s)) as [Hle' Hmax]; [apply Htv|apply Htv|].
  assert (aid < next_vector a)%nat as Hlta by (apply Hids; by rewrite (proj1 Hat)).
  assert (tid < next_vector a)%nat as Hltt by (apply Hids; by rewrite (proj1 Htv)).
  rewrite /ck_array_put Ht (proj1 Htv). cbn [mbind option_bind]. rewrite Hn.
  destruct (Z.eqb_spec (Z.of_nat (length (pend s))) (vlength tv)) as [Hfull|Hroom].
  - rewrite Hfull.
    destruct (grow_spec a tid tv (pend s) Htv Hfull) as [-> | (v1 & -> & Hok & Hsz & Hc1 & Hkeep)].
    { simpl. eexists false, _. split; [done|]. split; [by apply wf_failed|]. split; [apply snap_failed|].
      apply failed_refused. }
    simpl. rewrite lookup_insert_eq /= /set_transaction /store_vector /=. rewrite insert_insert_eq.
    set (size := u32 _) in *. set (a1 := CkArray _ _ _ _ _ _).
    destruct (append_spec a1 (next_vector a) (set_length v1 size) (pend s) x) as
      (v2 & -> & Hok2 & Hh2 & Hc2 & Hl2 & Hkeep2).
    { split; [apply lookup_insert_eq|]. split; [done|]. apply Hkeep, Htv. }
    { done. } { simpl. lia. }
    subst a1. simpl. eexists true, _. split; [done|]. split.
    + split; [|split; [done|]].
      { intros id. simpl. rewrite insert_insert_eq lookup_insert_is_Some. intros [->|[_ H]]; [lia|].
        apply Hids in H. lia. }
      exists aid, av. split; [done|]. simpl. split; [|split; [done|]].
      { split; [|apply Hat]. simpl. rewrite !lookup_insert_ne; [lia|lia|apply Hat]. }
      split; [done|]. split; [lia|]. exists v2.
      split; [split; [apply lookup_insert_eq|done]|]. rewrite Hout Hl2 /=. lia.
    + intros id l ((v & Hv & Hh) & Hlt & Htn & Hact). split; [|split; [simpl; lia|split; [|done]]].
      * exists v. simpl. rewrite !lookup_insert_ne; [lia|lia|]. done.
      * simpl. intros [= <-]. lia.
  - destruct (append_spec a tid tv (pend s) x Htv Hn ltac:(lia)) as
      (v2 & -> & Hok2 & Hh2 & Hc2 & Hl2 & Hkeep2).
    simpl. eexists true, _. split; [done|]. split.
    + split; [|split; [done|]].
      { intros id. simpl. rewrite lookup_insert_is_Some. intros [<-|[_ H]]; [done|by apply Hids]. }
      exists aid, av. split; [done|]. simpl. rewrite Ht. split; [|split; [done|]].
      { split; [|apply Hat]. simpl. rewrite lookup_insert_ne; [done|apply Hat]. }
      split; [done|]. split; [done|]. exists v2.
      split; [split; [apply lookup_insert_eq|done]|]. by rewrite Hout Hl2.
    + intros id l ((v & Hv & Hh) & Hlt & Htn & Hact). split; [|done]. exists v. simpl.
      rewrite lookup_insert_ne; [congruence|done].
Qed.

Lemma put_spec a s x :
  wf a s -> ∃ ok a', ck_array_put malloc_ok a x = Some (ok, a') /\ put_result a s x ok a'.
Proof using Hlim.
  intros Hwf. destruct (transaction a) as [tid|] eqn:Ht; [by eapply put_transaction|by apply put_active].
Qed.

(** The vector the writer searches. *)
Lemma pending_vector a s :
  wf a s -> ∃ id v,
    (match transaction a with Some id => Some id | None => active a end) = Some id /\
    vec_at a id v (pend s).
Proof.
  intros (Hids & Hn & aid & av & Ha & Hat & Hc & Htr). destruct (transaction a) as [tid|].
  - destruct Htr as (_ & _ & tv & Htv & _). by exists tid, tv.
  - destruct Htr as (_ & Hp & _). exists aid, av. split; [done|]. split; [apply Hat|]. split; [apply Hat|done].
Qed.

Lemma put_unique_spec a s x :
  wf a s ->
  ∃ r a', ck_array_put_unique malloc_ok a x = Some (r, a') /\
    (x ∈ pend s /\ r = 1 /\ a' = a \/
     x ∉ pend s /\ ∃ ok, r = (if ok then 0 else -1) /\ put_result a s x ok a').
Proof using Hlim.
  intros Hwf. destruct (pending_vector a s Hwf) as (id & v & Hid & Hv & _ & Hh).
  rewrite /ck_array_put_unique Hid. cbn [mbind option_bind]. rewrite Hv. cbn [mbind option_bind].
  assert (Z.to_nat (n_entries a) = length (pend s)) as -> by (destruct Hwf as (_ & -> & _); lia).
  rewrite (find_value_spec _ _ 0 x Hh). cbn [mbind option_bind].
  destruct (index_of (pend s) x) as [i|] eqn:Hi; simpl.
  - exists 1, a. split; [done|]. left. split; [|done].
    by eapply list_elem_of_lookup_2, index_of_lookup.
  - destruct (put_spec a s x Hwf) as (ok & a' & -> & Hr). simpl.
    eexists _, a'. split; [done|]. right. split; [by apply index_of_none|]. exists ok.
    split; [by destruct ok|done].
Qed.

(** What a removal at index [i] leaves, and whether it was one the readers see. *)
Definition eliminates (s : abs) : bool := negb (tx s) && negb (length (com s) =? length (pend s))%nat.

Definition removed (s : abs) (i : nat) : abs :=
  if eliminates s
  then Abs (swap_remove i (pend s)) (take (length (com s)) (overwrite i (pend s))) false
  else Abs (swap_remove i (pend s)) (com s) true.

Lemma remove_transaction a s x tid i :
  wf a s -> transaction a = Some tid -> index_of (pend s) x = Some i ->
  ∃ a', ck_array_remove malloc_ok a x = Some (true, a') /\ wf a' (removed s i) /\
        keeps a s a' (removed s i).
Proof.
  intros Hwf Ht Hi. pose proof Hwf as (Hids & Hn & aid & av & Ha & Hat & Hc & Htr).
  rewrite Ht in Htr. destruct Htr as (Htx & Hne & tv & Htv & Hout).
  rewrite /removed /eliminates Htx /=.
  rewrite /ck_array_remove Ht (proj1 Htv). cbn [mbind option_bind].
  assert (Z.to_nat (n_entries a) = length (pend s)) as -> by lia.
  rewrite (find_value_spec _ _ 0 x); [apply Htv|]. rewrite Hi /= Z.add_0_l.
  destruct (replace_by_last_spec a tid tv (pend s) i x Htv Hn (index_of_lookup _ _ _ Hi))
    as (v' & -> & Hok & Hh & Hc' & Hl'). simpl.
  eexists. split; [done|]. split.
  - split; [|split; [done|]].
    { intros id. simpl. rewrite lookup_insert_is_Some. intros [<-|[_ H]]; apply Hids; [|done].
      by rewrite (proj1 Htv). }
    exists aid, av. split; [done|]. simpl. rewrite Ht. split; [|split; [done|]].
    { split; [|apply Hat]. simpl. rewrite lookup_insert_ne; [done|apply Hat]. }
    split; [done|]. split; [done|]. exists v'.
    split; [split; [apply lookup_insert_eq|split; [done|by apply overwrite_swap_remove]]|].
    by rewrite Hout Hl'.
  - intros id l ((v & Hv & Hh') & Hlt & Htn & Hact). split; [|done]. exists v. simpl.
    rewrite lookup_insert_ne; [congruence|done].
Qed.

Lemma remove_eliminating a s x i :
  wf a s -> transaction a = None -> index_of (pend s) x = Some i -> eliminates s = true ->
  ∃ a', ck_array_remove malloc_ok a x = Some (true, a') /\ wf a' (removed s i).
Proof.
  intros Hwf Ht Hi He. pose proof Hwf as (Hids & Hn & aid & av & Ha & Hat & Hc & Htr).
  rewrite Ht in Htr. destruct Htr as (Htx & Hpend & Hle & Hout).
  assert (vec_at a aid av (pend s)) as Hatp by (destruct Hat as (? & ? & _); done).
  rewrite /removed He. rewrite /eliminates Htx /= in He.
  destruct (Nat.eqb_spec (length (com s)) (length (pend s))) as [|Hne]; [done|]. clear He.
  rewrite /ck_array_remove Ht Ha. cbn [mbind option_bind]. rewrite (proj1 Hat). cbn [mbind option_bind].
  assert (Z.to_nat (n_entries a) = length (pend s)) as -> by lia.
  rewrite (find_value_spec _ _ 0 x Hpend) Hi. cbn [mbind option_bind fmap option_fmap option_map].
  rewrite Z.add_0_l Hc Hn. destruct (Z.eqb_spec (Z.of_nat (length (com s))) (Z.of_nat (length (pend s)))); [lia|].
  cbn [negb].
  destruct (replace_by_last_spec a aid av (pend s) i x Hatp Hn (index_of_lookup _ _ _ Hi))
    as (v' & -> & Hok & Hh & Hc' & Hl'). simpl.
  pose proof (overwrite_length i (pend s)). pose proof (index_of_lt _ _ _ Hi).
  eexists. split; [done|]. split; [|split; [done|]].
  { intros id. simpl. rewrite lookup_insert_is_Some. intros [<-|[_ H']]; apply Hids; [|done].
    by rewrite (proj1 Hat). }
  exists aid, v'. split; [done|]. simpl. rewrite Ht.
  assert (length (take (length (com s)) (overwrite i (pend s))) = length (com s)) as Hlen.
  { rewrite length_take. lia. }
  split; [|split; [by rewrite Hc' Hlen|]].
  { split; [apply lookup_insert_eq|]. split; [done|]. eapply holds_prefix; [exact Hh|apply prefix_take]. }
  split; [done|]. split; [by apply overwrite_swap_remove|].
  split; [rewrite Hlen swap_remove_length; lia|]. by rewrite Hout Hl'.
Qed.

Lemma remove_copying a s x i :
  wf a s -> transaction a = None -> index_of (pend s) x = Some i -> eliminates s = false ->
  ∃ ok a', ck_array_remove malloc_ok a x = Some (ok, a') /\
    if ok then wf a' (removed s i) /\ keeps a s a' (removed s i)
    else wf a' s /\ keeps a s a' s /\ alloc_failed (m a').
Proof using Hlim.
  intros Hwf Ht Hi He. pose proof Hwf as (Hids & Hn & aid & av & Ha & Hat & Hc & Htr).
  rewrite Ht in Htr. destruct Htr as (Htx & Hpend & Hle & Hout).
  rewrite /removed He. rewrite /eliminates Htx /= in He.
  destruct (Nat.eqb_spec (length (com s)) (length (pend s))) as [Heq|]; [|done]. clear He.
  pose proof (index_of_lt _ _ _ Hi) as Hlt.
  assert (aid < next_vector a)%nat as Hlta by (apply Hids; by rewrite (proj1 Hat)).
  rewrite /ck_array_remove Ht Ha. cbn [mbind option_bind]. rewrite (proj1 Hat). cbn [mbind option_bind].
  assert (Z.to_nat (n_entries a) = length (pend s)) as Hnn by lia. rewrite Hnn.
  rewrite (find_value_spec _ _ 0 x Hpend) Hi. cbn [mbind option_bind fmap option_fmap option_map].
  rewrite Z.add_0_l Hc Hn.
  destruct (Z.eqb_spec (Z.of_nat (length (com s))) (Z.of_nat (length (pend s)))); [|lia].
  cbn [negb].
  destruct (create_spec a (Z.of_nat (length (pend s))) ltac:(lia)) as [-> | [Hb ->]].
  { eexists false, _. split; [done|]. split; [by apply wf_failed|]. split; [apply snap_failed|].
    apply failed_refused. }
  cbn [vectors]. rewrite lookup_insert_ne; [lia|]. rewrite (proj1 Hat). cbn [mbind option_bind].
  rewrite Nat2Z.id. set (v0 := Vector _ _ (take _ _)). set (a1 := store_vector _ _ v0).
  pose proof (holds_length _ _ Hpend) as Hhl.
  assert (vec_at a1 (next_vector a) v0 (pend s)) as Hat1.
  { split; [apply lookup_insert_eq|]. split; [split; simpl; [rewrite length_take; lia|lia]|].
    rewrite /holds /=. destruct Hpend as [r ->]. by rewrite take_app_length' ?length_fmap. }
  destruct (replace_by_last_spec a1 (next_vector a) v0 (pend s) i x Hat1 Hn (index_of_lookup _ _ _ Hi))
    as (v' & -> & Hok & Hh & Hc' & Hl'). simpl.
  eexists true, _. split; [done|]. split.
  - split; [|split; [done|]].
    { intros id. simpl. rewrite !insert_insert_eq lookup_insert_is_Some. intros [<-|[_ H]]; [lia|].
      apply Hids in H. lia. }
    exists aid, av. split; [done|]. simpl. split; [|split; [done|]].
    { split; [|apply Hat]. simpl. rewrite !lookup_insert_ne; [lia|lia|lia|apply Hat]. }
    split; [done|]. split; [lia|]. exists v'.
    split; [split; [apply lookup_insert_eq|split; [done|by apply overwrite_swap_remove]]|].
    rewrite Hl' /= Hout Hn. lia.
  - intros id l ((v & Hv & Hh') & Hlti & Htn & Hact).
    split; [|split; [simpl; lia|split; [simpl; intros [= <-]; lia|done]]].
    exists v. simpl. rewrite !lookup_insert_ne; [lia|lia|lia|done].
Qed.

Lemma remove_spec a s x :
  wf a s ->
  ∃ ok a', ck_array_remove malloc_ok a x = Some (ok, a') /\
    match index_of (pend s) x with
    | None => ok = false /\ a' = a
    | Some i =>
        if ok then wf a' (removed s i) /\ (eliminates s = false -> keeps a s a' (removed s i))
        else wf a' s /\ keeps a s a' s /\ alloc_failed (m a')
    end.
Proof using Hlim.
  intros Hwf. destruct (index_of (pend s) x) as [i|] eqn:Hi.
  - destruct (transaction a) as [tid|] eqn:Ht.
    + destruct (remove_transaction a s x tid i Hwf Ht Hi) as (a' & Hr & Hwf' & Hk). by exists true, a'.
    + destruct (eliminates s) eqn:He.
      * destruct (remove_eliminating a s x i Hwf Ht Hi He) as (a' & Hr & Hwf'). by exists true, a'.
      * destruct (remove_copying a s x i Hwf Ht Hi He) as (ok & a' & Hr & H). exists ok, a'.
        split; [done|]. destruct ok; naive_solver.
  - exists false, a. split; [|done].
    destruct (pending_vector a s Hwf) as (id & v & Hid & Hv & _ & Hh).
    assert (Z.to_nat (n_entries a) = length (pend s)) as Hnn by (destruct Hwf as (_ & -> & _); lia).
    rewrite /ck_array_remove. destruct (transaction a) as [tid|].
    + simplify_eq. rewrite Hv. cbn [mbind option_bind].
      by rewrite Hnn (find_value_spec _ _ 0 x Hh) Hi.
    + rewrite Hid. cbn [mbind option_bind]. rewrite Hv. cbn [mbind option_bind].
      by rewrite Hnn (find_value_spec _ _ 0 x Hh) Hi.
Qed.

Lemma commit_spec a s :
  wf a s ->
  ∃ a', ck_array_commit a = Some (true, a') /\ wf a' (Abs (pend s) (pend s) false) /\
    keeps a s a' (Abs (pend s) (pend s) false).
Proof.
  intros (Hids & Hn & aid & av & Ha & Hat & Hc & Htr). rewrite /ck_array_commit.
  destruct (transaction a) as [tid|] eqn:Ht.
  - destruct Htr as (Htx & Hne & tv & Htv & Hout). rewrite (proj1 Htv) /= Ha /=.
    rewrite lookup_insert_ne // (proj1 Hat) /=. eexists. split; [done|]. split.
    + split; [|split; [done|]].
      { intros id. simpl. rewrite lookup_insert_is_Some. intros [<-|[_ H]]; apply Hids; [|done].
        by rewrite (proj1 Htv). }
      exists tid, (set_committed tv (n_entries a)). split; [done|]. simpl.
      split; [split; [apply lookup_insert_eq|apply Htv]|].
      split; [done|]. split; [done|]. split; [apply Htv|]. split; [done|]. lia.
    + intros id l ((v & Hv & Hh) & Hlt & Htn & Hact). split; [|split; [done|split; [done|]]].
      * exists v. simpl. rewrite lookup_insert_ne; [congruence|done].
      * simpl. intros [= ->]. congruence.
  - destruct Htr as (Htx & Hpend & Hle & Hout). rewrite Ha /= (proj1 Hat) /=.
    eexists. split; [done|]. split.
    + split; [|split; [done|]].
      { intros id. simpl. rewrite lookup_insert_is_Some. intros [<-|[_ H]]; apply Hids; [|done].
        by rewrite (proj1 Hat). }
      exists aid, (set_committed av (n_entries a)). split; [done|]. simpl. rewrite Ht.
      split; [split; [apply lookup_insert_eq|split; [apply Hat|done]]|].
      split; [done|]. split; [done|]. split; [done|]. by split.
    + intros id l ((v & Hv & Hh) & Hlt & Htn & Hact).
      split; [|split; [done|split; [by rewrite /= Ht|intros H; specialize (Hact H); simpl; lia]]].
      simpl. destruct (decide (id = aid)) as [->|Hne].
      * rewrite (proj1 Hat) in Hv. simplify_eq. eexists. by rewrite lookup_insert_eq.
      * exists v. by rewrite lookup_insert_ne.
Qed.

Lemma deinit_spec a s defer :
  wf a s ->
  ∃ a', ck_array_deinit a defer = Some a' /\ ck_array_initialized a' = false /\ outstanding (m a') = 0.
Proof.
  intros (Hids & Hn & aid & av & Ha & Hat & Hc & Htr). rewrite /ck_array_deinit Ha /= (proj1 Hat) /=.
  destruct (transaction a) as [tid|].
  - destruct Htr as (Htx & Hne & tv & Htv & Hout). rewrite (proj1 Htv) /=. eexists. split; [done|].
    split; [done|]. simpl. lia.
  - destruct Htr as (Htx & Hpend & Hle & Hout). eexists. split; [done|]. split; [done|]. simpl. lia.
Qed.

Lemma init_spec length a :
  0 <= length -> ck_array_init malloc_ok [] (true, true, true) length = Some a -> wf a (Abs [] [] false).
Proof using Hlim.
  intros Hl. rewrite /ck_array_init /=. destruct (Z.eqb_spec length 0) as [->|Hne]; [done|].
  destruct (create_spec (CkArray [] ∅ 0 None 0 None) length ltac:(lia)) as [-> | [Hb ->]]; [done|].
  cbv beta iota zeta. intros [= <-]. split; [|split; [done|]].
  { intros id. simpl. rewrite lookup_insert_is_Some. intros [<-|[_ H]]; [lia|].
    rewrite lookup_empty in H. by destruct H. }
  eexists 0%nat, _. split; [done|]. split; [split; [apply lookup_insert_eq|]|].
  - split; [split; simpl; [by rewrite length_replicate|lia]|]. apply prefix_nil.
  - split; [done|]. split; [done|]. split; [apply prefix_nil|]. split; [done|]. simpl. lia.
Qed.
End alloc.

(** ** Readers *)

Lemma mapM_load v l : holds v l -> mapM (fun i => load v i) (seqZ 0 (Z.of_nat (length l))) = Some l.
Proof.
  intros Hh. apply mapM_Some. apply Forall2_same_length_lookup. split.
  { rewrite length_seqZ. lia. }
  intros j i x Hi Hx. apply lookup_seqZ in Hi as [-> Hj]. rewrite Z.add_0_l. by eapply holds_load.
Qed.

Lemma foreach_snap a s id l : snap a s id l -> foreach_from a id (Z.of_nat (length l)) = Some l.
Proof.
  intros ((v & Hv & Hh) & _). rewrite /foreach_from Hv /=. by apply mapM_load.
Qed.

(** A reader that starts now. *)
Lemma active_snap a s :
  wf a s -> ∃ id, active a = Some id /\ ck_array_buffer a = Some (id, Z.of_nat (length (com s))) /\
    snap a s id (com s).
Proof.
  intros (Hids & Hn & aid & av & Ha & Hat & Hc & Htr). exists aid. split; [done|]. split.
  - by rewrite /ck_array_buffer Ha /= (proj1 Hat) /= Hc.
  - split; [exists av; split; apply Hat|]. split; [apply Hids; by rewrite (proj1 Hat)|]. split; [|done].
    destruct (transaction a) as [tid|]; [|done]. destruct Htr as (_ & Hne & _). congruence.
Qed.

Lemma foreach_spec a s : wf a s -> CK_ARRAY_FOREACH a = Some (com s).
Proof.
  intros Hwf. destruct (active_snap a s Hwf) as (id & Hid & Hb & Hs).
  rewrite /CK_ARRAY_FOREACH Hid. cbn [mbind option_bind]. rewrite /vector_length.
  rewrite /ck_array_buffer Hid in Hb. cbn [mbind option_bind] in Hb.
  destruct (vectors a !! id) as [v|]; [|done]. cbn. injection Hb as ->. by eapply foreach_snap.
Qed.

Lemma length_spec a s : wf a s -> ck_array_length a = Some (Z.of_nat (length (com s))).
Proof.
  intros (Hids & Hn & aid & av & Ha & Hat & Hc & Htr).
  by rewrite /ck_array_length Ha /= (proj1 Hat) /= Hc.
Qed.
