(* ===== verification/CkArrayTheorems.v ===== *)
(** [ck_array]: its theorems.  Histories of its writer against the pair of lists
    of [CkArraySpec], and what a reader that started before them reads. *)

From stdpp Require Import list gmap.
From S2P Require Export CkArraySpec.
Set Warnings "-rewrite-rw".

Inductive array_op :=
| OpPut (x : Z) | OpPutUnique (x : Z) | OpRemove (x : Z) | OpCommit | OpForeach | OpLength.

Inductive array_ret := RBool (b : bool) | RInt (r : Z) | RList (l : list Z).

(** * The abstract array *)

Definition push (s : abs) (x : Z) : abs := Abs (pend s ++ [x]) (com s) (tx s).

(** [abs_step s op r oom s']: in state [s], [op] may return [r] and leave [s'];
    [oom] tells whether its last allocation was refused. *)
Definition abs_step (s : abs) (op : array_op) (r : array_ret) (oom : bool) (s' : abs) : Prop :=
  match op with
  | OpPut x => r = RBool true /\ s' = push s x \/ r = RBool false /\ s' = s /\ oom = true
  | OpPutUnique x =>
      if bool_decide (x ∈ pend s) then r = RInt 1 /\ s' = s
      else r = RInt 0 /\ s' = push s x \/ r = RInt (-1) /\ s' = s /\ oom = true
  | OpRemove x =>
      match index_of (pend s) x with
      | None => r = RBool false /\ s' = s
      | Some i => r = RBool true /\ s' = removed s i \/ r = RBool false /\ s' = s /\ oom = true
      end
  | OpCommit => r = RBool true /\ s' = Abs (pend s) (pend s) false
  | OpForeach => r = RList (com s) /\ s' = s
  | OpLength => r = RInt (Z.of_nat (length (com s))) /\ s' = s
  end.

Inductive abs_trace : abs -> list array_op -> list (array_ret * bool) -> abs -> Prop :=
| AtNil s : abs_trace s [] [] s
| AtCons s op r oom s1 ops rs s2 :
    abs_step s op r oom s1 -> abs_trace s1 ops rs s2 ->
    abs_trace s (op :: ops) ((r, oom) :: rs) s2.

(** * The concrete array *)

Section concrete.
Context (malloc_ok : heap -> Z -> bool).

Definition exec_op (a : ck_array) (op : array_op) : option (array_ret * ck_array) :=
  match op with
  | OpPut x => '(b, a) ← ck_array_put malloc_ok a x; Some (RBool b, a)
  | OpPutUnique x => '(r, a) ← ck_array_put_unique malloc_ok a x; Some (RInt r, a)
  | OpRemove x => '(b, a) ← ck_array_remove malloc_ok a x; Some (RBool b, a)
  | OpCommit => '(b, a) ← ck_array_commit a; Some (RBool b, a)
  | OpForeach => l ← CK_ARRAY_FOREACH a; Some (RList l, a)
  | OpLength => n ← ck_array_length a; Some (RInt n, a)
  end.

Fixpoint run_ops (a : ck_array) (ops : list array_op) : option (list (array_ret * bool) * ck_array) :=
  match ops with
  | [] => Some ([], a)
  | op :: ops =>
      '(r, a) ← exec_op a op;
      '(rs, a') ← run_ops a ops;
      Some ((r, refused (m a)) :: rs, a')
  end.

(** A removal that finds additions not yet committed, and no transaction: it
    stores into the vector readers are on. *)
Definition eliminating (a : ck_array) (op : array_op) : bool :=
  match op, transaction a, active a ≫= (fun id => vectors a !! id) with
  | OpRemove _, None, Some v => negb (n_committed v =? n_entries a)
  | _, _, _ => false
  end.

Fixpoint quiet (a : ck_array) (ops : list array_op) : bool :=
  match ops with
  | [] => true
  | op :: ops =>
      negb (eliminating a op) &&
      match exec_op a op with Some (_, a) => quiet a ops | None => true end
  end.

Hypothesis Hlim : malloc_limited malloc_ok.

Lemma eliminating_spec a s x : wf a s -> eliminating a (OpRemove x) = eliminates s.
Proof.
  intros (Hids & Hn & aid & av & Ha & Hat & Hc & Htr).
  rewrite /eliminating Ha /= (proj1 Hat) Hc Hn /eliminates.
  destruct (transaction a); destruct Htr as [-> Htr]; [done|]. simpl. f_equal.
  destruct (Z.eqb_spec (Z.of_nat (length (com s))) (Z.of_nat (length (pend s)))),
    (Nat.eqb_spec (length (com s)) (length (pend s))); lia || done.
Qed.

Lemma keeps_refl a s : keeps a s a s.
Proof. by intros id l. Qed.
Hint Resolve keeps_refl : core.

Lemma put_result_step a s x ok a' :
  put_result a s x ok a' ->
  ∃ s', wf a' s' /\ keeps a s a' s' /\
    if ok then s' = push s x else s' = s /\ refused (m a') = true.
Proof.
  destruct ok; simpl; [intros [? ?]; by exists (push s x)|].
  intros (? & ? & ?%refused_spec). by exists s.
Qed.

Lemma array_exec_ok a s op :
  wf a s ->
  ∃ r a' s', exec_op a op = Some (r, a') /\ wf a' s' /\ abs_step s op r (refused (m a')) s' /\
    (eliminating a op = false -> keeps a s a' s').
Proof using Hlim.
  intros Hwf. destruct op as [x|x|x| | |]; cbn [exec_op abs_step].
  - destruct (put_spec _ Hlim a s x Hwf) as (ok & a' & -> & (s' & Hwf' & Hk & Hs)%put_result_step).
    eexists _, a', s'. split; [done|]. split; [done|]. split; [|done].
    destruct ok; [left; done|right; naive_solver].
  - destruct (put_unique_spec _ Hlim a s x Hwf)
      as (r & a' & -> & [(Hx & -> & ->)|(Hx & ok & -> & (s' & Hwf' & Hk & Hs)%put_result_step)]).
    + rewrite bool_decide_true //. eexists _, a, s. by split_and!.
    + rewrite bool_decide_false //. eexists _, a', s'. split_and!; [done|done| |done].
      destruct ok; [left; done|right; naive_solver].
  - rewrite (eliminating_spec a s x Hwf).
    destruct (remove_spec _ Hlim a s x Hwf) as (ok & a' & -> & Hr). cbn [mbind option_bind].
    destruct (index_of (pend s) x) as [i|].
    + destruct ok.
      * destruct Hr as [Hwf' Hk]. eexists _, a', _. split_and!; [done|done|by left|done].
      * destruct Hr as (Hwf' & Hk & Hf%refused_spec).
        eexists _, a', s. split_and!; [done|done|by right|done].
    + destruct Hr as [-> ->]. eexists _, a, s. by split_and!.
  - destruct (commit_spec a s Hwf) as (a' & -> & Hwf' & Hk).
    eexists _, a', _. by split_and!.
  - rewrite (foreach_spec a s Hwf). eexists _, a, s. by split_and!.
  - rewrite (length_spec a s Hwf). eexists _, a, s. by split_and!.
Qed.

Lemma array_run_ok ops a s :
  wf a s ->
  ∃ rs a' s', run_ops a ops = Some (rs, a') /\ wf a' s' /\ abs_trace s ops rs s' /\
    (quiet a ops = true -> keeps a s a' s').
Proof using Hlim.
  revert a s. induction ops as [|op ops IH]; intros a s Hwf.
  { exists [], a, s. split_and!; [done|done|constructor|done]. }
  destruct (array_exec_ok a s op Hwf) as (r & a1 & s1 & He & Hwf1 & Hs & Hk).
  destruct (IH a1 s1 Hwf1) as (rs & a2 & s2 & Hr & Hwf2 & Ht & Hk2).
  exists ((r, refused (m a1)) :: rs), a2, s2. cbn [run_ops quiet]. rewrite He /= Hr.
  split_and!; [done|done|by econstructor|].
  intros [H1%negb_true_iff H2]%andb_true_iff id l Hsn. by apply (Hk2 H2), (Hk H1).
Qed.
End concrete.

(** * Theorems *)



Definition demo_malloc (_ : heap) (size : Z) : bool := size <? 2 ^ 20.

Definition demo_ops : list array_op :=
  [OpPut 1; OpPut 2; OpPut 3; OpForeach; OpCommit; OpForeach; OpRemove 1; OpForeach; OpPutUnique 2;
   OpPut 4; OpCommit; OpForeach; OpRemove 9; OpLength].

Lemma array_demo_limited : malloc_limited demo_malloc.
Proof. intros h sz Hsz. apply Z.ltb_ge. lia. Qed.


(** The same history, computed. *)
Example demo_ops_run :
  (a ← ck_array_init demo_malloc [] (true, true, true) 2;
   '(rs, _) ← run_ops demo_malloc a demo_ops; Some rs.*1) =
  Some [RBool true; RBool true; RBool true; RList []; RBool true; RList [1; 2; 3]; RBool true;
        RList [1; 2; 3]; RInt 1; RBool true; RBool true; RList [3; 2; 4]; RBool false; RInt 3].
Proof. vm_compute. reflexivity. Qed.

(** C28. Snapshots: after any history, let a reader take the active vector and
    its committed length.  Whatever the writer does next, growths, removals and
    commits included, as long as no removal finds uncommitted additions outside a
    transaction, the reader's reads give the list committed when it started. *)
Theorem array_snapshot_stable malloc_ok n a ops rs a1 ops' rs' a2 :
  0 <= n -> ck_array_init malloc_ok [] (true, true, true) n = Some a -> malloc_limited malloc_ok ->
  run_ops malloc_ok a ops = Some (rs, a1) -> run_ops malloc_ok a1 ops' = Some (rs', a2) ->
  quiet malloc_ok a1 ops' = true ->
  ∃ snapshot limit l, ck_array_buffer a1 = Some (snapshot, limit) /\
    foreach_from a1 snapshot limit = Some l /\ CK_ARRAY_FOREACH a1 = Some l /\
    foreach_from a2 snapshot limit = Some l.
Proof.
  intros Hn Hi Hlim H1 H2 Hq. pose proof (init_spec _ Hlim n a Hn Hi) as Hwf.
  destruct (array_run_ok _ Hlim ops a _ Hwf) as (? & ? & s1 & Hr & Hwf1 & _). simplify_eq.
  destruct (array_run_ok _ Hlim ops' a1 _ Hwf1) as (? & ? & s2 & Hr' & Hwf2 & _ & Hk). simplify_eq.
  destruct (active_snap a1 s1 Hwf1) as (id & Hid & Hb & Hs).
  exists id, (Z.of_nat (length (com s1))), (com s1). split_and!; [done|by eapply foreach_snap| |].
  - by apply foreach_spec.
  - eapply foreach_snap. by apply Hk.
Qed.

Definition demo_writer : list array_op :=
  [OpRemove 1; OpPut 7; OpCommit; OpPut 8; OpPut 9; OpCommit; OpRemove 3; OpCommit].

Lemma array_snapshot_stable_witness :
  ∃ a rs a1 rs' a2, ck_array_init demo_malloc [] (true, true, true) 2 = Some a /\
    run_ops demo_malloc a [OpPut 1; OpPut 2; OpPut 3; OpCommit] = Some (rs, a1) /\
    run_ops demo_malloc a1 demo_writer = Some (rs', a2) /\ CK_ARRAY_FOREACH a2 = Some [9; 2; 7; 8] /\
    ∃ snapshot limit l, ck_array_buffer a1 = Some (snapshot, limit) /\
      foreach_from a1 snapshot limit = Some l /\ CK_ARRAY_FOREACH a1 = Some l /\
      foreach_from a2 snapshot limit = Some l.
Proof.
  eexists _, _, _, _, _. split; [reflexivity|]. split; [vm_compute; reflexivity|].
  split; [vm_compute; reflexivity|]. split; [reflexivity|].
  eapply (array_snapshot_stable demo_malloc 2 _ [OpPut 1; OpPut 2; OpPut 3; OpCommit] _ _ demo_writer);
    [lia|reflexivity|apply array_demo_limited|reflexivity|vm_compute; reflexivity|reflexivity].
Defined.

(** The exception is real: with 1 and 2 committed and 3 only added, removing
    1 puts 3 in its place in the vector readers are on, so an iteration sees an
    element nobody committed. *)
Theorem array_elimination_visible :
  (a ← ck_array_init demo_malloc [] (true, true, true) 4;
   '(_, a) ← run_ops demo_malloc a [OpPut 1; OpPut 2; OpCommit; OpPut 3];
   '(rs, _) ← run_ops demo_malloc a [OpForeach; OpRemove 1; OpForeach]; Some rs.*1) =
  Some [RList [1; 2]; RBool true; RList [3; 2]].
Proof. reflexivity. Qed.
