(* ===== verification/Linear.v ===== *)
(** Linearizability: what it means for the operations of a concurrent object,
    run by any number of threads under any scheduler, to behave as atomic steps
    of an abstract state, and the proof of it from a specification of each
    operation alone ([LinSpec]). *)

From Stdlib Require Export Sorted.
From iris.base_logic.lib Require Export ghost_var mono_nat.
From S2P Require Export Logic.
Set Warnings "-rewrite-rw".

(** * Objects

    An operation that returns [r] makes some atomic events, one of the lists that
    [oevents] admits; [otrans] says what an event does to the abstract state. *)

Record object := Object {
  ost : Type;
  oop : Type;
  ores : Type;
  oev : Type;
  oinit : ost;
  otrans : ost -> oev -> ost -> Prop;
  oevents : oop -> ores -> list oev -> Prop;
  ocode : oop -> prog ores;
}.

Inductive abs_run (O : object) : ost O -> list (oev O) -> ost O -> Prop :=
| RunNil s : abs_run O s [] s
| RunSnoc s es s1 e s2 : abs_run O s es s1 -> otrans O s1 e s2 -> abs_run O s (es ++ [e]) s2.

(** * Clients

    A thread runs a script of operations.  Around every call it reads and
    advances a clock shared by all threads, and it returns its calls with the
    times of their invocation and response. *)

Record call (R : Type) := Call { c_inv : Z; c_res : R; c_resp : Z }.
Arguments Call {R}.
Arguments c_inv {R}.
Arguments c_res {R}.
Arguments c_resp {R}.

Definition tick (clock : Z) : prog Z := ck_pr_faa (fun t => t) clock 1.

Fixpoint worker (O : object) (clock : Z) (ops : list (oop O)) : prog (list (call (ores O))) :=
  match ops with
  | [] => Ret []
  | op :: ops =>
      i <- tick clock ;;
      r <- ocode O op ;;
      j <- tick clock ;;
      cs <- worker O clock ops ;;
      Ret (Call i r j :: cs)
  end.

Definition workers (O : object) (clock : Z) (scripts : list (list (oop O))) (m : mem) :
    config (list (call (ores O))) :=
  (worker O clock <$> scripts, <[clock := 0]> m).

(** * Linearizability

    The events of all threads in the order in which they took effect, each at a
    time of the clock. *)

Record entry (E : Type) := Entry { e_thread : nat; e_time : Z; e_ev : E }.
Arguments Entry {E}.
Arguments e_thread {E}.
Arguments e_time {E}.
Arguments e_ev {E}.

Definition of_thread {E} (t : nat) (h : list (entry E)) : list (entry E) :=
  filter (fun e => e_thread e = t) h.

(** The calls of one thread are explained by its events: each call by its own,
    which took effect between its invocation and its response. *)
Inductive explains (O : object) : list (oop O) -> list (call (ores O)) -> list (entry (oev O)) -> Prop :=
| ExpNil : explains O [] [] []
| ExpCons op ops c cs g es :
    oevents O op (c_res c) (e_ev <$> g) ->
    Forall (fun e => c_inv c < e_time e <= c_resp c) g ->
    explains O ops cs es ->
    explains O (op :: ops) (c :: cs) (g ++ es).

(** [ps] are the threads that run [scripts], some of them finished.  The abstract
    state passes through the events of [h], in the order of their times, and
    every finished thread is explained by its part of [h]. *)
Definition linearizable (O : object) (scripts : list (list (oop O)))
    (ps : list (prog (list (call (ores O))))) : Prop :=
  ∃ (h : list (entry (oev O))) (s : ost O),
    abs_run O (oinit O) (e_ev <$> h) s /\
    StronglySorted (fun a b => e_time a <= e_time b) h /\
    Forall (fun e => (e_thread e < length scripts)%nat) h /\
    ∀ t ops cs, scripts !! t = Some ops -> ps !! t = Some (Ret cs) -> explains O ops cs (of_thread t h).

(** Times order the events of calls that do not overlap. *)
Lemma explained_order {O : object} (c d : call (ores O)) (e f : entry (oev O)) :
  c_inv c < e_time e <= c_resp c -> c_inv d < e_time f <= c_resp d -> c_resp c <= c_inv d ->
  e_time e < e_time f.
Proof. lia. Qed.

(** * What an object promises

    [lin_shift γo P]: whoever holds [P] can let events take effect on the abstract
    state, whose value is shared through the ghost variable [γo]. *)

Definition objN : namespace := nroot .@ "object".

Definition lin_shift {Σ} `{!ckGS Σ} {O : object} `{!ghost_varG Σ (ost O)} (γo : gname)
    (P : list (oev O) -> iProp Σ) : iProp Σ :=
  □ (∀ evs e s s', ⌜otrans O s e s'⌝ -∗ ghost_var γo (1/2) s -∗ P evs ={⊤ ∖ ↑objN}=∗
       ghost_var γo (1/2) s' ∗ P (evs ++ [e])).

(** [lin_init scripts m]: the memory [m] holds the initialised object, for
    threads that run [scripts]; [good] holds of the memory at all times.  A thread
    that holds [lin_tok ops] may run [ops]. *)
Class LinSpec (O : object) (lin_init : list (list (oop O)) -> mem -> Prop) (good : mem -> Prop)
    {Σ} `{!ckGS Σ, !ghost_varG Σ (ost O)} := {
  lin_name : Type;
  lin_inv : lin_name -> gname -> iProp Σ;
  lin_tok : lin_name -> list (oop O) -> iProp Σ;
  lin_inv_persistent γ γo :: Persistent (lin_inv γ γo);
  lin_alloc scripts m γo E :
    lin_init scripts m ->
    ([∗ map] l ↦ v ∈ m, l ↦ v) -∗ ghost_var γo (1/2) (oinit O) ={E}=∗
    ∃ γ, lin_inv γ γo ∗ [∗ list] ops ∈ scripts, lin_tok γ ops;
  lin_op γ γo op ops (P : list (oev O) -> iProp Σ) :
    lin_inv γ γo -∗ lin_tok γ (op :: ops) -∗ lin_shift γo P -∗ P [] -∗
    WP ocode O op {{ r, ∃ evs, ⌜oevents O op r evs⌝ ∗ P evs ∗ lin_tok γ ops }};
  lin_good γ γo σ E :
    ↑objN ⊆ E -> lin_inv γ γo -∗ gen_heap_interp σ ={E}=∗ gen_heap_interp σ ∗ ⌜good σ⌝;
}.

(** ** Operations that only one thread may run *)

(** At most one of the scripts has operations of the kind [f]. *)
Definition alone {A} (f : A -> bool) (scripts : list (list A)) : Prop :=
  ∀ t1 t2 ops1 ops2, scripts !! t1 = Some ops1 -> scripts !! t2 = Some ops2 ->
    existsb f ops1 = true -> existsb f ops2 = true -> t1 = t2.

Lemma give_alone {Σ} {A} (f : A -> bool) (R : iProp Σ) (scripts : list (list A)) :
  alone f scripts -> R -∗ [∗ list] ops ∈ scripts, if existsb f ops then R else True.
Proof.
  induction scripts as [|ops l IH]; iIntros (Ha) "HR"; [done|].
  assert (Hl : alone f l).
  { intros t1 t2 o1 o2 H1 H2 E1 E2. specialize (Ha (S t1) (S t2) o1 o2 H1 H2 E1 E2). lia. }
  rewrite big_sepL_cons. destruct (existsb f ops) eqn:He; [|by iSplit; [|iApply IH]].
  iFrame. iApply big_sepL_intro. iIntros "!>" (t o Ht). destruct (existsb f o) eqn:Ho; [|done].
  specialize (Ha 0%nat (S t) ops o eq_refl Ht He Ho). lia.
Qed.

(** * Every such object is linearizable *)

Definition clientN : namespace := nroot .@ "lin_client".

Lemma of_thread_snoc {E} t (h : list (entry E)) (e : entry E) :
  of_thread t (h ++ [e]) = of_thread t h ++ (if decide (e_thread e = t) then [e] else []).
Proof. rewrite /of_thread filter_app. by f_equal. Qed.

Lemma sorted_snoc {E} (h : list (entry E)) e :
  StronglySorted (fun a b => e_time a <= e_time b) h -> Forall (fun a => e_time a <= e_time e) h ->
  StronglySorted (fun a b => e_time a <= e_time b) (h ++ [e]).
Proof.
  intros Hs Hf. induction Hs as [|a h Hs IH Ha]; simpl; [by repeat constructor|].
  inversion_clear Hf. constructor; [by apply IH|]. apply Forall_app. by repeat constructor.
Qed.

Section client.
Context `{!ckGS Σ, !mono_natG Σ} (O : object) `{!ghost_varG Σ (ost O)} `{!ghost_varG Σ (list (entry (oev O)))}.
Context (lin_init : list (list (oop O)) -> mem -> Prop) (good : mem -> Prop) `{!LinSpec O lin_init good}.
Context (clock : Z).
Implicit Types h g : list (entry (oev O)).

Definition client_inv (γn γo : gname) (γs : list gname) : iProp Σ :=
  ∃ n h s,
    clock ↦ Z.of_nat n ∗ mono_nat_auth_own γn 1 n ∗ ghost_var γo (1/2) s ∗
    ⌜abs_run O (oinit O) (e_ev <$> h) s⌝ ∗
    ⌜StronglySorted (fun a b => e_time a <= e_time b) h⌝ ∗
    ⌜Forall (fun e => e_time e <= Z.of_nat n /\ (e_thread e < length γs)%nat) h⌝ ∗
    [∗ list] t ↦ γ ∈ γs, ghost_var γ (1/2) (of_thread t h).

(** A tick returns the time, and what has happened so far happened before it. *)
Lemma tick_spec γn γo γs t γt hist i :
  γs !! t = Some γt ->
  {{{ inv clientN (client_inv γn γo γs) ∗ ghost_var γt (1/2) hist ∗ mono_nat_lb_own γn i }}}
    tick clock
  {{{ (n : nat), RET Z.of_nat n; ghost_var γt (1/2) hist ∗ mono_nat_lb_own γn (S n) ∗
      ⌜(i <= n)%nat⌝ ∗ ⌜Forall (fun e => e_time e <= Z.of_nat n) hist⌝ }}}.
Proof.
  iIntros (Ht Φ) "(#Hinv & Hh & #Hlb) HΦ". rewrite /tick.
  iInv clientN as ">Hi". iDestruct "Hi" as (n h s) "(Hc & Hn & Ho & %Hrun & %Hsort & %Hall & Hγs)".
  iDestruct (mono_nat_lb_own_valid with "Hn Hlb") as %[_ Hle].
  iDestruct (big_sepL_lookup_acc with "Hγs") as "[Ht Hγs]"; [done|].
  iDestruct (ghost_var_agree with "Hh Ht") as %->.
  iDestruct ("Hγs" with "Ht") as "Hγs".
  iMod (mono_nat_own_update (S n) with "Hn") as "[Hn #Hlb']"; [lia|].
  wp_rmw "Hc". iModIntro. iSplitR "Hh HΦ".
  - iExists (S n), h, s. iFrame. rewrite Nat2Z.inj_succ. iFrame. iPureIntro.
    split_and!; [done|done|]. eapply Forall_impl; [exact Hall|]. simpl. lia.
  - iApply "HΦ". iFrame "∗#". iPureIntro. split; [done|].
    apply Forall_forall. intros e [_ He]%list_elem_of_filter.
    rewrite Forall_forall in Hall. by apply Hall.
Qed.

(** The events of one call. *)
Definition call_log (γn γt : gname) (i : nat) hist (evs : list (oev O)) : iProp Σ :=
  ∃ g, ghost_var γt (1/2) (hist ++ g) ∗ ⌜e_ev <$> g = evs⌝ ∗
       ⌜Forall (fun e => Z.of_nat i < e_time e) g⌝ ∗ mono_nat_lb_own γn (S i).

Lemma call_log_shift γn γo γs t γt i hist :
  γs !! t = Some γt ->
  inv clientN (client_inv γn γo γs) -∗ lin_shift γo (call_log γn γt i hist).
Proof.
  iIntros (Ht) "#Hinv !>". iIntros (evs e s s' Htr) "Ho (%g & Hh & %Hg & %Hgi & #Hlb)".
  iInv clientN as ">Hi". iDestruct "Hi" as (n h s0) "(Hc & Hn & Ho' & %Hrun & %Hsort & %Hall & Hγs)".
  iDestruct (mono_nat_lb_own_valid with "Hn Hlb") as %[_ Hle].
  iDestruct (ghost_var_agree with "Ho Ho'") as %<-.
  iMod (ghost_var_update_halves s' with "Ho Ho'") as "[Ho Ho']".
  pose proof (lookup_lt_Some _ _ _ Ht) as Htl.
  iDestruct (big_sepL_delete _ _ t with "Hγs") as "[Ht Hγs]"; [done|].
  iDestruct (ghost_var_agree with "Hh Ht") as %Heq.
  set (en := Entry t (Z.of_nat n) e).
  iMod (ghost_var_update_halves (of_thread t (h ++ [en])) with "Hh Ht") as "[Hh Ht]".
  iModIntro. iSplitR "Ho Hh".
  - iNext. iExists n, (h ++ [en]), s'. iFrame.
    iSplit; [iPureIntro; rewrite fmap_app; by econstructor|].
    iSplit; [iPureIntro; apply sorted_snoc; [done|]; eapply Forall_impl; [exact Hall|]; simpl; lia|].
    iSplit.
    { iPureIntro. apply Forall_app. split; [done|]. repeat constructor; simpl; lia. }
    iApply (big_sepL_delete _ _ t); [done|]. iFrame "Ht".
    iApply (big_sepL_impl with "Hγs"). iIntros "!>" (k γ Hk) "H". case_decide; [done|].
    by rewrite of_thread_snoc decide_False // app_nil_r.
  - iModIntro. iFrame. iExists (g ++ [en]). rewrite of_thread_snoc decide_True // -Heq -app_assoc.
    iFrame "∗#". iPureIntro. rewrite fmap_app Hg. split; [done|].
    apply Forall_app. split; [done|]. repeat constructor. simpl. lia.
Qed.

Lemma worker_spec γ γn γo γs t γt ops hist i :
  γs !! t = Some γt ->
  inv clientN (client_inv γn γo γs) -∗ lin_inv γ γo -∗ lin_tok γ ops -∗
  ghost_var γt (1/2) hist -∗ mono_nat_lb_own γn i -∗
  WP worker O clock ops {{ cs, ∃ es, ghost_var γt (1/2) (hist ++ es) ∗ ⌜explains O ops cs es⌝ }}.
Proof.
  iIntros (Ht) "#Hcl #Hobj Htok Hh #Hlb".
  iInduction ops as [|op ops] "IH" forall (hist i) "Hlb"; cbn [worker].
  { wp_pures. iExists []. rewrite app_nil_r. iFrame. iPureIntro. constructor. }
  wp_focus. iApply (tick_spec with "[$Hcl $Hh $Hlb]"); [done|].
  iIntros "!>" (n) "(Hh & #Hlb1 & _ & _)". wp_focus.
  iApply (wp_wand (Λ:=ck_lang (ores O)) with "[Htok Hh]").
  { iApply (lin_op with "Hobj Htok [] [Hh]"); [by iApply (call_log_shift with "Hcl")|].
    iExists []. rewrite app_nil_r. by iFrame "∗#". }
  iIntros (r) "(%evs & %Hevs & (%g & Hh & %Hg & %Hgi & _) & Htok)". wp_focus.
  iApply (tick_spec with "[$Hcl $Hh $Hlb1]"); [done|].
  iIntros "!>" (n') "(Hh & #Hlb2 & _ & %Hgj)". wp_focus.
  iApply (wp_wand (Λ:=ck_lang (list (call (ores O)))) with "[Htok Hh]").
  { iApply ("IH" with "Htok Hh Hlb2"). }
  iIntros (cs) "(%es & Hh & %Hes)". wp_pures. iExists (g ++ es). rewrite app_assoc. iFrame.
  iPureIntro. constructor; [by rewrite Hg| |done]. apply Forall_app in Hgj as [_ Hgj].
  rewrite !Forall_forall in Hgi Hgj |- *. simpl. auto.
Qed.
End client.

Section linear.
Context (Σ : gFunctors) `{!ckGpreS Σ, !mono_natG Σ} (O : object)
  `{!ghost_varG Σ (ost O)} `{!ghost_varG Σ (list (entry (oev O)))}.
Context (lin_init : list (list (oop O)) -> mem -> Prop) (good : mem -> Prop).
Context (spec : ∀ `{!ckGS Σ}, LinSpec O lin_init good).

Lemma history_vars_alloc `{!ckGS Σ} (n : nat) E :
  ⊢ |={E}=> ∃ γs : list gname, ⌜length γs = n⌝ ∗
      ([∗ list] γ ∈ γs, ghost_var γ (1/2) ([] : list (entry (oev O)))) ∗
      ([∗ list] γ ∈ γs, ghost_var γ (1/2) ([] : list (entry (oev O)))).
Proof.
  induction n as [|n IH].
  { iModIntro. iExists []. simpl. auto. }
  iMod IH as (γs) "(%Hlen & H1 & H2)".
  iMod (ghost_var_alloc ([] : list (entry (oev O)))) as (γ) "[Ha Hb]". iModIntro.
  iExists (γ :: γs). simpl. iFrame. by rewrite Hlen.
Qed.

(** In every execution no thread faults, the memory stays good and what has
    returned is linearizable. *)
Lemma spec_linearizable clock scripts m ps σ :
  lin_init scripts m -> m !! clock = None ->
  rtc sys_step (workers O clock scripts m) (ps, σ) ->
  (linearizable O scripts ps /\ good σ) /\ (∀ p, p ∈ ps -> safe p σ).
Proof.
  intros Hinit Hclock Hsteps.
  eapply (ck_pool_adequacy Σ _ _ _ _ _); [|exact Hsteps].
  iIntros (?) "Hm". rewrite big_sepM_insert //. iDestruct "Hm" as "[Hc Hm]".
  iMod (ghost_var_alloc (oinit O)) as (γo) "[Ho Ho']".
  iMod (mono_nat_own_alloc 0) as (γn) "[Hn #Hlb]".
  iMod (history_vars_alloc (length scripts)) as (γs) "(%Hγs & Hh & Hh')".
  iMod (lin_alloc scripts m γo ⊤ with "Hm Ho") as (γ) "[#Hobj Htoks]"; [done|].
  iMod (inv_alloc clientN _ (client_inv O clock γn γo γs) with "[Hc Hn Ho' Hh']") as "#Hinv".
  { iExists 0%nat, [], (oinit O). iFrame. iPureIntro. split_and!; constructor. }
  iModIntro.
  iExists ((λ x cs, ∃ es, ghost_var x.2 (1/2) es ∗ ⌜explains O x.1 cs es⌝)%I <$> zip scripts γs).
  iSplitL "Htoks Hh".
  { rewrite big_sepL2_fmap_l big_sepL2_fmap_r -{2}(fst_zip scripts γs); last lia.
    rewrite big_sepL2_fmap_l. iApply big_sepL_sepL2_diag.
    iDestruct (big_sepL2_sepL_2 with "Htoks Hh") as "H"; [done|].
    rewrite big_sepL2_alt. iDestruct "H" as "[_ H]".
    iApply (big_sepL_impl with "H"). iIntros "!>" (t [ops γt] Hx) "[Ht Hh] /=".
    apply lookup_zip_with_Some in Hx as (? & ? & [= <- <-] & Hops & Hγt).
    iApply (wp_wand (Λ:=ck_lang (list (call (ores O)))) with "[Ht Hh]").
    { by iApply (worker_spec with "Hinv Hobj Ht Hh Hlb"). }
    iIntros (cs) "(%es & Hh & %Hes)". iExists es. by iFrame. }
  iIntros "Hσ Hposts". iMod (lin_good with "Hobj Hσ") as "[Hσ %Hgood]"; [done|].
  iInv clientN as ">Hi" "_". iDestruct "Hi" as (n h s) "(_ & _ & _ & %Hrun & %Hsort & %Hall & Hγs)".
  iApply fupd_mask_intro; [set_solver|]. iIntros "_".
  iSplit; [|done]. iExists h, s. iSplit; [done|]. iSplit; [done|].
  iSplit; [iPureIntro; rewrite -Hγs; eapply Forall_impl; [exact Hall|]; simpl; tauto|].
  iIntros (t ops cs Hops Hps).
  destruct (lookup_lt_is_Some_2 γs t) as [γt Hγt]; [rewrite Hγs; by eapply lookup_lt_Some|].
  iDestruct (big_sepL_lookup with "Hγs") as "Hγt"; [done|].
  iDestruct (big_sepL2_lookup _ _ _ t (Ret cs) with "Hposts") as "Hp"; [done| |].
  { assert (zip scripts γs !! t = Some (ops, γt)) as Hz by (apply lookup_zip_with_Some; eauto).
    by rewrite list_lookup_fmap Hz. }
  simpl. iDestruct "Hp" as (es) "[Hes %Hexp]".
  iDestruct (ghost_var_agree with "Hes Hγt") as %->. done.
Qed.
End linear.

(** Programs that take a bounded number of steps whatever the memory and the other
    threads do: wait-freedom. *)

Inductive bounded : ∀ {A : Type}, nat -> prog A -> Prop :=
| BoundedRet {A} n (a : A) : bounded n (Ret a)
| BoundedAct {A} n o (g : Z * Z -> A) : bounded (S n) (Act o g)
| BoundedBind {A B} n m (p : prog B) (f : B -> prog A) :
    bounded n p -> (∀ b, bounded m (f b)) -> bounded (S (n + m)) (Bind p f).

Lemma bounded_step {A} n (p p' : prog A) σ σ' :
  bounded n p -> pstep p σ = Some (p', σ') -> ∃ n', (n' < n)%nat /\ bounded n' p'.
Proof.
  intros Hb. revert p' σ'. induction Hb as [A n a|A n o g|A B n m p f Hp IHp Hf IHf]; intros p' σ' Hs.
  - done.
  - simpl in Hs. destruct (exec o σ) as [[r τ]|]; simplify_eq/=. exists n. split; [lia|constructor].
  - destruct (pstep p σ) as [[q τ]|] eqn:Hq.
    + assert (p' = Bind q f) as -> by (destruct p; cbn [pstep] in Hs, Hq; rewrite ?Hq in Hs; by simplify_eq/=).
      destruct (IHp _ _ eq_refl) as (n' & Hn & Hb'). exists (S (n' + m)). split; [lia|]. by constructor.
    + destruct p; cbn [pstep] in Hs, Hq; rewrite ?Hq in Hs; simplify_eq/=.
      exists m. split; [lia|done].
Qed.

Lemma bounded_mono {A} n m (p : prog A) : bounded n p -> (n <= m)%nat -> bounded m p.
Proof.
  intros Hb. revert m. induction Hb as [A n a|A n o g|A B n k p f Hp IHp Hf IHf]; intros m Hm.
  - constructor.
  - destruct m; [lia|constructor].
  - destruct m as [|m]; [lia|]. replace m with (n + (m - n))%nat by lia. constructor; [done|].
    intros b. apply IHf. lia.
Qed.

(** Sequencing after one operation, after nothing, and after a bounded program. *)
Lemma bounded_act {A B} n o (g : Z * Z -> B) (f : B -> prog A) :
  (∀ b, bounded n (f b)) -> bounded (2 + n) (Bind (Act o g) f).
Proof. intros H. apply (BoundedBind 1 n); [constructor|done]. Qed.

Lemma bounded_ret {A B} n (b : B) (f : B -> prog A) : bounded n (f b) -> (∀ c, bounded n (f c)) ->
  bounded (1 + n) (Bind (Ret b) f).
Proof. intros _ H. apply (BoundedBind 0 n); [constructor|done]. Qed.

(** Threads that are bounded take no more steps than their bounds allow. *)
Lemma bounded_pool {A} n (ps ps' : list (prog A)) σ σ' ns :
  Forall2 bounded ns ps -> nsteps sys_step n (ps, σ) (ps', σ') -> (n <= sum_list ns)%nat.
Proof.
  revert ps σ ns. induction n as [|n IH]; intros ps σ ns Hb Hs; [lia|].
  inversion Hs as [|? ? [ps1 σ1] ? H1 H2]; simplify_eq.
  inversion H1 as [? ? i p p1 ? Hi Hp]; simplify_eq.
  destruct (Forall2_lookup_r _ _ _ _ _ Hb Hi) as (k & Hk & Hkp).
  destruct (bounded_step _ _ _ _ _ Hkp Hp) as (k' & Hlt & Hk').
  assert (n <= sum_list (<[i := k']> ns))%nat as Hle.
  { eapply (IH _ _ (<[i := k']> ns)); [|exact H2]. by apply Forall2_insert. }
  assert (sum_list (<[i := k']> ns) + k = sum_list ns + k')%nat; [|lia].
  clear -Hk. revert i Hk. induction ns as [|x ns IHn]; intros [|i] Hk; simplify_eq/=; [lia|].
  specialize (IHn i Hk). lia.
Qed.

(** Branches: their bounds are added. *)
Lemma bounded_if {A} n m (b : bool) (p q : prog A) :
  bounded n p -> bounded m q -> bounded (n + m) (if b then p else q).
Proof. intros Hp Hq. destruct b; (eapply bounded_mono; [eassumption|lia]). Qed.

Lemma bounded_option {A B} n m (o : option B) (f : B -> prog A) (q : prog A) :
  (∀ b, bounded n (f b)) -> bounded m q -> bounded (n + m) (match o with Some b => f b | None => q end).
Proof. intros Hp Hq. destruct o; (eapply bounded_mono; [eauto|lia]). Qed.

(** Bound a straight-line program; the bounds of the subprograms [lem] are given. *)
Ltac bound_with lem :=
  repeat first
    [ lem
    | apply (BoundedRet 0)
    | apply (BoundedAct 0)
    | eapply bounded_act; intros ?
    | eapply bounded_if
    | eapply bounded_option; [intros ?|]
    | eapply BoundedBind; [|intros ?]
    | match goal with |- bounded _ (match ?x with pair _ _ => _ end) => destruct x end ].
