(* ===== verification/Ring.v ===== *)
(** [ck_ring.h]: the bounded ring buffer, for one or many producers and one or
    many consumers, as programs over shared memory. *)

From S2P Require Export Prelude Machine.

(** * Layout

    [struct ck_ring], one cell per field (the padding has none).  A slot of the
    buffer is [ts] bytes, a multiple of the 8 bytes of a cell. *)

Definition c_head (ring : Z) : Z := ring.
Definition p_tail (ring : Z) : Z := ring + 1.
Definition p_head (ring : Z) : Z := ring + 2.
Definition size (ring : Z) : Z := ring + 3.
Definition mask (ring : Z) : Z := ring + 4.

(** [(char * )buffer + ts * i]: both factors are [unsigned int], so the product
    is one too. *)
Definition slot (buffer ts i : Z) : Z := buffer + u32 (ts * i) / 8.

Definition words (ts : Z) : nat := Z.to_nat (ts / 8).

(** [memcpy] between a slot and an object of the caller, whose words are the list. *)
Fixpoint read_words (a : Z) (n : nat) : prog (list Z) :=
  match n with
  | O => Ret []
  | S n => w <- ld a ;; ws <- read_words (a + 1) n ;; Ret (w :: ws)
  end.

Fixpoint write_words (a : Z) (ws : list Z) : prog unit :=
  match ws with
  | [] => Ret tt
  | w :: ws => st a w ;; write_words (a + 1) ws
  end.

Definition memcpy_from_slot (a ts : Z) : prog (list Z) := read_words a (words ts).
Definition memcpy_to_slot (a : Z) (entry : list Z) (ts : Z) : prog unit :=
  write_words a (take (words ts) entry).

(** * Whole rings *)

Definition ck_ring_size (ring : Z) : prog Z :=
  c <- ck_pr_load (c_head ring) ;;
  p <- ck_pr_load (p_tail ring) ;;
  mask <- ld (mask ring) ;;
  Ret (Z.land (u32 (p - c)) mask).

Definition ck_ring_capacity (ring : Z) : prog Z := ld (size ring).

Definition ck_ring_repair (ring : Z) : prog bool :=
  t <- ld (p_tail ring) ;;
  h <- ld (p_head ring) ;;
  if negb (t =? h) then
    h <- ld (p_head ring) ;; st (p_tail ring) h ;; Ret true
  else Ret false.

Definition ck_ring_valid (ring : Z) : prog bool :=
  size <- ld (size ring) ;;
  c_head <- ld (c_head ring) ;;
  p_head <- ld (p_head ring) ;;
  if truthy (Z.land size (u32 (size - 1))) then Ret false
  else if size <=? u32 (p_head - c_head) then Ret false
  else Ret true.

Definition ck_ring_init (ring n : Z) : prog unit :=
  st (size ring) n ;;
  st (mask ring) (u32 (n - 1)) ;;
  st (p_tail ring) 0 ;;
  st (p_head ring) 0 ;;
  st (c_head ring) 0.

(** * Producers and consumers

    Where the source has an optional [size] argument the function returns it;
    callers that pass [NULL] ignore it.  [NULL] regions are [None]. *)

Definition _ck_ring_enqueue_reserve_sp (ring buffer ts : Z) : prog (option Z * Z) :=
  mask <- ld (mask ring) ;;
  consumer <- ck_pr_load (c_head ring) ;;
  producer <- ld (p_tail ring) ;;
  let delta := u32 (producer + 1) in
  let size := Z.land (u32 (producer - consumer)) mask in
  if Z.land delta mask =? Z.land consumer mask then Ret (None, size)
  else Ret (Some (slot buffer ts (Z.land producer mask)), size).

Definition _ck_ring_enqueue_commit_sp (ring : Z) : prog unit :=
  ck_pr_fence F_store ;;
  t <- ld (p_tail ring) ;;
  ck_pr_store (p_tail ring) (u32 (t + 1)).

Definition _ck_ring_enqueue_sp (ring buffer : Z) (entry : list Z) (ts : Z) : prog (bool * Z) :=
  mask <- ld (mask ring) ;;
  consumer <- ck_pr_load (c_head ring) ;;
  producer <- ld (p_tail ring) ;;
  let delta := u32 (producer + 1) in
  let size := Z.land (u32 (producer - consumer)) mask in
  if Z.land delta mask =? Z.land consumer mask then Ret (false, size)
  else
    memcpy_to_slot (slot buffer ts (Z.land producer mask)) entry ts ;;
    ck_pr_fence F_store ;;
    ck_pr_store (p_tail ring) delta ;;
    Ret (true, size).

Definition _ck_ring_enqueue_sp_size (ring buffer : Z) (entry : list Z) (ts : Z) : prog (bool * Z) :=
  letp (r, sz) := _ck_ring_enqueue_sp ring buffer entry ts ;;
  Ret (r, sz).

Definition _ck_ring_dequeue_sc (ring buffer ts : Z) : prog (option (list Z)) :=
  mask <- ld (mask ring) ;;
  consumer <- ld (c_head ring) ;;
  producer <- ck_pr_load (p_tail ring) ;;
  if consumer =? producer then Ret None
  else
    ck_pr_fence F_load ;;
    target <- memcpy_from_slot (slot buffer ts (Z.land consumer mask)) ts ;;
    ck_pr_fence F_load_store ;;
    ck_pr_store (c_head ring) (u32 (consumer + 1)) ;;
    Ret (Some target).

(** The loop that claims a ticket, the same text in [_ck_ring_enqueue_reserve_mp]
    and [_ck_ring_enqueue_mp]: whether it did, and the last [producer] and
    [consumer]. *)
Definition claim (ring mask : Z) : prog (bool * Z * Z) :=
  producer <- ck_pr_load (p_head ring) ;;
  Iter (fun producer =>
    ck_pr_fence F_load ;;
    consumer <- ck_pr_load (c_head ring) ;;
    let delta := u32 (producer + 1) in
    if u32 (producer - consumer) <? mask then
      letp (r, producer) := ck_pr_cas_value (p_head ring) producer delta ;;
      if r : bool then break (true, producer, consumer) else continue producer
    else
      ck_pr_fence F_load ;;
      new_producer <- ck_pr_load (p_head ring) ;;
      if producer =? new_producer then break (false, producer, consumer)
      else continue new_producer) producer.

(** The region, the ticket and the size. *)
Definition _ck_ring_enqueue_reserve_mp (ring buffer ts : Z) : prog (option (Z * Z) * Z) :=
  mask <- ld (mask ring) ;;
  letp (r, producer, consumer) := claim ring mask ;;
  let size := Z.land (u32 (producer - consumer)) mask in
  if r : bool then Ret (Some (slot buffer ts (Z.land producer mask), producer), size)
  else Ret (None, size).

(** [while (ck_pr_load_uint(&ring->p_tail) != producer) ck_pr_stall();] *)
Definition wait_turn (ring producer : Z) : prog unit :=
  while (t <- ck_pr_load (p_tail ring) ;; Ret (negb (t =? producer))) ck_pr_stall.

Definition _ck_ring_enqueue_commit_mp (ring producer : Z) : prog unit :=
  wait_turn ring producer ;;
  ck_pr_fence F_store ;;
  ck_pr_store (p_tail ring) (u32 (producer + 1)).

Definition _ck_ring_enqueue_mp (ring buffer : Z) (entry : list Z) (ts : Z) : prog (bool * Z) :=
  mask <- ld (mask ring) ;;
  letp (r, producer, consumer) := claim ring mask ;;
  let delta := u32 (producer + 1) in
  let size := Z.land (u32 (producer - consumer)) mask in
  if negb r then Ret (false, size)
  else
    memcpy_to_slot (slot buffer ts (Z.land producer mask)) entry ts ;;
    wait_turn ring producer ;;
    ck_pr_fence F_store ;;
    ck_pr_store (p_tail ring) delta ;;
    Ret (true, size).

Definition _ck_ring_enqueue_mp_size (ring buffer : Z) (entry : list Z) (ts : Z) : prog (bool * Z) :=
  letp (r, sz) := _ck_ring_enqueue_mp ring buffer entry ts ;;
  Ret (r, sz).

Definition _ck_ring_trydequeue_mc (ring buffer ts : Z) : prog (option (list Z)) :=
  mask <- ld (mask ring) ;;
  consumer <- ck_pr_load (c_head ring) ;;
  ck_pr_fence F_load ;;
  producer <- ck_pr_load (p_tail ring) ;;
  if consumer =? producer then Ret None
  else
    ck_pr_fence F_load ;;
    data <- memcpy_from_slot (slot buffer ts (Z.land consumer mask)) ts ;;
    ck_pr_fence F_load_store ;;
    r <- ck_pr_cas (c_head ring) consumer (u32 (consumer + 1)) ;;
    Ret (if r : bool then Some data else None).

(** The loop state is [consumer]; the body answers [None] for an empty ring. *)
Definition _ck_ring_dequeue_mc (ring buffer ts : Z) : prog (option (list Z)) :=
  mask <- ld (mask ring) ;;
  consumer <- ck_pr_load (c_head ring) ;;
  Iter (fun consumer =>
    ck_pr_fence F_load ;;
    producer <- ck_pr_load (p_tail ring) ;;
    if consumer =? producer then break None
    else
      ck_pr_fence F_load ;;
      data <- memcpy_from_slot (slot buffer ts (Z.land consumer mask)) ts ;;
      ck_pr_fence F_load_store ;;
      letp (r, consumer) := ck_pr_cas_value (c_head ring) consumer (u32 (consumer + 1)) ;;
      if r : bool then break (Some data) else continue consumer) consumer.

(** * The typed interface

    [CK_RING_PROTOTYPE(name, type)] with [ts = sizeof(struct type)]. *)

Section prototype.
Context (ts : Z).

Definition enqueue_spsc (a b : Z) (c : list Z) : prog bool :=
  letp (r, _) := _ck_ring_enqueue_sp a b c ts ;; Ret r.
Definition enqueue_spsc_size (a b : Z) (c : list Z) : prog (bool * Z) :=
  _ck_ring_enqueue_sp_size a b c ts.
Definition enqueue_reserve_spsc (a b : Z) : prog (option Z) :=
  letp (r, _) := _ck_ring_enqueue_reserve_sp a b ts ;; Ret r.
Definition enqueue_reserve_spsc_size (a b : Z) : prog (option Z * Z) :=
  _ck_ring_enqueue_reserve_sp a b ts.
Definition dequeue_spsc (a b : Z) : prog (option (list Z)) := _ck_ring_dequeue_sc a b ts.

Definition enqueue_spmc (a b : Z) (c : list Z) : prog bool :=
  letp (r, _) := _ck_ring_enqueue_sp a b c ts ;; Ret r.
Definition enqueue_spmc_size (a b : Z) (c : list Z) : prog (bool * Z) :=
  _ck_ring_enqueue_sp_size a b c ts.
Definition enqueue_reserve_spmc (a b : Z) : prog (option Z) :=
  letp (r, _) := _ck_ring_enqueue_reserve_sp a b ts ;; Ret r.
Definition enqueue_reserve_spmc_size (a b : Z) : prog (option Z * Z) :=
  _ck_ring_enqueue_reserve_sp a b ts.
Definition trydequeue_spmc (a b : Z) : prog (option (list Z)) := _ck_ring_trydequeue_mc a b ts.
Definition dequeue_spmc (a b : Z) : prog (option (list Z)) := _ck_ring_dequeue_mc a b ts.

Definition enqueue_mpsc (a b : Z) (c : list Z) : prog bool :=
  letp (r, _) := _ck_ring_enqueue_mp a b c ts ;; Ret r.
Definition enqueue_mpsc_size (a b : Z) (c : list Z) : prog (bool * Z) :=
  _ck_ring_enqueue_mp_size a b c ts.
Definition enqueue_reserve_mpsc (a b : Z) : prog (option (Z * Z)) :=
  letp (r, _) := _ck_ring_enqueue_reserve_mp a b ts ;; Ret r.
Definition enqueue_reserve_mpsc_size (a b : Z) : prog (option (Z * Z) * Z) :=
  _ck_ring_enqueue_reserve_mp a b ts.
Definition dequeue_mpsc (a b : Z) : prog (option (list Z)) := _ck_ring_dequeue_sc a b ts.

Definition enqueue_mpmc (a b : Z) (c : list Z) : prog bool :=
  letp (r, _) := _ck_ring_enqueue_mp a b c ts ;; Ret r.
Definition enqueue_mpmc_size (a b : Z) (c : list Z) : prog (bool * Z) :=
  _ck_ring_enqueue_mp_size a b c ts.
Definition enqueue_reserve_mpmc (a b : Z) : prog (option (Z * Z)) :=
  letp (r, _) := _ck_ring_enqueue_reserve_mp a b ts ;; Ret r.
Definition enqueue_reserve_mpmc_size (a b : Z) : prog (option (Z * Z) * Z) :=
  _ck_ring_enqueue_reserve_mp a b ts.
Definition trydequeue_mpmc (a b : Z) : prog (option (list Z)) := _ck_ring_trydequeue_mc a b ts.
Definition dequeue_mpmc (a b : Z) : prog (option (list Z)) := _ck_ring_dequeue_mc a b ts.
End prototype.

(** * The pointer interface: [ts = sizeof(void * )] *)

Definition pointer (o : option (list Z)) : option Z := o ≫= head.

Definition ck_ring_enqueue_spsc_size (ring buffer entry : Z) := enqueue_spsc_size 8 ring buffer [entry].
Definition ck_ring_enqueue_spsc (ring buffer entry : Z) := enqueue_spsc 8 ring buffer [entry].
Definition ck_ring_enqueue_reserve_spsc_size := enqueue_reserve_spsc_size 8.
Definition ck_ring_enqueue_reserve_spsc := enqueue_reserve_spsc 8.
Definition ck_ring_enqueue_commit_spsc (ring : Z) := _ck_ring_enqueue_commit_sp ring.
Definition ck_ring_dequeue_spsc (ring buffer : Z) : prog (option Z) :=
  data <- dequeue_spsc 8 ring buffer ;; Ret (pointer data).

Definition ck_ring_enqueue_mpmc (ring buffer entry : Z) := enqueue_mpmc 8 ring buffer [entry].
Definition ck_ring_enqueue_mpmc_size (ring buffer entry : Z) := enqueue_mpmc_size 8 ring buffer [entry].
Definition ck_ring_enqueue_reserve_mpmc := enqueue_reserve_mpmc 8.
Definition ck_ring_enqueue_reserve_mpmc_size := enqueue_reserve_mpmc_size 8.
Definition ck_ring_enqueue_commit_mpmc (ring ticket : Z) := _ck_ring_enqueue_commit_mp ring ticket.
Definition ck_ring_trydequeue_mpmc (ring buffer : Z) : prog (option Z) :=
  data <- trydequeue_mpmc 8 ring buffer ;; Ret (pointer data).
Definition ck_ring_dequeue_mpmc (ring buffer : Z) : prog (option Z) :=
  data <- dequeue_mpmc 8 ring buffer ;; Ret (pointer data).

Definition ck_ring_enqueue_reserve_spmc_size := enqueue_reserve_spmc_size 8.
Definition ck_ring_enqueue_reserve_spmc := enqueue_reserve_spmc 8.
Definition ck_ring_enqueue_commit_spmc (ring : Z) := _ck_ring_enqueue_commit_sp ring.
Definition ck_ring_enqueue_spmc_size (ring buffer entry : Z) := enqueue_spmc_size 8 ring buffer [entry].
Definition ck_ring_enqueue_spmc (ring buffer entry : Z) := enqueue_spmc 8 ring buffer [entry].
Definition ck_ring_trydequeue_spmc (ring buffer : Z) : prog (option Z) :=
  data <- trydequeue_spmc 8 ring buffer ;; Ret (pointer data).
Definition ck_ring_dequeue_spmc (ring buffer : Z) : prog (option Z) :=
  data <- dequeue_spmc 8 ring buffer ;; Ret (pointer data).

Definition ck_ring_enqueue_reserve_mpsc := enqueue_reserve_mpsc 8.
Definition ck_ring_enqueue_reserve_mpsc_size := enqueue_reserve_mpsc_size 8.
Definition ck_ring_enqueue_commit_mpsc (ring ticket : Z) := _ck_ring_enqueue_commit_mp ring ticket.
Definition ck_ring_enqueue_mpsc (ring buffer entry : Z) := enqueue_mpsc 8 ring buffer [entry].
Definition ck_ring_enqueue_mpsc_size (ring buffer entry : Z) := enqueue_mpsc_size 8 ring buffer [entry].
Definition ck_ring_dequeue_mpsc (ring buffer : Z) : prog (option Z) :=
  data <- dequeue_mpsc 8 ring buffer ;; Ret (pointer data).
