(* ===== verification/RingProof.v ===== *)
(** The ring as an abstract object: a bounded queue with reservations, the
    operations of the four interfaces on it, and the arithmetic of the ring's
    counters and slots. *)

From iris.algebra Require Import auth numbers.
From iris.base_logic.lib Require Export ghost_map.
From S2P Require Export Linear Ghost Ring.
Set Warnings "-rewrite-rw".

(** * The abstract ring

    The entries in the ring, and how many slots are reserved by enqueues that have
    not committed. *)

Record queue := Queue { q_entries : list (list Z); q_reserved : nat }.

Definition used (s : queue) : Z := Z.of_nat (length (q_entries s) + q_reserved s).

Inductive ring_event :=
| EFull                                (* observes that no slot is free *)
| EReserve (size : option Z)           (* takes a slot *)
| ECommit (x : list Z)
| EDequeue (x : option (list Z))
| ESize (n : Z).

(** A reservation reports how many slots are in use; a producer that is not alone
    may report more, because consumers have moved on since it looked. *)
Definition ring_trans (mp : bool) (cap : Z) (s : queue) (e : ring_event) (s' : queue) : Prop :=
  match e with
  | EFull => used s = cap /\ s' = s
  | EReserve size =>
      used s < cap /\ s' = Queue (q_entries s) (S (q_reserved s)) /\
      match size with
      | None => True
      | Some n => if mp then used s <= n < cap else n = used s
      end
  | ECommit x =>
      q_reserved s <> O /\ s' = Queue (q_entries s ++ [x]) (q_reserved s - 1)
  | EDequeue None => q_entries s = [] /\ s' = s
  | EDequeue (Some x) => q_entries s = x :: q_entries s' /\ q_reserved s' = q_reserved s
  | ESize n => n = Z.of_nat (length (q_entries s)) /\ s' = s
  end.

(** * Operations

    [OpInPlace] reserves a region, writes the entry there and commits; [OpSize]
    is called by the one producer or by the one consumer. *)

Inductive ring_op :=
| OpEnqueue (x : list Z) | OpEnqueueSize (x : list Z)
| OpInPlace (x : list Z) | OpInPlaceSize (x : list Z)
| OpDequeue | OpTryDequeue | OpSize (producer : bool).

Inductive ring_ret :=
| RBool (b : bool) | RBoolSize (b : bool) (n : Z) | RValue (x : option (list Z)) | RSize (n : Z).

(** The looks at a full ring before the decision. *)
Definition full_looks (evs : list ring_event) : Prop := ∃ k, evs = replicate k EFull.

Definition enqueue_events (x : list Z) (ok : bool) (size : option Z) (evs : list ring_event) : Prop :=
  if ok then ∃ looks, full_looks looks /\ evs = looks ++ [EReserve size; ECommit x]
  else ∃ looks, full_looks looks /\ evs = looks ++ [EFull].

Definition ring_events (cap : Z) (op : ring_op) (r : ring_ret) (evs : list ring_event) : Prop :=
  match op, r with
  | OpEnqueue x, RBool b | OpInPlace x, RBool b => enqueue_events x b None evs
  | OpEnqueueSize x, RBoolSize b n | OpInPlaceSize x, RBoolSize b n =>
      (b = false -> n = cap) /\ enqueue_events x b (Some n) evs
  | OpDequeue, RValue o => evs = [EDequeue o]
  | OpTryDequeue, RValue o => evs = [EDequeue o] \/ o = None /\ evs = []
  | OpSize _, RSize n => evs = [ESize n]
  | _, _ => False
  end.

Section code.
Context (mp mc : bool) (ring buffer ts : Z).

Definition use_reserved_sp (r : option Z) (x : list Z) : prog bool :=
  match r with
  | Some a => memcpy_to_slot a x ts ;; _ck_ring_enqueue_commit_sp ring ;; Ret true
  | None => Ret false
  end.

Definition use_reserved_mp (r : option (Z * Z)) (x : list Z) : prog bool :=
  match r with
  | Some (a, ticket) => memcpy_to_slot a x ts ;; _ck_ring_enqueue_commit_mp ring ticket ;; Ret true
  | None => Ret false
  end.

Definition ring_code (op : ring_op) : prog ring_ret :=
  match op with
  | OpEnqueue x =>
      b <- (match mp, mc with
            | false, false => enqueue_spsc | false, true => enqueue_spmc
            | true, false => enqueue_mpsc | true, true => enqueue_mpmc
            end) ts ring buffer x ;;
      Ret (RBool b)
  | OpEnqueueSize x =>
      letp (b, n) := (match mp, mc with
            | false, false => enqueue_spsc_size | false, true => enqueue_spmc_size
            | true, false => enqueue_mpsc_size | true, true => enqueue_mpmc_size
            end) ts ring buffer x ;;
      Ret (RBoolSize b n)
  | OpInPlace x =>
      b <- (if mp then
              r <- (if mc then enqueue_reserve_mpmc else enqueue_reserve_mpsc) ts ring buffer ;;
              use_reserved_mp r x
            else
              r <- (if mc then enqueue_reserve_spmc else enqueue_reserve_spsc) ts ring buffer ;;
              use_reserved_sp r x) ;;
      Ret (RBool b)
  | OpInPlaceSize x =>
      if mp then
        letp (r, n) := (if mc then enqueue_reserve_mpmc_size else enqueue_reserve_mpsc_size) ts ring buffer ;;
        b <- use_reserved_mp r x ;; Ret (RBoolSize b n)
      else
        letp (r, n) := (if mc then enqueue_reserve_spmc_size else enqueue_reserve_spsc_size) ts ring buffer ;;
        b <- use_reserved_sp r x ;; Ret (RBoolSize b n)
  | OpDequeue =>
      o <- (match mp, mc with
            | false, false => dequeue_spsc | false, true => dequeue_spmc
            | true, false => dequeue_mpsc | true, true => dequeue_mpmc
            end) ts ring buffer ;;
      Ret (RValue o)
  | OpTryDequeue =>
      o <- (if mp then trydequeue_mpmc else trydequeue_spmc) ts ring buffer ;; Ret (RValue o)
  | OpSize _ => n <- ck_ring_size ring ;; Ret (RSize n)
  end.

Definition ring_object (cap : Z) : object := {|
  ost := queue; oop := ring_op; ores := ring_ret; oev := ring_event;
  oinit := Queue [] 0;
  otrans := ring_trans mp cap;
  oevents := ring_events cap;
  ocode := ring_code;
|}.
End code.

(** * Scripts *)

Definition enqueues (op : ring_op) : bool :=
  match op with OpEnqueue _ | OpEnqueueSize _ | OpInPlace _ | OpInPlaceSize _ => true | _ => false end.
Definition producing (op : ring_op) : bool := enqueues op || match op with OpSize b => b | _ => false end.
Definition consuming (op : ring_op) : bool := negb (producing op).

Definition op_ok (mp mc : bool) (ts : Z) (op : ring_op) : Prop :=
  match op with
  | OpEnqueue x | OpEnqueueSize x | OpInPlace x | OpInPlaceSize x => length x = words ts
  | OpDequeue => True
  | OpTryDequeue => mc = true
  | OpSize producer => if producer then mp = false else mc = false
  end.

Definition count_enqueues (ops : list ring_op) : nat := length (filter (fun op => enqueues op = true) ops).

(** What the interface asks of its users.  With several producers or consumers a
    thread may sleep between reading a counter and its compare-and-swap; fewer
    than 2^32 entries must pass in the lifetime of the ring. *)
Definition scripts_ok (mp mc : bool) (ts : Z) (scripts : list (list ring_op)) : Prop :=
  Forall (Forall (op_ok mp mc ts)) scripts /\
  (mp = false -> alone producing scripts) /\
  (mc = false -> alone consuming scripts) /\
  (mp || mc = true -> Z.of_nat (sum_list (count_enqueues <$> scripts)) < 2 ^ 32).

(** A ring just initialised over a buffer of [2 ^ sh] slots. *)
Definition ring_memory (ring buffer ts : Z) (sh : nat) (ws : list Z) : mem :=
  array_mem ring [0; 0; 0; 2 ^ Z.of_nat sh; 2 ^ Z.of_nat sh - 1] ∪ array_mem buffer ws.

Definition ring_layout (ring buffer ts : Z) (sh : nat) (ws : list Z) : Prop :=
  (sh <= 31)%nat /\ 0 < ts /\ ts mod 8 = 0 /\ ts * 2 ^ Z.of_nat sh <= 2 ^ 32 /\
  Z.of_nat (length ws) = ts / 8 * 2 ^ Z.of_nat sh /\
  (ring + 5 <= buffer \/ buffer + Z.of_nat (length ws) <= ring).

(** * Counters and slots

    The ring with [N] slots after [C] dequeues, [T] commits and [H] reservations;
    [all] are the entries ever committed, [tk] maps a reserved ticket to the words
    its owner has written so far; [k] more reservations will be made. *)

Record ring_ok (N w total C T H k : nat) (all slots : list (list Z)) (tk : gmap nat (list Z)) : Prop := {
  ok_all : length all = T;
  ok_ct : (C <= T)%nat;
  ok_th : (T <= H)%nat;
  ok_hc : (H < C + N)%nat;
  ok_total : (H + k <= total)%nat;
  ok_slots : length slots = N;
  ok_words : Forall (fun s => length s = w) slots;
  ok_entries : Forall (fun s => length s = w) all;
  ok_tk j : is_Some (tk !! j) <-> (T <= j < H)%nat;
  ok_live j x : (C <= j)%nat -> all !! j = Some x -> slots !! (j mod N)%nat = Some x;
  ok_written j p : tk !! j = Some p -> ∃ s, slots !! (j mod N)%nat = Some s /\ p `prefix_of` s;
}.

Arguments ok_all {N w total C T H k all slots tk}.
Arguments ok_ct {N w total C T H k all slots tk}.
Arguments ok_th {N w total C T H k all slots tk}.
Arguments ok_hc {N w total C T H k all slots tk}.
Arguments ok_total {N w total C T H k all slots tk}.
Arguments ok_slots {N w total C T H k all slots tk}.
Arguments ok_words {N w total C T H k all slots tk}.
Arguments ok_entries {N w total C T H k all slots tk}.
Arguments ok_tk {N w total C T H k all slots tk}.
Arguments ok_live {N w total C T H k all slots tk}.
Arguments ok_written {N w total C T H k all slots tk}.

Section steps.
Context (N w total C T H k : nat) (all slots : list (list Z)) (tk : gmap nat (list Z)).
Context (Hok : ring_ok N w total C T H k all slots tk).

Lemma ring_ok_reserve k' :
  k = S k' -> (S H < C + N)%nat -> ring_ok N w total C T (S H) k' all slots (<[H := []]> tk).
Proof using Hok.
  intros -> Hroom. destruct Hok. split; try done; try lia.
  - intros j. rewrite lookup_insert_is_Some' ok_tk0. lia.
  - intros j p [[<- <-]|[Hne Hp]]%lookup_insert_Some; [|by apply ok_written0].
    destruct (lookup_lt_is_Some_2 slots (H mod N)) as [s Hs]; [|by exists s; split; [|apply prefix_nil]].
    rewrite ok_slots0. apply Nat.mod_upper_bound. lia.
Qed.

Lemma ring_ok_write j p s v :
  tk !! j = Some p -> slots !! (j mod N)%nat = Some s -> (length p < w)%nat ->
  ring_ok N w total C T H k all (<[(j mod N)%nat := <[length p := v]> s]> slots) (<[j := p ++ [v]]> tk).
Proof using Hok.
  intros Hj Hs Hlt. destruct Hok.
  assert (T <= j < H)%nat as Hjr by (apply ok_tk0; eauto).
  assert (length s = w) as Hw by (rewrite Forall_lookup in ok_words0; eauto).
  split; try done.
  - by rewrite length_insert.
  - apply Forall_insert; [done|by rewrite length_insert].
  - intros i. rewrite lookup_insert_is_Some' ok_tk0. lia.
  - intros i x Hi Hx. rewrite list_lookup_insert_ne; [by apply ok_live0|].
    intros Heq. apply (mod_near N C) in Heq; [|lia|].
    + apply lookup_lt_Some in Hx. lia.
    + apply lookup_lt_Some in Hx. lia.
  - intros i q [[<- <-]|[Hne Hq]]%lookup_insert_Some.
    + eexists. split; [apply list_lookup_insert_eq; by eapply lookup_lt_Some|].
      destruct (ok_written0 j p Hj) as (s' & Hs' & r & ->). simplify_eq.
      destruct r as [|o r]; [rewrite app_nil_r in Hlt; lia|].
      rewrite insert_app_r_alt // Nat.sub_diag /=. exists r. by rewrite -app_assoc.
    + rewrite list_lookup_insert_ne; [by apply ok_written0|]. intros Heq.
      apply (mod_near N C) in Heq; [done|lia|]. assert (T <= i < H)%nat by (apply ok_tk0; eauto). lia.
Qed.

Lemma ring_ok_commit x :
  tk !! T = Some x -> length x = w ->
  ring_ok N w total C (S T) H k (all ++ [x]) slots (delete T tk).
Proof using Hok.
  intros Hx Hw. destruct Hok. assert (T <= T < H)%nat as HT by (apply ok_tk0; eauto).
  split; try done; try lia.
  - rewrite length_app /=. lia.
  - apply Forall_app. by repeat constructor.
  - intros j. rewrite lookup_delete_is_Some ok_tk0. lia.
  - intros j y Hj [Hy|[Hl Hy]]%lookup_app_Some; [by apply ok_live0|].
    apply list_lookup_singleton_Some in Hy as [Heq <-]. assert (j = T) as -> by lia.
    destruct (ok_written0 T x Hx) as (s & Hs & r & ->).
    rewrite Forall_lookup in ok_words0. apply ok_words0 in Hs as Hl'. rewrite length_app in Hl'.
    destruct r; [by rewrite app_nil_r in Hs|]. simpl in Hl'. lia.
  - intros j p [Hne Hp]%lookup_delete_Some. by apply ok_written0.
Qed.

Lemma ring_ok_dequeue : (C < T)%nat -> ring_ok N w total (S C) T H k all slots tk.
Proof using Hok. intros HC. destruct Hok. split; try done; try lia. intros j x Hj. apply ok_live0. lia. Qed.

Lemma ring_ok_slot i : ∃ s, slots !! (i mod N)%nat = Some s /\ length s = w.
Proof using Hok.
  destruct Hok. destruct (lookup_lt_is_Some_2 slots (i mod N)) as [s Hs].
  { rewrite ok_slots0. apply Nat.mod_upper_bound. lia. }
  exists s. split; [done|]. rewrite Forall_lookup in ok_words0. eauto.
Qed.

(** The slot of a live entry. *)
Lemma ring_ok_read : (C < T)%nat -> ∃ x, all !! C = Some x /\ length x = w.
Proof using Hok.
  intros HC. destruct (ring_ok_slot C) as (s & Hs & Hw). destruct Hok.
  destruct (lookup_lt_is_Some_2 all C) as [x Hx]; [lia|]. exists x. split; [done|].
  pose proof (ok_live0 C x ltac:(lia) Hx). congruence.
Qed.
End steps.

(** The ring: its representation in separation logic and the specification of
    every operation as atomic events on the abstract ring. *)

(** * Arithmetic *)

Lemma slot_mask (sh c : nat) :
  (sh <= 31)%nat -> Z.land (u32 (Z.of_nat c)) (2 ^ Z.of_nat sh - 1) = Z.of_nat (c mod 2 ^ sh).
Proof.
  intros Hsh. rewrite Z.sub_1_r -Z.ones_equiv Z.land_ones; [|lia].
  rewrite /u32 Nat2Z.inj_mod Nat2Z.inj_pow -Znumtheory.Zmod_div_mod //; [lia|].
  exists (2 ^ (32 - Z.of_nat sh)). rewrite -Z.pow_add_r; [|lia..].
  by replace (32 - Z.of_nat sh + Z.of_nat sh) with 32 by lia.
Qed.

Lemma land_size (sh : nat) (p c : Z) :
  (sh <= 31)%nat -> 0 <= p - c < 2 ^ Z.of_nat sh ->
  Z.land (u32 (u32 p - u32 c)) (2 ^ Z.of_nat sh - 1) = p - c.
Proof.
  intros Hsh Hpc. rewrite Z.sub_1_r -Z.ones_equiv Z.land_ones; [|lia].
  rewrite u32_sub_r u32_sub_l u32_small; [apply Z.mod_small; lia|].
  assert (2 ^ Z.of_nat sh <= 2 ^ 31) by (apply Z.pow_le_mono_r; lia). lia.
Qed.

Lemma pow2_nat sh : Z.of_nat (2 ^ sh) = 2 ^ Z.of_nat sh.
Proof. by rewrite Nat2Z.inj_pow. Qed.

Lemma slot_word (buffer ts : Z) (sh i : nat) :
  0 < ts -> ts mod 8 = 0 -> ts * 2 ^ Z.of_nat sh <= 2 ^ 32 -> (i < 2 ^ sh)%nat ->
  slot buffer ts (Z.of_nat i) = buffer + Z.of_nat (words ts * i).
Proof.
  intros Hts Hm Hle Hi. pose proof (pow2_nat sh) as Hp. rewrite /slot /words.
  assert (ts = 8 * (ts / 8)) as Heq by (pose proof (Z.div_mod ts 8); lia).
  rewrite u32_small; [|nia]. rewrite {1}Heq -Z.mul_assoc Z.mul_comm Z.div_mul //. nia.
Qed.

(** The test of a single producer: the next slot is the consumer's. *)
Lemma full_test (sh T C : nat) :
  (sh <= 31)%nat -> (C <= T)%nat -> (T < C + 2 ^ sh)%nat ->
  Z.land (u32 (u32 (Z.of_nat T) + 1)) (2 ^ Z.of_nat sh - 1) =
    Z.land (u32 (Z.of_nat C)) (2 ^ Z.of_nat sh - 1) <-> (S T = C + 2 ^ sh)%nat.
Proof.
  intros Hsh HCT HT. rewrite u32_add_l. replace (Z.of_nat T + 1) with (Z.of_nat (S T)) by lia.
  rewrite !slot_mask //. split.
  - intros Heq%Nat2Z.inj. apply (mod_near (2 ^ sh) (S C)); [lia|lia|].
    rewrite Heq -{2}(Nat.mul_1_l (2 ^ sh)) Nat.Div0.mod_add //.
  - intros ->. f_equal. rewrite -{1}(Nat.mul_1_l (2 ^ sh)) Nat.Div0.mod_add //.
Qed.

(** * Ghost state *)

Record ring_name := RingName {
  n_c : gname; n_t : gname; n_h : gname; n_all : gname; n_tk : gname; n_cr : gname; n_p : gname; n_cv : gname
}.

Definition ringN : namespace := objN.

(** The state of the ring, opened around one operation and closed after it. *)
Tactic Notation "open_ring" "(" simple_intropattern(C) simple_intropattern(T) simple_intropattern(H)
    simple_intropattern(k) simple_intropattern(all) simple_intropattern(slots)
    simple_intropattern(tk) ")" simple_intropattern(Hok) :=
  try iClear "Hels"; iInv ringN as ">Hi"; iDestruct "Hi" as (C T H k all slots tk)
    "(Hch & Hpt & Hph & Hs & Hcc & Htt & Hh & Hp & Hcv & Hal & #Hels & Htk & Hcr & Ho & Hok)";
  iDestruct "Hok" as %Hok.

Ltac close_ring C T H k all slots tk :=
  iNext; iExists C, T, H, k, all, slots, tk; iFrame "∗#".

Section proof.
Context `{!ckGS Σ, !ghost_varG Σ queue, !ghost_varG Σ (nat * nat), !ghost_varG Σ nat}.
Context `{!ghost_mapG Σ nat (list Z), !mono_natG Σ, !inG Σ (authR natUR)}.
Context (mp mc : bool).

(** What the producer knows if it is alone, and the consumer. *)
Definition prod_at (γ : ring_name) (t h : nat) : iProp Σ :=
  (if mp then True else ghost_var (n_p γ) (1/2) (t, h))%I.
Definition cons_at (γ : ring_name) (c : nat) : iProp Σ :=
  (mono_nat_lb_own (n_c γ) c ∗ if mc then True else ghost_var (n_cv γ) (1/2) c)%I.

Lemma prod_agree γ T H t h :
  ghost_var (n_p γ) (if mp then 1 else 1/2)%Qp (T, H) -∗ prod_at γ t h -∗ ⌜mp = false -> t = T /\ h = H⌝.
Proof.
  rewrite /prod_at. destruct mp; iIntros "H1 H2"; [iPureIntro; done|].
  iDestruct (ghost_var_agree with "H2 H1") as %[= -> ->]. done.
Qed.

Lemma prod_exact γ T H t h :
  mp = false ->
  ghost_var (n_p γ) (if mp then 1 else 1/2)%Qp (T, H) -∗ prod_at γ t h -∗ ⌜t = T /\ h = H⌝.
Proof. iIntros (Hmp) "H1 H2". iDestruct (prod_agree with "H1 H2") as %Hx. iPureIntro. exact (Hx Hmp). Qed.

Lemma prod_update γ T H t h T' H' :
  ghost_var (n_p γ) (if mp then 1 else 1/2)%Qp (T, H) -∗ prod_at γ t h ==∗
  ghost_var (n_p γ) (if mp then 1 else 1/2)%Qp (T', H') ∗ prod_at γ T' H'.
Proof.
  rewrite /prod_at. destruct mp; iIntros "H1 H2".
  - iMod (ghost_var_update (T', H') with "H1") as "$". done.
  - iMod (ghost_var_update_halves (T', H') with "H1 H2") as "[$ $]". done.
Qed.

Lemma cons_agree γ C c :
  mono_nat_auth_own (n_c γ) 1 C -∗ ghost_var (n_cv γ) (if mc then 1 else 1/2)%Qp C -∗ cons_at γ c -∗
  ⌜(c <= C)%nat /\ (mc = false -> c = C)⌝.
Proof.
  iIntros "H1 H2 [H3 H4]". iDestruct (mono_nat_lb_own_valid with "H1 H3") as %[_ Hle].
  destruct mc; [iPureIntro; done|].
  iDestruct (ghost_var_agree with "H4 H2") as %->. done.
Qed.

Lemma cons_exact γ C c :
  mc = false ->
  mono_nat_auth_own (n_c γ) 1 C -∗ ghost_var (n_cv γ) (if mc then 1 else 1/2)%Qp C -∗ cons_at γ c -∗
  ⌜c = C⌝.
Proof.
  iIntros (Hmc) "H1 H2 H3". iDestruct (cons_agree with "H1 H2 H3") as %[_ Hx]. iPureIntro. exact (Hx Hmc).
Qed.

Lemma cons_update γ C c :
  mono_nat_auth_own (n_c γ) 1 C -∗ ghost_var (n_cv γ) (if mc then 1 else 1/2)%Qp C -∗ cons_at γ c ==∗
  mono_nat_auth_own (n_c γ) 1 (S C) ∗ ghost_var (n_cv γ) (if mc then 1 else 1/2)%Qp (S C) ∗ cons_at γ (S C).
Proof.
  iIntros "H1 H2 [H3 H4]".
  iMod (mono_nat_own_update (S C) with "H1") as "[$ $]"; [lia|].
  destruct mc.
  - iMod (ghost_var_update (S C) with "H2") as "$". done.
  - iMod (ghost_var_update_halves (S C) with "H2 H4") as "[$ $]". done.
Qed.

Context (ring buffer ts : Z) (sh total : nat).
Context (Hsh : (sh <= 31)%nat) (Hts : 0 < ts) (Hts8 : ts mod 8 = 0).
Context (Hfit : ts * 2 ^ Z.of_nat sh <= 2 ^ 32) (Htotal : mp || mc = true -> Z.of_nat total < 2 ^ 32).

Collection geometry := Hsh Hts Hts8 Hfit Htotal.

Abbreviation N := (2 ^ sh)%nat.
Abbreviation w := (words ts).
Abbreviation cap := (2 ^ Z.of_nat sh - 1).
Abbreviation slot_at j := (slot buffer ts (Z.land (u32 (Z.of_nat j)) cap)).

Definition slots_own (slots : list (list Z)) : iProp Σ :=
  [∗ list] i ↦ s ∈ slots, array (buffer + Z.of_nat (w * i)) (DfracOwn 1) s.

Definition ring_state (γ : ring_name) (γo : gname) : iProp Σ :=
  ∃ (C T H k : nat) (all slots : list (list Z)) (tk : gmap nat (list Z)),
    c_head ring ↦ u32 (Z.of_nat C) ∗ p_tail ring ↦ u32 (Z.of_nat T) ∗
    p_head ring ↦ (if mp then u32 (Z.of_nat H) else 0) ∗ slots_own slots ∗
    mono_nat_auth_own (n_c γ) 1 C ∗ mono_nat_auth_own (n_t γ) 1 T ∗ mono_nat_auth_own (n_h γ) 1 H ∗
    ghost_var (n_p γ) (if mp then 1 else 1/2)%Qp (T, H) ∗
    ghost_var (n_cv γ) (if mc then 1 else 1/2)%Qp C ∗
    ghost_map_auth (n_all γ) 1 (map_seq 0 all) ∗ ([∗ list] j ↦ x ∈ all, j ↪[n_all γ]□ x) ∗
    ghost_map_auth (n_tk γ) 1 tk ∗ own (n_cr γ) (● k) ∗ ghost_var γo (1/2) (Queue (drop C all) (H - T)) ∗
    ⌜ring_ok N w total C T H k all slots tk⌝.

Definition ring_inv (γ : ring_name) (γo : gname) : iProp Σ :=
  inv ringN (ring_state γ γo) ∗ mask ring ↦□ cap.

Definition ring_shift (γo : gname) (P : list ring_event -> iProp Σ) : iProp Σ :=
  lin_shift (O:=ring_object mp mc ring buffer ts cap) γo P.

(** A reserved slot, with what has been written to it. *)
Definition ticket (γ : ring_name) (j : nat) (p : list Z) : iProp Σ := j ↪[n_tk γ] p.

(** The words of one slot. *)
Lemma slot_acc slots i s m v :
  slots !! i = Some s -> s !! m = Some v -> length slots = N ->
  slots_own slots -∗
  (slot buffer ts (Z.of_nat i) + Z.of_nat m) ↦ v ∗
  (∀ v', (slot buffer ts (Z.of_nat i) + Z.of_nat m) ↦ v' -∗ slots_own (<[i := <[m := v']> s]> slots)).
Proof using geometry.
  iIntros (Hi Hm HN) "H".
  rewrite (slot_word buffer ts sh i) //; [|apply lookup_lt_Some in Hi; lia].
  iDestruct (big_sepL_insert_acc with "H") as "[Hs H]"; [done|].
  iDestruct (array_acc with "Hs") as "[$ Hs]"; [done|].
  iIntros (v') "Hv". iApply "H". by iApply "Hs".
Qed.

(** * Copying *)

Lemma slot_mod j : slot_at j = slot buffer ts (Z.of_nat (j mod N)).
Proof using geometry. by rewrite slot_mask. Qed.

Lemma write_words_spec γ γo j p ws :
  (length p + length ws <= w)%nat ->
  inv ringN (ring_state γ γo) -∗ ticket γ j p -∗
  WP write_words (slot_at j + Z.of_nat (length p)) ws {{ _, ticket γ j (p ++ ws) }}.
Proof using geometry.
  iIntros (Hlen) "#Hinv Ht". iInduction ws as [|v ws] "IH" forall (p Hlen); cbn [write_words].
  { wp_pures. by rewrite app_nil_r. }
  simpl in Hlen. wp_focus.
  open_ring (C T H k all slots tk) Hok.
  iDestruct (ghost_map_lookup with "Htk Ht") as %Hj.
  destruct (ok_written Hok j p Hj) as (s & Hs & r & Hr).
  assert (length s = w) as Hw.
  { destruct (ring_ok_slot _ _ _ _ _ _ _ _ _ _ Hok j) as (? & ? & ?). congruence. }
  destruct (lookup_lt_is_Some_2 s (length p)) as [v0 Hv0]; [lia|].
  rewrite slot_mod. iDestruct (slot_acc with "Hs") as "[Hv Hs]"; [done|done|apply Hok|].
  iMod (ghost_map_update (p ++ [v]) with "Htk Ht") as "[Htk Ht]".
  wp_store "Hv". iDestruct ("Hs" with "Hv") as "Hs". iModIntro. iSplitR "Ht".
  { iNext. iExists C, T, H, k, all, _, _. iFrame "∗#". iPureIntro. apply ring_ok_write; try done. lia. }
  replace (slot _ _ _ + Z.of_nat (length p) + 1)
    with (slot buffer ts (Z.of_nat (j mod N)) + Z.of_nat (length (p ++ [v])))
    by (rewrite length_app /=; lia).
  rewrite -slot_mod. replace (p ++ v :: ws) with ((p ++ [v]) ++ ws) by by rewrite -app_assoc.
  iApply ("IH" with "[] Ht"). iPureIntro. rewrite length_app /=. lia.
Qed.

Lemma copy_in_spec γ γo j x :
  length x = w ->
  inv ringN (ring_state γ γo) -∗ ticket γ j [] -∗
  WP memcpy_to_slot (slot_at j) x ts {{ _, ticket γ j x }}.
Proof using geometry.
  iIntros (Hx) "#Hinv Ht". rewrite /memcpy_to_slot take_ge; [|lia].
  iPoseProof (write_words_spec γ γo j [] x with "Hinv Ht") as "H"; [simpl; lia|].
  by rewrite /= Z.add_0_r.
Qed.

(** What a consumer has copied: the entry, unless another consumer has taken it. *)
Definition copied (γ : ring_name) (c : nat) (ok : Prop) : iProp Σ :=
  ⌜ok⌝ ∨ (⌜mc = true⌝ ∗ mono_nat_lb_own (n_c γ) (S c)).

Lemma copied_impl γ c (P Q : Prop) : (P -> Q) -> copied γ c P -∗ copied γ c Q.
Proof. iIntros (H) "[%HP|H]"; [iLeft; iPureIntro; auto|by iRight]. Qed.

Lemma copied_and γ c (P Q : Prop) : copied γ c P -∗ copied γ c Q -∗ copied γ c (P /\ Q).
Proof. iIntros "[%HP|H] [%HQ|H']"; [by iLeft|by iRight..]. Qed.

Lemma read_words_spec γ γo c x m n :
  (m + n <= w)%nat -> length x = w ->
  inv ringN (ring_state γ γo) -∗ c ↪[n_all γ]□ x -∗ cons_at γ c -∗
  WP read_words (slot_at c + Z.of_nat m) n
  {{ ws, cons_at γ c ∗ copied γ c (ws = take n (drop m x)) }}.
Proof using geometry.
  iIntros (Hle Hx) "#Hinv #Hall Hc".
  iInduction n as [|n] "IH" forall (m Hle); cbn [read_words].
  { wp_pures. iFrame. by iLeft. }
  wp_focus.
  open_ring (C T H k all slots tk) Hok.
  iDestruct (cons_agree with "Hcc Hcv Hc") as %[HcC Hexact].
  iDestruct (ghost_map_lookup with "Hal Hall") as %Hac. rewrite lookup_map_seq_0 in Hac.
  pose proof (lookup_lt_Some _ _ _ Hac) as HcT. rewrite (ok_all Hok) in HcT.
  destruct (ring_ok_slot _ _ _ _ _ _ _ _ _ _ Hok c) as (s & Hs & Hw).
  destruct (lookup_lt_is_Some_2 s m) as [v Hv]; [lia|].
  iAssert (copied γ c (x !! m = Some v)) as "#Hcopied".
  { destruct (decide (c = C)) as [->|Hne].
    - iLeft. iPureIntro. pose proof (ok_live Hok C x ltac:(lia) Hac). congruence.
    - iRight. iSplit; [iPureIntro; destruct mc; [done|]; by exfalso; apply Hne, Hexact|].
      iDestruct (mono_nat_lb_own_get with "Hcc") as "#Hlb". iApply (mono_nat_lb_own_le with "Hlb"). lia. }
  rewrite slot_mod. iDestruct (slot_acc with "Hs") as "[Hvv Hs]"; [done|done|apply Hok|].
  wp_load "Hvv". iDestruct ("Hs" with "Hvv") as "Hs".
  rewrite !list_insert_id //. iModIntro. iSplitR "Hc".
  { by close_ring C T H k all slots tk. }
  replace (slot _ _ _ + Z.of_nat m + 1)
    with (slot buffer ts (Z.of_nat (c mod N)) + Z.of_nat (S m)) by lia.
  rewrite -slot_mod. wp_focus. iApply (wp_wand (Λ:=ck_lang (list Z)) with "[Hc]").
  { iApply ("IH" with "[] Hc"). iPureIntro. lia. }
  iIntros (ws) "[Hc #Hcopied']". wp_pures. iFrame.
  iApply (copied_impl with "[]"); [|iApply (copied_and with "Hcopied Hcopied'")].
  intros [Hm ->]. by rewrite (drop_S x v m Hm).
Qed.

Lemma copy_out_spec γ γo c x :
  length x = w ->
  inv ringN (ring_state γ γo) -∗ c ↪[n_all γ]□ x -∗ cons_at γ c -∗
  WP memcpy_from_slot (slot_at c) ts {{ ws, cons_at γ c ∗ copied γ c (ws = x) }}.
Proof using geometry.
  iIntros (Hx) "#Hinv #Hall Hc". rewrite /memcpy_from_slot.
  iPoseProof (read_words_spec γ γo c x 0 w with "Hinv Hall Hc") as "H"; [lia|done|].
  rewrite /= Z.add_0_r drop_0 take_ge; [|lia]. done.
Qed.
End proof.
