(* ===== verification/RingOps.v ===== *)
(** The ring: the specifications of [_ck_ring_*], one producer or many, one
    consumer or many, as events on the abstract ring. *)

From iris.algebra Require Import auth numbers.
From S2P Require Export RingProof.
Set Warnings "-rewrite-rw".

(** The mask never changes: [Hmask] is persistent. *)
Ltac wp_load_mask := wp_focus; iApply (wp_load with "Hmask"); iIntros "!> _"; wp_norm.

Section ops.
Context `{!ckGS Σ, !ghost_varG Σ queue, !ghost_varG Σ (nat * nat), !ghost_varG Σ nat}.
Context `{!ghost_mapG Σ nat (list Z), !mono_natG Σ, !inG Σ (authR natUR)}.
Context (mp mc : bool) (ring buffer ts : Z) (sh total : nat).
Context (Hsh : (sh <= 31)%nat) (Hts : 0 < ts) (Hts8 : ts mod 8 = 0).
Context (Hfit : ts * 2 ^ Z.of_nat sh <= 2 ^ 32) (Htotal : mp || mc = true -> Z.of_nat total < 2 ^ 32).

Collection geometry := Hsh Hts Hts8 Hfit Htotal.

Abbreviation N := (2 ^ sh)%nat.
Abbreviation w := (words ts).
Abbreviation cap := (2 ^ Z.of_nat sh - 1).
Abbreviation slot_at j := (slot buffer ts (Z.land (u32 (Z.of_nat j)) cap)).
Abbreviation ring_state := (ring_state mp mc ring buffer ts sh total).
Abbreviation ring_inv := (ring_inv mp mc ring buffer ts sh total).
Abbreviation ring_shift := (ring_shift mp mc ring buffer ts sh).
Abbreviation prod_at := (prod_at mp).
Abbreviation cons_at := (cons_at mc).
Abbreviation ok C T H k all slots tk := (ring_ok N w total C T H k all slots tk).
Implicit Types (P : list ring_event -> iProp Σ) (evs : list ring_event).

Definition credit (γ : ring_name) (n : nat) : iProp Σ := own (n_cr γ) (◯ n).

(** * Events *)

Lemma used_entries C T H (all : list (list Z)) :
  length all = T -> (C <= T)%nat -> (T <= H)%nat -> used (Queue (drop C all) (H - T)) = Z.of_nat (H - C).
Proof. intros Hl HC HT. rewrite /used /= length_drop Hl. lia. Qed.

Lemma credit_use γ k m :
  own (n_cr γ) (● k) -∗ credit γ (S m) ==∗ ∃ k', ⌜k = S k'⌝ ∗ own (n_cr γ) (● k') ∗ credit γ m.
Proof.
  iIntros "Ha Hf". iCombine "Ha Hf" gives %[Hle%nat_included _]%auth_both_valid_discrete.
  destruct k as [|k]; [lia|]. iMod (own_update_2 with "Ha Hf") as "[Ha Hf]".
  { apply auth_update, (nat_local_update _ _ k m). lia. }
  iModIntro. iExists k. by iFrame.
Qed.

Lemma event_full γo P evs C T H k all slots tk :
  ok C T H k all slots tk -> (S H = C + N)%nat ->
  ring_shift γo P -∗ ghost_var γo (1/2) (Queue (drop C all) (H - T)) -∗ P evs ={⊤ ∖ ↑ringN}=∗
  ghost_var γo (1/2) (Queue (drop C all) (H - T)) ∗ P (evs ++ [EFull]).
Proof.
  iIntros (Hok Hfull) "#Hsh Ho HP". iApply ("Hsh" with "[%] Ho HP"). split; [|done].
  rewrite used_entries; [|apply Hok..]. pose proof (pow2_nat sh).
  pose proof (ok_ct Hok). pose proof (ok_th Hok). lia.
Qed.

Lemma event_reserve γ γo P evs o m C T H k all slots tk :
  ok C T H k all slots tk -> (S H < C + N)%nat ->
  (match o with
   | Some n => if mp then Z.of_nat (H - C) <= n < cap else n = Z.of_nat (H - C)
   | None => True
   end) ->
  ring_shift γo P -∗ ghost_var γo (1/2) (Queue (drop C all) (H - T)) -∗ P evs -∗
  own (n_cr γ) (● k) -∗ credit γ (S m) -∗ ghost_map_auth (n_tk γ) 1 tk -∗
  mono_nat_auth_own (n_h γ) 1 H ={⊤ ∖ ↑ringN}=∗
  ∃ k', ghost_var γo (1/2) (Queue (drop C all) (S H - T)) ∗ P (evs ++ [EReserve o]) ∗
    own (n_cr γ) (● k') ∗ credit γ m ∗ ghost_map_auth (n_tk γ) 1 (<[H := []]> tk) ∗ ticket γ H [] ∗
    mono_nat_auth_own (n_h γ) 1 (S H) ∗ ⌜ok C T (S H) k' all slots (<[H := []]> tk)⌝.
Proof.
  iIntros (Hok Hroom Ho) "#Hsh Ho HP Hcr Hc Htk Hh".
  iMod (credit_use with "Hcr Hc") as (k' ->) "[$ $]".
  iMod (ghost_map_insert H [] with "Htk") as "[$ $]".
  { apply eq_None_not_Some. rewrite (ok_tk Hok). lia. }
  iMod (mono_nat_own_update (S H) with "Hh") as "[$ _]"; [lia|].
  iMod ("Hsh" $! evs (EReserve o) with "[%] Ho HP") as "[$ $]".
  { pose proof (ok_th Hok); pose proof (ok_ct Hok). split; [|split].
    - rewrite used_entries; [|apply Hok..]. pose proof (pow2_nat sh). lia.
    - simpl. f_equal. lia.
    - rewrite used_entries; [|apply Hok..]. done. }
  iPureIntro. by eapply ring_ok_reserve.
Qed.

Lemma event_commit γ γo P evs x C T H k all slots tk :
  ok C T H k all slots tk -> length x = w ->
  ring_shift γo P -∗ ghost_var γo (1/2) (Queue (drop C all) (H - T)) -∗ P evs -∗
  ghost_map_auth (n_tk γ) 1 tk -∗ ticket γ T x -∗ ghost_map_auth (n_all γ) 1 (map_seq 0 all) -∗
  ([∗ list] j ↦ x ∈ all, j ↪[n_all γ]□ x) -∗ mono_nat_auth_own (n_t γ) 1 T ={⊤ ∖ ↑ringN}=∗
  ghost_var γo (1/2) (Queue (drop C (all ++ [x])) (H - S T)) ∗ P (evs ++ [ECommit x]) ∗
    ghost_map_auth (n_tk γ) 1 (delete T tk) ∗ ghost_map_auth (n_all γ) 1 (map_seq 0 (all ++ [x])) ∗
    ([∗ list] j ↦ x ∈ (all ++ [x]), j ↪[n_all γ]□ x) ∗ mono_nat_auth_own (n_t γ) 1 (S T) ∗
    ⌜ok C (S T) H k (all ++ [x]) slots (delete T tk)⌝.
Proof.
  iIntros (Hok Hx) "#Hsh Ho HP Htk Ht Hal #Hels Htt".
  iDestruct (ghost_map_lookup with "Htk Ht") as %HT.
  pose proof (ring_ok_commit _ _ _ _ _ _ _ _ _ _ Hok x HT Hx) as Hok'.
  iMod (ghost_map_delete with "Htk Ht") as "$".
  iMod (ghost_map_insert_persist (length all) x with "Hal") as "[Hal #Hel]".
  { rewrite lookup_map_seq_0. by apply lookup_ge_None. }
  rewrite map_seq_snoc /=. iFrame "Hal".
  iMod (mono_nat_own_update (S T) with "Htt") as "[$ _]"; [lia|].
  iMod ("Hsh" $! evs (ECommit x) with "[%] Ho HP") as "[Ho $]".
  { split; [|reflexivity]. simpl. pose proof (ok_th Hok'). lia. }
  iModIntro. simpl. rewrite drop_app_le; [|rewrite (ok_all Hok); apply Hok].
  replace (H - T - 1)%nat with (H - S T)%nat by lia. iFrame "Ho".
  rewrite big_sepL_app big_sepL_singleton Nat.add_0_r. by iFrame "#".
Qed.

(** An empty ring, and the entry a consumer takes. *)
Lemma event_dequeue_none γo P evs C T H k all slots tk :
  ok C T H k all slots tk -> C = T ->
  ring_shift γo P -∗ ghost_var γo (1/2) (Queue (drop C all) (H - T)) -∗ P evs ={⊤ ∖ ↑ringN}=∗
  ghost_var γo (1/2) (Queue (drop C all) (H - T)) ∗ P (evs ++ [EDequeue None]).
Proof.
  iIntros (Hok ->) "#Hsh Ho HP". iApply ("Hsh" with "[%] Ho HP"). split; [|done].
  simpl. apply drop_ge. by rewrite (ok_all Hok).
Qed.

Lemma event_dequeue_some γo P evs x C T H k all slots tk :
  ok C T H k all slots tk -> all !! C = Some x ->
  ring_shift γo P -∗ ghost_var γo (1/2) (Queue (drop C all) (H - T)) -∗ P evs ={⊤ ∖ ↑ringN}=∗
  ghost_var γo (1/2) (Queue (drop (S C) all) (H - T)) ∗ P (evs ++ [EDequeue (Some x)]) ∗
  ⌜ok (S C) T H k all slots tk⌝.
Proof.
  iIntros (Hok Hx) "#Hsh Ho HP".
  iMod ("Hsh" $! evs (EDequeue (Some x)) _ (Queue (drop (S C) all) (H - T)) with "[%] Ho HP") as "[$ $]".
  { split; [|done]. simpl. by apply drop_S. }
  iPureIntro. apply ring_ok_dequeue; [done|]. apply lookup_lt_Some in Hx. by rewrite -(ok_all Hok).
Qed.

(** * Counters *)

Lemma u32_nat_inj (a b : nat) :
  Z.of_nat a < 2 ^ 32 -> Z.of_nat b < 2 ^ 32 -> u32 (Z.of_nat a) = u32 (Z.of_nat b) -> a = b.
Proof. intros Ha Hb. rewrite !u32_small; lia. Qed.

Lemma pow2_31 : 2 ^ Z.of_nat sh <= 2 ^ 31.
Proof using geometry. apply Z.pow_le_mono_r; lia. Qed.

Lemma u32_near (C T : nat) :
  (C <= T)%nat -> (T < C + N)%nat -> u32 (Z.of_nat C) = u32 (Z.of_nat T) -> C = T.
Proof using geometry.
  intros HCT HT Heq. pose proof pow2_31. pose proof (pow2_nat sh).
  apply u32_inj_near in Heq; lia.
Qed.

Lemma ok_small C T H k all slots tk :
  mp || mc = true -> ok C T H k all slots tk ->
  Z.of_nat C < 2 ^ 32 /\ Z.of_nat T < 2 ^ 32 /\ Z.of_nat H < 2 ^ 32.
Proof using geometry.
  intros Hm Hok. specialize (Htotal Hm). pose proof (ok_ct Hok). pose proof (ok_th Hok).
  pose proof (ok_total Hok). lia.
Qed.

(** * One consumer *)

Lemma dequeue_sc_spec γ γo c P :
  mc = false ->
  ring_inv γ γo -∗ cons_at γ c -∗ ring_shift γo P -∗ P [] -∗
  WP _ck_ring_dequeue_sc ring buffer ts {{ o, P [EDequeue o] ∗ ∃ c', cons_at γ c' }}.
Proof using geometry.
  iIntros (Hmc) "#[Hinv Hmask] Hc #Hshift HP". rewrite /_ck_ring_dequeue_sc.
  wp_load_mask. wp_pures.
  open_ring (C T H k all slots tk) Hok.
  iDestruct (cons_exact with "Hcc Hcv Hc") as %->; [done|].
  wp_load "Hch". iModIntro. iSplitR "Hc HP"; [by close_ring C T H k all slots tk|].
  wp_pures.
  open_ring (C1 T1 H1 k1 all1 slots1 tk1) Hok1.
  iDestruct (cons_exact with "Hcc Hcv Hc") as %<-; [done|].
  destruct (decide (C = T1)) as [->|Hne].
  { iMod (event_dequeue_none with "Hshift Ho HP") as "[Ho HP]"; [done|done|].
    wp_load "Hpt". iModIntro. iSplitR "Hc HP"; [by close_ring T1 T1 H1 k1 all1 slots1 tk1|].
    wp_pures. rewrite Z.eqb_refl. wp_pures. iFrame. }
  assert (C < T1)%nat as HCT by (pose proof (ok_ct Hok1); lia).
  destruct (ring_ok_read _ _ _ _ _ _ _ _ _ _ Hok1 HCT) as (x & Hx & Hxw).
  iAssert (C ↪[n_all γ]□ x)%I as "#Hel"; [by iApply (big_sepL_lookup with "Hels")|].
  wp_load "Hpt". iModIntro. iSplitR "Hc HP"; [by close_ring C T1 H1 k1 all1 slots1 tk1|].
  wp_pures. rewrite (proj2 (Z.eqb_neq _ _)).
  2:{ intros Heq. apply Hne, u32_near; [lia| |done].
      pose proof (ok_hc Hok1). pose proof (ok_th Hok1). lia. }
  wp_pures. iApply (wp_wand (Λ:=ck_lang (list Z)) with "[Hc]").
  { by iApply (copy_out_spec with "Hinv Hel Hc"). }
  iIntros (ws) "[Hc [->|[%Hf _]]]"; [|congruence].
  wp_pures.
  open_ring (C2 T2 H2 k2 all2 slots2 tk2) Hok2.
  iDestruct (cons_exact with "Hcc Hcv Hc") as %<-; [done|].
  iDestruct (ghost_map_lookup with "Hal Hel") as %Hx2. rewrite lookup_map_seq_0 in Hx2.
  iMod (event_dequeue_some with "Hshift Ho HP") as "(Ho & HP & %Hok')"; [done|done|].
  iMod (cons_update with "Hcc Hcv Hc") as "(Hcc & Hcv & Hc)".
  wp_store "Hch". rewrite u32_succ. iModIntro.
  iSplitR "Hc HP"; [by close_ring (S C) T2 H2 k2 all2 slots2 tk2|].
  wp_pures. iFrame.
Qed.

(** [ck_ring_size], called by the only consumer or the only producer. *)
Lemma size_consumer_spec γ γo c P :
  mc = false ->
  ring_inv γ γo -∗ cons_at γ c -∗ ring_shift γo P -∗ P [] -∗
  WP ck_ring_size ring {{ n, P [ESize n] ∗ cons_at γ c }}.
Proof using geometry.
  iIntros (Hmc) "#[Hinv Hmask] Hc #Hshift HP". rewrite /ck_ring_size. wp_focus.
  open_ring (C T H k all slots tk) Hok.
  iDestruct (cons_exact with "Hcc Hcv Hc") as %->; [done|].
  wp_load "Hch". iModIntro. iSplitR "Hc HP"; [by close_ring C T H k all slots tk|]. wp_pures.
  open_ring (C1 T1 H1 k1 all1 slots1 tk1) Hok1.
  iDestruct (cons_exact with "Hcc Hcv Hc") as %<-; [done|].
  iMod ("Hshift" $! [] (ESize (Z.of_nat T1 - Z.of_nat C)) with "[%] Ho HP") as "[Ho HP]".
  { split; [|reflexivity]. simpl. rewrite length_drop (ok_all Hok1). pose proof (ok_ct Hok1). lia. }
  wp_load "Hpt". iModIntro. iSplitR "Hc HP"; [by close_ring C T1 H1 k1 all1 slots1 tk1|].
  wp_load_mask. wp_pures. rewrite land_size; [|done|].
  - iFrame.
  - pose proof (ok_ct Hok1). pose proof (ok_hc Hok1). pose proof (ok_th Hok1). pose proof (pow2_nat sh). lia.
Qed.

Lemma size_producer_spec γ γo t P :
  mp = false ->
  ring_inv γ γo -∗ prod_at γ t t -∗ ring_shift γo P -∗ P [] -∗
  WP ck_ring_size ring {{ n, P [ESize n] ∗ prod_at γ t t }}.
Proof using geometry.
  iIntros (Hmp) "#[Hinv Hmask] Hpr #Hshift HP". rewrite /ck_ring_size. wp_focus.
  open_ring (C T H k all slots tk) Hok.
  iDestruct (prod_exact with "Hp Hpr") as %[-> <-]; [done|].
  iMod ("Hshift" $! [] (ESize (Z.of_nat T - Z.of_nat C)) with "[%] Ho HP") as "[Ho HP]".
  { split; [|reflexivity]. simpl. rewrite length_drop (ok_all Hok). pose proof (ok_ct Hok). lia. }
  wp_load "Hch". iModIntro. iSplitR "Hpr HP"; [by close_ring C T T k all slots tk|]. wp_pures.
  open_ring (C1 T1 H1 k1 all1 slots1 tk1) Hok1.
  iDestruct (prod_exact with "Hp Hpr") as %[<- <-]; [done|].
  wp_load "Hpt". iModIntro. iSplitR "Hpr HP"; [by close_ring C1 T T k1 all1 slots1 tk1|].
  wp_load_mask. wp_pures. rewrite land_size; [|done|].
  - iFrame.
  - pose proof (ok_ct Hok). pose proof (ok_hc Hok). pose proof (pow2_nat sh). lia.
Qed.

(** * Many consumers *)

(** A consumer that saw [c] as the consumer index looks at the producer's: the
    ring is empty, or entry [c] exists. *)
Lemma look_mc γ γo c P :
  mc = true ->
  ring_inv γ γo -∗ mono_nat_lb_own (n_c γ) c -∗ ring_shift γo P -∗ P [] -∗
  WP ck_pr_load (p_tail ring) {{ producer,
    ⌜u32 (Z.of_nat c) = producer⌝ ∗ P [EDequeue None] ∨
    ⌜u32 (Z.of_nat c) <> producer⌝ ∗ P [] ∗ ∃ x, ⌜length x = w⌝ ∗ c ↪[n_all γ]□ x }}.
Proof using geometry.
  iIntros (Hmc) "#[Hinv _] #Hlb #Hshift HP".
  open_ring (C T H k all slots tk) Hok.
  destruct (ok_small _ _ _ _ _ _ _ ltac:(by rewrite Hmc orb_true_r) Hok) as (HC & HT & _).
  iDestruct (mono_nat_lb_own_valid with "Hcc Hlb") as %[_ Hle]. pose proof (ok_ct Hok) as Hct.
  destruct (decide (c = T)) as [->|Hne].
  { iMod (event_dequeue_none with "Hshift Ho HP") as "[Ho HP]"; [done|lia|].
    wp_load "Hpt". iModIntro. iSplitR "HP"; [by close_ring C T H k all slots tk|].
    iLeft. by iFrame. }
  destruct (lookup_lt_is_Some_2 all c) as [x Hx]; [rewrite (ok_all Hok); lia|].
  pose proof (ok_entries Hok) as He. rewrite Forall_lookup in He.
  iAssert (c ↪[n_all γ]□ x)%I as "#Hel"; [by iApply (big_sepL_lookup with "Hels")|].
  wp_load "Hpt". iModIntro. iSplitR "HP"; [by close_ring C T H k all slots tk|].
  iRight. iFrame. iSplit; [iPureIntro; by intros Heq%u32_nat_inj; [|lia..]|].
  iExists x. iFrame "#". iPureIntro. by eapply He.
Qed.

(** Its compare-and-swap: it takes entry [c], or another consumer has. *)
Lemma take_mc {A} γ γo c x ws P (g : Z * Z -> A) :
  mc = true ->
  ring_inv γ γo -∗ mono_nat_lb_own (n_c γ) c -∗ ring_shift γo P -∗ P [] -∗ c ↪[n_all γ]□ x -∗
  copied mc γ c (ws = x) -∗
  WP Act (OCas (c_head ring) (u32 (Z.of_nat c)) (u32 (u32 (Z.of_nat c) + 1))) g {{ r,
    ⌜r = g (u32 (Z.of_nat c), 0)⌝ ∗ P [EDequeue (Some ws)] ∨
    ∃ c', ⌜u32 (Z.of_nat c') <> u32 (Z.of_nat c)⌝ ∗ ⌜r = g (u32 (Z.of_nat c'), 0)⌝ ∗
          mono_nat_lb_own (n_c γ) c' ∗ P [] }}.
Proof using geometry.
  iIntros (Hmc) "#[Hinv _] #Hlb #Hshift HP #Hel #Hcopied".
  open_ring (C T H k all slots tk) Hok.
  destruct (ok_small _ _ _ _ _ _ _ ltac:(by rewrite Hmc orb_true_r) Hok) as (HC & HT & _).
  iDestruct (mono_nat_lb_own_valid with "Hcc Hlb") as %[_ Hle].
  destruct (decide (C = c)) as [->|Hne].
  - iDestruct "Hcopied" as "[->|[_ Hlb']]".
    2:{ iDestruct (mono_nat_lb_own_valid with "Hcc Hlb'") as %[_ ?]. lia. }
    iDestruct (ghost_map_lookup with "Hal Hel") as %Hx. rewrite lookup_map_seq_0 in Hx.
    iMod (event_dequeue_some with "Hshift Ho HP") as "(Ho & HP & %Hok')"; [done|done|].
    iMod (cons_update with "Hcc Hcv []") as "(Hcc & Hcv & _)".
    { rewrite /RingProof.cons_at Hmc. by iFrame "Hlb". }
    wp_cas "Hch". rewrite Z.eqb_refl u32_succ. iModIntro.
    iSplitR "HP"; [by close_ring (S c) T H k all slots tk|]. iLeft. by iFrame.
  - iDestruct (mono_nat_lb_own_get with "Hcc") as "#Hlb'".
    assert (u32 (Z.of_nat C) <> u32 (Z.of_nat c)) as Hne' by (intros Heq%u32_nat_inj; lia).
    wp_cas "Hch". rewrite (proj2 (Z.eqb_neq _ _)) //.
    iModIntro. iSplitR "HP"; [by close_ring C T H k all slots tk|].
    iRight. iExists C. by iFrame "∗#".
Qed.

Lemma load_c_head_mc γ γo :
  mc = true ->
  ring_inv γ γo -∗
  WP ck_pr_load (c_head ring) {{ v, ∃ c, ⌜v = u32 (Z.of_nat c)⌝ ∗ mono_nat_lb_own (n_c γ) c }}.
Proof using geometry.
  iIntros (Hmc) "#[Hinv _]". open_ring (C T H k all slots tk) Hok.
  iDestruct (mono_nat_lb_own_get with "Hcc") as "#Hlb".
  wp_load "Hch". iModIntro. iSplit; [by close_ring C T H k all slots tk|]. iExists C. by iFrame "#".
Qed.

Lemma copy_out_mc γ γo c x :
  mc = true -> length x = w ->
  ring_inv γ γo -∗ mono_nat_lb_own (n_c γ) c -∗ c ↪[n_all γ]□ x -∗
  WP memcpy_from_slot (slot_at c) ts {{ ws, copied mc γ c (ws = x) }}.
Proof using geometry.
  iIntros (Hmc Hx) "#[Hinv _] #Hlb #Hel". iApply (wp_wand (Λ:=ck_lang (list Z))).
  { iApply (copy_out_spec with "Hinv Hel"); [try done..|]. rewrite /RingProof.cons_at Hmc. by iFrame "#". }
  by iIntros (ws) "[_ $]".
Qed.

Ltac wp_sub A H := wp_focus; iApply (wp_wand (Λ:=ck_lang A) with H).

Lemma trydequeue_mc_spec γ γo P :
  mc = true ->
  ring_inv γ γo -∗ ring_shift γo P -∗ P [] -∗
  WP _ck_ring_trydequeue_mc ring buffer ts {{ o, P [EDequeue o] ∨ ⌜o = None⌝ ∗ P [] }}.
Proof using geometry.
  iIntros (Hmc) "#[Hinv Hmask] #Hshift HP". rewrite /_ck_ring_trydequeue_mc.
  wp_load_mask. wp_sub Z "[]"; [by iApply (load_c_head_mc with "[]"); [|iFrame "#"]|].
  iIntros (v) "(%c & -> & #Hlb)". wp_pures.
  iApply (wp_wand (Λ:=ck_lang Z) with "[HP]"); [by iApply (look_mc with "[$Hinv $Hmask] Hlb Hshift HP")|].
  iIntros (t) "[[<- HP]|(%Hne & HP & %x & %Hx & #Hel)]"; wp_norm.
  { rewrite Z.eqb_refl. wp_pures. by iLeft. }
  rewrite (proj2 (Z.eqb_neq _ _)) //. wp_pures.
  iApply (wp_wand (Λ:=ck_lang (list Z))); [by iApply (copy_out_mc with "[$Hinv $Hmask] Hlb Hel")|].
  iIntros (ws) "#Hcopied". wp_pures.
  iApply (wp_wand (Λ:=ck_lang bool) with "[HP]").
  { by iApply (take_mc with "[$Hinv $Hmask] Hlb Hshift HP Hel Hcopied"). }
  iIntros (r) "[[-> HP]|(%c' & %Hne' & -> & _ & HP)]"; wp_norm.
  - rewrite Z.eqb_refl. wp_pures. by iLeft.
  - rewrite (proj2 (Z.eqb_neq _ _)) //. wp_pures. iRight. by iFrame.
Qed.

Lemma dequeue_mc_spec γ γo P :
  mc = true ->
  ring_inv γ γo -∗ ring_shift γo P -∗ P [] -∗
  WP _ck_ring_dequeue_mc ring buffer ts {{ o, P [EDequeue o] }}.
Proof using geometry.
  iIntros (Hmc) "#[Hinv Hmask] #Hshift HP". rewrite /_ck_ring_dequeue_mc.
  wp_load_mask. wp_sub Z "[]"; [by iApply (load_c_head_mc with "[]"); [|iFrame "#"]|].
  iIntros (v) "(%c0 & -> & #Hlb)". wp_norm.
  iApply (wp_loop_inv (λ v, P [] ∗ ∃ c, ⌜v = u32 (Z.of_nat c)⌝ ∗ mono_nat_lb_own (n_c γ) c)%I with "[HP]").
  { iFrame. iExists c0. by iFrame "#". }
  iIntros "!>" (v) "(HP & %c & -> & #Hlb')". wp_pures.
  iApply (wp_wand (Λ:=ck_lang Z) with "[HP]"); [by iApply (look_mc with "[$Hinv $Hmask] Hlb' Hshift HP")|].
  iIntros (t) "[[<- HP]|(%Hne & HP & %x & %Hx & #Hel)]"; wp_norm.
  { rewrite Z.eqb_refl. wp_pures. iFrame. }
  rewrite (proj2 (Z.eqb_neq _ _)) //. wp_pures.
  iApply (wp_wand (Λ:=ck_lang (list Z))); [by iApply (copy_out_mc with "[$Hinv $Hmask] Hlb' Hel")|].
  iIntros (ws) "#Hcopied". wp_pures.
  iApply (wp_wand (Λ:=ck_lang (bool * Z)) with "[HP]").
  { by iApply (take_mc with "[$Hinv $Hmask] Hlb' Hshift HP Hel Hcopied"). }
  iIntros (r) "[[-> HP]|(%c' & %Hne' & -> & #Hlb2 & HP)]"; wp_norm.
  - rewrite Z.eqb_refl. wp_pures. iFrame.
  - rewrite (proj2 (Z.eqb_neq _ _)) //. wp_pures. iFrame. iExists c'. by iFrame "#".
Qed.

(** * One producer *)

Definition event_size (sized : bool) (n : Z) : option Z := if sized then Some n else None.

(** Opening the enqueue: the loads of [_ck_ring_enqueue_reserve_sp] and
    [_ck_ring_enqueue_sp].  The ring is full, or a slot is reserved when the
    consumer index is read. *)
Lemma look_sp γ γo t m sized P :
  mp = false ->
  ring_inv γ γo -∗ prod_at γ t t -∗ credit γ (S m) -∗ ring_shift γo P -∗ P [] -∗
  WP ck_pr_load (c_head ring) {{ v, ∃ c, ⌜v = u32 (Z.of_nat c)⌝ ∗ ⌜(c <= t)%nat⌝ ∗ ⌜(t < c + N)%nat⌝ ∗
    (⌜(S t = c + N)%nat⌝ ∗ P [EFull] ∗ prod_at γ t t ∗ credit γ (S m) ∨
     ⌜(S t <> c + N)%nat⌝ ∗ P [EReserve (event_size sized (Z.of_nat t - Z.of_nat c))] ∗ prod_at γ t (S t) ∗
       ticket γ t [] ∗ credit γ m) }}.
Proof using geometry.
  iIntros (Hmp) "#[Hinv _] Hpr Hc #Hshift HP".
  open_ring (C T H k all slots tk) Hok.
  iDestruct (prod_exact with "Hp Hpr") as %[-> <-]; [done|].
  pose proof (ok_ct Hok) as Hct. pose proof (ok_hc Hok) as Hhc.
  destruct (decide (S T = C + N)%nat) as [Hfull|Hroom].
  - iMod (event_full with "Hshift Ho HP") as "[Ho HP]"; [done|done|].
    wp_load "Hch". iModIntro. iSplitR "Hpr HP Hc"; [by close_ring C T T k all slots tk|].
    iExists C. do 3 (iSplit; [done|]). iLeft. by iFrame.
  - iMod (event_reserve _ _ _ _ (event_size sized (Z.of_nat T - Z.of_nat C)) with "Hshift Ho HP Hcr Hc Htk Hh")
      as (k') "(Ho & HP & Hcr & Hc & Htk & Ht & Hh & %Hok')"; [done|lia| |].
    { rewrite /event_size Hmp. destruct sized; [|done]. lia. }
    iMod (prod_update _ _ _ _ _ _ T (S T) with "Hp Hpr") as "[Hp Hpr]".
    iAssert (p_head ring ↦ (if mp then u32 (Z.of_nat (S T)) else 0))%I with "[Hph]" as "Hph".
    { by rewrite Hmp. }
    wp_load "Hch". iModIntro. iSplitR "Hpr HP Hc Ht"; [by close_ring C T (S T) k' all slots (<[T:=[]]> tk)|].
    iExists C. do 3 (iSplit; [done|]). iRight. by iFrame.
Qed.

Lemma load_p_tail_sp γ γo t h :
  mp = false ->
  ring_inv γ γo -∗ prod_at γ t h -∗
  WP ck_pr_load (p_tail ring) {{ v, ⌜v = u32 (Z.of_nat t)⌝ ∗ prod_at γ t h }}.
Proof using geometry.
  iIntros (Hmp) "#[Hinv _] Hpr". open_ring (C T H k all slots tk) Hok.
  iDestruct (prod_exact with "Hp Hpr") as %[-> ->]; [done|].
  wp_load "Hpt". iModIntro. iSplitR "Hpr"; [by close_ring C T H k all slots tk|]. by iFrame.
Qed.

(** Publishing the entry: the store of [p_tail], by the producer whose turn it is. *)
Lemma publish γ γo t h x evs P :
  length x = w ->
  ring_inv γ γo -∗ ticket γ t x -∗ mono_nat_lb_own (n_t γ) t -∗ prod_at γ t h -∗ ring_shift γo P -∗
  P evs -∗
  WP ck_pr_store (p_tail ring) (u32 (Z.of_nat (S t))) {{ _, P (evs ++ [ECommit x]) ∗ prod_at γ (S t) h }}.
Proof using geometry.
  iIntros (Hx) "#[Hinv _] Ht #Hlb Hpr #Hshift HP".
  open_ring (C T H k all slots tk) Hok.
  iDestruct (mono_nat_lb_own_valid with "Htt Hlb") as %[_ Hle].
  iDestruct (ghost_map_lookup with "Htk Ht") as %Htt.
  assert (T = t) as -> by (pose proof (proj1 (ok_tk Hok t) (mk_is_Some _ _ Htt)); lia).
  iMod (event_commit with "Hshift Ho HP Htk Ht Hal Hels Htt")
    as "(Ho & HP & Htk & Hal & #Hels' & Htt & %Hok')"; [done|done|].
  iDestruct (prod_agree with "Hp Hpr") as %Hag.
  iMod (prod_update _ _ _ _ _ _ (S t) H with "Hp Hpr") as "[Hp Hpr]".
  iAssert (prod_at γ (S t) h) with "[Hpr]" as "Hpr".
  { rewrite /RingProof.prod_at. destruct mp; [done|]. by destruct Hag as [_ ->]. }
  wp_store "Hpt". iModIntro. iSplitR "HP Hpr".
  { iClear "Hels". by close_ring C (S t) H k (all ++ [x]) slots (delete t tk). }
  iFrame.
Qed.

Lemma prod_tail_lb γ γo t h :
  mp = false -> ring_inv γ γo -∗ prod_at γ t h -∗ |={⊤}=> prod_at γ t h ∗ mono_nat_lb_own (n_t γ) t.
Proof using geometry.
  iIntros (Hmp) "#[Hinv _] Hpr". open_ring (C T H k all slots tk) Hok.
  iDestruct (prod_exact with "Hp Hpr") as %[-> ->]; [done|].
  iDestruct (mono_nat_lb_own_get with "Htt") as "#Hlb". iModIntro.
  iSplitR "Hpr"; [by close_ring C T H k all slots tk|]. by iFrame "∗#".
Qed.

Lemma full_test_eqb (t c : nat) :
  (c <= t)%nat -> (t < c + N)%nat ->
  (Z.land (u32 (u32 (Z.of_nat t) + 1)) cap =? Z.land (u32 (Z.of_nat c)) cap) = bool_decide (S t = c + N)%nat.
Proof using geometry.
  intros Hct Ht. pose proof (full_test sh t c Hsh Hct Ht) as Hf.
  case_bool_decide; [by apply Z.eqb_eq, Hf|]. apply Z.eqb_neq. by rewrite Hf.
Qed.

Lemma land_size_nat (p c : nat) :
  (c <= p)%nat -> (p < c + N)%nat ->
  Z.land (u32 (u32 (Z.of_nat p) - u32 (Z.of_nat c))) cap = Z.of_nat p - Z.of_nat c.
Proof using geometry. intros Hcp Hp. apply land_size; [done|]. pose proof (pow2_nat sh). lia. Qed.

(** The result of an enqueue. *)
Definition enqueued (γ : ring_name) (P : list ring_event -> iProp Σ) (x : list Z) (sized : bool)
    (m : nat) (b : bool) (n : Z) : iProp Σ :=
  ∃ evs, ⌜enqueue_events x b (event_size sized n) evs⌝ ∗ ⌜b = false -> n = cap⌝ ∗ P evs ∗ credit γ m ∗
    ∃ t, prod_at γ t t.

Lemma credit_drop γ m : credit γ (S m) ⊢ credit γ m.
Proof. rewrite /credit -Nat.add_1_l -nat_op auth_frag_op own_op. iIntros "[_ $]". Qed.

Lemma enqueued_full γ P x sized m n looks t :
  full_looks looks -> n = cap -> P (looks ++ [EFull]) -∗ credit γ (S m) -∗ prod_at γ t t -∗
  enqueued γ P x sized m false n.
Proof using Type.
  iIntros (Hl ->) "HP Hc Hpr". iExists _. iFrame "HP". rewrite credit_drop. iFrame.
  iSplit; [|done]. iPureIntro. by exists looks.
Qed.

Lemma enqueued_done γ P x sized m n looks t :
  full_looks looks -> P ((looks ++ [EReserve (event_size sized n)]) ++ [ECommit x]) -∗ credit γ m -∗
  prod_at γ t t -∗ enqueued γ P x sized m true n.
Proof using Type.
  iIntros (Hl) "HP Hc Hpr". iExists _. rewrite -app_assoc. iFrame. iSplit; [|done].
  iPureIntro. by exists looks.
Qed.

Lemma no_looks : full_looks [].
Proof. by exists O. Qed.

Lemma enqueue_sp_spec γ γo t m sized x P :
  mp = false -> length x = w ->
  ring_inv γ γo -∗ prod_at γ t t -∗ credit γ (S m) -∗ ring_shift γo P -∗ P [] -∗
  WP _ck_ring_enqueue_sp ring buffer x ts {{ r, enqueued γ P x sized m r.1 r.2 }}.
Proof using geometry.
  iIntros (Hmp Hx) "#[Hinv Hmask] Hpr Hc #Hshift HP". rewrite /_ck_ring_enqueue_sp.
  wp_load_mask. wp_sub Z "[Hpr Hc HP]"; [by iApply (look_sp _ _ _ _ sized with "[$Hinv $Hmask] Hpr Hc Hshift HP")|].
  iIntros (v) "(%c & -> & %Hct & %Htc & H)".
  iDestruct "H" as "[(%Hfull & HP & Hpr & Hc)|(%Hroom & HP & Hpr & Ht & Hc)]".
  - wp_sub Z "[Hpr]"; [by iApply (load_p_tail_sp with "[$Hinv $Hmask] Hpr")|].
    iIntros (v) "[-> Hpr]". wp_norm. rewrite full_test_eqb // bool_decide_true //. wp_pures.
    iApply (enqueued_full _ _ _ _ _ _ [] with "HP Hc Hpr"); [apply no_looks|].
    rewrite land_size_nat //. pose proof (pow2_nat sh). lia.
  - wp_sub Z "[Hpr]"; [by iApply (load_p_tail_sp with "[$Hinv $Hmask] Hpr")|].
    iIntros (v) "[-> Hpr]". wp_norm. rewrite full_test_eqb // bool_decide_false //. wp_pures.
    iApply (wp_wand (Λ:=ck_lang unit) with "[Ht]"); [by iApply (copy_in_spec with "Hinv Ht")|].
    iIntros (_) "Ht". wp_pures.
    iMod (prod_tail_lb with "[$Hinv $Hmask] Hpr") as "[Hpr #Hlb]"; [done|].
    rewrite u32_succ. iApply (wp_wand (Λ:=ck_lang unit) with "[Hpr Ht HP]").
    { by iApply (publish with "[$Hinv $Hmask] Ht Hlb Hpr Hshift HP"). }
    iIntros (_) "[HP Hpr]". wp_pures. rewrite /= land_size_nat //.
    by iApply (enqueued_done _ _ _ _ _ _ [] with "HP Hc Hpr"); [apply no_looks].
Qed.

(** What a reservation answers: no slot, or one with its ticket. *)
Definition reserved (γ : ring_name) (P : list ring_event -> iProp Σ) (sized : bool) (m : nat)
    (r : option nat) (n : Z) : iProp Σ :=
  match r with
  | None => ⌜n = cap⌝ ∗ (∃ looks, ⌜full_looks looks⌝ ∗ P (looks ++ [EFull])) ∗ credit γ (S m) ∗
            ∃ t, prod_at γ t t
  | Some j => (∃ looks, ⌜full_looks looks⌝ ∗ P (looks ++ [EReserve (event_size sized n)])) ∗ credit γ m ∗
              prod_at γ j (S j) ∗ ticket γ j []
  end.

Lemma reserve_sp_spec γ γo t m sized P :
  mp = false ->
  ring_inv γ γo -∗ prod_at γ t t -∗ credit γ (S m) -∗ ring_shift γo P -∗ P [] -∗
  WP _ck_ring_enqueue_reserve_sp ring buffer ts {{ r, ∃ o : option nat,
    ⌜r.1 = (fun j => slot_at j) <$> o⌝ ∗ reserved γ P sized m o r.2 }}.
Proof using geometry.
  iIntros (Hmp) "#[Hinv Hmask] Hpr Hc #Hshift HP". rewrite /_ck_ring_enqueue_reserve_sp.
  wp_load_mask. wp_sub Z "[Hpr Hc HP]"; [by iApply (look_sp _ _ _ _ sized with "[$Hinv $Hmask] Hpr Hc Hshift HP")|].
  iIntros (v) "(%c & -> & %Hct & %Htc & H)".
  iDestruct "H" as "[(%Hfull & HP & Hpr & Hc)|(%Hroom & HP & Hpr & Ht & Hc)]".
  - wp_sub Z "[Hpr]"; [by iApply (load_p_tail_sp with "[$Hinv $Hmask] Hpr")|].
    iIntros (v) "[-> Hpr]". wp_norm. rewrite full_test_eqb // bool_decide_true //. wp_pures.
    iExists None. iSplit; [done|]. iFrame "Hpr Hc". rewrite /= land_size_nat //. iSplit.
    { iPureIntro. pose proof (pow2_nat sh). lia. }
    iExists []. iFrame. iPureIntro. apply no_looks.
  - wp_sub Z "[Hpr]"; [by iApply (load_p_tail_sp with "[$Hinv $Hmask] Hpr")|].
    iIntros (v) "[-> Hpr]". wp_norm. rewrite full_test_eqb // bool_decide_false //. wp_pures.
    iExists (Some t). iSplit; [done|]. iFrame. rewrite /= land_size_nat //.
    iExists []. iFrame. iPureIntro. apply no_looks.
Qed.

Lemma in_place_sp_spec γ γo x sized m (o : option nat) n P :
  mp = false -> length x = w ->
  ring_inv γ γo -∗ ring_shift γo P -∗ reserved γ P sized m o n -∗
  WP use_reserved_sp ring ts ((fun j => slot_at j) <$> o) x {{ b, enqueued γ P x sized m b n }}.
Proof using geometry.
  iIntros (Hmp Hx) "#[Hinv Hmask] #Hshift H". destruct o as [t|]; cbn [fmap option_fmap option_map use_reserved_sp].
  2:{ iDestruct "H" as "(%Hn & (%looks & %Hl & HP) & Hc & %t & Hpr)". wp_pures.
      by iApply (enqueued_full with "HP Hc Hpr"). }
  iDestruct "H" as "((%looks & %Hl & HP) & Hc & Hpr & Ht)".
  wp_sub unit "[Ht]"; [by iApply (copy_in_spec with "Hinv Ht")|]. iIntros (_) "Ht".
  rewrite /_ck_ring_enqueue_commit_sp. wp_pures.
  iApply (wp_wand (Λ:=ck_lang Z) with "[Hpr]"); [by iApply (load_p_tail_sp with "[$Hinv $Hmask] Hpr")|].
  iIntros (v) "[-> Hpr]". wp_norm.
  iMod (prod_tail_lb with "[$Hinv $Hmask] Hpr") as "[Hpr #Hlb]"; [done|].
  rewrite u32_succ. iApply (wp_wand (Λ:=ck_lang unit) with "[Hpr Ht HP]").
  { by iApply (publish with "[$Hinv $Hmask] Ht Hlb Hpr Hshift HP"). }
  iIntros (_) "[HP Hpr]". wp_pures. by iApply (enqueued_done with "HP Hc Hpr").
Qed.

(** * Many producers *)

Lemma load_p_head_mp γ γo j :
  mp = true ->
  ring_inv γ γo -∗ mono_nat_lb_own (n_h γ) j -∗
  WP ck_pr_load (p_head ring) {{ v, ∃ h, ⌜v = u32 (Z.of_nat h)⌝ ∗ ⌜(j <= h)%nat⌝ ∗ mono_nat_lb_own (n_h γ) h }}.
Proof using geometry.
  iIntros (Hmp) "#[Hinv _] #Hlb". open_ring (C T H k all slots tk) Hok.
  iDestruct (mono_nat_lb_own_valid with "Hh Hlb") as %[_ Hle].
  iDestruct (mono_nat_lb_own_get with "Hh") as "#Hlb'". iEval (rewrite Hmp) in "Hph".
  wp_load "Hph". iModIntro. iSplit; [close_ring C T H k all slots tk; rewrite Hmp; by iFrame|].
  iExists H. by iFrame "#".
Qed.

(** The second look at the tickets: at least the consumer index seen between. *)
Lemma load_p_head_mp' γ γo j c :
  mp = true ->
  ring_inv γ γo -∗ mono_nat_lb_own (n_h γ) j -∗ mono_nat_lb_own (n_c γ) c -∗
  WP ck_pr_load (p_head ring) {{ v, ∃ h, ⌜v = u32 (Z.of_nat h)⌝ ∗
    ⌜(j <= h)%nat /\ (c <= h)%nat /\ Z.of_nat h < 2 ^ 32⌝ ∗ mono_nat_lb_own (n_h γ) h }}.
Proof using geometry.
  iIntros (Hmp) "#[Hinv _] #Hlb #Hlbc". open_ring (C T H k all slots tk) Hok.
  destruct (ok_small _ _ _ _ _ _ _ ltac:(by rewrite Hmp) Hok) as (HC & _ & HH).
  iDestruct (mono_nat_lb_own_valid with "Hh Hlb") as %[_ Hle].
  iDestruct (mono_nat_lb_own_valid with "Hcc Hlbc") as %[_ Hlec].
  iDestruct (mono_nat_lb_own_get with "Hh") as "#Hlb'". pose proof (ok_ct Hok). pose proof (ok_th Hok).
  iEval (rewrite Hmp) in "Hph". wp_load "Hph". iModIntro. iSplit; [close_ring C T H k all slots tk; rewrite Hmp; by iFrame|].
  iExists H. iFrame "#". iPureIntro. lia.
Qed.

(** A producer that saw [p] as the next ticket reads the consumer index: either
    the ring is full now, or [p] is stale, or there may be room. *)
Lemma look_mp γ γo p looks P :
  mp = true -> full_looks looks ->
  ring_inv γ γo -∗ mono_nat_lb_own (n_h γ) p -∗ ring_shift γo P -∗ P looks -∗
  WP ck_pr_load (c_head ring) {{ v, ∃ c, ⌜v = u32 (Z.of_nat c)⌝ ∗ mono_nat_lb_own (n_c γ) c ∗
    ⌜Z.of_nat c < 2 ^ 32 /\ Z.of_nat p < 2 ^ 32 /\ (p < c + N)%nat⌝ ∗
    (⌜(S p = c + N)%nat⌝ ∗ P (looks ++ [EFull]) ∨ ⌜(S p <> c + N)%nat⌝ ∗ P looks) }}.
Proof using geometry.
  iIntros (Hmp Hl) "#[Hinv _] #Hlb #Hshift HP". open_ring (C T H k all slots tk) Hok.
  destruct (ok_small _ _ _ _ _ _ _ ltac:(by rewrite Hmp) Hok) as (HC & _ & HH).
  iDestruct (mono_nat_lb_own_valid with "Hh Hlb") as %[_ Hle].
  iDestruct (mono_nat_lb_own_get with "Hcc") as "#Hlbc". pose proof (ok_hc Hok) as Hhc.
  destruct (decide (S p = C + N)%nat) as [Hfull|Hroom].
  - iMod (event_full with "Hshift Ho HP") as "[Ho HP]"; [done|lia|].
    wp_load "Hch". iModIntro. iSplitR "HP"; [by close_ring C T H k all slots tk|].
    iExists C. iSplit; [done|]. iFrame "#". iSplit; [iPureIntro; lia|]. iLeft. by iFrame.
  - wp_load "Hch". iModIntro. iSplitR "HP"; [by close_ring C T H k all slots tk|].
    iExists C. iSplit; [done|]. iFrame "#". iSplit; [iPureIntro; lia|]. iRight. by iFrame.
Qed.

(** The compare-and-swap on [p_head]. *)
Lemma claim_cas γ γo p c m sized looks P :
  mp = true -> full_looks looks -> (S p <> c + N)%nat -> (p < c + N)%nat ->
  Z.of_nat c < 2 ^ 32 -> Z.of_nat p < 2 ^ 32 ->
  ring_inv γ γo -∗ mono_nat_lb_own (n_h γ) p -∗ mono_nat_lb_own (n_c γ) c -∗ credit γ (S m) -∗
  ring_shift γo P -∗ P looks -∗
  WP ck_pr_cas_value (p_head ring) (u32 (Z.of_nat p)) (u32 (u32 (Z.of_nat p) + 1)) {{ r,
    ⌜r = (true, u32 (Z.of_nat p))⌝ ∗ ⌜(c <= p)%nat⌝ ∗ credit γ m ∗ ticket γ p [] ∗
      P (looks ++ [EReserve (event_size sized (Z.of_nat p - Z.of_nat c))]) ∨
    ∃ h, ⌜r = (false, u32 (Z.of_nat h))⌝ ∗ mono_nat_lb_own (n_h γ) h ∗ credit γ (S m) ∗ P looks }}.
Proof using geometry.
  iIntros (Hmp Hl Hroom Hpc HcZ HpZ) "#[Hinv _] #Hlb #Hlbc Hc #Hshift HP".
  open_ring (C T H k all slots tk) Hok.
  destruct (ok_small _ _ _ _ _ _ _ ltac:(by rewrite Hmp) Hok) as (HC & _ & HH).
  iDestruct (mono_nat_lb_own_valid with "Hh Hlb") as %[_ Hle].
  iDestruct (mono_nat_lb_own_valid with "Hcc Hlbc") as %[_ HcC].
  pose proof (ok_hc Hok) as Hhc. pose proof (ok_ct Hok). pose proof (ok_th Hok). iEval (rewrite Hmp) in "Hph".
  destruct (decide (H = p)) as [->|Hne].
  - iMod (event_reserve _ _ _ _ (event_size sized (Z.of_nat p - Z.of_nat c)) with "Hshift Ho HP Hcr Hc Htk Hh")
      as (k') "(Ho & HP & Hcr & Hc & Htk & Ht & Hh & %Hok')"; [done|lia| |].
    { rewrite /event_size Hmp. destruct sized; [|done]. pose proof (pow2_nat sh). lia. }
    iMod (prod_update _ _ _ _ 0 0 T (S p) with "Hp []") as "[Hp _]".
    { by rewrite /RingProof.prod_at Hmp. }
    wp_cas "Hph". rewrite Z.eqb_refl u32_succ. iModIntro. iSplitR "HP Hc Ht".
    { close_ring C T (S p) k' all slots (<[p:=[]]> tk). rewrite Hmp. by iFrame. }
    iLeft. iFrame. iSplit; [done|]. iPureIntro. lia.
  - iDestruct (mono_nat_lb_own_get with "Hh") as "#Hlb'".
    wp_cas "Hph". rewrite (proj2 (Z.eqb_neq _ _)); [|by intros Heq%u32_nat_inj].
    iModIntro. iSplitR "HP Hc"; [close_ring C T H k all slots tk; rewrite Hmp; by iFrame|].
    iRight. iExists H. by iFrame "∗#".
Qed.

Lemma claim_spec γ γo m sized P :
  mp = true ->
  ring_inv γ γo -∗ credit γ (S m) -∗ ring_shift γo P -∗ P [] -∗
  WP claim ring cap {{ r, ∃ (p c : nat) o, ⌜r = (bool_decide (is_Some o), u32 (Z.of_nat p), u32 (Z.of_nat c))⌝ ∗
    ⌜(c <= p)%nat /\ (p < c + N)%nat /\ (o = None \/ o = Some p)⌝ ∗
    reserved γ P sized m o (Z.of_nat p - Z.of_nat c) }}.
Proof using geometry.
  iIntros (Hmp) "#Hring Hc #Hshift HP". rewrite /claim.
  iAssert (|={⊤}=> mono_nat_lb_own (n_h γ) 0)%I as ">#Hlb0".
  { iDestruct "Hring" as "[Hinv _]". open_ring (C T H k all slots tk) Hok.
    iDestruct (mono_nat_lb_own_get with "Hh") as "#Hlb". iModIntro.
    iSplitL; [by close_ring C T H k all slots tk|]. iModIntro. iApply (mono_nat_lb_own_le with "Hlb"). lia. }
  wp_sub Z "[]"; [by iApply (load_p_head_mp with "Hring Hlb0")|].
  iIntros (v) "(%p0 & -> & _ & #Hlb)". wp_norm.
  iApply (wp_loop_inv (λ v, ∃ p looks, ⌜v = u32 (Z.of_nat p)⌝ ∗ ⌜full_looks looks⌝ ∗
            mono_nat_lb_own (n_h γ) p ∗ credit γ (S m) ∗ P looks)%I with "[HP Hc]").
  { iExists p0, []. iFrame "∗#". iPureIntro. split; [done|apply no_looks]. }
  iIntros "!>" (v) "(%p & %looks & -> & %Hl & #Hlbp & Hc & HP)". wp_pures.
  iApply (wp_wand (Λ:=ck_lang Z) with "[HP]"); [by iApply (look_mp with "Hring Hlbp Hshift HP")|].
  iIntros (v) "(%c & -> & #Hlbc & %Hbounds & HP)". destruct Hbounds as (HcZ & HpZ & Hpc). wp_norm.
  rewrite u32_sub_r u32_sub_l.
  assert (Hcase : u32 (Z.of_nat p - Z.of_nat c) < cap -> (S p <> c + N)%nat).
  { intros Hlt Heq. pose proof (pow2_nat sh). pose proof pow2_31. rewrite u32_small in Hlt; lia. }
  destruct (Z.ltb_spec (u32 (Z.of_nat p - Z.of_nat c)) cap) as [Hlt|Hge].
  - iDestruct "HP" as "[[%Hfull _]|[%Hroom HP]]"; [by exfalso; apply (Hcase Hlt)|].
    wp_pures. iApply (wp_wand (Λ:=ck_lang (bool * Z)) with "[HP Hc]").
    { by iApply (claim_cas with "Hring Hlbp Hlbc Hc Hshift HP"). }
    iIntros (r) "[(-> & %Hcp & Hc & Ht & HP)|(%h & -> & #Hlbh & Hc & HP)]"; wp_pures.
    + iExists p, c, (Some p). rewrite bool_decide_true //. iSplit; [done|].
      iSplit; [iPureIntro; auto|]. iFrame "Hc Ht". iSplitL "HP"; [iExists looks; by iFrame|].
      by rewrite /RingProof.prod_at Hmp.
    + iExists h, looks. by iFrame "∗#".
  - iAssert (∃ looks', ⌜full_looks looks'⌝ ∗ P looks' ∗
        ⌜(c <= p)%nat -> (S p = c + N)%nat /\ ∃ looks0, full_looks looks0 /\ looks' = looks0 ++ [EFull]⌝)%I
      with "[HP]" as (looks') "(%Hl' & HP & %Hsaw)".
    { pose proof (pow2_nat sh). iDestruct "HP" as "[[%Hfull HP]|[%Hroom HP]]".
      - iExists (looks ++ [EFull]). iFrame. iPureIntro. destruct Hl as [n ->]. split.
        + exists (S n). by rewrite replicate_S_end.
        + intros _. split; [done|]. exists (replicate n EFull). split; [by exists n|done].
      - iExists looks. iFrame. iPureIntro. split; [done|]. intros Hcp. exfalso.
        rewrite u32_small in Hge; lia. }
    wp_pures. iApply (wp_wand (Λ:=ck_lang Z)).
    { by iApply (load_p_head_mp' with "Hring Hlbp Hlbc"). }
    iIntros (v) "(%h & -> & %Hph & #Hlbh)". wp_norm.
    destruct (Z.eqb_spec (u32 (Z.of_nat p)) (u32 (Z.of_nat h))) as [Heq|Hne]; wp_pures.
    + destruct Hph as (_ & Hch & HhZ). apply u32_nat_inj in Heq as <-; [|done|done].
      destruct (Hsaw Hch) as [Hfull (looks0 & Hl0 & ->)].
      iExists p, c, None. rewrite bool_decide_false; [|by intros []]. iSplit; [done|].
      iSplit; [iPureIntro; auto|]. iSplit; [iPureIntro; pose proof (pow2_nat sh); lia|].
      iFrame "Hc". iSplitL "HP"; [iExists looks0; by iFrame|]. iExists 0%nat. by rewrite /RingProof.prod_at Hmp.
    + iExists h, looks'. by iFrame "∗#".
Qed.

(** Waiting for the producers of earlier tickets. *)
Lemma wait_turn_spec γ γo j x :
  mp = true ->
  ring_inv γ γo -∗ ticket γ j x -∗
  WP wait_turn ring (u32 (Z.of_nat j)) {{ _, ticket γ j x ∗ mono_nat_lb_own (n_t γ) j }}.
Proof using geometry.
  iIntros (Hmp) "#[Hinv _] Ht". rewrite /wait_turn.
  iApply (wp_while_inv (ticket γ j x) with "Ht"). iIntros "!> Ht". wp_focus.
  open_ring (C T H k all slots tk) Hok.
  destruct (ok_small _ _ _ _ _ _ _ ltac:(by rewrite Hmp) Hok) as (_ & HT & HH).
  iDestruct (ghost_map_lookup with "Htk Ht") as %Hj.
  pose proof (proj1 (ok_tk Hok j) (mk_is_Some _ _ Hj)) as Hjr.
  iDestruct (mono_nat_lb_own_get with "Htt") as "#Hlb".
  wp_load "Hpt". iModIntro. iSplitR "Ht"; [by close_ring C T H k all slots tk|]. wp_pures.
  destruct (Z.eqb_spec (u32 (Z.of_nat T)) (u32 (Z.of_nat j))) as [Heq|Hne]; wp_pures; [|done].
  apply u32_nat_inj in Heq as ->; [|lia..]. by iFrame "∗#".
Qed.

Lemma commit_mp_spec γ γo j x evs P :
  mp = true -> length x = w ->
  ring_inv γ γo -∗ ticket γ j x -∗ ring_shift γo P -∗ P evs -∗
  WP _ck_ring_enqueue_commit_mp ring (u32 (Z.of_nat j)) {{ _, P (evs ++ [ECommit x]) }}.
Proof using geometry.
  iIntros (Hmp Hx) "#Hring Ht #Hshift HP". rewrite /_ck_ring_enqueue_commit_mp.
  wp_sub unit "[Ht]"; [by iApply (wait_turn_spec with "Hring Ht")|]. iIntros (_) "[Ht #Hlb]". wp_pures.
  rewrite u32_succ. iApply (wp_wand (Λ:=ck_lang unit) with "[Ht HP]").
  { iApply (publish _ _ _ 0%nat with "Hring Ht Hlb [] Hshift HP"); [done|].
    by rewrite /RingProof.prod_at Hmp. }
  by iIntros (_) "[$ _]".
Qed.

Lemma enqueue_mp_spec γ γo m sized x P :
  mp = true -> length x = w ->
  ring_inv γ γo -∗ credit γ (S m) -∗ ring_shift γo P -∗ P [] -∗
  WP _ck_ring_enqueue_mp ring buffer x ts {{ r, enqueued γ P x sized m r.1 r.2 }}.
Proof using geometry.
  iIntros (Hmp Hx) "#[Hinv Hmask] Hc #Hshift HP". rewrite /_ck_ring_enqueue_mp.
  wp_load_mask. wp_sub (bool * Z * Z)%type "[Hc HP]".
  { by iApply (claim_spec _ _ _ sized with "[$Hinv $Hmask] Hc Hshift HP"). }
  iIntros (r) "(%p & %c & %o & -> & %Hpc & H)". destruct Hpc as (Hcp & Hpc & [-> | ->]).
  - rewrite bool_decide_false; [|by intros []]. wp_pures. rewrite /= land_size_nat //.
    iDestruct "H" as "(%Hn & (%looks & %Hl & HP) & Hc & %t & Hpr)".
    by iApply (enqueued_full with "HP Hc Hpr").
  - rewrite bool_decide_true //. wp_norm. iDestruct "H" as "((%looks & %Hl & HP) & Hc & _ & Ht)".
    wp_sub unit "[Ht]"; [by iApply (copy_in_spec with "Hinv Ht")|]. iIntros (_) "Ht".
    wp_sub unit "[Ht]"; [by iApply (wait_turn_spec with "[$Hinv $Hmask] Ht")|]. iIntros (_) "[Ht #Hlb]".
    wp_pures. rewrite u32_succ. iApply (wp_wand (Λ:=ck_lang unit) with "[Ht HP]").
    { iApply (publish _ _ _ 0%nat with "[$Hinv $Hmask] Ht Hlb [] Hshift HP"); [done|].
      by rewrite /RingProof.prod_at Hmp. }
    iIntros (_) "[HP Hpr]". wp_pures. rewrite /= land_size_nat //.
    iApply (enqueued_done _ _ _ _ _ _ _ 0%nat with "HP Hc"); [done|]. by rewrite /RingProof.prod_at Hmp.
Qed.

Lemma reserve_mp_spec γ γo m sized P :
  mp = true ->
  ring_inv γ γo -∗ credit γ (S m) -∗ ring_shift γo P -∗ P [] -∗
  WP _ck_ring_enqueue_reserve_mp ring buffer ts {{ r, ∃ o : option nat,
    ⌜r.1 = (fun j => (slot_at j, u32 (Z.of_nat j))) <$> o⌝ ∗ reserved γ P sized m o r.2 }}.
Proof using geometry.
  iIntros (Hmp) "#[Hinv Hmask] Hc #Hshift HP". rewrite /_ck_ring_enqueue_reserve_mp.
  wp_load_mask. wp_sub (bool * Z * Z)%type "[Hc HP]".
  { by iApply (claim_spec _ _ _ sized with "[$Hinv $Hmask] Hc Hshift HP"). }
  iIntros (r) "(%p & %c & %o & -> & %Hpc & H)". destruct Hpc as (Hcp & Hpc & [-> | ->]).
  - rewrite bool_decide_false; [|by intros []]. wp_pures. rewrite /= land_size_nat //.
    iExists None. by iFrame.
  - rewrite bool_decide_true //. wp_pures. rewrite /= land_size_nat //. iExists (Some p). by iFrame.
Qed.

Lemma in_place_mp_spec γ γo x sized m (o : option nat) n P :
  mp = true -> length x = w ->
  ring_inv γ γo -∗ ring_shift γo P -∗ reserved γ P sized m o n -∗
  WP use_reserved_mp ring ts ((fun j => (slot_at j, u32 (Z.of_nat j))) <$> o) x
  {{ b, enqueued γ P x sized m b n }}.
Proof using geometry.
  iIntros (Hmp Hx) "#[Hinv Hmask] #Hshift H". destruct o as [t|]; cbn [fmap option_fmap option_map use_reserved_mp].
  2:{ iDestruct "H" as "(%Hn & (%looks & %Hl & HP) & Hc & %t & Hpr)". wp_pures.
      by iApply (enqueued_full with "HP Hc Hpr"). }
  iDestruct "H" as "((%looks & %Hl & HP) & Hc & _ & Ht)".
  wp_sub unit "[Ht]"; [by iApply (copy_in_spec with "Hinv Ht")|]. iIntros (_) "Ht".
  wp_sub unit "[Ht HP]"; [by iApply (commit_mp_spec with "[$Hinv $Hmask] Ht Hshift HP")|].
  iIntros (_) "HP". wp_pures.
  iApply (enqueued_done _ _ _ _ _ _ _ 0%nat with "HP Hc"); [done|]. by rewrite /RingProof.prod_at Hmp.
Qed.
End ops.
