(* ===== verification/RingLin.v ===== *)
(** The ring meets the interface of [Linear]: its ghost state is set up from the
    initial memory, and every operation of the four public interfaces makes the
    events [ring_events] lists. *)

From iris.algebra Require Import auth numbers.
From S2P Require Export RingOps.
Set Warnings "-rewrite-rw".

Class ringGS (Σ : gFunctors) := RingGS {
  ring_queueG :: ghost_varG Σ queue;
  ring_pairG :: ghost_varG Σ (nat * nat);
  ring_natG :: ghost_varG Σ nat;
  ring_mapG :: ghost_mapG Σ nat (list Z);
  ring_monoG :: mono_natG Σ;
  ring_creditG :: inG Σ (authR natUR);
}.

Definition ringΣ : gFunctors :=
  #[ckΣ; ghost_varΣ queue; ghost_varΣ (nat * nat); ghost_varΣ nat; ghost_mapΣ nat (list Z); mono_natΣ;
    GFunctor (authR natUR); ghost_varΣ (list (entry ring_event))].

#[global] Instance subG_ringΣ {Σ} : subG ringΣ Σ -> ringGS Σ.
Proof. solve_inG. Qed.

(** The memory of a ring in use: counters that differ by less than its size, and
    every slot mapped. *)
Definition ring_good (mp : bool) (ring buffer ts : Z) (sh : nat) (σ : mem) : Prop :=
  ∃ C T H : nat,
    σ !! c_head ring = Some (u32 (Z.of_nat C)) /\ σ !! p_tail ring = Some (u32 (Z.of_nat T)) /\
    σ !! p_head ring = Some (if mp then u32 (Z.of_nat H) else 0) /\
    σ !! size ring = Some (2 ^ Z.of_nat sh) /\ σ !! mask ring = Some (2 ^ Z.of_nat sh - 1) /\
    (C <= T <= H)%nat /\ Z.of_nat H - Z.of_nat C < 2 ^ Z.of_nat sh /\
    (∀ i, 0 <= i < ts / 8 * 2 ^ Z.of_nat sh -> is_Some (σ !! (buffer + i))).

Section lin.
Context `{!ckGS Σ, !ringGS Σ}.
Context (mp mc : bool) (ring buffer ts : Z) (sh : nat).

Abbreviation cap := (2 ^ Z.of_nat sh - 1).
Abbreviation O := (ring_object mp mc ring buffer ts cap).

Record ring_lname := RingLName { ln_ring : ring_name; ln_total : nat }.

Definition geometry_ok (total : nat) : Prop :=
  (sh <= 31)%nat /\ 0 < ts /\ ts mod 8 = 0 /\ ts * 2 ^ Z.of_nat sh <= 2 ^ 32 /\
  (mp || mc = true -> Z.of_nat total < 2 ^ 32).

Definition rlin_inv (γ : ring_lname) (γo : gname) : iProp Σ :=
  ⌜geometry_ok (ln_total γ)⌝ ∗ ring_inv mp mc ring buffer ts sh (ln_total γ) (ln_ring γ) γo ∗
  size ring ↦□ (2 ^ Z.of_nat sh).

Definition prod_role (γ : ring_name) (ops : list ring_op) : iProp Σ :=
  (if existsb producing ops then ∃ t, prod_at mp γ t t else True)%I.
Definition cons_role (γ : ring_name) (ops : list ring_op) : iProp Σ :=
  (if existsb consuming ops then ∃ c, cons_at mc γ c else True)%I.

Definition rlin_tok (γ : ring_lname) (ops : list ring_op) : iProp Σ :=
  ⌜Forall (op_ok mp mc ts) ops⌝ ∗ credit (ln_ring γ) (count_enqueues ops) ∗
  prod_role (ln_ring γ) ops ∗ cons_role (ln_ring γ) ops.

Definition rlin_init (scripts : list (list ring_op)) (m : mem) : Prop :=
  scripts_ok mp mc ts scripts /\
  ∃ ws, ring_layout ring buffer ts sh ws /\ m = ring_memory ring buffer ts sh ws.

(** ** Setting up *)

Lemma give_credits γ (ns : list nat) : credit γ (sum_list ns) -∗ [∗ list] n ∈ ns, credit γ n.
Proof.
  induction ns as [|n ns IH]; simpl; iIntros "H"; [done|].
  rewrite {1}/credit -nat_op auth_frag_op own_op. iDestruct "H" as "[$ H]". by iApply IH.
Qed.

Lemma array_join w (ls : list (list Z)) a :
  Forall (λ s, length s = w) ls ->
  array a (DfracOwn 1) (mjoin ls) ⊣⊢ [∗ list] i ↦ s ∈ ls, array (a + Z.of_nat (w * i)) (DfracOwn 1) s.
Proof.
  intros Hw. revert a. induction Hw as [|s ls Hs Hw IH]; intros a; [done|].
  rewrite big_sepL_cons Nat.mul_0_r Z.add_0_r /= /array big_sepL_app. f_equiv.
  rewrite -/(array _ _ _). transitivity (array (a + Z.of_nat w) (DfracOwn 1) (mjoin ls)).
  - rewrite /array. apply big_sepL_proper. intros i v _. rewrite Hs.
    by replace (a + Z.of_nat (w + i)) with (a + Z.of_nat w + Z.of_nat i) by lia.
  - rewrite IH. apply big_sepL_proper. intros i v _.
    by replace (a + Z.of_nat w + Z.of_nat (w * i)) with (a + Z.of_nat (w * S i)) by lia.
Qed.

Lemma chunks n (ws : list Z) w :
  length ws = (w * n)%nat ->
  ∃ ls, mjoin ls = ws /\ length ls = n /\ Forall (λ s, length s = w) ls.
Proof.
  revert ws. induction n as [|n IH]; intros ws Hl.
  { exists []. rewrite Nat.mul_0_r in Hl. by apply nil_length_inv in Hl as ->. }
  destruct (IH (drop w ws)) as (ls & Hj & Hn & Hw); [rewrite length_drop; lia|].
  exists (take w ws :: ls). simpl. rewrite Hj take_drop Hn. split_and!; [done|done|].
  constructor; [|done]. rewrite length_take. lia.
Qed.

Lemma ring_ok_init total (slots : list (list Z)) :
  length slots = (2 ^ sh)%nat -> Forall (λ s, length s = words ts) slots ->
  ring_ok (2 ^ sh) (words ts) total 0 0 0 total [] slots ∅.
Proof.
  intros Hl Hw. assert (2 ^ sh <> 0)%nat by (apply Nat.pow_nonzero; lia).
  split; try done; try lia.
  - intros j. rewrite lookup_empty is_Some_alt. lia.
Qed.

Lemma rlin_alloc scripts m γo E :
  rlin_init scripts m ->
  ([∗ map] l ↦ v ∈ m, l ↦ v) -∗ ghost_var γo (1/2) (Queue [] 0) ={E}=∗
  ∃ γ, rlin_inv γ γo ∗ [∗ list] ops ∈ scripts, rlin_tok γ ops.
Proof.
  iIntros ((Hscripts & ws & Hlay & ->)) "Hm Ho".
  destruct Hscripts as (Hops & Hp & Hc & Htot).
  destruct Hlay as (Hsh & Hts & Hts8 & Hfit & Hlen & Hdisj).
  set (total := sum_list (count_enqueues <$> scripts)) in *.
  assert (Hgeo : geometry_ok total) by done.
  rewrite /ring_memory big_sepM_union; [|apply array_mem_disjoint; simpl; lia].
  rewrite !array_of_mem. iDestruct "Hm" as "[Hr Hb]".
  iDestruct "Hr" as "(Hch & Hpt & Hph & Hsz & Hmk & _)".
  rewrite Z.add_0_r. change (ring + 1%nat) with (p_tail ring).
  change (ring + 2%nat) with (p_head ring). change (ring + 3%nat) with (size ring).
  change (ring + 4%nat) with (mask ring).
  iMod (pointsto_persist with "Hsz") as "#Hsz". iMod (pointsto_persist with "Hmk") as "#Hmk".
  destruct (chunks (2 ^ sh) ws (words ts)) as (slots & <- & Hn & Hw).
  { pose proof (pow2_nat sh). rewrite /words. assert (0 <= ts / 8) by (apply Z.div_pos; lia). nia. }
  iDestruct (array_join with "Hb") as "Hb"; [done|].
  iMod (mono_nat_own_alloc 0) as (n_c) "[Hcc #Hlbc]". iMod (mono_nat_own_alloc 0) as (n_t) "[Htt _]".
  iMod (mono_nat_own_alloc 0) as (n_h) "[Hh _]".
  iMod (ghost_map_alloc_empty (K:=nat) (V:=list Z)) as (n_all) "Hall".
  iMod (ghost_map_alloc_empty (K:=nat) (V:=list Z)) as (n_tk) "Htk".
  iMod (own_alloc (● total ⋅ ◯ total)) as (n_cr) "[Hcr Hcf]".
  { by apply auth_both_valid_discrete. }
  iMod (ghost_var_alloc (0%nat, 0%nat)) as (n_p) "Hp". iMod (ghost_var_alloc 0%nat) as (n_cv) "Hcv".
  set (γ := RingName n_c n_t n_h n_all n_tk n_cr n_p n_cv).
  iAssert (ghost_var n_p (if mp then 1 else 1/2)%Qp (0%nat, 0%nat) ∗ prod_at mp γ 0 0)%I with "[Hp]" as "[Hp Hpr]".
  { rewrite /prod_at. destruct mp; [by iFrame|]. by iDestruct "Hp" as "[$ $]". }
  iAssert (ghost_var n_cv (if mc then 1 else 1/2)%Qp 0%nat ∗ cons_at mc γ 0)%I with "[Hcv]" as "[Hcv Hcn]".
  { rewrite /cons_at. iFrame "Hlbc". destruct mc; [by iFrame|]. by iDestruct "Hcv" as "[$ $]". }
  iMod (inv_alloc ringN E (ring_state mp mc ring buffer ts sh total γ γo)
    with "[Hch Hpt Hph Hb Hcc Htt Hh Hp Hcv Hall Htk Hcr Ho]") as "#Hinv".
  { iNext. iExists 0%nat, 0%nat, 0%nat, total, [], slots, ∅. simpl. iFrame.
    iSplitL "Hph"; [by destruct mp|]. iPureIntro. by apply ring_ok_init. }
  iModIntro. iExists (RingLName γ total). iSplitR; [by iFrame "#"|].
  rewrite /rlin_tok !big_sepL_sep. iSplitR.
  { iApply big_sepL_pure. iPureIntro. intros t ops Ht. rewrite Forall_lookup in Hops. eauto. }
  iSplitL "Hcf".
  { iPoseProof (give_credits γ (count_enqueues <$> scripts) with "Hcf") as "H". by rewrite big_sepL_fmap. }
  iSplitL "Hpr".
  - destruct mp eqn:Emp.
    + iApply big_sepL_intro. iIntros "!>" (t ops _). rewrite /prod_role. destruct existsb; [|done].
      iExists 0%nat. by rewrite /prod_at Emp.
    + iApply (give_alone producing with "[Hpr]"); [auto|]. iExists 0%nat. by rewrite Emp.
  - destruct mc eqn:Emc.
    + iDestruct "Hcn" as "[#Hlb _]".
      iApply big_sepL_intro. iIntros "!>" (t ops _). rewrite /cons_role. destruct existsb; [|done].
      iExists 0%nat. rewrite /cons_at Emc. by iFrame "#".
    + iApply (give_alone consuming with "[Hcn]"); [auto|]. iExists 0%nat. by rewrite Emc.
Qed.

(** ** Operations *)

Lemma take_roles γ op ops :
  rlin_tok γ (op :: ops) -∗ ⌜op_ok mp mc ts op⌝ ∗ credit (ln_ring γ) (count_enqueues (op :: ops)) ∗
    (if producing op then ∃ t, prod_at mp (ln_ring γ) t t else prod_role (ln_ring γ) ops) ∗
    (if consuming op then ∃ c, cons_at mc (ln_ring γ) c else cons_role (ln_ring γ) ops) ∗
    ⌜Forall (op_ok mp mc ts) ops⌝.
Proof.
  iIntros "(%Hok & Hc & Hp & Hn)". apply Forall_cons in Hok as [H1 H2]. iFrame "Hc".
  iSplit; [done|]. rewrite /prod_role /cons_role /=. iSplitL "Hp"; [by destruct (producing op)|].
  iSplit; [|done]. by destruct (consuming op).
Qed.

Lemma give_prod γ t ops : prod_at mp γ t t -∗ prod_role γ ops.
Proof. iIntros "H". rewrite /prod_role. destruct existsb; [by iExists t|done]. Qed.

Lemma give_cons γ c ops : cons_at mc γ c -∗ cons_role γ ops.
Proof. iIntros "H". rewrite /cons_role. destruct existsb; [by iExists c|done]. Qed.

Lemma enqueue_any γ γo m sized x P :
  length x = words ts ->
  rlin_inv γ γo -∗ (∃ t, prod_at mp (ln_ring γ) t t) -∗ credit (ln_ring γ) (S m) -∗ lin_shift (O:=O) γo P -∗ P [] -∗
  WP (if mp then _ck_ring_enqueue_mp ring buffer x ts else _ck_ring_enqueue_sp ring buffer x ts)
  {{ r, enqueued mp sh (ln_ring γ) P x sized m r.1 r.2 }}.
Proof.
  iIntros (Hx) "(%Hgeo & #Hinv & _) (%t & Hpr) Hc #Hshift HP". destruct Hgeo as (? & ? & ? & ? & ?).
  destruct mp eqn:Emp.
  - by iApply (enqueue_mp_spec with "Hinv Hc Hshift HP").
  - by iApply (enqueue_sp_spec with "Hinv Hpr Hc Hshift HP").
Qed.

Lemma dequeue_any γ γo P :
  rlin_inv γ γo -∗ (∃ c, cons_at mc (ln_ring γ) c) -∗ lin_shift (O:=O) γo P -∗ P [] -∗
  WP (if mc then _ck_ring_dequeue_mc ring buffer ts else _ck_ring_dequeue_sc ring buffer ts)
  {{ o, P [EDequeue o] ∗ ∃ c, cons_at mc (ln_ring γ) c }}.
Proof.
  iIntros "(%Hgeo & #Hinv & _) (%c & Hcn) #Hshift HP". destruct Hgeo as (? & ? & ? & ? & ?).
  destruct mc eqn:Emc.
  - iApply (wp_wand (Λ:=ck_lang (option (list Z))) with "[HP]").
    { by iApply (dequeue_mc_spec with "Hinv Hshift HP"). }
    iIntros (o) "$". by iExists c.
  - by iApply (dequeue_sc_spec with "Hinv Hcn Hshift HP").
Qed.

(** An enqueue has ended: its events, and the token for the rest of the script. *)
Lemma enqueue_done γ x (sized : bool) ops b n P :
  Forall (op_ok mp mc ts) ops ->
  enqueued mp sh (ln_ring γ) P x sized (count_enqueues ops) b n -∗ cons_role (ln_ring γ) ops -∗
  ∃ evs, ⌜enqueue_events x b (event_size sized n) evs /\ (b = false -> n = cap)⌝ ∗ P evs ∗ rlin_tok γ ops.
Proof.
  iIntros (Hops) "(%evs & %He & %Hn & HP & Hc & %t & Hpr) Hcn". iExists evs. iFrame "HP Hc Hcn".
  iSplit; [done|]. iSplit; [done|]. by iApply give_prod.
Qed.

(** The four interfaces differ in the functions they call only. *)
Abbreviation enq x :=
  (if mp then _ck_ring_enqueue_mp ring buffer x ts else _ck_ring_enqueue_sp ring buffer x ts).
Abbreviation deq :=
  (if mc then _ck_ring_dequeue_mc ring buffer ts else _ck_ring_dequeue_sc ring buffer ts).

Lemma code_enqueue x :
  ring_code mp mc ring buffer ts (OpEnqueue x) =
  (b <- (letp (r, _) := enq x ;; Ret r) ;; Ret (RBool b)).
Proof. by destruct mp, mc. Qed.

Lemma code_enqueue_size x :
  ring_code mp mc ring buffer ts (OpEnqueueSize x) =
  (letp (b, n) := (letp (r, sz) := enq x ;; Ret (r, sz)) ;; Ret (RBoolSize b n)).
Proof. by destruct mp, mc. Qed.

Lemma code_in_place x :
  ring_code mp mc ring buffer ts (OpInPlace x) =
  (b <- (if mp then
           r <- (letp (r, _) := _ck_ring_enqueue_reserve_mp ring buffer ts ;; Ret r) ;; use_reserved_mp ring ts r x
         else
           r <- (letp (r, _) := _ck_ring_enqueue_reserve_sp ring buffer ts ;; Ret r) ;; use_reserved_sp ring ts r x) ;;
   Ret (RBool b)).
Proof. by destruct mp, mc. Qed.

Lemma code_in_place_size x :
  ring_code mp mc ring buffer ts (OpInPlaceSize x) =
  (if mp then
     letp (r, n) := _ck_ring_enqueue_reserve_mp ring buffer ts ;;
     b <- use_reserved_mp ring ts r x ;; Ret (RBoolSize b n)
   else
     letp (r, n) := _ck_ring_enqueue_reserve_sp ring buffer ts ;;
     b <- use_reserved_sp ring ts r x ;; Ret (RBoolSize b n)).
Proof. by destruct mp, mc. Qed.

Lemma code_dequeue :
  ring_code mp mc ring buffer ts OpDequeue = (o <- deq ;; Ret (RValue o)).
Proof. by destruct mp, mc. Qed.

Lemma code_trydequeue :
  ring_code mp mc ring buffer ts OpTryDequeue =
  (o <- _ck_ring_trydequeue_mc ring buffer ts ;; Ret (RValue o)).
Proof. by destruct mp. Qed.

Ltac wp_call A H := wp_focus; iApply (wp_wand (Λ:=ck_lang A) with H).

Lemma in_place_size_spec γ γo m x P :
  length x = words ts ->
  rlin_inv γ γo -∗ (∃ t, prod_at mp (ln_ring γ) t t) -∗ credit (ln_ring γ) (S m) -∗ lin_shift (O:=O) γo P -∗ P [] -∗
  WP ring_code mp mc ring buffer ts (OpInPlaceSize x)
  {{ r, ∃ b n, ⌜r = RBoolSize b n⌝ ∗ enqueued mp sh (ln_ring γ) P x true m b n }}.
Proof.
  iIntros (Hx) "(%Hgeo & #Hinv & _) (%t & Hpr) Hc #Hshift HP". destruct Hgeo as (? & ? & ? & ? & ?).
  rewrite code_in_place_size. destruct mp eqn:Emp.
  - wp_call (option (Z * Z) * Z)%type "[Hc HP]".
    { by iApply (reserve_mp_spec with "Hinv Hc Hshift HP"). }
    iIntros ([r n]) "(%o & %Hr & H)". simpl in Hr. subst r. wp_call bool "[H]".
    { by iApply (in_place_mp_spec with "Hinv Hshift H"). }
    iIntros (b) "H". wp_pures. iExists b, n. by iFrame.
  - wp_call (option Z * Z)%type "[Hpr Hc HP]".
    { by iApply (reserve_sp_spec with "Hinv Hpr Hc Hshift HP"). }
    iIntros ([r n]) "(%o & %Hr & H)". simpl in Hr. subst r. wp_call bool "[H]".
    { by iApply (in_place_sp_spec with "Hinv Hshift H"). }
    iIntros (b) "H". wp_pures. iExists b, n. by iFrame.
Qed.

Lemma in_place_spec γ γo m x P :
  length x = words ts ->
  rlin_inv γ γo -∗ (∃ t, prod_at mp (ln_ring γ) t t) -∗ credit (ln_ring γ) (S m) -∗ lin_shift (O:=O) γo P -∗ P [] -∗
  WP ring_code mp mc ring buffer ts (OpInPlace x)
  {{ r, ∃ b n, ⌜r = RBool b⌝ ∗ enqueued mp sh (ln_ring γ) P x false m b n }}.
Proof.
  iIntros (Hx) "(%Hgeo & #Hinv & _) (%t & Hpr) Hc #Hshift HP". destruct Hgeo as (? & ? & ? & ? & ?).
  rewrite code_in_place. destruct mp eqn:Emp.
  - wp_call (option (Z * Z) * Z)%type "[Hc HP]".
    { by iApply (reserve_mp_spec with "Hinv Hc Hshift HP"). }
    iIntros ([r n]) "(%o & %Hr & H)". simpl in Hr. subst r. wp_pures. wp_call bool "[H]".
    { by iApply (in_place_mp_spec with "Hinv Hshift H"). }
    iIntros (b) "H". wp_pures. iExists b, n. by iFrame.
  - wp_call (option Z * Z)%type "[Hpr Hc HP]".
    { by iApply (reserve_sp_spec with "Hinv Hpr Hc Hshift HP"). }
    iIntros ([r n]) "(%o & %Hr & H)". simpl in Hr. subst r. wp_pures. wp_call bool "[H]".
    { by iApply (in_place_sp_spec with "Hinv Hshift H"). }
    iIntros (b) "H". wp_pures. iExists b, n. by iFrame.
Qed.

Lemma rlin_op γ γo op ops (P : list ring_event -> iProp Σ) :
  rlin_inv γ γo -∗ rlin_tok γ (op :: ops) -∗ lin_shift (O:=O) γo P -∗ P [] -∗
  WP ring_code mp mc ring buffer ts op
  {{ r, ∃ evs, ⌜ring_events cap op r evs⌝ ∗ P evs ∗ rlin_tok γ ops }}.
Proof.
  iIntros "#Hinv Htok #Hshift HP".
  iDestruct (take_roles with "Htok") as "(%Hop & Hc & Hpr & Hcn & %Hops)".
  destruct op as [x|x|x|x| | |[]].
  - rewrite code_enqueue. wp_call (bool * Z)%type "[Hc Hpr HP]".
    { by iApply (enqueue_any _ _ _ false with "Hinv Hpr Hc Hshift HP"). }
    iIntros ([b n]) "H". wp_pures.
    iDestruct (enqueue_done with "H Hcn") as (evs) "([%He _] & HP & Htok)"; [done|]. iExists evs. by iFrame.
  - rewrite code_enqueue_size. wp_call (bool * Z)%type "[Hc Hpr HP]".
    { by iApply (enqueue_any _ _ _ true with "Hinv Hpr Hc Hshift HP"). }
    iIntros ([b n]) "H". wp_pures.
    iDestruct (enqueue_done with "H Hcn") as (evs) "([%He %Hn] & HP & Htok)"; [done|]. iExists evs. by iFrame.
  - iApply (wp_wand (Λ:=ck_lang ring_ret) with "[Hc Hpr HP]").
    { by iApply (in_place_spec with "Hinv Hpr Hc Hshift HP"). }
    iIntros (r) "(%b & %n & -> & H)".
    iDestruct (enqueue_done with "H Hcn") as (evs) "([%He _] & HP & Htok)"; [done|]. iExists evs. by iFrame.
  - iApply (wp_wand (Λ:=ck_lang ring_ret) with "[Hc Hpr HP]").
    { by iApply (in_place_size_spec with "Hinv Hpr Hc Hshift HP"). }
    iIntros (r) "(%b & %n & -> & H)".
    iDestruct (enqueue_done with "H Hcn") as (evs) "([%He %Hn] & HP & Htok)"; [done|]. iExists evs. by iFrame.
  - rewrite code_dequeue. wp_call (option (list Z)) "[Hcn HP]".
    { by iApply (dequeue_any with "Hinv Hcn Hshift HP"). }
    iIntros (o) "[HP (%c & Hcn)]". wp_pures. iExists _. iFrame. iSplit; [done|]. iSplit; [done|].
    by iApply give_cons.
  - rewrite code_trydequeue. wp_call (option (list Z)) "[HP]".
    { iDestruct "Hinv" as "(%Hgeo & Hinv & _)". destruct Hgeo as (? & ? & ? & ? & ?).
      by iApply (trydequeue_mc_spec with "Hinv Hshift HP"). }
    iDestruct "Hcn" as (c) "Hcn".
    iIntros (o) "HP". wp_pures.
    iAssert (∃ evs, ⌜evs = [EDequeue o] \/ o = None /\ evs = []⌝ ∗ P evs)%I with "[HP]" as (evs) "[%He HP]".
    { iDestruct "HP" as "[HP|[-> HP]]"; iExists _; iFrame; auto. }
    iExists evs. iFrame. iSplit; [done|]. iSplit; [done|]. by iApply give_cons.
  - iDestruct "Hinv" as "(%Hgeo & Hinv & _)". destruct Hgeo as (? & ? & ? & ? & ?).
    iDestruct "Hpr" as (t) "Hpr". cbn [ring_code]. wp_call Z "[Hpr HP]".
    { by iApply (size_producer_spec with "Hinv Hpr Hshift HP"). }
    iIntros (n) "[HP Hpr]". wp_pures. iExists _. iFrame. iSplit; [done|]. iSplit; [done|]. by iApply give_prod.
  - iDestruct "Hinv" as "(%Hgeo & Hinv & _)". destruct Hgeo as (? & ? & ? & ? & ?).
    iDestruct "Hcn" as (c) "Hcn". cbn [ring_code]. wp_call Z "[Hcn HP]".
    { by iApply (size_consumer_spec with "Hinv Hcn Hshift HP"). }
    iIntros (n) "[HP Hcn]". wp_pures. iExists _. iFrame. iSplit; [done|]. iSplit; [done|]. by iApply give_cons.
Qed.

(** ** The memory *)

Lemma rlin_good γ γo σ E :
  ↑objN ⊆ E -> rlin_inv γ γo -∗ gen_heap_interp σ ={E}=∗ gen_heap_interp σ ∗ ⌜ring_good mp ring buffer ts sh σ⌝.
Proof.
  iIntros (HE) "(%Hgeo & #[Hinv Hmask] & #Hsize) Hσ". destruct Hgeo as (_ & Hts & Hts8 & _ & _).
  open_ring (C T H k all slots tk) Hok.
  iDestruct (gen_heap_valid with "Hσ Hch") as %?. iDestruct (gen_heap_valid with "Hσ Hpt") as %?.
  iDestruct (gen_heap_valid with "Hσ Hph") as %?. iDestruct (gen_heap_valid with "Hσ Hmask") as %?.
  iDestruct (gen_heap_valid with "Hσ Hsize") as %?.
  iAssert ⌜∀ i, (0 <= i < ts / 8 * 2 ^ Z.of_nat sh)%Z -> is_Some (σ !! (buffer + i)%Z)⌝%I as %Hmapped.
  { iIntros (i Hi). pose proof (pow2_nat sh).
    assert (Hd : 0 < ts / 8) by nia.
    pose proof (Z.mod_pos_bound i (ts / 8) Hd). pose proof (Z.div_mod i (ts / 8) ltac:(lia)).
    destruct (ring_ok_slot _ _ _ _ _ _ _ _ _ _ Hok 0) as (s0 & Hs0 & _).
    destruct (lookup_lt_is_Some_2 slots (Z.to_nat (i / (ts / 8)))) as [s Hs].
    { rewrite (ok_slots Hok). assert (i / (ts / 8) < 2 ^ Z.of_nat sh) by (apply Z.div_lt_upper_bound; lia).
      assert (0 <= i / (ts / 8)) by (apply Z.div_pos; lia). lia. }
    assert (length s = words ts) as Hw by (pose proof (ok_words Hok) as Hf; rewrite Forall_lookup in Hf; eauto).
    destruct (lookup_lt_is_Some_2 s (Z.to_nat (i mod (ts / 8)))) as [v Hv]; [rewrite Hw /words; lia|].
    iDestruct (big_sepL_lookup with "Hs") as "Hs"; [exact Hs|].
    iDestruct (array_read with "Hs") as "[Hv _]"; [exact Hv|].
    iDestruct (gen_heap_valid with "Hσ Hv") as %Hin. iPureIntro.
    replace (buffer + i) with (buffer + Z.of_nat (words ts * Z.to_nat (i / (ts / 8))) +
      Z.of_nat (Z.to_nat (i mod (ts / 8)))); [by eexists|].
    assert (0 <= i / (ts / 8)) by (apply Z.div_pos; lia). rewrite /words. lia. }
  iModIntro. iSplitR "Hσ"; [by close_ring C T H k all slots tk|]. iModIntro. iFrame. iPureIntro.
  exists C, T, H. pose proof (ok_ct Hok). pose proof (ok_th Hok). pose proof (ok_hc Hok). pose proof (pow2_nat sh).
  split_and!; try done; lia.
Qed.

#[global] Instance ring_lin_spec : LinSpec O rlin_init (ring_good mp ring buffer ts sh).
Proof.
  refine {| lin_name := ring_lname; lin_inv := rlin_inv; lin_tok := rlin_tok : _ -> list (oop O) -> _ |}.
  - apply rlin_alloc.
  - apply rlin_op.
  - apply rlin_good.
Defined.
End lin.
