(* ===== verification/RingTheorems.v ===== *)
(** The ring: its theorems.  Linearizability of the four interfaces, what it means
    for the entries that go through a ring, wait-freedom of the single-producer
    single-consumer ring, and the consistency check. *)

From S2P Require Export RingLin Linear.
Set Warnings "-rewrite-rw".

(** * Entries in and out *)






Section entries.
Context (mp mc : bool) (ring buffer ts cap : Z).
Abbreviation O := (ring_object mp mc ring buffer ts cap).




End entries.




Section finished.
Context (mp mc : bool) (ring buffer ts cap : Z).
Abbreviation O := (ring_object mp mc ring buffer ts cap).

End finished.

(** * Theorems *)


Lemma ring_spec mp mc ring buffer ts sh :
  ∀ `{!ckGS ringΣ}, LinSpec (ring_object mp mc ring buffer ts (2 ^ Z.of_nat sh - 1))
    (rlin_init mp mc ring buffer ts sh) (ring_good mp ring buffer ts sh).
Proof. intros ?. apply ring_lin_spec. Qed.

Lemma ring_run mp mc ring buffer ts sh ws clock scripts ps σ :
  ring_layout ring buffer ts sh ws -> scripts_ok mp mc ts scripts ->
  ring_memory ring buffer ts sh ws !! clock = None ->
  rtc sys_step (workers (ring_object mp mc ring buffer ts (2 ^ Z.of_nat sh - 1)) clock scripts
    (ring_memory ring buffer ts sh ws)) (ps, σ) ->
  (linearizable (ring_object mp mc ring buffer ts (2 ^ Z.of_nat sh - 1)) scripts ps /\
   ring_good mp ring buffer ts sh σ) /\ (∀ p, p ∈ ps -> safe p σ).
Proof.
  intros Hlay Hok Hclock.
  refine (spec_linearizable ringΣ _ _ _ (@ring_spec mp mc ring buffer ts sh) clock scripts _ ps σ _ Hclock).
  split; [done|by exists ws].
Qed.

(** * Wait-freedom of one producer and one consumer *)

Definition op_steps (ts : Z) : nat := 60 + 6 * words ts.
Definition script_steps (ts : Z) (ops : list ring_op) : nat := length ops * (6 + op_steps ts).

Lemma read_words_bounded a n : bounded (3 * n) (read_words a n).
Proof.
  revert a. induction n as [|n IH]; intros a; cbn [read_words]; [constructor|].
  eapply bounded_mono; [bound_with ltac:(apply IH)|lia].
Qed.

Lemma write_words_bounded a ws : bounded (2 * length ws) (write_words a ws).
Proof.
  revert a. induction ws as [|w ws IH]; intros a; cbn [write_words]; [constructor|].
  eapply bounded_mono; [bound_with ltac:(apply IH)|simpl; lia].
Qed.

Lemma memcpy_to_bounded a x ts : bounded (2 * words ts) (memcpy_to_slot a x ts).
Proof. eapply bounded_mono; [apply write_words_bounded|]. rewrite length_take. lia. Qed.

Lemma op_bounded ring buffer ts op :
  op_ok false false ts op -> bounded (op_steps ts) (ring_code false false ring buffer ts op).
Proof.
  intros Hop. rewrite /op_steps.
  destruct op as [x|x|x|x| | |b]; [..|done|]; cbn [ring_code];
    (eapply bounded_mono;
      [unfold enqueue_spsc, enqueue_spsc_size, enqueue_reserve_spsc, enqueue_reserve_spsc_size, dequeue_spsc,
         _ck_ring_enqueue_sp_size, _ck_ring_enqueue_sp, _ck_ring_enqueue_reserve_sp, use_reserved_sp,
         _ck_ring_enqueue_commit_sp, _ck_ring_dequeue_sc, ck_ring_size, memcpy_from_slot;
       bound_with ltac:(first [apply read_words_bounded|apply memcpy_to_bounded])|lia]).
Qed.

Lemma worker_bounded ring buffer ts cap clock ops :
  Forall (op_ok false false ts) ops ->
  bounded (script_steps ts ops) (worker (ring_object false false ring buffer ts cap) clock ops).
Proof.
  intros Hops. rewrite /script_steps. induction Hops as [|op ops Hop Hops IH]; cbn [worker]; [constructor|].
  eapply bounded_mono; [bound_with ltac:(first [apply IH|apply op_bounded, Hop])|simpl; lia].
Qed.

(** * Order *)

Lemma omap_none {A B} (f : A -> option B) l : Forall (fun x => f x = None) l -> omap f l = [].
Proof. induction 1 as [|x l Hx Hl IH]; [done|]. simpl. by rewrite Hx. Qed.







(** * Statements *)

Section statements.
Context (mp mc : bool) (ring buffer ts : Z) (sh : nat) (ws : list Z) (clock : Z).

Definition ring_system (scripts : list (list ring_op)) : config (list (call ring_ret)) :=
  workers (ring_object mp mc ring buffer ts (2 ^ Z.of_nat sh - 1)) clock scripts
    (ring_memory ring buffer ts sh ws).

Definition ring_setup (scripts : list (list ring_op)) : Prop :=
  ring_layout ring buffer ts sh ws /\ scripts_ok mp mc ts scripts /\
  ring_memory ring buffer ts sh ws !! clock = None.
End statements.






Definition fifo_scripts : list (list ring_op) :=
  [[OpEnqueue [1]; OpEnqueueSize [2]; OpInPlace [3]; OpEnqueue [4]; OpSize true; OpEnqueue [5]];
   [OpDequeue; OpSize false; OpDequeue; OpDequeue; OpDequeue]].



Lemma fifo_setup : ring_setup false false 1 10 8 2 (replicate 4 0) 100 fifo_scripts.
Proof.
  split_and!; [split_and!; try done; [lia|simpl; lia]| |reflexivity].
  split_and!; [by repeat constructor|..|done]; intros _ [|[|t1]] [|[|t2]] o1 o2; simpl; intros; by simplify_eq.
Qed.


(** C25. Wait-freedom of the single-producer single-consumer ring: its operations
    have no loop that waits, so a producer and a consumer with scripts of [n] and
    [m] operations on entries of [w] words take at most
    [(n + m) * (66 + 6 * w)] steps together under every scheduler, and none of
    their steps faults. *)
Theorem ring_spsc_wait_free ring buffer ts sh ws clock scripts n ps σ :
  ring_setup false false ring buffer ts sh ws clock scripts ->
  nsteps sys_step n (ring_system false false ring buffer ts sh ws clock scripts) (ps, σ) ->
  (n <= sum_list (script_steps ts <$> scripts))%nat /\ (∀ p, p ∈ ps -> safe p σ).
Proof.
  intros (Hlay & Hok & Hclock) Hsteps. split.
  - refine (bounded_pool n _ ps _ σ _ _ Hsteps). destruct Hok as [Hops _]. clear -Hops.
    induction Hops as [|ops scripts Hop Hops IH]; constructor; [by apply worker_bounded|done].
  - apply (ring_run false false ring buffer ts sh ws clock scripts ps σ Hlay Hok Hclock).
    by apply (rtc_nsteps_2 n).
Qed.

Lemma ring_spsc_wait_free_witness :
  let c := round_robin 200 (ring_system false false 1 10 8 2 (replicate 4 0) 100 fifo_scripts) in
  forallb is_ret c.1 = true /\
  ∃ n, nsteps sys_step n (ring_system false false 1 10 8 2 (replicate 4 0) 100 fifo_scripts) c /\
    (n <= sum_list (script_steps 8 <$> fifo_scripts))%nat.
Proof.
  intros c. split; [vm_compute; reflexivity|].
  destruct (rtc_nsteps_1 _ _ (round_robin_pair 200 (ring_system false false 1 10 8 2 (replicate 4 0) 100 fifo_scripts)))
    as [n Hn].
  exists n. rewrite -surjective_pairing in Hn. split; [exact Hn|]. rewrite (surjective_pairing (round_robin _ _)) in Hn.
  exact (proj1 (ring_spsc_wait_free 1 10 8 2 (replicate 4 0) 100 fifo_scripts n _ _ fifo_setup Hn)).
Defined.

(** * The state of a ring, and its consistency check *)

Lemma ring_valid_runs ring σ n c h :
  σ !! Ring.size ring = Some n -> σ !! c_head ring = Some c -> σ !! p_head ring = Some h ->
  returns (ck_ring_valid ring) σ
    (negb (truthy (Z.land n (u32 (n - 1)))) && negb (n <=? u32 (h - c))) σ.
Proof.
  intros Hn Hc Hh. exists 8%nat. rewrite /ck_ring_valid. cbn [run pstep exec ld].
  rewrite Hn /= Hc /= Hh /=. by destruct (truthy _), (n <=? _).
Qed.




(** The consistency check rejects rings used by a single producer, and the
    repair empties them: [_ck_ring_enqueue_sp] and [_ck_ring_enqueue_commit_sp] never
    advance [p_head], with which [ck_ring_valid] and [ck_ring_repair] compare.  In
    every state that threads respecting the interface can reach, once between 1
    and 2^32 - [size] entries (modulo 2^32) were dequeued, [ck_ring_valid] is
    false; and [ck_ring_repair] sets a [p_tail] that is not 0 back to 0, where it
    was before the first enqueue. *)
Theorem ring_valid_rejects_sp mc ring buffer ts sh ws clock scripts ps σ c t :
  ring_setup false mc ring buffer ts sh ws clock scripts ->
  rtc sys_step (ring_system false mc ring buffer ts sh ws clock scripts) (ps, σ) ->
  σ !! c_head ring = Some c -> σ !! p_tail ring = Some t ->
  (0 < c <= 2 ^ 32 - 2 ^ Z.of_nat sh -> returns (ck_ring_valid ring) σ false σ) /\
  (t <> 0 -> returns (ck_ring_repair ring) σ true (<[p_tail ring := 0]> σ)).
Proof.
  intros (Hlay & Hok & Hclock) Hsteps Hc Ht.
  destruct (ring_run false mc ring buffer ts sh ws clock scripts ps σ Hlay Hok Hclock Hsteps) as [[_ Hgood] _].
  destruct Hgood as (C & T & H & _ & _ & Hh & Hs & _). split.
  - intros Hrange. rewrite -(andb_false_r (negb (truthy (Z.land (2 ^ Z.of_nat sh) (u32 (2 ^ Z.of_nat sh - 1)))))).
    replace false with (negb (2 ^ Z.of_nat sh <=? u32 (0 - c))); [by apply ring_valid_runs|].
    apply negb_false_iff, Z.leb_le. pose proof (Z.pow_pos_nonneg 2 (Z.of_nat sh) eq_refl ltac:(lia)).
    rewrite /u32. change (2 ^ 32) with 4294967296 in Hrange.
    replace (0 - c) with (4294967296 - c + -1 * 4294967296) by lia. rewrite Z_mod_plus_full Z.mod_small; lia.
  - intros Hne. exists 8%nat. apply Z.eqb_neq in Hne. rewrite /ck_ring_repair.
    cbn [run pstep exec ld]. rewrite Ht /= Hh /= Hne /= Hh /= Ht. reflexivity.
Qed.

Lemma ring_valid_rejects_sp_witness :
  let c := round_robin 200 (ring_system false false 1 10 8 2 (replicate 4 0) 100 fifo_scripts) in
  returns (ck_ring_valid 1) c.2 false c.2.
Proof.
  intros c.
  destruct (ring_valid_rejects_sp false 1 10 8 2 (replicate 4 0) 100 fifo_scripts c.1 c.2 3 5) as [Hvalid _].
  - apply fifo_setup.
  - apply round_robin_pair.
  - vm_compute. reflexivity.
  - vm_compute. reflexivity.
  - apply Hvalid. vm_compute. by split.
Defined.

(** The byte offset of a slot, [ts * (producer & mask)], is an unsigned int.  In
    a ring of 2^30 pointers whose first 2^29 slots are full the next enqueue
    succeeds and overwrites the oldest entry [v]: the next dequeue returns the new
    entry [w] instead. *)
Theorem ring_offset_wraps v w :
  let σ := array_mem 1 [0; 2 ^ 29; 0; 2 ^ 30; 2 ^ 30 - 1] ∪ {[10 := v]} in
  ∃ σ', returns (ck_ring_enqueue_spsc 1 10 w) σ true σ' /\
        ∃ σ'', returns (ck_ring_dequeue_spsc 1 10) σ' (Some w) σ''.
Proof.
  eexists. split; [exists 60%nat; vm_compute; reflexivity|].
  eexists. exists 60%nat. vm_compute. reflexivity.
Qed.
