(* ===== verification/Stack.v ===== *)
(** The lock-free stack [ck_stack]: every function of [ck_stack.h], and the stack
    as an abstract object. *)

From S2P Require Export Linear.
Set Warnings "-rewrite-rw".

(** * ck_stack

    A stack has [head] at offset 0 and [generation] at offset 1, an entry has
    [next] at offset 0.  A function that stores an entry through [r] and returns
    whether it did answers an option. *)

Definition head (stack : Z) : Z := stack.
Definition generation (stack : Z) : Z := stack + 1.
Definition next (entry : Z) : Z := entry.

Definition ck_stack_push_upmc (target entry : Z) : prog unit :=
  stack <- ck_pr_load (head target) ;;
  st (next entry) stack ;;
  ck_pr_fence F_store ;;
  Iter (fun stack =>
    letp (r, stack) := ck_pr_cas_value (head target) stack entry ;;
    if r : bool then break tt
    else st (next entry) stack ;; ck_pr_fence F_store ;; continue stack) stack.

Definition ck_stack_trypush_upmc (target entry : Z) : prog bool :=
  stack <- ck_pr_load (head target) ;;
  st (next entry) stack ;;
  ck_pr_fence F_store ;;
  ck_pr_cas (head target) stack entry.

(** The loop state is [entry] and [next]. *)
Definition ck_stack_pop_upmc (target : Z) : prog Z :=
  entry <- ck_pr_load (head target) ;;
  if entry =? NULL then Ret NULL
  else
    ck_pr_fence F_load ;;
    n <- ld (next entry) ;;
    Iter (fun '(entry, n) =>
      letp (r, entry) := ck_pr_cas_value (head target) entry n ;;
      if r : bool then break entry
      else if entry =? NULL then break entry
      else ck_pr_fence F_load ;; n <- ld (next entry) ;; continue (entry, n)) (entry, n).

Definition ck_stack_trypop_upmc (target : Z) : prog (option Z) :=
  entry <- ck_pr_load (head target) ;;
  if entry =? NULL then Ret None
  else
    ck_pr_fence F_load ;;
    n <- ld (next entry) ;;
    r <- ck_pr_cas (head target) entry n ;;
    if r : bool then Ret (Some entry) else Ret None.

Definition ck_stack_batch_pop_upmc (target : Z) : prog Z :=
  entry <- ck_pr_fas (head target) NULL ;;
  ck_pr_fence F_load ;;
  Ret entry.

Definition ck_stack_push_mpmc (target entry : Z) : prog unit := ck_stack_push_upmc target entry.
Definition ck_stack_trypush_mpmc (target entry : Z) : prog bool := ck_stack_trypush_upmc target entry.

(** The loop state is [original.head], [original.generation] and [update.head];
    [update.generation] is [original.generation + 1]. *)
Definition ck_stack_pop_mpmc (target : Z) : prog Z :=
  g <- ck_pr_load (generation target) ;;
  ck_pr_fence F_load ;;
  h <- ck_pr_load (head target) ;;
  if h =? NULL then Ret NULL
  else
    ck_pr_fence F_load ;;
    n <- ld (next h) ;;
    Iter (fun '(h, g, n) =>
      letp (r, original) := ck_pr_cas_2_value target h g n (u64 (g + 1)) ;;
      if r : bool then break (fst original)
      else if fst original =? NULL then break NULL
      else
        ck_pr_fence F_load ;;
        n <- ld (next (fst original)) ;;
        continue (fst original, snd original, n)) (h, g, n).

Definition ck_stack_trypop_mpmc (target : Z) : prog (option Z) :=
  g <- ck_pr_load (generation target) ;;
  ck_pr_fence F_load ;;
  h <- ck_pr_load (head target) ;;
  if h =? NULL then Ret None
  else
    ck_pr_fence F_load ;;
    n <- ld (next h) ;;
    letp (r, original) := ck_pr_cas_2_value target h g n (u64 (g + 1)) ;;
    if r : bool then Ret (Some (fst original)) else Ret None.

Definition ck_stack_batch_pop_mpmc_wf (target : Z) : prog Z :=
  ck_pr_add u64 (generation target) 1 ;;
  ck_pr_fence F_atomic ;;
  entry <- ck_pr_fas (head target) NULL ;;
  ck_pr_fence F_load ;;
  Ret entry.

(** The variant for platforms with a double-width compare-and-swap. *)
Definition ck_stack_batch_pop_mpmc (target : Z) : prog Z :=
  g <- ck_pr_load (generation target) ;;
  ck_pr_fence F_load ;;
  h <- ck_pr_load (head target) ;;
  if h =? NULL then Ret NULL
  else
    h <- Iter (fun '(h, g) =>
      letp (r, original) := ck_pr_cas_2_value target h g NULL (u64 (g + 1)) ;;
      if r : bool then break (Some (fst original))
      else if fst original =? NULL then break None
      else continue (fst original, snd original)) (h, g) ;;
    match h with
    | Some h => ck_pr_fence F_load ;; Ret h
    | None => Ret NULL
    end.

Definition ck_stack_push_mpnc (target entry : Z) : prog unit :=
  st (next entry) NULL ;;
  ck_pr_fence F_store_atomic ;;
  stack <- ck_pr_fas (head target) entry ;;
  ck_pr_store (next entry) stack ;;
  ck_pr_fence F_store.

Definition ck_stack_push_spnc (target entry : Z) : prog unit :=
  h <- ld (head target) ;;
  st (next entry) h ;;
  st (head target) entry.

Definition ck_stack_pop_npsc (target : Z) : prog Z :=
  h <- ld (head target) ;;
  if h =? NULL then Ret NULL
  else
    n <- ld (head target) ;;
    m <- ld (next n) ;;
    st (head target) m ;;
    Ret n.

Definition ck_stack_batch_pop_npsc (target : Z) : prog Z :=
  n <- ld (head target) ;;
  st (head target) NULL ;;
  Ret n.

Definition ck_stack_init (stack : Z) : prog unit :=
  st (head stack) NULL ;; st (generation stack) NULL.

Definition CK_STACK_ISEMPTY (m : Z) : prog bool := h <- ld (head m) ;; Ret (h =? NULL).
Definition CK_STACK_FIRST (s : Z) : prog Z := ld (head s).
Definition CK_STACK_NEXT (m : Z) : prog Z := ld (next m).

(** The loops of [CK_STACK_FOREACH] and [CK_STACK_FOREACH_SAFE], from an entry on;
    [body] threads a state of the caller. *)
Definition foreach_from {S} (body : S -> Z -> prog S) (entry : Z) (s : S) : prog S :=
  Iter (fun '(entry, s) =>
    if entry =? NULL then break s
    else s <- body s entry ;; n <- CK_STACK_NEXT entry ;; continue (n, s)) (entry, s).

Definition CK_STACK_FOREACH {S} (stack : Z) (body : S -> Z -> prog S) (s : S) : prog S :=
  entry <- CK_STACK_FIRST stack ;; foreach_from body entry s.

Definition CK_STACK_FOREACH_SAFE {S} (stack : Z) (body : S -> Z -> prog S) (s : S) : prog S :=
  entry <- CK_STACK_FIRST stack ;;
  Iter (fun '(entry, s) =>
    if entry =? NULL then break s
    else t <- CK_STACK_NEXT entry ;; s <- body s entry ;; continue (t, s)) (entry, s).

(** * The abstract stack: the entries, top first *)

Inductive stack_event :=
| EPush (e : Z)
| EPop (e : Z)                  (* [NULL]: observes that the stack is empty *)
| EBatch (es : list Z).

Definition stack_trans (s : list Z) (ev : stack_event) (s' : list Z) : Prop :=
  match ev with
  | EPush e => s' = e :: s
  | EPop e => if e =? NULL then s = [] /\ s' = [] else s = e :: s'
  | EBatch es => s = es /\ s' = []
  end.

(** ** Operations

    [OpBatch] takes all entries and walks through them; [OpMove] pops an entry and
    pushes it back. *)

Inductive stack_op := OpPush (e : Z) | OpTryPush (e : Z) | OpPop | OpTryPop | OpBatch | OpMove.

Inductive stack_ret := SUnit | SBool (b : bool) | SEntry (e : Z) | STry (o : option Z) | SList (es : list Z).

Definition stack_events (op : stack_op) (r : stack_ret) (evs : list stack_event) : Prop :=
  match op, r with
  | OpPush e, SUnit => evs = [EPush e]
  | OpTryPush e, SBool b => evs = if b then [EPush e] else []
  | OpPop, SEntry e => evs = [EPop e]
  | OpTryPop, STry o => match o with
                        | Some e => e <> NULL /\ evs = [EPop e]
                        | None => evs = [EPop NULL] \/ evs = []
                        end
  | OpBatch, SList es => evs = [EBatch es]
  | OpMove, SEntry e => evs = if e =? NULL then [EPop NULL] else [EPop e; EPush e]
  | _, _ => False
  end.

Definition collect (entry : Z) : prog (list Z) := foreach_from (fun es e => Ret (es ++ [e])) entry [].

(** [up]: unique producers, the [_upmc] functions; otherwise the [_mpmc] ones. *)
Definition stack_code (up : bool) (stack : Z) (op : stack_op) : prog stack_ret :=
  match op with
  | OpPush e => (if up then ck_stack_push_upmc else ck_stack_push_mpmc) stack e ;; Ret SUnit
  | OpTryPush e => b <- (if up then ck_stack_trypush_upmc else ck_stack_trypush_mpmc) stack e ;; Ret (SBool b)
  | OpPop => e <- (if up then ck_stack_pop_upmc else ck_stack_pop_mpmc) stack ;; Ret (SEntry e)
  | OpTryPop => o <- (if up then ck_stack_trypop_upmc else ck_stack_trypop_mpmc) stack ;; Ret (STry o)
  | OpBatch =>
      e <- (if up then ck_stack_batch_pop_upmc else ck_stack_batch_pop_mpmc) stack ;;
      es <- collect e ;; Ret (SList es)
  | OpMove =>
      e <- ck_stack_pop_mpmc stack ;;
      if e =? NULL then Ret (SEntry NULL) else ck_stack_push_mpmc stack e ;; Ret (SEntry e)
  end.

Definition stack_object (up : bool) (stack : Z) : object := {|
  ost := list Z; oop := stack_op; ores := stack_ret; oev := stack_event;
  oinit := []; otrans := stack_trans; oevents := stack_events; ocode := stack_code up stack;
|}.

(** ** Scripts *)

Definition pushed (op : stack_op) : list Z :=
  match op with OpPush e | OpTryPush e => [e] | _ => [] end.
Definition removes (op : stack_op) : bool :=
  match op with OpPop | OpTryPop | OpBatch | OpMove => true | _ => false end.
Definition count_removals (ops : list stack_op) : nat := length (filter (fun op => removes op = true) ops).

Definition entries_of (scripts : list (list stack_op)) : list Z := scripts ≫= (fun ops => ops ≫= pushed).

(** The threads own the entries they push at first, each by one thread.  Unique
    producers do not push what was popped; fewer than 2^64 removals happen in the
    lifetime of a stack with a generation counter. *)
Definition stack_scripts_ok (up : bool) (scripts : list (list stack_op)) : Prop :=
  NoDup (entries_of scripts) /\ NULL ∉ entries_of scripts /\
  (up = true -> Forall (fun ops => OpMove ∉ ops) scripts) /\
  (up = false -> Z.of_nat (sum_list (count_removals <$> scripts)) < 2 ^ 64).

(** The memory of an empty stack and of entries with any contents. *)
Definition stack_memory (stack : Z) (entries : gmap Z Z) : mem :=
  <[head stack := NULL]> (<[generation stack := NULL]> entries).

Definition stack_layout (stack : Z) (scripts : list (list stack_op)) (entries : gmap Z Z) : Prop :=
  dom entries = list_to_set (entries_of scripts) /\
  entries !! head stack = None /\ entries !! generation stack = None.
