(* ===== verification/StackProof.v ===== *)
(** The stack: its invariant and the specification of every concurrent operation. *)

From iris.algebra Require Import auth numbers.
From iris.base_logic.lib Require Export ghost_map.
From S2P Require Export Stack.
Set Warnings "-rewrite-rw".

(** * Chains of entries *)

Definition top (s : list Z) : Z := match s with [] => NULL | e :: _ => e end.

(** [K] gives the entries of [s] their successors. *)
Fixpoint chain (K : gmap Z Z) (s : list Z) : Prop :=
  match s with
  | [] => True
  | e :: s => K !! e = Some (top s) /\ chain K s
  end.

Lemma chain_elem K s e : chain K s -> e ∈ s -> is_Some (K !! e).
Proof.
  induction s as [|x s IH]; intros Hc He; [by apply not_elem_of_nil in He|].
  destruct Hc as [Hx Hc]. apply elem_of_cons in He as [->|He]; [by eexists|by apply IH].
Qed.

Lemma chain_insert K s e v : chain K s -> e ∉ s -> chain (<[e := v]> K) s.
Proof.
  induction s as [|x s IH]; intros Hc He; [done|]. destruct Hc as [Hx Hc].
  apply not_elem_of_cons in He as [Hne He]. split; [by rewrite lookup_insert_ne|by apply IH].
Qed.

Lemma chain_delete K s e : chain K s -> e ∉ s -> chain (delete e K) s.
Proof.
  induction s as [|x s IH]; intros Hc He; [done|]. destruct Hc as [Hx Hc].
  apply not_elem_of_cons in He as [Hne He]. split; [by rewrite lookup_delete_ne|by apply IH].
Qed.

(** * Ghost state

    [G] is the number of removals so far (0 with unique producers).  [K] holds the
    entries of the current generation: those in the stack, or, with unique
    producers, all entries ever pushed.  An entry of [K] keeps its successor for
    as long as the generation lasts; [stk_hist] remembers it under [(G, e)].  The
    owner of an entry may change its [next]; all entries can be read at all times. *)

Class stackGS (Σ : gFunctors) := StackGS {
  stack_absG :: ghost_varG Σ (list Z);
  stack_nextG :: ghost_mapG Σ Z Z;
  stack_histG :: ghost_mapG Σ (nat * Z) Z;
  stack_monoG :: mono_natG Σ;
  stack_creditG :: inG Σ (authR natUR);
}.

Record stack_name := StackName {
  sn_next : gname; sn_hist : gname; sn_gen : gname; sn_credit : gname;
  sn_entries : gset Z; sn_total : nat }.

Definition stackN : namespace := objN.

(** The state of the stack, opened around one operation and closed after it. *)
Ltac open_stack :=
  iInv stackN as ">Hi"; iDestruct "Hi" as (s G k K)
    "(Habs & Hh & Hg & HG & Hcr & Hent & Hnotes & HK & %Hsh)".
Ltac close_stack s G k K := iNext; iExists s, G, k, K; iFrame; by iPureIntro.

Section stack.
Context `{!ckGS Σ, !stackGS Σ}.
Context (up : bool) (stk : Z).
Implicit Types (γ : stack_name) (s : list Z) (K M : gmap Z Z) (e h n : Z) (G k : nat).

Definition owned γ e (v : Z) : iProp Σ := e ↪[sn_next γ] v.
Definition kept γ e (v : Z) : iProp Σ := (if up then e ↪[sn_next γ]□ v else owned γ e v)%I.
Definition credits γ k : iProp Σ := own (sn_credit γ) (◯ k).
Definition noted γ G e v : iProp Σ := (G, e) ↪[sn_hist γ]□ v.
Definition since γ G : iProp Σ := mono_nat_lb_own (sn_gen γ) G.

(** The notes of the current generation are about [K], and there are none of later ones. *)
Definition notes_ok G K (H : gmap (nat * Z) Z) : Prop :=
  (∀ e v, H !! (G, e) = Some v -> K !! e = Some v) /\ ∀ G' e, (G < G')%nat -> H !! (G', e) = None.

Record shape G k K s γ : Prop := {
  sh_chain : chain K s;
  sh_nodup : NoDup s;
  sh_dom : up = false -> dom K = list_to_set s;
  sh_in : dom K ⊆ sn_entries γ;
  sh_up : up = true -> G = 0%nat;
  sh_total : up = false -> (G + k <= sn_total γ)%nat;
}.
Arguments sh_chain {G k K s γ}.
Arguments sh_nodup {G k K s γ}.
Arguments sh_dom {G k K s γ}.
Arguments sh_in {G k K s γ}.
Arguments sh_up {G k K s γ}.
Arguments sh_total {G k K s γ}.

Definition notes γ G K : iProp Σ :=
  (∃ H, ghost_map_auth (sn_hist γ) 1 H ∗ ⌜notes_ok G K H⌝) ∗ [∗ map] e ↦ v ∈ K, noted γ G e v.

Definition entries γ : iProp Σ :=
  ∃ M, ghost_map_auth (sn_next γ) 1 M ∗ ([∗ map] e ↦ v ∈ M, next e ↦ v) ∗ ⌜dom M = sn_entries γ⌝.

Definition stack_state γ (γo : gname) : iProp Σ :=
  ∃ s G k K,
    ghost_var γo (1/2) s ∗ head stk ↦ top s ∗ generation stk ↦ u64 (Z.of_nat G) ∗
    mono_nat_auth_own (sn_gen γ) 1 G ∗ own (sn_credit γ) (● k) ∗
    entries γ ∗ notes γ G K ∗ ([∗ map] e ↦ v ∈ K, kept γ e v) ∗ ⌜shape G k K s γ⌝.

#[global] Instance kept_timeless γ e v : Timeless (kept γ e v).
Proof. rewrite /kept /owned. destruct up; apply _. Qed.
#[global] Instance stack_state_timeless γ γo : Timeless (stack_state γ γo).
Proof. rewrite /stack_state /entries /notes /noted. apply _. Qed.

Definition stack_inv γ γo : iProp Σ :=
  ⌜NULL ∉ sn_entries γ /\ (up = false -> Z.of_nat (sn_total γ) < 2 ^ 64)⌝ ∗ inv stackN (stack_state γ γo).

(** What a thread knows of an entry it saw at the top in generation [G], and of
    the successor [n] it read from it later. *)
Definition top_seen γ G h : iProp Σ :=
  ∃ v, since γ G ∗ noted γ G h v ∗ ⌜h <> NULL /\ h ∈ sn_entries γ /\ (up = true -> G = 0%nat)⌝.
Definition next_seen γ G h n : iProp Σ :=
  ∃ v G', since γ G' ∗ noted γ G h v ∗
    ⌜(G <= G')%nat /\ (G' = G -> n = v) /\ h <> NULL /\ h ∈ sn_entries γ /\ (up = true -> G = 0%nat)⌝.

(** ** Notes *)

Lemma notes_lookup γ G K e v : notes γ G K -∗ noted γ G e v -∗ ⌜K !! e = Some v⌝.
Proof.
  iIntros "[(%H & HH & %Hok) _] He". iDestruct (ghost_map_lookup with "HH He") as %Hl.
  iPureIntro. by apply Hok.
Qed.

Lemma notes_get γ G K e v : K !! e = Some v -> notes γ G K -∗ noted γ G e v.
Proof. iIntros (He) "[_ H]". by iApply (big_sepM_lookup with "H"). Qed.

#[global] Instance noted_persistent γ G e v : Persistent (noted γ G e v).
Proof. apply _. Qed.

(** A push in the current generation. *)
Lemma notes_push γ G K e v : K !! e = None -> notes γ G K ==∗ notes γ G (<[e := v]> K).
Proof.
  iIntros (He) "[(%H & HH & %Hok) Hn]". destruct Hok as [H1 H2].
  iMod (ghost_map_insert_persist (G, e) v with "HH") as "[HH #Hnew]".
  { destruct (H !! (G, e)) eqn:E; [|done]. apply H1 in E. congruence. }
  iModIntro. iSplitL "HH".
  - iExists _. iFrame. iPureIntro. split.
    + intros e' v'. rewrite lookup_insert. case_decide as Hd.
      * intros [= <-]. simplify_eq. apply lookup_insert_eq.
      * intros Hl. rewrite lookup_insert_ne; [by apply H1|congruence].
    + intros G' e' Hlt. rewrite lookup_insert_ne; [by apply H2|]. intros [= ? ?]. lia.
  - rewrite big_sepM_insert //. by iFrame "#∗".
Qed.

(** A removal: a new generation, with the entries that are left. *)
Lemma notes_remove γ G K K' : notes γ G K ==∗ notes γ (S G) K'.
Proof.
  iIntros "[(%H & HH & %Hok) _]". destruct Hok as [H1 H2].
  iMod (ghost_map_insert_persist_big (kmap (pair (S G)) K') with "HH") as "[HH Hn]".
  { apply map_disjoint_spec. intros [G' e'] v w (e & [= -> ->] & _)%lookup_kmap_Some Hw; [|apply _].
    rewrite H2 in Hw; [done|lia]. }
  iModIntro. iSplitL "HH".
  - iExists _. iFrame. iPureIntro. split.
    + intros e v [Hl|[_ Hl]]%lookup_union_Some_raw.
      * apply lookup_kmap_Some in Hl as (e' & [= <-] & Hl); [done|apply _].
      * rewrite H2 in Hl; [done|lia].
    + intros G' e Hlt. apply lookup_union_None. split; [|apply H2; lia].
      apply lookup_kmap_None; [apply _|]. intros i [= -> ->]. lia.
  - rewrite big_sepM_kmap. iFrame.
Qed.

(** ** Entries *)

(** Any entry can be reached; the owner may write it. *)
Lemma entries_acc γ e :
  e ∈ sn_entries γ -> entries γ -∗
  ∃ M v, ⌜M !! e = Some v⌝ ∗ ghost_map_auth (sn_next γ) 1 M ∗ next e ↦ v ∗
    ∀ w, ghost_map_auth (sn_next γ) 1 (<[e := w]> M) -∗ next e ↦ w -∗ entries γ.
Proof.
  iIntros (He) "(%M & HM & Hm & %Hdom)". rewrite -Hdom elem_of_dom in He. destruct He as [v Hv].
  iExists M, v. iDestruct (big_sepM_insert_acc with "Hm") as "[$ Hm]"; [done|]. iFrame "HM". iSplit; [done|].
  iIntros (w) "HM He". iExists _. iFrame "HM". iDestruct ("Hm" with "He") as "$". iPureIntro.
  rewrite dom_insert_L. apply elem_of_dom_2 in Hv. set_solver.
Qed.

(** What is kept of an entry excludes its owner. *)
Lemma kept_owned γ K e w : ([∗ map] e ↦ v ∈ K, kept γ e v) -∗ owned γ e w -∗ ⌜K !! e = None⌝.
Proof.
  iIntros "HK He". destruct (K !! e) as [v|] eqn:Hv; [|done].
  iDestruct (big_sepM_lookup with "HK") as "H"; [done|]. rewrite /kept /owned.
  destruct up; iDestruct (ghost_map_elem_valid_2 e with "He H") as %[Hval _].
  - by apply dfrac_valid_own_l in Hval.
  - by apply dfrac_valid_own_r in Hval.
Qed.

Lemma kept_lookup γ K M e v :
  K !! e = Some v -> ([∗ map] e ↦ v ∈ K, kept γ e v) -∗ ghost_map_auth (sn_next γ) 1 M -∗ ⌜M !! e = Some v⌝.
Proof.
  iIntros (Hv) "HK HM". iDestruct (big_sepM_lookup with "HK") as "H"; [done|]. rewrite /kept /owned.
  destruct up; iApply (ghost_map_lookup with "HM H").
Qed.

Lemma owned_keep γ e v : owned γ e v ==∗ kept γ e v.
Proof. iIntros "H". rewrite /kept. destruct up; [by iApply (ghost_map_elem_persist e)|done]. Qed.

(** ** Shapes *)

Lemma shape_push γ G k K s e :
  shape G k K s γ -> K !! e = None -> e ∈ sn_entries γ -> shape G k (<[e := top s]> K) (e :: s) γ.
Proof.
  intros [Hc Hnd Hdom Hin Hup Htot] Hnew He.
  assert (e ∉ s) as Hes by (intros Hes; destruct (chain_elem _ _ _ Hc Hes); congruence).
  split; try done.
  - split; [apply lookup_insert_eq|by apply chain_insert].
  - by constructor.
  - intros H. rewrite dom_insert_L Hdom //.
  - rewrite dom_insert_L. set_solver.
Qed.

Lemma shape_pop_up γ G k K h s : up = true -> shape G k K (h :: s) γ -> shape G k K s γ.
Proof.
  intros Hmode [Hc Hnd Hdom Hin Hup Htot]. apply NoDup_cons in Hnd as [_ Hnd].
  split; try done; [by destruct Hc|congruence].
Qed.

Lemma shape_pop γ G k K h s : up = false -> shape G (S k) K (h :: s) γ -> shape (S G) k (delete h K) s γ.
Proof.
  intros Hmode [Hc Hnd Hdom Hin Hup Htot]. apply NoDup_cons in Hnd as [Hh Hnd].
  split; try done.
  - destruct Hc. by apply chain_delete.
  - intros _. rewrite dom_delete_L Hdom //. set_solver.
  - rewrite dom_delete_L. set_solver.
  - congruence.
  - intros _. specialize (Htot Hmode). lia.
Qed.

Lemma shape_batch_up γ G k K s : up = true -> shape G k K s γ -> shape G k K [] γ.
Proof. intros Hmode [Hc Hnd Hdom Hin Hup Htot]. split; try done; [constructor|congruence]. Qed.

Lemma shape_batch γ G k K s : up = false -> shape G (S k) K s γ -> shape (S G) k ∅ [] γ.
Proof.
  intros Hmode [Hc Hnd Hdom Hin Hup Htot]. specialize (Htot Hmode).
  split; first [constructor|congruence|lia|set_solver].
Qed.

Lemma credits_use γ k j : own (sn_credit γ) (● k) -∗ credits γ (S j) ==∗
  ∃ k', ⌜k = S k'⌝ ∗ own (sn_credit γ) (● k') ∗ credits γ j.
Proof.
  iIntros "Ha Hf". iDestruct (own_valid_2 with "Ha Hf") as %[Hle%nat_included _]%auth_both_valid_discrete.
  destruct k as [|k]; [lia|]. iMod (own_update_2 with "Ha Hf") as "[Ha Hf]".
  { apply (auth_update _ _ k j), nat_local_update. lia. }
  iModIntro. iExists k. by iFrame.
Qed.

(** What is left of the entries of a stack that was taken whole. *)
Fixpoint chain_kept γ s : iProp Σ :=
  match s with
  | [] => True
  | e :: s => kept γ e (top s) ∗ ⌜e <> NULL /\ e ∈ sn_entries γ⌝ ∗ chain_kept γ s
  end%I.

Lemma chain_kept_all γ K s :
  chain K s -> NoDup s -> dom K ⊆ sn_entries γ -> NULL ∉ sn_entries γ ->
  ([∗ map] e ↦ v ∈ K, kept γ e v) -∗ chain_kept γ s ∗ (⌜up = true⌝ -∗ [∗ map] e ↦ v ∈ K, kept γ e v).
Proof.
  iIntros (Hc Hnd Hin Hnull) "HK".
  destruct up eqn:Hmode.
  - rewrite /kept Hmode. iDestruct "HK" as "#HK". iSplit; [|by iIntros "_"].
    iInduction s as [|e s] "IH" forall (Hc Hnd); [done|]. destruct Hc as [He Hc].
    apply NoDup_cons in Hnd as [_ Hnd]. cbn [chain_kept]. rewrite /kept Hmode.
    iDestruct (big_sepM_lookup with "HK") as "$"; [done|]. iSplit; [|by iApply "IH"].
    iPureIntro. apply elem_of_dom_2 in He. split; [|set_solver]. intros ->. set_solver.
  - iSplitL; [|by iIntros ([=])]. iInduction s as [|e s] "IH" forall (K Hc Hnd Hin); [done|].
    destruct Hc as [He Hc]. apply NoDup_cons in Hnd as [Hes Hnd]. cbn [chain_kept].
    rewrite (big_sepM_delete _ K e) //. iDestruct "HK" as "[$ HK]". iSplitR.
    + iPureIntro. apply elem_of_dom_2 in He. split; [|set_solver]. intros ->. set_solver.
    + iApply ("IH" $! (delete e K) with "[%] [%] [%] HK"); [by apply chain_delete|done|].
      rewrite dom_delete_L. set_solver.
Qed.

(** ** Atomic steps *)

(** The event of an operation that found the stack empty, if it makes one. *)
Definition empty_event (P : list stack_event -> iProp Σ) (ev : option stack_event) : iProp Σ :=
  match ev with Some ev => P [ev] | None => P [] end.
Definition empty_ok (ev : option stack_event) : Prop :=
  match ev with Some ev => stack_trans [] ev [] | None => True end.

Abbreviation shift γo P := (lin_shift (O:=stack_object up stk) γo P).

Lemma empty_shift γo P ev :
  empty_ok ev -> shift γo P -∗ ghost_var γo (1/2) [] -∗ P [] ={⊤ ∖ ↑objN}=∗
  ghost_var γo (1/2) [] ∗ empty_event P ev.
Proof.
  iIntros (Hev) "#Hshift Ho HP". destruct ev as [ev|]; [|by iFrame].
  by iApply ("Hshift" $! [] ev with "[%] Ho HP").
Qed.

(** The head was read: what the thread knows of the entry at the top. *)
Lemma top_noted γ G k K s :
  shape G k K s γ -> s <> [] -> NULL ∉ sn_entries γ ->
  mono_nat_auth_own (sn_gen γ) 1 G -∗ notes γ G K -∗ top_seen γ G (top s).
Proof.
  iIntros (Hsh Hs Hnull) "HG Hn". destruct s as [|e s]; [done|]. destruct (sh_chain Hsh) as [He _].
  iExists (top s). iDestruct (mono_nat_lb_own_get with "HG") as "$".
  iDestruct (notes_get with "Hn") as "$"; [done|]. iPureIntro.
  apply elem_of_dom_2, (sh_in Hsh) in He. simpl. split_and!; [by intros ->|done|apply (sh_up Hsh)].
Qed.

Lemma top_null γ G k K s :
  shape G k K s γ -> NULL ∉ sn_entries γ -> top s = NULL -> s = [].
Proof.
  intros Hsh Hnull Ht. destruct s as [|e s]; [done|]. simpl in Ht. subst.
  destruct (sh_chain Hsh) as [He _]. by apply elem_of_dom_2, (sh_in Hsh) in He.
Qed.

Lemma stack_head γ γo : {{{ stack_inv γ γo }}} ck_pr_load (head stk) {{{ h, RET h; True }}}.
Proof.
  iIntros (Φ) "[_ #Hinv] HΦ". open_stack. wp_load "Hh". iModIntro. iSplitR "HΦ"; [close_stack s G k K|by iApply "HΦ"].
Qed.

Lemma stack_generation γ γo :
  {{{ stack_inv γ γo }}} ck_pr_load (generation stk) {{{ G, RET u64 (Z.of_nat G); since γ G }}}.
Proof.
  iIntros (Φ) "[_ #Hinv] HΦ". open_stack. iDestruct (mono_nat_lb_own_get with "HG") as "#HGlb".
  wp_load "Hg". iModIntro. iSplitR "HΦ"; [close_stack s G k K|by iApply "HΦ"].
Qed.

Lemma stack_look γ γo P ev G0 :
  empty_ok ev ->
  stack_inv γ γo -∗ shift γo P -∗ P [] -∗ since γ G0 -∗
  WP ck_pr_load (head stk) {{ h,
    if h =? NULL then empty_event P ev else P [] ∗ ∃ G, ⌜(G0 <= G)%nat⌝ ∗ top_seen γ G h }}.
Proof.
  iIntros (Hev) "[[%Hnull _] #Hinv] #Hshift HP #HG0". open_stack.
  iDestruct (mono_nat_lb_own_valid with "HG HG0") as %[_ Hle].
  destruct (Z.eqb_spec (top s) NULL) as [Ht|Ht].
  - pose proof (top_null _ _ _ _ _ Hsh Hnull Ht) as ->.
    iMod (empty_shift with "Hshift Habs HP") as "[Habs HP]"; [done|].
    wp_load "Hh". iModIntro. iSplitR "HP"; [close_stack ([] : list Z) G k K|by rewrite Z.eqb_refl].
  - iDestruct (top_noted with "HG Hnotes") as "#Htop"; [done|by intros ->|done|].
    wp_load "Hh". iModIntro. iSplitR "HP"; [close_stack s G k K|].
    rewrite (proj2 (Z.eqb_neq _ _) Ht). iFrame. iExists G. by iFrame "#".
Qed.

Lemma stack_read_next γ γo G h :
  {{{ stack_inv γ γo ∗ top_seen γ G h }}} ld (next h) {{{ n, RET n; next_seen γ G h n }}}.
Proof.
  iIntros (Φ) "[[[%Hnull _] #Hinv] (%v & #HG0 & #Hv & %Hh)] HΦ". destruct Hh as (Hne & Hin & Hup).
  iInv stackN as ">Hi"; iDestruct "Hi" as (s G' k K) "(Habs & Hh & Hg & HG & Hcr & Hent & Hnotes & HK & %Hsh)".
  iDestruct (mono_nat_lb_own_valid with "HG HG0") as %[_ Hle].
  iDestruct (mono_nat_lb_own_get with "HG") as "#HG'".
  iDestruct (entries_acc with "Hent") as (M w) "(%Hw & HM & He & Hent)"; [done|].
  iAssert ⌜G' = G -> w = v⌝%I as %Hwv.
  { iIntros (->). iDestruct (notes_lookup with "Hnotes Hv") as %HK.
    iDestruct (kept_lookup with "HK HM") as %HM; [done|]. iPureIntro. congruence. }
  wp_load "He". iDestruct ("Hent" $! w with "[HM] He") as "Hent"; [by rewrite insert_id|].
  iModIntro. iSplitR "HΦ"; [close_stack s G' k K|]. iApply "HΦ". iExists v, G'. by iFrame "#".
Qed.

Lemma stack_write_next γ γo e v w :
  {{{ stack_inv γ γo ∗ ⌜e ∈ sn_entries γ⌝ ∗ owned γ e w }}} st (next e) v {{{ RET tt; owned γ e v }}}.
Proof.
  iIntros (Φ) "([_ #Hinv] & %Hin & Ho) HΦ". open_stack.
  iDestruct (entries_acc with "Hent") as (M x) "(%Hx & HM & He & Hent)"; [done|].
  iMod (ghost_map_update v with "HM Ho") as "[HM Ho]".
  wp_store "He". iDestruct ("Hent" with "HM He") as "Hent".
  iModIntro. iSplitR "HΦ Ho"; [close_stack s G k K|by iApply "HΦ"].
Qed.

(** The compare-and-swap of a push. *)
Lemma stack_push_cas {A} γ γo P evs e v (g : Z * Z -> A) :
  stack_inv γ γo -∗ shift γo P -∗ P evs -∗ ⌜e ∈ sn_entries γ⌝ -∗ owned γ e v -∗
  WP Act (OCas (head stk) v e) g {{ r, ∃ x, ⌜r = g (x, 0)⌝ ∗
    if x =? v then P (evs ++ [EPush e]) else P evs ∗ owned γ e v }}.
Proof.
  iIntros "[_ #Hinv] #Hshift HP %Hin Ho". open_stack.
  destruct (Z.eqb_spec (top s) v) as [<-|Hne].
  - iMod ("Hshift" $! evs (EPush e) s (e :: s) with "[%] Habs HP") as "[Habs HP]"; [done|].
    iDestruct (kept_owned with "HK Ho") as %Hnew. iMod (owned_keep with "Ho") as "Ho".
    iMod (notes_push γ G K e (top s) with "Hnotes") as "Hnotes"; [done|].
    wp_cas "Hh". rewrite Z.eqb_refl. iModIntro. iSplitR "HP".
    { iNext. iExists (e :: s), G, k, (<[e := top s]> K). rewrite big_sepM_insert //. iFrame.
      iPureIntro. by apply shape_push. }
    iExists (top s). rewrite Z.eqb_refl. by iFrame.
  - wp_cas "Hh". rewrite (proj2 (Z.eqb_neq _ _) Hne). iModIntro. iSplitR "HP Ho"; [close_stack s G k K|].
    iExists (top s). rewrite (proj2 (Z.eqb_neq _ _) Hne). by iFrame.
Qed.

(** What a failed removal found at the top: nothing, which may be its answer, or
    another entry. *)
Definition failed_at γ (P : list stack_event -> iProp Σ) ev h : iProp Σ :=
  (if h =? NULL then empty_event P ev else P [] ∗ ∃ G, top_seen γ G h)%I.

Lemma failed_step γ γo P ev G k K s :
  empty_ok ev -> shape G k K s γ -> NULL ∉ sn_entries γ ->
  shift γo P -∗ ghost_var γo (1/2) s -∗ P [] -∗ mono_nat_auth_own (sn_gen γ) 1 G -∗ notes γ G K ={⊤ ∖ ↑objN}=∗
  ghost_var γo (1/2) s ∗ mono_nat_auth_own (sn_gen γ) 1 G ∗ notes γ G K ∗
  if top s =? NULL then empty_event P ev else P [] ∗ top_seen γ G (top s).
Proof.
  iIntros (Hev Hsh Hnull) "#Hshift Ho HP HG Hn". destruct (Z.eqb_spec (top s) NULL) as [Ht|Ht].
  - pose proof (top_null _ _ _ _ _ Hsh Hnull Ht) as ->. iFrame "HG Hn". by iApply (empty_shift with "Hshift Ho HP").
  - iDestruct (top_noted with "HG Hn") as "#Htop"; [done|by intros ->|done|]. iModIntro. iFrame. by iFrame "#".
Qed.

(** The compare-and-swap of a pop, with unique producers. *)
Lemma stack_pop_cas {A} γ γo P ev G0 h n (g : Z * Z -> A) :
  up = true -> empty_ok ev ->
  stack_inv γ γo -∗ shift γo P -∗ P [] -∗ next_seen γ G0 h n -∗
  WP Act (OCas (head stk) h n) g {{ r, ∃ x, ⌜r = g (x, 0)⌝ ∗
    if x =? h then P [EPop h] else failed_at γ P ev x }}.
Proof.
  iIntros (Hup Hev) "[[%Hnull _] #Hinv] #Hshift HP (%v & %G' & #HG' & #Hv & %Hseen)".
  destruct Hseen as (HG & Hnv & Hh & Hhin & HG0). open_stack.
  destruct (Z.eqb_spec (top s) h) as [Ht|Hne].
  - destruct s as [|h' s]; [simpl in Ht; congruence|]. simpl in Ht. subst h'.
    iDestruct (mono_nat_lb_own_valid with "HG HG'") as %[_ Hle].
    assert (G = G0) as -> by (rewrite (HG0 Hup) (sh_up Hsh Hup); lia).
    iDestruct (notes_lookup with "Hnotes Hv") as %HK. destruct (sh_chain Hsh) as [HK' _].
    assert (n = top s) as -> by (rewrite Hnv; [congruence|lia]).
    iMod ("Hshift" $! [] (EPop h) (h :: s) s with "[%] Habs HP") as "[Habs HP]".
    { simpl. by rewrite (proj2 (Z.eqb_neq _ _) Hh). }
    wp_cas "Hh". rewrite Z.eqb_refl. iModIntro. iSplitR "HP".
    { iNext. iExists s, G0, k, K. iFrame. iPureIntro. by apply (shape_pop_up _ _ _ _ h). }
    iExists h. rewrite Z.eqb_refl. by iFrame.
  - iMod (failed_step with "Hshift Habs HP HG Hnotes") as "(Habs & HG & Hnotes & HP)"; [done..|].
    wp_cas "Hh". rewrite (proj2 (Z.eqb_neq _ _) Hne). iModIntro. iSplitR "HP"; [close_stack s G k K|].
    iExists (top s). rewrite (proj2 (Z.eqb_neq _ _) Hne) /failed_at. iSplit; [done|].
    destruct (top s =? NULL); [done|]. iDestruct "HP" as "[$ H]". by iExists G.
Qed.

Lemma shift_u64 (G : nat) : u64 (u64 (Z.of_nat G) + 1) = u64 (Z.of_nat (S G)).
Proof. rewrite Nat2Z.inj_succ -Z.add_1_r. apply Zplus_mod_idemp_l. Qed.

(** Generations that agree modulo 2^64 are equal: there are not so many removals. *)
Lemma same_generation γ G k K s G0 :
  shape G k K s γ -> up = false -> Z.of_nat (sn_total γ) < 2 ^ 64 -> (G0 <= G)%nat ->
  u64 (Z.of_nat G) = u64 (Z.of_nat G0) -> G = G0.
Proof.
  intros Hsh Hup Htot Hle. pose proof (sh_total Hsh Hup). rewrite /u64.
  change (2 ^ 64) with 18446744073709551616 in Htot. rewrite !Z.mod_small; lia.
Qed.

(** The double-width compare-and-swap of a pop; success gives the thread the entry. *)
Lemma stack_pop_cas2 {A} γ γo P ev G0 G1 h n j (g : Z * Z -> A) :
  up = false -> empty_ok ev -> (G0 <= G1)%nat ->
  stack_inv γ γo -∗ shift γo P -∗ P [] -∗ since γ G0 -∗ next_seen γ G1 h n -∗ credits γ (S j) -∗
  WP Act (OCas2 stk h (u64 (Z.of_nat G0)) n (u64 (u64 (Z.of_nat G0) + 1))) g {{ r,
    ∃ x G, ⌜r = g (x, u64 (Z.of_nat G))⌝ ∗
    if (x =? h) && (u64 (Z.of_nat G) =? u64 (Z.of_nat G0)) then P [EPop h] ∗ owned γ h n ∗ credits γ j
    else credits γ (S j) ∗ since γ G ∗ if x =? NULL then empty_event P ev else P [] ∗ top_seen γ G x }}.
Proof.
  iIntros (Hup Hev HG01) "[[%Hnull %Htot] #Hinv] #Hshift HP #HG0 (%v & %G' & #HG' & #Hv & %Hseen) Hc".
  destruct Hseen as (HG & Hnv & Hh & Hhin & _). specialize (Htot Hup). open_stack.
  iDestruct (mono_nat_lb_own_valid with "HG HG'") as %[_ Hle].
  change (generation stk) with (stk + 1). change (head stk) with stk.
  destruct ((top s =? h) && (u64 (Z.of_nat G) =? u64 (Z.of_nat G0))) eqn:Hcas.
  - apply andb_true_iff in Hcas as [Ht%Z.eqb_eq HGG%Z.eqb_eq].
    destruct s as [|h' s]; [simpl in Ht; congruence|]. simpl in Ht. subst h'.
    apply (same_generation γ G k K (h :: s) G0) in HGG as ->; [|done..|lia].
    assert (G1 = G0) as -> by lia. assert (G' = G0) as -> by lia.
    iDestruct (notes_lookup with "Hnotes Hv") as %HK. destruct (sh_chain Hsh) as [HK' _].
    assert (n = top s) as -> by (rewrite Hnv; [congruence|done]).
    iMod ("Hshift" $! [] (EPop h) (h :: s) s with "[%] Habs HP") as "[Habs HP]".
    { simpl. by rewrite (proj2 (Z.eqb_neq _ _) Hh). }
    iMod (credits_use with "Hcr Hc") as (k') "(-> & Hcr & Hc)".
    iMod (mono_nat_own_update (S G0) with "HG") as "[HG _]"; [lia|].
    iMod (notes_remove γ G0 K (delete h K) with "Hnotes") as "Hnotes".
    rewrite (big_sepM_delete _ K h) //. iDestruct "HK" as "[Hk HK]".
    wp_pures. iApply (wp_cas2_gen with "[$Hh $Hg]"). iIntros "!> [Hh Hg]". simpl.
    rewrite !Z.eqb_refl /= shift_u64. iModIntro. iSplitR "HP Hk Hc".
    { iNext. iExists s, (S G0), k', (delete h K). iFrame. iPureIntro. by apply shape_pop. }
    iExists h, G0. rewrite !Z.eqb_refl /=. rewrite /kept Hup HK in HK' |- *. simplify_eq. by iFrame.
  - iMod (failed_step with "Hshift Habs HP HG Hnotes") as "(Habs & HG & Hnotes & HP)"; [done..|].
    iDestruct (mono_nat_lb_own_get with "HG") as "#HGlb".
    wp_pures. iApply (wp_cas2_gen with "[$Hh $Hg]"). iIntros "!> [Hh Hg]". rewrite Hcas.
    iModIntro. iSplitR "HP Hc".
    { iNext. iExists s, G, k, K. iFrame. by iPureIntro. }
    iExists (top s), G. rewrite Hcas. by iFrame "#∗".
Qed.
End stack.
