(* ===== verification/StackOps.v ===== *)
(** The stack: the specification of each operation, from its atomic steps. *)

From S2P Require Export StackProof.
Set Warnings "-rewrite-rw".

Section ops.
Context `{!ckGS Σ, !stackGS Σ}.
Context (up : bool) (stk : Z).
Implicit Types (γ : stack_name) (s : list Z) (e h n : Z) (G k j : nat).

Abbreviation shift γo P := (lin_shift (O:=stack_object up stk) γo P).

(** ** Taking all entries *)

Lemma stack_batch_fas γ γo P :
  up = true ->
  stack_inv up stk γ γo -∗ shift γo P -∗ P [] -∗
  WP ck_pr_fas (head stk) NULL {{ h, ∃ s, ⌜h = top s⌝ ∗ P [EBatch s] ∗ chain_kept up γ s }}.
Proof.
  iIntros (Hup) "[[%Hnull _] #Hinv] #Hshift HP". open_stack.
  iMod ("Hshift" $! [] (EBatch s) s [] with "[%] Habs HP") as "[Habs HP]"; [done|].
  iDestruct (chain_kept_all with "HK") as "[Hs HK]"; [apply Hsh..|done|].
  iDestruct ("HK" with "[//]") as "HK".
  wp_rmw "Hh". iModIntro. iSplitR "HP Hs".
  { iNext. iExists [], G, k, K. iFrame. iPureIntro. by eapply shape_batch_up. }
  iExists s. by iFrame.
Qed.

Lemma stack_batch_cas2 {A} γ γo P G0 h j (g : Z * Z -> A) :
  up = false ->
  stack_inv up stk γ γo -∗ shift γo P -∗ P [] -∗ credits γ (S j) -∗
  WP Act (OCas2 stk h (u64 (Z.of_nat G0)) NULL (u64 (u64 (Z.of_nat G0) + 1))) g {{ r,
    ∃ x G, ⌜r = g (x, u64 (Z.of_nat G))⌝ ∗
    if (x =? h) && (u64 (Z.of_nat G) =? u64 (Z.of_nat G0))
    then ∃ s, ⌜h = top s⌝ ∗ P [EBatch s] ∗ chain_kept up γ s ∗ credits γ j
    else credits γ (S j) ∗ if x =? NULL then P [EBatch []] else P [] }}.
Proof.
  iIntros (Hup) "[[%Hnull %Htot] #Hinv] #Hshift HP Hc". specialize (Htot Hup). open_stack.
  change (generation stk) with (stk + 1). change (head stk) with stk.
  destruct ((top s =? h) && (u64 (Z.of_nat G) =? u64 (Z.of_nat G0))) eqn:Hcas.
  - apply andb_true_iff in Hcas as [<-%Z.eqb_eq HGG%Z.eqb_eq].
    iMod ("Hshift" $! [] (EBatch s) s [] with "[%] Habs HP") as "[Habs HP]"; [done|].
    iMod (credits_use with "Hcr Hc") as (k') "(-> & Hcr & Hc)".
    iMod (mono_nat_own_update (S G) with "HG") as "[HG _]"; [lia|].
    iMod (notes_remove γ G K ∅ with "Hnotes") as "Hnotes".
    iDestruct (chain_kept_all with "HK") as "[Hs _]"; [apply Hsh..|done|].
    wp_pures. iApply (wp_cas2_gen with "[$Hh $Hg]"). iIntros "!> [Hh Hg]".
    rewrite HGG !Z.eqb_refl /= -HGG shift_u64. iModIntro. iSplitR "HP Hs Hc".
    { iNext. iExists [], (S G), k', ∅. iFrame. rewrite big_sepM_empty. iPureIntro. split; [done|].
      by eapply shape_batch. }
    iExists (top s), G. rewrite HGG !Z.eqb_refl /=. iSplit; [by rewrite -HGG|]. iExists s. by iFrame.
  - iMod (failed_step up stk γ γo P (Some (EBatch [])) with "Hshift Habs HP HG Hnotes")
      as "(Habs & HG & Hnotes & HP)"; [done..|].
    wp_pures. iApply (wp_cas2_gen with "[$Hh $Hg]"). iIntros "!> [Hh Hg]". rewrite Hcas.
    iModIntro. iSplitR "HP Hc".
    { iNext. iExists s, G, k, K. iFrame. by iPureIntro. }
    iExists (top s), G. rewrite Hcas. iFrame. iSplit; [done|].
    destruct (top s =? NULL); [done|]. by iDestruct "HP" as "[$ _]".
Qed.

Lemma stack_read_kept γ γo e v :
  {{{ stack_inv up stk γ γo ∗ ⌜e ∈ sn_entries γ⌝ ∗ kept up γ e v }}} ld (next e) {{{ RET v; True }}}.
Proof.
  iIntros (Φ) "([_ #Hinv] & %Hin & Hk) HΦ". open_stack.
  iDestruct (entries_acc with "Hent") as (M x) "(%Hx & HM & He & Hent)"; [done|].
  iDestruct (kept_lookup up γ {[e := v]} M e v with "[Hk] HM") as %HM.
  { apply lookup_singleton_eq. }
  { by rewrite big_sepM_singleton. }
  assert (x = v) as -> by congruence. wp_load "He". iDestruct ("Hent" $! v with "[HM] He") as "Hent"; [by rewrite insert_id|].
  iModIntro. iSplitR "HΦ"; [close_stack s G k K|by iApply "HΦ"].
Qed.

Lemma collect_spec γ γo s :
  stack_inv up stk γ γo -∗ chain_kept up γ s -∗ WP collect (top s) {{ es, ⌜es = s⌝ }}.
Proof.
  iIntros "#Hinv Hs". rewrite /collect /foreach_from.
  iApply (wp_loop_inv (λ x : Z * list Z, ∃ s', ⌜x.1 = top s' /\ x.2 ++ s' = s⌝ ∗ chain_kept up γ s')%I with "[Hs]").
  { iExists s. by iFrame. }
  iIntros "!>" ([e acc]) "(%s' & [%He %Hacc] & Hs)". simpl in He, Hacc. subst.
  destruct s' as [|e s']; cbn [top].
  - rewrite Z.eqb_refl. wp_pures. by rewrite app_nil_r.
  - cbn [chain_kept]. iDestruct "Hs" as "(He & [%Hne %Hin] & Hs)". rewrite (proj2 (Z.eqb_neq _ _) Hne). wp_pures.
    rewrite /CK_STACK_NEXT. iApply (stack_read_kept with "[$Hinv $He]"); [done|]. iIntros "!> _". wp_pures.
    iExists s'. iFrame. iPureIntro. simpl. by rewrite -app_assoc.
Qed.

(** ** Pushing *)

Lemma push_spec γ γo P evs e w :
  stack_inv up stk γ γo -∗ shift γo P -∗ P evs -∗ ⌜e ∈ sn_entries γ⌝ -∗ owned γ e w -∗
  WP ck_stack_push_upmc stk e {{ _, P (evs ++ [EPush e]) }}.
Proof.
  iIntros "#Hinv #Hshift HP %Hin Ho". rewrite /ck_stack_push_upmc. wp_focus.
  iApply (stack_head with "Hinv"). iIntros "!>" (h) "_". wp_focus.
  iApply (stack_write_next with "[$Hinv $Ho]"); [done|]. iIntros "!> Ho". wp_pures.
  iApply (wp_loop_inv (λ h, P evs ∗ owned γ e h)%I with "[$HP $Ho]").
  iIntros "!>" (h') "[HP Ho]". wp_focus.
  iApply (wp_wand (Λ:=ck_lang (bool * Z)) with "[HP Ho]").
  { by iApply (stack_push_cas with "Hinv Hshift HP [//] Ho"). }
  iIntros (r) "(%x & -> & H)". cbn [fst]. destruct (x =? h'); wp_pures; [done|].
  iDestruct "H" as "[HP Ho]". iApply (stack_write_next with "[$Hinv $Ho]"); [done|]. iIntros "!> Ho".
  wp_pures. iFrame.
Qed.

Lemma trypush_spec γ γo P e w :
  stack_inv up stk γ γo -∗ shift γo P -∗ P [] -∗ ⌜e ∈ sn_entries γ⌝ -∗ owned γ e w -∗
  WP ck_stack_trypush_upmc stk e {{ b, P (if (b : bool) then [EPush e] else []) }}.
Proof.
  iIntros "#Hinv #Hshift HP %Hin Ho". rewrite /ck_stack_trypush_upmc. wp_focus.
  iApply (stack_head with "Hinv"). iIntros "!>" (h) "_". wp_focus.
  iApply (stack_write_next with "[$Hinv $Ho]"); [done|]. iIntros "!> Ho". wp_pures.
  iApply (wp_wand (Λ:=ck_lang bool) with "[HP Ho]").
  { by iApply (stack_push_cas up stk γ γo P [] with "Hinv Hshift HP [//] Ho"). }
  iIntros (r) "(%x & -> & H)". cbn [fst]. destruct (x =? h); [done|]. by iDestruct "H" as "[$ _]".
Qed.

(** ** Popping, with unique producers *)

Lemma pop_upmc_spec γ γo P :
  up = true ->
  stack_inv up stk γ γo -∗ shift γo P -∗ P [] -∗ since γ 0 -∗
  WP ck_stack_pop_upmc stk {{ e, P [EPop e] }}.
Proof.
  iIntros (Hup) "#Hinv #Hshift HP #H0". rewrite /ck_stack_pop_upmc. wp_focus.
  iApply (wp_wand (Λ:=ck_lang Z) with "[HP]").
  { by iApply (stack_look up stk γ γo P (Some (EPop NULL)) with "Hinv Hshift HP H0"). }
  iIntros (h) "H". destruct (Z.eqb_spec h NULL) as [->|Hh]; wp_pures; [done|].
  iDestruct "H" as "[HP (%G & _ & #Htop)]".
  iApply (stack_read_next with "[$Hinv $Htop]"). iIntros "!>" (n) "#Hn". wp_pures.
  iApply (wp_loop_inv (λ x : Z * Z, P [] ∗ ∃ G, next_seen up γ G x.1 x.2)%I with "[$HP]"); [by iExists G|].
  iClear "Htop Hn". clear h Hh G n. iIntros "!>" ([h n]) "[HP (%G & #Hseen)]". wp_focus.
  iApply (wp_wand (Λ:=ck_lang (bool * Z)) with "[HP]").
  { by iApply (stack_pop_cas up stk γ γo P (Some (EPop NULL)) with "Hinv Hshift HP Hseen"). }
  iIntros (r) "(%x & -> & H)". cbn [fst]. destruct (Z.eqb_spec x h) as [->|Hx]; wp_pures; [done|].
  rewrite /failed_at. destruct (Z.eqb_spec x NULL) as [->|Hnull]; wp_pures; [done|].
  iDestruct "H" as "[HP (%G2 & #Htop2)]".
  iApply (stack_read_next with "[$Hinv $Htop2]"). iIntros "!>" (n2) "#Hn2". wp_pures. iFrame. by iExists G2.
Qed.

Definition try_pop_post (P : list stack_event -> iProp Σ) (o : option Z) : iProp Σ :=
  match o with
  | Some e => ⌜e <> NULL⌝ ∗ P [EPop e]
  | None => P [EPop NULL] ∨ P []
  end.

Lemma trypop_upmc_spec γ γo P :
  up = true ->
  stack_inv up stk γ γo -∗ shift γo P -∗ P [] -∗ since γ 0 -∗
  WP ck_stack_trypop_upmc stk {{ o, try_pop_post P o }}.
Proof.
  iIntros (Hup) "#Hinv #Hshift HP #H0". rewrite /ck_stack_trypop_upmc. wp_focus.
  iApply (wp_wand (Λ:=ck_lang Z) with "[HP]").
  { by iApply (stack_look up stk γ γo P (Some (EPop NULL)) with "Hinv Hshift HP H0"). }
  iIntros (h) "H". destruct (Z.eqb_spec h NULL) as [->|Hh]; wp_pures; [by iLeft|].
  iDestruct "H" as "[HP (%G & _ & #Htop)]".
  iApply (stack_read_next with "[$Hinv $Htop]"). iIntros "!>" (n) "#Hn". wp_pures.
  iApply (wp_wand (Λ:=ck_lang bool) with "[HP]").
  { by iApply (stack_pop_cas up stk γ γo P None with "Hinv Hshift HP Hn"). }
  iIntros (r) "(%x & -> & H)". cbn [fst]. destruct (Z.eqb_spec x h) as [->|Hx]; wp_pures; [by iFrame|].
  iRight. rewrite /failed_at. destruct (x =? NULL); [done|]. by iDestruct "H" as "[$ _]".
Qed.

(** ** Popping, with a generation counter *)

Lemma credits_drop γ j : credits γ (S j) -∗ credits γ j.
Proof.
  iIntros "H". iApply (own_mono with "H"). apply auth_frag_mono, nat_included. lia.
Qed.

(** What a thread has after a pop. *)
Definition popped γ (P : list stack_event -> iProp Σ) j e : iProp Σ :=
  P [EPop e] ∗ credits γ j ∗
  (⌜e = NULL⌝ ∨ ⌜e <> NULL /\ e ∈ sn_entries γ⌝ ∗ ∃ v, owned γ e v).

Lemma seen_entry γ G h n : next_seen up γ G h n -∗ ⌜h <> NULL /\ h ∈ sn_entries γ⌝.
Proof. iIntros "(%v & %G' & _ & _ & %H)". iPureIntro. by destruct H as (_ & _ & ? & ? & _). Qed.

Lemma pop_mpmc_spec γ γo P j :
  up = false ->
  stack_inv up stk γ γo -∗ shift γo P -∗ P [] -∗ credits γ (S j) -∗
  WP ck_stack_pop_mpmc stk {{ e, popped γ P j e }}.
Proof.
  iIntros (Hup) "#Hinv #Hshift HP Hc". rewrite /ck_stack_pop_mpmc. wp_focus.
  iApply (stack_generation with "Hinv"). iIntros "!>" (G0) "#HG0". wp_pures.
  iApply (wp_wand (Λ:=ck_lang Z) with "[HP]").
  { by iApply (stack_look up stk γ γo P (Some (EPop NULL)) with "Hinv Hshift HP HG0"). }
  iIntros (h) "H". destruct (Z.eqb_spec h NULL) as [->|Hh]; wp_pures.
  { iDestruct (credits_drop with "Hc") as "Hc". iFrame. by iLeft. }
  iDestruct "H" as "[HP (%G & %HG & #Htop)]".
  iApply (stack_read_next with "[$Hinv $Htop]"). iIntros "!>" (n) "#Hn". wp_pures.
  iApply (wp_loop_inv (λ x : Z * Z * Z, P [] ∗ credits γ (S j) ∗ ∃ G0 G, ⌜x.1.2 = u64 (Z.of_nat G0) /\ (G0 <= G)%nat⌝ ∗
    since γ G0 ∗ next_seen up γ G x.1.1 x.2)%I with "[$HP $Hc]"); [by iExists G0, G; iFrame "#"|].
  iClear "HG0 Htop Hn". clear h Hh G G0 n HG. iIntros "!>" ([[h g] n]) "(HP & Hc & (%G0 & %G & [%Hg %HG] & #HG0' & #Hseen))".
  simpl in Hg. subst g. cbn [fst snd]. wp_focus. iDestruct (seen_entry with "Hseen") as %Hh.
  iApply (wp_wand (Λ:=ck_lang (bool * (Z * Z))) with "[HP Hc]").
  { by iApply (stack_pop_cas2 up stk γ γo P (Some (EPop NULL)) with "Hinv Hshift HP HG0' Hseen Hc"). }
  iIntros (r) "(%x & %G2 & -> & H)". cbn [fst snd].
  destruct ((x =? h) && (u64 (Z.of_nat G2) =? u64 (Z.of_nat G0))) eqn:Hcas; wp_pures.
  { apply andb_true_iff in Hcas as [->%Z.eqb_eq _]. iDestruct "H" as "(HP & Ho & Hc)". iFrame.
    iRight. iSplit; [done|]. by iExists n. }
  iDestruct "H" as "(Hc & #HG2 & H)". cbn [fst snd]. destruct (Z.eqb_spec x NULL) as [->|Hnull]; wp_pures.
  { iDestruct (credits_drop with "Hc") as "Hc". iFrame. by iLeft. }
  iDestruct "H" as "[HP #Htop2]".
  iApply (stack_read_next with "[$Hinv $Htop2]"). iIntros "!>" (n2) "#Hn2". wp_pures. iFrame.
  iExists G2, G2. by iFrame "#".
Qed.

Lemma trypop_mpmc_spec γ γo P j :
  up = false ->
  stack_inv up stk γ γo -∗ shift γo P -∗ P [] -∗ credits γ (S j) -∗
  WP ck_stack_trypop_mpmc stk {{ o, try_pop_post P o ∗ credits γ j }}.
Proof.
  iIntros (Hup) "#Hinv #Hshift HP Hc". rewrite /ck_stack_trypop_mpmc. wp_focus.
  iApply (stack_generation with "Hinv"). iIntros "!>" (G0) "#HG0". wp_pures.
  iApply (wp_wand (Λ:=ck_lang Z) with "[HP]").
  { by iApply (stack_look up stk γ γo P (Some (EPop NULL)) with "Hinv Hshift HP HG0"). }
  iIntros (h) "H". destruct (Z.eqb_spec h NULL) as [->|Hh]; wp_pures.
  { iDestruct (credits_drop with "Hc") as "$". by iLeft. }
  iDestruct "H" as "[HP (%G & %HG & #Htop)]".
  iApply (stack_read_next with "[$Hinv $Htop]"). iIntros "!>" (n) "#Hn". wp_pures.
  iApply (wp_wand (Λ:=ck_lang (bool * (Z * Z))) with "[HP Hc]").
  { by iApply (stack_pop_cas2 up stk γ γo P None with "Hinv Hshift HP HG0 Hn Hc"). }
  iIntros (r) "(%x & %G2 & -> & H)". cbn [fst snd].
  destruct ((x =? h) && (u64 (Z.of_nat G2) =? u64 (Z.of_nat G0))) eqn:Hcas; wp_pures; cbn [fst].
  - apply andb_true_iff in Hcas as [->%Z.eqb_eq _]. iDestruct "H" as "(HP & _ & $)". by iFrame.
  - iDestruct "H" as "(Hc & _ & H)". iDestruct (credits_drop with "Hc") as "$". iRight.
    destruct (x =? NULL); [done|]. by iDestruct "H" as "[$ _]".
Qed.

Lemma batch_mpmc_spec γ γo P j :
  up = false ->
  stack_inv up stk γ γo -∗ shift γo P -∗ P [] -∗ credits γ (S j) -∗
  WP ck_stack_batch_pop_mpmc stk {{ h, ∃ s, ⌜h = top s⌝ ∗ P [EBatch s] ∗ chain_kept up γ s ∗ credits γ j }}.
Proof.
  iIntros (Hup) "#Hinv #Hshift HP Hc". rewrite /ck_stack_batch_pop_mpmc. wp_focus.
  iApply (stack_generation with "Hinv"). iIntros "!>" (G0) "#HG0". wp_pures.
  iApply (wp_wand (Λ:=ck_lang Z) with "[HP]").
  { by iApply (stack_look up stk γ γo P (Some (EBatch [])) with "Hinv Hshift HP HG0"). }
  iIntros (h) "H". destruct (Z.eqb_spec h NULL) as [->|Hh]; wp_pures.
  { iDestruct (credits_drop with "Hc") as "Hc". iExists []. by iFrame. }
  iDestruct "H" as "[HP _]".
  iApply (wp_loop_inv (λ x : Z * Z, P [] ∗ credits γ (S j) ∗ ∃ G0, ⌜x.2 = u64 (Z.of_nat G0)⌝)%I with "[$HP $Hc]");
    [by iExists G0|].
  clear h Hh. iIntros "!>" ([h g]) "(HP & Hc & (%G & %Hg))". simpl in Hg. subst g. wp_focus.
  iApply (wp_wand (Λ:=ck_lang (bool * (Z * Z))) with "[HP Hc]").
  { by iApply (stack_batch_cas2 γ γo P G h with "Hinv Hshift HP Hc"). }
  iIntros (r) "(%x & %G2 & -> & H)". cbn [fst snd].
  destruct ((x =? h) && (u64 (Z.of_nat G2) =? u64 (Z.of_nat G))) eqn:Hcas; wp_pures; cbn [fst snd].
  { apply andb_true_iff in Hcas as [->%Z.eqb_eq _]. done. }
  iDestruct "H" as "[Hc HP]". destruct (Z.eqb_spec x NULL) as [->|Hnull]; wp_pures.
  - iDestruct (credits_drop with "Hc") as "Hc". iExists []. by iFrame.
  - iFrame. by iExists G2.
Qed.
End ops.
