(* ===== verification/StackTheorems.v ===== *)
(** The stack meets the interface of [Linear]. *)

From iris.algebra Require Import auth numbers.
From S2P Require Export StackOps.
Set Warnings "-rewrite-rw".

Definition stackΣ : gFunctors :=
  #[ckΣ; ghost_varΣ (list Z); ghost_mapΣ Z Z; ghost_mapΣ (nat * Z) Z; mono_natΣ; GFunctor (authR natUR);
    ghost_varΣ (list (entry stack_event))].

#[global] Instance subG_stackΣ {Σ} : subG stackΣ Σ -> stackGS Σ.
Proof. solve_inG. Qed.

(** The memory of a stack at any time: from [head], the [next] fields lead through
    different entries to [NULL]. *)
Definition stack_good (stk : Z) (σ : mem) : Prop :=
  ∃ s, NoDup s /\ NULL ∉ s /\ σ !! head stk = Some (top s) /\ chain σ s.

Lemma chain_mono K K' s : chain K s -> (∀ e v, K !! e = Some v -> K' !! e = Some v) -> chain K' s.
Proof. intros Hc Hm. induction s as [|e s IH]; [done|]. destruct Hc. split; auto. Qed.

Section lin.
Context `{!ckGS Σ, !stackGS Σ}.
Context (up : bool) (stk : Z).

Definition slin_init (scripts : list (list stack_op)) (m : mem) : Prop :=
  stack_scripts_ok up scripts /\ ∃ ents, stack_layout stk scripts ents /\ m = stack_memory stk ents.

Definition slin_tok (γ : stack_name) (ops : list stack_op) : iProp Σ :=
  ⌜(up = true -> OpMove ∉ ops) /\ Forall (fun e => e ∈ sn_entries γ) (ops ≫= pushed)⌝ ∗
  credits γ (count_removals ops) ∗ [∗ list] e ∈ ops ≫= pushed, ∃ v, owned γ e v.

Lemma credits_split γ ns : credits γ (sum_list ns) -∗ [∗ list] n ∈ ns, credits γ n.
Proof.
  induction ns as [|n ns IH]; [by iIntros "_"|]. iIntros "H".
  rewrite /credits /= auth_frag_op own_op. iDestruct "H" as "[$ H]". by iApply IH.
Qed.

Lemma slin_alloc scripts m γo E :
  slin_init scripts m ->
  ([∗ map] l ↦ v ∈ m, l ↦ v) -∗ ghost_var γo (1/2) [] ={E}=∗
  ∃ γ, stack_inv up stk γ γo ∗ [∗ list] ops ∈ scripts, slin_tok γ ops.
Proof.
  iIntros ((Hok & ents & (Hdom & Hhead & Hgen) & ->)) "Hm Ho". destruct Hok as (Hnd & Hnull & Hmove & Htot).
  rewrite /stack_memory big_sepM_insert; [|rewrite lookup_insert_ne //; rewrite /head /generation; lia].
  rewrite big_sepM_insert //. iDestruct "Hm" as "(Hh & Hg & Hm)".
  iMod (ghost_map_alloc ents) as (γn) "[HM Hown]".
  iMod (ghost_map_alloc_empty (K:=nat * Z) (V:=Z)) as (γh) "HH".
  iMod (mono_nat_own_alloc 0) as (γg) "[HG _]".
  set (total := sum_list (count_removals <$> scripts)) in *.
  iMod (own_alloc (● total ⋅ ◯ total)) as (γc) "[Hcr Hcf]"; [by apply auth_both_valid_discrete|].
  set (γ := StackName γn γh γg γc (dom ents) total). iExists γ.
  iMod (inv_alloc stackN _ (stack_state up stk γ γo) with "[Ho Hh Hg HM Hm HH HG Hcr]") as "#Hinv".
  { iNext. iExists [], 0%nat, total, ∅. rewrite /notes !big_sepM_empty. iFrame "Ho Hh Hg HG Hcr".
    iSplitL "HM Hm"; [iExists ents; by iFrame|].
    iSplitL "HH"; [iSplit; [iExists ∅; by iFrame|done]|]. iSplit; [done|].
    iPureIntro. split; first [done|constructor|set_solver]. }
  iModIntro. iSplitR.
  { iFrame "Hinv". iPureIntro. split; [|done]. simpl. rewrite Hdom. set_solver. }
  rewrite /slin_tok !big_sepL_sep. iSplitR.
  { iApply big_sepL_pure. iPureIntro. intros t ops Ht. split.
    - intros Hup. specialize (Hmove Hup). rewrite Forall_lookup in Hmove. eauto.
    - apply Forall_forall. intros e He. simpl. rewrite Hdom. apply elem_of_list_to_set, list_elem_of_bind.
      exists ops. split; [done|]. by apply list_elem_of_lookup_2 in Ht. }
  iSplitL "Hcf".
  { iDestruct (credits_split γ (count_removals <$> scripts) with "Hcf") as "H". by rewrite big_sepL_fmap. }
  rewrite -(big_sepL_bind (fun ops => ops ≫= pushed) (fun e => ∃ v, owned γ e v)%I).
  rewrite -big_sepS_list_to_set // -/(entries_of scripts) -Hdom -big_sepM_dom.
  iApply (big_sepM_impl with "Hown"). iIntros "!>" (e v _) "H". by iExists v.
Qed.

Lemma slin_good γ γo σ E :
  ↑objN ⊆ E -> stack_inv up stk γ γo -∗ gen_heap_interp σ ={E}=∗ gen_heap_interp σ ∗ ⌜stack_good stk σ⌝.
Proof.
  iIntros (HE) "[[%Hnull _] #Hinv] Hσ". open_stack.
  iDestruct (gen_heap_valid with "Hσ Hh") as %Hhead.
  iAssert ⌜∀ e v, K !! e = Some v -> σ !! e = Some v⌝%I as %HKσ.
  { iIntros (e v He). iDestruct "Hent" as (M) "(HM & Hm & _)".
    iDestruct (kept_lookup with "HK HM") as %HM; [done|].
    iDestruct (big_sepM_lookup with "Hm") as "Hc"; [done|]. iApply (gen_heap_valid with "Hσ Hc"). }
  iModIntro. iSplitR "Hσ"; [close_stack s G k K|]. iModIntro. iFrame. iPureIntro.
  exists s. split_and!; [apply Hsh| |done|eapply chain_mono; [apply Hsh|done]].
  intros Hin. destruct (chain_elem _ _ _ (sh_chain _ _ _ _ _ _ Hsh) Hin) as [v Hv].
  apply elem_of_dom_2, (sh_in _ _ _ _ _ _ Hsh) in Hv. done.
Qed.

(** ** Operations *)

Abbreviation shift γo P := (lin_shift (O:=stack_object up stk) γo P).

Lemma slin_op γ γo op ops (P : list stack_event -> iProp Σ) :
  stack_inv up stk γ γo -∗ slin_tok γ (op :: ops) -∗ shift γo P -∗ P [] -∗
  WP stack_code up stk op {{ r, ∃ evs, ⌜stack_events op r evs⌝ ∗ P evs ∗ slin_tok γ ops }}.
Proof.
  iIntros "#Hinv ([%Hmove %Hin] & Hc & Hown) #Hshift HP".
  assert (up = true -> OpMove ∉ ops) as Hmove' by (intros H; specialize (Hmove H); set_solver).
  rewrite bind_cons in Hin. apply Forall_app in Hin as [Hin Hin'].
  iEval (rewrite bind_cons big_sepL_app) in "Hown". iDestruct "Hown" as "[He Hown]".
  iMod (mono_nat_lb_own_0 (sn_gen γ)) as "#H0".
  destruct op as [e|e| | | |]; cbn [stack_code pushed] in *.
  - (* push *)
    iDestruct "He" as "[(%w & He) _]". apply Forall_cons in Hin as [Hin _]. wp_focus.
    iApply (wp_wand (Λ:=ck_lang unit) with "[HP He]").
    { destruct up; by iApply (push_spec _ stk γ γo P [] with "Hinv Hshift HP [//] He"). }
    iIntros ([]) "HP". wp_pures. iExists [EPush e]. iFrame. by iPureIntro.
  - iDestruct "He" as "[(%w & He) _]". apply Forall_cons in Hin as [Hin _]. wp_focus.
    iApply (wp_wand (Λ:=ck_lang bool) with "[HP He]").
    { destruct up; by iApply (trypush_spec _ stk γ γo P e w with "Hinv Hshift HP [//] He"). }
    iIntros (b) "HP". wp_pures. iExists _. iFrame. by iPureIntro.
  - iEval (rewrite /count_removals /=) in "Hc". wp_focus.
    iApply (wp_wand (Λ:=ck_lang Z) _ _ _ (λ e, P [EPop e] ∗ credits γ (count_removals ops))%I with "[HP Hc]").
    { destruct up eqn:Hup.
      - iDestruct (credits_drop with "Hc") as "$". by iApply (pop_upmc_spec with "Hinv Hshift HP H0").
      - iApply (wp_wand (Λ:=ck_lang Z) with "[HP Hc]"); [by iApply (pop_mpmc_spec with "Hinv Hshift HP Hc")|].
        iIntros (e) "($ & $ & _)". }
    iIntros (e) "[HP Hc]". wp_pures. iExists _. iFrame. by iPureIntro.
  - iEval (rewrite /count_removals /=) in "Hc". wp_focus.
    iApply (wp_wand (Λ:=ck_lang (option Z)) _ _ _ (λ o, try_pop_post P o ∗ credits γ (count_removals ops))%I with "[HP Hc]").
    { destruct up eqn:Hup.
      - iDestruct (credits_drop with "Hc") as "$". by iApply (trypop_upmc_spec with "Hinv Hshift HP H0").
      - by iApply (trypop_mpmc_spec with "Hinv Hshift HP Hc"). }
    iIntros ([e|]) "[HP Hc]"; wp_pures; cbn [try_pop_post].
    + iDestruct "HP" as "[%He HP]". iExists _. iFrame. by iPureIntro.
    + iDestruct "HP" as "[HP|HP]"; iExists _; iFrame; iPureIntro; (split; [cbn; by auto|done]).
  - iEval (rewrite /count_removals /=) in "Hc". wp_focus.
    iApply (wp_wand (Λ:=ck_lang Z) _ _ _ (λ h, ∃ s, ⌜h = top s⌝ ∗ P [EBatch s] ∗ chain_kept up γ s ∗
      credits γ (count_removals ops))%I with "[HP Hc]").
    { destruct up eqn:Hup.
      - iDestruct (credits_drop with "Hc") as "Hc". rewrite /ck_stack_batch_pop_upmc. wp_focus.
        iApply (wp_wand (Λ:=ck_lang Z) with "[HP]"); [by iApply (stack_batch_fas with "Hinv Hshift HP")|].
        iIntros (h) "(%s & -> & HP & Hs)". wp_pures. iExists s. by iFrame.
      - by iApply (batch_mpmc_spec with "Hinv Hshift HP Hc"). }
    iIntros (h) "(%s & -> & HP & Hs & Hc)". wp_focus.
    iApply (wp_wand (Λ:=ck_lang (list Z)) with "[Hs]"); [by iApply (collect_spec with "Hinv Hs")|].
    iIntros (es) "->". wp_pures. iExists _. iFrame. by iPureIntro.
  - iEval (rewrite /count_removals /=) in "Hc". wp_focus.
    assert (up = false) as Hup by (destruct up; [exfalso; apply Hmove; [done|set_solver]|done]).
    iApply (wp_wand (Λ:=ck_lang Z) with "[HP Hc]"); [by iApply (pop_mpmc_spec with "Hinv Hshift HP Hc")|].
    iIntros (e) "(HP & Hc & [->|([%Hne %Hine] & %v & Hv)])".
    + rewrite Z.eqb_refl. wp_pures. iExists _. iFrame. by iPureIntro.
    + rewrite (proj2 (Z.eqb_neq _ _) Hne). wp_focus. rewrite /ck_stack_push_mpmc.
      iApply (wp_wand (Λ:=ck_lang unit) with "[HP Hv]").
      { by iApply (push_spec up stk γ γo P [EPop e] with "Hinv Hshift HP [//] Hv"). }
      iIntros ([]) "HP". wp_pures. iExists _. iFrame. iPureIntro. cbn [stack_events].
      rewrite (proj2 (Z.eqb_neq _ _) Hne). by split.
Qed.

#[global] Instance stack_lin_spec : LinSpec (stack_object up stk) slin_init (stack_good stk).
Proof.
  refine {| lin_name := stack_name; lin_inv := stack_inv up stk; lin_tok := slin_tok : _ -> list (oop (stack_object up stk)) -> _ |}.
  - apply slin_alloc.
  - apply slin_op.
  - apply slin_good.
Defined.
End lin.

(** The stack: its theorems.  Linearizability, and the batch removal that is not. *)

Definition stack_system (up : bool) (stk : Z) (ents : gmap Z Z) (clock : Z)
    (scripts : list (list stack_op)) : config (list (call stack_ret)) :=
  workers (stack_object up stk) clock scripts (stack_memory stk ents).

Definition stack_setup (up : bool) (stk : Z) (ents : gmap Z Z) (clock : Z)
    (scripts : list (list stack_op)) : Prop :=
  stack_scripts_ok up scripts /\ stack_layout stk scripts ents /\ stack_memory stk ents !! clock = None.

Lemma stack_spec up stk :
  ∀ `{!ckGS stackΣ}, LinSpec (stack_object up stk) (slin_init up stk) (stack_good stk).
Proof. intros ?. apply stack_lin_spec. Qed.

Lemma stack_init_returns stk ents v w :
  returns (ck_stack_init stk) (<[head stk := v]> (<[generation stk := w]> ents)) tt (stack_memory stk ents).
Proof.
  unfold ck_stack_init, stack_memory, head, generation.
  replace (<[stk := NULL]> (<[stk + 1 := NULL]> ents))
    with (<[stk + 1 := NULL]> (<[stk := NULL]> (<[stk := v]> (<[stk + 1 := w]> ents)))).
  - eapply returns_bind; eapply returns_store; [apply lookup_insert_eq|].
    do 2 (rewrite lookup_insert_ne; [|lia]). apply lookup_insert_eq.
  - rewrite insert_insert_eq. rewrite (insert_insert_ne _ (stk + 1)); [|lia]. by rewrite insert_insert_eq.
Qed.

(** C2. Linearizability of [ck_stack], with unique producers (the [_upmc]
    functions) and with entries that are pushed again as soon as they were popped
    (the [_mpmc] functions, [ck_stack_batch_pop_mpmc] among them): from an
    initialised stack, for any number of threads that run scripts of pushes, pops,
    attempts of both, batch removals and moves, under every scheduler: no step
    faults; the returned calls are explained by atomic events, each between its
    call's invocation and response, on a list; and at every point the [next]
    fields lead from [head] through distinct entries to [NULL].  With 64-bit
    generations fewer than 2^64 removals. *)
Theorem stack_linearizable up stk ents clock scripts v w m ps σ :
  stack_setup up stk ents clock scripts ->
  returns (ck_stack_init stk) (<[head stk := v]> (<[generation stk := w]> ents)) tt m ->
  rtc sys_step (workers (stack_object up stk) clock scripts m) (ps, σ) ->
  linearizable (stack_object up stk) scripts ps /\ stack_good stk σ /\ (∀ p, p ∈ ps -> safe p σ).
Proof.
  intros (Hok & Hlay & Hclock) Hinit Hsteps.
  destruct (returns_det _ _ _ _ _ _ Hinit (stack_init_returns stk ents v w)) as [_ ->].
  refine ((fun H => conj (proj1 (proj1 H)) (conj (proj2 (proj1 H)) (proj2 H)))
    (spec_linearizable stackΣ _ _ _ (@stack_spec up stk) clock scripts _ ps σ _ Hclock Hsteps)).
  split; [done|by exists ents].
Qed.

(** Three threads that pass entries around. *)
Definition stack_demo_scripts : list (list stack_op) :=
  [[OpPush 10; OpMove; OpPop]; [OpTryPush 20; OpPush 30; OpMove; OpBatch]; [OpMove; OpTryPop; OpPush 40]].
Definition stack_demo_entries : gmap Z Z := list_to_map [(10, 7); (20, 10); (30, 30); (40, 1)].

Lemma stack_demo_setup : stack_setup false 1 stack_demo_entries 100 stack_demo_scripts.
Proof.
  split_and!; [split_and!|split_and!|reflexivity].
  - apply (bool_decide_unpack _). vm_compute. exact I.
  - apply (bool_decide_unpack _). vm_compute. exact I.
  - done.
  - done.
  - vm_compute. reflexivity.
  - reflexivity.
  - reflexivity.
Qed.

Lemma stack_linearizable_witness :
  let c := round_robin 200 (workers (stack_object false 1) 100 stack_demo_scripts (stack_memory 1 stack_demo_entries)) in
  forallb is_ret c.1 = true /\
  linearizable (stack_object false 1) stack_demo_scripts c.1 /\ stack_good 1 c.2.
Proof.
  intros c. split; [vm_compute; reflexivity|].
  destruct (stack_linearizable false 1 stack_demo_entries 100 stack_demo_scripts 5 6
    (stack_memory 1 stack_demo_entries) c.1 c.2) as (Hlin & Hgood & _).
  - apply stack_demo_setup.
  - apply stack_init_returns.
  - apply round_robin_pair.
  - split; [exact Hlin|exact Hgood].
Defined.

(** * The wait-free batch removal *)

(** A thread that takes all entries and pushes the first one back at once, and two
    that pop one entry each. *)
Definition batch_wf_threads (stk : Z) : list (prog (list Z)) :=
  [ h <- ck_stack_batch_pop_mpmc_wf stk ;; es <- collect h ;; ck_stack_push_mpmc stk h ;; Ret es;
    e <- ck_stack_pop_mpmc stk ;; Ret [e];
    e <- ck_stack_pop_mpmc stk ;; Ret [e] ].

(** C40. [ck_stack_batch_pop_mpmc_wf] does not keep the invariant that its comment
    promises ("every removal advances the generation", so that the entries "may be
    re-pushed immediately"): it advances the generation before it takes the
    entries.  On the stack [a; b] a pop that reads generation and head in between
    succeeds after [a] was taken and pushed back, and makes [b] the top: the
    batch returns [a; b] and pushes back only [a], and yet both [a] and [b] are
    popped by the other two threads. *)
Theorem batch_wf_pops_twice :
  ∃ σ, rtc sys_step (batch_wf_threads 1, list_to_map [(1, 10); (2, 0); (10, 20); (20, NULL)])
         ([Ret [10; 20]; Ret [10]; Ret [20]], σ).
Proof.
  set (sched := replicate 2 0%nat ++ replicate 10 1%nat ++ replicate 100 0%nat ++ replicate 50 1%nat ++ replicate 50 2%nat).
  set (c := foldl turn (batch_wf_threads 1, list_to_map [(1, 10); (2, 0); (10, 20); (20, NULL)]) sched).
  exists c.2. assert (c.1 = [Ret [10; 20]; Ret [10]; Ret [20]]) as <- by (vm_compute; reflexivity).
  rewrite -surjective_pairing. apply turns_sound.
Qed.
