(* ===== verification/FifoMpmc.v ===== *)
(** The queue [ck_fifo_mpmc] for any number of producers and consumers
    (src/include/ck_fifo.h): its functions, and the queue as an abstract object. *)

From S2P Require Export Linear.
Set Warnings "-rewrite-rw".

(** * ck_fifo_mpmc

    A [ck_fifo_mpmc_pointer] is two words, [pointer] and [generation]; an entry is
    its value and its [next]; a queue has the pointers [head] and [tail].  A function
    that stores through [value] and [garbage] and returns whether it did answers an
    option. *)

Definition entry_value (entry : Z) : Z := entry.
Definition next_pointer (entry : Z) : Z := entry + 1.
Definition next_generation (entry : Z) : Z := next_pointer entry + 1.
Definition entry_cells (entry : Z) : list Z := [entry_value entry; next_pointer entry; next_generation entry].

Definition head_pointer (fifo : Z) : Z := fifo.
Definition head_generation (fifo : Z) : Z := head_pointer fifo + 1.
Definition tail_pointer (fifo : Z) : Z := fifo + 2.
Definition tail_generation (fifo : Z) : Z := tail_pointer fifo + 1.
Definition fifo_cells (fifo : Z) : list Z :=
  [head_pointer fifo; head_generation fifo; tail_pointer fifo; tail_generation fifo].

Definition ck_fifo_mpmc_init (fifo stub : Z) : prog unit :=
  st (next_pointer stub) NULL ;;
  st (next_generation stub) 0 ;;
  st (tail_pointer fifo) stub ;;
  st (head_pointer fifo) stub ;;
  st (tail_generation fifo) 0 ;;
  st (head_generation fifo) 0.

Definition ck_fifo_mpmc_deinit (fifo : Z) : prog Z :=
  garbage <- ld (head_pointer fifo) ;;
  st (tail_pointer fifo) NULL ;;
  st (head_pointer fifo) NULL ;;
  Ret garbage.

(** Both enqueues: the entry is prepared before it is published, and linked behind
    the last entry. *)
Definition enqueue_prepare (fifo entry value : Z) : prog unit :=
  st (entry_value entry) value ;;
  st (next_pointer entry) NULL ;;
  g <- ck_pr_load (tail_generation fifo) ;;
  st (next_generation entry) g ;;
  ck_pr_fence F_store_atomic.

(** Snapshots of [tail] and of the [next] of its entry, and the generation that the
    tail has after them. *)
Definition enqueue_snapshot (fifo : Z) : prog (Z * Z * (Z * Z) * Z) :=
  tg <- ck_pr_load (tail_generation fifo) ;;
  ck_pr_fence F_load ;;
  tp <- ck_pr_load (tail_pointer fifo) ;;
  ng <- ck_pr_load (next_generation tp) ;;
  ck_pr_fence F_load ;;
  np <- ck_pr_load (next_pointer tp) ;;
  ck_pr_fence F_load ;;
  g <- ck_pr_load (tail_generation fifo) ;;
  Ret (tp, tg, (np, ng), g).

Definition ck_fifo_mpmc_enqueue (fifo entry value : Z) : prog unit :=
  enqueue_prepare fifo entry value ;;
  tail <- Iter (fun _ : unit =>
    letp (tp, tg, (np, ng), g) := enqueue_snapshot fifo ;;
    if negb (g =? tg) then continue tt
    else if negb (np =? NULL) then
      ck_pr_cas_2 (tail_pointer fifo) tp tg np (u64 (tg + 1)) ;; continue tt
    else
      r <- ck_pr_cas_2 (next_pointer tp) np ng entry (u64 (ng + 1)) ;;
      if r : bool then break (tp, tg) else continue tt) tt ;;
  ck_pr_fence F_atomic ;;
  ck_pr_cas_2 (tail_pointer fifo) (fst tail) (snd tail) entry (u64 (snd tail + 1)) ;;
  Ret tt.

Definition ck_fifo_mpmc_tryenqueue (fifo entry value : Z) : prog bool :=
  enqueue_prepare fifo entry value ;;
  letp (tp, tg, (np, ng), g) := enqueue_snapshot fifo ;;
  if negb (g =? tg) then Ret false
  else if negb (np =? NULL) then
    ck_pr_cas_2 (tail_pointer fifo) tp tg np (u64 (tg + 1)) ;; Ret false
  else
    r <- ck_pr_cas_2 (next_pointer tp) np ng entry (u64 (ng + 1)) ;;
    if negb r then Ret false
    else
      ck_pr_fence F_atomic ;;
      ck_pr_cas_2 (tail_pointer fifo) tp tg entry (u64 (tg + 1)) ;;
      Ret true.

(** Snapshots of [head], [tail] and of the [next] of the entry of [head]; the
    generation of [next] is read and not used. *)
Definition dequeue_snapshot (fifo : Z) : prog (Z * Z * (Z * Z) * Z) :=
  hg <- ck_pr_load (head_generation fifo) ;;
  ck_pr_fence F_load ;;
  hp <- ck_pr_load (head_pointer fifo) ;;
  tg <- ck_pr_load (tail_generation fifo) ;;
  ck_pr_fence F_load ;;
  tp <- ck_pr_load (tail_pointer fifo) ;;
  ng <- ck_pr_load (next_generation hp) ;;
  ck_pr_fence F_load ;;
  np <- ck_pr_load (next_pointer hp) ;;
  Ret (hp, hg, (tp, tg), np).

Definition ck_fifo_mpmc_dequeue (fifo : Z) : prog (option (Z * Z)) :=
  Iter (fun _ : unit =>
    letp (hp, hg, (tp, tg), np) := dequeue_snapshot fifo ;;
    if hp =? tp then
      if np =? NULL then
        ck_pr_fence F_load ;;
        g <- ck_pr_load (head_generation fifo) ;;
        if negb (g =? hg) then continue tt else break None
      else
        ck_pr_cas_2 (tail_pointer fifo) tp tg np (u64 (tg + 1)) ;; continue tt
    else if np =? NULL then continue tt
    else
      value <- ck_pr_load (entry_value np) ;;
      r <- ck_pr_cas_2 (head_pointer fifo) hp hg np (u64 (hg + 1)) ;;
      if r : bool then break (Some (value, hp)) else continue tt) tt.

Definition ck_fifo_mpmc_trydequeue (fifo : Z) : prog (option (Z * Z)) :=
  letp (hp, hg, (tp, tg), np) := dequeue_snapshot fifo ;;
  if hp =? tp then
    if np =? NULL then Ret None
    else ck_pr_cas_2 (tail_pointer fifo) tp tg np (u64 (tg + 1)) ;; Ret None
  else if np =? NULL then Ret None
  else
    value <- ck_pr_load (entry_value np) ;;
    r <- ck_pr_cas_2 (head_pointer fifo) hp hg np (u64 (hg + 1)) ;;
    if negb r then Ret None else Ret (Some (value, hp)).

(** ** The macros for readers without concurrency *)

Definition CK_FIFO_MPMC_FIRST (f : Z) : prog Z := h <- ld (head_pointer f) ;; ld (next_pointer h).
Definition CK_FIFO_MPMC_ISEMPTY (f : Z) : prog bool := n <- CK_FIFO_MPMC_FIRST f ;; Ret (n =? NULL).
Definition CK_FIFO_MPMC_NEXT (m : Z) : prog Z := ld (next_pointer m).

Definition CK_FIFO_MPMC_FOREACH {S} (fifo : Z) (body : S -> Z -> prog S) (s : S) : prog S :=
  entry <- CK_FIFO_MPMC_FIRST fifo ;;
  Iter (fun '(entry, s) =>
    if entry =? NULL then break s
    else s <- body s entry ;; n <- CK_FIFO_MPMC_NEXT entry ;; continue (n, s)) (entry, s).

Definition CK_FIFO_MPMC_FOREACH_SAFE {S} (fifo : Z) (body : S -> Z -> prog S) (s : S) : prog S :=
  entry <- CK_FIFO_MPMC_FIRST fifo ;;
  Iter (fun '(entry, s) =>
    if entry =? NULL then break s
    else t <- CK_FIFO_MPMC_NEXT entry ;; s <- body s entry ;; continue (t, s)) (entry, s).

(** * The abstract queue: the values, oldest first *)

Inductive fifo_event :=
| FEnq (v : Z)
| FDeq (o : option Z).          (* [None]: observes that the queue is empty *)

Definition fifo_trans (q : list Z) (ev : fifo_event) (q' : list Z) : Prop :=
  match ev with
  | FEnq v => q' = q ++ [v]
  | FDeq (Some v) => q = v :: q'
  | FDeq None => q = [] /\ q' = []
  end.

(** ** Operations

    [FpMove v] dequeues, and enqueues [v] with the entry it was handed. *)

Inductive fifo_op := FpEnq (e v : Z) | FpTryEnq (e v : Z) | FpDeq | FpTryDeq | FpMove (v : Z).

Inductive fifo_ret := FUnit | FBool (b : bool) | FValue (o : option Z).

(** What a dequeue did: it may have seen the queue empty and tried again, and
    answers with what it saw last. *)
Definition deq_events (o : option Z) (evs : list fifo_event) : Prop :=
  ∃ n, evs = replicate n (FDeq None) ++ [FDeq o].

(** An attempt that fails may have no reason to. *)
Definition trydeq_events (o : option Z) (evs : list fifo_event) : Prop :=
  deq_events o evs \/ o = None /\ evs = [].

Definition fifo_events (op : fifo_op) (r : fifo_ret) (evs : list fifo_event) : Prop :=
  match op, r with
  | FpEnq _ v, FUnit => evs = [FEnq v]
  | FpTryEnq _ v, FBool b => evs = if b then [FEnq v] else []
  | FpDeq, FValue o => deq_events o evs
  | FpTryDeq, FValue o => trydeq_events o evs
  | FpMove v, FValue o =>
      ∃ ds, deq_events o ds /\ evs = ds ++ match o with Some _ => [FEnq v] | None => [] end
  | _, _ => False
  end.

Definition fifo_code (fifo : Z) (op : fifo_op) : prog fifo_ret :=
  match op with
  | FpEnq e v => ck_fifo_mpmc_enqueue fifo e v ;; Ret FUnit
  | FpTryEnq e v => b <- ck_fifo_mpmc_tryenqueue fifo e v ;; Ret (FBool b)
  | FpDeq => o <- ck_fifo_mpmc_dequeue fifo ;; Ret (FValue (fst <$> o))
  | FpTryDeq => o <- ck_fifo_mpmc_trydequeue fifo ;; Ret (FValue (fst <$> o))
  | FpMove v =>
      o <- ck_fifo_mpmc_dequeue fifo ;;
      match o with
      | Some (x, garbage) => ck_fifo_mpmc_enqueue fifo garbage v ;; Ret (FValue (Some x))
      | None => Ret (FValue None)
      end
  end.

Definition fifo_object (fifo : Z) : object := {|
  ost := list Z; oop := fifo_op; ores := fifo_ret; oev := fifo_event;
  oinit := []; otrans := fifo_trans; oevents := fifo_events; ocode := fifo_code fifo;
|}.

(** ** Scripts *)

Definition enq_entries (op : fifo_op) : list Z :=
  match op with FpEnq e _ | FpTryEnq e _ => [e] | _ => [] end.
Definition enqueues (op : fifo_op) : bool :=
  match op with FpEnq _ _ | FpTryEnq _ _ | FpMove _ => true | _ => false end.
Definition enq_count (ops : list fifo_op) : nat := length (filter (fun op => enqueues op = true) ops).

Definition script_entries (scripts : list (list fifo_op)) : list Z :=
  scripts ≫= (fun ops => ops ≫= enq_entries).

(** The cells of the queue and of all entries, the first of which is the stub. *)
Definition fifo_layout (fifo stub : Z) (scripts : list (list fifo_op)) : list Z :=
  fifo_cells fifo ++ ((stub :: script_entries scripts) ≫= entry_cells).

(** Each entry is enqueued first by one thread; fewer than 2^64 are enqueued in the
    lifetime of the queue. *)
Definition fifo_scripts_ok (stub : Z) (scripts : list (list fifo_op)) : Prop :=
  NULL ∉ stub :: script_entries scripts /\
  Z.of_nat (sum_list (enq_count <$> scripts)) < 2 ^ 64.
