(* ===== verification/FifoMpmcProof.v ===== *)
(** The queue for many producers and consumers: its invariant, and its atomic steps. *)

From iris.algebra Require Import auth numbers.
From S2P Require Export FifoMpmc Ghost Shares.
Set Warnings "-rewrite-rw".

(** * Ghost state

    The history lists the entries in the order in which they were linked, each with
    its value and the generation that its [next] had then; the stub is number 0.  The
    generations of [head] and of [tail] are the numbers of their entries.  The entries
    from [head] on are in the queue; every other one belongs to some thread, which may
    write it.  [en_bound] of an entry exceeds all numbers it had so far. *)

Record node := Node { nd_entry : Z; nd_value : Z; nd_gen : nat }.
Record ent := Ent { en_value : Z; en_ptr : Z; en_gen : Z; en_bound : nat }.

Class fifoGS (Σ : gFunctors) := FifoGS {
  fifo_absG :: ghost_varG Σ (list Z);
  fifo_histG :: histG node Σ;
  fifo_entG :: ghost_mapG Σ Z ent;
  fifo_monoG :: mono_natG Σ;
  fifo_leaseG :: leaseG Σ;
}.

Record fifo_name := FifoName {
  fn_hist : gname; fn_head : gname; fn_tail : gname; fn_ents : gname; fn_credit : gname;
  fn_entries : gset Z; fn_total : nat }.

Definition fifoN : namespace := objN.

(** The pointer and the generation that the [next] of entry number [k] has while it
    is in the queue. *)
Definition next_of (hist : list node) (k : nat) : Z :=
  match hist !! S k with Some nd => nd_entry nd | None => NULL end.

Definition gen_of (hist : list node) (k : nat) (nd : node) : Z :=
  Z.of_nat (nd_gen nd + match hist !! S k with Some _ => 1 | None => 0 end).

Definition queued (hist : list node) (k : nat) (nd : node) : ent :=
  Ent (nd_value nd) (next_of hist k) (gen_of hist k nd) (S k).

(** The values in the queue. *)
Definition contents (hist : list node) (H : nat) : list Z := nd_value <$> drop (S H) hist.

Record fifo_ok (γ : fifo_name) (hist : list node) (H T k : nat) (M : gmap Z ent) : Prop := {
  fo_head : (H <= T)%nat;
  fo_tail : (T < length hist)%nat;
  fo_lag : (length hist <= T + 2)%nat;
  fo_total : (length hist + k <= S (fn_total γ))%nat;
  fo_gen : ∀ j nd, hist !! j = Some nd -> (nd_gen nd <= j)%nat;
  fo_entry : ∀ j nd, hist !! j = Some nd -> nd_entry nd ∈ fn_entries γ;
  fo_dom : dom M = fn_entries γ;
  fo_bound : ∀ e en j nd, M !! e = Some en -> hist !! j = Some nd -> nd_entry nd = e -> (j < en_bound en)%nat;
  fo_past : ∀ e en j nd, M !! e = Some en -> hist !! j = Some nd -> nd_entry nd = e -> (j < H)%nat ->
    Z.of_nat (nd_gen nd) < en_gen en;
  fo_free : ∀ e en, M !! e = Some en -> (en_bound en <= H)%nat \/ ∃ j nd, hist !! j = Some nd /\ nd_entry nd = e /\ (H <= j)%nat;
  fo_ptr : ∀ e en, M !! e = Some en -> (0 < en_bound en)%nat -> en_ptr en = NULL \/ en_ptr en ∈ fn_entries γ;
}.

(** The queue, opened around one operation and closed after it. *)
Ltac open_fifo :=
  iInv fifoN as ">Hi"; iDestruct "Hi" as (hist H T k M)
    "(Habs & (%hd & %Hhd & Hhp) & Hhg & (%tl & %Htl & Htp) & Htg & HH & HT & Hcr & Hhist & HM & Hents & Hq & %Hok)".
Ltac close_fifo hist H T k M := iNext; iExists hist, H, T, k, M; iFrame "∗#"; by eauto.

Section fifo.
Context `{!ckGS Σ, !fifoGS Σ}.
Context (fifo : Z).
Implicit Types (γ : fifo_name) (hist : list node) (nd : node) (en : ent) (e v : Z) (H T k j : nat) (M : gmap Z ent).

Definition owned γ e en : iProp Σ := e ↪[fn_ents γ] en.
Definition numbered γ k nd : iProp Σ := hist_at (fn_hist γ) k nd.
Definition head_past γ k : iProp Σ := mono_nat_lb_own (fn_head γ) k.
Definition tail_past γ k : iProp Σ := mono_nat_lb_own (fn_tail γ) k.
Definition credits γ k : iProp Σ := leases (fn_credit γ) k.

Definition ent_cells e en : iProp Σ :=
  entry_value e ↦ en_value en ∗ next_pointer e ↦ en_ptr en ∗ next_generation e ↦ en_gen en.

(** The entries in the queue. *)
Definition in_queue γ hist H : iProp Σ :=
  [∗ list] i ↦ nd ∈ drop H hist, owned γ (nd_entry nd) (queued hist (H + i) nd).

Definition fifo_state γ (γo : gname) : iProp Σ :=
  ∃ hist H T k M,
    ghost_var γo (1/2) (contents hist H) ∗
    (∃ hd, ⌜hist !! H = Some hd⌝ ∗ head_pointer fifo ↦ nd_entry hd) ∗ head_generation fifo ↦ Z.of_nat H ∗
    (∃ tl, ⌜hist !! T = Some tl⌝ ∗ tail_pointer fifo ↦ nd_entry tl) ∗ tail_generation fifo ↦ Z.of_nat T ∗
    mono_nat_auth_own (fn_head γ) 1 H ∗ mono_nat_auth_own (fn_tail γ) 1 T ∗ lease_auth (fn_credit γ) k ∗
    hist_auth (fn_hist γ) hist ∗ ghost_map_auth (fn_ents γ) 1 M ∗ ([∗ map] e ↦ en ∈ M, ent_cells e en) ∗
    in_queue γ hist H ∗ ⌜fifo_ok γ hist H T k M⌝.

#[global] Instance fifo_state_timeless γ γo : Timeless (fifo_state γ γo).
Proof. rewrite /fifo_state /ent_cells /in_queue /owned. apply _. Qed.

Definition fifo_inv γ γo : iProp Σ :=
  ⌜NULL ∉ fn_entries γ /\ Z.of_nat (fn_total γ) < 2 ^ 64⌝ ∗ inv fifoN (fifo_state γ γo).

(** ** Entries *)

Lemma queue_lookup γ hist H M k nd :
  hist !! k = Some nd -> (H <= k)%nat ->
  in_queue γ hist H -∗ ghost_map_auth (fn_ents γ) 1 M -∗ ⌜M !! nd_entry nd = Some (queued hist k nd)⌝.
Proof.
  iIntros (Hk Hle) "Hq HM". rewrite /in_queue.
  iDestruct (big_sepL_lookup _ _ (k - H) nd with "Hq") as "He".
  { rewrite lookup_drop. by replace (H + (k - H))%nat with k by lia. }
  replace (H + (k - H))%nat with k by lia. iApply (ghost_map_lookup with "HM He").
Qed.

(** The owner of an entry: it is not in the queue, and its numbers are past. *)
Lemma owned_free γ hist H T k M e en :
  fifo_ok γ hist H T k M ->
  in_queue γ hist H -∗ ghost_map_auth (fn_ents γ) 1 M -∗ owned γ e en -∗
  ⌜M !! e = Some en /\ (en_bound en <= H)%nat /\ ∀ j nd, hist !! j = Some nd -> (H <= j)%nat -> nd_entry nd <> e⌝.
Proof.
  iIntros (Hok) "Hq HM He". iDestruct (ghost_map_lookup with "HM He") as %HMe.
  iAssert ⌜∀ j nd, hist !! j = Some nd -> (H <= j)%nat -> nd_entry nd <> e⌝%I as %Hout.
  { iIntros (j nd Hj Hle <-). rewrite /in_queue.
    iDestruct (big_sepL_lookup _ _ (j - H) nd with "Hq") as "He'".
    { rewrite lookup_drop. by replace (H + (j - H))%nat with j by lia. }
    by iDestruct (ghost_map_elem_ne with "He He'") as %[]. }
  iPureIntro. split_and!; [done| |done].
  destruct (fo_free _ _ _ _ _ _ Hok e en HMe) as [|(j & nd & Hj & He & Hle)]; [done|]. by destruct (Hout j nd).
Qed.

Lemma ents_acc M e en :
  M !! e = Some en -> ([∗ map] e ↦ en ∈ M, ent_cells e en) -∗
  ent_cells e en ∗ ∀ en', ent_cells e en' -∗ [∗ map] e ↦ en ∈ <[e := en']> M, ent_cells e en.
Proof. iIntros (He) "H". by iApply (big_sepM_insert_acc with "H"). Qed.

(** ** What a thread knows of an entry that had number [k] *)

Definition seen_gen γ k (g : nat) (ng : Z) : iProp Σ :=
  head_past γ (S k) ∨ ⌜ng = Z.of_nat g⌝ ∨ ∃ nd, numbered γ (S k) nd.

Definition seen_next γ k (np : Z) : iProp Σ :=
  head_past γ (S k) ∨ ⌜np = NULL⌝ ∨ ∃ nd, numbered γ (S k) nd ∗ ⌜np = nd_entry nd⌝.

(** Both: an entry without a successor still had its first generation. *)
Definition seen_both γ k (g : nat) (ng np : Z) : iProp Σ :=
  head_past γ (S k) ∨ ⌜np = NULL /\ ng = Z.of_nat g⌝ ∨ ∃ nd, numbered γ (S k) nd ∗ ⌜np = nd_entry nd /\ np <> NULL⌝.

Definition seen_value γ k (np x : Z) : iProp Σ :=
  head_past γ (S k) ∨ ∃ nd, numbered γ (S k) nd ∗ ⌜np = nd_entry nd /\ x = nd_value nd⌝.

Lemma number_case γ hist H T k M j nd :
  fifo_ok γ hist H T k M ->
  mono_nat_auth_own (fn_head γ) 1 H -∗ hist_auth (fn_hist γ) hist -∗ ghost_map_auth (fn_ents γ) 1 M -∗
  in_queue γ hist H -∗ numbered γ j nd -∗
  ⌜hist !! j = Some nd⌝ ∗ ∃ en, ⌜M !! nd_entry nd = Some en⌝ ∗
    ((head_past γ (S j) ∗ ⌜(j < H)%nat⌝) ∨ ⌜(H <= j)%nat /\ en = queued hist j nd⌝).
Proof.
  iIntros (Hok) "HH Hhist HM Hq Hnd". iDestruct (hist_lookup with "Hhist Hnd") as %Hj.
  iSplit; [done|]. destruct (decide (H <= j)%nat) as [Hle|Hlt].
  - iDestruct (queue_lookup with "Hq HM") as %HMe; [done..|]. iExists _. iSplit; [done|]. by iRight.
  - pose proof (fo_entry _ _ _ _ _ _ Hok j nd Hj) as Hin. rewrite -(fo_dom _ _ _ _ _ _ Hok) in Hin.
    apply elem_of_dom in Hin as [en Hen]. iExists en. iSplit; [done|]. iLeft.
    iDestruct (mono_nat_lb_own_get with "HH") as "Hlb". iSplit; [|iPureIntro; lia].
    iApply (mono_nat_lb_own_le with "Hlb"). lia.
Qed.

Lemma next_of_entry γ hist H T k M j :
  fifo_ok γ hist H T k M -> NULL ∉ fn_entries γ ->
  next_of hist j = NULL -> hist !! S j = None.
Proof.
  intros Hok Hnull Hn. unfold next_of in Hn. destruct (hist !! S j) as [nd|] eqn:E; [|done].
  apply (fo_entry _ _ _ _ _ _ Hok) in E. by rewrite Hn in E.
Qed.

End fifo.

(** The cells of an entry that has, or had, a number. *)
Ltac open_entry nd :=
  iDestruct (number_case with "HH Hhist HM Hq Hnd") as "(%Hj & %en & %HMe & #Hcase)"; [done|];
  iDestruct (ents_acc with "Hents") as "[(Hv & Hp & Hg) Hents]"; [eassumption|].
Ltac close_entry en HMe :=
  iDestruct ("Hents" $! en with "[$Hv $Hp $Hg]") as "Hents"; rewrite (insert_id _ _ _ HMe).

(** ** Reading *)

Section reading.
Context `{!ckGS Σ, !fifoGS Σ}.
Context (fifo : Z).
Implicit Types (γ : fifo_name) (hist : list node) (nd : node) (en : ent) (e v : Z) (H T k j : nat) (M : gmap Z ent).

Lemma fifo_read_tail_generation γ γo :
  {{{ fifo_inv fifo γ γo }}} ck_pr_load (tail_generation fifo) {{{ T, RET Z.of_nat T; tail_past γ T }}}.
Proof.
  iIntros (Φ) "[_ #Hinv] HΦ". open_fifo. iDestruct (mono_nat_lb_own_get with "HT") as "#Hlb".
  wp_load "Htg". iModIntro. iSplitR "HΦ"; [close_fifo hist H T k M|by iApply "HΦ"].
Qed.

Lemma fifo_read_head_generation γ γo :
  {{{ fifo_inv fifo γ γo }}} ck_pr_load (head_generation fifo) {{{ H, RET Z.of_nat H; head_past γ H }}}.
Proof.
  iIntros (Φ) "[_ #Hinv] HΦ". open_fifo. iDestruct (mono_nat_lb_own_get with "HH") as "#Hlb".
  wp_load "Hhg". iModIntro. iSplitR "HΦ"; [close_fifo hist H T k M|by iApply "HΦ"].
Qed.

Lemma fifo_read_head γ γo H0 :
  {{{ fifo_inv fifo γ γo ∗ head_past γ H0 }}} ck_pr_load (head_pointer fifo)
  {{{ H nd, RET nd_entry nd; numbered γ H nd ∗ head_past γ H ∗ ⌜(H0 <= H)%nat⌝ }}}.
Proof.
  iIntros (Φ) "[[_ #Hinv] #H0] HΦ". open_fifo. iDestruct (mono_nat_lb_own_get with "HH") as "#Hlb".
  iDestruct (mono_nat_lb_own_valid with "HH H0") as %[_ Hle].
  iDestruct (hist_get with "Hhist") as "#Hnd"; [exact Hhd|].
  wp_load "Hhp". iModIntro. iSplitR "HΦ"; [close_fifo hist H T k M|]. iApply "HΦ". by iFrame "#".
Qed.

Lemma fifo_read_tail γ γo T0 H0 :
  {{{ fifo_inv fifo γ γo ∗ tail_past γ T0 ∗ head_past γ H0 }}} ck_pr_load (tail_pointer fifo)
  {{{ T nd, RET nd_entry nd; numbered γ T nd ∗ tail_past γ T ∗ ⌜(T0 <= T)%nat /\ (H0 <= T)%nat⌝ }}}.
Proof.
  iIntros (Φ) "([_ #Hinv] & #T0 & #H0) HΦ". open_fifo. iDestruct (mono_nat_lb_own_get with "HT") as "#Hlb".
  iDestruct (mono_nat_lb_own_valid with "HH H0") as %[_ HleH].
  iDestruct (mono_nat_lb_own_valid with "HT T0") as %[_ HleT].
  iDestruct (hist_get with "Hhist") as "#Hnd"; [exact Htl|]. pose proof (fo_head _ _ _ _ _ _ Hok).
  wp_load "Htp". iModIntro. iSplitR "HΦ"; [close_fifo hist H T k M|]. iApply "HΦ". iFrame "#".
  iPureIntro. lia.
Qed.

Lemma fifo_read_next_generation γ γo j nd :
  {{{ fifo_inv fifo γ γo ∗ numbered γ j nd }}} ck_pr_load (next_generation (nd_entry nd))
  {{{ ng, RET ng; seen_gen γ j (nd_gen nd) ng }}}.
Proof.
  iIntros (Φ) "[[_ #Hinv] #Hnd] HΦ". open_fifo. open_entry nd.
  iAssert (seen_gen γ j (nd_gen nd) (en_gen en)) as "#Hseen".
  { iDestruct "Hcase" as "[[Hc _]|[%Hle ->]]"; [by iLeft|]. rewrite /seen_gen /queued /gen_of /=.
    destruct (hist !! S j) as [nd'|] eqn:E; [|iRight; iLeft; iPureIntro; f_equal; lia].
    iRight. iRight. iExists nd'. by iApply (hist_get with "Hhist"). }
  wp_load "Hg". close_entry en HMe. iModIntro. iSplitR "HΦ"; [close_fifo hist H T k M|]. by iApply "HΦ".
Qed.

(** What the pointer of an entry with number [j] tells. *)
Lemma seen_next_intro γ hist j nd en :
  (head_past γ (S j) ∨ ⌜en = queued hist j nd⌝) -∗ hist_auth (fn_hist γ) hist -∗ seen_next γ j (en_ptr en).
Proof.
  iIntros "[Hc|->] Hhist"; [by iLeft|]. rewrite /seen_next /queued /next_of /=.
  destruct (hist !! S j) as [nd'|] eqn:E; [|by iRight; iLeft].
  iRight. iRight. iExists nd'. iSplit; [|done]. by iApply (hist_get with "Hhist").
Qed.

Lemma fifo_read_next γ γo j nd ng :
  {{{ fifo_inv fifo γ γo ∗ numbered γ j nd ∗ seen_gen γ j (nd_gen nd) ng }}} ck_pr_load (next_pointer (nd_entry nd))
  {{{ np, RET np; seen_both γ j (nd_gen nd) ng np }}}.
Proof.
  iIntros (Φ) "([[%Hnull _] #Hinv] & #Hnd & #Hng) HΦ". open_fifo. open_entry nd.
  iAssert (seen_both γ j (nd_gen nd) ng (en_ptr en)) as "#Hseen".
  { iDestruct "Hcase" as "[[Hc _]|[%Hle ->]]"; [by iLeft|]. rewrite /seen_both /queued /next_of /=.
    destruct (hist !! S j) as [nd'|] eqn:E.
    - iRight. iRight. iExists nd'. iSplit; [by iApply (hist_get with "Hhist")|]. iPureIntro. split; [done|].
      apply (fo_entry _ _ _ _ _ _ Hok) in E. intros Heq. by rewrite Heq in E.
    - iDestruct "Hng" as "[Hc|[->|(%nd' & Hnd')]]"; [by iLeft|by iRight; iLeft|].
      iDestruct (hist_lookup with "Hhist Hnd'") as %E'. congruence. }
  wp_load "Hp". close_entry en HMe. iModIntro. iSplitR "HΦ"; [close_fifo hist H T k M|]. by iApply "HΦ".
Qed.

Lemma fifo_read_value γ γo j np :
  {{{ fifo_inv fifo γ γo ∗ seen_next γ j np ∗ ⌜np ∈ fn_entries γ⌝ }}} ck_pr_load (entry_value np)
  {{{ x, RET x; seen_value γ j np x }}}.
Proof.
  iIntros (Φ) "([[%Hnull _] #Hinv] & #Hnp & %Hin) HΦ". open_fifo.
  pose proof Hin as Hdom. rewrite -(fo_dom _ _ _ _ _ _ Hok) in Hdom. apply elem_of_dom in Hdom as [en HMe].
  iAssert (seen_value γ j np (en_value en)) as "#Hseen".
  { iDestruct "Hnp" as "[Hc|[->|(%nd & Hnd & ->)]]"; [by iLeft|done|].
    destruct (decide (H <= j)%nat) as [Hle|Hlt].
    - iDestruct (hist_lookup with "Hhist Hnd") as %E.
      iDestruct (queue_lookup with "Hq HM") as %HM'; [exact E|lia|]. rewrite HMe in HM'. simplify_eq.
      iRight. iExists nd. by iFrame "#".
    - iLeft. iDestruct (mono_nat_lb_own_get with "HH") as "Hlb". iApply (mono_nat_lb_own_le with "Hlb"). lia. }
  iDestruct (ents_acc with "Hents") as "[(Hv & Hp & Hg) Hents]"; [exact HMe|].
  wp_load "Hv". close_entry en HMe. iModIntro. iSplitR "HΦ"; [close_fifo hist H T k M|]. by iApply "HΦ".
Qed.
End reading.
