(* ===== verification/FifoMpmcSteps.v ===== *)
(** The queue for many producers and consumers: the atomic steps that change it or
    answer an operation. *)

From S2P Require Export FifoMpmcProof.
Set Warnings "-rewrite-rw".

Section steps.
Context `{!ckGS Σ, !fifoGS Σ}.
Context (fifo : Z).
Implicit Types (γ : fifo_name) (hist : list node) (nd : node) (en : ent) (e v : Z) (H T k j : nat) (M : gmap Z ent).

Abbreviation shift γo P := (lin_shift (O:=fifo_object fifo) γo P).

(** ** The snapshot of an enqueue *)

(** What the snapshot tells if the generation of the tail is still [j]. *)
Definition linked γ j (g : nat) (ng np : Z) : iProp Σ :=
  ⌜np = NULL /\ ng = Z.of_nat g⌝ ∨ ∃ nd, numbered γ (S j) nd ∗ ⌜np = nd_entry nd /\ np <> NULL⌝.

Lemma fifo_recheck_tail γ γo j g ng np :
  {{{ fifo_inv fifo γ γo ∗ tail_past γ j ∗ seen_both γ j g ng np }}} ck_pr_load (tail_generation fifo)
  {{{ T, RET Z.of_nat T; ⌜(j <= T)%nat⌝ ∗ (⌜j = T⌝ → linked γ j g ng np) }}}.
Proof.
  iIntros (Φ) "([_ #Hinv] & #Hj & #Hseen) HΦ". open_fifo.
  iDestruct (mono_nat_lb_own_valid with "HT Hj") as %[_ Hle]. pose proof (fo_head _ _ _ _ _ _ Hok).
  iAssert (⌜j = T⌝ → linked γ j g ng np)%I as "#Hpost".
  { iIntros (->). iDestruct "Hseen" as "[Hc|Hseen]"; [|done].
    iDestruct (mono_nat_lb_own_valid with "HH Hc") as %[_ Hlt]. lia. }
  wp_load "Htg". iModIntro. iSplitR "HΦ"; [close_fifo hist H T k M|]. iApply "HΦ". by iFrame "#".
Qed.

(** ** The snapshot of a dequeue *)

(** The queue is empty when the entry of the head has no successor; what a thread
    has after it read [NULL] there. *)
Definition maybe_empty γ j (P : list fifo_event -> iProp Σ) evs : iProp Σ :=
  (head_past γ (S j) ∗ P evs) ∨ P (evs ++ [FDeq None]).

Lemma contents_empty hist H : hist !! S H = None -> contents hist H = [].
Proof. intros Hn. rewrite /contents drop_ge //. by apply lookup_ge_None. Qed.

Lemma fifo_read_successor γ γo P evs H1 T1 n1 n2 :
  fifo_inv fifo γ γo -∗ shift γo P -∗ numbered γ H1 n1 -∗ head_past γ H1 -∗
  (⌜nd_entry n1 = nd_entry n2⌝ → numbered γ T1 n2) -∗ P evs -∗
  WP ck_pr_load (next_pointer (nd_entry n1)) {{ np,
    ⌜np = NULL \/ np ∈ fn_entries γ⌝ ∗ seen_next γ H1 np ∗ (⌜nd_entry n1 = nd_entry n2⌝ → seen_next γ T1 np) ∗
    if np =? NULL then maybe_empty γ H1 P evs else P evs }}.
Proof.
  iIntros "[[%Hnull _] #Hinv] #Hshift #Hnd #H1 #Hn2 HP". open_fifo.
  iDestruct (number_case with "HH Hhist HM Hq Hnd") as "(%Hj & %en & %HMe & #Hcase)"; [done|].
  iDestruct (mono_nat_lb_own_valid with "HH H1") as %[_ HleH].
  iAssert (seen_next γ H1 (en_ptr en)) as "#Hs1".
  { iApply (seen_next_intro γ hist H1 n1 with "[] Hhist"). iDestruct "Hcase" as "[[H _]|[_ H]]"; auto. }
  iAssert (⌜nd_entry n1 = nd_entry n2⌝ → seen_next γ T1 (en_ptr en))%I as "#Hs2".
  { iIntros (Heq). iDestruct ("Hn2" with "[//]") as "Hnd2".
    iDestruct (number_case with "HH Hhist HM Hq Hnd2") as "(%Hj2 & %en2 & %HMe2 & #Hcase2)"; [done|].
    rewrite -Heq HMe in HMe2. simplify_eq. iApply (seen_next_intro γ hist T1 n2 with "[] Hhist").
    iDestruct "Hcase2" as "[[H _]|[_ H]]"; auto. }
  assert (en_ptr en = NULL \/ en_ptr en ∈ fn_entries γ) as Hptr.
  { apply (fo_ptr _ _ _ _ _ _ Hok _ _ HMe).
    pose proof (fo_bound _ _ _ _ _ _ Hok _ _ _ _ HMe Hj eq_refl). lia. }
  iAssert (|={⊤ ∖ ↑fifoN}=> ghost_var γo (1/2) (contents hist H) ∗
    if en_ptr en =? NULL then maybe_empty γ H1 P evs else P evs)%I with "[Habs HP]" as ">[Habs HP]".
  { destruct (Z.eqb_spec (en_ptr en) NULL) as [Hn|]; [|by iFrame].
    iDestruct "Hcase" as "[[Hc _]|[%Hle ->]]"; [iModIntro; iFrame; iLeft; by iFrame|].
    apply (next_of_entry γ hist H T k M H1 Hok) in Hn; [|done].
    replace H1 with H in Hn |- * by lia. rewrite contents_empty //.
    iMod ("Hshift" $! evs (FDeq None) [] [] with "[//] Habs HP") as "[$ HP]". by iRight. }
  iDestruct (ents_acc with "Hents") as "[(Hv & Hp & Hg) Hents]"; [exact HMe|].
  wp_load "Hp". close_entry en HMe. iModIntro. iSplitR "HP"; [close_fifo hist H T k M|]. by iFrame "#∗".
Qed.

(** The generation of the head decides whether it was. *)
Lemma fifo_recheck_head γ γo H0 H1 P evs :
  (H0 <= H1)%nat ->
  {{{ fifo_inv fifo γ γo ∗ head_past γ H1 ∗ maybe_empty γ H1 P evs }}} ck_pr_load (head_generation fifo)
  {{{ H, RET Z.of_nat H; if (H =? H0)%nat then P (evs ++ [FDeq None]) else P evs ∨ P (evs ++ [FDeq None]) }}}.
Proof.
  iIntros (Hle Φ) "([_ #Hinv] & #H1 & HP) HΦ". open_fifo.
  iDestruct (mono_nat_lb_own_valid with "HH H1") as %[_ Hle1].
  iAssert (mono_nat_auth_own (fn_head γ) 1 H ∗
    if (H =? H0)%nat then P (evs ++ [FDeq None]) else P evs ∨ P (evs ++ [FDeq None]))%I with "[HP HH]" as "[HH HP]".
  { destruct (Nat.eqb_spec H H0) as [->|].
    - iDestruct "HP" as "[[Hc _]|$]"; [|done].
      iDestruct (mono_nat_lb_own_valid with "HH Hc") as %[_ Hlt]. lia.
    - iFrame. iDestruct "HP" as "[[_ HP]|HP]"; auto. }
  wp_load "Hhg". iModIntro. iSplitR "HP HΦ"; [close_fifo hist H T k M|]. by iApply "HΦ".
Qed.

(** ** The owner of an entry writes it *)

Lemma ok_write γ hist H T k M e en en' :
  fifo_ok γ hist H T k M -> M !! e = Some en -> en_bound en' = en_bound en ->
  (∀ j nd, hist !! j = Some nd -> nd_entry nd = e -> (j < H)%nat -> Z.of_nat (nd_gen nd) < en_gen en') ->
  (en_ptr en' = NULL \/ en_ptr en' = en_ptr en) ->
  fifo_ok γ hist H T k (<[e := en']> M).
Proof.
  intros Hok HMe Hb Hg Hp. destruct Hok; split; try done.
  - rewrite dom_insert_L. apply elem_of_dom_2 in HMe. set_solver.
  - intros e' en1 j nd. rewrite lookup_insert_Some. intros [[<- <-]|[_ H1]]; [rewrite Hb|]; eauto.
  - intros e' en1 j nd. rewrite lookup_insert_Some. intros [[<- <-]|[_ H1]]; eauto.
  - intros e' en1. rewrite lookup_insert_Some. intros [[<- <-]|[_ H1]]; [rewrite Hb|]; eauto.
  - intros e' en1. rewrite lookup_insert_Some. intros [[<- <-]|[_ H1]]; [rewrite Hb|by eauto].
    intros Hb'. destruct Hp as [->| ->]; eauto.
Qed.

(** Open the cells of an entry for its owner. *)
Ltac open_owned en :=
  open_fifo; iDestruct (owned_free with "Hq HM Ho") as %(HMe & Hbound & Hout); [done|];
  iDestruct (ents_acc with "Hents") as "[(Hv & Hp & Hg) Hents]"; [eassumption|];
  iMod (ghost_map_update en with "HM Ho") as "[HM Ho]".
Ltac close_owned γ hist H T k M e en :=
  iDestruct ("Hents" $! en with "[$Hv $Hp $Hg]") as "Hents";
  iModIntro; iSplitR "HΦ Ho"; [|by iApply "HΦ"];
  assert (fifo_ok γ hist H T k (<[e := en]> M)) as Hok';
    [eapply ok_write; [done|eassumption|done|..]|close_fifo hist H T k (<[e := en]> M)].

Lemma fifo_write_value γ γo e en v :
  {{{ fifo_inv fifo γ γo ∗ owned γ e en }}} st (entry_value e) v
  {{{ RET tt; owned γ e (Ent v (en_ptr en) (en_gen en) (en_bound en)) }}}.
Proof.
  iIntros (Φ) "[[_ #Hinv] Ho] HΦ". set (en' := Ent _ _ _ _). open_owned en'.
  wp_store "Hv". close_owned γ hist H T k M e en'; [|by right].
  intros. by eapply (fo_past _ _ _ _ _ _ Hok e en).
Qed.

Lemma fifo_write_next γ γo e en :
  {{{ fifo_inv fifo γ γo ∗ owned γ e en }}} st (next_pointer e) NULL
  {{{ RET tt; owned γ e (Ent (en_value en) NULL (en_gen en) (en_bound en)) }}}.
Proof.
  iIntros (Φ) "[[_ #Hinv] Ho] HΦ". set (en' := Ent _ _ _ _). open_owned en'.
  wp_store "Hp". close_owned γ hist H T k M e en'; [|by left].
  intros. by eapply (fo_past _ _ _ _ _ _ Hok e en).
Qed.

(** The generation that a new entry starts with: no earlier one of its generations. *)
Lemma fifo_fresh_generation γ γo e en :
  {{{ fifo_inv fifo γ γo ∗ owned γ e en }}} ck_pr_load (tail_generation fifo)
  {{{ t, RET Z.of_nat t; owned γ e en ∗ tail_past γ t ∗ ⌜(en_bound en <= t)%nat⌝ }}}.
Proof.
  iIntros (Φ) "[[_ #Hinv] Ho] HΦ". open_fifo.
  iDestruct (owned_free with "Hq HM Ho") as %(HMe & Hbound & Hout); [done|].
  iDestruct (mono_nat_lb_own_get with "HT") as "#Hlb". pose proof (fo_head _ _ _ _ _ _ Hok).
  wp_load "Htg". iModIntro. iSplitR "HΦ Ho"; [close_fifo hist H T k M|]. iApply "HΦ". iFrame "#∗".
  iPureIntro. lia.
Qed.

Lemma fifo_write_generation γ γo e en t :
  (en_bound en <= t)%nat ->
  {{{ fifo_inv fifo γ γo ∗ owned γ e en }}} st (next_generation e) (Z.of_nat t)
  {{{ RET tt; owned γ e (Ent (en_value en) (en_ptr en) (Z.of_nat t) (en_bound en)) }}}.
Proof.
  iIntros (Ht Φ) "[[_ #Hinv] Ho] HΦ". set (en' := Ent _ _ _ _). open_owned en'.
  wp_store "Hg". close_owned γ hist H T k M e en'; [|by right].
  intros j nd Hj He _. simpl.
  pose proof (fo_gen _ _ _ _ _ _ Hok j nd Hj). pose proof (fo_bound _ _ _ _ _ _ Hok _ _ _ _ HMe Hj He). lia.
Qed.

(** ** The tail moves on *)

Lemma numbers_small γ hist H T k M j nd :
  fifo_ok γ hist H T k M -> Z.of_nat (fn_total γ) < 2 ^ 64 -> hist !! S j = Some nd ->
  u64 (Z.of_nat j + 1) = Z.of_nat (S j).
Proof.
  intros Hok Htot Hj%lookup_lt_Some. pose proof (fo_total _ _ _ _ _ _ Hok).
  change (2 ^ 64) with 18446744073709551616 in Htot. rewrite /u64 Z.mod_small; lia.
Qed.

Lemma ok_tail γ hist H T k M : fifo_ok γ hist H T k M -> (S T < length hist)%nat -> fifo_ok γ hist H (S T) k M.
Proof. intros [] Hlt. split; try done; lia. Qed.

Lemma fifo_cas_tail γ γo T0 T1 tp np :
  (T0 <= T1)%nat -> np <> NULL ->
  fifo_inv fifo γ γo -∗ tail_past γ T1 -∗ (∀ tl, ⌜tp = nd_entry tl⌝ -∗ numbered γ T1 tl -∗ seen_next γ T1 np) -∗
  WP ck_pr_cas_2 (tail_pointer fifo) tp (Z.of_nat T0) np (u64 (Z.of_nat T0 + 1)) {{ _, True }}.
Proof.
  iIntros (Hle Hne) "[[_ %Htot] #Hinv] #HT1 Hnp". open_fifo.
  iDestruct (mono_nat_lb_own_valid with "HT HT1") as %[_ HleT].
  change (tail_generation fifo) with (tail_pointer fifo + 1).
  destruct ((nd_entry tl =? tp) && (Z.of_nat T =? Z.of_nat T0)) eqn:Hcas.
  - apply andb_true_iff in Hcas as [<-%Z.eqb_eq HTT%Z.eqb_eq].
    assert (T = T0) as -> by lia. assert (T1 = T0) as -> by lia.
    iDestruct (hist_get with "Hhist") as "#Htl"; [exact Htl|].
    iDestruct ("Hnp" $! tl with "[//] Htl") as "[Hc|[->|(%nd & Hnd & ->)]]"; [|done|].
    { iDestruct (mono_nat_lb_own_valid with "HH Hc") as %[_ Hlt]. pose proof (fo_head _ _ _ _ _ _ Hok). lia. }
    iDestruct (hist_lookup with "Hhist Hnd") as %Hnd.
    iMod (mono_nat_own_update (S T0) with "HT") as "[HT _]"; [lia|].
    iApply (wp_cas2_gen with "[$Htp $Htg]"). iIntros "!> [Htp Htg]". rewrite !Z.eqb_refl /=.
    rewrite (numbers_small γ hist H T0 k M T0 nd) //. pose proof (ok_tail _ _ _ _ _ _ Hok (lookup_lt_Some _ _ _ Hnd)).
    iModIntro. iSplitL; [|done]. close_fifo hist H (S T0) k M.
  - iApply (wp_cas2_gen with "[$Htp $Htg]"). iIntros "!> [Htp Htg]". rewrite Hcas.
    iModIntro. iSplitL; [|done]. close_fifo hist H T k M.
Qed.

(** ** The head moves on: an entry is dequeued *)

Lemma ok_pop γ hist H T k M hd :
  fifo_ok γ hist H T k M -> (S H <= T)%nat -> hist !! H = Some hd ->
  M !! nd_entry hd = Some (queued hist H hd) -> fifo_ok γ hist (S H) T k M.
Proof.
  intros Hok HT Hhd HMe. pose proof (fo_tail _ _ _ _ _ _ Hok) as Htail.
  destruct (lookup_lt_is_Some_2 hist (S H)) as [n2 Hn2]; [lia|].
  destruct Hok; split; try done.
  - intros e en j nd He Hj Hnd Hlt. destruct (decide (j = H)) as [->|Hne].
    + simplify_eq. rewrite /queued /gen_of /= Hn2. lia.
    + eapply fo_past; eauto; lia.
  - intros e en He. destruct (fo_free e en He) as [Hb|(j & nd & Hj & Hnd & Hle)]; [left; lia|].
    destruct (decide (j = H)) as [->|Hne]; [left; by simplify_eq|right; exists j, nd; split_and!; [done..|lia]].
Qed.

Lemma in_queue_pop γ hist H hd :
  hist !! H = Some hd ->
  in_queue γ hist H ⊣⊢ owned γ (nd_entry hd) (queued hist H hd) ∗ in_queue γ hist (S H).
Proof.
  intros Hhd. rewrite /in_queue (drop_S _ _ _ Hhd) /= Nat.add_0_r. f_equiv.
  apply big_sepL_proper. intros i nd _. by rewrite Nat.add_succ_r.
Qed.

Lemma contents_pop hist H nd : hist !! S H = Some nd -> contents hist H = nd_value nd :: contents hist (S H).
Proof. intros Hnd. by rewrite /contents (drop_S _ _ _ Hnd). Qed.

Lemma fifo_cas_head γ γo P evs H0 H1 T1 n1 n2 np x :
  (H0 <= H1)%nat -> (H1 <= T1)%nat -> np <> NULL -> nd_entry n1 <> nd_entry n2 ->
  fifo_inv fifo γ γo -∗ shift γo P -∗ head_past γ H1 -∗ tail_past γ T1 -∗
  numbered γ H1 n1 -∗ numbered γ T1 n2 -∗ seen_next γ H1 np -∗ seen_value γ H1 np x -∗ P evs -∗
  WP ck_pr_cas_2 (head_pointer fifo) (nd_entry n1) (Z.of_nat H0) np (u64 (Z.of_nat H0 + 1)) {{ r,
    if r : bool then P (evs ++ [FDeq (Some x)]) ∗ ⌜nd_entry n1 ∈ fn_entries γ⌝ ∗ ∃ en, owned γ (nd_entry n1) en
    else P evs }}.
Proof.
  iIntros (HH HT1 Hne Hn) "[[%Hnull %Htot] #Hinv] #Hshift #H1 #T1 #Hn1 #Hn2 #Hnp #Hx HP". open_fifo.
  iDestruct (mono_nat_lb_own_valid with "HH H1") as %[_ HleH].
  iDestruct (mono_nat_lb_own_valid with "HT T1") as %[_ HleT].
  change (head_generation fifo) with (head_pointer fifo + 1).
  destruct ((nd_entry hd =? nd_entry n1) && (Z.of_nat H =? Z.of_nat H0)) eqn:Hcas.
  - apply andb_true_iff in Hcas as [Hhd1%Z.eqb_eq HHH%Z.eqb_eq].
    assert (H = H0) as -> by lia. assert (H1 = H0) as -> by lia.
    iDestruct (hist_lookup with "Hhist Hn1") as %Hn1. iDestruct (hist_lookup with "Hhist Hn2") as %Hn2.
    rewrite Hhd in Hn1. simplify_eq.
    iAssert ⌜∃ nd, hist !! S H0 = Some nd /\ np = nd_entry nd /\ x = nd_value nd⌝%I as %(nd & Hnd & -> & ->).
    { iDestruct "Hx" as "[Hc|(%nd & Hnd & %Hnd)]".
      - iDestruct (mono_nat_lb_own_valid with "HH Hc") as %[_ Hlt]. lia.
      - iDestruct (hist_lookup with "Hhist Hnd") as %E. iPureIntro. by exists nd. }
    assert (S H0 <= T)%nat as HltT.
    { destruct (decide (T1 = H0)) as [->|]; [|lia]. simplify_eq. }
    iDestruct (queue_lookup with "Hq HM") as %HMe; [exact Hhd|done|].
    iMod ("Hshift" $! evs (FDeq (Some (nd_value nd))) with "[%] Habs HP") as "[Habs HP]".
    { exact (contents_pop _ _ _ Hnd). }
    iMod (mono_nat_own_update (S H0) with "HH") as "[HH _]"; [lia|].
    rewrite (in_queue_pop γ hist H0 n1) //. iDestruct "Hq" as "[Ho Hq]".
    iApply (wp_cas2_gen with "[$Hhp $Hhg]"). iIntros "!> [Hhp Hhg]". rewrite !Z.eqb_refl /=.
    rewrite (numbers_small γ hist H0 T k M H0 nd) //. pose proof (ok_pop _ _ _ _ _ _ _ Hok HltT Hhd HMe).
    pose proof (fo_entry _ _ _ _ _ _ Hok _ _ Hhd). iModIntro. iSplitR "HP Ho"; [close_fifo hist (S H0) T k M|].
    by iFrame.
  - iApply (wp_cas2_gen with "[$Hhp $Hhg]"). iIntros "!> [Hhp Hhg]". cbn [fst snd]. rewrite Hcas.
    iModIntro. iSplitR "HP"; [close_fifo hist H T k M|done].
Qed.

(** ** An entry is linked behind the last one *)

Lemma next_of_snoc hist x j : (S j < length hist)%nat -> next_of (hist ++ [x]) j = next_of hist j.
Proof. intros. by rewrite /next_of lookup_app_l. Qed.

Lemma gen_of_snoc hist x j nd : (S j < length hist)%nat -> gen_of (hist ++ [x]) j nd = gen_of hist j nd.
Proof. intros. by rewrite /gen_of lookup_app_l. Qed.

Lemma queued_snoc hist x j nd : (S j < length hist)%nat -> queued (hist ++ [x]) j nd = queued hist j nd.
Proof. intros. by rewrite /queued next_of_snoc // gen_of_snoc. Qed.

Lemma in_queue_last γ l nd H :
  (H <= length l)%nat ->
  in_queue γ (l ++ [nd]) H ⊣⊢
    ([∗ list] i ↦ n ∈ drop H l, owned γ (nd_entry n) (queued (l ++ [nd]) (H + i) n)) ∗
    owned γ (nd_entry nd) (queued (l ++ [nd]) (length l) nd).
Proof.
  intros HH. rewrite /in_queue drop_app_le // big_sepL_app /= length_drop Nat.add_0_r.
  replace (H + (length l - H))%nat with (length l) by lia. by rewrite right_id.
Qed.

(** The history and the entries after the link. *)
Definition hist_link hist e v (t : nat) : list node := hist ++ [Node e v t].

Lemma lookup_link hist i e v t nd : hist !! i = Some nd -> hist_link hist e v t !! i = Some nd.
Proof. apply lookup_app_l_Some. Qed.

Definition ents_link hist j nd e v (t : nat) M : gmap Z ent :=
  let hist' := hist_link hist e v t in
  <[e := queued hist' (S j) (Node e v t)]> (<[nd_entry nd := queued hist' j nd]> M).

Lemma queue_link γ hist H M j nd e v t en :
  hist !! j = Some nd -> length hist = S j -> (H <= j)%nat ->
  in_queue γ hist H -∗ ghost_map_auth (fn_ents γ) 1 M -∗ owned γ e en ==∗
  in_queue γ (hist_link hist e v t) H ∗ ghost_map_auth (fn_ents γ) 1 (ents_link hist j nd e v t M).
Proof.
  iIntros (Hj Hlen HH) "Hq HM Ho". rewrite /ents_link /=.
  destruct (exists_last (l:=hist)) as (l & nd' & ->); [intros Hnil; by rewrite Hnil in Hlen|].
  rewrite length_app /= Nat.add_1_r in Hlen. injection Hlen as <-.
  assert (nd' = nd) as -> by (rewrite list_lookup_middle // in Hj; congruence).
  rewrite in_queue_last; [|lia]. iDestruct "Hq" as "[Hq Hnd]".
  set (new := Node e v t). set (hist' := hist_link (l ++ [nd]) e v t).
  iMod (ghost_map_update (queued hist' (length l) nd) with "HM Hnd") as "[HM Hnd]".
  iMod (ghost_map_update (queued hist' (S (length l)) new) with "HM Ho") as "[$ Ho]".
  iModIntro. rewrite /hist' /hist_link in_queue_last; [|rewrite length_app /=; lia].
  rewrite drop_app_le // big_sepL_app /= !length_drop !length_app /= Nat.add_0_r.
  replace (H + (length l - H))%nat with (length l) by lia.
  replace (length l + 1)%nat with (S (length l)) by lia. iFrame.
  iApply (big_sepL_impl with "Hq"). iIntros "!>" (i n Hi) "Hn".
  apply lookup_lt_Some in Hi. rewrite length_drop in Hi.
  rewrite (queued_snoc (l ++ [nd])) // length_app /=. lia.
Qed.

Lemma ok_link γ hist H T k M j nd e v t en :
  fifo_ok γ hist H T (S k) M -> hist !! j = Some nd -> length hist = S j -> (j <= T)%nat ->
  M !! nd_entry nd = Some (queued hist j nd) ->
  M !! e = Some en -> en_gen en = Z.of_nat t -> (en_bound en <= t)%nat -> (t <= T)%nat ->
  (∀ i n, hist !! i = Some n -> (H <= i)%nat -> nd_entry n <> e) ->
  fifo_ok γ (hist_link hist e v t) H T k (ents_link hist j nd e v t M).
Proof.
  intros Hok Hj Hlen HjT HMnd HMe Hg Hb Ht Hout. unfold ents_link, hist_link.
  pose proof (fo_tail _ _ _ _ _ _ Hok). pose proof (fo_head _ _ _ _ _ _ Hok).
  pose proof (fo_lag _ _ _ _ _ _ Hok). pose proof (fo_total _ _ _ _ _ _ Hok).
  assert (e ∈ fn_entries γ) as Hin by (rewrite -(fo_dom _ _ _ _ _ _ Hok); by eapply elem_of_dom_2).
  assert (nd_entry nd <> e) as Hne by (eapply Hout; [done|lia]).
  assert ((hist ++ [Node e v t]) !! S j = Some (Node e v t)) as Hnew.
  { rewrite -Hlen. by apply list_lookup_middle. }
  assert (∀ i n, (hist ++ [Node e v t]) !! i = Some n -> hist !! i = Some n \/ i = S j /\ n = Node e v t) as Hcases.
  { intros i n [Hi|Hi]%lookup_snoc_Some; [left; tauto|right]. destruct Hi as [-> <-]. by rewrite Hlen. }
  split.
  - done.
  - rewrite length_app /=. lia.
  - rewrite length_app /=. lia.
  - rewrite length_app /=. lia.
  - intros i n [Hi|[-> ->]]%Hcases; [by apply (fo_gen _ _ _ _ _ _ Hok)|simpl; lia].
  - intros i n [Hi|[-> ->]]%Hcases; [by eapply (fo_entry _ _ _ _ _ _ Hok)|done].
  - rewrite !dom_insert_L (fo_dom _ _ _ _ _ _ Hok). apply elem_of_dom_2 in HMnd.
    rewrite (fo_dom _ _ _ _ _ _ Hok) in HMnd. set_solver.
  - intros e' en' i n HM' Hi He'. apply Hcases in Hi. rewrite !lookup_insert_Some in HM'.
    destruct HM' as [[<- <-]|[Hne1 [[<- <-]|[Hne2 HM']]]]; simpl.
    + destruct Hi as [Hi|[-> ->]]; [|lia]. apply lookup_lt_Some in Hi. lia.
    + destruct Hi as [Hi|[-> ->]]; [|done]. apply lookup_lt_Some in Hi. lia.
    + destruct Hi as [Hi|[-> ->]]; [|done]. by eapply (fo_bound _ _ _ _ _ _ Hok).
  - intros e' en' i n HM' Hi He' Hlt. apply Hcases in Hi as [Hi|[-> _]]; [|lia].
    rewrite !lookup_insert_Some in HM'.
    destruct HM' as [[<- <-]|[Hne1 [[<- <-]|[Hne2 HM']]]].
    + pose proof (fo_gen _ _ _ _ _ _ Hok i n Hi). pose proof (fo_bound _ _ _ _ _ _ Hok _ _ _ _ HMe Hi He').
      rewrite /= /gen_of /=. lia.
    + pose proof (fo_past _ _ _ _ _ _ Hok _ _ _ _ HMnd Hi He' Hlt) as Hp.
      rewrite /queued /gen_of /= in Hp |- *. rewrite Hnew. rewrite (lookup_ge_None_2 hist (S j)) in Hp; lia.
    + by eapply (fo_past _ _ _ _ _ _ Hok).
  - intros e' en' HM'. rewrite !lookup_insert_Some in HM'.
    destruct HM' as [[<- <-]|[Hne1 [[<- <-]|[Hne2 HM']]]].
    + right. exists (S j), (Node e v t). split_and!; [done|done|lia].
    + right. exists j, nd. split_and!; [by apply lookup_app_l_Some|done|lia].
    + destruct (fo_free _ _ _ _ _ _ Hok _ _ HM') as [?|(i & n & Hi & ? & ?)]; [by left|].
      right. exists i, n. split_and!; [by apply lookup_app_l_Some|done|done].
  - intros e' en' HM' Hb'. rewrite !lookup_insert_Some in HM'.
    destruct HM' as [[<- <-]|[Hne1 [[<- <-]|[Hne2 HM']]]]; simpl.
    + left. rewrite /next_of lookup_ge_None_2 // length_app /=. lia.
    + right. by rewrite /next_of Hnew.
    + by eapply (fo_ptr _ _ _ _ _ _ Hok).
Qed.

Lemma contents_link hist H e v t : (H < length hist)%nat -> contents (hist_link hist e v t) H = contents hist H ++ [v].
Proof. intros. rewrite /contents /hist_link drop_app_le //. by rewrite fmap_app. Qed.

(** The cells of the two entries. *)
Lemma ents_relabel M e en en' :
  M !! e = Some en -> (en_value en, en_ptr en, en_gen en) = (en_value en', en_ptr en', en_gen en') ->
  ([∗ map] e ↦ en ∈ M, ent_cells e en) -∗ [∗ map] e ↦ en ∈ <[e := en']> M, ent_cells e en.
Proof.
  iIntros (He [= Hv Hp Hg]) "Hents". iDestruct (ents_acc with "Hents") as "[He Hents]"; [exact He|].
  iApply "Hents". by rewrite /ent_cells Hv Hp Hg.
Qed.

Lemma link_queued hist j nd e v t :
  length hist = S j -> queued (hist_link hist e v t) j nd = Ent (nd_value nd) e (Z.of_nat (nd_gen nd) + 1) (S j).
Proof.
  intros Hlen. rewrite /queued /next_of /gen_of /hist_link -Hlen list_lookup_middle //. f_equal. lia.
Qed.

Lemma link_queued_new hist j e v t :
  length hist = S j -> queued (hist_link hist e v t) (S j) (Node e v t) = Ent v NULL (Z.of_nat t) (S (S j)).
Proof.
  intros Hlen. rewrite /queued /next_of /gen_of /hist_link lookup_ge_None_2; [|rewrite length_app /=; lia].
  by rewrite /= Nat.add_0_r.
Qed.

Lemma fifo_cas_next γ γo P evs j nd e v t b :
  (b <= t)%nat ->
  fifo_inv fifo γ γo -∗ shift γo P -∗ numbered γ j nd -∗ tail_past γ j -∗ tail_past γ t -∗
  owned γ e (Ent v NULL (Z.of_nat t) b) -∗ credits γ 1 -∗ P evs -∗
  WP ck_pr_cas_2 (next_pointer (nd_entry nd)) NULL (Z.of_nat (nd_gen nd)) e (u64 (Z.of_nat (nd_gen nd) + 1)) {{ r,
    if r : bool then P (evs ++ [FEnq v]) ∗ numbered γ (S j) (Node e v t)
    else owned γ e (Ent v NULL (Z.of_nat t) b) ∗ credits γ 1 ∗ P evs }}.
Proof.
  iIntros (Hb) "[[%Hnull %Htot] #Hinv] #Hshift #Hnd #Hj #Ht Ho Hc HP". open_fifo.
  iDestruct (number_case with "HH Hhist HM Hq Hnd") as "(%Hnd & %en & %HMe & #Hcase)"; [done|].
  iDestruct (mono_nat_lb_own_valid with "HT Hj") as %[_ HjT].
  iDestruct (mono_nat_lb_own_valid with "HT Ht") as %[_ HtT].
  iDestruct (owned_free with "Hq HM Ho") as %(HMe' & Hbound & Hout); [done|].
  iDestruct (ents_acc with "Hents") as "[(Hv & Hp & Hg) Hents]"; [exact HMe|].
  change (next_generation (nd_entry nd)) with (next_pointer (nd_entry nd) + 1).
  destruct ((en_ptr en =? NULL) && (en_gen en =? Z.of_nat (nd_gen nd))) eqn:Hcas.
  - apply andb_true_iff in Hcas as [Hp0%Z.eqb_eq Hg0%Z.eqb_eq].
    iAssert ⌜(H <= j)%nat /\ en = queued hist j nd⌝%I as %[Hle ->].
    { iDestruct "Hcase" as "[[_ %Hlt]|%Hin]"; [|done]. pose proof (fo_past _ _ _ _ _ _ Hok _ _ _ _ HMe Hnd eq_refl Hlt). lia. }
    pose proof (next_of_entry γ hist H T k M j Hok Hnull Hp0) as Hlast%lookup_ge_None.
    pose proof (lookup_lt_Some _ _ _ Hnd). assert (length hist = S j) as Hlen by lia.
    iDestruct (lease_some with "Hcr Hc") as %[k' ->]. iMod (lease_return with "Hcr Hc") as "Hcr".
    iMod ("Hshift" $! evs (FEnq v) _ (contents (hist_link hist e v t) H) with "[%] Habs HP") as "[Habs HP]".
    { rewrite contents_link //. lia. }
    iMod (hist_snoc _ _ (Node e v t) with "Hhist") as "[Hhist #Hnew]". rewrite Hlen.
    iMod (queue_link with "Hq HM Ho") as "[Hq HM]"; [done..|].
    pose proof (ok_link _ _ _ _ _ _ _ _ e v t _ Hok Hnd Hlen HjT HMe HMe' eq_refl Hb HtT Hout) as Hok'.
    pose proof (fo_gen _ _ _ _ _ _ Hok _ _ Hnd). pose proof (fo_total _ _ _ _ _ _ Hok).
    iApply (wp_cas2_gen with "[$Hp $Hg]"). iIntros "!> [Hp Hg]". rewrite Hp0 Hg0 !Z.eqb_refl /=.
    iDestruct ("Hents" $! (queued (hist_link hist e v t) j nd) with "[Hv Hp Hg]") as "Hents".
    { rewrite /ent_cells link_queued //= /u64 Z.mod_small; [by iFrame|].
      change (2 ^ 64) with 18446744073709551616 in Htot. lia. }
    iDestruct (ents_relabel _ e _ (queued (hist_link hist e v t) (S j) (Node e v t)) with "Hents") as "Hents".
    { rewrite lookup_insert_ne //. by eapply Hout. }
    { by rewrite link_queued_new. }
    pose proof (lookup_link hist _ e v t _ Hhd). pose proof (lookup_link hist _ e v t _ Htl).
    iModIntro. iSplitR "HP"; [|by iFrame "#∗"].
    close_fifo (hist_link hist e v t) H T k' (ents_link hist j nd e v t M).
  - iApply (wp_cas2_gen with "[$Hp $Hg]"). iIntros "!> [Hp Hg]". cbn [fst snd]. rewrite Hcas.
    close_entry en HMe. iModIntro. iSplitR "HP Ho Hc"; [close_fifo hist H T k M|iFrame].
Qed.
End steps.
