(* ===== verification/FifoMpmcLin.v ===== *)
(** The queue for many producers and consumers: the specification of each operation,
    from its atomic steps. *)

From iris.algebra Require Import auth numbers.
From S2P Require Export FifoMpmcSteps.
Set Warnings "-rewrite-rw".

Section ops.
Context `{!ckGS Σ, !fifoGS Σ}.
Context (fifo : Z).
Implicit Types (γ : fifo_name) (nd : node) (en : ent) (e v : Z) (P : list fifo_event -> iProp Σ) (evs : list fifo_event).

Abbreviation shift γo P := (lin_shift (O:=fifo_object fifo) γo P).

(** ** Enqueue *)

(** An entry that is ready to be linked. *)
Definition prepared γ e v (t : nat) : iProp Σ :=
  ∃ b, owned γ e (Ent v NULL (Z.of_nat t) b) ∗ ⌜(b <= t)%nat⌝ ∗ tail_past γ t ∗ credits γ 1.

Lemma prepared_owned γ e v t : prepared γ e v t -∗ (∃ en, owned γ e en) ∗ credits γ 1.
Proof. iIntros "(%b & Ho & _ & _ & $)". by iExists _. Qed.

Lemma enqueue_prepare_spec γ γo e en v :
  {{{ fifo_inv fifo γ γo ∗ owned γ e en ∗ credits γ 1 }}} enqueue_prepare fifo e v
  {{{ t, RET tt; prepared γ e v t }}}.
Proof.
  iIntros (Φ) "(#Hinv & Ho & Hc) HΦ". rewrite /enqueue_prepare. wp_focus.
  iApply (fifo_write_value with "[$Hinv $Ho]"). iIntros "!> Ho". wp_focus.
  iApply (fifo_write_next with "[$Hinv $Ho]"). iIntros "!> Ho". wp_focus.
  iApply (fifo_fresh_generation with "[$Hinv $Ho]"). iIntros "!>" (t) "(Ho & #Ht & %Hb)". wp_focus.
  iApply (fifo_write_generation with "[$Hinv $Ho]"); [done|]. iIntros "!> Ho". wp_pures.
  iApply "HΦ". iExists _. by iFrame "∗#".
Qed.

Lemma enqueue_snapshot_spec γ γo :
  {{{ fifo_inv fifo γ γo }}} enqueue_snapshot fifo
  {{{ (T0 T1 T2 : nat) nd np ng, RET (nd_entry nd, Z.of_nat T0, (np, ng), Z.of_nat T2);
      ⌜(T0 <= T1 <= T2)%nat⌝ ∗ numbered γ T1 nd ∗ tail_past γ T1 ∗ (⌜T1 = T2⌝ → linked γ T1 (nd_gen nd) ng np) }}}.
Proof.
  iIntros (Φ) "#Hinv HΦ". rewrite /enqueue_snapshot. wp_focus.
  iMod (mono_nat_lb_own_0 (fn_head γ)) as "#H0".
  iApply (fifo_read_tail_generation with "Hinv"). iIntros "!>" (T0) "#HT0". wp_pures.
  iApply (fifo_read_tail with "[$Hinv $HT0 $H0]"). iIntros "!>" (T1 nd) "(#Hnd & #HT1 & %H01 & _)". wp_focus.
  iApply (fifo_read_next_generation with "[$Hinv $Hnd]"). iIntros "!>" (ng) "#Hng". wp_pures.
  iApply (fifo_read_next with "[$Hinv $Hnd $Hng]"). iIntros "!>" (np) "#Hnp". wp_pures.
  iApply (fifo_recheck_tail with "[$Hinv $HT1 $Hnp]"). iIntros "!>" (T2) "[%H12 #Hl]". wp_pures.
  iApply "HΦ". iFrame "#". iPureIntro. lia.
Qed.

(** One attempt: it links the entry behind the tail, or leaves everything to the next. *)
Definition linked_entry γ P evs e v (tail : Z * Z) : iProp Σ :=
  ∃ (j t : nat) nd, P (evs ++ [FEnq v]) ∗ numbered γ j nd ∗ numbered γ (S j) (Node e v t) ∗ tail_past γ j ∗
    ⌜tail = (nd_entry nd, Z.of_nat j)⌝.

Lemma link_spec γ γo P evs e v t j nd ng :
  ng = Z.of_nat (nd_gen nd) ->
  fifo_inv fifo γ γo -∗ shift γo P -∗ numbered γ j nd -∗ tail_past γ j -∗ P evs -∗ prepared γ e v t -∗
  WP ck_pr_cas_2 (next_pointer (nd_entry nd)) NULL ng e (u64 (ng + 1)) {{ r,
    if r : bool then linked_entry γ P evs e v (nd_entry nd, Z.of_nat j) else P evs ∗ prepared γ e v t }}.
Proof.
  iIntros (->) "#Hinv #Hshift #Hnd #Hj HP (%b & Ho & %Hb & #Ht & Hc)".
  iApply (wp_wand (Λ:=ck_lang bool) with "[HP Ho Hc]").
  { by iApply (fifo_cas_next with "Hinv Hshift Hnd Hj Ht Ho Hc HP"). }
  iIntros ([]) "H".
  - iDestruct "H" as "[HP #Hnew]". iExists j, t, nd. by iFrame "#∗".
  - iDestruct "H" as "(Ho & Hc & $)". iExists b. by iFrame "#∗".
Qed.

Lemma advance_spec γ γo T0 tp np j nd nd' :
  (T0 <= j)%nat -> np <> NULL -> np = nd_entry nd' ->
  fifo_inv fifo γ γo -∗ numbered γ j nd -∗ tail_past γ j -∗ numbered γ (S j) nd' -∗
  WP ck_pr_cas_2 (tail_pointer fifo) tp (Z.of_nat T0) np (u64 (Z.of_nat T0 + 1)) {{ _, True }}.
Proof.
  iIntros (Hle Hne ->) "#Hinv #Hnd #Hj #Hnd'". iApply (fifo_cas_tail with "Hinv Hj"); [done|done|].
  iIntros (tl) "_ _". iRight. iRight. iExists nd'. by iFrame "#".
Qed.

(** The tail moves on to the entry that was linked. *)
Lemma advance_linked γ γo P evs e v tail :
  e ∈ fn_entries γ ->
  fifo_inv fifo γ γo -∗ linked_entry γ P evs e v tail -∗
  WP ck_pr_cas_2 (tail_pointer fifo) (fst tail) (snd tail) e (u64 (snd tail + 1)) {{ _, P (evs ++ [FEnq v]) }}.
Proof.
  iIntros (Hin) "#Hinv (%j & %t & %nd & HP & #Hnd & #Hnew & #Hj & ->)". simpl.
  iPoseProof "Hinv" as "[[%Hnull _] _]".
  iApply (wp_wand (Λ:=ck_lang bool) with "[]").
  { iApply (advance_spec with "Hinv Hnd Hj Hnew"); [done| |done]. by intros ->. }
  by iIntros (b) "_".
Qed.

Lemma enqueue_spec γ γo P evs e en v :
  e ∈ fn_entries γ ->
  fifo_inv fifo γ γo -∗ shift γo P -∗ owned γ e en -∗ credits γ 1 -∗ P evs -∗
  WP ck_fifo_mpmc_enqueue fifo e v {{ _, P (evs ++ [FEnq v]) }}.
Proof.
  iIntros (Hin) "#Hinv #Hshift Ho Hc HP". rewrite /ck_fifo_mpmc_enqueue. wp_focus.
  iApply (enqueue_prepare_spec with "[$Hinv $Ho $Hc]"). iIntros "!>" (t) "Hp". wp_focus.
  iApply (wp_wand (Λ:=ck_lang (Z * Z)) _ _ _ (linked_entry γ P evs e v) with "[HP Hp]").
  { iApply (wp_loop_inv (λ _ : unit, P evs ∗ prepared γ e v t)%I with "[$HP $Hp]").
    iIntros "!>" ([]) "[HP Hp]". wp_focus. iApply (enqueue_snapshot_spec with "Hinv").
    iIntros "!>" (T0 T1 T2 nd np ng) "(%HT & #Hnd & #HT1 & #Hl)". wp_norm.
    destruct (Z.eqb_spec (Z.of_nat T2) (Z.of_nat T0)); [|wp_pures; by iFrame]. cbn [negb].
    iDestruct ("Hl" with "[%]") as "[[-> %Hng]|(%nd' & Hnd' & %Hnp & %Hne)]"; [lia| |].
    - rewrite Z.eqb_refl /=. replace T0 with T1 by lia. wp_focus.
      iApply (wp_wand (Λ:=ck_lang bool) with "[HP Hp]").
      { by iApply (link_spec with "Hinv Hshift Hnd HT1 HP Hp"). }
      iIntros ([]) "H"; by wp_pures.
    - rewrite (proj2 (Z.eqb_neq _ _) Hne) /=. wp_focus. iApply (wp_wand (Λ:=ck_lang bool) with "[]").
      { iApply (advance_spec with "Hinv Hnd HT1 Hnd'"); [lia|done..]. }
      iIntros (b) "_". wp_pures. by iFrame. }
  iIntros (tail) "Hl". wp_pures. iApply (wp_wand (Λ:=ck_lang bool) with "[Hl]").
  { by iApply (advance_linked with "Hinv Hl"). }
  iIntros (b) "HP". by wp_pures.
Qed.

Lemma tryenqueue_spec γ γo P e en v :
  e ∈ fn_entries γ ->
  fifo_inv fifo γ γo -∗ shift γo P -∗ owned γ e en -∗ credits γ 1 -∗ P [] -∗
  WP ck_fifo_mpmc_tryenqueue fifo e v {{ b, P (if b : bool then [FEnq v] else []) }}.
Proof.
  iIntros (Hin) "#Hinv #Hshift Ho Hc HP". rewrite /ck_fifo_mpmc_tryenqueue. wp_focus.
  iApply (enqueue_prepare_spec with "[$Hinv $Ho $Hc]"). iIntros "!>" (t) "Hp". wp_focus.
  iApply (enqueue_snapshot_spec with "Hinv"). iIntros "!>" (T0 T1 T2 nd np ng) "(%HT & #Hnd & #HT1 & #Hl)". wp_norm.
  destruct (Z.eqb_spec (Z.of_nat T2) (Z.of_nat T0)); [|by wp_pures]. cbn [negb].
  iDestruct ("Hl" with "[%]") as "[[-> %Hng]|(%nd' & Hnd' & %Hnp & %Hne)]"; [lia| |].
  - rewrite Z.eqb_refl /=. replace T0 with T1 by lia. wp_focus. iApply (wp_wand (Λ:=ck_lang bool) with "[HP Hp]").
    { by iApply (link_spec with "Hinv Hshift Hnd HT1 HP Hp"). }
    iIntros ([]) "H"; wp_pures; [|by iDestruct "H" as "[$ _]"]. iApply (wp_wand (Λ:=ck_lang bool) with "[H]").
    { iApply (advance_linked with "Hinv H"). done. }
    iIntros (b) "HP". by wp_pures.
  - rewrite (proj2 (Z.eqb_neq _ _) Hne) /=. wp_focus. iApply (wp_wand (Λ:=ck_lang bool) with "[]").
    { iApply (advance_spec with "Hinv Hnd HT1 Hnd'"); [lia|done..]. }
    iIntros (b) "_". by wp_pures.
Qed.

(** ** Dequeue *)

(** What the snapshots of a dequeue tell. *)
Definition deq_seen γ P evs (r : Z * Z * (Z * Z) * Z) : iProp Σ :=
  ∃ (H0 H1 T0 T1 : nat) n1 n2 np,
    ⌜r = (nd_entry n1, Z.of_nat H0, (nd_entry n2, Z.of_nat T0), np) /\ (H0 <= H1 <= T1)%nat /\ (T0 <= T1)%nat⌝ ∗
    numbered γ H1 n1 ∗ head_past γ H1 ∗ numbered γ T1 n2 ∗ tail_past γ T1 ∗
    ⌜np = NULL \/ np ∈ fn_entries γ⌝ ∗ seen_next γ H1 np ∗ (⌜nd_entry n1 = nd_entry n2⌝ → seen_next γ T1 np) ∗
    if np =? NULL then maybe_empty γ H1 P evs else P evs.

Lemma dequeue_snapshot_spec γ γo P evs :
  fifo_inv fifo γ γo -∗ shift γo P -∗ P evs -∗ WP dequeue_snapshot fifo {{ deq_seen γ P evs }}.
Proof.
  iIntros "#Hinv #Hshift HP". rewrite /dequeue_snapshot. wp_focus.
  iApply (fifo_read_head_generation with "Hinv"). iIntros "!>" (H0) "#HH0". wp_pures.
  iApply (fifo_read_head with "[$Hinv $HH0]"). iIntros "!>" (H1 n1) "(#Hn1 & #HH1 & %H01)". wp_focus.
  iApply (fifo_read_tail_generation with "Hinv"). iIntros "!>" (T0) "#HT0". wp_pures.
  iApply (fifo_read_tail with "[$Hinv $HT0 $HH1]"). iIntros "!>" (T1 n2) "(#Hn2 & #HT1 & %HT)". wp_focus.
  iApply (fifo_read_next_generation with "[$Hinv $Hn1]"). iIntros "!>" (ng) "_". wp_pures.
  iApply (wp_wand (Λ:=ck_lang Z) with "[HP]").
  { iApply (fifo_read_successor fifo γ γo P evs H1 T1 n1 n2 with "Hinv Hshift Hn1 HH1 [] HP"). by iIntros (_). }
  iIntros (np) "(%Hin & #Hs1 & #Hs2 & HP)". wp_pures.
  iExists H0, H1, T0, T1, n1, n2, np. iFrame "#∗". iPureIntro. split_and!; [done|lia..|done].
Qed.

(** The step that forwards the tail. *)
Lemma forward_spec γ γo T0 T1 n np :
  (T0 <= T1)%nat -> np <> NULL ->
  fifo_inv fifo γ γo -∗ tail_past γ T1 -∗ seen_next γ T1 np -∗
  WP ck_pr_cas_2 (tail_pointer fifo) (nd_entry n) (Z.of_nat T0) np (u64 (Z.of_nat T0 + 1)) {{ _, True }}.
Proof.
  iIntros (Hle Hne) "#Hinv #HT1 #Hs". iApply (fifo_cas_tail with "Hinv HT1"); [done..|]. by iIntros (tl) "_ _".
Qed.

(** What a dequeue that made the events [evs] before answers with. *)
Definition dequeued γ P evs (o : option (Z * Z)) : iProp Σ :=
  P (evs ++ [FDeq (fst <$> o)]) ∗
  match o with Some (_, e) => ⌜e ∈ fn_entries γ⌝ ∗ ∃ en, owned γ e en | None => True end.

Definition saw_empty (n : nat) : list fifo_event := replicate n (FDeq None).

Lemma saw_empty_S n : saw_empty n ++ [FDeq None] = saw_empty (S n).
Proof. by rewrite /saw_empty replicate_S_end. Qed.

Lemma dequeue_spec γ γo P :
  fifo_inv fifo γ γo -∗ shift γo P -∗ P [] -∗
  WP ck_fifo_mpmc_dequeue fifo {{ o, ∃ n, dequeued γ P (saw_empty n) o }}.
Proof.
  iIntros "#Hinv #Hshift HP". rewrite /ck_fifo_mpmc_dequeue.
  iApply (wp_loop_inv (λ _ : unit, ∃ n, P (saw_empty n))%I with "[HP]"); [by iExists 0%nat|].
  iIntros "!>" ([]) "[%n HP]". wp_focus.
  iApply (wp_wand (Λ:=ck_lang (Z * Z * (Z * Z) * Z)) with "[HP]").
  { by iApply (dequeue_snapshot_spec with "Hinv Hshift HP"). }
  iIntros (r) "(%H0 & %H1 & %T0 & %T1 & %n1 & %n2 & %np & (-> & %HH & %HT) & #Hn1 & #HH1 & #Hn2 & #HT1 & %Hin & #Hs1 & #Hs2 & HP)".
  wp_norm. destruct (Z.eqb_spec (nd_entry n1) (nd_entry n2)) as [Hsame|Hdiff];
    destruct (Z.eqb_spec np NULL) as [->|Hne]; wp_pures.
  - iApply (fifo_recheck_head fifo γ γo H0 H1 with "[$Hinv $HH1 $HP]"); [lia|]. iIntros "!>" (H2) "HP".
    destruct (Nat.eqb_spec H2 H0) as [->|Hd].
    + rewrite Z.eqb_refl /=. wp_pures. iExists n. by iFrame.
    + destruct (Z.eqb_spec (Z.of_nat H2) (Z.of_nat H0)); [lia|]. wp_pures.
      iDestruct "HP" as "[HP|HP]"; [by iExists n|iExists (S n); by rewrite saw_empty_S].
  - iApply (wp_wand (Λ:=ck_lang bool) with "[]").
    { iApply (forward_spec with "Hinv HT1"); [lia|done|]. by iApply "Hs2". }
    iIntros (b) "_". wp_pures. by iExists n.
  - iDestruct "HP" as "[[_ HP]|HP]"; [by iExists n|iExists (S n); by rewrite saw_empty_S].
  - destruct Hin as [|Hin]; [done|]. iApply (fifo_read_value with "[$Hinv $Hs1 //]").
    iIntros "!>" (x) "#Hx". wp_focus. iApply (wp_wand (Λ:=ck_lang bool) with "[HP]").
    { iApply (fifo_cas_head with "Hinv Hshift HH1 HT1 Hn1 Hn2 Hs1 Hx HP"); [lia|lia|done..]. }
    iIntros ([]) "H"; wp_pures; iExists n; iFrame.
Qed.

Definition trydequeued γ P (o : option (Z * Z)) : iProp Σ :=
  dequeued γ P [] o ∨ ⌜o = None⌝ ∗ P [].

Lemma trydequeue_spec γ γo P :
  fifo_inv fifo γ γo -∗ shift γo P -∗ P [] -∗ WP ck_fifo_mpmc_trydequeue fifo {{ o, trydequeued γ P o }}.
Proof.
  iIntros "#Hinv #Hshift HP". rewrite /ck_fifo_mpmc_trydequeue. wp_focus.
  iApply (wp_wand (Λ:=ck_lang (Z * Z * (Z * Z) * Z)) with "[HP]").
  { by iApply (dequeue_snapshot_spec with "Hinv Hshift HP"). }
  iIntros (r) "(%H0 & %H1 & %T0 & %T1 & %n1 & %n2 & %np & (-> & %HH & %HT) & #Hn1 & #HH1 & #Hn2 & #HT1 & %Hin & #Hs1 & #Hs2 & HP)".
  wp_norm. destruct (Z.eqb_spec (nd_entry n1) (nd_entry n2)) as [Hsame|Hdiff];
    destruct (Z.eqb_spec np NULL) as [->|Hne]; wp_pures.
  - iDestruct "HP" as "[[_ HP]|HP]"; [by iRight; iFrame|iLeft; by iFrame].
  - iApply (wp_wand (Λ:=ck_lang bool) with "[]").
    { iApply (forward_spec with "Hinv HT1"); [lia|done|]. by iApply "Hs2". }
    iIntros (b) "_". wp_pures. iRight. by iFrame.
  - iDestruct "HP" as "[[_ HP]|HP]"; [by iRight; iFrame|iLeft; by iFrame].
  - destruct Hin as [|Hin]; [done|]. iApply (fifo_read_value with "[$Hinv $Hs1 //]").
    iIntros "!>" (x) "#Hx". wp_focus. iApply (wp_wand (Λ:=ck_lang bool) with "[HP]").
    { iApply (fifo_cas_head with "Hinv Hshift HH1 HT1 Hn1 Hn2 Hs1 Hx HP"); [lia|lia|done..]. }
    iIntros ([]) "H"; wp_pures; [iLeft; iFrame|iRight; by iFrame].
Qed.
End ops.

(** The queue for many producers and consumers meets the interface of [Linear], and
    its theorem. *)

Definition fifoΣ : gFunctors :=
  #[ckΣ; ghost_varΣ (list Z); histΣ node; ghost_mapΣ Z ent; mono_natΣ; leaseΣ; ghost_varΣ (list (entry fifo_event))].

#[global] Instance subG_fifoΣ {Σ} : subG fifoΣ Σ -> fifoGS Σ.
Proof. solve_inG. Qed.

(** The memory of a queue at any time: from the entry of [head], which is not in the
    queue any more, the pointers lead through different entries to [NULL]; [tail] is
    the last one or the one before. *)
Definition fifo_good (fifo : Z) (σ : mem) : Prop :=
  ∃ e es, NoDup (e :: es) /\ NULL ∉ e :: es /\ σ !! head_pointer fifo = Some e /\
    (∀ i x, (e :: es) !! i = Some x -> σ !! next_pointer x = Some (default NULL (es !! i))) /\
    ∃ i tl, (e :: es) !! i = Some tl /\ σ !! tail_pointer fifo = Some tl /\ (length es <= S i)%nat.

Section lin.
Context `{!ckGS Σ, !fifoGS Σ}.
Context (fifo stub : Z).
Implicit Types (γ : fifo_name) (m : mem) (e v : Z) (es : list Z).

Definition flin_init (scripts : list (list fifo_op)) m : Prop :=
  fifo_scripts_ok stub scripts /\ has_cells (fifo_layout fifo stub scripts) m /\
  m !! next_pointer stub = Some NULL /\ m !! next_generation stub = Some 0 /\
  m !! head_pointer fifo = Some stub /\ m !! head_generation fifo = Some 0 /\
  m !! tail_pointer fifo = Some stub /\ m !! tail_generation fifo = Some 0.

Definition flin_tok γ (ops : list fifo_op) : iProp Σ :=
  ⌜Forall (fun e => e ∈ fn_entries γ) (ops ≫= enq_entries)⌝ ∗ credits γ (enq_count ops) ∗
  [∗ list] e ∈ ops ≫= enq_entries, ∃ en, owned γ e en.

(** ** Setting up *)

(** An entry as the memory has it, with a bound on its numbers. *)
Definition ent_of m (b : nat) e : ent := Ent (m !!! entry_value e) (m !!! next_pointer e) (m !!! next_generation e) b.

Definition fresh_ents m es : gmap Z ent := list_to_map ((λ e, (e, ent_of m 0 e)) <$> es).

Lemma fresh_ents_keys m es : ((λ e, (e, ent_of m 0 e)) <$> es).*1 = es.
Proof. by rewrite -list_fmap_compose list_fmap_id. Qed.

Lemma fresh_ents_lookup m es e en : fresh_ents m es !! e = Some en -> e ∈ es /\ en_bound en = 0%nat.
Proof.
  intros H%elem_of_list_to_map_2. apply list_elem_of_fmap in H as (x & [= -> ->] & Hx). done.
Qed.

Lemma entries_nodup es : NoDup (es ≫= entry_cells) -> NoDup es.
Proof.
  induction es as [|e es IH]; intros H; [constructor|]. rewrite bind_cons in H.
  apply NoDup_app in H as (_ & Hdis & H). constructor; [|by apply IH].
  intros He. apply (Hdis e); [by left|]. apply list_elem_of_bind. exists e. split; [by left|done].
Qed.

Lemma entry_cells_own m es (b : Z -> nat) :
  ([∗ list] l ∈ es ≫= entry_cells, ∃ v, ⌜m !! l = Some v⌝ ∗ l ↦ v) -∗
  [∗ list] e ∈ es, ent_cells e (ent_of m (b e) e).
Proof.
  iIntros "H". iInduction es as [|e es] "IH"; [done|].
  iEval (rewrite bind_cons big_sepL_app /=) in "H".
  iDestruct "H" as "[((%x & %Hx & Hv) & (%y & %Hy & Hp) & (%z & %Hz & Hg) & _) H]".
  rewrite big_sepL_cons. iSplitL "Hv Hp Hg"; [|by iApply "IH"].
  rewrite /ent_cells /ent_of /= !lookup_total_alt Hx Hy Hz. iFrame.
Qed.

Lemma enqueues_split γ ns : credits γ (sum_list ns) -∗ [∗ list] n ∈ ns, credits γ n.
Proof.
  induction ns as [|n ns IH]; [by iIntros "_"|]. iIntros "H".
  rewrite /credits /= leases_split. iDestruct "H" as "[$ H]". by iApply IH.
Qed.

Lemma fifo_ok_init γ m es :
  stub ∉ es -> fn_entries γ = list_to_set (stub :: es) -> m !! next_pointer stub = Some NULL ->
  fifo_ok γ [Node stub (m !!! entry_value stub) 0] 0 0 (fn_total γ)
    (<[stub := ent_of m 1 stub]> (fresh_ents m es)).
Proof.
  intros Hstub Hents Hn.
  pose proof (fresh_ents_lookup m es) as Hes.
  assert (∀ j nd, [Node stub (m !!! entry_value stub) 0] !! j = Some nd -> j = 0%nat /\ nd = Node stub (m !!! entry_value stub) 0) as Hhist.
  { intros [|j] nd; [by intros [= <-]|done]. }
  split; simpl; try lia.
  - intros j nd [-> ->]%Hhist. simpl. lia.
  - intros j nd [-> ->]%Hhist. rewrite Hents. set_solver.
  - by rewrite dom_insert_L dom_list_to_map_L Hents fresh_ents_keys.
  - intros e en j nd He [-> ->]%Hhist <-. rewrite lookup_insert_eq in He. simplify_eq. simpl. lia.
  - intros e en He. rewrite lookup_insert_Some in He. destruct He as [[<- <-]|[_ He]].
    + right. by exists 0%nat, (Node stub (m !!! entry_value stub) 0).
    + left. apply Hes in He as [_ ->]. lia.
  - intros e en He Hb. rewrite lookup_insert_Some in He. destruct He as [[<- <-]|[_ He]].
    + left. simpl. by rewrite lookup_total_alt Hn.
    + apply Hes in He as [_ Hz]. lia.
Qed.

Lemma flin_alloc scripts m γo E :
  flin_init scripts m ->
  ([∗ map] l ↦ v ∈ m, l ↦ v) -∗ ghost_var γo (1/2) [] ={E}=∗
  ∃ γ, fifo_inv fifo γ γo ∗ [∗ list] ops ∈ scripts, flin_tok γ ops.
Proof.
  iIntros ((Hok & Hcells & Hsn & Hsg & Hhp & Hhg & Htp & Htg)) "Hm Ho". destruct Hok as [Hnull Htot].
  assert (NoDup (stub :: script_entries scripts)) as Hnd.
  { apply entries_nodup. destruct Hcells as [Hnd _]. by apply NoDup_app in Hnd as (_ & _ & ?). }
  apply NoDup_cons in Hnd as [Hstub Hnd]. set (es := script_entries scripts) in *.
  iDestruct (has_cells_own with "Hm") as "H"; [exact Hcells|]. rewrite /fifo_layout big_sepL_app bind_cons big_sepL_app.
  iDestruct "H" as "(Hf & Hs & Hes)". fold es.
  iDestruct "Hf" as "((%v1 & %E1 & Hhp) & (%v2 & %E2 & Hhg) & (%v3 & %E3 & Htp) & (%v4 & %E4 & Htg) & _)".
  simplify_eq. iDestruct (entry_cells_own m es (λ _, 0%nat) with "Hes") as "Hes".
  iDestruct (entry_cells_own m [stub] (λ _, 1%nat) with "[Hs]") as "[Hs _]"; [by rewrite bind_cons app_nil_r|].
  set (M := <[stub := ent_of m 1 stub]> (fresh_ents m es)).
  assert (fresh_ents m es !! stub = None) as Hfresh.
  { apply not_elem_of_list_to_map_1. by rewrite fresh_ents_keys. }
  iMod (ghost_map_alloc M) as (γn) "[HM Hown]".
  iMod (hist_alloc (Node stub (m !!! entry_value stub) 0)) as (γh) "[Hhist _]".
  iMod (mono_nat_own_alloc 0) as (γH) "[HH _]". iMod (mono_nat_own_alloc 0) as (γT) "[HT _]".
  set (total := sum_list (enq_count <$> scripts)) in *.
  iMod (lease_alloc total) as (γc) "(Hcr & Hcf & _)".
  set (γ := FifoName γh γH γT γn γc (list_to_set (stub :: es)) total). iExists γ.
  rewrite /M big_sepM_insert // big_sepM_list_to_map; [|by rewrite fresh_ents_keys].
  rewrite big_sepL_fmap. iDestruct "Hown" as "[Hso Hown]". fold M.
  iMod (inv_alloc fifoN _ (fifo_state fifo γ γo) with "[Ho Hhp Hhg Htp Htg HH HT Hcr Hhist HM Hs Hes Hso]") as "#Hinv".
  { iNext. iExists [Node stub (m !!! entry_value stub) 0], 0%nat, 0%nat, total, M. iFrame.
    iSplitL "Hhp"; [iExists (Node _ _ _); by iFrame|]. iSplitL "Htp"; [iExists (Node _ _ _); by iFrame|].
    iSplitL "Hs Hes"; [rewrite /M big_sepM_insert // big_sepM_list_to_map;
      [rewrite big_sepL_fmap; iFrame|by rewrite fresh_ents_keys]|].
    rewrite /in_queue /=. iSplitL "Hso".
    { rewrite /owned /queued /ent_of /next_of /gen_of /= !lookup_total_alt Hsn Hsg /=. by iFrame. }
    iPureIntro. by apply fifo_ok_init. }
  iModIntro. iSplitR.
  { iFrame "Hinv". iPureIntro. split; [|done].
    intros Hin%(elem_of_list_to_set (C:=gset Z)). by apply Hnull. }
  rewrite /flin_tok !big_sepL_sep. iSplitR.
  { iApply big_sepL_pure. iPureIntro. intros t ops Ht. apply Forall_forall. intros e He. simpl.
    apply elem_of_union_r, elem_of_list_to_set, list_elem_of_bind. exists ops. split; [done|].
    by apply list_elem_of_lookup_2 in Ht. }
  iSplitL "Hcf".
  { iDestruct (enqueues_split γ (enq_count <$> scripts) with "Hcf") as "H". by rewrite big_sepL_fmap. }
  rewrite -(big_sepL_bind (fun ops => ops ≫= enq_entries) (fun e => ∃ en, owned γ e en)%I).
  iApply (big_sepL_impl with "Hown"). iIntros "!>" (i e _) "H". by iExists _.
Qed.

(** ** Operations *)

Abbreviation shift γo P := (lin_shift (O:=fifo_object fifo) γo P).

Lemma deq_events_intro n o : deq_events o (saw_empty n ++ [FDeq o]).
Proof. by exists n. Qed.

Lemma flin_op γ γo op ops (P : list fifo_event -> iProp Σ) :
  fifo_inv fifo γ γo -∗ flin_tok γ (op :: ops) -∗ shift γo P -∗ P [] -∗
  WP fifo_code fifo op {{ r, ∃ evs, ⌜fifo_events op r evs⌝ ∗ P evs ∗ flin_tok γ ops }}.
Proof.
  iIntros "#Hinv (%Hin & Hc & Hown) #Hshift HP".
  rewrite bind_cons in Hin. apply Forall_app in Hin as [Hin Hin'].
  iEval (rewrite bind_cons big_sepL_app) in "Hown". iDestruct "Hown" as "[He Hown]".
  destruct op as [e v|e v| | |v]; cbn [fifo_code enq_entries] in *;
    iEval (rewrite /enq_count /=) in "Hc".
  - iDestruct "He" as "[(%w & He) _]". apply Forall_cons in Hin as [Hin _]. wp_focus.
    iEval (rewrite /credits (leases_split _ 1)) in "Hc". iDestruct "Hc" as "[H1 Hc]".
    iApply (wp_wand (Λ:=ck_lang unit) with "[HP He H1]").
    { by iApply (enqueue_spec with "Hinv Hshift He H1 HP"). }
    iIntros ([]) "HP". wp_pures. iExists [FEnq v]. iFrame. by iPureIntro.
  - iDestruct "He" as "[(%w & He) _]". apply Forall_cons in Hin as [Hin _]. wp_focus.
    iEval (rewrite /credits (leases_split _ 1)) in "Hc". iDestruct "Hc" as "[H1 Hc]".
    iApply (wp_wand (Λ:=ck_lang bool) with "[HP He H1]").
    { by iApply (tryenqueue_spec with "Hinv Hshift He H1 HP"). }
    iIntros (b) "HP". wp_pures. iExists _. iFrame. by iPureIntro.
  - wp_focus. iApply (wp_wand (Λ:=ck_lang (option (Z * Z))) with "[HP]").
    { by iApply (dequeue_spec with "Hinv Hshift HP"). }
    iIntros (o) "(%n & HP & _)". wp_pures. iExists _. iFrame. iPureIntro. split; [apply deq_events_intro|done].
  - wp_focus. iApply (wp_wand (Λ:=ck_lang (option (Z * Z))) with "[HP]").
    { by iApply (trydequeue_spec with "Hinv Hshift HP"). }
    iIntros (o) "[[HP _]|[-> HP]]"; wp_pures; iExists _; iFrame; iPureIntro; (split; [|done]).
    + left. apply (deq_events_intro 0).
    + by right.
  - iEval (rewrite /credits (leases_split _ 1)) in "Hc". iDestruct "Hc" as "[H1 Hc]".
    wp_focus. iApply (wp_wand (Λ:=ck_lang (option (Z * Z))) with "[HP]").
    { by iApply (dequeue_spec with "Hinv Hshift HP"). }
    iIntros ([[x e]|]) "(%n & HP & Hg)"; wp_pures.
    + iDestruct "Hg" as "(%Hg & %en & Hg)". iApply (wp_wand (Λ:=ck_lang unit) with "[HP Hg H1]").
      { by iApply (enqueue_spec with "Hinv Hshift Hg H1 HP"). }
      iIntros ([]) "HP". wp_pures. iExists _. iFrame. iPureIntro. split; [|done].
      exists (saw_empty n ++ [FDeq (Some x)]). split; [apply deq_events_intro|done].
    + iExists _. iFrame. iPureIntro. split; [|done]. eexists. split; [apply deq_events_intro|by rewrite app_nil_r].
Qed.

(** ** The memory *)

Lemma owned_nodup γ (l : list node) (f : nat -> node -> ent) :
  ([∗ list] i ↦ nd ∈ l, owned γ (nd_entry nd) (f i nd)) -∗ ⌜NoDup (nd_entry <$> l)⌝.
Proof.
  iIntros "H". iInduction l as [|nd l] "IH" forall (f); [iPureIntro; constructor|].
  rewrite big_sepL_cons. iDestruct "H" as "[Hnd H]".
  iDestruct ("IH" $! (λ i, f (S i)) with "H") as %Hnd.
  iAssert ⌜nd_entry nd ∉ nd_entry <$> l⌝%I as %Hnew; [|iPureIntro; by constructor].
  iIntros (Hin). apply list_elem_of_fmap in Hin as (nd' & Heq & [i Hi]%list_elem_of_lookup).
  iDestruct (big_sepL_lookup with "H") as "H"; [exact Hi|]. rewrite -Heq.
  by iDestruct (ghost_map_elem_ne with "Hnd H") as %[].
Qed.

Lemma flin_good γ γo σ E :
  ↑objN ⊆ E -> fifo_inv fifo γ γo -∗ gen_heap_interp σ ={E}=∗ gen_heap_interp σ ∗ ⌜fifo_good fifo σ⌝.
Proof.
  iIntros (HE) "[[%Hnull _] #Hinv] Hσ". open_fifo.
  iDestruct (gen_heap_valid with "Hσ Hhp") as %Hhead. iDestruct (gen_heap_valid with "Hσ Htp") as %Htail.
  iDestruct (owned_nodup with "Hq") as %Hnd.
  iAssert ⌜∀ i nd, drop H hist !! i = Some nd ->
      σ !! next_pointer (nd_entry nd) = Some (next_of hist (H + i))⌝%I as %Hnext.
  { iIntros (i nd Hi). rewrite lookup_drop in Hi.
    iDestruct (queue_lookup with "Hq HM") as %HMe; [exact Hi|lia|].
    iDestruct (ents_acc with "Hents") as "[(_ & Hp & _) _]"; [exact HMe|]. iApply (gen_heap_valid with "Hσ Hp"). }
  iModIntro. iSplitR "Hσ"; [close_fifo hist H T k M|]. iModIntro. iFrame. iPureIntro.
  pose proof (fo_head _ _ _ _ _ _ Hok). pose proof (fo_tail _ _ _ _ _ _ Hok). pose proof (fo_lag _ _ _ _ _ _ Hok).
  rewrite (drop_S _ _ _ Hhd) in Hnd Hnext. exists (nd_entry hd), (nd_entry <$> drop (S H) hist).
  split_and!; [done| |done| |].
  - intros Hin. change (_ :: _) with (nd_entry <$> (hd :: drop (S H) hist)) in Hin.
    apply list_elem_of_fmap in Hin as (nd & Heq & Hin). rewrite -(drop_S _ _ _ Hhd) in Hin.
    apply list_elem_of_lookup in Hin as [i Hi]. rewrite lookup_drop in Hi.
    apply (fo_entry _ _ _ _ _ _ Hok) in Hi. by rewrite -Heq in Hi.
  - intros i x Hx. change (_ :: _) with (nd_entry <$> (hd :: drop (S H) hist)) in Hx.
    apply list_lookup_fmap_Some_1 in Hx as (nd & -> & Hnd'). rewrite (Hnext _ _ Hnd').
    rewrite list_lookup_fmap lookup_drop /next_of Nat.add_succ_l. by destruct (hist !! S (H + i)).
  - exists (T - H)%nat, (nd_entry tl). split_and!; [|done|rewrite length_fmap length_drop; lia].
    change (_ :: _) with (nd_entry <$> (hd :: drop (S H) hist)). rewrite -(drop_S _ _ _ Hhd) list_lookup_fmap lookup_drop.
    replace (H + (T - H))%nat with T by lia. by rewrite Htl.
Qed.

#[global] Instance fifo_lin_spec : LinSpec (fifo_object fifo) flin_init (fifo_good fifo).
Proof.
  refine {| lin_name := fifo_name; lin_inv := fifo_inv fifo; lin_tok := flin_tok : _ -> list (oop (fifo_object fifo)) -> _ |}.
  - apply flin_alloc.
  - apply flin_op.
  - apply flin_good.
Defined.
End lin.

(** * Linearizability *)

Lemma fifo_spec fifo stub :
  ∀ `{!ckGS fifoΣ}, LinSpec (fifo_object fifo) (flin_init fifo stub) (fifo_good fifo).
Proof. intros ?. apply fifo_lin_spec. Qed.
