(* ===== verification/FifoSpsc.v ===== *)
(** The queue [ck_fifo_spsc] for one producer and one consumer, or for several that
    take its locks (src/include/ck_fifo.h): its functions, and the queue as an abstract
    object. *)

From S2P Require Export Linear SpinTas.
Set Warnings "-rewrite-rw".

Module Spsc.

(** * ck_fifo_spsc

    An entry is [value] and [next].  The locks are [ck_spinlock_fas]. *)

Definition value (entry : Z) : Z := entry.
Definition next (entry : Z) : Z := entry + 1.
Definition entry_cells (entry : Z) : list Z := [value entry; next entry].

Definition m_head (fifo : Z) : Z := fifo.
Definition head (fifo : Z) : Z := fifo + 1.
Definition m_tail (fifo : Z) : Z := fifo + 2.
Definition tail (fifo : Z) : Z := fifo + 3.
Definition head_snapshot (fifo : Z) : Z := fifo + 4.
Definition garbage (fifo : Z) : Z := fifo + 5.
Definition fifo_cells (fifo : Z) : list Z :=
  [m_head fifo; head fifo; m_tail fifo; tail fifo; head_snapshot fifo; garbage fifo].

Definition ck_fifo_spsc_enqueue_trylock (fifo : Z) : prog bool := ck_spinlock_fas_trylock (m_tail fifo).
Definition ck_fifo_spsc_enqueue_lock (fifo : Z) : prog unit := ck_spinlock_fas_lock (m_tail fifo).
Definition ck_fifo_spsc_enqueue_unlock (fifo : Z) : prog unit := ck_spinlock_fas_unlock (m_tail fifo).
Definition ck_fifo_spsc_dequeue_trylock (fifo : Z) : prog bool := ck_spinlock_fas_trylock (m_head fifo).
Definition ck_fifo_spsc_dequeue_lock (fifo : Z) : prog unit := ck_spinlock_fas_lock (m_head fifo).
Definition ck_fifo_spsc_dequeue_unlock (fifo : Z) : prog unit := ck_spinlock_fas_unlock (m_head fifo).

Definition ck_fifo_spsc_init (fifo stub : Z) : prog unit :=
  ck_spinlock_fas_init (m_head fifo) ;;
  ck_spinlock_fas_init (m_tail fifo) ;;
  st (next stub) NULL ;;
  st (garbage fifo) stub ;;
  st (head_snapshot fifo) stub ;;
  st (tail fifo) stub ;;
  st (head fifo) stub.

Definition ck_fifo_spsc_deinit (fifo : Z) : prog Z :=
  g <- ld (garbage fifo) ;;
  st (tail fifo) NULL ;;
  st (head fifo) NULL ;;
  Ret g.

Definition ck_fifo_spsc_enqueue (fifo entry v : Z) : prog unit :=
  st (value entry) v ;;
  st (next entry) NULL ;;
  ck_pr_fence F_store ;;
  t <- ld (tail fifo) ;;
  ck_pr_store (next t) entry ;;
  st (tail fifo) entry.

Definition ck_fifo_spsc_dequeue (fifo : Z) : prog (option Z) :=
  h <- ld (head fifo) ;;
  entry <- ck_pr_load (next h) ;;
  if entry =? NULL then Ret None
  else
    v <- ld (value entry) ;;
    ck_pr_fence F_store ;;
    ck_pr_store (head fifo) entry ;;
    Ret (Some v).

Definition ck_fifo_spsc_recycle (fifo : Z) : prog Z :=
  let take :=
    g <- ld (garbage fifo) ;;
    n <- ld (next g) ;;
    st (garbage fifo) n ;;
    Ret g in
  s <- ld (head_snapshot fifo) ;;
  g <- ld (garbage fifo) ;;
  if s =? g then
    h <- ck_pr_load (head fifo) ;;
    st (head_snapshot fifo) h ;;
    s <- ld (head_snapshot fifo) ;;
    g <- ld (garbage fifo) ;;
    if s =? g then Ret NULL else take
  else take.

Definition ck_fifo_spsc_isempty (fifo : Z) : prog bool :=
  h <- ck_pr_load (head fifo) ;;
  n <- ck_pr_load (next h) ;;
  Ret (n =? NULL).

(** ** The macros for callers without concurrency *)

Definition CK_FIFO_SPSC_FIRST (f : Z) : prog Z := h <- ld (head f) ;; ld (next h).
Definition CK_FIFO_SPSC_ISEMPTY (f : Z) : prog bool := n <- CK_FIFO_SPSC_FIRST f ;; Ret (n =? NULL).
Definition CK_FIFO_SPSC_NEXT (m : Z) : prog Z := ld (next m).
Definition CK_FIFO_SPSC_SPARE (f : Z) : prog Z := ld (head f).

Definition CK_FIFO_SPSC_FOREACH {S} (fifo : Z) (body : S -> Z -> prog S) (s : S) : prog S :=
  entry <- CK_FIFO_SPSC_FIRST fifo ;;
  Iter (fun '(entry, s) =>
    if entry =? NULL then break s
    else s <- body s entry ;; n <- CK_FIFO_SPSC_NEXT entry ;; continue (n, s)) (entry, s).

Definition CK_FIFO_SPSC_FOREACH_SAFE {S} (fifo : Z) (body : S -> Z -> prog S) (s : S) : prog S :=
  entry <- CK_FIFO_SPSC_FIRST fifo ;;
  Iter (fun '(entry, s) =>
    if entry =? NULL then break s
    else t <- CK_FIFO_SPSC_NEXT entry ;; s <- body s entry ;; continue (t, s)) (entry, s).

(** * The abstract queue: the values, oldest first *)

Inductive spsc_event :=
| SEnq (v : Z)
| SDeq (o : option Z)           (* [None]: observes that the queue is empty *)
| SEmpty (b : bool).            (* observes whether the queue is empty *)

Definition spsc_trans (q : list Z) (ev : spsc_event) (q' : list Z) : Prop :=
  match ev with
  | SEnq v => q' = q ++ [v]
  | SDeq (Some v) => q = v :: q'
  | SDeq None => q = [] /\ q' = []
  | SEmpty b => q' = q /\ b = bool_decide (q = [])
  end.

(** ** Operations

    [SpRecycle v] asks for an entry that was dequeued and enqueues [v] with it. *)

Inductive spsc_op := SpEnq (e v : Z) | SpRecycle (v : Z) | SpTryEnq (e v : Z) | SpDeq | SpTryDeq | SpIsEmpty.

Inductive spsc_ret := SpBool (b : bool) | SpValue (o : option Z) | SpTry (o : option (option Z)).

Definition spsc_events (op : spsc_op) (r : spsc_ret) (evs : list spsc_event) : Prop :=
  match op, r with
  | SpEnq _ v, SpBool b => b = true /\ evs = [SEnq v]
  | SpRecycle v, SpBool b | SpTryEnq _ v, SpBool b => evs = if b then [SEnq v] else []
  | SpDeq, SpValue o => evs = [SDeq o]
  | SpTryDeq, SpTry o => evs = match o with Some o => [SDeq o] | None => [] end
  | SpIsEmpty, SpBool b => evs = [SEmpty b]
  | _, _ => False
  end.

(** [lp], [lc]: producers, consumers take the lock of their side. *)
Definition under_lock {A} (locks : bool) (lock unlock : prog unit) (p : prog A) : prog A :=
  if locks then lock ;; r <- p ;; unlock ;; Ret r else p.

Definition try_lock {A} (trylock : prog bool) (unlock : prog unit) (p : prog A) : prog (option A) :=
  b <- trylock ;; if b : bool then r <- p ;; unlock ;; Ret (Some r) else Ret None.

Definition recycle_and_enqueue (fifo v : Z) : prog bool :=
  e <- ck_fifo_spsc_recycle fifo ;;
  if e =? NULL then Ret false else ck_fifo_spsc_enqueue fifo e v ;; Ret true.

Definition enqueue_side {A} (lp : bool) (fifo : Z) : prog A -> prog A :=
  under_lock lp (ck_fifo_spsc_enqueue_lock fifo) (ck_fifo_spsc_enqueue_unlock fifo).
Definition dequeue_side {A} (lc : bool) (fifo : Z) : prog A -> prog A :=
  under_lock lc (ck_fifo_spsc_dequeue_lock fifo) (ck_fifo_spsc_dequeue_unlock fifo).

Definition spsc_code (lp lc : bool) (fifo : Z) (op : spsc_op) : prog spsc_ret :=
  match op with
  | SpEnq e v => enqueue_side lp fifo (ck_fifo_spsc_enqueue fifo e v) ;; Ret (SpBool true)
  | SpRecycle v => b <- enqueue_side lp fifo (recycle_and_enqueue fifo v) ;; Ret (SpBool b)
  | SpTryEnq e v =>
      o <- try_lock (ck_fifo_spsc_enqueue_trylock fifo) (ck_fifo_spsc_enqueue_unlock fifo)
             (ck_fifo_spsc_enqueue fifo e v) ;;
      Ret (SpBool match o with Some _ => true | None => false end)
  | SpDeq => o <- dequeue_side lc fifo (ck_fifo_spsc_dequeue fifo) ;; Ret (SpValue o)
  | SpTryDeq =>
      o <- try_lock (ck_fifo_spsc_dequeue_trylock fifo) (ck_fifo_spsc_dequeue_unlock fifo)
             (ck_fifo_spsc_dequeue fifo) ;;
      Ret (SpTry o)
  | SpIsEmpty => b <- dequeue_side lc fifo (ck_fifo_spsc_isempty fifo) ;; Ret (SpBool b)
  end.

Definition spsc_object (lp lc : bool) (fifo : Z) : object := {|
  ost := list Z; oop := spsc_op; ores := spsc_ret; oev := spsc_event;
  oinit := []; otrans := spsc_trans; oevents := spsc_events; ocode := spsc_code lp lc fifo;
|}.

(** ** Scripts *)

Definition enq_entries (op : spsc_op) : list Z :=
  match op with SpEnq e _ | SpTryEnq e _ => [e] | _ => [] end.
Definition producing (op : spsc_op) : bool :=
  match op with SpEnq _ _ | SpRecycle _ | SpTryEnq _ _ => true | _ => false end.
Definition consuming (op : spsc_op) : bool := negb (producing op).

(** Attempts belong to the sides that take locks. *)
Definition op_ok (lp lc : bool) (op : spsc_op) : Prop :=
  match op with SpTryEnq _ _ => lp = true | SpTryDeq => lc = true | _ => True end.

Definition script_entries (scripts : list (list spsc_op)) : list Z :=
  scripts ≫= (fun ops => ops ≫= enq_entries).

Definition spsc_layout (fifo stub : Z) (scripts : list (list spsc_op)) : list Z :=
  fifo_cells fifo ++ ((stub :: script_entries scripts) ≫= entry_cells).

(** Without the lock of a side one thread has its operations; each entry is enqueued
    first by one thread. *)
Definition spsc_scripts_ok (lp lc : bool) (stub : Z) (scripts : list (list spsc_op)) : Prop :=
  NULL ∉ stub :: script_entries scripts /\ Forall (Forall (op_ok lp lc)) scripts /\
  (lp = false -> alone producing scripts) /\ (lc = false -> alone consuming scripts).

End Spsc.
