(* ===== verification/FifoSpscProof.v ===== *)
(** The queue for one producer and one consumer: its invariant, its operations, and
    the interface of [Linear]. *)

From S2P Require Export FifoSpsc Ghost.
Set Warnings "-rewrite-rw".

Import Spsc.

(** * Ghost state

    The history lists the entries in the order in which they were enqueued, each with
    its value; the stub is number 0.  Those from number [G] on are chained: the ones
    before [head] wait to be recycled. *)

Record cell := Cell { cl_entry : Z; cl_value : Z }.

Class spscGS (Σ : gFunctors) := SpscGS {
  spsc_absG :: ghost_varG Σ (list Z);
  spsc_histG :: histG cell Σ;
  spsc_prodG :: ghost_varG Σ (nat * nat);
  spsc_consG :: ghost_varG Σ nat;
  spsc_monoG :: mono_natG Σ;
  spsc_tokG :: tokenG Σ;
}.

Record spsc_name := SpscName {
  qn_hist : gname; qn_prod : gname; qn_cons : gname; qn_head : gname; qn_plock : gname; qn_clock : gname }.

Definition spscN : namespace := objN.

Definition next_of (hist : list cell) (k : nat) : Z :=
  match hist !! S k with Some c => cl_entry c | None => NULL end.
Definition contents (hist : list cell) (H : nat) : list Z := cl_value <$> drop (S H) hist.

Ltac open_spsc :=
  iInv spscN as ">Hi"; iDestruct "Hi" as (hist G H)
    "(Habs & Hhist & Hpv & Hcv & HH & (%hd & %Hhd & Hhp) & Hcells & %HG & %Hnull)".
Ltac close_spsc hist G H := iNext; iExists hist, G, H; iFrame; by eauto.

Section spsc.
Context `{!ckGS Σ, !spscGS Σ}.
Context (lp lc : bool) (fifo : Z).
Implicit Types (γ : spsc_name) (hist : list cell) (c : cell) (e v : Z) (G H k n : nat)
  (P : list spsc_event -> iProp Σ).

Abbreviation shift γo P := (lin_shift (O:=spsc_object lp lc fifo) γo P).

Definition numbered γ k c : iProp Σ := hist_at (qn_hist γ) k c.

Definition chain_cells hist G : iProp Σ :=
  [∗ list] i ↦ c ∈ drop G hist, value (cl_entry c) ↦ cl_value c ∗ next (cl_entry c) ↦ next_of hist (G + i).

Definition spsc_state γ (γo : gname) : iProp Σ :=
  ∃ hist G H,
    ghost_var γo (1/2) (contents hist H) ∗ hist_auth (qn_hist γ) hist ∗
    ghost_var (qn_prod γ) (1/2) (length hist, G) ∗ ghost_var (qn_cons γ) (1/2) H ∗
    mono_nat_auth_own (qn_head γ) 1 H ∗
    (∃ hd, ⌜hist !! H = Some hd⌝ ∗ head fifo ↦ cl_entry hd) ∗
    chain_cells hist G ∗ ⌜(G <= H)%nat⌝ ∗ ⌜Forall (fun c => cl_entry c <> NULL) hist⌝.

#[global] Instance spsc_state_timeless γ γo : Timeless (spsc_state γ γo).
Proof. rewrite /spsc_state /chain_cells. apply _. Qed.

(** An entry that its owner may enqueue. *)
Definition free_entry e : iProp Σ := ⌜e <> NULL⌝ ∗ (∃ v, value e ↦ v) ∗ ∃ w : Z, next e ↦ w.

(** What the producer, and the consumer, have between operations. *)
Definition prod_role γ : iProp Σ :=
  ∃ n G s tl gb sn,
    ghost_var (qn_prod γ) (1/2) (S n, G) ∗ numbered γ n tl ∗ tail fifo ↦ cl_entry tl ∗
    numbered γ G gb ∗ garbage fifo ↦ cl_entry gb ∗
    numbered γ s sn ∗ head_snapshot fifo ↦ cl_entry sn ∗ mono_nat_lb_own (qn_head γ) s ∗ ⌜(G <= s)%nat⌝.
Definition cons_role γ : iProp Σ := ∃ H, ghost_var (qn_cons γ) (1/2) H.

Definition spsc_inv γ γo : iProp Σ := inv spscN (spsc_state γ γo).

(** ** The chain *)

Lemma chain_acc hist G k c :
  hist !! k = Some c -> (G <= k)%nat ->
  chain_cells hist G -∗
  value (cl_entry c) ↦ cl_value c ∗ next (cl_entry c) ↦ next_of hist k ∗
  (value (cl_entry c) ↦ cl_value c -∗ next (cl_entry c) ↦ next_of hist k -∗ chain_cells hist G).
Proof.
  iIntros (Hk HG) "H". rewrite /chain_cells.
  iDestruct (big_sepL_lookup_acc _ _ (k - G) c with "H") as "[[Hv Hn] H]".
  { rewrite lookup_drop. by replace (G + (k - G))%nat with k by lia. }
  replace (G + (k - G))%nat with k by lia. iFrame. iIntros "Hv Hn". iApply "H". iFrame.
Qed.

Lemma cell_next_snoc hist c k : (S k < length hist)%nat -> next_of (hist ++ [c]) k = next_of hist k.
Proof. intros. by rewrite /next_of lookup_app_l. Qed.

Lemma chain_last l c G :
  (G <= length l)%nat ->
  chain_cells (l ++ [c]) G ⊣⊢
    ([∗ list] i ↦ d ∈ drop G l, value (cl_entry d) ↦ cl_value d ∗ next (cl_entry d) ↦ next_of (l ++ [c]) (G + i)) ∗
    value (cl_entry c) ↦ cl_value c ∗ next (cl_entry c) ↦ next_of (l ++ [c]) (length l).
Proof.
  intros HG. rewrite /chain_cells drop_app_le // big_sepL_app /= length_drop Nat.add_0_r.
  replace (G + (length l - G))%nat with (length l) by lia. by rewrite right_id.
Qed.

Lemma next_of_last l c : next_of (l ++ [c]) (length l) = NULL.
Proof. rewrite /next_of lookup_ge_None_2 // length_app /=. lia. Qed.

(** An entry is chained behind the last one. *)
Lemma chain_link l tl G e v :
  (G <= length l)%nat ->
  chain_cells (l ++ [tl]) G -∗ value e ↦ v -∗ next e ↦ NULL -∗
  next (cl_entry tl) ↦ NULL ∗
  (next (cl_entry tl) ↦ e -∗ chain_cells ((l ++ [tl]) ++ [Cell e v]) G).
Proof.
  iIntros (HG) "H Hv Hn". rewrite chain_last // next_of_last. iDestruct "H" as "(H & Hvt & $)". iIntros "Hnt".
  rewrite (chain_last (l ++ [tl])); [|rewrite length_app /=; lia]. rewrite next_of_last /=. iFrame "Hv Hn".
  rewrite drop_app_le // big_sepL_app /= length_drop Nat.add_0_r.
  replace (G + (length l - G))%nat with (length l) by lia. iFrame "Hvt".
  assert (next_of ((l ++ [tl]) ++ [Cell e v]) (length l) = e) as ->.
  { rewrite /next_of list_lookup_middle // length_app /=. lia. }
  iFrame "Hnt". iApply (big_sepL_impl with "H"). iIntros "!>" (i d Hi) "[$ H]".
  apply lookup_lt_Some in Hi. rewrite length_drop in Hi.
  rewrite (cell_next_snoc (l ++ [tl])) // length_app /=. lia.
Qed.

(** The first entry leaves the chain. *)
Lemma chain_unlink hist G c :
  hist !! G = Some c ->
  chain_cells hist G ⊣⊢ (value (cl_entry c) ↦ cl_value c ∗ next (cl_entry c) ↦ next_of hist G) ∗ chain_cells hist (S G).
Proof.
  intros Hc. rewrite /chain_cells (drop_S _ _ _ Hc) /= Nat.add_0_r. f_equiv.
  apply big_sepL_proper. intros i d _. by rewrite Nat.add_succ_r.
Qed.

(** ** Enqueue *)

Lemma spsc_link γ γo P n g tl e v :
  spsc_inv γ γo -∗ shift γo P -∗ P [] -∗ ghost_var (qn_prod γ) (1/2) (S n, g) -∗ numbered γ n tl -∗
  ⌜e <> NULL⌝ -∗ value e ↦ v -∗ next e ↦ NULL -∗
  WP ck_pr_store (next (cl_entry tl)) e {{ _,
    P [SEnq v] ∗ ghost_var (qn_prod γ) (1/2) (S (S n), g) ∗ numbered γ (S n) (Cell e v) }}.
Proof.
  iIntros "#Hinv #Hshift HP Hp #Htl %Hne Hv Hn". open_spsc.
  iDestruct (ghost_var_agree with "Hp Hpv") as %[= Hlen ->].
  iDestruct (hist_lookup with "Hhist Htl") as %Htl. pose proof (lookup_lt_Some _ _ _ Hhd).
  destruct (exists_last (l:=hist)) as (l & c & ->); [by intros ->|].
  rewrite length_app /= Nat.add_1_r in Hlen. injection Hlen as ->.
  assert (c = tl) as -> by (rewrite list_lookup_middle // in Htl; congruence). rewrite length_app /= in H0.
  iDestruct (chain_link with "Hcells Hv Hn") as "[Hnt Hcells]"; [lia|].
  iMod ("Hshift" $! [] (SEnq v) _ (contents ((l ++ [tl]) ++ [Cell e v]) H) with "[%] Habs HP") as "[Habs HP]".
  { rewrite /= {1}/contents drop_app_le ?fmap_app // length_app /=. lia. }
  iMod (ghost_var_update_halves (S (S (length l)), G) with "Hp Hpv") as "[Hp Hpv]".
  iMod (hist_snoc _ _ (Cell e v) with "Hhist") as "[Hhist #Hnew]".
  wp_store "Hnt". iDestruct ("Hcells" with "Hnt") as "Hcells". iModIntro. rewrite !length_app /= Nat.add_1_r.
  iSplitR "HP Hp"; [|by iFrame "#∗"].
  pose proof (lookup_app_l_Some (l ++ [tl]) [Cell e v] _ _ Hhd).
  assert (Forall (fun c => cl_entry c <> NULL) ((l ++ [tl]) ++ [Cell e v])) by (apply Forall_app; by repeat constructor).
  iNext. iExists ((l ++ [tl]) ++ [Cell e v]), G, H. rewrite !length_app /= !Nat.add_1_r. iFrame. by eauto.
Qed.

Lemma spsc_enqueue_spec γ γo P e v :
  spsc_inv γ γo -∗ shift γo P -∗ P [] -∗ free_entry e -∗ prod_role γ -∗
  WP ck_fifo_spsc_enqueue fifo e v {{ _, P [SEnq v] ∗ prod_role γ }}.
Proof.
  iIntros "#Hinv #Hshift HP (%Hne & (%v0 & Hv) & (%n0 & Hn))".
  iIntros "(%n & %G & %s & %tl & %gb & %sn & Hp & #Htl & Ht & Hrest)".
  rewrite /ck_fifo_spsc_enqueue. wp_store "Hv". wp_store "Hn". wp_load "Ht". wp_focus.
  iApply (wp_wand (Λ:=ck_lang unit) with "[HP Hp Hv Hn]").
  { by iApply (spsc_link with "Hinv Hshift HP Hp Htl [//] Hv Hn"). }
  iIntros ([]) "($ & Hp & #Hnew)". wp_store "Ht". iExists (S n), G, s, (Cell e v), gb, sn. by iFrame "#∗".
Qed.

(** ** Dequeue *)

(** The entry of the head, which the consumer reads. *)
Lemma spsc_read_head γ γo H0 :
  {{{ spsc_inv γ γo ∗ ghost_var (qn_cons γ) (1/2) H0 }}} ld (head fifo)
  {{{ hd, RET cl_entry hd; ghost_var (qn_cons γ) (1/2) H0 ∗ numbered γ H0 hd }}}.
Proof.
  iIntros (Φ) "[#Hinv Hc] HΦ". open_spsc. iDestruct (ghost_var_agree with "Hc Hcv") as %<-.
  iDestruct (hist_get with "Hhist") as "#Hnd"; [exact Hhd|].
  wp_load "Hhp". iModIntro. iSplitR "HΦ Hc"; [close_spsc hist G H0|]. iApply "HΦ". by iFrame "#∗".
Qed.

(** Its successor: if there is none the queue is empty. *)
Lemma spsc_read_next γ γo P H0 c ev1 ev2 :
  (ev1 = [] \/ ∃ ev, ev1 = [ev] /\ spsc_trans [] ev []) ->
  (ev2 = [] \/ ∃ ev, ev2 = [ev] /\ ∀ v q, spsc_trans (v :: q) ev (v :: q)) ->
  spsc_inv γ γo -∗ shift γo P -∗ P [] -∗ ghost_var (qn_cons γ) (1/2) H0 -∗ numbered γ H0 c -∗
  WP ck_pr_load (next (cl_entry c)) {{ np,
    ghost_var (qn_cons γ) (1/2) H0 ∗
    (⌜np = NULL⌝ ∗ P ev1 ∨ ∃ nd, ⌜np = cl_entry nd /\ np <> NULL⌝ ∗ numbered γ (S H0) nd ∗ P ev2) }}.
Proof.
  iIntros (Hev1 Hev2) "#Hinv #Hshift HP Hc #Hnd". open_spsc.
  iDestruct (ghost_var_agree with "Hc Hcv") as %<-.
  iDestruct (hist_lookup with "Hhist Hnd") as %Hk. simplify_eq.
  iDestruct (chain_acc with "Hcells") as "(Hv & Hn & Hcells)"; [eassumption|done|].
  destruct (hist !! S H0) as [nd|] eqn:E.
  - assert (contents hist H0 = cl_value nd :: contents hist (S H0)) as Hcont by by rewrite /contents (drop_S _ _ _ E).
    iAssert (|={⊤ ∖ ↑spscN}=> ghost_var γo (1/2) (contents hist H0) ∗ P ev2)%I with "[Habs HP]" as ">[Habs HP]".
    { destruct Hev2 as [->|(ev & -> & Hev)]; [by iFrame|]. rewrite Hcont.
      by iMod ("Hshift" $! [] ev _ _ with "[%] Habs HP") as "[$ $]"; [apply Hev|]. }
    iDestruct (hist_get with "Hhist") as "#Hnew"; [exact E|].
    assert (next_of hist H0 = cl_entry nd) as Hno by by rewrite /next_of E.
    rewrite Forall_lookup in Hnull. pose proof (Hnull _ _ E). rewrite -Forall_lookup in Hnull.
    wp_load "Hn". iDestruct ("Hcells" with "Hv Hn") as "Hcells". iModIntro.
    iSplitR "Hc HP"; [close_spsc hist G H0|]. iFrame. iRight. iExists nd. rewrite Hno. by iFrame "#∗".
  - assert (contents hist H0 = []) as Hcont.
    { rewrite /contents drop_ge //. by apply lookup_ge_None. }
    iAssert (|={⊤ ∖ ↑spscN}=> ghost_var γo (1/2) (contents hist H0) ∗ P ev1)%I with "[Habs HP]" as ">[Habs HP]".
    { destruct Hev1 as [->|(ev & -> & Hev)]; [by iFrame|]. rewrite Hcont.
      by iMod ("Hshift" $! [] ev _ _ with "[%] Habs HP") as "[$ $]"; [apply Hev|]. }
    assert (next_of hist H0 = NULL) as Hno by by rewrite /next_of E.
    wp_load "Hn". iDestruct ("Hcells" with "Hv Hn") as "Hcells". iModIntro.
    iSplitR "Hc HP"; [close_spsc hist G H0|]. iFrame. iLeft. by iFrame.
Qed.

Lemma spsc_read_value γ γo H0 c :
  {{{ spsc_inv γ γo ∗ ghost_var (qn_cons γ) (1/2) H0 ∗ numbered γ (S H0) c }}} ld (value (cl_entry c))
  {{{ RET cl_value c; ghost_var (qn_cons γ) (1/2) H0 }}}.
Proof.
  iIntros (Φ) "(#Hinv & Hc & #Hnd) HΦ". open_spsc. iDestruct (ghost_var_agree with "Hc Hcv") as %<-.
  iDestruct (hist_lookup with "Hhist Hnd") as %Hk.
  iDestruct (chain_acc with "Hcells") as "(Hv & Hn & Hcells)"; [exact Hk|lia|].
  wp_load "Hv". iDestruct ("Hcells" with "Hv Hn") as "Hcells". iModIntro.
  iSplitR "HΦ Hc"; [close_spsc hist G H0|]. by iApply "HΦ".
Qed.

Lemma spsc_move_head γ γo P H0 c :
  spsc_inv γ γo -∗ shift γo P -∗ P [] -∗ ghost_var (qn_cons γ) (1/2) H0 -∗ numbered γ (S H0) c -∗
  WP ck_pr_store (head fifo) (cl_entry c) {{ _, P [SDeq (Some (cl_value c))] ∗ cons_role γ }}.
Proof.
  iIntros "#Hinv #Hshift HP Hc #Hnd". open_spsc. iDestruct (ghost_var_agree with "Hc Hcv") as %<-.
  iDestruct (hist_lookup with "Hhist Hnd") as %Hk.
  iMod ("Hshift" $! [] (SDeq (Some (cl_value c))) _ (contents hist (S H0)) with "[%] Habs HP") as "[Habs HP]".
  { by rewrite /= /contents (drop_S _ _ _ Hk). }
  iMod (ghost_var_update_halves (S H0) with "Hc Hcv") as "[Hc Hcv]".
  iMod (mono_nat_own_update (S H0) with "HH") as "[HH _]"; [lia|].
  wp_store "Hhp". iModIntro. assert (G <= S H0)%nat by lia.
  iSplitR "HP Hc"; [close_spsc hist G (S H0)|]. iFrame.
Qed.

Lemma spsc_dequeue_spec γ γo P :
  spsc_inv γ γo -∗ shift γo P -∗ P [] -∗ cons_role γ -∗
  WP ck_fifo_spsc_dequeue fifo {{ o, P [SDeq o] ∗ cons_role γ }}.
Proof.
  iIntros "#Hinv #Hshift HP [%H Hc]". rewrite /ck_fifo_spsc_dequeue. wp_focus.
  iApply (spsc_read_head with "[$Hinv $Hc]"). iIntros "!>" (hd) "[Hc #Hhd]". wp_focus.
  iApply (wp_wand (Λ:=ck_lang Z) with "[HP Hc]").
  { iApply (spsc_read_next γ γo P H hd [SDeq None] [] with "Hinv Hshift HP Hc Hhd"); [right; by eexists|by left]. }
  iIntros (np) "[Hc [[-> HP]|(%nd & [-> %Hne] & #Hnd & HP)]]".
  - rewrite Z.eqb_refl. wp_pures. iFrame.
  - rewrite (proj2 (Z.eqb_neq _ _) Hne). wp_focus.
    iApply (spsc_read_value with "[$Hinv $Hc $Hnd]"). iIntros "!> Hc". wp_pures.
    iApply (wp_wand (Λ:=ck_lang unit) with "[HP Hc]"); [by iApply (spsc_move_head with "Hinv Hshift HP Hc Hnd")|].
    iIntros ([]) "[HP Hc]". wp_pures. iFrame.
Qed.

Lemma spsc_isempty_spec γ γo P :
  spsc_inv γ γo -∗ shift γo P -∗ P [] -∗ cons_role γ -∗
  WP ck_fifo_spsc_isempty fifo {{ b, P [SEmpty b] ∗ cons_role γ }}.
Proof.
  iIntros "#Hinv #Hshift HP [%H Hc]". rewrite /ck_fifo_spsc_isempty. wp_focus.
  iApply (spsc_read_head with "[$Hinv $Hc]"). iIntros "!>" (hd) "[Hc #Hhd]". wp_focus.
  iApply (wp_wand (Λ:=ck_lang Z) with "[HP Hc]").
  { iApply (spsc_read_next γ γo P H hd [SEmpty true] [SEmpty false] with "Hinv Hshift HP Hc Hhd"); right; by eexists. }
  iIntros (np) "[Hc [[-> HP]|(%nd & [-> %Hne] & #Hnd & HP)]]"; wp_pures; [iFrame|].
  rewrite (proj2 (Z.eqb_neq _ _) Hne). iFrame.
Qed.

(** ** Recycling *)

Lemma spsc_observe_head γ γo s :
  {{{ spsc_inv γ γo ∗ mono_nat_lb_own (qn_head γ) s }}} ck_pr_load (head fifo)
  {{{ H c, RET cl_entry c; numbered γ H c ∗ mono_nat_lb_own (qn_head γ) H ∗ ⌜(s <= H)%nat⌝ }}}.
Proof.
  iIntros (Φ) "[#Hinv #Hs] HΦ". open_spsc. iDestruct (mono_nat_lb_own_valid with "HH Hs") as %[_ Hle]. iDestruct (mono_nat_lb_own_get with "HH") as "#Hlb".
  iDestruct (hist_get with "Hhist") as "#Hnd"; [exact Hhd|].
  wp_load "Hhp". iModIntro. iSplitR "HΦ"; [close_spsc hist G H|]. iApply "HΦ". by iFrame "#".
Qed.

(** An entry before the head leaves the chain when its successor is read. *)
Lemma spsc_unlink γ γo n g s c :
  (g < s)%nat ->
  {{{ spsc_inv γ γo ∗ ghost_var (qn_prod γ) (1/2) (n, g) ∗ numbered γ g c ∗ mono_nat_lb_own (qn_head γ) s }}}
    ld (next (cl_entry c))
  {{{ nd, RET cl_entry nd; ghost_var (qn_prod γ) (1/2) (n, S g) ∗ numbered γ (S g) nd ∗ free_entry (cl_entry c) }}}.
Proof.
  iIntros (Hlt Φ) "(#Hinv & Hp & #Hnd & #Hs) HΦ". open_spsc.
  iDestruct (ghost_var_agree with "Hp Hpv") as %[= -> ->].
  iDestruct (mono_nat_lb_own_valid with "HH Hs") as %[_ Hle].
  iDestruct (hist_lookup with "Hhist Hnd") as %Hk. pose proof (lookup_lt_Some _ _ _ Hhd).
  destruct (lookup_lt_is_Some_2 hist (S G)) as [nd Hnext]; [lia|].
  iDestruct (hist_get with "Hhist") as "#Hnew"; [exact Hnext|].
  iMod (ghost_var_update_halves (length hist, S G) with "Hp Hpv") as "[Hp Hpv]".
  rewrite (chain_unlink hist G c) //. iDestruct "Hcells" as "[[Hv Hn] Hcells]".
  assert (next_of hist G = cl_entry nd) as -> by by rewrite /next_of Hnext.
  assert (cl_entry c <> NULL) as Hne by (rewrite Forall_lookup in Hnull; eauto).
  assert (S G <= H)%nat by lia.
  wp_load "Hn". iModIntro. iSplitR "HΦ Hp Hv Hn"; [close_spsc hist (S G) H|]. iApply "HΦ".
  rewrite /free_entry. by iFrame "#∗".
Qed.

(** The producer takes the first entry that waits. *)
Lemma spsc_take γ γo n g s tl gb sn :
  (g < s)%nat ->
  {{{ spsc_inv γ γo ∗ ghost_var (qn_prod γ) (1/2) (S n, g) ∗ numbered γ n tl ∗ tail fifo ↦ cl_entry tl ∗
      numbered γ g gb ∗ garbage fifo ↦ cl_entry gb ∗
      numbered γ s sn ∗ head_snapshot fifo ↦ cl_entry sn ∗ mono_nat_lb_own (qn_head γ) s }}}
    (g <- ld (garbage fifo) ;; n <- ld (next g) ;; st (garbage fifo) n ;; Ret g)
  {{{ e, RET e; free_entry e ∗ prod_role γ }}}.
Proof.
  iIntros (Hlt Φ) "(#Hinv & Hp & #Htl & Ht & #Hgb & Hg & #Hsn & Hs & #Hlb) HΦ".
  wp_load "Hg". wp_focus. iApply (spsc_unlink with "[$Hinv $Hp $Hgb $Hlb]"); [done|].
  iIntros "!>" (nd) "(Hp & #Hnd & Hf)". wp_store "Hg". wp_pures. iApply "HΦ". iFrame "Hf".
  iExists n, (S g), s, tl, nd, sn. iFrame "#∗". iPureIntro. lia.
Qed.

Lemma spsc_recycle_spec γ γo :
  {{{ spsc_inv γ γo ∗ prod_role γ }}} ck_fifo_spsc_recycle fifo
  {{{ e, RET e; prod_role γ ∗ (⌜e = NULL⌝ ∨ free_entry e) }}}.
Proof.
  iIntros (Φ) "[#Hinv (%n & %G & %s & %tl & %gb & %sn & Hp & #Htl & Ht & #Hgb & Hg & #Hsn & Hs & #Hlb & %HGs)] HΦ".
  rewrite /ck_fifo_spsc_recycle. wp_load "Hs". wp_load "Hg".
  destruct (Z.eqb_spec (cl_entry sn) (cl_entry gb)) as [Heq|Hne].
  - wp_focus. iApply (spsc_observe_head with "[$Hinv $Hlb]"). iIntros "!>" (H c) "(#Hc & #Hlb' & %HsH)".
    wp_store "Hs". wp_load "Hs". wp_load "Hg".
    destruct (Z.eqb_spec (cl_entry c) (cl_entry gb)) as [_|Hne].
    + wp_pures. iApply "HΦ". iSplitL; [|by iLeft]. iExists n, G, H, tl, gb, c. iFrame "#∗". iPureIntro. lia.
    + destruct (decide (G = H)) as [->|HGH]; [by iDestruct (hist_agree with "Hc Hgb") as %->|].
      iApply (spsc_take γ γo n G H tl gb c with "[$Hinv $Hp $Htl $Ht $Hgb $Hg $Hc $Hs $Hlb']"); [lia|].
      iIntros "!>" (e) "[Hf Hr]". iApply "HΦ". iFrame.
  - destruct (decide (G = s)) as [->|HGH]; [by iDestruct (hist_agree with "Hsn Hgb") as %->|].
    iApply (spsc_take γ γo n G s tl gb sn with "[$Hinv $Hp $Htl $Ht $Hgb $Hg $Hsn $Hs $Hlb]"); [lia|].
    iIntros "!>" (e) "[Hf Hr]". iApply "HΦ". iFrame.
Qed.

Lemma recycle_and_enqueue_spec γ γo P v :
  spsc_inv γ γo -∗ shift γo P -∗ P [] -∗ prod_role γ -∗
  WP recycle_and_enqueue fifo v {{ b, P (if b : bool then [SEnq v] else []) ∗ prod_role γ }}.
Proof.
  iIntros "#Hinv #Hshift HP Hr". rewrite /recycle_and_enqueue. wp_focus.
  iApply (spsc_recycle_spec with "[$Hinv $Hr]"). iIntros "!>" (e) "[Hr [->|Hf]]".
  - rewrite Z.eqb_refl. wp_pures. iFrame.
  - iDestruct "Hf" as "[%Hne Hf]". rewrite (proj2 (Z.eqb_neq _ _) Hne). wp_focus.
    iApply (wp_wand (Λ:=ck_lang unit) with "[HP Hr Hf]").
    { by iApply (spsc_enqueue_spec with "Hinv Hshift HP [$Hf //] Hr"). }
    iIntros ([]) "[HP Hr]". wp_pures. iFrame.
Qed.
End spsc.

(** The queue for one producer and one consumer meets the interface of [Linear]; with
    its locks, any number of producers and consumers share the two roles. *)

Definition spscΣ : gFunctors :=
  #[ckΣ; ghost_varΣ (list Z); histΣ cell; ghost_varΣ (nat * nat); ghost_varΣ nat; mono_natΣ; tokenΣ;
    ghost_varΣ (list (entry spsc_event))].

#[global] Instance subG_spscΣ {Σ} : subG spscΣ Σ -> spscGS Σ.
Proof. solve_inG. Qed.

(** The memory of a queue at any time: from the entry of [head], which is not in the
    queue any more, the pointers lead through different entries to [NULL]. *)
Definition spsc_good (fifo : Z) (σ : mem) : Prop :=
  ∃ e es, NoDup (e :: es) /\ NULL ∉ e :: es /\ σ !! head fifo = Some e /\
    ∀ i x, (e :: es) !! i = Some x -> σ !! next x = Some (default NULL (es !! i)).

(** ** A role that a lock protects *)

Section locks.
Context `{!ckGS Σ, !tokenG Σ}.
Context (γ : gname) (lk : Z) (R : iProp Σ).

Lemma under_lock_spec {A} (p : prog A) (Q : A -> iProp Σ) :
  is_tas γ lk R -∗ (R -∗ WP p {{ r, Q r ∗ R }}) -∗
  WP under_lock true (ck_spinlock_fas_lock lk) (ck_spinlock_fas_unlock lk) p {{ Q }}.
Proof.
  iIntros "#Hlk Hp". rewrite /under_lock. wp_focus.
  iApply (spinlock_fas_acquire with "Hlk"). iIntros "!> [Ht HR]". wp_focus.
  iApply (wp_wand (Λ:=ck_lang A) with "(Hp HR)"). iIntros (r) "[HQ HR]". wp_focus.
  iApply (tas_release with "[$Hlk $Ht $HR]"). iIntros "!> _". by wp_pures.
Qed.

Lemma try_lock_spec {A} (p : prog A) (Q : option A -> iProp Σ) :
  is_tas γ lk R -∗ ((R -∗ WP p {{ r, Q (Some r) ∗ R }}) ∧ Q None) -∗
  WP try_lock (ck_spinlock_fas_trylock lk) (ck_spinlock_fas_unlock lk) p {{ Q }}.
Proof.
  iIntros "#Hlk Hp". rewrite /try_lock. wp_focus.
  iApply (spinlock_fas_trylock with "Hlk"). iIntros "!>" ([]) "H".
  - iDestruct "H" as "[Ht HR]". iDestruct "Hp" as "[Hp _]". wp_focus.
    iApply (wp_wand (Λ:=ck_lang A) with "(Hp HR)"). iIntros (r) "[HQ HR]". wp_focus.
    iApply (tas_release with "[$Hlk $Ht $HR]"). iIntros "!> _". by wp_pures.
  - iDestruct "Hp" as "[_ HQ]". by wp_pures.
Qed.
End locks.

Section lin.
Context `{!ckGS Σ, !spscGS Σ}.
Context (lp lc : bool) (fifo stub : Z).
Implicit Types (γ : spsc_name) (m : mem) (e v : Z) (es : list Z) (ops : list spsc_op).

Abbreviation O := (spsc_object lp lc fifo).

Definition spsc_init (scripts : list (list spsc_op)) m : Prop :=
  spsc_scripts_ok lp lc stub scripts /\ has_cells (spsc_layout fifo stub scripts) m /\
  m !! m_head fifo = Some 0 /\ m !! m_tail fifo = Some 0 /\ m !! next stub = Some NULL /\
  Forall (fun l => m !! l = Some stub) [head fifo; tail fifo; head_snapshot fifo; garbage fifo].

(** With a lock, anyone may take a role from it; without, one thread has it. *)
Definition side_inv (locks : bool) (γl : gname) (lk : Z) (R : iProp Σ) : iProp Σ :=
  (if locks then is_tas γl lk R else True)%I.
Definition side_tok (locks : bool) (f : spsc_op -> bool) ops (R : iProp Σ) : iProp Σ :=
  (if locks then True else if existsb f ops then R else True)%I.

Definition qlin_inv γ γo : iProp Σ :=
  spsc_inv fifo γ γo ∗ side_inv lp (qn_plock γ) (m_tail fifo) (prod_role fifo γ) ∗
  side_inv lc (qn_clock γ) (m_head fifo) (cons_role γ).

Definition qlin_tok γ ops : iProp Σ :=
  ⌜Forall (op_ok lp lc) ops⌝ ∗ ([∗ list] e ∈ ops ≫= enq_entries, free_entry e) ∗
  side_tok lp producing ops (prod_role fifo γ) ∗ side_tok lc consuming ops (cons_role γ).

#[global] Instance side_inv_persistent locks γl lk R : Persistent (side_inv locks γl lk R).
Proof. rewrite /side_inv. destruct locks; apply _. Qed.

(** An operation of a side. *)
Lemma side_spec {A} (locks : bool) f op ops γl lk R (p : prog A) (Q : A -> iProp Σ) :
  f op = true ->
  side_inv locks γl lk R -∗ side_tok locks f (op :: ops) R -∗ (R -∗ WP p {{ r, Q r ∗ R }}) -∗
  WP under_lock locks (ck_spinlock_fas_lock lk) (ck_spinlock_fas_unlock lk) p
    {{ r, Q r ∗ side_tok locks f ops R }}.
Proof.
  iIntros (Hf) "#Hlk Ht Hp". rewrite /side_tok /= Hf /=. destruct locks.
  - iApply (under_lock_spec with "Hlk"). iIntros "HR". iApply (wp_wand (Λ:=ck_lang A) with "(Hp HR)").
    by iIntros (r) "[$ $]".
  - iApply (wp_wand (Λ:=ck_lang A) with "(Hp Ht)"). iIntros (r) "[$ HR]". by destruct existsb.
Qed.

Lemma side_skip (locks : bool) f op ops R :
  f op = false -> side_tok locks f (op :: ops) R -∗ side_tok locks f ops R.
Proof. iIntros (Hf) "H". by rewrite /side_tok /= Hf. Qed.

(** The token of a side that takes its lock is worth nothing. *)
Lemma side_locked (locks : bool) f ops R : locks = true -> ⊢ side_tok locks f ops R.
Proof. by intros ->. Qed.

Lemma side_lock (locks : bool) γl lk R : locks = true -> side_inv locks γl lk R -∗ is_tas γl lk R.
Proof. by intros ->; iIntros. Qed.

Lemma qlin_op γ γo op ops (P : list spsc_event -> iProp Σ) :
  qlin_inv γ γo -∗ qlin_tok γ (op :: ops) -∗ lin_shift (O:=O) γo P -∗ P [] -∗
  WP spsc_code lp lc fifo op {{ r, ∃ evs, ⌜spsc_events op r evs⌝ ∗ P evs ∗ qlin_tok γ ops }}.
Proof.
  iIntros "(#Hinv & #Hpl & #Hcl) (%Hok & He & Hp & Hc) #Hshift HP". apply Forall_cons in Hok as [Hop Hok].
  iEval (rewrite bind_cons big_sepL_app) in "He". iDestruct "He" as "[He Hes]".
  destruct op as [e v|v|e v| | |]; cbn [spsc_code enq_entries] in *.
  - iDestruct (side_skip with "Hc") as "Hc"; [done|]. iDestruct "He" as "[He _]". wp_focus.
    iApply (wp_wand (Λ:=ck_lang unit) with "[HP He Hp]").
    { iApply (side_spec lp _ _ _ _ _ _ _ (λ _, P [SEnq v]) with "Hpl Hp"); [done|]. iIntros "Hr".
      by iApply (spsc_enqueue_spec with "Hinv Hshift HP He Hr"). }
    iIntros ([]) "[HP Hp]". wp_pures. iExists _. by iFrame.
  - iDestruct (side_skip with "Hc") as "Hc"; [done|]. wp_focus.
    iApply (wp_wand (Λ:=ck_lang bool) with "[HP Hp]").
    { iApply (side_spec lp _ _ _ _ _ _ _ (λ b : bool, P (if b then [SEnq v] else [])) with "Hpl Hp"); [done|].
      iIntros "Hr". by iApply (recycle_and_enqueue_spec with "Hinv Hshift HP Hr"). }
    iIntros (b) "[HP Hp]". wp_pures. iExists _. by iFrame.
  - iDestruct (side_skip with "Hc") as "Hc"; [done|]. iDestruct "He" as "[He _]". simpl in Hop.
    iDestruct (side_lock with "Hpl") as "Hl"; [done|]. wp_focus.
    iApply (wp_wand (Λ:=ck_lang (option unit)) _ _ _ (λ o, P (if o then [SEnq v] else [])) with "[HP He]").
    { iApply (try_lock_spec with "Hl"). iSplit; [|done]. iIntros "Hr".
      by iApply (spsc_enqueue_spec with "Hinv Hshift HP He Hr"). }
    iIntros (o) "HP". wp_pures. iExists _. iFrame. iSplit; [by destruct o|]. iSplit; [done|]. by iApply side_locked.
  - iDestruct (side_skip with "Hp") as "Hp"; [done|]. wp_focus.
    iApply (wp_wand (Λ:=ck_lang (option Z)) with "[HP Hc]").
    { iApply (side_spec lc _ _ _ _ _ _ _ (λ o, P [SDeq o]) with "Hcl Hc"); [done|].
      iIntros "Hr". by iApply (spsc_dequeue_spec with "Hinv Hshift HP Hr"). }
    iIntros (o) "[HP Hc]". wp_pures. iExists _. by iFrame.
  - iDestruct (side_skip with "Hp") as "Hp"; [done|]. simpl in Hop.
    iDestruct (side_lock with "Hcl") as "Hl"; [done|]. wp_focus.
    iApply (wp_wand (Λ:=ck_lang (option (option Z))) _ _ _
      (λ o, P match o with Some o => [SDeq o] | None => [] end) with "[HP]").
    { iApply (try_lock_spec with "Hl"). iSplit; [|done]. iIntros "Hr".
      by iApply (spsc_dequeue_spec with "Hinv Hshift HP Hr"). }
    iIntros (o) "HP". wp_pures. iExists _. iFrame. iSplit; [by destruct o|]. iSplit; [done|]. by iApply side_locked.
  - iDestruct (side_skip with "Hp") as "Hp"; [done|]. wp_focus.
    iApply (wp_wand (Λ:=ck_lang bool) with "[HP Hc]").
    { iApply (side_spec lc _ _ _ _ _ _ _ (λ b, P [SEmpty b]) with "Hcl Hc"); [done|].
      iIntros "Hr". by iApply (spsc_isempty_spec with "Hinv Hshift HP Hr"). }
    iIntros (b) "[HP Hc]". wp_pures. iExists _. by iFrame.
Qed.

(** ** Setting up *)

Lemma side_alloc (locks : bool) f (scripts : list (list spsc_op)) lk R E :
  (locks = false -> alone f scripts) ->
  lk ↦ 0 -∗ R ={E}=∗ ∃ γl, side_inv locks γl lk R ∗ [∗ list] ops ∈ scripts, side_tok locks f ops R.
Proof.
  iIntros (Ha) "Hlk HR". rewrite /side_inv /side_tok. destruct locks.
  - iMod (tas_alloc lk [] {[lk := 0]} R with "[Hlk] HR") as (γl) "[#Hl _]"; [done|by rewrite big_sepM_singleton|].
    iModIntro. iExists γl. iFrame "Hl". by iApply big_sepL_intro; iIntros "!>" (? ? _).
  - iModIntro. iExists inhabitant. iSplit; [done|]. iApply (give_alone with "HR"). by apply Ha.
Qed.

Lemma entries_own es m :
  NULL ∉ es -> ([∗ list] l ∈ es ≫= entry_cells, ∃ v, ⌜m !! l = Some v⌝ ∗ l ↦ v) -∗ [∗ list] e ∈ es, free_entry e.
Proof.
  iIntros (Hnull) "H". iInduction es as [|e es] "IH"; [done|]. apply not_elem_of_cons in Hnull as [Hne Hnull].
  rewrite bind_cons big_sepL_app /=. iDestruct "H" as "[((%x & _ & Hv) & (%y & _ & Hn) & _) H]".
  iSplitL "Hv Hn"; [rewrite /free_entry; by iFrame|]. by iApply "IH".
Qed.

Lemma qlin_alloc scripts m γo E :
  spsc_init scripts m ->
  ([∗ map] l ↦ v ∈ m, l ↦ v) -∗ ghost_var γo (1/2) [] ={E}=∗
  ∃ γ, qlin_inv γ γo ∗ [∗ list] ops ∈ scripts, qlin_tok γ ops.
Proof.
  iIntros (((Hnull & Hops & Hp & Hc) & Hcells & Hml & Hmt & Hsn & Hptrs)) "Hm Ho".
  rewrite !Forall_cons in Hptrs. destruct Hptrs as (Hhd & Htl & Hhs & Hgb & _).
  apply not_elem_of_cons in Hnull as [Hne Hnull].
  iDestruct (has_cells_own with "Hm") as "H"; [exact Hcells|].
  rewrite /spsc_layout big_sepL_app bind_cons big_sepL_app.
  iDestruct "H" as "(Hf & ((%w & _ & Hsv) & (%n & %En & Hsn) & _) & Hes)".
  iDestruct "Hf" as "((%v1 & %E1 & Hml) & (%v2 & %E2 & Hhd) & (%v3 & %E3 & Hmt) & (%v4 & %E4 & Htl) & (%v5 & %E5 & Hhs) & (%v6 & %E6 & Hgb) & _)".
  simplify_eq. iDestruct (entries_own with "Hes") as "Hes"; [done|].
  iMod (hist_alloc (Cell stub w)) as (γh) "[Hhist #Hstub]".
  iMod (mono_nat_own_alloc 0) as (γH) "[HH #Hlb]".
  iMod (ghost_var_alloc (1%nat, 0%nat)) as (γp) "[Hpv Hp]". iMod (ghost_var_alloc 0%nat) as (γc) "[Hcv Hc]".
  set (role γ := prod_role fifo γ).
  iMod (side_alloc lp producing scripts (m_tail fifo) (role (SpscName γh γp γc γH inhabitant inhabitant))
    with "Hmt [Hp Htl Hhs Hgb]") as (γ1) "[#Hs1 Ht1]"; [done| |].
  { iExists 0%nat, 0%nat, 0%nat, (Cell stub w), (Cell stub w), (Cell stub w). iFrame. by iFrame "#". }
  iMod (side_alloc lc consuming scripts (m_head fifo) (cons_role (SpscName γh γp γc γH inhabitant inhabitant))
    with "Hml [Hc]") as (γ2) "[#Hs2 Ht2]"; [done|by iExists 0%nat|].
  iMod (inv_alloc spscN _ (spsc_state fifo (SpscName γh γp γc γH γ1 γ2) γo) with "[Ho Hhist Hpv Hcv HH Hhd Hsv Hsn]") as "#Hinv".
  { iNext. iExists [Cell stub w], 0%nat, 0%nat. iFrame. iSplitL "Hhd"; [iExists (Cell _ _); by iFrame|].
    rewrite /chain_cells /next_of /=. iFrame. iPureIntro. split; [done|by repeat constructor]. }
  iModIntro. iExists (SpscName γh γp γc γH γ1 γ2). iSplitR; [by iFrame "#"|].
  rewrite /qlin_tok big_sepL_sep big_sepL_sep big_sepL_sep. iFrame "Ht1 Ht2". iSplitR.
  { iApply big_sepL_pure. iPureIntro. intros t ops Ht. rewrite Forall_lookup in Hops. eauto. }
  rewrite -(big_sepL_bind (fun ops => ops ≫= enq_entries) free_entry). iExact "Hes".
Qed.

(** ** The memory *)

Lemma chain_nodup (l : list cell) (f : nat -> cell -> Z) :
  ([∗ list] i ↦ c ∈ l, value (cl_entry c) ↦ cl_value c ∗ next (cl_entry c) ↦ f i c) -∗ ⌜NoDup (cl_entry <$> l)⌝.
Proof.
  iIntros "H". iInduction l as [|c l] "IH" forall (f); [iPureIntro; constructor|].
  rewrite big_sepL_cons. iDestruct "H" as "[[Hc _] H]". iDestruct ("IH" $! (λ i, f (S i)) with "H") as %Hnd.
  iAssert ⌜cl_entry c ∉ cl_entry <$> l⌝%I as %Hnew; [|iPureIntro; by constructor].
  iIntros (Hin). apply list_elem_of_fmap in Hin as (d & Heq & [i Hi]%list_elem_of_lookup).
  iDestruct (big_sepL_lookup with "H") as "[Hd _]"; [exact Hi|]. rewrite -Heq.
  by iDestruct (pointsto_ne with "Hc Hd") as %[].
Qed.

Lemma qlin_good γ γo σ E :
  ↑objN ⊆ E -> qlin_inv γ γo -∗ gen_heap_interp σ ={E}=∗ gen_heap_interp σ ∗ ⌜spsc_good fifo σ⌝.
Proof.
  iIntros (HE) "(#Hinv & _) Hσ". open_spsc. iDestruct (gen_heap_valid with "Hσ Hhp") as %Hhead.
  iDestruct (chain_nodup _ (λ i _, next_of hist (G + i)) with "Hcells") as %Hnd.
  iAssert ⌜∀ i c, drop H hist !! i = Some c -> σ !! next (cl_entry c) = Some (next_of hist (H + i))⌝%I as %Hnext.
  { iIntros (i c Hi). rewrite lookup_drop in Hi.
    iDestruct (chain_acc with "Hcells") as "(_ & Hn & _)"; [exact Hi|lia|]. iApply (gen_heap_valid with "Hσ Hn"). }
  iModIntro. iSplitR "Hσ"; [close_spsc hist G H|]. iModIntro. iFrame. iPureIntro.
  assert (NoDup (cl_entry <$> drop H hist)) as Hnd'.
  { replace H with (G + (H - G))%nat by lia. rewrite -drop_drop fmap_drop.
    eapply sublist_NoDup; [exact Hnd|apply sublist_drop]. }
  rewrite (drop_S _ _ _ Hhd) in Hnd' Hnext. exists (cl_entry hd), (cl_entry <$> drop (S H) hist).
  split_and!; [done| |done|].
  - intros Hin. change (_ :: _) with (cl_entry <$> (hd :: drop (S H) hist)) in Hin.
    apply list_elem_of_fmap in Hin as (c & Heq & Hin). rewrite -(drop_S _ _ _ Hhd) in Hin.
    rewrite Forall_forall in Hnull. apply (Hnull c); [|done]. apply list_elem_of_lookup in Hin as [i Hi].
    rewrite lookup_drop in Hi. by apply list_elem_of_lookup_2 in Hi.
  - intros i x Hx. change (_ :: _) with (cl_entry <$> (hd :: drop (S H) hist)) in Hx.
    apply list_lookup_fmap_Some_1 in Hx as (c & -> & Hc). rewrite (Hnext _ _ Hc).
    rewrite list_lookup_fmap lookup_drop /next_of Nat.add_succ_l. by destruct (hist !! S (H + i)).
Qed.

#[global] Instance spsc_lin_spec : LinSpec O spsc_init (spsc_good fifo).
Proof.
  refine {| lin_name := spsc_name; lin_inv := qlin_inv; lin_tok := qlin_tok : _ -> list (oop O) -> _ |}.
  - apply qlin_alloc.
  - apply qlin_op.
  - apply qlin_good.
Defined.
End lin.

Lemma spsc_spec lp lc fifo stub :
  ∀ `{!ckGS spscΣ}, LinSpec (spsc_object lp lc fifo) (spsc_init lp lc fifo stub) (spsc_good fifo).
Proof. intros ?. apply spsc_lin_spec. Qed.
