(* ===== verification/FifoTheorems.v ===== *)
(** The queues of ck_fifo.h: their theorems. *)

From S2P Require Export FifoMpmcLin FifoSpscProof Linear.
Set Warnings "-rewrite-rw".

(** * Many producers and consumers *)

(** What the initialiser leaves of any memory with the cells of the queue and its
    entries. *)
Definition fifo_memory (fifo stub : Z) (m0 : mem) : mem :=
  foldl (fun m '(l, v) => <[l := v]> m) m0
    [(next_pointer stub, NULL); (next_generation stub, 0); (tail_pointer fifo, stub); (head_pointer fifo, stub);
     (tail_generation fifo, 0); (head_generation fifo, 0)].

Lemma has_cells_is_Some ls m l : has_cells ls m -> l ∈ ls -> is_Some (m !! l).
Proof. intros [_ Hdom] Hl. apply elem_of_dom. rewrite Hdom. set_solver. Qed.

Lemma returns_st_seq {A} l v (p : prog A) ls m a m' :
  has_cells ls m -> l ∈ ls ->
  (has_cells ls (<[l := v]> m) -> returns p (<[l := v]> m) a m') -> returns (st l v ;; p) m a m'.
Proof.
  intros Hcells Hl Hp. destruct (has_cells_is_Some _ _ _ Hcells Hl) as [w Hw].
  eapply returns_bind; [by eapply returns_store|]. by apply Hp, has_cells_insert.
Qed.

Lemma fifo_init_returns fifo stub scripts m0 :
  has_cells (fifo_layout fifo stub scripts) m0 ->
  returns (ck_fifo_mpmc_init fifo stub) m0 tt (fifo_memory fifo stub m0) /\
  has_cells (fifo_layout fifo stub scripts) (fifo_memory fifo stub m0).
Proof.
  intros Hcells. unfold ck_fifo_mpmc_init, fifo_memory. cbn [foldl].
  assert (Forall (fun l => l ∈ fifo_layout fifo stub scripts)
    [next_pointer stub; next_generation stub; tail_pointer fifo; head_pointer fifo; tail_generation fifo; head_generation fifo]) as Hin.
  { unfold fifo_layout. rewrite bind_cons. repeat constructor; set_solver. }
  rewrite !Forall_cons in Hin. destruct Hin as (H1 & H2 & H3 & H4 & H5 & H6 & _).
  split; [|by repeat apply has_cells_insert].
  do 5 (eapply returns_st_seq; [done..|intros ?]).
  destruct (has_cells_is_Some _ (<[tail_generation fifo := 0]> (<[head_pointer fifo := stub]>
    (<[tail_pointer fifo := stub]> (<[next_generation stub := 0]> (<[next_pointer stub := NULL]> m0))))) (head_generation fifo)
    ltac:(eassumption) ltac:(done)) as [w Hw]. by eapply returns_store.
Qed.

Lemma fifo_memory_init fifo stub scripts m0 :
  fifo_scripts_ok stub scripts -> has_cells (fifo_layout fifo stub scripts) m0 ->
  flin_init fifo stub scripts (fifo_memory fifo stub m0).
Proof.
  intros Hok Hcells. split; [done|]. split; [by apply fifo_init_returns|].
  destruct Hcells as [Hnd _]. unfold fifo_layout in Hnd. rewrite bind_cons app_assoc in Hnd.
  apply NoDup_app in Hnd as (Hnd & _ & _). cbn [app fifo_cells entry_cells] in Hnd.
  rewrite !NoDup_cons !not_elem_of_cons in Hnd. destruct_and! Hnd.
  unfold fifo_memory. cbn [foldl]. split_and!; by simplify_map_eq.
Qed.

Definition fifo_system (fifo clock : Z) (scripts : list (list fifo_op)) (m : mem) : config (list (call fifo_ret)) :=
  workers (fifo_object fifo) clock scripts m.

(** C3. Linearizability of [ck_fifo_mpmc]: from a queue that [ck_fifo_mpmc_init]
    initialised, for any number of threads that run scripts of enqueues, dequeues and
    attempts of both, and that enqueue the entries they were handed by a dequeue at once
    again, under every scheduler: no step faults; the returned calls are explained by
    atomic events on a queue, each between its call's invocation and response (a dequeue
    answers that the queue is empty only if it was at a moment during the call); and at
    every point the pointers lead from [head] through distinct entries to [NULL], and
    [tail] is the last one or the one before.  Fewer than 2^64 enqueues. *)
Theorem fifo_mpmc_linearizable fifo stub clock scripts m0 m ps σ :
  fifo_scripts_ok stub scripts -> has_cells (fifo_layout fifo stub scripts) m0 -> m !! clock = None ->
  returns (ck_fifo_mpmc_init fifo stub) m0 tt m ->
  rtc sys_step (fifo_system fifo clock scripts m) (ps, σ) ->
  linearizable (fifo_object fifo) scripts ps /\ fifo_good fifo σ /\ (∀ p, p ∈ ps -> safe p σ).
Proof.
  intros Hok Hcells Hclock Hinit Hsteps.
  destruct (returns_det _ _ _ _ _ _ Hinit (proj1 (fifo_init_returns _ _ _ _ Hcells))) as [_ ->].
  destruct (spec_linearizable fifoΣ _ _ _ (@fifo_spec fifo stub) clock scripts _ ps σ
    (fifo_memory_init _ _ _ _ Hok Hcells) Hclock Hsteps) as [[H1 H2] H3]. done.
Qed.

(** Three threads that pass entries around. *)
Definition fifo_demo_scripts : list (list fifo_op) :=
  [[FpEnq 20 7; FpMove 8; FpDeq]; [FpTryEnq 30 9; FpMove 10; FpTryDeq]; [FpDeq; FpEnq 40 11; FpMove 12]].
Definition fifo_demo_memory : mem := list_to_map (map (fun l => (l, 5)) (fifo_layout 1 10 fifo_demo_scripts)).

Lemma fifo_demo_ok : fifo_scripts_ok 10 fifo_demo_scripts.
Proof. split; [|reflexivity]. apply (bool_decide_unpack _). vm_compute. exact I. Qed.

Lemma fifo_demo_cells : has_cells (fifo_layout 1 10 fifo_demo_scripts) fifo_demo_memory.
Proof. split; [apply (bool_decide_unpack _); vm_compute; exact I|vm_compute; reflexivity]. Qed.

Definition fifo_demo_system : config (list (call fifo_ret)) :=
  fifo_system 1 100 fifo_demo_scripts (fifo_memory 1 10 fifo_demo_memory).

Lemma fifo_mpmc_linearizable_witness :
  let c := round_robin 400 fifo_demo_system in
  forallb is_ret c.1 = true /\ linearizable (fifo_object 1) fifo_demo_scripts c.1 /\ fifo_good 1 c.2.
Proof.
  intros c. split; [vm_compute; reflexivity|].
  destruct (fifo_mpmc_linearizable 1 10 100 fifo_demo_scripts fifo_demo_memory
    (fifo_memory 1 10 fifo_demo_memory) c.1 c.2) as (Hlin & Hgood & _).
  - exact fifo_demo_ok.
  - exact fifo_demo_cells.
  - vm_compute. reflexivity.
  - apply (proj1 (fifo_init_returns _ _ _ _ fifo_demo_cells)).
  - unfold c, fifo_demo_system. apply round_robin_pair.
  - split; [exact Hlin|exact Hgood].
Defined.

(** * One producer and one consumer, or several with the locks *)

Definition spsc_memory (fifo stub : Z) (m0 : mem) : mem :=
  foldl (fun m '(l, v) => <[l := v]> m) m0
    [(Spsc.m_head fifo, 0); (Spsc.m_tail fifo, 0); (Spsc.next stub, NULL); (Spsc.garbage fifo, stub);
     (Spsc.head_snapshot fifo, stub); (Spsc.tail fifo, stub); (Spsc.head fifo, stub)].

Lemma spsc_init_returns fifo stub scripts m0 :
  has_cells (Spsc.spsc_layout fifo stub scripts) m0 ->
  returns (Spsc.ck_fifo_spsc_init fifo stub) m0 tt (spsc_memory fifo stub m0) /\
  has_cells (Spsc.spsc_layout fifo stub scripts) (spsc_memory fifo stub m0).
Proof.
  intros Hcells. unfold Spsc.ck_fifo_spsc_init, spsc_memory. cbn [foldl].
  assert (Forall (fun l => l ∈ Spsc.spsc_layout fifo stub scripts)
    [Spsc.m_head fifo; Spsc.m_tail fifo; Spsc.next stub; Spsc.garbage fifo; Spsc.head_snapshot fifo; Spsc.tail fifo; Spsc.head fifo]) as Hin.
  { unfold Spsc.spsc_layout. rewrite bind_cons. repeat constructor; set_solver. }
  rewrite !Forall_cons in Hin. destruct Hin as (H1 & H2 & H3 & H4 & H5 & H6 & H7 & _).
  split; [|by repeat apply has_cells_insert].
  do 2 (eapply returns_bind; [eapply returns_st_seq; [done..|intros ?; apply returns_fence]|];
        match goal with |- returns _ ?m _ _ => assert (has_cells (Spsc.spsc_layout fifo stub scripts) m)
          by (by apply has_cells_insert) end).
  do 4 (eapply returns_st_seq; [done..|intros ?]).
  match goal with H : has_cells _ ?m |- returns _ ?m _ _ =>
    destruct (has_cells_is_Some _ _ (Spsc.head fifo) H ltac:(done)) as [w Hw] end.
  by eapply returns_store.
Qed.

Lemma spsc_memory_init lp lc fifo stub scripts m0 :
  Spsc.spsc_scripts_ok lp lc stub scripts -> has_cells (Spsc.spsc_layout fifo stub scripts) m0 ->
  spsc_init lp lc fifo stub scripts (spsc_memory fifo stub m0).
Proof.
  intros Hok Hcells. split; [done|]. split; [by apply spsc_init_returns|].
  destruct Hcells as [Hnd _]. unfold Spsc.spsc_layout in Hnd. rewrite bind_cons app_assoc in Hnd.
  apply NoDup_app in Hnd as (Hnd & _ & _). cbn [app Spsc.fifo_cells Spsc.entry_cells] in Hnd.
  rewrite !NoDup_cons !not_elem_of_cons in Hnd. destruct_and! Hnd.
  unfold spsc_memory. cbn [foldl]. split_and!; [by simplify_map_eq..|].
  repeat constructor; by simplify_map_eq.
Qed.

Definition spsc_system (lp lc : bool) (fifo clock : Z) (scripts : list (list Spsc.spsc_op)) (m : mem) :
    config (list (call Spsc.spsc_ret)) :=
  workers (Spsc.spsc_object lp lc fifo) clock scripts m.

(** C23. Linearizability of [ck_fifo_spsc]: from a queue that [ck_fifo_spsc_init]
    initialised, for threads that run scripts of enqueues, of enqueues of recycled
    entries, of dequeues and of tests for emptiness, where each side is one thread, or
    any number that take the lock of that side (or try to) around the operation: under
    every scheduler no step faults; the returned calls are explained by one atomic event
    each on a queue, between invocation and response (a failed attempt, and a recycling
    that finds nothing, by none); and at every point the pointers lead from [head]
    through distinct entries to [NULL]. *)
Theorem fifo_spsc_linearizable lp lc fifo stub clock scripts m0 m ps σ :
  Spsc.spsc_scripts_ok lp lc stub scripts -> has_cells (Spsc.spsc_layout fifo stub scripts) m0 ->
  m !! clock = None -> returns (Spsc.ck_fifo_spsc_init fifo stub) m0 tt m ->
  rtc sys_step (spsc_system lp lc fifo clock scripts m) (ps, σ) ->
  linearizable (Spsc.spsc_object lp lc fifo) scripts ps /\ spsc_good fifo σ /\ (∀ p, p ∈ ps -> safe p σ).
Proof.
  intros Hok Hcells Hclock Hinit Hsteps.
  destruct (returns_det _ _ _ _ _ _ Hinit (proj1 (spsc_init_returns _ _ _ _ Hcells))) as [_ ->].
  destruct (spec_linearizable spscΣ _ _ _ (@spsc_spec lp lc fifo stub) clock scripts _ ps σ
    (spsc_memory_init _ _ _ _ _ _ Hok Hcells) Hclock Hsteps) as [[H1 H2] H3]. done.
Qed.

(** Two producers that share the lock, and one consumer. *)
Definition spsc_demo_scripts : list (list Spsc.spsc_op) :=
  [[Spsc.SpEnq 20 7; Spsc.SpTryEnq 30 8; Spsc.SpRecycle 9]; [Spsc.SpRecycle 10; Spsc.SpEnq 40 11];
   [Spsc.SpIsEmpty; Spsc.SpDeq; Spsc.SpDeq; Spsc.SpDeq]].
Definition spsc_demo_memory : mem := list_to_map (map (fun l => (l, 5)) (Spsc.spsc_layout 1 10 spsc_demo_scripts)).

Lemma spsc_demo_ok : Spsc.spsc_scripts_ok true false 10 spsc_demo_scripts.
Proof.
  split; [apply (bool_decide_unpack _); vm_compute; exact I|]. split; [by repeat constructor|]. split; [done|].
  intros _ t1 t2 o1 o2 H1 H2. destruct t1 as [|[|[|]]], t2 as [|[|[|]]]; by simplify_eq/=.
Qed.

Lemma spsc_demo_cells : has_cells (Spsc.spsc_layout 1 10 spsc_demo_scripts) spsc_demo_memory.
Proof. split; [apply (bool_decide_unpack _); vm_compute; exact I|vm_compute; reflexivity]. Qed.

Definition spsc_demo_system : config (list (call Spsc.spsc_ret)) :=
  spsc_system true false 1 100 spsc_demo_scripts (spsc_memory 1 10 spsc_demo_memory).

Lemma fifo_spsc_linearizable_witness :
  let c := round_robin 400 spsc_demo_system in
  forallb is_ret c.1 = true /\
  linearizable (Spsc.spsc_object true false 1) spsc_demo_scripts c.1 /\ spsc_good 1 c.2.
Proof.
  intros c. split; [vm_compute; reflexivity|].
  destruct (fifo_spsc_linearizable true false 1 10 100 spsc_demo_scripts spsc_demo_memory
    (spsc_memory 1 10 spsc_demo_memory) c.1 c.2) as (Hlin & Hgood & _).
  - exact spsc_demo_ok.
  - exact spsc_demo_cells.
  - vm_compute. reflexivity.
  - apply (proj1 (spsc_init_returns _ _ _ _ spsc_demo_cells)).
  - unfold c, spsc_demo_system. apply round_robin_pair.
  - split; [exact Hlin|exact Hgood].
Defined.

(** ** Wait-freedom without the locks *)

Definition spsc_op_steps : nat := 60.
Definition spsc_script_steps (ops : list Spsc.spsc_op) : nat := length ops * (6 + spsc_op_steps).

Lemma spsc_op_bounded fifo op :
  Spsc.op_ok false false op -> bounded spsc_op_steps (Spsc.spsc_code false false fifo op).
Proof.
  intros Hop. unfold spsc_op_steps. destruct op; try done;
    (eapply bounded_mono;
      [unfold Spsc.spsc_code, Spsc.enqueue_side, Spsc.dequeue_side, Spsc.under_lock, Spsc.recycle_and_enqueue,
         Spsc.ck_fifo_spsc_enqueue, Spsc.ck_fifo_spsc_dequeue, Spsc.ck_fifo_spsc_recycle, Spsc.ck_fifo_spsc_isempty;
       bound_with ltac:(fail)|lia]).
Qed.

Lemma spsc_worker_bounded fifo clock ops :
  Forall (Spsc.op_ok false false) ops ->
  bounded (spsc_script_steps ops) (worker (Spsc.spsc_object false false fifo) clock ops).
Proof.
  intros Hops. rewrite /spsc_script_steps. induction Hops as [|op ops Hop Hops IH]; cbn [worker]; [constructor|].
  eapply bounded_mono; [bound_with ltac:(first [apply IH|apply spsc_op_bounded, Hop])|simpl; lia].
Qed.

(** C24. Wait-freedom of [ck_fifo_spsc] without its locks: a producer and a consumer
    with scripts of [n] and [m] operations take at most [(n + m) * 66] steps together
    under every scheduler, and none of their steps faults. *)
Theorem fifo_spsc_wait_free fifo stub clock scripts m0 m n ps σ :
  Spsc.spsc_scripts_ok false false stub scripts -> has_cells (Spsc.spsc_layout fifo stub scripts) m0 ->
  m !! clock = None -> returns (Spsc.ck_fifo_spsc_init fifo stub) m0 tt m ->
  nsteps sys_step n (spsc_system false false fifo clock scripts m) (ps, σ) ->
  (n <= sum_list (spsc_script_steps <$> scripts))%nat /\ (∀ p, p ∈ ps -> safe p σ).
Proof.
  intros Hok Hcells Hclock Hinit Hsteps. split.
  - refine (bounded_pool n _ ps _ σ _ _ Hsteps). destruct Hok as (_ & Hops & _). clear -Hops.
    induction Hops as [|ops scripts Hop Hops IH]; constructor; [by apply spsc_worker_bounded|done].
  - destruct (returns_det _ _ _ _ _ _ Hinit (proj1 (spsc_init_returns _ _ _ _ Hcells))) as [_ ->].
    apply (spec_linearizable spscΣ _ _ _ (@spsc_spec false false fifo stub) clock scripts _ ps σ
      (spsc_memory_init _ _ _ _ _ _ Hok Hcells) Hclock).
    by apply (rtc_nsteps_2 n).
Qed.

Definition spsc_pair_scripts : list (list Spsc.spsc_op) :=
  [[Spsc.SpEnq 20 7; Spsc.SpRecycle 8; Spsc.SpRecycle 9]; [Spsc.SpDeq; Spsc.SpIsEmpty; Spsc.SpDeq]].
Definition spsc_pair_memory : mem := list_to_map (map (fun l => (l, 5)) (Spsc.spsc_layout 1 10 spsc_pair_scripts)).

Lemma spsc_pair_ok : Spsc.spsc_scripts_ok false false 10 spsc_pair_scripts.
Proof.
  split; [apply (bool_decide_unpack _); vm_compute; exact I|]. split; [by repeat constructor|].
  split; intros _ t1 t2 o1 o2 H1 H2; destruct t1 as [|[|]], t2 as [|[|]]; by simplify_eq/=.
Qed.

Lemma spsc_pair_cells : has_cells (Spsc.spsc_layout 1 10 spsc_pair_scripts) spsc_pair_memory.
Proof. split; [apply (bool_decide_unpack _); vm_compute; exact I|vm_compute; reflexivity]. Qed.

Definition spsc_pair_system : config (list (call Spsc.spsc_ret)) :=
  spsc_system false false 1 100 spsc_pair_scripts (spsc_memory 1 10 spsc_pair_memory).

Lemma fifo_spsc_wait_free_witness :
  let c := round_robin 150 spsc_pair_system in
  forallb is_ret c.1 = true /\
  ∃ n, nsteps sys_step n spsc_pair_system c /\ (n <= sum_list (spsc_script_steps <$> spsc_pair_scripts))%nat.
Proof.
  intros c. split; [vm_compute; reflexivity|].
  destruct (rtc_nsteps_1 _ _ (round_robin_pair 150 spsc_pair_system)) as [n Hn].
  exists n. rewrite -surjective_pairing in Hn. split; [exact Hn|]. rewrite (surjective_pairing (round_robin _ _)) in Hn.
  refine (proj1 (fifo_spsc_wait_free 1 10 100 spsc_pair_scripts spsc_pair_memory (spsc_memory 1 10 spsc_pair_memory)
    n _ _ spsc_pair_ok spsc_pair_cells _ (proj1 (spsc_init_returns _ _ _ _ spsc_pair_cells)) Hn)).
  vm_compute. reflexivity.
Defined.
