(* ===== verification/Probe.v ===== *)
(** Open addressing, independently of how a table hashes and walks: slots that
    are vacant, dead (tombstones) or live; what it means for every live entry to
    be reachable from its hash; and how storing, killing and replacing entries
    preserve that.  Shared by the hash set and the hash table. *)

From S2P Require Export Internal.
Set Warnings "-rewrite-rw".

Inductive slot_kind := Vacant | Dead | Live.

#[global] Instance slot_kind_eq_dec : EqDecision slot_kind.
Proof. solve_decision. Defined.

(** Replacing one element of a list exchanges its contribution to a filter. *)
Lemma filter_insert_swap {A} (P : A -> Prop) `{!∀ x, Decision (P x)} (l : list A) i x y :
  l !! i = Some x ->
  filter P (<[i:=y]> l) ++ filter P [x] ≡ₚ filter P [y] ++ filter P l.
Proof.
  intros Hi. pose proof (lookup_lt_Some _ _ _ Hi) as Hlt.
  rewrite insert_take_drop // -{3}(take_drop_middle l i x Hi).
  rewrite !filter_app. change (x :: ?a) with ([x] ++ a). change (y :: ?a) with ([y] ++ a).
  rewrite !filter_app. solve_Permutation.
Qed.

Section open_addressing.
Context {E : Type} (kind : E -> slot_kind) (hash : E -> Z) (same : E -> E -> Prop).
Context (pos : Z -> nat -> nat).
Implicit Types (l : list E) (e : E) (h : Z) (bound : Z -> nat).

Definition live l : list E := filter (λ e, kind e = Live) l.
Definition dead l : list E := filter (λ e, kind e = Dead) l.

Definition occupied l (s : nat) : Prop := ∃ e, l !! s = Some e /\ kind e <> Vacant.

(** The first [p] slots of the walk of [h] are all in use. *)
Definition path l h (p : nat) : Prop := ∀ q, (q < p)%nat -> occupied l (pos h q).

(** Every live entry is met on the walk of its hash, before any vacant slot and
    within the bound kept for that hash. *)
Definition placed l bound : Prop :=
  ∀ s e, l !! s = Some e -> kind e = Live ->
    ∃ p, (p < bound (hash e))%nat /\ pos (hash e) p = s /\ path l (hash e) p.

Definition unique l : Prop :=
  ∀ s1 s2 e1 e2, l !! s1 = Some e1 -> l !! s2 = Some e2 ->
    kind e1 = Live -> kind e2 = Live -> same e1 e2 -> s1 = s2.

(** No live entry satisfies [mt]. *)
Definition absent l (mt : E -> Prop) : Prop :=
  ∀ s e, l !! s = Some e -> kind e = Live -> ¬ mt e.

Lemma elem_of_live l e : e ∈ live l <-> kind e = Live /\ ∃ s, l !! s = Some e.
Proof. by rewrite /live list_elem_of_filter list_elem_of_lookup. Qed.

Lemma absent_live l mt : absent l mt <-> ∀ e, e ∈ live l -> ¬ mt e.
Proof.
  split.
  - intros H e [Hk [s Hs]]%elem_of_live. by eapply H.
  - intros H s e Hs Hk. apply H, elem_of_live. eauto.
Qed.

(** ** Contents *)

Lemma live_store l s old e :
  l !! s = Some old -> kind old <> Live -> kind e = Live ->
  live (<[s:=e]> l) ≡ₚ e :: live l.
Proof.
  intros Hs Hold He. pose proof (filter_insert_swap (λ e, kind e = Live) l s old e Hs) as H.
  rewrite (filter_cons_False (λ e, kind e = Live) _ _ Hold) (filter_cons_True (λ e, kind e = Live) _ _ He) !filter_nil in H.
  by rewrite app_nil_r in H.
Qed.

Lemma live_kill l s old e :
  l !! s = Some old -> kind old = Live -> kind e <> Live ->
  old :: live (<[s:=e]> l) ≡ₚ live l.
Proof.
  intros Hs Hold He. pose proof (filter_insert_swap (λ e, kind e = Live) l s old e Hs) as H.
  rewrite (filter_cons_True (λ e, kind e = Live) _ _ Hold) (filter_cons_False (λ e, kind e = Live) _ _ He) !filter_nil in H.
  rewrite /live. simpl in H. rewrite -H. solve_Permutation.
Qed.

Lemma live_replace l s old e :
  l !! s = Some old -> kind old = Live -> kind e = Live ->
  old :: live (<[s:=e]> l) ≡ₚ e :: live l.
Proof.
  intros Hs Hold He. pose proof (filter_insert_swap (λ e, kind e = Live) l s old e Hs) as H.
  rewrite (filter_cons_True (λ e, kind e = Live) _ _ Hold) (filter_cons_True (λ e, kind e = Live) _ _ He) !filter_nil in H.
  rewrite /live. simpl in H. rewrite -H. solve_Permutation.
Qed.

Definition dead_count e : nat := match kind e with Dead => 1 | _ => 0 end.

Lemma dead_count_dead e : kind e = Dead -> dead_count e = 1%nat.
Proof. unfold dead_count. by intros ->. Qed.

Lemma dead_count_other e : kind e <> Dead -> dead_count e = 0%nat.
Proof. unfold dead_count. by destruct (kind e). Qed.

Lemma dead_insert l s old e :
  l !! s = Some old ->
  (length (dead (<[s:=e]> l)) + dead_count old = dead_count e + length (dead l))%nat.
Proof.
  intros Hs. pose proof (filter_insert_swap (λ e, kind e = Dead) l s old e Hs) as H.
  apply Permutation_length in H. rewrite !length_app !filter_cons !filter_nil in H.
  rewrite /dead /dead_count. by destruct (kind old), (kind e).
Qed.

Lemma live_le_length l : (length (live l) <= length l)%nat.
Proof. apply length_filter. Qed.

(** ** Reachability *)

Lemma occupied_insert l s e s' :
  kind e <> Vacant -> occupied l s' -> occupied (<[s:=e]> l) s'.
Proof.
  intros He (e' & Hs' & He'). destruct (decide (s = s')) as [->|Hne].
  - exists e. split; [|done]. apply list_lookup_insert_eq. by eapply lookup_lt_Some.
  - exists e'. by rewrite list_lookup_insert_ne.
Qed.

Lemma path_insert l s e h p :
  kind e <> Vacant -> path l h p -> path (<[s:=e]> l) h p.
Proof. intros He Hp q Hq. apply occupied_insert; auto. Qed.

Lemma path_S l h p : path l h p -> occupied l (pos h p) -> path l h (S p).
Proof.
  intros Hp Ho q Hq. destruct (decide (q = p)) as [->|Hne]; [done|]. apply Hp. lia.
Qed.

Lemma path_le l h p q : (q <= p)%nat -> path l h p -> path l h q.
Proof. intros Hle Hp i Hi. apply Hp. lia. Qed.

Lemma placed_mono l bound bound' :
  (∀ h, bound h <= bound' h)%nat -> placed l bound -> placed l bound'.
Proof.
  intros Hb Hp s e Hs He. destruct (Hp s e Hs He) as (p & Hlt & Hpos & Hpath).
  exists p. specialize (Hb (hash e)). repeat split; [lia|done..].
Qed.

(** Storing a live entry at position [p] of its walk, whatever was there. *)
Lemma placed_store l bound s e p :
  kind e = Live -> pos (hash e) p = s -> path l (hash e) p -> (p < bound (hash e))%nat ->
  placed l bound -> placed (<[s:=e]> l) bound.
Proof.
  intros He Hpos Hpath Hlt Hpl s' e' Hs' He'.
  assert (kind e <> Vacant) as Hv by congruence.
  destruct (decide (s = s')) as [<-|Hne].
  - pose proof (lookup_lt_Some _ _ _ Hs') as Hl. rewrite length_insert in Hl.
    rewrite list_lookup_insert_eq // in Hs'. simplify_eq. exists p.
    repeat split; [done..|]. by apply path_insert.
  - rewrite list_lookup_insert_ne // in Hs'.
    destruct (Hpl s' e' Hs' He') as (q & Hq & Hqs & Hqp). exists q.
    repeat split; [done..|]. by apply path_insert.
Qed.

Lemma placed_kill l bound s e :
  kind e = Dead -> placed l bound -> placed (<[s:=e]> l) bound.
Proof.
  intros He Hpl s' e' Hs' He'. destruct (decide (s = s')) as [<-|Hne].
  - pose proof (lookup_lt_Some _ _ _ Hs') as Hl. rewrite length_insert in Hl.
    rewrite list_lookup_insert_eq // in Hs'. congruence.
  - rewrite list_lookup_insert_ne // in Hs'.
    destruct (Hpl s' e' Hs' He') as (q & Hq & Hqs & Hqp). exists q.
    repeat split; [done..|]. apply path_insert; [congruence|done].
Qed.

Lemma placed_none l bound : live l = [] -> placed l bound.
Proof.
  intros Hl s e Hs He. assert (e ∈ live l) as Hin by (apply elem_of_live; eauto).
  rewrite Hl in Hin. by apply elem_of_nil in Hin.
Qed.

(** ** Uniqueness *)

Lemma unique_store l s e :
  unique l ->
  (∀ s' e', s' <> s -> l !! s' = Some e' -> kind e' = Live -> ¬ same e' e /\ ¬ same e e') ->
  unique (<[s:=e]> l).
Proof.
  intros Hu Hnew s1 s2 e1 e2 H1 H2 K1 K2 Hsame.
  destruct (decide (s1 = s)) as [->|N1], (decide (s2 = s)) as [->|N2]; [done|..].
  - rewrite list_lookup_insert_ne // in H2.
    apply list_lookup_insert_Some in H1 as [(_ & -> & _)|[[] _]]; [|done].
    by destruct (Hnew s2 e2 N2 H2 K2).
  - rewrite list_lookup_insert_ne // in H1.
    apply list_lookup_insert_Some in H2 as [(_ & -> & _)|[[] _]]; [|done].
    by destruct (Hnew s1 e1 N1 H1 K1).
  - rewrite list_lookup_insert_ne // in H1. rewrite list_lookup_insert_ne // in H2.
    by eapply Hu.
Qed.

Lemma unique_kill l s e : kind e <> Live -> unique l -> unique (<[s:=e]> l).
Proof.
  intros He Hu s1 s2 e1 e2 H1 H2 K1 K2 Hsame.
  apply list_lookup_insert_Some in H1 as [(_ & -> & _)|[_ H1]]; [done|].
  apply list_lookup_insert_Some in H2 as [(_ & -> & _)|[_ H2]]; [done|].
  by eapply Hu.
Qed.

(** Distinct slots hold distinct entries, so the live entries are distinct. *)
Lemma unique_live l : (∀ e1 e2, same e1 e2 -> same e2 e1) -> unique l -> unique (live l).
Proof.
  intros Hsym. induction l as [|x l IH]; intros Hu; [done|].
  assert (unique l) as Hu'.
  { intros s1 s2 e1 e2 H1 H2 K1 K2 Hs. specialize (Hu (S s1) (S s2) e1 e2 H1 H2 K1 K2 Hs). lia. }
  specialize (IH Hu'). unfold live in *. rewrite filter_cons. case_decide as Hk; [|done].
  assert (∀ s y, filter (λ e, kind e = Live) l !! s = Some y -> ¬ same x y) as Hx.
  { intros s y Hy Hsame. apply list_elem_of_lookup_2, list_elem_of_filter in Hy as [Hky [s' Hs']%list_elem_of_lookup].
    by specialize (Hu 0%nat (S s') x y eq_refl Hs' Hk Hky Hsame). }
  intros [|i] [|j] v w Hi Hj Kv Kw Hs; simplify_eq/=; [done|..].
  - by destruct (Hx _ _ Hj).
  - destruct (Hx _ _ Hi). by apply Hsym.
  - f_equal. by eapply IH.
Qed.

(** ** Searching *)

Context (mt : E -> Prop) (h : Z).

(** None of the first [n] slots of the walk holds a match. *)
Definition missed l (n : nat) : Prop :=
  ∀ q e, (q < n)%nat -> l !! pos h q = Some e -> kind e = Live -> ¬ mt e.

Lemma missed_0 l : missed l 0.
Proof. intros q e Hq. lia. Qed.

Lemma missed_S l n e :
  missed l n -> l !! pos h n = Some e -> (kind e = Live -> ¬ mt e) -> missed l (S n).
Proof.
  intros Hm He Hn q e' Hq Hl. destruct (decide (q = n)) as [->|Hne].
  - simplify_eq. done.
  - apply (Hm q e'); [lia|done].
Qed.

Lemma absent_bound l bound n :
  placed l bound -> (∀ e, e ∈ live l -> mt e -> hash e = h) ->
  (bound h <= n)%nat -> missed l n -> absent l mt.
Proof.
  intros Hpl Hh Hb Hm s e Hs He Hmt.
  assert (hash e = h) as Heq by (apply Hh; [apply elem_of_live; eauto|done]).
  destruct (Hpl s e Hs He) as (p & Hp & Hpos & _). rewrite Heq in Hp, Hpos.
  subst s. apply (Hm p e); [lia|done..].
Qed.

Lemma absent_vacant l bound n v :
  placed l bound -> (∀ e, e ∈ live l -> mt e -> hash e = h) ->
  missed l n -> l !! pos h n = Some v -> kind v = Vacant -> absent l mt.
Proof.
  intros Hpl Hh Hm Hv Hk s e Hs He Hmt.
  assert (hash e = h) as Heq by (apply Hh; [apply elem_of_live; eauto|done]).
  destruct (Hpl s e Hs He) as (p & Hp & Hpos & Hpath). rewrite Heq in Hp, Hpos, Hpath.
  subst s. destruct (decide (p < n)%nat) as [Hlt|Hge].
  { by apply (Hm p e). }
  destruct (decide (p = n)) as [->|Hne]; [congruence|].
  destruct (Hpath n) as (e' & He' & Hk'); [lia|]. congruence.
Qed.

(** ** Sound tables

    What an operation does to a table whose live entries are placed and unique:
    store a new entry, exchange an equal one, remove one, or move one forward
    into a tombstone. *)

Record sound l bound : Prop := { so_placed : placed l bound; so_unique : unique l }.

(** Where [e] may be stored: position [q] of its walk, within its bound. *)
Definition target l bound (s : nat) e (q : nat) : Prop :=
  pos (hash e) q = s /\ path l (hash e) q /\ (q < bound (hash e))%nat.

Context (same_sym : ∀ e1 e2, same e1 e2 -> same e2 e1).
Context (same_trans : ∀ e1 e2 e3, same e1 e2 -> same e2 e3 -> same e1 e3).

Lemma sound_others l bound s e old :
  sound l bound -> l !! s = Some old -> kind old = Live -> same old e ->
  ∀ s' e', s' <> s -> l !! s' = Some e' -> kind e' = Live -> ¬ same e' e /\ ¬ same e e'.
Proof.
  intros [_ Hu] Hold Hk Hsame s' e' Hne He' Hk'.
  assert (¬ same e' old) as Hno by (intros Hs; apply Hne; by eapply Hu).
  split; intros Hx; apply Hno; eauto.
Qed.

Lemma sound_insert l bound s old e q :
  sound l bound -> kind e = Live -> target l bound s e q ->
  l !! s = Some old -> kind old <> Live -> absent l (λ w, same w e \/ same e w) ->
  sound (<[s:=e]> l) bound /\ live (<[s:=e]> l) ≡ₚ e :: live l.
Proof.
  clear mt.
  intros [Hp Hu] Hk (H1 & H2 & H3) Hs Hold Ha. split; [split|by eapply live_store].
  - by eapply placed_store.
  - apply unique_store; [done|]. intros s' e' _ He' Hk'. specialize (Ha s' e' He' Hk'). naive_solver.
Qed.

Lemma sound_replace l bound s old e q :
  sound l bound -> kind e = Live -> target l bound s e q ->
  l !! s = Some old -> kind old = Live -> same old e ->
  sound (<[s:=e]> l) bound /\ old :: live (<[s:=e]> l) ≡ₚ e :: live l.
Proof.
  intros So Hk (H1 & H2 & H3) Hs Hold Hsame. split; [split|by eapply live_replace].
  - eapply placed_store; [done..|]. apply So.
  - apply unique_store; [apply So|]. by eapply sound_others.
Qed.

Lemma sound_kill l bound s old t :
  sound l bound -> l !! s = Some old -> kind old = Live -> kind t = Dead ->
  sound (<[s:=t]> l) bound /\ old :: live (<[s:=t]> l) ≡ₚ live l.
Proof.
  intros [Hp Hu] Hs Hold Ht. split; [split|eapply live_kill; [done..|congruence]].
  - by apply placed_kill.
  - apply unique_kill; [congruence|done].
Qed.

Lemma sound_relocate l bound first slot e old t v q :
  sound l bound -> kind e = Live -> target l bound first e q ->
  l !! first = Some v -> kind v = Dead -> l !! slot = Some old -> kind old = Live ->
  same old e -> kind t = Dead ->
  sound (<[slot:=t]> (<[first:=e]> l)) bound /\
  old :: live (<[slot:=t]> (<[first:=e]> l)) ≡ₚ e :: live l.
Proof.
  clear mt.
  intros So Hk (H1 & H2 & H3) Hv Hdv Hs Hold Hsame Ht.
  assert (slot <> first) as Hne by congruence.
  rewrite list_insert_insert_ne //.
  destruct (sound_kill l bound slot old t So Hs Hold Ht) as [So1 L1].
  assert (<[slot:=t]> l !! first = Some v) as Hv1 by (by rewrite list_lookup_insert_ne).
  destruct (sound_insert (<[slot:=t]> l) bound first v e q So1 Hk) as [So2 L2];
    [|done|congruence| |].
  - split_and!; [done| |done]. apply path_insert; [congruence|done].
  - intros s' e' He' Hk'.
    apply list_lookup_insert_Some in He' as [(_ & <- & _)|[Hne' He']]; [congruence|].
    destruct (sound_others l bound slot e old So Hs Hold Hsame s' e' ltac:(congruence) He' Hk').
    naive_solver.
  - split; [done|]. rewrite L2 -L1. apply perm_swap.
Qed.

Lemma sound_mono l bound bound' :
  (∀ h, bound h <= bound' h)%nat -> sound l bound -> sound l bound'.
Proof. intros Hb [Hp Hu]. split; [by eapply placed_mono|done]. Qed.

Lemma sound_empty l bound : live l = [] -> sound l bound.
Proof.
  intros Hl. split; [by apply placed_none|]. intros s1 s2 e1 e2 H1 _ K1.
  assert (e1 ∈ live l) as Hin by (apply elem_of_live; eauto).
  rewrite Hl in Hin. by apply elem_of_nil in Hin.
Qed.
End open_addressing.
