(* ===== verification/Hs.v ===== *)
(** The hash set [ck_hs] (src/src/ck_hs.c), as executed by its single writer:
    open addressing over cache lines, probe bounds, tombstones, relocation and
    growth.  The model is executable; the files from [HsInv] to
    [HsTheorems] verify it. *)

From S2P Require Export Probe.
Set Warnings "-rewrite-rw".

Definition CK_HS_PROBE_L1_SHIFT : Z := 3.
Definition CK_HS_PROBE_L1 : Z := Z.shiftl 1 CK_HS_PROBE_L1_SHIFT.
Definition CK_HS_PROBE_L1_MASK : Z := CK_HS_PROBE_L1 - 1.
Definition CK_MD_CACHELINE : Z := 64.
Definition CK_HS_PROBE_L1_DEFAULT : Z := CK_MD_CACHELINE.

Definition CK_HS_EMPTY : Z := 0.
Definition CK_HS_TOMBSTONE : Z := 18446744073709551615.
Definition CK_HS_G_MASK : Z := 1.
Definition CK_HS_WORD_MAX : Z := 255.
Definition CK_HS_MODE_KEY_OFFSET_BITS : Z := 16.

Definition CK_HS_MODE_SPMC : Z := 1.
Definition CK_HS_MODE_DIRECT : Z := 2.
Definition CK_HS_MODE_OBJECT : Z := 8.
Definition CK_HS_MODE_DELETE : Z := 16.

Inductive ck_hs_probe_behavior := CK_HS_PROBE | CK_HS_PROBE_TOMBSTONE | CK_HS_PROBE_INSERT.

#[global] Instance probe_behavior_eq_dec : EqDecision ck_hs_probe_behavior.
Proof. solve_decision. Defined.

(** * Data *)

(** The cells of [entries] are pointers; the two reserved values are EMPTY and
    TOMBSTONE.  [probe_bound] is present in delete-heavy mode only. *)
Record ck_hs_map := CkHsMap {
  generation : list Z;
  probe_maximum : Z;
  mask : Z;
  step : Z;
  probe_limit : Z;
  tombstones : Z;
  n_entries : Z;
  capacity : Z;
  size : Z;
  probe_bound : option (list Z);
  entries : list Z;
}.

(** [sizeof(struct ck_hs_map)] with 8-byte pointers and longs. *)
Definition sizeof_ck_hs_map : Z := 80.

(** The heap log stands for the allocator [m]. *)
Record ck_hs := CkHs {
  m : heap;
  map : ck_hs_map;
  mode : Z;
  seed : Z;
  hf : Z -> Z -> Z;
  compare : option (Z -> Z -> bool);
}.

(** Assignments to one field. *)
Definition set_generation (x : ck_hs_map) v := CkHsMap v (probe_maximum x) (mask x) (step x)
  (probe_limit x) (tombstones x) (n_entries x) (capacity x) (size x) (probe_bound x) (entries x).
Definition set_probe_maximum (x : ck_hs_map) v := CkHsMap (generation x) v (mask x) (step x)
  (probe_limit x) (tombstones x) (n_entries x) (capacity x) (size x) (probe_bound x) (entries x).
Definition set_tombstones (x : ck_hs_map) v := CkHsMap (generation x) (probe_maximum x) (mask x)
  (step x) (probe_limit x) v (n_entries x) (capacity x) (size x) (probe_bound x) (entries x).
Definition set_n_entries (x : ck_hs_map) v := CkHsMap (generation x) (probe_maximum x) (mask x)
  (step x) (probe_limit x) (tombstones x) v (capacity x) (size x) (probe_bound x) (entries x).
Definition set_probe_bound (x : ck_hs_map) v := CkHsMap (generation x) (probe_maximum x) (mask x)
  (step x) (probe_limit x) (tombstones x) (n_entries x) (capacity x) (size x) v (entries x).
Definition set_entries (x : ck_hs_map) v := CkHsMap (generation x) (probe_maximum x) (mask x)
  (step x) (probe_limit x) (tombstones x) (n_entries x) (capacity x) (size x) (probe_bound x) v.
Definition set_m (hs : ck_hs) v := CkHs v (map hs) (mode hs) (seed hs) (hf hs) (compare hs).
Definition set_map (hs : ck_hs) v := CkHs (m hs) v (mode hs) (seed hs) (hf hs) (compare hs).

Definition store (map : ck_hs_map) (slot v : Z) : ck_hs_map :=
  set_entries map (<[Z.to_nat slot := v]> (entries map)).

Definition test (flags bit : Z) : bool := truthy (Z.land flags bit).

Record ck_hs_iterator := CkHsIterator { it_offset : Z; it_map : option ck_hs_map }.

Record ck_hs_stat_t := CkHsStat { st_tombstones : Z; st_n_entries : Z; st_probe_maximum : Z }.

Section ck_hs.
(** Two things the code relies on without defining them: whether an allocation
    succeeds, and what a shift by the word size or more yields (undefined in C). *)
Context (malloc_ok : heap -> Z -> bool) (shr_undef : Z -> Z -> Z).

Definition shr (x n : Z) : Z := if n <? 64 then Z.shiftr x n else shr_undef x n.

(** * Generation counters *)

Definition ck_hs_map_signal (map : ck_hs_map) (h : Z) : ck_hs_map :=
  let h := Z.to_nat (Z.land h CK_HS_G_MASK) in
  set_generation map (alter (fun g => u32 (g + 1)) h (generation map)).

(** * Iteration *)

Definition ck_hs_iterator_init : ck_hs_iterator := CkHsIterator 0 None.

(** The do-while loop of [_ck_hs_next], for at most [todo] slots. *)
Fixpoint next_loop (map : ck_hs_map) (todo : nat) (offset : Z) : option Z * Z :=
  match todo with
  | O => (None, offset)
  | S todo =>
      let value := default CK_HS_EMPTY (entries map !! Z.to_nat offset) in
      if negb (value =? CK_HS_EMPTY) && negb (value =? CK_HS_TOMBSTONE)
      then (Some value, offset + 1)
      else next_loop map todo (offset + 1)
  end.

Definition _ck_hs_next (map : ck_hs_map) (i : ck_hs_iterator) : option Z * ck_hs_iterator :=
  if capacity map <=? it_offset i then (None, i)
  else let '(key, offset) := next_loop map (Z.to_nat (capacity map - it_offset i)) (it_offset i) in
       (key, CkHsIterator offset (it_map i)).

Definition ck_hs_next (hs : ck_hs) (i : ck_hs_iterator) : option Z * ck_hs_iterator :=
  _ck_hs_next (map hs) i.

Definition ck_hs_next_spmc (hs : ck_hs) (i : ck_hs_iterator) : option Z * ck_hs_iterator :=
  let mp := match it_map i with None => map hs | Some mp => mp end in
  _ck_hs_next mp (CkHsIterator (it_offset i) (Some mp)).

Definition ck_hs_stat (hs : ck_hs) : ck_hs_stat_t :=
  CkHsStat (tombstones (map hs)) (n_entries (map hs)) (probe_maximum (map hs)).

Definition ck_hs_count (hs : ck_hs) : Z := n_entries (map hs).

(** * Creation and destruction *)

Definition ck_hs_map_destroy (m : heap) (map : ck_hs_map) (defer : bool) : heap :=
  free m (size map) defer.

Definition ck_hs_deinit (hs : ck_hs) : heap := ck_hs_map_destroy (m hs) (map hs) false.
Definition ck_hs_destroy (hs : ck_hs) : heap := ck_hs_deinit hs.

(** [ck_hs_map_create] only reads the allocator and the mode of its argument. *)
Definition ck_hs_map_create (heap0 : heap) (mode entries : Z) : option ck_hs_map * heap :=
  let n_entries := ck_internal_power_2 entries in
  let n_entries := if n_entries <? CK_HS_PROBE_L1 then CK_HS_PROBE_L1 else n_entries in
  let size := u64 (sizeof_ck_hs_map + (8 * n_entries + CK_MD_CACHELINE - 1)) in
  let prefix := if test mode CK_HS_MODE_DELETE then n_entries else 0 in
  let size := u64 (size + prefix) in
  let '(ok, heap1) := malloc malloc_ok heap0 size in
  if negb ok then (None, heap1)
  else
    let limit := ck_internal_max (Z.shiftr n_entries (CK_HS_PROBE_L1_SHIFT + 2))
                                 CK_HS_PROBE_L1_DEFAULT in
    let limit := if UINT_MAX <? limit then UINT_MAX else limit in
    (Some {| generation := [0; 0];
             probe_maximum := 0;
             mask := n_entries - 1;
             step := ck_cc_ffsl n_entries;
             probe_limit := limit;
             tombstones := 0;
             n_entries := 0;
             capacity := n_entries;
             size := size;
             probe_bound := if test mode CK_HS_MODE_DELETE
                            then Some (replicate (Z.to_nat n_entries) 0) else None;
             entries := replicate (Z.to_nat n_entries) CK_HS_EMPTY |}, heap1).

Definition ck_hs_reset_size (hs : ck_hs) (capacity : Z) : bool * ck_hs :=
  let previous := map hs in
  match ck_hs_map_create (m hs) (mode hs) capacity with
  | (None, heap1) => (false, set_m hs heap1)
  | (Some mp, heap1) => (true, set_map (set_m hs (ck_hs_map_destroy heap1 previous true)) mp)
  end.

Definition ck_hs_reset (hs : ck_hs) : bool * ck_hs := ck_hs_reset_size hs (capacity (map hs)).

(** * The walk of a hash *)

Definition ck_hs_map_probe_next (map : ck_hs_map) (offset h level probes : Z) : Z :=
  let r := shr (shr h (step map)) level in
  let stride := Z.lor (u64 (Z.shiftl (Z.land r (Z.lnot CK_HS_PROBE_L1_MASK)) 1))
                      (Z.land r CK_HS_PROBE_L1_MASK) in
  Z.land (u64 (offset + Z.shiftr probes CK_HS_PROBE_L1_SHIFT + Z.lor stride CK_HS_PROBE_L1))
         (mask map).

(** Where the two nested probe loops stand: bucket [offset], outer index [i],
    inner index [j].  [entries] is aligned to a cache line, so that clearing the
    low bits of [&entries[offset]] clears those of [offset]. *)
Record walk := Walk { w_offset : Z; w_i : Z; w_j : Z }.

Definition walk_cursor (w : walk) : Z :=
  Z.land (w_offset w) (Z.lnot CK_HS_PROBE_L1_MASK) +
  Z.land (w_j w + w_offset w) CK_HS_PROBE_L1_MASK.

Definition walk_start (map : ck_hs_map) (h : Z) : walk := Walk (Z.land h (mask map)) 0 0.

(** [j++], and the next bucket once the inner loop is over. *)
Definition walk_next (map : ck_hs_map) (h : Z) (w : walk) (probes : Z) : walk :=
  if w_j w + 1 <? CK_HS_PROBE_L1 then Walk (w_offset w) (w_i w) (w_j w + 1)
  else Walk (ck_hs_map_probe_next map (w_offset w) h (w_i w) probes) (w_i w + 1) 0.

(** * Probe bounds *)

Definition ck_hs_map_bound_set (mp : ck_hs_map) (h n_probes : Z) : ck_hs_map :=
  let offset := Z.to_nat (Z.land h (mask mp)) in
  let mp := if probe_maximum mp <? n_probes then set_probe_maximum mp (u32 n_probes) else mp in
  match probe_bound mp with
  | Some bounds =>
      if default 0 (bounds !! offset) <? n_probes then
        let n_probes := if CK_HS_WORD_MAX <? n_probes then CK_HS_WORD_MAX else n_probes in
        set_probe_bound mp (Some (<[offset := n_probes]> bounds))
      else mp
  | None => mp
  end.

Definition ck_hs_map_bound_get (mp : ck_hs_map) (h : Z) : Z :=
  let offset := Z.to_nat (Z.land h (mask mp)) in
  match probe_bound mp with
  | Some bounds =>
      let r := default 0 (bounds !! offset) in
      if r =? CK_HS_WORD_MAX then probe_maximum mp else r
  | None => probe_maximum mp
  end.

Definition ck_hs_apply_key_offset (hs : ck_hs) (obj : Z) : Z :=
  obj + Z.shiftr (mode hs) CK_HS_MODE_KEY_OFFSET_BITS.

(** * Growth *)

(** The inner loops of [ck_hs_grow]: the slot found and the probe count, or
    [None] when the probe limit is hit. *)
Fixpoint grow_probe (update : ck_hs_map) (h : Z) (fuel : nat) (w : walk) (probes : Z)
    : option (option (Z * Z)) :=
  match fuel with
  | O => None
  | S fuel =>
      let cursor := walk_cursor w in
      if probes =? probe_limit update then Some None
      else
        let probes := probes + 1 in
        val ← entries update !! Z.to_nat cursor;
        if val =? CK_HS_EMPTY then Some (Some (cursor, probes))
        else grow_probe update h fuel (walk_next update h w probes) probes
  end.

Definition probe_fuel (limit : Z) : nat := S (S (Z.to_nat limit)).

(** The loop over the slots of the old map: the filled [update], or [None] when
    the map must be even larger. *)
Fixpoint rehash (hs : ck_hs) (update : ck_hs_map) (slots : list Z)
    : option (option ck_hs_map) :=
  match slots with
  | [] => Some (Some update)
  | previous :: slots =>
      if (previous =? CK_HS_EMPTY) || (previous =? CK_HS_TOMBSTONE) then rehash hs update slots
      else
        let h := hf hs (ck_hs_apply_key_offset hs previous) (seed hs) in
        r ← grow_probe update h (probe_fuel (probe_limit update)) (walk_start update h) 0;
        match r with
        | None => Some None
        | Some (cursor, probes) =>
            let update := store update cursor previous in
            let update := set_n_entries update (u64 (n_entries update + 1)) in
            rehash hs (ck_hs_map_bound_set update h probes) slots
        end
  end.

Fixpoint grow_loop (fuel : nat) (hs : ck_hs) (cap : Z) : option (bool * ck_hs) :=
  match fuel with
  | O => None
  | S fuel =>
      if cap <? capacity (map hs) then Some (false, hs)
      else
        match ck_hs_map_create (m hs) (mode hs) cap with
        | (None, heap1) => Some (false, set_m hs heap1)
        | (Some update, heap1) =>
            r ← rehash hs update (entries (map hs));
            match r with
            | None =>
                grow_loop fuel (set_m hs (ck_hs_map_destroy heap1 update false))
                          (u64 (Z.shiftl cap 1))
            | Some update =>
                Some (true, set_map (set_m hs (ck_hs_map_destroy heap1 (map hs) true)) update)
            end
        end
  end.

(** [capacity <<= 1] reaches 0 after 64 restarts, which ends the loop. *)
Definition ck_hs_grow (hs : ck_hs) (capacity : Z) : option (bool * ck_hs) :=
  grow_loop 66 hs capacity.

Definition ck_hs_map_postinsert (hs : ck_hs) : option ck_hs :=
  let mp := map hs in
  let mp := set_n_entries mp (u64 (n_entries mp + 1)) in
  let hs := set_map hs mp in
  if capacity mp <? u64 (Z.shiftl (n_entries mp) 1)
  then '(_, hs) ← ck_hs_grow hs (u64 (Z.shiftl (capacity mp) 1)); Some hs
  else Some hs.

Definition ck_hs_rebuild (hs : ck_hs) : option (bool * ck_hs) := ck_hs_grow hs (capacity (map hs)).

(** * Probing *)

(** The returned cursor and the three results passed by address. *)
Record probe_result := ProbeResult {
  r_slot : option Z;
  r_n_probes : Z;
  r_priority : option Z;
  r_object : Z;
}.

(** The code after the label [leave]. *)
Definition probe_leave (cursor : option Z) (val probes limit : Z) (pr : option Z) (n_probes : Z)
    : probe_result :=
  {| r_slot := if limit <? probes then None else cursor;
     r_object := if limit <? probes then CK_HS_EMPTY else val;
     r_n_probes := match pr with None => probes | Some _ => n_probes end;
     r_priority := pr |}.

(** One slot per turn; [opl] is the caller's limit, [limit] the current one,
    [pr] the first tombstone met and [n_probes] its probe count. *)
Fixpoint probe_loop (hs : ck_hs) (mp : ck_hs_map) (h key opl : Z)
    (behavior : ck_hs_probe_behavior) (fuel : nat)
    (w : walk) (probes limit : Z) (past_bound : bool) (pr : option Z) (n_probes : Z)
    : option probe_result :=
  match fuel with
  | O => None
  | S fuel =>
      let cursor := walk_cursor w in
      let at_limit := probes =? limit in
      let probes := probes + 1 in
      if at_limit && ((limit =? opl) || match pr with Some _ => true | None => false end)
      then Some (probe_leave (Some cursor) CK_HS_EMPTY probes limit pr n_probes)
      else
        let limit := if at_limit then opl else limit in
        let past_bound := past_bound || at_limit in
        let continue pr n_probes :=
          probe_loop hs mp h key opl behavior fuel (walk_next mp h w probes) probes limit
            past_bound pr n_probes in
        val ← entries mp !! Z.to_nat cursor;
        if val =? CK_HS_EMPTY
        then Some (probe_leave (Some cursor) val probes limit pr n_probes)
        else if val =? CK_HS_TOMBSTONE then
          match pr with
          | None =>
              match behavior, past_bound with
              | CK_HS_PROBE_TOMBSTONE, _ | _, true =>
                  Some (probe_leave None CK_HS_EMPTY probes limit (Some cursor) probes)
              | _, false => continue (Some cursor) probes
              end
          | Some _ => continue pr n_probes
          end
        else
          let val_key := ck_hs_apply_key_offset hs val in
          if val_key =? key then Some (probe_leave (Some cursor) val probes limit pr n_probes)
          else
            match compare hs with
            | None => continue pr n_probes
            | Some cmp =>
                if cmp val_key key
                then Some (probe_leave (Some cursor) val probes limit pr n_probes)
                else continue pr n_probes
            end
  end.

Definition ck_hs_map_probe (hs : ck_hs) (mp : ck_hs_map) (h key probe_limit : Z)
    (behavior : ck_hs_probe_behavior) : option probe_result :=
  let opl := probe_limit in
  let limit := match behavior with
               | CK_HS_PROBE_INSERT => ck_hs_map_bound_get mp h
               | _ => probe_limit
               end in
  probe_loop hs mp h key opl behavior (probe_fuel (Z.max opl limit)) (walk_start mp h) 0 limit
    false None 0.

(** Pointers are stored as they are (no pointer packing). *)
Definition ck_hs_marshal (mode val h : Z) : Z := val.

(** [ck_pr_store_ptr(first, insert)], and once readers have been told, the
    tombstone over the old copy. *)
Definition relocate (mp : ck_hs_map) (h first insert slot : Z) : ck_hs_map :=
  store (ck_hs_map_signal (store mp first insert) h) slot CK_HS_TOMBSTONE.

(** * Garbage collection *)

(** The loop of [ck_hs_gc] for [i] up to the capacity: the map with the entries
    it relocates, and the new maximum and bounds. *)
Fixpoint gc_loop (hs : ck_hs) (todo : nat) (i cycles gc_seed : Z) (mp : ck_hs_map)
    (maximum : Z) (bounds : option (list Z)) : option (ck_hs_map * Z * option (list Z)) :=
  match todo with
  | O => Some (mp, maximum, bounds)
  | S todo =>
      entry ← entries mp !! Z.to_nat (Z.land (u64 (i + gc_seed)) (mask mp));
      if (entry =? CK_HS_EMPTY) || (entry =? CK_HS_TOMBSTONE)
      then gc_loop hs todo (i + 1) cycles gc_seed mp maximum bounds
      else
        let entry_key := ck_hs_apply_key_offset hs entry in
        let h := hf hs entry_key (seed hs) in
        let offset := Z.to_nat (Z.land h (mask mp)) in
        r ← ck_hs_map_probe hs mp h entry_key (ck_hs_map_bound_get mp h) CK_HS_PROBE;
        mp ← match r_priority r with
             | None => Some mp
             | Some first =>
                 slot ← r_slot r;
                 let insert := ck_hs_marshal (mode hs) entry h in
                 Some (relocate mp h first insert slot)
             end;
        if cycles =? 0 then
          let n_probes := r_n_probes r in
          let maximum := if maximum <? n_probes then u32 n_probes else maximum in
          let n_probes := if CK_HS_WORD_MAX <? n_probes then CK_HS_WORD_MAX else n_probes in
          let bounds := match bounds with
                        | None => None
                        | Some b => if default 0 (b !! offset) <? n_probes
                                    then Some (<[offset := n_probes]> b) else Some b
                        end in
          gc_loop hs todo (i + 1) cycles gc_seed mp maximum bounds
        else
          let cycles := cycles - 1 in
          if cycles =? 0 then Some (mp, maximum, bounds)
          else gc_loop hs todo (i + 1) cycles gc_seed mp maximum bounds
  end.

Definition ck_hs_gc (hs : ck_hs) (cycles gc_seed : Z) : option (bool * ck_hs) :=
  let mp := map hs in
  if n_entries mp =? 0 then
    let mp := set_probe_maximum mp 0 in
    Some (true, set_map hs (set_probe_bound mp
      (match probe_bound mp with
       | None => None
       | Some _ => Some (replicate (Z.to_nat (capacity mp)) 0)
       end)))
  else
    let size := if cycles =? 0 then match probe_bound mp with
                                    | Some _ => Some (capacity mp)
                                    | None => None
                                    end else None in
    let maximum := if cycles =? 0 then 0 else probe_maximum mp in
    let '(ok, heap1) := match size with
                        | Some size => malloc malloc_ok (m hs) size
                        | None => (true, m hs)
                        end in
    if negb ok then Some (false, set_m hs heap1)
    else
      let bounds := match size with
                    | Some size => Some (replicate (Z.to_nat size) 0)
                    | None => None
                    end in
      '(mp, maximum, bounds) ←
        gc_loop hs (Z.to_nat (capacity mp)) 0 cycles gc_seed mp maximum bounds;
      let mp := if maximum =? probe_maximum mp then mp else set_probe_maximum mp maximum in
      match bounds, size with
      | Some b, Some size =>
          Some (true, set_map (set_m hs (free heap1 size false)) (set_probe_bound mp (Some b)))
      | _, _ => Some (true, set_map (set_m hs heap1) mp)
      end.

(** * Operations *)

(** Success, the previous object, and the new state. *)
Definition ck_hs_fas (hs : ck_hs) (h val : Z) : option (bool * Z * ck_hs) :=
  let mp := map hs in
  let val_key := ck_hs_apply_key_offset hs val in
  r ← ck_hs_map_probe hs mp h val_key (ck_hs_map_bound_get mp h) CK_HS_PROBE;
  if r_object r =? CK_HS_EMPTY then Some (false, CK_HS_EMPTY, hs)
  else
    slot ← r_slot r;
    let insert := ck_hs_marshal (mode hs) val h in
    let mp := match r_priority r with
              | Some first => relocate mp h first insert slot
              | None => store mp slot insert
              end in
    Some (true, r_object r, set_map hs mp).

(** The tail shared by the code of [ck_hs_apply] and [ck_hs_set]: store the
    value in the first tombstone if there is one, else in the slot found. *)
Definition set_store (hs : ck_hs) (mp : ck_hs_map) (h insert : Z) (r : probe_result)
    : option ck_hs :=
  let mp := ck_hs_map_bound_set mp h (r_n_probes r) in
  mp ← match r_priority r with
       | Some first =>
           if r_object r =? CK_HS_EMPTY
           then Some (set_tombstones (store mp first insert) (u32 (tombstones mp - 1)))
           else slot ← r_slot r; Some (relocate mp h first insert slot)
       | None => slot ← r_slot r; Some (store mp slot insert)
       end;
  if r_object r =? CK_HS_EMPTY then ck_hs_map_postinsert (set_map hs mp)
  else Some (set_map hs mp).

(** The part of [ck_hs_apply] after the probe; [fn] is the callback with its
    closure, NULL asks for deletion. *)
Definition apply_found (hs : ck_hs) (h : Z) (fn : Z -> Z) (r : probe_result)
    : option (bool * ck_hs) :=
  let mp := map hs in
  let object := r_object r in
  let delta := fn object in
  if delta =? CK_HS_EMPTY then
    if object =? CK_HS_EMPTY then Some (true, hs)
    else
      slot ← r_slot r;
      let mp := store mp slot CK_HS_TOMBSTONE in
      let mp := set_n_entries mp (u64 (n_entries mp - 1)) in
      let mp := set_tombstones mp (u32 (tombstones mp + 1)) in
      Some (true, set_map hs mp)
  else if delta =? object then Some (true, hs)
  else
    hs ← set_store hs mp h (ck_hs_marshal (mode hs) delta h) r;
    Some (true, hs).

Fixpoint apply_loop (fuel : nat) (hs : ck_hs) (h key : Z) (fn : Z -> Z) : option (bool * ck_hs) :=
  match fuel with
  | O => None
  | S fuel =>
      let mp := map hs in
      r ← ck_hs_map_probe hs mp h key (probe_limit mp) CK_HS_PROBE_INSERT;
      match r_slot r, r_priority r with
      | None, None =>
          '(ok, hs) ← ck_hs_grow hs (u64 (Z.shiftl (capacity mp) 1));
          if negb ok then Some (false, hs) else apply_loop fuel hs h key fn
      | _, _ => apply_found hs h fn r
      end
  end.

(** A restart follows a successful growth, which at least doubles the capacity. *)
Definition restarts : nat := 64.

Definition ck_hs_apply (hs : ck_hs) (h key : Z) (fn : Z -> Z) : option (bool * ck_hs) :=
  apply_loop restarts hs h key fn.

Fixpoint set_loop (fuel : nat) (hs : ck_hs) (h val : Z) : option (bool * Z * ck_hs) :=
  match fuel with
  | O => None
  | S fuel =>
      let val_key := ck_hs_apply_key_offset hs val in
      let mp := map hs in
      r ← ck_hs_map_probe hs mp h val_key (probe_limit mp) CK_HS_PROBE_INSERT;
      match r_slot r, r_priority r with
      | None, None =>
          '(ok, hs) ← ck_hs_grow hs (u64 (Z.shiftl (capacity mp) 1));
          if negb ok then Some (false, CK_HS_EMPTY, hs) else set_loop fuel hs h val
      | _, _ =>
          hs ← set_store hs mp h (ck_hs_marshal (mode hs) val h) r;
          Some (true, r_object r, hs)
      end
  end.

Definition ck_hs_set (hs : ck_hs) (h val : Z) : option (bool * Z * ck_hs) :=
  set_loop restarts hs h val.

Fixpoint put_internal_loop (fuel : nat) (hs : ck_hs) (h val : Z)
    (behavior : ck_hs_probe_behavior) : option (bool * ck_hs) :=
  match fuel with
  | O => None
  | S fuel =>
      let val_key := ck_hs_apply_key_offset hs val in
      let mp := map hs in
      r ← ck_hs_map_probe hs mp h val_key (probe_limit mp) behavior;
      match r_slot r, r_priority r with
      | None, None =>
          '(ok, hs) ← ck_hs_grow hs (u64 (Z.shiftl (capacity mp) 1));
          if negb ok then Some (false, hs) else put_internal_loop fuel hs h val behavior
      | _, _ =>
          if negb (r_object r =? CK_HS_EMPTY) then Some (false, hs)
          else
            let mp := ck_hs_map_bound_set mp h (r_n_probes r) in
            let insert := ck_hs_marshal (mode hs) val h in
            mp ← match r_priority r with
                 | Some first =>
                     Some (set_tombstones (store mp first insert) (u32 (tombstones mp - 1)))
                 | None => slot ← r_slot r; Some (store mp slot insert)
                 end;
            hs ← ck_hs_map_postinsert (set_map hs mp);
            Some (true, hs)
      end
  end.

Definition ck_hs_put_internal := put_internal_loop restarts.

Definition ck_hs_put (hs : ck_hs) (h val : Z) : option (bool * ck_hs) :=
  ck_hs_put_internal hs h val CK_HS_PROBE_INSERT.

Definition ck_hs_put_unique (hs : ck_hs) (h val : Z) : option (bool * ck_hs) :=
  ck_hs_put_internal hs h val CK_HS_PROBE_TOMBSTONE.

(** With no concurrent writer the generation never changes between its two
    loads, so the loop runs once. *)
Definition ck_hs_get (hs : ck_hs) (h key : Z) : option Z :=
  let mp := map hs in
  r ← ck_hs_map_probe hs mp h key (ck_hs_map_bound_get mp h) CK_HS_PROBE;
  Some (r_object r).

Definition ck_hs_remove (hs : ck_hs) (h key : Z) : option (Z * ck_hs) :=
  let mp := map hs in
  r ← ck_hs_map_probe hs mp h key (ck_hs_map_bound_get mp h) CK_HS_PROBE;
  if r_object r =? CK_HS_EMPTY then Some (CK_HS_EMPTY, hs)
  else
    slot ← r_slot r;
    let mp := store mp slot CK_HS_TOMBSTONE in
    let mp := set_n_entries mp (u64 (n_entries mp - 1)) in
    let mp := set_tombstones mp (u32 (tombstones mp + 1)) in
    Some (r_object r, set_map hs mp).

(** * Initialisation *)

(** The caller's allocator: the log so far, and whether its two callbacks are set. *)
Record ck_malloc := CkMalloc { am_heap : heap; am_malloc : bool; am_free : bool }.

Definition ck_hs_move (source : ck_hs) (hf : option (Z -> Z -> Z))
    (compare : option (Z -> Z -> bool)) (m : option ck_malloc) : option ck_hs :=
  match m, hf with
  | Some a, Some hf =>
      if am_malloc a && am_free a
      then Some (CkHs (am_heap a) (map source) (mode source) (seed source) hf compare) else None
  | _, _ => None
  end.

Record ck_hs_init_options := CkHsInitOptions {
  options_size : Z;
  o_mode : Z;
  hash_function : option (Z -> Z -> Z);
  o_compare : option (Z -> Z -> bool);
  allocator : option ck_malloc;
  o_capacity : Z;
  o_seed : Z;
  key_offset : Z;
}.

Definition CK_HS_INIT_OPTIONS_SIZE_V0 : Z := 7 * 8.
Definition sizeof_ck_hs_init_options : Z := 8 * 8.

(** [memcpy(&opts, options, options->options_size)]: the seven fields of V0 are
    copied, and as many low bytes of [key_offset] as the size covers (the first
    bytes in memory, on a little-endian machine). *)
Definition copied_key_offset (o : ck_hs_init_options) : Z :=
  key_offset o mod 2 ^ (8 * (options_size o - CK_HS_INIT_OPTIONS_SIZE_V0)).

(** [None]: initialisation is refused or the allocation fails. *)
Definition ck_hs_init_from_options (options : option ck_hs_init_options) : option ck_hs :=
  o ← options;
  if options_size o <? CK_HS_INIT_OPTIONS_SIZE_V0 then None
  else if sizeof_ck_hs_init_options <? options_size o then None
  else
    let key_offset := copied_key_offset o in
    a ← allocator o;
    if negb (am_malloc a) then None
    else if negb (am_free a) then None
    else
      hf ← hash_function o;
      if (if test (o_mode o) CK_HS_MODE_OBJECT then 32768 <=? key_offset
          else negb (key_offset =? 0)) then None
      else
        let mode := Z.lor (u32 (o_mode o))
                          (u32 (Z.shiftl key_offset CK_HS_MODE_KEY_OFFSET_BITS)) in
        '(mp, heap1) ← match ck_hs_map_create (am_heap a) mode (o_capacity o) with
                       | (Some mp, heap1) => Some (mp, heap1)
                       | (None, _) => None
                       end;
        Some (CkHs heap1 mp mode (o_seed o) hf (o_compare o)).

Definition ck_hs_init (mode : Z) (hf : option (Z -> Z -> Z)) (compare : option (Z -> Z -> bool))
    (m : option ck_malloc) (n_entries seed : Z) : option ck_hs :=
  ck_hs_init_from_options
    (Some (CkHsInitOptions sizeof_ck_hs_init_options mode hf compare m n_entries seed 0)).
End ck_hs.
