(* ===== verification/HsInv.v ===== *)
(** The hash set: its invariant, and what a probe finds in a map that
    satisfies it. *)

From S2P Require Export Hs.
Set Warnings "-rewrite-rw,-clear-no-such-hyp".

(** * Vocabulary *)

Definition kind (v : Z) : slot_kind :=
  if v =? CK_HS_EMPTY then Vacant else if v =? CK_HS_TOMBSTONE then Dead else Live.

(** Equality of keys, as the probe decides it: same pointer, or the callback
    says so. *)
Definition keq (hs : ck_hs) (k1 k2 : Z) : bool :=
  (k1 =? k2) || match compare hs with None => false | Some cmp => cmp k1 k2 end.

Definition vkey (hs : ck_hs) (v : Z) : Z := ck_hs_apply_key_offset hs v.
Definition vhash (hs : ck_hs) (v : Z) : Z := hf hs (vkey hs v) (seed hs).
Definition same (hs : ck_hs) (v w : Z) : Prop := keq hs (vkey hs v) (vkey hs w) = true.

(** The documented contract of the two callbacks: the comparison is an
    equivalence, and equal keys have equal hashes. *)
Record keys_ok (hs : ck_hs) : Prop := {
  keq_sym k1 k2 : keq hs k1 k2 = true -> keq hs k2 k1 = true;
  keq_trans k1 k2 k3 : keq hs k1 k2 = true -> keq hs k2 k3 = true -> keq hs k1 k3 = true;
  keq_hash k1 k2 : keq hs k1 k2 = true -> hf hs k1 (seed hs) = hf hs k2 (seed hs);
}.

Lemma keq_refl hs k : keq hs k k = true.
Proof. unfold keq. by rewrite Z.eqb_refl. Qed.

Lemma match_keq {A} hs k1 k2 (a b : A) :
  (if k1 =? k2 then a
   else match compare hs with
        | None => b
        | Some cmp => if cmp k1 k2 then a else b
        end) = if keq hs k1 k2 then a else b.
Proof. unfold keq. destruct (k1 =? k2); [done|]. simpl. by destruct (compare hs). Qed.

Lemma kind_empty : kind CK_HS_EMPTY = Vacant.
Proof. done. Qed.
Lemma kind_tombstone : kind CK_HS_TOMBSTONE = Dead.
Proof. done. Qed.
Lemma kind_vacant v : kind v = Vacant <-> v = CK_HS_EMPTY.
Proof.
  unfold kind. destruct (Z.eqb_spec v CK_HS_EMPTY); [done|].
  split; [|done]. by destruct (v =? CK_HS_TOMBSTONE).
Qed.
Lemma kind_live v : kind v = Live <-> v <> CK_HS_EMPTY /\ v <> CK_HS_TOMBSTONE.
Proof.
  unfold kind. destruct (Z.eqb_spec v CK_HS_EMPTY); [naive_solver|].
  destruct (Z.eqb_spec v CK_HS_TOMBSTONE); naive_solver.
Qed.

(** The live values of a map: what the set contains. *)
Abbreviation contents mp := (live kind (entries mp)).

Section inv.
Context (shr_undef : Z -> Z -> Z).

(** * The walk of a hash

    It depends on the geometry of the map only. *)

Definition geometry (mk st : Z) : ck_hs_map := CkHsMap [] 0 mk st 0 0 0 0 0 None [].

Fixpoint walk_at (mk st h : Z) (p : nat) : walk :=
  match p with
  | O => walk_start (geometry mk st) h
  | S p => walk_next shr_undef (geometry mk st) h (walk_at mk st h p) (Z.of_nat p + 1)
  end.

Definition pos (mk st h : Z) (p : nat) : nat := Z.to_nat (walk_cursor (walk_at mk st h p)).

Definition mpos (mp : ck_hs_map) : Z -> nat -> nat := pos (mask mp) (step mp).

Lemma walk_at_S mp h p :
  walk_next shr_undef mp h (walk_at (mask mp) (step mp) h p) (Z.of_nat p + 1) =
  walk_at (mask mp) (step mp) h (S p).
Proof. done. Qed.

Lemma land_low_clear a : Z.land a (Z.lnot CK_HS_PROBE_L1_MASK) = a - a mod 8.
Proof.
  change (Z.lnot CK_HS_PROBE_L1_MASK) with (Z.lnot (Z.ones 3)).
  rewrite -Z.ldiff_land Z.ldiff_ones_r // Z.shiftr_div_pow2 // Z.shiftl_mul_pow2 //.
  change (2 ^ 3) with 8. pose proof (Z.div_mod a 8). lia.
Qed.

Lemma land_low a : Z.land a CK_HS_PROBE_L1_MASK = a mod 8.
Proof. apply (Z.land_ones a 3). lia. Qed.

Lemma walk_offset_range k st h p :
  0 <= k -> 0 <= w_offset (walk_at (2 ^ k - 1) st h p) < 2 ^ k.
Proof.
  intros Hk. induction p as [|p IH]; [by apply land_mask_range|].
  cbn [walk_at]. unfold walk_next. destruct (_ <? _); [done|]. by apply land_mask_range.
Qed.

(** Every slot of a walk is inside the array. *)
Lemma pos_lt k st h p : 3 <= k -> (pos (2 ^ k - 1) st h p < Z.to_nat (2 ^ k))%nat.
Proof.
  intros Hk. pose proof (walk_offset_range k st h p ltac:(lia)) as Ho.
  unfold pos, walk_cursor. rewrite land_low_clear land_low.
  set (o := w_offset _) in *. set (j := w_j _).
  assert (2 ^ k = 8 * 2 ^ (k - 3)) as Hc.
  { change 8 with (2 ^ 3). rewrite -Z.pow_add_r; [lia|lia|]. f_equal. lia. }
  set (c := 2 ^ (k - 3)) in *. clearbody o j c. clear Hk.
  apply Z2Nat.inj_lt; Z.to_euclidean_division_equations; lia.
Qed.

(** * The invariant *)

Definition bound_fn (mp : ck_hs_map) (h : Z) : nat := Z.to_nat (ck_hs_map_bound_get mp h).

(** The shape of a map and the reachability of its entries. *)
Record map_core (hs : ck_hs) (mp : ck_hs_map) : Prop := {
  wf_capacity : ∃ k, 3 <= k <= 31 /\ capacity mp = 2 ^ k;
  wf_mask : mask mp = capacity mp - 1;
  wf_length : length (entries mp) = Z.to_nat (capacity mp);
  wf_limit : 0 < probe_limit mp < 2 ^ 32;
  wf_maximum : 0 <= probe_maximum mp <= probe_limit mp;
  wf_bounds : match probe_bound mp with
              | Some b => length b = Z.to_nat (capacity mp) /\
                          Forall (λ x, 0 <= x <= probe_limit mp) b
              | None => True
              end;
  wf_placed : placed kind (vhash hs) (mpos mp) (entries mp) (bound_fn mp);
  wf_unique : unique kind (same hs) (entries mp);
}.

(** With its counters: the live entries, and the tombstones modulo 2^32. *)
Record map_wf (hs : ck_hs) (mp : ck_hs_map) : Prop := {
  wf_core :> map_core hs mp;
  wf_n_entries : n_entries mp = Z.of_nat (length (contents mp));
  wf_tombstones : tombstones mp = u32 (Z.of_nat (length (dead kind (entries mp))));
}.

Lemma capacity_range hs mp : map_core hs mp -> 8 <= capacity mp <= 2147483648.
Proof.
  intros W. destruct (wf_capacity _ _ W) as (k & Hk & ->).
  pose proof (Z.pow_le_mono_r 2 3 k). pose proof (Z.pow_le_mono_r 2 k 31). lia.
Qed.

Lemma mpos_lookup hs mp h p :
  map_core hs mp -> ∃ v, entries mp !! mpos mp h p = Some v.
Proof.
  intros W. apply lookup_lt_is_Some. rewrite (wf_length _ _ W).
  destruct (wf_capacity _ _ W) as (k & Hk & Hc). unfold mpos. rewrite (wf_mask _ _ W) Hc.
  apply pos_lt. lia.
Qed.

Lemma home_lt hs mp h :
  map_core hs mp -> (Z.to_nat (Z.land h (mask mp)) < Z.to_nat (capacity mp))%nat.
Proof.
  intros W. destruct (wf_capacity _ _ W) as (k & Hk & Hc). rewrite (wf_mask _ _ W) Hc.
  pose proof (land_mask_range h k ltac:(lia)). lia.
Qed.

Lemma bound_get_range hs mp h :
  map_core hs mp -> 0 <= ck_hs_map_bound_get mp h <= probe_limit mp.
Proof.
  intros W. pose proof (wf_maximum _ _ W) as Hm. pose proof (wf_bounds _ _ W) as Hb.
  unfold ck_hs_map_bound_get. destruct (probe_bound mp) as [b|]; [|done].
  destruct Hb as [Hlen Hall]. destruct (_ =? _); [done|].
  destruct (b !! _) as [x|] eqn:Hx; simpl; [|lia].
  rewrite Forall_lookup in Hall. by eapply Hall.
Qed.

(** * What a probe finds *)

Section probe.
Context (hs : ck_hs) (mp : ck_hs_map) (h key opl : Z) (behavior : ck_hs_probe_behavior).

(** Slot [s] is the [p]-th of the walk, and all before it are in use. *)
Definition at_walk (s : Z) (p : nat) : Prop :=
  Z.to_nat s = mpos mp h p /\ path kind (mpos mp) (entries mp) h p /\ Z.of_nat p < opl.

Definition matches (v : Z) : Prop := keq hs (vkey hs v) key = true.

Record probe_ok (r : probe_result) : Prop := {
  po_found : r_object r <> CK_HS_EMPTY ->
    ∃ s p, r_slot r = Some s /\ at_walk s p /\ entries mp !! Z.to_nat s = Some (r_object r) /\
           kind (r_object r) = Live /\ matches (r_object r) /\
           (r_priority r = None -> r_n_probes r = Z.of_nat p + 1);
  po_slot : r_object r = CK_HS_EMPTY -> ∀ s, r_slot r = Some s ->
    ∃ p, at_walk s p /\ entries mp !! Z.to_nat s = Some CK_HS_EMPTY /\
         (r_priority r = None -> r_n_probes r = Z.of_nat p + 1);
  po_priority s : r_priority r = Some s ->
    ∃ q, at_walk s q /\ entries mp !! Z.to_nat s = Some CK_HS_TOMBSTONE /\
         r_n_probes r = Z.of_nat q + 1;
  po_absent : r_object r = CK_HS_EMPTY -> behavior <> CK_HS_PROBE_TOMBSTONE ->
    absent kind (entries mp) matches;
}.

Context (lim0 : Z).
Context (Hlookup : ∀ p, ∃ v, entries mp !! mpos mp h p = Some v).
Context (Hplaced : placed kind (vhash hs) (mpos mp) (entries mp) (bound_fn mp)).
Context (Hhash : ∀ v, v ∈ contents mp -> matches v -> vhash hs v = h).
Context (Hlim0 : 0 <= lim0 <= opl).
Context (Hbound : behavior <> CK_HS_PROBE_TOMBSTONE -> Z.of_nat (bound_fn mp h) <= lim0).

(** The state of the loop before its [p]-th slot. *)
Record loop_inv (p : nat) (limit : Z) (past : bool) (pr : option Z) (np : Z) : Prop := {
  li_path : path kind (mpos mp) (entries mp) h p;
  li_missed : missed kind (mpos mp) matches h (entries mp) p;
  li_le : Z.of_nat p <= limit;
  li_past : limit = if past then opl else lim0;
  li_past_le : past = true -> lim0 <= Z.of_nat p;
  li_pr s : pr = Some s ->
    ∃ q, at_walk s q /\ entries mp !! Z.to_nat s = Some CK_HS_TOMBSTONE /\ np = Z.of_nat q + 1;
}.

Lemma leave_limit p limit past pr np s :
  loop_inv p limit past pr np -> Z.of_nat p = limit ->
  probe_ok (probe_leave (Some s) CK_HS_EMPTY (Z.of_nat p + 1) limit pr np).
Proof.
  intros I Hp. unfold probe_leave. rewrite (proj2 (Z.ltb_lt _ _)); [lia|].
  split; cbn; [done|done| |].
  - intros s' ->. by apply (li_pr _ _ _ _ _ I).
  - intros _ Hb. eapply (absent_bound _ _ _ _ _ _ _ p Hplaced Hhash); [|apply (li_missed _ _ _ _ _ I)].
    specialize (Hbound Hb). pose proof (li_past _ _ _ _ _ I) as Hl. destruct past; lia.
Qed.

Lemma leave_empty p limit past pr np :
  loop_inv p limit past pr np -> Z.of_nat p < limit ->
  entries mp !! mpos mp h p = Some CK_HS_EMPTY ->
  probe_ok (probe_leave (Some (walk_cursor (walk_at (mask mp) (step mp) h p))) CK_HS_EMPTY
              (Z.of_nat p + 1) limit pr np).
Proof.
  intros I Hp Hv. unfold probe_leave. rewrite (proj2 (Z.ltb_ge _ _)); [lia|].
  pose proof (li_past _ _ _ _ _ I) as Hl. split; cbn; [done| | |].
  - intros _ s [= <-]. exists p. split; [|split; [done|by intros ->]].
    split; [done|]. split; [apply (li_path _ _ _ _ _ I)|destruct past; lia].
  - intros s' ->. by apply (li_pr _ _ _ _ _ I).
  - intros _ _. by eapply (absent_vacant _ _ _ _ _ _ _ p _ Hplaced Hhash);
      [apply (li_missed _ _ _ _ _ I)| |].
Qed.

Lemma leave_found p limit past pr np v :
  loop_inv p limit past pr np -> Z.of_nat p < limit ->
  entries mp !! mpos mp h p = Some v -> kind v = Live -> matches v ->
  probe_ok (probe_leave (Some (walk_cursor (walk_at (mask mp) (step mp) h p))) v
              (Z.of_nat p + 1) limit pr np).
Proof.
  intros I Hp Hv Hk Hm. unfold probe_leave. rewrite (proj2 (Z.ltb_ge _ _)); [lia|].
  pose proof (li_past _ _ _ _ _ I) as Hl. apply kind_live in Hk as Hk'. split; cbn.
  - intros _. eexists _, p. split; [done|]. split; [|split_and!; [done..|by intros ->]].
    split; [done|]. split; [apply (li_path _ _ _ _ _ I)|destruct past; lia].
  - naive_solver.
  - intros s' ->. by apply (li_pr _ _ _ _ _ I).
  - naive_solver.
Qed.

Lemma leave_tombstone p limit past np :
  loop_inv p limit past None np -> Z.of_nat p < limit ->
  entries mp !! mpos mp h p = Some CK_HS_TOMBSTONE ->
  behavior = CK_HS_PROBE_TOMBSTONE \/ past = true ->
  probe_ok (probe_leave None CK_HS_EMPTY (Z.of_nat p + 1) limit
              (Some (walk_cursor (walk_at (mask mp) (step mp) h p))) (Z.of_nat p + 1)).
Proof.
  intros I Hp Hv Hor. unfold probe_leave. rewrite (proj2 (Z.ltb_ge _ _)); [lia|].
  pose proof (li_past _ _ _ _ _ I) as Hl. split; cbn; [done|done| |].
  - intros s [= <-]. exists p. split_and!; [|done..].
    split; [done|]. split; [apply (li_path _ _ _ _ _ I)|destruct past; lia].
  - intros _ Hb. destruct Hor as [|Hpast]; [done|]. specialize (Hbound Hb).
    eapply (absent_bound _ _ _ _ _ _ _ p Hplaced Hhash); [|apply (li_missed _ _ _ _ _ I)].
    pose proof (li_past_le _ _ _ _ _ I Hpast). lia.
Qed.

(** A slot that neither ends the search nor is EMPTY is stepped over. *)
Lemma loop_inv_next p limit past pr np pr' np' v :
  loop_inv p limit past pr np -> Z.of_nat p < limit ->
  entries mp !! mpos mp h p = Some v -> kind v <> Vacant -> (kind v = Live -> ¬ matches v) ->
  (pr', np') = (pr, np) \/
  (v = CK_HS_TOMBSTONE /\ pr' = Some (walk_cursor (walk_at (mask mp) (step mp) h p)) /\
   np' = Z.of_nat p + 1) ->
  loop_inv (S p) limit past pr' np'.
Proof.
  intros I Hp Hv Hk Hm Hpr. pose proof (li_past _ _ _ _ _ I) as Hl. split.
  - apply path_S; [apply (li_path _ _ _ _ _ I)|]. by exists v.
  - eapply missed_S; [apply (li_missed _ _ _ _ _ I)|done|done].
  - lia.
  - done.
  - intros Hpast. pose proof (li_past_le _ _ _ _ _ I Hpast). lia.
  - intros s Hs. destruct Hpr as [[= -> ->]|(-> & -> & ->)]; [by apply (li_pr _ _ _ _ _ I)|].
    simplify_eq. exists p. split_and!; [|done..].
    split; [done|]. split; [apply (li_path _ _ _ _ _ I)|destruct past; lia].
Qed.

Lemma loop_inv_extend p pr np :
  loop_inv p (Z.of_nat p) false pr np -> Z.of_nat p <> opl -> loop_inv p opl true pr np.
Proof.
  intros I Hne. pose proof (li_past _ _ _ _ _ I) as Hl.
  split; [apply I|apply I|lia|done|lia|apply I].
Qed.

Lemma probe_loop_ok fuel p limit past pr np :
  loop_inv p limit past pr np -> opl + 2 <= Z.of_nat (fuel + p) ->
  ∃ r, probe_loop shr_undef hs mp h key opl behavior fuel (walk_at (mask mp) (step mp) h p)
         (Z.of_nat p) limit past pr np = Some r /\ probe_ok r.
Proof.
  revert p limit past pr np. induction fuel as [|fuel IH]; intros p limit past pr np I Hf.
  { pose proof (li_le _ _ _ _ _ I). pose proof (li_past _ _ _ _ _ I). destruct past; lia. }
  cbn [probe_loop].
  destruct ((Z.of_nat p =? limit) && _) eqn:Hleave.
  { apply andb_true_iff in Hleave as [Heq%Z.eqb_eq _]. eexists. split; [done|].
    by eapply leave_limit. }
  assert (∃ limit', limit' = (if Z.of_nat p =? limit then opl else limit) /\ Z.of_nat p < limit' /\
    loop_inv p limit' (past || (Z.of_nat p =? limit)) pr np) as (limit' & <- & Hlt & I').
  { eexists. split; [done|]. pose proof (li_le _ _ _ _ _ I) as Hle.
    pose proof (li_past _ _ _ _ _ I) as Hl. destruct (Z.eqb_spec (Z.of_nat p) limit) as [Heq|Hne].
    - cbn in Hleave. apply orb_false_iff in Hleave as [Hno _]. apply Z.eqb_neq in Hno.
      destruct past; [done|]. subst limit. rewrite Heq. split; [lia|].
      rewrite -Heq in I. rewrite -Heq in Hno. by apply loop_inv_extend.
    - rewrite orb_false_r. split; [lia|done]. }
  clear Hleave I. generalize dependent (past || (Z.of_nat p =? limit)). clear past limit.
  intros past I'. destruct (Hlookup p) as [v Hv].
  change (Z.to_nat (walk_cursor (walk_at (mask mp) (step mp) h p))) with (mpos mp h p).
  rewrite Hv /=. rewrite walk_at_S match_keq.
  replace (Z.of_nat p + 1) with (Z.of_nat (S p)) by lia.
  assert (∀ pr' np', loop_inv (S p) limit' past pr' np' ->
    ∃ r, probe_loop shr_undef hs mp h key opl behavior fuel (walk_at (mask mp) (step mp) h (S p))
         (Z.of_nat (S p)) limit' past pr' np' = Some r /\ probe_ok r) as Hcont.
  { intros pr' np' I2. apply IH; [done|lia]. }
  destruct (Z.eqb_spec v CK_HS_EMPTY) as [->|Hne].
  { eexists. split; [done|]. replace (Z.of_nat (S p)) with (Z.of_nat p + 1) by lia.
    by eapply leave_empty. }
  destruct (Z.eqb_spec v CK_HS_TOMBSTONE) as [->|Hnt].
  - destruct pr as [s|].
    { apply Hcont. by eapply loop_inv_next; [..|by left]. }
    destruct (decide (behavior = CK_HS_PROBE_TOMBSTONE \/ past = true)) as [Hor|Hor].
    + exists (probe_leave None CK_HS_EMPTY (Z.of_nat (S p)) limit'
                (Some (walk_cursor (walk_at (mask mp) (step mp) h p))) (Z.of_nat (S p))).
      split; [destruct Hor as [->| ->]; [done|by destruct behavior]|].
      replace (Z.of_nat (S p)) with (Z.of_nat p + 1) by lia. by eapply leave_tombstone.
    + destruct (Hcont (Some (walk_cursor (walk_at (mask mp) (step mp) h p))) (Z.of_nat (S p)))
        as (r & Hr & Hok).
      { eapply loop_inv_next; [done..|]. right. split_and!; [done..|lia]. }
      exists r. split; [|done]. rewrite -Hr. destruct behavior, past; naive_solver.
  - assert (kind v = Live) as Hlive by (by apply kind_live).
    destruct (keq hs (ck_hs_apply_key_offset hs v) key) eqn:Hk.
    + eexists. split; [done|]. replace (Z.of_nat (S p)) with (Z.of_nat p + 1) by lia.
      by eapply leave_found.
    + apply Hcont. eapply loop_inv_next; [done..| | |by left]; [congruence|].
      intros _. unfold matches, vkey. congruence.
Qed.
End probe.

(** The probe as the operations call it. *)
Lemma ck_hs_map_probe_ok hs mp h key opl behavior :
  map_core hs mp -> keys_ok hs -> h = hf hs key (seed hs) ->
  match behavior with
  | CK_HS_PROBE => ck_hs_map_bound_get mp h <= opl
  | _ => opl = probe_limit mp
  end ->
  ∃ r, ck_hs_map_probe shr_undef hs mp h key opl behavior = Some r /\
       probe_ok hs mp h key opl behavior r.
Proof.
  intros W K -> Hopl. set (h := hf hs key (seed hs)) in *.
  pose proof (bound_get_range hs mp h W) as Hb. pose proof (wf_limit _ _ W) as Hl.
  unfold ck_hs_map_probe. set (lim0 := match behavior with CK_HS_PROBE_INSERT => _ | _ => _ end).
  assert (0 <= lim0 <= opl) as Hlim0 by (subst lim0; destruct behavior; lia).
  change (walk_start mp h) with (walk_at (mask mp) (step mp) h 0). change 0 with (Z.of_nat 0) at 1.
  eapply (probe_loop_ok _ _ _ _ _ _ lim0).
  - intros p. by apply (mpos_lookup hs).
  - apply W.
  - intros v _ Hm. by apply keq_hash.
  - done.
  - intros Hbh. unfold bound_fn. subst lim0. destruct behavior; [|done|]; lia.
  - split; [intros q Hq; lia|apply missed_0|lia|done|done|done].
  - unfold probe_fuel. lia.
Qed.
End inv.

(** The hash set: what each elementary change does to the invariant, the
    creation of maps, and growth. *)

Section maps.
Context (malloc_ok : heap -> Z -> bool) (shr_undef : Z -> Z -> Z).
Implicit Types (hs : ck_hs) (mp : ck_hs_map).

Abbreviation core := (map_core shr_undef).
Abbreviation wf := (map_wf shr_undef).
Abbreviation mpos := (mpos shr_undef).
Abbreviation mpath mp := (path kind (mpos mp) (entries mp)).

(** * Elementary changes *)

Lemma core_counters hs mp mp' :
  entries mp' = entries mp -> capacity mp' = capacity mp -> mask mp' = mask mp ->
  step mp' = step mp -> probe_limit mp' = probe_limit mp ->
  probe_maximum mp' = probe_maximum mp -> probe_bound mp' = probe_bound mp ->
  core hs mp -> core hs mp'.
Proof.
  destruct mp, mp'; simpl. intros -> -> -> -> -> -> -> C.
  split; apply C.
Qed.

Lemma core_set_n_entries hs mp n : core hs mp -> core hs (set_n_entries mp n).
Proof. by apply core_counters. Qed.

Lemma core_set_tombstones hs mp n : core hs mp -> core hs (set_tombstones mp n).
Proof. by apply core_counters. Qed.

Lemma core_signal hs mp h : core hs mp -> core hs (ck_hs_map_signal mp h).
Proof. by apply core_counters. Qed.

(** Storing a live value at position [p] of its walk. *)
Lemma core_store hs mp s v p :
  core hs mp -> kind v = Live ->
  Z.to_nat s = mpos mp (vhash hs v) p -> mpath mp (vhash hs v) p ->
  (p < bound_fn mp (vhash hs v))%nat ->
  (∀ s' e', s' <> Z.to_nat s -> entries mp !! s' = Some e' -> kind e' = Live ->
    ¬ same hs e' v /\ ¬ same hs v e') ->
  core hs (store mp s v).
Proof.
  intros C Hv Hs Hp Hb Hu. split; try apply C.
  - cbn. rewrite length_insert. apply C.
  - cbn. eapply placed_store; [done|by rewrite Hs|done|done|]. apply C.
  - cbn. apply unique_store; [apply C|done].
Qed.

Lemma core_kill hs mp s : core hs mp -> core hs (store mp s CK_HS_TOMBSTONE).
Proof.
  intros C. split; try apply C.
  - cbn. rewrite length_insert. apply C.
  - cbn. apply placed_kill; [done|]. apply C.
  - cbn. apply unique_kill; [done|]. apply C.
Qed.

(** ** Probe bounds *)

Lemma bound_set_fields mp h n :
  let mp' := ck_hs_map_bound_set mp h n in
  entries mp' = entries mp /\ capacity mp' = capacity mp /\ mask mp' = mask mp /\
  step mp' = step mp /\ probe_limit mp' = probe_limit mp /\ n_entries mp' = n_entries mp /\
  tombstones mp' = tombstones mp /\ size mp' = size mp.
Proof.
  unfold ck_hs_map_bound_set. cbn.
  destruct (probe_maximum mp <? n), (probe_bound _); cbn;
    try destruct (default _ _ <? _); by split_and!.
Qed.

Lemma bound_set_maximum mp h n :
  0 <= n < 2 ^ 32 -> 0 <= probe_maximum mp ->
  probe_maximum (ck_hs_map_bound_set mp h n) = Z.max (probe_maximum mp) n.
Proof.
  intros Hn Hm. unfold ck_hs_map_bound_set.
  destruct (Z.ltb_spec (probe_maximum mp) n), (probe_bound _); cbn;
    try destruct (default _ _ <? _); cbn; rewrite ?u32_small; lia.
Qed.

Lemma bound_set_bounds mp h n :
  probe_bound (ck_hs_map_bound_set mp h n) =
  match probe_bound mp with
  | None => None
  | Some b => Some (if default 0 (b !! Z.to_nat (Z.land h (mask mp))) <? n
                    then <[Z.to_nat (Z.land h (mask mp)) := Z.min n CK_HS_WORD_MAX]> b else b)
  end.
Proof.
  assert ((if CK_HS_WORD_MAX <? n then CK_HS_WORD_MAX else n) = Z.min n CK_HS_WORD_MAX) as Hmin.
  { destruct (Z.ltb_spec CK_HS_WORD_MAX n); lia. }
  unfold ck_hs_map_bound_set. rewrite Hmin.
  destruct (probe_maximum mp <? n); cbn; destruct (probe_bound mp) eqn:Hb; cbn; try done;
    destruct (default _ _ <? _); cbn; by rewrite ?Hb.
Qed.

(** Raising the bound of one hash never lowers that of another. *)
Lemma bound_set_ok hs mp h n :
  core hs mp -> 0 <= n <= probe_limit mp ->
  n <= ck_hs_map_bound_get (ck_hs_map_bound_set mp h n) h /\
  (∀ h', ck_hs_map_bound_get mp h' <= ck_hs_map_bound_get (ck_hs_map_bound_set mp h n) h').
Proof.
  intros C Hn. pose proof (wf_maximum _ _ _ C) as Hm. pose proof (wf_limit _ _ _ C) as Hl.
  pose proof (wf_bounds _ _ _ C) as Hb. pose proof (home_lt shr_undef hs mp h C) as Hlt.
  pose proof (bound_set_fields mp h n) as (_ & _ & Hmask & _).
  unfold ck_hs_map_bound_get. rewrite Hmask bound_set_bounds bound_set_maximum; [lia|lia|].
  set (i := Z.to_nat (Z.land h (mask mp))) in *.
  destruct (probe_bound mp) as [b|]; [|split; [lia|intros; lia]]. destruct Hb as [Hlen Hall].
  rewrite -Hlen in Hlt.
  pose proof (default_range b (probe_limit mp) i ltac:(lia) Hall) as Hi.
  split.
  - destruct (Z.ltb_spec (default 0 (b !! i)) n) as [Hx|Hx].
    + rewrite list_lookup_insert_eq //=. unfold CK_HS_WORD_MAX. zcase.
    + unfold CK_HS_WORD_MAX. zcase.
  - intros h'. set (j := Z.to_nat (Z.land h' (mask mp))).
    destruct (Z.ltb_spec (default 0 (b !! i)) n) as [Hx|Hx].
    + destruct (decide (i = j)) as [<-|Hne].
      * rewrite list_lookup_insert_eq //=. unfold CK_HS_WORD_MAX. repeat zcase.
      * rewrite list_lookup_insert_ne //. zcase.
    + zcase.
Qed.

Lemma core_bound_set hs mp h n :
  core hs mp -> 0 <= n <= probe_limit mp -> core hs (ck_hs_map_bound_set mp h n).
Proof.
  intros C Hn. destruct (bound_set_ok hs mp h n C Hn) as [_ Hmono].
  pose proof (bound_set_fields mp h n) as (He & Hc & Hk & Hs & Hp & _).
  pose proof (wf_maximum _ _ _ C) as Hm. pose proof (wf_limit _ _ _ C) as Hl.
  split; rewrite ?He ?Hc ?Hk ?Hp; try apply C.
  - rewrite bound_set_maximum; lia.
  - rewrite bound_set_bounds. pose proof (wf_bounds _ _ _ C) as Hb.
    destruct (probe_bound mp) as [b|]; [|done]. destruct Hb as [Hlen Hall].
    destruct (_ <? _); [|done]. rewrite length_insert. split; [done|].
    apply Forall_insert; [done|]. unfold CK_HS_WORD_MAX. lia.
  - unfold HsInv.mpos. rewrite Hk Hs. eapply placed_mono; [|apply C].
    intros h'. unfold bound_fn. specialize (Hmono h'). lia.
Qed.

(** * Creation *)

Lemma live_replicate n : live kind (replicate n CK_HS_EMPTY) = [].
Proof. by induction n. Qed.
Lemma dead_replicate n : dead kind (replicate n CK_HS_EMPTY) = [].
Proof. by induction n. Qed.

Lemma create_ok hs h0 md e mp h1 :
  ck_hs_map_create malloc_ok h0 md e = (Some mp, h1) ->
  wf hs mp /\ contents mp = [] /\ dead kind (entries mp) = [] /\ capacity mp = rounded e /\
  outstanding h1 = size mp + outstanding h0 /\ size mp >= 8 * capacity mp /\
  malloc_ok h0 (size mp) = true.
Proof.
  unfold ck_hs_map_create.
  set (n := if _ <? CK_HS_PROBE_L1 then _ else _).
  assert (n = rounded e) as Hn.
  { subst n. unfold rounded. change CK_HS_PROBE_L1 with 8.
    destruct (Z.ltb_spec (ck_internal_power_2 e) 8); lia. }
  destruct (rounded_pow2 e) as (k & Hk & Hkr). rewrite Hkr in Hn.
  assert (8 <= 2 ^ k <= 2147483648) as Hr.
  { pose proof (Z.pow_le_mono_r 2 3 k). pose proof (Z.pow_le_mono_r 2 k 31). lia. }
  clearbody n. subst n. set (sz := u64 (u64 _ + _)).
  assert (sz >= 8 * 2 ^ k) as Hsz.
  { subst sz. unfold sizeof_ck_hs_map, CK_MD_CACHELINE. destruct (test _ _); ulia. }
  unfold malloc. destruct (malloc_ok h0 sz) eqn:Hok; simpl; [|done]. intros [= <- <-].
  assert (0 <= Z.shiftr (2 ^ k) 5 < 2 ^ 32) as Hsh.
  { rewrite Z.shiftr_div_pow2 //. Z.to_euclidean_division_equations; lia. }
  assert (ck_internal_max (Z.shiftr (2 ^ k) 5) CK_HS_PROBE_L1_DEFAULT =
          Z.max (Z.shiftr (2 ^ k) 5) 64) as Hlim.
  { apply ck_internal_max_spec; [|done]. lia. }
  change (CK_HS_PROBE_L1_SHIFT + 2) with 5. rewrite Hlim.
  rewrite (proj2 (Z.ltb_ge UINT_MAX _)); [unfold UINT_MAX; lia|].
  split_and!; cbn; [|apply live_replicate|apply dead_replicate|done..].
  split; [split|..]; cbn.
  - eauto.
  - done.
  - by rewrite length_replicate.
  - lia.
  - lia.
  - destruct (test _ _); [|done]. rewrite length_replicate. split; [done|].
    apply Forall_replicate. lia.
  - apply placed_none, live_replicate.
  - intros s1 s2 e1 e2 H1 _ K1. apply lookup_replicate in H1 as [-> _]. done.
  - exact (f_equal (λ l, Z.of_nat (length l)) (eq_sym (live_replicate _))).
  - exact (f_equal (λ l, u32 (Z.of_nat (length l))) (eq_sym (dead_replicate _))).
Qed.

Lemma create_fail h0 md e h1 :
  ck_hs_map_create malloc_ok h0 md e = (None, h1) -> outstanding h1 = outstanding h0.
Proof.
  unfold ck_hs_map_create, malloc. destruct (malloc_ok _ _); simpl; [done|].
  by intros [= <-].
Qed.
End maps.
