(* ===== verification/HsProofs.v ===== *)
(** The hash set: growth, and the changes the operations make once a probe has
    told them where. *)

From S2P Require Export HsInv.
Set Warnings "-rewrite-rw,-clear-no-such-hyp".

(** The callbacks and the mode never change. *)
Definition same_config (hs hs' : ck_hs) : Prop :=
  mode hs' = mode hs /\ seed hs' = seed hs /\ hf hs' = hf hs /\ compare hs' = compare hs.

Lemma same_config_refl hs : same_config hs hs.
Proof. done. Qed.

Lemma same_config_trans hs1 hs2 hs3 :
  same_config hs1 hs2 -> same_config hs2 hs3 -> same_config hs1 hs3.
Proof. intros (? & ? & ? & ?) (? & ? & ? & ?). split_and!; congruence. Qed.

Lemma same_config_keys hs hs' : same_config hs hs' -> keys_ok hs -> keys_ok hs'.
Proof.
  destruct hs, hs'. intros (H1 & H2 & H3 & H4) K. cbn in *. subst.
  split; [exact (keq_sym _ K)|exact (keq_trans _ K)|exact (keq_hash _ K)].
Qed.

Lemma same_config_vhash hs hs' v : same_config hs hs' -> vhash hs' v = vhash hs v.
Proof. destruct hs, hs'. intros (H1 & H2 & H3 & H4). cbn in *. by subst. Qed.

Lemma same_config_vkey hs hs' v : same_config hs hs' -> vkey hs' v = vkey hs v.
Proof. destruct hs, hs'. intros (H1 & H2 & H3 & H4). cbn in *. by subst. Qed.

Lemma same_config_matches hs hs' key v : same_config hs hs' -> matches hs' key v <-> matches hs key v.
Proof. destruct hs, hs'. intros (H1 & H2 & H3 & H4). cbn in *. by subst. Qed.

Section ops.
Context (malloc_ok : heap -> Z -> bool) (shr_undef : Z -> Z -> Z).
Implicit Types (hs : ck_hs) (mp : ck_hs_map).

Abbreviation core := (map_core shr_undef).
Abbreviation wf := (map_wf shr_undef).
Abbreviation mpos := (mpos shr_undef).
Abbreviation mpath mp := (path kind (mpos mp) (entries mp)).
Abbreviation create := (ck_hs_map_create malloc_ok).

Lemma core_config hs hs' mp : same_config hs hs' -> core hs mp -> core hs' mp.
Proof.
  destruct hs, hs'. intros (H1 & H2 & H3 & H4) C. cbn in *. subst.
  split; apply C.
Qed.

Lemma wf_config hs hs' mp : same_config hs hs' -> wf hs mp -> wf hs' mp.
Proof. intros H W. split; [by eapply core_config; [|apply W]|apply W..]. Qed.

(** The invariant of the whole set.  The memory of the map was really allocated,
    and is all that is outstanding. *)
Record hs_wf hs : Prop := {
  wf_map : wf hs (map hs);
  wf_heap : outstanding (m hs) = size (map hs);
  wf_size : 8 * capacity (map hs) <= size (map hs);
  wf_alloc : ∃ h, malloc_ok h (size (map hs)) = true;
}.

(** * Changing one entry *)

(** Where a value may be stored: at position [q] of its walk, within its bound. *)
Definition target hs mp (s v : Z) (q : nat) : Prop :=
  Z.to_nat s = mpos mp (vhash hs v) q /\ mpath mp (vhash hs v) q /\
  (q < bound_fn mp (vhash hs v))%nat.

(** A new value in a slot that holds none. *)
Lemma insert_ok hs mp s v q old :
  core hs mp -> kind v = Live -> target hs mp s v q ->
  entries mp !! Z.to_nat s = Some old -> kind old <> Live ->
  absent kind (entries mp) (λ w, same hs w v \/ same hs v w) ->
  core hs (store mp s v) /\ contents (store mp s v) ≡ₚ v :: contents mp /\
  (length (dead kind (entries (store mp s v))) + dead_count kind old =
   length (dead kind (entries mp)))%nat.
Proof.
  intros C Hv (Hs & Hp & Hb) Hold Hk Habs. split_and!.
  - eapply core_store; [done..|]. intros s' e' _ He' Hk'.
    specialize (Habs s' e' He' Hk'). naive_solver.
  - by eapply live_store.
  - cbn [store entries set_entries]. rewrite (dead_insert kind _ _ old v Hold).
    rewrite (dead_count_other kind v) //. by rewrite Hv.
Qed.

Lemma others_differ hs mp s v old :
  core hs mp -> keys_ok hs -> entries mp !! Z.to_nat s = Some old -> kind old = Live ->
  same hs old v ->
  ∀ s' e', s' <> Z.to_nat s -> entries mp !! s' = Some e' -> kind e' = Live ->
    ¬ same hs e' v /\ ¬ same hs v e'.
Proof.
  intros C K Hold Hk Hsame s' e' Hne He' Hk'.
  assert (¬ same hs e' old) as Hno.
  { intros Hs. apply Hne. by eapply (wf_unique _ _ _ C). }
  pose proof (keq_sym _ K) as Hsym. pose proof (keq_trans _ K) as Htr. unfold same in *.
  split; intros Hx; apply Hno; eauto.
Qed.

(** An equal value in place of the old one. *)
Lemma replace_ok hs mp s v q old :
  core hs mp -> keys_ok hs -> kind v = Live -> target hs mp s v q ->
  entries mp !! Z.to_nat s = Some old -> kind old = Live -> same hs old v ->
  core hs (store mp s v) /\ old :: contents (store mp s v) ≡ₚ v :: contents mp /\
  length (dead kind (entries (store mp s v))) = length (dead kind (entries mp)).
Proof.
  intros C K Hv (Hs & Hp & Hb) Hold Hk Hsame. split_and!.
  - eapply core_store; [done..|]. by eapply others_differ.
  - by eapply live_replace.
  - pose proof (dead_insert kind _ _ old v Hold) as Hd.
    rewrite !dead_count_other in Hd; [by rewrite Hk|by rewrite Hv|].
    cbn [store entries set_entries]. lia.
Qed.

Lemma kill_ok hs mp s old :
  core hs mp -> entries mp !! Z.to_nat s = Some old -> kind old = Live ->
  core hs (store mp s CK_HS_TOMBSTONE) /\
  old :: contents (store mp s CK_HS_TOMBSTONE) ≡ₚ contents mp /\
  length (dead kind (entries (store mp s CK_HS_TOMBSTONE))) = S (length (dead kind (entries mp))).
Proof.
  intros C Hold Hk. split_and!.
  - by apply core_kill.
  - by eapply live_kill.
  - pose proof (dead_insert kind _ _ old CK_HS_TOMBSTONE Hold) as Hd.
    rewrite (dead_count_other kind old) in Hd; [by rewrite Hk|].
    rewrite (dead_count_dead kind CK_HS_TOMBSTONE) // in Hd. cbn [store entries set_entries]. lia.
Qed.

(** An equal value in an earlier tombstone, and a tombstone over the old one. *)
Lemma relocate_ok hs mp h first slot v q old :
  core hs mp -> keys_ok hs -> kind v = Live -> target hs mp first v q ->
  entries mp !! Z.to_nat first = Some CK_HS_TOMBSTONE ->
  entries mp !! Z.to_nat slot = Some old -> kind old = Live -> same hs old v ->
  core hs (relocate mp h first v slot) /\
  old :: contents (relocate mp h first v slot) ≡ₚ v :: contents mp /\
  length (dead kind (entries (relocate mp h first v slot))) = length (dead kind (entries mp)).
Proof.
  intros C K Hv (Hs & Hp & Hb) Hfirst Hold Hk Hsame.
  assert (Z.to_nat slot <> Z.to_nat first) as Hne.
  { intros Heq. rewrite Heq Hfirst in Hold. simplify_eq. }
  set (mp1 := store mp slot CK_HS_TOMBSTONE).
  destruct (kill_ok hs mp slot old C Hold Hk) as (C1 & Hl1 & Hd1). fold mp1 in C1, Hl1, Hd1.
  assert (entries (relocate mp h first v slot) = entries (store mp1 first v)) as He.
  { unfold relocate, mp1. cbn [entries store set_entries set_generation ck_hs_map_signal].
    by rewrite list_insert_insert_ne. }
  assert (entries mp1 !! Z.to_nat first = Some CK_HS_TOMBSTONE) as Hf1.
  { unfold mp1. cbn [entries store set_entries]. by rewrite list_lookup_insert_ne. }
  destruct (insert_ok hs mp1 first v q CK_HS_TOMBSTONE C1 Hv) as (C2 & Hl2 & Hd2); [|done|done| |].
  - split_and!; [done| |done]. by apply path_insert.
  - intros s' e' He' Hk'. cbn in He'.
    apply list_lookup_insert_Some in He' as [(_ & <- & _)|[Hne' He']]; [done|].
    destruct (others_differ hs mp slot v old C K Hold Hk Hsame s' e' ltac:(congruence) He' Hk').
    naive_solver.
  - rewrite He. split_and!; [|by rewrite Hl2 -Hl1; apply perm_swap|].
    2: { change (dead_count kind CK_HS_TOMBSTONE) with 1%nat in Hd2. lia. }
    by apply (core_counters _ _ (store mp1 first v)).
Qed.

(** * Growth *)

Lemma grow_probe_ok hs mp h fuel p :
  core hs mp -> mpath mp h p -> Z.of_nat p <= probe_limit mp ->
  probe_limit mp + 1 <= Z.of_nat (fuel + p) ->
  ∃ r, grow_probe shr_undef mp h fuel (walk_at shr_undef (mask mp) (step mp) h p) (Z.of_nat p) = Some r /\
  match r with
  | None => True
  | Some (c, n) => ∃ q, Z.to_nat c = mpos mp h q /\ mpath mp h q /\
                        entries mp !! Z.to_nat c = Some CK_HS_EMPTY /\
                        n = Z.of_nat q + 1 /\ Z.of_nat q < probe_limit mp
  end.
Proof.
  intros C. revert p. induction fuel as [|fuel IH]; intros p Hp Hle Hf; [lia|].
  cbn [grow_probe]. destruct (Z.eqb_spec (Z.of_nat p) (probe_limit mp)) as [Heq|Hne]; [by eexists|].
  destruct (mpos_lookup shr_undef hs mp h p C) as [v Hv].
  change (Z.to_nat (walk_cursor (walk_at shr_undef (mask mp) (step mp) h p))) with (mpos mp h p).
  rewrite Hv /=. destruct (Z.eqb_spec v CK_HS_EMPTY) as [->|Hv0].
  - eexists. split; [done|]. exists p. split_and!; [done..|lia].
  - rewrite walk_at_S. replace (Z.of_nat p + 1) with (Z.of_nat (S p)) by lia.
    apply IH; [|lia|lia]. apply path_S; [done|]. exists v. split; [done|].
    by rewrite kind_vacant.
Qed.

Lemma bound_set_store mp s v h n n' :
  ck_hs_map_bound_set (set_n_entries (store mp s v) n') h n =
  set_n_entries (store (ck_hs_map_bound_set mp h n) s v) n'.
Proof.
  unfold ck_hs_map_bound_set. cbn. destruct (probe_maximum mp <? n); cbn;
    destruct (probe_bound mp); cbn; try done; by destruct (_ <? _).
Qed.

Lemma bound_set_target hs mp s v q :
  core hs mp -> Z.to_nat s = mpos mp (vhash hs v) q -> mpath mp (vhash hs v) q ->
  Z.of_nat q < probe_limit mp ->
  target hs (ck_hs_map_bound_set mp (vhash hs v) (Z.of_nat q + 1)) s v q.
Proof.
  intros C Hs Hp Hq.
  destruct (bound_set_ok shr_undef hs mp (vhash hs v) (Z.of_nat q + 1) C ltac:(lia)) as [Hb _].
  pose proof (bound_set_fields mp (vhash hs v) (Z.of_nat q + 1)) as (He & _ & Hm & Hst & _).
  unfold target, HsInv.mpos. rewrite He Hm Hst. split_and!; [done..|]. unfold bound_fn. lia.
Qed.

Lemma rehash_ok hs slots pre mp :
  unique kind (same hs) (pre ++ slots) -> wf hs mp -> contents mp ≡ₚ live kind pre ->
  dead kind (entries mp) = [] ->
  ∃ r, rehash shr_undef hs mp slots = Some r /\
  match r with
  | None => True
  | Some u => wf hs u /\ contents u ≡ₚ live kind (pre ++ slots) /\
              capacity u = capacity mp /\ size u = size mp
  end.
Proof.
  revert pre mp. induction slots as [|v slots IH]; intros pre mp Hu W Hl Hd.
  { eexists. split; [done|]. by rewrite app_nil_r. }
  cbn [rehash]. replace (pre ++ v :: slots) with ((pre ++ [v]) ++ slots) in * by (by rewrite -app_assoc).
  assert (live kind (pre ++ [v]) = live kind pre ++ live kind [v]) as Hpre by apply filter_app.
  destruct ((v =? CK_HS_EMPTY) || (v =? CK_HS_TOMBSTONE)) eqn:Hv.
  { assert (kind v <> Live) as Hk.
    { rewrite kind_live. apply orb_true_iff in Hv as [?%Z.eqb_eq|?%Z.eqb_eq]; naive_solver. }
    apply IH; [done..| |done]. rewrite Hpre Hl /live filter_cons_False // app_nil_r //. }
  assert (kind v = Live) as Hk.
  { apply kind_live. apply orb_false_iff in Hv as [?%Z.eqb_neq ?%Z.eqb_neq]. done. }
  clear Hv. set (h := hf hs _ _). change h with (vhash hs v).
  pose proof (wf_limit _ _ _ W) as Hlim.
  destruct (grow_probe_ok hs mp (vhash hs v) (probe_fuel (probe_limit mp)) 0 W) as (r & Hr & Hres).
  { intros q Hq. lia. }
  { lia. }
  { unfold probe_fuel. lia. }
  change (walk_start mp (vhash hs v)) with (walk_at shr_undef (mask mp) (step mp) (vhash hs v) 0).
  change (Z.of_nat 0) with 0 in Hr. rewrite Hr /=. destruct r as [[c n]|]; [|by eexists].
  destruct Hres as (q & Hc & Hp & Hempty & -> & Hq). rewrite bound_set_store.
  set (mp1 := ck_hs_map_bound_set mp (vhash hs v) (Z.of_nat q + 1)).
  pose proof (bound_set_fields mp (vhash hs v) (Z.of_nat q + 1)) as (He & Hcap & _ & _ & _ & Hn & Ht & Hsz).
  fold mp1 in He, Hcap, Hn, Ht, Hsz.
  destruct (insert_ok hs mp1 c v q CK_HS_EMPTY) as (C2 & Hl2 & Hd2); [| done | | | done | |].
  - apply core_bound_set; [apply W|lia].
  - by apply bound_set_target; [apply W|..].
  - by rewrite He.
  - rewrite He. apply absent_live. intros e Hin Hsame. rewrite Hl elem_of_live in Hin.
    destruct Hin as [Hke [s He']]. pose proof (lookup_lt_Some _ _ _ He') as Hlt.
    assert (s = length pre); [|lia]. destruct Hsame as [Hsame|Hsame].
    + eapply (Hu s (length pre) e v); [| |done..].
      * rewrite -app_assoc lookup_app_l //.
      * rewrite -app_assoc lookup_app_r // Nat.sub_diag //.
    + symmetry. eapply (Hu (length pre) s v e); [| |done..].
      * rewrite -app_assoc lookup_app_r // Nat.sub_diag //.
      * rewrite -app_assoc lookup_app_l //.
  - rewrite He Hd in Hd2. rewrite He in Hl2.
    assert (dead kind (entries (store mp1 c v)) = []) as Hd3.
    { apply nil_length_inv. change (dead_count kind CK_HS_EMPTY) with 0%nat in Hd2.
      change (length (@nil Z)) with 0%nat in Hd2. lia. }
    destruct (IH (pre ++ [v]) (set_n_entries (store mp1 c v) (u64 (n_entries mp + 1))))
      as (r & Hr' & Hres); [done|..|done|].
    + split; [by apply core_set_n_entries|..].
      * change (u64 (n_entries mp + 1) = Z.of_nat (length (contents (store mp1 c v)))).
        rewrite Hl2 (wf_n_entries _ _ _ W) /=.
        pose proof (live_le_length kind (entries mp)) as Hll. rewrite (wf_length _ _ _ W) in Hll.
        pose proof (capacity_range _ _ _ (wf_core _ _ _ W)). rewrite Nat2Z.inj_succ /u64 Z.mod_small; lia.
      * change (tombstones mp1 = u32 (Z.of_nat (length (dead kind (entries (store mp1 c v)))))).
        rewrite Hd3 Ht (wf_tombstones _ _ _ W) Hd. done.
    + change (contents (store mp1 c v) ≡ₚ live kind (pre ++ [v])).
      rewrite Hl2 Hpre Hl /live filter_cons_True // filter_nil. solve_Permutation.
    + exists r. split; [done|]. destruct r as [u|]; [|done].
      destruct Hres as (Wu & Hlu & Hcu & Hsu). split_and!; [done|done|..].
      * rewrite Hcu. exact Hcap.
      * rewrite Hsu. exact Hsz.
Qed.
End ops.

(** The hash set: every operation meets its specification. *)

Section proofs.
Context (malloc_ok : heap -> Z -> bool) (shr_undef : Z -> Z -> Z).
Implicit Types (hs : ck_hs) (mp : ck_hs_map).

Abbreviation core := (map_core shr_undef).
Abbreviation wf := (map_wf shr_undef).
Abbreviation hs_wf := (hs_wf malloc_ok shr_undef).
Abbreviation target := (target shr_undef).
Abbreviation probe_ok := (probe_ok shr_undef).
Abbreviation at_walk := (at_walk shr_undef).

(** The state after an operation: well formed, same callbacks, given contents. *)
Definition post hs hs' (l : list Z) : Prop :=
  hs_wf hs' /\ same_config hs hs' /\ contents (map hs') ≡ₚ l.

Abbreviation malloc_limited := (malloc_limited malloc_ok).

Lemma post_refl hs : hs_wf hs -> post hs hs (contents (map hs)).
Proof. intros W. by split_and!. Qed.

Lemma post_trans hs1 hs2 hs3 l l' :
  post hs1 hs2 l -> post hs2 hs3 l' -> contents (map hs2) ≡ₚ l -> post hs1 hs3 l'.
Proof.
  intros (W1 & S1 & _) (W2 & S2 & H2) _. split_and!; [done| |done].
  by eapply same_config_trans.
Qed.

(** * Growth *)

Lemma hs_wf_set_m hs h :
  hs_wf hs -> outstanding h = outstanding (m hs) -> hs_wf (set_m hs h).
Proof.
  intros [W H1 H2 H3] Hh. split; cbn; [|congruence|done|done]. by eapply wf_config; [|exact W].
Qed.

(** Growth terminates, whatever the hash function does, and keeps the contents. *)
Lemma grow_loop_ok fuel j hs cap :
  hs_wf hs -> keys_ok hs -> 0 <= j <= 64 -> 0 <= cap < 2 ^ 64 -> (2 ^ (64 - j) | cap) ->
  j < Z.of_nat fuel ->
  ∃ b hs', grow_loop malloc_ok shr_undef fuel hs cap = Some (b, hs') /\
           post hs hs' (contents (map hs)) /\ (b = false -> map hs' = map hs).
Proof.
  revert j hs cap. induction fuel as [|fuel IH]; intros j hs cap W K Hj Hcap Hdiv Hf; [lia|].
  cbn [grow_loop]. destruct (Z.ltb_spec cap (capacity (map hs))) as [Hlt|Hge].
  { exists false, hs. split_and!; [done|by apply post_refl|done]. }
  destruct (ck_hs_map_create malloc_ok (m hs) (mode hs) cap) as [[mp|] h1] eqn:Hc; last first.
  { apply create_fail in Hc. exists false, (set_m hs h1).
    pose proof (hs_wf_set_m hs h1 W Hc). by split_and!. }
  apply (create_ok malloc_ok shr_undef hs) in Hc
    as (Wm & Hl & Hd & Hcm & Hout & Hsz & Hal).
  pose proof W as [W1 W2 W3 W4].
  destruct (rehash_ok shr_undef hs (entries (map hs)) [] mp) as (r & Hr & Hres);
    [apply W1|done|by rewrite Hl|done|].
  rewrite Hr /=. destruct r as [u|].
  - destruct Hres as (Wu & Hlu & Hcu & Hsu). eexists true, _. split_and!; [done|split_and!|done].
    + split; cbn; [by eapply wf_config; [|exact Wu]| |lia|rewrite Hsu; eauto].
      cbn in Hout. rewrite Hout Hsu. lia.
    + done.
    + by rewrite /= Hlu.
  - assert (j <> 0) as Hj0.
    { intros ->. rewrite Z.sub_0_r in Hdiv. destruct Hdiv as [c Hdiv].
      assert (c = 0) as -> by lia. pose proof (capacity_range _ _ _ (wf_core _ _ _ W1)). lia. }
    set (hs1 := set_m hs (ck_hs_map_destroy h1 mp false)).
    assert (hs_wf hs1) as W5.
    { apply hs_wf_set_m; [done|]. cbn. lia. }
    destruct (IH (j - 1) hs1 (u64 (Z.shiftl cap 1))) as (b & hs' & Hg & Hp & Hb);
      [done|by eapply same_config_keys; [|exact K]|lia|apply u64_range| |lia|].
    { apply double_divide; [lia| |lia]. by replace (64 - (j - 1 + 1)) with (64 - j) by lia. }
    exists b, hs'. split_and!; [done|by destruct Hp as (? & ? & ?)|done].
Qed.

Lemma ck_hs_grow_ok hs cap :
  hs_wf hs -> keys_ok hs -> 0 <= cap < 2 ^ 64 ->
  ∃ b hs', ck_hs_grow malloc_ok shr_undef hs cap = Some (b, hs') /\
           post hs hs' (contents (map hs)) /\ (b = false -> map hs' = map hs).
Proof.
  intros W K Hc. apply (grow_loop_ok _ 64); [done|done|lia|done| |lia].
  change (2 ^ (64 - 64)) with 1. apply Z.divide_1_l.
Qed.

Lemma capacity_limited hs :
  hs_wf hs -> malloc_limited -> ∃ k, 3 <= k <= 30 /\ capacity (map hs) = 2 ^ k.
Proof.
  intros W Hlim. destruct (wf_capacity _ _ _ (wf_core _ _ _ (wf_map _ _ _ W))) as (k & Hk & Hc).
  exists k. split; [|done]. split; [lia|]. destruct (decide (k = 31)) as [->|Hne]; [|lia].
  pose proof (wf_size _ _ _ W) as Hs. destruct (wf_alloc _ _ _ W) as [h Hh].
  rewrite Hlim in Hh; [|done]. rewrite Hc in Hs. lia.
Qed.

(** Where allocations are limited, a successful growth is a real one. *)
Lemma grow_loop_limited fuel hs j b hs' :
  hs_wf hs -> keys_ok hs -> malloc_limited -> 3 <= j <= 31 -> capacity (map hs) <= 2 ^ j ->
  grow_loop malloc_ok shr_undef fuel hs (2 ^ j) = Some (b, hs') ->
  match b with true => 2 ^ j <= capacity (map hs') | false => alloc_failed (m hs') end.
Proof.
  intros W K Hlim. revert j hs W K. induction fuel as [|fuel IH]; intros j hs W K Hj Hcap; [done|].
  cbn [grow_loop]. rewrite (proj2 (Z.ltb_ge _ _)) //.
  destruct (ck_hs_map_create malloc_ok (m hs) (mode hs) (2 ^ j)) as [[mp|] h1] eqn:Hc; last first.
  { intros [= <- <-]. revert Hc. unfold ck_hs_map_create, malloc.
    destruct (malloc_ok _ _); simpl; [done|]. intros [= <-]. rewrite /alloc_failed /=. eauto. }
  apply (create_ok malloc_ok shr_undef hs) in Hc
    as (Wm & Hl & Hd & Hcm & Hout & Hsz & Hal).
  rewrite rounded_id // in Hcm.
  assert (j <= 30) as Hj30.
  { destruct (decide (j = 31)) as [->|Hne]; [|lia].
    rewrite Hlim // in Hal. rewrite Hcm in Hsz. lia. }
  destruct (rehash_ok shr_undef hs (entries (map hs)) [] mp) as (r & Hr & Hres);
    [apply W|done|by rewrite Hl|done|].
  rewrite Hr /=. destruct r as [u|].
  - intros [= <- <-]. cbn. destruct Hres as (_ & _ & -> & _). lia.
  - replace (u64 (Z.shiftl (2 ^ j) 1)) with (2 ^ (j + 1)).
    + intros Hg. apply IH in Hg; [|apply hs_wf_set_m; [done|cbn; lia]|by eapply same_config_keys; [|exact K]|lia|cbn].
      * destruct b; [|done]. pose proof (Z.pow_le_mono_r 2 j (j + 1)). lia.
      * pose proof (Z.pow_le_mono_r 2 j (j + 1)). lia.
    + rewrite Z.shiftl_mul_pow2 // Z.pow_add_r; [lia|lia|].
      pose proof (Z.pow_le_mono_r 2 j 30). unfold u64. rewrite Z.mod_small; lia.
Qed.

Lemma double_capacity hs :
  hs_wf hs -> malloc_limited ->
  ∃ k, 4 <= k <= 31 /\ u64 (Z.shiftl (capacity (map hs)) 1) = 2 ^ k /\
       capacity (map hs) = 2 ^ (k - 1).
Proof.
  intros W Hlim. destruct (capacity_limited hs W Hlim) as (k & Hk & ->).
  exists (k + 1). split; [lia|]. rewrite Z.add_simpl_r. split; [|done].
  rewrite Z.shiftl_mul_pow2 // Z.pow_add_r; [lia|lia|].
  pose proof (Z.pow_le_mono_r 2 k 30). unfold u64. rewrite Z.mod_small; lia.
Qed.

(** What the operations rely on when they ask for twice the capacity. *)
Lemma grow_double hs :
  hs_wf hs -> keys_ok hs -> malloc_limited ->
  ∃ b hs', ck_hs_grow malloc_ok shr_undef hs (u64 (Z.shiftl (capacity (map hs)) 1)) = Some (b, hs') /\
    post hs hs' (contents (map hs)) /\
    match b with
    | true => 2 * capacity (map hs) <= capacity (map hs')
    | false => alloc_failed (m hs')
    end.
Proof.
  intros W K Hlim. destruct (double_capacity hs W Hlim) as (k & Hk & Hd & Hc).
  destruct (ck_hs_grow_ok hs (u64 (Z.shiftl (capacity (map hs)) 1)) W K (u64_range _))
    as (b & hs' & Hg & Hp & _).
  exists b, hs'. split_and!; [done|done|]. rewrite Hd in Hg.
  assert (2 ^ k = 2 * 2 ^ (k - 1)) as H2.
  { change 2 with (2 ^ 1) at 2. rewrite -Z.pow_add_r; [lia|lia|]. f_equal. lia. }
  apply (grow_loop_limited 66 hs k) in Hg; [|done..|lia|].
  - destruct b; [|done]. rewrite Hc. lia.
  - rewrite Hc. pose proof (Z.pow_nonneg 2 (k - 1)). lia.
Qed.

(** * Storing where the probe said *)

(** The part of [probe_ok] that says where [v] may go, for a map [mp1] whose
    bounds have been raised. *)
Definition admits hs mp mp1 (opl v : Z) (r : probe_result) : Prop :=
  entries mp1 = entries mp /\ core hs mp1 /\ n_entries mp1 = n_entries mp /\
  tombstones mp1 = tombstones mp /\ capacity mp1 = capacity mp /\ size mp1 = size mp /\
  ∀ s q, at_walk mp (vhash hs v) opl s q -> r_n_probes r = Z.of_nat q + 1 ->
         target hs mp1 s v q.

Lemma admits_bound_set hs mp v r opl behavior :
  wf hs mp -> probe_ok hs mp (vhash hs v) (vkey hs v) opl behavior r -> opl <= probe_limit mp ->
  (is_Some (r_slot r) \/ is_Some (r_priority r)) ->
  admits hs mp (ck_hs_map_bound_set mp (vhash hs v) (r_n_probes r)) opl v r.
Proof.
  intros W P Hopl Hsome.
  assert (0 <= r_n_probes r <= probe_limit mp) as Hn.
  { destruct (r_priority r) as [s|] eqn:Hpr.
    - destruct (po_priority _ _ _ _ _ _ _ _ P s Hpr) as (q & (_ & _ & Hq) & _ & ->). lia.
    - destruct Hsome as [[s Hs]|[s ?]]; [|done].
      destruct (decide (r_object r = CK_HS_EMPTY)) as [H0|H0].
      + destruct (po_slot _ _ _ _ _ _ _ _ P H0 s Hs) as (p & (_ & _ & Hp) & _ & ->); [lia|done].
      + destruct (po_found _ _ _ _ _ _ _ _ P H0) as (? & p & _ & (_ & _ & Hp) & _ & _ & _ & ->);
          [lia|done]. }
  pose proof (bound_set_fields mp (vhash hs v) (r_n_probes r)) as (He & Hc & _ & _ & _ & Hne & Ht & Hs).
  split_and!; [done|apply core_bound_set; [apply W|done]|done..|].
  intros s q (H1 & H2 & H3) Heq. rewrite Heq.
  apply bound_set_target; [apply W|done|done|lia].
Qed.

Lemma target_bound_get hs mp v :
  wf hs mp ->
  (∀ s q, at_walk mp (vhash hs v) (ck_hs_map_bound_get mp (vhash hs v)) s q ->
          target hs mp s v q).
Proof. intros W s q (H1 & H2 & H3). split_and!; [done..|]. unfold bound_fn. lia. Qed.

Lemma absent_same hs mp v :
  keys_ok hs -> absent kind (entries mp) (matches hs (vkey hs v)) ->
  absent kind (entries mp) (λ w, same hs w v \/ same hs v w).
Proof.
  intros K Ha s e Hs Hk [H|H]; apply (Ha s e Hs Hk); [done|]. by apply keq_sym.
Qed.

Lemma length_live_range hs mp : core hs mp -> Z.of_nat (length (contents mp)) <= capacity mp.
Proof.
  intros C. pose proof (live_le_length kind (entries mp)) as H. rewrite (wf_length _ _ _ C) in H.
  pose proof (capacity_range _ _ _ C). lia.
Qed.

(** A new value, in the first tombstone met or in the vacant slot found. *)
Lemma insert_probed hs mp mp1 v r opl behavior :
  wf hs mp -> keys_ok hs -> kind v = Live ->
  probe_ok hs mp (vhash hs v) (vkey hs v) opl behavior r ->
  admits hs mp mp1 opl v r -> r_object r = CK_HS_EMPTY ->
  absent kind (entries mp) (matches hs (vkey hs v)) ->
  (is_Some (r_slot r) \/ is_Some (r_priority r)) ->
  ∃ mp2,
    match r_priority r with
    | Some first => Some (set_tombstones (store mp1 first v) (u32 (tombstones mp1 - 1)))
    | None => slot ← r_slot r; Some (store mp1 slot v)
    end = Some mp2 /\
    wf hs (set_n_entries mp2 (u64 (n_entries mp2 + 1))) /\ contents mp2 ≡ₚ v :: contents mp /\
    capacity mp2 = capacity mp /\ size mp2 = size mp.
Proof.
  intros W K Hv P (He & C1 & Hn & Ht & Hc & Hs & Htg) H0 Ha%absent_same Hsome; [|done].
  rewrite -He in Ha. destruct (r_priority r) as [first|] eqn:Hpr.
  - destruct (po_priority _ _ _ _ _ _ _ _ P first Hpr) as (q & Hat & Htomb & Hnp).
    destruct (insert_ok shr_undef hs mp1 first v q CK_HS_TOMBSTONE) as (C2 & Hl2 & Hd2);
      [done|done|by eapply Htg; eauto|by rewrite He|done|done|].
    eexists. split; [done|]. set (mp2 := store mp1 first v) in *.
    rewrite (dead_count_dead kind CK_HS_TOMBSTONE) // He in Hd2. rewrite He in Hl2.
    split_and!; [split|exact Hl2|exact Hc|exact Hs].
    + by apply core_set_n_entries, core_set_tombstones.
    + change (u64 (n_entries mp1 + 1) = Z.of_nat (length (contents mp2))).
      rewrite Hl2 Hn (wf_n_entries _ _ _ W) /=. pose proof (length_live_range hs mp W).
      pose proof (capacity_range _ _ _ (wf_core _ _ _ W)). unfold u64. rewrite Z.mod_small; lia.
    + change (u32 (tombstones mp1 - 1) = u32 (Z.of_nat (length (dead kind (entries mp2))))).
      rewrite Ht (wf_tombstones _ _ _ W) u32_sub_l. f_equal. lia.
  - destruct Hsome as [[slot Hslot]|[]]; [|done]. rewrite Hslot /=.
    destruct (po_slot _ _ _ _ _ _ _ _ P H0 slot Hslot) as (p & Hat & Hempty & Hnp).
    destruct (insert_ok shr_undef hs mp1 slot v p CK_HS_EMPTY) as (C2 & Hl2 & Hd2);
      [done|done|by eapply Htg; eauto|by rewrite He|done|done|].
    eexists. split; [done|]. set (mp2 := store mp1 slot v) in *.
    rewrite (dead_count_other kind CK_HS_EMPTY) // He in Hd2. rewrite He in Hl2.
    split_and!; [split|exact Hl2|exact Hc|exact Hs].
    + by apply core_set_n_entries.
    + change (u64 (n_entries mp1 + 1) = Z.of_nat (length (contents mp2))).
      rewrite Hl2 Hn (wf_n_entries _ _ _ W) /=. pose proof (length_live_range hs mp W).
      pose proof (capacity_range _ _ _ (wf_core _ _ _ W)). unfold u64. rewrite Z.mod_small; lia.
    + change (tombstones mp1 = u32 (Z.of_nat (length (dead kind (entries mp2))))).
      rewrite Ht (wf_tombstones _ _ _ W). f_equal. lia.
Qed.

(** A value equal to the one found: in its slot, or moved to the tombstone. *)
Lemma replace_probed hs mp mp1 v r opl behavior :
  wf hs mp -> keys_ok hs -> kind v = Live ->
  probe_ok hs mp (vhash hs v) (vkey hs v) opl behavior r ->
  admits hs mp mp1 opl v r -> r_object r <> CK_HS_EMPTY ->
  ∃ slot mp2, r_slot r = Some slot /\
    mp2 = match r_priority r with
          | Some first => relocate mp1 (vhash hs v) first v slot
          | None => store mp1 slot v
          end /\
    wf hs mp2 /\ r_object r :: contents mp2 ≡ₚ v :: contents mp /\
    r_object r ∈ contents mp /\ same hs (r_object r) v /\
    capacity mp2 = capacity mp /\ size mp2 = size mp.
Proof.
  intros W K Hv P (He & C1 & Hn & Ht & Hc & Hs & Htg) H0.
  destruct (po_found _ _ _ _ _ _ _ _ P H0) as (slot & p & Hslot & Hat & Hobj & Hk & Hm & Hnp).
  exists slot. eexists. split; [done|]. split; [done|].
  assert (∀ mp2, core hs mp2 -> r_object r :: contents mp2 ≡ₚ v :: contents mp ->
    length (dead kind (entries mp2)) = length (dead kind (entries mp)) ->
    n_entries mp2 = n_entries mp -> tombstones mp2 = tombstones mp -> wf hs mp2) as Hwf.
  { intros mp2 C2 Hl Hd Hn2 Ht2. split; [done|..].
    - rewrite Hn2 (wf_n_entries _ _ _ W). apply Permutation_length in Hl. simpl in Hl. lia.
    - by rewrite Ht2 (wf_tombstones _ _ _ W) Hd. }
  assert (r_object r ∈ contents mp) as Hin by (apply elem_of_live; eauto).
  destruct (r_priority r) as [first|] eqn:Hpr.
  - destruct (po_priority _ _ _ _ _ _ _ _ P first Hpr) as (q & Hatq & Htomb & Hnq).
    destruct (relocate_ok shr_undef hs mp1 (vhash hs v) first slot v q (r_object r))
      as (C2 & Hl2 & Hd2); [done..|by eapply Htg; eauto|by rewrite He|by rewrite He|done|done|].
    rewrite He in Hl2, Hd2. split_and!; [by apply Hwf|done..].
  - destruct (replace_ok shr_undef hs mp1 slot v p (r_object r)) as (C2 & Hl2 & Hd2);
      [done..|by eapply Htg; eauto|by rewrite He|done|done|].
    rewrite He in Hl2, Hd2. split_and!; [by apply Hwf|done..].
Qed.

Lemma postinsert_ok hs :
  keys_ok hs -> wf hs (set_n_entries (map hs) (u64 (n_entries (map hs) + 1))) ->
  outstanding (m hs) = size (map hs) -> 8 * capacity (map hs) <= size (map hs) ->
  (∃ h, malloc_ok h (size (map hs)) = true) ->
  ∃ hs', ck_hs_map_postinsert malloc_ok shr_undef hs = Some hs' /\
         post hs hs' (contents (map hs)).
Proof.
  intros K W H1 H2 H3. unfold ck_hs_map_postinsert.
  set (hs1 := set_map hs _). assert (hs_wf hs1) as W1.
  { split; [|done..]. by eapply wf_config; [|exact W]. }
  destruct (_ <? _).
  - destruct (ck_hs_grow_ok hs1 (u64 (Z.shiftl (capacity (map hs1)) 1)) W1) as (b & hs' & Hg & Hp & _).
    { by eapply same_config_keys; [|exact K]. }
    { apply u64_range. }
    exists hs'. change (capacity (map hs1)) with (capacity (map hs)) in Hg.
    cbn [capacity set_n_entries]. rewrite Hg /=. split; [done|].
    destruct Hp as (W2 & S2 & P2). by split_and!.
  - exists hs1. split; [done|]. by split_and!.
Qed.
End proofs.
