(* ===== verification/HsSpec.v ===== *)
(** The hash set: the specification of each operation as a relation on its
    contents, and the refinement theorem. *)

From S2P Require Export HsProofs.
Set Warnings "-rewrite-rw,-clear-no-such-hyp".

Section spec.
Context (malloc_ok : heap -> Z -> bool) (shr_undef : Z -> Z -> Z).
Implicit Types (hs : ck_hs) (mp : ck_hs_map).

Abbreviation wf := (map_wf shr_undef).
Abbreviation hs_wf := (hs_wf malloc_ok shr_undef).
Abbreviation post := (post malloc_ok shr_undef).
Abbreviation limited := (malloc_limited malloc_ok).

(** Some member, or no member, of a list of values has the given key. *)
Definition member hs (l : list Z) (key w : Z) : Prop := w ∈ l /\ matches hs key w.
Definition missing hs (l : list Z) (key : Z) : Prop := ∀ w, w ∈ l -> ¬ matches hs key w.

Lemma absent_missing hs mp key :
  absent kind (entries mp) (matches hs key) <-> missing hs (contents mp) key.
Proof. apply absent_live. Qed.

Lemma missing_perm hs l l' key : l ≡ₚ l' -> missing hs l key <-> missing hs l' key.
Proof. intros H. split; intros M w Hw; apply M; by rewrite ?H // -H. Qed.

Lemma missing_config hs hs' l key : same_config hs hs' -> missing hs' l key <-> missing hs l key.
Proof.
  intros S. split; intros M w Hw Hm; apply (M w Hw).
  - by apply (same_config_matches hs hs').
  - by apply (same_config_matches hs hs') in Hm.
Qed.

Lemma member_config hs hs' l l' key w :
  same_config hs hs' -> l' ≡ₚ l -> member hs' l' key w <-> member hs l key w.
Proof. intros S H. unfold member. by rewrite H (same_config_matches hs hs'). Qed.

(** * Lookup *)

Lemma ck_hs_get_ok hs key :
  hs_wf hs -> keys_ok hs ->
  ∃ v, ck_hs_get shr_undef hs (hf hs key (seed hs)) key = Some v /\
    (member hs (contents (map hs)) key v /\ v <> CK_HS_EMPTY \/
     v = CK_HS_EMPTY /\ missing hs (contents (map hs)) key).
Proof.
  intros W K. unfold ck_hs_get. set (h := hf hs key (seed hs)).
  destruct (ck_hs_map_probe_ok shr_undef hs (map hs) h key (ck_hs_map_bound_get (map hs) h)
    CK_HS_PROBE) as (r & Hr & P); [apply W|done..|].
  rewrite Hr /=. exists (r_object r). split; [done|].
  destruct (decide (r_object r = CK_HS_EMPTY)) as [H0|H0].
  - right. split; [done|]. apply absent_missing. by eapply po_absent.
  - left. destruct (po_found _ _ _ _ _ _ _ _ P H0) as (s & p & _ & _ & He & Hk & Hm & _).
    split; [split; [apply elem_of_live; eauto|done]|done].
Qed.

(** * Insertion *)

Lemma hs_wf_set_map hs mp :
  hs_wf hs -> wf hs mp -> size mp = size (map hs) -> capacity mp = capacity (map hs) ->
  hs_wf (set_map hs mp).
Proof.
  intros W Wm Hs Hc. split; cbn; [by eapply wf_config; [|exact Wm]|rewrite Hs; apply W| |].
  - rewrite Hs Hc. apply W.
  - rewrite Hs. apply W.
Qed.

Lemma insert_post hs mp2 v :
  hs_wf hs -> keys_ok hs -> wf hs (set_n_entries mp2 (u64 (n_entries mp2 + 1))) ->
  contents mp2 ≡ₚ v :: contents (map hs) -> capacity mp2 = capacity (map hs) ->
  size mp2 = size (map hs) ->
  ∃ hs', ck_hs_map_postinsert malloc_ok shr_undef (set_map hs mp2) = Some hs' /\
         post hs hs' (v :: contents (map hs)).
Proof.
  intros W K W2 Hl Hc Hs.
  destruct (postinsert_ok malloc_ok shr_undef (set_map hs mp2)) as (hs' & Hp & (W' & S' & L')).
  - by eapply same_config_keys; [|exact K].
  - by eapply wf_config; [|exact W2].
  - cbn. rewrite Hs. apply W.
  - cbn. rewrite Hs Hc. apply W.
  - cbn. rewrite Hs. apply W.
  - exists hs'. split; [done|]. split_and!; [done|done|]. by rewrite L' Hl.
Qed.

(** The loops restart only after the capacity has at least doubled. *)
Lemma restart_measure hs hs' k (fuel : nat) :
  hs_wf hs' -> limited -> capacity (map hs) = 2 ^ k -> 3 <= k ->
  2 * capacity (map hs) <= capacity (map hs') -> 31 <= Z.of_nat (S fuel) + k ->
  ∃ k', 3 <= k' /\ capacity (map hs') = 2 ^ k' /\ 31 <= Z.of_nat fuel + k'.
Proof.
  intros W' Hlim Hc Hk Hd Hf. destruct (capacity_limited _ _ _ W' Hlim) as (k' & Hk' & Hc').
  exists k'. split_and!; [lia|done|]. rewrite Hc Hc' in Hd.
  assert (k < k'); [|lia]. apply (Z.pow_lt_mono_r_iff 2); [lia|lia|].
  pose proof (Z.pow_pos_nonneg 2 k). lia.
Qed.

Definition put_spec hs (l : list Z) (v : Z) (b : bool) (hs' : ck_hs) : Prop :=
  if b then missing hs l (vkey hs v) /\ post hs hs' (v :: l)
  else post hs hs' l /\ ((∃ w, member hs l (vkey hs v) w) \/ alloc_failed (m hs')).

Lemma put_loop_ok fuel hs v behavior k :
  hs_wf hs -> keys_ok hs -> limited -> kind v = Live ->
  behavior = CK_HS_PROBE_INSERT \/
  behavior = CK_HS_PROBE_TOMBSTONE /\ missing hs (contents (map hs)) (vkey hs v) ->
  capacity (map hs) = 2 ^ k -> 3 <= k -> 31 <= Z.of_nat fuel + k ->
  ∃ b hs', put_internal_loop malloc_ok shr_undef fuel hs (vhash hs v) v behavior = Some (b, hs') /\
           put_spec hs (contents (map hs)) v b hs'.
Proof.
  revert hs k. induction fuel as [|fuel IH]; intros hs k W K Hlim Hv Hbh Hc Hk Hf.
  { destruct (capacity_limited _ _ _ W Hlim) as (k' & Hk' & Hc'). rewrite Hc in Hc'.
    apply Z.pow_inj_r in Hc'; lia. }
  cbn [put_internal_loop].
  destruct (ck_hs_map_probe_ok shr_undef hs (map hs) (vhash hs v) (vkey hs v)
    (probe_limit (map hs)) behavior) as (r & Hr & P); [apply W|done|done|destruct behavior; naive_solver|].
  rewrite Hr /=. destruct (decide (is_Some (r_slot r) \/ is_Some (r_priority r))) as [Hsome|Hnone];
    last first.
  { destruct (r_slot r); [naive_solver|]. destruct (r_priority r); [naive_solver|].
    destruct (grow_double _ shr_undef hs W K Hlim) as (b & hs1 & Hg & (W1 & S1 & L1) & Hb).
    rewrite Hg /=. destruct b; simpl; last first.
    { exists false, hs1. split; [done|]. split; [by split_and!|]. by right. }
    destruct (restart_measure hs hs1 k fuel) as (k' & Hk' & Hc' & Hf'); [done..|].
    destruct (IH hs1 k') as (b & hs2 & Hp & Hs); [done|by eapply same_config_keys|done|done| |done..|].
    { destruct Hbh as [|[-> Hm]]; [by left|right]. split; [done|].
      rewrite (same_config_vkey hs hs1) // (missing_config hs hs1) //.
      by apply (missing_perm hs _ _ (vkey hs v) L1). }
    rewrite (same_config_vhash hs hs1) // in Hp. exists b, hs2. split; [done|].
    unfold put_spec in *. rewrite (same_config_vkey hs hs1) // in Hs. destruct b.
    - destruct Hs as [Hm (W2 & S2 & L2)]. split.
      + rewrite (missing_config hs hs1) // in Hm. by apply (missing_perm hs _ _ (vkey hs v) L1).
      + split_and!; [done|by eapply same_config_trans|]. by rewrite L2 L1.
    - destruct Hs as [(W2 & S2 & L2) Ho]. split.
      + split_and!; [done|by eapply same_config_trans|]. by rewrite L2 L1.
      + destruct Ho as [[w Hw]|?]; [left|by right]. exists w.
        by apply (member_config hs hs1 _ _ (vkey hs v) w S1 L1). }
  assert (∀ A (x y : A), match r_slot r, r_priority r with None, None => x | _, _ => y end = y) as Hmatch.
  { intros A x y. destruct (r_slot r), (r_priority r); naive_solver. }
  rewrite Hmatch. clear Hmatch.
  destruct (Z.eqb_spec (r_object r) CK_HS_EMPTY) as [H0|H0]; simpl; last first.
  { exists false, hs. split; [done|]. split; [by apply post_refl|]. left.
    destruct (po_found _ _ _ _ _ _ _ _ P H0) as (s & p & _ & _ & He & Hkk & Hm & _).
    exists (r_object r). split; [apply elem_of_live; eauto|done]. }
  assert (missing hs (contents (map hs)) (vkey hs v)) as Hmiss.
  { destruct Hbh as [->|[_ ?]]; [|done]. apply absent_missing. by eapply po_absent. }
  destruct (insert_probed shr_undef hs (map hs) (ck_hs_map_bound_set (map hs) (vhash hs v) (r_n_probes r))
    v r (probe_limit (map hs)) behavior) as (mp2 & Hst & W2 & L2 & Hc2 & Hs2);
    [apply W|done|done|done|by eapply admits_bound_set; [apply W|..]|done|by apply absent_missing|done|].
  unfold ck_hs_marshal. rewrite Hst /=.
  destruct (insert_post hs mp2 v) as (hs' & Hp & Hpost); [done..|].
  rewrite Hp /=. exists true, hs'. by split_and!.
Qed.

Lemma ck_hs_put_internal_ok hs v behavior :
  hs_wf hs -> keys_ok hs -> limited -> kind v = Live ->
  behavior = CK_HS_PROBE_INSERT \/
  behavior = CK_HS_PROBE_TOMBSTONE /\ missing hs (contents (map hs)) (vkey hs v) ->
  ∃ b hs', ck_hs_put_internal malloc_ok shr_undef hs (vhash hs v) v behavior = Some (b, hs') /\
           put_spec hs (contents (map hs)) v b hs'.
Proof.
  intros W K Hlim Hv Hb. destruct (capacity_limited _ _ _ W Hlim) as (k & Hk & Hc).
  eapply put_loop_ok; [done..|lia|]. unfold restarts. lia.
Qed.

(** ** Replacement *)

(** The object found is exchanged for an equal one. *)
Definition exchanged hs (l : list Z) (v old : Z) (hs' : ck_hs) : Prop :=
  member hs l (vkey hs v) old /\ old <> CK_HS_EMPTY /\
  ∃ l', post hs hs' l' /\ old :: l' ≡ₚ v :: l.

Definition set_spec hs (l : list Z) (v : Z) (b : bool) (old : Z) (hs' : ck_hs) : Prop :=
  if b then
    old = CK_HS_EMPTY /\ missing hs l (vkey hs v) /\ post hs hs' (v :: l) \/
    exchanged hs l v old hs'
  else old = CK_HS_EMPTY /\ post hs hs' l /\ alloc_failed (m hs').

Lemma set_store_ok hs v r :
  hs_wf hs -> keys_ok hs -> kind v = Live ->
  probe_ok shr_undef hs (map hs) (vhash hs v) (vkey hs v) (probe_limit (map hs)) CK_HS_PROBE_INSERT r ->
  (is_Some (r_slot r) \/ is_Some (r_priority r)) ->
  ∃ hs', set_store malloc_ok shr_undef hs (map hs) (vhash hs v) v r = Some hs' /\
         set_spec hs (contents (map hs)) v true (r_object r) hs'.
Proof.
  intros W K Hv P Hsome. unfold set_store.
  assert (admits shr_undef hs (map hs) (ck_hs_map_bound_set (map hs) (vhash hs v) (r_n_probes r))
    (probe_limit (map hs)) v r) as Hadm by (by eapply admits_bound_set; [apply W|..]).
  destruct (Z.eqb_spec (r_object r) CK_HS_EMPTY) as [H0|H0].
  - assert (absent kind (entries (map hs)) (matches hs (vkey hs v))) as Ha by (by eapply po_absent).
    destruct (insert_probed shr_undef hs (map hs)
      (ck_hs_map_bound_set (map hs) (vhash hs v) (r_n_probes r)) v r (probe_limit (map hs))
      CK_HS_PROBE_INSERT) as (mp2 & Hst & W2 & L2 & Hc2 & Hs2); [apply W|done..|].
    rewrite Hst /=. destruct (insert_post hs mp2 v) as (hs' & Hp & Hpost); [done..|].
    exists hs'. split; [done|]. left. by rewrite absent_missing in Ha.
  - destruct (replace_probed shr_undef hs (map hs)
      (ck_hs_map_bound_set (map hs) (vhash hs v) (r_n_probes r)) v r (probe_limit (map hs))
      CK_HS_PROBE_INSERT) as (slot & mp2 & Hslot & Hmp & W2 & L2 & Hin & Hsame & Hc2 & Hs2);
      [apply W|done..|].
    exists (set_map hs mp2). split.
    { rewrite Hslot Hmp. by destruct (r_priority r). }
    right. split; [by split|]. split; [done|]. exists (contents mp2). split; [|done].
    split_and!; [by apply hs_wf_set_map|done|done].
Qed.

Lemma set_loop_ok fuel hs v k :
  hs_wf hs -> keys_ok hs -> limited -> kind v = Live ->
  capacity (map hs) = 2 ^ k -> 3 <= k -> 31 <= Z.of_nat fuel + k ->
  ∃ b old hs', set_loop malloc_ok shr_undef fuel hs (vhash hs v) v = Some (b, old, hs') /\
               set_spec hs (contents (map hs)) v b old hs'.
Proof.
  revert hs k. induction fuel as [|fuel IH]; intros hs k W K Hlim Hv Hc Hk Hf.
  { destruct (capacity_limited _ _ _ W Hlim) as (k' & Hk' & Hc'). rewrite Hc in Hc'.
    apply Z.pow_inj_r in Hc'; lia. }
  cbn [set_loop].
  destruct (ck_hs_map_probe_ok shr_undef hs (map hs) (vhash hs v) (vkey hs v)
    (probe_limit (map hs)) CK_HS_PROBE_INSERT) as (r & Hr & P); [apply W|done..|].
  rewrite Hr /=. destruct (decide (is_Some (r_slot r) \/ is_Some (r_priority r))) as [Hsome|Hnone];
    last first.
  { destruct (r_slot r); [naive_solver|]. destruct (r_priority r); [naive_solver|].
    destruct (grow_double _ shr_undef hs W K Hlim) as (b & hs1 & Hg & (W1 & S1 & L1) & Hb).
    rewrite Hg /=. destruct b; simpl; last first.
    { eexists false, _, hs1. split; [done|]. split; [done|]. split; [by split_and!|done]. }
    destruct (restart_measure hs hs1 k fuel) as (k' & Hk' & Hc' & Hf'); [done..|].
    destruct (IH hs1 k') as (b & old & hs2 & Hp & Hs); [done|by eapply same_config_keys|done..|].
    rewrite (same_config_vhash hs hs1) // in Hp. exists b, old, hs2. split; [done|].
    unfold set_spec, exchanged in *. rewrite (same_config_vkey hs hs1) // in Hs.
    assert (∀ l1 l2, post hs1 hs2 l1 -> l1 ≡ₚ l2 -> post hs hs2 l2) as Hpost.
    { intros l1 l2 (W2 & S2 & L2) Hl. split_and!; [done|by eapply same_config_trans|by rewrite L2]. }
    destruct b.
    - destruct Hs as [(-> & Hm & Hp2)|(Hm & Hne & l' & Hp2 & Hl')].
      + left. split_and!; [done| |eapply Hpost; [done|by rewrite L1]].
        rewrite (missing_config hs hs1) // in Hm. by apply (missing_perm hs _ _ (vkey hs v) L1).
      + right. split; [by apply (member_config hs hs1 _ _ (vkey hs v) old S1 L1)|split; [done|]].
        exists l'. split; [by eapply Hpost|]. by rewrite Hl' L1.
    - destruct Hs as (-> & Hp2 & Hf2). split_and!; [done|by eapply Hpost|done]. }
  assert (∀ A (x y : A), match r_slot r, r_priority r with None, None => x | _, _ => y end = y) as Hmatch.
  { intros A x y. destruct (r_slot r), (r_priority r); naive_solver. }
  rewrite Hmatch. clear Hmatch. unfold ck_hs_marshal.
  destruct (set_store_ok hs v r W K Hv P Hsome) as (hs' & Hst & Hspec).
  rewrite Hst /=. eauto.
Qed.

Lemma ck_hs_set_ok hs v :
  hs_wf hs -> keys_ok hs -> limited -> kind v = Live ->
  ∃ b old hs', ck_hs_set malloc_ok shr_undef hs (vhash hs v) v = Some (b, old, hs') /\
               set_spec hs (contents (map hs)) v b old hs'.
Proof.
  intros W K Hlim Hv. destruct (capacity_limited _ _ _ W Hlim) as (k & Hk & Hc).
  eapply set_loop_ok; [done..|lia|]. unfold restarts. lia.
Qed.

Definition fas_spec hs (l : list Z) (v : Z) (b : bool) (old : Z) (hs' : ck_hs) : Prop :=
  if b then exchanged hs l v old hs'
  else old = CK_HS_EMPTY /\ missing hs l (vkey hs v) /\ hs' = hs.

Lemma ck_hs_fas_ok hs v :
  hs_wf hs -> keys_ok hs -> kind v = Live ->
  ∃ b old hs', ck_hs_fas shr_undef hs (vhash hs v) v = Some (b, old, hs') /\
               fas_spec hs (contents (map hs)) v b old hs'.
Proof.
  intros W K Hv. unfold ck_hs_fas. change (ck_hs_apply_key_offset hs v) with (vkey hs v).
  pose proof (bound_get_range shr_undef hs (map hs) (vhash hs v) (wf_map _ _ _ W)) as Hb.
  destruct (ck_hs_map_probe_ok shr_undef hs (map hs) (vhash hs v) (vkey hs v)
    (ck_hs_map_bound_get (map hs) (vhash hs v)) CK_HS_PROBE) as (r & Hr & P); [apply W|done..|].
  rewrite Hr /=. destruct (Z.eqb_spec (r_object r) CK_HS_EMPTY) as [H0|H0].
  - eexists false, _, hs. split; [done|]. split_and!; [done| |done].
    apply absent_missing. by eapply po_absent.
  - destruct (replace_probed shr_undef hs (map hs) (map hs) v r
      (ck_hs_map_bound_get (map hs) (vhash hs v)) CK_HS_PROBE)
      as (slot & mp2 & Hslot & Hmp & W2 & L2 & Hin & Hsame & Hc2 & Hs2);
      [apply W|done..| |done|].
    { split_and!; [done|apply W|done..|]. intros s q Hat _. by apply target_bound_get; [apply W|]. }
    exists true, (r_object r), (set_map hs mp2). split.
    { rewrite Hslot Hmp. by destruct (r_priority r). }
    split; [by split|]. split; [done|]. exists (contents mp2). split; [|done].
    split_and!; [by apply hs_wf_set_map|done|done].
Qed.
End spec.

(** The hash set: deletion, the apply callback, garbage collection, iteration and
    initialisation; the refinement of an abstract set by sequences of
    operations. *)

Section refine.
Context (malloc_ok : heap -> Z -> bool) (shr_undef : Z -> Z -> Z).
Implicit Types (hs : ck_hs) (mp : ck_hs_map).

Abbreviation core := (map_core shr_undef).
Abbreviation wf := (map_wf shr_undef).
Abbreviation hs_wf := (hs_wf malloc_ok shr_undef).
Abbreviation post := (post malloc_ok shr_undef).
Abbreviation limited := (malloc_limited malloc_ok).
Abbreviation mpos := (mpos shr_undef).

(** * Deletion *)

Definition forget mp (slot : Z) : ck_hs_map :=
  let mp := store mp slot CK_HS_TOMBSTONE in
  let mp := set_n_entries mp (u64 (n_entries mp - 1)) in
  set_tombstones mp (u32 (tombstones mp + 1)).

Lemma forget_ok hs slot old :
  hs_wf hs -> entries (map hs) !! Z.to_nat slot = Some old -> kind old = Live ->
  ∃ l', post hs (set_map hs (forget (map hs) slot)) l' /\ old :: l' ≡ₚ contents (map hs).
Proof.
  intros W Ho Hk. pose proof (wf_map _ _ _ W) as Wm.
  destruct (kill_ok shr_undef hs (map hs) slot old Wm Ho Hk) as (C & Hl & Hd).
  exists (contents (store (map hs) slot CK_HS_TOMBSTONE)). split; [|done].
  split_and!; [|done|done]. apply hs_wf_set_map; [done| |done|done].
  split; [by apply core_set_tombstones, core_set_n_entries|..].
  - change (u64 (n_entries (map hs) - 1) =
            Z.of_nat (length (contents (store (map hs) slot CK_HS_TOMBSTONE)))).
    rewrite (wf_n_entries _ _ _ Wm) -Hl /=. pose proof (length_live_range shr_undef hs (map hs) Wm).
    pose proof (capacity_range _ _ _ (wf_core _ _ _ Wm)). rewrite -Hl /= in H.
    unfold u64. rewrite Z.mod_small; lia.
  - change (u32 (tombstones (map hs) + 1) =
            u32 (Z.of_nat (length (dead kind (entries (store (map hs) slot CK_HS_TOMBSTONE)))))).
    rewrite Hd (wf_tombstones _ _ _ Wm) u32_add_l. f_equal. lia.
Qed.

Definition remove_spec hs (l : list Z) (key old : Z) (hs' : ck_hs) : Prop :=
  old = CK_HS_EMPTY /\ missing hs l key /\ hs' = hs \/
  member hs l key old /\ old <> CK_HS_EMPTY /\ ∃ l', post hs hs' l' /\ old :: l' ≡ₚ l.

Lemma ck_hs_remove_ok hs key :
  hs_wf hs -> keys_ok hs ->
  ∃ old hs', ck_hs_remove shr_undef hs (hf hs key (seed hs)) key = Some (old, hs') /\
             remove_spec hs (contents (map hs)) key old hs'.
Proof.
  intros W K. unfold ck_hs_remove. set (h := hf hs key (seed hs)).
  destruct (ck_hs_map_probe_ok shr_undef hs (map hs) h key (ck_hs_map_bound_get (map hs) h)
    CK_HS_PROBE) as (r & Hr & P); [apply W|done..|].
  rewrite Hr /=. destruct (Z.eqb_spec (r_object r) CK_HS_EMPTY) as [H0|H0].
  - eexists _, hs. split; [done|]. left. split_and!; [done| |done].
    apply absent_missing. by eapply po_absent.
  - destruct (po_found _ _ _ _ _ _ _ _ P H0) as (slot & p & -> & _ & He & Hk & Hm & _). simpl.
    destruct (forget_ok hs slot (r_object r) W He Hk) as (l' & Hpost & Hl).
    eexists _, _. split; [done|]. right. split; [|split; [done|by exists l']].
    split; [apply elem_of_live; eauto|done].
Qed.

(** * Apply *)

(** What the documentation asks of the callback: a value it wants stored has the
    key it was called for. *)
Definition fn_ok hs key (fn : Z -> Z) : Prop :=
  ∀ o, fn o <> CK_HS_EMPTY -> fn o <> o -> kind (fn o) = Live /\ keq hs (vkey hs (fn o)) key = true.

Definition apply_spec hs (l : list Z) key (fn : Z -> Z) (b : bool) (hs' : ck_hs) : Prop :=
  if b then ∃ o,
    (o = CK_HS_EMPTY /\ missing hs l key \/ member hs l key o /\ o <> CK_HS_EMPTY) /\
    if fn o =? o then post hs hs' l
    else if fn o =? CK_HS_EMPTY then ∃ l', post hs hs' l' /\ o :: l' ≡ₚ l
    else if o =? CK_HS_EMPTY then post hs hs' (fn o :: l)
    else ∃ l', post hs hs' l' /\ o :: l' ≡ₚ fn o :: l
  else post hs hs' l /\ alloc_failed (m hs').

Lemma matches_key hs k1 k2 v :
  keys_ok hs -> keq hs k1 k2 = true -> matches hs k1 v <-> matches hs k2 v.
Proof.
  intros K H. unfold matches. split; intros H'.
  - by eapply keq_trans.
  - eapply keq_trans; [done..|]. by apply keq_sym.
Qed.

Lemma probe_ok_key hs mp h k1 k2 opl behavior r :
  keys_ok hs -> keq hs k1 k2 = true ->
  probe_ok shr_undef hs mp h k1 opl behavior r -> probe_ok shr_undef hs mp h k2 opl behavior r.
Proof.
  intros K H P. split.
  - intros H0. destruct (po_found _ _ _ _ _ _ _ _ P H0) as (s & p & H1 & H2 & H3 & H4 & H5 & H6).
    exists s, p. split_and!; [done..|by apply (matches_key hs k1 k2)|done].
  - apply P.
  - apply P.
  - intros H0 Hb s e Hs Hk Hm. eapply (po_absent _ _ _ _ _ _ _ _ P H0 Hb s e Hs Hk).
    by apply (matches_key hs k1 k2).
Qed.

Lemma apply_found_ok hs key fn r :
  hs_wf hs -> keys_ok hs -> fn_ok hs key fn ->
  probe_ok shr_undef hs (map hs) (hf hs key (seed hs)) key (probe_limit (map hs))
    CK_HS_PROBE_INSERT r ->
  (is_Some (r_slot r) \/ is_Some (r_priority r)) ->
  ∃ b hs', apply_found malloc_ok shr_undef hs (hf hs key (seed hs)) fn r = Some (b, hs') /\
           apply_spec hs (contents (map hs)) key fn b hs'.
Proof.
  intros W K Hfn P Hsome. unfold apply_found.
  assert (r_object r = CK_HS_EMPTY /\ missing hs (contents (map hs)) key \/
          member hs (contents (map hs)) key (r_object r) /\ r_object r <> CK_HS_EMPTY) as Ho.
  { destruct (decide (r_object r = CK_HS_EMPTY)) as [H0|H0]; [left|right].
    - split; [done|]. apply absent_missing. by eapply po_absent.
    - destruct (po_found _ _ _ _ _ _ _ _ P H0) as (s & p & _ & _ & He & Hkk & Hm & _).
      split; [split; [apply elem_of_live; eauto|done]|done]. }
  destruct (Z.eqb_spec (fn (r_object r)) CK_HS_EMPTY) as [Hdel|Hdel].
  { destruct (Z.eqb_spec (r_object r) CK_HS_EMPTY) as [H0|H0].
    - exists true, hs. split; [done|]. exists (r_object r). split; [done|].
      rewrite Hdel {1}H0 Z.eqb_refl. by apply post_refl.
    - destruct (po_found _ _ _ _ _ _ _ _ P H0) as (s & p & -> & _ & He & Hkk & Hm & _). simpl.
      destruct (forget_ok hs s (r_object r) W He Hkk) as (l' & Hpost & Hl).
      eexists true, _. split; [done|]. exists (r_object r). split; [done|].
      rewrite Hdel (proj2 (Z.eqb_neq CK_HS_EMPTY _)); [done|]. by exists l'. }
  destruct (Z.eqb_spec (fn (r_object r)) (r_object r)) as [Heq|Hne].
  { exists true, hs. split; [done|]. exists (r_object r). split; [done|].
    rewrite (proj2 (Z.eqb_eq _ _) Heq). by apply post_refl. }
  destruct (Hfn (r_object r) Hdel Hne) as [Hv Hkey].
  assert (vhash hs (fn (r_object r)) = hf hs key (seed hs)) as Hh by (by apply keq_hash).
  destruct (set_store_ok malloc_ok shr_undef hs (fn (r_object r)) r W K Hv)
    as (hs' & Hst & Hspec); [|done|].
  { rewrite Hh. eapply probe_ok_key; [done| |exact P]. by apply keq_sym. }
  rewrite Hh in Hst. unfold ck_hs_marshal. rewrite Hst /=. exists true, hs'. split; [done|].
  exists (r_object r). split; [done|].
  rewrite (proj2 (Z.eqb_neq _ _) Hne) (proj2 (Z.eqb_neq _ _) Hdel).
  destruct Hspec as [(H0 & _ & Hpost)|(_ & H0 & Hex)].
  - by rewrite (proj2 (Z.eqb_eq _ _) H0).
  - by rewrite (proj2 (Z.eqb_neq _ _) H0).
Qed.

(** A specification met after a growth is met. *)
Lemma apply_spec_regrown hs hs1 key fn b hs2 :
  same_config hs hs1 -> contents (map hs1) ≡ₚ contents (map hs) ->
  apply_spec hs1 (contents (map hs1)) key fn b hs2 ->
  apply_spec hs (contents (map hs)) key fn b hs2.
Proof.
  intros S1 L1 Hs.
  assert (∀ l1 l2, post hs1 hs2 l1 -> l1 ≡ₚ l2 -> post hs hs2 l2) as Hpost.
  { intros l1 l2 (W2 & S2 & L2) Hl. split_and!; [done|by eapply same_config_trans|by rewrite L2]. }
  destruct b; [|destruct Hs; split; [by eapply Hpost|done]].
  destruct Hs as (o & Ho & Hs). exists o. split.
  { destruct Ho as [[-> Hm]|[Hm Hne]]; [left|right].
    - split; [done|]. rewrite (missing_config hs hs1) // in Hm.
      by apply (missing_perm hs _ _ key L1).
    - split; [|done]. by apply (member_config hs hs1 _ _ key o S1 L1). }
  destruct (fn o =? o); [by eapply Hpost|].
  destruct (fn o =? CK_HS_EMPTY); [|destruct (o =? CK_HS_EMPTY)].
  - destruct Hs as (l' & Hp' & Hl'). exists l'. split; [by eapply Hpost|]. by rewrite Hl' L1.
  - eapply Hpost; [done|]. by rewrite L1.
  - destruct Hs as (l' & Hp' & Hl'). exists l'. split; [by eapply Hpost|]. by rewrite Hl' L1.
Qed.

Lemma apply_loop_ok fuel hs key fn k :
  hs_wf hs -> keys_ok hs -> limited -> fn_ok hs key fn ->
  capacity (map hs) = 2 ^ k -> 3 <= k -> 31 <= Z.of_nat fuel + k ->
  ∃ b hs', apply_loop malloc_ok shr_undef fuel hs (hf hs key (seed hs)) key fn = Some (b, hs') /\
           apply_spec hs (contents (map hs)) key fn b hs'.
Proof.
  revert hs k. induction fuel as [|fuel IH]; intros hs k W K Hlim Hfn Hc Hk Hf.
  { destruct (capacity_limited _ _ _ W Hlim) as (k' & Hk' & Hc'). rewrite Hc in Hc'.
    apply Z.pow_inj_r in Hc'; lia. }
  cbn [apply_loop].
  destruct (ck_hs_map_probe_ok shr_undef hs (map hs) (hf hs key (seed hs)) key
    (probe_limit (map hs)) CK_HS_PROBE_INSERT) as (r & Hr & P); [apply W|done..|].
  rewrite Hr /=. destruct (decide (is_Some (r_slot r) \/ is_Some (r_priority r))) as [Hsome|Hnone].
  { assert (∀ A (x y : A), match r_slot r, r_priority r with None, None => x | _, _ => y end = y) as ->.
    { intros A x y. destruct (r_slot r), (r_priority r); naive_solver. }
    by apply apply_found_ok. }
  destruct (r_slot r); [naive_solver|]. destruct (r_priority r); [naive_solver|].
  destruct (grow_double _ shr_undef hs W K Hlim) as (b & hs1 & Hg & (W1 & S1 & L1) & Hb).
  rewrite Hg /=. destruct b; simpl; last first.
  { eexists false, hs1. split; [done|]. split; [by split_and!|done]. }
  destruct (restart_measure malloc_ok shr_undef hs hs1 k fuel) as (k' & Hk' & Hc' & Hf'); [done..|].
  destruct (IH hs1 k') as (b & hs2 & Hp & Hs); [done|by eapply same_config_keys|done| |done..|].
  { intros o H1 H2. destruct (Hfn o H1 H2) as [H3 H4]. split; [done|].
    rewrite (same_config_vkey hs hs1) //. unfold keq. destruct S1 as (_ & _ & _ & ->). done. }
  assert (hf hs1 key (seed hs1) = hf hs key (seed hs)) as Hh.
  { destruct S1 as (_ & -> & -> & _). done. }
  rewrite Hh in Hp. exists b, hs2. split; [done|]. by eapply apply_spec_regrown.
Qed.

Lemma ck_hs_apply_ok hs key fn :
  hs_wf hs -> keys_ok hs -> limited -> fn_ok hs key fn ->
  ∃ b hs', ck_hs_apply malloc_ok shr_undef hs (hf hs key (seed hs)) key fn = Some (b, hs') /\
           apply_spec hs (contents (map hs)) key fn b hs'.
Proof.
  intros W K Hlim Hfn. destruct (capacity_limited _ _ _ W Hlim) as (k & Hk & Hc).
  eapply apply_loop_ok; [done..|lia|]. unfold restarts. lia.
Qed.

(** * Iteration *)

(** Call [ck_hs_next] until it answers false. *)
Fixpoint iterate (fuel : nat) hs (i : ck_hs_iterator) : list Z :=
  match fuel with
  | O => []
  | S fuel => match ck_hs_next hs i with
              | (Some key, i) => key :: iterate fuel hs i
              | (None, _) => []
              end
  end.

Lemma next_loop_ok mp todo (o : nat) :
  (o + todo = length (entries mp))%nat ->
  match next_loop mp todo (Z.of_nat o) with
  | (None, _) => live kind (drop o (entries mp)) = []
  | (Some v, o') => ∃ n : nat, o' = Z.of_nat n /\ (o < n <= length (entries mp))%nat /\
                      live kind (drop o (entries mp)) = v :: live kind (drop n (entries mp))
  end.
Proof.
  revert o. induction todo as [|todo IH]; intros o Ho; cbn [next_loop].
  { rewrite drop_ge; [lia|done]. }
  destruct (lookup_lt_is_Some_2 (entries mp) o) as [v Hv]; [lia|].
  rewrite Nat2Z.id Hv /=. rewrite (drop_S _ v o Hv).
  assert (live kind (v :: drop (S o) (entries mp)) =
          (if negb (v =? CK_HS_EMPTY) && negb (v =? CK_HS_TOMBSTONE) then [v] else []) ++
          live kind (drop (S o) (entries mp))) as ->.
  { unfold live. rewrite filter_cons /kind.
    destruct (v =? CK_HS_EMPTY); [done|]. by destruct (v =? CK_HS_TOMBSTONE). }
  destruct (negb _ && negb _).
  - exists (S o). split_and!; [lia|lia|lia|done].
  - specialize (IH (S o) ltac:(lia)). replace (Z.of_nat o + 1) with (Z.of_nat (S o)) by lia.
    destruct (next_loop mp todo (Z.of_nat (S o))) as [[w|] o']; [|done].
    destruct IH as (n & -> & Hn & Hl). exists n. split_and!; [done|lia|lia|done].
Qed.

Lemma iterate_from fuel hs (o : nat) im :
  hs_wf hs -> (o <= length (entries (map hs)) < fuel + o)%nat ->
  iterate fuel hs (CkHsIterator (Z.of_nat o) im) = live kind (drop o (entries (map hs))).
Proof.
  intros W. pose proof (wf_length _ _ _ (wf_core _ _ _ (wf_map _ _ _ W))) as Hlen.
  pose proof (capacity_range _ _ _ (wf_core _ _ _ (wf_map _ _ _ W))) as Hc.
  revert o. induction fuel as [|fuel IH]; intros o Ho; [lia|]. cbn [iterate].
  unfold ck_hs_next, _ck_hs_next. cbn [it_offset it_map].
  destruct (Z.leb_spec (capacity (map hs)) (Z.of_nat o)) as [Hle|Hlt].
  { rewrite drop_ge; [lia|done]. }
  pose proof (next_loop_ok (map hs) (Z.to_nat (capacity (map hs) - Z.of_nat o)) o) as Hn.
  destruct (next_loop _ _ _) as [[v|] o']; specialize (Hn ltac:(lia)); [|by rewrite Hn].
  destruct Hn as (n & -> & Hn & ->). rewrite IH; [lia|done].
Qed.

(** Every element of the set is produced exactly once. *)
Lemma iterate_ok hs :
  hs_wf hs ->
  iterate (S (Z.to_nat (capacity (map hs)))) hs ck_hs_iterator_init = contents (map hs).
Proof.
  intros W. pose proof (wf_length _ _ _ (wf_core _ _ _ (wf_map _ _ _ W))) as Hlen.
  unfold ck_hs_iterator_init. change 0 with (Z.of_nat 0). rewrite iterate_from //. lia.
Qed.
End refine.
