(* ===== verification/HsGc.v ===== *)
(** The hash set: garbage collection keeps the contents and recomputes the probe
    bounds. *)

From S2P Require Export HsSpec.
Set Warnings "-rewrite-rw,-clear-no-such-hyp".

Section gc.
Context (malloc_ok : heap -> Z -> bool) (shr_undef : Z -> Z -> Z).
Implicit Types (hs : ck_hs) (mp : ck_hs_map).

Abbreviation core := (map_core shr_undef).
Abbreviation wf := (map_wf shr_undef).
Abbreviation hs_wf := (hs_wf malloc_ok shr_undef).
Abbreviation post := (post malloc_ok shr_undef).
Abbreviation mpos := (mpos shr_undef).
Abbreviation mpath mp := (path kind (mpos mp) (entries mp)).

(** Everything of a map that relocating entries leaves alone. *)
Definition same_shape mp mp' : Prop :=
  capacity mp' = capacity mp /\ mask mp' = mask mp /\ step mp' = step mp /\
  probe_limit mp' = probe_limit mp /\ probe_maximum mp' = probe_maximum mp /\
  probe_bound mp' = probe_bound mp /\ size mp' = size mp.

(** * One live entry *)

(** What the body of the loop does to the entry in slot [s]: it ends up in slot
    [s2], at position [q] of its walk. *)
Record gc_stepped hs mp (s : nat) (entry : Z) (r : probe_result) mp' : Prop := {
  gs_wf : wf hs mp';
  gs_contents : contents mp' ≡ₚ contents mp;
  gs_shape : same_shape mp mp';
  gs_where : ∃ s2 q, entries mp' !! s2 = Some entry /\ mpos mp (vhash hs entry) q = s2 /\
    mpath mp' (vhash hs entry) q /\ r_n_probes r = Z.of_nat q + 1 /\
    Z.of_nat q < probe_limit mp /\
    ∀ s' e', entries mp' !! s' = Some e' -> kind e' = Live ->
      s' = s2 \/ entries mp !! s' = Some e' /\ s' <> s;
  gs_path h p : mpath mp h p -> mpath mp' h p;
}.

Definition gc_move hs mp (h entry : Z) (r : probe_result) : option ck_hs_map :=
  match r_priority r with
  | None => Some mp
  | Some first =>
      slot ← r_slot r;
      let insert := ck_hs_marshal (mode hs) entry h in
      Some (relocate mp h first insert slot)
  end.

Lemma gc_step_ok hs mp s entry :
  wf hs mp -> keys_ok hs -> entries mp !! s = Some entry -> kind entry = Live ->
  ∃ r mp', ck_hs_map_probe shr_undef hs mp (vhash hs entry) (vkey hs entry)
             (ck_hs_map_bound_get mp (vhash hs entry)) CK_HS_PROBE = Some r /\
    gc_move hs mp (vhash hs entry) entry r = Some mp' /\ gc_stepped hs mp s entry r mp'.
Proof.
  intros W K Hs Hk. set (h := vhash hs entry).
  destruct (ck_hs_map_probe_ok shr_undef hs mp h (vkey hs entry) (ck_hs_map_bound_get mp h)
    CK_HS_PROBE) as (r & Hr & P); [apply W|done..|].
  pose proof (bound_get_range _ _ _ h (wf_core _ _ _ W)) as Hb.
  assert (r_object r <> CK_HS_EMPTY) as H0.
  { intros H0. eapply (po_absent _ _ _ _ _ _ _ _ P H0); [done|exact Hs|done|]. apply keq_refl. }
  destruct (po_found _ _ _ _ _ _ _ _ P H0) as (slot & p & Hslot & Hat & He & Hko & Hm & Hnp).
  assert (Z.to_nat slot = s) as Hss.
  { eapply (wf_unique _ _ _ (wf_core _ _ _ W)); [exact He|exact Hs|done|done|exact Hm]. }
  assert (r_object r = entry) as Hoe by (rewrite Hss in He; congruence).
  exists r. unfold gc_move, ck_hs_marshal. destruct (r_priority r) as [first|] eqn:Hpr.
  - rewrite Hslot /=. eexists. split; [done|]. split; [done|].
    destruct (po_priority _ _ _ _ _ _ _ _ P first Hpr) as (q & (Hq1 & Hq2 & Hq3) & Htomb & Hnq).
    destruct (relocate_ok shr_undef hs mp h first slot entry q entry) as (C2 & Hl2 & Hd2);
      [apply W|done|done| |done|by rewrite Hss|done|apply keq_refl|].
    { split_and!; [done..|]. unfold bound_fn. fold h. lia. }
    assert (Z.to_nat first <> s) as Hne.
    { intros Heq. rewrite Heq Hs in Htomb. injection Htomb as ->. done. }
    assert (contents (relocate mp h first entry slot) ≡ₚ contents mp) as Hl.
    { by apply (Permutation_cons_inv (a := entry)). }
    set (mp' := relocate mp h first entry slot) in *.
    assert (entries mp' = <[s := CK_HS_TOMBSTONE]> (<[Z.to_nat first := entry]> (entries mp))) as Hent.
    { by rewrite -Hss. }
    assert (∀ h p, mpath mp h p -> path kind (mpos mp) (entries mp') h p) as Hpath.
    { intros h' p' Hp'. rewrite Hent. apply path_insert; [done|].
      apply path_insert; [congruence|done]. }
    split; [split|..].
    + done.
    + change (n_entries mp = Z.of_nat (length (contents mp'))). by rewrite Hl (wf_n_entries _ _ _ W).
    + change (tombstones mp = u32 (Z.of_nat (length (dead kind (entries mp'))))).
      by rewrite Hd2 (wf_tombstones _ _ _ W).
    + done.
    + done.
    + exists (Z.to_nat first), q. split_and!; [|done|by apply Hpath|done|lia|].
      * rewrite Hent list_lookup_insert_ne // list_lookup_insert_eq //.
        by eapply lookup_lt_Some.
      * intros s' e' He' Hk'. rewrite Hent in He'.
        apply list_lookup_insert_Some in He' as [(_ & <- & _)|[Hns He']]; [done|].
        apply list_lookup_insert_Some in He' as [(? & _ & _)|[_ He']]; [by left|by right].
    + exact Hpath.
  - eexists. split; [done|]. split; [done|]. destruct Hat as (Hq1 & Hq2 & Hq3).
    split; [done|done|done| |done]. exists s, p. rewrite -Hss.
    split_and!; [congruence|done|done|by apply Hnp|lia|].
    intros s' e' He' Hk'. destruct (decide (s' = Z.to_nat slot)); [by left|by right].
Qed.

(** * The new bounds

    The bounds being computed, as a map of their own with no entries. *)

Definition new_bounds mp (maximum : Z) (bounds : option (list Z)) : ck_hs_map :=
  CkHsMap [] maximum (mask mp) (step mp) (probe_limit mp) 0 0 (capacity mp) 0 bounds
    (replicate (Z.to_nat (capacity mp)) CK_HS_EMPTY).

Definition le_word_max (bounds : option (list Z)) : Prop :=
  match bounds with Some b => Forall (λ x, x <= CK_HS_WORD_MAX) b | None => True end.

Lemma new_bounds_core hs mp mx b :
  core hs mp -> 0 <= mx <= probe_limit mp ->
  match b with
  | Some b => length b = Z.to_nat (capacity mp) /\ Forall (λ x, 0 <= x <= probe_limit mp) b
  | None => True
  end -> core hs (new_bounds mp mx b).
Proof.
  intros C Hm Hb. split; cbn; try apply C; [|done|done| |].
  - by rewrite length_replicate.
  - apply placed_none, live_replicate.
  - intros s1 s2 e1 e2 H1 _ K1. apply lookup_replicate in H1 as [-> _]. done.
Qed.

Lemma new_bounds_set mp mx b h n :
  0 <= n < 2 ^ 32 -> 0 <= mx -> le_word_max b ->
  ck_hs_map_bound_set (new_bounds mp mx b) h n =
  new_bounds mp (if mx <? n then u32 n else mx)
    (match b with
     | None => None
     | Some b =>
         let n := if CK_HS_WORD_MAX <? n then CK_HS_WORD_MAX else n in
         let i := Z.to_nat (Z.land h (mask mp)) in
         if default 0 (b !! i) <? n then Some (<[i := n]> b) else Some b
     end).
Proof.
  intros Hn Hm Hw. unfold ck_hs_map_bound_set, new_bounds. cbn.
  destruct (mx <? n); cbn; destruct b as [b|]; cbn; try done; cbn in Hw.
  all: set (i := Z.to_nat (Z.land h (mask mp))).
  all: destruct (Z.ltb_spec CK_HS_WORD_MAX n) as [H1|H1]; [|by destruct (_ <? _)].
  all: assert (default 0 (b !! i) <= CK_HS_WORD_MAX) as Hi
         by (destruct (b !! i) as [x|] eqn:Hx; simpl;
             [by rewrite Forall_lookup in Hw; eapply Hw|done]).
  all: rewrite (proj2 (Z.ltb_lt (default 0 (b !! i)) n)); [lia|].
  all: destruct (Z.ltb_spec (default 0 (b !! i)) CK_HS_WORD_MAX); [done|].
  all: unfold set_probe_bound; cbn; do 2 f_equal; apply list_insert_id'.
  all: intros Hlt; apply lookup_lt_is_Some_2 in Hlt as [x Hx]; rewrite Hx /= in Hi, H; rewrite Hx.
  all: f_equal; lia.
Qed.

Lemma le_word_max_set b i n :
  le_word_max (Some b) -> n <= CK_HS_WORD_MAX ->
  le_word_max (if default 0 (b !! i) <? n then Some (<[i := n]> b) else Some b).
Proof. intros Hw Hn. destruct (_ <? _); [|done]. by apply Forall_insert. Qed.

(** * The scan order visits every slot *)

Definition scan mp (gc_seed i : Z) : nat := Z.to_nat (Z.land (u64 (i + gc_seed)) (mask mp)).

Lemma scan_complete hs mp gc_seed s :
  core hs mp -> (s < Z.to_nat (capacity mp))%nat ->
  ∃ i, 0 <= i < capacity mp /\ scan mp gc_seed i = s.
Proof.
  intros C Hs. destruct (wf_capacity _ _ _ C) as (k & Hk & Hc). unfold scan.
  rewrite (wf_mask _ _ _ C) Hc. apply mask_scan_complete; [lia|]. by rewrite -Hc.
Qed.

(** * The loops *)

Lemma same_shape_trans mp1 mp2 mp3 : same_shape mp1 mp2 -> same_shape mp2 mp3 -> same_shape mp1 mp3.
Proof.
  intros (? & ? & ? & ? & ? & ? & ?) (? & ? & ? & ? & ? & ? & ?).
  split_and!; congruence.
Qed.

Lemma new_bounds_shape mp mp' mx b : same_shape mp mp' -> new_bounds mp' mx b = new_bounds mp mx b.
Proof. intros (H1 & H2 & H3 & H4 & _). unfold new_bounds. by rewrite H1 H2 H3 H4. Qed.

Lemma scan_lookup hs mp gc_seed i :
  core hs mp -> ∃ v, entries mp !! scan mp gc_seed i = Some v.
Proof.
  intros C. apply lookup_lt_is_Some. rewrite (wf_length _ _ _ C). by eapply home_lt.
Qed.

(** With a cycle count, the loop relocates entries and nothing else. *)
Lemma gc_cycles_ok hs todo i cycles gc_seed mp mx b :
  wf hs mp -> keys_ok hs -> 0 < cycles ->
  ∃ mp', gc_loop shr_undef hs todo i cycles gc_seed mp mx b = Some (mp', mx, b) /\
         wf hs mp' /\ contents mp' ≡ₚ contents mp /\ same_shape mp mp'.
Proof.
  intros W K. revert i cycles mp W. induction todo as [|todo IH]; intros i cycles mp W Hc.
  { exists mp. by split_and!. }
  cbn [gc_loop]. destruct (scan_lookup hs mp gc_seed i W) as [v Hv].
  unfold scan in Hv. rewrite Hv /=.
  destruct ((v =? CK_HS_EMPTY) || (v =? CK_HS_TOMBSTONE)) eqn:Hk; [by apply IH|].
  apply orb_false_iff in Hk as [Hk1%Z.eqb_neq Hk2%Z.eqb_neq].
  destruct (gc_step_ok hs mp _ v W K Hv) as (r & mp1 & Hr & Hm & G); [by apply kind_live|].
  change (ck_hs_apply_key_offset hs v) with (vkey hs v).
  change (hf hs (vkey hs v) (seed hs)) with (vhash hs v).
  rewrite Hr /=. change (match r_priority r with Some first => _ | None => _ end)
    with (gc_move hs mp (vhash hs v) v r). rewrite Hm /=.
  rewrite (proj2 (Z.eqb_neq cycles 0)); [lia|].
  destruct (Z.eqb_spec (cycles - 1) 0) as [H0|H0].
  { exists mp1. split_and!; [done|apply G|apply G|apply G..]. }
  destruct (IH (i + 1) (cycles - 1) mp1 (gs_wf _ _ _ _ _ _ G)) as (mp' & Hg & W' & L' & S'); [lia|].
  exists mp'. split_and!; [done|done| |by eapply same_shape_trans; [apply G|]].
  by rewrite L' (gs_contents _ _ _ _ _ _ G).
Qed.

(** The slots scanned so far are within the new bounds. *)
Definition covered hs mp gc_seed mx b (i : Z) : Prop :=
  ∀ s e, entries mp !! s = Some e -> kind e = Live ->
    (∃ i', i <= i' < capacity mp /\ scan mp gc_seed i' = s) \/
    ∃ p, (p < bound_fn (new_bounds mp mx b) (vhash hs e))%nat /\
         mpos mp (vhash hs e) p = s /\ mpath mp (vhash hs e) p.

Lemma covered_dead hs mp gc_seed mx b i v :
  covered hs mp gc_seed mx b i -> entries mp !! scan mp gc_seed i = Some v -> kind v <> Live ->
  covered hs mp gc_seed mx b (i + 1).
Proof.
  intros Hc Hv Hk s e Hs He. destruct (Hc s e Hs He) as [(i' & Hi' & Hsc)|?]; [|by right].
  left. exists i'. split; [|done]. destruct (decide (i' = i)) as [->|]; [|lia]. congruence.
Qed.

Lemma covered_step hs mp mp1 gc_seed mx b mx1 b1 i entry r :
  covered hs mp gc_seed mx b i -> core hs (new_bounds mp mx b) ->
  gc_stepped hs mp (scan mp gc_seed i) entry r mp1 ->
  ck_hs_map_bound_set (new_bounds mp mx b) (vhash hs entry) (r_n_probes r) = new_bounds mp mx1 b1 ->
  covered hs mp1 gc_seed mx1 b1 (i + 1).
Proof.
  intros Hc C G Hset s e Hs He.
  destruct (gs_where _ _ _ _ _ _ G) as (s2 & q & Hs2 & Hpos & Hpath & Hn & Hq & Hothers).
  destruct (gs_shape _ _ _ _ _ _ G) as (E1 & E2 & E3 & E4 & E5 & E6 & E7).
  destruct (bound_set_ok shr_undef hs (new_bounds mp mx b) (vhash hs entry) (r_n_probes r) C)
    as [Hb Hmono]; [cbn; lia|].
  unfold scan, HsInv.mpos. rewrite E1 E2 E3.
  rewrite (new_bounds_shape mp mp1); [apply G|].
  destruct (Hothers s e Hs He) as [->|[Hold Hne]].
  - right. rewrite Hs in Hs2. simplify_eq. exists q. unfold HsInv.mpos in *. rewrite E2 E3 in Hpath.
    split_and!; [|done|done]. rewrite Hset in Hb. unfold bound_fn. lia.
  - destruct (Hc s e Hold He) as [(i' & Hi' & Hsc)|(p & Hp & Hps & Hpp)].
    + left. exists i'. split; [|done]. destruct (decide (i' = i)) as [->|]; [done|lia].
    + right. exists p. split_and!; [|done|].
      * specialize (Hmono (vhash hs e)). rewrite Hset in Hmono. unfold bound_fn in *. lia.
      * pose proof (gs_path _ _ _ _ _ _ G _ _ Hpp) as Hpp'. unfold HsInv.mpos in *.
        by rewrite E2 E3 in Hpp'.
Qed.

Lemma gc_full_ok hs todo i gc_seed mp mx b :
  wf hs mp -> keys_ok hs -> 0 <= i -> i + Z.of_nat todo = capacity mp ->
  core hs (new_bounds mp mx b) -> le_word_max b -> covered hs mp gc_seed mx b i ->
  ∃ mp' mx' b', gc_loop shr_undef hs todo i 0 gc_seed mp mx b = Some (mp', mx', b') /\
    wf hs mp' /\ contents mp' ≡ₚ contents mp /\ same_shape mp mp' /\
    core hs (new_bounds mp' mx' b') /\ covered hs mp' gc_seed mx' b' (capacity mp) /\
    (is_Some b <-> is_Some b').
Proof.
  intros W K. revert i mp mx b W. induction todo as [|todo IH]; intros i mp mx b W Hi Hsum C Hw Hc.
  { exists mp, mx, b. split_and!; [done..| |done]. by replace (capacity mp) with i by lia. }
  cbn [gc_loop]. destruct (scan_lookup hs mp gc_seed i W) as [v Hv]. pose proof Hv as Hv'.
  unfold scan in Hv'. rewrite Hv' /=. clear Hv'.
  destruct ((v =? CK_HS_EMPTY) || (v =? CK_HS_TOMBSTONE)) eqn:Hk.
  { assert (kind v <> Live).
    { rewrite kind_live. apply orb_true_iff in Hk as [?%Z.eqb_eq|?%Z.eqb_eq]; naive_solver. }
    apply IH; [done|lia|lia|done|done|]. by eapply covered_dead. }
  apply orb_false_iff in Hk as [Hk1%Z.eqb_neq Hk2%Z.eqb_neq].
  destruct (gc_step_ok hs mp _ v W K Hv) as (r & mp1 & Hr & Hm & G); [by apply kind_live|].
  change (ck_hs_apply_key_offset hs v) with (vkey hs v).
  change (hf hs (vkey hs v) (seed hs)) with (vhash hs v).
  rewrite Hr /=. change (match r_priority r with Some first => _ | None => _ end)
    with (gc_move hs mp (vhash hs v) v r). rewrite Hm /=.
  destruct (gs_where _ _ _ _ _ _ G) as (s2 & q & _ & _ & _ & Hn & Hq & _).
  pose proof (wf_maximum _ _ _ C) as Hmx. pose proof (wf_limit _ _ _ W) as Hl. cbn in Hmx.
  assert (0 <= r_n_probes r <= probe_limit (new_bounds mp mx b)) as Hnr by (cbn; lia).
  pose proof (core_bound_set _ _ _ (vhash hs v) (r_n_probes r) C Hnr) as C1.
  pose proof (gs_shape _ _ _ _ _ _ G) as Hsh. pose proof Hsh as (E1 & E2 & _).
  pose proof (new_bounds_set mp mx b (vhash hs v) (r_n_probes r) ltac:(cbn in Hnr; lia) ltac:(lia) Hw)
    as Hset. cbv zeta in Hset. rewrite Hset in C1.
  match type of Hset with _ = new_bounds mp ?mx1 ?b1 => set (mx2 := mx1) in *; set (b2 := b1) in * end.
  assert (le_word_max b2) as Hw2.
  { subst b2. destruct b as [b|]; [|done]. apply le_word_max_set; [done|].
    unfold CK_HS_WORD_MAX. zcase. }
  destruct (IH (i + 1) mp1 mx2 b2) as (mp' & mx' & b' & Hg & W' & L' & S' & C' & Hc' & Hb');
    [apply G|lia|lia|by rewrite (new_bounds_shape mp mp1)|done|by eapply covered_step|].
  exists mp', mx', b'. split_and!; [|done| |by eapply same_shape_trans|done|by rewrite -E1|].
  - rewrite -Hg. by destruct b.
  - by rewrite L' (gs_contents _ _ _ _ _ _ G).
  - rewrite -Hb'. subst b2. destruct b as [b|]; [|done].
    destruct (default _ _ <? _); split; eauto.
Qed.

(** * ck_hs_gc *)

(** Raising or recomputing the bounds of a map whose entries fit them. *)
Lemma wf_new_bounds hs mp mx b :
  wf hs mp -> core hs (new_bounds mp mx b) ->
  placed kind (vhash hs) (mpos mp) (entries mp) (bound_fn (new_bounds mp mx b)) ->
  wf hs (set_probe_bound (set_probe_maximum mp mx) b).
Proof.
  intros W C Hp. split; [|apply W..].
  split; cbn; [apply W|apply W|apply W|apply W|apply C|apply C|exact Hp|apply W].
Qed.

Lemma covered_placed hs mp gc_seed mx b :
  covered hs mp gc_seed mx b (capacity mp) ->
  placed kind (vhash hs) (mpos mp) (entries mp) (bound_fn (new_bounds mp mx b)).
Proof. intros Hc s e Hs He. destruct (Hc s e Hs He) as [(i' & Hi' & _)|?]; [lia|done]. Qed.

Lemma gc_empty_ok hs :
  hs_wf hs -> n_entries (map hs) = 0 ->
  wf hs (set_probe_bound (set_probe_maximum (map hs) 0)
    (match probe_bound (map hs) with
     | None => None
     | Some _ => Some (replicate (Z.to_nat (capacity (map hs))) 0)
     end)).
Proof.
  intros W Hn. pose proof (wf_map _ _ _ W) as Wm. pose proof (wf_limit _ _ _ Wm).
  apply wf_new_bounds; [done| |].
  - apply new_bounds_core; [apply Wm|lia|]. destruct (probe_bound (map hs)); [|done].
    rewrite length_replicate. split; [done|]. apply Forall_replicate. lia.
  - apply placed_none, nil_length_inv. rewrite (wf_n_entries _ _ _ Wm) in Hn. lia.
Qed.

(** The full scan, from empty bounds. *)
Lemma gc_scan_ok hs gc_seed b :
  hs_wf hs -> keys_ok hs ->
  b = match probe_bound (map hs) with
      | Some _ => Some (replicate (Z.to_nat (capacity (map hs))) 0)
      | None => None
      end ->
  ∃ mp' mx' b', gc_loop shr_undef hs (Z.to_nat (capacity (map hs))) 0 0 gc_seed (map hs) 0 b =
                  Some (mp', mx', b') /\
    wf hs (set_probe_bound (set_probe_maximum mp' mx') b') /\
    contents mp' ≡ₚ contents (map hs) /\ same_shape (map hs) mp' /\
    (is_Some b <-> is_Some b').
Proof.
  intros W K Hb. pose proof (wf_map _ _ _ W) as Wm. pose proof (wf_limit _ _ _ Wm) as Hl.
  pose proof (capacity_range _ _ _ (wf_core _ _ _ Wm)) as Hr.
  destruct (gc_full_ok hs (Z.to_nat (capacity (map hs))) 0 gc_seed (map hs) 0 b Wm K)
    as (mp' & mx' & b' & Hg & W' & L' & S' & C' & Hc' & Hb'); [lia|lia| | | |].
  - apply new_bounds_core; [apply Wm|lia|]. subst b. destruct (probe_bound _); [|done].
    rewrite length_replicate. split; [done|]. apply Forall_replicate. lia.
  - subst b. destruct (probe_bound _); [|done]. by apply Forall_replicate.
  - intros s e Hs He. left. eapply scan_complete; [apply Wm|].
    rewrite -(wf_length _ _ _ Wm). by eapply lookup_lt_Some.
  - exists mp', mx', b'. split_and!; [done| |done..]. apply wf_new_bounds; [done|done|].
    apply (covered_placed hs mp' gc_seed). by destruct S' as (-> & _).
Qed.

Lemma set_maximum_id mp mx :
  (if mx =? probe_maximum mp then mp else set_probe_maximum mp mx) = set_probe_maximum mp mx.
Proof. destruct (Z.eqb_spec mx (probe_maximum mp)) as [->|]; [by destruct mp|done]. Qed.

Lemma set_probe_bound_id mp : set_probe_bound mp (probe_bound mp) = mp.
Proof. by destruct mp. Qed.

Lemma ck_hs_gc_ok hs cycles gc_seed :
  hs_wf hs -> keys_ok hs -> 0 <= cycles ->
  ∃ b hs', ck_hs_gc malloc_ok shr_undef hs cycles gc_seed = Some (b, hs') /\
           post hs hs' (contents (map hs)) /\ (b = false -> alloc_failed (m hs')).
Proof.
  intros W K Hcy. pose proof (wf_map _ _ _ W) as Wm. unfold ck_hs_gc.
  destruct (Z.eqb_spec (n_entries (map hs)) 0) as [Hn|Hn].
  { eexists true, _. split_and!; [done| |done]. split_and!; [|done|done].
    apply hs_wf_set_map; [done| |done|done]. by apply gc_empty_ok. }
  destruct (Z.eqb_spec cycles 0) as [->|Hc0]; cbv zeta; last first.
  { destruct (gc_cycles_ok hs (Z.to_nat (capacity (map hs))) 0 cycles gc_seed (map hs)
      (probe_maximum (map hs)) None Wm K ltac:(lia)) as (mp' & Hg & W' & L' & S').
    cbn [negb]. rewrite Hg /=. destruct S' as (E1 & E2 & E3 & E4 & E5 & E6 & E7).
    rewrite E5 Z.eqb_refl. eexists true, _. split_and!; [done| |done].
    split_and!; [|done|done]. by apply (hs_wf_set_map _ _ hs). }
  set (b0 := match probe_bound (map hs) with
             | Some _ => Some (replicate (Z.to_nat (capacity (map hs))) 0)
             | None => None
             end).
  destruct (gc_scan_ok hs gc_seed b0 W K eq_refl) as (mp' & mx' & b' & Hg & W' & L' & S' & Hb').
  assert (∀ h, outstanding h = outstanding (m hs) ->
    post hs (set_map (set_m hs h) (set_probe_bound (set_probe_maximum mp' mx') b')) (contents (map hs)))
    as Hpost.
  { intros h Hh. destruct S' as (E1 & E2 & E3 & E4 & E5 & E6 & E7).
    split_and!; [|done|done]. apply hs_wf_set_map; [by apply hs_wf_set_m| |done|done].
    by eapply wf_config; [|exact W']. }
  destruct (probe_bound (map hs)) as [pb|] eqn:Hpb.
  - unfold malloc. destruct (malloc_ok (m hs) (capacity (map hs))) eqn:Hok; cbn [negb]; last first.
    { eexists false, _. split_and!; [done| |intros _; by eexists _, _].
      split_and!; [by apply hs_wf_set_m|done|done]. }
    fold b0. rewrite Hg /= set_maximum_id. destruct Hb' as [[b'' ->] _]; [by eexists|].
    eexists true, _. split_and!; [done| |done]. apply Hpost. cbn. lia.
  - cbn [negb]. fold b0. rewrite Hg /= set_maximum_id.
    destruct b' as [b'|]; [by destruct Hb' as [_ [? ?]]|].
    eexists true, _. split_and!; [done| |done].
    assert (set_probe_bound (set_probe_maximum mp' mx') None = set_probe_maximum mp' mx') as <-.
    { destruct S' as (_ & _ & _ & _ & _ & E6 & _). rewrite Hpb in E6. by destruct mp'; cbn in *; subst. }
    by apply Hpost.
Qed.
End gc.
