(* ===== verification/HsTheorems.v ===== *)
(** The hash set: its theorems.  Any history of operations on a freshly
    initialised set behaves as the same history on an abstract set of values. *)

From S2P Require Export HsGc.
Set Warnings "-rewrite-rw,-clear-no-such-hyp".

(** * The abstract set

    Its state is a list of values up to permutation; the callbacks that compare
    keys are those of the configuration [cfg]. *)

Inductive hs_op :=
| OpGet (key : Z) | OpPut (v : Z) | OpSet (v : Z) | OpFas (v : Z) | OpRemove (key : Z)
| OpApply (key : Z) (fn : Z -> Z) | OpGrow (capacity : Z) | OpRebuild
| OpGc (cycles seed : Z) | OpReset | OpResetSize (capacity : Z).

Inductive hs_ret := RPtr (p : Z) | RBool (b : bool) | RBoolPtr (b : bool) (p : Z).

(** What the documentation asks of the caller. *)
Definition op_ok (cfg : ck_hs) (op : hs_op) : Prop :=
  match op with
  | OpPut v | OpSet v | OpFas v => kind v = Live
  | OpApply key fn => fn_ok cfg key fn
  | OpGrow cap => 0 <= cap < 2 ^ 64
  | OpGc cycles _ => 0 <= cycles
  | _ => True
  end.

(** [abs_step cfg l op r oom l']: on a set holding [l], [op] may return [r] and
    leave [l']; [oom] tells whether its last allocation was refused. *)
Definition abs_step (cfg : ck_hs) (l : list Z) (op : hs_op) (r : hs_ret) (oom : bool)
    (l' : list Z) : Prop :=
  match op with
  | OpGet key => l' ≡ₚ l /\ ∃ p, r = RPtr p /\
      (member cfg l key p /\ p <> CK_HS_EMPTY \/ p = CK_HS_EMPTY /\ missing cfg l key)
  | OpPut v =>
      r = RBool true /\ missing cfg l (vkey cfg v) /\ l' ≡ₚ v :: l \/
      r = RBool false /\ l' ≡ₚ l /\ ((∃ w, member cfg l (vkey cfg v) w) \/ oom = true)
  | OpSet v =>
      r = RBoolPtr true CK_HS_EMPTY /\ missing cfg l (vkey cfg v) /\ l' ≡ₚ v :: l \/
      (∃ old, r = RBoolPtr true old /\ member cfg l (vkey cfg v) old /\ old <> CK_HS_EMPTY /\
              old :: l' ≡ₚ v :: l) \/
      r = RBoolPtr false CK_HS_EMPTY /\ l' ≡ₚ l /\ oom = true
  | OpFas v =>
      (∃ old, r = RBoolPtr true old /\ member cfg l (vkey cfg v) old /\ old <> CK_HS_EMPTY /\
              old :: l' ≡ₚ v :: l) \/
      r = RBoolPtr false CK_HS_EMPTY /\ missing cfg l (vkey cfg v) /\ l' ≡ₚ l
  | OpRemove key =>
      r = RPtr CK_HS_EMPTY /\ missing cfg l key /\ l' ≡ₚ l \/
      ∃ old, r = RPtr old /\ member cfg l key old /\ old <> CK_HS_EMPTY /\ old :: l' ≡ₚ l
  | OpApply key fn =>
      (r = RBool true /\ ∃ o,
        (o = CK_HS_EMPTY /\ missing cfg l key \/ member cfg l key o /\ o <> CK_HS_EMPTY) /\
        if fn o =? o then l' ≡ₚ l
        else if fn o =? CK_HS_EMPTY then o :: l' ≡ₚ l
        else if o =? CK_HS_EMPTY then l' ≡ₚ fn o :: l
        else o :: l' ≡ₚ fn o :: l) \/
      r = RBool false /\ l' ≡ₚ l /\ oom = true
  | OpGrow _ | OpRebuild => (∃ b, r = RBool b) /\ l' ≡ₚ l
  | OpGc _ _ => (r = RBool true \/ r = RBool false /\ oom = true) /\ l' ≡ₚ l
  | OpReset | OpResetSize _ =>
      r = RBool true /\ l' = [] \/ r = RBool false /\ l' ≡ₚ l /\ oom = true
  end.

Inductive abs_trace (cfg : ck_hs) : list Z -> list hs_op -> list (hs_ret * bool) -> list Z -> Prop :=
| AtNil l : abs_trace cfg l [] [] l
| AtCons l op r oom l1 ops rs l2 :
    abs_step cfg l op r oom l1 -> abs_trace cfg l1 ops rs l2 ->
    abs_trace cfg l (op :: ops) ((r, oom) :: rs) l2.

(** * The concrete set *)

Definition hash_of (hs : ck_hs) (key : Z) : Z := hf hs key (seed hs).

Section concrete.
Context (malloc_ok : heap -> Z -> bool) (shr_undef : Z -> Z -> Z).

Definition exec_op (hs : ck_hs) (op : hs_op) : option (hs_ret * ck_hs) :=
  match op with
  | OpGet key => p ← ck_hs_get shr_undef hs (hash_of hs key) key; Some (RPtr p, hs)
  | OpPut v =>
      '(b, hs) ← ck_hs_put malloc_ok shr_undef hs (hash_of hs (vkey hs v)) v; Some (RBool b, hs)
  | OpSet v =>
      '(b, old, hs) ← ck_hs_set malloc_ok shr_undef hs (hash_of hs (vkey hs v)) v;
      Some (RBoolPtr b old, hs)
  | OpFas v =>
      '(b, old, hs) ← ck_hs_fas shr_undef hs (hash_of hs (vkey hs v)) v; Some (RBoolPtr b old, hs)
  | OpRemove key => '(p, hs) ← ck_hs_remove shr_undef hs (hash_of hs key) key; Some (RPtr p, hs)
  | OpApply key fn =>
      '(b, hs) ← ck_hs_apply malloc_ok shr_undef hs (hash_of hs key) key fn; Some (RBool b, hs)
  | OpGrow cap => '(b, hs) ← ck_hs_grow malloc_ok shr_undef hs cap; Some (RBool b, hs)
  | OpRebuild => '(b, hs) ← ck_hs_rebuild malloc_ok shr_undef hs; Some (RBool b, hs)
  | OpGc cycles sd => '(b, hs) ← ck_hs_gc malloc_ok shr_undef hs cycles sd; Some (RBool b, hs)
  | OpReset => let '(b, hs) := ck_hs_reset malloc_ok hs in Some (RBool b, hs)
  | OpResetSize cap => let '(b, hs) := ck_hs_reset_size malloc_ok hs cap in Some (RBool b, hs)
  end.

Fixpoint run_ops (hs : ck_hs) (ops : list hs_op) : option (list (hs_ret * bool) * ck_hs) :=
  match ops with
  | [] => Some ([], hs)
  | op :: ops =>
      '(r, hs) ← exec_op hs op;
      '(rs, hs') ← run_ops hs ops;
      Some ((r, refused (m hs)) :: rs, hs')
  end.

Abbreviation hs_wf := (hs_wf malloc_ok shr_undef).

(** * Simulation *)

Lemma reset_size_ok hs cap :
  hs_wf hs ->
  ∃ b hs', ck_hs_reset_size malloc_ok hs cap = (b, hs') /\ hs_wf hs' /\ same_config hs hs' /\
           if b : bool then contents (map hs') = [] /\ capacity (map hs') = rounded cap
           else map hs' = map hs /\ alloc_failed (m hs').
Proof.
  intros W. unfold ck_hs_reset_size.
  destruct (ck_hs_map_create malloc_ok (m hs) (mode hs) cap) as [[mp|] h1] eqn:Hc.
  - apply (create_ok malloc_ok shr_undef hs) in Hc as (Wm & Hl & Hd & Hcm & Hout & Hsz & Hal).
    eexists true, _. split; [done|]. split; [|by split_and!].
    split; cbn; [by eapply wf_config; [|exact Wm]| |lia|eauto].
    rewrite Hout (wf_heap _ _ _ W). lia.
  - pose proof (create_fail _ _ _ _ _ Hc) as Ho. eexists false, _. split; [done|].
    split; [by apply hs_wf_set_m|]. split; [done|]. split; [done|].
    revert Hc. unfold ck_hs_map_create, malloc. destruct (malloc_ok _ _); simpl; [done|].
    intros [= <-]. by eexists _, _.
Qed.

Local Ltac op2 := split; [done|split; [done|cbn [abs_step]]].
Local Ltac op3 := split; [done|op2].

Lemma exec_op_ok hs op :
  hs_wf hs -> keys_ok hs -> malloc_limited malloc_ok -> op_ok hs op ->
  ∃ r hs', exec_op hs op = Some (r, hs') /\ hs_wf hs' /\ same_config hs hs' /\
           abs_step hs (contents (map hs)) op r (refused (m hs')) (contents (map hs')).
Proof.
  intros W K Hlim Hop. destruct op as [key|v|v|v|key|key fn|cap| |cycles sd| |cap]; cbn [exec_op].
  - destruct (ck_hs_get_ok malloc_ok shr_undef hs key W K) as (p & Hg & Hp).
    unfold hash_of. rewrite Hg /=. eexists _, hs. op3. split; [done|]. by exists p.
  - destruct (ck_hs_put_internal_ok malloc_ok shr_undef hs v CK_HS_PROBE_INSERT W K Hlim Hop)
      as (b & hs' & Hg & Hp); [by left|].
    unfold ck_hs_put. change (hash_of hs (vkey hs v)) with (vhash hs v). rewrite Hg /=.
    eexists _, hs'. split; [done|]. destruct b.
    + destruct Hp as [Hm (W' & S' & L')]. op2. by left.
    + destruct Hp as [(W' & S' & L') Ho]. op2. right. split; [done|split; [done|]].
      destruct Ho as [?|?%refused_spec]; auto.
  - destruct (ck_hs_set_ok malloc_ok shr_undef hs v W K Hlim Hop) as (b & old & hs' & Hg & Hp).
    change (hash_of hs (vkey hs v)) with (vhash hs v). rewrite Hg /=.
    eexists _, hs'. split; [done|]. destruct b.
    + destruct Hp as [(-> & Hm & (W' & S' & L'))|(Hm & Hne & l' & (W' & S' & L') & Hl)].
      * op2. by left.
      * op2. right. left. exists old. split; [done|split; [done|split; [done|by rewrite L']]].
    + destruct Hp as (-> & (W' & S' & L') & Hf%refused_spec). op2. by right; right.
  - destruct (ck_hs_fas_ok malloc_ok shr_undef hs v W K Hop) as (b & old & hs' & Hg & Hp).
    change (hash_of hs (vkey hs v)) with (vhash hs v). rewrite Hg /=.
    eexists _, hs'. split; [done|]. destruct b.
    + destruct Hp as (Hm & Hne & l' & (W' & S' & L') & Hl).
      op2. left. exists old. split; [done|split; [done|split; [done|by rewrite L']]].
    + destruct Hp as (-> & Hm & ->). op2. by right.
  - destruct (ck_hs_remove_ok malloc_ok shr_undef hs key W K) as (old & hs' & Hg & Hp).
    unfold hash_of. rewrite Hg /=. eexists _, hs'. split; [done|].
    destruct Hp as [(-> & Hm & ->)|(Hm & Hne & l' & (W' & S' & L') & Hl)].
    + op2. by left.
    + op2. right. exists old. split; [done|split; [done|split; [done|by rewrite L']]].
  - destruct (ck_hs_apply_ok malloc_ok shr_undef hs key fn W K Hlim Hop) as (b & hs' & Hg & Hp).
    unfold hash_of. rewrite Hg /=. eexists _, hs'. split; [done|]. destruct b.
    + destruct Hp as (o & Ho & Hp). assert (hs_wf hs' /\ same_config hs hs') as [W' S'].
      { destruct (fn o =? o); [|destruct (fn o =? CK_HS_EMPTY); [|destruct (o =? CK_HS_EMPTY)]].
        all: first [by destruct Hp as (? & ? & ?)|by destruct Hp as (? & (? & ? & ?) & ?)]. }
      op2. left. split; [done|]. exists o. split; [done|].
      destruct (fn o =? o); [by destruct Hp as (? & ? & ?)|].
      destruct (fn o =? CK_HS_EMPTY); [|destruct (o =? CK_HS_EMPTY)].
      * destruct Hp as (l' & (? & ? & L') & Hl). by rewrite L'.
      * by destruct Hp as (? & ? & ?).
      * destruct Hp as (l' & (? & ? & L') & Hl). by rewrite L'.
    + destruct Hp as [(W' & S' & L') Hf%refused_spec]. op2. by right.
  - destruct (ck_hs_grow_ok malloc_ok shr_undef hs cap W K Hop) as (b & hs' & Hg & (W' & S' & L') & _).
    rewrite Hg /=. eexists _, hs'. op3. split; [by exists b|done].
  - pose proof (capacity_range _ _ _ (wf_core _ _ _ (wf_map _ _ _ W))) as Hc.
    destruct (ck_hs_grow_ok malloc_ok shr_undef hs (capacity (map hs)) W K)
      as (b & hs' & Hg & (W' & S' & L') & _); [lia|].
    unfold ck_hs_rebuild. rewrite Hg /=. eexists _, hs'. op3.
    split; [by exists b|done].
  - destruct (ck_hs_gc_ok malloc_ok shr_undef hs cycles sd W K Hop) as (b & hs' & Hg & (W' & S' & L') & Hf).
    rewrite Hg /=. eexists _, hs'. op3. split; [|done].
    destruct b; [by left|right]. split; [done|]. by apply refused_spec, Hf.
  - destruct (reset_size_ok hs (capacity (map hs)) W) as (b & hs' & Hg & W' & S' & Hb).
    unfold ck_hs_reset. rewrite Hg /=. eexists _, hs'. op3. destruct b.
    + left. by destruct Hb.
    + right. destruct Hb as [-> Hf%refused_spec]. by split_and!.
  - destruct (reset_size_ok hs cap W) as (b & hs' & Hg & W' & S' & Hb).
    rewrite Hg /=. eexists _, hs'. op3. destruct b.
    + left. by destruct Hb.
    + right. destruct Hb as [-> Hf%refused_spec]. by split_and!.
Qed.
End concrete.

(** The abstract steps depend on the callbacks of the configuration only. *)
Lemma abs_step_config hs hs' l op r oom l' :
  same_config hs hs' -> abs_step hs' l op r oom l' -> abs_step hs l op r oom l'.
Proof. destruct hs, hs'. intros (E1 & E2 & E3 & E4) H. cbn in *. subst. by destruct op. Qed.

Lemma op_ok_config hs hs' op : same_config hs hs' -> op_ok hs op -> op_ok hs' op.
Proof. destruct hs, hs'. intros (E1 & E2 & E3 & E4) H. cbn in *. subst. by destruct op. Qed.

Lemma abs_trace_config hs hs' l ops rs l' :
  same_config hs hs' -> abs_trace hs' l ops rs l' -> abs_trace hs l ops rs l'.
Proof.
  intros S T. induction T as [|l op r oom l1 ops rs l2 H T IH]; [constructor|].
  econstructor; [|exact IH]. by eapply abs_step_config.
Qed.

(** The keys of a list of values are pairwise different. *)
Definition distinct_keys (hs : ck_hs) (l : list Z) : Prop :=
  ∀ i j v w, l !! i = Some v -> l !! j = Some w -> same hs v w -> i = j.

Section histories.
Context (malloc_ok : heap -> Z -> bool) (shr_undef : Z -> Z -> Z).
Abbreviation hs_wf := (hs_wf malloc_ok shr_undef).

Lemma run_ops_ok hs ops :
  hs_wf hs -> keys_ok hs -> malloc_limited malloc_ok -> Forall (op_ok hs) ops ->
  ∃ rs hs', run_ops malloc_ok shr_undef hs ops = Some (rs, hs') /\ hs_wf hs' /\
            same_config hs hs' /\ abs_trace hs (contents (map hs)) ops rs (contents (map hs')).
Proof.
  revert hs. induction ops as [|op ops IH]; intros hs W K Hlim Hops.
  { exists [], hs. split_and!; [done..|constructor]. }
  inversion_clear Hops as [|? ? Hop Hrest]. cbn [run_ops].
  destruct (exec_op_ok malloc_ok shr_undef hs op W K Hlim Hop) as (r & hs1 & He & W1 & S1 & A1).
  destruct (IH hs1) as (rs & hs2 & Hr & W2 & S2 & T2);
    [done|by eapply same_config_keys|done|by eapply Forall_impl; [exact Hrest|]; intros ?; apply op_ok_config|].
  rewrite He /= Hr /=. eexists _, hs2. split_and!; [done|done|by eapply same_config_trans|].
  econstructor; [exact A1|]. by eapply abs_trace_config.
Qed.

Lemma init_from_options_ok o a hs :
  ck_hs_init_from_options malloc_ok (Some o) = Some hs -> allocator o = Some a ->
  outstanding (am_heap a) = 0 -> hs_wf hs /\ contents (map hs) = [].
Proof.
  intros Hi Ha Hout. unfold ck_hs_init_from_options in Hi. cbn [mbind option_bind] in Hi.
  destruct (options_size o <? _); [done|]. destruct (_ <? options_size o); [done|].
  cbv zeta in Hi. rewrite Ha /= in Hi. destruct (am_malloc a); [|done].
  destruct (am_free a); [|done]. cbn [negb] in Hi. destruct (hash_function o) as [hf0|]; [|done].
  simpl in Hi. destruct (if test _ _ then _ else _); [done|].
  destruct (ck_hs_map_create _ _ _ _) as [[mp|] h1] eqn:Hc; [|done]. simpl in Hi.
  injection Hi as <-.
  match goal with |- HsProofs.hs_wf _ _ ?x /\ _ =>
    destruct (create_ok malloc_ok shr_undef x _ _ _ _ _ Hc) as (Wm & Hl & Hd & Hcm & Ho & Hsz & Hal)
  end.
  split; [|exact Hl]. split; cbn; [exact Wm|lia|lia|eauto].
Qed.

Lemma wf_distinct_keys hs : hs_wf hs -> keys_ok hs -> distinct_keys hs (contents (map hs)).
Proof.
  intros W K i j v w Hi Hj Hs.
  eapply (unique_live kind (same hs) (entries (map hs))); [|apply W|exact Hi|exact Hj|..|exact Hs].
  - intros e1 e2. by apply keq_sym.
  - by apply list_elem_of_lookup_2, elem_of_live in Hi as [? _].
  - by apply list_elem_of_lookup_2, elem_of_live in Hj as [? _].
Qed.
End histories.

(** * Theorems *)

Definition fresh_allocator : ck_malloc := CkMalloc [] true true.

(** C4. Refinement: on a freshly initialised hash set, any history of lookups,
    insertions, replacements, deletions, apply callbacks, growths, garbage
    collections and resets, with any allocator that refuses 16 GiB and any
    behaviour of oversized shifts, runs to completion and returns what the same
    history on an abstract set may return; in the end the element count is exact
    and the only memory outstanding is that of the current map. *)
Theorem hs_refines_set malloc_ok shr_undef md hash cmp n sd hs ops :
  ck_hs_init malloc_ok md (Some hash) cmp (Some fresh_allocator) n sd = Some hs ->
  keys_ok hs -> malloc_limited malloc_ok -> Forall (op_ok hs) ops ->
  ∃ rs hs', run_ops malloc_ok shr_undef hs ops = Some (rs, hs') /\
    abs_trace hs [] ops rs (contents (map hs')) /\
    ck_hs_count hs' = Z.of_nat (length (contents (map hs'))) /\
    outstanding (m hs') = size (map hs').
Proof.
  intros Hi K Hlim Hops.
  destruct (init_from_options_ok malloc_ok shr_undef _ fresh_allocator hs Hi) as [W Hl]; [done|done|].
  destruct (run_ops_ok malloc_ok shr_undef hs ops W K Hlim Hops) as (rs & hs' & Hr & W' & _ & T).
  rewrite Hl in T. exists rs, hs'. split_and!; [done|done| |apply W'].
  apply (wf_n_entries _ _ _ (wf_map _ _ _ W')).
Qed.

(** A concrete set: values are their own keys, hashed by multiplication. *)
Definition demo_malloc (_ : heap) (size : Z) : bool := size <? 2 ^ 34.
Definition demo_shr (_ _ : Z) : Z := 0.
Definition demo_hash (k _ : Z) : Z := u64 (k * 2654435761).

Definition demo_hs : option ck_hs :=
  ck_hs_init demo_malloc (Z.lor CK_HS_MODE_DIRECT CK_HS_MODE_DELETE) (Some demo_hash) None
    (Some fresh_allocator) 8 0.

Lemma demo_keys_ok hs : compare hs = None -> keys_ok hs.
Proof.
  intros Hc. split; unfold keq; rewrite Hc; intros k1 k2; rewrite ?orb_false_r.
  - by rewrite !Z.eqb_eq.
  - intros k3. rewrite !orb_false_r !Z.eqb_eq. congruence.
  - rewrite Z.eqb_eq. congruence.
Qed.

Lemma demo_malloc_limited : malloc_limited demo_malloc.
Proof. intros h sz Hsz. apply Z.ltb_ge. done. Qed.

Definition demo_history : list hs_op :=
  (OpPut <$> seqZ 1 12) ++ [OpRemove 3; OpGet 3; OpPut 5; OpSet 7; OpFas 20; OpGc 0 4; OpGet 7;
    OpApply 40 (λ _, 40); OpGrow 100; OpGet 40].

Lemma demo_hs_some :
  match demo_hs with
  | Some hs => (mode hs =? 18) && match compare hs with None => true | Some _ => false end
  | None => false
  end = true.
Proof. vm_compute. reflexivity. Qed.

Lemma hs_refines_set_witness :
  ∃ hs, demo_hs = Some hs /\
  ∃ rs hs', run_ops demo_malloc demo_shr hs demo_history = Some (rs, hs') /\
    abs_trace hs [] demo_history rs (contents (map hs')) /\
    ck_hs_count hs' = Z.of_nat (length (contents (map hs'))) /\
    outstanding (m hs') = size (map hs').
Proof.
  pose proof demo_hs_some as Hd. destruct demo_hs as [hs|] eqn:Hi; [|discriminate Hd].
  apply andb_true_iff in Hd as [Hm%Z.eqb_eq Hc]. destruct (compare hs) eqn:Hcmp; [discriminate Hc|].
  exists hs. split; [reflexivity|]. unfold demo_hs in Hi.
  apply (hs_refines_set demo_malloc demo_shr (Z.lor CK_HS_MODE_DIRECT CK_HS_MODE_DELETE)
           demo_hash None 8 0 hs demo_history Hi).
  - by apply demo_keys_ok.
  - apply demo_malloc_limited.
  - repeat constructor; cbn; try done; unfold keq, vkey, ck_hs_apply_key_offset; rewrite ?Hm ?Hcmp; done.
Defined.

(** The same history, computed. *)
Example demo_history_run :
  (hs ← demo_hs; '(rs, hs') ← run_ops demo_malloc demo_shr hs demo_history;
   Some (drop 12 rs.*1, ck_hs_count hs', capacity (map hs'), ck_hs_stat hs')) =
  Some ([RPtr 3; RPtr 0; RBool false; RBoolPtr true 7; RBoolPtr false 0; RBool true; RPtr 7;
         RBool true; RBool true; RPtr 40], 12, 128, CkHsStat 0 12 1).
Proof. vm_compute. reflexivity. Qed.

(** C29. Iteration: after any history, iterating from a fresh iterator until it
    answers false produces the elements of the set, each key exactly once. *)
Theorem hs_iteration_complete malloc_ok shr_undef md hash cmp n sd hs ops rs hs' :
  ck_hs_init malloc_ok md (Some hash) cmp (Some fresh_allocator) n sd = Some hs ->
  keys_ok hs -> malloc_limited malloc_ok -> Forall (op_ok hs) ops ->
  run_ops malloc_ok shr_undef hs ops = Some (rs, hs') ->
  let produced := iterate (S (Z.to_nat (capacity (map hs')))) hs' ck_hs_iterator_init in
  distinct_keys hs' produced /\ Z.of_nat (length produced) = ck_hs_count hs' /\
  abs_trace hs [] ops rs produced.
Proof.
  intros Hi K Hlim Hops Hr.
  destruct (init_from_options_ok malloc_ok shr_undef _ fresh_allocator hs Hi) as [W Hl]; [done|done|].
  destruct (run_ops_ok malloc_ok shr_undef hs ops W K Hlim Hops) as (rs1 & hs1 & Hr' & W' & S & T).
  rewrite Hr in Hr'. injection Hr' as <- <-. rewrite Hl in T. cbv zeta.
  rewrite (iterate_ok malloc_ok shr_undef) //. split_and!; [| |done].
  - eapply wf_distinct_keys; [done|by eapply same_config_keys].
  - symmetry. apply (wf_n_entries _ _ _ (wf_map _ _ _ W')).
Qed.

Definition demo_run : option (list (hs_ret * bool) * ck_hs) :=
  hs ← demo_hs; run_ops demo_malloc demo_shr hs demo_history.

Lemma hs_iteration_complete_witness :
  ∃ hs rs hs', demo_hs = Some hs /\
    let produced := iterate (S (Z.to_nat (capacity (map hs')))) hs' ck_hs_iterator_init in
    distinct_keys hs' produced /\ Z.of_nat (length produced) = ck_hs_count hs' /\
    abs_trace hs [] demo_history rs produced.
Proof.
  pose proof demo_hs_some as Hd.
  assert (match demo_run with Some _ => true | None => false end = true) as Hrun
    by (vm_compute; reflexivity).
  unfold demo_run in Hrun. destruct demo_hs as [hs|] eqn:Hi; [|discriminate Hd].
  cbn [mbind option_bind] in Hrun.
  destruct (run_ops demo_malloc demo_shr hs demo_history) as [[rs hs']|] eqn:Hr;
    [|discriminate Hrun].
  apply andb_true_iff in Hd as [Hm%Z.eqb_eq Hc]. destruct (compare hs) eqn:Hcmp; [discriminate Hc|].
  exists hs, rs, hs'. split; [reflexivity|]. unfold demo_hs in Hi.
  apply (hs_iteration_complete demo_malloc demo_shr (Z.lor CK_HS_MODE_DIRECT CK_HS_MODE_DELETE)
           demo_hash None 8 0 hs demo_history rs hs' Hi).
  - by apply demo_keys_ok.
  - apply demo_malloc_limited.
  - repeat constructor; cbn; try done; unfold keq, vkey, ck_hs_apply_key_offset; rewrite ?Hm ?Hcmp; done.
  - exact Hr.
Defined.






(** The requested capacity is truncated to 32 bits before it is rounded: a
    set of capacity 8 asked to hold 2^32 + 1 entries reports success and keeps
    capacity 8. *)
Theorem hs_grow_truncates :
  (hs ← demo_hs; '(b, hs') ← ck_hs_grow demo_malloc demo_shr hs (2 ^ 32 + 1);
   Some (b, capacity (map hs'))) = Some (true, 8).
Proof. vm_compute. reflexivity. Qed.
