(* ===== verification/Ht.v ===== *)
(** The hash table [ck_ht] (src/src/ck_ht.c), as executed by its single writer:
    entries with a key, a value, a key length and a memoised hash; direct and
    byte-string keys.  The model is executable; the files from [HtInv] to
    [HtTheorems] verify it. *)

From S2P Require Export Probe.
Set Warnings "-rewrite-rw".

Definition CK_HT_BUCKET_SHIFT : Z := 1.
Definition CK_HT_BUCKET_LENGTH : Z := Z.shiftl 1 CK_HT_BUCKET_SHIFT.
Definition CK_HT_BUCKET_MASK : Z := CK_HT_BUCKET_LENGTH - 1.
Definition CK_HT_PROBE_DEFAULT : Z := 64.
Definition CK_MD_CACHELINE : Z := 64.
Definition CK_HT_WORD_MAX : Z := 255.
Definition CK_HT_TYPE_MAX : Z := 18446744073709551615.

Definition CK_HT_MODE_DIRECT : Z := 1.
Definition CK_HT_MODE_BYTESTRING : Z := 2.
Definition CK_HT_WORKLOAD_DELETE : Z := 4.

Definition CK_HT_KEY_EMPTY : Z := 0.
Definition CK_HT_KEY_TOMBSTONE : Z := 18446744073709551615.

(** * Data *)

Record ck_ht_entry := CkHtEntry { key : Z; value : Z; key_length : Z; hash : Z }.

Record ck_ht_map := CkHtMap {
  map_mode : Z;
  deletions : Z;
  probe_maximum : Z;
  probe_limit : Z;
  size : Z;
  n_entries : Z;
  mask : Z;
  capacity : Z;
  step : Z;
  probe_bound : option (list Z);
  entries : list ck_ht_entry;
}.

Definition sizeof_ck_ht_map : Z := 96.
Definition sizeof_ck_ht_entry : Z := 32.

(** The hash callback is a function of the bytes of the key and of the seed. *)
Record ck_ht := CkHt {
  m : heap;
  map : ck_ht_map;
  mode : Z;
  seed : Z;
  h : list Z -> Z -> Z;
}.

Definition set_deletions (x : ck_ht_map) v := CkHtMap (map_mode x) v (probe_maximum x)
  (probe_limit x) (size x) (n_entries x) (mask x) (capacity x) (step x) (probe_bound x) (entries x).
Definition set_probe_maximum (x : ck_ht_map) v := CkHtMap (map_mode x) (deletions x) v
  (probe_limit x) (size x) (n_entries x) (mask x) (capacity x) (step x) (probe_bound x) (entries x).
Definition set_n_entries (x : ck_ht_map) v := CkHtMap (map_mode x) (deletions x) (probe_maximum x)
  (probe_limit x) (size x) v (mask x) (capacity x) (step x) (probe_bound x) (entries x).
Definition set_probe_bound (x : ck_ht_map) v := CkHtMap (map_mode x) (deletions x)
  (probe_maximum x) (probe_limit x) (size x) (n_entries x) (mask x) (capacity x) (step x) v (entries x).
Definition set_entries (x : ck_ht_map) v := CkHtMap (map_mode x) (deletions x) (probe_maximum x)
  (probe_limit x) (size x) (n_entries x) (mask x) (capacity x) (step x) (probe_bound x) v.
Definition set_m (t : ck_ht) v := CkHt v (map t) (mode t) (seed t) (h t).
Definition set_map (t : ck_ht) v := CkHt (m t) v (mode t) (seed t) (h t).

(** All fields of an entry are written, the key last. *)
Definition store (mp : ck_ht_map) (slot : Z) (e : ck_ht_entry) : ck_ht_map :=
  set_entries mp (<[Z.to_nat slot := e]> (entries mp)).

(** Only the key is overwritten. *)
Definition bury (e : ck_ht_entry) : ck_ht_entry :=
  CkHtEntry CK_HT_KEY_TOMBSTONE (value e) (key_length e) (hash e).
Definition store_tombstone (mp : ck_ht_map) (slot : Z) : ck_ht_map :=
  set_entries mp (alter bury (Z.to_nat slot) (entries mp)).

Definition bump_deletions (mp : ck_ht_map) : ck_ht_map :=
  set_deletions mp (u64 (deletions mp + 1)).

Definition test (flags bit : Z) : bool := truthy (Z.land flags bit).

(** * Entries (ck_ht.h) *)

Definition ck_ht_entry_empty (e : ck_ht_entry) : bool := key e =? CK_HT_KEY_EMPTY.
Definition ck_ht_entry_key_set_direct (e : ck_ht_entry) (k : Z) : ck_ht_entry :=
  CkHtEntry k (value e) (key_length e) (hash e).
Definition ck_ht_entry_key_set (e : ck_ht_entry) (k len : Z) : ck_ht_entry :=
  CkHtEntry k (value e) len (hash e).
Definition ck_ht_entry_key (e : ck_ht_entry) : Z := key e.
Definition ck_ht_entry_key_length (e : ck_ht_entry) : Z := u16 (key_length e).
Definition ck_ht_entry_value (e : ck_ht_entry) : Z := value e.
Definition ck_ht_entry_set (h k len v : Z) : ck_ht_entry := CkHtEntry k v len h.
Definition ck_ht_entry_set_direct (e : ck_ht_entry) (h k v : Z) : ck_ht_entry :=
  CkHtEntry k v (key_length e) h.

Definition zero_entry : ck_ht_entry := CkHtEntry 0 0 0 0.

Record ck_ht_stat_t := CkHtStat { st_probe_maximum : Z; st_n_entries : Z }.

Section ck_ht.
(** The allocator, shifts that C leaves undefined, and the bytes of memory that
    key pointers address. *)
Context (malloc_ok : heap -> Z -> bool) (shr_undef : Z -> Z -> Z) (byte_at : Z -> Z).

Definition shr (x n : Z) : Z := if n <? 64 then Z.shiftr x n else shr_undef x n.

(** [memcmp(p, q, n) == 0] *)
Definition memcmp_eq (p q n : Z) : bool :=
  forallb (fun i => byte_at (p + i) =? byte_at (q + i)) (seqZ 0 n).

(** * Statistics and hashing *)

Definition ck_ht_stat (t : ck_ht) : ck_ht_stat_t :=
  CkHtStat (probe_maximum (map t)) (n_entries (map t)).

Definition bytes_of (p n : Z) : list Z := (fun i => byte_at (p + i)) <$> seqZ 0 n.

(** The bytes of an integer in memory, least significant first. *)
Definition le_bytes (v n : Z) : list Z := (fun i => Z.shiftr v (8 * i) mod 256) <$> seqZ 0 n.

Definition ck_ht_hash (t : ck_ht) (k len : Z) : Z := h t (bytes_of k (u16 len)) (seed t).

(** The callback is given the address of the key and its size. *)
Definition ck_ht_hash_direct (t : ck_ht) (k : Z) : Z := h t (le_bytes k 8) (seed t).

(** * Creation *)

Definition ck_ht_map_create (heap0 : heap) (mode entries : Z) : option ck_ht_map * heap :=
  let n_entries := ck_internal_power_2 entries in
  let n_entries := if n_entries <? CK_HT_BUCKET_LENGTH then CK_HT_BUCKET_LENGTH else n_entries in
  let size := u64 (sizeof_ck_ht_map + (sizeof_ck_ht_entry * n_entries + CK_MD_CACHELINE - 1)) in
  let prefix := if test mode CK_HT_WORKLOAD_DELETE then n_entries else 0 in
  let size := u64 (size + prefix) in
  let '(ok, heap1) := malloc malloc_ok heap0 size in
  if negb ok then (None, heap1)
  else
    (Some {| map_mode := mode;
             deletions := 0;
             probe_maximum := 0;
             probe_limit := ck_internal_max_64 (Z.shiftr n_entries (CK_HT_BUCKET_SHIFT + 2))
                                               CK_HT_PROBE_DEFAULT;
             size := size;
             n_entries := 0;
             mask := n_entries - 1;
             capacity := n_entries;
             step := ck_cc_ffsll n_entries;
             probe_bound := if test mode CK_HT_WORKLOAD_DELETE
                            then Some (replicate (Z.to_nat n_entries) 0) else None;
             entries := replicate (Z.to_nat n_entries) zero_entry |}, heap1).

Definition ck_ht_map_bound_set (mp : ck_ht_map) (h n_probes : Z) : ck_ht_map :=
  let offset := Z.to_nat (Z.land h (mask mp)) in
  let mp := if probe_maximum mp <? n_probes then set_probe_maximum mp n_probes else mp in
  match probe_bound mp with
  | Some bounds =>
      if default 0 (bounds !! offset) <? n_probes then
        let n_probes := if CK_HT_WORD_MAX <=? n_probes then CK_HT_WORD_MAX else n_probes in
        set_probe_bound mp (Some (<[offset := n_probes]> bounds))
      else mp
  | None => mp
  end.

Definition ck_ht_map_bound_get (mp : ck_ht_map) (h : Z) : Z :=
  let offset := Z.to_nat (Z.land h (mask mp)) in
  match probe_bound mp with
  | Some bounds =>
      let r := default 0 (bounds !! offset) in
      if r =? CK_HT_WORD_MAX then probe_maximum mp else r
  | None => probe_maximum mp
  end.

Definition ck_ht_map_destroy (m : heap) (mp : ck_ht_map) (defer : bool) : heap :=
  free m (size mp) defer.

(** [~CK_HT_BUCKET_MASK] is a 32-bit constant. *)
Definition ck_ht_map_probe_next (mp : ck_ht_map) (offset h probes : Z) : Z :=
  let level := Z.shiftr probes CK_HT_BUCKET_SHIFT in
  let r := shr (shr h (step mp)) level in
  let stride := Z.lor (u64 (Z.shiftl (Z.land r (u32 (Z.lnot CK_HT_BUCKET_MASK))) 1))
                      (Z.land r CK_HT_BUCKET_MASK) in
  Z.land (u64 (offset + level + Z.lor stride CK_HT_BUCKET_LENGTH)) (mask mp).

Definition ck_ht_init (mode : Z) (h : option (list Z -> Z -> Z)) (wrapper : list Z -> Z -> Z)
    (m0 : option (heap * bool * bool)) (entries seed : Z) : bool * option ck_ht :=
  match m0 with
  | Some (heap0, true, true) =>
      let h := match h with None => wrapper | Some h => h end in
      match ck_ht_map_create heap0 mode entries with
      | (Some mp, heap1) => (true, Some (CkHt heap1 mp mode seed h))
      | (None, _) => (false, None)
      end
  | _ => (false, None)
  end.

(** * The walk of a hash

    Row [i] starts at bucket [offset]; [j] counts within the row. *)

Record walk := Walk { w_offset : Z; w_i : Z; w_j : Z }.

Definition walk_cursor (w : walk) : Z :=
  Z.land (w_offset w) (Z.lnot CK_HT_BUCKET_MASK) +
  Z.land (w_j w + w_offset w) CK_HT_BUCKET_MASK.

Definition walk_start (mp : ck_ht_map) (h : Z) : walk := Walk (Z.land h (mask mp)) 0 0.

Definition next_row (mp : ck_ht_map) (h : Z) (w : walk) (probes : Z) : walk :=
  Walk (ck_ht_map_probe_next mp (w_offset w) h probes) (w_i w + 1) 0.

Definition walk_next (mp : ck_ht_map) (h : Z) (w : walk) (probes : Z) : walk :=
  if w_j w + 1 <? CK_HT_BUCKET_LENGTH then Walk (w_offset w) (w_i w) (w_j w + 1)
  else next_row mp h w probes.

(** Whether the entry under the cursor is the one looked for. *)
Definition entry_matches (mp : ck_ht_map) (h : Z) (e : ck_ht_entry) (k len : Z) : bool :=
  if key e =? k then true
  else if test (map_mode mp) CK_HT_MODE_BYTESTRING then
    if negb (ck_ht_entry_key_length e =? len) then false
    else if negb (hash e =? h) then false
    else memcmp_eq (ck_ht_entry_key e) k len
  else false.

(** * Probing *)

(** The cursor with what it was when found, the first tombstone, and the two
    probe counts. *)
Record probe_wr_result := ProbeWr {
  wr_cursor : option Z;
  wr_snapshot : ck_ht_entry;
  wr_available : option Z;
  wr_probes : Z;
  wr_probe_wr : Z;
}.

Fixpoint probe_wr_loop (mp : ck_ht_map) (h k len limit : Z) (fuel : nat) (w : walk)
    (probes : Z) (first : option Z) (probe_wr : Z) : option probe_wr_result :=
  match fuel with
  | O => None
  | S fuel =>
      if probe_limit mp <=? w_i w then Some (ProbeWr None zero_entry first probes probe_wr)
      else if limit <? probes then
        probe_wr_loop mp h k len limit fuel (next_row mp h w (probes + 1)) (probes + 1) first probe_wr
      else
        let probes := probes + 1 in
        let cursor := walk_cursor w in
        e ← entries mp !! Z.to_nat cursor;
        if key e =? CK_HT_KEY_TOMBSTONE then
          match first with
          | None => probe_wr_loop mp h k len limit fuel (walk_next mp h w probes) probes
                      (Some cursor) probes
          | Some _ => probe_wr_loop mp h k len limit fuel (walk_next mp h w probes) probes
                        first probe_wr
          end
        else if key e =? CK_HT_KEY_EMPTY then Some (ProbeWr (Some cursor) e first probes probe_wr)
        else if entry_matches mp h e k len then Some (ProbeWr (Some cursor) e first probes probe_wr)
        else probe_wr_loop mp h k len limit fuel (walk_next mp h w probes) probes first probe_wr
  end.

Definition probe_fuel (mp : ck_ht_map) : nat := S (2 * Z.to_nat (probe_limit mp)).

(** [bounded]: the caller passes no [probe_limit], so the probe stops at the bound
    of the hash and [probe_wr] is always set. *)
Definition ck_ht_map_probe_wr (mp : ck_ht_map) (h k len : Z) (bounded : bool)
    : option probe_wr_result :=
  let limit := if bounded then ck_ht_map_bound_get mp h else CK_HT_TYPE_MAX in
  r ← probe_wr_loop mp h k len limit (probe_fuel mp) (walk_start mp h) 0 None 0;
  Some (if bounded
        then match wr_available r with
             | None => ProbeWr (wr_cursor r) (wr_snapshot r) None (wr_probes r) (wr_probes r)
             | Some _ => r
             end
        else r).

(** The reader's probe: the cursor and its snapshot.  With no concurrent writer
    the counter of deletions does not move and there is nothing to retry. *)
Fixpoint probe_rd_loop (mp : ck_ht_map) (h k len maximum : Z) (fuel : nat) (w : walk)
    (probes : Z) : option (option (Z * ck_ht_entry)) :=
  match fuel with
  | O => None
  | S fuel =>
      if probe_limit mp <=? w_i w then Some None
      else if maximum <? probes then Some None
      else
        let probes := probes + 1 in
        let cursor := walk_cursor w in
        e ← entries mp !! Z.to_nat cursor;
        if key e =? CK_HT_KEY_TOMBSTONE
        then probe_rd_loop mp h k len maximum fuel (walk_next mp h w probes) probes
        else if key e =? CK_HT_KEY_EMPTY then Some (Some (cursor, e))
        else if entry_matches mp h e k len then Some (Some (cursor, e))
        else probe_rd_loop mp h k len maximum fuel (walk_next mp h w probes) probes
  end.

Definition ck_ht_map_probe_rd (mp : ck_ht_map) (h k len : Z) : option (option (Z * ck_ht_entry)) :=
  probe_rd_loop mp h k len (ck_ht_map_bound_get mp h) (probe_fuel mp) (walk_start mp h) 0.

(** The key length a caller passes along with the key of an entry. *)
Definition probe_length (t : ck_ht) (e : ck_ht_entry) : Z :=
  if test (mode t) CK_HT_MODE_BYTESTRING then ck_ht_entry_key_length e else 8.

(** * Iteration and counting *)

Definition ck_ht_count (t : ck_ht) : Z := n_entries (map t).

(** The do-while loop of [ck_ht_next]: the first offset whose slot is in use. *)
Fixpoint next_loop (mp : ck_ht_map) (todo : nat) (offset : Z) : Z :=
  match todo with
  | O => offset
  | S todo =>
      let k := key (default zero_entry (entries mp !! Z.to_nat offset)) in
      if negb (k =? CK_HT_KEY_EMPTY) && negb (k =? CK_HT_KEY_TOMBSTONE) then offset
      else next_loop mp todo (offset + 1)
  end.

(** The iterator is its offset; the entry found, and the next offset. *)
Definition ck_ht_next (t : ck_ht) (offset : Z) : option (ck_ht_entry * Z) :=
  let mp := map t in
  if capacity mp <=? offset then None
  else
    let offset := next_loop mp (Z.to_nat (capacity mp - offset)) offset in
    if capacity mp <=? offset then None
    else e ← entries mp !! Z.to_nat offset; Some (e, offset + 1).

Definition ck_ht_reset_size_spmc (t : ck_ht) (size : Z) : bool * ck_ht :=
  match ck_ht_map_create (m t) (mode t) size with
  | (None, heap1) => (false, set_m t heap1)
  | (Some update, heap1) =>
      (true, set_map (set_m t (ck_ht_map_destroy heap1 (map t) true)) update)
  end.

Definition ck_ht_reset_spmc (t : ck_ht) : bool * ck_ht :=
  ck_ht_reset_size_spmc t (capacity (map t)).

Definition ck_ht_destroy (t : ck_ht) : heap := ck_ht_map_destroy (m t) (map t) false.

(** * Growth *)

(** The two inner loops: the slot and the probe count, or [None] at the limit. *)
Fixpoint grow_probe (update : ck_ht_map) (h : Z) (fuel : nat) (w : walk) (probes : Z)
    : option (option (Z * Z)) :=
  match fuel with
  | O => None
  | S fuel =>
      if probe_limit update <=? w_i w then Some None
      else
        let cursor := walk_cursor w in
        let probes := probes + 1 in
        e ← entries update !! Z.to_nat cursor;
        if key e =? CK_HT_KEY_EMPTY then Some (Some (cursor, probes))
        else grow_probe update h fuel (walk_next update h w probes) probes
  end.

Fixpoint rehash (update : ck_ht_map) (slots : list ck_ht_entry) : option (option ck_ht_map) :=
  match slots with
  | [] => Some (Some update)
  | previous :: slots =>
      if (key previous =? CK_HT_KEY_EMPTY) || (key previous =? CK_HT_KEY_TOMBSTONE)
      then rehash update slots
      else
        let h := hash previous in
        r ← grow_probe update h (probe_fuel update) (walk_start update h) 0;
        match r with
        | None => Some None
        | Some (cursor, probes) =>
            let update := store update cursor previous in
            let update := set_n_entries update (u64 (n_entries update + 1)) in
            rehash (ck_ht_map_bound_set update h probes) slots
        end
  end.

Fixpoint grow_loop (fuel : nat) (t : ck_ht) (cap : Z) : option (bool * ck_ht) :=
  match fuel with
  | O => None
  | S fuel =>
      if cap <=? capacity (map t) then Some (false, t)
      else
        match ck_ht_map_create (m t) (mode t) cap with
        | (None, heap1) => Some (false, set_m t heap1)
        | (Some update, heap1) =>
            r ← rehash update (entries (map t));
            match r with
            | None =>
                grow_loop fuel (set_m t (ck_ht_map_destroy heap1 update false))
                          (u64 (Z.shiftl cap 1))
            | Some update =>
                Some (true, set_map (set_m t (ck_ht_map_destroy heap1 (map t) true)) update)
            end
        end
  end.

(** [capacity <<= 1] reaches 0 after 64 restarts, which ends the loop. *)
Definition ck_ht_grow_spmc (t : ck_ht) (capacity : Z) : option (bool * ck_ht) :=
  grow_loop 66 t capacity.

(** * Garbage collection *)

(** The entry is copied into the tombstone [first] between two increments of the
    counter of deletions, and buried in its old slot. *)
Definition relocate (mp : ck_ht_map) (first : Z) (e : ck_ht_entry) (slot : Z) : ck_ht_map :=
  store_tombstone (bump_deletions (store (bump_deletions mp) first e)) slot.

Fixpoint gc_loop (t : ck_ht) (todo : nat) (i cycles gc_seed : Z) (mp : ck_ht_map)
    (maximum : Z) (bounds : option (list Z)) : option (ck_ht_map * Z * option (list Z)) :=
  match todo with
  | O => Some (mp, maximum, bounds)
  | S todo =>
      entry ← entries mp !! Z.to_nat (Z.land (u64 (i + gc_seed)) (mask mp));
      if (key entry =? CK_HT_KEY_EMPTY) || (key entry =? CK_HT_KEY_TOMBSTONE)
      then gc_loop t todo (i + 1) cycles gc_seed mp maximum bounds
      else
        let h := hash entry in
        r ← ck_ht_map_probe_wr mp h (ck_ht_entry_key entry) (probe_length t entry) true;
        let offset := Z.to_nat (Z.land h (mask mp)) in
        mp ← match wr_available r with
             | None => Some mp
             | Some priority =>
                 slot ← wr_cursor r;
                 e ← entries mp !! Z.to_nat slot;
                 Some (relocate mp priority e slot)
             end;
        if cycles =? 0 then
          let probes_wr := wr_probe_wr r in
          let maximum := if maximum <? probes_wr then probes_wr else maximum in
          let probes_wr := if CK_HT_WORD_MAX <=? probes_wr then CK_HT_WORD_MAX else probes_wr in
          let bounds := match bounds with
                        | None => None
                        | Some b => if default 0 (b !! offset) <? probes_wr
                                    then Some (<[offset := probes_wr]> b) else Some b
                        end in
          gc_loop t todo (i + 1) cycles gc_seed mp maximum bounds
        else
          let cycles := cycles - 1 in
          if cycles =? 0 then Some (mp, maximum, bounds)
          else gc_loop t todo (i + 1) cycles gc_seed mp maximum bounds
  end.

Definition ck_ht_gc (t : ck_ht) (cycles gc_seed : Z) : option (bool * ck_ht) :=
  let mp := map t in
  if n_entries mp =? 0 then
    let mp := set_probe_maximum mp 0 in
    Some (true, set_map t (set_probe_bound mp
      (match probe_bound mp with
       | None => None
       | Some _ => Some (replicate (Z.to_nat (capacity mp)) 0)
       end)))
  else
    let size := if cycles =? 0 then match probe_bound mp with
                                    | Some _ => Some (capacity mp)
                                    | None => None
                                    end else None in
    let maximum := if cycles =? 0 then 0 else probe_maximum mp in
    let '(ok, heap1) := match size with
                        | Some size => malloc malloc_ok (m t) size
                        | None => (true, m t)
                        end in
    if negb ok then Some (false, set_m t heap1)
    else
      let bounds := match size with
                    | Some size => Some (replicate (Z.to_nat size) 0)
                    | None => None
                    end in
      '(mp, maximum, bounds) ←
        gc_loop t (Z.to_nat (capacity mp)) 0 cycles gc_seed mp maximum bounds;
      let mp := if maximum =? probe_maximum mp then mp else set_probe_maximum mp maximum in
      match bounds, size with
      | Some b, Some size =>
          Some (true, set_map (set_m t (free heap1 size false)) (set_probe_bound mp (Some b)))
      | _, _ => Some (true, set_map (set_m t heap1) mp)
      end.

(** * Operations *)

(** The entry argument is passed by address: it is an argument and a result. *)
Definition ck_ht_remove_spmc (t : ck_ht) (h : Z) (entry : ck_ht_entry)
    : option (bool * ck_ht_entry * ck_ht) :=
  let mp := map t in
  r ← ck_ht_map_probe_rd mp h (ck_ht_entry_key entry) (probe_length t entry);
  match r with
  | None => Some (false, entry, t)
  | Some (candidate, snapshot) =>
      if key snapshot =? CK_HT_KEY_EMPTY then Some (false, entry, t)
      else
        let mp := store_tombstone mp candidate in
        Some (true, snapshot, set_map t (set_n_entries mp (u64 (n_entries mp - 1))))
  end.

Definition ck_ht_get_spmc (t : ck_ht) (h : Z) (entry : ck_ht_entry)
    : option (bool * ck_ht_entry) :=
  r ← ck_ht_map_probe_rd (map t) h (ck_ht_entry_key entry) (probe_length t entry);
  match r with
  | None => Some (false, entry)
  | Some (_, snapshot) =>
      if key snapshot =? CK_HT_KEY_EMPTY then Some (false, entry) else Some (true, snapshot)
  end.

(** [Enforce a load factor of 0.5.] *)
Definition enforce_load (t : ck_ht) : option ck_ht :=
  let mp := map t in
  if capacity mp <? u64 (n_entries mp * 2)
  then '(_, t) ← ck_ht_grow_spmc t (u64 (Z.shiftl (capacity mp) 1)); Some t
  else Some t.

(** The part of [ck_ht_set_spmc] after its probing loop. *)
Definition set_found (t : ck_ht) (h : Z) (entry : ck_ht_entry) (r : probe_wr_result)
    : option (bool * ck_ht_entry * ck_ht) :=
  let mp := map t in
  let probes := match wr_available r with Some _ => wr_probe_wr r | None => wr_probes r end in
  let empty := match wr_cursor r with None => true | Some _ => false end in
  candidate ← match wr_cursor r with None => wr_available r | Some c => Some c end;
  c ← entries mp !! Z.to_nat candidate;
  mp ← match wr_available r with
       | Some priority =>
           p ← entries mp !! Z.to_nat priority;
           let mp := if key p =? CK_HT_KEY_TOMBSTONE then bump_deletions mp else mp in
           if negb (key c =? CK_HT_KEY_EMPTY) && negb (candidate =? priority)
           then Some (store_tombstone (bump_deletions (store mp priority entry)) candidate)
           else
             let replace := negb (key c =? CK_HT_KEY_EMPTY) && negb (key c =? CK_HT_KEY_TOMBSTONE) in
             let mp := store mp priority entry in
             Some (if replace then mp else set_n_entries mp (u64 (n_entries mp + 1)))
       | None =>
           let replace := negb (key c =? CK_HT_KEY_EMPTY) && negb (key c =? CK_HT_KEY_TOMBSTONE) in
           let mp := store mp candidate entry in
           Some (if replace then mp else set_n_entries mp (u64 (n_entries mp + 1)))
       end;
  t ← enforce_load (set_map t (ck_ht_map_bound_set mp h probes));
  let entry' := if empty
                then CkHtEntry CK_HT_KEY_EMPTY (value entry) (key_length entry) (hash entry)
                else wr_snapshot r in
  Some (true, entry', t).

Fixpoint set_loop (fuel : nat) (t : ck_ht) (h : Z) (entry : ck_ht_entry)
    : option (bool * ck_ht_entry * ck_ht) :=
  match fuel with
  | O => None
  | S fuel =>
      r ← ck_ht_map_probe_wr (map t) h (ck_ht_entry_key entry) (probe_length t entry) false;
      match wr_available r, wr_cursor r with
      | None, None =>
          '(ok, t) ← ck_ht_grow_spmc t (u64 (Z.shiftl (capacity (map t)) 1));
          if negb ok then Some (false, entry, t) else set_loop fuel t h entry
      | _, _ => set_found t h entry r
      end
  end.

(** A restart follows a successful growth, which at least doubles the capacity. *)
Definition restarts : nat := 64.

Definition ck_ht_set_spmc (t : ck_ht) (h : Z) (entry : ck_ht_entry)
    : option (bool * ck_ht_entry * ck_ht) :=
  set_loop restarts t h entry.

(** The part of [ck_ht_put_spmc] after its probing loop. *)
Definition put_found (t : ck_ht) (h : Z) (entry : ck_ht_entry) (r : probe_wr_result)
    : option (bool * ck_ht) :=
  let mp := map t in
  if match wr_cursor r with
     | Some _ => negb (key (wr_snapshot r) =? CK_HT_KEY_EMPTY)
     | None => false
     end then Some (false, t)
  else
    '(mp, candidate, probes) ←
      match wr_available r with
      | Some priority => Some (bump_deletions mp, priority, wr_probe_wr r)
      | None => c ← wr_cursor r; Some (mp, c, wr_probes r)
      end;
    let mp := ck_ht_map_bound_set mp h probes in
    let mp := store mp candidate entry in
    let mp := set_n_entries mp (u64 (n_entries mp + 1)) in
    t ← enforce_load (set_map t mp);
    Some (true, t).

Fixpoint put_loop (fuel : nat) (t : ck_ht) (h : Z) (entry : ck_ht_entry)
    : option (bool * ck_ht) :=
  match fuel with
  | O => None
  | S fuel =>
      r ← ck_ht_map_probe_wr (map t) h (ck_ht_entry_key entry) (probe_length t entry) false;
      match wr_available r, wr_cursor r with
      | None, None =>
          '(ok, t) ← ck_ht_grow_spmc t (u64 (Z.shiftl (capacity (map t)) 1));
          if negb ok then Some (false, t) else put_loop fuel t h entry
      | _, _ => put_found t h entry r
      end
  end.

Definition ck_ht_put_spmc (t : ck_ht) (h : Z) (entry : ck_ht_entry) : option (bool * ck_ht) :=
  put_loop restarts t h entry.
End ck_ht.
