(* ===== verification/HtInv.v ===== *)
(** The hash table: its invariant, and what the two probes find in a map that
    satisfies it. *)

From S2P Require Export Ht.
Set Warnings "-rewrite-rw,-clear-no-such-hyp".

Definition kind (e : ck_ht_entry) : slot_kind :=
  if key e =? CK_HT_KEY_EMPTY then Vacant
  else if key e =? CK_HT_KEY_TOMBSTONE then Dead else Live.

Lemma ht_kind_vacant e : kind e = Vacant <-> key e = CK_HT_KEY_EMPTY.
Proof.
  unfold kind. destruct (Z.eqb_spec (key e) CK_HT_KEY_EMPTY); [done|].
  split; [|done]. by destruct (key e =? CK_HT_KEY_TOMBSTONE).
Qed.

Lemma kind_bury e : kind (bury e) = Dead.
Proof. done. Qed.

Abbreviation contents mp := (live kind (entries mp)).

Section inv.
Context (shr_undef : Z -> Z -> Z) (byte_at : Z -> Z).

(** The length that goes with each key pointer: the same bytes are always used
    with the same length. *)
Context (len_of : Z -> Z).

(** * Keys *)

Definition bytestring (md : Z) : bool := test md CK_HT_MODE_BYTESTRING.

(** Equality of keys: the same word, or in byte-string mode the same bytes. *)
Definition keq (md k1 k2 : Z) : Prop :=
  k1 = k2 \/ bytestring md = true /\ len_of k1 = len_of k2 /\
             memcmp_eq byte_at k1 k2 (len_of k1) = true.

Definition same (md : Z) (e1 e2 : ck_ht_entry) : Prop := keq md (key e1) (key e2).

(** The hash of a key, as [ck_ht_hash] or [ck_ht_hash_direct] computes it. *)
Definition key_hash (t : ck_ht) (k : Z) : Z :=
  if bytestring (mode t) then h t (bytes_of byte_at k (len_of k)) (seed t)
  else ck_ht_hash_direct t k.

(** A well-formed entry: an ordinary key, its length, and its hash. *)
Definition entry_ok (t : ck_ht) (e : ck_ht_entry) : Prop :=
  kind e = Live /\ hash e = key_hash t (key e) /\
  (bytestring (mode t) = true -> ck_ht_entry_key_length e = len_of (key e)).

Lemma memcmp_eq_spec p q n :
  memcmp_eq byte_at p q n = true <-> bytes_of byte_at p n = bytes_of byte_at q n.
Proof.
  unfold memcmp_eq, bytes_of. generalize (seqZ 0 n) as l. induction l as [|i l IH]; [done|].
  cbn. rewrite andb_true_iff IH Z.eqb_eq. split; [by intros [-> ->]|by intros [= -> ->]].
Qed.

Lemma keq_sym md k1 k2 : keq md k1 k2 -> keq md k2 k1.
Proof.
  intros [->|(Hb & Hl & Hm)]; [by left|right]. split_and!; [done|done|].
  rewrite -Hl memcmp_eq_spec. symmetry. by apply memcmp_eq_spec.
Qed.

Lemma keq_trans md k1 k2 k3 : keq md k1 k2 -> keq md k2 k3 -> keq md k1 k3.
Proof.
  intros [->|(Hb & Hl & Hm)]; [done|]. intros [->|(_ & Hl' & Hm')]; [by right|].
  right. split_and!; [done|congruence|]. rewrite -Hl in Hm'. rewrite !memcmp_eq_spec in Hm, Hm' |- *.
  congruence.
Qed.

Lemma keq_hash t k1 k2 : keq (mode t) k1 k2 -> key_hash t k1 = key_hash t k2.
Proof.
  intros [->|(Hb & Hl & Hm)]; [done|]. unfold key_hash. rewrite Hb.
  apply memcmp_eq_spec in Hm. by rewrite -Hl Hm.
Qed.

(** On well-formed entries the comparison of the probes is equality of keys. *)
Lemma entry_matches_spec t mp e q :
  map_mode mp = mode t -> entry_ok t e -> entry_ok t q ->
  entry_matches byte_at mp (hash q) e (key q) (probe_length t q) = true <-> same (mode t) e q.
Proof.
  intros Hmode (He1 & He2 & He3) (Hq1 & Hq2 & Hq3).
  unfold entry_matches, probe_length, ck_ht_entry_key, same, keq.
  fold (bytestring (map_mode mp)). fold (bytestring (mode t)). rewrite Hmode.
  destruct (Z.eqb_spec (key e) (key q)) as [Heq|Hne]; [by split; [left|]|].
  destruct (bytestring (mode t)) eqn:Hb; [|naive_solver].
  rewrite He3 // Hq3 //. destruct (Z.eqb_spec (len_of (key e)) (len_of (key q))) as [Hl|Hl];
    cbn [negb]; [|naive_solver].
  destruct (Z.eqb_spec (hash e) (hash q)) as [Hh|Hh]; cbn [negb].
  - rewrite Hl. naive_solver.
  - split; [done|]. intros [|(_ & _ & Hm)]; [done|]. exfalso. apply Hh. rewrite He2 Hq2.
    apply keq_hash. right. by split_and!.
Qed.

(** * The walk of a hash *)

Definition geometry (mk st : Z) : ck_ht_map := CkHtMap 0 0 0 0 0 0 mk 0 st None [].

Fixpoint walk_at (mk st h : Z) (p : nat) : walk :=
  match p with
  | O => walk_start (geometry mk st) h
  | S p => walk_next shr_undef (geometry mk st) h (walk_at mk st h p) (Z.of_nat p + 1)
  end.

Definition pos (mk st h : Z) (p : nat) : nat := Z.to_nat (walk_cursor (walk_at mk st h p)).
Definition mpos (mp : ck_ht_map) : Z -> nat -> nat := pos (mask mp) (step mp).

Lemma ht_walk_at_S mp h p :
  walk_next shr_undef mp h (walk_at (mask mp) (step mp) h p) (Z.of_nat p + 1) =
  walk_at (mask mp) (step mp) h (S p).
Proof. done. Qed.

(** Two slots per row. *)
Lemma walk_row mk st h p :
  w_i (walk_at mk st h p) = Z.of_nat p / 2 /\ w_j (walk_at mk st h p) = Z.of_nat p mod 2.
Proof.
  clear byte_at len_of.
  induction p as [|p [Hi Hj]]; [done|]. cbn [walk_at]. unfold walk_next. rewrite Hj.
  change CK_HT_BUCKET_LENGTH with 2.
  destruct (Z.ltb_spec (Z.of_nat p mod 2 + 1) 2); cbn; rewrite ?Hi ?Hj;
    Z.to_euclidean_division_equations; lia.
Qed.

Lemma ht_walk_offset_range k st h p :
  0 <= k -> 0 <= w_offset (walk_at (2 ^ k - 1) st h p) < 2 ^ k.
Proof.
  intros Hk. induction p as [|p IH]; [by apply land_mask_range|].
  cbn [walk_at]. unfold walk_next. destruct (_ <? _); [done|]. by apply land_mask_range.
Qed.

Lemma ht_pos_lt k st h p : 1 <= k -> (pos (2 ^ k - 1) st h p < Z.to_nat (2 ^ k))%nat.
Proof.
  intros Hk. pose proof (ht_walk_offset_range k st h p ltac:(lia)) as Ho.
  unfold pos, walk_cursor. set (o := w_offset _) in *. set (j := w_j _).
  assert (Z.land o (Z.lnot CK_HT_BUCKET_MASK) = o - o mod 2) as ->.
  { change (Z.lnot CK_HT_BUCKET_MASK) with (Z.lnot (Z.ones 1)).
    rewrite -Z.ldiff_land Z.ldiff_ones_r // Z.shiftr_div_pow2 // Z.shiftl_mul_pow2 //.
    change (2 ^ 1) with 2. pose proof (Z.div_mod o 2). lia. }
  assert (Z.land (j + o) CK_HT_BUCKET_MASK = (j + o) mod 2) as -> by (apply (Z.land_ones _ 1); lia).
  assert (2 ^ k = 2 * 2 ^ (k - 1)) as Hc.
  { change 2 with (2 ^ 1) at 2. rewrite -Z.pow_add_r; [lia|lia|]. f_equal. lia. }
  set (c := 2 ^ (k - 1)) in *. clearbody o j c. clear Hk.
  apply Z2Nat.inj_lt; Z.to_euclidean_division_equations; lia.
Qed.

(** * The invariant *)

Definition bound_fn (mp : ck_ht_map) (h : Z) : nat := Z.to_nat (ck_ht_map_bound_get mp h).

Record map_core (t : ck_ht) (mp : ck_ht_map) : Prop := {
  wf_capacity : ∃ k, 1 <= k <= 31 /\ capacity mp = 2 ^ k;
  wf_mask : mask mp = capacity mp - 1;
  wf_length : length (entries mp) = Z.to_nat (capacity mp);
  wf_limit : 0 < probe_limit mp < 2 ^ 32;
  wf_mode : map_mode mp = mode t;
  wf_maximum : 0 <= probe_maximum mp <= 2 * probe_limit mp;
  wf_bounds : match probe_bound mp with
              | Some b => length b = Z.to_nat (capacity mp) /\
                          Forall (λ x, 0 <= x <= 2 * probe_limit mp) b
              | None => True
              end;
  wf_sound : sound kind hash (same (mode t)) (mpos mp) (entries mp) (bound_fn mp);
  wf_entries : ∀ e, e ∈ contents mp -> entry_ok t e;
}.

Record map_wf (t : ck_ht) (mp : ck_ht_map) : Prop := {
  wf_core :> map_core t mp;
  wf_n_entries : n_entries mp = Z.of_nat (length (contents mp));
}.

Lemma ht_capacity_range t mp : map_core t mp -> 2 <= capacity mp <= 2147483648.
Proof.
  intros W. destruct (wf_capacity _ _ W) as (k & Hk & ->).
  pose proof (Z.pow_le_mono_r 2 1 k). pose proof (Z.pow_le_mono_r 2 k 31). lia.
Qed.

Lemma ht_mpos_lookup t mp h p : map_core t mp -> ∃ e, entries mp !! mpos mp h p = Some e.
Proof.
  intros W. apply lookup_lt_is_Some. rewrite (wf_length _ _ W).
  destruct (wf_capacity _ _ W) as (k & Hk & Hc). unfold mpos. rewrite (wf_mask _ _ W) Hc.
  apply ht_pos_lt. lia.
Qed.

Lemma ht_home_lt t mp h :
  map_core t mp -> (Z.to_nat (Z.land h (mask mp)) < Z.to_nat (capacity mp))%nat.
Proof.
  intros W. destruct (wf_capacity _ _ W) as (k & Hk & Hc). rewrite (wf_mask _ _ W) Hc.
  pose proof (land_mask_range h k ltac:(lia)). lia.
Qed.

Lemma ht_bound_get_range t mp h :
  map_core t mp -> 0 <= ck_ht_map_bound_get mp h <= 2 * probe_limit mp.
Proof.
  intros W. pose proof (wf_maximum _ _ W) as Hm. pose proof (wf_bounds _ _ W) as Hb.
  unfold ck_ht_map_bound_get. destruct (probe_bound mp) as [b|]; [|done].
  destruct Hb as [Hlen Hall]. destruct (_ =? _); [done|].
  destruct (b !! _) as [x|] eqn:Hx; simpl; [|lia].
  rewrite Forall_lookup in Hall. by eapply Hall.
Qed.

(** * What the probes find *)

Section probe.
Context (t : ck_ht) (mp : ck_ht_map) (q : ck_ht_entry).
Context (W : map_core t mp) (Hq : entry_ok t q).
Abbreviation hq := (hash q).
Definition found (e : ck_ht_entry) : Prop := same (mode t) e q.

Definition at_walk (s : Z) (p : nat) : Prop :=
  Z.to_nat s = mpos mp hq p /\ path kind (mpos mp) (entries mp) hq p /\
  Z.of_nat p < 2 * probe_limit mp.

Lemma found_hash e : e ∈ contents mp -> found e -> hash e = hq.
Proof.
  intros He Hf. destruct (wf_entries _ _ W e He) as (_ & -> & _). destruct Hq as (_ & -> & _).
  by apply keq_hash.
Qed.

Lemma lookup_matches s e :
  entries mp !! s = Some e -> kind e = Live ->
  entry_matches byte_at mp hq e (key q) (probe_length t q) = true <-> found e.
Proof.
  intros Hs Hk. apply entry_matches_spec; [apply W| |done].
  apply (wf_entries _ _ W), elem_of_live. eauto.
Qed.

(** What the slot under the cursor says, in the order the probes test it. *)
Lemma slot_cases e :
  (kind e = Dead /\ (key e =? CK_HT_KEY_TOMBSTONE) = true) \/
  (kind e = Vacant /\ (key e =? CK_HT_KEY_TOMBSTONE) = false /\ (key e =? CK_HT_KEY_EMPTY) = true) \/
  (kind e = Live /\ (key e =? CK_HT_KEY_TOMBSTONE) = false /\ (key e =? CK_HT_KEY_EMPTY) = false).
Proof.
  unfold kind. destruct (Z.eqb_spec (key e) CK_HT_KEY_EMPTY) as [->|]; [by right; left|].
  destruct (key e =? CK_HT_KEY_TOMBSTONE); [by left|by right; right].
Qed.

Abbreviation missed_to p := (missed kind (mpos mp) found hq (entries mp) p).
Abbreviation none := (absent kind (entries mp) found).

Lemma none_bound p : (bound_fn mp hq <= p)%nat -> missed_to p -> none.
Proof.
  intros Hb Hm. eapply absent_bound; [apply W|by apply found_hash|exact Hb|done].
Qed.

Lemma none_vacant p v :
  missed_to p -> entries mp !! mpos mp hq p = Some v -> kind v = Vacant -> none.
Proof. intros Hm Hv Hk. eapply absent_vacant; [apply W|by apply found_hash|done..]. Qed.

(** The entry found is found within the bound. *)
Lemma found_in_bound p e :
  missed_to p -> entries mp !! mpos mp hq p = Some e -> kind e = Live -> found e ->
  (p < bound_fn mp hq)%nat.
Proof.
  intros Hm He Hk Hf.
  destruct (so_placed _ _ _ _ _ _ (wf_sound _ _ W) _ _ He Hk) as (p' & Hp' & Hs & _).
  assert (hash e = hq) as Hh by (apply found_hash; [apply elem_of_live; eauto|done]).
  rewrite Hh in Hp', Hs.
  destruct (decide (p' < p)%nat) as [Hlt|]; [|lia].
  rewrite -Hs in He. by destruct (Hm p' e).
Qed.

Record wr_ok (r : probe_wr_result) : Prop := {
  wo_cursor s : wr_cursor r = Some s ->
    ∃ p, at_walk s p /\ entries mp !! Z.to_nat s = Some (wr_snapshot r) /\
         wr_probes r = Z.of_nat p + 1 /\
         (is_Some (wr_available r) -> wr_probe_wr r <= Z.of_nat p) /\
         (kind (wr_snapshot r) = Vacant /\ none \/
          kind (wr_snapshot r) = Live /\ found (wr_snapshot r) /\ (p < bound_fn mp hq)%nat);
  wo_none : wr_cursor r = None -> none;
  wo_available s : wr_available r = Some s ->
    ∃ n v, at_walk s n /\ entries mp !! Z.to_nat s = Some v /\ kind v = Dead /\
           wr_probe_wr r = Z.of_nat n + 1;
}.

(** The state of the loop before its [p]-th slot. *)
Record wr_inv (p : nat) (first : option Z) (pw : Z) : Prop := {
  wi_path : path kind (mpos mp) (entries mp) hq p;
  wi_missed : missed_to p;
  wi_first s : first = Some s ->
    ∃ n v, at_walk s n /\ (n < p)%nat /\ entries mp !! Z.to_nat s = Some v /\ kind v = Dead /\
           pw = Z.of_nat n + 1;
}.

(** Past the limit every row is left at once. *)
Lemma wr_break limit fuel w probes first pw :
  limit < probes -> probe_limit mp + 1 <= Z.of_nat fuel + w_i w ->
  0 < Z.of_nat fuel ->
  ∃ n, probe_wr_loop shr_undef byte_at mp hq (key q) (probe_length t q) limit fuel w probes first pw =
       Some (ProbeWr None zero_entry first n pw).
Proof.
  revert w probes. induction fuel as [|fuel IH]; intros w probes Hl Hf Hpos; [lia|].
  cbn [probe_wr_loop]. destruct (Z.leb_spec (probe_limit mp) (w_i w)) as [Hle|Hgt]; [by eexists|].
  rewrite (proj2 (Z.ltb_lt _ _)) //. apply IH; [lia| |]; cbn; lia.
Qed.

Lemma wr_done p first pw n :
  wr_inv p first pw -> none -> wr_ok (ProbeWr None zero_entry first n pw).
Proof.
  intros I Hn. split; cbn; [done|done|]. intros s Hs.
  destruct (wi_first _ _ _ I s Hs) as (n' & v & H1 & _ & H2 & H3 & H4). by exists n', v.
Qed.

Lemma wr_stop p first pw e :
  wr_inv p first pw -> Z.of_nat p < 2 * probe_limit mp ->
  entries mp !! mpos mp hq p = Some e ->
  (kind e = Vacant \/ kind e = Live /\ found e) ->
  wr_ok (ProbeWr (Some (walk_cursor (walk_at (mask mp) (step mp) hq p))) e first (Z.of_nat p + 1) pw).
Proof.
  intros I Hp He Hk. split; cbn; [|done|].
  - intros s [= <-]. exists p. split; [split; [done|split; [apply I|done]]|].
    split_and!; [done|done| |].
    + intros [s Hs]. destruct (wi_first _ _ _ I s Hs) as (n & v & _ & Hn & _ & _ & ->). lia.
    + destruct Hk as [Hk|[Hk Hf]].
      * left. split; [done|]. eapply none_vacant; [apply I|done..].
      * right. split_and!; [done..|]. eapply found_in_bound; [apply I|done..].
  - intros s Hs. destruct (wi_first _ _ _ I s Hs) as (n' & v & H1 & _ & H2 & H3 & H4). by exists n', v.
Qed.

Lemma wr_inv_next p first pw first' pw' e :
  wr_inv p first pw -> Z.of_nat p < 2 * probe_limit mp ->
  entries mp !! mpos mp hq p = Some e -> kind e <> Vacant -> (kind e = Live -> ¬ found e) ->
  (first', pw') = (first, pw) \/
  (kind e = Dead /\ first' = Some (walk_cursor (walk_at (mask mp) (step mp) hq p)) /\
   pw' = Z.of_nat p + 1) ->
  wr_inv (S p) first' pw'.
Proof.
  intros I Hp He Hk Hf Hpr. split.
  - apply path_S; [apply I|]. by exists e.
  - eapply missed_S; [apply I|done|done].
  - intros s Hs. destruct Hpr as [[= -> ->]|(Hd & -> & ->)].
    + destruct (wi_first _ _ _ I s Hs) as (n' & v & H1 & H5 & H2 & H3 & H4).
      exists n', v. split_and!; [done|lia|done..].
    + injection Hs as <-. exists p, e. split; [split; [done|split; [apply I|done]]|].
      split_and!; [lia|done..].
Qed.

Lemma probe_wr_loop_ok limit fuel p first pw :
  wr_inv p first pw -> Z.of_nat (bound_fn mp hq) <= limit -> Z.of_nat p <= 2 * probe_limit mp ->
  2 * probe_limit mp + 1 <= Z.of_nat (fuel + p) ->
  ∃ r, probe_wr_loop shr_undef byte_at mp hq (key q) (probe_length t q) limit fuel
         (walk_at (mask mp) (step mp) hq p) (Z.of_nat p) first pw = Some r /\ wr_ok r.
Proof.
  intros I Hlim. revert p first pw I. induction fuel as [|fuel IH]; intros p first pw I Hp Hf; [lia|].
  pose proof (walk_row (mask mp) (step mp) hq p) as [Hi _].
  pose proof (ht_bound_get_range t mp hq W) as Hb.
  cbn [probe_wr_loop]. destruct (Z.leb_spec (probe_limit mp) (w_i (walk_at (mask mp) (step mp) hq p)))
    as [Hle|Hgt].
  { eexists. split; [done|]. eapply wr_done; [done|]. eapply none_bound; [|apply I].
    unfold bound_fn. rewrite Hi in Hle. Z.to_euclidean_division_equations; lia. }
  assert (Z.of_nat p < 2 * probe_limit mp) as Hp2
    by (rewrite Hi in Hgt; Z.to_euclidean_division_equations; lia).
  destruct (Z.ltb_spec limit (Z.of_nat p)) as [Hlt|Hge].
  { destruct (wr_break limit fuel (next_row shr_undef mp hq (walk_at (mask mp) (step mp) hq p)
      (Z.of_nat p + 1)) (Z.of_nat p + 1) first pw) as [n Hn]; [lia| | |].
    - cbn. rewrite Hi. Z.to_euclidean_division_equations; lia.
    - lia.
    - rewrite Hn. eexists. split; [done|]. eapply wr_done; [done|].
      eapply none_bound; [|apply I]. lia. }
  destruct (ht_mpos_lookup t mp hq p W) as [e He].
  change (Z.to_nat (walk_cursor (walk_at (mask mp) (step mp) hq p))) with (mpos mp hq p).
  rewrite He /=. rewrite ht_walk_at_S.
  assert (∀ f' w', wr_inv (S p) f' w' ->
    ∃ r, probe_wr_loop shr_undef byte_at mp hq (key q) (probe_length t q) limit fuel
         (walk_at (mask mp) (step mp) hq (S p)) (Z.of_nat p + 1) f' w' = Some r /\ wr_ok r) as Hcont.
  { intros f' w' I'. replace (Z.of_nat p + 1) with (Z.of_nat (S p)) by lia. apply IH; [done|lia|lia]. }
  destruct (slot_cases e) as [[Hk Ht]|[(Hk & -> & Hv)|(Hk & -> & ->)]].
  - rewrite Ht. destruct first as [s|]; apply Hcont.
    + eapply wr_inv_next; [done..|congruence|congruence|by left].
    + eapply wr_inv_next; [done..|congruence|congruence|by right].
  - rewrite Hv. eexists. split; [done|]. apply wr_stop; [done..|by left].
  - destruct (entry_matches byte_at mp hq e (key q) (probe_length t q)) eqn:Hm.
    + eexists. split; [done|]. apply wr_stop; [done..|]. right. split; [done|].
      by eapply lookup_matches.
    + apply Hcont. eapply wr_inv_next; [done..|congruence| |by left]. intros _ Hf'.
      eapply lookup_matches in Hf'; [|done..]. congruence.
Qed.

Lemma wr_inv_0 : wr_inv 0 None 0.
Proof. split; [intros n Hn; lia|apply missed_0|done]. Qed.

(** The writer's probe. *)
Lemma probe_wr_ok (bounded : bool) :
  ∃ r, ck_ht_map_probe_wr shr_undef byte_at mp hq (key q) (probe_length t q) bounded = Some r /\
       wr_ok r /\
       (bounded = true -> wr_available r = None -> wr_probe_wr r = wr_probes r).
Proof.
  pose proof (ht_bound_get_range t mp hq W) as Hb. pose proof (wf_limit _ _ W) as Hl.
  unfold ck_ht_map_probe_wr.
  change (walk_start mp hq) with (walk_at (mask mp) (step mp) hq 0). change 0 with (Z.of_nat 0) at 1.
  destruct (probe_wr_loop_ok (if bounded then ck_ht_map_bound_get mp hq else CK_HT_TYPE_MAX)
    (probe_fuel mp) 0 None 0 wr_inv_0) as (r & Hr & P).
  - unfold bound_fn, CK_HT_TYPE_MAX. destruct bounded; lia.
  - lia.
  - unfold probe_fuel. lia.
  - rewrite Hr /=. destruct bounded; [|by exists r].
    destruct (wr_available r) as [s|] eqn:Ha.
    + exists r. split_and!; [done|done|]. by rewrite Ha.
    + eexists. split; [done|]. split; [|done]. split; cbn.
      * intros s Hs. destruct (wo_cursor _ P s Hs) as (p & H1 & H2 & H3 & _ & H5).
        exists p. split_and!; [done..|by intros [? ?]|done].
      * apply P.
      * done.
Qed.

(** The reader's probe. *)
Definition rd_ok (r : option (Z * ck_ht_entry)) : Prop :=
  match r with
  | None => none
  | Some (s, e) => entries mp !! Z.to_nat s = Some e /\
      (kind e = Vacant /\ none \/ kind e = Live /\ found e)
  end.

Lemma probe_rd_loop_ok fuel p :
  path kind (mpos mp) (entries mp) hq p -> missed_to p -> Z.of_nat p <= 2 * probe_limit mp ->
  2 * probe_limit mp + 1 <= Z.of_nat (fuel + p) ->
  ∃ r, probe_rd_loop shr_undef byte_at mp hq (key q) (probe_length t q) (ck_ht_map_bound_get mp hq)
         fuel (walk_at (mask mp) (step mp) hq p) (Z.of_nat p) = Some r /\ rd_ok r.
Proof.
  revert p. induction fuel as [|fuel IH]; intros p Hpath Hm Hp Hf; [lia|].
  pose proof (walk_row (mask mp) (step mp) hq p) as [Hi _].
  pose proof (ht_bound_get_range t mp hq W) as Hb.
  cbn [probe_rd_loop]. destruct (Z.leb_spec (probe_limit mp) (w_i (walk_at (mask mp) (step mp) hq p)))
    as [Hle|Hgt].
  { eexists. split; [done|]. eapply none_bound; [|done].
    unfold bound_fn. rewrite Hi in Hle. Z.to_euclidean_division_equations; lia. }
  assert (Z.of_nat p < 2 * probe_limit mp) as Hp2
    by (rewrite Hi in Hgt; Z.to_euclidean_division_equations; lia).
  destruct (Z.ltb_spec (ck_ht_map_bound_get mp hq) (Z.of_nat p)) as [Hlt|Hge].
  { eexists. split; [done|]. eapply none_bound; [|done]. unfold bound_fn. lia. }
  destruct (ht_mpos_lookup t mp hq p W) as [e He].
  change (Z.to_nat (walk_cursor (walk_at (mask mp) (step mp) hq p))) with (mpos mp hq p).
  rewrite He /=. rewrite ht_walk_at_S.
  assert (kind e <> Vacant -> (kind e = Live -> ¬ found e) ->
    ∃ r, probe_rd_loop shr_undef byte_at mp hq (key q) (probe_length t q) (ck_ht_map_bound_get mp hq)
         fuel (walk_at (mask mp) (step mp) hq (S p)) (Z.of_nat p + 1) = Some r /\ rd_ok r) as Hcont.
  { intros Hk Hnf. replace (Z.of_nat p + 1) with (Z.of_nat (S p)) by lia.
    apply IH; [|by eapply missed_S|lia|lia]. apply path_S; [done|]. by exists e. }
  destruct (slot_cases e) as [[Hk Ht]|[(Hk & -> & Hv)|(Hk & -> & ->)]].
  - rewrite Ht. apply Hcont; congruence.
  - rewrite Hv. eexists. split; [done|]. split; [done|left]. split; [done|]. by eapply none_vacant.
  - destruct (entry_matches byte_at mp hq e (key q) (probe_length t q)) eqn:Hmt.
    + eexists. split; [done|]. split; [done|right]. split; [done|]. by eapply lookup_matches.
    + apply Hcont; [congruence|]. intros _ Hf'. eapply lookup_matches in Hf'; [|done..]. congruence.
Qed.

Lemma probe_rd_ok :
  ∃ r, ck_ht_map_probe_rd shr_undef byte_at mp hq (key q) (probe_length t q) = Some r /\ rd_ok r.
Proof.
  pose proof (wf_limit _ _ W) as Hl. unfold ck_ht_map_probe_rd.
  change (walk_start mp hq) with (walk_at (mask mp) (step mp) hq 0). change 0 with (Z.of_nat 0) at 1.
  apply probe_rd_loop_ok; [intros n Hn; lia|apply missed_0|lia|]. unfold probe_fuel. lia.
Qed.
End probe.
End inv.

(** The hash table: elementary changes, creation and growth. *)

Lemma alter_insert_lookup {A} (f : A -> A) (l : list A) i x :
  l !! i = Some x -> alter f i l = <[i := f x]> l.
Proof.
  revert i. induction l as [|y l IH]; intros [|i] Hi; simplify_eq/=; [done|]. by rewrite IH.
Qed.

(** Everything of a map but its entries and counters. *)
Definition same_shape (mp mp' : ck_ht_map) : Prop :=
  capacity mp' = capacity mp /\ mask mp' = mask mp /\ step mp' = step mp /\
  probe_limit mp' = probe_limit mp /\ map_mode mp' = map_mode mp /\
  probe_maximum mp' = probe_maximum mp /\ probe_bound mp' = probe_bound mp /\ size mp' = size mp.

Lemma same_shape_refl mp : same_shape mp mp.
Proof. done. Qed.

Lemma ht_same_shape_trans mp1 mp2 mp3 : same_shape mp1 mp2 -> same_shape mp2 mp3 -> same_shape mp1 mp3.
Proof.
  intros (? & ? & ? & ? & ? & ? & ? & ?) (? & ? & ? & ? & ? & ? & ? & ?). split_and!; congruence.
Qed.

Section maps.
Context (malloc_ok : heap -> Z -> bool) (shr_undef : Z -> Z -> Z).
Context (byte_at : Z -> Z) (len_of : Z -> Z).
Implicit Types (t : ck_ht) (mp : ck_ht_map).

Abbreviation core := (map_core shr_undef byte_at len_of).
Abbreviation wf := (map_wf shr_undef byte_at len_of).
Abbreviation mpos := (mpos shr_undef).
Abbreviation mpath mp := (path kind (mpos mp) (entries mp)).
Abbreviation eok := (entry_ok byte_at len_of).
Abbreviation sm t := (same byte_at len_of (mode t)).
Abbreviation snd_ t mp := (sound kind hash (sm t) (mpos mp)).

Lemma same_sym t e1 e2 : sm t e1 e2 -> sm t e2 e1.
Proof. apply keq_sym. Qed.
Lemma same_trans t e1 e2 e3 : sm t e1 e2 -> sm t e2 e3 -> sm t e1 e3.
Proof. apply keq_trans. Qed.

(** * Changing entries *)

Lemma core_change t mp mp' :
  core t mp -> same_shape mp mp' -> length (entries mp') = length (entries mp) ->
  snd_ t mp (entries mp') (bound_fn mp) -> (∀ e, e ∈ contents mp' -> eok t e) -> core t mp'.
Proof.
  destruct mp, mp'. intros C (E1 & E2 & E3 & E4 & E5 & E6 & E7 & E8) Hl Hs Ho. cbn in *. subst.
  split; [apply C|apply C| |apply C|apply C|apply C|apply C|exact Hs|exact Ho].
  cbn. rewrite Hl. apply C.
Qed.

(** ** Probe bounds *)

Lemma ht_bound_set_fields mp h n :
  let mp' := ck_ht_map_bound_set mp h n in
  entries mp' = entries mp /\ capacity mp' = capacity mp /\ mask mp' = mask mp /\
  step mp' = step mp /\ probe_limit mp' = probe_limit mp /\ n_entries mp' = n_entries mp /\
  map_mode mp' = map_mode mp /\ size mp' = size mp.
Proof.
  unfold ck_ht_map_bound_set. cbn.
  destruct (probe_maximum mp <? n), (probe_bound _); cbn;
    try destruct (default _ _ <? _); by split_and!.
Qed.

Lemma ht_bound_set_maximum mp h n :
  probe_maximum (ck_ht_map_bound_set mp h n) = Z.max (probe_maximum mp) n.
Proof.
  unfold ck_ht_map_bound_set.
  destruct (Z.ltb_spec (probe_maximum mp) n), (probe_bound _); cbn;
    try destruct (default _ _ <? _); cbn; lia.
Qed.

Lemma ht_bound_set_bounds mp h n :
  probe_bound (ck_ht_map_bound_set mp h n) =
  match probe_bound mp with
  | None => None
  | Some b => Some (if default 0 (b !! Z.to_nat (Z.land h (mask mp))) <? n
                    then <[Z.to_nat (Z.land h (mask mp)) := Z.min n CK_HT_WORD_MAX]> b else b)
  end.
Proof.
  assert ((if CK_HT_WORD_MAX <=? n then CK_HT_WORD_MAX else n) = Z.min n CK_HT_WORD_MAX) as Hmin.
  { destruct (Z.leb_spec CK_HT_WORD_MAX n); lia. }
  unfold ck_ht_map_bound_set. rewrite Hmin.
  destruct (probe_maximum mp <? n); cbn; destruct (probe_bound mp) eqn:Hb; cbn; try done;
    destruct (default _ _ <? _); cbn; by rewrite ?Hb.
Qed.

Lemma bound_set_shape mp mp' h n :
  same_shape mp mp' ->
  same_shape (ck_ht_map_bound_set mp h n) (ck_ht_map_bound_set mp' h n).
Proof.
  intros (E1 & E2 & E3 & E4 & E5 & E6 & E7 & E8).
  pose proof (ht_bound_set_fields mp h n) as (_ & F1 & F2 & F3 & F4 & _ & F5 & F6).
  pose proof (ht_bound_set_fields mp' h n) as (_ & G1 & G2 & G3 & G4 & _ & G5 & G6).
  split_and!; [congruence..| | |congruence].
  - rewrite !ht_bound_set_maximum. congruence.
  - rewrite !ht_bound_set_bounds. by rewrite E7 E2.
Qed.

Lemma ht_bound_set_ok t mp h n :
  core t mp -> 0 <= n <= 2 * probe_limit mp ->
  n <= ck_ht_map_bound_get (ck_ht_map_bound_set mp h n) h /\
  (∀ h', ck_ht_map_bound_get mp h' <= ck_ht_map_bound_get (ck_ht_map_bound_set mp h n) h').
Proof.
  intros C Hn. pose proof (wf_maximum _ _ _ _ _ C) as Hm. pose proof (wf_limit _ _ _ _ _ C) as Hl.
  pose proof (wf_bounds _ _ _ _ _ C) as Hb. pose proof (ht_home_lt _ _ _ t mp h C) as Hlt.
  pose proof (ht_bound_set_fields mp h n) as (_ & _ & Hmask & _).
  unfold ck_ht_map_bound_get. rewrite Hmask ht_bound_set_bounds ht_bound_set_maximum.
  set (i := Z.to_nat (Z.land h (mask mp))) in *.
  destruct (probe_bound mp) as [b|]; [|split; [lia|intros; lia]]. destruct Hb as [Hlen Hall].
  rewrite -Hlen in Hlt.
  pose proof (default_range b (2 * probe_limit mp) i ltac:(lia) Hall) as Hi.
  split.
  - destruct (Z.ltb_spec (default 0 (b !! i)) n) as [Hx|Hx].
    + rewrite list_lookup_insert_eq //=. unfold CK_HT_WORD_MAX. zcase.
    + unfold CK_HT_WORD_MAX. zcase.
  - intros h'. set (j := Z.to_nat (Z.land h' (mask mp))).
    destruct (Z.ltb_spec (default 0 (b !! i)) n) as [Hx|Hx].
    + destruct (decide (i = j)) as [<-|Hne].
      * rewrite list_lookup_insert_eq //=. unfold CK_HT_WORD_MAX. repeat zcase.
      * rewrite list_lookup_insert_ne //. zcase.
    + zcase.
Qed.

Lemma ht_core_bound_set t mp h n :
  core t mp -> 0 <= n <= 2 * probe_limit mp -> core t (ck_ht_map_bound_set mp h n).
Proof.
  intros C Hn. destruct (ht_bound_set_ok t mp h n C Hn) as [_ Hmono].
  pose proof (ht_bound_set_fields mp h n) as (He & Hc & Hk & Hs & Hp & _ & Hmd & _).
  pose proof (wf_maximum _ _ _ _ _ C) as Hm. pose proof (wf_limit _ _ _ _ _ C) as Hl.
  split; rewrite ?He ?Hc ?Hk ?Hp ?Hmd; try apply C.
  - rewrite ht_bound_set_maximum. lia.
  - rewrite ht_bound_set_bounds. pose proof (wf_bounds _ _ _ _ _ C) as Hb.
    destruct (probe_bound mp) as [b|]; [|done]. destruct Hb as [Hlen Hall].
    destruct (_ <? _); [|done]. rewrite length_insert. split; [done|].
    apply Forall_insert; [done|]. unfold CK_HT_WORD_MAX. lia.
  - unfold HtInv.mpos. rewrite Hk Hs. eapply sound_mono; [|apply C].
    intros h'. unfold bound_fn. specialize (Hmono h'). lia.
Qed.

(** Raising the bound of an entry makes room for it at position [q]. *)
Lemma ht_bound_set_target t mp s e q :
  core t mp -> s = mpos mp (hash e) q -> mpath mp (hash e) q -> Z.of_nat q < 2 * probe_limit mp ->
  target kind hash (mpos mp) (entries mp)
    (bound_fn (ck_ht_map_bound_set mp (hash e) (Z.of_nat q + 1))) s e q.
Proof.
  intros C Hs Hp Hq.
  destruct (ht_bound_set_ok t mp (hash e) (Z.of_nat q + 1) C ltac:(lia)) as [Hb _].
  split_and!; [done..|]. unfold bound_fn. lia.
Qed.

(** A change of the entries [l] into [l'], done before the bound is raised. *)
Lemma core_finish t mp mp' h n l' :
  core t mp -> 0 <= n <= 2 * probe_limit mp -> same_shape mp mp' -> entries mp' = l' ->
  length l' = length (entries mp) ->
  snd_ t mp l' (bound_fn (ck_ht_map_bound_set mp h n)) ->
  (∀ e, e ∈ live kind l' -> eok t e) -> core t (ck_ht_map_bound_set mp' h n).
Proof.
  intros C Hn Hsh Hl Hlen Hs Ho.
  pose proof (ht_bound_set_fields mp' h n) as (He' & _).
  pose proof (ht_bound_set_fields mp h n) as (He & _ & Hk & Hst & _).
  eapply (core_change t (ck_ht_map_bound_set mp h n)).
  - by apply ht_core_bound_set.
  - by apply bound_set_shape.
  - by rewrite He' He Hl.
  - rewrite He' Hl. unfold HtInv.mpos. by rewrite Hk Hst.
  - by rewrite He' Hl.
Qed.

(** * Creation *)

Definition ht_rounded (e : Z) : Z := Z.max 2 (ck_internal_power_2 e).

Lemma ht_rounded_pow2 e : ∃ k, 1 <= k <= 31 /\ ht_rounded e = 2 ^ k.
Proof.
  unfold ht_rounded. destruct (power_2_cases e) as [->|(k & Hk & ->)]; [by exists 1|].
  destruct (Z.le_gt_cases 1 k) as [H|H].
  - exists k. split; [lia|]. pose proof (Z.pow_le_mono_r 2 1 k). lia.
  - exists 1. split; [lia|]. pose proof (Z.pow_le_mono_r 2 k 1). lia.
Qed.

Lemma ht_rounded_id k : 1 <= k <= 31 -> ht_rounded (2 ^ k) = 2 ^ k.
Proof.
  intros Hk. pose proof (Z.pow_le_mono_r 2 1 k). pose proof (Z.pow_le_mono_r 2 k 31).
  unfold ht_rounded. rewrite power_2_spec; [lia|]. rewrite Z.log2_up_pow2; lia.
Qed.

Lemma ht_live_replicate n : live kind (replicate n zero_entry) = [].
Proof. by induction n. Qed.

Lemma ht_create_ok t h0 e mp h1 :
  ck_ht_map_create malloc_ok h0 (mode t) e = (Some mp, h1) ->
  wf t mp /\ contents mp = [] /\ capacity mp = ht_rounded e /\
  outstanding h1 = size mp + outstanding h0 /\ 32 * capacity mp <= size mp /\
  malloc_ok h0 (size mp) = true.
Proof.
  unfold ck_ht_map_create.
  set (n := if _ <? CK_HT_BUCKET_LENGTH then _ else _).
  assert (n = ht_rounded e) as Hn.
  { subst n. unfold ht_rounded. change CK_HT_BUCKET_LENGTH with 2.
    destruct (Z.ltb_spec (ck_internal_power_2 e) 2); lia. }
  destruct (ht_rounded_pow2 e) as (k & Hk & Hkr). rewrite Hkr in Hn.
  assert (2 <= 2 ^ k <= 2147483648) as Hr.
  { pose proof (Z.pow_le_mono_r 2 1 k). pose proof (Z.pow_le_mono_r 2 k 31). lia. }
  clearbody n. subst n. set (sz := u64 (u64 _ + _)).
  assert (32 * 2 ^ k <= sz) as Hsz.
  { subst sz. unfold sizeof_ck_ht_map, sizeof_ck_ht_entry, CK_MD_CACHELINE.
    destruct (test _ _); ulia. }
  unfold malloc. destruct (malloc_ok h0 sz) eqn:Hok; simpl; [|done]. intros [= <- <-].
  assert (0 <= Z.shiftr (2 ^ k) 3 < 2 ^ 31) as Hsh.
  { rewrite Z.shiftr_div_pow2 //. Z.to_euclidean_division_equations; lia. }
  assert (ck_internal_max_64 (Z.shiftr (2 ^ k) 3) CK_HT_PROBE_DEFAULT =
          Z.max (Z.shiftr (2 ^ k) 3) 64) as Hlim.
  { apply ck_internal_max_64_spec; [|done]. lia. }
  change (CK_HT_BUCKET_SHIFT + 2) with 3. rewrite Hlim.
  split_and!; [|apply ht_live_replicate|done..].
  split; [split|exact (f_equal (λ l, Z.of_nat (length l)) (eq_sym (ht_live_replicate _)))];
    cbn [capacity mask entries probe_limit map_mode probe_maximum probe_bound].
  - eauto.
  - done.
  - by rewrite length_replicate.
  - lia.
  - done.
  - lia.
  - destruct (test _ _); [|done]. rewrite length_replicate. split; [done|].
    apply Forall_replicate. lia.
  - apply sound_empty, ht_live_replicate.
  - intros x Hx. rewrite ht_live_replicate in Hx. by apply elem_of_nil in Hx.
Qed.

Lemma ht_create_fail h0 md e h1 :
  ck_ht_map_create malloc_ok h0 md e = (None, h1) ->
  outstanding h1 = outstanding h0 /\ ∃ sz, h1 = Malloc sz false :: h0.
Proof.
  unfold ck_ht_map_create, malloc. destruct (malloc_ok _ _); simpl; [done|].
  intros [= <-]. split; [done|by eexists].
Qed.
End maps.
