(* ===== verification/HtProofs.v ===== *)
(** The hash table: growth, and what storing an entry where the probe said does. *)

From S2P Require Export HtInv.
Set Warnings "-rewrite-rw,-clear-no-such-hyp".

(** The callback, the seed and the mode never change. *)
Definition ht_config (t t' : ck_ht) : Prop := mode t' = mode t /\ seed t' = seed t /\ h t' = h t.

Lemma ht_config_trans t1 t2 t3 : ht_config t1 t2 -> ht_config t2 t3 -> ht_config t1 t3.
Proof. intros (? & ? & ?) (? & ? & ?). split_and!; congruence. Qed.

Section proofs.
Context (malloc_ok : heap -> Z -> bool) (shr_undef : Z -> Z -> Z).
Context (byte_at : Z -> Z) (len_of : Z -> Z).
Implicit Types (t : ck_ht) (mp : ck_ht_map) (e q : ck_ht_entry).

Abbreviation core := (map_core shr_undef byte_at len_of).
Abbreviation wf := (map_wf shr_undef byte_at len_of).
Abbreviation mpos := (mpos shr_undef).
Abbreviation mpath mp := (path kind (mpos mp) (entries mp)).
Abbreviation eok := (entry_ok byte_at len_of).
Abbreviation sm t := (same byte_at len_of (mode t)).
Abbreviation snd_ t mp := (sound kind hash (sm t) (mpos mp)).
Abbreviation found := (found byte_at len_of).
Abbreviation wr_ok := (wr_ok shr_undef byte_at len_of).

(** The invariant of the whole table. *)
Record ht_wf t : Prop := {
  ht_wf_map : wf t (map t);
  ht_wf_heap : outstanding (m t) = size (map t);
  ht_wf_size : 32 * capacity (map t) <= size (map t);
  ht_wf_alloc : ∃ h, malloc_ok h (size (map t)) = true;
}.

Lemma ht_config_eok t t' e : ht_config t t' -> eok t' e <-> eok t e.
Proof. destruct t, t'. intros (H1 & H2 & H3). cbn in *. by subst. Qed.

Lemma ht_config_wf t t' mp : ht_config t t' -> wf t mp -> wf t' mp.
Proof.
  destruct t, t'. intros (H1 & H2 & H3) [C N]. cbn in *. subst. split; [|done]. split; apply C.
Qed.

Lemma ht_wf_set_m t h1 : ht_wf t -> outstanding h1 = outstanding (m t) -> ht_wf (set_m t h1).
Proof.
  intros [W H1 H2 H3] Hh. split; cbn; [|congruence|done|done]. by eapply ht_config_wf; [|exact W].
Qed.

Lemma ht_wf_set_map t mp :
  ht_wf t -> wf t mp -> size mp = size (map t) -> capacity mp = capacity (map t) ->
  ht_wf (set_map t mp).
Proof.
  intros W Wm Hs Hc. split; cbn; [by eapply ht_config_wf; [|exact Wm]|rewrite Hs; apply W| |].
  - rewrite Hs Hc. apply W.
  - rewrite Hs. apply W.
Qed.

(** The state after an operation: well formed, same callbacks, given contents. *)
Definition ht_post t t' (l : list ck_ht_entry) : Prop :=
  ht_wf t' /\ ht_config t t' /\ contents (map t') ≡ₚ l.

Lemma ht_post_refl t : ht_wf t -> ht_post t t (contents (map t)).
Proof. intros W. by split_and!. Qed.

(** No single allocation of 64 GiB or more succeeds. *)
Definition ht_malloc_limited : Prop := ∀ h sz, 2 ^ 36 <= sz -> malloc_ok h sz = false.

Lemma length_contents t mp : core t mp -> Z.of_nat (length (contents mp)) <= capacity mp.
Proof.
  intros C. pose proof (live_le_length kind (entries mp)) as H. rewrite (wf_length _ _ _ _ _ C) in H.
  pose proof (ht_capacity_range _ _ _ _ _ C). lia.
Qed.

(** * Changing the number of entries *)

Lemma wf_of_core t mp n :
  core t mp -> n = Z.of_nat (length (contents mp)) -> wf t (set_n_entries mp n).
Proof.
  intros C ->. split; [|done]. eapply core_change; [exact C|by split_and!|done|apply C|apply C].
Qed.

(** * Growth *)

Lemma ht_grow_probe_ok t mp hh fuel p :
  core t mp -> mpath mp hh p -> Z.of_nat p <= 2 * probe_limit mp ->
  2 * probe_limit mp + 1 <= Z.of_nat (fuel + p) ->
  ∃ r, grow_probe shr_undef mp hh fuel (walk_at shr_undef (mask mp) (step mp) hh p) (Z.of_nat p) = Some r /\
  match r with
  | None => True
  | Some (c, n) => ∃ i v, Z.to_nat c = mpos mp hh i /\ mpath mp hh i /\
                          entries mp !! Z.to_nat c = Some v /\ kind v = Vacant /\
                          n = Z.of_nat i + 1 /\ Z.of_nat i < 2 * probe_limit mp
  end.
Proof.
  intros C. revert p. induction fuel as [|fuel IH]; intros p Hp Hle Hf; [lia|].
  pose proof (walk_row shr_undef (mask mp) (step mp) hh p) as [Hi _].
  cbn [grow_probe].
  destruct (Z.leb_spec (probe_limit mp) (w_i (walk_at shr_undef (mask mp) (step mp) hh p)))
    as [Hge|Hlt]; [by eexists|].
  assert (Z.of_nat p < 2 * probe_limit mp) as Hp2
    by (rewrite Hi in Hlt; Z.to_euclidean_division_equations; lia).
  destruct (ht_mpos_lookup _ _ _ t mp hh p C) as [v Hv].
  change (Z.to_nat (walk_cursor (walk_at shr_undef (mask mp) (step mp) hh p))) with (mpos mp hh p).
  rewrite Hv /=. destruct (Z.eqb_spec (key v) CK_HT_KEY_EMPTY) as [Hk|Hk].
  - eexists. split; [done|]. exists p, v. split_and!; [done..| |done|lia]. by apply ht_kind_vacant.
  - rewrite ht_walk_at_S. replace (Z.of_nat p + 1) with (Z.of_nat (S p)) by lia.
    apply IH; [|lia|lia]. apply path_S; [done|]. exists v. by rewrite ht_kind_vacant.
Qed.

(** One entry copied into the new map. *)
Lemma ht_copy_ok t mp c e i v :
  wf t mp -> eok t e -> Z.to_nat c = mpos mp (hash e) i -> mpath mp (hash e) i ->
  Z.of_nat i < 2 * probe_limit mp -> entries mp !! Z.to_nat c = Some v -> kind v = Vacant ->
  absent kind (entries mp) (λ w, sm t w e \/ sm t e w) ->
  let mp1 := store mp c e in
  let u := ck_ht_map_bound_set (set_n_entries mp1 (u64 (n_entries mp1 + 1))) (hash e) (Z.of_nat i + 1) in
  wf t u /\ contents u ≡ₚ e :: contents mp /\ capacity u = capacity mp /\ size u = size mp /\
  probe_limit u = probe_limit mp.
Proof.
  intros W He Hc Hp Hi Hv Hk Ha mp1 u.
  pose proof (ht_bound_set_target shr_undef byte_at len_of t mp (Z.to_nat c) e i W Hc Hp Hi) as T.
  pose proof (ht_core_bound_set shr_undef byte_at len_of t mp (hash e) (Z.of_nat i + 1) W ltac:(lia)) as Cb.
  pose proof (ht_bound_set_fields mp (hash e) (Z.of_nat i + 1)) as (Eb & _ & Kb & Sb & _).
  pose proof (wf_sound _ _ _ _ _ Cb) as So. unfold HtInv.mpos in So. rewrite Eb Kb Sb in So.
  destruct (sound_insert kind hash (sm t) _ (same_sym byte_at len_of t) _ _
    (Z.to_nat c) v e i So) as [S2 L2];
    [apply He|done|done|congruence|done|].
  pose proof (ht_bound_set_fields (set_n_entries mp1 (u64 (n_entries mp1 + 1))) (hash e) (Z.of_nat i + 1))
    as (Eu & Cu & _ & _ & Lu & Nu & _ & Su). fold u in Eu, Cu, Nu, Su, Lu.
  assert (contents u ≡ₚ e :: contents mp) as HL by (by rewrite Eu).
  split_and!; [split|done|done..].
  - apply (core_finish shr_undef byte_at len_of t mp _ (hash e) _ (<[Z.to_nat c := e]> (entries mp)));
      [apply W|lia|by split_and!|done|apply length_insert|exact S2|].
    intros x Hx. rewrite L2 in Hx. apply elem_of_cons in Hx as [->|Hx]; [done|]. by apply W.
  - rewrite Nu HL (_ : n_entries (set_n_entries mp1 _) = u64 (n_entries mp + 1)) //.
    rewrite (wf_n_entries _ _ _ _ _ W) /=. pose proof (length_contents t mp W).
    pose proof (ht_capacity_range _ _ _ _ _ (wf_core _ _ _ _ _ W)). rewrite /u64 Z.mod_small; lia.
Qed.

Lemma elem_of_slots (pre slots : list ck_ht_entry) e s :
  pre !! s = Some e -> ((pre ++ [zero_entry]) ++ slots) !! s = Some e /\ s <> length pre.
Proof.
  intros Hs. pose proof (lookup_lt_Some _ _ _ Hs). split; [|lia].
  rewrite -app_assoc lookup_app_l //.
Qed.

Lemma ht_rehash_ok t slots pre mp :
  unique kind (sm t) (pre ++ slots) -> (∀ e, e ∈ live kind slots -> eok t e) ->
  wf t mp -> contents mp ≡ₚ live kind pre ->
  ∃ r, rehash shr_undef mp slots = Some r /\
  match r with
  | None => True
  | Some u => wf t u /\ contents u ≡ₚ live kind (pre ++ slots) /\
              capacity u = capacity mp /\ size u = size mp
  end.
Proof.
  revert pre mp. induction slots as [|e slots IH]; intros pre mp Hu Hok W Hl.
  { eexists. split; [done|]. by rewrite app_nil_r. }
  cbn [rehash]. replace (pre ++ e :: slots) with ((pre ++ [e]) ++ slots) in * by (by rewrite -app_assoc).
  assert (live kind (pre ++ [e]) = live kind pre ++ live kind [e]) as Hpre by apply filter_app.
  assert (∀ x, x ∈ live kind slots -> x ∈ live kind (e :: slots)) as Hin.
  { intros x [Hx [s Hs]]%elem_of_live. apply elem_of_live. split; [done|by exists (S s)]. }
  destruct (slot_cases e) as [[Hk Ht]|[(Hk & Ht & Hv)|(Hk & Ht & Hv)]]; rewrite Ht ?Hv ?orb_true_r; cbn [orb]; cbv zeta.
  1-2: apply IH; [done|by auto|done|]; rewrite Hpre Hl /live filter_cons_False ?app_nil_r //;
       congruence.
  assert (eok t e) as He by (apply Hok, elem_of_live; split; [done|by exists 0%nat]).
  pose proof (wf_limit _ _ _ _ _ (wf_core _ _ _ _ _ W)) as Hlim.
  destruct (ht_grow_probe_ok t mp (hash e) (probe_fuel mp) 0 W) as (r & Hr & Hres).
  { intros n Hn. lia. }
  { lia. }
  { unfold probe_fuel. lia. }
  change (walk_start mp (hash e)) with (walk_at shr_undef (mask mp) (step mp) (hash e) 0).
  change (Z.of_nat 0) with 0 in Hr. rewrite Hr /=. destruct r as [[c n]|]; [|by eexists].
  destruct Hres as (i & v & Hc & Hp & Hcv & Hkv & -> & Hi).
  destruct (ht_copy_ok t mp c e i v W He Hc Hp Hi Hcv Hkv) as (Wu & Lu & Cu & Su & _).
  { apply absent_live. intros x Hx Hsame. rewrite Hl elem_of_live in Hx.
    destruct Hx as [Hkx [s Hs]]. pose proof (lookup_lt_Some _ _ _ Hs) as Hlt.
    assert (((pre ++ [e]) ++ slots) !! s = Some x) as H1 by (rewrite -app_assoc lookup_app_l //).
    assert (((pre ++ [e]) ++ slots) !! length pre = Some e) as H2
      by (rewrite -app_assoc lookup_app_r // Nat.sub_diag //).
    assert (s = length pre); [|lia]. destruct Hsame as [Hsame|Hsame].
    - by eapply (Hu _ _ x e H1 H2).
    - symmetry. by eapply (Hu _ _ e x H2 H1). }
  destruct (IH (pre ++ [e]) _ Hu ltac:(auto) Wu) as (r & Hr' & Hres).
  - rewrite Lu Hpre Hl /live filter_cons_True // filter_nil. solve_Permutation.
  - exists r. split; [exact Hr'|]. destruct r as [u|]; [|done].
    destruct Hres as (W2 & L2 & C2 & S2). split_and!; [done|done|congruence|congruence].
Qed.

Lemma wf_live_ok t mp : wf t mp -> ∀ e, e ∈ live kind (entries mp) -> eok t e.
Proof. intros W. apply W. Qed.

(** Growth terminates, whatever the hash function does, and keeps the entries. *)
Lemma ht_grow_loop_ok fuel j t cap :
  ht_wf t -> 0 <= j <= 64 -> 0 <= cap < 2 ^ 64 -> (2 ^ (64 - j) | cap) -> j < Z.of_nat fuel ->
  ∃ b t', grow_loop malloc_ok shr_undef fuel t cap = Some (b, t') /\
          ht_post t t' (contents (map t)) /\ (b = false -> map t' = map t).
Proof.
  revert j t cap. induction fuel as [|fuel IH]; intros j t cap W Hj Hcap Hdiv Hf; [lia|].
  cbn [grow_loop]. destruct (Z.leb_spec cap (capacity (map t))) as [Hle|Hgt].
  { exists false, t. split_and!; [done|by apply ht_post_refl|done]. }
  destruct (ck_ht_map_create malloc_ok (m t) (mode t) cap) as [[mp|] h1] eqn:Hc; last first.
  { apply ht_create_fail in Hc as [Hc _]. exists false, (set_m t h1).
    pose proof (ht_wf_set_m t h1 W Hc). by split_and!. }
  apply (ht_create_ok malloc_ok shr_undef byte_at len_of t) in Hc
    as (Wm & Hl & Hcm & Hout & Hsz & Hal).
  pose proof W as [W1 W2 W3 W4].
  destruct (ht_rehash_ok t (entries (map t)) [] mp) as (r & Hr & Hres);
    [apply (wf_sound _ _ _ _ _ (wf_core _ _ _ _ _ W1))|by apply wf_live_ok|done|by rewrite Hl|].
  rewrite Hr /=. destruct r as [u|].
  - destruct Hres as (Wu & Hlu & Hcu & Hsu). eexists true, _. split_and!; [done|split_and!|done].
    + split; cbn; [by eapply ht_config_wf; [|exact Wu]| |lia|rewrite Hsu; eauto].
      cbn in Hout. rewrite Hout Hsu. lia.
    + done.
    + by rewrite /= Hlu.
  - assert (j <> 0) as Hj0.
    { intros ->. rewrite Z.sub_0_r in Hdiv. destruct Hdiv as [c Hdiv].
      assert (c = 0) as -> by lia. pose proof (ht_capacity_range _ _ _ _ _ (wf_core _ _ _ _ _ W1)). lia. }
    set (t1 := set_m t (ck_ht_map_destroy h1 mp false)).
    assert (ht_wf t1) as W5.
    { apply ht_wf_set_m; [done|]. cbn. lia. }
    destruct (IH (j - 1) t1 (u64 (Z.shiftl cap 1))) as (b & t' & Hg & Hp & Hb);
      [done|lia|apply u64_range| |lia|].
    { apply double_divide; [lia| |lia]. by replace (64 - (j - 1 + 1)) with (64 - j) by lia. }
    exists b, t'. split_and!; [done|by destruct Hp as (? & ? & ?)|done].
Qed.

Lemma ck_ht_grow_spmc_ok t cap :
  ht_wf t -> 0 <= cap < 2 ^ 64 ->
  ∃ b t', ck_ht_grow_spmc malloc_ok shr_undef t cap = Some (b, t') /\
          ht_post t t' (contents (map t)) /\ (b = false -> map t' = map t).
Proof.
  intros W Hc. apply (ht_grow_loop_ok _ 64); [done|lia|done| |lia].
  change (2 ^ (64 - 64)) with 1. apply Z.divide_1_l.
Qed.

(** ** Growth where allocations are limited *)

Lemma ht_capacity_limited t :
  ht_wf t -> ht_malloc_limited -> ∃ k, 1 <= k <= 30 /\ capacity (map t) = 2 ^ k.
Proof.
  intros W Hlim.
  destruct (wf_capacity _ _ _ _ _ (wf_core _ _ _ _ _ (ht_wf_map _ W))) as (k & Hk & Hc).
  exists k. split; [|done]. split; [lia|]. destruct (decide (k = 31)) as [->|Hne]; [|lia].
  pose proof (ht_wf_size _ W) as Hs. destruct (ht_wf_alloc _ W) as [h0 Hh].
  rewrite Hlim in Hh; [|done]. rewrite Hc in Hs. lia.
Qed.

(** A successful growth is a real one. *)
Lemma ht_grow_loop_limited fuel t j b t' :
  ht_wf t -> ht_malloc_limited -> 1 <= j <= 31 -> capacity (map t) < 2 ^ j ->
  grow_loop malloc_ok shr_undef fuel t (2 ^ j) = Some (b, t') ->
  match b with true => 2 ^ j <= capacity (map t') | false => alloc_failed (m t') end.
Proof.
  intros W Hlim. revert j t W. induction fuel as [|fuel IH]; intros j t W Hj Hcap; [done|].
  cbn [grow_loop]. rewrite (proj2 (Z.leb_gt _ _)) //.
  destruct (ck_ht_map_create malloc_ok (m t) (mode t) (2 ^ j)) as [[mp|] h1] eqn:Hc; last first.
  { intros [= <- <-]. apply ht_create_fail in Hc as (_ & sz & ->). by eexists _, _. }
  apply (ht_create_ok malloc_ok shr_undef byte_at len_of t) in Hc
    as (Wm & Hl & Hcm & Hout & Hsz & Hal).
  rewrite ht_rounded_id // in Hcm.
  assert (j <= 30) as Hj30.
  { destruct (decide (j = 31)) as [->|Hne]; [|lia].
    rewrite Hlim // in Hal. rewrite Hcm in Hsz. lia. }
  destruct (ht_rehash_ok t (entries (map t)) [] mp) as (r & Hr & Hres);
    [apply (wf_sound _ _ _ _ _ (wf_core _ _ _ _ _ (ht_wf_map _ W)))|apply wf_live_ok, W|done|by rewrite Hl|].
  rewrite Hr /=. destruct r as [u|].
  - intros [= <- <-]. cbn. destruct Hres as (_ & _ & -> & _). lia.
  - replace (u64 (Z.shiftl (2 ^ j) 1)) with (2 ^ (j + 1)).
    + pose proof (Z.pow_lt_mono_r 2 j (j + 1)).
      intros Hg. apply IH in Hg; [|apply ht_wf_set_m; [done|cbn; lia]|lia|cbn; lia].
      destruct b; [lia|done].
    + rewrite Z.shiftl_mul_pow2 // Z.pow_add_r; [lia|lia|].
      pose proof (Z.pow_le_mono_r 2 j 30). unfold u64. rewrite Z.mod_small; lia.
Qed.

(** What the operations rely on when they ask for twice the capacity. *)
Lemma ht_grow_double t :
  ht_wf t -> ht_malloc_limited ->
  ∃ b t', ck_ht_grow_spmc malloc_ok shr_undef t (u64 (Z.shiftl (capacity (map t)) 1)) = Some (b, t') /\
    ht_post t t' (contents (map t)) /\
    match b with
    | true => 2 * capacity (map t) <= capacity (map t')
    | false => alloc_failed (m t')
    end.
Proof.
  intros W Hlim. destruct (ht_capacity_limited t W Hlim) as (k & Hk & Hc).
  assert (2 * 2 ^ k = 2 ^ (k + 1)) as Hd by (rewrite Z.pow_add_r; lia).
  assert (u64 (Z.shiftl (capacity (map t)) 1) = 2 ^ (k + 1)) as Hu.
  { rewrite Hc Z.shiftl_mul_pow2 // Z.pow_add_r; [lia|lia|].
    pose proof (Z.pow_le_mono_r 2 k 30). unfold u64. rewrite Z.mod_small; lia. }
  destruct (ck_ht_grow_spmc_ok t (u64 (Z.shiftl (capacity (map t)) 1)) W (u64_range _))
    as (b & t' & Hg & Hp & _).
  exists b, t'. split_and!; [done|done|]. rewrite Hu in Hg.
  pose proof (Z.pow_lt_mono_r 2 k (k + 1)).
  apply (ht_grow_loop_limited 66 t (k + 1)) in Hg; [|done|done|lia|lia].
  destruct b; [lia|done].
Qed.
End proofs.
