(* ===== verification/HtSpec.v ===== *)
(** The hash table: the specification of each operation on the entries held. *)

From S2P Require Export HtProofs.
Set Warnings "-rewrite-rw,-clear-no-such-hyp".

Section spec.
Context (malloc_ok : heap -> Z -> bool) (shr_undef : Z -> Z -> Z).
Context (byte_at : Z -> Z) (len_of : Z -> Z).
Implicit Types (t : ck_ht) (mp : ck_ht_map) (e q : ck_ht_entry).

Abbreviation core := (map_core shr_undef byte_at len_of).
Abbreviation wf := (map_wf shr_undef byte_at len_of).
Abbreviation mpos := (mpos shr_undef).
Abbreviation mpath mp := (path kind (mpos mp) (entries mp)).
Abbreviation eok := (entry_ok byte_at len_of).
Abbreviation sm t := (same byte_at len_of (mode t)).
Abbreviation snd_ t mp := (sound kind hash (sm t) (mpos mp)).
Abbreviation found := (found byte_at len_of).
Abbreviation wr_ok := (wr_ok shr_undef byte_at len_of).
Abbreviation ht_wf := (ht_wf malloc_ok shr_undef byte_at len_of).
Abbreviation ht_post := (ht_post malloc_ok shr_undef byte_at len_of).
Abbreviation limited := (ht_malloc_limited malloc_ok).

(** Some entry, or no entry, of a list has the key of [q]. *)
Definition held t (l : list ck_ht_entry) q e : Prop := e ∈ l /\ found t q e.
Definition unheld t (l : list ck_ht_entry) q : Prop := ∀ e, e ∈ l -> ¬ found t q e.

Lemma absent_unheld t mp q : absent kind (entries mp) (found t q) <-> unheld t (contents mp) q.
Proof. apply absent_live. Qed.

Lemma unheld_perm t l l' q : l ≡ₚ l' -> unheld t l q <-> unheld t l' q.
Proof. intros H. split; intros M w Hw; apply M; by rewrite ?H // -H. Qed.

Lemma found_config t t' q e : ht_config t t' -> found t' q e <-> found t q e.
Proof. intros (H & _). unfold HtInv.found. by rewrite H. Qed.

Lemma unheld_config t t' l q : ht_config t t' -> unheld t' l q <-> unheld t l q.
Proof. intros H. split; intros M w Hw Hm; apply (M w Hw); by apply (found_config t t'). Qed.

Lemma held_config t t' l l' q e :
  ht_config t t' -> l' ≡ₚ l -> held t' l' q e <-> held t l q e.
Proof. intros S H. unfold held. by rewrite H (found_config t t'). Qed.

(** * What storing does

    The entries after an entry [q] is stored where the probe [r] said, and the
    probe count its hash is given. *)

Definition stored mp q (r : probe_wr_result) : list ck_ht_entry :=
  match wr_available r, wr_cursor r with
  | Some a, Some c =>
      if match kind (wr_snapshot r) with Live => true | _ => false end
      then <[Z.to_nat c := bury (wr_snapshot r)]> (<[Z.to_nat a := q]> (entries mp))
      else <[Z.to_nat a := q]> (entries mp)
  | Some a, None => <[Z.to_nat a := q]> (entries mp)
  | None, Some c => <[Z.to_nat c := q]> (entries mp)
  | None, None => entries mp
  end.

Definition stored_probes (r : probe_wr_result) : Z :=
  match wr_available r with Some _ => wr_probe_wr r | None => wr_probes r end.

(** Whether the probe found an entry with the key. *)
Definition hit (r : probe_wr_result) : Prop := is_Some (wr_cursor r) /\ kind (wr_snapshot r) = Live.

Definition usable (r : probe_wr_result) : Prop := is_Some (wr_available r) \/ is_Some (wr_cursor r).

Lemma absent_same_key t mp q :
  absent kind (entries mp) (found t q) -> absent kind (entries mp) (λ w, sm t w q \/ sm t q w).
Proof.
  intros Ha s e Hs Hk [H|H]; apply (Ha s e Hs Hk); [done|]. by apply (same_sym byte_at len_of t).
Qed.

Lemma stored_ok t mp q r :
  core t mp -> eok t q -> wr_ok t mp q r -> usable r ->
  let n := stored_probes r in
  0 <= n <= 2 * probe_limit mp /\
  snd_ t mp (stored mp q r) (bound_fn (ck_ht_map_bound_set mp (hash q) n)) /\
  ((hit r /\ held t (contents mp) q (wr_snapshot r) /\
    wr_snapshot r :: live kind (stored mp q r) ≡ₚ q :: contents mp) \/
   (¬ hit r /\ unheld t (contents mp) q /\ live kind (stored mp q r) ≡ₚ q :: contents mp)).
Proof.
  intros C Hq P Hu. cbv zeta. unfold stored, stored_probes.
  pose proof (ht_bound_set_fields mp (hash q) (stored_probes r)) as (Eb & _ & Kb & Sb & _).
  assert (∀ s p n, at_walk shr_undef mp q s p -> n = Z.of_nat p + 1 ->
    0 <= n <= 2 * probe_limit mp /\
    snd_ t mp (entries mp) (bound_fn (ck_ht_map_bound_set mp (hash q) n)) /\
    target kind hash (mpos mp) (entries mp) (bound_fn (ck_ht_map_bound_set mp (hash q) n))
      (Z.to_nat s) q p) as Hat.
  { intros s p n (H1 & H2 & H3) ->. split; [lia|]. split; [|by eapply ht_bound_set_target].
    eapply sound_mono; [|apply C]. intros h'. unfold bound_fn.
    destruct (ht_bound_set_ok shr_undef byte_at len_of t mp (hash q) (Z.of_nat p + 1) C ltac:(lia)) as [_ H].
    specialize (H h'). lia. }
  pose proof (same_sym byte_at len_of t) as Sym. pose proof (same_trans byte_at len_of t) as Tr.
  assert (∀ s p e, at_walk shr_undef mp q s p -> entries mp !! Z.to_nat s = Some e ->
    kind e = Live -> e ∈ contents mp) as Hin by (intros s p e _ He Hk; apply elem_of_live; eauto).
  destruct (wr_available r) as [a|] eqn:Ha.
  - destruct (wo_available _ _ _ _ _ _ _ P a Ha) as (p & v & Hw & Hv & Hkv & Hn).
    destruct (Hat a p (wr_probe_wr r) Hw Hn) as (Hr & So & T). split; [done|].
    assert (unheld t (contents mp) q -> snd_ t mp (<[Z.to_nat a := q]> (entries mp))
        (bound_fn (ck_ht_map_bound_set mp (hash q) (wr_probe_wr r))) /\
      live kind (<[Z.to_nat a := q]> (entries mp)) ≡ₚ q :: contents mp) as Hins.
    { intros Hun. eapply (sound_insert kind hash (sm t) _ Sym); [done|apply Hq|done|done|congruence|].
      by apply absent_same_key, absent_unheld. }
    destruct (wr_cursor r) as [c|] eqn:Hc.
    + destruct (wo_cursor _ _ _ _ _ _ _ P c Hc) as (p' & Hw' & Hs & _ & _ & [[Hk Hab]|(Hk & Hf & _)]);
        rewrite Hk.
      * apply absent_unheld in Hab. destruct (Hins Hab). split; [done|right].
        split_and!; [by intros [_ ?]; congruence|done|done].
      * destruct (sound_relocate kind hash (sm t) _ Sym Tr _ _ (Z.to_nat a) (Z.to_nat c) q (wr_snapshot r)
          (bury (wr_snapshot r)) v p So) as [S2 L2]; [apply Hq|done..|].
        split; [done|left]. split_and!; [by split|by split; [eapply Hin|]|done].
    + pose proof (wo_none _ _ _ _ _ _ _ P Hc) as Hab. apply absent_unheld in Hab.
      destruct (Hins Hab). split; [done|right]. split_and!; [by intros [[? ?] _]; congruence|done|done].
  - destruct Hu as [[? ?]|[c Hc]]; [congruence|]. rewrite Hc.
    destruct (wo_cursor _ _ _ _ _ _ _ P c Hc) as (p & Hw & Hs & Hn & _ & Hcase).
    destruct (Hat c p (wr_probes r) Hw Hn) as (Hr & So & T). split; [done|].
    destruct Hcase as [[Hk Hab]|(Hk & Hf & _)].
    + destruct (sound_insert kind hash (sm t) _ Sym _ _ (Z.to_nat c) (wr_snapshot r) q p So)
        as [S2 L2]; [apply Hq|done|done|congruence|by apply absent_same_key|].
      split; [done|right]. apply absent_unheld in Hab.
      split_and!; [by intros [_ ?]; congruence|done|done].
    + destruct (sound_replace kind hash (sm t) _ Sym Tr _ _ (Z.to_nat c) (wr_snapshot r) q p So)
        as [S2 L2]; [apply Hq|done..|].
      split; [done|left]. split_and!; [by split|by split; [eapply Hin|]|done].
Qed.

Lemma stored_length mp q r : length (stored mp q r) = length (entries mp).
Proof.
  unfold stored. destruct (wr_available r), (wr_cursor r); rewrite ?length_insert //.
  destruct (kind _); by rewrite ?length_insert.
Qed.

Definition hits (r : probe_wr_result) : bool :=
  match wr_cursor r with
  | Some _ => match kind (wr_snapshot r) with Live => true | _ => false end
  | None => false
  end.

Lemma hits_spec r : hits r = true <-> hit r.
Proof.
  unfold hits, hit. destruct (wr_cursor r), (kind (wr_snapshot r)); naive_solver.
Qed.

(** A map with the entries stored and the count adjusted is well formed once the
    bound is raised. *)
Lemma stored_wf t mp mp' q r :
  wf t mp -> eok t q -> wr_ok t mp q r -> usable r -> same_shape mp mp' ->
  entries mp' = stored mp q r ->
  n_entries mp' = (if hits r then n_entries mp else u64 (n_entries mp + 1)) ->
  let u := ck_ht_map_bound_set mp' (hash q) (stored_probes r) in
  wf t u /\ contents u = live kind (stored mp q r) /\ size u = size mp /\ capacity u = capacity mp.
Proof.
  intros W Hq P Hu Hsh He Hn u.
  destruct (stored_ok t mp q r W Hq P Hu) as (Hr & So & Hcase).
  pose proof (ht_bound_set_fields mp' (hash q) (stored_probes r)) as (Eu & Cu & _ & _ & _ & Nu & _ & Su).
  fold u in Eu, Cu, Nu, Su. destruct Hsh as (E1 & E2 & E3 & E4 & E5 & E6 & E7 & E8).
  assert (Z.of_nat (length (live kind (stored mp q r))) =
          if hits r then n_entries mp else u64 (n_entries mp + 1)) as Hlen.
  { pose proof (wf_n_entries _ _ _ _ _ W) as HN. destruct Hcase as [(H & _ & L)|(H & _ & L)].
    - apply hits_spec in H. rewrite H HN. apply Permutation_length in L. simpl in L. lia.
    - rewrite -hits_spec in H. destruct (hits r); [done|]. rewrite L HN /=.
      pose proof (length_contents _ _ _ t mp W). pose proof (ht_capacity_range _ _ _ _ _ (wf_core _ _ _ _ _ W)).
      rewrite /u64 Z.mod_small; lia. }
  split_and!; [split|by rewrite Eu He|congruence|congruence].
  - apply (core_finish shr_undef byte_at len_of t mp _ (hash q) _ (stored mp q r));
      [apply W|done|by split_and!|done|apply stored_length|done|].
    intros e Hin. assert (e ∈ q :: contents mp) as Hin2.
    { destruct Hcase as [(_ & _ & L)|(_ & _ & L)]; rewrite -L; [by right|done]. }
    apply elem_of_cons in Hin2 as [->|Hin2]; [done|]. by apply W.
  - by rewrite Nu Hn Eu He Hlen.
Qed.

Lemma enforce_load_ok t :
  ht_wf t -> ∃ t', enforce_load malloc_ok shr_undef t = Some t' /\ ht_post t t' (contents (map t)).
Proof.
  intros W. unfold enforce_load. destruct (_ <? _).
  - destruct (ck_ht_grow_spmc_ok malloc_ok shr_undef byte_at len_of t
      (u64 (Z.shiftl (capacity (map t)) 1)) W (u64_range _)) as (b & t' & Hg & Hp & _).
    rewrite Hg /=. eauto.
  - exists t. split; [done|]. by apply ht_post_refl.
Qed.

(** Storing is finished by enforcing the load factor. *)
Lemma finish_ok t mp l :
  ht_wf t -> wf t mp -> size mp = size (map t) -> capacity mp = capacity (map t) ->
  contents mp ≡ₚ l ->
  ∃ t', enforce_load malloc_ok shr_undef (set_map t mp) = Some t' /\ ht_post t t' l.
Proof.
  intros W Wm Hs Hc Hl. destruct (enforce_load_ok (set_map t mp)) as (t' & Ht & (W' & S' & L')).
  { by apply ht_wf_set_map. }
  exists t'. split; [done|]. split_and!; [done|done|]. by rewrite L' Hl.
Qed.

(** * Replacement *)

(** What is returned for the entry passed by address. *)
Definition set_spec t (l : list ck_ht_entry) q (b : bool) (e : ck_ht_entry) (t' : ck_ht) : Prop :=
  if b then
    key e = CK_HT_KEY_EMPTY /\ unheld t l q /\ ht_post t t' (q :: l) \/
    held t l q e /\ kind e = Live /\ ∃ l', ht_post t t' l' /\ e :: l' ≡ₚ q :: l
  else e = q /\ ht_post t t' l /\ alloc_failed (m t').

Lemma set_found_ok t q r :
  ht_wf t -> eok t q -> wr_ok t (map t) q r -> usable r ->
  ∃ e t', set_found malloc_ok shr_undef t (hash q) q r = Some (true, e, t') /\
          set_spec t (contents (map t)) q true e t'.
Proof.
  intros W Hq P Hu. unfold set_found. cbv zeta. set (mp := map t) in *.
  destruct (stored_ok t mp q r (ht_wf_map _ _ _ _ _ W) Hq P Hu) as (_ & _ & Hcase).
  assert (∀ mp', same_shape mp mp' -> entries mp' = stored mp q r ->
    n_entries mp' = (if hits r then n_entries mp else u64 (n_entries mp + 1)) ->
    ∃ t', enforce_load malloc_ok shr_undef
            (set_map t (ck_ht_map_bound_set mp' (hash q) (stored_probes r))) = Some t' /\
          ht_post t t' (live kind (stored mp q r))) as Hfin.
  { intros mp' Hsh He Hn.
    destruct (stored_wf t mp mp' q r (ht_wf_map _ _ _ _ _ W) Hq P Hu Hsh He Hn) as (Wu & Lu & Su & Cu).
    apply finish_ok; [done..|]. by rewrite Lu. }
  set (e' := if match wr_cursor r with None => true | Some _ => false end
             then CkHtEntry CK_HT_KEY_EMPTY (value q) (key_length q) (hash q) else wr_snapshot r).
  assert (∀ t', ht_post t t' (live kind (stored mp q r)) -> set_spec t (contents mp) q true e' t') as Hspec.
  { intros t' Hp. destruct Hcase as [([[c Hc] Hk] & Hh & L)|(Hnh & Hun & L)].
    - right. subst e'. rewrite Hc. split_and!; [done|done|]. eexists. by split; [exact Hp|].
    - left. split_and!; [|done|].
      + subst e'. destruct (wr_cursor r) as [c|] eqn:Hc; [|done].
        apply ht_kind_vacant. destruct (wo_cursor _ _ _ _ _ _ _ P c Hc)
          as (p & _ & _ & _ & _ & [[Hk _]|(Hk & _)]); [done|].
        exfalso. apply Hnh. split; [by eexists|done].
      + destruct Hp as (H1 & H2 & H3). split_and!; [done|done|]. by rewrite H3. }
  fold (stored_probes r). fold e'. generalize dependent e'. intros e' Hspec.
  assert (∀ mp', same_shape mp mp' -> entries mp' = stored mp q r ->
    n_entries mp' = (if hits r then n_entries mp else u64 (n_entries mp + 1)) ->
    ∃ e t', (t' ← enforce_load malloc_ok shr_undef
              (set_map t (ck_ht_map_bound_set mp' (hash q) (stored_probes r)));
             Some (true, e', t')) = Some (true, e, t') /\
            set_spec t (contents mp) q true e t') as Hgo.
  { intros mp' H1 H2 H3. destruct (Hfin mp' H1 H2 H3) as (t' & Ht' & Hp).
    exists e', t'. rewrite Ht'. split; [done|]. by apply Hspec. }
  clear Hfin Hspec Hcase. unfold stored, hits in Hgo.
  destruct (wr_available r) as [a|] eqn:Ha; [|destruct (wr_cursor r) as [c|] eqn:Hc].
  - destruct (wo_available _ _ _ _ _ _ _ P a Ha) as (p & v & _ & Hv & Hkv & _).
    assert ((key v =? CK_HT_KEY_TOMBSTONE) = true) as Htv.
    { destruct (slot_cases v) as [[_ ?]|[[? _]|[? _]]]; [done|congruence|congruence]. }
    destruct (wr_cursor r) as [c|] eqn:Hc.
    + destruct (wo_cursor _ _ _ _ _ _ _ P c Hc) as (p' & _ & Hs & _ & _ & Hk).
      cbn [mbind option_bind]. rewrite Hs /=. rewrite Hv /=. rewrite Htv.
      destruct (slot_cases (wr_snapshot r)) as [[Hx _]|[(Hx & Ht & He)|(Hx & Ht & He)]];
        [destruct Hk as [[? _]|[? _]]; congruence|..]; rewrite Hx in Hgo; rewrite ?He ?Ht; cbn [negb andb].
      * apply (Hgo (set_n_entries (store (bump_deletions mp) a q) _)); [by split_and!|done|done].
      * assert (a <> c) as Hac by (intros ->; congruence).
        destruct (Z.eqb_spec c a) as [|Hca]; [congruence|]. cbn [negb andb].
        apply (Hgo (store_tombstone (bump_deletions (store (bump_deletions mp) a q)) c));
          [by split_and!| |done].
        cbn. apply alter_insert_lookup. rewrite list_lookup_insert_ne //. congruence.
    + cbn [mbind option_bind]. rewrite Hv. cbn [mbind option_bind].
      rewrite Htv Z.eqb_refl ?andb_false_r. cbn [negb andb].
      apply (Hgo (set_n_entries (store (bump_deletions mp) a q) _)); [by split_and!|done|done].
  - destruct (wo_cursor _ _ _ _ _ _ _ P c Hc) as (p' & _ & Hs & _ & _ & Hk).
    cbn [mbind option_bind]. rewrite Hs /=.
    destruct (slot_cases (wr_snapshot r)) as [[Hx _]|[(Hx & Ht & He)|(Hx & Ht & He)]];
      [destruct Hk as [[? _]|[? _]]; congruence|..]; rewrite Hx in Hgo; rewrite ?He ?Ht; cbn [negb andb].
    + apply (Hgo (set_n_entries (store mp c q) _)); [by split_and!|done|done].
    + apply (Hgo (store mp c q)); [by split_and!|done|done].
  - destruct Hu as [[? ?]|[? ?]]; congruence.
Qed.

(** The loops restart only after the capacity has at least doubled. *)
Lemma ht_restart_measure t t' k (fuel : nat) :
  ht_wf t' -> limited -> capacity (map t) = 2 ^ k -> 1 <= k ->
  2 * capacity (map t) <= capacity (map t') -> 31 <= Z.of_nat (S fuel) + k ->
  ∃ k', 1 <= k' /\ capacity (map t') = 2 ^ k' /\ 31 <= Z.of_nat fuel + k'.
Proof.
  intros W' Hlim Hc Hk Hd Hf.
  destruct (ht_capacity_limited _ _ _ _ _ W' Hlim) as (k' & Hk' & Hc').
  exists k'. split_and!; [lia|done|]. rewrite Hc Hc' in Hd.
  assert (k < k'); [|lia]. apply (Z.pow_lt_mono_r_iff 2); [lia|lia|].
  pose proof (Z.pow_pos_nonneg 2 k). lia.
Qed.

Lemma ht_no_fuel t k :
  ht_wf t -> limited -> capacity (map t) = 2 ^ k -> 1 <= k -> 31 <= Z.of_nat 0 + k -> False.
Proof.
  intros W Hlim Hc Hk Hf. destruct (ht_capacity_limited _ _ _ _ _ W Hlim) as (k' & Hk' & Hc').
  rewrite Hc in Hc'. apply Z.pow_inj_r in Hc'; lia.
Qed.

Lemma probe_length_config t t' q : ht_config t t' -> probe_length t' q = probe_length t q.
Proof. intros (H & _). unfold probe_length. by rewrite H. Qed.

Lemma post_regrown t t1 t2 l :
  ht_post t t1 (contents (map t)) -> ht_post t1 t2 l -> ht_post t t2 l.
Proof. intros (_ & S1 & _) (W & S2 & L). split_and!; [done|by eapply ht_config_trans|done]. Qed.

Lemma set_spec_regrown t t1 q b e t2 :
  ht_post t t1 (contents (map t)) -> set_spec t1 (contents (map t1)) q b e t2 ->
  set_spec t (contents (map t)) q b e t2.
Proof.
  intros Hp Hs. pose proof Hp as (W1 & S1 & L1). unfold set_spec in *. destruct b.
  - destruct Hs as [(Hk & Hun & (W2 & S2 & L2))|(Hh & Hk & l' & Hp2 & Hl')].
    + left. rewrite (unheld_config t t1) // in Hun. split_and!; [done| |].
      * by apply (unheld_perm t _ _ q L1).
      * split_and!; [done|by eapply ht_config_trans|]. by rewrite L2 L1.
    + right. split_and!; [by apply (held_config t t1 _ _ q e S1 L1)|done|].
      exists l'. split; [by eapply post_regrown|]. by rewrite Hl' L1.
  - destruct Hs as (-> & (W2 & S2 & L2) & Hr). split_and!; [done| |done].
    split_and!; [done|by eapply ht_config_trans|by rewrite L2 L1].
Qed.

Lemma ht_set_loop_ok fuel t q k :
  ht_wf t -> limited -> eok t q -> capacity (map t) = 2 ^ k -> 1 <= k -> 31 <= Z.of_nat fuel + k ->
  ∃ b e t', set_loop malloc_ok shr_undef byte_at fuel t (hash q) q = Some (b, e, t') /\
            set_spec t (contents (map t)) q b e t'.
Proof.
  revert t k. induction fuel as [|fuel IH]; intros t k W Hlim Hq Hc Hk Hf.
  { exfalso. by eapply ht_no_fuel. }
  cbn [set_loop].
  destruct (probe_wr_ok shr_undef byte_at len_of t (map t) q) with (bounded := false)
    as (r & Hr & P & _); [apply W|done|].
  unfold ck_ht_entry_key. rewrite Hr. cbn [mbind option_bind].
  assert (usable r \/ wr_available r = None /\ wr_cursor r = None) as [Hu|[Ha Hcu]].
  { unfold usable. destruct (wr_available r), (wr_cursor r); eauto. }
  - destruct (set_found_ok t q r W Hq P Hu) as (e & t' & Hs & Hspec).
    exists true, e, t'. split; [|done]. destruct Hu as [[? Hx]|[? Hx]]; rewrite Hx //.
    by destruct (wr_available r).
  - rewrite Ha Hcu.
    destruct (ht_grow_double malloc_ok shr_undef byte_at len_of t W Hlim) as (b & t1 & Hg & Hp & Hb).
    rewrite Hg /=. pose proof Hp as (W1 & S1 & L1). destruct b; cbn [negb]; last first.
    { exists false, q, t1. split; [done|]. by split_and!. }
    destruct (ht_restart_measure t t1 k fuel) as (k' & Hk' & Hc' & Hf'); [done..|].
    destruct (IH t1 k') as (b & e & t2 & Hl & Hs); [done|done|by apply (ht_config_eok byte_at len_of t)|done..|].
    exists b, e, t2. split; [done|]. by eapply set_spec_regrown.
Qed.

Lemma ck_ht_set_spmc_ok t q :
  ht_wf t -> limited -> eok t q ->
  ∃ b e t', ck_ht_set_spmc malloc_ok shr_undef byte_at t (hash q) q = Some (b, e, t') /\
            set_spec t (contents (map t)) q b e t'.
Proof.
  intros W Hlim Hq. destruct (ht_capacity_limited _ _ _ _ _ W Hlim) as (k & Hk & Hc).
  eapply ht_set_loop_ok; [done..|lia|]. unfold restarts. lia.
Qed.

(** * Insertion *)

Definition put_spec t (l : list ck_ht_entry) q (b : bool) (t' : ck_ht) : Prop :=
  if b then unheld t l q /\ ht_post t t' (q :: l)
  else ht_post t t' l /\ ((∃ e, held t l q e) \/ alloc_failed (m t')).

Lemma put_found_ok t q r :
  ht_wf t -> eok t q -> wr_ok t (map t) q r -> usable r ->
  ∃ b t', put_found malloc_ok shr_undef t (hash q) q r = Some (b, t') /\
          put_spec t (contents (map t)) q b t'.
Proof.
  intros W Hq P Hu. unfold put_found. cbv zeta. set (mp := map t) in *.
  destruct (stored_ok t mp q r (ht_wf_map _ _ _ _ _ W) Hq P Hu) as (_ & _ & Hcase).
  assert (match wr_cursor r with Some _ => negb (key (wr_snapshot r) =? CK_HT_KEY_EMPTY)
          | None => false end = hits r) as ->.
  { unfold hits. destruct (wr_cursor r) as [c|] eqn:Hc; [|done].
    destruct (wo_cursor _ _ _ _ _ _ _ P c Hc) as (p & _ & _ & _ & _ & Hk).
    destruct (slot_cases (wr_snapshot r)) as [[Hx _]|[(Hx & _ & ->)|(Hx & _ & ->)]]; rewrite Hx //.
    destruct Hk as [[? _]|[? _]]; congruence. }
  destruct Hcase as [(Hh & Hheld & _)|(Hh & Hun & L)].
  { apply hits_spec in Hh. rewrite Hh. exists false, t. split; [done|].
    split; [by apply ht_post_refl|left; eauto]. }
  rewrite -hits_spec in Hh. apply not_true_is_false in Hh as Hh'. rewrite Hh'.
  assert (∀ mp1 c, same_shape mp mp1 -> n_entries mp1 = n_entries mp ->
    <[Z.to_nat c := q]> (entries mp1) = stored mp q r ->
    ∃ b t', match enforce_load malloc_ok shr_undef (set_map t
      (set_n_entries (store (ck_ht_map_bound_set mp1 (hash q) (stored_probes r)) c q)
        (u64 (n_entries (store (ck_ht_map_bound_set mp1 (hash q) (stored_probes r)) c q) + 1)))) with
      | Some t1 => Some (true, t1) | None => None end = Some (b, t') /\
      put_spec t (contents mp) q b t') as Hgo.
  { intros mp1 c Hsh Hn He.
    set (mp2 := set_n_entries (store mp1 c q) (u64 (n_entries mp + 1))).
    destruct (stored_wf t mp mp2 q r (ht_wf_map _ _ _ _ _ W) Hq P Hu) as (Wu & Lu & Su & Cu);
      [by destruct Hsh as (?&?&?&?&?&?&?&?); split_and!|exact He|by rewrite Hh'|].
    assert (set_n_entries (store (ck_ht_map_bound_set mp1 (hash q) (stored_probes r)) c q)
        (u64 (n_entries (store (ck_ht_map_bound_set mp1 (hash q) (stored_probes r)) c q) + 1)) =
      ck_ht_map_bound_set mp2 (hash q) (stored_probes r)) as ->.
    { subst mp2. rewrite -Hn. unfold ck_ht_map_bound_set. cbn.
      destruct (probe_maximum mp1 <? stored_probes r), (probe_bound mp1) eqn:Hpb; cbn; rewrite ?Hpb //;
        by destruct (_ <? _). }
    destruct (finish_ok t (ck_ht_map_bound_set mp2 (hash q) (stored_probes r)) (q :: contents mp))
      as (t' & Ht' & Hp); [done..|by rewrite Lu|].
    rewrite Ht'. exists true, t'. split; [done|]. by split. }
  clear L. unfold stored, stored_probes in Hgo. unfold hits in Hh'.
  destruct (wr_available r) as [a|] eqn:Ha.
  - apply (Hgo (bump_deletions mp) a); [by split_and!|done|].
    destruct (wr_cursor r), (kind (wr_snapshot r)); done.
  - destruct Hu as [[? ?]|[c Hc]]; [congruence|]. rewrite Hc in Hgo |- *.
    apply (Hgo mp c); [done|done|done].
Qed.

Lemma ht_put_loop_ok fuel t q k :
  ht_wf t -> limited -> eok t q -> capacity (map t) = 2 ^ k -> 1 <= k -> 31 <= Z.of_nat fuel + k ->
  ∃ b t', put_loop malloc_ok shr_undef byte_at fuel t (hash q) q = Some (b, t') /\
          put_spec t (contents (map t)) q b t'.
Proof.
  revert t k. induction fuel as [|fuel IH]; intros t k W Hlim Hq Hc Hk Hf.
  { exfalso. by eapply ht_no_fuel. }
  cbn [put_loop].
  destruct (probe_wr_ok shr_undef byte_at len_of t (map t) q) with (bounded := false)
    as (r & Hr & P & _); [apply W|done|].
  unfold ck_ht_entry_key. rewrite Hr. cbn [mbind option_bind].
  assert (usable r \/ wr_available r = None /\ wr_cursor r = None) as [Hu|[Ha Hcu]].
  { unfold usable. destruct (wr_available r), (wr_cursor r); eauto. }
  - destruct (put_found_ok t q r W Hq P Hu) as (b & t' & Hs & Hspec).
    exists b, t'. split; [|done]. destruct Hu as [[? Hx]|[? Hx]]; rewrite Hx //.
    by destruct (wr_available r).
  - rewrite Ha Hcu.
    destruct (ht_grow_double malloc_ok shr_undef byte_at len_of t W Hlim) as (b & t1 & Hg & Hp & Hb).
    rewrite Hg /=. pose proof Hp as (W1 & S1 & L1). destruct b; cbn [negb]; last first.
    { exists false, t1. split; [done|]. split; [done|by right]. }
    destruct (ht_restart_measure t t1 k fuel) as (k' & Hk' & Hc' & Hf'); [done..|].
    destruct (IH t1 k') as (b & t2 & Hl & Hs); [done|done|by apply (ht_config_eok byte_at len_of t)|done..|].
    exists b, t2. split; [done|]. unfold put_spec in *. destruct b.
    + destruct Hs as [Hun Hp2]. rewrite (unheld_config t t1) // in Hun.
      split; [by apply (unheld_perm t _ _ q L1)|].
      destruct (post_regrown _ _ _ _ Hp Hp2) as (? & ? & L2). split_and!; [done|done|by rewrite L2 L1].
    + destruct Hs as [Hp2 Ho]. split.
      * destruct (post_regrown _ _ _ _ Hp Hp2) as (? & ? & L2). split_and!; [done|done|by rewrite L2 L1].
      * destruct Ho as [[e He]|?]; [left|by right]. exists e.
        by apply (held_config t t1 _ _ q e S1 L1).
Qed.

Lemma ck_ht_put_spmc_ok t q :
  ht_wf t -> limited -> eok t q ->
  ∃ b t', ck_ht_put_spmc malloc_ok shr_undef byte_at t (hash q) q = Some (b, t') /\
          put_spec t (contents (map t)) q b t'.
Proof.
  intros W Hlim Hq. destruct (ht_capacity_limited _ _ _ _ _ W Hlim) as (k & Hk & Hc).
  eapply ht_put_loop_ok; [done..|lia|]. unfold restarts. lia.
Qed.

(** * Lookup and removal

    The caller's entry need only carry the key, its length and, separately, the
    hash. *)

Definition query (hh : Z) e : ck_ht_entry := CkHtEntry (key e) (value e) (key_length e) hh.

Definition get_spec t (l : list ck_ht_entry) (hh : Z) e (b : bool) (e' : ck_ht_entry) : Prop :=
  if b then held t l (query hh e) e' else e' = e /\ unheld t l (query hh e).

Lemma probe_query_ok t hh e :
  ht_wf t -> eok t (query hh e) ->
  ∃ r, ck_ht_map_probe_rd shr_undef byte_at (map t) hh (ck_ht_entry_key e) (probe_length t e) = Some r /\
       rd_ok byte_at len_of t (map t) (query hh e) r.
Proof.
  intros W Hq.
  apply (probe_rd_ok shr_undef byte_at len_of t (map t) (query hh e) (ht_wf_map _ _ _ _ _ W) Hq).
Qed.

Lemma snapshot_cases t q s e :
  rd_ok byte_at len_of t (map t) q (Some (s, e)) ->
  (key e =? CK_HT_KEY_EMPTY) = true /\ unheld t (contents (map t)) q \/
  (key e =? CK_HT_KEY_EMPTY) = false /\ held t (contents (map t)) q e /\ kind e = Live /\
  entries (map t) !! Z.to_nat s = Some e.
Proof.
  intros [He [[Hk Hn]|[Hk Hf]]].
  - left. apply ht_kind_vacant in Hk. rewrite Hk. split; [done|]. by apply absent_unheld.
  - right. destruct (slot_cases e) as [[? _]|[[? _]|(_ & _ & Hv)]]; [congruence..|].
    split_and!; [done| |done|done]. split; [apply elem_of_live; eauto|done].
Qed.

Lemma ck_ht_get_spmc_ok t hh e :
  ht_wf t -> eok t (query hh e) ->
  ∃ b e', ck_ht_get_spmc shr_undef byte_at t hh e = Some (b, e') /\
          get_spec t (contents (map t)) hh e b e'.
Proof.
  intros W Hq. unfold ck_ht_get_spmc.
  destruct (probe_query_ok t hh e W Hq) as (r & Hr & Hok). rewrite Hr. cbn [mbind option_bind].
  destruct r as [[s snap]|].
  - destruct (snapshot_cases t _ s snap Hok) as [[-> Hun]|(-> & Hh & _)].
    + by exists false, e.
    + by exists true, snap.
  - exists false, e. split; [done|]. split; [done|]. by apply absent_unheld.
Qed.

Definition remove_spec t (l : list ck_ht_entry) (hh : Z) e (b : bool) (e' : ck_ht_entry)
    (t' : ck_ht) : Prop :=
  if b then held t l (query hh e) e' /\ ∃ l', ht_post t t' l' /\ e' :: l' ≡ₚ l
  else e' = e /\ unheld t l (query hh e) /\ t' = t.

Lemma bury_ok t mp s e :
  wf t mp -> entries mp !! Z.to_nat s = Some e -> kind e = Live ->
  let u := set_n_entries (store_tombstone mp s) (u64 (n_entries (store_tombstone mp s) - 1)) in
  wf t u /\ e :: contents u ≡ₚ contents mp.
Proof.
  intros W Hs Hk u.
  assert (entries u = <[Z.to_nat s := bury e]> (entries mp)) as He by by apply alter_insert_lookup.
  destruct (sound_kill kind hash (sm t) (mpos mp) (entries mp) (bound_fn mp) (Z.to_nat s) e (bury e))
    as [S2 L2]; [apply W|done..|].
  assert (e :: contents u ≡ₚ contents mp) as HL by (by rewrite He).
  split; [|done]. apply wf_of_core.
  - eapply core_change; [apply W|by split_and!|..]; rewrite (_ : entries _ = <[Z.to_nat s := bury e]> (entries mp)) //.
    + by rewrite length_insert.
    + intros x Hx. apply W. rewrite -L2. by right.
  - pose proof (wf_n_entries _ _ _ _ _ W) as HN. pose proof (eq_sym (Permutation_length HL)) as HL'.
    change (length (contents mp) = S (length (contents u))) in HL'.
    pose proof (length_contents _ _ _ t mp W) as H.
    pose proof (ht_capacity_range _ _ _ _ _ (wf_core _ _ _ _ _ W)).
    change (entries (store_tombstone mp s)) with (entries u).
    change (n_entries (store_tombstone mp s)) with (n_entries mp). rewrite HN HL'.
    rewrite /u64 Z.mod_small; lia.
Qed.

Lemma ck_ht_remove_spmc_ok t hh e :
  ht_wf t -> eok t (query hh e) ->
  ∃ b e' t', ck_ht_remove_spmc shr_undef byte_at t hh e = Some (b, e', t') /\
             remove_spec t (contents (map t)) hh e b e' t'.
Proof.
  intros W Hq. unfold ck_ht_remove_spmc. cbv zeta.
  destruct (probe_query_ok t hh e W Hq) as (r & Hr & Hok). rewrite Hr. cbn [mbind option_bind].
  destruct r as [[s snap]|].
  - destruct (snapshot_cases t _ s snap Hok) as [[-> Hun]|(-> & Hh & Hk & Hs)].
    + by exists false, e, t.
    + destruct (bury_ok t (map t) s snap (ht_wf_map _ _ _ _ _ W) Hs Hk) as [Wu L].
      eexists true, snap, _. split; [done|]. split; [done|]. eexists. split; [|exact L].
      split_and!; [by apply ht_wf_set_map|done|done].
  - exists false, e, t. split; [done|]. split_and!; [done| |done]. by apply absent_unheld.
Qed.
End spec.
