(* ===== verification/HtGc.v ===== *)
(** The hash table: garbage collection keeps the entries and recomputes the probe
    bounds. *)

From S2P Require Export HtSpec.
Set Warnings "-rewrite-rw,-clear-no-such-hyp".

Section gc.
Context (malloc_ok : heap -> Z -> bool) (shr_undef : Z -> Z -> Z).
Context (byte_at : Z -> Z) (len_of : Z -> Z).
Implicit Types (t : ck_ht) (mp : ck_ht_map) (e q : ck_ht_entry).

Abbreviation core := (map_core shr_undef byte_at len_of).
Abbreviation wf := (map_wf shr_undef byte_at len_of).
Abbreviation mpos := (mpos shr_undef).
Abbreviation mpath mp := (path kind (mpos mp) (entries mp)).
Abbreviation eok := (entry_ok byte_at len_of).
Abbreviation sm t := (same byte_at len_of (mode t)).
Abbreviation ht_wf := (ht_wf malloc_ok shr_undef byte_at len_of).
Abbreviation ht_post := (ht_post malloc_ok shr_undef byte_at len_of).

(** * One live entry

    What the body of the loop does to the entry in slot [s]: it ends up in slot
    [s2], at position [i] of its walk. *)
Record ht_gc_stepped t mp (s : nat) e (r : probe_wr_result) mp' : Prop := {
  hg_wf : wf t mp';
  hg_contents : contents mp' ≡ₚ contents mp;
  hg_shape : same_shape mp mp';
  hg_where : ∃ s2 i, entries mp' !! s2 = Some e /\ mpos mp (hash e) i = s2 /\
    mpath mp' (hash e) i /\ wr_probe_wr r = Z.of_nat i + 1 /\
    Z.of_nat i < 2 * probe_limit mp /\
    ∀ s' e', entries mp' !! s' = Some e' -> kind e' = Live ->
      s' = s2 \/ entries mp !! s' = Some e' /\ s' <> s;
  hg_path hh p : mpath mp hh p -> mpath mp' hh p;
}.

Definition ht_gc_move mp (r : probe_wr_result) : option ck_ht_map :=
  match wr_available r with
  | None => Some mp
  | Some priority =>
      slot ← wr_cursor r;
      e ← entries mp !! Z.to_nat slot;
      Some (relocate mp priority e slot)
  end.

Lemma ht_relocate_ok t mp a c e v n :
  wf t mp -> eok t e -> at_walk shr_undef mp e a n -> (n < bound_fn mp (hash e))%nat ->
  entries mp !! Z.to_nat a = Some v -> kind v = Dead ->
  entries mp !! Z.to_nat c = Some e ->
  let mp' := relocate mp a e c in
  entries mp' = <[Z.to_nat c := bury e]> (<[Z.to_nat a := e]> (entries mp)) /\
  wf t mp' /\ contents mp' ≡ₚ contents mp.
Proof.
  intros W He (H1 & H2 & H3) Hb Hv Hkv Hc mp'.
  assert (Z.to_nat a <> Z.to_nat c) as Hne.
  { intros Heq. rewrite Heq Hc in Hv. simplify_eq. destruct He as [? _]. congruence. }
  assert (entries mp' = <[Z.to_nat c := bury e]> (<[Z.to_nat a := e]> (entries mp))) as Hent.
  { cbn. apply alter_insert_lookup. by rewrite list_lookup_insert_ne. }
  destruct (sound_relocate kind hash (sm t) _ (same_sym byte_at len_of t) (same_trans byte_at len_of t)
    (entries mp) (bound_fn mp) (Z.to_nat a) (Z.to_nat c) e e (bury e) v n
    (wf_sound _ _ _ _ _ (wf_core _ _ _ _ _ W))) as [S2 L2]; [apply He|done|done|done|done|apply He| |done|].
  { by left. }
  assert (contents mp' ≡ₚ contents mp) as HL.
  { rewrite Hent. by apply (Permutation_cons_inv (a := e)). }
  split_and!; [done| |done]. split.
  - eapply core_change; [apply W|by split_and!|by rewrite Hent !length_insert|by rewrite Hent|].
    intros x Hx. apply W. by rewrite -HL.
  - change (n_entries mp' ) with (n_entries mp). by rewrite HL (wf_n_entries _ _ _ _ _ W).
Qed.

Lemma ht_gc_step_ok t mp s e :
  wf t mp -> entries mp !! s = Some e -> kind e = Live ->
  ∃ r mp', ck_ht_map_probe_wr shr_undef byte_at mp (hash e) (key e) (probe_length t e) true = Some r /\
    ht_gc_move mp r = Some mp' /\ ht_gc_stepped t mp s e r mp'.
Proof.
  intros W Hs Hk. assert (e ∈ contents mp) as Hin by (apply elem_of_live; eauto).
  assert (eok t e) as He by by apply W.
  destruct (probe_wr_ok shr_undef byte_at len_of t mp e W He true) as (r & Hr & P & Hpw).
  pose proof (ht_bound_get_range _ _ _ t mp (hash e) W) as Hb.
  assert (absent kind (entries mp) (HtInv.found byte_at len_of t e) -> False) as Hno.
  { intros Ha. eapply Ha; [exact Hs|done|]. by left. }
  destruct (wr_cursor r) as [c|] eqn:Hc; [|by destruct Hno; eapply wo_none].
  destruct (wo_cursor _ _ _ _ _ _ _ P c Hc)
    as (p & Hw & Hcs & Hn & Hlt & [[_ Ha]|(Hkc & Hf & Hpb)]); [by destruct Hno|].
  assert (Z.to_nat c = s) as Hss.
  { eapply (so_unique _ _ _ _ _ _ (wf_sound _ _ _ _ _ (wf_core _ _ _ _ _ W)));
      [exact Hcs|exact Hs|done|done|exact Hf]. }
  rewrite Hss Hs in Hcs. injection Hcs as Hsnap.
  exists r. unfold ht_gc_move. destruct (wr_available r) as [a|] eqn:Ha.
  - rewrite Hc /= Hss Hs /=. eexists. split; [done|]. split; [done|].
    destruct (wo_available _ _ _ _ _ _ _ P a Ha) as (n & v & Hwa & Hv & Hkv & Hnn).
    destruct (ht_relocate_ok t mp a c e v n W He Hwa) as (Hent & W' & L'); [|done..| |].
    { specialize (Hlt ltac:(by eexists)). lia. }
    { by rewrite Hss. }
    destruct Hwa as (H1 & H2 & H3).
    assert (Z.to_nat a <> s) as Hne by (intros Heq; rewrite Heq Hs in Hv; simplify_eq; congruence).
    rewrite Hss in Hent.
    assert (∀ hh p, mpath mp hh p -> path kind (mpos mp) (entries (relocate mp a e c)) hh p) as Hpath.
    { intros h' p' Hp'. rewrite Hent. apply path_insert; [done|]. apply path_insert; [congruence|done]. }
    split; [done|done|by split_and!| |exact Hpath].
    exists (Z.to_nat a), n. split_and!; [|done|by apply Hpath|done|lia|].
    + rewrite Hent list_lookup_insert_ne // list_lookup_insert_eq //. by eapply lookup_lt_Some.
    + intros s' e' He' Hk'. rewrite Hent in He'.
      apply list_lookup_insert_Some in He' as [(_ & <- & _)|[Hns He']]; [done|].
      apply list_lookup_insert_Some in He' as [(? & _ & _)|[_ He']]; [by left|by right].
  - eexists. split; [done|]. split; [done|]. destruct Hw as (H1 & H2 & H3).
    split; [done|done|done| |done]. exists s, p. rewrite Hpw // Hn -Hss.
    split_and!; [congruence|done|done|done|lia|].
    intros s' e' He' Hk'. destruct (decide (s' = Z.to_nat c)); [by left|by right].
Qed.

(** * The new bounds

    The bounds being computed, as a map of their own with no entries. *)

Definition ht_new_bounds mp (maximum : Z) (bounds : option (list Z)) : ck_ht_map :=
  CkHtMap (map_mode mp) 0 maximum (probe_limit mp) 0 0 (mask mp) (capacity mp) (step mp) bounds
    (replicate (Z.to_nat (capacity mp)) zero_entry).

Definition ht_le_word_max (bounds : option (list Z)) : Prop :=
  match bounds with Some b => Forall (λ x, x <= CK_HT_WORD_MAX) b | None => True end.

Lemma ht_new_bounds_core t mp mx b :
  core t mp -> 0 <= mx <= 2 * probe_limit mp ->
  match b with
  | Some b => length b = Z.to_nat (capacity mp) /\ Forall (λ x, 0 <= x <= 2 * probe_limit mp) b
  | None => True
  end -> core t (ht_new_bounds mp mx b).
Proof.
  intros C Hm Hb. split; cbn; try apply C; [|done|done| |].
  - by rewrite length_replicate.
  - apply sound_empty, ht_live_replicate.
  - intros e He. change (e ∈ live kind (replicate (Z.to_nat (capacity mp)) zero_entry)) in He.
    rewrite ht_live_replicate in He. by apply elem_of_nil in He.
Qed.

Lemma ht_new_bounds_set mp mx b hh n :
  ht_le_word_max b ->
  ck_ht_map_bound_set (ht_new_bounds mp mx b) hh n =
  ht_new_bounds mp (if mx <? n then n else mx)
    (match b with
     | None => None
     | Some b =>
         let n := if CK_HT_WORD_MAX <=? n then CK_HT_WORD_MAX else n in
         let i := Z.to_nat (Z.land hh (mask mp)) in
         if default 0 (b !! i) <? n then Some (<[i := n]> b) else Some b
     end).
Proof.
  intros Hw. unfold ck_ht_map_bound_set, ht_new_bounds. cbn.
  destruct (mx <? n); cbn; destruct b as [b|]; cbn; try done; cbn in Hw.
  all: set (i := Z.to_nat (Z.land hh (mask mp))).
  all: destruct (Z.leb_spec CK_HT_WORD_MAX n) as [H1|H1]; [|by destruct (_ <? _)].
  all: assert (default 0 (b !! i) <= CK_HT_WORD_MAX) as Hi
         by (destruct (b !! i) as [x|] eqn:Hx; simpl;
             [by rewrite Forall_lookup in Hw; eapply Hw|done]).
  all: destruct (Z.ltb_spec (default 0 (b !! i)) CK_HT_WORD_MAX) as [H2|H2];
       [rewrite (proj2 (Z.ltb_lt (default 0 (b !! i)) n)); [lia|done]|].
  all: destruct (default 0 (b !! i) <? n); [|done].
  all: unfold set_probe_bound; cbn; do 2 f_equal; apply list_insert_id'.
  all: intros Hlt; apply lookup_lt_is_Some_2 in Hlt as [x Hx]; rewrite Hx /= in Hi, H2; rewrite Hx.
  all: f_equal; lia.
Qed.

Lemma ht_le_word_max_set b i n :
  ht_le_word_max (Some b) -> n <= CK_HT_WORD_MAX ->
  ht_le_word_max (if default 0 (b !! i) <? n then Some (<[i := n]> b) else Some b).
Proof. intros Hw Hn. destruct (_ <? _); [|done]. by apply Forall_insert. Qed.

Lemma ht_new_bounds_shape mp mp' mx b :
  same_shape mp mp' -> ht_new_bounds mp' mx b = ht_new_bounds mp mx b.
Proof. intros (H1 & H2 & H3 & H4 & H5 & _). unfold ht_new_bounds. by rewrite H1 H2 H3 H4 H5. Qed.

(** * The scan order visits every slot *)

Definition ht_scan mp (gc_seed i : Z) : nat := Z.to_nat (Z.land (u64 (i + gc_seed)) (mask mp)).

Lemma ht_scan_complete t mp gc_seed s :
  core t mp -> (s < Z.to_nat (capacity mp))%nat ->
  ∃ i, 0 <= i < capacity mp /\ ht_scan mp gc_seed i = s.
Proof.
  intros C Hs. destruct (wf_capacity _ _ _ _ _ C) as (k & Hk & Hc). unfold ht_scan.
  rewrite (wf_mask _ _ _ _ _ C) Hc. apply mask_scan_complete; [lia|]. by rewrite -Hc.
Qed.

Lemma ht_scan_lookup t mp gc_seed i :
  core t mp -> ∃ e, entries mp !! ht_scan mp gc_seed i = Some e.
Proof.
  intros C. apply lookup_lt_is_Some. rewrite (wf_length _ _ _ _ _ C). by eapply ht_home_lt.
Qed.

(** * The loops *)

(** With a cycle count, the loop relocates entries and nothing else. *)
Lemma ht_gc_cycles_ok t todo i cycles gc_seed mp mx b :
  wf t mp -> 0 < cycles ->
  ∃ mp', gc_loop shr_undef byte_at t todo i cycles gc_seed mp mx b = Some (mp', mx, b) /\
         wf t mp' /\ contents mp' ≡ₚ contents mp /\ same_shape mp mp'.
Proof.
  intros W. revert i cycles mp W. induction todo as [|todo IH]; intros i cycles mp W Hc.
  { exists mp. by split_and!. }
  cbn [gc_loop]. destruct (ht_scan_lookup t mp gc_seed i W) as [e He].
  pose proof He as He'. unfold ht_scan in He'. rewrite He'. cbn [mbind option_bind].
  destruct (slot_cases e) as [[Hk Ht]|[(Hk & Ht & Hv)|(Hk & Ht & Hv)]]; rewrite Ht ?Hv ?orb_true_r; cbn [orb];
    [by apply IH..|].
  destruct (ht_gc_step_ok t mp _ e W He Hk) as (r & mp1 & Hr & Hm & G).
  cbv zeta. unfold ck_ht_entry_key. rewrite Hr. cbn [mbind option_bind].
  change (match wr_available r with Some first => _ | None => _ end) with (ht_gc_move mp r).
  rewrite Hm. cbn [mbind option_bind]. rewrite (proj2 (Z.eqb_neq cycles 0)); [lia|].
  destruct (Z.eqb_spec (cycles - 1) 0) as [H0|H0].
  { exists mp1. split_and!; [done|apply G|apply G|apply G..]. }
  destruct (IH (i + 1) (cycles - 1) mp1 (hg_wf _ _ _ _ _ _ G)) as (mp' & Hg & W' & L' & S'); [lia|].
  exists mp'. split_and!; [done|done| |by eapply ht_same_shape_trans; [apply G|]].
  by rewrite L' (hg_contents _ _ _ _ _ _ G).
Qed.

(** The slots scanned so far are within the new bounds. *)
Definition ht_covered mp gc_seed mx b (i : Z) : Prop :=
  ∀ s e, entries mp !! s = Some e -> kind e = Live ->
    (∃ i', i <= i' < capacity mp /\ ht_scan mp gc_seed i' = s) \/
    ∃ p, (p < bound_fn (ht_new_bounds mp mx b) (hash e))%nat /\
         mpos mp (hash e) p = s /\ mpath mp (hash e) p.

Lemma ht_covered_dead mp gc_seed mx b i e :
  ht_covered mp gc_seed mx b i -> entries mp !! ht_scan mp gc_seed i = Some e -> kind e <> Live ->
  ht_covered mp gc_seed mx b (i + 1).
Proof.
  intros Hc Hv Hk s e' Hs He. destruct (Hc s e' Hs He) as [(i' & Hi' & Hsc)|?]; [|by right].
  left. exists i'. split; [|done]. destruct (decide (i' = i)) as [->|]; [|lia]. congruence.
Qed.

Lemma ht_covered_step t mp mp1 gc_seed mx b mx1 b1 i e r :
  ht_covered mp gc_seed mx b i -> core t (ht_new_bounds mp mx b) ->
  ht_gc_stepped t mp (ht_scan mp gc_seed i) e r mp1 ->
  ck_ht_map_bound_set (ht_new_bounds mp mx b) (hash e) (wr_probe_wr r) = ht_new_bounds mp mx1 b1 ->
  ht_covered mp1 gc_seed mx1 b1 (i + 1).
Proof.
  intros Hc C G Hset s e' Hs He.
  destruct (hg_where _ _ _ _ _ _ G) as (s2 & n & Hs2 & Hpos & Hpath & Hn & Hq & Hothers).
  pose proof (hg_shape _ _ _ _ _ _ G) as Hsh. pose proof Hsh as (E1 & E2 & E3 & _).
  destruct (ht_bound_set_ok shr_undef byte_at len_of t (ht_new_bounds mp mx b) (hash e) (wr_probe_wr r) C)
    as [Hb Hmono]; [cbn; lia|].
  unfold ht_scan, HtInv.mpos. rewrite E1 E2 E3 (ht_new_bounds_shape mp mp1) //.
  assert (∀ hh p, path kind (mpos mp) (entries mp1) hh p ->
    path kind (pos shr_undef (mask mp) (step mp)) (entries mp1) hh p) as Hid by done.
  assert (∀ hh p, mpath mp1 hh p -> path kind (mpos mp) (entries mp1) hh p) as Hid'.
  { intros hh p. unfold HtInv.mpos. by rewrite E2 E3. }
  destruct (Hothers s e' Hs He) as [->|[Hold Hne]].
  - right. rewrite Hs in Hs2. simplify_eq. exists n.
    split_and!; [|done|by apply Hid, Hid']. rewrite Hset in Hb. unfold bound_fn. lia.
  - destruct (Hc s e' Hold He) as [(i' & Hi' & Hsc)|(p & Hp & Hps & Hpp)].
    + left. exists i'. split; [|done]. destruct (decide (i' = i)) as [->|]; [done|lia].
    + right. exists p. split_and!; [|done|].
      * specialize (Hmono (hash e')). rewrite Hset in Hmono. unfold bound_fn in *. lia.
      * by apply Hid, Hid', (hg_path _ _ _ _ _ _ G).
Qed.

Lemma ht_gc_full_ok t todo i gc_seed mp mx b :
  wf t mp -> 0 <= i -> i + Z.of_nat todo = capacity mp ->
  core t (ht_new_bounds mp mx b) -> ht_le_word_max b -> ht_covered mp gc_seed mx b i ->
  ∃ mp' mx' b', gc_loop shr_undef byte_at t todo i 0 gc_seed mp mx b = Some (mp', mx', b') /\
    wf t mp' /\ contents mp' ≡ₚ contents mp /\ same_shape mp mp' /\
    core t (ht_new_bounds mp' mx' b') /\ ht_covered mp' gc_seed mx' b' (capacity mp) /\
    (is_Some b <-> is_Some b').
Proof.
  intros W. revert i mp mx b W. induction todo as [|todo IH]; intros i mp mx b W Hi Hsum C Hw Hc.
  { exists mp, mx, b. split_and!; [done..| |done]. by replace (capacity mp) with i by lia. }
  cbn [gc_loop]. destruct (ht_scan_lookup t mp gc_seed i W) as [e He].
  pose proof He as He'. unfold ht_scan in He'. rewrite He'. cbn [mbind option_bind]. clear He'.
  destruct (slot_cases e) as [[Hk Ht]|[(Hk & Ht & Hv)|(Hk & Ht & Hv)]];
    rewrite Ht ?Hv ?orb_true_r; cbn [orb];
    [apply IH; [done|lia|lia|done|done|by eapply ht_covered_dead; [exact Hc|exact He|congruence]]..|].
  destruct (ht_gc_step_ok t mp _ e W He Hk) as (r & mp1 & Hr & Hm & G).
  cbv zeta. unfold ck_ht_entry_key. rewrite Hr. cbn [mbind option_bind].
  change (match wr_available r with Some first => _ | None => _ end) with (ht_gc_move mp r).
  rewrite Hm. cbn [mbind option_bind]. change (0 =? 0) with true. cbv iota.
  destruct (hg_where _ _ _ _ _ _ G) as (s2 & n & _ & _ & _ & Hn & Hq & _).
  assert (0 <= wr_probe_wr r <= 2 * probe_limit (ht_new_bounds mp mx b)) as Hnr by (cbn; lia).
  pose proof (ht_core_bound_set _ _ _ _ _ (hash e) (wr_probe_wr r) C Hnr) as C1.
  pose proof (hg_shape _ _ _ _ _ _ G) as Hsh. pose proof Hsh as (E1 & E2 & _).
  pose proof (ht_new_bounds_set mp mx b (hash e) (wr_probe_wr r) Hw) as Hset.
  cbv zeta in Hset. rewrite Hset in C1.
  match type of Hset with _ = ht_new_bounds mp ?mx1 ?b1 => set (mx2 := mx1) in *; set (b2 := b1) in * end.
  assert (ht_le_word_max b2) as Hw2.
  { subst b2. destruct b as [b|]; [|done]. apply ht_le_word_max_set; [done|].
    unfold CK_HT_WORD_MAX. zcase. }
  destruct (IH (i + 1) mp1 mx2 b2) as (mp' & mx' & b' & Hg & W' & L' & S' & C' & Hc' & Hb');
    [apply G|lia|lia|by rewrite (ht_new_bounds_shape mp mp1)|done|by eapply ht_covered_step|].
  exists mp', mx', b'. split_and!; [|done| |by eapply ht_same_shape_trans|done|by rewrite -E1|].
  - rewrite -Hg. by destruct b.
  - by rewrite L' (hg_contents _ _ _ _ _ _ G).
  - rewrite -Hb'. subst b2. destruct b as [b|]; [|done].
    destruct (default _ _ <? _); split; eauto.
Qed.

(** * ck_ht_gc *)

Lemma ht_wf_new_bounds t mp mx b :
  wf t mp -> core t (ht_new_bounds mp mx b) ->
  placed kind hash (mpos mp) (entries mp) (bound_fn (ht_new_bounds mp mx b)) ->
  wf t (set_probe_bound (set_probe_maximum mp mx) b).
Proof.
  intros W C Hp. split; [|apply W].
  split; cbn; [apply W|apply W|apply W|apply W|apply W|apply C|apply C| |apply W].
  split; [exact Hp|apply (wf_sound _ _ _ _ _ (wf_core _ _ _ _ _ W))].
Qed.

Lemma ht_covered_placed mp gc_seed mx b :
  ht_covered mp gc_seed mx b (capacity mp) ->
  placed kind hash (mpos mp) (entries mp) (bound_fn (ht_new_bounds mp mx b)).
Proof. intros Hc s e Hs He. destruct (Hc s e Hs He) as [(i' & Hi' & _)|?]; [lia|done]. Qed.

Lemma ht_gc_empty_ok t :
  ht_wf t -> n_entries (map t) = 0 ->
  wf t (set_probe_bound (set_probe_maximum (map t) 0)
    (match probe_bound (map t) with
     | None => None
     | Some _ => Some (replicate (Z.to_nat (capacity (map t))) 0)
     end)).
Proof.
  intros W Hn. pose proof (ht_wf_map _ _ _ _ _ W) as Wm. pose proof (wf_limit _ _ _ _ _ (wf_core _ _ _ _ _ Wm)).
  apply ht_wf_new_bounds; [done| |].
  - apply ht_new_bounds_core; [apply Wm|lia|]. destruct (probe_bound (map t)); [|done].
    rewrite length_replicate. split; [done|]. apply Forall_replicate. lia.
  - apply placed_none, nil_length_inv. rewrite (wf_n_entries _ _ _ _ _ Wm) in Hn. lia.
Qed.

(** The full scan, from empty bounds. *)
Lemma ht_gc_scan_ok t gc_seed b :
  ht_wf t ->
  b = match probe_bound (map t) with
      | Some _ => Some (replicate (Z.to_nat (capacity (map t))) 0)
      | None => None
      end ->
  ∃ mp' mx' b', gc_loop shr_undef byte_at t (Z.to_nat (capacity (map t))) 0 0 gc_seed (map t) 0 b =
                  Some (mp', mx', b') /\
    wf t (set_probe_bound (set_probe_maximum mp' mx') b') /\
    contents mp' ≡ₚ contents (map t) /\ same_shape (map t) mp' /\
    (is_Some b <-> is_Some b').
Proof.
  intros W Hb. pose proof (ht_wf_map _ _ _ _ _ W) as Wm.
  pose proof (wf_limit _ _ _ _ _ (wf_core _ _ _ _ _ Wm)) as Hl.
  pose proof (ht_capacity_range _ _ _ _ _ (wf_core _ _ _ _ _ Wm)) as Hr.
  destruct (ht_gc_full_ok t (Z.to_nat (capacity (map t))) 0 gc_seed (map t) 0 b Wm)
    as (mp' & mx' & b' & Hg & W' & L' & S' & C' & Hc' & Hb'); [lia|lia| | | |].
  - apply ht_new_bounds_core; [apply Wm|lia|]. subst b. destruct (probe_bound _); [|done].
    rewrite length_replicate. split; [done|]. apply Forall_replicate. lia.
  - subst b. destruct (probe_bound _); [|done]. by apply Forall_replicate.
  - intros s e Hs He. left. eapply ht_scan_complete; [apply Wm|].
    rewrite -(wf_length _ _ _ _ _ (wf_core _ _ _ _ _ Wm)). by eapply lookup_lt_Some.
  - exists mp', mx', b'. split_and!; [done| |done..]. apply ht_wf_new_bounds; [done|done|].
    apply (ht_covered_placed mp' gc_seed). by destruct S' as (-> & _).
Qed.

Lemma ht_set_maximum_id mp mx :
  (if mx =? probe_maximum mp then mp else set_probe_maximum mp mx) = set_probe_maximum mp mx.
Proof. destruct (Z.eqb_spec mx (probe_maximum mp)) as [->|]; [by destruct mp|done]. Qed.

Lemma ck_ht_gc_ok t cycles gc_seed :
  ht_wf t -> 0 <= cycles ->
  ∃ b t', ck_ht_gc malloc_ok shr_undef byte_at t cycles gc_seed = Some (b, t') /\
          ht_post t t' (contents (map t)) /\ (b = false -> alloc_failed (m t')).
Proof.
  intros W Hcy. pose proof (ht_wf_map _ _ _ _ _ W) as Wm. unfold ck_ht_gc. cbv zeta.
  destruct (Z.eqb_spec (n_entries (map t)) 0) as [Hn|Hn].
  { eexists true, _. split_and!; [done| |done]. split_and!; [|done|done].
    apply ht_wf_set_map; [done| |done|done]. by apply ht_gc_empty_ok. }
  destruct (Z.eqb_spec cycles 0) as [->|Hc0]; last first.
  { destruct (ht_gc_cycles_ok t (Z.to_nat (capacity (map t))) 0 cycles gc_seed (map t)
      (probe_maximum (map t)) None Wm ltac:(lia)) as (mp' & Hg & W' & L' & S').
    cbn [negb]. rewrite Hg. cbn [mbind option_bind]. destruct S' as (E1 & E2 & E3 & E4 & E5 & E6 & E7 & E8).
    rewrite E6 Z.eqb_refl. eexists true, _. split_and!; [done| |done].
    split_and!; [|done|done]. by apply (ht_wf_set_map _ _ _ _ t). }
  set (b0 := match probe_bound (map t) with
             | Some _ => Some (replicate (Z.to_nat (capacity (map t))) 0)
             | None => None
             end).
  destruct (ht_gc_scan_ok t gc_seed b0 W eq_refl) as (mp' & mx' & b' & Hg & W' & L' & S' & Hb').
  assert (∀ hp, outstanding hp = outstanding (m t) ->
    ht_post t (set_map (set_m t hp) (set_probe_bound (set_probe_maximum mp' mx') b')) (contents (map t)))
    as Hpost.
  { intros hp Hh. destruct S' as (E1 & E2 & E3 & E4 & E5 & E6 & E7 & E8).
    split_and!; [|done|done]. apply ht_wf_set_map; [by apply ht_wf_set_m| |done|done].
    by eapply ht_config_wf; [|exact W']. }
  destruct (probe_bound (map t)) as [pb|] eqn:Hpb.
  - unfold malloc. destruct (malloc_ok (m t) (capacity (map t))) eqn:Hok; cbn [negb]; last first.
    { eexists false, _. split_and!; [done| |intros _; by eexists _, _].
      split_and!; [by apply ht_wf_set_m|done|done]. }
    fold b0. rewrite Hg. cbn [mbind option_bind]. rewrite ht_set_maximum_id.
    destruct Hb' as [[b'' ->] _]; [by eexists|].
    eexists true, _. split_and!; [done| |done]. apply Hpost. cbn. lia.
  - cbn [negb]. fold b0. rewrite Hg. cbn [mbind option_bind]. rewrite ht_set_maximum_id.
    destruct b' as [b'|]; [by destruct Hb' as [_ [? ?]]|].
    eexists true, _. split_and!; [done| |done].
    assert (set_probe_bound (set_probe_maximum mp' mx') None = set_probe_maximum mp' mx') as <-.
    { destruct S' as (_ & _ & _ & _ & _ & _ & E7 & _). rewrite Hpb in E7. by destruct mp'; cbn in *; subst. }
    by apply Hpost.
Qed.
End gc.
