(* ===== verification/HtTheorems.v ===== *)
(** The hash table: its theorems.  Any history of operations on a freshly
    initialised table behaves as the same history on an abstract map. *)

From S2P Require Export HtGc.
Set Warnings "-rewrite-rw,-clear-no-such-hyp".

(** * The abstract map

    Its state is a list of entries up to permutation.  An operation names a key
    by its pointer (or word) and length, as a client of the table does. *)

Inductive ht_op :=
| HtGet (k len : Z) | HtPut (k len v : Z) | HtSet (k len v : Z) | HtRemove (k len : Z)
| HtGrow (capacity : Z) | HtGc (cycles seed : Z) | HtReset | HtResetSize (capacity : Z).

Inductive ht_ret := HtBool (b : bool) | HtEntry (b : bool) (e : ck_ht_entry).

Section abstract.
Context (byte_at : Z -> Z) (len_of : Z -> Z).
Abbreviation held := (held byte_at len_of).
Abbreviation unheld := (unheld byte_at len_of).

(** The hash a client computes: [ck_ht_hash] or [ck_ht_hash_direct]. *)
Definition client_hash (t : ck_ht) (k len : Z) : Z :=
  if bytestring (mode t) then ck_ht_hash byte_at t k len else ck_ht_hash_direct t k.

(** The entry a client initialises for an insertion, and for a query. *)
Definition client_entry (t : ck_ht) (k len v : Z) : ck_ht_entry :=
  if bytestring (mode t) then ck_ht_entry_set (client_hash t k len) k len v
  else ck_ht_entry_set_direct zero_entry (client_hash t k len) k v.

Definition client_query (t : ck_ht) (k len : Z) : ck_ht_entry :=
  if bytestring (mode t) then ck_ht_entry_key_set zero_entry k len
  else ck_ht_entry_key_set_direct zero_entry k.

(** What is asked of the caller: ordinary keys, and one length for each pointer. *)
Definition ht_op_ok (t : ck_ht) (op : ht_op) : Prop :=
  match op with
  | HtGet k len | HtPut k len _ | HtSet k len _ | HtRemove k len =>
      k <> CK_HT_KEY_EMPTY /\ k <> CK_HT_KEY_TOMBSTONE /\
      (bytestring (mode t) = true -> u16 len = len_of k)
  | HtGrow cap => 0 <= cap < 2 ^ 64
  | HtGc cycles _ => 0 <= cycles
  | _ => True
  end.

(** [ht_abs_step t l op r oom l']: on a map holding [l], [op] may return [r] and
    leave [l']; [oom] tells whether its last allocation was refused. *)
Definition ht_abs_step (t : ck_ht) (l : list ck_ht_entry) (op : ht_op) (r : ht_ret) (oom : bool)
    (l' : list ck_ht_entry) : Prop :=
  match op with
  | HtGet k len => l' ≡ₚ l /\
      let q := query (client_hash t k len) (client_query t k len) in
      ((∃ e, r = HtEntry true e /\ held t l q e) \/
       r = HtEntry false (client_query t k len) /\ unheld t l q)
  | HtPut k len v =>
      let q := client_entry t k len v in
      r = HtBool true /\ unheld t l q /\ l' ≡ₚ q :: l \/
      r = HtBool false /\ l' ≡ₚ l /\ ((∃ e, held t l q e) \/ oom = true)
  | HtSet k len v =>
      let q := client_entry t k len v in
      (∃ e, r = HtEntry true e /\
        (key e = CK_HT_KEY_EMPTY /\ unheld t l q /\ l' ≡ₚ q :: l \/
         held t l q e /\ kind e = Live /\ e :: l' ≡ₚ q :: l)) \/
      r = HtEntry false q /\ l' ≡ₚ l /\ oom = true
  | HtRemove k len =>
      let q := query (client_hash t k len) (client_query t k len) in
      (∃ e, r = HtEntry true e /\ held t l q e /\ e :: l' ≡ₚ l) \/
      r = HtEntry false (client_query t k len) /\ unheld t l q /\ l' ≡ₚ l
  | HtGrow _ => (∃ b, r = HtBool b) /\ l' ≡ₚ l
  | HtGc _ _ => (r = HtBool true \/ r = HtBool false /\ oom = true) /\ l' ≡ₚ l
  | HtReset | HtResetSize _ =>
      r = HtBool true /\ l' = [] \/ r = HtBool false /\ l' ≡ₚ l /\ oom = true
  end.

Inductive ht_abs_trace (t : ck_ht) :
    list ck_ht_entry -> list ht_op -> list (ht_ret * bool) -> list ck_ht_entry -> Prop :=
| HtNil l : ht_abs_trace t l [] [] l
| HtCons l op r oom l1 ops rs l2 :
    ht_abs_step t l op r oom l1 -> ht_abs_trace t l1 ops rs l2 ->
    ht_abs_trace t l (op :: ops) ((r, oom) :: rs) l2.

Lemma ht_abs_step_config t t' l op r oom l' :
  ht_config t t' -> ht_abs_step t' l op r oom l' -> ht_abs_step t l op r oom l'.
Proof. destruct t, t'. intros (E1 & E2 & E3) H. cbn in *. subst. by destruct op. Qed.

Lemma ht_op_ok_config t t' op : ht_config t t' -> ht_op_ok t op -> ht_op_ok t' op.
Proof. destruct t, t'. intros (E1 & E2 & E3) H. cbn in *. subst. by destruct op. Qed.

Lemma ht_abs_trace_config t t' l ops rs l' :
  ht_config t t' -> ht_abs_trace t' l ops rs l' -> ht_abs_trace t l ops rs l'.
Proof.
  intros S T. induction T as [|l op r oom l1 ops rs l2 H T IH]; [constructor|].
  econstructor; [|exact IH]. by eapply ht_abs_step_config.
Qed.

(** What the client builds is well formed. *)
Lemma client_kind k : k <> CK_HT_KEY_EMPTY -> k <> CK_HT_KEY_TOMBSTONE ->
  ∀ v len hh, kind (CkHtEntry k v len hh) = Live.
Proof. intros H1 H2 v len hh. unfold kind. cbn. by rewrite (proj2 (Z.eqb_neq _ _)) ?(proj2 (Z.eqb_neq _ _)). Qed.

Lemma client_entry_ok t k len v :
  ht_op_ok t (HtPut k len v) ->
  entry_ok byte_at len_of t (client_entry t k len v) /\
  hash (client_entry t k len v) = client_hash t k len.
Proof.
  intros (H1 & H2 & H3). unfold client_entry, client_hash, entry_ok, key_hash, ck_ht_hash.
  destruct (bytestring (mode t)) eqn:Hb; cbn.
  - rewrite H3 //. split; [|done]. split_and!; [by apply client_kind|done|]. intros _.
    unfold ck_ht_entry_key_length. cbn. by apply H3.
  - split; [|done]. split_and!; [by apply client_kind|done|done].
Qed.

Lemma client_query_ok t k len :
  ht_op_ok t (HtGet k len) ->
  entry_ok byte_at len_of t (query (client_hash t k len) (client_query t k len)).
Proof.
  intros (H1 & H2 & H3). unfold client_query, client_hash, entry_ok, key_hash, ck_ht_hash, query.
  destruct (bytestring (mode t)) eqn:Hb; cbn.
  - rewrite H3 //. split_and!; [by apply client_kind|done|]. intros _.
    unfold ck_ht_entry_key_length. cbn. by apply H3.
  - split_and!; [by apply client_kind|done|done].
Qed.
End abstract.

(** * The concrete table *)

Section concrete.
Context (malloc_ok : heap -> Z -> bool) (shr_undef : Z -> Z -> Z).
Context (byte_at : Z -> Z) (len_of : Z -> Z).
Abbreviation ht_wf := (ht_wf malloc_ok shr_undef byte_at len_of).
Abbreviation limited := (ht_malloc_limited malloc_ok).
Abbreviation abs_step := (ht_abs_step byte_at len_of).
Abbreviation abs_trace := (ht_abs_trace byte_at len_of).

Definition ht_exec_op (t : ck_ht) (op : ht_op) : option (ht_ret * ck_ht) :=
  match op with
  | HtGet k len =>
      '(b, e) ← ck_ht_get_spmc shr_undef byte_at t (client_hash byte_at t k len) (client_query t k len);
      Some (HtEntry b e, t)
  | HtPut k len v =>
      '(b, t) ← ck_ht_put_spmc malloc_ok shr_undef byte_at t (client_hash byte_at t k len)
                  (client_entry byte_at t k len v);
      Some (HtBool b, t)
  | HtSet k len v =>
      '(b, e, t) ← ck_ht_set_spmc malloc_ok shr_undef byte_at t (client_hash byte_at t k len)
                     (client_entry byte_at t k len v);
      Some (HtEntry b e, t)
  | HtRemove k len =>
      '(b, e, t) ← ck_ht_remove_spmc shr_undef byte_at t (client_hash byte_at t k len)
                     (client_query t k len);
      Some (HtEntry b e, t)
  | HtGrow cap => '(b, t) ← ck_ht_grow_spmc malloc_ok shr_undef t cap; Some (HtBool b, t)
  | HtGc cycles sd => '(b, t) ← ck_ht_gc malloc_ok shr_undef byte_at t cycles sd; Some (HtBool b, t)
  | HtReset => let '(b, t) := ck_ht_reset_spmc malloc_ok t in Some (HtBool b, t)
  | HtResetSize cap => let '(b, t) := ck_ht_reset_size_spmc malloc_ok t cap in Some (HtBool b, t)
  end.

Fixpoint ht_run_ops (t : ck_ht) (ops : list ht_op) : option (list (ht_ret * bool) * ck_ht) :=
  match ops with
  | [] => Some ([], t)
  | op :: ops =>
      '(r, t) ← ht_exec_op t op;
      '(rs, t') ← ht_run_ops t ops;
      Some ((r, refused (m t)) :: rs, t')
  end.

(** * Simulation *)

Lemma ht_reset_size_ok t cap :
  ht_wf t ->
  ∃ b t', ck_ht_reset_size_spmc malloc_ok t cap = (b, t') /\ ht_wf t' /\ ht_config t t' /\
          if b : bool then contents (map t') = [] else map t' = map t /\ alloc_failed (m t').
Proof.
  intros W. unfold ck_ht_reset_size_spmc.
  destruct (ck_ht_map_create malloc_ok (m t) (mode t) cap) as [[mp|] h1] eqn:Hc.
  - apply (ht_create_ok malloc_ok shr_undef byte_at len_of t) in Hc as (Wm & Hl & Hcm & Hout & Hsz & Hal).
    eexists true, _. split; [done|]. split; [|by split_and!].
    split; cbn; [by eapply ht_config_wf; [|exact Wm]| |lia|eauto].
    rewrite Hout (ht_wf_heap _ _ _ _ _ W). lia.
  - apply ht_create_fail in Hc as (Ho & sz & ->). eexists false, _. split; [done|].
    split; [by apply ht_wf_set_m|]. split; [done|]. split; [done|]. by eexists _, _.
Qed.

Lemma ht_reset_step t cap :
  ht_wf t ->
  ∃ b t', ck_ht_reset_size_spmc malloc_ok t cap = (b, t') /\ ht_wf t' /\ ht_config t t' /\
    (HtBool b = HtBool true /\ contents (map t') = [] \/
     HtBool b = HtBool false /\ contents (map t') ≡ₚ contents (map t) /\ refused (m t') = true).
Proof.
  intros W. destruct (ht_reset_size_ok t cap W) as (b & t' & Hg & W' & S' & Hb).
  exists b, t'. split_and!; [done..|]. destruct b; [by left|right].
  destruct Hb as [-> Hf%refused_spec]. by split_and!.
Qed.

Lemma ht_exec_op_ok t op :
  ht_wf t -> limited -> ht_op_ok len_of t op ->
  ∃ r t', ht_exec_op t op = Some (r, t') /\ ht_wf t' /\ ht_config t t' /\
          abs_step t (contents (map t)) op r (refused (m t')) (contents (map t')).
Proof.
  intros W Hlim Hop. destruct op as [k len|k len v|k len v|k len|cap|cycles sd| |cap]; cbn [ht_exec_op].
  - destruct (ck_ht_get_spmc_ok malloc_ok shr_undef byte_at len_of t (client_hash byte_at t k len)
      (client_query t k len) W) as (b & e & Hg & Hp); [by apply client_query_ok|].
    rewrite Hg /=. eexists _, t. split_and!; [done|done|done|done|]. cbv zeta.
    destruct b; [left; by exists e|right]. by destruct Hp as [-> ?].
  - destruct (client_entry_ok byte_at len_of t k len v Hop) as [Hq <-].
    destruct (ck_ht_put_spmc_ok malloc_ok shr_undef byte_at len_of t _ W Hlim Hq) as (b & t' & Hg & Hp).
    rewrite Hg /=. eexists _, t'. split; [done|]. destruct b.
    + destruct Hp as [Hm (W' & S' & L')]. split_and!; [done..|]. by left.
    + destruct Hp as [(W' & S' & L') Ho]. split_and!; [done..|]. right. split_and!; [done..|].
      destruct Ho as [?|?%refused_spec]; auto.
  - destruct (client_entry_ok byte_at len_of t k len v Hop) as [Hq <-].
    destruct (ck_ht_set_spmc_ok malloc_ok shr_undef byte_at len_of t _ W Hlim Hq) as (b & e & t' & Hg & Hp).
    rewrite Hg /=. eexists _, t'. split; [done|]. destruct b.
    + destruct Hp as [(He & Hm & (W' & S' & L'))|(Hm & Hk & l' & (W' & S' & L') & Hl)].
      * split_and!; [done..|]. left. exists e. split; [done|]. by left.
      * split_and!; [done..|]. left. exists e. split; [done|]. right. by rewrite L'.
    + destruct Hp as (-> & (W' & S' & L') & Hf%refused_spec). split_and!; [done..|]. by right.
  - destruct (ck_ht_remove_spmc_ok malloc_ok shr_undef byte_at len_of t (client_hash byte_at t k len)
      (client_query t k len) W) as (b & e & t' & Hg & Hp); [by apply client_query_ok|].
    rewrite Hg /=. eexists _, t'. split; [done|]. destruct b.
    + destruct Hp as (Hm & l' & (W' & S' & L') & Hl). split_and!; [done..|]. left. exists e.
      by rewrite L'.
    + destruct Hp as (-> & Hm & ->). split_and!; [done..|]. by right.
  - destruct (ck_ht_grow_spmc_ok malloc_ok shr_undef byte_at len_of t cap W Hop)
      as (b & t' & Hg & (W' & S' & L') & _).
    rewrite Hg /=. eexists _, t'. split_and!; [done..|by exists b|done].
  - destruct (ck_ht_gc_ok malloc_ok shr_undef byte_at len_of t cycles sd W Hop)
      as (b & t' & Hg & (W' & S' & L') & Hf).
    rewrite Hg /=. eexists _, t'. split_and!; [done..| |done].
    destruct b; [by left|right]. split; [done|]. by apply refused_spec, Hf.
  - destruct (ht_reset_step t (capacity (map t)) W) as (b & t' & Hg & W' & S' & Hb).
    unfold ck_ht_reset_spmc. rewrite Hg. by eexists _, t'.
  - destruct (ht_reset_step t cap W) as (b & t' & Hg & W' & S' & Hb). rewrite Hg. by eexists _, t'.
Qed.

Lemma ht_run_ops_ok t ops :
  ht_wf t -> limited -> Forall (ht_op_ok len_of t) ops ->
  ∃ rs t', ht_run_ops t ops = Some (rs, t') /\ ht_wf t' /\ ht_config t t' /\
           abs_trace t (contents (map t)) ops rs (contents (map t')).
Proof.
  revert t. induction ops as [|op ops IH]; intros t W Hlim Hops.
  { exists [], t. split_and!; [done..|constructor]. }
  inversion_clear Hops as [|? ? Hop Hrest]. cbn [ht_run_ops].
  destruct (ht_exec_op_ok t op W Hlim Hop) as (r & t1 & He & W1 & S1 & A1).
  destruct (IH t1) as (rs & t2 & Hr & W2 & S2 & T2);
    [done|done|by eapply Forall_impl; [exact Hrest|]; intros ?; apply ht_op_ok_config|].
  rewrite He /= Hr /=. eexists _, t2. split_and!; [done|done|by eapply ht_config_trans|].
  econstructor; [exact A1|]. by eapply ht_abs_trace_config.
Qed.

Lemma ck_ht_init_ok md hf wrapper h0 n sd t :
  ck_ht_init malloc_ok md hf wrapper (Some (h0, true, true)) n sd = (true, Some t) ->
  outstanding h0 = 0 -> ht_wf t /\ contents (map t) = [].
Proof.
  unfold ck_ht_init. intros Hi Hout. cbv zeta in Hi.
  destruct (ck_ht_map_create malloc_ok h0 md n) as [[mp|] h1] eqn:Hc; [|done].
  injection Hi as <-.
  match goal with |- HtProofs.ht_wf _ _ _ _ ?x /\ _ =>
    destruct (ht_create_ok malloc_ok shr_undef byte_at len_of x _ _ _ _ Hc)
      as (Wm & Hl & Hcm & Ho & Hsz & Hal)
  end.
  split; [|exact Hl]. split; cbn; [exact Wm|lia|lia|eauto].
Qed.

(** * Iteration *)

(** Call [ck_ht_next] until it answers false. *)
Fixpoint ht_iterate (fuel : nat) (t : ck_ht) (offset : Z) : list ck_ht_entry :=
  match fuel with
  | O => []
  | S fuel => match ck_ht_next t offset with
              | Some (e, offset) => e :: ht_iterate fuel t offset
              | None => []
              end
  end.

Lemma ht_next_loop_ok mp todo (o : nat) :
  (o + todo = length (entries mp))%nat ->
  ∃ n : nat, next_loop mp todo (Z.of_nat o) = Z.of_nat n /\ (o <= n <= length (entries mp))%nat /\
    live kind (drop o (entries mp)) =
    match entries mp !! n with Some e => e :: live kind (drop (S n) (entries mp)) | None => [] end.
Proof.
  revert o. induction todo as [|todo IH]; intros o Ho; cbn [next_loop].
  { exists o. split_and!; [done|lia|lia|]. rewrite lookup_ge_None_2; [lia|]. by rewrite drop_ge; [lia|]. }
  destruct (lookup_lt_is_Some_2 (entries mp) o) as [e He]; [lia|].
  rewrite Nat2Z.id He /=. rewrite (drop_S _ e o He).
  destruct (slot_cases e) as [[Hk Ht]|[(Hk & Ht & Hv)|(Hk & Ht & Hv)]]; rewrite Ht ?Hv ?andb_false_r; cbn [negb andb].
  3: { exists o. rewrite He /live filter_cons_True //. split_and!; [done|lia|lia|done]. }
  all: destruct (IH (S o) ltac:(lia)) as (n & Hn & Hr & Hl); replace (Z.of_nat o + 1) with (Z.of_nat (S o)) by lia.
  all: exists n; rewrite Hn; split_and!; [done|lia|lia|]; rewrite /live filter_cons_False; [congruence|done].
Qed.

Lemma ht_iterate_from fuel t (o : nat) :
  ht_wf t -> (o <= length (entries (map t)) < fuel + o)%nat ->
  ht_iterate fuel t (Z.of_nat o) = live kind (drop o (entries (map t))).
Proof.
  intros W. pose proof (wf_length _ _ _ _ _ (wf_core _ _ _ _ _ (ht_wf_map _ _ _ _ _ W))) as Hlen.
  pose proof (ht_capacity_range _ _ _ _ _ (wf_core _ _ _ _ _ (ht_wf_map _ _ _ _ _ W))) as Hc.
  revert o. induction fuel as [|fuel IH]; intros o Ho; [lia|]. cbn [ht_iterate]. unfold ck_ht_next.
  destruct (Z.leb_spec (capacity (map t)) (Z.of_nat o)) as [Hle|Hlt].
  { rewrite drop_ge; [lia|done]. }
  destruct (ht_next_loop_ok (map t) (Z.to_nat (capacity (map t) - Z.of_nat o)) o) as (n & Hn & Hr & ->); [lia|].
  cbv zeta. rewrite Hn. destruct (Z.leb_spec (capacity (map t)) (Z.of_nat n)) as [Hle|Hlt'].
  { rewrite lookup_ge_None_2; [lia|done]. }
  rewrite Nat2Z.id. destruct (lookup_lt_is_Some_2 (entries (map t)) n) as [e He]; [lia|].
  rewrite He /=. replace (Z.of_nat n + 1) with (Z.of_nat (S n)) by lia. rewrite IH; [lia|done].
Qed.

Lemma ht_iterate_ok t :
  ht_wf t -> ht_iterate (S (Z.to_nat (capacity (map t)))) t 0 = contents (map t).
Proof.
  intros W. pose proof (wf_length _ _ _ _ _ (wf_core _ _ _ _ _ (ht_wf_map _ _ _ _ _ W))) as Hlen.
  change 0 with (Z.of_nat 0). rewrite ht_iterate_from //. lia.
Qed.
End concrete.

(** * Theorems *)


(** A memory that holds the strings ["abc"] at 100, ["abcd"] at 200 and ["abc"]
    again at 300, and a table keyed by them. *)
Definition ht_demo_byte (p : Z) : Z :=
  if (100 <=? p) && (p <? 103) then 97 + (p - 100)
  else if (200 <=? p) && (p <? 204) then 97 + (p - 200)
  else if (300 <=? p) && (p <? 303) then 97 + (p - 300) else 0.
Definition ht_demo_len (p : Z) : Z := if p =? 200 then 4 else 3.
Definition ht_demo_malloc (_ : heap) (sz : Z) : bool := sz <? 2 ^ 36.
Definition ht_demo_shr (_ _ : Z) : Z := 0.
Definition ht_demo_hash (l : list Z) (sd : Z) : Z := foldl (λ a b, u64 (a * 31 + b)) sd l.

Definition ht_demo : bool * option ck_ht :=
  ck_ht_init ht_demo_malloc (Z.lor CK_HT_MODE_BYTESTRING CK_HT_WORKLOAD_DELETE) (Some ht_demo_hash)
    ht_demo_hash (Some ([], true, true)) 4 7.

Definition ht_demo_history : list ht_op :=
  [HtPut 100 3 1; HtPut 200 4 2; HtPut 300 3 3; HtGet 300 3; HtSet 300 3 4; HtRemove 200 4;
   HtSet 200 4 5; HtGc 0 1; HtGet 100 3; HtGrow 64; HtGet 200 4].


Lemma ht_demo_limited : ht_malloc_limited ht_demo_malloc.
Proof. intros h sz Hsz. apply Z.ltb_ge. done. Qed.


(** The same history, computed. *)
Example ht_demo_run :
  match ht_demo with
  | (true, Some t) =>
      '(rs, t') ← ht_run_ops ht_demo_malloc ht_demo_shr ht_demo_byte t ht_demo_history;
      Some ((λ r, match r with HtBool b => (b, 0, 0) | HtEntry b e => (b, key e, value e) end) <$> rs.*1,
            ck_ht_count t', capacity (map t'))
  | _ => None
  end =
  Some ([(true, 0, 0); (true, 0, 0); (false, 0, 0); (true, 100, 1); (true, 100, 1); (true, 200, 2);
         (true, 0, 0); (true, 0, 0); (true, 300, 4) ; (true, 0, 0); (true, 200, 5)], 2, 64).
Proof. vm_compute. reflexivity. Qed.

(** C30. Iteration: after any history, iterating from offset 0 until [ck_ht_next]
    answers false produces exactly the entries of the table, whose keys are
    pairwise different. *)
Theorem ht_iteration_complete malloc_ok shr_undef byte_at len_of md hf wrapper n sd t ops rs t' :
  ck_ht_init malloc_ok md hf wrapper (Some ([], true, true)) n sd = (true, Some t) ->
  ht_malloc_limited malloc_ok -> Forall (ht_op_ok len_of t) ops ->
  ht_run_ops malloc_ok shr_undef byte_at t ops = Some (rs, t') ->
  let produced := ht_iterate (S (Z.to_nat (capacity (map t')))) t' 0 in
  unique kind (same byte_at len_of (mode t')) produced /\
  Z.of_nat (length produced) = ck_ht_count t' /\
  ht_abs_trace byte_at len_of t [] ops rs produced.
Proof.
  intros Hi Hlim Hops Hr.
  destruct (ck_ht_init_ok malloc_ok shr_undef byte_at len_of md hf wrapper [] n sd t Hi eq_refl) as [W Hl].
  destruct (ht_run_ops_ok malloc_ok shr_undef byte_at len_of t ops W Hlim Hops)
    as (rs1 & t1 & Hr' & W' & S & T).
  rewrite Hr in Hr'. injection Hr' as <- <-. rewrite Hl in T. cbv zeta.
  rewrite (ht_iterate_ok malloc_ok shr_undef byte_at len_of) //. split_and!; [| |done].
  - apply unique_live, (wf_sound _ _ _ _ _ (wf_core _ _ _ _ _ (ht_wf_map _ _ _ _ _ W'))).
    intros e1 e2. apply (same_sym byte_at len_of t').
  - symmetry. apply (wf_n_entries _ _ _ _ _ (ht_wf_map _ _ _ _ _ W')).
Qed.

Lemma ht_iteration_complete_witness :
  ∃ t rs t', ht_demo = (true, Some t) /\
    let produced := ht_iterate (S (Z.to_nat (capacity (map t')))) t' 0 in
    unique kind (same ht_demo_byte ht_demo_len (mode t')) produced /\
    Z.of_nat (length produced) = ck_ht_count t' /\
    ht_abs_trace ht_demo_byte ht_demo_len t [] ht_demo_history rs produced.
Proof.
  assert (match ht_demo with
          | (true, Some t) =>
              match ht_run_ops ht_demo_malloc ht_demo_shr ht_demo_byte t ht_demo_history with
              | Some _ => bytestring (mode t) | None => false end
          | _ => false end = true) as Hrun by (vm_compute; reflexivity).
  destruct ht_demo as [[|] [t|]] eqn:Hi; try discriminate Hrun.
  destruct (ht_run_ops ht_demo_malloc ht_demo_shr ht_demo_byte t ht_demo_history) as [[rs t']|] eqn:Hr;
    [|discriminate Hrun].
  exists t, rs, t'. split; [reflexivity|]. unfold ht_demo in Hi.
  apply (ht_iteration_complete ht_demo_malloc ht_demo_shr ht_demo_byte ht_demo_len _ _ _ 4 7 t
    ht_demo_history rs t' Hi).
  - apply ht_demo_limited.
  - repeat constructor; cbn; try done; intros _; reflexivity.
  - exact Hr.
Defined.

(** In byte-string mode the probes compare key pointers before lengths: with
    the one-byte key at 100 stored in a table of two slots, storing the two-byte
    key that starts at the same address fails as if it were present, and looking
    it up finds the one-byte key. *)
Theorem ht_pointer_before_length :
  match ck_ht_init ht_demo_malloc CK_HT_MODE_BYTESTRING (Some ht_demo_hash) ht_demo_hash
          (Some ([], true, true)) 2 7 with
  | (true, Some t) =>
      let hsh := ck_ht_hash ht_demo_byte t in
      '(b1, t) ← ck_ht_put_spmc ht_demo_malloc ht_demo_shr ht_demo_byte t (hsh 100 1)
                   (ck_ht_entry_set (hsh 100 1) 100 1 10);
      '(b2, t) ← ck_ht_put_spmc ht_demo_malloc ht_demo_shr ht_demo_byte t (hsh 100 2)
                   (ck_ht_entry_set (hsh 100 2) 100 2 20);
      '(b3, e) ← ck_ht_get_spmc ht_demo_shr ht_demo_byte t (hsh 100 2)
                   (ck_ht_entry_key_set zero_entry 100 2);
      Some (hsh 100 1 =? hsh 100 2, b1, b2, b3, ck_ht_entry_key_length e, ck_ht_entry_value e)
  | _ => None
  end = Some (false, true, false, true, 1, 10).
Proof. vm_compute. reflexivity. Qed.
