(* ===== verification/Rhs.v ===== *)
(** The Robin Hood hash set [ck_rhs] (src/src/ck_rhs.c), as executed by its
    single writer, in both layouts.  The model is executable; the files from [RhsWalk] to
    [RhsFacts] verify it. *)

From S2P Require Export Internal.
Set Warnings "-rewrite-rw".

Definition CK_RHS_PROBE_L1_SHIFT : Z := 3.
Definition CK_RHS_PROBE_L1 : Z := Z.shiftl 1 CK_RHS_PROBE_L1_SHIFT.
Definition CK_MD_CACHELINE : Z := 64.
Definition CK_RHS_PROBE_L1_DEFAULT : Z := CK_MD_CACHELINE.
Definition CK_RHS_EMPTY : Z := 0.
Definition CK_RHS_G : Z := 1024.
Definition CK_RHS_G_MASK : Z := CK_RHS_G - 1.
Definition CK_RHS_WORD_MAX : Z := 255.
Definition CK_RHS_MAX_WANTED : Z := 65535.
Definition CK_RHS_DEFAULT_LOAD_FACTOR : Z := 50.
Definition CK_RHS_MAX_RH : nat := 512.

Definition CK_RHS_MODE_SPMC : Z := 1.
Definition CK_RHS_MODE_DIRECT : Z := 2.
Definition CK_RHS_MODE_OBJECT : Z := 8.
Definition CK_RHS_MODE_READ_MOSTLY : Z := 16.

Inductive ck_rhs_probe_behavior :=
| CK_RHS_PROBE | CK_RHS_PROBE_RH | CK_RHS_PROBE_INSERT
| CK_RHS_PROBE_ROBIN_HOOD | CK_RHS_PROBE_ROBIN_HOOD_NO_RELOCATE | CK_RHS_PROBE_NO_RH.

(** * Data

    In the read-mostly layout the entries are in an array of their own; the
    fields are the same, and one list of descriptors stands for both. *)

Record ck_rhs_entry_desc := CkRhsEntryDesc {
  probes : Z;
  wanted : Z;
  probe_bound : Z;
  in_rh : bool;
  entry : Z;
}.

Record ck_rhs_map := CkRhsMap {
  generation : list Z;
  probe_maximum : Z;
  mask : Z;
  step : Z;
  probe_limit : Z;
  n_entries : Z;
  capacity : Z;
  size : Z;
  max_entries : Z;
  offset_mask : Z;
  descs : list ck_rhs_entry_desc;
  read_mostly : bool;
}.

Definition sizeof_ck_rhs_map : Z := 4200.
Definition sizeof_ck_rhs_entry_desc : Z := 16.
Definition sizeof_ck_rhs_no_entry_desc : Z := 8.

Record ck_rhs := CkRhs {
  m : heap;
  map : ck_rhs_map;
  mode : Z;
  load_factor : Z;
  seed : Z;
  hf : Z -> Z -> Z;
  compare : option (Z -> Z -> bool);
}.

Definition set_probe_maximum (x : ck_rhs_map) v := CkRhsMap (generation x) v (mask x) (step x)
  (probe_limit x) (n_entries x) (capacity x) (size x) (max_entries x) (offset_mask x) (descs x) (read_mostly x).
Definition set_generation (x : ck_rhs_map) v := CkRhsMap v (probe_maximum x) (mask x) (step x)
  (probe_limit x) (n_entries x) (capacity x) (size x) (max_entries x) (offset_mask x) (descs x) (read_mostly x).
Definition set_n_entries (x : ck_rhs_map) v := CkRhsMap (generation x) (probe_maximum x) (mask x) (step x)
  (probe_limit x) v (capacity x) (size x) (max_entries x) (offset_mask x) (descs x) (read_mostly x).
Definition set_max_entries (x : ck_rhs_map) v := CkRhsMap (generation x) (probe_maximum x) (mask x) (step x)
  (probe_limit x) (n_entries x) (capacity x) (size x) v (offset_mask x) (descs x) (read_mostly x).
Definition set_descs (x : ck_rhs_map) v := CkRhsMap (generation x) (probe_maximum x) (mask x) (step x)
  (probe_limit x) (n_entries x) (capacity x) (size x) (max_entries x) (offset_mask x) v (read_mostly x).

Definition set_m (hs : ck_rhs) v :=
  CkRhs v (map hs) (mode hs) (load_factor hs) (seed hs) (hf hs) (compare hs).
Definition set_map (hs : ck_rhs) v :=
  CkRhs (m hs) v (mode hs) (load_factor hs) (seed hs) (hf hs) (compare hs).
Definition set_load (hs : ck_rhs) v :=
  CkRhs (m hs) (map hs) (mode hs) v (seed hs) (hf hs) (compare hs).

Definition put_probes v (d : ck_rhs_entry_desc) :=
  CkRhsEntryDesc v (wanted d) (probe_bound d) (in_rh d) (entry d).
Definition put_wanted v (d : ck_rhs_entry_desc) :=
  CkRhsEntryDesc (probes d) v (probe_bound d) (in_rh d) (entry d).
Definition put_bound v (d : ck_rhs_entry_desc) :=
  CkRhsEntryDesc (probes d) (wanted d) v (in_rh d) (entry d).
Definition put_rh v (d : ck_rhs_entry_desc) :=
  CkRhsEntryDesc (probes d) (wanted d) (probe_bound d) v (entry d).
Definition put_entry v (d : ck_rhs_entry_desc) :=
  CkRhsEntryDesc (probes d) (wanted d) (probe_bound d) (in_rh d) v.

Definition empty_desc : ck_rhs_entry_desc := CkRhsEntryDesc 0 0 0 false CK_RHS_EMPTY.

(** * Access to descriptors; an offset outside the array is a fault. *)

Definition ck_rhs_desc (mp : ck_rhs_map) (offset : Z) : option ck_rhs_entry_desc :=
  descs mp !! Z.to_nat offset.

Definition update_desc (mp : ck_rhs_map) (offset : Z) (f : ck_rhs_entry_desc -> ck_rhs_entry_desc)
    : option ck_rhs_map :=
  d ← ck_rhs_desc mp offset; Some (set_descs mp (<[Z.to_nat offset := f d]> (descs mp))).

Definition ck_rhs_entry (mp : ck_rhs_map) (offset : Z) : option Z :=
  d ← ck_rhs_desc mp offset; Some (entry d).
Definition store_entry (mp : ck_rhs_map) (offset v : Z) : option ck_rhs_map :=
  update_desc mp offset (put_entry v).
Definition ck_rhs_wanted_inc (mp : ck_rhs_map) (offset : Z) : option ck_rhs_map :=
  update_desc mp offset (fun d => put_wanted (u16 (wanted d + 1)) d).
Definition ck_rhs_probes (mp : ck_rhs_map) (offset : Z) : option Z :=
  d ← ck_rhs_desc mp offset; Some (probes d).
Definition ck_rhs_set_probes (mp : ck_rhs_map) (offset value : Z) : option ck_rhs_map :=
  update_desc mp offset (put_probes (u32 value)).
Definition ck_rhs_set_rh (mp : ck_rhs_map) (offset : Z) : option ck_rhs_map :=
  update_desc mp offset (put_rh true).
Definition ck_rhs_unset_rh (mp : ck_rhs_map) (offset : Z) : option ck_rhs_map :=
  update_desc mp offset (put_rh false).

(** [ck_pr_inc_uint(&map->generation[h & CK_RHS_G_MASK])] *)
Definition signal (mp : ck_rhs_map) (h : Z) : ck_rhs_map :=
  set_generation mp (alter (fun g => u32 (g + 1)) (Z.to_nat (Z.land h CK_RHS_G_MASK)) (generation mp)).

Record ck_rhs_stat_t := CkRhsStat { st_n_entries : Z; st_probe_maximum : Z }.

Section ck_rhs.
Context (malloc_ok : heap -> Z -> bool).

(** * Iteration and statistics *)

Fixpoint next_loop (mp : ck_rhs_map) (todo : nat) (offset : Z) : option Z * Z :=
  match todo with
  | O => (None, offset)
  | S todo =>
      let value := default CK_RHS_EMPTY (ck_rhs_entry mp offset) in
      if negb (value =? CK_RHS_EMPTY) then (Some value, offset + 1) else next_loop mp todo (offset + 1)
  end.

(** The iterator is its offset. *)
Definition ck_rhs_iterator_init : Z := 0.

Definition ck_rhs_next (hs : ck_rhs) (offset : Z) : option Z * Z :=
  if capacity (map hs) <=? offset then (None, offset)
  else next_loop (map hs) (Z.to_nat (capacity (map hs) - offset)) offset.

Definition ck_rhs_stat (hs : ck_rhs) : ck_rhs_stat_t :=
  CkRhsStat (n_entries (map hs)) (probe_maximum (map hs)).
Definition ck_rhs_count (hs : ck_rhs) : Z := n_entries (map hs).

(** * Creation *)

Definition ck_rhs_map_destroy (m : heap) (mp : ck_rhs_map) (defer : bool) : heap :=
  free m (size mp) defer.
Definition ck_rhs_destroy (hs : ck_rhs) : heap := ck_rhs_map_destroy (m hs) (map hs) false.

Definition ck_rhs_map_capacity (entries : Z) : Z :=
  let n_entries := ck_internal_power_2 entries in
  if n_entries <? CK_RHS_PROBE_L1 then CK_RHS_PROBE_L1 else n_entries.

Definition is_read_mostly (mode : Z) : bool := truthy (Z.land mode CK_RHS_MODE_READ_MOSTLY).

Definition ck_rhs_map_size (mode entries : Z) : Z :=
  let n_entries := ck_rhs_map_capacity entries in
  if is_read_mostly mode
  then u64 (sizeof_ck_rhs_map +
            (8 * n_entries + sizeof_ck_rhs_no_entry_desc * n_entries + 2 * CK_MD_CACHELINE - 1))
  else u64 (sizeof_ck_rhs_map + (sizeof_ck_rhs_entry_desc * n_entries + CK_MD_CACHELINE - 1)).

Definition ck_rhs_map_init (hs : ck_rhs) (entries : Z) : ck_rhs_map :=
  let n_entries := ck_rhs_map_capacity entries in
  let rm := is_read_mostly (mode hs) in
  let limit := ck_internal_max (Z.shiftr n_entries (CK_RHS_PROBE_L1_SHIFT + 2))
                               CK_RHS_PROBE_L1_DEFAULT in
  let limit := if UINT_MAX <? limit then UINT_MAX else limit in
  {| generation := replicate (Z.to_nat CK_RHS_G) 0;
     probe_maximum := 0;
     mask := n_entries - 1;
     step := ck_cc_ffsl n_entries;
     probe_limit := limit;
     n_entries := 0;
     capacity := n_entries;
     size := ck_rhs_map_size (mode hs) n_entries;
     max_entries := u64 (n_entries * load_factor hs) / 100;
     offset_mask := (if rm then CK_MD_CACHELINE / 8 else CK_MD_CACHELINE / sizeof_ck_rhs_entry_desc) - 1;
     descs := replicate (Z.to_nat n_entries) empty_desc;
     read_mostly := rm |}.

Definition ck_rhs_map_create (hs : ck_rhs) (entries : Z) : option ck_rhs_map * heap :=
  let '(ok, heap1) := malloc malloc_ok (m hs) (ck_rhs_map_size (mode hs) entries) in
  if ok then (Some (ck_rhs_map_init hs entries), heap1) else (None, heap1).

Definition ck_rhs_reset_size (hs : ck_rhs) (capacity : Z) : bool * ck_rhs :=
  match ck_rhs_map_create hs capacity with
  | (None, heap1) => (false, set_m hs heap1)
  | (Some mp, heap1) => (true, set_map (set_m hs (ck_rhs_map_destroy heap1 (map hs) true)) mp)
  end.

Definition ck_rhs_reset (hs : ck_rhs) : bool * ck_rhs := ck_rhs_reset_size hs (capacity (map hs)).

(** The caller provides the memory. *)
Definition ck_rhs_reset_preallocated (hs : ck_rhs) (capacity : Z) : ck_rhs :=
  set_map (set_m hs (ck_rhs_map_destroy (m hs) (map hs) true)) (ck_rhs_map_init hs capacity).

(** * The walk *)

Definition ck_rhs_map_probe_next (mp : ck_rhs_map) (offset probes : Z) : Z :=
  if truthy (Z.land probes (offset_mask mp))
  then Z.land offset (Z.lnot (offset_mask mp)) + Z.land (u64 (offset + 1)) (offset_mask mp)
  else Z.land (u64 (offset + probes)) (mask mp).

Definition ck_rhs_map_probe_prev (mp : ck_rhs_map) (offset probes : Z) : Z :=
  if truthy (Z.land probes (offset_mask mp))
  then Z.land offset (Z.lnot (offset_mask mp)) + Z.land (u64 (offset - 1)) (offset_mask mp)
  else Z.land (u64 (offset - probes)) (mask mp).

(** Every turn takes [offset_mask + 1] probes off. *)
Fixpoint first_offset_loop (mp : ck_rhs_map) (fuel : nat) (offset probes : Z) : Z :=
  match fuel with
  | O => offset
  | S fuel =>
      if offset_mask mp + 1 <? probes then
        let offset := u64 (offset - Z.land (probes - 1) (Z.lnot (offset_mask mp))) in
        let offset := Z.land offset (mask mp) in
        let offset := Z.land offset (Z.lnot (offset_mask mp)) +
                      Z.land (u64 (offset - offset_mask mp)) (offset_mask mp) in
        first_offset_loop mp fuel offset (probes - (offset_mask mp + 1))
      else Z.land offset (Z.lnot (offset_mask mp)) +
           Z.land (u64 (offset - (probes - 1))) (offset_mask mp)
  end.

Definition ck_rhs_get_first_offset (mp : ck_rhs_map) (offset probes : Z) : Z :=
  first_offset_loop mp (S (Z.to_nat probes)) offset probes.

Definition ck_rhs_map_bound_set (mp : ck_rhs_map) (h n_probes : Z) : option ck_rhs_map :=
  let offset := Z.land h (mask mp) in
  let mp := if probe_maximum mp <? n_probes then set_probe_maximum mp (u32 n_probes) else mp in
  if negb (read_mostly mp) then
    d ← ck_rhs_desc mp offset;
    if probe_bound d <? n_probes then
      update_desc mp offset (put_bound (if CK_RHS_WORD_MAX <? n_probes then CK_RHS_WORD_MAX else n_probes))
    else Some mp
  else Some mp.

Definition ck_rhs_map_bound_get (mp : ck_rhs_map) (h : Z) : option Z :=
  if read_mostly mp then Some (probe_maximum mp)
  else d ← ck_rhs_desc mp (Z.land h (mask mp));
       Some (if probe_bound d =? CK_RHS_WORD_MAX then probe_maximum mp else probe_bound d).

(** * Growth *)

(** Place one entry, displacing those that are closer to their home; [None] when
    the probe limit is hit. *)
Fixpoint grow_place (hs : ck_rhs) (fuel : nat) (update : ck_rhs_map) (h offset p saved : Z)
    : option (option ck_rhs_map) :=
  match fuel with
  | O => None
  | S fuel =>
      if p =? probe_limit update then Some None
      else
        let p := p + 1 in
        d ← ck_rhs_desc update offset;
        if entry d =? CK_RHS_EMPTY then
          update ← store_entry update offset saved;
          let update := set_n_entries update (u64 (n_entries update + 1)) in
          update ← ck_rhs_set_probes update offset p;
          update ← ck_rhs_map_bound_set update h p;
          Some (Some update)
        else if probes d <? p then
          let previous := entry d in
          update ← store_entry update offset saved;
          update ← ck_rhs_map_bound_set update h p;
          old_probes ← ck_rhs_probes update offset;
          update ← ck_rhs_set_probes update offset p;
          grow_place hs fuel update (hf hs previous (seed hs)) offset (u32 (old_probes - 1)) previous
        else
          update ← ck_rhs_wanted_inc update offset;
          grow_place hs fuel update h (ck_rhs_map_probe_next update offset p) p saved
  end.

(** The sum of the probe counts grows with every second turn. *)
Definition grow_fuel (mp : ck_rhs_map) : nat :=
  Z.to_nat (2 * (capacity mp + 1) * (probe_limit mp + 1) + 2).

Fixpoint rehash (hs : ck_rhs) (update : ck_rhs_map) (slots : list ck_rhs_entry_desc)
    : option (option ck_rhs_map) :=
  match slots with
  | [] => Some (Some update)
  | d :: slots =>
      if entry d =? CK_RHS_EMPTY then rehash hs update slots
      else
        let h := hf hs (entry d) (seed hs) in
        r ← grow_place hs (grow_fuel update) update h (Z.land h (mask update)) 0 (entry d);
        match r with
        | None => Some None
        | Some update => rehash hs update slots
        end
  end.

Fixpoint grow_loop (fuel : nat) (hs : ck_rhs) (cap : Z) : option (bool * ck_rhs) :=
  match fuel with
  | O => None
  | S fuel =>
      if cap <? capacity (map hs) then Some (false, hs)
      else
        match ck_rhs_map_create hs cap with
        | (None, heap1) => Some (false, set_m hs heap1)
        | (Some update, heap1) =>
            r ← rehash hs update (descs (map hs));
            match r with
            | None =>
                grow_loop fuel (set_m hs (ck_rhs_map_destroy heap1 update false)) (u64 (Z.shiftl cap 1))
            | Some update =>
                Some (true, set_map (set_m hs (ck_rhs_map_destroy heap1 (map hs) true)) update)
            end
        end
  end.

(** [capacity <<= 1] reaches 0 after 64 restarts, which ends the loop. *)
Definition ck_rhs_grow (hs : ck_rhs) (capacity : Z) : option (bool * ck_rhs) :=
  grow_loop 66 hs capacity.

Definition ck_rhs_rebuild (hs : ck_rhs) : option (bool * ck_rhs) := ck_rhs_grow hs (capacity (map hs)).

(** A restart follows a successful growth. *)
Definition restarts : nat := 64.

Fixpoint load_loop (fuel : nat) (hs : ck_rhs) : option (bool * ck_rhs) :=
  match fuel with
  | O => None
  | S fuel =>
      if max_entries (map hs) <? n_entries (map hs) then
        '(ok, hs) ← ck_rhs_grow hs (u64 (Z.shiftl (capacity (map hs)) 1));
        if negb ok then Some (false, hs) else load_loop fuel hs
      else Some (true, hs)
  end.

Definition ck_rhs_set_load_factor (hs : ck_rhs) (lf : Z) : option (bool * ck_rhs) :=
  if (lf =? 0) || (100 <? lf) then Some (false, hs)
  else
    let hs := set_load hs lf in
    let mp := map hs in
    load_loop restarts (set_map hs (set_max_entries mp (u64 (capacity mp * load_factor hs) / 100))).

(** * Probing *)

Record probe_result := ProbeResult {
  r_slot : option Z;
  r_object : Z;
  r_n_probes : Z;
  r_priority : option Z;
}.

Definition robin_hood (b : ck_rhs_probe_behavior) : bool :=
  match b with CK_RHS_PROBE_ROBIN_HOOD | CK_RHS_PROBE_ROBIN_HOOD_NO_RELOCATE => true | _ => false end.

(** Whether the probe looks for an entry to displace. *)
Definition relocates (b : ck_rhs_probe_behavior) : bool :=
  match b with CK_RHS_PROBE_NO_RH | CK_RHS_PROBE_ROBIN_HOOD_NO_RELOCATE => false | _ => true end.

(** Whether the first entry to displace ends the probe. *)
Definition stops_at_priority (b : ck_rhs_probe_behavior) : bool :=
  match b with CK_RHS_PROBE_RH | CK_RHS_PROBE_ROBIN_HOOD => true | _ => false end.

(** The label [leave]. *)
Definition probe_leave (offset k p limit : Z) (pr : option Z) (n_probes : Z) : probe_result :=
  ProbeResult (if limit <? p then None else Some offset)
              (if limit <? p then CK_RHS_EMPTY else k)
              (match pr with None => p | Some _ => n_probes end) pr.

Fixpoint probe_loop (hs : ck_rhs) (mp : ck_rhs_map) (key opl : Z) (behavior : ck_rhs_probe_behavior)
    (fuel : nat) (limit offset p : Z) (pr : option Z) (n_probes : Z) : option probe_result :=
  match fuel with
  | O => None
  | S fuel =>
      let hit := p =? limit in
      let p := p + 1 in
      if hit && ((limit =? opl) || match pr with Some _ => true | None => false end)
      then Some (probe_leave offset CK_RHS_EMPTY p limit pr n_probes)
      else
        let limit := if hit then opl else limit in
        d ← ck_rhs_desc mp offset;
        let k := entry d in
        if k =? CK_RHS_EMPTY then Some (probe_leave offset k p limit pr n_probes)
        else
          let found := relocates behavior && match pr with Some _ => false | None => true end &&
                       negb (in_rh d) && (probes d <? p) in
          let '(pr, n_probes) := if found then (Some offset, p) else (pr, n_probes) in
          if found && stops_at_priority behavior
          then Some (probe_leave offset CK_RHS_EMPTY p limit pr n_probes)
          else if negb (robin_hood behavior) &&
                  ((k =? key) || match compare hs with Some cmp => cmp k key | None => false end)
          then Some (probe_leave offset k p limit pr n_probes)
          else probe_loop hs mp key opl behavior fuel limit (ck_rhs_map_probe_next mp offset p) p pr n_probes
  end.

(** Where the probe starts: at the home of [h], or after the slot being vacated. *)
Definition probe_start (mp : ck_rhs_map) (h : Z) (behavior : ck_rhs_probe_behavior)
    (n_probes : Z) (priority : option Z) : option (Z * Z) :=
  if negb (robin_hood behavior) then Some (Z.land h (mask mp), 0)
  else pr ← priority; Some (ck_rhs_map_probe_next mp pr n_probes, n_probes).

Definition probe_fuel (opl : Z) : nat := S (S (Z.to_nat opl)).

Definition ck_rhs_map_probe_rm (hs : ck_rhs) (mp : ck_rhs_map) (n_probes : Z) (priority : option Z)
    (h key opl : Z) (behavior : ck_rhs_probe_behavior) : option probe_result :=
  '(offset, p) ← probe_start mp h behavior n_probes priority;
  probe_loop hs mp key opl behavior (probe_fuel opl) opl offset p None n_probes.

Definition ck_rhs_map_probe (hs : ck_rhs) (mp : ck_rhs_map) (n_probes : Z) (priority : option Z)
    (h key opl : Z) (behavior : ck_rhs_probe_behavior) : option probe_result :=
  '(offset, p) ← probe_start mp h behavior n_probes priority;
  limit ← match behavior with
          | CK_RHS_PROBE_INSERT => ck_rhs_map_bound_get mp h
          | _ => Some opl
          end;
  probe_loop hs mp key opl behavior (probe_fuel opl) limit offset p None n_probes.

(** [map->probe_func] *)
Definition probe_func (hs : ck_rhs) (mp : ck_rhs_map) :=
  if read_mostly mp then ck_rhs_map_probe_rm hs mp else ck_rhs_map_probe hs mp.

(** Without pointer packing the object is stored as it is. *)
Definition ck_rhs_marshal (mode key h : Z) : Z := key.

Definition ck_rhs_gc (hs : ck_rhs) : ck_rhs :=
  let mp := map hs in
  set_map hs (set_probe_maximum mp
    (foldl (fun mx d => if mx <? probes d then probes d else mx) 0 (descs mp))).

(** * The counters of entries that walk past a slot *)

Fixpoint add_wanted_loop (fuel : nat) (mp : ck_rhs_map) (offset end_offset : Z) (old_slot : option Z)
    (p : Z) (found_slot : bool) : option ck_rhs_map :=
  match fuel with
  | O => None
  | S fuel =>
      if offset =? end_offset then Some mp
      else
        let found_slot := match old_slot with
                          | Some s => if offset =? s then true else found_slot
                          | None => found_slot
                          end in
        mp ← if found_slot
             then update_desc mp offset (fun d => if wanted d <? CK_RHS_MAX_WANTED
                                                  then put_wanted (wanted d + 1) d else d)
             else Some mp;
        add_wanted_loop fuel mp (ck_rhs_map_probe_next mp offset p) end_offset old_slot (u32 (p + 1)) found_slot
  end.

Definition ck_rhs_add_wanted (mp : ck_rhs_map) (end_offset : Z) (old_slot : option Z) (h : Z)
    : option ck_rhs_map :=
  add_wanted_loop (S (Z.to_nat (probe_limit mp))) mp (Z.land h (mask mp)) end_offset old_slot 1
    match old_slot with None => true | Some _ => false end.

(** The walk back to the home of the entry; slots from [limit] on are left alone. *)
Fixpoint remove_wanted_loop (todo : nat) (mp : ck_rhs_map) (offset p : Z) (limit : option Z)
    (do_remove : bool) : option (Z * ck_rhs_map) :=
  match todo with
  | O => Some (offset, mp)
  | S todo =>
      let p := p - 1 in
      let offset := ck_rhs_map_probe_prev mp offset p in
      let do_remove := match limit with
                       | Some l => if offset =? l then false else do_remove
                       | None => do_remove
                       end in
      mp ← if do_remove
           then update_desc mp offset (fun d => if wanted d =? CK_RHS_MAX_WANTED
                                                then d else put_wanted (u16 (wanted d - 1)) d)
           else Some mp;
      remove_wanted_loop todo mp offset p limit do_remove
  end.

Definition ck_rhs_remove_wanted (mp : ck_rhs_map) (offset : Z) (limit : option Z)
    : option (Z * ck_rhs_map) :=
  p ← ck_rhs_probes mp offset;
  remove_wanted_loop (Z.to_nat (p - 1)) mp offset p limit true.

(** * Robin Hood displacement *)

Inductive rh_result := RhDone | RhGrown | RhFailed.

(** The failure path: the probe counts of the entries already displaced are put
    back.  [prevs] is a stack of slots with the old probe count of the next one. *)
Fixpoint undo (mp : ck_rhs_map) (prevs : list (Z * Z)) (last_slot : option Z) : option ck_rhs_map :=
  match prevs with
  | [] => Some mp
  | (prev, old) :: rest =>
      mp ← match last_slot with
           | Some s => ck_rhs_set_probes mp s old
           | None => Some mp
           end;
      mp ← ck_rhs_unset_rh mp prev;
      undo mp rest (Some prev)
  end.

(** The loop that moves the displaced entries, the last one first.  [d] is the
    slot whose descriptor the code holds in [desc]. *)
Fixpoint shift_back (mp : ck_rhs_map) (prevs : list (Z * Z)) (orig_slot d : Z) : option ck_rhs_map :=
  match prevs with
  | [] => ck_rhs_unset_rh mp orig_slot
  | (prev, _) :: rest =>
      e ← ck_rhs_entry mp prev;
      mp ← store_entry mp orig_slot e;
      dp ← ck_rhs_probes mp d;
      let h := ck_rhs_get_first_offset mp orig_slot dp in
      mp ← ck_rhs_add_wanted mp orig_slot (Some prev) h;
      let mp := signal mp h in
      mp ← ck_rhs_unset_rh mp d;
      shift_back mp rest prev prev
  end.

Fixpoint robin_hood_loop (fuel : nat) (hs : ck_rhs) (first d n_probes h : Z) (prevs : list (Z * Z))
    (last_slot : option Z) : option (rh_result * ck_rhs) :=
  match fuel with
  | O => None
  | S fuel =>
      let mp := map hs in
      insert ← ck_rhs_entry mp first;
      mp ← ck_rhs_set_rh mp first;
      let behavior := if Nat.eqb (length prevs) CK_RHS_MAX_RH
                      then CK_RHS_PROBE_ROBIN_HOOD_NO_RELOCATE else CK_RHS_PROBE_ROBIN_HOOD in
      r ← probe_func hs mp n_probes (Some first) h insert (probe_limit mp) behavior;
      match r_priority r, r_slot r with
      | None, None =>
          '(ok, hs) ← ck_rhs_grow (set_map hs mp) (u64 (Z.shiftl (capacity mp) 1));
          if negb ok then
            mp ← ck_rhs_unset_rh (map hs) d;
            mp ← undo mp prevs last_slot;
            Some (RhFailed, set_map hs mp)
          else Some (RhGrown, hs)
      | Some next, _ =>
          old_probes ← ck_rhs_probes mp next;
          mp ← ck_rhs_set_probes mp next (r_n_probes r);
          let h := ck_rhs_get_first_offset mp next (r_n_probes r) in
          mp ← ck_rhs_map_bound_set mp h (r_n_probes r);
          robin_hood_loop fuel (set_map hs mp) next next old_probes h ((first, old_probes) :: prevs)
            (Some next)
      | None, Some slot =>
          let h := ck_rhs_get_first_offset mp slot (r_n_probes r) in
          mp ← ck_rhs_map_bound_set mp h (r_n_probes r);
          mp ← store_entry mp slot insert;
          let mp := signal mp h in
          mp ← ck_rhs_set_probes mp slot (r_n_probes r);
          mp ← ck_rhs_unset_rh mp d;
          mp ← ck_rhs_add_wanted mp slot (Some first) h;
          mp ← shift_back mp prevs first d;
          Some (RhDone, set_map hs mp)
      end
  end.

(** At most [CK_RHS_MAX_RH] entries are displaced. *)
Definition ck_rhs_put_robin_hood (hs : ck_rhs) (orig_slot : Z) : option (rh_result * ck_rhs) :=
  n_probes ← ck_rhs_probes (map hs) orig_slot;
  robin_hood_loop (S (S CK_RHS_MAX_RH)) hs orig_slot orig_slot n_probes 0 [] None.

(** * Backward-shift deletion *)

(** The inner loop: the first offset from [p] on whose entry was probed [p + 1]
    times. *)
Fixpoint successor_from (todo : nat) (mp : ck_rhs_map) (offset p : Z)
    : option (Z * Z) :=
  match todo with
  | O => Some (p, offset)
  | S todo =>
      d ← ck_rhs_desc mp offset;
      if probes d =? p + 1 then Some (p, offset)
      else successor_from todo mp (ck_rhs_map_probe_next mp offset (p + 1)) (p + 1)
  end.

(** The outer loop: [(wanted_probes, probe, offset)], or [None] when the maximum is
    reached. *)
Fixpoint find_successor (todo : nat) (mp : ck_rhs_map) (slot wanted_probes : Z)
    : option (option (Z * Z * Z)) :=
  match todo with
  | O => Some None
  | S todo =>
      '(p, offset) ← successor_from (Z.to_nat (probe_maximum mp - wanted_probes)) mp
                       (ck_rhs_map_probe_next mp slot wanted_probes) wanted_probes;
      if p <? probe_maximum mp then Some (Some (wanted_probes, p, offset))
      else find_successor todo mp slot (wanted_probes + 1)
  end.

(** The scan for another entry of the same home, from [p] up to [max_probes]. *)
Fixpoint bound_scan (todo : nat) (mp : ck_rhs_map) (h tmp_offset p max_probes : Z) : Z :=
  match todo with
  | O => p
  | S todo =>
      if p <? max_probes then
        if h =? ck_rhs_get_first_offset mp tmp_offset (p + 1) then p
        else bound_scan todo mp h (ck_rhs_map_probe_next mp tmp_offset (p + 1)) (p + 1) max_probes
      else p
  end.

(** The update of the probe bound of home [h] after its entry moved. *)
Definition tighten_bound (mp : ck_rhs_map) (h offset p wanted_probes new_probes : Z)
    : option ck_rhs_map :=
  if wanted_probes <? CK_RHS_WORD_MAX then
    hd ← ck_rhs_desc mp h;
    if wanted hd =? 1 then update_desc mp h (put_bound wanted_probes)
    else if (probe_bound hd =? CK_RHS_WORD_MAX) || (probe_bound hd =? new_probes) then
      let p := p + 1 in
      let max_probes := if probe_bound hd =? CK_RHS_WORD_MAX then probe_maximum mp
                        else u32 (probe_bound hd - 1) in
      let tmp_offset := ck_rhs_map_probe_next mp offset p in
      let p := bound_scan (Z.to_nat (max_probes - p)) mp h tmp_offset p max_probes in
      if p =? max_probes then update_desc mp h (put_bound wanted_probes) else Some mp
    else Some mp
  else Some mp.

Definition empty_slot (mp : ck_rhs_map) (slot h : Z) : option ck_rhs_map :=
  mp ← store_entry mp slot CK_RHS_EMPTY;
  p ← ck_rhs_probes mp slot;
  mp ← (if u32 (p - 1) <? CK_RHS_WORD_MAX then update_desc mp h (put_bound (u32 (p - 1))) else Some mp);
  ck_rhs_set_probes mp slot 0.

Fixpoint shift_loop (fuel : nat) (mp : ck_rhs_map) (slot h : Z) : option ck_rhs_map :=
  match fuel with
  | O => None
  | S fuel =>
      d ← ck_rhs_desc mp slot;
      if 0 <? wanted d then
        r ← find_successor (Z.to_nat (probe_maximum mp - 1)) mp slot 1;
        match r with
        | None =>
            mp ← update_desc mp slot (put_wanted 0);
            empty_slot mp slot h
        | Some (wanted_probes, p, offset) =>
            nd ← ck_rhs_desc mp offset;
            mp ← ck_rhs_set_probes mp slot wanted_probes;
            '(h, mp) ← ck_rhs_remove_wanted mp offset (Some slot);
            e ← ck_rhs_entry mp offset;
            mp ← store_entry mp slot e;
            let mp := signal mp h in
            mp ← tighten_bound mp h offset p wanted_probes (probes nd);
            mp ← update_desc mp slot (fun d => if wanted d <? CK_RHS_MAX_WANTED
                                                then put_wanted (u16 (wanted d - 1)) d else d);
            shift_loop fuel mp offset h
        end
      else empty_slot mp slot h
  end.

(** Every turn of the loop lowers the sum of the probe counts. *)
Definition ck_rhs_do_backward_shift_delete (mp : ck_rhs_map) (slot : Z) : option ck_rhs_map :=
  '(h, mp) ← ck_rhs_remove_wanted mp slot None;
  shift_loop (S (Z.to_nat (capacity mp * probe_limit mp))) mp slot h.

(** * Operations *)

(** [if (++map->n_entries > map->max_entries) ck_rhs_grow(hs, map->capacity << 1)] *)
Definition postinsert (hs : ck_rhs) : option ck_rhs :=
  let mp := set_n_entries (map hs) (u64 (n_entries (map hs) + 1)) in
  let hs := set_map hs mp in
  if max_entries mp <? n_entries mp
  then '(_, hs) ← ck_rhs_grow hs (u64 (Z.shiftl (capacity mp) 1)); Some hs
  else Some hs.

(** Set or clear the flag that protects the slot of a duplicate, when there is one. *)
Definition mark_slot (mp : ck_rhs_map) (slot : option Z) (v : bool) : option ck_rhs_map :=
  match slot with Some s => update_desc mp s (put_rh v) | None => Some mp end.

Fixpoint fas_loop (fuel : nat) (hs : ck_rhs) (h key : Z) : option (bool * Z * ck_rhs) :=
  match fuel with
  | O => None
  | S fuel =>
      limit ← ck_rhs_map_bound_get (map hs) h;
      r ← probe_func hs (map hs) 0 None h key limit CK_RHS_PROBE;
      if r_object r =? CK_RHS_EMPTY then Some (false, CK_RHS_EMPTY, hs)
      else
        let insert := ck_rhs_marshal (mode hs) key h in
        slot ← r_slot r;
        match r_priority r with
        | Some first =>
            mp ← update_desc (map hs) slot (put_rh true);
            '(ret, hs) ← ck_rhs_put_robin_hood (set_map hs mp) first;
            match ret with
            | RhGrown => fas_loop fuel hs h key
            | RhFailed =>
                mp ← update_desc (map hs) slot (put_rh false);
                Some (false, CK_RHS_EMPTY, set_map hs mp)
            | RhDone =>
                mp ← update_desc (map hs) slot (put_rh false);
                mp ← store_entry mp first insert;
                let mp := signal mp h in
                mp ← ck_rhs_set_probes mp first (r_n_probes r);
                mp ← ck_rhs_add_wanted mp first None h;
                mp ← ck_rhs_do_backward_shift_delete mp slot;
                Some (true, r_object r, set_map hs mp)
            end
        | None =>
            mp ← store_entry (map hs) slot insert;
            mp ← ck_rhs_set_probes mp slot (r_n_probes r);
            Some (true, r_object r, set_map hs mp)
        end
  end.

Definition ck_rhs_fas := fas_loop restarts.

(** The part of [ck_rhs_set] and [ck_rhs_apply] after their probe.  [None] in the
    result asks for a restart. *)
Definition set_store (hs : ck_rhs) (h insert : Z) (r : probe_result) : option (option bool * ck_rhs) :=
  mp ← ck_rhs_map_bound_set (map hs) h (r_n_probes r);
  match r_priority r with
  | Some first =>
      mp ← mark_slot mp (r_slot r) true;
      '(ret, hs) ← ck_rhs_put_robin_hood (set_map hs mp) first;
      match ret with
      | RhGrown => Some (None, hs)
      | RhFailed =>
          mp ← mark_slot (map hs) (r_slot r) false;
          Some (Some false, set_map hs mp)
      | RhDone =>
          mp ← mark_slot (map hs) (r_slot r) false;
          mp ← store_entry mp first insert;
          mp ← ck_rhs_set_probes mp first (r_n_probes r);
          mp ← ck_rhs_add_wanted mp first None h;
          if negb (r_object r =? CK_RHS_EMPTY) then
            slot ← r_slot r;
            mp ← ck_rhs_do_backward_shift_delete (signal mp h) slot;
            Some (Some true, set_map hs mp)
          else hs ← postinsert (set_map hs mp); Some (Some true, hs)
      end
  | None =>
      slot ← r_slot r;
      mp ← store_entry mp slot insert;
      mp ← ck_rhs_set_probes mp slot (r_n_probes r);
      if r_object r =? CK_RHS_EMPTY then
        mp ← ck_rhs_add_wanted mp slot None h;
        hs ← postinsert (set_map hs mp); Some (Some true, hs)
      else Some (Some true, set_map hs mp)
  end.

(** The function is called once, whatever the number of restarts. *)
Fixpoint apply_loop (fuel : nat) (hs : ck_rhs) (h key : Z) (fn : Z -> Z) (delta : option Z)
    : option (bool * ck_rhs) :=
  match fuel with
  | O => None
  | S fuel =>
      r ← probe_func hs (map hs) 0 None h key (probe_limit (map hs)) CK_RHS_PROBE_INSERT;
      match r_slot r, r_priority r with
      | None, None =>
          '(ok, hs) ← ck_rhs_grow hs (u64 (Z.shiftl (capacity (map hs)) 1));
          if negb ok then Some (false, hs) else apply_loop fuel hs h key fn delta
      | _, _ =>
          let d := match delta with Some d => d | None => fn (r_object r) end in
          if d =? CK_RHS_EMPTY then
            if r_object r =? CK_RHS_EMPTY then Some (true, hs)
            else
              slot ← r_slot r;
              mp ← ck_rhs_do_backward_shift_delete (map hs) slot;
              Some (true, set_map hs mp)
          else if d =? r_object r then Some (true, hs)
          else
            '(res, hs) ← set_store hs h (ck_rhs_marshal (mode hs) d h) r;
            match res with
            | None => apply_loop fuel hs h key fn (Some d)
            | Some b => Some (b, hs)
            end
      end
  end.

Definition ck_rhs_apply (hs : ck_rhs) (h key : Z) (fn : Z -> Z) : option (bool * ck_rhs) :=
  apply_loop restarts hs h key fn None.

Fixpoint set_loop (fuel : nat) (hs : ck_rhs) (h key : Z) : option (bool * Z * ck_rhs) :=
  match fuel with
  | O => None
  | S fuel =>
      r ← probe_func hs (map hs) 0 None h key (probe_limit (map hs)) CK_RHS_PROBE_INSERT;
      match r_slot r, r_priority r with
      | None, None =>
          '(ok, hs) ← ck_rhs_grow hs (u64 (Z.shiftl (capacity (map hs)) 1));
          if negb ok then Some (false, CK_RHS_EMPTY, hs) else set_loop fuel hs h key
      | _, _ =>
          '(res, hs) ← set_store hs h (ck_rhs_marshal (mode hs) key h) r;
          match res with
          | None => set_loop fuel hs h key
          | Some b => Some (b, if b then r_object r else CK_RHS_EMPTY, hs)
          end
      end
  end.

Definition ck_rhs_set := set_loop restarts.

Fixpoint put_internal_loop (fuel : nat) (hs : ck_rhs) (h key : Z) (behavior : ck_rhs_probe_behavior)
    : option (bool * ck_rhs) :=
  match fuel with
  | O => None
  | S fuel =>
      r ← probe_func hs (map hs) 0 None h key (probe_limit (map hs)) behavior;
      match r_slot r, r_priority r with
      | None, None =>
          '(ok, hs) ← ck_rhs_grow hs (u64 (Z.shiftl (capacity (map hs)) 1));
          if negb ok then Some (false, hs) else put_internal_loop fuel hs h key behavior
      | _, _ =>
          if negb (r_object r =? CK_RHS_EMPTY) then Some (false, hs)
          else
            mp ← ck_rhs_map_bound_set (map hs) h (r_n_probes r);
            let insert := ck_rhs_marshal (mode hs) key h in
            match r_priority r with
            | Some first =>
                '(ret, hs) ← ck_rhs_put_robin_hood (set_map hs mp) first;
                match ret with
                | RhGrown => put_internal_loop fuel hs h key behavior
                | RhFailed => Some (false, hs)
                | RhDone =>
                    mp ← store_entry (map hs) first insert;
                    mp ← ck_rhs_set_probes mp first (r_n_probes r);
                    mp ← ck_rhs_add_wanted mp first None h;
                    hs ← postinsert (set_map hs mp); Some (true, hs)
                end
            | None =>
                slot ← r_slot r;
                mp ← store_entry mp slot insert;
                mp ← ck_rhs_set_probes mp slot (r_n_probes r);
                mp ← ck_rhs_add_wanted mp slot None h;
                hs ← postinsert (set_map hs mp); Some (true, hs)
            end
      end
  end.

Definition ck_rhs_put_internal := put_internal_loop restarts.

Definition ck_rhs_put (hs : ck_rhs) (h key : Z) : option (bool * ck_rhs) :=
  ck_rhs_put_internal hs h key CK_RHS_PROBE_INSERT.
Definition ck_rhs_put_unique (hs : ck_rhs) (h key : Z) : option (bool * ck_rhs) :=
  ck_rhs_put_internal hs h key CK_RHS_PROBE_RH.

(** With no concurrent writer the generation does not move. *)
Definition ck_rhs_get (hs : ck_rhs) (h key : Z) : option Z :=
  limit ← ck_rhs_map_bound_get (map hs) h;
  r ← probe_func hs (map hs) 0 None h key limit CK_RHS_PROBE_NO_RH;
  Some (r_object r).

Definition ck_rhs_remove (hs : ck_rhs) (h key : Z) : option (Z * ck_rhs) :=
  limit ← ck_rhs_map_bound_get (map hs) h;
  r ← probe_func hs (map hs) 0 None h key limit CK_RHS_PROBE_NO_RH;
  if r_object r =? CK_RHS_EMPTY then Some (CK_RHS_EMPTY, hs)
  else
    let mp := set_n_entries (map hs) (u64 (n_entries (map hs) - 1)) in
    slot ← r_slot r;
    mp ← ck_rhs_do_backward_shift_delete mp slot;
    Some (r_object r, set_map hs mp).

(** * Initialisation *)

Definition ck_rhs_move (source : ck_rhs) (hf : option (Z -> Z -> Z))
    (compare : option (Z -> Z -> bool)) (m : option (heap * bool * bool)) : option ck_rhs :=
  match m, hf with
  | Some (heap0, true, true), Some hf =>
      Some (CkRhs heap0 (map source) (mode source) (load_factor source) (seed source) hf compare)
  | _, _ => None
  end.

Definition ck_rhs_init (mode : Z) (hf : option (Z -> Z -> Z)) (compare : option (Z -> Z -> bool))
    (m : option (heap * bool * bool)) (n_entries seed : Z) : option ck_rhs :=
  match m, hf with
  | Some (heap0, true, true), Some hf =>
      let unmapped := CkRhsMap [] 0 0 0 0 0 0 0 0 0 [] false in
      let hs := CkRhs heap0 unmapped mode CK_RHS_DEFAULT_LOAD_FACTOR seed hf compare in
      match ck_rhs_map_create hs n_entries with
      | (Some mp, heap1) => Some (set_map (set_m hs heap1) mp)
      | (None, _) => None
      end
  | _, _ => None
  end.
End ck_rhs.
