(* ===== verification/RhsWalk.v ===== *)
(** The walk of [ck_rhs] through its table: the geometry of a map, the slot of
    every probe in closed form, the inverse of a step and of the whole walk, and
    the fact that the first [capacity] probes visit every slot once. *)

From S2P Require Export Rhs.
Set Warnings "-rewrite-rw,-clear-no-such-hyp".

(** [map->offset_mask + 1], the slots of a cache line. *)
Definition line (mp : ck_rhs_map) : Z := offset_mask mp + 1.

Record geometry (mp : ck_rhs_map) : Prop := {
  g_line : ∃ j, 1 <= j <= 3 /\ line mp = 2 ^ j;
  g_blocks : ∃ b, 0 <= b <= 40 /\ capacity mp = line mp * 2 ^ b;
  g_mask : mask mp = capacity mp - 1;
  g_descs : Z.of_nat (length (descs mp)) = capacity mp;
}.

(** The slot of the probe that follows [n] steps. *)
Fixpoint walk (mp : ck_rhs_map) (h : Z) (n : nat) : Z :=
  match n with
  | O => Z.land h (mask mp)
  | S n => ck_rhs_map_probe_next mp (walk mp h n) (Z.of_nat (S n))
  end.

Lemma land_ones_mod x k : 0 <= k -> Z.land x (2 ^ k - 1) = x mod 2 ^ k.
Proof. intros Hk. rewrite -Z.land_ones // Z.ones_equiv. do 2 f_equal. Qed.

Lemma land_lnot_mod x k : 0 <= k -> Z.land x (Z.lnot (2 ^ k - 1)) = x - x mod 2 ^ k.
Proof.
  intros Hk. rewrite -(land_ones_mod x k) //. rewrite -Z.ldiff_land.
  pose proof (Z.sub_nocarry_ldiff x (Z.land x (2 ^ k - 1))) as ->.
  - apply Z.bits_inj'. intros i Hi. rewrite !Z.ldiff_spec !Z.land_spec.
    by destruct (Z.testbit x i), (Z.testbit (2 ^ k - 1) i).
  - apply Z.bits_inj'. intros i Hi. rewrite Z.ldiff_spec Z.land_spec Z.bits_0.
    by destruct (Z.testbit x i), (Z.testbit (2 ^ k - 1) i).
Qed.

Lemma u64_mod x k : 0 <= k <= 64 -> u64 x mod 2 ^ k = x mod 2 ^ k.
Proof.
  intros Hk. unfold u64. change 18446744073709551616 with (2 ^ 64).
  apply Z.mod_mod_divide.
  exists (2 ^ (64 - k)). rewrite -Z.pow_add_r; [lia..|]. f_equal. lia.
Qed.

(** * Slots as a line and a place in it *)

Definition blocks (mp : ck_rhs_map) : Z := capacity mp / line mp.
Definition slot_of (mp : ck_rhs_map) (q r : Z) : Z :=
  line mp * (q mod blocks mp) + r mod line mp.

(** The triangular numbers. *)
Definition tri (a : Z) : Z := a * (a + 1) / 2.

Lemma tri_succ a : tri (a + 1) = tri a + (a + 1).
Proof.
  unfold tri. replace ((a + 1) * (a + 1 + 1)) with (a * (a + 1) + (a + 1) * 2) by lia.
  by rewrite Z.div_add.
Qed.

Lemma tri_double a : 2 * tri a = a * (a + 1).
Proof.
  unfold tri. assert (Z.even (a * (a + 1)) = true) as He.
  { rewrite Z.even_mul Z.even_add. by destruct (Z.even a). }
  apply Z.even_spec in He as [k ->]. rewrite (Z.mul_comm 2 k) Z.div_mul //. lia.
Qed.

Section walk.
Context (mp : ck_rhs_map) (G : geometry mp).

Local Notation M := (line mp).
Local Notation B := (blocks mp).

Lemma line_pos : 2 <= M <= 8.
Proof.
  destruct (g_line _ G) as (j & Hj & ->).
  assert (j = 1 \/ j = 2 \/ j = 3) as [->|[->| ->]] by lia; simpl; lia.
Qed.

Lemma blocks_pow : ∃ b, 0 <= b <= 40 /\ B = 2 ^ b.
Proof.
  destruct (g_blocks _ G) as (b & Hb & Hc). exists b. split; [done|].
  pose proof line_pos. unfold blocks. rewrite Hc (Z.mul_comm M (2 ^ b)) Z.div_mul; lia.
Qed.

Lemma blocks_pos : 0 < B.
Proof. destruct blocks_pow as (b & Hb & ->). apply Z.pow_pos_nonneg; lia. Qed.

Lemma capacity_blocks : capacity mp = M * B.
Proof.
  unfold blocks. destruct (g_blocks _ G) as (b & Hb & Hc).
  pose proof line_pos. rewrite {2}Hc. rewrite (Z.mul_comm M (2 ^ b)) Z.div_mul; lia.
Qed.

Lemma capacity_pow : ∃ k, 0 <= k <= 43 /\ capacity mp = 2 ^ k.
Proof.
  destruct (g_blocks _ G) as (b & Hb & Hc), (g_line _ G) as (j & Hj & HM).
  exists (j + b). split; [lia|]. rewrite Hc HM Z.pow_add_r; lia.
Qed.

Lemma land_line x : Z.land x (offset_mask mp) = x mod M.
Proof.
  destruct (g_line _ G) as (j & Hj & HM). replace (offset_mask mp) with (2 ^ j - 1).
  - rewrite land_ones_mod ?HM //. lia.
  - unfold line in HM. lia.
Qed.

Lemma land_lnot_line x : Z.land x (Z.lnot (offset_mask mp)) = M * (x / M).
Proof.
  destruct (g_line _ G) as (j & Hj & HM). replace (offset_mask mp) with (2 ^ j - 1).
  - rewrite land_lnot_mod ?HM; [lia|]. rewrite -HM. pose proof line_pos.
    pose proof (Z.div_mod x M). lia.
  - unfold line in HM. lia.
Qed.

Lemma land_u64_line x : Z.land (u64 x) (offset_mask mp) = x mod M.
Proof.
  rewrite land_line. destruct (g_line _ G) as (j & Hj & ->). apply u64_mod. lia.
Qed.

Lemma land_mask x : Z.land x (mask mp) = x mod capacity mp.
Proof.
  rewrite (g_mask _ G). destruct capacity_pow as (k & Hk & ->). apply land_ones_mod. lia.
Qed.

Lemma land_u64_mask x : Z.land (u64 x) (mask mp) = x mod capacity mp.
Proof.
  rewrite land_mask. destruct capacity_pow as (k & Hk & ->). apply u64_mod. lia.
Qed.

Lemma truthy_line x : truthy (Z.land x (offset_mask mp)) = negb (x mod M =? 0).
Proof. by rewrite land_line. Qed.

Lemma slot_of_range q r : 0 <= slot_of mp q r < capacity mp.
Proof.
  unfold slot_of. rewrite capacity_blocks. pose proof line_pos. pose proof blocks_pos.
  pose proof (Z.mod_pos_bound q B). pose proof (Z.mod_pos_bound r M). nia.
Qed.

Lemma mod_blocks x r : (M * x + r) mod capacity mp = slot_of mp (x + r / M) r.
Proof.
  unfold slot_of. pose proof line_pos. pose proof blocks_pos. rewrite capacity_blocks.
  rewrite {1}(Z.div_mod r M); [lia|].
  replace (M * x + (M * (r / M) + r mod M)) with (r mod M + (x + r / M) * M) by lia.
  pose proof (Z.mod_pos_bound r M ltac:(lia)) as Hr.
  rewrite Z.rem_mul_r; [lia|lia|].
  rewrite Z.mod_add; [lia|]. rewrite Z.mod_mod; [lia|]. rewrite Z.div_add; [lia|].
  rewrite (Z.div_small (r mod M)); [lia|]. by rewrite Z.add_0_l Z.add_comm.
Qed.

Lemma slot_of_mask h : Z.land h (mask mp) = slot_of mp (h / M) h.
Proof. rewrite land_mask -(mod_blocks 0 h). f_equal. lia. Qed.

Lemma slot_of_self s : 0 <= s < capacity mp -> slot_of mp (s / M) s = s.
Proof. intros Hs. rewrite -(mod_blocks 0 s) Z.mod_small; lia. Qed.

Lemma slot_of_div q r : slot_of mp q r / M = q mod B.
Proof.
  unfold slot_of. pose proof line_pos.
  rewrite (Z.mul_comm M) Z.div_add_l; [lia|].
  rewrite (Z.div_small (r mod M)); [apply Z.mod_pos_bound; lia|]. lia.
Qed.

Lemma slot_of_mod q r : slot_of mp q r mod M = r mod M.
Proof.
  unfold slot_of. rewrite Z.add_comm Z.mul_comm Z.mod_add; [pose proof line_pos; lia|].
  apply Z.mod_mod. pose proof line_pos. lia.
Qed.

Lemma slot_of_eq q r q' r' :
  slot_of mp q r = slot_of mp q' r' <-> q mod B = q' mod B /\ r mod M = r' mod M.
Proof.
  split.
  - intros H. rewrite -(slot_of_div q r) -(slot_of_mod q r) H slot_of_div slot_of_mod //.
  - intros [Hq Hr]. unfold slot_of. by rewrite Hq Hr.
Qed.

Lemma slot_of_line s d : 0 <= s < capacity mp ->
  M * (s / M) + (s + d) mod M = slot_of mp (s / M) (s + d).
Proof.
  intros Hs. unfold slot_of. rewrite (Z.mod_small (s / M)) //.
  pose proof line_pos. split; [apply Z.div_pos; lia|].
  apply Z.div_lt_upper_bound; [lia|]. rewrite -capacity_blocks. lia.
Qed.

(** ** One step *)

Lemma probe_next_slot q r p : 0 <= p ->
  ck_rhs_map_probe_next mp (slot_of mp q r) p =
  if p mod M =? 0 then slot_of mp (q + p / M) r else slot_of mp q (r + 1).
Proof.
  intros Hp. unfold ck_rhs_map_probe_next. rewrite truthy_line.
  pose proof line_pos. destruct (Z.eqb_spec (p mod M) 0) as [H0|H0]; cbn [negb].
  - rewrite land_u64_mask. pose proof (Z.div_mod p M ltac:(lia)) as Hd. rewrite H0 in Hd.
    unfold slot_of at 1. rewrite {1}Hd.
    replace (M * (q mod B) + r mod M + (M * (p / M) + 0)) with
      (M * (q mod B + p / M) + r mod M) by lia.
    rewrite mod_blocks. apply slot_of_eq. split.
    + rewrite (Z.div_small (r mod M)); [apply Z.mod_pos_bound; lia|].
      rewrite Z.add_0_r Z.add_mod_idemp_l //. pose proof blocks_pos. lia.
    + apply Z.mod_mod. lia.
  - rewrite land_lnot_line land_u64_line. rewrite (slot_of_line _ 1 (slot_of_range q r)).
    apply slot_of_eq. rewrite slot_of_div. pose proof blocks_pos. split.
    + apply Z.mod_mod. lia.
    + rewrite -Z.add_mod_idemp_l; [lia|]. rewrite slot_of_mod Z.add_mod_idemp_l //. lia.
Qed.

Lemma probe_prev_slot q r p : 0 <= p ->
  ck_rhs_map_probe_prev mp (slot_of mp q r) p =
  if p mod M =? 0 then slot_of mp (q - p / M) r else slot_of mp q (r - 1).
Proof.
  intros Hp. unfold ck_rhs_map_probe_prev. rewrite truthy_line.
  pose proof line_pos. destruct (Z.eqb_spec (p mod M) 0) as [H0|H0]; cbn [negb].
  - rewrite land_u64_mask. pose proof (Z.div_mod p M ltac:(lia)) as Hd. rewrite H0 in Hd.
    unfold slot_of at 1. rewrite {1}Hd.
    replace (M * (q mod B) + r mod M - (M * (p / M) + 0)) with
      (M * (q mod B - p / M) + r mod M) by lia.
    rewrite mod_blocks. apply slot_of_eq. split.
    + rewrite (Z.div_small (r mod M)); [apply Z.mod_pos_bound; lia|].
      rewrite Z.add_0_r Zminus_mod_idemp_l //.
    + apply Z.mod_mod. lia.
  - rewrite land_lnot_line land_u64_line -Z.add_opp_r.
    rewrite (slot_of_line _ (-1) (slot_of_range q r)).
    apply slot_of_eq. rewrite slot_of_div. pose proof blocks_pos. split.
    + apply Z.mod_mod. lia.
    + rewrite -Z.add_mod_idemp_l; [lia|]. rewrite slot_of_mod Z.add_mod_idemp_l //. lia.
Qed.

(** ** The walk in closed form *)

Lemma walk_slot h n :
  walk mp h n = slot_of mp (h / M + tri (Z.of_nat n / M)) (h + Z.of_nat n - Z.of_nat n / M).
Proof.
  pose proof line_pos. induction n as [|n IH]; cbn [walk].
  - rewrite Z.div_0_l; [lia|]. rewrite slot_of_mask. f_equal; [by rewrite Z.add_0_r|lia].
  - rewrite IH probe_next_slot; [lia|]. rewrite Nat2Z.inj_succ. unfold Z.succ.
    set (k := Z.of_nat n). pose proof (Z.div_mod k M ltac:(lia)) as Hk.
    pose proof (Z.mod_pos_bound k M ltac:(lia)) as Hr.
    destruct (decide (k mod M = M - 1)) as [Hl|Hl].
    + assert ((k + 1) / M = k / M + 1) as Hd.
      { symmetry. apply Z.div_unique with 0; lia. }
      assert ((k + 1) mod M = 0) as Hm by (symmetry; apply Z.mod_unique with (k / M + 1); lia).
      rewrite Hm Hd tri_succ. simpl. f_equal; lia.
    + assert ((k + 1) / M = k / M) as Hd by (symmetry; apply Z.div_unique with (k mod M + 1); lia).
      assert ((k + 1) mod M = k mod M + 1) as Hm by (symmetry; apply Z.mod_unique with (k / M); lia).
      rewrite Hm Hd. rewrite (proj2 (Z.eqb_neq (k mod M + 1) 0)); [lia|]. f_equal; lia.
Qed.

Lemma walk_range h n : 0 <= walk mp h n < capacity mp.
Proof. rewrite walk_slot. apply slot_of_range. Qed.

(** Only the home counts. *)
Lemma walk_home h n : walk mp (walk mp h 0) n = walk mp h n.
Proof.
  induction n as [|n IH]; cbn [walk]; [|by rewrite IH].
  rewrite !land_mask Z.mod_mod //. pose proof line_pos. pose proof blocks_pos.
  rewrite capacity_blocks. lia.
Qed.

Lemma probe_prev_next o p : 0 <= o < capacity mp -> 0 <= p ->
  ck_rhs_map_probe_prev mp (ck_rhs_map_probe_next mp o p) p = o.
Proof.
  intros Ho Hp. rewrite -(slot_of_self o Ho) probe_next_slot //.
  destruct (p mod M =? 0) eqn:E; rewrite probe_prev_slot // E; f_equal; lia.
Qed.

Lemma walk_prev h n :
  ck_rhs_map_probe_prev mp (walk mp h (S n)) (Z.of_nat (S n)) = walk mp h n.
Proof. cbn [walk]. apply probe_prev_next; [apply walk_range|lia]. Qed.

Lemma first_offset_slot fuel q0 r0 p :
  1 <= p -> p < Z.of_nat fuel + 1 ->
  first_offset_loop mp fuel
    (slot_of mp (q0 + tri ((p - 1) / M)) (r0 + (p - 1) - (p - 1) / M)) p = slot_of mp q0 r0.
Proof.
  revert p. pose proof line_pos as HM. pose proof blocks_pos as HB.
  induction fuel as [|fuel IH]; intros p Hp Hf; [lia|]. cbn [first_offset_loop].
  fold M. set (a := (p - 1) / M).
  set (o := slot_of mp (q0 + tri a) (r0 + (p - 1) - a)).
  pose proof (slot_of_range (q0 + tri a) (r0 + (p - 1) - a)) as Ho. fold o in Ho.
  destruct (Z.ltb_spec M p) as [Hlt|Hge].
  - assert ((p - M - 1) / M = a - 1) as Ha.
    { replace (p - M - 1) with (p - 1 + (-1) * M) by lia. rewrite Z.div_add; unfold a; lia. }
    assert (1 <= a) by (unfold a; apply Z.div_le_lower_bound; lia).
    rewrite -(IH (p - M)); [lia|lia|]. rewrite Ha. f_equal.
    rewrite (land_lnot_line (p - 1)) land_u64_mask. fold a.
    assert ((o - M * a) mod capacity mp = slot_of mp (q0 + tri a - a) (r0 + (p - 1) - a)) as ->.
    { unfold o at 1, slot_of at 1.
      replace (M * ((q0 + tri a) mod B) + (r0 + (p - 1) - a) mod M - M * a) with
        (M * ((q0 + tri a) mod B - a) + (r0 + (p - 1) - a) mod M) by lia.
      rewrite mod_blocks. apply slot_of_eq. split; [|apply Z.mod_mod; lia].
      rewrite (Z.div_small (_ mod M)); [apply Z.mod_pos_bound; lia|].
      rewrite Z.add_0_r Zminus_mod_idemp_l //. }
    set (s := slot_of mp (q0 + tri a - a) (r0 + (p - 1) - a)).
    assert (0 <= s < capacity mp) as Hs by apply slot_of_range.
    rewrite land_lnot_line land_u64_line.
    replace (s - offset_mask mp) with (s + - offset_mask mp) by lia.
    rewrite (slot_of_line s) //. apply slot_of_eq. unfold s. rewrite slot_of_div. split.
    + rewrite Z.mod_mod; [lia|]. f_equal. pose proof (tri_succ (a - 1)) as Ht.
      rewrite Z.sub_add in Ht. lia.
    + rewrite -Z.add_mod_idemp_l; [lia|]. rewrite slot_of_mod Z.add_mod_idemp_l; [lia|].
      unfold line. f_equal. unfold line in *. lia.
  - assert (a = 0) as Ha by (unfold a; apply Z.div_small; lia).
    rewrite land_lnot_line land_u64_line. replace (o - (p - 1)) with (o + - (p - 1)) by lia.
    rewrite (slot_of_line o) //. apply slot_of_eq. unfold o. rewrite slot_of_div Ha.
    change (tri 0) with 0. split.
    + rewrite Z.mod_mod; [lia|]. f_equal. lia.
    + rewrite -Z.add_mod_idemp_l; [lia|]. rewrite slot_of_mod Z.add_mod_idemp_l; [lia|].
      f_equal. lia.
Qed.

Lemma first_offset_walk h (n : nat) :
  ck_rhs_get_first_offset mp (walk mp h n) (Z.of_nat n + 1) = Z.land h (mask mp).
Proof.
  unfold ck_rhs_get_first_offset. rewrite walk_slot slot_of_mask.
  pose proof (first_offset_slot (S (Z.to_nat (Z.of_nat n + 1))) (h / M) h (Z.of_nat n + 1)) as H.
  rewrite Z.add_simpl_r in H. rewrite -H; [lia|lia|]. do 2 f_equal; lia.
Qed.

(** ** The first [capacity] probes visit every slot once *)

Lemma pow2_odd_divide k x y : 0 <= k -> Z.Odd x -> (2 ^ k | x * y) -> (2 ^ k | y).
Proof.
  intros Hk [e He]. revert y. pattern k. apply natlike_ind; [| |done]; clear k Hk.
  - intros y _. apply Z.divide_1_l.
  - intros k Hk IH y [c Hc]. rewrite Z.pow_succ_r // in Hc.
    destruct (Z.Even_or_Odd y) as [[z Hz]|[z Hz]]; [|subst; lia].
    destruct (IH z) as [d Hd].
    { exists c. subst y. nia. }
    exists d. rewrite Z.pow_succ_r //. lia.
Qed.

Lemma tri_inj b x y : 0 <= b -> 0 <= x < 2 ^ b -> 0 <= y < 2 ^ b ->
  tri x mod 2 ^ b = tri y mod 2 ^ b -> x = y.
Proof.
  intros Hb Hx Hy Heq. assert (0 < 2 ^ b) as Hp by (apply Z.pow_pos_nonneg; lia).
  assert ((2 ^ b | tri x - tri y)) as [c Hc].
  { apply Z.mod_divide; [lia|]. rewrite Zminus_mod Heq Z.sub_diag Z.mod_0_l; lia. }
  assert ((x - y) * (x + y + 1) = c * 2 ^ (b + 1)) as Hprod.
  { rewrite Z.pow_add_r; [lia..|]. pose proof (tri_double x). pose proof (tri_double y). nia. }
  assert (2 ^ (b + 1) = 2 * 2 ^ b) as H2 by (rewrite Z.pow_add_r; lia).
  destruct (Z.Even_or_Odd (x - y)) as [[k Hk]|Hodd].
  - assert ((2 ^ (b + 1) | x - y)) as [d Hd].
    2:{ rewrite H2 in Hd. assert (d = 0) by nia. lia. }
    apply pow2_odd_divide with (x + y + 1); [lia| |exists c; lia]. exists (k + y). lia.
  - assert ((2 ^ (b + 1) | x + y + 1)) as [d Hd].
    2:{ rewrite H2 in Hd. assert (d = 1 \/ d <= 0 \/ 2 <= d) as [->|[?|?]] by lia; nia. }
    apply pow2_odd_divide with (x - y); [lia|done|exists c; lia].
Qed.

Lemma walk_inj h (i j : nat) :
  Z.of_nat i < capacity mp -> Z.of_nat j < capacity mp -> walk mp h i = walk mp h j -> i = j.
Proof.
  intros Hi Hj. rewrite !walk_slot slot_of_eq. intros [Hq Hr].
  pose proof line_pos as HM. pose proof blocks_pos as HB. rewrite capacity_blocks in Hi Hj.
  set (a := Z.of_nat i / M) in *. set (c := Z.of_nat j / M) in *.
  assert (a = c) as Hac.
  { destruct blocks_pow as (b & Hb & HBb). apply (tri_inj b); [lia| | |].
    - rewrite -HBb. split; [apply Z.div_pos; lia|]. apply Z.div_lt_upper_bound; lia.
    - rewrite -HBb. split; [apply Z.div_pos; lia|]. apply Z.div_lt_upper_bound; lia.
    - rewrite -HBb.
      replace (tri a) with (h / M + tri a - h / M) by lia.
      replace (tri c) with (h / M + tri c - h / M) by lia.
      by rewrite Zminus_mod Hq -Zminus_mod. }
  pose proof (Z.div_mod (Z.of_nat i) M ltac:(lia)) as Di.
  pose proof (Z.div_mod (Z.of_nat j) M ltac:(lia)) as Dj.
  assert (Z.of_nat i mod M = Z.of_nat j mod M) as Hm; [|unfold a, c in *; lia].
  replace (Z.of_nat i) with (h + Z.of_nat i - a - (h - a)) by lia.
  replace (Z.of_nat j) with (h + Z.of_nat j - c - (h - a)) by lia.
  by rewrite Zminus_mod Hr -Zminus_mod.
Qed.

Lemma walk_covers h s : 0 <= s < capacity mp ->
  ∃ i : nat, Z.of_nat i < capacity mp /\ walk mp h i = s.
Proof.
  intros Hs. pose proof line_pos as HM. pose proof blocks_pos as HB.
  set (l := (λ i, Z.to_nat (walk mp h i)) <$> seq 0 (Z.to_nat (capacity mp))).
  assert (NoDup l) as Hnd.
  { apply NoDup_fmap_2_strong; [|apply NoDup_seq].
    intros i j Hi Hj Hij. apply elem_of_seq in Hi, Hj.
    pose proof (walk_range h i). pose proof (walk_range h j).
    apply (walk_inj h); lia. }
  assert (l ≡ₚ seq 0 (Z.to_nat (capacity mp))) as Hperm.
  { apply submseteq_length_Permutation; [|by unfold l; rewrite length_fmap].
    apply NoDup_submseteq; [done|]. intros x (i & -> & Hi)%list_elem_of_fmap.
    apply elem_of_seq. pose proof (walk_range h i). lia. }
  assert (Z.to_nat s ∈ l) as Hin.
  { rewrite Hperm. apply elem_of_seq. lia. }
  apply list_elem_of_fmap in Hin as (i & Hi & Hseq). apply elem_of_seq in Hseq.
  exists i. pose proof (walk_range h i). lia.
Qed.
End walk.
