(* ===== verification/RhsLayout.v ===== *)
(** [ck_rhs]: what a map holds.  A layout is a finite map from slots to the entry
    stored there and its probe count; the counters of a map are functions of its
    layout.  Updates of descriptors, and the representation of a layout by a map. *)

From S2P Require Export RhsWalk.
Set Warnings "-rewrite-rw,-clear-no-such-hyp".

(** * Descriptors as a function of the slot *)

Definition D (mp : ck_rhs_map) (s : Z) : ck_rhs_entry_desc :=
  default empty_desc (descs mp !! Z.to_nat s).

Definition upd (mp : ck_rhs_map) (s : Z) (f : ck_rhs_entry_desc -> ck_rhs_entry_desc) : ck_rhs_map :=
  set_descs mp (alter f (Z.to_nat s) (descs mp)).

(** The fields that the operations never change. *)
Record shape (g mp : ck_rhs_map) : Prop := {
  sh_mask : mask mp = mask g;
  sh_offset_mask : offset_mask mp = offset_mask g;
  sh_capacity : capacity mp = capacity g;
  sh_probe_limit : probe_limit mp = probe_limit g;
  sh_read_mostly : read_mostly mp = read_mostly g;
  sh_size : size mp = size g;
  sh_descs : length (descs mp) = length (descs g);
}.

Lemma shape_refl g : shape g g.
Proof. by split. Qed.

Lemma shape_trans a b c : shape a b -> shape b c -> shape a c.
Proof. intros [] []. split; congruence. Qed.

Lemma shape_sym a b : shape a b -> shape b a.
Proof. intros []. by split. Qed.

Lemma shape_geometry g mp : geometry g -> shape g mp -> geometry mp.
Proof.
  intros [(j & Hj & HM) (b & Hb & Hc) Hm Hd] []. split.
  - exists j. split; [done|]. unfold line in *. congruence.
  - exists b. split; [done|]. unfold line in *. congruence.
  - congruence.
  - congruence.
Qed.

Lemma shape_upd g mp s f : shape g mp -> shape g (upd mp s f).
Proof. intros []. split; cbn; try done. by rewrite length_alter. Qed.

Lemma shape_next g mp o p : shape g mp -> ck_rhs_map_probe_next mp o p = ck_rhs_map_probe_next g o p.
Proof. intros []. unfold ck_rhs_map_probe_next. by rewrite sh_mask0 sh_offset_mask0. Qed.

Lemma shape_prev g mp o p : shape g mp -> ck_rhs_map_probe_prev mp o p = ck_rhs_map_probe_prev g o p.
Proof. intros []. unfold ck_rhs_map_probe_prev. by rewrite sh_mask0 sh_offset_mask0. Qed.

Lemma shape_walk g mp h n : shape g mp -> walk mp h n = walk g h n.
Proof.
  intros S. induction n as [|n IH]; cbn [walk].
  - by rewrite (sh_mask _ _ S).
  - by rewrite (shape_next g) // IH.
Qed.

Abbreviation layout := (gmap Z (Z * Z)).

(** The number of entries. *)
Abbreviation count T := (Z.of_nat (length (map_to_list T))).

Lemma shape_first_offset g mp o p :
  shape g mp -> ck_rhs_get_first_offset mp o p = ck_rhs_get_first_offset g o p.
Proof.
  intros S. unfold ck_rhs_get_first_offset. generalize (Datatypes.S (Z.to_nat p)) as fuel.
  intros fuel. revert o p. induction fuel as [|fuel IH]; intros o p; [done|]. cbn [first_offset_loop].
  by rewrite IH (sh_mask _ _ S) (sh_offset_mask _ _ S).
Qed.

Section layout.
Context (g : ck_rhs_map) (G : geometry g).
Implicit Types (mp : ck_rhs_map) (s h p : Z).

Definition in_range s : Prop := 0 <= s < capacity g.

Lemma lookup_range mp s : shape g mp -> in_range s -> (Z.to_nat s < length (descs mp))%nat.
Proof.
  intros S Hs. rewrite (sh_descs _ _ S). pose proof (g_descs _ G). unfold in_range in *. lia.
Qed.

Lemma desc_ok mp s : shape g mp -> in_range s -> ck_rhs_desc mp s = Some (D mp s).
Proof.
  intros S Hs. unfold ck_rhs_desc, D.
  by destruct (lookup_lt_is_Some_2 _ _ (lookup_range mp s S Hs)) as [d ->].
Qed.

Lemma update_ok mp s f : shape g mp -> in_range s -> update_desc mp s f = Some (upd mp s f).
Proof.
  intros S Hs. unfold update_desc. rewrite desc_ok //=. unfold upd, D. do 2 f_equal.
  destruct (lookup_lt_is_Some_2 _ _ (lookup_range mp s S Hs)) as [d Hd]. rewrite Hd /=.
  apply list_eq. intros i. destruct (decide (i = Z.to_nat s)) as [->|Hne].
  - rewrite list_lookup_insert_eq; [by eapply lookup_lt_Some|]. by rewrite list_lookup_alter_eq Hd.
  - by rewrite list_lookup_insert_ne // list_lookup_alter_ne.
Qed.

Lemma D_upd mp s f s' : shape g mp -> in_range s -> in_range s' ->
  D (upd mp s f) s' = if s =? s' then f (D mp s) else D mp s'.
Proof.
  intros S Hs Hs'. unfold D, upd. cbn.
  destruct (Z.eqb_spec s s') as [->|Hne].
  - rewrite list_lookup_alter_eq.
    by destruct (lookup_lt_is_Some_2 _ _ (lookup_range mp s' S Hs)) as [d ->].
  - rewrite list_lookup_alter_ne //. unfold in_range in *. lia.
Qed.

Lemma D_upd_same mp s f : shape g mp -> in_range s -> D (upd mp s f) s = f (D mp s).
Proof. intros. by rewrite D_upd // Z.eqb_refl. Qed.

Lemma D_upd_other mp s f s' : s <> s' -> shape g mp -> in_range s -> in_range s' ->
  D (upd mp s f) s' = D mp s'.
Proof. intros Hne **. rewrite D_upd //. by rewrite (proj2 (Z.eqb_neq _ _) Hne). Qed.

Lemma walk_in_range h n : in_range (walk g h n).
Proof. by apply walk_range. Qed.

Lemma entry_ok mp s : shape g mp -> in_range s -> ck_rhs_entry mp s = Some (entry (D mp s)).
Proof. intros. unfold ck_rhs_entry. by rewrite desc_ok. Qed.

Lemma probes_ok mp s : shape g mp -> in_range s -> ck_rhs_probes mp s = Some (probes (D mp s)).
Proof. intros. unfold ck_rhs_probes. by rewrite desc_ok. Qed.

(** * Layouts *)

Implicit Type T : layout.

(** How often a walk of [p] probes from home [h] leaves slot [s] behind. *)
Definition passes (h p s : Z) : Z :=
  Z.of_nat (length (filter (λ i, walk g h i = s) (seq 0 (Z.to_nat (p - 1))))).

Lemma passes_nonneg h p s : 0 <= passes h p s.
Proof. unfold passes. lia. Qed.

Lemma passes_one h s : passes h 1 s = 0.
Proof. done. Qed.

Lemma passes_succ h p s : 1 <= p ->
  passes h (p + 1) s = passes h p s + if walk g h (Z.to_nat (p - 1)) =? s then 1 else 0.
Proof.
  intros Hp. unfold passes. replace (Z.to_nat (p + 1 - 1)) with (S (Z.to_nat (p - 1))) by lia.
  rewrite seq_S filter_app length_app /= Nat2Z.inj_add. f_equal. rewrite filter_cons filter_nil /=.
  destruct (Z.eqb_spec (walk g h (Z.to_nat (p - 1))) s); by case_decide.
Qed.

Lemma passes_mono h p q s : 1 <= p <= q -> passes h p s <= passes h q s.
Proof.
  intros Hpq. replace q with (p + Z.of_nat (Z.to_nat (q - p))) by lia.
  induction (Z.to_nat (q - p)) as [|n IH]; [by rewrite Z.add_0_r|].
  replace (p + Z.of_nat (S n)) with (p + Z.of_nat n + 1) by lia.
  rewrite passes_succ; [lia|]. destruct (_ =? _); lia.
Qed.

Lemma passes_pos h p s : 0 < passes h p s -> ∃ i : nat, Z.of_nat i < p - 1 /\ walk g h i = s.
Proof.
  unfold passes. destruct (filter _ _) as [|i l] eqn:E; simpl; [lia|]. intros _.
  assert (i ∈ filter (λ i, walk g h i = s) (seq 0 (Z.to_nat (p - 1)))) as Hi.
  { rewrite E. left. }
  apply list_elem_of_filter in Hi as [Hw Hi%elem_of_seq]. exists i. split; [lia|done].
Qed.

Lemma passes_ge h p s (i : nat) : Z.of_nat i < p - 1 -> walk g h i = s -> 1 <= passes h p s.
Proof.
  intros Hi Hw. unfold passes.
  assert (i ∈ filter (λ i, walk g h i = s) (seq 0 (Z.to_nat (p - 1)))) as H.
  { apply list_elem_of_filter. split; [done|]. apply elem_of_seq. lia. }
  destruct (filter _ _); [by apply not_elem_of_nil in H|]. simpl. lia.
Qed.

Lemma passes_le_one h p s : p - 1 <= capacity g -> passes h p s <= 1.
Proof.
  intros Hp. unfold passes.
  destruct (filter (λ i, walk g h i = s) (seq 0 (Z.to_nat (p - 1)))) as [|i [|j l]] eqn:E; simpl; try lia.
  assert (NoDup (i :: j :: l)) as Hnd.
  { rewrite -E. apply NoDup_filter, NoDup_seq. }
  assert (∀ x, x ∈ i :: j :: l -> walk g h x = s /\ Z.of_nat x < p - 1) as Hall.
  { intros x Hx. rewrite -E in Hx. apply list_elem_of_filter in Hx as [? ?%elem_of_seq]. split; [done|lia]. }
  destruct (Hall i) as [Hi1 Hi2]; [left|]. destruct (Hall j) as [Hj1 Hj2]; [right; left|].
  apply NoDup_cons in Hnd as [Hni _]. destruct Hni.
  rewrite (walk_inj g G h i j); [lia|lia|congruence|left].
Qed.

(** ** Sums over a layout *)

Definition tsum (f : Z * Z -> Z) T : Z := foldr (λ x acc, f x.2 + acc) 0 (map_to_list T).

Lemma tsum_empty f : tsum f ∅ = 0.
Proof. unfold tsum. by rewrite map_to_list_empty. Qed.

Lemma tsum_insert f T s x : T !! s = None -> tsum f (<[s := x]> T) = f x + tsum f T.
Proof.
  intros H. unfold tsum.
  assert (∀ l1 l2 : list (Z * (Z * Z)), l1 ≡ₚ l2 ->
    let F := foldr (λ x acc, f x.2 + acc) 0 in F l1 = F l2) as Hperm.
  { intros l1 l2 Hl. cbv zeta.
    induction Hl as [|y l1 l2 Hl IH|y z l|l1 l2 l3 H1 IH1 H2 IH2]; cbn [foldr];
      [done|by rewrite IH|lia|by rewrite IH1]. }
  by rewrite (Hperm _ _ (map_to_list_insert T s x H)).
Qed.

Lemma tsum_delete f T s x : T !! s = Some x -> tsum f (delete s T) = tsum f T - f x.
Proof.
  intros H. pose proof (tsum_insert f (delete s T) s x (lookup_delete_eq T s)) as Hi.
  rewrite insert_delete_id // in Hi. lia.
Qed.

Lemma tsum_bounds f T lo hi :
  (∀ s x, T !! s = Some x -> lo <= f x <= hi) ->
  lo * Z.of_nat (length (map_to_list T)) <= tsum f T <= hi * Z.of_nat (length (map_to_list T)).
Proof.
  intros H. unfold tsum.
  assert (∀ y, y ∈ map_to_list T -> lo <= f y.2 <= hi) as Hall.
  { intros [s x] Hy%elem_of_map_to_list. by eapply H. }
  clear H. induction (map_to_list T) as [|y l IH]; cbn [foldr length]; [lia|].
  pose proof (Hall y ltac:(left)). rewrite Nat2Z.inj_succ.
  assert (∀ z, z ∈ l -> lo <= f z.2 <= hi) as Hl by (intros z Hz; apply Hall; by right).
  specialize (IH Hl). lia.
Qed.

Lemma count_insert T s x : T !! s = None -> count (<[s := x]> T) = count T + 1.
Proof. intros H. rewrite (map_to_list_insert T s x H) /=. lia. Qed.

Lemma count_delete T s x : T !! s = Some x -> count (delete s T) = count T - 1.
Proof.
  intros H. pose proof (count_insert (delete s T) s x (lookup_delete_eq T s)) as Hi.
  rewrite insert_delete_id // in Hi. lia.
Qed.

(** The entries of a layout. *)
Definition keys T : list Z := (map_to_list T).*2.*1.

Lemma keys_insert T s k p : T !! s = None -> keys (<[s := (k, p)]> T) ≡ₚ k :: keys T.
Proof. intros H. unfold keys. by rewrite map_to_list_insert. Qed.

Lemma keys_delete T s k p : T !! s = Some (k, p) -> keys T ≡ₚ k :: keys (delete s T).
Proof.
  intros H. rewrite -{1}(insert_delete_id T s (k, p) H). apply keys_insert, lookup_delete_eq.
Qed.

Lemma keys_length T : count T = Z.of_nat (length (keys T)).
Proof. unfold keys. by rewrite !length_fmap. Qed.

Lemma elem_of_keys T k : k ∈ keys T <-> ∃ s p, T !! s = Some (k, p).
Proof.
  unfold keys. rewrite list_elem_of_fmap. split.
  - intros ([k' p] & -> & Hx). apply list_elem_of_fmap in Hx as ([s x] & Ex & Hx). cbn in Ex. subst x.
    apply elem_of_map_to_list in Hx. by exists s, p.
  - intros (s & p & H). exists (k, p). split; [done|]. apply list_elem_of_fmap.
    exists (s, (k, p)). split; [done|]. by apply elem_of_map_to_list.
Qed.

(** The walks of a layout across a slot. *)
Definition crossing (hash : Z -> Z) T s : Z := tsum (λ x, passes (hash x.1) x.2 s) T.

Section crossing.
Context (hash : Z -> Z).

Lemma crossing_insert T s' k p s : T !! s' = None ->
  crossing hash (<[s' := (k, p)]> T) s = passes (hash k) p s + crossing hash T s.
Proof. intros H. unfold crossing. by rewrite tsum_insert. Qed.

Lemma crossing_delete T s' k p s : T !! s' = Some (k, p) ->
  crossing hash (delete s' T) s = crossing hash T s - passes (hash k) p s.
Proof. intros H. unfold crossing. by rewrite (tsum_delete _ _ _ _ H). Qed.

Lemma crossing_nonneg T s : 0 <= crossing hash T s.
Proof.
  unfold crossing, tsum. induction (map_to_list T) as [|x l IH]; cbn [foldr]; [lia|].
  pose proof (passes_nonneg (hash x.2.1) x.2.2 s). lia.
Qed.

Lemma crossing_ge T s' k p s : T !! s' = Some (k, p) ->
  passes (hash k) p s <= crossing hash T s.
Proof.
  intros H. pose proof (crossing_nonneg (delete s' T) s). rewrite (crossing_delete _ _ _ _ _ H) in H0. lia.
Qed.

Lemma crossing_pos T s : 0 < crossing hash T s ->
  ∃ s' k p, T !! s' = Some (k, p) /\ 0 < passes (hash k) p s.
Proof.
  unfold crossing, tsum. intros H.
  assert (∃ x, x ∈ map_to_list T /\ 0 < passes (hash x.2.1) x.2.2 s) as ([s' [k p]] & Hx & Hp).
  { induction (map_to_list T) as [|x l IH]; cbn [foldr] in H; [lia|].
    destruct (decide (0 < passes (hash x.2.1) x.2.2 s)) as [Hd|Hd].
    - exists x. split; [left|done].
    - destruct IH as (y & Hy & ?); [pose proof (passes_nonneg (hash x.2.1) x.2.2 s); lia|].
      exists y. split; [by right|done]. }
  apply elem_of_map_to_list in Hx. by exists s', k, p.
Qed.

Lemma crossing_le T s : (∀ s' k p, T !! s' = Some (k, p) -> p - 1 <= capacity g) ->
  crossing hash T s <= count T.
Proof.
  intros H. unfold crossing.
  destruct (tsum_bounds (λ x, passes (hash x.1) x.2 s) T 0 1) as [_ Hb]; [|lia].
  intros s' [k p] Hk. split; [apply passes_nonneg|]. apply passes_le_one. by eapply H.
Qed.

(** Two entries that pass a slot count twice. *)
Lemma crossing_two T s s1 k1 p1 s2 k2 p2 :
  s1 <> s2 -> T !! s1 = Some (k1, p1) -> T !! s2 = Some (k2, p2) ->
  passes (hash k1) p1 s + passes (hash k2) p2 s <= crossing hash T s.
Proof.
  intros Hne H1 H2. pose proof (crossing_delete T s1 k1 p1 s H1) as E.
  assert (delete s1 T !! s2 = Some (k2, p2)) as H2' by (by rewrite lookup_delete_ne).
  pose proof (crossing_ge (delete s1 T) s2 k2 p2 s H2'). lia.
Qed.
End crossing.

(** * The representation of a layout

    [X] holds slots with a stale entry, [R] those whose descriptor has [in_rh]
    set, [W] is the value of the [wanted] counters. *)

Definition home h : Z := Z.land h (mask g).

(** The probe bounds of a map let a lookup of [h] make [p] probes. *)
Definition covers mp h p : Prop :=
  p <= probe_maximum mp /\
  (read_mostly g = false ->
   probe_bound (D mp (home h)) = CK_RHS_WORD_MAX \/ p <= probe_bound (D mp (home h))).

Record placed (hash : Z -> Z) T : Prop := {
  pl_slot s k p : T !! s = Some (k, p) ->
    k <> CK_RHS_EMPTY /\ 1 <= p <= capacity g /\ p <= probe_limit g /\
    walk g (hash k) (Z.to_nat (p - 1)) = s;
  pl_few : count T < 65535;
}.

Lemma count_capacity hash T : placed hash T -> count T <= capacity g.
Proof.
  intros P. pose proof (NoDup_fst_map_to_list T) as Hnd.
  assert ((map_to_list T).*1 ⊆+ seqZ 0 (capacity g)) as Hsub.
  { apply NoDup_submseteq; [done|]. intros s Hs. apply list_elem_of_fmap in Hs as ([s' [k p]] & -> & Hx).
    apply elem_of_map_to_list in Hx. destruct (pl_slot _ _ P _ _ _ Hx) as (_ & _ & _ & <-).
    apply elem_of_seqZ. cbn. pose proof (walk_in_range (hash k) (Z.to_nat (p - 1))) as Hr.
    unfold in_range in Hr. lia. }
  apply submseteq_length in Hsub. rewrite length_fmap length_seqZ in Hsub.
  destruct (capacity_pow g G) as (c & Hc & E). pose proof (Z.pow_pos_nonneg 2 c). lia.
Qed.

(** No probe before the one that found an entry found an empty slot. *)
Definition no_gap (hash : Z -> Z) T (X : gset Z) : Prop :=
  ∀ s k p (i : nat), T !! s = Some (k, p) -> Z.of_nat i < p - 1 ->
    is_Some (T !! walk g (hash k) i) \/ walk g (hash k) i ∈ X.

Definition slot_ok (d : ck_rhs_entry_desc) (c : option (Z * Z)) : Prop :=
  match c with
  | Some (k, p) => entry d = k /\ probes d = p
  | None => entry d = CK_RHS_EMPTY /\ probes d = 0
  end.

Record rep (hash : Z -> Z) mp T (X R : gset Z) (W : Z -> Z) : Prop := {
  rep_shape : shape g mp;
  rep_slot s : in_range s -> s ∉ X -> slot_ok (D mp s) (T !! s);
  rep_stale s : s ∈ X -> in_range s /\ entry (D mp s) <> CK_RHS_EMPTY;
  rep_rh s : in_range s -> in_rh (D mp s) = bool_decide (s ∈ R);
  rep_wanted s : in_range s -> wanted (D mp s) = W s;
  rep_placed : placed hash T;
  rep_no_gap : no_gap hash T X;
  rep_covers s k p : T !! s = Some (k, p) -> covers mp (hash k) p;
  rep_maximum : 0 <= probe_maximum mp <= probe_limit g;
  rep_bounds s : in_range s -> 0 <= probe_bound (D mp s) <= Z.min CK_RHS_WORD_MAX (probe_limit g);
}.

Lemma home_in_range h : in_range (home h).
Proof. exact (walk_in_range h 0). Qed.

Lemma home_walk h : home h = walk g h 0.
Proof. done. Qed.

Lemma placed_range hash T s k p : placed hash T -> T !! s = Some (k, p) -> in_range s.
Proof. intros P H. destruct (pl_slot _ _ P _ _ _ H) as (_ & _ & _ & <-). apply walk_in_range. Qed.

Lemma rep_entry hash mp T X R W s :
  rep hash mp T X R W -> is_Some (T !! s) \/ s ∈ X -> in_range s ->
  s ∈ X \/ entry (D mp s) <> CK_RHS_EMPTY.
Proof.
  intros P H Hs. destruct (decide (s ∈ X)) as [|Hn]; [by left|right].
  destruct H as [[[k p] Hk]|]; [|done].
  pose proof (rep_slot _ _ _ _ _ _ P s Hs Hn) as Ho. rewrite Hk in Ho.
  destruct Ho as [-> _]. by destruct (pl_slot _ _ (rep_placed _ _ _ _ _ _ P) _ _ _ Hk).
Qed.

(** An occupied or stale slot is not empty for a probe. *)
Lemma rep_nonempty hash mp T X R W s :
  rep hash mp T X R W -> in_range s ->
  entry (D mp s) <> CK_RHS_EMPTY <-> is_Some (T !! s) \/ s ∈ X.
Proof.
  intros P Hs. split.
  - intros He. destruct (decide (s ∈ X)) as [|Hn]; [by right|left].
    pose proof (rep_slot _ _ _ _ _ _ P s Hs Hn) as Ho. destruct (T !! s) as [[k p]|]; [done|].
    by destruct Ho.
  - intros H. destruct (rep_entry _ _ _ _ _ _ _ P H Hs) as [Hx|]; [|done].
    by apply (rep_stale _ _ _ _ _ _ P).
Qed.

(** Equality of the descriptors up to the [wanted] counters. *)
Record same_but_wanted mp mp' : Prop := {
  sw_shape : shape mp mp';
  sw_maximum : probe_maximum mp' = probe_maximum mp;
  sw_n_entries : n_entries mp' = n_entries mp;
  sw_D s : in_range s -> put_wanted 0 (D mp' s) = put_wanted 0 (D mp s);
}.

Lemma same_but_wanted_refl mp : same_but_wanted mp mp.
Proof. split; [apply shape_refl|done..]. Qed.

Lemma same_but_wanted_trans a b c : same_but_wanted a b -> same_but_wanted b c -> same_but_wanted a c.
Proof.
  intros [S1 M1 N1 D1] [S2 M2 N2 D2]. split; [by eapply shape_trans|congruence|congruence|].
  intros s Hs. by rewrite D2 // D1.
Qed.

Lemma same_but_wanted_upd mp s f : shape g mp -> in_range s ->
  (∀ d, put_wanted 0 (f d) = put_wanted 0 d) -> same_but_wanted mp (upd mp s f).
Proof.
  intros S Hs Hf. split; [apply shape_upd, shape_refl|done|done|].
  intros s' Hs'. rewrite D_upd //. destruct (Z.eqb_spec s s') as [->|]; [apply Hf|done].
Qed.

Lemma same_but_wanted_fields mp mp' s : same_but_wanted mp mp' -> in_range s ->
  entry (D mp' s) = entry (D mp s) /\ probes (D mp' s) = probes (D mp s) /\
  in_rh (D mp' s) = in_rh (D mp s) /\ probe_bound (D mp' s) = probe_bound (D mp s).
Proof. intros S Hs. pose proof (sw_D _ _ S s Hs) as E. unfold put_wanted in E. by injection E. Qed.

Lemma rep_same_but_wanted hash mp mp' T X R W W' :
  rep hash mp T X R W -> same_but_wanted mp mp' ->
  (∀ s, in_range s -> wanted (D mp' s) = W' s) -> rep hash mp' T X R W'.
Proof.
  intros P S HW. pose proof (λ s Hs, same_but_wanted_fields mp mp' s S Hs) as F. split.
  - eapply shape_trans; [apply P|apply S].
  - intros s Hs Hx. pose proof (rep_slot _ _ _ _ _ _ P s Hs Hx). destruct (F s Hs) as (E1 & E2 & _).
    unfold slot_ok. by rewrite E1 E2.
  - intros s Hx. destruct (rep_stale _ _ _ _ _ _ P s Hx) as [Hs He]. split; [done|].
    by destruct (F s Hs) as (-> & _).
  - intros s Hs. destruct (F s Hs) as (_ & _ & -> & _). by apply P.
  - done.
  - apply P.
  - apply P.
  - intros s k p Hk. destruct (rep_covers _ _ _ _ _ _ P s k p Hk) as [C1 C2]. split.
    + by rewrite (sw_maximum _ _ S).
    + intros Hrm. destruct (F (home (hash k)) (home_in_range _)) as (_ & _ & _ & ->). by apply C2.
  - rewrite (sw_maximum _ _ S). apply P.
  - intros s Hs. destruct (F s Hs) as (_ & _ & _ & ->). by apply P.
Qed.

(** Updates that leave the representation alone. *)
Lemma rep_ext hash mp mp' T X R W :
  rep hash mp T X R W -> shape mp mp' -> probe_maximum mp' = probe_maximum mp ->
  (∀ s, in_range s -> D mp' s = D mp s) -> rep hash mp' T X R W.
Proof.
  intros P S Hm HD. split.
  - eapply shape_trans; [apply P|done].
  - intros s Hs. rewrite HD //. by apply P.
  - intros s Hx. destruct (rep_stale _ _ _ _ _ _ P s Hx) as [Hs He]. by rewrite HD.
  - intros s Hs. rewrite HD //. by apply P.
  - intros s Hs. rewrite HD //. by apply P.
  - apply P.
  - apply P.
  - intros s k p Hk. pose proof (rep_covers _ _ _ _ _ _ P s k p Hk) as C.
    unfold covers. rewrite Hm HD //. apply home_in_range.
  - rewrite Hm. apply P.
  - intros s Hs. rewrite HD //. by apply P.
Qed.

Lemma rep_signal hash mp T X R W h : rep hash mp T X R W -> rep hash (signal mp h) T X R W.
Proof. intros P. by apply (rep_ext _ mp). Qed.

Lemma rep_set_n_entries hash mp T X R W n :
  rep hash mp T X R W -> rep hash (set_n_entries mp n) T X R W.
Proof. intros P. by apply (rep_ext _ mp). Qed.

Lemma rep_weaken_W hash mp T X R W W' :
  rep hash mp T X R W -> (∀ s, in_range s -> W s = W' s) -> rep hash mp T X R W'.
Proof. intros [] H. split; try done. intros s Hs. rewrite -H //. by apply rep_wanted0. Qed.

Lemma rep_mark hash mp T X R W s v :
  rep hash mp T X R W -> in_range s ->
  rep hash (upd mp s (put_rh v)) T X (if v : bool then {[s]} ∪ R else R ∖ {[s]}) W.
Proof.
  intros P Hs. pose proof (rep_shape _ _ _ _ _ _ P) as S.
  assert (∀ s', in_range s' -> put_rh false (D (upd mp s (put_rh v)) s') = put_rh false (D mp s')) as F.
  { intros s' Hs'. rewrite D_upd //. by destruct (Z.eqb_spec s s') as [->|]. }
  assert (∀ s', in_range s' -> let d := D (upd mp s (put_rh v)) s' in
    entry d = entry (D mp s') /\ probes d = probes (D mp s') /\ wanted d = wanted (D mp s') /\
    probe_bound d = probe_bound (D mp s')) as E.
  { intros s' Hs'. specialize (F s' Hs'). unfold put_rh in F. cbv zeta. by injection F. }
  split.
  - by apply shape_upd.
  - intros s' Hs' Hx. destruct (E s' Hs') as (E1 & E2 & _). unfold slot_ok. rewrite E1 E2. by apply P.
  - intros s' Hx. destruct (rep_stale _ _ _ _ _ _ P s' Hx) as [Hs' He]. split; [done|].
    by destruct (E s' Hs') as (-> & _).
  - intros s' Hs'. rewrite D_upd //. destruct (Z.eqb_spec s s') as [->|Hne]; cbn.
    + destruct v; symmetry; [apply bool_decide_eq_true|apply bool_decide_eq_false]; set_solver.
    + rewrite (rep_rh _ _ _ _ _ _ P s' Hs'). apply bool_decide_ext. destruct v; set_solver.
  - intros s' Hs'. destruct (E s' Hs') as (_ & _ & -> & _). by apply P.
  - apply P.
  - apply P.
  - intros s' k p Hk. pose proof (rep_covers _ _ _ _ _ _ P s' k p Hk) as C.
    unfold covers. destruct (E _ (home_in_range (hash k))) as (_ & _ & _ & ->). done.
  - apply P.
  - intros s' Hs'. destruct (E s' Hs') as (_ & _ & _ & ->). by apply P.
Qed.
End layout.
