(* ===== verification/RhsProbe.v ===== *)
(** [ck_rhs]: the counters of a map.  What adding and removing the walk of an entry
    does to the [wanted] counters, and the probe bounds. *)

From S2P Require Export RhsLayout.
Set Warnings "-rewrite-rw,-clear-no-such-hyp".

Section wanted.
Context (g : ck_rhs_map) (G : geometry g).
Implicit Types (mp : ck_rhs_map) (s h p q n : Z).

Abbreviation same_but_wanted := (same_but_wanted g).
Abbreviation in_range := (in_range g).
Abbreviation passes := (passes g).

Lemma walk_range_g h (n : nat) : in_range (walk g h n).
Proof. by apply walk_in_range. Qed.
Local Hint Resolve walk_range_g : core.

(** ** Adding *)

Lemma put_wanted_idem v d : put_wanted 0 (put_wanted v d) = put_wanted 0 d.
Proof. done. Qed.

(** One turn of the loop: the counter of slot [s] is raised, when [b]. *)
Lemma add_one mp s (b : bool) : shape g mp -> in_range s ->
  (b = true -> 0 <= wanted (D mp s) < CK_RHS_MAX_WANTED) ->
  ∃ mp', (if b then update_desc mp s (fun d => if wanted d <? CK_RHS_MAX_WANTED
                                           then put_wanted (wanted d + 1) d else d)
          else Some mp) = Some mp' /\ same_but_wanted mp mp' /\
    ∀ s', in_range s' -> wanted (D mp' s') = wanted (D mp s') + if b && (s =? s') then 1 else 0.
Proof.
  intros S Hs Hw. destruct b; cbn [andb].
  - eexists. split; [by apply (update_ok g G)|]. split.
    + apply same_but_wanted_upd; [done..|]. intros d. by destruct (_ <? _).
    + intros s' Hs'. rewrite (D_upd g G) //. destruct (Z.eqb_spec s s') as [->|]; [|lia].
      rewrite (proj2 (Z.ltb_lt _ _)); [by apply Hw|done].
  - exists mp. split; [done|]. split; [apply same_but_wanted_refl|]. intros. lia.
Qed.

(** [found_slot] after testing slot [s] against [old_slot]. *)
Definition found_at (old_slot : option Z) (s : Z) (found_slot : bool) : bool :=
  match old_slot with Some o => if s =? o then true else found_slot | None => found_slot end.

(** From the [i]-th slot of the walk of [h] to its [n]-th, with the counters raised
    from the [q]-th on. *)
Lemma add_wanted_loop_ok h (q n i : nat) old fuel mp (found : bool) :
  shape g mp -> Z.of_nat n < capacity g -> (i <= n)%nat -> (q <= n)%nat -> (n - i < fuel)%nat ->
  Z.of_nat n < 2 ^ 31 ->
  old = Some (walk g h q) /\ found = bool_decide (q < i)%nat \/
  old = None /\ found = true /\ q = 0%nat ->
  (∀ j, (q <= j < n)%nat -> (i <= j)%nat -> 0 <= wanted (D mp (walk g h j)) < CK_RHS_MAX_WANTED) ->
  ∃ mp', add_wanted_loop fuel mp (walk g h i) (walk g h n) old (Z.of_nat i + 1) found = Some mp' /\
    same_but_wanted mp mp' /\
    ∀ s, in_range s -> wanted (D mp' s) = wanted (D mp s) +
      (passes h (Z.of_nat n + 1) s - passes h (Z.of_nat (Nat.max q i) + 1) s).
Proof.
  revert i mp found. induction fuel as [|fuel IH]; intros i mp found Sh Hn Hi Hq Hf H31 Hold Hw; [lia|].
  cbn [add_wanted_loop]. destruct (Z.eqb_spec (walk g h i) (walk g h n)) as [He|Hne].
  { apply (walk_inj g G) in He as ->; [|lia..]. exists mp. split; [done|].
    split; [apply same_but_wanted_refl|]. intros s Hs. rewrite Nat.max_r //. lia. }
  assert (i <> n) as Hin by (intros ->; done).
  fold (found_at old (walk g h i) found).
  assert (found_at old (walk g h i) found = bool_decide (q <= i)%nat) as ->.
  { destruct Hold as [[-> ->]|(-> & -> & ->)]; cbn; [|symmetry; apply bool_decide_eq_true; lia].
    destruct (Z.eqb_spec (walk g h i) (walk g h q)) as [E|E].
    - apply (walk_inj g G) in E as ->; [|lia..]. symmetry. by apply bool_decide_eq_true.
    - apply bool_decide_ext. split; [lia|]. intros Hle. destruct (decide (q = i)) as [->|]; [done|lia]. }
  assert (∀ s, in_range s -> passes h (Z.of_nat (S i) + 1) s =
            passes h (Z.of_nat i + 1) s + if walk g h i =? s then 1 else 0) as Hstep.
  { intros s Hs. rewrite Nat2Z.inj_succ. unfold Z.succ. rewrite passes_succ; [lia|].
    by rewrite Z.add_simpl_r Nat2Z.id. }
  destruct (add_one mp (walk g h i) (bool_decide (q <= i)%nat) Sh) as (mp1 & -> & S1 & W1); [done| |].
  { intros ?%bool_decide_eq_true. apply Hw; lia. }
  cbn [mbind option_bind].
  assert (shape g mp1) as S1' by (eapply shape_trans; [done|apply S1]).
  rewrite (shape_next g) //.
  replace (u32 (Z.of_nat i + 1 + 1)) with (Z.of_nat (S i) + 1) by (rewrite u32_small; lia).
  assert (ck_rhs_map_probe_next g (walk g h i) (Z.of_nat i + 1) = walk g h (S i)) as ->.
  { cbn [walk]. do 2 f_equal. lia. }
  destruct (IH (S i) mp1 (bool_decide (q <= i)%nat)) as (mp2 & -> & S2 & W2); try done; try lia.
  - destruct Hold as [[-> _]|(-> & _ & ->)]; [left|right].
    + split; [done|]. apply bool_decide_ext. lia.
    + split; [done|]. split; [|done]. apply bool_decide_eq_true. lia.
  - intros j Hj Hij. rewrite W1 //. rewrite (proj2 (Z.eqb_neq (walk g h i) _)).
    + intros E. apply (walk_inj g G) in E; lia.
    + rewrite andb_false_r. specialize (Hw j). lia.
  - exists mp2. split; [done|]. split; [by eapply same_but_wanted_trans|].
    intros s Hs. rewrite W2 // W1 //. specialize (Hstep s Hs).
    destruct (decide (q <= i)%nat) as [Hqi|Hqi].
    + rewrite bool_decide_true //. cbn [andb]. rewrite !Nat.max_r; [lia|lia|]. lia.
    + rewrite bool_decide_false //. cbn [andb]. rewrite !Nat.max_l; lia.
Qed.

(** [old] names the slot of the [q]-th probe (from 0), or [q] is 0. *)
Lemma ck_rhs_add_wanted_ok mp h (q n : nat) :
  shape g mp -> Z.of_nat n < capacity g -> Z.of_nat n < probe_limit g -> (q <= n)%nat ->
  probe_limit g < 2 ^ 31 ->
  (∀ j, (q <= j < n)%nat -> 0 <= wanted (D mp (walk g h j)) < CK_RHS_MAX_WANTED) ->
  ∀ old, old = Some (walk g h q) \/ old = None /\ q = 0%nat ->
  ∀ h', home g h' = home g h ->
  ∃ mp', ck_rhs_add_wanted mp (walk g h n) old h' = Some mp' /\ same_but_wanted mp mp' /\
    ∀ s, in_range s -> wanted (D mp' s) = wanted (D mp s) +
      (passes h (Z.of_nat n + 1) s - passes h (Z.of_nat q + 1) s).
Proof.
  intros S Hn Hlim Hq Hl31 Hw old Hold h' Hh. unfold ck_rhs_add_wanted.
  rewrite (sh_mask _ _ S) (sh_probe_limit _ _ S). change (Z.land h' (mask g)) with (home g h').
  rewrite Hh. change (home g h) with (walk g h 0).
  destruct (add_wanted_loop_ok h q n 0 old (Datatypes.S (Z.to_nat (probe_limit g))) mp
    (match old with None => true | Some _ => false end)) as (mp' & Hl & S' & HW); try done; try lia.
  - destruct Hold as [->|[-> ->]]; [left|by right]. split; [done|].
    symmetry. apply bool_decide_eq_false. lia.
  - intros j Hj _. by apply Hw.
  - exists mp'. split; [done|]. split; [done|]. intros s Hs. rewrite HW // Nat.max_l; lia.
Qed.
(** ** Removing *)

Lemma remove_one mp s (b : bool) : shape g mp -> in_range s ->
  (b = true -> 0 < wanted (D mp s) < CK_RHS_MAX_WANTED) ->
  ∃ mp', (if b then update_desc mp s (fun d => if wanted d =? CK_RHS_MAX_WANTED
                                           then d else put_wanted (u16 (wanted d - 1)) d)
          else Some mp) = Some mp' /\ same_but_wanted mp mp' /\
    ∀ s', in_range s' -> wanted (D mp' s') = wanted (D mp s') - if b && (s =? s') then 1 else 0.
Proof.
  intros S Hs Hw. destruct b; cbn [andb].
  - specialize (Hw eq_refl). eexists. split; [by apply (update_ok g G)|]. split.
    + apply same_but_wanted_upd; [done..|]. intros d. by destruct (_ =? _).
    + intros s' Hs'. rewrite (D_upd g G) //. destruct (Z.eqb_spec s s') as [->|]; [|lia].
      rewrite (proj2 (Z.eqb_neq _ _)); [lia|]. cbn. unfold CK_RHS_MAX_WANTED in Hw.
      unfold u16. rewrite Z.mod_small; lia.
  - exists mp. split; [done|]. split; [apply same_but_wanted_refl|]. intros. lia.
Qed.

(** From the [i]-th slot of the walk of [h] back to its home; the counters of the
    slots from the [l]-th on are lowered. *)
Lemma remove_wanted_loop_ok h (l i : nat) limit mp (do_remove : bool) :
  shape g mp -> Z.of_nat i < capacity g ->
  limit = None /\ l = 0%nat /\ do_remove = true \/
  (∃ q : nat, limit = Some (walk g h q) /\ l = S q /\ Z.of_nat q < capacity g /\
        do_remove = bool_decide (q < i)%nat) ->
  (∀ j, (l <= j < i)%nat -> 0 < wanted (D mp (walk g h j)) < CK_RHS_MAX_WANTED) ->
  ∃ mp', remove_wanted_loop i mp (walk g h i) (Z.of_nat i + 1) limit do_remove =
           Some (home g h, mp') /\ same_but_wanted mp mp' /\
    ∀ s, in_range s -> wanted (D mp' s) = wanted (D mp s) -
      (passes h (Z.of_nat i + 1) s - passes h (Z.of_nat (Nat.min l i) + 1) s).
Proof.
  revert mp do_remove. induction i as [|i IH]; intros mp do_remove Sh Hi Hl Hw; cbn [remove_wanted_loop].
  { exists mp. split; [done|]. split; [apply same_but_wanted_refl|]. intros s Hs.
    rewrite Nat.min_0_r. lia. }
  rewrite (shape_prev g) //.
  replace (Z.of_nat (S i) + 1 - 1) with (Z.of_nat (S i)) by lia. rewrite (walk_prev g G).
  set (rm := match limit with Some _ => _ | None => _ end).
  assert (rm = bool_decide (l <= i)%nat) as ->.
  { unfold rm. destruct Hl as [(-> & -> & ->)|(q & -> & -> & Hq & ->)].
    - symmetry. apply bool_decide_eq_true. lia.
    - destruct (Z.eqb_spec (walk g h i) (walk g h q)) as [E|E].
      + apply (walk_inj g G) in E as ->; [|lia..]. symmetry. apply bool_decide_eq_false. lia.
      + apply bool_decide_ext. split; [|lia]. intros Hle.
        destruct (decide (q = i)) as [->|]; [done|lia]. }
  destruct (remove_one mp (walk g h i) (bool_decide (l <= i)%nat) Sh) as (mp1 & -> & S1 & W1); [done| |].
  { intros ?%bool_decide_eq_true. apply Hw; lia. }
  cbn [mbind option_bind].
  assert (shape g mp1) as S1' by (eapply shape_trans; [done|apply S1]).
  assert (∀ s, passes h (Z.of_nat (S i) + 1) s =
            passes h (Z.of_nat i + 1) s + if walk g h i =? s then 1 else 0) as Hstep.
  { intros s. rewrite Nat2Z.inj_succ. unfold Z.succ. rewrite passes_succ; [lia|].
    by rewrite Z.add_simpl_r Nat2Z.id. }
  replace (Z.of_nat (S i)) with (Z.of_nat i + 1) by lia.
  destruct (IH mp1 (bool_decide (l <= i)%nat)) as (mp2 & -> & S2 & W2); [done|lia| | |].
  - destruct Hl as [(-> & -> & ->)|(q & -> & -> & Hq & ->)]; [left|right].
    + split_and!; [done..|]. apply bool_decide_eq_true. lia.
    + exists q. split_and!; [done..|]. apply bool_decide_ext. lia.
  - intros j Hj. rewrite W1 //. rewrite (proj2 (Z.eqb_neq (walk g h i) (walk g h j))).
    + intros E. apply (walk_inj g G) in E; lia.
    + rewrite andb_false_r. specialize (Hw j). lia.
  - exists mp2. split; [done|]. split; [by eapply same_but_wanted_trans|].
    intros s Hs. rewrite W2 // W1 //. specialize (Hstep s). rewrite Nat2Z.inj_succ in Hstep.
    unfold Z.succ in Hstep. destruct (decide (l <= i)%nat) as [Hli|Hli].
    + rewrite bool_decide_true //. cbn [andb]. rewrite !Nat.min_l; lia.
    + rewrite bool_decide_false //. cbn [andb]. rewrite !Nat.min_r ?Nat2Z.inj_succ; unfold Z.succ; lia.
Qed.

Lemma ck_rhs_remove_wanted_ok mp h (l n : nat) limit :
  shape g mp -> Z.of_nat n < capacity g -> probes (D mp (walk g h n)) = Z.of_nat n + 1 ->
  limit = None /\ l = 0%nat \/ (∃ q : nat, limit = Some (walk g h q) /\ l = S q /\ (q < n)%nat) ->
  (∀ j, (l <= j < n)%nat -> 0 < wanted (D mp (walk g h j)) < CK_RHS_MAX_WANTED) ->
  ∃ mp', ck_rhs_remove_wanted mp (walk g h n) limit = Some (home g h, mp') /\
    same_but_wanted mp mp' /\
    ∀ s, in_range s -> wanted (D mp' s) = wanted (D mp s) -
      (passes h (Z.of_nat n + 1) s - passes h (Z.of_nat l + 1) s).
Proof.
  intros Sh Hn Hp Hl Hw. unfold ck_rhs_remove_wanted. rewrite (probes_ok g G) // Hp.
  cbn [mbind option_bind]. rewrite Z.add_simpl_r Nat2Z.id.
  destruct (remove_wanted_loop_ok h l n limit mp true) as (mp' & Hr & S' & HW); try done.
  - destruct Hl as [[-> ->]|(q & -> & -> & Hq)]; [by left|right]. exists q.
    split_and!; [done..|lia|]. symmetry. by apply bool_decide_eq_true.
  - exists mp'. split; [done|]. split; [done|]. intros s Hs. rewrite HW // Nat.min_l //.
    destruct Hl as [[_ ->]|(q & _ & -> & Hq)]; lia.
Qed.

(** ** The probe bounds *)

Lemma rhs_bound_set_ok mp h p : shape g mp -> 0 <= p <= probe_limit g -> probe_limit g <= UINT_MAX ->
  ∃ mp', ck_rhs_map_bound_set mp h p = Some mp' /\ shape mp mp' /\
    n_entries mp' = n_entries mp /\ probe_maximum mp' = Z.max (probe_maximum mp) p /\
    (∀ s, in_range s -> put_bound 0 (D mp' s) = put_bound 0 (D mp s) /\
                        (0 <= probe_bound (D mp s) <= Z.min CK_RHS_WORD_MAX (probe_limit g) ->
                         probe_bound (D mp s) <= probe_bound (D mp' s) <=
                           Z.min CK_RHS_WORD_MAX (probe_limit g))) /\
    (read_mostly g = false -> 0 <= probe_bound (D mp (home g h)) ->
     probe_bound (D mp' (home g h)) = CK_RHS_WORD_MAX \/ p <= probe_bound (D mp' (home g h))).
Proof.
  intros Sh Hp Hlim. unfold ck_rhs_map_bound_set. rewrite (sh_mask _ _ Sh).
  change (Z.land h (mask g)) with (home g h).
  set (mp1 := if probe_maximum mp <? p then _ else _).
  assert (probe_maximum mp1 = Z.max (probe_maximum mp) p) as Hm1.
  { unfold mp1, UINT_MAX in *. destruct (Z.ltb_spec (probe_maximum mp) p); cbn; [|lia].
    rewrite u32_small; lia. }
  assert (shape mp mp1) as S1 by (unfold mp1; by destruct (_ <? _)).
  assert (∀ s, D mp1 s = D mp s) as D1 by (intros s; unfold mp1; by destruct (_ <? _)).
  assert (n_entries mp1 = n_entries mp) as N1 by (unfold mp1; by destruct (_ <? _)).
  assert (shape g mp1) as Sg by (by eapply shape_trans).
  pose proof (home_in_range g G h) as Hh. rewrite (sh_read_mostly _ _ Sg).
  clearbody mp1. unfold CK_RHS_WORD_MAX. destruct (read_mostly g) eqn:Hrm; cbn [negb].
  { exists mp1. split_and!; [done..| |done]. intros s Hs. rewrite D1. split; [done|lia]. }
  rewrite (desc_ok g G) //. cbn [mbind option_bind]. rewrite D1.
  destruct (Z.ltb_spec (probe_bound (D mp (home g h))) p) as [Hlt|Hge].
  - rewrite (update_ok g G) //. eexists. split; [done|]. split; [by apply shape_upd|].
    split; [done|]. split; [done|]. split.
    + intros s Hs. rewrite (D_upd g G) //. destruct (Z.eqb_spec (home g h) s) as [<-|].
      * rewrite D1. split; [done|]. cbn. destruct (Z.ltb_spec 255 p); lia.
      * rewrite D1. split; [done|lia].
    + intros _ _. rewrite (D_upd_same g G) //. cbn. destruct (Z.ltb_spec 255 p); [by left|right; lia].
  - exists mp1. split_and!; [done..| |].
    + intros s Hs. rewrite D1. split; [done|lia].
    + intros _ _. rewrite D1. by right.
Qed.

Lemma rep_bound_set hash mp T X R W h p :
  rep g hash mp T X R W -> 0 <= p <= probe_limit g -> probe_limit g <= UINT_MAX ->
  ∃ mp', ck_rhs_map_bound_set mp h p = Some mp' /\ rep g hash mp' T X R W /\
    covers g mp' h p /\ n_entries mp' = n_entries mp /\
    ∀ s, in_range s -> put_bound 0 (D mp' s) = put_bound 0 (D mp s).
Proof.
  intros P Hp Hlim. pose proof (rep_shape _ _ _ _ _ _ _ P) as Sh.
  destruct (rhs_bound_set_ok mp h p Sh Hp Hlim) as (mp' & Hb & S' & HN & HM & HD & HC).
  exists mp'. split; [done|].
  assert (∀ s, in_range s -> entry (D mp' s) = entry (D mp s) /\ probes (D mp' s) = probes (D mp s) /\
    wanted (D mp' s) = wanted (D mp s) /\ in_rh (D mp' s) = in_rh (D mp s)) as F.
  { intros s Hs. destruct (HD s Hs) as [E _]. unfold put_bound in E. by injection E. }
  split_and!; [|split; [lia|intros Hrm; apply HC; [done|]]|done|intros s Hs; by apply HD].
  2:{ apply (rep_bounds _ _ _ _ _ _ _ P), home_in_range, G. }
  split.
  - by eapply shape_trans.
  - intros s Hs Hx. pose proof (rep_slot _ _ _ _ _ _ _ P s Hs Hx). destruct (F s Hs) as (E1 & E2 & _).
    unfold slot_ok. by rewrite E1 E2.
  - intros s Hx. destruct (rep_stale _ _ _ _ _ _ _ P s Hx) as [Hs He]. split; [done|].
    by destruct (F s Hs) as (-> & _).
  - intros s Hs. destruct (F s Hs) as (_ & _ & _ & ->). by apply P.
  - intros s Hs. destruct (F s Hs) as (_ & _ & -> & _). by apply P.
  - apply P.
  - apply P.
  - intros s k p' Hk. destruct (rep_covers _ _ _ _ _ _ _ P s k p' Hk) as [C1 C2].
    split; [lia|]. intros Hrm. pose proof (home_in_range g G (hash k)) as Hh.
    destruct (HD _ Hh) as [_ B]. specialize (B (rep_bounds _ _ _ _ _ _ _ P _ Hh)).
    destruct (C2 Hrm); [left|right]; unfold CK_RHS_WORD_MAX in *; lia.
  - pose proof (rep_maximum _ _ _ _ _ _ _ P). lia.
  - intros s Hs. destruct (HD s Hs) as [_ B]. pose proof (rep_bounds _ _ _ _ _ _ _ P _ Hs) as B'.
    specialize (B B'). lia.
Qed.

(** What a bound read from the map allows. *)
Lemma bound_get_ok hash mp T X R W h :
  rep g hash mp T X R W ->
  ∃ b, ck_rhs_map_bound_get mp h = Some b /\ 0 <= b <= probe_limit g /\
    ∀ p, covers g mp h p -> p <= b.
Proof.
  intros P. pose proof (rep_shape _ _ _ _ _ _ _ P) as Sh. unfold ck_rhs_map_bound_get.
  pose proof (rep_maximum _ _ _ _ _ _ _ P) as HM.
  rewrite (sh_read_mostly _ _ Sh) (sh_mask _ _ Sh). change (Z.land h (mask g)) with (home g h).
  destruct (read_mostly g) eqn:Hrm.
  - eexists. split; [done|]. split; [lia|]. by intros p [H _].
  - pose proof (home_in_range g G h) as Hh. rewrite (desc_ok g G) //. cbn [mbind option_bind].
    eexists. split; [done|]. pose proof (rep_bounds _ _ _ _ _ _ _ P _ Hh) as B.
    destruct (Z.eqb_spec (probe_bound (D mp (home g h))) CK_RHS_WORD_MAX) as [E|E].
    + split; [lia|]. by intros p [H _].
    + split; [lia|]. intros p [_ H]. by destruct (H Hrm).
Qed.
End wanted.

(** [ck_rhs]: what a probe returns, for each of its behaviors; lookups. *)

(** Equality of keys, as the probe decides it. *)
Definition rhs_keq (hs : ck_rhs) (k1 k2 : Z) : bool :=
  (k1 =? k2) || match compare hs with Some cmp => cmp k1 k2 | None => false end.

Section probe.
Context (g : ck_rhs_map) (G : geometry g).
Implicit Types (mp : ck_rhs_map) (s h p : Z) (i j start : nat).

(** The entry of the [i]-th slot of a walk. *)
Definition at_ mp h i : Z := entry (D mp (walk g h i)).

(** A probe goes on after slot [i]. *)
Definition passed hs mp key h (b : ck_rhs_probe_behavior) i : Prop :=
  at_ mp h i <> CK_RHS_EMPTY /\ (robin_hood b = false -> rhs_keq hs (at_ mp h i) key = false).

(** The entry of slot [i] is closer to its home than a newcomer would be. *)
Definition richer mp h i : Prop :=
  at_ mp h i <> CK_RHS_EMPTY /\ in_rh (D mp (walk g h i)) = false /\
  probes (D mp (walk g h i)) < Z.of_nat i + 1.

Definition priority_ok mp h (b : ck_rhs_probe_behavior) start i (pr : option Z) (np : Z) : Prop :=
  match pr with
  | None => True
  | Some f => relocates b = true /\
      ∃ j, (start <= j < i)%nat /\ richer mp h j /\ f = walk g h j /\ np = Z.of_nat j + 1
  end.

Inductive probed hs mp key h (b : ck_rhs_probe_behavior) start (limit opl : Z) (r : probe_result) : Prop :=
| ProbedEmpty i :
    (start <= i)%nat -> Z.of_nat i < opl -> (∀ j, (start <= j < i)%nat -> passed hs mp key h b j) ->
    at_ mp h i = CK_RHS_EMPTY -> r_slot r = Some (walk g h i) -> r_object r = CK_RHS_EMPTY ->
    priority_ok mp h b start i (r_priority r) (r_n_probes r) ->
    (r_priority r = None -> r_n_probes r = Z.of_nat i + 1) -> probed hs mp key h b start limit opl r
| ProbedMatch i :
    (start <= i)%nat -> Z.of_nat i < opl -> (∀ j, (start <= j < i)%nat -> passed hs mp key h b j) ->
    at_ mp h i <> CK_RHS_EMPTY -> rhs_keq hs (at_ mp h i) key = true -> robin_hood b = false ->
    r_slot r = Some (walk g h i) -> r_object r = at_ mp h i ->
    priority_ok mp h b start (S i) (r_priority r) (r_n_probes r) ->
    (r_priority r = None -> r_n_probes r = Z.of_nat i + 1) -> probed hs mp key h b start limit opl r
| ProbedOut i :
    (start <= i)%nat -> limit <= Z.of_nat i <= opl -> (∀ j, (start <= j < i)%nat -> passed hs mp key h b j) ->
    r_slot r = None -> r_object r = CK_RHS_EMPTY ->
    priority_ok mp h b start i (r_priority r) (r_n_probes r) ->
    (r_priority r = None -> Z.of_nat i = opl) -> probed hs mp key h b start limit opl r
| ProbedStop i :
    (start <= i)%nat -> Z.of_nat i < opl -> (∀ j, (start <= j < i)%nat -> passed hs mp key h b j) ->
    stops_at_priority b = true -> relocates b = true -> richer mp h i ->
    r_object r = CK_RHS_EMPTY -> r_priority r = Some (walk g h i) ->
    r_n_probes r = Z.of_nat i + 1 -> probed hs mp key h b start limit opl r.

Lemma priority_ok_mono mp h b start i i' pr np :
  (i <= i')%nat -> priority_ok mp h b start i pr np -> priority_ok mp h b start i' pr np.
Proof.
  intros Hi. destruct pr as [f|]; [|done]. intros (Hr & j & Hj & ?). split; [done|].
  exists j. split; [lia|done].
Qed.

Lemma rhs_probe_loop_ok hs mp key opl b h start limit0 fuel limit i pr np :
  shape g mp -> (start <= i)%nat -> Z.of_nat i <= limit -> limit <= opl -> limit0 <= limit ->
  opl - Z.of_nat i < Z.of_nat fuel ->
  (∀ j, (start <= j < i)%nat -> passed hs mp key h b j) ->
  priority_ok mp h b start i pr np ->
  ∃ r, probe_loop hs mp key opl b fuel limit (walk g h i) (Z.of_nat i) pr np = Some r /\
       probed hs mp key h b start limit0 opl r.
Proof.
  intros Sh. revert limit i pr np. induction fuel as [|fuel IH];
    intros limit i pr np Hs Hi Hl Hl0 Hf Hpass Hpr; [lia|]. cbn [probe_loop].
  pose proof (walk_in_range g G h i) as Hw.
  destruct ((Z.of_nat i =? limit) && _) eqn:Hhit.
  { apply andb_true_iff in Hhit as [<-%Z.eqb_eq Hh]. eexists. split; [done|].
    unfold probe_leave. rewrite (proj2 (Z.ltb_lt _ _)); [lia|].
    apply ProbedOut with i; cbn; try done; try lia; [by destruct pr|].
    intros ->. apply orb_true_iff in Hh as [?%Z.eqb_eq|?]; [lia|done]. }
  set (lim := if Z.of_nat i =? limit then opl else limit).
  assert (Z.of_nat i < lim <= opl /\ limit0 <= lim) as Hlim.
  { unfold lim. destruct (Z.eqb_spec (Z.of_nat i) limit) as [E|]; [|lia].
    cbn in Hhit. destruct (Z.eqb_spec limit opl); [done|]. lia. }
  clearbody lim. rewrite (desc_ok g G) //. cbn [mbind option_bind].
  fold (at_ mp h i).
  assert (∀ k v, probe_leave (walk g h i) k (Z.of_nat i + 1) lim pr v =
     ProbeResult (Some (walk g h i)) k (match pr with None => Z.of_nat i + 1 | Some _ => v end) pr) as Hleave.
  { intros k v. unfold probe_leave. by rewrite (proj2 (Z.ltb_ge _ _)); [lia|]. }
  destruct (Z.eqb_spec (at_ mp h i) CK_RHS_EMPTY) as [He|He].
  { eexists. split; [done|]. apply ProbedEmpty with i; rewrite ?Hleave; cbn; try done; try lia; [by destruct pr|by intros ->]. }
  set (found := _ && (probes _ <? _)).
  assert (found = true -> relocates b = true /\ pr = None /\ richer mp h i) as Hfound.
  { unfold found. intros [[[? Hp]%andb_true_iff ?%negb_true_iff]%andb_true_iff ?%Z.ltb_lt]%andb_true_iff.
    split; [done|]. split; [by destruct pr|]. done. }
  assert (priority_ok mp h b start (S i) (if found then Some (walk g h i) else pr)
            (if found then Z.of_nat i + 1 else np)) as Hpr'.
  { destruct found eqn:Hf'.
    - destruct (Hfound eq_refl) as (? & _ & ?). split; [done|]. exists i. split; [lia|done].
    - by apply (priority_ok_mono _ _ _ _ i); [lia|]. }
  destruct (found && stops_at_priority b) eqn:Hstop.
  { apply andb_true_iff in Hstop as [Hf1 Hf2]. destruct (Hfound Hf1) as (? & -> & ?).
    rewrite Hf1. eexists. split; [done|].
    unfold probe_leave. rewrite (proj2 (Z.ltb_ge _ _)); [lia|].
    by apply ProbedStop with i; cbn; try done; lia. }
  assert ((if found then (Some (walk g h i), Z.of_nat i + 1) else (pr, np)) =
    (if found then Some (walk g h i) else pr, if found then Z.of_nat i + 1 else np)) as ->
    by by destruct found.
  set (pr' := if found then Some _ else pr) in *. set (np' := if found then _ else np) in *.
  clearbody pr' np'. clear Hfound Hstop found. cbv beta iota zeta.
  fold (rhs_keq hs (at_ mp h i) key).
  destruct (negb (robin_hood b) && rhs_keq hs (at_ mp h i) key) eqn:Hm.
  { apply andb_true_iff in Hm as [?%negb_true_iff Hm]. eexists. split; [done|].
    unfold probe_leave. rewrite (proj2 (Z.ltb_ge _ _)); [lia|].
    apply ProbedMatch with i; cbn; try done; try lia; [by destruct pr'|by intros ->]. }
  rewrite (shape_next g) //.
  assert (ck_rhs_map_probe_next g (walk g h i) (Z.of_nat i + 1) = walk g h (S i)) as ->.
  { cbn [walk]. do 2 f_equal. lia. }
  replace (Z.of_nat i + 1) with (Z.of_nat (S i)) by lia.
  apply IH; try done; try lia.
  intros j Hj. destruct (decide (j = i)) as [->|Hne]; [|apply Hpass; lia].
  split; [done|]. intros Hrh. rewrite Hrh in Hm. done.
Qed.

(** ** The two probe functions agree but for the limit of an insertion *)

Lemma probe_func_start hs mp key h n_probes priority opl b :
  shape g mp -> robin_hood b = false -> 0 <= opl ->
  (b = CK_RHS_PROBE_INSERT -> read_mostly g = false ->
   ∃ lim, ck_rhs_map_bound_get mp h = Some lim /\ 0 <= lim <= opl) ->
  ∃ r lim, probe_func hs mp n_probes priority h key opl b = Some r /\
    probed hs mp key h b 0 lim opl r /\
    (lim = opl \/ b = CK_RHS_PROBE_INSERT /\ ck_rhs_map_bound_get mp h = Some lim).
Proof.
  intros Sh Hb Ho Hins. unfold probe_func. rewrite (sh_read_mostly _ _ Sh).
  assert (∀ lim, 0 <= lim <= opl ->
    ∃ r, probe_loop hs mp key opl b (probe_fuel opl) lim (walk g h 0) 0 None n_probes = Some r /\
         probed hs mp key h b 0 lim opl r) as Hloop.
  { intros lim Hlim. apply (rhs_probe_loop_ok hs mp key opl b h 0 lim); try done; try lia.
    unfold probe_fuel. lia. }
  assert (probe_start mp h b n_probes priority = Some (walk g h 0, 0)) as Hst.
  { unfold probe_start. by rewrite Hb (sh_mask _ _ Sh). }
  destruct (read_mostly g) eqn:Hrm;
    unfold ck_rhs_map_probe_rm, ck_rhs_map_probe; rewrite Hst; cbn [mbind option_bind].
  { destruct (Hloop opl) as (r & -> & Hr); [lia|]. exists r, opl. split_and!; [done..|by left]. }
  assert (∃ lim, (match b with CK_RHS_PROBE_INSERT => ck_rhs_map_bound_get mp h | _ => Some opl end) =
     Some lim /\ 0 <= lim <= opl /\
     (lim = opl \/ b = CK_RHS_PROBE_INSERT /\ ck_rhs_map_bound_get mp h = Some lim))
    as (lim & -> & Hlim & Hor).
  { destruct b; try (exists opl; split_and!; [done|lia|lia|by left]).
    destruct Hins as (lim & Hg & ?); [done..|]. exists lim. split_and!; [done|lia|lia|by right]. }
  cbn [mbind option_bind]. destruct (Hloop lim) as (r & -> & Hr); [done|].
  exists r, lim. by split_and!.
Qed.

(** A probe that goes on after the [i]-th slot of the walk of [h0]. *)
Lemma probe_func_resume hs mp key h h0 i b :
  shape g mp -> robin_hood b = true -> Z.of_nat (S i) <= probe_limit g ->
  ∃ r, probe_func hs mp (Z.of_nat (S i)) (Some (walk g h0 i)) h key (probe_limit mp) b = Some r /\
       probed hs mp key h0 b (S i) (probe_limit g) (probe_limit g) r.
Proof.
  intros Sh Hb Hi. unfold probe_func. rewrite (sh_read_mostly _ _ Sh) (sh_probe_limit _ _ Sh).
  assert (probe_start mp h b (Z.of_nat (S i)) (Some (walk g h0 i)) =
    Some (walk g h0 (S i), Z.of_nat (S i))) as Hst.
  { unfold probe_start. rewrite Hb. cbn [negb mbind option_bind]. by rewrite (shape_next g). }
  destruct (rhs_probe_loop_ok hs mp key (probe_limit g) b h0 (S i) (probe_limit g)
    (probe_fuel (probe_limit g)) (probe_limit g) (S i) None (Z.of_nat (S i))) as (r & Hr & HP);
    try done; try lia.
  { unfold probe_fuel. lia. }
  exists r. split; [|done].
  destruct (read_mostly g); unfold ck_rhs_map_probe_rm, ck_rhs_map_probe; rewrite Hst;
    cbn [mbind option_bind]; [done|]. by destruct b.
Qed.
(** ** What a lookup finds *)

(** The documented contract of the callbacks: the comparison is an equivalence and
    equal keys have equal hashes. *)
Record rhs_keys_ok (hs : ck_rhs) : Prop := {
  rk_sym k1 k2 : rhs_keq hs k1 k2 = true -> rhs_keq hs k2 k1 = true;
  rk_trans k1 k2 k3 : rhs_keq hs k1 k2 = true -> rhs_keq hs k2 k3 = true -> rhs_keq hs k1 k3 = true;
  rk_hash k1 k2 : rhs_keq hs k1 k2 = true -> hf hs k1 (seed hs) = hf hs k2 (seed hs);
}.

Definition rhs_hash (hs : ck_rhs) (k : Z) : Z := hf hs k (seed hs).

Lemma rhs_keq_refl hs k : rhs_keq hs k k = true.
Proof. unfold rhs_keq. by rewrite Z.eqb_refl. Qed.

Section lookup.
Context (hs : ck_rhs) (K : rhs_keys_ok hs) (mp : ck_rhs_map) (T : layout) (R : gset Z) (W : Z -> Z).
Context (P : rep g (rhs_hash hs) mp T ∅ R W).

Lemma at_layout h i : at_ mp h i <> CK_RHS_EMPTY ->
  ∃ p, T !! walk g h i = Some (at_ mp h i, p) /\ probes (D mp (walk g h i)) = p.
Proof.
  intros He. pose proof (walk_in_range g G h i) as Hw.
  apply (rep_nonempty g _ _ _ _ _ _ _ P Hw) in He as Hs. destruct Hs as [[[k p] Hk]|]; [|set_solver].
  pose proof (rep_slot _ _ _ _ _ _ _ P _ Hw) as Ho. rewrite Hk in Ho.
  destruct Ho as [E1 E2]; [set_solver|]. unfold at_. rewrite E1 Hk. by exists p.
Qed.

Lemma layout_at h s k p : T !! s = Some (k, p) -> rhs_hash hs k = h ->
  at_ mp h (Z.to_nat (p - 1)) = k /\ walk g h (Z.to_nat (p - 1)) = s.
Proof.
  intros Hk <-. destruct (pl_slot _ _ _ (rep_placed _ _ _ _ _ _ _ P) _ _ _ Hk) as (_ & _ & _ & Hw).
  split; [|done]. unfold at_. rewrite Hw. pose proof (walk_in_range g G (rhs_hash hs k) (Z.to_nat (p - 1))) as Hr.
  rewrite Hw in Hr. pose proof (rep_slot _ _ _ _ _ _ _ P _ Hr) as Ho. rewrite Hk in Ho.
  by destruct Ho as [-> _]; [set_solver|].
Qed.

(** The answer of a probe for [key]: the stored entry with that key and its
    place. *)
Definition found_in key h (r : probe_result) i : Prop :=
  r_slot r = Some (walk g h i) /\ T !! walk g h i = Some (r_object r, Z.of_nat i + 1) /\
  rhs_keq hs (r_object r) key = true.

Definition absent key : Prop := ∀ s k p, T !! s = Some (k, p) -> rhs_keq hs k key = false.

(** Every stored entry with the key of the probe is passed or found. *)
Lemma passed_absent key b n :
  robin_hood b = false -> (∀ j, (j < n)%nat -> passed hs mp key (rhs_hash hs key) b j) ->
  (at_ mp (rhs_hash hs key) n = CK_RHS_EMPTY \/ ∀ p, covers g mp (rhs_hash hs key) p -> p <= Z.of_nat n) ->
  absent key.
Proof.
  intros Hb Hpass Hend s k p Hk. destruct (rhs_keq hs k key) eqn:Hm; [|done]. exfalso.
  pose proof (rk_hash _ K _ _ Hm) as Hh.
  destruct (layout_at (rhs_hash hs key) s k p Hk Hh) as [Ha Hw].
  destruct (pl_slot _ _ _ (rep_placed _ _ _ _ _ _ _ P) _ _ _ Hk) as (Hk0 & Hp & _ & _).
  assert (n <= Z.to_nat (p - 1))%nat as Hn.
  { destruct (decide (n <= Z.to_nat (p - 1))%nat) as [|Hlt]; [done|].
    destruct (Hpass (Z.to_nat (p - 1))) as [_ Hf]; [lia|]. rewrite Ha Hm in Hf. by specialize (Hf Hb). }
  destruct Hend as [He|Hc].
  - destruct (decide (n = Z.to_nat (p - 1))) as [->|Hne]; [congruence|].
    pose proof (rep_no_gap _ _ _ _ _ _ _ P s k p n Hk ltac:(lia)) as Hg.
    change (hf hs k (seed hs)) with (rhs_hash hs k) in Hh. rewrite Hh in Hg.
    apply (rep_nonempty g _ _ _ _ _ _ _ P (walk_in_range g G _ n)) in Hg. done.
  - pose proof (rep_covers _ _ _ _ _ _ _ P s k p Hk) as Hcov.
    change (hf hs k (seed hs)) with (rhs_hash hs k) in Hh. rewrite Hh in Hcov.
    specialize (Hc p Hcov). lia.
Qed.

(** A match is at the probe count it was stored with. *)
Lemma match_place key b i :
  robin_hood b = false -> (∀ j, (j < i)%nat -> passed hs mp key (rhs_hash hs key) b j) ->
  at_ mp (rhs_hash hs key) i <> CK_RHS_EMPTY -> rhs_keq hs (at_ mp (rhs_hash hs key) i) key = true ->
  T !! walk g (rhs_hash hs key) i = Some (at_ mp (rhs_hash hs key) i, Z.of_nat i + 1).
Proof.
  intros Hb Hpass He Hm. destruct (at_layout _ _ He) as (p & Hk & _). rewrite Hk.
  pose proof (rk_hash _ K _ _ Hm) as Hh.
  destruct (layout_at (rhs_hash hs key) _ _ _ Hk Hh) as [Ha Hw].
  destruct (pl_slot _ _ _ (rep_placed _ _ _ _ _ _ _ P) _ _ _ Hk) as (Hk0 & Hp & _ & _).
  assert (i <= Z.to_nat (p - 1))%nat as Hn.
  { destruct (decide (i <= Z.to_nat (p - 1))%nat) as [|Hlt]; [done|].
    destruct (Hpass (Z.to_nat (p - 1))) as [_ Hf]; [lia|]. rewrite Ha Hm in Hf. by specialize (Hf Hb). }
  apply (walk_inj g G) in Hw; [|lia..]. do 2 f_equal. lia.
Qed.

Lemma probed_lookup key b lim opl r :
  robin_hood b = false -> stops_at_priority b = false ->
  (∀ p, covers g mp (rhs_hash hs key) p -> p <= lim) ->
  probed hs mp key (rhs_hash hs key) b 0 lim opl r ->
  r_object r = CK_RHS_EMPTY /\ absent key \/
  r_object r <> CK_RHS_EMPTY /\ ∃ i, found_in key (rhs_hash hs key) r i /\
    (∀ j, (j < i)%nat -> passed hs mp key (rhs_hash hs key) b j).
Proof.
  intros Hb Hstop Hcov [i _ Hi Hpass He Hs Ho Hpr _|i _ Hi Hpass He Hm _ Hs Ho Hpr _|
                        i _ Hi Hpass Hs Ho Hpr _|i _ Hi Hpass Hst]; [left|right|left|congruence].
  - split; [done|]. apply (passed_absent key b i Hb); [|by left]. intros j Hj. apply Hpass. lia.
  - rewrite Ho. split; [done|]. exists i. split; [|intros j Hj; apply Hpass; lia].
    split; [done|]. rewrite Ho. split; [|done].
    apply (match_place key b i Hb); [|done..]. intros j Hj. apply Hpass. lia.
  - split; [done|]. apply (passed_absent key b i Hb); [intros j Hj; apply Hpass; lia|].
    right. intros p Hp. specialize (Hcov p Hp). lia.
Qed.

(** [ck_rhs_get] *)
Lemma ck_rhs_get_ok key : map hs = mp ->
  ∃ v, ck_rhs_get hs (rhs_hash hs key) key = Some v /\
    (v = CK_RHS_EMPTY /\ absent key \/
     v <> CK_RHS_EMPTY /\ rhs_keq hs v key = true /\ ∃ s p, T !! s = Some (v, p)).
Proof.
  intros Hmp. unfold ck_rhs_get. rewrite Hmp.
  destruct (bound_get_ok g G _ _ _ _ _ _ (rhs_hash hs key) P) as (b & Hb & Hrange & Hcov).
  rewrite Hb. cbn [mbind option_bind].
  destruct (probe_func_start hs mp key (rhs_hash hs key) 0 None b CK_RHS_PROBE_NO_RH)
    as (r & lim & -> & Hr & Hlim); [apply P|done|lia|done|].
  cbn [mbind option_bind]. assert (lim = b) as -> by (by destruct Hlim as [|[? _]]).
  exists (r_object r). split; [done|].
  destruct (probed_lookup key CK_RHS_PROBE_NO_RH b b r eq_refl eq_refl Hcov Hr) as [?|(Hne & i & (Hs & HT & Hm) & _)]; [by left|].
  right. by eauto.
Qed.
End lookup.
End probe.
