(* ===== verification/RhsDelete.v ===== *)
(** [ck_rhs]: moves of entries.  How the representation of a layout follows the
    stores that place, displace and clear an entry. *)

From S2P Require Export RhsProbe.
Set Warnings "-rewrite-rw,-clear-no-such-hyp".

Section move.
Context (g : ck_rhs_map) (G : geometry g) (hash : Z -> Z).
Implicit Types (mp : ck_rhs_map) (s k h p : Z) (T : layout) (X R : gset Z) (W : Z -> Z).

Abbreviation rep := (rep g hash).
Abbreviation in_range := (in_range g).

(** Stores into the entry and the probe count of a slot make it stale. *)
Lemma rep_hole mp T X R W s f :
  rep mp T X R W -> in_range s ->
  (∀ d, wanted (f d) = wanted d /\ in_rh (f d) = in_rh d /\ probe_bound (f d) = probe_bound d) ->
  entry (f (D mp s)) <> CK_RHS_EMPTY ->
  rep (upd mp s f) T ({[s]} ∪ X) R W.
Proof.
  intros P Hs Hf He. pose proof (rep_shape _ _ _ _ _ _ _ P) as S.
  assert (∀ s', in_range s' -> let d := D (upd mp s f) s' in
    wanted d = wanted (D mp s') /\ in_rh d = in_rh (D mp s') /\ probe_bound d = probe_bound (D mp s')) as F.
  { intros s' Hs'. cbv zeta. rewrite (D_upd g G) //. by destruct (Z.eqb_spec s s') as [->|]. }
  split.
  - by apply shape_upd.
  - intros s' Hs' Hx. rewrite (D_upd_other g G) //; [set_solver|]. apply P; set_solver.
  - intros s' Hx. destruct (decide (s' = s)) as [->|Hne]; [by rewrite (D_upd_same g G)|].
    destruct (rep_stale _ _ _ _ _ _ _ P s') as [Hs' He']; [set_solver|].
    by rewrite (D_upd_other g G).
  - intros s' Hs'. destruct (F s' Hs') as (_ & -> & _). by apply P.
  - intros s' Hs'. destruct (F s' Hs') as (-> & _). by apply P.
  - apply P.
  - intros s' k p i Hk Hi. destruct (rep_no_gap _ _ _ _ _ _ _ P s' k p i Hk Hi); [by left|right; set_solver].
  - intros s' k p Hk. pose proof (rep_covers _ _ _ _ _ _ _ P s' k p Hk) as C. unfold covers.
    by destruct (F _ (home_in_range g G (hash k))) as (_ & _ & ->).
  - apply P.
  - intros s' Hs'. destruct (F s' Hs') as (_ & _ & ->). by apply P.
Qed.

Lemma rep_stale_upd mp T X R W s f :
  rep mp T X R W -> s ∈ X ->
  (∀ d, wanted (f d) = wanted d /\ in_rh (f d) = in_rh d /\ probe_bound (f d) = probe_bound d) ->
  entry (f (D mp s)) <> CK_RHS_EMPTY ->
  rep (upd mp s f) T X R W.
Proof.
  intros P Hx Hf He. replace X with ({[s]} ∪ X) by set_solver.
  apply rep_hole; try done. by apply (rep_stale _ _ _ _ _ _ _ P).
Qed.

(** A slot of the layout forgotten, not yet overwritten. *)
Lemma rep_delete mp T X R W s k p :
  rep mp T X R W -> T !! s = Some (k, p) -> rep mp (delete s T) ({[s]} ∪ X) R W.
Proof.
  intros P Hk. pose proof (placed_range g G _ _ _ _ _ (rep_placed _ _ _ _ _ _ _ P) Hk) as Hs.
  assert (∀ s' x, delete s T !! s' = Some x -> s' <> s /\ T !! s' = Some x) as Hd.
  { intros s' x. destruct (decide (s = s')) as [->|]; [by rewrite lookup_delete_eq|].
    rewrite lookup_delete_ne //. }
  split.
  - apply P.
  - intros s' Hs' Hx. rewrite lookup_delete_ne; [set_solver|]. apply P; set_solver.
  - intros s' Hx. destruct (decide (s' = s)) as [->|Hne]; [|apply P; set_solver].
    split; [done|]. apply (rep_nonempty g _ _ _ _ _ _ _ P Hs). left. by eauto.
  - apply P.
  - apply P.
  - split.
    + intros s' k' p' [_ H]%Hd. by apply (rep_placed _ _ _ _ _ _ _ P).
    + pose proof (pl_few _ _ _ (rep_placed _ _ _ _ _ _ _ P)). pose proof (count_delete T s _ Hk). lia.
  - intros s' k' p' i [_ H]%Hd Hi. set (w := walk g (hash k') i).
    destruct (decide (w = s)) as [->|Hne]; [right; set_solver|].
    rewrite lookup_delete_ne //. destruct (rep_no_gap _ _ _ _ _ _ _ P s' k' p' i H Hi); [by left|].
    right. set_solver.
  - intros s' k' p' [_ H]%Hd. by eapply (rep_covers _ _ _ _ _ _ _ P).
  - apply P.
  - apply P.
Qed.

(** A stale slot whose content becomes an entry of the layout. *)
Lemma rep_insert mp T X R W s k p :
  rep mp T X R W -> T !! s = None -> s ∈ X -> entry (D mp s) = k -> probes (D mp s) = p ->
  k <> CK_RHS_EMPTY -> 1 <= p <= capacity g -> p <= probe_limit g ->
  walk g (hash k) (Z.to_nat (p - 1)) = s -> count T < 65534 ->
  (∀ i : nat, Z.of_nat i < p - 1 -> is_Some (T !! walk g (hash k) i) \/ walk g (hash k) i ∈ X) ->
  covers g mp (hash k) p ->
  rep mp (<[s := (k, p)]> T) (X ∖ {[s]}) R W.
Proof.
  intros P HT Hx He Hp Hk0 Hpc Hpl Hw Hfew Hgap Hcov. split.
  - apply P.
  - intros s' Hs' Hx'. destruct (decide (s = s')) as [<-|Hne]; [by rewrite lookup_insert_eq|].
    rewrite lookup_insert_ne //. apply P; set_solver.
  - intros s' Hx'. apply P. set_solver.
  - apply P.
  - apply P.
  - split.
    + intros s' k' p'. destruct (decide (s = s')) as [<-|Hne].
      * rewrite lookup_insert_eq. intros [= <- <-]. done.
      * rewrite lookup_insert_ne //. apply (rep_placed _ _ _ _ _ _ _ P).
    + rewrite count_insert //. lia.
  - assert (∀ s', is_Some (T !! s') \/ s' ∈ X -> is_Some (<[s:=(k, p)]> T !! s') \/ s' ∈ X ∖ {[s]}) as Hmono.
    { intros s' H. destruct (decide (s = s')) as [<-|Hne]; [left; by rewrite lookup_insert_eq|].
      rewrite lookup_insert_ne //. destruct H; [by left|right; set_solver]. }
    intros s' k' p' i. destruct (decide (s = s')) as [<-|Hne].
    + rewrite lookup_insert_eq. intros [= <- <-] Hi. by apply Hmono, Hgap.
    + rewrite lookup_insert_ne //. intros H Hi. by eapply Hmono, (rep_no_gap _ _ _ _ _ _ _ P).
  - intros s' k' p'. destruct (decide (s = s')) as [<-|Hne].
    + rewrite lookup_insert_eq. by intros [= <- <-].
    + rewrite lookup_insert_ne //. apply (rep_covers _ _ _ _ _ _ _ P).
  - apply P.
  - apply P.
Qed.

(** The entry of [off] now lives in the stale slot [s], with [q] probes; [off]
    is stale. *)
Lemma rep_move mp T X R W s off k p q :
  rep mp T X R W -> T !! s = None -> s ∈ X -> T !! off = Some (k, p) ->
  entry (D mp s) = k -> probes (D mp s) = q ->
  1 <= q <= capacity g -> q <= probe_limit g -> walk g (hash k) (Z.to_nat (q - 1)) = s ->
  (∀ i : nat, Z.of_nat i < q - 1 -> is_Some (T !! walk g (hash k) i) \/ walk g (hash k) i ∈ X) ->
  covers g mp (hash k) q ->
  rep mp (<[s := (k, q)]> (delete off T)) (({[off]} ∪ X) ∖ {[s]}) R W.
Proof.
  intros P HT Hx Hoff He Hq Hqc Hql Hw Hgap Hcov.
  destruct (pl_slot _ _ _ (rep_placed _ _ _ _ _ _ _ P) _ _ _ Hoff) as (Hk0 & _).
  pose proof (pl_few _ _ _ (rep_placed _ _ _ _ _ _ _ P)). pose proof (count_delete T off _ Hoff).
  apply rep_insert; try done.
  - by eapply rep_delete.
  - destruct (decide (off = s)) as [->|]; [apply lookup_delete_eq|by rewrite lookup_delete_ne].
  - set_solver.
  - lia.
  - intros i Hi. destruct (Hgap i Hi) as [Hg|Hg]; [|right; set_solver].
    destruct (decide (walk g (hash k) i = off)) as [->|Hne]; [right; set_solver|].
    left. by rewrite lookup_delete_ne.
Qed.

(** A stale slot that no entry passes is cleared. *)
Lemma rep_clear mp T X R W s :
  rep mp T X R W -> T !! s = None -> s ∈ X -> crossing g hash T s = 0 ->
  rep (upd mp s (λ d, put_probes 0 (put_entry CK_RHS_EMPTY d))) T (X ∖ {[s]}) R W.
Proof.
  intros P HT Hx Hc. pose proof (rep_shape _ _ _ _ _ _ _ P) as S.
  destruct (rep_stale _ _ _ _ _ _ _ P s Hx) as [Hs _].
  set (f := λ d, put_probes 0 (put_entry CK_RHS_EMPTY d)).
  assert (∀ s', in_range s' -> let d := D (upd mp s f) s' in
    wanted d = wanted (D mp s') /\ in_rh d = in_rh (D mp s') /\ probe_bound d = probe_bound (D mp s')) as F.
  { intros s' Hs'. cbv zeta. rewrite (D_upd g G) //. by destruct (Z.eqb_spec s s') as [->|]. }
  split.
  - by apply shape_upd.
  - intros s' Hs' Hx'. destruct (decide (s = s')) as [<-|Hne].
    + by rewrite (D_upd_same g G) // HT.
    + rewrite (D_upd_other g G) //. apply P; set_solver.
  - intros s' Hx'. destruct (rep_stale _ _ _ _ _ _ _ P s') as [Hs' He']; [set_solver|].
    rewrite (D_upd_other g G) //. set_solver.
  - intros s' Hs'. destruct (F s' Hs') as (_ & -> & _). by apply P.
  - intros s' Hs'. destruct (F s' Hs') as (-> & _). by apply P.
  - apply P.
  - intros s' k p i Hk Hi. destruct (decide (walk g (hash k) i = s)) as [Hw|Hne].
    + pose proof (crossing_ge g hash T s' k p s Hk). pose proof (passes_ge g (hash k) p s i Hi Hw). lia.
    + destruct (rep_no_gap _ _ _ _ _ _ _ P s' k p i Hk Hi); [by left|right; set_solver].
  - intros s' k p Hk. pose proof (rep_covers _ _ _ _ _ _ _ P s' k p Hk) as C. unfold covers.
    by destruct (F _ (home_in_range g G (hash k))) as (_ & _ & ->).
  - apply P.
  - intros s' Hs'. destruct (F s' Hs') as (_ & _ & ->). by apply P.
Qed.

(** A new probe bound for the home slot [s]. *)
Lemma rep_put_bound mp T X R W s v :
  rep mp T X R W -> in_range s -> 0 <= v <= Z.min CK_RHS_WORD_MAX (probe_limit g) ->
  (∀ s' k p, T !! s' = Some (k, p) -> home g (hash k) = s -> p <= v) ->
  rep (upd mp s (put_bound v)) T X R W.
Proof.
  intros P Hs Hv Hall. pose proof (rep_shape _ _ _ _ _ _ _ P) as S.
  assert (∀ s', in_range s' -> put_bound 0 (D (upd mp s (put_bound v)) s') = put_bound 0 (D mp s')) as F0.
  { intros s' Hs'. rewrite (D_upd g G) //. by destruct (Z.eqb_spec s s') as [->|]. }
  assert (∀ s', in_range s' -> let d := D (upd mp s (put_bound v)) s' in
    entry d = entry (D mp s') /\ probes d = probes (D mp s') /\
    wanted d = wanted (D mp s') /\ in_rh d = in_rh (D mp s')) as F.
  { intros s' Hs'. specialize (F0 s' Hs'). unfold put_bound in F0. cbv zeta. by injection F0. }
  split.
  - by apply shape_upd.
  - intros s' Hs' Hx. pose proof (rep_slot _ _ _ _ _ _ _ P s' Hs' Hx). destruct (F s' Hs') as (E1 & E2 & _).
    unfold slot_ok. by rewrite E1 E2.
  - intros s' Hx. destruct (rep_stale _ _ _ _ _ _ _ P s' Hx) as [Hs' He]. split; [done|].
    by destruct (F s' Hs') as (-> & _).
  - intros s' Hs'. destruct (F s' Hs') as (_ & _ & _ & ->). by apply P.
  - intros s' Hs'. destruct (F s' Hs') as (_ & _ & -> & _). by apply P.
  - apply P.
  - apply P.
  - intros s' k p Hk. destruct (rep_covers _ _ _ _ _ _ _ P s' k p Hk) as [C1 C2]. split; [done|].
    intros Hrm. pose proof (home_in_range g G (hash k)) as Hh. rewrite (D_upd g G) //.
    destruct (Z.eqb_spec s (home g (hash k))) as [E|E]; [|by apply C2].
    right. cbn. by eapply Hall.
  - apply P.
  - intros s' Hs'. rewrite (D_upd g G) //. destruct (Z.eqb_spec s s') as [->|]; [done|by apply P].
Qed.
End move.

(** [ck_rhs]: backward-shift deletion.  The vacated slot travels: each turn finds an
    entry that passed it and moves that entry back, until no entry passes it. *)

Section delete.
Context (g : ck_rhs_map) (G : geometry g) (hash : Z -> Z).
Context (Hlimit : 0 <= probe_limit g < 2 ^ 31) (Hcapacity : capacity g <= 2 ^ 31).
Implicit Types (mp : ck_rhs_map) (s k h p : Z) (T : layout) (X R : gset Z) (W : Z -> Z).

Abbreviation rep := (rep g hash).
Abbreviation in_range := (in_range g).
Abbreviation crossing := (crossing g hash).

(** ** The home of a slot *)

(** Some walk reaches slot [s] with its [n]-th step. *)
Lemma walk_onto (n : nat) s : in_range s -> ∃ h, walk g h n = s.
Proof.
  intros Hs. pose proof (line_pos g G) as HM. pose proof (blocks_pos g G) as HB.
  set (a := Z.of_nat n / line g). set (d := Z.of_nat n - a).
  set (q := s / line g - tri a). set (r := (s - d) mod line g).
  exists (line g * q + r). rewrite (walk_slot g G) -(slot_of_self g G s Hs).
  pose proof (Z.mod_pos_bound (s - d) (line g) ltac:(lia)) as Hr. fold r in Hr. fold a.
  replace ((line g * q + r) / line g) with q.
  2:{ rewrite Z.mul_comm Z.div_add_l; [lia|]. rewrite (Z.div_small r); lia. }
  apply (slot_of_eq g G). split; [f_equal; unfold q; lia|].
  replace (line g * q + r + Z.of_nat n - a) with (r + d + q * line g) by (unfold d; lia).
  rewrite Z.mod_add; [lia|]. unfold r. rewrite Z.add_mod_idemp_l; [lia|]. f_equal. lia.
Qed.

Lemma walk_same_home h1 h2 (n : nat) : walk g h1 n = walk g h2 n -> home g h1 = home g h2.
Proof.
  intros E. unfold home. rewrite -(first_offset_walk g G h1 n) -(first_offset_walk g G h2 n).
  by rewrite E.
Qed.

Lemma same_home_walk h1 h2 (n : nat) : home g h1 = home g h2 -> walk g h1 n = walk g h2 n.
Proof. intros E. by rewrite -(walk_home g G h1 n) -(walk_home g G h2 n) -!home_walk E. Qed.

(** ** Finding a successor *)

Lemma successor_from_ok mp h todo (j : nat) :
  shape g mp ->
  ∃ j' : nat, successor_from todo mp (walk g h j) (Z.of_nat j) = Some (Z.of_nat j', walk g h j') /\
    (j <= j' <= j + todo)%nat /\
    (∀ i, (j <= i < j')%nat -> probes (D mp (walk g h i)) <> Z.of_nat i + 1) /\
    ((j' < j + todo)%nat -> probes (D mp (walk g h j')) = Z.of_nat j' + 1).
Proof.
  intros S. revert j. induction todo as [|todo IH]; intros j; cbn [successor_from].
  { exists j. split_and!; [done|lia|lia|intros; lia|intros; lia]. }
  rewrite (desc_ok g G) //; [by apply walk_in_range|]. cbn [mbind option_bind].
  destruct (Z.eqb_spec (probes (D mp (walk g h j))) (Z.of_nat j + 1)) as [E|E].
  { exists j. split_and!; [done|lia|lia|intros; lia|done]. }
  rewrite (shape_next g) //.
  assert (ck_rhs_map_probe_next g (walk g h j) (Z.of_nat j + 1) = walk g h (Datatypes.S j)) as ->.
  { cbn [walk]. do 2 f_equal. lia. }
  replace (Z.of_nat j + 1) with (Z.of_nat (Datatypes.S j)) by lia.
  destruct (IH (Datatypes.S j)) as (j' & -> & Hj & Hne & Heq). exists j'. split; [done|].
  split; [lia|]. split; [|intros; apply Heq; lia].
  intros i Hi. destruct (decide (i = j)) as [->|]; [lia|]. apply Hne. lia.
Qed.

(** A successor of the hole at [d]: an entry whose walk has [d] as its [w]-th slot;
    none of its home stopped in between. *)
Record successor T (d w p off k : Z) : Prop := {
  su_entry : T !! off = Some (k, p + 1);
  su_probes : 1 <= w <= p;
  su_passes : walk g (hash k) (Z.to_nat (w - 1)) = d;
  su_next s k' p' : T !! s = Some (k', p') -> home g (hash k') = home g (hash k) ->
    p' <= w \/ p + 1 <= p';
}.

(** What the hole keeps of the entry that left it. *)
Definition hole_ok mp T (d : Z) : Prop :=
  T !! d = None /\ 1 <= probes (D mp d) <= capacity g /\ probes (D mp d) <= probe_limit g.

Lemma successor_entry mp T R W d h (w j : nat) :
  rep mp T {[d]} R W -> hole_ok mp T d -> (1 <= w <= j)%nat -> walk g h (w - 1) = d ->
  probes (D mp (walk g h j)) = Z.of_nat j + 1 ->
  ∃ k, T !! walk g h j = Some (k, Z.of_nat j + 1) /\ home g (hash k) = home g h.
Proof.
  intros P [HT Hd] Hw Hhome Hj. pose proof (walk_in_range g G h j) as Hr.
  assert (walk g h j <> d) as Hne.
  { intros E. rewrite E in Hj. rewrite -Hhome in E. apply (walk_inj g G) in E; lia. }
  pose proof (rep_slot _ _ _ _ _ _ _ P (walk g h j) Hr ltac:(set_solver)) as Ho.
  destruct (T !! walk g h j) as [[k p]|] eqn:Hk; [|destruct Ho; lia].
  destruct Ho as [_ Hp]. exists k. split; [congruence|].
  destruct (pl_slot _ _ _ (rep_placed _ _ _ _ _ _ _ P) _ _ _ Hk) as (_ & Hp1 & _ & Hwalk).
  apply (walk_same_home (hash k) h j). rewrite -Hwalk. f_equal. lia.
Qed.

Lemma find_successor_ok mp T R W d todo (w : nat) :
  rep mp T {[d]} R W -> hole_ok mp T d -> in_range d -> (1 <= w)%nat ->
  Z.of_nat w + Z.of_nat todo = probe_maximum mp ->
  (∃ s k p (i : nat), T !! s = Some (k, p) /\ walk g (hash k) i = d /\
     (w <= i + 1)%nat /\ Z.of_nat i + 1 < p) ->
  ∃ w' p off k, find_successor todo mp d (Z.of_nat w) = Some (Some (w', p, off)) /\
    successor T d w' p off k.
Proof.
  intros P Hd Hdr Hw Hsum Hex. revert w Hw Hsum Hex.
  pose proof (rep_shape _ _ _ _ _ _ _ P) as S. pose proof (rep_maximum _ _ _ _ _ _ _ P) as Hmax.
  induction todo as [|todo IH]; intros w Hw Hsum (s & k & p & i & Hk & Hi & Hwi & Hip).
  { pose proof (rep_covers _ _ _ _ _ _ _ P s k p Hk) as [Hc _]. lia. }
  cbn [find_successor].
  destruct (walk_onto (w - 1) d Hdr) as [h Hh].
  assert (ck_rhs_map_probe_next mp d (Z.of_nat w) = walk g h w) as ->.
  { rewrite (shape_next g) // -Hh. destruct w as [|w0]; [lia|].
    by replace (Datatypes.S w0 - 1)%nat with w0 by lia. }
  destruct (successor_from_ok mp h (Z.to_nat (probe_maximum mp - Z.of_nat w)) w S)
    as (j & -> & Hj & Hne & Heq). cbn [mbind option_bind].
  destruct (Z.ltb_spec (Z.of_nat j) (probe_maximum mp)) as [Hlt|Hge].
  - assert (probes (D mp (walk g h j)) = Z.of_nat j + 1) as Hp by (apply Heq; lia).
    destruct (successor_entry mp T R W d h w j P Hd ltac:(lia) Hh Hp) as (k' & Hk' & Hhome).
    eexists _, _, _, k'. split; [done|]. split; [done|lia| |].
    + replace (Z.to_nat (Z.of_nat w - 1)) with (w - 1)%nat by lia.
      by rewrite (same_home_walk _ h).
    + intros s' k'' p'' Hk'' Hhome''.
      destruct (decide (p'' <= Z.of_nat w)) as [|Hgt]; [by left|right].
      destruct (decide (Z.of_nat j + 1 <= p'')) as [|Hle]; [done|].
      destruct (pl_slot _ _ _ (rep_placed _ _ _ _ _ _ _ P) _ _ _ Hk'') as (_ & Hp1 & _ & Hwalk).
      destruct (Hne (Z.to_nat (p'' - 1))); [lia|].
      rewrite -(same_home_walk (hash k'') h); [congruence|]. rewrite Hwalk.
      assert (s' <> d) as Hsd by (intros ->; destruct Hd; congruence).
      pose proof (rep_slot _ _ _ _ _ _ _ P s' ltac:(rewrite -Hwalk; by apply walk_in_range)
        ltac:(set_solver)) as Ho. rewrite Hk'' in Ho. destruct Ho as [_ ->]. lia.
  - replace (Z.of_nat w + 1) with (Z.of_nat (Datatypes.S w)) by lia.
    apply IH; [lia|lia|]. exists s, k, p, i. split_and!; [done..| |done].
    destruct (decide (w = i + 1)%nat) as [Hwe|]; [|lia]. exfalso.
    assert (home g (hash k) = home g h) as Hhome.
    { apply (walk_same_home _ _ i). rewrite Hi -Hh. f_equal. lia. }
    destruct (pl_slot _ _ _ (rep_placed _ _ _ _ _ _ _ P) _ _ _ Hk) as (_ & Hp1 & _ & Hwalk).
    pose proof (rep_covers _ _ _ _ _ _ _ P s k p Hk) as [Hc _].
    destruct (Hne (Z.to_nat (p - 1))); [lia|].
    rewrite -(same_home_walk (hash k) h) // Hwalk.
    assert (s <> d) as Hsd by (intros ->; destruct Hd; congruence).
    pose proof (rep_slot _ _ _ _ _ _ _ P s ltac:(rewrite -Hwalk; by apply walk_in_range)
      ltac:(set_solver)) as Ho. rewrite Hk in Ho. destruct Ho as [_ ->]. lia.
Qed.

(** ** Probe bounds along the way *)

Lemma bound_scan_stays mp h todo (n : nat) max :
  shape g mp -> bound_scan todo mp (home g h) (walk g h n) (Z.of_nat n) max = Z.of_nat n.
Proof.
  intros S. destruct todo as [|todo]; [done|]. cbn [bound_scan].
  rewrite (shape_first_offset g) // (first_offset_walk g G). change (Z.land h (mask g)) with (home g h).
  rewrite Z.eqb_refl. by destruct (_ <? _).
Qed.

Lemma tighten_bound_ok mp T R W d off k w p :
  rep mp T {[off]} R W -> T !! d = Some (k, w) -> T !! off = None ->
  walk g (hash k) (Z.to_nat p) = off -> 1 <= w <= p -> p < probe_maximum mp ->
  (∀ s, in_range s -> W s = crossing T s + if s =? d then 1 else 0) ->
  (∀ s k' p', T !! s = Some (k', p') -> home g (hash k') = home g (hash k) ->
     p' <= w \/ p + 1 <= p') ->
  ∃ mp', tighten_bound mp (home g (hash k)) off p w (p + 1) = Some mp' /\
    rep mp' T {[off]} R W /\
    (mp' = mp \/ mp' = upd mp (home g (hash k)) (put_bound w)).
Proof.
  intros P Hd Hoff Hw Hwp Hmax HW Hnext. unfold tighten_bound.
  pose proof (rep_shape _ _ _ _ _ _ _ P) as S. pose proof (home_in_range g G (hash k)) as Hh.
  pose proof (rep_maximum _ _ _ _ _ _ _ P) as HM.
  assert (rep mp T {[off]} R W /\ (mp = mp \/ mp = upd mp (home g (hash k)) (put_bound w))) as Hsame
    by (split; [done|by left]).
  destruct (Z.ltb_spec w CK_RHS_WORD_MAX) as [Hlt|Hge]; [|by exists mp].
  rewrite (desc_ok g G) //. cbn [mbind option_bind].
  assert ((∀ s' k' p', T !! s' = Some (k', p') -> home g (hash k') = home g (hash k) -> p' <= w) ->
    ∃ mp', update_desc mp (home g (hash k)) (put_bound w) = Some mp' /\ rep mp' T {[off]} R W /\
      (mp' = mp \/ mp' = upd mp (home g (hash k)) (put_bound w))) as Hput.
  { intros Hall. rewrite (update_ok g G) //. eexists. split; [done|]. split; [|by right].
    apply (rep_put_bound g G); [done..|lia|done]. }
  destruct (Z.eqb_spec (wanted (D mp (home g (hash k)))) 1) as [E1|E1].
  - apply Hput. intros s k' p' Hs Hhome. destruct (decide (p' <= w)) as [|Hgt]; [done|]. exfalso.
    rewrite (rep_wanted _ _ _ _ _ _ _ P) // HW // in E1.
    pose proof (passes_ge g (hash k') p' (home g (hash k)) 0 ltac:(lia) ltac:(by rewrite -Hhome)) as Hp'.
    assert (s <> d) as Hne by (intros ->; rewrite Hd in Hs; injection Hs; lia).
    destruct (decide (w = 1)) as [->|].
    + destruct (pl_slot _ _ _ (rep_placed _ _ _ _ _ _ _ P) _ _ _ Hd) as (_ & _ & _ & Hwd).
      pose proof (crossing_ge g hash T s k' p' (home g (hash k)) Hs).
      assert (home g (hash k) = d) as Hhd by done. rewrite (proj2 (Z.eqb_eq _ _) Hhd) in E1. lia.
    + pose proof (passes_ge g (hash k) w (home g (hash k)) 0 ltac:(lia) ltac:(done)).
      pose proof (crossing_two g hash T (home g (hash k)) s k' p' d k w Hne Hs Hd).
      destruct (home g (hash k) =? d); lia.
  - destruct ((probe_bound _ =? CK_RHS_WORD_MAX) || _) eqn:Hor; [|by exists mp].
    rewrite (shape_next g) //.
    replace (ck_rhs_map_probe_next g off (p + 1)) with (walk g (hash k) (Z.to_nat (p + 1))).
    2:{ replace (Z.to_nat (p + 1)) with (Datatypes.S (Z.to_nat p)) by lia. cbn [walk]. rewrite Hw.
        f_equal. lia. }
    assert (∀ todo max, bound_scan todo mp (home g (hash k)) (walk g (hash k) (Z.to_nat (p + 1)))
      (p + 1) max = p + 1) as Hscan.
    { intros todo max. pose proof (bound_scan_stays mp (hash k) todo (Z.to_nat (p + 1)) max S) as E.
      rewrite Z2Nat.id in E; [lia|done]. }
    rewrite Hscan.
    destruct (Z.eqb_spec (probe_bound (D mp (home g (hash k)))) CK_RHS_WORD_MAX) as [Eb|Eb].
    + destruct (Z.eqb_spec (p + 1) (probe_maximum mp)) as [Em|Em]; [|by exists mp].
      apply Hput. intros s k' p' Hs Hhome. destruct (Hnext s k' p' Hs Hhome) as [|Hge]; [done|]. exfalso.
      pose proof (rep_covers _ _ _ _ _ _ _ P s k' p' Hs) as [Hc _].
      destruct (pl_slot _ _ _ (rep_placed _ _ _ _ _ _ _ P) _ _ _ Hs) as (_ & _ & _ & Hwd).
      assert (s = off) as ->; [|congruence]. rewrite -Hwd -Hw (same_home_walk _ (hash k)) //.
      f_equal. lia.
    + destruct (Z.eqb_spec (probe_bound (D mp (home g (hash k)))) (p + 1)) as [Eq|]; [|done].
      rewrite Eq (u32_small (p + 1 - 1)); [unfold UINT_MAX in *; lia|].
      rewrite (proj2 (Z.eqb_neq (p + 1) (p + 1 - 1))); [lia|]. by exists mp.
Qed.

(** ** The last slot *)

Lemma empty_slot_ok mp T R d h :
  rep mp T {[d]} R (crossing T) -> hole_ok mp T d -> crossing T d = 0 ->
  walk g h (Z.to_nat (probes (D mp d) - 1)) = d ->
  ∃ mp', empty_slot mp d (home g h) = Some mp' /\ rep mp' T ∅ R (crossing T) /\
    n_entries mp' = n_entries mp.
Proof.
  intros P [HT Hd] Hc Hw. unfold empty_slot. pose proof (rep_shape _ _ _ _ _ _ _ P) as S.
  destruct (rep_stale _ _ _ _ _ _ _ P d ltac:(set_solver)) as [Hdr He].
  pose proof (home_in_range g G h) as Hh. pose proof (capacity_pow g G) as (c & Hcap & Hcp).
  set (pd := probes (D mp d)) in *.
  unfold store_entry. rewrite (update_ok g G) //. cbn [mbind option_bind].
  set (mp1 := upd mp d _). assert (shape g mp1) as S1 by (by apply shape_upd).
  rewrite (probes_ok g G) //. cbn [mbind option_bind].
  assert (probes (D mp1 d) = pd) as -> by (unfold mp1; by rewrite (D_upd_same g G)).
  (* the bound is written while the slot is still unaccounted for *)
  assert (∀ v, 0 <= v <= Z.min CK_RHS_WORD_MAX (probe_limit g) -> pd - 1 <= v ->
    rep (upd mp (home g h) (put_bound v)) T {[d]} R (crossing T)) as Hb.
  { intros v Hv Hle. apply (rep_put_bound g G); [done..|]. intros s k p Hk Hhome.
    destruct (decide (p <= v)) as [|Hgt]; [done|]. exfalso.
    assert (p <> pd) as Hne.
    { intros ->. destruct (pl_slot _ _ _ (rep_placed _ _ _ _ _ _ _ P) _ _ _ Hk) as (_ & _ & _ & Hwd).
      rewrite (same_home_walk _ h) // Hw in Hwd. congruence. }
    pose proof (passes_ge g (hash k) p d (Z.to_nat (pd - 1)) ltac:(lia)
      ltac:(by rewrite (same_home_walk _ h))).
    pose proof (crossing_ge g hash T s k p d Hk). lia. }
  set (v := u32 (pd - 1)). assert (v = pd - 1 /\ 0 <= v) as [Hv Hv0].
  { unfold v. rewrite u32_small; lia. }
  assert (∃ mp2, (if v <? CK_RHS_WORD_MAX then update_desc mp1 (home g h) (put_bound v) else Some mp1) =
    Some mp2 /\ ∃ mp0, rep mp0 T {[d]} R (crossing T) /\ shape mp0 mp2 /\
      probe_maximum mp2 = probe_maximum mp0 /\ n_entries mp2 = n_entries mp /\
      (∀ s, in_range s -> D mp2 s = D (upd mp0 d (put_entry CK_RHS_EMPTY)) s)) as
    (mp2 & -> & mp0 & P0 & S0 & M0 & N2 & D2).
  { destruct (Z.ltb_spec v CK_RHS_WORD_MAX) as [Hlt|Hge].
    - rewrite (update_ok g G) //. eexists. split; [done|].
      exists (upd mp (home g h) (put_bound v)). split; [apply Hb; lia|].
      split; [apply shape_trans with mp; [apply shape_sym, shape_upd, shape_refl|
              apply shape_upd, shape_upd, shape_refl]|]. split; [done|]. split; [done|].
      intros s Hs. assert (shape g (upd mp (home g h) (put_bound v))) by (by apply shape_upd).
      unfold mp1. rewrite !(D_upd g G) //.
      destruct (Z.eqb_spec d (home g h)), (Z.eqb_spec (home g h) d), (Z.eqb_spec (home g h) s),
        (Z.eqb_spec d s); try congruence; try done.
      by replace (home g h) with d by done.
    - exists mp1. split; [done|]. exists mp. split; [done|]. split; [apply shape_upd, shape_refl|].
      split_and!; done. }
  cbn [mbind option_bind]. unfold ck_rhs_set_probes.
  assert (shape g mp2) as S2 by (eapply shape_trans; [apply P0|done]).
  rewrite (update_ok g G) //. eexists. split; [done|]. split; [|done].
  pose proof (rep_clear g G hash mp0 T {[d]} R (crossing T) d P0 HT ltac:(set_solver) Hc) as P3.
  replace ({[d]} ∖ {[d]}) with (∅ : gset Z) in P3 by set_solver.
  apply (rep_ext g G hash _ _ _ _ _ _ P3).
  - apply shape_trans with mp0; [apply shape_sym, shape_upd, shape_refl|].
    eapply shape_trans; [exact S0|apply shape_upd, shape_refl].
  - done.
  - intros s Hs. pose proof (rep_shape _ _ _ _ _ _ _ P0). rewrite !(D_upd g G) // !D2 // !(D_upd g G) //.
    by destruct (Z.eqb_spec d s) as [<-|]; rewrite ?Z.eqb_refl.
Qed.

(** ** The loop *)

(** The probes of a layout: what every turn lowers. *)
Abbreviation effort T := (tsum snd T).

Lemma effort_move T d off k p w :
  T !! d = None -> T !! off = Some (k, p) ->
  effort (<[d := (k, w)]> (delete off T)) = effort T - p + w /\
  (∀ s, crossing (<[d := (k, w)]> (delete off T)) s =
        crossing T s - passes g (hash k) p s + passes g (hash k) w s) /\
  keys (<[d := (k, w)]> (delete off T)) ≡ₚ keys T.
Proof.
  intros Hd Hoff. assert (delete off T !! d = None) as Hd'.
  { destruct (decide (off = d)) as [->|]; [apply lookup_delete_eq|by rewrite lookup_delete_ne]. }
  split_and!.
  - rewrite tsum_insert // (tsum_delete _ _ _ _ Hoff). cbn. lia.
  - intros s. rewrite crossing_insert // (crossing_delete _ _ _ _ _ _ _ Hoff). lia.
  - rewrite keys_insert //. symmetry. by apply keys_delete with p.
Qed.

(** The state between two turns: the hole is at [d], and [h] hashes to the home of
    the entry that left it. *)
Definition shifting mp T R d h : Prop :=
  rep mp T {[d]} R (crossing T) /\ hole_ok mp T d /\
  walk g h (Z.to_nat (probes (D mp d) - 1)) = d.

Lemma crossing_range mp T X R W s : rep mp T X R W -> 0 <= crossing T s < CK_RHS_MAX_WANTED.
Proof.
  intros P. pose proof (crossing_nonneg g hash T s). pose proof (rep_placed _ _ _ _ _ _ _ P) as Pl.
  pose proof (crossing_le g G hash T s) as Hle. pose proof (pl_few _ _ _ Pl). unfold CK_RHS_MAX_WANTED.
  assert (crossing T s <= count T); [|lia]. apply Hle.
  intros s' k p Hk. destruct (pl_slot _ _ _ Pl _ _ _ Hk) as (_ & ? & _). lia.
Qed.

Lemma shift_turn_ok mp T R d h fuel :
  shifting mp T R d h -> 0 < wanted (D mp d) ->
  ∃ mp' T' off h', shift_loop (S fuel) mp d (home g h) = shift_loop fuel mp' off (home g h') /\
    shifting mp' T' R off h' /\ effort T' < effort T /\ keys T' ≡ₚ keys T /\
    n_entries mp' = n_entries mp.
Proof.
  intros (P & [HT Hd] & Hh) Hw. cbn [shift_loop]. pose proof (rep_shape _ _ _ _ _ _ _ P) as S.
  destruct (rep_stale _ _ _ _ _ _ _ P d ltac:(set_solver)) as [Hdr He].
  rewrite (desc_ok g G) //. cbn [mbind option_bind]. rewrite (proj2 (Z.ltb_lt _ _)) //.
  rewrite (rep_wanted _ _ _ _ _ _ _ P) // in Hw.
  destruct (crossing_pos g hash T d Hw) as (s0 & k0 & p0 & Hk0 & Hp0).
  destruct (passes_pos g _ _ _ Hp0) as (i0 & Hi0 & Hw0).
  pose proof (rep_covers _ _ _ _ _ _ _ P s0 k0 p0 Hk0) as [Hc0 _].
  destruct (find_successor_ok mp T R (crossing T) d (Z.to_nat (probe_maximum mp - 1)) 1 P)
    as (w & p & off & k & Hf & Su); [done|done|lia|lia|by exists s0, k0, p0, i0; split_and!; try lia|].
  change (Z.of_nat 1) with 1 in Hf. rewrite Hf. cbn [mbind option_bind]. clear Hf s0 k0 p0 Hk0 Hp0 i0 Hi0 Hw0 Hc0.
  destruct Su as [Hoff Hwp Hpass Hnext].
  destruct (pl_slot _ _ _ (rep_placed _ _ _ _ _ _ _ P) _ _ _ Hoff) as (Hk0 & Hp1 & Hplim & Hwoff).
  rewrite Z.add_simpl_r in Hwoff.
  assert (in_range off) as Hor by (rewrite -Hwoff; by apply walk_in_range).
  assert (off <> d) as Hne by congruence.
  pose proof (rep_slot _ _ _ _ _ _ _ P off Hor ltac:(set_solver)) as Ho. rewrite Hoff in Ho.
  destruct Ho as [Hoe Hop].
  rewrite (desc_ok g G) //. cbn [mbind option_bind].
  (* the probe count of the hole *)
  unfold ck_rhs_set_probes. rewrite (update_ok g G) //. cbn [mbind option_bind].
  rewrite u32_small; [lia|]. set (mp1 := upd mp d (put_probes w)).
  assert (rep mp1 T {[d]} R (crossing T)) as P1.
  { apply (rep_stale_upd g G); try done. set_solver. }
  assert (D mp1 off = D mp off) as D1 by (by apply (D_upd_other g G)).
  (* the walk of the successor up to the hole is taken back *)
  destruct (ck_rhs_remove_wanted_ok g G mp1 (hash k) (Z.to_nat w) (Z.to_nat p) (Some d))
    as (mp2 & Hrm & S2 & W2).
  { apply P1. } { lia. } { rewrite Hwoff D1 Hop Z2Nat.id; lia. }
  { right. exists (Z.to_nat (w - 1)). rewrite Hpass. split_and!; [done|lia|lia]. }
  { intros j Hj. rewrite (rep_wanted _ _ _ _ _ _ _ P1); [by apply walk_in_range|].
    pose proof (crossing_range _ _ _ _ _ (walk g (hash k) j) P).
    pose proof (crossing_ge g hash T off k (p + 1) (walk g (hash k) j) Hoff).
    pose proof (passes_ge g (hash k) (p + 1) (walk g (hash k) j) j ltac:(lia) eq_refl). lia. }
  rewrite Hwoff in Hrm. rewrite Hrm. cbn [mbind option_bind]. rewrite !Z2Nat.id in W2; [lia..|].
  set (W' := λ s, crossing T s - (passes g (hash k) (p + 1) s - passes g (hash k) (w + 1) s)).
  assert (rep mp2 T {[d]} R W') as P2.
  { apply (rep_same_but_wanted g G hash _ _ _ _ _ _ W' P1 S2). intros s Hs. rewrite W2 //.
    by rewrite (rep_wanted _ _ _ _ _ _ _ P1). }
  (* the successor moves into the hole *)
  pose proof (rep_shape _ _ _ _ _ _ _ P2) as S2'.
  pose proof (λ s, same_but_wanted_fields g mp1 mp2 s S2) as F2.
  rewrite (entry_ok g G) //. cbn [mbind option_bind].
  destruct (F2 off Hor) as (-> & _). rewrite D1 Hoe.
  unfold store_entry. rewrite (update_ok g G) //. cbn [mbind option_bind].
  set (mp3 := signal (upd mp2 d (put_entry k)) (home g (hash k))).
  assert (rep mp3 T {[d]} R W') as P3.
  { apply rep_signal, (rep_stale_upd g G); try done. set_solver. }
  assert (D mp3 d = put_entry k (D mp2 d)) as D3d by (by apply (D_upd_same g G)).
  assert (∀ s, in_range s -> s <> d -> D mp3 s = D mp2 s) as D3.
  { intros s Hs Hsd. by apply (D_upd_other g G). }
  set (T' := <[d := (k, w)]> (delete off T)).
  destruct (effort_move T d off k (p + 1) w HT Hoff) as (He' & Hc' & Hkeys). fold T' in He', Hc', Hkeys.
  assert (rep mp3 T' {[off]} R W') as P4.
  { replace {[off]} with (({[off]} ∪ {[d]}) ∖ {[d]} : gset Z) by set_solver.
    apply (rep_move g G hash mp3 T {[d]} R W' d off k (p + 1) w P3); try done; try lia.
    - set_solver.
    - by rewrite D3d.
    - rewrite D3d. cbn. destruct (F2 d Hdr) as (_ & -> & _). unfold mp1. by rewrite (D_upd_same g G).
    - intros i Hi. apply (rep_no_gap _ _ _ _ _ _ _ P off k (p + 1) i Hoff). lia.
    - destruct (rep_covers _ _ _ _ _ _ _ P3 off k (p + 1) Hoff) as [C1 C2]. split; [lia|].
      intros Hrm'. destruct (C2 Hrm'); [by left|right; lia]. }
  assert (T' !! off = None) as HT'off.
  { unfold T'. rewrite lookup_insert_ne // lookup_delete_eq //. }
  rewrite Hop.
  destruct (tighten_bound_ok mp3 T' R W' d off k w p P4) as (mp4 & -> & P5 & Hmp4); try done.
  { unfold T'. apply lookup_insert_eq. }
  { pose proof (rep_covers _ _ _ _ _ _ _ P3 off k (p + 1) Hoff) as [C1 _]. lia. }
  { intros s Hs. unfold W'. rewrite Hc' (passes_succ g (hash k) w s); [lia|]. rewrite Hpass.
    rewrite (Z.eqb_sym s d). lia. }
  { intros s k' p' Hs. unfold T' in Hs. destruct (decide (d = s)) as [<-|Hsd].
    - rewrite lookup_insert_eq in Hs. injection Hs as <- <-. intros _. left. lia.
    - rewrite lookup_insert_ne // in Hs. destruct (decide (off = s)) as [<-|Hso].
      + by rewrite lookup_delete_eq in Hs.
      + rewrite lookup_delete_ne // in Hs. by apply (Hnext s). }
  cbn [mbind option_bind].
  (* the count of the hole loses the successor *)
  pose proof (rep_shape _ _ _ _ _ _ _ P5) as S5. rewrite (update_ok g G) //. cbn [mbind option_bind].
  assert (W' d = crossing T' d + 1) as HWd.
  { unfold W'. rewrite Hc' (passes_succ g (hash k) w d); [lia|]. rewrite Hpass Z.eqb_refl. lia. }
  set (mp5 := upd mp4 d _).
  assert (same_but_wanted g mp4 mp5) as S45.
  { unfold mp5. apply (same_but_wanted_upd g G); [done..|]. intros x. by destruct (_ <? _). }
  assert (rep mp5 T' {[off]} R (crossing T')) as P6.
  { apply (rep_same_but_wanted g G hash _ _ _ _ _ _ (crossing T') P5 S45). intros s Hs.
    unfold mp5. rewrite (D_upd g G) //. destruct (Z.eqb_spec d s) as [<-|Hsd].
    - rewrite (rep_wanted _ _ _ _ _ _ _ P5) // HWd.
      pose proof (crossing_range _ _ _ _ _ d P) as Hr. unfold CK_RHS_MAX_WANTED in *.
      pose proof (passes_mono g (hash k) (w + 1) (p + 1) d ltac:(lia)).
      assert (crossing T' d + 1 <= crossing T d) by (rewrite -HWd; unfold W'; lia).
      pose proof (crossing_nonneg g hash T' d). rewrite (proj2 (Z.ltb_lt _ _)); [lia|]. cbn. unfold u16. rewrite Z.mod_small; lia.
    - rewrite (rep_wanted _ _ _ _ _ _ _ P5) //. unfold W'.
      rewrite Hc' (passes_succ g (hash k) w s); [lia|]. rewrite Hpass (proj2 (Z.eqb_neq d s)) //. lia. }
  assert (D mp5 off = D mp3 off \/ D mp5 off = put_bound w (D mp3 off)) as D5.
  { unfold mp5. rewrite (D_upd_other g G) //. destruct Hmp4 as [->| ->]; [by left|].
    rewrite (D_upd g G) //; [apply P4|by apply home_in_range|]. destruct (Z.eqb_spec (home g (hash k)) off) as [->|]; [by right|by left]. }
  assert (probes (D mp5 off) = p + 1) as Hp5.
  { transitivity (probes (D mp3 off)); [by destruct D5 as [->| ->]|].
    rewrite D3 //. by destruct (F2 off Hor) as (_ & -> & _); rewrite D1. }
  exists mp5, T', off, (hash k). split; [done|]. split_and!; [|lia|done|].
  - split; [done|]. split; [split; [done|lia]|]. by rewrite Hp5 Z.add_simpl_r.
  - change (n_entries mp4 = n_entries mp). transitivity (n_entries mp3); [by destruct Hmp4 as [->| ->]|].
    exact (sw_n_entries _ _ _ S2).
Qed.

Lemma shift_loop_ok fuel mp T R d h :
  shifting mp T R d h -> effort T < Z.of_nat fuel ->
  ∃ mp' T', shift_loop fuel mp d (home g h) = Some mp' /\ rep mp' T' ∅ R (crossing T') /\
    keys T' ≡ₚ keys T /\ n_entries mp' = n_entries mp.
Proof.
  revert mp T d h. induction fuel as [|fuel IH]; intros mp T d h Hs Hf.
  { destruct Hs as (P & _). pose proof (tsum_bounds snd T 0 (probe_limit g)) as [Hb _]; [|lia].
    intros s [k p] Hk. destruct (pl_slot _ _ _ (rep_placed _ _ _ _ _ _ _ P) _ _ _ Hk) as (_ & ? & ? & _).
    cbn. lia. }
  destruct (decide (0 < wanted (D mp d))) as [Hw|Hw].
  - destruct (shift_turn_ok mp T R d h fuel Hs Hw) as (mp1 & T1 & off & h1 & -> & Hs1 & He & Hk & Hn).
    destruct (IH mp1 T1 off h1 Hs1) as (mp2 & T2 & Hl & P2 & Hk2 & Hn2); [lia|].
    exists mp2, T2. split_and!; [done|done|by rewrite Hk2|congruence].
  - destruct Hs as (P & Hhole & Hh). cbn [shift_loop]. pose proof (rep_shape _ _ _ _ _ _ _ P) as S.
    destruct (rep_stale _ _ _ _ _ _ _ P d ltac:(set_solver)) as [Hdr He].
    rewrite (desc_ok g G) //. cbn [mbind option_bind]. rewrite (proj2 (Z.ltb_ge _ _)); [lia|].
    rewrite (rep_wanted _ _ _ _ _ _ _ P) // in Hw. pose proof (crossing_nonneg g hash T d).
    destruct (empty_slot_ok mp T R d h P Hhole ltac:(lia) Hh) as (mp' & He' & P' & Hn').
    by exists mp', T.
Qed.

(** The whole deletion. *)
Lemma ck_rhs_do_backward_shift_delete_ok mp T R s k p :
  rep mp T ∅ R (crossing T) -> T !! s = Some (k, p) ->
  ∃ mp' T', ck_rhs_do_backward_shift_delete mp s = Some mp' /\ rep mp' T' ∅ R (crossing T') /\
    k :: keys T' ≡ₚ keys T /\ n_entries mp' = n_entries mp.
Proof.
  intros P Hk. pose proof (rep_placed _ _ _ _ _ _ _ P) as Pl.
  destruct (pl_slot _ _ _ Pl _ _ _ Hk) as (Hk0 & Hp & Hplim & Hw).
  pose proof (placed_range g G _ _ _ _ _ Pl Hk) as Hs.
  pose proof (rep_slot _ _ _ _ _ _ _ P s Hs ltac:(set_solver)) as Ho. rewrite Hk in Ho.
  destruct Ho as [Hse Hsp]. unfold ck_rhs_do_backward_shift_delete.
  destruct (ck_rhs_remove_wanted_ok g G mp (hash k) 0 (Z.to_nat (p - 1)) None) as (mp1 & Hrm & S1 & W1).
  { apply P. } { lia. } { rewrite Hw Hsp Z2Nat.id; lia. } { by left. }
  { intros j Hj. rewrite (rep_wanted _ _ _ _ _ _ _ P); [by apply walk_in_range|].
    pose proof (crossing_range _ _ _ _ _ (walk g (hash k) j) P).
    pose proof (crossing_ge g hash T s k p (walk g (hash k) j) Hk).
    pose proof (passes_ge g (hash k) p (walk g (hash k) j) j ltac:(lia) eq_refl). lia. }
  rewrite Hw in Hrm. rewrite Hrm. cbn [mbind option_bind].
  set (T1 := delete s T).
  assert (rep mp1 T1 {[s]} R (crossing T1)) as P1.
  { replace {[s]} with ({[s]} ∪ ∅ : gset Z) by set_solver. apply (rep_delete g G hash _ _ _ _ _ _ k p); [|done].
    apply (rep_same_but_wanted g G hash _ _ _ _ _ _ (crossing T1) P S1). intros s' Hs'. rewrite W1 //.
    rewrite (rep_wanted _ _ _ _ _ _ _ P) // /T1 (crossing_delete _ _ _ _ _ _ _ Hk).
    rewrite Z2Nat.id; [lia|]. rewrite Z.sub_add passes_one. lia. }
  assert (probes (D mp1 s) = p) as Hp1 by (by destruct (same_but_wanted_fields g _ _ s S1 Hs) as (_ & -> & _)).
  pose proof (rep_placed _ _ _ _ _ _ _ P1) as Pl1.
  destruct (shift_loop_ok (S (Z.to_nat (capacity mp1 * probe_limit mp1))) mp1 T1 R s (hash k))
    as (mp2 & T2 & Hl & P2 & Hk2 & Hn2).
  { split; [done|]. split; [split; [apply lookup_delete_eq|lia]|]. by rewrite Hp1. }
  { pose proof (rep_shape _ _ _ _ _ _ _ P1) as Sh1. rewrite (sh_capacity _ _ Sh1) (sh_probe_limit _ _ Sh1).
    pose proof (tsum_bounds snd T1 0 (probe_limit g)) as [_ Hb].
    { intros s' [k' p'] Hk'. destruct (pl_slot _ _ _ Pl1 _ _ _ Hk') as (_ & ? & ? & _). cbn. lia. }
    pose proof (count_capacity g G hash T1 Pl1). nia. }
  exists mp2, T2. split_and!; [done|done| |].
  - rewrite Hk2. symmetry. by apply keys_delete with p.
  - rewrite Hn2. exact (sw_n_entries _ _ _ S1).
Qed.
End delete.
