(* ===== verification/RhsGrow.v ===== *)
(** [ck_rhs]: growth.  Placement in the new map terminates whatever the hash
    function does, and the new map holds the entries of the old one. *)

From S2P Require Export RhsDelete.
Set Warnings "-rewrite-rw,-clear-no-such-hyp".

(** The entries of a map, in slot order. *)
Definition live_entries (mp : ck_rhs_map) : list Z :=
  filter (λ k, k <> CK_RHS_EMPTY) (entry <$> descs mp).

(** The sum of the probe counts. *)
Definition psum (l : list ck_rhs_entry_desc) : Z := foldr (λ d acc, probes d + acc) 0 l.

Lemma psum_alter l (i : nat) f :
  (i < length l)%nat ->
  psum (alter f i l) = psum l - probes (default empty_desc (l !! i)) +
                       probes (f (default empty_desc (l !! i))).
Proof.
  revert i. induction l as [|d l IH]; intros i Hi; cbn in Hi; [lia|].
  destruct i as [|i].
  - change (probes (f d) + psum l = probes d + psum l - probes d + probes (f d)). lia.
  - change (probes d + psum (alter f i l) = probes d + psum l - probes (default empty_desc (l !! i)) +
      probes (f (default empty_desc (l !! i)))). rewrite IH; lia.
Qed.

Section grow.
Context (g : ck_rhs_map) (G : geometry g) (hs : ck_rhs).
Context (Hlimit : 0 < probe_limit g < 2 ^ 31) (Hcapacity : capacity g <= 2 ^ 31).
Implicit Types (mp u : ck_rhs_map) (s k h p : Z) (T : layout).

Abbreviation hash := (rhs_hash hs).
Abbreviation rep := (rep g hash).
Abbreviation in_range := (in_range g).
Abbreviation crossing := (crossing g hash).

(** ** Termination *)

Record dense u : Prop := {
  de_shape : shape g u;
  de_probes s : in_range s -> 0 <= probes (D u s) <= probe_limit g;
  de_entry s : in_range s -> entry (D u s) <> CK_RHS_EMPTY -> 1 <= probes (D u s);
  de_maximum : 0 <= probe_maximum u <= probe_limit g;
}.

Lemma dense_upd u s f :
  dense u -> in_range s -> 0 <= probes (f (D u s)) <= probe_limit g ->
  (entry (f (D u s)) <> CK_RHS_EMPTY -> 1 <= probes (f (D u s))) -> dense (upd u s f).
Proof.
  intros [S Hp He Hm] Hs H1 H2. split; [by apply shape_upd|..|done].
  - intros s' Hs'. rewrite (D_upd g G) //. destruct (Z.eqb_spec s s') as [<-|]; [done|by apply Hp].
  - intros s' Hs'. rewrite (D_upd g G) //. destruct (Z.eqb_spec s s') as [<-|]; [done|by apply He].
Qed.

Lemma dense_bound_set u h p : dense u -> 0 <= p <= probe_limit g ->
  ∃ u', ck_rhs_map_bound_set u h p = Some u' /\ dense u' /\ n_entries u' = n_entries u /\
        ∀ s, in_range s -> put_bound 0 (D u' s) = put_bound 0 (D u s).
Proof.
  intros [S Hp He Hm] Hpp.
  destruct (rhs_bound_set_ok g G u h p S Hpp) as (u' & Hb & S' & HN & HM & HD & _); [unfold UINT_MAX; lia|].
  exists u'. split; [done|].
  assert (∀ s, in_range s -> probes (D u' s) = probes (D u s) /\ entry (D u' s) = entry (D u s)) as F.
  { intros s Hs. destruct (HD s Hs) as [E _]. unfold put_bound in E. by injection E. }
  split_and!; [|done|intros s Hs; by apply HD]. split.
  - by eapply shape_trans.
  - intros s Hs. destruct (F s Hs) as [-> _]. by apply Hp.
  - intros s Hs. destruct (F s Hs) as [-> ->]. by apply He.
  - lia.
Qed.

Lemma psum_upd u s f : shape g u -> in_range s ->
  psum (descs (upd u s f)) = psum (descs u) - probes (D u s) + probes (f (D u s)).
Proof. intros S Hs. apply psum_alter. by apply (lookup_range g G). Qed.

Lemma list_D u : shape g u -> descs u = D u <$> seqZ 0 (capacity g).
Proof.
  intros S. pose proof (g_descs _ G) as Hlen. rewrite -(sh_descs _ _ S) in Hlen.
  apply list_eq. intros i. rewrite list_lookup_fmap. destruct (decide (i < length (descs u))%nat) as [Hi|Hi].
  - rewrite lookup_seqZ_lt; [lia|]. cbn. unfold D. replace (Z.to_nat (0 + Z.of_nat i)) with i by lia.
    by destruct (lookup_lt_is_Some_2 (descs u) i Hi) as [d ->].
  - rewrite lookup_ge_None_2; [lia|]. by rewrite lookup_seqZ_ge; [lia|].
Qed.

Lemma psum_range u : dense u -> 0 <= psum (descs u) <= capacity g * probe_limit g.
Proof.
  intros [S Hp _ _]. rewrite (list_D u S).
  assert (∀ l, (∀ s, s ∈ l -> in_range s) ->
    0 <= psum (D u <$> l) <= Z.of_nat (length l) * probe_limit g) as H.
  { induction l as [|s l IH]; intros Hl; cbn [fmap list_fmap psum foldr length]; [lia|].
    specialize (IH ltac:(intros s' ?; apply Hl; by right)). specialize (Hp s ltac:(apply Hl; left)).
    unfold psum in IH. lia. }
  specialize (H (seqZ 0 (capacity g))). rewrite length_seqZ in H.
  destruct (capacity_pow g G) as (c & Hc & E). pose proof (Z.pow_pos_nonneg 2 c).
  rewrite Z2Nat.id in H; [lia|]. apply H. intros s ?%elem_of_seqZ. unfold RhsLayout.in_range. lia.
Qed.

(** Two turns make progress: an entry that was put in is not taken out again by the
    next turn. *)
Definition grow_measure u off p : Z :=
  2 * (capacity g * probe_limit g - psum (descs u)) + 2 * (probe_limit g - p) +
  (if probes (D u off) <? p + 1 then 1 else 0).

Lemma grow_place_total fuel u h off p saved :
  dense u -> in_range off -> 0 <= p <= probe_limit g -> saved <> CK_RHS_EMPTY ->
  grow_measure u off p < Z.of_nat fuel ->
  ∃ r, grow_place hs fuel u h off p saved = Some r /\
    match r with
    | Some u' => dense u' /\ ∃ s, in_range s /\ entry (D u s) = CK_RHS_EMPTY
    | None => True
    end.
Proof.
  revert u h off p saved. induction fuel as [|fuel IH]; intros u h off p saved De Hoff Hp Hs Hm.
  { unfold grow_measure in Hm. pose proof (psum_range u De). destruct (_ <? _); lia. }
  pose proof (de_shape _ De) as S. cbn [grow_place]. rewrite (sh_probe_limit _ _ S).
  destruct (Z.eqb_spec p (probe_limit g)) as [E|Hpl]; [by exists None|].
  rewrite (desc_ok g G) //. cbn [mbind option_bind].
  destruct (Z.eqb_spec (entry (D u off)) CK_RHS_EMPTY) as [Hemp|Hfull].
  { unfold store_entry. rewrite (update_ok g G) //. cbn [mbind option_bind].
    set (u1 := set_n_entries _ _). unfold ck_rhs_set_probes.
    assert (shape g u1) as S1 by (by destruct (shape_upd g u off (put_entry saved) S)).
    rewrite (update_ok g G) //. cbn [mbind option_bind]. rewrite u32_small; [lia|].
    set (u2 := upd u1 off (put_probes (p + 1))).
    assert (∀ s, D u2 s = D (upd u off (put_probes (p + 1) ∘ put_entry saved)) s) as D2.
    { intros s. unfold u2, u1, D, upd. cbn. destruct (decide (Z.to_nat off = Z.to_nat s)) as [<-|Hne].
      - rewrite !list_lookup_alter_eq. by destruct (descs u !! _).
      - by rewrite !list_lookup_alter_ne. }
    assert (dense u2) as De2.
    { destruct (dense_upd u off (put_probes (p + 1) ∘ put_entry saved) De Hoff) as [_ A1 A2 A3]; cbn; [lia|lia|].
      split; [by apply shape_upd|..|apply De].
      - intros s Hs'. rewrite D2. by apply A1.
      - intros s Hs'. rewrite D2. by apply A2. }
    destruct (dense_bound_set u2 h (p + 1) De2 ltac:(lia)) as (u3 & -> & De3 & _).
    exists (Some u3). split; [done|]. split; [done|]. by exists off. }
  destruct (Z.ltb_spec (probes (D u off)) (p + 1)) as [Hlt|Hge].
  - unfold store_entry. rewrite (update_ok g G) //. cbn [mbind option_bind].
    set (u1 := upd u off (put_entry saved)).
    pose proof (de_probes _ De off Hoff) as Hq. pose proof (de_entry _ De off Hoff Hfull) as Hq1.
    assert (dense u1) as De1 by (apply dense_upd; cbn; [done|done|lia|lia]).
    destruct (dense_bound_set u1 h (p + 1) De1 ltac:(lia)) as (u2 & -> & De2 & _ & D2).
    cbn [mbind option_bind]. pose proof (de_shape _ De2) as S2.
    assert (∀ s, in_range s -> probes (D u2 s) = probes (D u1 s) /\ entry (D u2 s) = entry (D u1 s)) as F.
    { intros s Hs'. specialize (D2 s Hs'). unfold put_bound in D2. by injection D2. }
    rewrite (probes_ok g G) //. cbn [mbind option_bind]. unfold ck_rhs_set_probes.
    rewrite (update_ok g G) //. cbn [mbind option_bind].
    assert (probes (D u2 off) = probes (D u off)) as ->.
    { destruct (F off Hoff) as [-> _]. unfold u1. by rewrite (D_upd_same g G). }
    rewrite (u32_small (p + 1)); [lia|]. rewrite u32_small; [lia|].
    set (u3 := upd u2 off (put_probes (p + 1))).
    assert (dense u3) as De3.
    { apply dense_upd; cbn; [done|done|lia|lia]. }
    assert (psum (descs u3) = psum (descs u) - probes (D u off) + (p + 1)) as Hsum.
    { unfold u3. rewrite psum_upd //. destruct (F off Hoff) as [-> _]. unfold u1.
      rewrite (D_upd_same g G) //=. enough (psum (descs u2) = psum (descs u)) by lia.
      rewrite (list_D u2) // (list_D u) //.
      assert (∀ l, (∀ s, s ∈ l -> in_range s) -> psum (D u2 <$> l) = psum (D u <$> l)) as H.
      { induction l as [|s l IHl]; intros Hl; [done|]. cbn [fmap list_fmap psum foldr].
        destruct (F s ltac:(apply Hl; left)) as [-> _]. unfold psum in IHl.
        rewrite IHl; [intros ? ?; apply Hl; by right|]. f_equal. unfold u1.
        rewrite (D_upd g G) //; [apply Hl; left|]. by destruct (Z.eqb_spec off s) as [->|]. }
      apply H. intros s ?%elem_of_seqZ. unfold RhsLayout.in_range. lia. }
    destruct (IH u3 (hf hs (entry (D u off)) (seed hs)) off (probes (D u off) - 1) (entry (D u off)))
      as (r & Hr & Hres); [done|done|lia|done| |].
    { revert Hm. unfold grow_measure. rewrite Hsum. unfold u3. rewrite (D_upd_same g G) //=.
      rewrite (proj2 (Z.ltb_ge (p + 1) _)); [lia|]. rewrite (proj2 (Z.ltb_lt _ (p + 1))) //. lia. }
    exists r. split; [done|]. destruct r as [u'|]; [|done]. destruct Hres as (De' & s & Hsr & Hse).
    split; [done|]. exists s. split; [done|]. revert Hse. unfold u3. rewrite (D_upd g G) //.
    destruct (Z.eqb_spec off s) as [<-|Hne]; cbn.
    + destruct (F off Hoff) as [_ ->]. unfold u1. by rewrite (D_upd_same g G).
    + destruct (F s Hsr) as [_ ->]. unfold u1. by rewrite (D_upd_other g G).
  - unfold ck_rhs_wanted_inc. rewrite (update_ok g G) //. cbn [mbind option_bind].
    set (u1 := upd u off _). assert (dense u1) as De1.
    { apply dense_upd; cbn; [done|done|by apply De|]. intros He. by apply De. }
    rewrite (shape_next g); [apply De1|].
    set (off' := ck_rhs_map_probe_next g off (p + 1)).
    assert (in_range off') as Hoff'.
    { unfold off'. rewrite -(slot_of_self g G off Hoff) (probe_next_slot g G); [lia|].
      destruct (_ =? _); apply (slot_of_range g G). }
    destruct (IH u1 h off' (p + 1) saved) as (r & Hr & Hres); [done|done|lia|done| |].
    { revert Hm. unfold grow_measure. unfold u1. rewrite psum_upd //=.
      rewrite (proj2 (Z.ltb_ge _ (p + 1))) //. destruct (_ <? _); lia. }
    exists r. split; [done|]. destruct r as [u'|]; [|done]. destruct Hres as (De' & s & Hsr & Hse).
    split; [done|]. exists s. split; [done|]. revert Hse. unfold u1. rewrite (D_upd g G) //.
    by destruct (Z.eqb_spec off s) as [<-|Hne].
Qed.

(** ** What a placement does *)

(** The walk of a newcomer has found no empty slot so far. *)
Definition busy T h (p : Z) : Prop := ∀ i : nat, Z.of_nat i < p -> is_Some (T !! walk g h i).

Definition roomy T : Prop := ∃ s, in_range s /\ T !! s = None.

Lemma busy_short T h p : roomy T -> busy T h p -> p < capacity g.
Proof.
  intros (s & Hs & HT) Hb. destruct (walk_covers g G h s Hs) as (i & Hi & Hw).
  destruct (decide (Z.of_nat i < p)) as [Hlt|]; [|lia].
  specialize (Hb i Hlt). rewrite Hw HT in Hb. by destruct Hb.
Qed.

(** A newcomer in the slot its walk has reached, whatever was there. *)
Lemma rep_newcomer u T W p k :
  let off := walk g (hash k) (Z.to_nat p) in
  rep u T {[off]} ∅ W -> T !! off = None -> entry (D u off) = k -> probes (D u off) = p + 1 ->
  k <> CK_RHS_EMPTY -> 0 <= p -> p + 1 <= probe_limit g -> p < capacity g -> count T < 65534 ->
  (∀ i : nat, Z.of_nat i < p -> is_Some (T !! walk g (hash k) i) \/ walk g (hash k) i ∈ ({[off]} : gset Z)) ->
  covers g u (hash k) (p + 1) ->
  rep u (<[off := (k, p + 1)]> T) ∅ ∅ W.
Proof.
  intros off P HT He Hp Hk0 Hp0 Hlim Hcap Hfew Hgap Hcov.
  replace (∅ : gset Z) with ({[off]} ∖ {[off]} : gset Z) at 1 by set_solver.
  apply (rep_insert g G hash); try done; try lia.
  - set_solver.
  - by rewrite Z.add_simpl_r.
  - intros i Hi. apply Hgap. lia.
Qed.

Lemma grow_place_ok fuel u T p saved u' :
  rep u T ∅ ∅ (λ s, crossing T s + passes g (hash saved) (p + 1) s) ->
  saved <> CK_RHS_EMPTY -> 0 <= p <= probe_limit g -> busy T (hash saved) p -> roomy T ->
  count T < 65533 ->
  grow_place hs fuel u (hash saved) (walk g (hash saved) (Z.to_nat p)) p saved = Some (Some u') ->
  ∃ T', rep u' T' ∅ ∅ (crossing T') /\ keys T' ≡ₚ saved :: keys T /\
    n_entries u' = u64 (n_entries u + 1).
Proof.
  revert u T p saved. induction fuel as [|fuel IH]; intros u T p saved P Hs0 Hp Hbusy Hroom Hfew; [done|].
  pose proof (rep_shape _ _ _ _ _ _ _ P) as S. cbn [grow_place]. rewrite (sh_probe_limit _ _ S).
  set (off := walk g (hash saved) (Z.to_nat p)). pose proof (walk_in_range g G (hash saved) (Z.to_nat p)) as Hoff.
  fold off in Hoff. pose proof (busy_short T _ _ Hroom Hbusy) as Hpc.
  destruct (Z.eqb_spec p (probe_limit g)) as [E|Hpl]; [done|].
  rewrite (desc_ok g G) //. cbn [mbind option_bind].
  destruct (Z.eqb_spec (entry (D u off)) CK_RHS_EMPTY) as [Hemp|Hfull].
  - assert (T !! off = None) as HT.
    { destruct (T !! off) as [x|] eqn:E; [|done].
      destruct (proj2 (rep_nonempty g _ _ _ _ _ _ off P Hoff)); [by left; eauto|done]. }
    unfold store_entry. rewrite (update_ok g G) //. cbn [mbind option_bind].
    set (u1 := upd u off (put_entry saved)).
    assert (rep u1 T ({[off]} ∪ ∅) ∅ (λ s, crossing T s + passes g (hash saved) (p + 1) s)) as P1
      by by apply rep_hole.
    apply (rep_set_n_entries g G hash _ _ _ _ _ (u64 (n_entries u1 + 1))) in P1.
    set (u2 := set_n_entries u1 _) in *. unfold ck_rhs_set_probes.
    pose proof (rep_shape _ _ _ _ _ _ _ P1) as S2.
    rewrite (update_ok g G) //. cbn [mbind option_bind]. rewrite u32_small; [lia|].
    apply (rep_stale_upd g G _ _ _ _ _ _ off (put_probes (p + 1))) in P1; [|set_solver|done|].
    2:{ by apply (rep_stale _ _ _ _ _ _ _ P1); set_solver. }
    set (u3 := upd u2 off _) in *.
    destruct (rep_bound_set g G hash u3 T _ _ _ (hash saved) (p + 1) P1) as (u4 & -> & P4 & C4 & N4 & D4);
      [lia|unfold UINT_MAX; lia|]. cbn [mbind option_bind]. intros [= <-].
    specialize (D4 off Hoff). unfold put_bound in D4.
    assert (D u3 off = put_probes (p + 1) (put_entry saved (D u off))) as D3.
    { unfold u3. rewrite (D_upd_same g G) //. f_equal. unfold u2, u1. by apply (D_upd_same g G). }
    rewrite D3 in D4. injection D4 as E1 E2 E3 E4.
    exists (<[off := (saved, p + 1)]> T). split_and!.
    + apply rep_weaken_W with (λ s, crossing T s + passes g (hash saved) (p + 1) s).
      2:{ intros s Hs. rewrite crossing_insert //. lia. }
      replace ({[off]} ∪ ∅ : gset Z) with ({[off]} : gset Z) in P4 by set_solver.
      apply rep_newcomer; try done; try lia. intros i Hi. left. by apply Hbusy.
    + by apply keys_insert.
    + done.
  - destruct (T !! off) as [[k q]|] eqn:HT.
    2:{ apply (rep_nonempty g _ _ _ _ _ _ off P Hoff) in Hfull as [[x Hx]|Hx]; [congruence|set_solver]. }
    pose proof (rep_slot _ _ _ _ _ _ _ P off Hoff ltac:(set_solver)) as Ho. rewrite HT in Ho.
    destruct Ho as [Hoe Hoq].
    destruct (pl_slot _ _ _ (rep_placed _ _ _ _ _ _ _ P) _ _ _ HT) as (Hk0 & Hq & Hql & Hwk).
    rewrite Hoq. destruct (Z.ltb_spec q (p + 1)) as [Hlt|Hge].
    + (* the newcomer takes the slot *)
      unfold store_entry. rewrite (update_ok g G) //. cbn [mbind option_bind].
      set (u1 := upd u off (put_entry saved)). set (W := λ s, _) in P.
      pose proof (rep_delete g G hash _ _ _ _ _ off k q P HT) as P0.
      assert (rep u1 (delete off T) ({[off]} ∪ ({[off]} ∪ ∅)) ∅ W) as P1 by by apply rep_hole.
      destruct (rep_bound_set g G hash u1 _ _ _ _ (hash saved) (p + 1) P1) as (u2 & -> & P2 & C2 & N2 & D2);
        [lia|unfold UINT_MAX; lia|]. cbn [mbind option_bind].
      pose proof (rep_shape _ _ _ _ _ _ _ P2) as S2.
      rewrite (probes_ok g G) //. cbn [mbind option_bind]. unfold ck_rhs_set_probes.
      rewrite (update_ok g G) //. cbn [mbind option_bind].
      specialize (D2 off Hoff). unfold put_bound in D2.
      assert (D u1 off = put_entry saved (D u off)) as D1 by (by apply (D_upd_same g G)).
      rewrite D1 in D2. injection D2 as E1 E2 E3 E4. cbn in E1, E4. rewrite E1 Hoq.
      rewrite (u32_small (p + 1)); [lia|]. rewrite (u32_small (q - 1)); [lia|].
      set (u3 := upd u2 off (put_probes (p + 1))). rewrite Hoe.
      assert (D u3 off = put_probes (p + 1) (D u2 off)) as D3 by (by apply (D_upd_same g G)).
      assert (rep u3 (delete off T) {[off]} ∅ W) as P3.
      { replace ({[off]} : gset Z) with ({[off]} ∪ ({[off]} ∪ ∅) : gset Z) by set_solver.
        apply (rep_stale_upd g G); try done; [set_solver|]. cbn. by rewrite E4. }
      pose proof (lookup_delete_eq T off) as Hdel.
      pose proof (count_delete T off _ HT) as Hcd.
      set (T1 := <[off := (saved, p + 1)]> (delete off T)).
      assert (∀ s, is_Some (T !! s) -> is_Some (T1 !! s)) as Hmono.
      { intros s Hs. unfold T1. destruct (decide (off = s)) as [<-|Hne]; [by rewrite lookup_insert_eq|].
        by rewrite lookup_insert_ne // lookup_delete_ne. }
      assert (rep u3 T1 ∅ ∅ (λ s, crossing T1 s + passes g (hash k) (q - 1 + 1) s)) as P4.
      { eapply rep_weaken_W with W.
        - apply rep_newcomer; try done; try lia; [by rewrite D3|by rewrite D3|..].
          + intros i Hi. destruct (decide (walk g (hash saved) i = off)) as [->|Hne]; [right; set_solver|].
            left. rewrite lookup_delete_ne //. by apply Hbusy.
          + destruct C2 as [C2a C2b]. split; [done|]. intros Hrm.
            replace (probe_bound (D u3 (home g (hash saved)))) with (probe_bound (D u2 (home g (hash saved))));
              [by apply C2b|]. unfold u3. rewrite (D_upd g G) //; [apply (home_in_range g G)|].
            by destruct (Z.eqb_spec off (home g (hash saved))) as [->|].
        - intros s Hs. unfold W, T1. rewrite crossing_insert //.
          rewrite (crossing_delete _ _ _ _ _ _ _ HT) Z.sub_add. lia. }
      intros Hg. change (hf hs k (seed hs)) with (hash k) in Hg.
      assert (off = walk g (hash k) (Z.to_nat (q - 1))) as Hoff' by done. rewrite Hoff' in Hg.
      destruct (IH u3 T1 (q - 1) k) as (T' & P' & Hk' & Hn'); [done|done|lia| | | |done|].
      * intros i Hi. apply Hmono. destruct (rep_no_gap _ _ _ _ _ _ _ P off k q i HT Hi); [done|set_solver].
      * destruct Hroom as (s & Hs & Hn). exists s. split; [done|]. unfold T1.
        assert (off <> s) by congruence. by rewrite lookup_insert_ne // lookup_delete_ne.
      * unfold T1. rewrite count_insert //. lia.
      * exists T'. split_and!; [done| |].
        -- rewrite Hk' /T1 keys_insert // (keys_delete T off k q) //. apply Permutation_swap.
        -- rewrite Hn'. do 2 f_equal. unfold u3. exact N2.
    + (* the newcomer walks on *)
      unfold ck_rhs_wanted_inc. rewrite (update_ok g G) //. cbn [mbind option_bind].
      set (u1 := upd u off _).
      assert (rep u1 T ∅ ∅ (λ s, crossing T s + passes g (hash saved) (p + 1 + 1) s)) as P1.
      { apply (rep_same_but_wanted g G hash u _ _ _ _ _ _ P).
        - unfold u1. by apply (same_but_wanted_upd g G).
        - intros s Hs. rewrite passes_succ; [lia|]. rewrite Z.add_simpl_r. fold off.
          unfold u1. rewrite (D_upd g G) //. destruct (Z.eqb_spec off s) as [<-|Hne].
          + cbn. rewrite (rep_wanted _ _ _ _ _ _ _ P) //.
            pose proof (crossing_nonneg g hash T off).
            assert (crossing T off <= count T).
            { apply (crossing_le g G). intros s' k' p' Hk'.
              destruct (pl_slot _ _ _ (rep_placed _ _ _ _ _ _ _ P) _ _ _ Hk') as (_ & ? & _). lia. }
            pose proof (passes_nonneg g (hash saved) (p + 1) off).
            pose proof (passes_le_one g G (hash saved) (p + 1) off ltac:(lia)).
            unfold u16. rewrite Z.mod_small; lia.
          + rewrite (rep_wanted _ _ _ _ _ _ _ P) //. lia. }
      rewrite (shape_next g); [apply P1|].
      assert (ck_rhs_map_probe_next g off (p + 1) = walk g (hash saved) (Z.to_nat (p + 1))) as ->.
      { replace (Z.to_nat (p + 1)) with (Datatypes.S (Z.to_nat p)) by lia. cbn [walk]. fold off.
        f_equal. lia. }
      apply (IH u1 T (p + 1) saved); try done; [lia|]. intros i Hi. destruct (decide (i = Z.to_nat p)) as [->|Hne].
      * fold off. rewrite HT. by eauto.
      * apply Hbusy. lia.
Qed.
End grow.

(** ** Rehashing *)

Section rehash.
Context (g : ck_rhs_map) (G : geometry g) (hs : ck_rhs).
Context (Hlimit : 0 < probe_limit g < 2 ^ 31) (Hcapacity : capacity g <= 2 ^ 31).
Implicit Types (u : ck_rhs_map) (T : layout).

Abbreviation hash := (rhs_hash hs).
Abbreviation resting u T := (rep g hash u T ∅ ∅ (crossing g hash T)).

Lemma rep_dense u T R W : rep g hash u T ∅ R W -> dense g u.
Proof.
  intros P. split; [apply P|..|apply P].
  - intros s Hs. pose proof (rep_slot _ _ _ _ _ _ _ P s Hs ltac:(set_solver)) as Ho.
    destruct (T !! s) as [[k p]|] eqn:HT; destruct Ho as [_ ->]; [|lia].
    destruct (pl_slot _ _ _ (rep_placed _ _ _ _ _ _ _ P) _ _ _ HT) as (_ & ? & ? & _). lia.
  - intros s Hs He. pose proof (rep_slot _ _ _ _ _ _ _ P s Hs ltac:(set_solver)) as Ho.
    destruct (T !! s) as [[k p]|] eqn:HT; destruct Ho as [? ->]; [|done].
    destruct (pl_slot _ _ _ (rep_placed _ _ _ _ _ _ _ P) _ _ _ HT) as (_ & ? & ? & _). lia.
Qed.

Lemma rehash_rhs_ok slots u T :
  resting u T -> n_entries u = count T ->
  count T + Z.of_nat (length (filter (λ k, k <> CK_RHS_EMPTY) (entry <$> slots))) < 65534 ->
  ∃ r, rehash hs u slots = Some r /\
    match r with
    | Some u' => ∃ T', resting u' T' /\ n_entries u' = count T' /\
        keys T' ≡ₚ filter (λ k, k <> CK_RHS_EMPTY) (entry <$> slots) ++ keys T
    | None => True
    end.
Proof.
  revert u T. induction slots as [|d slots IH]; intros u T P Hn Hfew; cbn [rehash].
  { exists (Some u). split; [done|]. by exists T. }
  rewrite fmap_cons filter_cons in Hfew |- *.
  destruct (Z.eqb_spec (entry d) CK_RHS_EMPTY) as [He|He].
  { rewrite decide_False in Hfew |- *; [naive_solver..|]. by apply IH. }
  rewrite decide_True // in Hfew |- *. rewrite length_cons in Hfew.
  change (hf hs (entry d) (seed hs)) with (hash (entry d)).
  pose proof (rep_shape _ _ _ _ _ _ _ P) as S. pose proof (rep_dense u T _ _ P) as De.
  rewrite (sh_mask _ _ S). change (Z.land (hash (entry d)) (mask g)) with (walk g (hash (entry d)) (Z.to_nat 0)).
  destruct (grow_place_total g G hs Hlimit (grow_fuel u) u (hash (entry d))
    (walk g (hash (entry d)) (Z.to_nat 0)) 0 (entry d) De) as (r & Hr & Hres);
    [by apply walk_in_range|lia|done| |].
  { unfold grow_fuel, grow_measure. rewrite (sh_capacity _ _ S) (sh_probe_limit _ _ S).
    pose proof (psum_range g G u De) as Hps. destruct (_ <? _); nia. }
  rewrite Hr. cbn [mbind option_bind]. destruct r as [u1|]; [|by exists None].
  destruct Hres as (_ & s & Hs & Hse).
  destruct (grow_place_ok g G hs Hlimit Hcapacity (grow_fuel u) u T 0 (entry d) u1)
    as (T1 & P1 & Hk1 & Hn1); [|done|lia|intros i Hi; lia| |lia|done|].
  - eapply rep_weaken_W; [exact P|]. intros s' Hs'. rewrite passes_one. lia.
  - exists s. split; [done|]. destruct (T !! s) as [x|] eqn:E; [|done].
    destruct (proj2 (rep_nonempty g _ _ _ _ _ _ s P Hs)); [by left; eauto|done].
  - assert (count T1 = count T + 1) as Hc1 by (rewrite !keys_length Hk1 /=; lia).
    destruct (IH u1 T1 P1) as (r & Hr1 & Hres); [|lia|].
    { rewrite Hn1 Hn Hc1. unfold u64. rewrite Z.mod_small; lia. }
    exists r. split; [done|]. destruct r as [u2|]; [|done]. destruct Hres as (T2 & P2 & Hn2 & Hk2).
    exists T2. split_and!; [done..|]. rewrite Hk2 Hk1. by rewrite -Permutation_middle.
Qed.
End rehash.
