(* ===== verification/RhsWf.v ===== *)
(** [ck_rhs]: the invariant of a set, creation of a map, and growth as a whole. *)

From S2P Require Export RhsGrow.
Set Warnings "-rewrite-rw,-clear-no-such-hyp".

(** The dimensions of a map that [ck_rhs_map_create] made. *)
Record dimensions (g : ck_rhs_map) : Prop := {
  dm_geometry : geometry g;
  dm_limit : 64 <= probe_limit g < 2 ^ 31;
  dm_capacity : ∃ k, 3 <= k <= 31 /\ capacity g = 2 ^ k;
  dm_size : 16 * capacity g <= size g;
}.

Lemma dimensions_limit g : dimensions g -> 0 < probe_limit g < 2 ^ 31.
Proof. intros []. lia. Qed.

Lemma dimensions_limit' g : dimensions g -> 0 <= probe_limit g < 2 ^ 31.
Proof. intros []. lia. Qed.

Lemma dimensions_uint g : dimensions g -> probe_limit g <= UINT_MAX.
Proof. intros []. unfold UINT_MAX. lia. Qed.

Lemma dimensions_capacity g : dimensions g -> capacity g <= 2 ^ 31.
Proof.
  intros [_ _ (k & Hk & ->) _]. apply Z.pow_le_mono_r; lia.
Qed.

#[export] Hint Resolve dm_geometry dimensions_limit dimensions_limit' dimensions_uint
  dimensions_capacity : ck.

(** What growth and the initialisation leave unchanged. *)
Definition same_callbacks (hs hs' : ck_rhs) : Prop :=
  mode hs' = mode hs /\ load_factor hs' = load_factor hs /\ seed hs' = seed hs /\
  hf hs' = hf hs /\ compare hs' = compare hs.

Lemma same_callbacks_refl hs : same_callbacks hs hs.
Proof. by split_and!. Qed.

Lemma same_callbacks_trans a b c : same_callbacks a b -> same_callbacks b c -> same_callbacks a c.
Proof. unfold same_callbacks. intuition congruence. Qed.

Lemma same_callbacks_hash hs hs' : same_callbacks hs hs' -> rhs_hash hs' = rhs_hash hs.
Proof. intros (_ & _ & H1 & H2 & _). unfold rhs_hash. by rewrite H1 H2. Qed.

Lemma same_callbacks_keq hs hs' : same_callbacks hs hs' -> rhs_keq hs' = rhs_keq hs.
Proof. intros (_ & _ & _ & _ & H). unfold rhs_keq. by rewrite H. Qed.

Lemma same_callbacks_keys hs hs' : same_callbacks hs hs' -> rhs_keys_ok hs -> rhs_keys_ok hs'.
Proof.
  intros S [K1 K2 K3]. pose proof (same_callbacks_keq _ _ S) as E.
  destruct S as (_ & _ & H1 & H2 & _). split.
  - intros k1 k2. rewrite E. apply K1.
  - intros k1 k2 k3. rewrite E. apply K2.
  - intros k1 k2. rewrite E H1 H2. apply K3.
Qed.

(** ** The entries of a map *)

Lemma live_entries_same mp mp' :
  entry <$> descs mp' = entry <$> descs mp -> live_entries mp' = live_entries mp.
Proof. unfold live_entries. by intros ->. Qed.

Section contents.
Context (g : ck_rhs_map) (G : geometry g).

Lemma same_entries_live mp mp' :
  shape g mp -> shape g mp' -> (∀ s, in_range g s -> entry (D mp' s) = entry (D mp s)) ->
  live_entries mp' = live_entries mp.
Proof.
  intros S S' H. apply live_entries_same.
  rewrite (list_D g G _ S) (list_D g G _ S').
  assert (∀ s, s ∈ seqZ 0 (capacity g) -> in_range g s) as Hr.
  { intros s Hs%elem_of_seqZ. unfold in_range. lia. }
  induction (seqZ 0 (capacity g)) as [|s l IH]; [done|]. rewrite !fmap_cons H; [apply Hr; left|].
  rewrite IH; [intros; apply Hr; by right|done].
Qed.

(** The slots of a layout, in slot order. *)
Lemma layout_list hash T : placed g hash T ->
  map_to_list T ≡ₚ (λ s, (s, default (0, 0) (T !! s))) <$>
    filter (λ s, is_Some (T !! s)) (seqZ 0 (capacity g)).
Proof.
  intros Pl. apply NoDup_Permutation.
  - apply NoDup_map_to_list.
  - apply NoDup_fmap_2; [by intros s s' [= ->]|]. apply NoDup_filter, NoDup_seqZ.
  - intros [s x]. rewrite elem_of_map_to_list list_elem_of_fmap. split.
    + intros HT. exists s. rewrite HT. split; [done|]. apply list_elem_of_filter. split; [by eexists|].
      destruct x as [k p]. pose proof (placed_range g G hash T s k p Pl HT) as Hs.
      apply elem_of_seqZ. unfold in_range in Hs. lia.
    + intros (s' & [= -> ->] & Hs). apply list_elem_of_filter in Hs as [[y Hy] _]. by rewrite Hy.
Qed.

(** The entries of a map are those of its layout. *)
Lemma live_entries_layout hash mp T :
  shape g mp -> placed g hash T ->
  (∀ s, in_range g s -> entry (D mp s) = default CK_RHS_EMPTY (fst <$> T !! s)) ->
  live_entries mp ≡ₚ keys T.
Proof.
  intros Sh Pl Hslot. unfold live_entries, keys. rewrite (list_D g G _ Sh) -list_fmap_compose.
  set (occ := filter (λ s, is_Some (T !! s)) (seqZ 0 (capacity g))).
  assert (filter (λ k, k <> CK_RHS_EMPTY) ((entry ∘ D mp) <$> seqZ 0 (capacity g)) =
          (λ s, default 0 (fst <$> T !! s)) <$> occ) as ->.
  { unfold occ. assert (∀ s, s ∈ seqZ 0 (capacity g) -> in_range g s) as Hr.
    { intros s Hs%elem_of_seqZ. unfold in_range. lia. }
    induction (seqZ 0 (capacity g)) as [|s l IH]; [done|]. rewrite fmap_cons !filter_cons.
    change ((entry ∘ D mp) s) with (entry (D mp s)).
    assert (∀ s, s ∈ l -> in_range g s) as Hl by (intros; apply Hr; by right).
    rewrite (Hslot s (Hr s ltac:(left))). destruct (T !! s) as [[k p]|] eqn:HT; cbn.
    - destruct (pl_slot _ _ _ Pl _ _ _ HT) as (Hk & _).
      rewrite decide_True; [done|]. rewrite IH; [done|].
      destruct (decide (is_Some (Some (k, p)))) as [|[]]; [|by eexists].
      rewrite fmap_cons. cbn. by rewrite HT.
    - destruct (decide (CK_RHS_EMPTY <> CK_RHS_EMPTY)) as [[]|]; [done|].
      destruct (decide (is_Some None)) as [[? ?]|]; [done|]. by apply IH. }
  rewrite (layout_list hash T Pl). fold occ.
  rewrite -!list_fmap_compose. apply Permutation_refl', list_fmap_ext. intros i s Hi.
  apply list_elem_of_lookup_2, list_elem_of_filter in Hi as [[y Hy] _]. cbn. by rewrite Hy.
Qed.

Lemma live_entries_keys hash mp T R W :
  rep g hash mp T ∅ R W -> live_entries mp ≡ₚ keys T.
Proof.
  intros P. apply (live_entries_layout hash); [apply P..|]. intros s Hs.
  pose proof (rep_slot _ _ _ _ _ _ _ P s Hs ltac:(set_solver)) as Ho.
  by destruct (T !! s) as [[k p]|]; destruct Ho as [-> _].
Qed.
End contents.

(** ** Creation *)

Lemma map_capacity_rounded e : ck_rhs_map_capacity e = rounded e.
Proof.
  unfold ck_rhs_map_capacity, rounded. change CK_RHS_PROBE_L1 with 8.
  destruct (Z.ltb_spec (ck_internal_power_2 e) 8); lia.
Qed.

Lemma rounded_rounded e : rounded (rounded e) = rounded e.
Proof. destruct (rounded_pow2 e) as (k & Hk & ->). by rewrite rounded_id. Qed.

(** A requested capacity is rounded before anything is done with it. *)
Lemma map_size_rounded mode e : ck_rhs_map_size mode (rounded e) = ck_rhs_map_size mode e.
Proof. unfold ck_rhs_map_size. by rewrite !map_capacity_rounded rounded_rounded. Qed.

Lemma map_init_dimensions hs e : dimensions (ck_rhs_map_init hs e).
Proof.
  unfold ck_rhs_map_init. rewrite map_capacity_rounded map_size_rounded.
  destruct (rounded_pow2 e) as (k & Hk & E). rewrite E.
  pose proof (Z.pow_le_mono_r 2 k 31 ltac:(lia) ltac:(lia)) as Hhi.
  pose proof (Z.pow_le_mono_r 2 3 k ltac:(lia) ltac:(lia)) as Hlo.
  split; cbn.
  - split; cbn.
    + unfold line, CK_MD_CACHELINE, sizeof_ck_rhs_entry_desc; cbn. destruct (is_read_mostly _).
      * exists 3. split; [lia|done].
      * exists 2. split; [lia|done].
    + unfold line, CK_MD_CACHELINE, sizeof_ck_rhs_entry_desc; cbn. destruct (is_read_mostly _).
      * exists (k - 3). split; [lia|]. change (64 / 8 - 1 + 1) with (2 ^ 3).
        rewrite -Z.pow_add_r; [lia..|]. f_equal. lia.
      * exists (k - 2). split; [lia|]. change (64 / 16 - 1 + 1) with (2 ^ 2).
        rewrite -Z.pow_add_r; [lia..|]. f_equal. lia.
    + done.
    + rewrite length_replicate. lia.
  - change (CK_RHS_PROBE_L1_SHIFT + 2) with 5. rewrite Z.shiftr_div_pow2; [lia|].
    assert (0 <= 2 ^ k / 2 ^ 5 <= 2 ^ 26) as Hd.
    { split; [apply Z.div_pos; lia|]. apply Z.div_le_upper_bound; [lia|].
      rewrite -Z.pow_add_r; [lia..|]. exact Hhi. }
    rewrite ck_internal_max_spec; [lia|unfold CK_RHS_PROBE_L1_DEFAULT, CK_MD_CACHELINE; lia|].
    unfold CK_RHS_PROBE_L1_DEFAULT, CK_MD_CACHELINE, UINT_MAX. destruct (Z.ltb_spec 4294967295 (Z.max (2 ^ k / 2 ^ 5) 64)); lia.
  - exists k. split; [lia|done].
  - unfold ck_rhs_map_size. rewrite map_capacity_rounded E.
    unfold sizeof_ck_rhs_map, sizeof_ck_rhs_entry_desc, sizeof_ck_rhs_no_entry_desc, CK_MD_CACHELINE.

    destruct (is_read_mostly _); unfold u64; rewrite Z.mod_small; lia.
Qed.

Lemma count_empty : count (∅ : layout) = 0.
Proof. by rewrite map_to_list_empty. Qed.

Lemma D_init hs e s : D (ck_rhs_map_init hs e) s = empty_desc.
Proof.
  unfold D, ck_rhs_map_init. cbn.
  destruct (replicate _ empty_desc !! Z.to_nat s) as [d|] eqn:E; [|done].
  by apply lookup_replicate in E as [-> _].
Qed.

(** A new map is empty. *)
Lemma rep_init hash hs e :
  let g := ck_rhs_map_init hs e in rep g hash g ∅ ∅ ∅ (crossing g hash ∅).
Proof.
  intros g. pose proof (map_init_dimensions hs e) as Dm. fold g in Dm.
  pose proof (dm_limit _ Dm) as Hlim. split.
  - apply shape_refl.
  - intros s _ _. rewrite lookup_empty. unfold g. by rewrite D_init.
  - intros s Hs. clear -Hs. set_solver.
  - intros s _. unfold g. rewrite D_init. symmetry. apply bool_decide_eq_false. clear. set_solver.
  - intros s _. unfold g. by rewrite D_init.
  - split; [intros s k p H; by rewrite lookup_empty in H|]. rewrite count_empty. lia.
  - intros s k p i H. by rewrite lookup_empty in H.
  - intros s k p H. by rewrite lookup_empty in H.
  - change (probe_maximum g) with 0. lia.
  - intros s _. assert (D g s = empty_desc) as -> by apply D_init. cbn [probe_bound empty_desc]. unfold CK_RHS_WORD_MAX. lia.
Qed.

(** * The invariant *)

Section wf.
Context (malloc_ok : heap -> Z -> bool).
Implicit Types (hs : ck_rhs) (T : layout).

(** The memory of a set is that of its map, which the allocator granted. *)
Definition owns hs (sz : Z) : Prop :=
  outstanding (m hs) = sz /\ ∃ h, malloc_ok h sz = true.

(** The map of [hs] has dimensions [g] and holds the entries of [T]; probe counts,
    counters of passing walks, bounds and the number of entries agree with it. *)
Record rhs_wf hs (g : ck_rhs_map) T : Prop := {
  rw_dimensions : dimensions g;
  rw_rep : rep g (rhs_hash hs) (map hs) T ∅ ∅ (crossing g (rhs_hash hs) T);
  rw_n_entries : n_entries (map hs) = count T;
  rw_owns : owns hs (size g);
}.

(** What growth needs of the old map: its entries may be in the middle of a
    displacement. *)
Record growable hs (g : ck_rhs_map) (l : list Z) : Prop := {
  gr_dimensions : dimensions g;
  gr_shape : shape g (map hs);
  gr_live : live_entries (map hs) ≡ₚ l;
  gr_owns : owns hs (size g);
}.

Lemma wf_growable hs g T : rhs_wf hs g T -> growable hs g (keys T).
Proof.
  intros [Dm P N O]. split; [done|apply P| |done].
  eapply live_entries_keys; [apply Dm|exact P].
Qed.

Lemma growable_set_m hs g l h :
  growable hs g l -> outstanding h = outstanding (m hs) -> growable (set_m hs h) g l.
Proof. intros [Dm S L [O1 O2]] Hh. split; [done..|]. split; [cbn; congruence|done]. Qed.

Lemma create_rhs_ok hs e :
  match ck_rhs_map_create malloc_ok hs e with
  | (Some g, h1) =>
      g = ck_rhs_map_init hs e /\ dimensions g /\ capacity g = rounded e /\
      outstanding h1 = size g + outstanding (m hs) /\ malloc_ok (m hs) (size g) = true
  | (None, h1) => alloc_failed h1 /\ outstanding h1 = outstanding (m hs)
  end.
Proof.
  unfold ck_rhs_map_create. destruct (malloc malloc_ok _ _) as [ok h1] eqn:Hm.
  pose proof (outstanding_malloc malloc_ok (m hs) (ck_rhs_map_size (mode hs) e)) as Ho.
  rewrite Hm /= in Ho. unfold malloc in Hm. injection Hm as Hok Hh.
  assert (size (ck_rhs_map_init hs e) = ck_rhs_map_size (mode hs) e) as Hsz.
  { cbn. by rewrite map_capacity_rounded map_size_rounded. }
  destruct ok.
  - split_and!; [done|apply map_init_dimensions| |by rewrite Hsz|by rewrite Hsz].
    cbn. apply map_capacity_rounded.
  - split; [|done]. rewrite -Hh Hok. unfold alloc_failed. eauto.
Qed.

(** ** Growth *)

(** Growth terminates whatever the hash function does; on success the new map holds
    the entries of the old one, on failure the old map is left as it was. *)
Lemma rhs_grow_loop_ok fuel j hs g l cap :
  growable hs g l -> Z.of_nat (length l) < 65534 ->
  0 <= j <= 64 -> 0 <= cap < 2 ^ 64 -> (2 ^ (64 - j) | cap) -> j < Z.of_nat fuel ->
  ∃ b hs', grow_loop malloc_ok fuel hs cap = Some (b, hs') /\ same_callbacks hs hs' /\
    if b : bool then ∃ g' T', rhs_wf hs' g' T' /\ keys T' ≡ₚ l
    else map hs' = map hs /\ growable hs' g l.
Proof.
  revert j hs cap. induction fuel as [|fuel IH]; intros j hs cap W Hl Hj Hcap Hdiv Hf; [lia|].
  cbn [grow_loop]. destruct (Z.ltb_spec cap (capacity (map hs))) as [Hlt|Hge].
  { exists false, hs. by split_and!. }
  pose proof (create_rhs_ok hs cap) as Hc.
  destruct (ck_rhs_map_create malloc_ok hs cap) as [[u|] h1]; last first.
  { destruct Hc as [_ Hh]. exists false, (set_m hs h1). split_and!; [done..|]. by apply growable_set_m. }
  destruct Hc as (Eu & Dm & Hcu & Hout & Hal).
  pose proof W as [Dg Sg Hlive [O1 O2]].
  assert (length (filter (λ k, k <> CK_RHS_EMPTY) (entry <$> descs (map hs))) = length l) as Hlen
    by by rewrite -Hlive.
  destruct (rehash_rhs_ok u (dm_geometry _ Dm) hs (dimensions_limit _ Dm) (dimensions_capacity _ Dm)
    (descs (map hs)) u ∅) as (r & Hr & Hres).
  { rewrite Eu. apply rep_init. }
  { rewrite count_empty. by rewrite Eu. }
  { rewrite count_empty Hlen. lia. }
  rewrite Hr. cbn [mbind option_bind]. destruct r as [u'|].
  - destruct Hres as (T' & P' & Hn' & Hk'). eexists true, _. split; [done|]. split; [done|].
    exists u, T'. split.
    + split; [done|exact P'|exact Hn'|]. split; [|by eexists]. cbn. rewrite (sh_size _ _ Sg). lia.
    + rewrite Hk'. unfold keys. rewrite map_to_list_empty app_nil_r. exact Hlive.
  - assert (j <> 0) as Hj0.
    { intros ->. rewrite Z.sub_0_r in Hdiv. destruct Hdiv as [c Hdiv].
      assert (c = 0) as -> by lia. destruct (dm_capacity _ Dg) as (k & Hk & Ek).
      rewrite (sh_capacity _ _ Sg) Ek in Hge. pose proof (Z.pow_pos_nonneg 2 k). lia. }
    set (hs1 := set_m hs (ck_rhs_map_destroy h1 u false)).
    destruct (IH (j - 1) hs1 (u64 (Z.shiftl cap 1))) as (b & hs' & Hg & Hp & Hb);
      [|done|lia|apply u64_range| |lia|].
    { apply growable_set_m; [done|]. cbn. lia. }
    { apply double_divide; [lia| |lia]. by replace (64 - (j - 1 + 1)) with (64 - j) by lia. }
    exists b, hs'. by split_and!.
Qed.

Lemma ck_rhs_grow_ok hs g l cap :
  growable hs g l -> Z.of_nat (length l) < 65534 -> 0 <= cap < 2 ^ 64 ->
  ∃ b hs', ck_rhs_grow malloc_ok hs cap = Some (b, hs') /\ same_callbacks hs hs' /\
    if b : bool then ∃ g' T', rhs_wf hs' g' T' /\ keys T' ≡ₚ l
    else map hs' = map hs /\ growable hs' g l.
Proof.
  intros W Hl Hc. apply (rhs_grow_loop_ok _ 64); [done|done|lia|done| |lia].
  change (2 ^ (64 - 64)) with 1. apply Z.divide_1_l.
Qed.

Hypothesis Hlimited : malloc_limited malloc_ok.

Lemma rhs_capacity_limited hs g : owns hs (size g) -> dimensions g -> ∃ k, 3 <= k <= 29 /\ capacity g = 2 ^ k.
Proof.
  intros [_ [h Hh]] [_ _ (k & Hk & Ek) Hsz]. exists k. split; [|done]. split; [lia|].
  destruct (decide (k <= 29)) as [|Hgt]; [done|].
  rewrite Hlimited in Hh; [|done]. pose proof (Z.pow_le_mono_r 2 30 k ltac:(lia) ltac:(lia)). lia.
Qed.

Lemma rhs_grow_loop_limited fuel hs g l j b hs' :
  growable hs g l -> Z.of_nat (length l) < 65534 -> 3 <= j <= 31 -> capacity g <= 2 ^ j ->
  grow_loop malloc_ok fuel hs (2 ^ j) = Some (b, hs') ->
  match b with true => 2 ^ j <= capacity (map hs') | false => alloc_failed (m hs') end.
Proof.
  revert j hs. induction fuel as [|fuel IH]; intros j hs W Hl Hj Hcap; [done|]. cbn [grow_loop].
  rewrite (sh_capacity _ _ (gr_shape _ _ _ W)) (proj2 (Z.ltb_ge _ _)) //.
  pose proof (create_rhs_ok hs (2 ^ j)) as Hc.
  destruct (ck_rhs_map_create malloc_ok hs (2 ^ j)) as [[u|] h1]; last first.
  { intros [= <- <-]. apply Hc. }
  destruct Hc as (Eu & Dm & Hcu & Hout & Hal). rewrite rounded_id // in Hcu.
  assert (j <= 29) as Hj29.
  { destruct (decide (j <= 29)) as [|Hgt]; [done|].
    rewrite Hlimited in Hal; [|done]. pose proof (dm_size _ Dm).
    pose proof (Z.pow_le_mono_r 2 30 j ltac:(lia) ltac:(lia)). lia. }
  assert (length (filter (λ k, k <> CK_RHS_EMPTY) (entry <$> descs (map hs))) = length l) as Hlen
    by by rewrite -(gr_live _ _ _ W).
  destruct (rehash_rhs_ok u (dm_geometry _ Dm) hs (dimensions_limit _ Dm) (dimensions_capacity _ Dm)
    (descs (map hs)) u ∅) as (r & Hr & Hres).
  { rewrite Eu. apply rep_init. }
  { rewrite count_empty. by rewrite Eu. }
  { rewrite count_empty Hlen. lia. }
  rewrite Hr. cbn [mbind option_bind]. destruct r as [u'|].
  - intros [= <- <-]. cbn. destruct Hres as (T' & P' & _).
    rewrite (sh_capacity _ _ (rep_shape _ _ _ _ _ _ _ P')). lia.
  - replace (u64 (Z.shiftl (2 ^ j) 1)) with (2 ^ (j + 1)).
    + intros Hg. apply IH in Hg; [|apply growable_set_m; [done|cbn; lia]|done|lia|].
      * destruct b; [|done]. pose proof (Z.pow_le_mono_r 2 j (j + 1)). lia.
      * pose proof (Z.pow_le_mono_r 2 j (j + 1)). lia.
    + rewrite Z.shiftl_mul_pow2 // Z.pow_add_r; [lia|lia|].
      pose proof (Z.pow_le_mono_r 2 j 30). unfold u64. rewrite Z.mod_small; lia.
Qed.

(** What the operations rely on when they ask for twice the capacity. *)
Lemma rhs_grow_double hs g l :
  growable hs g l -> Z.of_nat (length l) < 65534 ->
  ∃ b hs', ck_rhs_grow malloc_ok hs (u64 (Z.shiftl (capacity (map hs)) 1)) = Some (b, hs') /\
    same_callbacks hs hs' /\
    if b : bool then ∃ g' T', rhs_wf hs' g' T' /\ keys T' ≡ₚ l /\ 2 * capacity g <= capacity g'
    else map hs' = map hs /\ growable hs' g l /\ alloc_failed (m hs').
Proof.
  intros W Hl. destruct (rhs_capacity_limited hs g (gr_owns _ _ _ W) (gr_dimensions _ _ _ W)) as (k & Hk & Ek).
  destruct (ck_rhs_grow_ok hs g l (u64 (Z.shiftl (capacity (map hs)) 1)) W Hl (u64_range _))
    as (b & hs' & Hg & Hs & Hp). exists b, hs'. split; [done|]. split; [done|].
  rewrite (sh_capacity _ _ (gr_shape _ _ _ W)) Ek in Hg.
  assert (u64 (Z.shiftl (2 ^ k) 1) = 2 ^ (k + 1)) as E.
  { rewrite Z.shiftl_mul_pow2 // Z.pow_add_r; [lia|lia|].
    pose proof (Z.pow_le_mono_r 2 k 30). unfold u64. rewrite Z.mod_small; lia. }
  rewrite E in Hg. pose proof (Z.pow_succ_r 2 k ltac:(lia)) as E2. unfold Z.succ in E2.
  pose proof (Z.pow_nonneg 2 k ltac:(lia)).
  apply (rhs_grow_loop_limited 66 hs g l (k + 1)) in Hg; [|done|done|lia|lia].
  destruct b.
  - destruct Hp as (g' & T' & W' & Hk'). exists g', T'. split; [done|]. split; [done|].
    rewrite (sh_capacity _ _ (rep_shape _ _ _ _ _ _ _ (rw_rep _ _ _ W'))) in Hg. lia.
  - destruct Hp. by split_and!.
Qed.
End wf.
