(* ===== verification/RhsChain.v ===== *)
(** [ck_rhs]: Robin Hood displacement.  The chain of slots whose entries are about
    to move; undoing it, and moving the entries, the last one first. *)

From S2P Require Export RhsWf.
Set Warnings "-rewrite-rw,-clear-no-such-hyp".

Section chains.
Implicit Types (u : ck_rhs_map) (s k h p q c : Z) (T : layout) (X : gset Z) (prevs : list (Z * Z)).

(** ** Chains

    [c] is the slot that is to be vacated next; an element [(c', _)] of [prevs]
    is a slot whose entry is to move to the slot before it in the list. *)

Fixpoint origin c prevs : Z :=
  match prevs with [] => c | (c', _) :: rest => origin c' rest end.

(** The slots whose probe counts are already those of the entries to come. *)
Fixpoint stale c prevs : gset Z :=
  match prevs with [] => ∅ | (c', _) :: rest => {[c]} ∪ stale c' rest end.

Definition chain_slots c prevs : gset Z := list_to_set (c :: prevs.*1).

Lemma stale_subset c prevs : stale c prevs ⊆ chain_slots c prevs.
Proof.
  unfold chain_slots. revert c. induction prevs as [|[c' o] rest IH]; intros c; cbn; [set_solver|].
  specialize (IH c'). cbn in IH. set_solver.
Qed.

Lemma not_stale c c' rest : c ∉ c' :: rest.*1 -> c ∉ stale c' rest.
Proof. intros H Hs%stale_subset. unfold chain_slots in Hs. set_solver. Qed.

(** A probe does not stop at a slot that is occupied or stale. *)
Definition solid T X s : Prop := is_Some (T !! s) \/ s ∈ X.

Lemma solid_move T X s c k p q s' : T !! c = Some (k, p) ->
  solid T X s' -> solid (<[s := (k, q)]> (delete c T)) (({[c]} ∪ X) ∖ {[s]}) s'.
Proof.
  intros HTc Hs'. unfold solid. destruct (decide (s' = s)) as [->|Hn].
  { left. rewrite lookup_insert_eq. by eexists. }
  rewrite lookup_insert_ne //. destruct (decide (s' = c)) as [->|Hc]; [right; set_solver|].
  rewrite lookup_delete_ne //. destruct Hs'; [by left|right; set_solver].
Qed.

(** The probe counts remembered in a chain are those of the layout. *)
Fixpoint restorable T c prevs : Prop :=
  match prevs with
  | [] => True
  | (c', old) :: rest => (∃ k, T !! c = Some (k, old)) /\ restorable T c' rest
  end.

(** The slots of the layout hold their entries, whatever their probe counts. *)
Definition intact u T : Prop := ∀ s k p, T !! s = Some (k, p) -> entry (D u s) = k.
End chains.

Section chain.
Context (g : ck_rhs_map) (G : geometry g) (hash : Z -> Z).
Implicit Types (u mp : ck_rhs_map) (s k h p q c lim : Z) (T : layout) (X R Y : gset Z) (W : Z -> Z).
Implicit Types (prevs : list (Z * Z)).

Abbreviation rep := (rep g hash).
Abbreviation in_range := (in_range g).
Abbreviation crossing := (crossing g hash).
Abbreviation covers := (covers g).

(** ** What an update keeps *)

(** Outside [Y] the entries and probe counts stay; no bound gets tighter. *)
Record follows Y u u' : Prop := {
  fo_n_entries : n_entries u' = n_entries u;
  fo_slot s : in_range s -> s ∉ Y ->
    entry (D u' s) = entry (D u s) /\ probes (D u' s) = probes (D u s);
  fo_covers h p : covers u h p -> covers u' h p;
}.

Lemma follows_refl Y u : follows Y u u.
Proof. by split. Qed.

Lemma follows_trans Y u1 u2 u3 : follows Y u1 u2 -> follows Y u2 u3 -> follows Y u1 u3.
Proof.
  intros [N1 S1 C1] [N2 S2 C2]. split; [congruence| |by auto].
  intros s Hs HY. destruct (S2 s Hs HY) as [-> ->]. by apply S1.
Qed.

Lemma follows_weaken Y Y' u u' : Y ⊆ Y' -> follows Y u u' -> follows Y' u u'.
Proof. intros HY [N S C]. split; [done| |done]. intros s Hs Hn. apply S; [done|]. intros Hx. by apply Hn, HY. Qed.

Lemma follows_upd u s f : shape g u -> in_range s ->
  (∀ d, probe_bound (f d) = probe_bound d) -> follows {[s]} u (upd u s f).
Proof.
  intros Sh Hs Hf. split; [done|..].
  - intros s' Hs' Hn. rewrite (D_upd_other g G) //. set_solver.
  - intros h p [C1 C2]. split; [done|]. intros Hrm. specialize (C2 Hrm).
    pose proof (home_in_range g G h). rewrite (D_upd g G) //.
    destruct (Z.eqb_spec s (home g h)) as [->|]; [by rewrite Hf|done].
Qed.

Lemma follows_mark u s v : shape g u -> in_range s -> follows ∅ u (upd u s (put_rh v)).
Proof.
  intros Sh Hs. destruct (follows_upd u s (put_rh v) Sh Hs ltac:(done)) as [N S C].
  split; [done| |done]. intros s' Hs' _. rewrite (D_upd g G) //.
  by destruct (Z.eqb_spec s s') as [->|].
Qed.

Lemma follows_signal u h : follows ∅ u (signal u h).
Proof. by split. Qed.

Lemma follows_sbw u u' : same_but_wanted g u u' -> follows ∅ u u'.
Proof.
  intros S. split; [apply S|..].
  - intros s Hs _. by destruct (same_but_wanted_fields g u u' s S Hs) as (-> & -> & _).
  - intros h p [C1 C2]. split; [by rewrite (sw_maximum _ _ _ S)|]. intros Hrm. specialize (C2 Hrm).
    by destruct (same_but_wanted_fields g u u' _ S (home_in_range g G h)) as (_ & _ & _ & ->).
Qed.

Lemma home_home h : home g (home g h) = home g h.
Proof. exact (walk_home g G h 0). Qed.

Lemma covers_home u h p : covers u (home g h) p <-> covers u h p.
Proof. unfold covers. by rewrite home_home. Qed.

(** The home of an entry, recomputed from its slot and probe count. *)
Lemma first_offset_home u c h q : shape g u -> 1 <= q -> walk g h (Z.to_nat (q - 1)) = c ->
  ck_rhs_get_first_offset u c q = home g h.
Proof.
  intros Sh Hq <-. rewrite (shape_first_offset g) //.
  pose proof (first_offset_walk g G h (Z.to_nat (q - 1))) as E.
  rewrite Z2Nat.id in E; [lia|]. by rewrite Z.sub_add in E.
Qed.

Context (Hlimit : 0 <= probe_limit g < 2 ^ 31).

Lemma follows_bound_set u T X R W h p :
  rep u T X R W -> 0 <= p <= probe_limit g ->
  ∃ u', ck_rhs_map_bound_set u h p = Some u' /\ rep u' T X R W /\ covers u' h p /\ follows ∅ u u'.
Proof.
  intros P Hp. assert (probe_limit g <= UINT_MAX) as Hu by (unfold UINT_MAX; lia).
  destruct (rep_bound_set g G hash u T X R W h p P Hp Hu) as (u' & Hb & P' & Hc & HN & HD).
  exists u'. split_and!; [done..|]. split; [done|..].
  - intros s Hs _. specialize (HD s Hs). unfold put_bound in HD. by injection HD.
  - destruct (rhs_bound_set_ok g G u h p (rep_shape _ _ _ _ _ _ _ P) Hp Hu)
      as (u2 & Hb2 & _ & _ & HM & HB & _). rewrite Hb in Hb2. injection Hb2 as <-.
    intros h' p' [C1 C2]. split; [lia|]. intros Hrm. specialize (C2 Hrm).
    destruct (HB _ (home_in_range g G h')) as [_ B].
    specialize (B (rep_bounds _ _ _ _ _ _ _ P _ (home_in_range g G h'))). lia.
Qed.

Context (Hcapacity : capacity g <= 2 ^ 31).

(** ** Moving one entry, with its counters *)

Lemma move_counted u T X R s c k p q :
  rep u T X R (crossing T) -> T !! s = None -> s ∈ X -> T !! c = Some (k, p) ->
  entry (D u s) = k -> probes (D u s) = q -> p < q <= Z.min (probe_limit g) (capacity g) ->
  walk g (hash k) (Z.to_nat (q - 1)) = s ->
  (∀ i : nat, Z.of_nat i < q - 1 -> solid T X (walk g (hash k) i)) -> covers u (hash k) q ->
  ∃ u', ck_rhs_add_wanted u s (Some c) (home g (hash k)) = Some u' /\ same_but_wanted g u u' /\
    rep u' (<[s := (k, q)]> (delete c T)) (({[c]} ∪ X) ∖ {[s]}) R
      (crossing (<[s := (k, q)]> (delete c T))).
Proof.
  intros P HTs HX HTc He Hq Hpq Hw Hsol Hcov. pose proof (rep_shape _ _ _ _ _ _ _ P) as Sh.
  destruct (pl_slot _ _ _ (rep_placed _ _ _ _ _ _ _ P) _ _ _ HTc) as (Hk0 & Hp & Hpl & Hwc).
  destruct (ck_rhs_add_wanted_ok g G u (hash k) (Z.to_nat (p - 1)) (Z.to_nat (q - 1)))
    with (old := Some c) (h' := home g (hash k)) as (u' & Ha & S' & HW);
    [done|lia|lia|lia|lia| |left; by rewrite Hwc|apply home_home|].
  { intros j _. pose proof (walk_in_range g G (hash k) j) as Hr.
    rewrite (rep_wanted _ _ _ _ _ _ _ P) //. by eapply crossing_range. }
  rewrite Hw in Ha. rewrite !Z2Nat.id in HW; [lia..|]. rewrite !Z.sub_add in HW.
  exists u'. split; [done|]. split; [done|].
  destruct (effort_move g hash T s c k p q HTs HTc) as (_ & Hcr & _).
  assert (rep u' T X R (crossing (<[s := (k, q)]> (delete c T)))) as P'.
  { eapply (rep_same_but_wanted g G); [exact P|exact S'|]. intros s' Hs'.
    rewrite HW // Hcr (rep_wanted _ _ _ _ _ _ _ P) //. lia. }
  assert (in_range s) as Hsr by (rewrite -Hw; by apply walk_in_range).
  destruct (same_but_wanted_fields g u u' s S' Hsr) as (E1 & E2 & _).
  destruct (follows_sbw u u' S') as [_ _ Hc'].
  apply (rep_move g G) with (p := p); [exact P'|done|done|done|congruence|congruence|lia|lia|done|done|by apply Hc'].
Qed.

(** The entry of [c'] finds [c] with its [q]-th probe. *)
Definition linked u T X lim c c' : Prop :=
  ∃ k p q, T !! c' = Some (k, p) /\ entry (D u c') = k /\ probes (D u c) = q /\
    p < q <= lim /\ walk g (hash k) (Z.to_nat (q - 1)) = c /\ covers u (hash k) q /\
    ∀ i : nat, Z.of_nat i < q - 1 -> solid T X (walk g (hash k) i).

Fixpoint chained u T X lim c prevs : Prop :=
  match prevs with
  | [] => True
  | (c', _) :: rest => linked u T X lim c c' /\ chained u T X lim c' rest
  end.

Lemma chained_mono u u' T T' X X' Y lim c prevs :
  chained u T X lim c prevs -> follows Y u u' -> in_range c ->
  (∀ s, s ∈ prevs.*1 -> in_range s) ->
  (∀ s, s ∈ c :: prevs.*1 -> s ∉ Y) ->
  (∀ s, s ∈ prevs.*1 -> T' !! s = T !! s) ->
  (∀ s, solid T X s -> solid T' X' s) -> chained u' T' X' lim c prevs.
Proof.
  intros H F. revert c H. induction prevs as [|[c' o] rest IH]; intros c H Hc Hr HY HT Hsol; [done|].
  destruct H as [(k & p & q & H1 & H2 & H3 & H4 & H5 & H6 & H7) Hrest]. cbn in *.
  assert (in_range c') as Hc' by (apply Hr; left).
  split.
  - exists k, p, q. destruct (fo_slot _ _ _ F c Hc) as [_ ->]; [apply HY; left|].
    destruct (fo_slot _ _ _ F c' Hc') as [-> _]; [apply HY; right; left|].
    rewrite HT; [left|]. split_and!; [done..|lia|lia|done|by apply (fo_covers _ _ _ F)|by auto].
  - apply IH; [done|done|..]; try done.
    + intros s Hs. apply Hr. by right.
    + intros s Hs. apply HY. by right.
    + intros s Hs. apply HT. by right.
Qed.

Lemma chained_range u T X R W lim c prevs :
  rep u T X R W -> chained u T X lim c prevs -> ∀ s, s ∈ prevs.*1 -> in_range s.
Proof.
  intros P. revert c. induction prevs as [|[c' o] rest IH]; intros c H s Hs; cbn in *.
  - by apply not_elem_of_nil in Hs.
  - destruct H as [(k & p & q & H1 & _) Hrest]. apply elem_of_cons in Hs as [->|Hs].
    + by eapply placed_range; [exact G|apply P|].
    + by eapply IH.
Qed.

(** While there is an empty slot no walk is longer than the table. *)
Lemma walk_short T X s h q : in_range s -> ¬ solid T X s ->
  (∀ i : nat, Z.of_nat i < q - 1 -> solid T X (walk g h i)) -> q <= capacity g.
Proof.
  intros Hs Hno Hsol. destruct (walk_covers g G h s Hs) as (i & Hi & Hw).
  destruct (decide (q <= capacity g)); [done|]. destruct Hno. rewrite -Hw. apply Hsol. lia.
Qed.

Lemma chained_short u T X lim c prevs s :
  in_range s -> ¬ solid T X s -> chained u T X lim c prevs ->
  chained u T X (Z.min lim (capacity g)) c prevs.
Proof.
  intros Hs Hno. revert c. induction prevs as [|[c' o] rest IH]; intros c H; [done|].
  destruct H as [(k & p & q & H1 & H2 & H3 & H4 & H5 & H6 & H7) Hrest]. split; [|by apply IH].
  exists k, p, q. split_and!; try done; try lia.
  pose proof (walk_short T X s (hash k) q Hs Hno H7). lia.
Qed.

(** ** Moving the entries of a chain *)

(** The slot [o] is vacated, the entries of [T] all have a place in [T']. *)
Record vacated u T X R0 o u' T' : Prop := {
  vc_rep : rep u' T' {[o]} R0 (crossing T');
  vc_hole : T' !! o = None;
  vc_keys : keys T' ≡ₚ keys T;
  vc_n_entries : n_entries u' = n_entries u;
  vc_covers h p : covers u h p -> covers u' h p;
  vc_solid s : solid T X s -> solid T' {[o]} s;
}.

Lemma keys_move T s c k p q : T !! s = None -> T !! c = Some (k, p) ->
  keys (<[s := (k, q)]> (delete c T)) ≡ₚ keys T.
Proof. intros HTs HTc. by destruct (effort_move g hash T s c k p q HTs HTc) as (_ & _ & H). Qed.

Lemma shift_back_ok prevs u T R c :
  let X := {[c]} ∪ stale c prevs in
  rep u T X R (crossing T) -> T !! c = None -> NoDup (c :: prevs.*1) ->
  chained u T X (Z.min (probe_limit g) (capacity g)) c prevs ->
  ∃ u' T', shift_back u prevs c c = Some u' /\
    vacated u T X (R ∖ chain_slots c prevs) (origin c prevs) u' T' /\
    ∀ s, s ∉ chain_slots c prevs -> T' !! s = T !! s.
Proof.
  revert u T R c. induction prevs as [|[c' o] rest IH]; intros u T R c X P HT Hnd Hch;
    pose proof (rep_shape _ _ _ _ _ _ _ P) as Sh;
    destruct (rep_stale _ _ _ _ _ _ _ P c ltac:(set_solver)) as [Hc Hec]; cbn [shift_back].
  { unfold ck_rhs_unset_rh. rewrite (update_ok g G) //. eexists _, T. split; [done|].
    pose proof (rep_mark g G hash u T X R (crossing T) c false P Hc) as P1.
    destruct (follows_mark u c false Sh Hc) as [N _ C].
    assert (X = {[c]}) as E by (unfold X; set_solver). rewrite E in P1 |- *.
    assert (chain_slots c [] = {[c]}) as -> by (unfold chain_slots; set_solver).
    split; [|done]. by split. }
  destruct Hch as [(k & p & q & H1 & H2 & H3 & H4 & H5 & H6 & H7) Hrest]. cbn [stale] in X.
  assert (in_range c') as Hc' by (eapply placed_range; [exact G|apply P|done]).
  assert (c <> c') as Hcc by (intros ->; congruence).
  destruct (pl_slot _ _ _ (rep_placed _ _ _ _ _ _ _ P) _ _ _ H1) as (Hk0 & Hp & _ & _).
  rewrite (entry_ok g G) // H2. cbn [mbind option_bind]. unfold store_entry.
  rewrite (update_ok g G) //. cbn [mbind option_bind]. set (u1 := upd u c (put_entry k)).
  assert (rep u1 T X R (crossing T)) as P1 by (apply (rep_stale_upd g G); [done|set_solver|done|done]).
  pose proof (follows_upd u c (put_entry k) Sh Hc ltac:(done)) as F1. fold u1 in F1.
  assert (shape g u1) as S1 by apply P1.
  assert (D u1 c = put_entry k (D u c)) as Dc by (by apply (D_upd_same g G)).
  rewrite (probes_ok g G) // Dc /= H3. cbn [mbind option_bind].
  rewrite (first_offset_home u1 c (hash k) q) //; [lia|].
  destruct (move_counted u1 T X R c c' k p q) as (u2 & Ha & S2 & P2);
    [done|done|set_solver|done|by rewrite Dc|by rewrite Dc|done|done|done|by apply (fo_covers _ _ _ F1)|].
  rewrite Ha. cbn [mbind option_bind]. set (T2 := <[c := (k, q)]> (delete c' T)) in *.
  apply (rep_signal g G hash _ _ _ _ _ (home g (hash k))) in P2. set (u3 := signal u2 _) in *.
  assert (shape g u3) as S3 by apply P2.
  unfold ck_rhs_unset_rh. rewrite (update_ok g G) //. cbn [mbind option_bind]. set (u4 := upd u3 c _).
  pose proof (rep_mark g G hash u3 T2 _ R _ c false P2 Hc) as P4. fold u4 in P4.
  apply NoDup_cons in Hnd as [Hni Hnd].
  assert (({[c']} ∪ X) ∖ {[c]} = {[c']} ∪ stale c' rest) as EX.
  { unfold X. pose proof (not_stale c c' rest Hni). set_solver. }
  assert (follows {[c]} u u4) as F4.
  { eapply follows_trans; [exact F1|]. eapply follows_trans.
    - eapply follows_weaken; [|by apply follows_sbw]. set_solver.
    - eapply follows_trans; [eapply follows_weaken; [|apply follows_signal]; set_solver|].
      eapply follows_weaken; [|by apply follows_mark]. set_solver. }
  assert (∀ s, solid T X s -> solid T2 ({[c']} ∪ stale c' rest) s) as Hsol.
  { intros s Hs. rewrite -EX. by apply solid_move with p. }
  rewrite EX in P4.
  destruct (IH u4 T2 (R ∖ {[c]}) c') as (u' & T' & Hsb & V & Hout); [done| |done| |].
  { unfold T2. rewrite lookup_insert_ne // lookup_delete_eq //. }
  { eapply (chained_mono u u4 T T2 X); [exact Hrest|exact F4|done| | | |done].
    - exact (chained_range u T X R _ _ c' rest P Hrest).
    - intros s Hs Hsc. apply elem_of_singleton in Hsc as ->. by apply Hni.
    - intros s Hs. unfold T2. apply NoDup_cons in Hnd as [Hn' _].
      rewrite lookup_insert_ne; [intros ->; apply Hni; by right|].
      rewrite lookup_delete_ne //. by intros ->. }
  exists u', T'. split; [done|]. cbn [origin].
  assert (R ∖ chain_slots c ((c', o) :: rest) = (R ∖ {[c]}) ∖ chain_slots c' rest) as ER.
  { unfold chain_slots. cbn. set_solver. }
  split.
  - destruct V as [V1 V2 V3 V4 V5 V6]. rewrite ER. split; [done|done|..].
    + rewrite V3. by apply keys_move with p.
    + rewrite V4. apply F4.
    + intros h p' C. apply V5. by apply (fo_covers _ _ _ F4).
    + intros s Hs. by apply V6, Hsol.
  - intros s Hs. unfold chain_slots in *. cbn in Hs, Hout.
    rewrite Hout; [set_solver|]. unfold T2. rewrite lookup_insert_ne; [set_solver|].
    rewrite lookup_delete_ne //. set_solver.
Qed.

(** ** Undoing a chain *)

(** A slot that holds what the layout says is not stale. *)
Lemma rep_unstale u T X R W s k p :
  rep u T X R W -> T !! s = Some (k, p) -> entry (D u s) = k -> probes (D u s) = p ->
  rep u T (X ∖ {[s]}) R W.
Proof.
  intros P HT He Hp. split; try apply P.
  - intros s' Hs' HX. destruct (decide (s' = s)) as [->|Hn]; [by rewrite HT|].
    apply (rep_slot _ _ _ _ _ _ _ P); [done|set_solver].
  - intros s' HX. apply (rep_stale _ _ _ _ _ _ _ P). set_solver.
  - intros s' k' p' i H Hi. destruct (rep_no_gap _ _ _ _ _ _ _ P s' k' p' i H Hi) as [|HX]; [by left|].
    destruct (decide (walk g (hash k') i = s)) as [->|]; [left; by eexists|right; set_solver].
Qed.

Lemma entry_upd_keep u s f s' : shape g u -> in_range s -> in_range s' ->
  (∀ d, entry (f d) = entry d) -> entry (D (upd u s f) s') = entry (D u s').
Proof. intros Sh Hs Hs' Hf. rewrite (D_upd g G) //. by destruct (Z.eqb_spec s s') as [->|]. Qed.

Lemma undo_ok prevs u T R W c last :
  rep u T (stale c prevs) R W -> intact u T -> NoDup (c :: prevs.*1) -> restorable T c prevs ->
  (∀ s, s ∈ prevs.*1 -> in_range s) -> (prevs <> [] -> last = Some c) ->
  ∃ u', undo u prevs last = Some u' /\ rep u' T ∅ (R ∖ list_to_set prevs.*1) W /\
    n_entries u' = n_entries u.
Proof.
  revert u R c last. induction prevs as [|[c' old] rest IH]; intros u R c last P I Hnd Hrs Hr Hl; cbn [undo].
  { exists u. split; [done|]. cbn. rewrite difference_empty_L. by split. }
  rewrite Hl; [done|]. destruct Hrs as [[k Hk] Hrs]. cbn [stale] in P.
  pose proof (rep_shape _ _ _ _ _ _ _ P) as Sh.
  destruct (rep_stale _ _ _ _ _ _ _ P c ltac:(set_solver)) as [Hc Hec].
  destruct (pl_slot _ _ _ (rep_placed _ _ _ _ _ _ _ P) _ _ _ Hk) as (Hk0 & Hp & _ & _).
  unfold ck_rhs_set_probes. rewrite (update_ok g G) //. cbn [mbind option_bind].
  rewrite u32_small; [lia|]. set (u1 := upd u c (put_probes old)).
  assert (rep u1 T ({[c]} ∪ stale c' rest) R W) as P1
    by (apply (rep_stale_upd g G); [done|set_solver|done|done]).
  apply (rep_unstale _ _ _ _ _ c k old) in P1;
    [|done|unfold u1; rewrite (D_upd_same g G) //=; by eapply I|unfold u1; by rewrite (D_upd_same g G)].
  apply NoDup_cons in Hnd as [Hni Hnd].
  assert (({[c]} ∪ stale c' rest) ∖ {[c]} = stale c' rest) as EX.
  { pose proof (not_stale c c' rest Hni). set_solver. }
  rewrite EX in P1. assert (in_range c') as Hc' by (apply Hr; left).
  unfold ck_rhs_unset_rh. rewrite (update_ok g G) //; [apply P1|]. cbn [mbind option_bind].
  pose proof (rep_mark g G hash u1 T _ R W c' false P1 Hc') as P2. set (u2 := upd u1 c' _) in *.
  destruct (IH u2 (R ∖ {[c']}) c' (Some c')) as (u' & Hu & P' & Hn); [done| |done|done| |done|].
  { intros s k' p' Hs. pose proof (placed_range g G hash T s k' p' (rep_placed _ _ _ _ _ _ _ P) Hs) as Hsr.
    assert (shape g u1) by apply P1. unfold u2, u1. rewrite !entry_upd_keep //. by eapply I. }
  { intros s Hs. apply Hr. by right. }
  exists u'. split; [done|]. split; [|done].
  assert (R ∖ list_to_set (((c', old) :: rest).*1) = (R ∖ {[c']}) ∖ list_to_set rest.*1) as ->; [|done].
  cbn. set_solver.
Qed.
End chain.
