(* ===== verification/RhsDisplace.v ===== *)
(** [ck_rhs]: the loop of [ck_rhs_put_robin_hood].  It vacates a slot by moving the
    entries of a chain, or grows the map, or undoes what it did. *)

From S2P Require Export RhsChain.
Set Warnings "-rewrite-rw,-clear-no-such-hyp".

Section turn.
Context (g : ck_rhs_map) (G : geometry g) (hash : Z -> Z).
Context (Hlimit : 0 <= probe_limit g < 2 ^ 31).
Implicit Types (u : ck_rhs_map) (s k h p q c : Z) (T : layout) (X R : gset Z) (W : Z -> Z).

Abbreviation rep := (rep g hash).

(** What the probe that follows the walk of an entry past its slot returns. *)
Inductive turn u T X k p (r : probe_result) : Prop :=
| TurnMove q next :
    r_priority r = Some next -> r_n_probes r = q -> p < q <= probe_limit g ->
    walk g (hash k) (Z.to_nat (q - 1)) = next -> entry (D u next) <> CK_RHS_EMPTY ->
    in_rh (D u next) = false ->
    (∀ i : nat, Z.of_nat i < q - 1 -> solid T X (walk g (hash k) i)) -> turn u T X k p r
| TurnSlot q s :
    r_priority r = None -> r_slot r = Some s -> r_n_probes r = q -> p < q <= probe_limit g ->
    walk g (hash k) (Z.to_nat (q - 1)) = s -> entry (D u s) = CK_RHS_EMPTY ->
    (∀ i : nat, Z.of_nat i < q - 1 -> solid T X (walk g (hash k) i)) -> turn u T X k p r
| TurnFull : r_priority r = None -> r_slot r = None -> turn u T X k p r.

Lemma passed_solid u T X R W hs key k c p b n :
  rep u T X R W -> T !! c = Some (k, p) ->
  (∀ j : nat, (Z.to_nat p <= j < n)%nat -> passed g hs u key (hash k) b j) ->
  ∀ i : nat, (i < n)%nat -> solid T X (walk g (hash k) i).
Proof.
  intros P HT Hpass i Hi. destruct (pl_slot _ _ _ (rep_placed _ _ _ _ _ _ _ P) _ _ _ HT) as (_ & Hp & _ & Hw).
  destruct (decide (Z.of_nat i < p - 1)) as [Hlt|Hge].
  { exact (rep_no_gap _ _ _ _ _ _ _ P c k p i HT Hlt). }
  destruct (decide (Z.of_nat i = p - 1)) as [E|Hne].
  { left. replace i with (Z.to_nat (p - 1)) by lia. rewrite Hw. by eexists. }
  apply (rep_nonempty g hash u T X R W _ P); [by apply walk_in_range|].
  apply (Hpass i). lia.
Qed.

Lemma robin_turn_ok u T X R W hs key h k c p b :
  rep u T X R W -> T !! c = Some (k, p) -> robin_hood b = true ->
  ∃ r, probe_func hs u p (Some c) h key (probe_limit u) b = Some r /\
       turn u T X k p r /\ (relocates b = false -> r_priority r = None).
Proof.
  intros P HT Hb. pose proof (rep_shape _ _ _ _ _ _ _ P) as Sh.
  destruct (pl_slot _ _ _ (rep_placed _ _ _ _ _ _ _ P) _ _ _ HT) as (_ & Hp & Hpl & Hw).
  destruct (probe_func_resume g G hs u key h (hash k) (Z.to_nat (p - 1)) b Sh Hb) as (r & Hr & Hd); [lia|].
  assert (Z.of_nat (S (Z.to_nat (p - 1))) = p) as Ep by lia. rewrite Ep Hw in Hr.
  assert (S (Z.to_nat (p - 1)) = Z.to_nat p) as En by lia. rewrite En in Hd.
  exists r. split; [done|].
  assert (∀ i, (∀ j : nat, (Z.to_nat p <= j < i)%nat -> passed g hs u key (hash k) b j) ->
    Z.of_nat i <= probe_limit g ->
    priority_ok g u (hash k) b (Z.to_nat p) i (r_priority r) (r_n_probes r) ->
    r_priority r <> None -> turn u T X k p r) as Hmove.
  { intros i Hpass Hi Hpr Hne. destruct (r_priority r) as [next|] eqn:Epr; [|done].
    destruct Hpr as (_ & j & Hj & (Hent & Hrh & Hpb) & -> & Hnp).
    apply (TurnMove _ _ _ _ _ _ (Z.of_nat j + 1) (walk g (hash k) j)); try done.
    - lia.
    - f_equal. lia.
    - intros i' Hi'. eapply passed_solid; [exact P|exact HT| |].
      + intros j' Hj'. apply Hpass. instantiate (1 := j) in Hj'. lia.
      + lia. }
  split; [|intros Hrel; destruct Hd as [i _ _ _ _ _ _ Hpr|i _ _ _ _ _ Hrh _ _ _ _|i _ _ _ _ _ Hpr|i _ _ _ _ Hrel' _ _ _];
    [|congruence| |congruence]; destruct (r_priority r); [destruct Hpr; congruence|done|destruct Hpr; congruence|done]].
  destruct Hd as [i H1 H2 H3 H4 H5 H6 H7 H8|i H1 H2 H3 H4 H5 H6|i H1 H2 H3 H4 H5 H6 H7|i H1 H2 H3 H4 H5 H6 H7 H8 H9].
  - destruct (r_priority r) eqn:Epr; [apply (Hmove i); [done|lia|done|done]|].
    apply (TurnSlot _ _ _ _ _ _ (Z.of_nat i + 1) (walk g (hash k) i)); try done; try lia; auto.
    + f_equal. lia.
    + intros i' Hi'. eapply passed_solid; [exact P|exact HT|exact H3|lia].
  - congruence.
  - destruct (r_priority r) eqn:Epr; [apply (Hmove i); [done|lia|done|done]|].
    by apply TurnFull.
  - destruct H6 as (Hent & Hrh & Hpb).
    apply (TurnMove _ _ _ _ _ _ (Z.of_nat i + 1) (walk g (hash k) i)); try done; try lia.
    + f_equal. lia.
    + intros i' Hi'. eapply passed_solid; [exact P|exact HT|exact H3|lia].
Qed.
End turn.

Section displace.
Context (malloc_ok : heap -> Z -> bool) (Hlimited : malloc_limited malloc_ok).
Context (g : ck_rhs_map) (Dm : dimensions g) (hs0 : ck_rhs).
Implicit Types (hs : ck_rhs) (u : ck_rhs_map) (s k h p q c o : Z) (T : layout) (X R : gset Z).
Implicit Types (prevs : list (Z * Z)).

Abbreviation hash := (rhs_hash hs0).
Abbreviation rep := (rep g hash).
Abbreviation in_range := (in_range g).
Abbreviation crossing := (crossing g hash).
Abbreviation chained := (chained g hash).
Abbreviation vacated := (vacated g hash).

(** How the loop may end. *)
Definition displaced T R0 o (ret : rh_result) hs' : Prop :=
  same_callbacks hs0 hs' /\
  match ret with
  | RhDone => m hs' = m hs0 /\ ∃ T', vacated (map hs0) T ∅ R0 o (map hs') T' /\
      (∃ s, in_range s /\ T !! s = None) /\
      ∀ s, s ∈ R0 -> is_Some (T !! s) -> T' !! s = T !! s
  | RhGrown => ∃ g' T', rhs_wf malloc_ok hs' g' T' /\ keys T' ≡ₚ keys T /\ 2 * capacity g <= capacity g'
  | RhFailed => rep (map hs') T ∅ R0 (crossing T) /\ n_entries (map hs') = n_entries (map hs0) /\
      owns malloc_ok hs' (size g) /\ alloc_failed (m hs')
  end.

(** The state of the chain of slots found so far. *)
Record forward u T R c prevs (last : option Z) : Prop := {
  fw_rep : rep u T (stale c prevs) R (crossing T);
  fw_nodup : NoDup (c :: prevs.*1);
  fw_chained : chained u T (stale c prevs) (probe_limit g) c prevs;
  fw_restorable : restorable T c prevs;
  fw_intact : intact u T;
  fw_occupied : is_Some (T !! c);
  fw_last : prevs <> [] -> last = Some c;
  fw_entries : n_entries u = n_entries (map hs0);
  fw_covers h p : covers g (map hs0) h p -> covers g u h p;
}.

Local Hint Resolve dm_geometry dimensions_limit dimensions_limit' dimensions_capacity : core.

Lemma stale_occupied u T X lim c prevs s :
  is_Some (T !! c) -> chained u T X lim c prevs -> s ∈ chain_slots c prevs -> is_Some (T !! s).
Proof.
  revert c. induction prevs as [|[c' old] rest IH]; intros c Hc Hch Hs; unfold chain_slots in *; cbn in *.
  - assert (s = c) as -> by set_solver. done.
  - destruct (decide (s = c)) as [->|Hn]; [done|].
    destruct Hch as [(k & p & q & H1 & _) Hrest]. apply (IH c'); [by eexists|done|set_solver].
Qed.

Lemma forward_slots u T R c prevs last s :
  forward u T R c prevs last -> s ∈ chain_slots c prevs -> is_Some (T !! s) /\ in_range s.
Proof.
  intros F Hs. assert (is_Some (T !! s)) as [[k p] Hk].
  { eapply stale_occupied; [apply F|apply F|done]. }
  split; [by eexists|]. eapply placed_range; [apply Dm|apply F|done].
Qed.

Lemma forward_follows u u' T R R' c prevs last :
  forward u T R c prevs last -> rep u' T (stale c prevs) R' (crossing T) -> follows g ∅ u u' ->
  forward u' T R' c prevs last.
Proof.
  intros F P' Fo.
  assert (∀ s, s ∈ chain_slots c prevs -> in_range s) as Hr by (intros; by eapply forward_slots).
  destruct F as [P N C S I O L E V]. split; try done.
  - eapply (chained_mono g hash u u' T T _ _ ∅); [exact C|exact Fo|..]; try done.
    + apply Hr. unfold chain_slots. set_solver.
    + intros s Hs. apply Hr. unfold chain_slots. set_solver.
  - intros s k p Hs. destruct (fo_slot _ _ _ _ Fo s) as [-> _]; [|set_solver|by eapply I].
    eapply placed_range; [apply Dm|apply P|done].
  - by rewrite (fo_n_entries _ _ _ _ Fo).
  - intros h p H. by apply (fo_covers _ _ _ _ Fo), V.
Qed.

Lemma forward_unmark u T R c prevs last s v :
  forward u T R c prevs last -> s ∈ chain_slots c prevs ->
  let u' := upd u s (put_rh v) in
  update_desc u s (put_rh v) = Some u' /\
  forward u' T (if v : bool then {[s]} ∪ R else R ∖ {[s]}) c prevs last.
Proof.
  intros F Hs u'. destruct (forward_slots _ _ _ _ _ _ s F Hs) as [_ Hr].
  pose proof (rep_shape _ _ _ _ _ _ _ (fw_rep _ _ _ _ _ _ F)) as Sh.
  split; [apply (update_ok g); auto|]. eapply forward_follows; [exact F| |].
  - apply rep_mark; auto. apply F.
  - apply follows_mark; auto.
Qed.

(** The entries of the map in the middle of a displacement. *)
Lemma forward_growable u T R c prevs last :
  forward u T R c prevs last -> owns malloc_ok hs0 (size g) ->
  growable malloc_ok (set_map hs0 u) g (keys T).
Proof.
  intros F O. pose proof (fw_rep _ _ _ _ _ _ F) as P. split; [done|apply P| |done].
  apply (live_entries_layout g (dm_geometry _ Dm) hash); [apply P..|]. intros s Hs.
  destruct (T !! s) as [[k p]|] eqn:HT; [by eapply (fw_intact _ _ _ _ _ _ F)|].
  assert (s ∉ stale c prevs) as Hn.
  { intros Hst%stale_subset. destruct (forward_slots _ _ _ _ _ _ s F Hst) as [[? ?] _]. congruence. }
  pose proof (rep_slot _ _ _ _ _ _ _ P s Hs Hn) as Ho. rewrite HT in Ho. by destruct Ho.
Qed.

(** No slot and nothing to displace: the map is grown, or the chain is undone. *)
Lemma displace_full u T R R0 c prevs last :
  forward u T R c prevs last -> R ∖ chain_slots c prevs = R0 -> owns malloc_ok hs0 (size g) ->
  count T < 65534 ->
  ∃ ret hs',
    ('(ok, hs) ← ck_rhs_grow malloc_ok (set_map hs0 u) (u64 (Z.shiftl (capacity u) 1));
     if negb ok then
       mp ← ck_rhs_unset_rh (map hs) c;
       mp ← undo mp prevs last;
       Some (RhFailed, set_map hs mp)
     else Some (RhGrown, hs)) = Some (ret, hs') /\
    displaced T R0 (origin c prevs) ret hs'.
Proof.
  intros F HR O Hfew.
  destruct (rhs_grow_double malloc_ok Hlimited (set_map hs0 u) g (keys T)) as (b & hs1 & Hg & Hs & Hp);
    [by eapply forward_growable|rewrite -keys_length; lia|].
  change (capacity (map (set_map hs0 u))) with (capacity u) in Hg. rewrite Hg. cbn [mbind option_bind].
  assert (same_callbacks hs0 hs1) as Hs0 by done.
  destruct b; cbn [negb].
  { eexists _, _. split; [done|]. by split. }
  destruct Hp as (Hmap & Gr & Hf). cbn in Hmap. rewrite Hmap.
  destruct (forward_unmark _ _ _ _ _ _ c false F) as [Hu F1]; [unfold chain_slots; set_solver|].
  unfold ck_rhs_unset_rh. rewrite Hu. cbn [mbind option_bind]. set (u1 := upd u c _) in *.
  destruct (undo_ok g (dm_geometry _ Dm) hash (dimensions_limit' _ Dm) (dimensions_capacity _ Dm)
    prevs u1 T (R ∖ {[c]}) (crossing T) c last)
    as (u2 & Hun & P2 & N2); [apply F1..| |apply F1|].
  { intros s Hs'. eapply forward_slots; [exact F1|]. unfold chain_slots. set_solver. }
  rewrite Hun. cbn [mbind option_bind]. eexists _, _. split; [done|]. split; [done|].
  assert ((R ∖ {[c]}) ∖ list_to_set prevs.*1 = R0) as E.
  { rewrite -HR. unfold chain_slots. cbn. set_solver. }
  rewrite E in P2. split_and!; [exact P2| |apply Gr|done]. cbn. rewrite N2. apply F1.
Qed.

(** An empty slot: the entries of the chain move, the last one first. *)
Lemma displace_slot hs u T R R0 c prevs last k p q s :
  forward u T R c prevs last -> R ∖ chain_slots c prevs = R0 -> R0 ## chain_slots c prevs ->
  T !! c = Some (k, p) -> p < q <= probe_limit g -> walk g (hash k) (Z.to_nat (q - 1)) = s ->
  entry (D u s) = CK_RHS_EMPTY ->
  (∀ i : nat, Z.of_nat i < q - 1 -> solid T (stale c prevs) (walk g (hash k) i)) ->
  ∃ u' T',
    (let h := ck_rhs_get_first_offset u s q in
     mp ← ck_rhs_map_bound_set u h q;
     mp ← store_entry mp s k;
     let mp := signal mp h in
     mp ← ck_rhs_set_probes mp s q;
     mp ← ck_rhs_unset_rh mp c;
     mp ← ck_rhs_add_wanted mp s (Some c) h;
     mp ← shift_back mp prevs c c;
     Some (RhDone, set_map hs mp)) = Some (RhDone, set_map hs u') /\
    vacated (map hs0) T ∅ R0 (origin c prevs) u' T' /\
    (∃ s, in_range s /\ T !! s = None) /\
    ∀ s, s ∈ R0 -> is_Some (T !! s) -> T' !! s = T !! s.
Proof.
  intros F HR Hapart HTc Hq Hw He Hsol. pose proof (fw_rep _ _ _ _ _ _ F) as P.
  pose proof (rep_shape _ _ _ _ _ _ _ P) as Sh. pose proof (dm_geometry _ Dm) as G.
  pose proof (dm_limit _ Dm) as Hlim.
  assert (in_range s) as Hs by (rewrite -Hw; by apply walk_in_range).
  destruct (forward_slots _ _ _ _ _ _ c F) as [_ Hc]; [unfold chain_slots; set_solver|].
  destruct (pl_slot _ _ _ (rep_placed _ _ _ _ _ _ _ P) _ _ _ HTc) as (Hk0 & Hp & _ & _).
  assert (¬ solid T (stale c prevs) s) as Hno.
  { intros Hx%(rep_nonempty g hash u T _ R (crossing T) s P Hs). done. }
  assert (T !! s = None) as HTs.
  { destruct (T !! s) eqn:E; [|done]. destruct Hno. left. by eexists. }
  assert (s ∉ chain_slots c prevs) as Hsc.
  { intros Hx. destruct (forward_slots _ _ _ _ _ _ s F Hx) as [[? ?] _]. congruence. }
  assert (s <> c) as Hne by (intros ->; congruence).
  cbv zeta. rewrite (first_offset_home g G u s (hash k) q) //; [lia|].
  destruct (follows_bound_set g G hash (dimensions_limit' _ Dm) u T _ R _ (home g (hash k)) q P)
    as (u1 & -> & P1 & C1 & F1); [lia|]. cbn [mbind option_bind].
  rewrite !(covers_home g G) in C1.
  assert (shape g u1) as S1 by apply P1. unfold store_entry. rewrite (update_ok g G) //. cbn [mbind option_bind].
  pose proof (rep_hole g G hash u1 T _ R _ s (put_entry k) P1 Hs ltac:(done) ltac:(done)) as P2.
  pose proof (follows_upd g G u1 s (put_entry k) S1 Hs ltac:(done)) as F2.
  pose proof (D_upd_same g G u1 s (put_entry k) S1 Hs) as D2.
  set (u2 := upd u1 s _) in *. apply (rep_signal g G hash _ _ _ _ _ (home g (hash k))) in P2.
  pose proof (follows_signal g u2 (home g (hash k))) as F3.
  change (D u2 s) with (D (signal u2 (home g (hash k))) s) in D2.
  set (u3 := signal u2 _) in *. assert (shape g u3) as S3 by apply P2.
  unfold ck_rhs_set_probes. rewrite (update_ok g G) //. cbn [mbind option_bind]. rewrite u32_small; [lia|].
  pose proof (rep_stale_upd g G hash u3 T _ R _ s (put_probes q) P2 ltac:(set_solver) ltac:(done)
    ltac:(by rewrite D2)) as P4.
  pose proof (follows_upd g G u3 s (put_probes q) S3 Hs ltac:(done)) as F4.
  pose proof (D_upd_same g G u3 s (put_probes q) S3 Hs) as D4. rewrite D2 in D4.
  set (u4 := upd u3 s _) in *. assert (shape g u4) as S4 by apply P4.
  unfold ck_rhs_unset_rh. rewrite (update_ok g G) //. cbn [mbind option_bind].
  pose proof (rep_mark g G hash u4 T _ R _ c false P4 Hc) as P5.
  pose proof (follows_mark g G u4 c false S4 Hc) as F5.
  pose proof (D_upd_other g G u4 c (put_rh false) s ltac:(done) S4 Hc Hs) as D5. rewrite D4 in D5.
  set (u5 := upd u4 c _) in *. assert (follows g {[s]} u1 u5) as F15.
  { eapply follows_trans; [exact F2|]. eapply follows_trans; [eapply follows_weaken; [|exact F3]; set_solver|].
    eapply follows_trans; [exact F4|]. eapply follows_weaken; [|exact F5]. set_solver. }
  assert (q <= capacity g) as Hqc by (by eapply (walk_short g G T (stale c prevs) s (hash k))).
  set (X5 := {[s]} ∪ stale c prevs) in *.
  assert (∀ x, solid T (stale c prevs) x -> solid T X5 x) as Hmono.
  { intros x [Hx|Hx]; [by left|right; unfold X5; set_solver]. }
  destruct (move_counted g G hash (dimensions_limit' _ Dm)
    u5 T X5 (R ∖ {[c]}) s c k p q) as (u6 & Ha & S6 & P6);
    [done|done|unfold X5; set_solver|done|by rewrite D5|by rewrite D5|lia|done|by auto|
     by apply (fo_covers _ _ _ _ F15)|].
  rewrite Ha. cbn [mbind option_bind]. set (T6 := <[s := (k, q)]> (delete c T)) in *.
  pose proof (fw_nodup _ _ _ _ _ _ F) as Hnd. pose proof Hnd as [Hni _]%NoDup_cons.
  assert (({[c]} ∪ X5) ∖ {[s]} = {[c]} ∪ stale c prevs) as EX.
  { unfold X5. assert (s ∉ stale c prevs) by (intros ?%stale_subset; done). set_solver. }
  assert (∀ x, solid T (stale c prevs) x -> solid T6 ({[c]} ∪ stale c prevs) x) as Hsol6.
  { intros x Hx. rewrite -EX. apply solid_move with p; auto. }
  rewrite EX in P6. assert (follows g {[s]} u u6) as F6.
  { eapply follows_trans; [eapply follows_weaken; [|exact F1]; set_solver|].
    eapply follows_trans; [exact F15|]. eapply follows_weaken; [|by apply follows_sbw]. set_solver. }
  assert (∀ x, x ∈ prevs.*1 -> T6 !! x = T !! x) as HT6.
  { intros x Hx. unfold T6. rewrite lookup_insert_ne; [intros ->; apply Hsc; unfold chain_slots; set_solver|].
    rewrite lookup_delete_ne //. by intros ->. }
  destruct (shift_back_ok g G hash (dimensions_limit' _ Dm) (dimensions_capacity _ Dm)
    prevs u6 T6 (R ∖ {[c]}) c) as (u' & T' & Hsb & V & Hout); [done| |done| |].
  { unfold T6. rewrite lookup_insert_ne // lookup_delete_eq //. }
  { eapply (chained_mono g hash u u6 T T6 (stale c prevs)); [|exact F6|done| | |done|done].
    - eapply chained_short; [exact G|exact Hs|done|apply F].
    - intros x Hx. eapply forward_slots; [exact F|]. unfold chain_slots. set_solver.
    - intros x Hx. rewrite elem_of_singleton. intros ->. apply Hsc. unfold chain_slots. set_solver. }
  rewrite Hsb. exists u', T'. split; [done|].
  assert ((R ∖ {[c]}) ∖ chain_slots c prevs = R0) as ER by (rewrite -HR; unfold chain_slots; set_solver).
  rewrite ER in V. destruct V as [V1 V2 V3 V4 V5 V6]. split.
  - split; [done|done|..].
    + rewrite V3. by apply keys_move with p.
    + rewrite V4 (fo_n_entries _ _ _ _ F6). apply F.
    + intros h' p' Hcov. apply V5, (fo_covers _ _ _ _ F6), F, Hcov.
    + intros x Hx. apply V6, Hsol6. destruct Hx as [Hx|Hx]; [by left|set_solver].
  - split; [by exists s|]. intros x Hx Hx2. assert (x ∉ chain_slots c prevs) as Hxc by set_solver. rewrite Hout; [done|]. unfold T6.
    rewrite lookup_insert_ne; [intros ->; rewrite HTs in Hx2; by destruct Hx2|].
    rewrite lookup_delete_ne //. intros ->. apply Hxc. unfold chain_slots. set_solver.
Qed.

(** An entry that is closer to its home: its slot joins the chain. *)
Lemma displace_move u T R c prevs last k p q next :
  forward u T R c prevs last -> chain_slots c prevs ⊆ R ->
  T !! c = Some (k, p) -> p < q <= probe_limit g -> walk g (hash k) (Z.to_nat (q - 1)) = next ->
  entry (D u next) <> CK_RHS_EMPTY -> in_rh (D u next) = false ->
  (∀ i : nat, Z.of_nat i < q - 1 -> solid T (stale c prevs) (walk g (hash k) i)) ->
  ∃ old u' k', ck_rhs_probes u next = Some old /\
    (mp ← ck_rhs_set_probes u next q;
     ck_rhs_map_bound_set mp (ck_rhs_get_first_offset mp next q) q) = Some u' /\
    T !! next = Some (k', old) /\ (next ∉ R) /\
    forward u' T R next ((c, old) :: prevs) (Some next).
Proof.
  intros F HR HTc Hq Hw He Hrh Hsol. pose proof (fw_rep _ _ _ _ _ _ F) as P.
  pose proof (rep_shape _ _ _ _ _ _ _ P) as Sh. pose proof (dm_geometry _ Dm) as G.
  pose proof (dm_limit _ Dm) as Hlim.
  destruct (pl_slot _ _ _ (rep_placed _ _ _ _ _ _ _ P) _ _ _ HTc) as (Hk0 & Hp & _ & _).
  assert (in_range next) as Hn by (rewrite -Hw; by apply walk_in_range).
  assert (next ∉ R) as HnR.
  { rewrite (rep_rh _ _ _ _ _ _ _ P) // in Hrh. by apply bool_decide_eq_false in Hrh. }
  assert (next ∉ chain_slots c prevs) as Hnc by (intros Hx; by apply HnR, HR).
  assert (next ∉ stale c prevs) as Hns by (intros Hx%stale_subset; done).
  assert (∃ k' old, T !! next = Some (k', old) /\ probes (D u next) = old) as (k' & old & HTn & Hold).
  { pose proof (rep_slot _ _ _ _ _ _ _ P next Hn Hns) as Ho.
    destruct (T !! next) as [[k' old]|]; destruct Ho as [Ho1 Ho2]; [by eauto|done]. }
  pose proof (fw_intact _ _ _ _ _ _ F _ _ _ HTn) as Hek.
  exists old. rewrite (probes_ok g G) // Hold. unfold ck_rhs_set_probes. rewrite (update_ok g G) //.
  cbn [mbind option_bind]. rewrite u32_small; [lia|]. set (u1 := upd u next (put_probes q)).
  pose proof (rep_hole g G hash u T _ R _ next (put_probes q) P Hn ltac:(done) He) as P1.
  pose proof (follows_upd g G u next (put_probes q) Sh Hn ltac:(done)) as F1.
  pose proof (D_upd_same g G u next (put_probes q) Sh Hn) as D1. fold u1 in P1, F1, D1.
  rewrite (first_offset_home g G u1 next (hash k) q) //; [apply P1|lia|].
  destruct (follows_bound_set g G hash (dimensions_limit' _ Dm) u1 T _ R _ (home g (hash k)) q P1)
    as (u2 & -> & P2 & C2 & F2); [lia|]. rewrite !(covers_home g G) in C2.
  exists u2, k'. split_and!; [done..|].
  assert (follows g {[next]} u u2) as F12.
  { eapply follows_trans; [exact F1|]. eapply follows_weaken; [|exact F2]. set_solver. }
  split.
  - exact P2.
  - cbn. apply NoDup_cons. split; [|apply F]. unfold chain_slots in Hnc. set_solver.
  - cbn. split.
    + exists k, p, q. destruct (fo_slot _ _ _ _ F2 next Hn) as [_ ->]; [set_solver|]. rewrite D1.
      split_and!; [done| |done|lia|lia|done|done|].
      * destruct (forward_slots _ _ _ _ _ _ c F) as [_ Hc]; [unfold chain_slots; set_solver|].
        destruct (fo_slot _ _ _ _ F12 c Hc) as [-> _]; [|by eapply (fw_intact _ _ _ _ _ _ F)].
        unfold chain_slots in Hnc. set_solver.
      * intros i Hi. destruct (Hsol i Hi) as [|Hx]; [by left|right; set_solver].
    + eapply (chained_mono g hash u u2 T T (stale c prevs)); [apply F|exact F12|..]; try done.
      * eapply forward_slots; [exact F|]. unfold chain_slots. set_solver.
      * intros x Hx. eapply forward_slots; [exact F|]. unfold chain_slots. set_solver.
      * intros x Hx. rewrite elem_of_singleton. intros ->. apply Hnc. unfold chain_slots. set_solver.
      * intros x [Hx|Hx]; [by left|right; set_solver].
  - cbn. split; [by eexists|apply F].
  - intros s k1 p1 Hs. assert (in_range s) as Hsr by (by eapply placed_range; [exact G|apply P|]).
    destruct (fo_slot _ _ _ _ F2 s Hsr) as [-> _]; [set_solver|]. unfold u1.
    rewrite (entry_upd_keep g) //. by eapply (fw_intact _ _ _ _ _ _ F).
  - by eexists.
  - done.
  - rewrite (fo_n_entries _ _ _ _ F12). apply F.
  - intros h p1 Hcov. by apply (fo_covers _ _ _ _ F12), F.
Qed.

(** The loop ends, and leaves nothing half done. *)
Lemma robin_hood_loop_ok fuel u T R R0 c prevs last k p h :
  forward u T R c prevs last -> list_to_set prevs.*1 ⊆ R -> R ∖ chain_slots c prevs = R0 ->
  R0 ## chain_slots c prevs -> T !! c = Some (k, p) -> owns malloc_ok hs0 (size g) ->
  count T < 65534 -> (length prevs <= CK_RHS_MAX_RH)%nat ->
  (CK_RHS_MAX_RH < fuel + length prevs)%nat ->
  ∃ ret hs', robin_hood_loop malloc_ok fuel (set_map hs0 u) c c p h prevs last = Some (ret, hs') /\
    displaced T R0 (origin c prevs) ret hs'.
Proof.
  revert u R c prevs last k p h.
  induction fuel as [|fuel IH]; intros u R c prevs last k p h F HR HR0 Hap HTc O Hfew Hlen Hfuel; [lia|].
  cbn [robin_hood_loop]. change (map (set_map hs0 u)) with u. pose proof (dm_geometry _ Dm) as G.
  assert (c ∈ chain_slots c prevs) as Hcc by (unfold chain_slots; set_solver).
  destruct (forward_slots _ _ _ _ _ _ c F Hcc) as [_ Hc].
  rewrite (entry_ok g G) //; [apply (fw_rep _ _ _ _ _ _ F)|]. cbn [mbind option_bind].
  rewrite (fw_intact _ _ _ _ _ _ F _ _ _ HTc).
  destruct (forward_unmark _ _ _ _ _ _ c true F Hcc) as [Hu F1]. cbn in F1.
  unfold ck_rhs_set_rh. rewrite Hu. cbn [mbind option_bind]. set (u1 := upd u c _) in *.
  assert (chain_slots c prevs ⊆ {[c]} ∪ R) as HR1 by (unfold chain_slots; set_solver).
  assert (({[c]} ∪ R) ∖ chain_slots c prevs = R0) as HR01 by (rewrite -HR0; set_solver).
  set (b := if Nat.eqb _ _ then _ else _).
  destruct (robin_turn_ok g G hash u1 T _ _ _ (set_map hs0 u) k h k c p b (fw_rep _ _ _ _ _ _ F1) HTc)
    as (r & Hr & Ht & Hrel); [unfold b; by destruct (Nat.eqb _ _)|].
  rewrite Hr. cbn [mbind option_bind].
  destruct Ht as [q next Hpr Hnp Hq Hw He Hrh Hsol|q s Hpr Hsl Hnp Hq Hw He Hsol|Hpr Hsl].
  - assert (length prevs <> CK_RHS_MAX_RH) as Hne.
    { intros E. unfold b in Hrel. rewrite E Nat.eqb_refl in Hrel. rewrite Hrel // in Hpr. }
    rewrite Hpr Hnp. destruct (displace_move u1 T _ c prevs last k p q next F1 HR1 HTc Hq Hw He Hrh Hsol)
      as (old & u2 & k' & Hold & Hst & HTn & HnR & F2).
    rewrite Hold. cbn [mbind option_bind]. unfold ck_rhs_set_probes in Hst |- *.
    destruct (update_desc u1 next _) as [um|]; [|done]. cbn [mbind option_bind] in Hst |- *. rewrite Hst.
    cbn [mbind option_bind]. change (set_map (set_map hs0 u) u2) with (set_map hs0 u2).
    assert (chain_slots next ((c, old) :: prevs) = {[next]} ∪ chain_slots c prevs) as Ech by done.
    destruct (IH u2 ({[c]} ∪ R) next ((c, old) :: prevs) (Some next) k' old
      (ck_rhs_get_first_offset um next q)) as (ret & hs' & Hl & Hd); try done.
    + cbn. set_solver.
    + rewrite Ech -HR01. set_solver.
    + cbn. lia.
    + cbn. lia.
    + by exists ret, hs'.
  - rewrite Hpr Hsl Hnp.
    destruct (displace_slot (set_map hs0 u) u1 T _ R0 c prevs last k p q s F1 HR01 Hap HTc Hq Hw He Hsol)
      as (u' & T' & Hst & V & Hkeep).
    cbv zeta in Hst. rewrite Hst. eexists _, _. split; [done|]. split; [done|]. split; [done|]. by exists T'.
  - rewrite Hpr Hsl.
    destruct (displace_full u1 T _ R0 c prevs last F1 HR01 O Hfew) as (ret & hs' & Hst & Hd).
    exists ret, hs'. by split.
Qed.

(** [ck_rhs_put_robin_hood] *)
Lemma ck_rhs_put_robin_hood_ok T R0 o k p :
  rep (map hs0) T ∅ R0 (crossing T) -> T !! o = Some (k, p) -> o ∉ R0 ->
  owns malloc_ok hs0 (size g) -> count T < 65534 ->
  ∃ ret hs', ck_rhs_put_robin_hood malloc_ok hs0 o = Some (ret, hs') /\ displaced T R0 o ret hs'.
Proof.
  intros P HTo Ho O Hfew. pose proof (dm_geometry _ Dm) as G. unfold ck_rhs_put_robin_hood.
  assert (in_range o) as Hr by (by eapply placed_range; [exact G|apply P|]).
  assert (intact (map hs0) T) as I.
  { intros s k1 p1 Hs. assert (in_range s) as Hsr by (by eapply placed_range; [exact G|apply P|]).
    pose proof (rep_slot _ _ _ _ _ _ _ P s Hsr ltac:(set_solver)) as Hok. rewrite Hs in Hok. apply Hok. }
  rewrite (probes_ok g G) //; [apply P|]. cbn [mbind option_bind].
  pose proof (rep_slot _ _ _ _ _ _ _ P o Hr ltac:(set_solver)) as Hok. rewrite HTo in Hok.
  destruct Hok as [_ ->]. assert (set_map hs0 (map hs0) = hs0) as Eh by by destruct hs0.
  assert (chain_slots o [] = {[o]}) as E by (unfold chain_slots; set_solver).
  rewrite -{1}Eh. apply (robin_hood_loop_ok _ (map hs0) T R0 R0 o [] None k p 0); try done.
  - split; try done; cbn; apply NoDup_singleton.
  - cbn. set_solver.
  - rewrite E. set_solver.
  - change (length (@nil (Z * Z))) with 0%nat. lia.
  - change (length (@nil (Z * Z))) with 0%nat. lia.
Qed.
End displace.

(** [ck_rhs]: insertion.  Where a probe says a new entry may go, putting it there,
    and the operations that insert. *)

Section place.
Context (g : ck_rhs_map) (Dm : dimensions g) (hs : ck_rhs).
Implicit Types (u : ck_rhs_map) (s k h p q v : Z) (T : layout) (X R : gset Z) (W : Z -> Z).

Abbreviation hash := (rhs_hash hs).
Abbreviation rep := (rep g hash).
Abbreviation in_range := (in_range g).
Abbreviation crossing := (crossing g hash).

(** A new entry, in an empty or vacated slot. *)
Lemma place_new u T X R v q s (sg : bool) h :
  rep u T X R (crossing T) -> X ⊆ {[s]} -> T !! s = None -> in_range s -> v <> CK_RHS_EMPTY ->
  walk g (hash v) (Z.to_nat (q - 1)) = s -> 1 <= q <= capacity g -> q <= probe_limit g ->
  (∀ i : nat, Z.of_nat i < q - 1 -> solid T X (walk g (hash v) i)) -> covers g u (hash v) q ->
  count T < 65534 ->
  ∃ u', (mp ← store_entry u s v;
         mp ← ck_rhs_set_probes (if sg then signal mp h else mp) s q;
         ck_rhs_add_wanted mp s None (hash v)) = Some u' /\
    rep u' (<[s := (v, q)]> T) ∅ R (crossing (<[s := (v, q)]> T)) /\ n_entries u' = n_entries u.
Proof.
  intros P HX HT Hs Hv Hw Hq Hql Hsol Hcov Hfew. pose proof (dm_geometry _ Dm) as G.
  pose proof (dm_limit _ Dm) as Hlim. pose proof (rep_shape _ _ _ _ _ _ _ P) as Sh.
  unfold store_entry. rewrite (update_ok g G) //. cbn [mbind option_bind].
  pose proof (rep_hole g G hash u T X R _ s (put_entry v) P Hs ltac:(done) ltac:(done)) as P1.
  pose proof (follows_upd g G u s (put_entry v) Sh Hs ltac:(done)) as F1.
  pose proof (D_upd_same g G u s (put_entry v) Sh Hs) as D1.
  set (u1 := upd u s _) in *. replace ({[s]} ∪ X) with ({[s]} : gset Z) in P1 by set_solver.
  set (u2 := if sg then _ else _).
  assert (rep u2 T {[s]} R (crossing T) /\ D u2 s = put_entry v (D u s) /\ follows g {[s]} u u2 /\
          n_entries u2 = n_entries u) as (P2 & D2 & F2 & N2).
  { unfold u2. destruct sg; [|by split_and!]. split_and!; [by apply rep_signal|done| |done].
    eapply follows_trans; [exact F1|]. by split. }
  clearbody u2. assert (shape g u2) as S2 by apply P2. unfold ck_rhs_set_probes.
  rewrite (update_ok g G) //. cbn [mbind option_bind]. rewrite u32_small; [lia|].
  pose proof (rep_stale_upd g G hash u2 T _ R _ s (put_probes q) P2 ltac:(set_solver) ltac:(done)
    ltac:(by rewrite D2)) as P3.
  pose proof (follows_upd g G u2 s (put_probes q) S2 Hs ltac:(done)) as F3.
  pose proof (D_upd_same g G u2 s (put_probes q) S2 Hs) as D3. rewrite D2 in D3.
  set (u3 := upd u2 s _) in *.
  destruct (ck_rhs_add_wanted_ok g G u3 (hash v) 0 (Z.to_nat (q - 1))) with (old := @None Z) (h' := hash v)
    as (u4 & Ha & S4 & HW); [apply P3|lia|lia|lia|lia| |by right|done|].
  { intros j _. pose proof (walk_in_range g G (hash v) j) as Hr. rewrite (rep_wanted _ _ _ _ _ _ _ P3) //.
    eapply crossing_range; [exact G|exact P3]. }
  rewrite Hw in Ha. exists u4. split; [done|]. split; [|by rewrite (sw_n_entries _ _ _ S4)].
  rewrite Z2Nat.id in HW; [lia|]. rewrite Z.sub_add in HW.
  assert (rep u4 T {[s]} R (crossing (<[s := (v, q)]> T))) as P4.
  { eapply (rep_same_but_wanted g G); [exact P3|exact S4|]. intros s' Hs'.
    rewrite HW // crossing_insert // (rep_wanted _ _ _ _ _ _ _ P3) //.
    rewrite passes_one. lia. }
  destruct (same_but_wanted_fields g u3 u4 s S4 Hs) as (E1 & E2 & _). rewrite D3 in E1, E2.
  replace (∅ : gset Z) with ({[s]} ∖ {[s]} : gset Z) by set_solver.
  apply (rep_insert g G hash); try done; [set_solver|..].
  - intros i Hi. destruct (Hsol i Hi) as [|Hx]; [by left|right; set_solver].
  - apply (fo_covers _ _ _ _ (follows_sbw g G u3 u4 S4)), (fo_covers _ _ _ _ F3), (fo_covers _ _ _ _ F2).
    done.
Qed.

(** Where a probe for [v] lets it go. *)
Inductive place T v (r : probe_result) : Prop :=
| PlaceNone : r_slot r = None -> r_priority r = None -> place T v r
| PlaceAt s q :
    r_priority r = None -> r_slot r = Some s -> r_n_probes r = q -> T !! s = None ->
    1 <= q <= probe_limit g -> walk g (hash v) (Z.to_nat (q - 1)) = s ->
    (∀ i : nat, Z.of_nat i < q - 1 -> is_Some (T !! walk g (hash v) i)) -> place T v r
| PlaceOver f q k p :
    r_priority r = Some f -> r_n_probes r = q -> T !! f = Some (k, p) -> p < q ->
    1 <= q <= probe_limit g -> walk g (hash v) (Z.to_nat (q - 1)) = f ->
    (∀ i : nat, Z.of_nat i < q - 1 -> is_Some (T !! walk g (hash v) i)) -> place T v r.

Section probed.
Context (K : rhs_keys_ok hs) (u : ck_rhs_map) (T : layout) (W : Z -> Z) (P : rep u T ∅ ∅ W).

Lemma passed_occupied v b (n : nat) :
  (∀ j : nat, (0 <= j < n)%nat -> passed g hs u v (hash v) b j) ->
  ∀ i : nat, (i < n)%nat -> is_Some (T !! walk g (hash v) i).
Proof.
  intros Hp i Hi. destruct (Hp i) as [He _]; [lia|].
  apply (rep_nonempty g hash u T ∅ ∅ W _ P) in He; [|apply walk_in_range, Dm].
  destruct He as [|Hx]; [done|set_solver].
Qed.

(** The entry to displace. *)
Lemma priority_place v b (n : nat) f np :
  priority_ok g u (hash v) b 0 n (Some f) np -> Z.of_nat n <= probe_limit g ->
  ∃ k p, T !! f = Some (k, p) /\ p < np /\ 1 <= np <= Z.of_nat n /\
    walk g (hash v) (Z.to_nat (np - 1)) = f.
Proof.
  intros (_ & j & Hj & (He & _ & Hpj) & -> & ->) Hn.
  destruct (at_layout g (dm_geometry _ Dm) hs K u T ∅ W P (hash v) j He) as (p & HT & Hp).
  exists (at_ g u (hash v) j), p. rewrite Z.add_simpl_r Nat2Z.id. split_and!; [done|lia|lia|lia|done].
Qed.

Lemma probed_place v b lim opl r :
  robin_hood b = false -> opl <= probe_limit g ->
  probed g hs u v (hash v) b 0 lim opl r -> r_object r = CK_RHS_EMPTY -> place T v r.
Proof.
  intros Hb Hopl Hd H0.
  assert (∀ i, (∀ j : nat, (0 <= j < i)%nat -> passed g hs u v (hash v) b j) ->
    priority_ok g u (hash v) b 0 i (r_priority r) (r_n_probes r) -> Z.of_nat i <= opl ->
    r_priority r <> None -> place T v r) as Hover.
  { intros i Hpass Hpr Hi Hne. destruct (r_priority r) as [f|] eqn:Ef; [|done].
    pose proof (passed_occupied v b i Hpass) as Hocc.
    destruct (priority_place v b i f (r_n_probes r)) as (k & p & H1 & H2 & H3 & H4);
      [done|lia|].
    eapply PlaceOver; [exact Ef|done|exact H1|done|lia|done|]. intros i' Hi'. apply Hocc. lia. }
  destruct Hd as [i Hi Hio Hpass He Hs Ho Hpr Hnp|i Hi Hio Hpass He Hm|i Hi Hio Hpass Hs Ho Hpr Hnp|
                  i Hi Hio Hpass Hst Hrl Hri Ho Hpr Hnp].
  - destruct (r_priority r) as [f|] eqn:Ef; [apply (Hover i); [done|done|lia|done]|].
    assert (T !! walk g (hash v) i = None) as HT.
    { destruct (T !! walk g (hash v) i) as [x|] eqn:E; [|done].
      destruct (proj2 (rep_nonempty g hash u T ∅ ∅ W (walk g (hash v) i) P
        (walk_in_range g (dm_geometry _ Dm) _ _))); [left; by eexists|done]. }
    eapply (PlaceAt _ _ _ _ (Z.of_nat i + 1)); [done|exact Hs|by apply Hnp|done|lia| |].
    + f_equal. lia.
    + intros i' Hi'. apply (passed_occupied v b i Hpass). lia.
  - congruence.
  - destruct (r_priority r) as [f|] eqn:Ef; [apply (Hover i); [done|done|lia|done]|]. by apply PlaceNone.
  - destruct Hri as (He & Hrh & Hpb).
    destruct (at_layout g (dm_geometry _ Dm) hs K u T ∅ W P (hash v) i He) as (p & HT & Hp).
    eapply (PlaceOver _ _ _ _ (Z.of_nat i + 1)); [exact Hpr|done|exact HT|lia|lia|f_equal; lia|].
    intros i' Hi'. apply (passed_occupied v b i Hpass). lia.
Qed.

(** The slot that ended a probe without a match is empty. *)
Lemma probed_slot_empty v b lim opl r s :
  stops_at_priority b = false -> probed g hs u v (hash v) b 0 lim opl r ->
  r_object r = CK_RHS_EMPTY -> r_slot r = Some s -> in_range s /\ T !! s = None.
Proof.
  intros Hst Hd H0 Hs. destruct Hd as [i Hi Hio Hpass He Hsl Ho Hpr Hnp| | |]; try congruence.
  rewrite Hs in Hsl. injection Hsl as ->.
  assert (in_range (walk g (hash v) i)) as Hr by apply walk_in_range, Dm. split; [done|].
  destruct (T !! walk g (hash v) i) as [x|] eqn:E; [|done].
  destruct (proj2 (rep_nonempty g hash u T ∅ ∅ W (walk g (hash v) i) P Hr)); [left; by eexists|done].
Qed.

(** A match, and the entry to displace on the way to it. *)
Definition over v (r : probe_result) i : Prop :=
  match r_priority r with
  | None => r_n_probes r = Z.of_nat i + 1
  | Some f => ∃ k p, T !! f = Some (k, p) /\ p < r_n_probes r /\ 1 <= r_n_probes r <= Z.of_nat i /\
      walk g (hash v) (Z.to_nat (r_n_probes r - 1)) = f
  end.

Lemma probed_match v b lim opl r :
  robin_hood b = false -> stops_at_priority b = false -> opl <= probe_limit g ->
  probed g hs u v (hash v) b 0 lim opl r -> r_object r <> CK_RHS_EMPTY ->
  ∃ i, found_in g hs T v (hash v) r i /\ over v r i /\ Z.of_nat i < probe_limit g /\
    ∀ j : nat, (j < i)%nat -> is_Some (T !! walk g (hash v) j).
Proof.
  intros Hb Hst Hopl Hd H0. destruct Hd as [|i Hi Hio Hpass He Hm _ Hs Ho Hpr Hnp| |]; try congruence.
  exists i. pose proof (match_place g (dm_geometry _ Dm) hs K u T ∅ W P v b i Hb) as HT.
  rewrite -Ho in HT, He, Hm. 
  assert (T !! walk g (hash v) i = Some (r_object r, Z.of_nat i + 1)) as HTi.
  { apply HT; [intros; apply Hpass; lia|done|done]. }
  split; [by split_and!|]. split; [|split; [lia|]].
  - unfold over. destruct (r_priority r) as [f|] eqn:Ef; [|by apply Hnp].
    destruct Hpr as (_ & j & Hj & (Hej & _ & Hpj) & -> & Hnpj).
    destruct (at_layout g (dm_geometry _ Dm) hs K u T ∅ W P (hash v) j Hej) as (p & HTj & Hpp).
    assert (j <> i) as Hji.
    { intros ->. rewrite HTi in HTj. injection HTj as _ E. lia. }
    exists (at_ g u (hash v) j), p. rewrite Hnpj Z.add_simpl_r Nat2Z.id. split_and!; [done|lia|lia|lia|done].
  - intros j Hj. apply (passed_occupied v b i Hpass). lia.
Qed.
End probed.
End place.

(** * Insertion *)

Section insert.
Context (malloc_ok : heap -> Z -> bool) (Hlimited : malloc_limited malloc_ok).
Implicit Types (hs : ck_rhs) (g u : ck_rhs_map) (s k h p q v : Z) (T : layout) (X R : gset Z).

Abbreviation rhs_wf := (rhs_wf malloc_ok).

(** The state after an operation: the invariant, the same callbacks, the given
    entries. *)
Definition rhs_post hs hs' (l : list Z) : Prop :=
  same_callbacks hs hs' /\ ∃ g' T', rhs_wf hs' g' T' /\ keys T' ≡ₚ l.

Lemma rhs_post_refl hs g T : rhs_wf hs g T -> rhs_post hs hs (keys T).
Proof. intros W. split; [done|]. by exists g, T. Qed.

Lemma rhs_post_perm hs hs' l l' : rhs_post hs hs' l -> l ≡ₚ l' -> rhs_post hs hs' l'.
Proof. intros (S & g' & T' & W & E) H. split; [done|]. exists g', T'. by rewrite -H. Qed.

Lemma rhs_post_trans hs1 hs2 hs3 l :
  same_callbacks hs1 hs2 -> rhs_post hs2 hs3 l -> rhs_post hs1 hs3 l.
Proof. intros S1 (S2 & H). split; [by eapply same_callbacks_trans|done]. Qed.

(** A failed growth changes the heap only. *)
Lemma wf_unchanged hs hs' g T l :
  rhs_wf hs g T -> same_callbacks hs hs' -> map hs' = map hs -> growable malloc_ok hs' g l ->
  rhs_wf hs' g T.
Proof.
  intros [Dm P N O] S E Gr. split; [done|by rewrite E (same_callbacks_hash _ _ S)|by rewrite E|apply Gr].
Qed.

Lemma rhs_postinsert_ok hs g T :
  dimensions g -> rep g (rhs_hash hs) (map hs) T ∅ ∅ (crossing g (rhs_hash hs) T) ->
  owns malloc_ok hs (size g) -> n_entries (map hs) + 1 = count T -> count T < 65534 ->
  ∃ hs', postinsert malloc_ok hs = Some hs' /\ rhs_post hs hs' (keys T).
Proof.
  intros Dm P O Hn Hfew. unfold postinsert.
  assert (u64 (n_entries (map hs) + 1) = count T) as -> by (unfold u64; rewrite Z.mod_small; lia).
  set (hs1 := set_map hs _).
  assert (rhs_wf hs1 g T) as W1.
  { split; [done| |done|done]. by apply rep_set_n_entries; [apply Dm|]. }
  cbn zeta. destruct (_ <? _); [|exists hs1; split; [done|split; [done|by exists g, T]]].
  destruct (rhs_grow_double malloc_ok Hlimited hs1 g (keys T)) as (b & hs' & Hg & S & Hp);
    [by apply wf_growable|rewrite -keys_length; lia|].
  rewrite Hg. cbn [mbind option_bind].
  exists hs'. split; [done|]. destruct b.
  - destruct Hp as (g' & T' & W' & Hk & _). split; [done|]. by exists g', T'.
  - destruct Hp as (E & Gr & _). split; [done|]. exists g, T. split; [|done]. by eapply wf_unchanged.
Qed.

(** Vacating the slot that a probe asked to displace. *)
Lemma vacate_ok hs g T R0 v f q k p :
  dimensions g -> rep g (rhs_hash hs) (map hs) T ∅ R0 (crossing g (rhs_hash hs) T) ->
  owns malloc_ok hs (size g) -> count T < 65534 -> T !! f = Some (k, p) -> f ∉ R0 ->
  1 <= q <= probe_limit g -> walk g (rhs_hash hs v) (Z.to_nat (q - 1)) = f ->
  (∀ i : nat, Z.of_nat i < q - 1 -> is_Some (T !! walk g (rhs_hash hs v) i)) ->
  covers g (map hs) (rhs_hash hs v) q ->
  ∃ ret hs', ck_rhs_put_robin_hood malloc_ok hs f = Some (ret, hs') /\ same_callbacks hs hs' /\
    match ret with
    | RhDone => m hs' = m hs /\ n_entries (map hs') = n_entries (map hs) /\
        covers g (map hs') (rhs_hash hs v) q /\ q <= capacity g /\
        ∃ T', rep g (rhs_hash hs) (map hs') T' {[f]} R0 (crossing g (rhs_hash hs) T') /\
          T' !! f = None /\ keys T' ≡ₚ keys T /\
          (∀ i : nat, Z.of_nat i < q - 1 -> solid T' {[f]} (walk g (rhs_hash hs v) i)) /\
          (∀ s, s ∈ R0 -> is_Some (T !! s) -> T' !! s = T !! s)
    | RhGrown => ∃ g' T', rhs_wf hs' g' T' /\ keys T' ≡ₚ keys T /\ 2 * capacity g <= capacity g'
    | RhFailed => rep g (rhs_hash hs) (map hs') T ∅ R0 (crossing g (rhs_hash hs) T) /\
        n_entries (map hs') = n_entries (map hs) /\ owns malloc_ok hs' (size g) /\ alloc_failed (m hs')
    end.
Proof.
  intros Dm P O Hfew HT Hf Hq Hw Hocc Hcov.
  destruct (ck_rhs_put_robin_hood_ok malloc_ok Hlimited g Dm hs T R0 f k p) as (ret & hs' & Hr & S & Hd);
    [done..|]. exists ret, hs'. split; [done|]. split; [done|]. destruct ret; [|done|done].
  destruct Hd as (Hm & T' & V & (e & He1 & He2) & Hkeep). destruct V as [V1 V2 V3 V4 V5 V6].
  split_and!; [done|done|by apply V5| |].
  - eapply (walk_short g (dm_geometry _ Dm) T ∅ e (rhs_hash hs v)); [done| |].
    + intros [[? ?]|Hx]; [congruence|set_solver].
    + intros i Hi. left. by apply Hocc.
  - exists T'. split_and!; try done. intros i Hi. apply V6. left. by apply Hocc.
Qed.
End insert.
