(* ===== verification/RhsSet.v ===== *)
(** [ck_rhs]: the specification of each operation as a relation on the entries of
    the set. *)

From S2P Require Export RhsDisplace.
Set Warnings "-rewrite-rw,-clear-no-such-hyp".

(** No entry, or some entry, of a list has the given key. *)
Definition rhs_missing hs (l : list Z) (key : Z) : Prop := ∀ w, w ∈ l -> rhs_keq hs w key = false.
Definition rhs_member hs (l : list Z) (key w : Z) : Prop := w ∈ l /\ rhs_keq hs w key = true.

Lemma absent_rhs_missing hs T key : absent hs T key <-> rhs_missing hs (keys T) key.
Proof.
  split.
  - intros H w (s & p & Hw)%elem_of_keys. by eapply H.
  - intros H s k p Hs. apply H, elem_of_keys. by exists s, p.
Qed.

Lemma rhs_missing_perm hs l l' key : l ≡ₚ l' -> rhs_missing hs l key -> rhs_missing hs l' key.
Proof. intros E H w. rewrite -E. apply H. Qed.

Lemma rhs_missing_callbacks hs hs' l key :
  same_callbacks hs hs' -> rhs_missing hs' l key <-> rhs_missing hs l key.
Proof. intros S. unfold rhs_missing. by rewrite (same_callbacks_keq _ _ S). Qed.

Lemma match_option_same {A B} (o : option A) (x : B) :
  match o with Some _ => x | None => x end = x.
Proof. by destruct o. Qed.

(** Follow a chain of steps that is known to succeed. *)
Ltac follow H :=
  repeat match type of H with
  | mbind _ ?e = Some _ =>
      revert H; destruct e; [|discriminate]; cbn [mbind option_bind]; intros H
  end.

Section spec.
Context (malloc_ok : heap -> Z -> bool) (Hlimited : malloc_limited malloc_ok).
Implicit Types (hs : ck_rhs) (g u : ck_rhs_map) (s k h p q v : Z) (T : layout) (X R : gset Z) (l : list Z).

Abbreviation rhs_wf := (rhs_wf malloc_ok).
Abbreviation rhs_post := (rhs_post malloc_ok).

(** Probes of the operations that insert look at the whole table, or as far as the
    bound of the key allows. *)
Lemma probe_put_ok hs g T v b :
  rhs_wf hs g T -> robin_hood b = false ->
  ∃ r lim, probe_func hs (map hs) 0 None (rhs_hash hs v) v (probe_limit (map hs)) b = Some r /\
    probed g hs (map hs) v (rhs_hash hs v) b 0 lim (probe_limit g) r /\
    ∀ p, covers g (map hs) (rhs_hash hs v) p -> p <= lim.
Proof.
  intros W Hb. pose proof (rw_rep _ _ _ _ W) as P. pose proof (rw_dimensions _ _ _ _ W) as Dm.
  pose proof (rep_shape _ _ _ _ _ _ _ P) as Sh. rewrite (sh_probe_limit _ _ Sh).
  destruct (bound_get_ok g (dm_geometry _ Dm) (rhs_hash hs) (map hs) T ∅ ∅ _ (rhs_hash hs v) P)
    as (lim & Hlim & Hr & Hc).
  destruct (probe_func_start g (dm_geometry _ Dm) hs (map hs) v (rhs_hash hs v) 0 None (probe_limit g) b)
    as (r & lim' & Hp & Hpr & Hor); [done|done|pose proof (dm_limit _ Dm); lia| |].
  { intros _ _. by exists lim. }
  exists r, lim'. split_and!; [done..|]. destruct Hor as [->|[_ Hl]].
  - intros p [Hp1 _]. pose proof (rep_maximum _ _ _ _ _ _ _ P). lia.
  - intros p Hcp. assert (lim' = lim) as -> by congruence. by apply Hc.
Qed.

(** A restart follows a growth that at least doubled the capacity. *)
Lemma restart_ok hs g g' T' k (fuel : nat) :
  rhs_wf hs g' T' -> capacity g = 2 ^ k -> 3 <= k -> 2 * capacity g <= capacity g' ->
  32 <= Z.of_nat (S fuel) + k -> ∃ k', 3 <= k' /\ capacity g' = 2 ^ k' /\ 32 <= Z.of_nat fuel + k'.
Proof.
  intros W Hk H3 H2 Hf.
  destruct (rhs_capacity_limited malloc_ok Hlimited hs g' (rw_owns _ _ _ _ W) (rw_dimensions _ _ _ _ W)) as (k' & Hk' & E).
  exists k'. split_and!; [lia|done|]. rewrite Hk E in H2. pose proof (Z.pow_succ_r 2 k ltac:(lia)) as Hs.
  rewrite -Hs in H2. apply Z.pow_le_mono_r_iff in H2; lia.
Qed.

Lemma fuel_left hs g T k : rhs_wf hs g T -> capacity g = 2 ^ k -> 3 <= k -> ¬ 32 <= Z.of_nat 0 + k.
Proof.
  intros W Hk H3 Hf.
  destruct (rhs_capacity_limited malloc_ok Hlimited hs g (rw_owns _ _ _ _ W) (rw_dimensions _ _ _ _ W)) as (k' & Hk' & E).
  rewrite Hk in E. apply Z.pow_inj_r in E; lia.
Qed.

(** ** The end of an insertion *)

(** Into an empty slot. *)
Lemma insert_at_ok hs g T u v s q :
  rhs_wf hs g T -> rep g (rhs_hash hs) u T ∅ ∅ (crossing g (rhs_hash hs) T) ->
  n_entries u = n_entries (map hs) -> covers g u (rhs_hash hs v) q -> v <> CK_RHS_EMPTY ->
  count T < 65533 -> T !! s = None -> 1 <= q <= probe_limit g ->
  walk g (rhs_hash hs v) (Z.to_nat (q - 1)) = s ->
  (∀ i : nat, Z.of_nat i < q - 1 -> is_Some (T !! walk g (rhs_hash hs v) i)) ->
  ∃ hs', (mp ← store_entry u s v;
          mp ← ck_rhs_set_probes mp s q;
          mp ← ck_rhs_add_wanted mp s None (rhs_hash hs v);
          postinsert malloc_ok (set_map hs mp)) = Some hs' /\ rhs_post hs hs' (v :: keys T).
Proof.
  intros W P Hn Hcov Hv Hfew HT Hq Hw Hocc. pose proof (rw_dimensions _ _ _ _ W) as Dm.
  pose proof (dm_geometry _ Dm) as G.
  assert (in_range g s) as Hs by (rewrite -Hw; by apply walk_in_range).
  assert (q <= capacity g) as Hqc.
  { eapply (walk_short g G T ∅ s (rhs_hash hs v)); [done| |].
    - intros [[? ?]|Hx]; [congruence|set_solver].
    - intros i Hi. left. by apply Hocc. }
  destruct (place_new g Dm hs u T ∅ ∅ v q s false 0) as (u' & Hst & P' & Hn');
    [done|set_solver|done|done|done|done|lia|lia|intros i Hi; left; by apply Hocc|done|lia|].
  revert Hst. destruct (store_entry u s v) as [u1|]; [|done]. cbn [mbind option_bind].
  destruct (ck_rhs_set_probes u1 s q) as [u2|]; [|done]. cbn [mbind option_bind]. intros ->.
  cbn [mbind option_bind].
  destruct (rhs_postinsert_ok malloc_ok Hlimited (set_map hs u') g (<[s := (v, q)]> T)) as (hs' & Hpo & Po);
    [done|done|apply W| | |].
  - cbn. rewrite count_insert // Hn' Hn (rw_n_entries _ _ _ _ W). done.
  - rewrite count_insert //. lia.
  - exists hs'. split; [done|]. eapply rhs_post_perm; [|by apply keys_insert].
    eapply rhs_post_trans; [|exact Po]. done.
Qed.

(** Into a slot that was vacated. *)
Lemma insert_over_ok hs hs1 g T T' u v f q :
  rhs_wf hs g T -> same_callbacks hs hs1 -> m hs1 = m hs ->
  rep g (rhs_hash hs) u T' {[f]} ∅ (crossing g (rhs_hash hs) T') -> T' !! f = None ->
  keys T' ≡ₚ keys T -> n_entries u = n_entries (map hs) -> covers g u (rhs_hash hs v) q ->
  v <> CK_RHS_EMPTY -> count T < 65533 -> 1 <= q <= probe_limit g -> q <= capacity g ->
  walk g (rhs_hash hs v) (Z.to_nat (q - 1)) = f ->
  (∀ i : nat, Z.of_nat i < q - 1 -> solid T' {[f]} (walk g (rhs_hash hs v) i)) ->
  ∃ hs', (mp ← store_entry u f v;
          mp ← ck_rhs_set_probes mp f q;
          mp ← ck_rhs_add_wanted mp f None (rhs_hash hs v);
          postinsert malloc_ok (set_map hs1 mp)) = Some hs' /\ rhs_post hs hs' (v :: keys T).
Proof.
  intros W S Hm P HT Hk Hn Hcov Hv Hfew Hq Hqc Hw Hsol. pose proof (rw_dimensions _ _ _ _ W) as Dm.
  pose proof (dm_geometry _ Dm) as G.
  assert (in_range g f) as Hs by (rewrite -Hw; by apply walk_in_range).
  assert (count T' = count T) as Hct by by rewrite !keys_length Hk.
  destruct (place_new g Dm hs u T' {[f]} ∅ v q f false 0) as (u' & Hst & P' & Hn');
    [done|done|done|done|done|done|lia|lia|done|done|lia|].
  revert Hst. destruct (store_entry u f v) as [u1|]; [|done]. cbn [mbind option_bind].
  destruct (ck_rhs_set_probes u1 f q) as [u2|]; [|done]. cbn [mbind option_bind]. intros ->.
  cbn [mbind option_bind].
  destruct (rhs_postinsert_ok malloc_ok Hlimited (set_map hs1 u') g (<[f := (v, q)]> T')) as (hs' & Hpo & Po).
  - done.
  - change (rhs_hash (set_map hs1 u')) with (rhs_hash hs1). rewrite (same_callbacks_hash _ _ S). done.
  - unfold owns. cbn. rewrite Hm. apply W.
  - cbn. rewrite count_insert // Hn' Hn (rw_n_entries _ _ _ _ W). lia.
  - rewrite count_insert //. lia.
  - exists hs'. split; [done|]. apply rhs_post_perm with (keys (<[f := (v, q)]> T')); [|rewrite keys_insert //; by rewrite Hk].
    eapply rhs_post_trans; [|exact Po]. done.
Qed.

(** ** [ck_rhs_put] and [ck_rhs_put_unique] *)

Definition rhs_put_spec hs l v (b : bool) hs' : Prop :=
  if b then rhs_missing hs l v /\ rhs_post hs hs' (v :: l)
  else rhs_post hs hs' l /\ ((∃ w, rhs_member hs l v w) \/ alloc_failed (m hs')).

Lemma put_spec_perm hs l l' v b hs' : l ≡ₚ l' -> rhs_put_spec hs l v b hs' -> rhs_put_spec hs l' v b hs'.
Proof.
  intros E. destruct b; cbn.
  - intros [H1 H2]. split; [by eapply rhs_missing_perm|]. eapply rhs_post_perm; [done|by rewrite E].
  - intros [H1 H2]. split; [by eapply rhs_post_perm|]. destruct H2 as [(w & Hw & Hk)|]; [left|by right].
    exists w. split; [by rewrite -E|done].
Qed.

Lemma put_spec_restart hs hs1 l v b hs' :
  same_callbacks hs hs1 -> rhs_put_spec hs1 l v b hs' -> rhs_put_spec hs l v b hs'.
Proof.
  intros S. destruct b; cbn.
  - intros [H1 H2]. split; [by apply (rhs_missing_callbacks _ _ _ _ S)|by eapply rhs_post_trans].
  - intros [H1 H2]. split; [by eapply rhs_post_trans|]. destruct H2 as [(w & Hw & Hk)|]; [left|by right].
    exists w. split; [done|]. by rewrite -(same_callbacks_keq _ _ S).
Qed.

(** What the probe of an insertion says when nothing was found, or when nothing
    equal is there to be found. *)
Lemma put_probe_absent hs g T v b lim r :
  rhs_wf hs g T -> rhs_keys_ok hs -> robin_hood b = false ->
  b = CK_RHS_PROBE_INSERT \/ rhs_missing hs (keys T) v ->
  probed g hs (map hs) v (rhs_hash hs v) b 0 lim (probe_limit g) r ->
  (∀ p, covers g (map hs) (rhs_hash hs v) p -> p <= lim) ->
  r_object r = CK_RHS_EMPTY /\ rhs_missing hs (keys T) v /\ place g hs T v r \/
  r_object r <> CK_RHS_EMPTY /\ (∃ w, rhs_member hs (keys T) v w).
Proof.
  intros W K Hb Hor Hd Hlim. pose proof (rw_rep _ _ _ _ W) as P. pose proof (rw_dimensions _ _ _ _ W) as Dm.
  destruct (decide (r_object r = CK_RHS_EMPTY)) as [H0|H0].
  - left. split; [done|]. split; [|by eapply probed_place].
    destruct Hor as [->|]; [|done].
    destruct (probed_lookup g (dm_geometry _ Dm) hs K (map hs) T ∅ _ P v _ lim _ r Hb ltac:(done) Hlim Hd)
      as [[_ Ha]|[? _]]; [by apply absent_rhs_missing|done].
  - right. split; [done|]. destruct Hd as [|i Hi Hio Hpass He Hm _ Hs Ho Hpr Hnp| |]; try congruence.
    pose proof (match_place g (dm_geometry _ Dm) hs K (map hs) T ∅ _ P v b i Hb) as HT.
    exists (at_ g (map hs) (rhs_hash hs v) i). split; [|done]. apply elem_of_keys. eexists _, _. apply HT; try done.
    intros j Hj. apply Hpass. lia.
Qed.

Lemma rhs_put_loop_ok fuel hs g T v b k :
  rhs_wf hs g T -> rhs_keys_ok hs -> v <> CK_RHS_EMPTY -> count T < 65533 ->
  b = CK_RHS_PROBE_INSERT \/ b = CK_RHS_PROBE_RH /\ rhs_missing hs (keys T) v ->
  capacity g = 2 ^ k -> 3 <= k -> 32 <= Z.of_nat fuel + k ->
  ∃ r hs', put_internal_loop malloc_ok fuel hs (rhs_hash hs v) v b = Some (r, hs') /\
           rhs_put_spec hs (keys T) v r hs'.
Proof.
  revert hs g T k. induction fuel as [|fuel IH]; intros hs g T k W K Hv Hfew Hb Hcap H3 Hf.
  { by destruct (fuel_left hs g T k). }
  pose proof (rw_rep _ _ _ _ W) as P. pose proof (rw_dimensions _ _ _ _ W) as Dm.
  assert (robin_hood b = false) as Hrb by (by destruct Hb as [->|[-> _]]).
  cbn [put_internal_loop].
  destruct (probe_put_ok hs g T v b W Hrb) as (r & lim & Hr & Hd & Hlim). rewrite Hr. cbn [mbind option_bind].
  assert (∀ hs1 g1 T1, same_callbacks hs hs1 -> rhs_wf hs1 g1 T1 -> keys T1 ≡ₚ keys T ->
    2 * capacity g <= capacity g1 ->
    ∃ r hs', put_internal_loop malloc_ok fuel hs1 (rhs_hash hs v) v b = Some (r, hs') /\
             rhs_put_spec hs (keys T) v r hs') as Hagain.
  { intros hs1 g1 T1 S W1 Hk1 H2. destruct (restart_ok hs1 g g1 T1 k fuel W1 Hcap H3 H2 Hf) as (k1 & ? & ? & ?).
    rewrite -(same_callbacks_hash _ _ S).
    destruct (IH hs1 g1 T1 k1) as (r1 & hs' & Hl & Hs); try done.
    - by eapply same_callbacks_keys.
    - rewrite keys_length Hk1 -keys_length. lia.
    - destruct Hb as [|[? Hm]]; [by left|right]. split; [done|]. apply (rhs_missing_callbacks hs); [done|].
      by eapply rhs_missing_perm.
    - exists r1, hs'. split; [done|]. eapply put_spec_restart; [done|]. by eapply put_spec_perm. }
  destruct (put_probe_absent hs g T v b lim r W K Hrb) as [(H0 & Hmiss & Hpl)|(H0 & w & Hw)]; try done.
  { destruct Hb as [|[_ ?]]; [by left|by right]. }
  2:{ rewrite (proj2 (Z.eqb_neq _ _) H0). cbn [negb]. exists false, hs. split.
      - destruct (r_slot r) eqn:Es, (r_priority r) eqn:Ep; try done. exfalso.
        destruct Hd; congruence.
      - split; [by eapply rhs_post_refl|left; by exists w]. }
  rewrite (proj2 (Z.eqb_eq _ _) H0). cbn [negb].
  destruct Hpl as [Hsl Hpr|s q Hpr Hsl Hnp HTs Hq Hw Hocc|f q kf pf Hpr Hnp HTf Hpq Hq Hw Hocc].
  - rewrite Hsl Hpr. destruct (rhs_grow_double malloc_ok Hlimited hs g (keys T)) as (ok & hs1 & Hg & S & Hp);
      [by apply wf_growable|rewrite -keys_length; lia|]. rewrite Hg. cbn [mbind option_bind].
    destruct ok; cbn [negb].
    + destruct Hp as (g1 & T1 & W1 & Hk1 & H2). by eapply Hagain.
    + destruct Hp as (E & Gr & Hf1). eexists _, _. split; [done|]. split; [|by right].
      split; [done|]. exists g, T. split; [|done]. by eapply wf_unchanged.
  - rewrite Hsl Hpr Hnp.
    destruct (follows_bound_set g (dm_geometry _ Dm) (rhs_hash hs) (dimensions_limit' _ Dm) (map hs) T ∅ ∅ _
      (rhs_hash hs v) q P) as (u & -> & Pu & Cu & Fu); [lia|]. cbn [mbind option_bind].
    destruct (insert_at_ok hs g T u v s q) as (hs' & Hst & Po); try done; [apply Fu|].
    unfold ck_rhs_marshal. follow Hst. rewrite Hst. cbn [mbind option_bind].
    exists true, hs'. split; [done|]. by split.
  - rewrite Hpr Hnp match_option_same. unfold ck_rhs_marshal.
    destruct (follows_bound_set g (dm_geometry _ Dm) (rhs_hash hs) (dimensions_limit' _ Dm) (map hs) T ∅ ∅ _
      (rhs_hash hs v) q P) as (u & -> & Pu & Cu & Fu); [lia|]. cbn [mbind option_bind].
    destruct (vacate_ok malloc_ok Hlimited (set_map hs u) g T ∅ v f q kf pf) as (ret & hs1 & Hrh & S & Hret);
      try done; [apply W|lia|].
    rewrite Hrh. cbn [mbind option_bind]. destruct ret.
    + destruct Hret as (Hm & Hn & Hc & Hqc & T' & P' & HT' & Hk' & Hsol & _).
      destruct (insert_over_ok hs hs1 g T T' (map hs1) v f q) as (hs' & Hst & Po); try done.
      { rewrite Hn. apply Fu. }
      follow Hst. rewrite Hst. cbn [mbind option_bind].
      exists true, hs'. split; [done|]. by split.
    + destruct Hret as (g1 & T1 & W1 & Hk1 & H2).
      destruct (Hagain hs1 g1 T1) as (r1 & hs' & Hl & Hs); try done. by exists r1, hs'.
    + destruct Hret as (P1 & Hn1 & O1 & Hf1). exists false, hs1. split; [done|].
      split; [|by right]. split; [done|]. exists g, T. split; [|done]. split; try done.
      * by rewrite (same_callbacks_hash _ _ S).
      * rewrite Hn1. cbn. rewrite (fo_n_entries _ _ _ _ Fu). apply W.
Qed.
End spec.

(** [ck_rhs]: replacement, fetch-and-store, deletion and lookup. *)

(** The flag that [mark_slot] sets or clears. *)
Definition slot_set (o : option Z) : gset Z := match o with Some s => {[s]} | None => ∅ end.

Section exchange.
Context (g : ck_rhs_map) (Dm : dimensions g) (hs : ck_rhs).
Implicit Types (u : ck_rhs_map) (s k h p q v w : Z) (T : layout) (X R : gset Z) (W : Z -> Z).

Abbreviation hash := (rhs_hash hs).
Abbreviation rep := (rep g hash).
Abbreviation crossing := (crossing g hash).

Lemma mark_slot_ok u T X R W o (v : bool) :
  rep u T X R W -> (∀ s, o = Some s -> in_range g s) ->
  ∃ u', mark_slot u o v = Some u' /\
    rep u' T X (if v then slot_set o ∪ R else R ∖ slot_set o) W /\ follows g ∅ u u'.
Proof.
  intros P Hr. pose proof (dm_geometry _ Dm) as G. pose proof (rep_shape _ _ _ _ _ _ _ P) as Sh.
  destruct o as [s|]; cbn.
  - rewrite (update_ok g G) //; [by apply Hr|]. eexists. split; [done|]. split.
    + by apply rep_mark; auto.
    + apply follows_mark; auto.
  - exists u. split; [done|]. split; [|done].
    destruct v; [by rewrite left_id_L|by rewrite difference_empty_L].
Qed.

(** An entry replaced by an equal one, in place. *)
Lemma rhs_replace_ok u T s w v p :
  rep u T ∅ ∅ (crossing T) -> T !! s = Some (w, p) -> hash w = hash v -> v <> CK_RHS_EMPTY ->
  ∃ u', (mp ← store_entry u s v; ck_rhs_set_probes mp s p) = Some u' /\
    rep u' (<[s := (v, p)]> T) ∅ ∅ (crossing (<[s := (v, p)]> T)) /\ n_entries u' = n_entries u /\
    w :: keys (<[s := (v, p)]> T) ≡ₚ v :: keys T.
Proof.
  intros P HT Hh Hv. pose proof (dm_geometry _ Dm) as G. pose proof (rep_shape _ _ _ _ _ _ _ P) as Sh.
  pose proof (dm_limit _ Dm) as Hlim.
  destruct (pl_slot _ _ _ (rep_placed _ _ _ _ _ _ _ P) _ _ _ HT) as (Hw0 & Hp & Hpl & Hwalk).
  assert (in_range g s) as Hs by (rewrite -Hwalk; by apply walk_in_range).
  pose proof (rep_covers _ _ _ _ _ _ _ P _ _ _ HT) as Hcov.
  pose proof (λ i Hi, rep_no_gap _ _ _ _ _ _ _ P s w p i HT Hi) as Hgap.
  pose proof (pl_few _ _ _ (rep_placed _ _ _ _ _ _ _ P)) as Hfew.
  assert (delete s T !! s = None) as HTd by apply lookup_delete_eq.
  assert (<[s := (v, p)]> (delete s T) = <[s := (v, p)]> T) as Eins by apply insert_delete_eq.
  pose proof (rep_delete g G hash u T ∅ ∅ _ s w p P HT) as P1. rewrite right_id_L in P1.
  unfold store_entry. rewrite (update_ok g G) //. cbn [mbind option_bind].
  pose proof (rep_stale_upd g G hash u _ _ _ _ s (put_entry v) P1 ltac:(set_solver) ltac:(done) ltac:(done)) as P2.
  pose proof (D_upd_same g G u s (put_entry v) Sh Hs) as D2.
  set (u1 := upd u s _) in *. assert (shape g u1) as S1 by apply P2.
  unfold ck_rhs_set_probes. rewrite (update_ok g G) //. rewrite u32_small; [lia|].
  pose proof (rep_stale_upd g G hash u1 _ _ _ _ s (put_probes p) P2 ltac:(set_solver) ltac:(done)
    ltac:(by rewrite D2)) as P3.
  pose proof (D_upd_same g G u1 s (put_probes p) S1 Hs) as D3. rewrite D2 in D3.
  pose proof (follows_upd g G u s (put_entry v) Sh Hs ltac:(done)) as F1.
  pose proof (follows_upd g G u1 s (put_probes p) S1 Hs ltac:(done)) as F2.
  set (u2 := upd u1 s _) in *. eexists. split; [done|]. split; [|split; [done|]].
  - rewrite -Eins. replace (∅ : gset Z) with ({[s]} ∖ {[s]} : gset Z) at 1 by set_solver.
    assert (rep u2 (delete s T) {[s]} ∅ (crossing (<[s := (v, p)]> (delete s T)))) as P4.
    { eapply rep_weaken_W; [exact P3|]. intros s' _. rewrite crossing_insert // (crossing_delete _ _ _ _ _ _ _ HT) Hh. lia. }
    apply (rep_insert g G hash); try done; [set_solver|by rewrite D3|by rewrite D3|by rewrite -Hh| | |].
    + rewrite (count_delete _ _ _ HT). lia.
    + intros i Hi. rewrite -Hh. destruct (Hgap i Hi) as [Hx|Hx]; [|set_solver].
      destruct (decide (walk g (hash w) i = s)) as [->|Hn]; [right; set_solver|left].
      by rewrite lookup_delete_ne.
    + rewrite -Hh. by apply (fo_covers _ _ _ _ F2), (fo_covers _ _ _ _ F1).
  - rewrite -Eins keys_insert // (keys_delete _ _ _ _ HT). apply Permutation_swap.
Qed.

(** The new entry in the vacated slot [f], then the old one deleted from its slot. *)
Lemma exchange_over_ok u T v f q s w p (sg : bool) h :
  rep u T {[f]} ∅ (crossing T) -> T !! f = None -> T !! s = Some (w, p) ->
  covers g u (hash v) q -> v <> CK_RHS_EMPTY -> count T < 65533 ->
  1 <= q <= probe_limit g -> q <= capacity g -> walk g (hash v) (Z.to_nat (q - 1)) = f ->
  (∀ i : nat, Z.of_nat i < q - 1 -> solid T {[f]} (walk g (hash v) i)) ->
  ∃ u' T', (mp ← store_entry u f v;
            mp ← ck_rhs_set_probes (if sg then signal mp h else mp) f q;
            mp ← ck_rhs_add_wanted mp f None (hash v);
            ck_rhs_do_backward_shift_delete (if sg then mp else signal mp h) s) = Some u' /\
    rep u' T' ∅ ∅ (crossing T') /\ n_entries u' = n_entries u /\ w :: keys T' ≡ₚ v :: keys T.
Proof.
  intros P HTf HTs Hcov Hv Hfew Hq Hqc Hw Hsol. pose proof (dm_geometry _ Dm) as G.
  assert (in_range g f) as Hf by (rewrite -Hw; by apply walk_in_range).
  destruct (place_new g Dm hs u T {[f]} ∅ v q f sg h P) as (u1 & Hst & P1 & N1); try done; [lia|lia|lia|].
  follow Hst. rewrite Hst. cbn [mbind option_bind].
  set (u2 := if sg then _ else _).
  assert (rep u2 (<[f := (v, q)]> T) ∅ ∅ (crossing (<[f := (v, q)]> T)) /\ n_entries u2 = n_entries u1)
    as [P2 N2] by (unfold u2; destruct sg; [done|split; [by apply rep_signal|done]]).
  assert (s <> f) as Hne by (intros ->; congruence).
  destruct (ck_rhs_do_backward_shift_delete_ok g G hash (dimensions_limit' _ Dm) (dimensions_capacity _ Dm)
    u2 (<[f := (v, q)]> T) ∅ s w p P2) as (u3 & T3 & Hd & P3 & Hk & N3); [by rewrite lookup_insert_ne|].
  exists u3, T3. split; [done|]. split; [done|]. split; [congruence|]. by rewrite Hk keys_insert.
Qed.
End exchange.

Section set.
Context (malloc_ok : heap -> Z -> bool) (Hlimited : malloc_limited malloc_ok).
Implicit Types (hs : ck_rhs) (g u : ck_rhs_map) (s k h p q v : Z) (T : layout) (X R : gset Z) (l : list Z).

Abbreviation rhs_wf := (rhs_wf malloc_ok).
Abbreviation rhs_post := (rhs_post malloc_ok).

(** The entry found is exchanged for an equal one. *)
Definition rhs_exchanged hs l v old hs' : Prop :=
  rhs_member hs l v old /\ old <> CK_RHS_EMPTY /\ ∃ l', rhs_post hs hs' l' /\ old :: l' ≡ₚ v :: l.

Definition rhs_set_spec hs l v (b : bool) old hs' : Prop :=
  if b then
    old = CK_RHS_EMPTY /\ rhs_missing hs l v /\ rhs_post hs hs' (v :: l) \/
    rhs_exchanged hs l v old hs'
  else rhs_post hs hs' l /\ alloc_failed (m hs').

(** A map with the entries of [T'] makes a well-formed set. *)
Lemma wf_set_map hs hs1 g T T' u :
  rhs_wf hs g T -> same_callbacks hs hs1 -> owns malloc_ok hs1 (size g) ->
  rep g (rhs_hash hs) u T' ∅ ∅ (crossing g (rhs_hash hs) T') -> n_entries u = n_entries (map hs) ->
  count T' = count T -> rhs_wf (set_map hs1 u) g T'.
Proof.
  intros W S O P Hn Hc. split; [apply W| |cbn; rewrite Hn Hc; apply W|done].
  change (rhs_hash (set_map hs1 u)) with (rhs_hash hs1). by rewrite (same_callbacks_hash _ _ S).
Qed.

Lemma exchanged_count (T T' : layout) w v : w :: keys T' ≡ₚ v :: keys T -> count T' = count T.
Proof. intros E%Permutation_length. cbn in E. rewrite !keys_length. lia. Qed.

Lemma exchanged_ok hs hs1 g T T' u v w :
  rhs_wf hs g T -> same_callbacks hs hs1 -> owns malloc_ok hs1 (size g) ->
  rep g (rhs_hash hs) u T' ∅ ∅ (crossing g (rhs_hash hs) T') -> n_entries u = n_entries (map hs) ->
  w :: keys T' ≡ₚ v :: keys T -> w <> CK_RHS_EMPTY -> rhs_member hs (keys T) v w ->
  rhs_exchanged hs (keys T) v w (set_map hs1 u).
Proof.
  intros W S O P Hn Hk Hw Hm. split; [done|]. split; [done|]. exists (keys T'). split; [|done].
  split; [done|]. exists g, T'. split; [|done]. eapply wf_set_map; try done. by eapply exchanged_count.
Qed.

Lemma rhs_keq_hash hs v key : rhs_keys_ok hs -> rhs_keq hs v key = true -> rhs_hash hs v = rhs_hash hs key.
Proof. intros K E. by apply (rk_hash hs K). Qed.

Lemma missing_keq hs l v key :
  rhs_keys_ok hs -> rhs_keq hs v key = true -> rhs_missing hs l key -> rhs_missing hs l v.
Proof.
  intros K E H w Hw. destruct (rhs_keq hs w v) eqn:Ew; [|done].
  pose proof (rk_trans _ K _ _ _ Ew E) as Hk. rewrite (H w Hw) in Hk. done.
Qed.

(** [ck_rhs_put_robin_hood] between setting and clearing the flag of [slot]. *)
Lemma vacate_marked_ok hs g T u v f q k p slot :
  dimensions g -> rep g (rhs_hash hs) u T ∅ ∅ (crossing g (rhs_hash hs) T) ->
  owns malloc_ok hs (size g) -> count T < 65534 -> T !! f = Some (k, p) -> f ∉ slot_set slot ->
  (∀ s, slot = Some s -> in_range g s) ->
  1 <= q <= probe_limit g -> walk g (rhs_hash hs v) (Z.to_nat (q - 1)) = f ->
  (∀ i : nat, Z.of_nat i < q - 1 -> is_Some (T !! walk g (rhs_hash hs v) i)) ->
  covers g u (rhs_hash hs v) q ->
  ∃ u1 ret hs', mark_slot u slot true = Some u1 /\
    ck_rhs_put_robin_hood malloc_ok (set_map hs u1) f = Some (ret, hs') /\ same_callbacks hs hs' /\
    match ret with
    | RhDone => m hs' = m hs /\ q <= capacity g /\
        ∃ u2 T', mark_slot (map hs') slot false = Some u2 /\ n_entries u2 = n_entries u /\
          covers g u2 (rhs_hash hs v) q /\
          rep g (rhs_hash hs) u2 T' {[f]} ∅ (crossing g (rhs_hash hs) T') /\
          T' !! f = None /\ keys T' ≡ₚ keys T /\
          (∀ i : nat, Z.of_nat i < q - 1 -> solid T' {[f]} (walk g (rhs_hash hs v) i)) /\
          (∀ s, slot = Some s -> is_Some (T !! s) -> T' !! s = T !! s)
    | RhGrown => ∃ g' T', rhs_wf hs' g' T' /\ keys T' ≡ₚ keys T /\ 2 * capacity g <= capacity g'
    | RhFailed => ∃ u2, mark_slot (map hs') slot false = Some u2 /\ n_entries u2 = n_entries u /\
        rep g (rhs_hash hs) u2 T ∅ ∅ (crossing g (rhs_hash hs) T) /\
        owns malloc_ok hs' (size g) /\ alloc_failed (m hs')
    end.
Proof.
  intros Dm P O Hfew HTf Hf Hr Hq Hw Hocc Hcov.
  destruct (mark_slot_ok g Dm hs u T ∅ ∅ _ slot true P Hr) as (u1 & -> & P1 & F1).
  exists u1. rewrite right_id_L in P1.
  destruct (vacate_ok malloc_ok Hlimited (set_map hs u1) g T (slot_set slot) v f q k p)
    as (ret & hs' & Hrh & S & Hret); try done; [by apply (fo_covers _ _ _ _ F1)|].
  exists ret, hs'. split; [done|]. split; [done|]. split; [done|].
  assert (slot_set slot ∖ slot_set slot = ∅) as Es by set_solver.
  destruct ret; [|done|].
  - destruct Hret as (Hm & Hn & Hc & Hqc & T' & P' & HT' & Hk' & Hsol & Hkeep).
    split; [done|]. split; [done|].
    destruct (mark_slot_ok g Dm hs (map hs') T' _ _ _ slot false P' Hr) as (u2 & -> & P2 & F2).
    rewrite Es in P2. exists u2, T'. split_and!; try done.
    + rewrite (fo_n_entries _ _ _ _ F2) Hn. apply F1.
    + by apply (fo_covers _ _ _ _ F2).
    + intros s -> Hs. apply Hkeep; [cbn; set_solver|done].
  - destruct Hret as (P' & Hn & O' & Hf').
    destruct (mark_slot_ok g Dm hs (map hs') T _ _ _ slot false P' Hr) as (u2 & -> & P2 & F2).
    rewrite Es in P2. exists u2. split_and!; try done.
    rewrite (fo_n_entries _ _ _ _ F2) Hn. apply F1.
Qed.

Abbreviation set_result hs g T v old res hs' :=
  (same_callbacks hs hs' /\
   match res with
   | None => ∃ g1 T1, rhs_wf hs' g1 T1 /\ keys T1 ≡ₚ keys T /\ 2 * capacity g <= capacity g1
   | Some b => rhs_set_spec hs (keys T) v b old hs'
   end).

(** Nothing equal was found. *)
Lemma set_store_new hs g T v r :
  rhs_wf hs g T -> v <> CK_RHS_EMPTY -> count T < 65533 -> rhs_missing hs (keys T) v ->
  r_object r = CK_RHS_EMPTY -> place g hs T v r -> r_slot r <> None \/ r_priority r <> None ->
  (∀ s, r_slot r = Some s -> in_range g s /\ T !! s = None) ->
  ∃ res hs', set_store malloc_ok hs (rhs_hash hs v) v r = Some (res, hs') /\
    set_result hs g T v (r_object r) res hs'.
Proof.
  intros W Hv Hfew Hmiss H0 Hpl Hsome Hslot. pose proof (rw_rep _ _ _ _ W) as P.
  pose proof (rw_dimensions _ _ _ _ W) as Dm. unfold set_store.
  rewrite (proj2 (Z.eqb_eq _ _) H0). cbn [negb].
  destruct Hpl as [Hsl Hpr|s q Hpr Hsl Hnp HTs Hq Hw Hocc|f q kf pf Hpr Hnp HTf Hpq Hq Hw Hocc].
  { by destruct Hsome. }
  - rewrite Hsl Hpr Hnp.
    destruct (follows_bound_set g (dm_geometry _ Dm) (rhs_hash hs) (dimensions_limit' _ Dm) (map hs) T ∅ ∅ _
      (rhs_hash hs v) q P) as (u & -> & Pu & Cu & Fu); [lia|]. cbn [mbind option_bind].
    destruct (insert_at_ok malloc_ok Hlimited hs g T u v s q) as (hs' & Hst & Po); try done; [apply Fu|].
    follow Hst. rewrite Hst. cbn [mbind option_bind].
    exists (Some true), hs'. split; [done|]. split; [apply Po|]. by left.
  - rewrite Hpr Hnp.
    destruct (follows_bound_set g (dm_geometry _ Dm) (rhs_hash hs) (dimensions_limit' _ Dm) (map hs) T ∅ ∅ _
      (rhs_hash hs v) q P) as (u & -> & Pu & Cu & Fu); [lia|]. cbn [mbind option_bind].
    destruct (vacate_marked_ok hs g T u v f q kf pf (r_slot r)) as (u1 & ret & hs1 & Hmk & Hrh & S & Hret);
      try done; [apply W|lia| |intros s Hs; by apply Hslot|].
    { destruct (r_slot r) as [s|] eqn:Es; cbn; [|set_solver]. rewrite elem_of_singleton. intros ->.
      destruct (Hslot s) as [_ ?]; [done|]. congruence. }
    rewrite Hmk. cbn [mbind option_bind]. rewrite Hrh. cbn [mbind option_bind]. destruct ret.
    + destruct Hret as (Hm & Hqc & u2 & T' & -> & Hn & Hc & P' & HT' & Hk' & Hsol & _).
      cbn [mbind option_bind].
      destruct (insert_over_ok malloc_ok Hlimited hs hs1 g T T' u2 v f q) as (hs' & Hst & Po); try done.
      { rewrite Hn. apply Fu. }
      follow Hst. rewrite Hst. cbn [mbind option_bind].
      exists (Some true), hs'. split; [done|]. split; [apply Po|]. by left.
    + by exists None, hs1.
    + destruct Hret as (u2 & -> & Hn & P2 & O2 & Hf2). cbn [mbind option_bind].
      exists (Some false), (set_map hs1 u2). split; [done|]. split; [done|]. split; [|done].
      split; [done|]. exists g, T. split; [|done]. eapply wf_set_map; try done. rewrite Hn. apply Fu.
Qed.

(** An equal entry was found. *)
Lemma set_store_found hs g T v r i :
  rhs_wf hs g T -> rhs_keys_ok hs -> v <> CK_RHS_EMPTY -> count T < 65533 ->
  r_object r <> CK_RHS_EMPTY -> rhs_keq hs (r_object r) v = true ->
  found_in g hs T v (rhs_hash hs v) r i -> over g hs T v r i -> Z.of_nat i < probe_limit g ->
  (∀ j : nat, (j < i)%nat -> is_Some (T !! walk g (rhs_hash hs v) j)) ->
  ∃ res hs', set_store malloc_ok hs (rhs_hash hs v) v r = Some (res, hs') /\
    set_result hs g T v (r_object r) res hs'.
Proof.
  intros W K Hv Hfew H0 Hkw (Hsl & HTs & _) Hover Hi Hocc. pose proof (rw_rep _ _ _ _ W) as P.
  pose proof (rw_dimensions _ _ _ _ W) as Dm. unfold set_store, over in *.
  rewrite (proj2 (Z.eqb_neq _ _) H0) Hsl. cbn [negb]. set (s := walk g _ i) in *.
  assert (rhs_member hs (keys T) v (r_object r)) as Hmem.
  { split; [|done]. apply elem_of_keys. by exists s, (Z.of_nat i + 1). }
  destruct (r_priority r) as [f|].
  - destruct Hover as (k & p & HTf & Hpq & Hq & Hw). set (q := r_n_probes r) in *.
    destruct (follows_bound_set g (dm_geometry _ Dm) (rhs_hash hs) (dimensions_limit' _ Dm) (map hs) T ∅ ∅ _
      (rhs_hash hs v) q P) as (u & -> & Pu & Cu & Fu); [lia|]. cbn [mbind option_bind].
    assert (f <> s) as Hfs by (intros ->; rewrite HTs in HTf; injection HTf as _ E; lia).
    assert (∀ j : nat, Z.of_nat j < q - 1 -> is_Some (T !! walk g (rhs_hash hs v) j)) as Hocc'.
    { intros j Hj. apply Hocc. lia. }
    destruct (vacate_marked_ok hs g T u v f q k p (Some s)) as (u1 & ret & hs1 & Hmk & Hrh & S & Hret);
      try done; [apply W|lia|cbn; set_solver| |lia|].
    { intros s' [= <-]. by eapply placed_range; [apply Dm|apply P|]. }
    rewrite Hmk. cbn [mbind option_bind]. rewrite Hrh. cbn [mbind option_bind]. destruct ret.
    + destruct Hret as (Hm & Hqc & u2 & T' & -> & Hn & Hc & P' & HT' & Hk' & Hsol & Hkeep).
      cbn [mbind option_bind].
      destruct (exchange_over_ok g Dm hs u2 T' v f q s (r_object r) (Z.of_nat i + 1) false (rhs_hash hs v))
        as (u3 & T3 & Hst & P3 & N3 & Hk3); try done; [by rewrite Hkeep|by rewrite keys_length Hk' -keys_length|lia|].
      follow Hst. rewrite Hst. cbn [mbind option_bind].
      exists (Some true), (set_map hs1 u3). split; [done|]. split; [done|]. right.
      eapply exchanged_ok; try done.
      * unfold owns. rewrite Hm. apply W.
      * rewrite N3 Hn. apply Fu.
      * by rewrite Hk3 Hk'.
    + by exists None, hs1.
    + destruct Hret as (u2 & -> & Hn & P2 & O2 & Hf2). cbn [mbind option_bind].
      exists (Some false), (set_map hs1 u2). split; [done|]. split; [done|]. split; [|done].
      split; [done|]. exists g, T. split; [|done]. eapply wf_set_map; try done. rewrite Hn. apply Fu.
  - rewrite Hover.
    destruct (follows_bound_set g (dm_geometry _ Dm) (rhs_hash hs) (dimensions_limit' _ Dm) (map hs) T ∅ ∅ _
      (rhs_hash hs v) (Z.of_nat i + 1) P) as (u & -> & Pu & Cu & Fu); [lia|]. cbn [mbind option_bind].
    destruct (rhs_replace_ok g Dm hs u T s (r_object r) v (Z.of_nat i + 1) Pu HTs) as (u1 & Hst & P1 & N1 & Hk1);
      [by apply rhs_keq_hash|done|].
    follow Hst. rewrite Hst. cbn [mbind option_bind].
    exists (Some true), (set_map hs u1). split; [done|]. split; [done|]. right.
    eapply exchanged_ok; try done; [apply W|]. rewrite N1. apply Fu.
Qed.
End set.
