(* ===== verification/RhsRefine.v ===== *)
(** [ck_rhs]: every operation meets its specification. *)

From S2P Require Export RhsSet.
Set Warnings "-rewrite-rw,-clear-no-such-hyp".

Section refine.
Context (malloc_ok : heap -> Z -> bool) (Hlimited : malloc_limited malloc_ok).
Implicit Types (hs : ck_rhs) (g u : ck_rhs_map) (s k h p q v : Z) (T : layout) (X R : gset Z) (l : list Z).

Abbreviation rhs_wf := (rhs_wf malloc_ok).
Abbreviation rhs_post := (rhs_post malloc_ok).
Abbreviation rhs_set_spec := (rhs_set_spec malloc_ok).
Abbreviation rhs_exchanged := (rhs_exchanged malloc_ok).

(** ** [ck_rhs_put] *)

Lemma start_capacity hs g T : rhs_wf hs g T -> ∃ k, capacity g = 2 ^ k /\ 3 <= k /\ 32 <= Z.of_nat restarts + k.
Proof.
  intros W. destruct (dm_capacity _ (rw_dimensions _ _ _ _ W)) as (k & Hk & E). exists k.
  split_and!; [done|lia|]. change (Z.of_nat restarts) with 64. lia.
Qed.

Lemma ck_rhs_put_ok hs g T v :
  rhs_wf hs g T -> rhs_keys_ok hs -> v <> CK_RHS_EMPTY -> count T < 65533 ->
  ∃ b hs', ck_rhs_put malloc_ok hs (rhs_hash hs v) v = Some (b, hs') /\
           rhs_put_spec malloc_ok hs (keys T) v b hs'.
Proof.
  intros W K Hv Hfew. destruct (start_capacity hs g T W) as (k & E & H3 & Hf).
  unfold ck_rhs_put, ck_rhs_put_internal.
  apply (rhs_put_loop_ok malloc_ok Hlimited restarts hs g T v _ k); try assumption. by left.
Qed.

Lemma ck_rhs_put_unique_ok hs g T v :
  rhs_wf hs g T -> rhs_keys_ok hs -> v <> CK_RHS_EMPTY -> count T < 65533 ->
  rhs_missing hs (keys T) v ->
  ∃ b hs', ck_rhs_put_unique malloc_ok hs (rhs_hash hs v) v = Some (b, hs') /\
           rhs_put_spec malloc_ok hs (keys T) v b hs'.
Proof.
  intros W K Hv Hfew Hm. destruct (start_capacity hs g T W) as (k & E & H3 & Hf).
  unfold ck_rhs_put_unique, ck_rhs_put_internal.
  apply (rhs_put_loop_ok malloc_ok Hlimited restarts hs g T v _ k); try assumption. by right.
Qed.

(** ** [ck_rhs_set] *)

Lemma member_perm hs l l' v w : l ≡ₚ l' -> rhs_member hs l v w -> rhs_member hs l' v w.
Proof. intros E [H1 H2]. split; [by rewrite -E|done]. Qed.

Lemma set_spec_restart hs hs1 l l' v b old hs' :
  same_callbacks hs hs1 -> l' ≡ₚ l -> rhs_set_spec hs1 l' v b old hs' -> rhs_set_spec hs l v b old hs'.
Proof.
  intros S E. pose proof (same_callbacks_keq _ _ S) as Ek. destruct b; cbn.
  - intros [(H1 & H2 & H3)|(H1 & H2 & l1 & H3 & H4)]; [left|right].
    + split; [done|]. split.
      * apply (rhs_missing_callbacks _ _ _ _ S). by eapply rhs_missing_perm.
      * eapply rhs_post_trans; [done|]. eapply rhs_post_perm; [done|]. by rewrite E.
    + split; [|split; [done|]].
      * destruct H1 as [H1 H1']. split; [by rewrite -E|by rewrite -Ek].
      * exists l1. split; [by eapply rhs_post_trans|]. by rewrite H4 E.
  - intros [H1 H2]. split; [|done]. eapply rhs_post_trans; [done|]. by eapply rhs_post_perm.
Qed.

(** What [ck_rhs_set] and [ck_rhs_apply] do with the result of their probe. *)
Lemma rhs_set_store_ok hs g T key v lim r :
  rhs_wf hs g T -> rhs_keys_ok hs -> v <> CK_RHS_EMPTY -> rhs_keq hs v key = true -> count T < 65533 ->
  probed g hs (map hs) key (rhs_hash hs key) CK_RHS_PROBE_INSERT 0 lim (probe_limit g) r ->
  (∀ p, covers g (map hs) (rhs_hash hs key) p -> p <= lim) ->
  r_slot r <> None \/ r_priority r <> None ->
  ∃ res hs', set_store malloc_ok hs (rhs_hash hs key) v r = Some (res, hs') /\ same_callbacks hs hs' /\
    match res with
    | None => ∃ g1 T1, rhs_wf hs' g1 T1 /\ keys T1 ≡ₚ keys T /\ 2 * capacity g <= capacity g1
    | Some b => rhs_set_spec hs (keys T) v b (r_object r) hs'
    end.
Proof.
  intros W K Hv Hkey Hfew Hd Hlim Hsome. pose proof (rw_rep _ _ _ _ W) as P. pose proof (rw_dimensions _ _ _ _ W) as Dm.
  pose proof (rhs_keq_hash hs v key K Hkey) as Hh.
  destruct (decide (r_object r = CK_RHS_EMPTY)) as [H0|H0].
  - destruct (put_probe_absent malloc_ok hs g T key CK_RHS_PROBE_INSERT lim r W K)
      as [(_ & Hmiss & Hpl)|[? _]]; try done; [by left|].
    rewrite -Hh. apply set_store_new; try done.
    + by eapply missing_keq.
    + destruct Hpl; [by apply PlaceNone|eapply PlaceAt|eapply PlaceOver]; rewrite ?Hh; done.
    + intros s Hs. by apply (probed_slot_empty g Dm hs (map hs) T _ P key CK_RHS_PROBE_INSERT lim (probe_limit g) r).
  - destruct (probed_match g Dm hs K (map hs) T _ P key CK_RHS_PROBE_INSERT lim (probe_limit g) r)
      as (i & (Hs & HT & Hk) & Ho & Hi & Hocc); try done.
    rewrite -Hh. apply (set_store_found malloc_ok Hlimited hs g T v r i); try done.
    + apply (rk_trans _ K _ key); [done|]. by apply K.
    + rewrite Hh. split; [done|]. split; [done|]. apply (rk_trans _ K _ key); [done|]. by apply K.
    + unfold over in *. destruct (r_priority r); by rewrite ?Hh.
    + intros j Hj. rewrite Hh. by apply Hocc.
Qed.

(** A probe that neither found a slot nor an entry to displace asks for growth. *)
Lemma grow_or_fail hs g T :
  rhs_wf hs g T -> count T < 65533 ->
  ∃ ok hs1, ck_rhs_grow malloc_ok hs (u64 (Z.shiftl (capacity (map hs)) 1)) = Some (ok, hs1) /\
    same_callbacks hs hs1 /\
    if ok : bool then ∃ g1 T1, rhs_wf hs1 g1 T1 /\ keys T1 ≡ₚ keys T /\ 2 * capacity g <= capacity g1
    else rhs_post hs hs1 (keys T) /\ alloc_failed (m hs1).
Proof.
  intros W Hfew. destruct (rhs_grow_double malloc_ok Hlimited hs g (keys T)) as (ok & hs1 & Hg & S & Hp);
    [by apply wf_growable|rewrite -keys_length; lia|]. exists ok, hs1. split; [done|]. split; [done|].
  destruct ok; [done|]. destruct Hp as (E & Gr & Hf). split; [|done]. split; [done|]. exists g, T.
  split; [|done]. by eapply wf_unchanged.
Qed.

Lemma rhs_set_loop_ok fuel hs g T v k :
  rhs_wf hs g T -> rhs_keys_ok hs -> v <> CK_RHS_EMPTY -> count T < 65533 ->
  capacity g = 2 ^ k -> 3 <= k -> 32 <= Z.of_nat fuel + k ->
  ∃ b old hs', set_loop malloc_ok fuel hs (rhs_hash hs v) v = Some (b, old, hs') /\
    rhs_set_spec hs (keys T) v b old hs' /\ (b = false -> old = CK_RHS_EMPTY).
Proof.
  revert hs g T k. induction fuel as [|fuel IH]; intros hs g T k W K Hv Hfew Hcap H3 Hf.
  { by destruct (fuel_left malloc_ok Hlimited hs g T k). }
  cbn [set_loop].
  destruct (probe_put_ok malloc_ok hs g T v CK_RHS_PROBE_INSERT W) as (r & lim & Hr & Hd & Hlim); [done|].
  rewrite Hr. cbn [mbind option_bind].
  assert (∀ hs1 g1 T1, same_callbacks hs hs1 -> rhs_wf hs1 g1 T1 -> keys T1 ≡ₚ keys T ->
    2 * capacity g <= capacity g1 ->
    ∃ b old hs', set_loop malloc_ok fuel hs1 (rhs_hash hs v) v = Some (b, old, hs') /\
      rhs_set_spec hs (keys T) v b old hs' /\ (b = false -> old = CK_RHS_EMPTY)) as Hagain.
  { intros hs1 g1 T1 S W1 Hk1 H2.
    destruct (restart_ok malloc_ok Hlimited hs1 g g1 T1 k fuel W1 Hcap H3 H2 Hf) as (k1 & ? & ? & ?).
    rewrite -(same_callbacks_hash _ _ S).
    destruct (IH hs1 g1 T1 k1) as (b & old & hs' & Hl & Hs & Hb); try done.
    - by eapply same_callbacks_keys.
    - rewrite keys_length Hk1 -keys_length. lia.
    - exists b, old, hs'. split; [done|]. split; [|done]. by eapply set_spec_restart. }
  destruct (r_slot r) as [s|] eqn:Es; [|destruct (r_priority r) as [f|] eqn:Ef].
  3:{ destruct (grow_or_fail hs g T W Hfew) as (ok & hs1 & Hg & S & Hp). rewrite Hg. cbn [mbind option_bind].
      destruct ok; cbn [negb].
      - destruct Hp as (g1 & T1 & W1 & Hk1 & H2). by eapply Hagain.
      - by exists false, CK_RHS_EMPTY, hs1. }
  all: destruct (rhs_set_store_ok hs g T v v lim r) as (res & hs1 & Hst & S & Hres); try done;
    [by apply rhs_keq_refl|rewrite Es ?Ef; auto|]; unfold ck_rhs_marshal; rewrite Hst; cbn [mbind option_bind];
    destruct res as [b|]; [|destruct Hres as (g1 & T1 & W1 & Hk1 & H2); by eapply Hagain];
    eexists b, _, hs1; (split; [done|]); destruct b; by split.
Qed.

Lemma ck_rhs_set_ok hs g T v :
  rhs_wf hs g T -> rhs_keys_ok hs -> v <> CK_RHS_EMPTY -> count T < 65533 ->
  ∃ b old hs', ck_rhs_set malloc_ok hs (rhs_hash hs v) v = Some (b, old, hs') /\
    rhs_set_spec hs (keys T) v b old hs' /\ (b = false -> old = CK_RHS_EMPTY).
Proof.
  intros W K Hv Hfew. destruct (start_capacity hs g T W) as (k & E & H3 & Hf).
  by apply (rhs_set_loop_ok restarts hs g T v k).
Qed.
(** ** [ck_rhs_fas] *)

Definition rhs_fas_spec hs l v (b : bool) old hs' : Prop :=
  if b then rhs_exchanged hs l v old hs'
  else old = CK_RHS_EMPTY /\ rhs_post hs hs' l /\ (rhs_missing hs l v \/ alloc_failed (m hs')).

(** A probe up to the bound of the key. *)
Lemma probe_get_ok hs g T v b :
  rhs_wf hs g T -> robin_hood b = false -> b <> CK_RHS_PROBE_INSERT ->
  ∃ lim r, ck_rhs_map_bound_get (map hs) (rhs_hash hs v) = Some lim /\
    probe_func hs (map hs) 0 None (rhs_hash hs v) v lim b = Some r /\
    probed g hs (map hs) v (rhs_hash hs v) b 0 lim lim r /\ lim <= probe_limit g /\
    ∀ p, covers g (map hs) (rhs_hash hs v) p -> p <= lim.
Proof.
  intros W Hb Hni. pose proof (rw_rep _ _ _ _ W) as P. pose proof (rw_dimensions _ _ _ _ W) as Dm.
  pose proof (rep_shape _ _ _ _ _ _ _ P) as Sh.
  destruct (bound_get_ok g (dm_geometry _ Dm) (rhs_hash hs) (map hs) T ∅ ∅ _ (rhs_hash hs v) P)
    as (lim & Hlim & Hr & Hc).
  destruct (probe_func_start g (dm_geometry _ Dm) hs (map hs) v (rhs_hash hs v) 0 None lim b)
    as (r & lim' & Hp & Hpr & Hor); [done|done|lia|done|].
  exists lim, r. split_and!; [done|done| |lia|done]. by destruct Hor as [->|[-> _]].
Qed.

Lemma covers_mono g u h p q : covers g u h p -> q <= p -> covers g u h q.
Proof. intros [H1 H2] Hq. split; [lia|]. intros Hrm. destruct (H2 Hrm); [by left|right; lia]. Qed.

Lemma rhs_fas_loop_ok fuel hs g T v k :
  rhs_wf hs g T -> rhs_keys_ok hs -> v <> CK_RHS_EMPTY -> count T < 65533 ->
  capacity g = 2 ^ k -> 3 <= k -> 32 <= Z.of_nat fuel + k ->
  ∃ b old hs', fas_loop malloc_ok fuel hs (rhs_hash hs v) v = Some (b, old, hs') /\
    rhs_fas_spec hs (keys T) v b old hs'.
Proof.
  revert hs g T k. induction fuel as [|fuel IH]; intros hs g T k W K Hv Hfew Hcap H3 Hf.
  { by destruct (fuel_left malloc_ok Hlimited hs g T k). }
  cbn [fas_loop]. pose proof (rw_rep _ _ _ _ W) as P. pose proof (rw_dimensions _ _ _ _ W) as Dm.
  destruct (probe_get_ok hs g T v CK_RHS_PROBE W) as (lim & r & Hlim & Hr & Hd & Hle & Hc); [done|done|].
  rewrite Hlim. cbn [mbind option_bind]. rewrite Hr. cbn [mbind option_bind].
  destruct (Z.eqb_spec (r_object r) CK_RHS_EMPTY) as [H0|H0].
  { exists false, CK_RHS_EMPTY, hs. split; [done|]. split; [done|]. split; [by eapply rhs_post_refl|left].
    apply absent_rhs_missing.
    by destruct (probed_lookup g (dm_geometry _ Dm) hs K (map hs) T ∅ _ P v CK_RHS_PROBE lim lim r eq_refl eq_refl Hc Hd)
      as [[_ Ha]|[? _]]. }
  destruct (probed_match g Dm hs K (map hs) T _ P v CK_RHS_PROBE lim lim r)
    as (i & (Hs & HT & Hk) & Ho & Hi & Hocc); try done.
  assert (rhs_member hs (keys T) v (r_object r)) as Hmem.
  { split; [|done]. apply elem_of_keys. by eexists _, _. }
  rewrite Hs. cbn [mbind option_bind]. unfold ck_rhs_marshal. set (s := walk g _ i) in *.
  unfold over in Ho. destruct (r_priority r) as [f|].
  - destruct Ho as (kf & p & HTf & Hpq & Hq & Hw). set (q := r_n_probes r) in *.
    assert (f <> s) as Hfs by (intros ->; rewrite HT in HTf; injection HTf as _ E; lia).
    assert (covers g (map hs) (rhs_hash hs v) q) as Hcq.
    { eapply covers_mono; [|apply (Z.lt_le_incl q (Z.of_nat i + 1)); lia].
      pose proof (rep_covers _ _ _ _ _ _ _ P _ _ _ HT) as Hcv.
      by rewrite (rhs_keq_hash hs _ v K Hk) in Hcv. }
    assert (∀ j : nat, Z.of_nat j < q - 1 -> is_Some (T !! walk g (rhs_hash hs v) j)) as Hocc'.
    { intros j Hj. apply Hocc. lia. }
    destruct (vacate_marked_ok malloc_ok Hlimited hs g T (map hs) v f q kf p (Some s))
      as (u1 & ret & hs1 & Hmk & Hrh & S & Hret); try done; [apply W|lia|cbn; set_solver| |lia|].
    { intros s' [= <-]. by eapply placed_range; [apply Dm|apply P|]. }
    cbn [mark_slot] in Hmk, Hret. rewrite Hmk. cbn [mbind option_bind]. rewrite Hrh. cbn [mbind option_bind].
    destruct ret.
    + destruct Hret as (Hm & Hqc & u2 & T' & -> & Hn & Hcv & P' & HT' & Hk' & Hsol & Hkeep).
      cbn [mbind option_bind].
      destruct (exchange_over_ok g Dm hs u2 T' v f q s (r_object r) (Z.of_nat i + 1) true (rhs_hash hs v))
        as (u3 & T3 & Hst & P3 & N3 & Hk3); try done; [by rewrite Hkeep|by rewrite keys_length Hk' -keys_length|lia|].
      follow Hst. rewrite Hst. cbn [mbind option_bind].
      exists true, (r_object r), (set_map hs1 u3). split; [done|].
      eapply exchanged_ok; try done.
      * unfold owns. rewrite Hm. apply W.
      * by rewrite N3 Hn.
      * by rewrite Hk3 Hk'.
    + destruct Hret as (g1 & T1 & W1 & Hk1 & H2).
      destruct (restart_ok malloc_ok Hlimited hs1 g g1 T1 k fuel W1 Hcap H3 H2 Hf) as (k1 & ? & ? & ?).
      rewrite -(same_callbacks_hash _ _ S).
      destruct (IH hs1 g1 T1 k1) as (b & old & hs' & Hl & Hsp); try done.
      * by eapply same_callbacks_keys.
      * rewrite keys_length Hk1 -keys_length. lia.
      * exists b, old, hs'. split; [done|]. destruct b; cbn in Hsp |- *.
        -- destruct Hsp as ([Hm1 Hm2] & Hn0 & l1 & Hl1 & Hl2). split.
           ++ split; [by rewrite -Hk1|by rewrite -(same_callbacks_keq _ _ S)].
           ++ split; [done|]. exists l1. split; [by eapply rhs_post_trans|]. by rewrite Hl2 Hk1.
        -- destruct Hsp as (-> & Hp1 & Hm1). split; [done|]. split.
           ++ eapply rhs_post_trans; [done|]. by eapply rhs_post_perm.
           ++ destruct Hm1 as [Hm1|Hm1]; [left|by right]. apply (rhs_missing_callbacks _ _ _ _ S).
              by eapply rhs_missing_perm.
    + destruct Hret as (u2 & -> & Hn & P2 & O2 & Hf2). cbn [mbind option_bind].
      exists false, CK_RHS_EMPTY, (set_map hs1 u2). split; [done|]. split; [done|]. split; [|by right].
      split; [done|]. exists g, T. split; [|done]. by eapply wf_set_map.
  - rewrite Ho.
    destruct (rhs_replace_ok g Dm hs (map hs) T s (r_object r) v (Z.of_nat i + 1) P HT) as (u1 & Hst & P1 & N1 & Hk1);
      [by apply rhs_keq_hash|done|].
    follow Hst. rewrite Hst. cbn [mbind option_bind].
    exists true, (r_object r), (set_map hs u1). split; [done|].
    eapply exchanged_ok; try done. apply W.
Qed.

Lemma ck_rhs_fas_ok hs g T v :
  rhs_wf hs g T -> rhs_keys_ok hs -> v <> CK_RHS_EMPTY -> count T < 65533 ->
  ∃ b old hs', ck_rhs_fas malloc_ok hs (rhs_hash hs v) v = Some (b, old, hs') /\
    rhs_fas_spec hs (keys T) v b old hs'.
Proof.
  intros W K Hv Hfew. destruct (start_capacity hs g T W) as (k & E & H3 & Hf).
  by apply (rhs_fas_loop_ok restarts hs g T v k).
Qed.

(** ** [ck_rhs_remove] *)

Definition rhs_remove_spec hs l key old hs' : Prop :=
  old = CK_RHS_EMPTY /\ rhs_missing hs l key /\ hs' = hs \/
  old <> CK_RHS_EMPTY /\ rhs_member hs l key old /\ ∃ l', rhs_post hs hs' l' /\ old :: l' ≡ₚ l.

Lemma ck_rhs_remove_ok hs g T key :
  rhs_wf hs g T -> rhs_keys_ok hs ->
  ∃ old hs', ck_rhs_remove hs (rhs_hash hs key) key = Some (old, hs') /\
    rhs_remove_spec hs (keys T) key old hs'.
Proof.
  intros W K. unfold ck_rhs_remove. pose proof (rw_rep _ _ _ _ W) as P.
  pose proof (rw_dimensions _ _ _ _ W) as Dm. pose proof (dm_geometry _ Dm) as G.
  destruct (probe_get_ok hs g T key CK_RHS_PROBE_NO_RH W) as (lim & r & Hlim & Hr & Hd & Hle & Hc); [done|done|].
  rewrite Hlim. cbn [mbind option_bind]. rewrite Hr. cbn [mbind option_bind].
  destruct (probed_lookup g G hs K (map hs) T ∅ _ P key CK_RHS_PROBE_NO_RH lim lim r eq_refl eq_refl Hc Hd)
    as [[H0 Ha]|(H0 & i & (Hs & HT & Hk) & _)].
  { rewrite H0. cbn. exists CK_RHS_EMPTY, hs. split; [done|]. left. split; [done|]. split; [|done].
    by apply absent_rhs_missing. }
  rewrite (proj2 (Z.eqb_neq _ _) H0) Hs. cbn [mbind option_bind].
  set (u := set_n_entries _ _).
  assert (rep g (rhs_hash hs) u T ∅ ∅ (crossing g (rhs_hash hs) T)) as P1 by (by apply rep_set_n_entries).
  destruct (ck_rhs_do_backward_shift_delete_ok g G (rhs_hash hs) (dimensions_limit' _ Dm) (dimensions_capacity _ Dm)
    u T ∅ _ _ _ P1 HT) as (u2 & T2 & Hdel & P2 & Hk2 & N2).
  rewrite Hdel. cbn [mbind option_bind]. eexists _, _. split; [done|]. right. split; [done|].
  assert (count T = count T2 + 1) as Hct.
  { apply Permutation_length in Hk2. cbn in Hk2. rewrite !keys_length. lia. }
  split; [split; [|done]; apply elem_of_keys; by eexists _, _|]. exists (keys T2). split; [|done].
  split; [done|]. exists g, T2. split; [|done]. split; [done|done| |apply W].
  cbn. rewrite N2. unfold u. cbn. rewrite (rw_n_entries _ _ _ _ W) Hct Z.add_simpl_r. unfold u64.
  pose proof (pl_few _ _ _ (rep_placed _ _ _ _ _ _ _ P)). rewrite Z.mod_small; lia.
Qed.

(** ** Lookup *)

Lemma rhs_get_spec hs g T key :
  rhs_wf hs g T -> rhs_keys_ok hs ->
  ∃ v, ck_rhs_get hs (rhs_hash hs key) key = Some v /\
    (v = CK_RHS_EMPTY /\ rhs_missing hs (keys T) key \/ v <> CK_RHS_EMPTY /\ rhs_member hs (keys T) key v).
Proof.
  intros W K. pose proof (rw_dimensions _ _ _ _ W) as Dm.
  destruct (ck_rhs_get_ok g (dm_geometry _ Dm) hs K (map hs) T ∅ _ (rw_rep _ _ _ _ W) key eq_refl)
    as (v & Hg & Hv). exists v. split; [done|]. destruct Hv as [[-> Ha]|(Hv & Hk & s & p & HT)].
  - left. split; [done|]. by apply absent_rhs_missing.
  - right. split; [done|]. split; [|done]. apply elem_of_keys. by exists s, p.
Qed.
End refine.

(** [ck_rhs]: [ck_rhs_apply], garbage collection, resets, growth and the load
    factor. *)

(** Equal entries are the same. *)
Definition rhs_distinct hs (l : list Z) : Prop :=
  NoDup l /\ ∀ w w', w ∈ l -> w' ∈ l -> rhs_keq hs w w' = true -> w = w'.

Section admin.
Context (malloc_ok : heap -> Z -> bool) (Hlimited : malloc_limited malloc_ok).
Implicit Types (hs : ck_rhs) (g u : ck_rhs_map) (s k h p q v : Z) (T : layout) (X R : gset Z) (l : list Z).

Abbreviation rhs_wf := (rhs_wf malloc_ok).
Abbreviation rhs_post := (rhs_post malloc_ok).
Abbreviation rhs_set_spec := (rhs_set_spec malloc_ok).
Abbreviation rhs_exchanged := (rhs_exchanged malloc_ok).

(** ** [ck_rhs_apply] *)

(** A callback that keeps the key and never clears an entry. *)
Definition keeps_key hs (key : Z) (fn : Z -> Z) : Prop :=
  (∀ w, fn w <> CK_RHS_EMPTY -> rhs_keq hs (fn w) key = true) /\
  (∀ w, w <> CK_RHS_EMPTY -> fn w <> CK_RHS_EMPTY).

Definition rhs_apply_spec hs l key (fn : Z -> Z) (b : bool) hs' : Prop :=
  if b then
    rhs_missing hs l key /\ (if fn CK_RHS_EMPTY =? CK_RHS_EMPTY then rhs_post hs hs' l
                             else rhs_post hs hs' (fn CK_RHS_EMPTY :: l)) \/
    ∃ old, old <> CK_RHS_EMPTY /\ rhs_member hs l key old /\
      ∃ l', rhs_post hs hs' l' /\ old :: l' ≡ₚ fn old :: l
  else rhs_post hs hs' l /\ alloc_failed (m hs').

Lemma keeps_key_callbacks hs hs' key fn :
  same_callbacks hs hs' -> keeps_key hs key fn -> keeps_key hs' key fn.
Proof. intros S. unfold keeps_key. by rewrite (same_callbacks_keq _ _ S). Qed.

Lemma distinct_callbacks hs hs' l : same_callbacks hs hs' -> rhs_distinct hs' l <-> rhs_distinct hs l.
Proof. intros S. unfold rhs_distinct. by rewrite (same_callbacks_keq _ _ S). Qed.

Lemma distinct_perm hs l l' : l ≡ₚ l' -> rhs_distinct hs l -> rhs_distinct hs l'.
Proof. intros E [H1 H2]. split; [by rewrite -E|]. intros w w'. rewrite -E. apply H2. Qed.

Lemma apply_spec_restart hs hs1 l l' key fn b hs' :
  same_callbacks hs hs1 -> l' ≡ₚ l -> rhs_apply_spec hs1 l' key fn b hs' -> rhs_apply_spec hs l key fn b hs'.
Proof.
  intros S E. pose proof (same_callbacks_keq _ _ S) as Ek. destruct b; cbn.
  - intros [[H1 H2]|(old & H0 & H1 & l1 & H2 & H3)]; [left|right].
    + split; [apply (rhs_missing_callbacks _ _ _ _ S); by eapply rhs_missing_perm|].
      destruct (_ =? _); (eapply rhs_post_trans; [done|]; eapply rhs_post_perm; [done|by rewrite ?E]).
    + exists old. split; [done|]. split; [destruct H1; split; [by rewrite -E|by rewrite -Ek]|].
      exists l1. split; [by eapply rhs_post_trans|]. by rewrite H3 E.
  - intros [H1 H2]. split; [|done]. eapply rhs_post_trans; [done|]. by eapply rhs_post_perm.
Qed.

(** The value the callback returned for the entry of a key, or for none. *)
Definition delta_for hs l key (fn : Z -> Z) (d : Z) : Prop :=
  rhs_missing hs l key /\ d = fn CK_RHS_EMPTY \/ ∃ old, rhs_member hs l key old /\ d = fn old.

Lemma delta_unique hs l key fn d d' :
  rhs_keys_ok hs -> rhs_distinct hs l -> delta_for hs l key fn d -> delta_for hs l key fn d' -> d = d'.
Proof.
  intros K [_ Hd] [[H1 ->]|(w & [H1 H1'] & ->)] [[H2 ->]|(w' & [H2 H2'] & ->)]; try done.
  - rewrite (H1 w' H2) in H2'. done.
  - rewrite (H2 w H1) in H1'. done.
  - f_equal. apply Hd; [done|done|]. apply (rk_trans _ K _ key); [done|]. by apply K.
Qed.

Lemma rhs_apply_loop_ok fuel hs g T key fn delta k :
  rhs_wf hs g T -> rhs_keys_ok hs -> keeps_key hs key fn -> rhs_distinct hs (keys T) -> count T < 65533 ->
  (∀ d, delta = Some d -> delta_for hs (keys T) key fn d) ->
  capacity g = 2 ^ k -> 3 <= k -> 32 <= Z.of_nat fuel + k ->
  ∃ b hs', apply_loop malloc_ok fuel hs (rhs_hash hs key) key fn delta = Some (b, hs') /\
    rhs_apply_spec hs (keys T) key fn b hs'.
Proof.
  revert hs g T k delta. induction fuel as [|fuel IH]; intros hs g T k delta W K F Hdis Hfew Hdel Hcap H3 Hf.
  { by destruct (fuel_left malloc_ok Hlimited hs g T k). }
  cbn [apply_loop]. pose proof (rw_rep _ _ _ _ W) as P. pose proof (rw_dimensions _ _ _ _ W) as Dm.
  destruct (probe_put_ok malloc_ok hs g T key CK_RHS_PROBE_INSERT W) as (r & lim & Hr & Hd & Hlim); [done|].
  rewrite Hr. cbn [mbind option_bind].
  assert (∀ hs1 g1 T1 delta, same_callbacks hs hs1 -> rhs_wf hs1 g1 T1 -> keys T1 ≡ₚ keys T ->
    2 * capacity g <= capacity g1 -> (∀ d, delta = Some d -> delta_for hs (keys T) key fn d) ->
    ∃ b hs', apply_loop malloc_ok fuel hs1 (rhs_hash hs key) key fn delta = Some (b, hs') /\
      rhs_apply_spec hs (keys T) key fn b hs') as Hagain.
  { intros hs1 g1 T1 delta1 S W1 Hk1 H2 Hdel1.
    destruct (restart_ok malloc_ok Hlimited hs1 g g1 T1 k fuel W1 Hcap H3 H2 Hf) as (k1 & ? & ? & ?).
    rewrite -(same_callbacks_hash _ _ S).
    destruct (IH hs1 g1 T1 k1 delta1) as (b & hs' & Hl & Hs); try done.
    - by eapply same_callbacks_keys.
    - by eapply keeps_key_callbacks.
    - apply (distinct_callbacks _ _ _ S). by eapply distinct_perm.
    - rewrite keys_length Hk1 -keys_length. lia.
    - intros d Hdd. destruct (Hdel1 d Hdd) as [[Hm ->]|(old & [Hm Hm'] & ->)].
      + left. split; [|done]. apply (rhs_missing_callbacks _ _ _ _ S). by eapply rhs_missing_perm.
      + right. exists old. split; [|done]. split; [by rewrite Hk1|by rewrite (same_callbacks_keq _ _ S)].
    - exists b, hs'. split; [done|]. by eapply apply_spec_restart. }
  assert (rhs_missing hs (keys T) key /\ r_object r = CK_RHS_EMPTY \/
          rhs_member hs (keys T) key (r_object r) /\ r_object r <> CK_RHS_EMPTY) as Hobj.
  { destruct (probed_lookup g (dm_geometry _ Dm) hs K (map hs) T ∅ _ P key CK_RHS_PROBE_INSERT lim
      (probe_limit g) r eq_refl eq_refl Hlim Hd) as [[H0 Ha]|(H0 & i & (Hs & HT & Hk) & _)].
    - left. split; [by apply absent_rhs_missing|done].
    - right. split; [|done]. split; [|done]. apply elem_of_keys. by eexists _, _. }
  set (d := match delta with Some d => d | None => fn (r_object r) end).
  assert (d = fn (r_object r)) as Ed.
  { unfold d. destruct delta as [d0|]; [|done]. eapply delta_unique; [done|exact Hdis|by apply Hdel|].
    destruct Hobj as [[Hm ->]|[Hm _]]; [by left|right; by eexists]. }
  assert (delta_for hs (keys T) key fn d) as Hdf.
  { rewrite Ed. destruct Hobj as [[Hm ->]|[Hm _]]; [by left|right; by eexists]. }
  pose (h0 := rhs_hash hs key).
  assert (r_slot r <> None \/ r_priority r <> None ->
    ∃ b hs', (if d =? CK_RHS_EMPTY then
            if r_object r =? CK_RHS_EMPTY then Some (true, hs)
            else
              slot ← r_slot r;
              mp ← ck_rhs_do_backward_shift_delete (map hs) slot;
              Some (true, set_map hs mp)
          else if d =? r_object r then Some (true, hs)
          else
            '(res, hs) ← set_store malloc_ok hs h0 (ck_rhs_marshal (mode hs) d h0) r;
            match res with
            | None => apply_loop malloc_ok fuel hs h0 key fn (Some d)
            | Some b => Some (b, hs)
            end) = Some (b, hs') /\ rhs_apply_spec hs (keys T) key fn b hs') as Hmain.
  { intros Hsome. unfold h0. clearbody d. subst d.
    destruct (Z.eqb_spec (fn (r_object r)) CK_RHS_EMPTY) as [Hd0|Hd0].
    { destruct Hobj as [[Hm H0]|[_ H0]]; [|by destruct (proj2 F _ H0)].
      rewrite (proj2 (Z.eqb_eq _ _) H0). exists true, hs. split; [done|]. left. split; [done|].
      rewrite -H0 (proj2 (Z.eqb_eq _ _)); [congruence|]. by eapply rhs_post_refl. }
    destruct (Z.eqb_spec (fn (r_object r)) (r_object r)) as [He|He].
    { destruct Hobj as [[Hm H0]|[Hm H0]]; [congruence|]. exists true, hs. split; [done|]. right.
      exists (r_object r). split; [done|]. split; [done|]. exists (keys T).
      split; [by eapply rhs_post_refl|by rewrite He]. }
    destruct (rhs_set_store_ok malloc_ok Hlimited hs g T key (fn (r_object r)) lim r) as (res & hs1 & Hst & S & Hres);
      try done; [by apply F|].
    unfold ck_rhs_marshal. rewrite Hst. cbn [mbind option_bind]. destruct res as [b|].
    - exists b, hs1. split; [done|]. destruct b; cbn in Hres |- *; [|done].
      destruct Hres as [(H0 & Hm & Hp)|(Hm & H0 & Hp)].
      + left. destruct Hobj as [[Hm' _]|[_ ?]]; [|done]. split; [done|].
        rewrite H0 in Hp, Hd0. by rewrite (proj2 (Z.eqb_neq _ _) Hd0).
      + right. destruct Hobj as [[? ?]|[Hm' _]]; [done|]. by exists (r_object r).
    - destruct Hres as (g1 & T1 & W1 & Hk1 & H2).
      apply (Hagain hs1 g1 T1); [done..|]. by intros d [= <-]. }
  destruct (r_slot r) as [s|] eqn:Es; [|destruct (r_priority r) as [f|] eqn:Ef]; [apply Hmain; auto|apply Hmain; auto|].
  destruct (grow_or_fail malloc_ok Hlimited hs g T W Hfew) as (ok & hs1 & Hg & S & Hp). rewrite Hg. cbn [mbind option_bind].
  destruct ok; cbn [negb].
  - destruct Hp as (g1 & T1 & W1 & Hk1 & H2). by eapply Hagain.
  - by exists false, hs1.
Qed.

Lemma ck_rhs_apply_ok hs g T key fn :
  rhs_wf hs g T -> rhs_keys_ok hs -> keeps_key hs key fn -> rhs_distinct hs (keys T) -> count T < 65533 ->
  ∃ b hs', ck_rhs_apply malloc_ok hs (rhs_hash hs key) key fn = Some (b, hs') /\
    rhs_apply_spec hs (keys T) key fn b hs'.
Proof.
  intros W K F Hd Hfew. destruct (start_capacity malloc_ok hs g T W) as (k & E & H3 & Hf).
  by apply (rhs_apply_loop_ok restarts hs g T key fn None k).
Qed.
(** ** Garbage collection *)

Lemma foldl_max_ge (l : list ck_rhs_entry_desc) (a : Z) :
  a <= foldl (λ mx d, if mx <? probes d then probes d else mx) a l /\
  (∀ d, d ∈ l -> probes d <= foldl (λ mx d, if mx <? probes d then probes d else mx) a l) /\
  ∀ hi, a <= hi -> (∀ d, d ∈ l -> probes d <= hi) ->
    foldl (λ mx d, if mx <? probes d then probes d else mx) a l <= hi.
Proof.
  revert a. induction l as [|d l IH]; intros a; cbn.
  { split; [lia|]. split; [by intros d ?%not_elem_of_nil|done]. }
  set (a' := if a <? probes d then probes d else a).
  assert (a <= a' /\ probes d <= a' /\ ∀ hi, a <= hi -> probes d <= hi -> a' <= hi) as (H1 & H2 & H3).
  { unfold a'. destruct (Z.ltb_spec a (probes d)); (split_and!; [lia|lia|intros; lia]). }
  destruct (IH a') as (I1 & I2 & I3). split; [lia|]. split.
  - intros d' [->|Hd']%elem_of_cons; [lia|by apply I2].
  - intros hi Ha Hall. apply I3; [apply H3; [done|apply Hall; left]|]. intros d' Hd'. apply Hall. by right.
Qed.

Lemma ck_rhs_gc_ok hs g T : rhs_wf hs g T -> rhs_wf (ck_rhs_gc hs) g T.
Proof.
  intros W. pose proof (rw_rep _ _ _ _ W) as P. pose proof (rw_dimensions _ _ _ _ W) as Dm.
  pose proof (dm_geometry _ Dm) as G. unfold ck_rhs_gc.
  destruct (foldl_max_ge (descs (map hs)) 0) as (H1 & H2 & H3). set (mx := foldl _ 0 _) in *.
  assert (∀ s, in_range g s -> D (map hs) s ∈ descs (map hs)) as Hin.
  { intros s Hs. rewrite (list_D g G _ (rep_shape _ _ _ _ _ _ _ P)). apply list_elem_of_fmap_2, elem_of_seqZ.
    unfold in_range in Hs. lia. }
  split; [done| |apply W|apply W]. change (rhs_hash (set_map hs _)) with (rhs_hash hs).
  assert (∀ s, D (set_probe_maximum (map hs) mx) s = D (map hs) s) as HD by done.
  split; try apply P.
  - by destruct (rep_shape _ _ _ _ _ _ _ P).
  - intros s k p HT. destruct (rep_covers _ _ _ _ _ _ _ P s k p HT) as [_ C2]. split; [|exact C2]. cbn.
    pose proof (placed_range g G _ T s k p (rep_placed _ _ _ _ _ _ _ P) HT) as Hs.
    pose proof (rep_slot _ _ _ _ _ _ _ P s Hs ltac:(set_solver)) as Ho. rewrite HT in Ho.
    destruct Ho as [_ <-]. by apply H2, Hin.
  - cbn. split; [lia|]. apply H3; [pose proof (dm_limit _ Dm); lia|]. intros d Hd.
    rewrite (list_D g G _ (rep_shape _ _ _ _ _ _ _ P)) in Hd.
    apply list_elem_of_fmap in Hd as (s & -> & Hs%elem_of_seqZ).
    by apply (rep_dense g G hs (dimensions_limit _ Dm) (dimensions_capacity _ Dm) (map hs) T _ _ P).
Qed.

(** ** Resets *)

Lemma ck_rhs_reset_size_ok hs g T cap :
  rhs_wf hs g T ->
  ∃ b hs', ck_rhs_reset_size malloc_ok hs cap = (b, hs') /\
    if b : bool then rhs_post hs hs' [] else rhs_post hs hs' (keys T) /\ alloc_failed (m hs').
Proof.
  intros W. unfold ck_rhs_reset_size. pose proof (create_rhs_ok malloc_ok hs cap) as Hc.
  destruct (ck_rhs_map_create malloc_ok hs cap) as [[u|] h1].
  - destruct Hc as (Eu & Dm & Hcu & Hout & Hal). eexists true, _. split; [done|]. split; [done|].
    exists u, ∅. split; [|by unfold keys; rewrite map_to_list_empty].
    split; [done|rewrite Eu; apply rep_init|by rewrite count_empty Eu|]. split; [|by eexists].
    cbn. rewrite (sh_size _ _ (rep_shape _ _ _ _ _ _ _ (rw_rep _ _ _ _ W))).
    destruct (rw_owns _ _ _ _ W) as [HO _]. lia.
  - destruct Hc as [Hf Hh]. eexists false, _. split; [done|]. split; [|done]. split; [done|].
    exists g, T. split; [|done]. destruct W as [W1 W2 W3 [W4 W5]]. split; try done.
    split; [cbn; congruence|done].
Qed.

(** ** Growth *)

Lemma ck_rhs_grow_post hs g T cap :
  rhs_wf hs g T -> count T < 65533 -> 0 <= cap < 2 ^ 64 ->
  ∃ b hs', ck_rhs_grow malloc_ok hs cap = Some (b, hs') /\ rhs_post hs hs' (keys T).
Proof.
  intros W Hfew Hcap.
  destruct (ck_rhs_grow_ok malloc_ok hs g (keys T) cap) as (b & hs' & Hg & S & Hp);
    [by apply wf_growable|rewrite -keys_length; lia|done|]. exists b, hs'. split; [done|]. split; [done|].
  destruct b; [done|]. destruct Hp as [E Gr]. exists g, T. split; [|done]. by eapply wf_unchanged.
Qed.

(** ** The load factor *)

Lemma wf_set_load hs g T lf v :
  rhs_wf hs g T -> rhs_wf (set_map (set_load hs lf) (set_max_entries (map hs) v)) g T.
Proof.
  intros [W1 W2 W3 W4]. split; [done| |done|done].
  apply (rep_ext g (dm_geometry _ W1) _ (map hs)); [exact W2|by split|done|done].
Qed.

Lemma rhs_load_loop_ok fuel hs g T k :
  rhs_wf hs g T -> count T < 65533 -> capacity g = 2 ^ k -> 3 <= k -> 32 <= Z.of_nat fuel + k ->
  ∃ b hs', load_loop malloc_ok fuel hs = Some (b, hs') /\ rhs_post hs hs' (keys T) /\
    if b : bool then n_entries (map hs') <= max_entries (map hs') else alloc_failed (m hs').
Proof.
  revert hs g T k. induction fuel as [|fuel IH]; intros hs g T k W Hfew Hcap H3 Hf.
  { by destruct (fuel_left malloc_ok Hlimited hs g T k). }
  cbn [load_loop]. destruct (Z.ltb_spec (max_entries (map hs)) (n_entries (map hs))) as [Hlt|Hge].
  - destruct (grow_or_fail malloc_ok Hlimited hs g T W Hfew) as (ok & hs1 & Hg & S & Hp). rewrite Hg.
    cbn [mbind option_bind]. destruct ok; cbn [negb].
    + destruct Hp as (g1 & T1 & W1 & Hk1 & H2).
      destruct (restart_ok malloc_ok Hlimited hs1 g g1 T1 k fuel W1 Hcap H3 H2 Hf) as (k1 & ? & ? & ?).
      destruct (IH hs1 g1 T1 k1) as (b & hs' & Hl & Hpo & Hb); try done.
      { rewrite keys_length Hk1 -keys_length. lia. }
      exists b, hs'. split; [done|]. split; [|done]. eapply rhs_post_trans; [done|]. by eapply rhs_post_perm.
    + destruct Hp as [Hpo Hfl]. by exists false, hs1.
  - exists true, hs. split; [done|]. split; [by eapply rhs_post_refl|done].
Qed.

Lemma ck_rhs_set_load_factor_ok hs g T lf :
  rhs_wf hs g T -> count T < 65533 ->
  ∃ b hs', ck_rhs_set_load_factor malloc_ok hs lf = Some (b, hs') /\
    if (lf =? 0) || (100 <? lf) then b = false /\ hs' = hs
    else rhs_post (set_load hs lf) hs' (keys T) /\
      if b : bool then n_entries (map hs') <= max_entries (map hs') else alloc_failed (m hs').
Proof.
  intros W Hfew. unfold ck_rhs_set_load_factor. destruct (_ || _); [by exists false, hs|].
  set (hs1 := set_map _ _). assert (rhs_wf hs1 g T) as W1 by exact (wf_set_load hs g T lf _ W).
  destruct (start_capacity malloc_ok hs1 g T W1) as (k & E & H3 & Hf).
  destruct (rhs_load_loop_ok restarts hs1 g T k W1 Hfew E H3 Hf) as (b & hs' & Hl & Hp & Hb).
  exists b, hs'. split; [done|]. split; [|done]. eapply rhs_post_trans; [|exact Hp]. done.
Qed.
End admin.
