(* ===== verification/RhsTheorems.v ===== *)
(** The Robin Hood hash set: its theorems.  Any history of operations on a freshly
    initialised set behaves as the same history on an abstract set. *)

From S2P Require Export RhsRefine.
Set Warnings "-rewrite-rw,-clear-no-such-hyp".

(** * The abstract set

    Its state is a list of entries up to permutation; entries are compared as the
    configuration [cfg] compares them. *)

Inductive rhs_op :=
| RhsGet (key : Z) | RhsPut (v : Z) | RhsSet (v : Z) | RhsFas (v : Z) | RhsRemove (key : Z)
| RhsApply (key : Z) (fn : Z -> Z) | RhsGrow (capacity : Z) | RhsRebuild | RhsGc | RhsReset
| RhsResetSize (capacity : Z) | RhsLoadFactor (lf : Z).

Inductive rhs_ret := RhsPtr (p : Z) | RhsBool (b : bool) | RhsBoolPtr (b : bool) (p : Z) | RhsUnit.

(** What the caller has to respect; [U] bounds the entries ever stored. *)
Definition rhs_op_ok (cfg : ck_rhs) (U : list Z) (op : rhs_op) : Prop :=
  match op with
  | RhsPut v | RhsSet v | RhsFas v => v <> CK_RHS_EMPTY /\ v ∈ U
  | RhsApply key fn => keeps_key cfg key fn /\ ∀ w, fn w <> CK_RHS_EMPTY -> fn w ∈ U
  | RhsGrow cap => 0 <= cap < 2 ^ 64
  | _ => True
  end.

(** The entry of a key, or none. *)
Definition rhs_entry_of cfg (l : list Z) (key p : Z) : Prop :=
  p = CK_RHS_EMPTY /\ rhs_missing cfg l key \/ p <> CK_RHS_EMPTY /\ rhs_member cfg l key p.

(** [v] takes the place of an equal entry [old]. *)
Definition rhs_swapped cfg (l : list Z) (v old : Z) (l' : list Z) : Prop :=
  rhs_member cfg l v old /\ old <> CK_RHS_EMPTY /\ old :: l' ≡ₚ v :: l.

(** [rhs_step cfg l op r oom l']: on a set holding [l], [op] may return [r] and
    leave [l']; [oom] tells whether its last allocation was refused. *)
Definition rhs_step (cfg : ck_rhs) (l : list Z) (op : rhs_op) (r : rhs_ret) (oom : bool)
    (l' : list Z) : Prop :=
  match op with
  | RhsGet key => l' ≡ₚ l /\ ∃ p, r = RhsPtr p /\ rhs_entry_of cfg l key p
  | RhsPut v =>
      r = RhsBool true /\ rhs_missing cfg l v /\ l' ≡ₚ v :: l \/
      r = RhsBool false /\ l' ≡ₚ l /\ ((∃ w, rhs_member cfg l v w) \/ oom = true)
  | RhsSet v =>
      r = RhsBoolPtr true CK_RHS_EMPTY /\ rhs_missing cfg l v /\ l' ≡ₚ v :: l \/
      (∃ old, r = RhsBoolPtr true old /\ rhs_swapped cfg l v old l') \/
      r = RhsBoolPtr false CK_RHS_EMPTY /\ l' ≡ₚ l /\ oom = true
  | RhsFas v =>
      (∃ old, r = RhsBoolPtr true old /\ rhs_swapped cfg l v old l') \/
      r = RhsBoolPtr false CK_RHS_EMPTY /\ l' ≡ₚ l /\ (rhs_missing cfg l v \/ oom = true)
  | RhsRemove key =>
      ∃ p, r = RhsPtr p /\ rhs_entry_of cfg l key p /\
        if p =? CK_RHS_EMPTY then l' ≡ₚ l else p :: l' ≡ₚ l
  | RhsApply key fn =>
      r = RhsBool true /\ rhs_missing cfg l key /\
        (if fn CK_RHS_EMPTY =? CK_RHS_EMPTY then l' ≡ₚ l else l' ≡ₚ fn CK_RHS_EMPTY :: l) \/
      (∃ old, r = RhsBool true /\ old <> CK_RHS_EMPTY /\ rhs_member cfg l key old /\
              old :: l' ≡ₚ fn old :: l) \/
      r = RhsBool false /\ l' ≡ₚ l /\ oom = true
  | RhsGrow _ | RhsRebuild => (∃ b, r = RhsBool b) /\ l' ≡ₚ l
  | RhsGc => r = RhsUnit /\ l' ≡ₚ l
  | RhsReset | RhsResetSize _ =>
      r = RhsBool true /\ l' ≡ₚ [] \/ r = RhsBool false /\ l' ≡ₚ l /\ oom = true
  | RhsLoadFactor lf =>
      (r = RhsBool true \/ r = RhsBool false /\ (lf = 0 \/ 100 < lf \/ oom = true)) /\ l' ≡ₚ l
  end.

Inductive rhs_trace (cfg : ck_rhs) : list Z -> list rhs_op -> list (rhs_ret * bool) -> list Z -> Prop :=
| RtNil l l' : l ≡ₚ l' -> rhs_trace cfg l [] [] l'
| RtCons l op r oom l1 ops rs l2 :
    rhs_step cfg l op r oom l1 -> rhs_trace cfg l1 ops rs l2 ->
    rhs_trace cfg l (op :: ops) ((r, oom) :: rs) l2.

(** * The concrete set *)

Section concrete.
Context (malloc_ok : heap -> Z -> bool).

Definition rhs_exec (hs : ck_rhs) (op : rhs_op) : option (rhs_ret * ck_rhs) :=
  match op with
  | RhsGet key => p ← ck_rhs_get hs (rhs_hash hs key) key; Some (RhsPtr p, hs)
  | RhsPut v => '(b, hs) ← ck_rhs_put malloc_ok hs (rhs_hash hs v) v; Some (RhsBool b, hs)
  | RhsSet v => '(b, old, hs) ← ck_rhs_set malloc_ok hs (rhs_hash hs v) v; Some (RhsBoolPtr b old, hs)
  | RhsFas v => '(b, old, hs) ← ck_rhs_fas malloc_ok hs (rhs_hash hs v) v; Some (RhsBoolPtr b old, hs)
  | RhsRemove key => '(p, hs) ← ck_rhs_remove hs (rhs_hash hs key) key; Some (RhsPtr p, hs)
  | RhsApply key fn => '(b, hs) ← ck_rhs_apply malloc_ok hs (rhs_hash hs key) key fn; Some (RhsBool b, hs)
  | RhsGrow cap => '(b, hs) ← ck_rhs_grow malloc_ok hs cap; Some (RhsBool b, hs)
  | RhsRebuild => '(b, hs) ← ck_rhs_rebuild malloc_ok hs; Some (RhsBool b, hs)
  | RhsGc => Some (RhsUnit, ck_rhs_gc hs)
  | RhsReset => let '(b, hs) := ck_rhs_reset malloc_ok hs in Some (RhsBool b, hs)
  | RhsResetSize cap => let '(b, hs) := ck_rhs_reset_size malloc_ok hs cap in Some (RhsBool b, hs)
  | RhsLoadFactor lf => '(b, hs) ← ck_rhs_set_load_factor malloc_ok hs lf; Some (RhsBool b, hs)
  end.

Fixpoint rhs_run (hs : ck_rhs) (ops : list rhs_op) : option (list (rhs_ret * bool) * ck_rhs) :=
  match ops with
  | [] => Some ([], hs)
  | op :: ops =>
      '(r, hs) ← rhs_exec hs op;
      '(rs, hs') ← rhs_run hs ops;
      Some ((r, refused (m hs)) :: rs, hs')
  end.

Abbreviation rhs_wf := (rhs_wf malloc_ok).
Abbreviation contents hs := (live_entries (map hs)).

(** What the operations never change. *)
Definition same_keying (hs hs' : ck_rhs) : Prop :=
  seed hs' = seed hs /\ hf hs' = hf hs /\ compare hs' = compare hs.

Lemma same_callbacks_keying hs hs' : same_callbacks hs hs' -> same_keying hs hs'.
Proof. by intros (_ & _ & H). Qed.

Lemma wf_contents hs g T : rhs_wf hs g T -> contents hs ≡ₚ keys T.
Proof. intros W. eapply live_entries_keys; [apply W|apply (rw_rep _ _ _ _ W)]. Qed.

(** * Simulation *)

Definition rhs_good hs (l : list Z) : Prop := ∃ g T, rhs_wf hs g T /\ keys T ≡ₚ l.

Lemma post_good hs hs' l : rhs_post malloc_ok hs hs' l -> same_keying hs hs' /\ rhs_good hs' l.
Proof. intros (S & H). split; [by apply same_callbacks_keying|done]. Qed.

Lemma good_refl hs g T : rhs_wf hs g T -> same_keying hs hs /\ rhs_good hs (keys T).
Proof. intros W. split; [done|]. by exists g, T. Qed.

Abbreviation simulates hs l op r hs' :=
  (rhs_exec hs op = Some (r, hs') /\ ∃ l', (same_keying hs hs' /\ rhs_good hs' l') /\
   rhs_step hs l op r (refused (m hs')) l').

Lemma rhs_exec_ok hs g T U op :
  malloc_limited malloc_ok -> rhs_wf hs g T -> rhs_keys_ok hs -> rhs_distinct hs (keys T) ->
  count T < 65533 -> rhs_op_ok hs U op -> ∃ r hs', simulates hs (keys T) op r hs'.
Proof.
  intros Hlim W K Hd Hfew Hop. destruct op as [key|v|v|v|key|key fn|cap| | | |cap|lf]; cbn [rhs_exec rhs_op_ok rhs_step] in *.
  - destruct (rhs_get_spec malloc_ok hs g T key W K) as (p & -> & Hp). eexists _, hs. split; [done|].
    exists (keys T). split; [by eapply good_refl|]. split; [done|]. exists p. split; [done|].
    destruct Hp as [[-> Hp]|[Hp1 Hp2]]; [by left|by right].
  - destruct Hop as [Hv _]. destruct (ck_rhs_put_ok malloc_ok Hlim hs g T v W K Hv Hfew) as (b & hs' & -> & Hs).
    eexists _, hs'. split; [done|]. destruct b; destruct Hs as [H1 H2].
    + eexists. split; [by apply post_good|]. by left.
    + eexists. split; [by apply post_good|]. right. split; [done|]. split; [done|].
      destruct H2 as [?|?%refused_spec]; auto.
  - destruct Hop as [Hv _]. destruct (ck_rhs_set_ok malloc_ok Hlim hs g T v W K Hv Hfew)
      as (b & old & hs' & -> & Hs & Hb). eexists _, hs'. split; [done|]. destruct b; cbn in Hs.
    + destruct Hs as [(-> & H1 & H2)|(H1 & H2 & l' & H3 & H4)].
      * eexists. split; [by apply post_good|]. by left.
      * exists l'. split; [by apply post_good|]. right; left. exists old. split; [done|by split_and!].
    + destruct Hs as [H1 H2%refused_spec]. rewrite Hb //. eexists. split; [by apply post_good|]. by right; right.
  - destruct Hop as [Hv _]. destruct (ck_rhs_fas_ok malloc_ok Hlim hs g T v W K Hv Hfew)
      as (b & old & hs' & -> & Hs). eexists _, hs'. split; [done|]. destruct b; cbn in Hs.
    + destruct Hs as (H1 & H2 & l' & H3 & H4). exists l'. split; [by apply post_good|]. left. exists old. split; [done|by split_and!].
    + destruct Hs as (-> & H1 & H2). eexists. split; [by apply post_good|]. right. split; [done|]. split; [done|].
      destruct H2 as [?|?%refused_spec]; auto.
  - destruct (ck_rhs_remove_ok malloc_ok hs g T key W K) as (p & hs' & -> & Hs). eexists _, hs'. split; [done|].
    destruct Hs as [(-> & H1 & ->)|(H1 & H2 & l' & H3 & H4)].
    + exists (keys T). split; [by eapply good_refl|]. exists CK_RHS_EMPTY. split; [done|]. split; [by left|by rewrite Z.eqb_refl].
    + exists l'. split; [by apply post_good|]. exists p. split; [done|]. split; [by right|].
      by rewrite (proj2 (Z.eqb_neq _ _) H1).
  - destruct Hop as [Hf _]. destruct (ck_rhs_apply_ok malloc_ok Hlim hs g T key fn W K Hf Hd Hfew) as (b & hs' & -> & Hs).
    eexists _, hs'. split; [done|]. destruct b; cbn in Hs.
    + destruct Hs as [[H1 H2]|(old & H1 & H2 & l' & H3 & H4)].
      * destruct (Z.eqb_spec (fn CK_RHS_EMPTY) CK_RHS_EMPTY); (eexists; split; [by apply post_good|]; by left).
      * exists l'. split; [by apply post_good|]. right; left. exists old. split; [done|by split_and!].
    + destruct Hs as [H1 H2%refused_spec]. eexists. split; [by apply post_good|]. by right; right.
  - destruct (ck_rhs_grow_post malloc_ok hs g T cap W Hfew Hop) as (b & hs' & -> & Hs). eexists _, hs'. split; [done|].
    eexists. split; [by apply post_good|]. split; [by eexists|done].
  - destruct (dm_capacity _ (rw_dimensions _ _ _ _ W)) as (k & Hk & Ek).
    destruct (ck_rhs_grow_post malloc_ok hs g T (capacity (map hs)) W Hfew) as (b & hs' & Hg & Hs).
    { rewrite (sh_capacity _ _ (rep_shape _ _ _ _ _ _ _ (rw_rep _ _ _ _ W))) Ek.
      pose proof (Z.pow_le_mono_r 2 k 31 ltac:(lia) ltac:(lia)). lia. }
    unfold ck_rhs_rebuild. rewrite Hg. eexists _, hs'. split; [done|].
    eexists. split; [by apply post_good|]. split; [by eexists|done].
  - eexists _, _. split; [done|]. exists (keys T). split; [|done]. split; [done|].
    exists g, T. split; [by apply ck_rhs_gc_ok|done].
  - unfold ck_rhs_reset. destruct (ck_rhs_reset_size_ok malloc_ok hs g T (capacity (map hs)) W) as (b & hs' & -> & Hs).
    eexists _, hs'. split; [done|]. destruct b.
    + eexists. split; [by apply post_good|]. by left.
    + destruct Hs as [H1 H2%refused_spec]. eexists. split; [by apply post_good|]. by right.
  - destruct (ck_rhs_reset_size_ok malloc_ok hs g T cap W) as (b & hs' & -> & Hs).
    eexists _, hs'. split; [done|]. destruct b.
    + eexists. split; [by apply post_good|]. by left.
    + destruct Hs as [H1 H2%refused_spec]. eexists. split; [by apply post_good|]. by right.
  - destruct (ck_rhs_set_load_factor_ok malloc_ok Hlim hs g T lf W Hfew) as (b & hs' & -> & Hs).
    eexists _, hs'. split; [done|]. destruct ((lf =? 0) || (100 <? lf)) eqn:Hlf.
    + destruct Hs as [-> ->]. exists (keys T). split; [by eapply good_refl|]. split; [|done]. right.
      split; [done|]. apply orb_true_iff in Hlf as [?%Z.eqb_eq|?%Z.ltb_lt]; [by left|by right; left].
    + destruct Hs as [H1 H2]. eexists. split; [by apply post_good in H1|]. split; [|done].
      destruct b; [by left|right]. split; [done|]. right; right. by apply refused_spec.
Qed.
End concrete.

(** ** Abstract steps *)

Lemma same_keying_refl hs : same_keying hs hs.
Proof. done. Qed.

Lemma same_keying_trans a b c : same_keying a b -> same_keying b c -> same_keying a c.
Proof. unfold same_keying. intuition congruence. Qed.

Lemma same_keying_keq hs hs' : same_keying hs hs' -> rhs_keq hs' = rhs_keq hs.
Proof. intros (_ & _ & H). unfold rhs_keq. by rewrite H. Qed.

Lemma same_keying_keys hs hs' : same_keying hs hs' -> rhs_keys_ok hs -> rhs_keys_ok hs'.
Proof.
  intros S [K1 K2 K3]. pose proof (same_keying_keq _ _ S) as E. destruct S as (H1 & H2 & _). split.
  - intros k1 k2. rewrite E. apply K1.
  - intros k1 k2 k3. rewrite E. apply K2.
  - intros k1 k2. rewrite E H1 H2. apply K3.
Qed.

(** The abstract steps and the obligations of the caller depend on the comparison
    of keys only. *)
Lemma rhs_step_keying hs hs' l op r oom l' :
  same_keying hs hs' -> rhs_step hs' l op r oom l' -> rhs_step hs l op r oom l'.
Proof.
  intros S. unfold rhs_step, rhs_swapped, rhs_entry_of, rhs_member, rhs_missing.
  by rewrite (same_keying_keq _ _ S).
Qed.

Lemma rhs_op_ok_keying hs hs' U op : same_keying hs hs' -> rhs_op_ok hs U op -> rhs_op_ok hs' U op.
Proof. intros S. unfold rhs_op_ok, keeps_key. by rewrite (same_keying_keq _ _ S). Qed.

Lemma rhs_distinct_keying hs hs' l : same_keying hs hs' -> rhs_distinct hs l <-> rhs_distinct hs' l.
Proof. intros S. unfold rhs_distinct. by rewrite (same_keying_keq _ _ S). Qed.

Lemma rhs_trace_keying hs hs' l ops rs l' :
  same_keying hs hs' -> rhs_trace hs' l ops rs l' -> rhs_trace hs l ops rs l'.
Proof.
  intros S T. induction T as [l l' E|l op r oom l1 ops rs l2 H T IH]; [by constructor|].
  econstructor; [|exact IH]. by eapply rhs_step_keying.
Qed.

Lemma rhs_step_perm cfg l op r oom l1 l2 :
  l1 ≡ₚ l2 -> rhs_step cfg l op r oom l1 -> rhs_step cfg l op r oom l2.
Proof.
  intros E H. unfold rhs_step, rhs_swapped in *. destruct op; try (setoid_rewrite <- E; exact H).
  - destruct H as (p & H1 & H2 & H3). exists p. split; [done|]. split; [done|].
    destruct (_ =? _); by rewrite -E.
  - destruct (_ =? _); setoid_rewrite <- E; exact H.
Qed.

(** ** Uniqueness of keys *)

Lemma distinct_cons cfg l v :
  rhs_keys_ok cfg -> rhs_distinct cfg l -> rhs_missing cfg l v -> rhs_distinct cfg (v :: l).
Proof.
  intros K [H1 H2] Hm. split.
  - apply NoDup_cons. split; [|done]. intros Hv. pose proof (Hm v Hv) as E. by rewrite rhs_keq_refl in E.
  - intros w w' [->|Hw]%elem_of_cons [->|Hw']%elem_of_cons E; [done|..].
    + apply (rk_sym _ K) in E. rewrite (Hm w' Hw') in E. done.
    + rewrite (Hm w Hw) in E. done.
    + by apply H2.
Qed.

Lemma distinct_swapped cfg l v old l' :
  rhs_keys_ok cfg -> rhs_distinct cfg l -> old ∈ l -> rhs_keq cfg old v = true -> old :: l' ≡ₚ v :: l ->
  rhs_distinct cfg l'.
Proof.
  intros K Hd Hold Hk E.
  apply list_elem_of_split in Hold as (l1 & l2 & El).
  assert (l ≡ₚ old :: (l1 ++ l2)) as Hl by (by rewrite El -Permutation_middle).
  assert (l' ≡ₚ v :: (l1 ++ l2)) as Hl'.
  { apply (Permutation_cons_inv (a := old)). rewrite E Hl. apply Permutation_swap. }
  apply (distinct_perm _ _ _ Hl) in Hd. apply (distinct_perm _ _ _ (symmetry Hl')).
  destruct Hd as [[Hn1 Hn2]%NoDup_cons H2]. apply distinct_cons; [done|..].
  - split; [done|]. intros w w' Hw Hw'. apply H2; by right.
  - intros w Hw. destruct (rhs_keq cfg w v) eqn:Ew; [|done]. exfalso. apply Hn1.
    rewrite (H2 old w); [left|by right| |done].
    apply (rk_trans _ K _ v); [done|]. by apply K.
Qed.

Lemma distinct_removed cfg l p l' : rhs_distinct cfg l -> p :: l' ≡ₚ l -> rhs_distinct cfg l'.
Proof.
  intros Hd E. apply (distinct_perm _ _ _ (symmetry E)) in Hd. destruct Hd as [[_ Hn]%NoDup_cons H2].
  split; [done|]. intros w w' Hw Hw'. apply H2; by right.
Qed.

Lemma subset_swapped (l l' U : list Z) v old : v ∈ U -> l ⊆ U -> old :: l' ≡ₚ v :: l -> l' ⊆ U.
Proof.
  intros Hv Hl E x Hx. assert (x ∈ v :: l) as [->|Hx']%elem_of_cons; [|done|by apply Hl].
  rewrite -E. by right.
Qed.

(** An abstract step keeps keys unique and the entries in their bound. *)
Lemma rhs_step_inv cfg U l op r oom l' :
  rhs_keys_ok cfg -> rhs_op_ok cfg U op -> rhs_distinct cfg l -> l ⊆ U -> rhs_step cfg l op r oom l' ->
  rhs_distinct cfg l' /\ l' ⊆ U.
Proof.
  intros K Hop Hd HU. assert (l' ≡ₚ l -> rhs_distinct cfg l' /\ l' ⊆ U) as Hsame.
  { intros E. split; [by eapply distinct_perm|]. intros x. rewrite E. apply HU. }
  assert (∀ v, v ∈ U -> rhs_missing cfg l v -> l' ≡ₚ v :: l -> rhs_distinct cfg l' /\ l' ⊆ U) as Hnew.
  { intros v Hv Hm E. split; [eapply distinct_perm; [done|]; by apply distinct_cons|].
    intros x. rewrite E. intros [->|Hx]%elem_of_cons; [done|by apply HU]. }
  assert (∀ v old, v ∈ U -> rhs_swapped cfg l v old l' -> rhs_distinct cfg l' /\ l' ⊆ U) as Hswap.
  { intros v old Hv ([H1 H2] & _ & E). split; [by eapply distinct_swapped|by eapply subset_swapped]. }
  assert (l' ≡ₚ [] -> rhs_distinct cfg l' /\ l' ⊆ U) as Hnil.
  { intros E%symmetry%Permutation_nil. subst l'. split; [|by intros x ?%not_elem_of_nil].
    split; [constructor|by intros w w' ?%not_elem_of_nil]. }
  destruct op; cbn in *.
  - intros [E _]. auto.
  - destruct Hop as [_ Hv]. intros [(_ & Hm & E)|(_ & E & _)]; eauto.
  - destruct Hop as [_ Hv]. intros [(_ & Hm & E)|[(old & _ & E)|(_ & E & _)]]; eauto.
  - destruct Hop as [_ Hv]. intros [(old & _ & E)|(_ & E & _)]; eauto.
  - intros (p & _ & _ & E). destruct (_ =? _); [auto|]. split; [by eapply distinct_removed|].
    intros x Hx. apply HU. rewrite -E. by right.
  - destruct Hop as [[F1 F2] Hv]. intros [(_ & Hm & E)|[(old & _ & H0 & [H1 H2] & E)|(_ & E & _)]]; [| |auto].
    + destruct (Z.eqb_spec (fn CK_RHS_EMPTY) CK_RHS_EMPTY) as [|Hn]; [auto|].
      apply (Hnew (fn CK_RHS_EMPTY)); [by apply Hv| |done]. eapply missing_keq; [done|by apply F1|done].
    + apply (Hswap (fn old) old); [by apply Hv, F2|]. split_and!; [|done|done]. split; [done|].
      apply (rk_trans _ K _ key); [done|]. apply K. by apply F1, F2.
  - intros [_ E]. auto.
  - intros [_ E]. auto.
  - intros [_ E]. auto.
  - intros [[_ E]|(_ & E & _)]; auto.
  - intros [[_ E]|(_ & E & _)]; auto.
  - intros [_ E]. auto.
Qed.

(** ** Histories *)

Section histories.
Context (malloc_ok : heap -> Z -> bool).
Abbreviation rhs_wf := (rhs_wf malloc_ok).
Abbreviation contents hs := (live_entries (map hs)).

Lemma rhs_count_bound hs (U : list Z) (T : layout) :
  rhs_distinct hs (keys T) -> keys T ⊆ U -> Z.of_nat (length U) <= 65532 -> count T < 65533.
Proof.
  intros [Hn _] HU HL. rewrite keys_length.
  pose proof (submseteq_length _ _ (NoDup_submseteq _ _ Hn HU)). lia.
Qed.

Lemma rhs_run_ok hs g T (U : list Z) ops :
  malloc_limited malloc_ok -> rhs_wf hs g T -> rhs_keys_ok hs -> rhs_distinct hs (keys T) ->
  keys T ⊆ U -> Z.of_nat (length U) <= 65532 -> Forall (rhs_op_ok hs U) ops ->
  ∃ rs hs' g' T', rhs_run malloc_ok hs ops = Some (rs, hs') /\ same_keying hs hs' /\ rhs_wf hs' g' T' /\
    rhs_distinct hs (keys T') /\ rhs_trace hs (keys T) ops rs (keys T').
Proof.
  revert hs g T. induction ops as [|op ops IH]; intros hs g T Hlim W K Hd HU HL Hops.
  { exists [], hs, g, T. split_and!; [done..|by constructor]. }
  inversion_clear Hops as [|? ? Hop Hrest]. cbn [rhs_run].
  destruct (rhs_exec_ok malloc_ok hs g T U op) as (r & hs1 & He & l1 & [S1 (g1 & T1 & W1 & Hk1)] & A1);
    [done..|by eapply rhs_count_bound|done|].
  apply (rhs_step_perm _ _ _ _ _ _ (keys T1)) in A1; [|done].
  destruct (rhs_step_inv hs U (keys T) op r _ (keys T1) K Hop Hd HU A1) as [Hd1 HU1].
  destruct (IH hs1 g1 T1) as (rs & hs2 & g2 & T2 & Hr & S2 & W2 & Hd2 & A2);
    [done|done|by eapply same_keying_keys|by apply (rhs_distinct_keying hs)|done|done|
     eapply Forall_impl; [exact Hrest|]; intros o; by apply rhs_op_ok_keying|].
  rewrite He. cbn [mbind option_bind]. rewrite Hr. cbn [mbind option_bind]. eexists _, hs2, g2, T2.
  split; [done|]. split; [by eapply same_keying_trans|]. split; [done|].
  split; [by apply (rhs_distinct_keying hs hs1)|]. econstructor; [exact A1|]. by eapply rhs_trace_keying.
Qed.

Lemma rhs_trace_perm cfg l ops rs l1 l2 :
  l1 ≡ₚ l2 -> rhs_trace cfg l ops rs l1 -> rhs_trace cfg l ops rs l2.
Proof.
  intros E T. induction T as [l l' E'|l op r oom l1 ops rs l3 H T IH]; [constructor; by rewrite E'|].
  econstructor; [exact H|by apply IH].
Qed.

Lemma rhs_init_ok md hash cmp n sd hs :
  ck_rhs_init malloc_ok md (Some hash) cmp (Some ([], true, true)) n sd = Some hs ->
  ∃ g, rhs_wf hs g ∅.
Proof.
  unfold ck_rhs_init. set (hs0 := CkRhs _ _ _ _ _ _ _). pose proof (create_rhs_ok malloc_ok hs0 n) as Hc.
  destruct (ck_rhs_map_create malloc_ok hs0 n) as [[u|] h1]; [|done]. intros [= <-].
  destruct Hc as (Eu & Dm & Hcu & Hout & Hal). exists u. split.
  - done.
  - rewrite Eu. apply rep_init.
  - by rewrite count_empty Eu.
  - split; [cbn in Hout |- *; lia|by eexists].
Qed.

(** Iterating until the iterator answers false. *)
Fixpoint rhs_iterate (fuel : nat) (hs : ck_rhs) (offset : Z) : list Z :=
  match fuel with
  | O => []
  | S fuel => match ck_rhs_next hs offset with
              | (Some v, offset) => v :: rhs_iterate fuel hs offset
              | (None, _) => []
              end
  end.

Lemma next_loop_drop mp todo (offset : nat) :
  Z.of_nat (length (descs mp)) = Z.of_nat offset + Z.of_nat todo ->
  match next_loop mp todo (Z.of_nat offset) with
  | (Some v, o') => ∃ o2 : nat, o' = Z.of_nat o2 /\ (offset < o2 <= offset + todo)%nat /\
      filter (λ k, k <> CK_RHS_EMPTY) (entry <$> drop offset (descs mp)) =
      v :: filter (λ k, k <> CK_RHS_EMPTY) (entry <$> drop o2 (descs mp))
  | (None, _) => filter (λ k, k <> CK_RHS_EMPTY) (entry <$> drop offset (descs mp)) = []
  end.
Proof.
  revert offset. induction todo as [|todo IH]; intros offset Hl; cbn [next_loop].
  { rewrite drop_ge; [lia|done]. }
  destruct (lookup_lt_is_Some_2 (descs mp) offset) as [d Hd]; [lia|].
  unfold ck_rhs_entry, ck_rhs_desc. rewrite Nat2Z.id Hd. cbn [mbind option_bind].
  change (default CK_RHS_EMPTY (Some (entry d))) with (entry d).
  rewrite (drop_S _ _ _ Hd) fmap_cons filter_cons.
  destruct (Z.eqb_spec (entry d) CK_RHS_EMPTY) as [He|He]; cbn [negb].
  - destruct (decide (entry d <> CK_RHS_EMPTY)) as [|_]; [done|]. replace (Z.of_nat offset + 1) with (Z.of_nat (S offset)) by lia.
    specialize (IH (S offset) ltac:(lia)). destruct (next_loop mp todo _) as [[v|] o']; [|done].
    destruct IH as (o2 & -> & Ho & E). exists o2. split; [done|]. split; [lia|done].
  - destruct (decide (entry d <> CK_RHS_EMPTY)) as [_|]; [|done].
    exists (S offset). split; [lia|]. split; [lia|done].
Qed.

Lemma rhs_iterate_ok fuel hs (offset : nat) :
  Z.of_nat (length (descs (map hs))) = capacity (map hs) -> Z.of_nat offset <= capacity (map hs) ->
  (Z.to_nat (capacity (map hs)) - offset < fuel)%nat ->
  rhs_iterate fuel hs (Z.of_nat offset) =
  filter (λ k, k <> CK_RHS_EMPTY) (entry <$> drop offset (descs (map hs))).
Proof.
  intros Hlen. revert offset. induction fuel as [|fuel IH]; intros offset Ho Hf; [lia|].
  cbn [rhs_iterate]. unfold ck_rhs_next.
  destruct (Z.leb_spec (capacity (map hs)) (Z.of_nat offset)) as [Hge|Hlt].
  { rewrite drop_ge; [lia|done]. }
  pose proof (next_loop_drop (map hs) (Z.to_nat (capacity (map hs) - Z.of_nat offset)) offset ltac:(lia)) as Hn.
  destruct (next_loop _ _ _) as [[v|] o']; [|done].
  destruct Hn as (o2 & -> & Ho2 & ->). f_equal. apply IH; lia.
Qed.
End histories.

(** * Theorems *)

(** C6. Refinement: on a freshly initialised Robin Hood set, in either layout, any
    history of lookups, insertions, replacements, deletions, apply callbacks that
    keep their key and do not clear entries, growths, garbage collections, resets
    and changes of the load factor, over at most 65532 different entries and with
    any allocator that refuses 16 GiB, runs to completion and returns what the same
    history on an abstract set may return; in the end keys are unique, the element
    count is exact and the only memory outstanding is that of the current map. *)
Theorem rhs_refines_set malloc_ok md hash cmp n sd hs ops (U : list Z) :
  ck_rhs_init malloc_ok md (Some hash) cmp (Some ([], true, true)) n sd = Some hs ->
  rhs_keys_ok hs -> malloc_limited malloc_ok -> Z.of_nat (length U) <= 65532 ->
  Forall (rhs_op_ok hs U) ops ->
  ∃ rs hs', rhs_run malloc_ok hs ops = Some (rs, hs') /\
    rhs_trace hs [] ops rs (live_entries (map hs')) /\ rhs_distinct hs (live_entries (map hs')) /\
    ck_rhs_count hs' = Z.of_nat (length (live_entries (map hs'))) /\
    outstanding (m hs') = size (map hs').
Proof.
  intros Hi K Hlim HL Hops. destruct (rhs_init_ok malloc_ok _ _ _ _ _ _ Hi) as [g W].
  assert (keys ∅ = []) as Ek by (unfold keys; by rewrite map_to_list_empty).
  destruct (rhs_run_ok malloc_ok hs g ∅ U ops) as (rs & hs' & g' & T' & Hr & S & W' & Hd & A); try done.
  { rewrite Ek. split; [constructor|]. by intros w w' ?%not_elem_of_nil. }
  { rewrite Ek. by intros x ?%not_elem_of_nil. }
  rewrite Ek in A. pose proof (wf_contents malloc_ok hs' g' T' W') as Hc. exists rs, hs'. split_and!; [done|..].
  - by eapply rhs_trace_perm.
  - by eapply distinct_perm.
  - unfold ck_rhs_count. by rewrite (rw_n_entries _ _ _ _ W') Hc -keys_length.
  - rewrite (sh_size _ _ (rep_shape _ _ _ _ _ _ _ (rw_rep _ _ _ _ W'))). apply W'.
Qed.

Definition rhs_demo_malloc (_ : heap) (size : Z) : bool := size <? 2 ^ 34.
Definition rhs_demo_hash (k _ : Z) : Z := u64 (k * 2654435761).

Definition rhs_demo (md : Z) : option ck_rhs :=
  ck_rhs_init rhs_demo_malloc md (Some rhs_demo_hash) None (Some ([], true, true)) 8 0.

Lemma rhs_demo_keys_ok hs : compare hs = None -> rhs_keys_ok hs.
Proof.
  intros Hc. split; unfold rhs_keq; rewrite Hc; intros k1 k2; rewrite ?orb_false_r.
  - by rewrite !Z.eqb_eq.
  - intros k3. rewrite !orb_false_r !Z.eqb_eq. congruence.
  - rewrite Z.eqb_eq. congruence.
Qed.

Lemma rhs_demo_limited : malloc_limited rhs_demo_malloc.
Proof. intros h sz Hsz. apply Z.ltb_ge. done. Qed.

Definition rhs_demo_history : list rhs_op :=
  (RhsPut <$> seqZ 1 12) ++ [RhsRemove 3; RhsGet 3; RhsPut 5; RhsSet 7; RhsFas 20; RhsGc; RhsGet 7;
    RhsApply 40 (λ _, 40); RhsLoadFactor 90; RhsGrow 100; RhsGet 40; RhsRemove 7].

Lemma rhs_demo_some md :
  match rhs_demo md with Some hs => compare hs = None | None => False end.
Proof.
  unfold rhs_demo, ck_rhs_init, ck_rhs_map_create, malloc. set (ok := rhs_demo_malloc _ _).
  assert (ok = true) as ->; [|done]. unfold ok, rhs_demo_malloc, ck_rhs_map_size. cbn [mode].
  by destruct (is_read_mostly md).
Qed.

Lemma rhs_demo_ops_ok hs : compare hs = None -> Forall (rhs_op_ok hs (seqZ 1 60)) rhs_demo_history.
Proof.
  intros Hc. assert (∀ w, 1 <= w <= 60 -> w ∈ seqZ 1 60) as Hin by (intros; apply elem_of_seqZ; lia).
  unfold rhs_demo_history. apply Forall_app. split.
  - apply Forall_fmap, Forall_forall. intros v Hv. pose proof Hv as Hv'%elem_of_seqZ.
    cbn. split; [unfold CK_RHS_EMPTY; lia|apply Hin; lia].
  - repeat constructor; cbn; try done; try (apply Hin; lia).


Qed.

Lemma rhs_refines_set_witness :
  ∃ hs, rhs_demo CK_RHS_MODE_READ_MOSTLY = Some hs /\
  ∃ rs hs', rhs_run rhs_demo_malloc hs rhs_demo_history = Some (rs, hs') /\
    rhs_trace hs [] rhs_demo_history rs (live_entries (map hs')) /\
    rhs_distinct hs (live_entries (map hs')) /\
    ck_rhs_count hs' = Z.of_nat (length (live_entries (map hs'))) /\
    outstanding (m hs') = size (map hs').
Proof.
  pose proof (rhs_demo_some CK_RHS_MODE_READ_MOSTLY) as Hc.
  destruct (rhs_demo CK_RHS_MODE_READ_MOSTLY) as [hs|] eqn:Hi; [|destruct Hc].
  exists hs. split; [reflexivity|].
  apply (rhs_refines_set rhs_demo_malloc CK_RHS_MODE_READ_MOSTLY rhs_demo_hash None 8 0 hs
           rhs_demo_history (seqZ 1 60) Hi).
  - by apply rhs_demo_keys_ok.
  - apply rhs_demo_limited.
  - vm_compute. discriminate.
  - by apply rhs_demo_ops_ok.
Defined.

(** The same history, computed in both layouts. *)
Example rhs_demo_run :
  (λ md, hs ← rhs_demo md; '(rs, hs') ← rhs_run rhs_demo_malloc hs rhs_demo_history;
   Some (drop 12 rs.*1, ck_rhs_count hs', capacity (map hs'))) <$> [CK_RHS_MODE_SPMC; CK_RHS_MODE_READ_MOSTLY] =
  replicate 2 (Some ([RhsPtr 3; RhsPtr 0; RhsBool false; RhsBoolPtr true 7; RhsBoolPtr false 0; RhsUnit;
    RhsPtr 7; RhsBool true; RhsBool true; RhsBool true; RhsPtr 40; RhsPtr 7], 11, 128)).
Proof. vm_compute. reflexivity. Qed.
