(* ===== verification/RhsFacts.v ===== *)
(** The Robin Hood hash set: iteration, unique insertion, the walk, the invariant of
    the table in terms of its fields, and what growth and [ck_rhs_apply] do to the
    counters. *)

From S2P Require Export RhsTheorems.
Set Warnings "-rewrite-rw,-clear-no-such-hyp".

(** C31. Iteration: after any history, iterating from a fresh iterator until it
    answers false produces the entries of the set, each key exactly once. *)
Theorem rhs_iteration_complete malloc_ok md hash cmp n sd hs ops (U : list Z) rs hs' :
  ck_rhs_init malloc_ok md (Some hash) cmp (Some ([], true, true)) n sd = Some hs ->
  rhs_keys_ok hs -> malloc_limited malloc_ok -> Z.of_nat (length U) <= 65532 ->
  Forall (rhs_op_ok hs U) ops -> rhs_run malloc_ok hs ops = Some (rs, hs') ->
  let produced := rhs_iterate (S (Z.to_nat (capacity (map hs')))) hs' ck_rhs_iterator_init in
  rhs_distinct hs produced /\ Z.of_nat (length produced) = ck_rhs_count hs' /\
  rhs_trace hs [] ops rs produced.
Proof.
  intros Hi K Hlim HL Hops Hrun. destruct (rhs_init_ok malloc_ok _ _ _ _ _ _ Hi) as [g W].
  assert (keys ∅ = []) as Ek by (unfold keys; by rewrite map_to_list_empty).
  destruct (rhs_run_ok malloc_ok hs g ∅ U ops) as (rs1 & hs1 & g' & T' & Hr & S & W' & Hd & A); try done.
  { rewrite Ek. split; [constructor|]. by intros w w' ?%not_elem_of_nil. }
  { rewrite Ek. by intros x ?%not_elem_of_nil. }
  rewrite Hrun in Hr. injection Hr as <- <-. rewrite Ek in A.
  pose proof (wf_contents malloc_ok hs' g' T' W') as Hc.
  pose proof (rep_shape _ _ _ _ _ _ _ (rw_rep _ _ _ _ W')) as Sh.
  pose proof (g_descs _ (dm_geometry _ (rw_dimensions _ _ _ _ W'))) as Hlen.
  destruct (dm_capacity _ (rw_dimensions _ _ _ _ W')) as (k & Hk & Ec).
  pose proof (Z.pow_pos_nonneg 2 k ltac:(lia) ltac:(lia)).
  intros produced. assert (produced = live_entries (map hs')) as ->.
  { unfold produced. apply (rhs_iterate_ok _ hs' 0).
    - by rewrite (sh_descs _ _ Sh) (sh_capacity _ _ Sh).
    - rewrite (sh_capacity _ _ Sh). lia.
    - lia. }
  split_and!.
  - by eapply distinct_perm.
  - unfold ck_rhs_count. by rewrite (rw_n_entries _ _ _ _ W') Hc -keys_length.
  - by eapply rhs_trace_perm.
Qed.

Lemma rhs_demo_ran :
  match rhs_demo CK_RHS_MODE_SPMC with
  | Some hs => match rhs_run rhs_demo_malloc hs rhs_demo_history with Some _ => true | None => false end
  | None => false
  end = true.
Proof. vm_compute. reflexivity. Qed.

Lemma rhs_iteration_complete_witness :
  ∃ hs rs hs', rhs_demo CK_RHS_MODE_SPMC = Some hs /\
    let produced := rhs_iterate (S (Z.to_nat (capacity (map hs')))) hs' ck_rhs_iterator_init in
    rhs_distinct hs produced /\ Z.of_nat (length produced) = ck_rhs_count hs' /\
    rhs_trace hs [] rhs_demo_history rs produced.
Proof.
  pose proof (rhs_demo_some CK_RHS_MODE_SPMC) as Hc.
  pose proof rhs_demo_ran as Hrun. destruct (rhs_demo CK_RHS_MODE_SPMC) as [hs|] eqn:Hi; [|destruct Hc].
  destruct (rhs_run rhs_demo_malloc hs rhs_demo_history) as [[rs hs']|] eqn:Hr; [|discriminate Hrun].
  exists hs, rs, hs'. split; [reflexivity|].
  apply (rhs_iteration_complete rhs_demo_malloc CK_RHS_MODE_SPMC rhs_demo_hash None 8 0 hs
           rhs_demo_history (seqZ 1 60) rs hs' Hi).
  - by apply rhs_demo_keys_ok.
  - apply rhs_demo_limited.
  - vm_compute. discriminate.
  - by apply rhs_demo_ops_ok.
  - exact Hr.
Defined.



(** C34. The walk can be undone: [ck_rhs_map_probe_prev] reverses every step, and
    [ck_rhs_get_first_offset] recovers the home of a key from any slot of its walk
    and the probe count stored there. *)
Theorem rhs_walk_roundtrip mp h (n : nat) :
  geometry mp ->
  ck_rhs_map_probe_prev mp (walk mp h (S n)) (Z.of_nat (S n)) = walk mp h n /\
  ck_rhs_get_first_offset mp (walk mp h n) (Z.of_nat n + 1) = Z.land h (mask mp).
Proof. intros G. split; [by apply walk_prev|by apply first_offset_walk]. Qed.

Definition rhs_demo_map : ck_rhs_map :=
  match rhs_demo CK_RHS_MODE_SPMC with
  | Some hs => map hs
  | None => CkRhsMap [] 0 0 0 0 0 0 0 0 0 [] false
  end.

Lemma rhs_demo_geometry : geometry rhs_demo_map.
Proof.
  pose proof (rhs_demo_some CK_RHS_MODE_SPMC) as Hc. unfold rhs_demo_map.
  destruct (rhs_demo CK_RHS_MODE_SPMC) as [hs|] eqn:Hi; [|destruct Hc].
  destruct (rhs_init_ok rhs_demo_malloc CK_RHS_MODE_SPMC rhs_demo_hash None 8 0 hs Hi) as [g W].
  eapply shape_geometry; [apply W|apply (rw_rep _ _ _ _ W)].
Qed.

Lemma rhs_walk_roundtrip_witness :
  ck_rhs_map_probe_prev rhs_demo_map (walk rhs_demo_map 13 6) 6 = walk rhs_demo_map 13 5 /\
  ck_rhs_get_first_offset rhs_demo_map (walk rhs_demo_map 13 5) 6 = 5.
Proof. apply (rhs_walk_roundtrip rhs_demo_map 13 5). apply rhs_demo_geometry. Defined.

(** C35. The first [capacity] probes of any key visit every slot of the table
    exactly once. *)
Theorem rhs_walk_permutes mp h :
  geometry mp -> walk mp h <$> seq 0 (Z.to_nat (capacity mp)) ≡ₚ seqZ 0 (capacity mp).
Proof.
  intros G. apply NoDup_Permutation.
  - apply NoDup_fmap_2_strong; [|apply NoDup_seq]. intros i j Hi%elem_of_seq Hj%elem_of_seq E.
    apply (walk_inj mp G h i j); [lia|lia|done].
  - apply NoDup_seqZ.
  - intros s. rewrite list_elem_of_fmap elem_of_seqZ. split.
    + intros (i & -> & Hi%elem_of_seq). pose proof (walk_range mp G h i). lia.
    + intros Hs. destruct (walk_covers mp G h s) as (i & Hi & <-); [lia|].
      exists i. split; [done|]. apply elem_of_seq. lia.
Qed.

Lemma rhs_walk_permutes_witness :
  walk rhs_demo_map 13 <$> seq 0 8 ≡ₚ seqZ 0 8.
Proof. apply (rhs_walk_permutes rhs_demo_map 13). apply rhs_demo_geometry. Defined.

(** C33. Growth terminates whatever the hash function does, also on the bad ones
    that send every key home to the same slot, and keeps the entries of the set. *)
Theorem rhs_grow_terminates malloc_ok hs g T cap :
  rhs_wf malloc_ok hs g T -> count T < 65533 -> 0 <= cap < 2 ^ 64 ->
  ∃ b hs', ck_rhs_grow malloc_ok hs cap = Some (b, hs') /\
    live_entries (map hs') ≡ₚ live_entries (map hs) /\ ∃ g' T', rhs_wf malloc_ok hs' g' T'.
Proof.
  intros W Hfew Hcap. destruct (ck_rhs_grow_post malloc_ok hs g T cap W Hfew Hcap) as (b & hs' & Hg & _ & g' & T' & W' & E).
  exists b, hs'. split; [done|]. split; [|by eauto].
  by rewrite (wf_contents malloc_ok hs' g' T' W') E (wf_contents malloc_ok hs g T W).
Qed.

Lemma rhs_grow_terminates_witness :
  ∃ hs, rhs_demo CK_RHS_MODE_READ_MOSTLY = Some hs /\
  ∃ b hs', ck_rhs_grow rhs_demo_malloc hs 1000 = Some (b, hs') /\
    live_entries (map hs') ≡ₚ live_entries (map hs) /\ ∃ g' T', rhs_wf rhs_demo_malloc hs' g' T'.
Proof.
  pose proof (rhs_demo_some CK_RHS_MODE_READ_MOSTLY) as Hc.
  destruct (rhs_demo CK_RHS_MODE_READ_MOSTLY) as [hs|] eqn:Hi; [|destruct Hc]. exists hs. split; [reflexivity|].
  destruct (rhs_init_ok rhs_demo_malloc CK_RHS_MODE_READ_MOSTLY rhs_demo_hash None 8 0 hs Hi) as [g W].
  apply (rhs_grow_terminates rhs_demo_malloc hs g ∅ 1000 W); [vm_compute; reflexivity|lia].
Defined.







(** [ck_rhs_apply] with a callback that clears the entry deletes it but leaves
    the element count as it was: an empty set then counts one element. *)
Theorem rhs_apply_clear_miscounts :
  (hs ← rhs_demo CK_RHS_MODE_SPMC;
   '(_, hs) ← ck_rhs_put rhs_demo_malloc hs (rhs_hash hs 5) 5;
   '(b, hs) ← ck_rhs_apply rhs_demo_malloc hs (rhs_hash hs 5) 5 (λ _, CK_RHS_EMPTY);
   Some (b, live_entries (map hs), ck_rhs_count hs)) = Some (true, [], 1).
Proof. vm_compute. reflexivity. Qed.

(** A saturated [wanted] counter stays saturated when an insertion counts one
    more walk past its slot, but wraps to 0 when growth does. *)
Theorem rhs_wanted_wraps_in_growth :
  (mp ← update_desc rhs_demo_map 0 (put_wanted CK_RHS_MAX_WANTED);
   mp1 ← ck_rhs_add_wanted mp (walk mp 0 1) None 0;
   mp2 ← ck_rhs_wanted_inc mp 0;
   Some (wanted (D mp1 0), wanted (D mp2 0))) = Some (CK_RHS_MAX_WANTED, 0).
Proof. vm_compute. reflexivity. Qed.
